(* ===== verification/_CoqProject ===== *)
-Q . S2P
Prelude.v
Mem.v
Fifo.v
Ring.v
CppRing.v
Conv.v
Callback.v
Channel.v
Base.v
Suspend.v
PtrList.v
Loop.v
Reopen.v
Text.v
Config.v
ConfigSpec.v
Encode.v
Yaml.v
YamlSpec.v
Stat.v
Scheme.v
SchemeLayout.v
Processor.v
ProcessorSpec.v
ProcessorTotal.v
Deps.v
DepsSpec.v
Binder.v
Storage.v
File.v
FileLayout.v
FileMeta.v
FileRead.v
FileWrite.v
FileSpec.v
FileCrash.v
FileSeek.v
FileTail.v
Rotate.v
RotateSpec.v
Queue.v
StreamScheme.v
StreamClient.v
StreamServer.v
StreamServerSpec.v
Blocks.v
BlocksSpec.v
StreamRing.v
Stream.v
StreamClientSpec.v
StreamPhase.v
StreamSteps.v
StreamSpec.v
MemChannel.v
MemChannelSpec.v
