(* ===== verification/Prelude.v ===== *)
(** * Verification of the TLL framework

    TLL is a framework of message channels in C and C++.  A channel is an
    object with a state (Closed, Opening, Active, Closing, Error), children,
    callbacks and an implementation class; a processor runs channels in event
    loops; configuration trees and urls describe them; rings carry messages
    between threads and processes; statistics are collected from other
    threads.  This library models these parts of the framework and proves
    what they promise to each other.  Paths below are those of the
    repository, where all code is under the directory [src].

    ** Files

    - [Prelude] (this file): results and errors, machine integers with their
      wrap-around, tactics and lemmas that several files use.
    - [Mem]: byte memory with bounds-checked loads and stores.
    - [Fifo]: the class [Fifo], the contract of a bounded queue of messages
      (operations with their laws), the trace theorem for its clients, and the
      layout of blocks that both rings share.
    - [Ring]: src/ring.c and src/tll/ring.h (Module [RingC]), an instance of [Fifo].
      The header is the record [ring_header], its offsets 64-bit integers, the
      data an array of bytes.
    - [CppRing]: src/tll/cppring.h (Module [RingT]), the template over the two
      generation counters, an instance of [Fifo] and equivalent to [RingC].
    - [Conv]: src/tll/conv/base.h, src/tll/conv/integer.h, src/tll/util/size.h.
    - [Callback]: the callback arrays of src/channel/context.cc and
      src/tll/channel/impl.h (Module [Cb]).
    - [Channel]: channel objects, messages and children, src/channel/impl.c,
      src/tll/channel/impl.h, src/tll/channel.h (Module [Chan]).  Objects live in a
      store and refer to each other by identifiers; the log of the store
      records state changes and calls of callbacks.
    - [Base]: src/tll/channel/base.h and the functions of
      src/channel/context.cc that open, close, process, post to and free a
      channel.  The class of a channel is a record of its policies and hooks.
    - [Suspend]: [tll_channel_suspend] and [tll_channel_resume].
    - [PtrList], [Loop]: src/tll/util/pointer_list.h and the event loop of
      src/tll/processor/loop.h over it.
    - [Reopen]: src/tll/channel/reopen.h (Module [Reopen]), src/tll/channel/autoseq.h and
      src/tll/channel/lastseq.h (Module [AutoSeq]).
    - [Text]: splitting of strings (Module [Str]), stripping ([Find]),
      properties and urls ([Props]), typed access to parameters ([Getter]),
      addresses ([HostPort]), lists of values ([ListConv]), bit fields
      ([Bits]) and masks ([Browse]): src/tll/util/string.h, props.h, url.h,
      getter.h, hostport.h, bits.h, browse.h and src/tll/conv/list.h.
    - [Config], [ConfigSpec]: the configuration tree of src/config/config.h and
      its C interface src/config/config.cc, a heap of nodes with links, and
      its theory.
    - [Yaml], [YamlSpec]: src/config/yaml.cc, the machine that builds a configuration from the events of a YAML
      parser, and the loaders, imports and urls of src/config/config.cc on top of it; what a document means.
    - [Encode]: src/tll/util/bin2ascii.h (Modules [Hex], [Base64]),
      src/tll/util/varint.h ([Varint]) and src/tll/util/decimal128.h ([Decimal128]).
    - [Stat]: src/tll/stat.h and src/stat.cc, writers and a collector as interleaved
      steps.
    - [Scheme], [SchemeLayout]: descriptors of messages of src/tll/scheme.h and
      the passes of src/scheme.cc that compute sizes and offsets
      ([tll_scheme_fix]) and print types; their theory against the simple
      layout of a packed structure.
    - [Processor], [ProcessorSpec], [ProcessorTotal]: the graph of objects of
      src/processor/processor.cc, src/processor/deps.cc: readiness, activation
      and deactivation on reports of workers, pending actions; the order it
      keeps, progress, and termination of its walks over the graph.
    - [Deps], [DepsSpec]: how the processor builds the graph from the list of
      objects with their dependencies, and levels.
    - [Binder]: messages in a growing buffer, src/tll/scheme/binder.h: scalars
      and strings behind offset pointers.
    - [File]: the file channel src/channel/file.cc with posix input and
      output and without compression, on a file that is a list of bytes;
      [FileLayout] (frames and blocks on the disk), [FileMeta] (the metadata
      in front), [FileRead] and [FileWrite] (readers and writers against the
      layout), [FileSpec] (the round trip), [FileCrash] (recovery), [FileSeek]
      (the search for a number and the modes of opening), [FileTail] (reading
      while another channel writes).
    - [Storage]: logs of messages and the class [Storage], what a storage
      promises to the channels over it; the file channel is an instance.
    - [Rotate], [RotateSpec]: src/channel/rotate.cc over any [Storage]: the map of files, a writer that
      rotates and a reader that follows; its theory.
    - [Queue]: the queues of src/tll/util/cppring.h: a ring in a vector
      ([VecRing]) and a ring of frames with data ([DataRing]), an instance of [Fifo].
    - Streams, where a client gets what a server has stored and then what it
      posts: [StreamScheme] (the messages of the protocol over [Binder],
      src/channel/stream-scheme.h), [StreamServer]
      (src/channel/stream-server.cc over any [Storage]), [StreamServerSpec] (its theory: what one
      client is sent while anything else goes on), [Blocks] and [BlocksSpec] (src/channel/blocks.cc as
      the blocks of the server: places in its log that clients ask for), [StreamClient] (src/channel/stream-client.cc with
      the callbacks of src/tll/channel/prefix.h), [StreamClientSpec] and [StreamRing] (what its
      handlers change, its ring as a list of messages), [Stream] (a server and a client with
      queues between them as a system of steps), [StreamPhase], [StreamSteps] and [StreamSpec] (the
      invariant of the system phase by phase, its preservation by the handlers, and the theorem).
    - [MemChannel], [MemChannelSpec]: the memory channels of src/channel/mem.cc and the events of
      src/tll/channel/event.h over any [Fifo], with a step for every access to what two threads share; the invariant
      under any interleaving.

    Definitions keep the names of the source.  An operation that mutates an
    object takes the object (or the store) and returns the new one; an error
    code is a [result]; a computation that can reach undefined behaviour (an
    access outside of a buffer, a null pointer, a shift that is too wide) is
    an [option] with [None] for it.

    ** What is proved

    - Rings: no access leaves the buffer, a ring behaves as a queue under any
      interleaving of calls, iterators and subscribers read complete messages
      or are told that they lost their place, both implementations agree.
    - Callbacks: delivery is exactly to the pairs that asked for a message
      (with the exception of data callbacks removed from the middle).
    - Channels: every state change follows the life cycle, a forced close of a
      tree of channels always ends in Closed, destroyed channels are detached
      from their parents and nothing else changes, guards of open, post and process, suspend and resume
      on trees.
    - Event loop: the lists and the poll table follow the messages of the
      channels, a step runs the channels it is meant to run, and channels with
      descriptors are not starved.
    - Reopen: backoff is bounded and exponential, an armed timer always acts.
    - Configuration: without links a tree refines a map from paths to values,
      browsing lists what matches the mask, links between simple paths are
      transparent when no symbolic link of the machine is in the way, and links
      in a circle make look-ups diverge.
    - Loading: a document becomes the map of the values it stands for, and is refused when a path
      gets two values; failing cases for merges, aliases and long lists.
    - Text: printing and parsing round trips for integers, urls, base64,
      hexadecimal, variable length integers and decimals; specification of
      splitting; error reporting of readers.
    - Statistics: pages are never shared and no update is lost, with every load
      and store of a writer and every step of the collector apart.
    - Schemes: the offsets and sizes that are computed are those of a packed
      structure with fields one after another, so that fields never overlap.
    - Processor: an object is opened only when what it depends on is ready and
      closed only when its dependants are closed, under any interleaving of
      legal reports; an object that may start gets its request; walks end.
      The initialisation accepts a list of objects exactly when names resolve
      and there is no circle, the levels it builds follow dependencies, and each
      name is created once, as the first enabled object that has it.
    - Files: a file is the log of the messages that were accepted: a writer,
      in any number of sessions, followed by a reader gives the messages back
      in their order, and when only a part of the last message has reached the
      disk the next writer cuts it off and goes on behind the message before.
      Opening at a number finds the first message that is not before it, and a
      reader that follows a writer gets what the writer stores.
      Strings set in a message are read back and nothing else changes.
      A storage that is rotated into many files is one log for a reader, however rotations and reading interleave.
    - Streams: requests are read as they are written; the server sends a client the
      log from the number in its reply on, whatever comes in between; and server and client
      together: under any interleaving the user of the client has at every moment the
      beginning of the log of the server from the number asked for, and all of it when everything has come to rest
      (except for mode=last, which starts one message early: [StreamSpec.last_two]).
      The steps at which the code loses messages are named ([Stream.calm]), with runs that lose them.
    - Blocks: a client that asks for a block gets what came into the log after the block was made, and
      blocks survive in their file.
    - Memory channels: under any interleaving of the accesses of both threads messages arrive in order and
      without gaps, and a reader with something in its ring is woken, across any number of reopens; no
      step faults as long as the master is not closed while its child opens, and the one that then does is named.

    Where the code does not do what it is meant to, the theorem is stated for
    the inputs where it does and a lemma shows the failing case.

    ** Bounds and fuel

    Loops over data are structural.  Recursion that is not takes a number:
    the recursive close and free of channels the depth of the tree of channels
    (the theorems show that the depth is enough); printing of integers the
    width of the type, which exceeds the number of digits; the encoding of
    variable length integers the size of the buffer; look-ups in a
    configuration a depth that the theorems bound by the length of the path
    (and of the links on it; one more than the longest key of a document, four for the file of blocks), browsing the height of the tree;
    [Stat.acquire_wait] the number of iterations; the walks of the processor
    the number of ranks of its graph, the depth of an object the number of
    objects plus one; the layout of schemes one per level of reference; the loops of the file channel over messages one more
    than there are messages (its search twice the number and three), its two recursions (over a skip frame, over the first
    block) two calls; the ring of the stream client two more than its index has entries.  Theorems are stated as "with this much fuel the
    result is ...", so they include termination.

    ** What is not modelled

    Memory allocation does not fail, and locks and reference counts are left
    out: operations on channels and configurations run one at a time, memory channels excepted.
    Atomic operations of the statistics are sequentially consistent.  User
    callbacks of channels are recorded and do not call back into the
    framework; hooks of a class act on their own channel only.  Of schemes
    the parser, copying and conversion of messages are left out, and references
    between descriptors lead to earlier descriptors; of the processor
    its workers and threads (a worker is the reports that it sends, and the theorems assume that
    reports follow the life cycle of channels).  Of the file channel
    compression, the mmap variant, locks, access rights and the reading of its
    parameters are left out; the disk refuses what would make a file larger
    than a limit, other errors of system calls do not occur; the theorems ask
    that messages fit in a block with its header, and that the first one fits behind
    the metadata.  Of rotated storage the scan of the directory, automatic numbers and conversion
    are left out; the reader shares the map with the writer, does not close at the end, and operations run one at a time.  Of streams the reading of parameters, control messages that
    the server passes on to its storage (and rotation on a block), and the states of its own channels
    are left out; a control message goes to the blocks when their control scheme has it ([b_control]); a handler returns before the next one starts, except that the user
    may close the client in a callback; queues between server and client are reliable,
    and the theorem about both is for the new form of requests without blocks and without mode=last.  Of memory channels
    calls of the ring and of the event are atomic, as is the assignment of the descriptor that the child
    gives its master (its open is otherwise in steps: the checks of the master, the copy of the rings under the
    lock, the assignment), the event descriptors are any that do what
    Linux documents ([EventFd]), and the callback of a message does not close the channel (a lemma shows what happens).  Floating
    point, logging, loading of modules, sockets, timers and the
    Python bindings are not part of the model; the YAML parser and decompression are parameters of [Yaml],
    and what the machine has for the paths of links is one of [Config] (the class [Host], for
    [std::filesystem::weakly_canonical]; its exceptions are left out).

    ** Plan

    Next: prefix and tagged channels over [Base]; the other channels over rings (ipc, pub+mem); fixed point and decimal text; parsing
    and conversion of schemes; workers of the processor; the scan of a directory of rotated files. *)

From stdpp Require Export base option list numbers strings gmap.
From Stdlib Require Export ZArith Lia.

Declare Scope tll_scope.
Delimit Scope tll_scope with tll.
#[global] Open Scope Z_scope.
#[global] Open Scope tll_scope.

(** ** Error codes and results

    C functions of the framework return an [int] that is zero on success and
    an errno value otherwise, with results in out-parameters; C++ helpers
    return [tll::result_t] or [expected].  Both become [result E A]. *)
Inductive errno := EAGAIN | EINVAL | ERANGE | ENOMEM | EEXIST | ENOENT | ENOSYS | EMSGSIZE | EBUSY.

#[global] Instance errno_eq_dec : EqDecision errno.
Proof. solve_decision. Defined.

(** The numbers of Linux. *)
Definition errno_code (e : errno) : Z :=
  match e with
  | EAGAIN => 11 | EINVAL => 22 | ERANGE => 34 | ENOMEM => 12 | EEXIST => 17 | ENOENT => 2 | ENOSYS => 38
  | EMSGSIZE => 90 | EBUSY => 16
  end.

Inductive result (E A : Type) : Type :=
| Ok (a : A)
| Err (e : E).
Arguments Ok {E A} a.
Arguments Err {E A} e.

#[global] Instance result_eq_dec {E A} `{EqDecision E, EqDecision A} : EqDecision (result E A).
Proof. solve_decision. Defined.

Definition result_bind {E A B} (r : result E A) (f : A → result E B) : result E B :=
  match r with Ok a => f a | Err e => Err e end.

Notation "'let?' x := e 'in' k" := (result_bind e (fun x => k))
  (at level 10, x pattern, e at level 100, k at level 200) : tll_scope.

(** A computation that may also hit undefined behaviour (an access outside of
    the buffer) is an [option]: [None] is the fault. *)
Notation "'let!' x := e 'in' k" := (mbind (fun x => k) e)
  (at level 10, x pattern, e at level 100, k at level 200) : tll_scope.

(** ** Machine integers

    A [w]-bit integer is a [Z]; the wrap-around of unsigned arithmetic and of
    conversions to a narrower type is written with these two functions. *)
Definition wrapu (w z : Z) : Z := z mod 2 ^ w.
Definition wraps (w z : Z) : Z := (z + 2 ^ (w - 1)) mod 2 ^ w - 2 ^ (w - 1).

Abbreviation u8 := (wrapu 8).
Abbreviation u16 := (wrapu 16).
Abbreviation u32 := (wrapu 32).
Abbreviation u64 := (wrapu 64).
Abbreviation i32 := (wraps 32).
Abbreviation i64 := (wraps 64).

Lemma wrapu_id w z : 0 ≤ z < 2 ^ w → wrapu w z = z.
Proof. apply Z.mod_small. Qed.

Lemma wrapu_range w z : 0 ≤ w → 0 ≤ wrapu w z < 2 ^ w.
Proof. intros. apply Z.mod_pos_bound, Z.pow_pos_nonneg; lia. Qed.

Lemma wraps_id w z : 0 < w → - 2 ^ (w - 1) ≤ z < 2 ^ (w - 1) → wraps w z = z.
Proof.
  intros Hw Hz. unfold wraps.
  assert (2 ^ w = 2 * 2 ^ (w - 1)) as E by (rewrite <-Z.pow_succ_r by lia; f_equal; lia).
  rewrite Z.mod_small; lia.
Qed.

Lemma wraps_range w z : 0 < w → - 2 ^ (w - 1) ≤ wraps w z < 2 ^ (w - 1).
Proof.
  intros Hw. unfold wraps.
  assert (2 ^ w = 2 * 2 ^ (w - 1)) as E by (rewrite <-Z.pow_succ_r by lia; f_equal; lia).
  pose proof (Z.mod_pos_bound (z + 2 ^ (w - 1)) (2 ^ w)). nia.
Qed.

Lemma wrapu_wrapu w z : 0 ≤ w → wrapu w (wrapu w z) = wrapu w z.
Proof. intros. apply wrapu_id, wrapu_range; lia. Qed.

(** Concrete powers of two for [lia]. *)
Lemma pow2_8 : 2 ^ 8 = 256. Proof. reflexivity. Qed.
Lemma pow2_16 : 2 ^ 16 = 65536. Proof. reflexivity. Qed.
Lemma pow2_31 : 2 ^ (32 - 1) = 2147483648. Proof. reflexivity. Qed.
Lemma pow2_32 : 2 ^ 32 = 4294967296. Proof. reflexivity. Qed.
Lemma pow2_63 : 2 ^ (64 - 1) = 9223372036854775808. Proof. reflexivity. Qed.
Lemma pow2_64 : 2 ^ 64 = 18446744073709551616. Proof. reflexivity. Qed.

Create HintDb tll discriminated.
Create Rewrite HintDb tll_pow.
Create Rewrite HintDb tll_len.
#[export] Hint Rewrite pow2_8 pow2_16 pow2_31 pow2_32 pow2_63 pow2_64 : tll_pow.

(** [lia] after the powers of two that occur have been evaluated. *)
Ltac zlia := autorewrite with tll_pow in *; lia.

(** Remove the wrap-arounds whose argument is in range. *)
Ltac nowrap :=
  repeat match goal with
  | |- context [wrapu ?w ?z] => rewrite (wrapu_id w z) by zlia
  | |- context [wraps ?w ?z] => rewrite (wraps_id w z) by zlia
  end.

Ltac nowrap_in H :=
  repeat match type of H with
  | context [wrapu ?w ?z] => rewrite (wrapu_id w z) in H by zlia
  | context [wraps ?w ?z] => rewrite (wraps_id w z) in H by zlia
  end.

(** Case analysis on the innermost boolean test of the goal, with the
    comparison on [Z] turned into a proposition. *)
Ltac case_bool :=
  match goal with
  | |- context [(?a =? ?b)] => destruct (Z.eqb_spec a b)
  | |- context [(?a <? ?b)] => destruct (Z.ltb_spec a b)
  | |- context [(?a <=? ?b)] => destruct (Z.leb_spec a b)
  end.

Ltac case_bool_in H :=
  match type of H with
  | context [(?a =? ?b)] => revert H; destruct (Z.eqb_spec a b); intros H
  | context [(?a <? ?b)] => revert H; destruct (Z.ltb_spec a b); intros H
  | context [(?a <=? ?b)] => revert H; destruct (Z.leb_spec a b); intros H
  end.

(** Evaluate the comparisons of the goal that arithmetic decides. *)
Ltac tests :=
  rewrite ?Z.gtb_ltb, ?Z.geb_leb;
  repeat match goal with
  | |- context [(?a =? ?b)] =>
      first [rewrite (proj2 (Z.eqb_eq a b)) by lia | rewrite (proj2 (Z.eqb_neq a b)) by lia]
  | |- context [(?a <? ?b)] =>
      first [rewrite (proj2 (Z.ltb_lt a b)) by lia | rewrite (proj2 (Z.ltb_ge a b)) by lia]
  | |- context [(?a <=? ?b)] =>
      first [rewrite (proj2 (Z.leb_le a b)) by lia | rewrite (proj2 (Z.leb_gt a b)) by lia]
  end.

(** Length of a list as an integer of the model. *)
Definition zlen {A} (l : list A) : Z := Z.of_nat (length l).

Lemma zlen_nonneg {A} (l : list A) : 0 ≤ zlen l.
Proof. unfold zlen; lia. Qed.
Lemma zlen_nil {A} : zlen (@nil A) = 0.
Proof. reflexivity. Qed.
Lemma zlen_cons {A} (x : A) l : zlen (x :: l) = 1 + zlen l.
Proof. unfold zlen; cbn [length]; lia. Qed.
Lemma zlen_app {A} (l k : list A) : zlen (l ++ k) = zlen l + zlen k.
Proof. unfold zlen. rewrite length_app. lia. Qed.

#[export] Hint Rewrite @zlen_nil @zlen_cons @zlen_app : tll_len.
#[export] Hint Resolve zlen_nonneg : tll.
