(* ===== verification/Mem.v ===== *)
(** * Byte memory

    A buffer ([char data[]] of a ring, the payload of a message) is the list
    of its bytes.  Loads and stores are bounds checked: an access that is not
    entirely inside the buffer has no result. *)
From S2P Require Import Prelude.

Definition in_range (m : list Z) (off n : Z) : bool :=
  (0 <=? off) && (0 <=? n) && (off + n <=? zlen m).

Definition mem_load (m : list Z) (off n : Z) : option (list Z) :=
  if in_range m off n then Some (take (Z.to_nat n) (drop (Z.to_nat off) m)) else None.

Definition mem_store (m : list Z) (off : Z) (bs : list Z) : option (list Z) :=
  if in_range m off (zlen bs)
  then Some (take (Z.to_nat off) m ++ bs ++ drop (Z.to_nat (off + zlen bs)) m)
  else None.

(** Little-endian representation of a fixed number of bytes. *)
Fixpoint le_bytes (n : nat) (z : Z) : list Z :=
  match n with O => [] | S n => z mod 256 :: le_bytes n (z / 256) end.

Fixpoint le_value (bs : list Z) : Z :=
  match bs with [] => 0 | b :: bs => b + 256 * le_value bs end.

(** [int32_t] cells inside a buffer. *)
Definition load_i32 (m : list Z) (off : Z) : option Z :=
  let! bs := mem_load m off 4 in Some (i32 (le_value bs)).
Definition store_i32 (m : list Z) (off v : Z) : option (list Z) :=
  mem_store m off (le_bytes 4 v).

(** ** Lemmas *)
Lemma in_range_spec m off n :
  in_range m off n = true ↔ 0 ≤ off ∧ 0 ≤ n ∧ off + n ≤ zlen m.
Proof. unfold in_range. rewrite !andb_true_iff, !Z.leb_le. tauto. Qed.

Lemma length_le_bytes n z : length (le_bytes n z) = n.
Proof. revert z. induction n; intros; cbn; auto. Qed.

Lemma le_value_bytes n z : le_value (le_bytes n z) = z mod 256 ^ Z.of_nat n.
Proof.
  revert z. induction n as [|n IH]; intros z; cbn [le_bytes le_value].
  - by rewrite Z.mod_1_r.
  - rewrite IH, Nat2Z.inj_succ, Z.pow_succ_r by lia.
    rewrite (Z.rem_mul_r z 256) by lia. lia.
Qed.

Lemma mem_load_Some m off n l :
  mem_load m off n = Some l ↔
  0 ≤ off ∧ 0 ≤ n ∧ off + n ≤ zlen m ∧ l = take (Z.to_nat n) (drop (Z.to_nat off) m).
Proof.
  unfold mem_load. destruct (in_range m off n) eqn:E.
  - apply in_range_spec in E. naive_solver.
  - assert (¬ (0 ≤ off ∧ 0 ≤ n ∧ off + n ≤ zlen m)) by (rewrite <-in_range_spec; congruence).
    naive_solver.
Qed.

Lemma mem_load_length m off n l : mem_load m off n = Some l → zlen l = n.
Proof.
  rewrite mem_load_Some. intros (? & ? & H & ->).
  unfold zlen in *. rewrite length_take, length_drop. lia.
Qed.

Lemma mem_load_total m off n :
  0 ≤ off → 0 ≤ n → off + n ≤ zlen m → ∃ l, mem_load m off n = Some l.
Proof. intros. eexists. apply mem_load_Some. eauto. Qed.

Lemma mem_store_Some m off bs m' :
  mem_store m off bs = Some m' ↔
  0 ≤ off ∧ off + zlen bs ≤ zlen m ∧
  m' = take (Z.to_nat off) m ++ bs ++ drop (Z.to_nat (off + zlen bs)) m.
Proof.
  unfold mem_store. pose proof (zlen_nonneg bs).
  destruct (in_range m off (zlen bs)) eqn:E.
  - apply in_range_spec in E. naive_solver.
  - assert (¬ (0 ≤ off ∧ 0 ≤ zlen bs ∧ off + zlen bs ≤ zlen m))
      by (rewrite <-in_range_spec; congruence).
    naive_solver.
Qed.

Lemma mem_store_total m off bs :
  0 ≤ off → off + zlen bs ≤ zlen m → ∃ m', mem_store m off bs = Some m'.
Proof. intros. eexists. apply mem_store_Some. eauto. Qed.

Lemma mem_store_zlen m off bs m' : mem_store m off bs = Some m' → zlen m' = zlen m.
Proof.
  rewrite mem_store_Some. intros (? & H & ->). unfold zlen in *.
  rewrite !length_app, length_take, length_drop. lia.
Qed.

Lemma mem_store_lookup m off bs m' (i : nat) :
  mem_store m off bs = Some m' →
  m' !! i = if (off <=? Z.of_nat i) && (Z.of_nat i <? off + zlen bs) then bs !! (i - Z.to_nat off)%nat else m !! i.
Proof.
  rewrite mem_store_Some. intros (Hoff & Hlen & ->). unfold zlen in *.
  assert (length (take (Z.to_nat off) m) = Z.to_nat off) as Hl by (rewrite length_take; lia).
  destruct (Z.leb_spec off (Z.of_nat i)) as [H1|H1]; [destruct (Z.ltb_spec (Z.of_nat i) (off + Z.of_nat (length bs))) as [H2|H2]|]; cbn.
  - rewrite lookup_app_r, Hl by lia. rewrite lookup_app_l by lia. done.
  - rewrite lookup_app_r, Hl by lia. rewrite lookup_app_r by lia. rewrite lookup_drop. f_equal. lia.
  - rewrite lookup_app_l by lia. rewrite lookup_take_lt by lia. done.
Qed.

Lemma mem_load_lookup m off n l (i : nat) :
  mem_load m off n = Some l → Z.of_nat i < n → l !! i = m !! (Z.to_nat off + i)%nat.
Proof.
  rewrite mem_load_Some. intros (? & ? & ? & ->) Hi.
  rewrite lookup_take_lt by lia. by rewrite lookup_drop.
Qed.

(** Two loads of the same size see the same bytes when the cells agree. *)
Lemma mem_load_ext m m' off n :
  zlen m = zlen m' →
  (∀ i : nat, off ≤ Z.of_nat i < off + n → m !! i = m' !! i) →
  mem_load m off n = mem_load m' off n.
Proof.
  intros Hlen Heq. unfold mem_load, in_range. rewrite Hlen.
  destruct ((0 <=? off) && (0 <=? n) && (off + n <=? zlen m')) eqn:E; [|done]. f_equal.
  apply list_eq. intros i. rewrite !lookup_take. case_decide; [|done].
  rewrite !lookup_drop. apply Heq.
  rewrite !andb_true_iff, !Z.leb_le in E. lia.
Qed.

(** The same for buffers of different sizes. *)
Lemma mem_load_agree m m' off n l :
  mem_load m off n = Some l → off + n ≤ zlen m' →
  (∀ i : nat, off ≤ Z.of_nat i < off + n → m' !! i = m !! i) → mem_load m' off n = Some l.
Proof.
  intros H Hl Hi. pose proof (mem_load_length _ _ _ _ H) as Hn. apply mem_load_Some in H as (Ho & Hn0 & Hb & El).
  apply mem_load_Some. split_and!; [done..|]. subst l. apply list_eq. intros i. rewrite !lookup_take. case_decide; [|done].
  rewrite !lookup_drop. symmetry. apply Hi. lia.
Qed.

Lemma mem_load_drop m (k : nat) off n :
  Z.of_nat k ≤ zlen m → 0 ≤ off → mem_load (drop k m) off n = mem_load m (Z.of_nat k + off) n.
Proof.
  intros Hk Ho. unfold mem_load, in_range, zlen in *. rewrite length_drop.
  replace (off + n <=? Z.of_nat (length m - k)) with (Z.of_nat k + off + n <=? Z.of_nat (length m)) by (repeat case_bool; lia).
  replace (0 <=? Z.of_nat k + off) with true by (case_bool; lia). replace (0 <=? off) with true by (case_bool; lia).
  rewrite drop_drop. by replace (k + Z.to_nat off)%nat with (Z.to_nat (Z.of_nat k + off)) by lia.
Qed.

Lemma mem_load_store_same m off bs m' :
  mem_store m off bs = Some m' → mem_load m' off (zlen bs) = Some bs.
Proof.
  intros H. pose proof (mem_store_zlen _ _ _ _ H) as Hz.
  apply mem_store_Some in H as (? & ? & ->). apply mem_load_Some.
  split_and!; [lia|apply zlen_nonneg|lia|]. unfold zlen in *.
  rewrite drop_app_length', take_app_length'; [done|lia|rewrite length_take; lia].
Qed.

Lemma mem_load_store_disj m off bs m' off' n :
  mem_store m off bs = Some m' → off' + n ≤ off ∨ off + zlen bs ≤ off' →
  mem_load m' off' n = mem_load m off' n.
Proof.
  intros H Hd. apply mem_load_ext; [by eapply mem_store_zlen|].
  intros i Hi. rewrite (mem_store_lookup _ _ _ _ _ H).
  destruct (Z.leb_spec off (Z.of_nat i)), (Z.ltb_spec (Z.of_nat i) (off + zlen bs)); cbn; try done. lia.
Qed.

Lemma zlen_le_bytes n z : zlen (le_bytes n z) = Z.of_nat n.
Proof. unfold zlen. by rewrite length_le_bytes. Qed.

Lemma load_store_i32_same m off v m' :
  - 2147483648 ≤ v < 2147483648 →
  store_i32 m off v = Some m' → load_i32 m' off = Some v.
Proof.
  intros Hv H. apply mem_load_store_same in H. rewrite zlen_le_bytes in H.
  unfold load_i32. change 4 with (Z.of_nat 4). rewrite H. cbn [mbind option_bind].
  f_equal. rewrite le_value_bytes. change (256 ^ Z.of_nat 4) with (2 ^ 32).
  unfold wraps. rewrite pow2_31, pow2_32.
  destruct (decide (0 ≤ v)).
  - rewrite (Z.mod_small v) by lia. rewrite Z.mod_small; lia.
  - rewrite <-(Z.mod_unique v 4294967296 (-1) (v + 4294967296)) by lia.
    rewrite <-(Z.mod_unique (v + 4294967296 + 2147483648) 4294967296 1 (v + 2147483648)) by lia.
    lia.
Qed.

Lemma load_i32_store_disj m off bs m' off' :
  mem_store m off bs = Some m' → off' + 4 ≤ off ∨ off + zlen bs ≤ off' →
  load_i32 m' off' = load_i32 m off'.
Proof. intros H Hd. unfold load_i32. by rewrite (mem_load_store_disj _ _ _ _ _ _ H Hd). Qed.

Lemma store_i32_total m off v :
  0 ≤ off → off + 4 ≤ zlen m → ∃ m', store_i32 m off v = Some m'.
Proof. intros. apply mem_store_total; rewrite ?zlen_le_bytes; lia. Qed.

Lemma store_i32_zlen m off v m' : store_i32 m off v = Some m' → zlen m' = zlen m.
Proof. apply mem_store_zlen. Qed.

#[export] Hint Resolve mem_store_zlen store_i32_zlen : tll.
