(* ===== verification/Fifo.v ===== *)
(** * Message queues: the contract of the rings, and the block layout

    [Fifo] is what the ring buffers promise to the channels that use them: a
    bounded queue of messages.  The class carries the operations and the laws,
    clients are verified against it (the trace theorem at the end), and the C
    ring and the C++ ring are its instances.  The second half of the file is
    the memory layout both rings share. *)
From S2P Require Import Prelude Mem.

Abbreviation msg := (list Z).

(** ** The contract *)
Class Fifo (S : Type) := {
  fifo_push : S → msg → option (result errno S);
  fifo_read : S → option (result errno msg);
  fifo_shift : S → option (result errno S);
  (** [fifo_rep s q]: [s] is a valid state that holds the messages [q], oldest first. *)
  fifo_rep : S → list msg → Prop;
  (** Sizes the queue is specified for. *)
  fifo_msg_ok : msg → Prop;

  fifo_push_spec s q m : fifo_rep s q → fifo_msg_ok m →
    (∃ s', fifo_push s m = Some (Ok s') ∧ fifo_rep s' (q ++ [m])) ∨
    fifo_push s m = Some (Err EAGAIN) ∨ fifo_push s m = Some (Err ERANGE);
  fifo_read_spec s q : fifo_rep s q →
    fifo_read s = Some (match q with [] => Err EAGAIN | m :: _ => Ok m end);
  fifo_shift_spec s q : fifo_rep s q →
    match q with
    | [] => fifo_shift s = Some (Err EAGAIN)
    | _ :: q' => ∃ s', fifo_shift s = Some (Ok s') ∧ fifo_rep s' q'
    end;
}.

(** ** A client: one writer and one reader interleaved

    [Push m] is a post of the writer, [Pop] is the reader taking the oldest
    message (a read and then a shift).  The run records the messages the
    writer was told are stored and the messages the reader got. *)
Inductive fifo_op := Push (m : msg) | Pop.

Record fifo_log := { accepted : list msg; received : list msg }.

Section Client.
Context {S : Type} `{Fifo S}.

Definition fifo_step (s : S) (l : fifo_log) (op : fifo_op) : option (S * fifo_log) :=
  match op with
  | Push m =>
      let! r := fifo_push s m in
      Some (match r with
            | Ok s' => (s', {| accepted := accepted l ++ [m]; received := received l |})
            | Err _ => (s, l)
            end)
  | Pop =>
      let! r := fifo_read s in
      match r with
      | Err _ => Some (s, l)
      | Ok m =>
          let! r' := fifo_shift s in
          Some (match r' with
                | Ok s' => (s', {| accepted := accepted l; received := received l ++ [m] |})
                | Err _ => (s, l)
                end)
      end
  end.

Fixpoint fifo_run (s : S) (l : fifo_log) (ops : list fifo_op) : option (S * fifo_log) :=
  match ops with
  | [] => Some (s, l)
  | op :: ops => let! (s', l') := fifo_step s l op in fifo_run s' l' ops
  end.

Definition op_ok (op : fifo_op) : Prop :=
  match op with Push m => fifo_msg_ok m | Pop => True end.

Lemma fifo_step_inv s q l op :
  fifo_rep s q → accepted l = received l ++ q → op_ok op →
  ∃ s' q' l', fifo_step s l op = Some (s', l') ∧ fifo_rep s' q' ∧ accepted l' = received l' ++ q'.
Proof.
  intros Hrep Hl Hok. destruct op as [m|]; cbn in *.
  - destruct (fifo_push_spec s q m Hrep Hok) as [(s' & -> & Hs')|[-> | ->]]; cbn.
    + eexists _, _, _. split_and!; [done|done|]. cbn. by rewrite Hl, app_assoc.
    + eauto 10.
    + eauto 10.
  - rewrite (fifo_read_spec s q Hrep). cbn. pose proof (fifo_shift_spec s q Hrep) as Hs.
    destruct q as [|m q]; cbn; [eauto 10|].
    destruct Hs as (s' & -> & Hs'). cbn.
    eexists _, _, _. split_and!; [done|done|]. cbn. rewrite Hl, <-app_assoc. done.
Qed.

(** No fault, no loss, no duplication, no reordering, for any schedule. *)
Lemma fifo_run_inv ops : ∀ s q l,
  fifo_rep s q → accepted l = received l ++ q → Forall op_ok ops →
  ∃ s' q' l', fifo_run s l ops = Some (s', l') ∧ fifo_rep s' q' ∧ accepted l' = received l' ++ q'.
Proof.
  induction ops as [|op ops IH]; intros s q l Hrep Hl Hok; cbn; [eauto 10|].
  apply Forall_cons in Hok as [Hop Hops].
  destruct (fifo_step_inv s q l op Hrep Hl Hop) as (s' & q' & l' & -> & Hrep' & Hl'). cbn.
  eauto.
Qed.
End Client.

(** ** Layout of messages in a ring buffer

    A message of [n] bytes is stored as a 32-bit size followed by the bytes,
    the whole rounded up to 8 bytes. *)
Definition up8 (x : Z) : Z := x + (- x) mod 8.

Lemma up8_spec x : x ≤ up8 x < x + 8 ∧ up8 x mod 8 = 0.
Proof. unfold up8. split; Z.to_euclidean_division_equations; lia. Qed.

Definition block_size (m : msg) : Z := up8 (zlen m + 4).

Lemma block_size_spec m :
  zlen m + 4 ≤ block_size m < zlen m + 12 ∧ block_size m mod 8 = 0 ∧ 8 ≤ block_size m.
Proof.
  unfold block_size. pose proof (zlen_nonneg m). pose proof (up8_spec (zlen m + 4)).
  split_and!; try lia. Z.to_euclidean_division_equations; lia.
Qed.

Definition block_at (d : list Z) (a : Z) (m : msg) : Prop :=
  load_i32 d a = Some (zlen m) ∧ mem_load d (a + 4) (zlen m) = Some m.

(** Consecutive messages that exactly fill [a, b). *)
Fixpoint blocks (d : list Z) (a b : Z) (q : list msg) : Prop :=
  match q with
  | [] => a = b
  | m :: q => block_at d a m ∧ blocks d (a + block_size m) b q
  end.

Lemma blocks_le d a b q : blocks d a b q → a ≤ b.
Proof.
  revert a. induction q as [|m q IH]; intros a; cbn; [lia|].
  intros [_ H%IH]. pose proof (block_size_spec m). lia.
Qed.

Lemma blocks_cons_lt d a b m q : blocks d a b (m :: q) → a < b ∧ a + block_size m ≤ b.
Proof. cbn. intros [_ H%blocks_le]. pose proof (block_size_spec m). lia. Qed.

Lemma blocks_snoc d a b c q m :
  blocks d a b q → block_at d b m → c = b + block_size m → blocks d a c (q ++ [m]).
Proof.
  revert a. induction q as [|x q IH]; intros a; cbn.
  - intros -> ? ->. eauto.
  - intros [? ?] ? ?. eauto.
Qed.

(** [agree d d' lo hi]: two contents of a buffer are equal on [lo, hi). *)
Definition agree (d d' : list Z) (lo hi : Z) : Prop :=
  zlen d = zlen d' ∧ ∀ i : nat, lo ≤ Z.of_nat i < hi → d !! i = d' !! i.

Lemma agree_trans d1 d2 d3 lo hi : agree d1 d2 lo hi → agree d2 d3 lo hi → agree d1 d3 lo hi.
Proof. intros [? H1] [? H2]. split; [congruence|]. intros i ?. rewrite H1 by done. auto. Qed.

Lemma agree_sub d d' lo hi lo' hi' : lo ≤ lo' → hi' ≤ hi → agree d d' lo hi → agree d d' lo' hi'.
Proof. intros ? ? [? H]. split; [done|]. intros i ?. apply H. lia. Qed.

Lemma agree_store d off bs d' lo hi :
  mem_store d off bs = Some d' → off + zlen bs ≤ lo ∨ hi ≤ off → agree d d' lo hi.
Proof.
  intros H Hd. split; [symmetry; by eapply mem_store_zlen|].
  intros i Hi. rewrite (mem_store_lookup _ _ _ _ _ H).
  destruct (Z.leb_spec off (Z.of_nat i)), (Z.ltb_spec (Z.of_nat i) (off + zlen bs)); cbn; try done.
  lia.
Qed.

Lemma agree_store_i32 d off v d' lo hi :
  store_i32 d off v = Some d' → off + 4 ≤ lo ∨ hi ≤ off → agree d d' lo hi.
Proof. intros H ?. eapply agree_store; [exact H|]. by rewrite zlen_le_bytes. Qed.

Lemma load_i32_agree d d' a lo hi :
  agree d d' lo hi → lo ≤ a → a + 4 ≤ hi → load_i32 d' a = load_i32 d a.
Proof.
  intros [Hz H] ? ?. unfold load_i32. rewrite (mem_load_ext d' d); [done|done|].
  intros i ?. symmetry. apply H. lia.
Qed.

Lemma block_at_agree d d' lo hi a m :
  agree d d' lo hi → lo ≤ a → a + block_size m ≤ hi → block_at d a m → block_at d' a m.
Proof.
  intros Ha ? ? [H1 H2]. pose proof (block_size_spec m). pose proof (zlen_nonneg m). split.
  - erewrite load_i32_agree; [done|eauto|lia|lia].
  - destruct Ha as [Hz Ha]. rewrite (mem_load_ext d' d); [done|done|].
    intros i ?. symmetry. apply Ha. lia.
Qed.

(** Messages are not disturbed by changes outside of the bytes they occupy. *)
Lemma blocks_agree d d' a b q : agree d d' a b → blocks d a b q → blocks d' a b q.
Proof.
  revert a. induction q as [|m q IH]; intros a Hag; [done|].
  intros Hb. pose proof (blocks_cons_lt _ _ _ _ _ Hb) as [? ?].
  pose proof (block_size_spec m). destruct Hb as [Hm Hq]. cbn. split.
  - eapply block_at_agree; eauto; lia.
  - apply IH; [|done]. eapply agree_sub; [| |exact Hag]; lia.
Qed.

Lemma blocks_mod8 d a b q : a mod 8 = 0 → blocks d a b q → b mod 8 = 0.
Proof.
  revert a. induction q as [|m q IH]; intros a Ha; cbn; [by intros <-|].
  intros [_ H]. refine (IH _ _ H). pose proof (block_size_spec m).
  rewrite Z.add_mod by lia. by replace (block_size m mod 8) with 0 by lia; rewrite Ha.
Qed.

(** Storing the payload first and the size cell second builds a block. *)
Lemma store_block d a m d1 d2 :
  zlen m < 2147483648 →
  mem_store d (a + 4) m = Some d1 → store_i32 d1 a (zlen m) = Some d2 → block_at d2 a m.
Proof.
  intros Hm H1 H2. pose proof (zlen_nonneg m). split.
  - eapply load_store_i32_same; eauto. lia.
  - rewrite (mem_load_store_disj _ _ _ _ _ _ H2) by (rewrite zlen_le_bytes; lia).
    eapply mem_load_store_same; eauto.
Qed.

(** The whole content of a ring between [head] and [tail]: either the messages
    are in one piece, or they run to [mid], where the buffer ends or holds the
    wrap marker, and continue at offset zero. *)
Inductive ring_layout (d : list Z) (size head tail : Z) : list msg → Prop :=
| layout_flat q :
    head ≤ tail → blocks d head tail q → ring_layout d size head tail q
| layout_wrap mid q1 q2 :
    tail < head → mid ≤ size → blocks d head mid q1 → blocks d 0 tail q2 →
    (mid = size ∧ q1 ≠ [] ∨ mid < size ∧ load_i32 d mid = Some (-1) ∧ q2 ≠ []) →
    ring_layout d size head tail (q1 ++ q2).

Record ring_wf (size head tail : Z) (d : list Z) : Prop := {
  rwf_size : 0 < size < 9223372036854775808;
  rwf_size8 : size mod 8 = 0;
  rwf_data : zlen d = size;
  rwf_head : 0 ≤ head < size;
  rwf_head8 : head mod 8 = 0;
  rwf_tail : 0 ≤ tail < size;
  rwf_tail8 : tail mod 8 = 0;
}.

Lemma ring_layout_empty d size head tail :
  ring_layout d size head tail [] ↔ head = tail.
Proof.
  split.
  - inversion 1 as [q Hle Hb E|mid q1 q2 Hlt Hmid Hb1 Hb2 Hw E]; subst.
    + exact Hb.
    + apply app_eq_nil in E as [-> ->]. naive_solver.
  - intros ->. apply layout_flat; [lia|done].
Qed.

(** ** Transitions of the layout *)
Definition wrap_size (off size : Z) : Z :=
  if off >=? size then u64 (off - size) else off.

Lemma wrap_size_lt off size : off < size → wrap_size off size = off.
Proof. unfold wrap_size. intros. rewrite Z.geb_leb. destruct (Z.leb_spec size off); lia. Qed.

Lemma wrap_size_ge off size :
  size ≤ off → off - size < 9223372036854775808 → wrap_size off size = off - size.
Proof.
  unfold wrap_size. intros. rewrite Z.geb_leb. destruct (Z.leb_spec size off); [|lia].
  nowrap. done.
Qed.

(** What a reader finds at [head] and where the next message starts. *)
Definition front_at (d : list Z) (size head tail : Z) (m : msg) (next : Z) : Prop :=
  (block_at d head m ∧ next = wrap_size (head + block_size m) size) ∨
  (load_i32 d head = Some (-1) ∧ tail ≠ 0 ∧ block_at d 0 m ∧
   next = wrap_size (block_size m) size).

Lemma ring_layout_front d size head tail m q :
  ring_wf size head tail d → ring_layout d size head tail (m :: q) →
  ∃ next, head ≠ tail ∧ front_at d size head tail m next ∧
          ring_wf size next tail d ∧ ring_layout d size next tail q.
Proof.
  intros [Hs Hs8 Hd Hh Hh8 Ht Ht8] HL. pose proof (block_size_spec m) as (? & Hm8 & ?).
  inversion HL as [q' Hle Hb E|mid q1 q2 Hlt Hmid Hb1 Hb2 Hw E]; [subst q'|].
  - pose proof (blocks_cons_lt _ _ _ _ _ Hb). destruct Hb as [Hb Hq].
    exists (head + block_size m). split_and!; [lia| | |apply layout_flat; [lia|done]].
    + left. by rewrite wrap_size_lt by lia.
    + split; try lia. Z.to_euclidean_division_equations; lia.
  - destruct q1 as [|m' q1]; cbn in E.
    + destruct q2 as [|m' q2]; [done|]. injection E as -> ->.
      destruct Hw as [[_ Hw]|(Hms & Hmk & _)]; [done|].
      pose proof (blocks_cons_lt _ _ _ _ _ Hb2). cbn in Hb1. subst mid.
      destruct Hb2 as [Hb Hq]. exists (block_size m).
      split_and!; [lia| | |apply layout_flat; [lia|done]].
      * right. rewrite wrap_size_lt by lia. split_and!; try done. lia.
      * split; lia.
    + injection E as -> <-. pose proof (blocks_cons_lt _ _ _ _ _ Hb1).
      destruct Hb1 as [Hb Hq]. exists (wrap_size (head + block_size m) size).
      split_and!; [lia|by left| |].
      * destruct (decide (head + block_size m = size)).
        -- rewrite wrap_size_ge by lia. split; try lia. by replace (head + _ - _) with 0 by lia.
        -- rewrite wrap_size_lt by lia. split; try lia. Z.to_euclidean_division_equations; lia.
      * destruct (decide (head + block_size m = size)) as [Heq|Hne].
        -- rewrite wrap_size_ge by lia. replace (head + _ - _) with 0 by lia.
           assert (q1 = []) as ->.
           { destruct q1; [done|]. pose proof (blocks_cons_lt _ _ _ _ _ Hq). lia. }
           apply layout_flat; [lia|done].
        -- rewrite wrap_size_lt by lia. apply layout_wrap with mid; try done; try lia.
           destruct Hw as [[-> _]|Hw]; [left|by right]. split; [done|].
           intros ->. cbn in Hq. lia.
Qed.

(** Bytes a writer may touch without disturbing the stored messages: the
    tail block when it fits before the end, the front block otherwise. *)
Lemma ring_layout_push_tail d d' size head tail m q :
  ring_wf size head tail d → ring_layout d size head tail q →
  tail + block_size m ≤ size →
  (if head <=? tail then size + head - tail else head - tail) > block_size m →
  agree d d' 0 tail → agree d d' (tail + block_size m) size → block_at d' tail m →
  let tail' := wrap_size (tail + block_size m) size in
  ring_wf size head tail' d' ∧ ring_layout d' size head tail' (q ++ [m]).
Proof.
  intros [Hs Hs8 Hd Hh Hh8 Ht Ht8] HL Hfit Hfree Hlo Hhi Hblk.
  pose proof (block_size_spec m) as (? & Hm8 & ?). cbn zeta.
  assert (ring_wf size head (wrap_size (tail + block_size m) size) d') as Hwf.
  { destruct (decide (tail + block_size m = size)).
    - rewrite wrap_size_ge by lia. split; try lia; [by destruct Hlo as [<- _]|].
      by replace (tail + _ - _) with 0 by lia.
    - rewrite wrap_size_lt by lia. split; try lia; [by destruct Hlo as [<- _]|].
      Z.to_euclidean_division_equations; lia. }
  split; [done|].
  inversion HL as [q' Hle Hb E|mid q1 q2 Hlt Hmid Hb1 Hb2 Hw E]; [subst q'|subst q].
  - rewrite (proj2 (Z.leb_le _ _)) in Hfree by lia.
    assert (blocks d' head (tail + block_size m) (q ++ [m])) as Hb'.
    { eapply blocks_snoc; [|exact Hblk|done]. eapply blocks_agree; [|exact Hb].
      eapply agree_sub; [| |exact Hlo]; lia. }
    destruct (decide (tail + block_size m = size)) as [Ef|Ef].
    + rewrite wrap_size_ge by lia. replace (tail + _ - _) with 0 by lia.
      rewrite <-(app_nil_r (q ++ [m])). apply layout_wrap with size; try lia.
      * by rewrite Ef in Hb'.
      * done.
      * left. split; [done|]. by destruct q.
    + rewrite wrap_size_lt by lia. apply layout_flat; [lia|done].
  - rewrite (proj2 (Z.leb_gt _ _)) in Hfree by lia.
    rewrite wrap_size_lt by lia. rewrite <-app_assoc.
    pose proof (blocks_le _ _ _ _ Hb1).
    assert (agree d d' head size) by (eapply agree_sub; [| |exact Hhi]; lia).
    apply layout_wrap with mid; try lia.
    + eapply blocks_agree; [|exact Hb1]. eapply agree_sub; [| |eassumption]; lia.
    + eapply blocks_snoc; [|exact Hblk|done]. eapply blocks_agree; [|exact Hb2].
      eapply agree_sub; [| |exact Hlo]; lia.
    + destruct Hw as [Hw|(Hms & Hmk & Hq2)]; [by left|right].
      pose proof (blocks_mod8 _ _ _ _ Hh8 Hb1).
      split_and!; [done| |by destruct q2].
      erewrite load_i32_agree; [done|eassumption|lia|Z.to_euclidean_division_equations; lia].
Qed.

Lemma ring_layout_push_front d d' size head tail m q :
  ring_wf size head tail d → ring_layout d size head tail q →
  size < tail + block_size m → block_size m < head → head ≤ tail →
  agree d d' (block_size m) tail → load_i32 d' tail = Some (-1) → block_at d' 0 m →
  let tail' := wrap_size (block_size m) size in
  ring_wf size head tail' d' ∧ ring_layout d' size head tail' (q ++ [m]).
Proof.
  intros [Hs Hs8 Hd Hh Hh8 Ht Ht8] HL Hfit Hhead Hle Hag Hmk Hblk.
  pose proof (block_size_spec m) as (? & Hm8 & ?). cbn zeta. rewrite wrap_size_lt by lia.
  split.
  - split; try lia. by destruct Hag as [<- _].
  - inversion HL as [q' _ Hb E|mid q1 q2 Hlt]; [subst q'|lia].
    apply layout_wrap with tail; try lia.
    + eapply blocks_agree; [|exact Hb]. eapply agree_sub; [| |exact Hag]; lia.
    + cbn. split; [done|lia].
    + right. split_and!; [lia|done|done].
Qed.

(** ** Read positions

    [ring_path d size tail off q ps]: starting from offset [off] a reader meets
    the messages [q], and [ps] are the values its offset takes on the way. *)
Inductive ring_path (d : list Z) (size tail : Z) : Z → list msg → list Z → Prop :=
| path_nil : ring_path d size tail tail [] []
| path_cons off m next q ps :
    off ≠ tail → front_at d size off tail m next →
    ring_path d size tail next q ps → ring_path d size tail off (m :: q) (off :: ps).

Lemma ring_path_length d size tail off q ps : ring_path d size tail off q ps → length ps = length q.
Proof. induction 1; cbn; congruence. Qed.

Lemma ring_path_head d size tail off q ps :
  ring_path d size tail off q ps → head (ps ++ [tail]) = Some off.
Proof. by destruct 1. Qed.

(** A message cell is a size (not negative) or the wrap marker, never both. *)
Lemma front_at_det d d' size off tail tail' m next next' :
  load_i32 d off = load_i32 d' off →
  front_at d size off tail m next → front_at d' size off tail' m next' → next = next'.
Proof.
  intros E [[[Hb _] ->]|(Hb & _ & _ & ->)] [[[Hb' _] ->]|(Hb' & _ & _ & ->)]; try done;
    rewrite Hb in E; rewrite Hb' in E; pose proof (zlen_nonneg m); injection E; lia.
Qed.

Definition room (size off tail : Z) : Z :=
  if off <=? tail then size + off - tail else off - tail.

Lemma room_next d size off tail m q next :
  ring_wf size off tail d → off ≠ tail → ring_layout d size off tail (m :: q) →
  front_at d size off tail m next → ring_layout d size next tail q →
  ring_wf size next tail d → room size off tail ≤ room size next tail.
Proof.
  intros [Hs Hs8 Hd Hh Hh8 Ht Ht8] Hne HL Hf HL' [_ _ _ Hn _ _ _].
  pose proof (block_size_spec m). pose proof (zlen_nonneg m).
  assert (off ≤ tail → off < next ≤ tail) as Hflat.
  { intros Hle. inversion HL as [q' _ Hb E|]; [subst q'|lia].
    pose proof (blocks_cons_lt _ _ _ _ _ Hb). destruct Hb as [[Hb _] _].
    destruct Hf as [[_ ->]|(Hb' & _)]; [|rewrite Hb in Hb'; injection Hb'; lia].
    rewrite wrap_size_lt by lia. lia. }
  assert (off < next ∨ next ≤ tail) as Hstep.
  { destruct (decide (off ≤ tail)); [lia|].
    inversion HL as [|mid q1 q2 Hlt Hmid Hb1 Hb2 Hw E]; [lia|].
    destruct q1 as [|m' q1]; [destruct q2 as [|m' q2]; [done|]|].
    - injection E as -> ->. pose proof (blocks_cons_lt _ _ _ _ _ Hb2). cbn in Hb1. subst mid.
      destruct Hw as [[_ Hw]|(_ & Hmk & _)]; [done|].
      destruct Hf as [[[Hf _] _]|(_ & _ & _ & ->)].
      + rewrite Hmk in Hf. injection Hf. lia.
      + rewrite wrap_size_lt by lia. lia.
    - injection E as -> <-. pose proof (blocks_cons_lt _ _ _ _ _ Hb1). destruct Hb1 as [[Hb1 _] _].
      destruct Hf as [[_ ->]|(Hf & _)]; [|rewrite Hb1 in Hf; injection Hf; lia].
      destruct (decide (off + block_size m < size)); [rewrite wrap_size_lt; lia|].
      rewrite wrap_size_ge by lia. lia. }
  unfold room. repeat case_bool; lia.
Qed.

Section Push.
(** A push in terms of memory: the bytes below are the only ones it changes. *)
Context (d d' : list Z) (size tail : Z) (m : msg).

Definition pushed_tail : Prop :=
  tail + block_size m ≤ size ∧ agree d d' 0 tail ∧
  agree d d' (tail + block_size m) size ∧ block_at d' tail m.
Definition pushed_front : Prop :=
  size < tail + block_size m ∧ agree d d' (block_size m) tail ∧
  load_i32 d' tail = Some (-1) ∧ block_at d' 0 m.

Definition can_push_tail (off : Z) : Prop := pushed_tail ∧ block_size m < room size off tail.
Definition can_push_front (off : Z) : Prop := pushed_front ∧ block_size m < off ≤ tail.

Definition tail_after : Z :=
  wrap_size (if tail + block_size m <=? size then tail + block_size m else block_size m) size.

Lemma push_layout off q :
  ring_wf size off tail d → ring_layout d size off tail q →
  can_push_tail off ∨ can_push_front off →
  ring_wf size off tail_after d' ∧ ring_layout d' size off tail_after (q ++ [m]).
Proof.
  intros Hwf HL. unfold tail_after. intros [[(Hfit & Hlo & Hhi & Hblk) Hroom]|[(Hfit & Hag & Hmk & Hblk) Hoff]].
  - rewrite (proj2 (Z.leb_le _ _)) by lia. eapply ring_layout_push_tail; eauto.
    unfold room in Hroom. destruct (off <=? tail); lia.
  - rewrite (proj2 (Z.leb_gt _ _)) by lia. eapply ring_layout_push_front; eauto; lia.
Qed.

Lemma push_cell off :
  ring_wf size off tail d → off ≠ tail → can_push_tail off ∨ can_push_front off →
  load_i32 d off = load_i32 d' off.
Proof.
  intros [Hs Hs8 Hd Hh Hh8 Ht Ht8] Hne.
  intros [[(Hfit & Hlo & Hhi & Hblk) Hroom]|[(Hfit & Hag & Hmk & Hblk) Hoff]].
  - unfold room in Hroom. case_bool_in Hroom; symmetry.
    + apply (load_i32_agree _ _ _ 0 tail); [done|lia|Z.to_euclidean_division_equations; lia].
    + apply (load_i32_agree _ _ _ (tail + block_size m) size);
        [done|lia|Z.to_euclidean_division_equations; lia].
  - symmetry. apply (load_i32_agree _ _ _ (block_size m) tail);
      [done|lia|Z.to_euclidean_division_equations; lia].
Qed.

Lemma push_next off m0 q next :
  ring_wf size off tail d → off ≠ tail → ring_layout d size off tail (m0 :: q) →
  front_at d size off tail m0 next → ring_layout d size next tail q → ring_wf size next tail d →
  can_push_tail off ∨ can_push_front off → can_push_tail next ∨ can_push_front next.
Proof.
  intros Hwf Hne HL Hf HL' Hwf' [[Hp Hr]|[Hp Hr]].
  - left. split; [done|].
    pose proof (room_next d size off tail m0 q next Hwf Hne HL Hf HL' Hwf'). lia.
  - right. split; [done|]. pose proof (block_size_spec m0). pose proof (zlen_nonneg m0).
    inversion HL as [q' _ Hb E|]; [subst q'|lia].
    pose proof (blocks_cons_lt _ _ _ _ _ Hb). destruct Hb as [[Hb _] _].
    destruct Hf as [[_ ->]|(Hb' & _)]; [|rewrite Hb in Hb'; injection Hb'; lia].
    destruct Hwf. rewrite wrap_size_lt by lia. lia.
Qed.

(** A push extends the path: earlier positions stay, the new message is
    found from the old tail. *)
Lemma push_path q : ∀ off ps,
  ring_wf size off tail d → ring_layout d size off tail q → ring_path d size tail off q ps →
  can_push_tail off ∨ can_push_front off →
  ring_path d' size tail_after off (q ++ [m]) (ps ++ [tail]).
Proof.
  induction q as [|m0 q IH]; intros off ps Hwf HL Hp Hc;
    destruct (push_layout off _ Hwf HL Hc) as [Hwf1 HL1]; inversion Hp; subst.
  - destruct (ring_layout_front _ _ _ _ _ _ Hwf1 HL1) as (n & Hne & Hf & _ & Hnil).
    cbn. apply ring_layout_empty in Hnil as ->. econstructor; [done|done|constructor].
  - destruct (ring_layout_front _ _ _ _ _ _ Hwf HL) as (n & _ & Hf & Hwfn & HLn).
    destruct (ring_layout_front _ _ _ _ _ _ Hwf1 HL1) as (n1 & Hne1 & Hf1 & _ & _).
    assert (n = next) as -> by (by eapply front_at_det).
    assert (n1 = next) as -> by (eapply front_at_det; [|exact Hf1|exact Hf]; symmetry; by apply push_cell).
    cbn. econstructor; [done|done|]. apply IH; eauto using push_next.
Qed.
End Push.

Lemma ring_layout_path d size tail q : ∀ off,
  ring_wf size off tail d → ring_layout d size off tail q → ∃ ps, ring_path d size tail off q ps.
Proof.
  induction q as [|m q IH]; intros off Hwf HL.
  - apply ring_layout_empty in HL as ->. eexists. constructor.
  - destruct (ring_layout_front _ _ _ _ _ _ Hwf HL) as (n & Hne & Hf & Hwf' & HL').
    destruct (IH n Hwf' HL') as [ps Hps]. eexists. by econstructor.
Qed.

(** The stores of one write, in the order the code makes them: payload, wrap
    marker (also made, and overwritten, when the tail itself is at zero), size. *)
Definition write_cells (d : list Z) (tail p : Z) (m : msg) : option (list Z) :=
  let! d1 := mem_store d (p + 4) m in
  let! d2 := (if p =? 0 then store_i32 d1 tail (-1) else Some d1) in
  store_i32 d2 p (zlen m).

Lemma write_cells_tail d size off tail m :
  ring_wf size off tail d → zlen m < 2147483648 → tail + block_size m ≤ size →
  ∃ d', write_cells d tail tail m = Some d' ∧ pushed_tail d d' size tail m.
Proof.
  intros [Hs Hs8 Hd Hh Hh8 Ht Ht8] Hm Hfit. unfold write_cells.
  pose proof (block_size_spec m) as (? & Hm8 & ?). pose proof (zlen_nonneg m).
  destruct (mem_store_total d (tail + 4) m) as [d1 E1]; [lia|lia|].
  pose proof (mem_store_zlen _ _ _ _ E1) as Hz1. rewrite E1. cbn [mbind option_bind].
  assert (∃ d2, (if tail =? 0 then store_i32 d1 tail (-1) else Some d1) = Some d2 ∧
                zlen d2 = zlen d1 ∧ agree d1 d2 0 tail ∧ agree d1 d2 (tail + 4) size) as (d2 & -> & Hz2 & Hlo & Hhi).
  { case_bool.
    - destruct (store_i32_total d1 tail (-1)) as [d2 E2]; [lia|lia|].
      exists d2. split_and!; [done|eauto with tll|..]; eapply agree_store_i32; eauto; lia.
    - exists d1. done. }
  destruct (store_i32_total d2 tail (zlen m)) as [d3 E3]; [lia|lia|].
  exists d3. cbn. split; [done|]. split_and!; [done|..].
  - eapply agree_trans; [eapply agree_store; [exact E1|lia]|].
    eapply agree_trans; [exact Hlo|]. eapply agree_store_i32; [exact E3|lia].
  - eapply agree_trans; [eapply agree_store; [exact E1|lia]|].
    eapply agree_trans; [eapply agree_sub; [| |exact Hhi]; lia|].
    eapply agree_store_i32; [exact E3|lia].
  - split; [eapply load_store_i32_same; [|exact E3]; lia|].
    rewrite (mem_load_store_disj _ _ _ _ _ _ E3) by (rewrite zlen_le_bytes; lia).
    rewrite <-(mem_load_store_same _ _ _ _ E1). apply mem_load_ext; [done|].
    intros i ?. symmetry. apply Hhi. lia.
Qed.

Lemma write_cells_front d size off tail m :
  ring_wf size off tail d → zlen m < 2147483648 → size < tail + block_size m → block_size m ≤ tail →
  ∃ d', write_cells d tail 0 m = Some d' ∧ pushed_front d d' size tail m.
Proof.
  intros [Hs Hs8 Hd Hh Hh8 Ht Ht8] Hm Hfit Hlt. unfold write_cells.
  pose proof (block_size_spec m) as (? & Hm8 & ?). pose proof (zlen_nonneg m).
  assert (tail + 8 ≤ size) by (Z.to_euclidean_division_equations; lia).
  destruct (mem_store_total d (0 + 4) m) as [d1 E1]; [lia|lia|].
  pose proof (mem_store_zlen _ _ _ _ E1) as Hz1. rewrite E1. cbn [mbind option_bind].
  change (0 =? 0) with true. cbn iota.
  destruct (store_i32_total d1 tail (-1)) as [d2 E2]; [lia|lia|].
  pose proof (store_i32_zlen _ _ _ _ E2) as Hz2. rewrite E2. cbn [mbind option_bind].
  destruct (store_i32_total d2 0 (zlen m)) as [d3 E3]; [lia|lia|].
  exists d3. split; [done|]. split_and!; [done|..].
  - eapply agree_trans; [eapply agree_store; [exact E1|lia]|].
    eapply agree_trans; eapply agree_store_i32; [exact E2|lia|exact E3|lia].
  - rewrite (load_i32_store_disj _ _ _ _ _ E3) by (rewrite zlen_le_bytes; lia).
    eapply load_store_i32_same; [|exact E2]. lia.
  - split; [eapply load_store_i32_same; [|exact E3]; lia|].
    rewrite (mem_load_store_disj _ _ _ _ _ _ E3) by (rewrite zlen_le_bytes; lia).
    rewrite (mem_load_store_disj _ _ _ _ _ _ E2) by (rewrite ?zlen_le_bytes; lia).
    eapply mem_load_store_same; eauto.
Qed.
