(* ===== verification/Ring.v ===== *)
(** * The C ring buffer (src/ring.c, src/tll/ring.h)

    Single-producer single-consumer queue of variable-size messages in a flat
    buffer, with iterators for additional readers.  Atomic loads and stores of
    the header are the fields of the state; every operation below runs as one
    step. *)
From S2P Require Import Prelude Mem Fifo.

Module RingC.

(** [ring_header_t] *)
Record ring_header := mk_ring {
  magic : Z;
  size : Z;
  head : Z;
  generation_pre : Z;
  generation_post : Z;
  tail : Z;
  data : list Z;
}.

Definition ring_magic : Z := 1919512167. (* 'ring' *)

(** [ringiter_t], without the pointer to the header *)
Record ringiter := mk_iter { it_generation : Z; it_offset : Z }.

Definition set_tail (t : Z) (d : list Z) (h : ring_header) : ring_header :=
  {| magic := magic h; size := size h; head := head h; generation_pre := generation_pre h;
     generation_post := generation_post h; tail := t; data := d |}.

(** [size_aligned]: arguments and result are [int32_t] *)
Definition size_aligned (x : Z) : Z := i32 (x + Z.land (i32 (- x)) 7).

(** [ring_init]: without memory the header is allocated ([malloc] is the
    content of the new block or [None]), otherwise the ring is attached to an
    existing header. *)
Definition ring_init (sz : Z) (memory : option ring_header) (malloc : option (list Z))
  : result errno ring_header :=
  match memory with
  | Some h => Ok h
  | None =>
      match malloc with
      | None => Err ENOMEM
      | Some d => Ok {| magic := ring_magic; size := sz; head := 0; generation_pre := 0;
                        generation_post := 0; tail := 0; data := d |}
      end
  end.

Definition ring_clear (h : ring_header) : ring_header :=
  {| magic := magic h; size := size h; head := 0; generation_pre := generation_pre h;
     generation_post := generation_post h; tail := 0; data := data h |}.

(** Space a message of [sz] bytes takes: [size_aligned(sz + sizeof(ring_size_t))] *)
Definition alloc_size (sz : Z) : Z := u64 (size_aligned (i32 (u64 (sz + 4)))).

(** [ring_write_begin]: the offset of the payload *)
Definition ring_write_begin (h : ring_header) (sz : Z) : result errno Z :=
  let a := alloc_size sz in
  if u64 (2 * a) >? size h then Err ERANGE
  else
    let free := u64 (wrap_size (u64 (size h + head h - tail h - 1)) (size h) + 1) in
    if free <=? a then Err EAGAIN
    else if u64 (tail h + a) >? size h then
      if head h <=? a then Err EAGAIN else Ok (0 + 4)
    else Ok (tail h + 4).

Definition ring_write_end (h : ring_header) (ptr sz : Z) : option ring_header :=
  let a := alloc_size sz in
  let! (d, t) := (if ptr =? 0 + 4
                  then let! d := store_i32 (data h) (tail h) (-1) in Some (d, 0)
                  else Some (data h, tail h)) in
  let! d := store_i32 d t (i32 sz) in
  Some (set_tail (wrap_size (u64 (t + a)) (size h)) d h).

Definition ring_write (h : ring_header) (m : msg) : option (result errno ring_header) :=
  match ring_write_begin h (zlen m) with
  | Err e => Some (Err e)
  | Ok ptr =>
      let! d := mem_store (data h) ptr m in
      let! h' := ring_write_end (set_tail (tail h) d h) ptr (zlen m) in
      Some (Ok h')
  end.

(** [_ring_read_at]: offset and size of the payload.  The function calls itself
    at offset zero when it meets the wrap marker; [fuel] bounds the calls. *)
Fixpoint ring_read_at (fuel : nat) (h : ring_header) (offset : Z) : option (result errno (Z * Z)) :=
  match fuel with
  | O => None
  | S fuel =>
      if offset =? tail h then Some (Err EAGAIN)
      else
        let! sz := load_i32 (data h) offset in
        if sz <? 0 then ring_read_at fuel h 0
        else Some (Ok (offset + 4, sz))
  end.

Definition ring_read (h : ring_header) : option (result errno (Z * Z)) :=
  ring_read_at 2 h (head h).

Definition ring_next (h : ring_header) : option (option Z) :=
  let! r := ring_read h in
  Some (match r with Ok (p, _) => Some p | Err _ => None end).

Definition ring_next_size (h : ring_header) : option Z :=
  let! r := ring_read h in
  Some (match r with Ok (_, sz) => i32 sz | Err _ => -1 end).

(** The message a reader sees: [ring_read] and the bytes it points to. *)
Definition ring_read_msg (h : ring_header) : option (result errno msg) :=
  let! r := ring_read h in
  match r with
  | Err e => Some (Err e)
  | Ok (p, sz) => let! m := mem_load (data h) p sz in Some (Ok m)
  end.

Fixpoint ring_shift_offset (fuel : nat) (h : ring_header) (offset : Z) : option Z :=
  match fuel with
  | O => None
  | S fuel =>
      let! sz := load_i32 (data h) offset in
      if sz <? 0 then ring_shift_offset fuel h 0
      else
        let sz := size_aligned (i32 (u64 (sz + 4))) in
        Some (i64 (wrap_size (u64 (offset + sz)) (size h)))
  end.

Definition ring_shift (h : ring_header) : option (result errno ring_header) :=
  if head h =? tail h then Some (Err EAGAIN)
  else
    let! off := ring_shift_offset 2 h (head h) in
    if off <? 0 then Some (Err EAGAIN)
    else
      let gen := u64 (generation_pre h + 1) in
      Some (Ok {| magic := magic h; size := size h; head := off; generation_pre := gen;
                  generation_post := gen; tail := tail h; data := data h |}).

Definition ring_available (h : ring_header) : Z :=
  let avail := if tail h <? head h then i32 (head h - tail h)
               else i32 (if head h >? u64 (size h - tail h) then head h else u64 (size h - tail h)) in
  if 0 >? avail - 2 * 8 then 0 else avail - 2 * 8.

(** ** Iterators *)
Definition ring_iter_init (h : ring_header) : ringiter * result errno unit :=
  let it := {| it_generation := generation_post h; it_offset := head h |} in
  (it, if negb (generation_pre h =? it_generation it) then Err EAGAIN else Ok tt).

Definition ring_iter_invalid (h : ring_header) (it : ringiter) : bool :=
  generation_pre h >? it_generation it.

Definition ring_iter_shift (h : ring_header) (it : ringiter) : option (result errno ringiter) :=
  if ring_iter_invalid h it then Some (Err EINVAL)
  else if it_offset it =? tail h then Some (Err EAGAIN)
  else if head h =? tail h then Some (Err EAGAIN)
  else
    let! off := ring_shift_offset 2 h (it_offset it) in
    if ring_iter_invalid h it then Some (Err EINVAL)
    else if off <? 0 then Some (Err EAGAIN)
    else Some (Ok {| it_generation := u64 (it_generation it + 1); it_offset := off |}).

Definition ring_iter_read (h : ring_header) (it : ringiter) : option (result errno (Z * Z)) :=
  if ring_iter_invalid h it then Some (Err EINVAL)
  else
    let! r := ring_read_at 2 h (it_offset it) in
    match r with
    | Err e => Some (Err e)
    | Ok x => if ring_iter_invalid h it then Some (Err EINVAL) else Some (Ok x)
    end.

(** ** Representation *)
Definition msg_ok (m : msg) : Prop := zlen m ≤ 2147483632.

Record ring_rep (h : ring_header) (q : list msg) (ps : list Z) : Prop := {
  rep_wf : ring_wf (size h) (head h) (tail h) (data h);
  rep_layout : ring_layout (data h) (size h) (head h) (tail h) q;
  rep_path : ring_path (data h) (size h) (tail h) (head h) q ps;
  rep_msgs : Forall msg_ok q;
  rep_gen : generation_pre h = generation_post h;
  rep_gen_range : 0 ≤ generation_pre h < 2 ^ 64;
}.

Lemma size_aligned_up8 x : 0 ≤ x ≤ 2147483640 → size_aligned x = up8 x.
Proof.
  intros Hx. unfold size_aligned. rewrite (wraps_id 32 (- x)) by zlia.
  change 7 with (Z.ones 3). rewrite Z.land_ones by lia. change (2 ^ 3) with 8.
  pose proof (up8_spec x). unfold up8 in *.
  apply wraps_id; [lia|]. rewrite pow2_31. Z.to_euclidean_division_equations; lia.
Qed.

Lemma alloc_size_block m : msg_ok m → alloc_size (zlen m) = block_size m.
Proof.
  unfold msg_ok, alloc_size, block_size. intros Hm. pose proof (zlen_nonneg m).
  rewrite (wrapu_id 64 (zlen m + 4)) by zlia. rewrite (wraps_id 32) by zlia.
  rewrite size_aligned_up8 by lia. pose proof (up8_spec (zlen m + 4)). apply wrapu_id. zlia.
Qed.

Lemma ring_free_space size head tail d :
  ring_wf size head tail d →
  u64 (wrap_size (u64 (size + head - tail - 1)) size + 1) = room size head tail.
Proof.
  intros [Hs Hs8 Hd Hh Hh8 Ht Ht8]. unfold room. case_bool.
  - rewrite (wrapu_id 64 (_ - 1)) by zlia. rewrite wrap_size_lt by lia. nowrap. lia.
  - rewrite (wrapu_id 64 (_ - 1)) by zlia. rewrite wrap_size_ge by lia. nowrap. lia.
Qed.

(** The decision of the writer, without machine arithmetic. *)
Lemma ring_write_begin_spec h q ps m :
  ring_rep h q ps → msg_ok m →
  ring_write_begin h (zlen m) =
    if size h <? 2 * block_size m then Err ERANGE
    else if room (size h) (head h) (tail h) <=? block_size m then Err EAGAIN
    else if size h <? tail h + block_size m then
      if head h <=? block_size m then Err EAGAIN else Ok 4
    else Ok (tail h + 4).
Proof.
  intros Hr Hm. pose proof (rep_wf _ _ _ Hr) as Hwf. unfold ring_write_begin.
  rewrite (alloc_size_block m) by done. rewrite (ring_free_space _ _ _ _ Hwf).
  pose proof (block_size_spec m). destruct Hwf. unfold msg_ok in Hm. nowrap.
  rewrite !Z.gtb_ltb. done.
Qed.

(** One write of the code against the memory operations of the layout. *)
Lemma ring_write_cells h p m :
  msg_ok m → p = 0 ∨ p = tail h → 0 ≤ p →
  (let! d := mem_store (data h) (p + 4) m in
   let! h' := ring_write_end (set_tail (tail h) d h) (p + 4) (zlen m) in
   Some (@Ok errno _ h')) =
  (let! d := write_cells (data h) (tail h) p m in
   Some (Ok (set_tail (wrap_size (u64 (p + block_size m)) (size h)) d h))).
Proof.
  intros Hm Hp Hp0. unfold ring_write_end, write_cells. cbn [data tail size set_tail].
  rewrite alloc_size_block by done. pose proof (zlen_nonneg m). unfold msg_ok in Hm.
  rewrite (wraps_id 32 (zlen m)) by zlia.
  replace (p + 4 =? 0 + 4) with (p =? 0) by (repeat case_bool; lia).
  destruct (mem_store (data h) (p + 4) m) as [d1|]; cbn [mbind option_bind]; [|done].
  destruct (Z.eqb_spec p 0) as [->|Hne].
  - destruct (store_i32 d1 (tail h) (-1)) as [d2|]; cbn; [|done].
    by destruct (store_i32 d2 0 (zlen m)).
  - destruct Hp as [->| ->]; [done|]. cbn. by destruct (store_i32 d1 (tail h) (zlen m)).
Qed.

Lemma rep_push h q ps m d' :
  ring_rep h q ps → msg_ok m →
  can_push_tail (data h) d' (size h) (tail h) m (head h) ∨
  can_push_front (data h) d' (size h) (tail h) m (head h) →
  ring_rep (set_tail (tail_after (size h) (tail h) m) d' h) (q ++ [m]) (ps ++ [tail h]).
Proof.
  intros [Hwf HL Hp Hq Hg Hgr] Hm Hc.
  destruct (push_layout _ _ _ _ _ _ _ Hwf HL Hc) as [Hwf' HL'].
  split; cbn; try done; [by apply push_path with (data h)|].
  apply Forall_app; split; [done|]. by constructor.
Qed.

Lemma ring_write_spec h q ps m :
  ring_rep h q ps → msg_ok m →
  (∃ h', ring_write h m = Some (Ok h') ∧ ring_rep h' (q ++ [m]) (ps ++ [tail h]) ∧ head h' = head h ∧
         generation_pre h' = generation_pre h) ∨
  (∃ e, ring_write h m = Some (Err e) ∧ (e = EAGAIN ∨ e = ERANGE)).
Proof.
  intros Hr Hm. unfold ring_write. rewrite (ring_write_begin_spec h q ps m) by done.
  pose proof (rep_wf _ _ _ Hr) as Hwf. pose proof Hwf as [Hs Hs8 Hd Hh Hh8 Ht Ht8].
  pose proof (block_size_spec m). unfold msg_ok in Hm.
  case_bool; [eauto 10|]. destruct (Z.leb_spec (room (size h) (head h) (tail h)) (block_size m)) as [|Hroom]; [eauto 10|].
  case_bool; [case_bool; [eauto 10|]|]; left.
  - assert (head h ≤ tail h) by (unfold room in Hroom; case_bool_in Hroom; lia).
    destruct (write_cells_front _ _ _ _ m Hwf) as (d' & Hw & Hpf); [lia|lia|lia|].
    change 4 with (0 + 4) at 1 2. rewrite ring_write_cells by (done || lia || auto).
    rewrite Hw. cbn [mbind option_bind]. eexists. split; [done|].
    rewrite wrapu_id by zlia. split_and!; [|done|done].
    replace (wrap_size (0 + block_size m) (size h)) with (tail_after (size h) (tail h) m).
    + apply rep_push; [done|done|]. right. split; [done|lia].
    + unfold tail_after. case_bool; [lia|]. by rewrite Z.add_0_l.
  - destruct (write_cells_tail _ _ _ _ m Hwf) as (d' & Hw & Hpt); [lia|lia|].
    rewrite ring_write_cells by (done || lia || auto).
    rewrite Hw. cbn [mbind option_bind]. eexists. split; [done|].
    rewrite wrapu_id by zlia. split_and!; [|done|done].
    replace (wrap_size (tail h + block_size m) (size h)) with (tail_after (size h) (tail h) m).
    + apply rep_push; [done|done|]. left. split; [done|lia].
    + unfold tail_after. case_bool; [done|lia].
Qed.

(** Reading and shifting at any position of the path. *)
Lemma ring_read_at_front h off m next :
  off ≠ tail h → front_at (data h) (size h) off (tail h) m next →
  ∃ p, ring_read_at 2 h off = Some (Ok (p, zlen m)) ∧ mem_load (data h) p (zlen m) = Some m.
Proof.
  intros Hne Hf. pose proof (zlen_nonneg m). cbn [ring_read_at]. tests.
  destruct Hf as [[[Hl Hb] _]|(Hl & Ht0 & [Hl0 Hb] & _)]; rewrite Hl; cbn [mbind option_bind]; tests.
  - eauto.
  - rewrite Hl0. cbn [mbind option_bind]. tests. eauto.
Qed.

Lemma ring_shift_offset_front h off m next :
  0 ≤ off < size h → size h < 9223372036854775808 → 0 ≤ next < size h → msg_ok m →
  front_at (data h) (size h) off (tail h) m next → ring_shift_offset 2 h off = Some next.
Proof.
  intros Hoff Hs Hn Hm Hf. pose proof (zlen_nonneg m). pose proof (block_size_spec m).
  unfold msg_ok in Hm. cbn [ring_shift_offset].
  assert (size_aligned (i32 (u64 (zlen m + 4))) = block_size m) as Ha.
  { rewrite (wrapu_id 64) by zlia. rewrite (wraps_id 32) by zlia. by apply size_aligned_up8; lia. }
  destruct Hf as [[[Hl Hb] ->]|(Hl & Ht0 & [Hl0 Hb] & ->)]; rewrite Hl; cbn [mbind option_bind].
  - tests. rewrite Ha, (wrapu_id 64) by zlia. by rewrite wraps_id by zlia.
  - tests. rewrite Hl0. cbn [mbind option_bind]. tests.
    rewrite Ha, (wrapu_id 64), Z.add_0_l by zlia. by rewrite wraps_id by zlia.
Qed.

Lemma ring_read_msg_spec h q ps :
  ring_rep h q ps → ring_read_msg h = Some (match q with [] => Err EAGAIN | m :: _ => Ok m end).
Proof.
  intros [Hwf HL Hp Hq _ _]. unfold ring_read_msg, ring_read.
  inversion Hp as [E|off m next q' ps' Hne Hf Hp' E]; subst.
  - cbn. by rewrite Z.eqb_refl.
  - destruct (ring_read_at_front h (head h) m next Hne Hf) as (p & -> & Hl). cbn. by rewrite Hl.
Qed.

Lemma ring_shift_spec h q ps :
  ring_rep h q ps →
  match q with
  | [] => ring_shift h = Some (Err EAGAIN)
  | m :: q' => ∃ h' ps', ring_shift h = Some (Ok h') ∧ ps = head h :: ps' ∧ ring_rep h' q' ps' ∧
                 tail h' = tail h ∧ data h' = data h ∧ size h' = size h ∧
                 generation_pre h' = u64 (generation_pre h + 1)
  end.
Proof.
  intros [Hwf HL Hp Hq Hg Hgr]. unfold ring_shift.
  inversion Hp as [E|off m next q' ps' Hne Hf Hp' E]; subst.
  - by rewrite Z.eqb_refl.
  - rewrite (proj2 (Z.eqb_neq _ _)) by done. apply Forall_cons in Hq as [Hm Hq].
    destruct (ring_layout_front _ _ _ _ _ _ Hwf HL) as (n & _ & Hf' & Hwf' & HL').
    assert (n = next) as -> by (eapply front_at_det; [done|exact Hf'|exact Hf]).
    pose proof Hwf as []. pose proof Hwf' as [].
    rewrite (ring_shift_offset_front h (head h) m next) by (done || lia).
    cbn [mbind option_bind]. case_bool; [lia|]. eexists _, _. split_and!; try done.
    split; cbn; try done. by apply wrapu_range.
Qed.

Lemma bind_Ok_not_Err {A B C} (x : option A) (f : A → option B) (e : C) :
  (let! a := x in let! b := f a in Some (@Ok C B b)) ≠ Some (Err e).
Proof. destruct x as [a|]; cbn; [|done]. by destruct (f a). Qed.

(** An empty ring has room for everything that is not refused as too large. *)
Lemma ring_write_empty_room h ps m :
  ring_rep h [] ps → msg_ok m → 2 * block_size m ≤ size h →
  ∃ h', ring_write h m = Some (Ok h') ∧ ring_rep h' [m] (ps ++ [tail h]).
Proof.
  intros Hr Hm Hfit.
  destruct (ring_write_spec h [] ps m Hr Hm) as [(h' & -> & Hr' & _)|(e & He & _)]; [by eauto|].
  exfalso. revert He. unfold ring_write. rewrite (ring_write_begin_spec h [] ps m) by done.
  pose proof (rep_wf _ _ _ Hr) as [Hs Hs8 Hd Hh Hh8 Ht Ht8]. pose proof (block_size_spec m).
  pose proof (proj1 (ring_layout_empty _ _ _ _) (rep_layout _ _ _ Hr)) as E.
  replace (room (size h) (head h) (tail h)) with (size h) by (unfold room; tests; lia). tests.
  case_bool; tests; intros He; by apply bind_Ok_not_Err in He.
Qed.

Lemma ring_write_range h q ps m :
  ring_rep h q ps → msg_ok m → ring_write h m = Some (Err ERANGE) ↔ size h < 2 * block_size m.
Proof.
  intros Hr Hm. unfold ring_write. rewrite (ring_write_begin_spec h q ps m) by done.
  split.
  - destruct (Z.ltb_spec (size h) (2 * block_size m)); [done|].
    repeat (case_bool; try done); intros He; by apply bind_Ok_not_Err in He.
  - intros. by tests.
Qed.

(** ** Iterators

    An iterator of generation [generation_pre + k] stands at the [k]-th of the
    positions the consumer will visit. *)
Record iter_rep (h : ring_header) (ps : list Z) (it : ringiter) (k : nat) : Prop := {
  iter_gen : it_generation it = generation_pre h + Z.of_nat k;
  iter_pos : (ps ++ [tail h]) !! k = Some (it_offset it);
}.

Lemma path_suffix d size tail off q ps k off' :
  ring_path d size tail off q ps → (ps ++ [tail]) !! k = Some off' →
  ring_path d size tail off' (drop k q) (drop k ps).
Proof.
  intros Hp. revert k. induction Hp as [|off m next q ps Hne Hf Hp IH]; intros k Hk.
  - destruct k as [|[|k]]; cbn in Hk; [|done..]. injection Hk as <-. constructor.
  - destruct k as [|k]; cbn in Hk.
    + injection Hk as <-. by econstructor.
    + cbn. by apply IH.
Qed.

Lemma path_layout_suffix d size tail q ps : ∀ off k off',
  ring_wf size off tail d → ring_layout d size off tail q → ring_path d size tail off q ps →
  (ps ++ [tail]) !! k = Some off' →
  ring_wf size off' tail d ∧ ring_layout d size off' tail (drop k q).
Proof.
  revert ps. induction q as [|m q IH]; intros ps off k off' Hwf HL Hp Hk.
  - inversion Hp; subst. destruct k as [|[|k]]; cbn in Hk; [|done..]. by injection Hk as <-.
  - inversion Hp as [|? ? next ? ps' Hne Hf Hp']; subst.
    destruct (ring_layout_front _ _ _ _ _ _ Hwf HL) as (n & _ & Hf' & Hwf' & HL').
    assert (n = next) as -> by (eapply front_at_det; [done|exact Hf'|exact Hf]).
    destruct k as [|k]; cbn in Hk; [by injection Hk as <-|]. by eapply IH.
Qed.

Lemma iter_init_spec h q ps :
  ring_rep h q ps → ring_iter_init h = (mk_iter (generation_pre h) (head h), Ok tt) ∧
                    iter_rep h ps (mk_iter (generation_pre h) (head h)) 0.
Proof.
  intros [Hwf HL Hp Hq Hg Hgr]. unfold ring_iter_init. cbn. rewrite <-Hg, Z.eqb_refl. split; [done|].
  split; cbn; [lia|]. rewrite <-(ring_path_head _ _ _ _ _ _ Hp). by destruct ps.
Qed.

(** Reading through an iterator gives the [k]-th message of the queue. *)
Lemma iter_read_spec h q ps it k :
  ring_rep h q ps → iter_rep h ps it k →
  match q !! k with
  | Some m => ∃ p, ring_iter_read h it = Some (Ok (p, zlen m)) ∧ mem_load (data h) p (zlen m) = Some m
  | None => ring_iter_read h it = Some (Err EAGAIN)
  end.
Proof.
  intros [Hwf HL Hp Hq Hg Hgr] [Hit Hk]. unfold ring_iter_read, ring_iter_invalid. rewrite Hit. tests.
  pose proof (path_suffix _ _ _ _ _ _ _ _ Hp Hk) as Hs.
  rewrite <-(Nat.add_0_r k), <-lookup_drop.
  inversion Hs as [E Eq Eps|off m next q' ps' Hne Hf Hp' E1 Eq Eps]; subst; cbn [lookup list_lookup].
  - cbn. by rewrite Z.eqb_refl.
  - destruct (ring_read_at_front h _ m next Hne Hf) as (p & -> & Hl). cbn. eauto.
Qed.

Lemma iter_shift_spec h q ps it k :
  ring_rep h q ps → iter_rep h ps it k → generation_pre h + Z.of_nat k + 1 < 2 ^ 64 →
  match q !! k with
  | Some _ => ∃ it', ring_iter_shift h it = Some (Ok it') ∧ iter_rep h ps it' (S k)
  | None => ring_iter_shift h it = Some (Err EAGAIN)
  end.
Proof.
  intros [Hwf HL Hp Hq Hg Hgr] [Hit Hk] Hgen. unfold ring_iter_shift, ring_iter_invalid. rewrite Hit. tests.
  pose proof (path_suffix _ _ _ _ _ _ _ _ Hp Hk) as Hs.
  destruct (path_layout_suffix _ _ _ _ _ _ _ _ Hwf HL Hp Hk) as [Hwf1 HL1].
  rewrite <-(Nat.add_0_r k), <-lookup_drop.
  inversion Hs as [E Eq Eps|off m next q' ps' Hne Hf Hp' E1 Eq Eps]; subst; cbn [lookup list_lookup].
  - by rewrite Z.eqb_refl.
  - assert (head h ≠ tail h) as Hht.
    { intros E. rewrite <-E in Hp. inversion Hp; subst; [|done].
      destruct k as [|[|k]]; cbn in Hk; [|done..]. injection Hk as Hk. congruence. }
    tests. rewrite <-Eq in HL1.
    destruct (ring_layout_front _ _ _ _ _ _ Hwf1 HL1) as (n & _ & Hf' & Hwf' & HL').
    assert (n = next) as -> by (eapply front_at_det; [done|exact Hf'|exact Hf]).
    assert (msg_ok m) as Hm.
    { apply (Forall_drop _ k) in Hq. rewrite <-Eq in Hq. by apply Forall_cons in Hq as [? _]. }
    pose proof Hwf1 as []. pose proof Hwf' as [].
    rewrite (ring_shift_offset_front h _ m next) by (done || lia). cbn [mbind option_bind]. tests.
    eexists. split; [done|]. rewrite Nat.add_0_r. split; cbn [it_generation it_offset].
    + rewrite wrapu_id by lia. lia.
    + assert (drop (S k) (ps ++ [tail h]) = ps' ++ [tail h]) as Hd.
      { replace (S k) with (k + 1)%nat by lia. rewrite <-drop_drop, drop_app_le, <-Eps; [done|].
        apply lookup_lt_Some in Hk. rewrite length_app in Hk. cbn in Hk.
        assert (k ≠ length ps); [|lia]. intros ->. by rewrite drop_all in Eps. }
      rewrite <-(Nat.add_0_r (S k)), <-lookup_drop, Hd.
      rewrite <-(ring_path_head _ _ _ _ _ _ Hp'). by destruct (ps' ++ [tail h]).
Qed.

Lemma ring_init_rep sz d h :
  0 < sz < 9223372036854775808 → sz mod 8 = 0 → zlen d = sz →
  ring_init sz None (Some d) = Ok h → ring_rep h [] [].
Proof.
  intros Hs H8 Hd [= <-]. split; cbn; try lia; try done; [split; cbn; done || lia| |constructor].
  by apply ring_layout_empty.
Qed.

(** The C ring keeps the contract of a message queue. *)
#[export] Program Instance ring_fifo : Fifo ring_header := {
  fifo_push := ring_write;
  fifo_read := ring_read_msg;
  fifo_shift := ring_shift;
  fifo_rep h q := ∃ ps, ring_rep h q ps;
  fifo_msg_ok := msg_ok;
}.
Next Obligation.
  intros h q m [ps Hr] Hm.
  destruct (ring_write_spec h q ps m Hr Hm) as [(h' & ? & ? & _)|(e & ? & [->| ->])]; eauto 10.
Qed.
Next Obligation. intros h q [ps Hr]. by apply ring_read_msg_spec with ps. Qed.
Next Obligation.
  intros h q [ps Hr]. pose proof (ring_shift_spec h q ps Hr) as Hs.
  destruct q as [|m q]; [done|]. naive_solver.
Qed.

(** What happens to a ring while an iterator of another reader is held. *)
Inductive ring_op := RWrite (m : msg) | RShift.

Definition ring_step (h : ring_header) (op : ring_op) : option ring_header :=
  let! r := (match op with RWrite m => ring_write h m | RShift => ring_shift h end) in
  Some (match r with Ok h' => h' | Err _ => h end).

Fixpoint ring_run (h : ring_header) (ops : list ring_op) : option ring_header :=
  match ops with
  | [] => Some h
  | op :: ops => let! h' := ring_step h op in ring_run h' ops
  end.

Definition ring_op_ok (op : ring_op) : Prop := match op with RWrite m => msg_ok m | RShift => True end.

(** An iterator that has been overtaken by the consumer, or a valid one. *)
Definition iter_state (h : ring_header) (ps : list Z) (it : ringiter) : Prop :=
  it_generation it < generation_pre h ∨ ∃ k, iter_rep h ps it k.

Lemma iter_rep_write h ps it k d t :
  iter_rep h ps it k → iter_rep (set_tail t d h) (ps ++ [tail h]) it k.
Proof.
  intros [Hg Hk]. split; [done|]. cbn. rewrite lookup_app_l; [done|]. by eapply lookup_lt_Some.
Qed.

Lemma ring_write_shape h m h' :
  ring_write h m = Some (Ok h') → ∃ t d, h' = set_tail t d h.
Proof.
  unfold ring_write. destruct (ring_write_begin h (zlen m)) as [ptr|]; [|done].
  destruct (mem_store _ _ _) as [d|]; cbn; [|done]. unfold ring_write_end. cbn [data tail size set_tail].
  rewrite bind_Some. intros (h1 & ([d1 t] & _ & (d2 & _ & [= <-])%bind_Some)%bind_Some & [= <-]).
  by eexists _, _.
Qed.

Lemma ring_step_iter h q ps it op :
  ring_rep h q ps → iter_state h ps it → ring_op_ok op → generation_pre h + 1 < 2 ^ 64 →
  ∃ h' q' ps', ring_step h op = Some h' ∧ ring_rep h' q' ps' ∧ iter_state h' ps' it ∧
    generation_pre h ≤ generation_pre h' ≤ generation_pre h + 1.
Proof.
  intros Hr Hi Hok Hg. pose proof (rep_gen_range _ _ _ Hr). destruct op as [m|]; unfold ring_step; cbn in Hok.
  - destruct (ring_write_spec h q ps m Hr Hok) as [(h' & E & Hr' & _ & Hg')|(e & -> & _)].
    + rewrite E. cbn. eexists _, _, _. split_and!; [done|done| |lia|lia].
      destruct (ring_write_shape _ _ _ E) as (t & d & ->).
      destruct Hi as [Hi|[k Hi]]; [by left|right]. exists k. by apply iter_rep_write.
    + cbn. eexists _, _, _. split_and!; [done|done|done|lia|lia].
  - pose proof (ring_shift_spec h q ps Hr) as Hs. destruct q as [|m q].
    + rewrite Hs. cbn. eexists _, _, _. split_and!; [done|done|done|lia|lia].
    + destruct Hs as (h' & ps' & -> & Eps & Hr' & Ht & _ & _ & Hgen). cbn.
      rewrite wrapu_id in Hgen by lia.
      eexists _, _, _. split_and!; [done|done| |lia|lia].
      destruct Hi as [Hi|[[|k] [Hi1 Hi2]]]; [left; lia|left; lia|right]. exists k.
      split; [lia|]. rewrite Ht. by rewrite Eps in Hi2.
Qed.

Lemma ring_run_iter ops : ∀ h q ps it,
  ring_rep h q ps → iter_state h ps it → Forall ring_op_ok ops →
  generation_pre h + zlen ops < 2 ^ 64 →
  ∃ h' q' ps', ring_run h ops = Some h' ∧ ring_rep h' q' ps' ∧ iter_state h' ps' it.
Proof.
  induction ops as [|op ops IH]; intros h q ps it Hr Hi Hok Hg; cbn [ring_run]; [by eauto 10|].
  apply Forall_cons in Hok as [Hop Hok]. rewrite zlen_cons in Hg. pose proof (zlen_nonneg ops).
  destruct (ring_step_iter h q ps it op Hr Hi Hop) as (h1 & q1 & ps1 & -> & Hr1 & Hi1 & Hg1); [lia|].
  cbn. apply (IH h1 q1 ps1); try done. lia.
Qed.

Lemma ring_run_gen ops : ∀ h q ps h',
  ring_rep h q ps → Forall ring_op_ok ops → generation_pre h + zlen ops < 2 ^ 64 →
  ring_run h ops = Some h' → generation_pre h ≤ generation_pre h'.
Proof.
  induction ops as [|op ops IH]; intros h q ps h' Hr Hok Hg Hrun; cbn [ring_run] in Hrun; [by injection Hrun as <-|].
  apply Forall_cons in Hok as [Hop Hok]. rewrite zlen_cons in Hg. pose proof (zlen_nonneg ops).
  destruct (iter_init_spec h q ps Hr) as [_ Hi].
  destruct (ring_step_iter h q ps _ op Hr (or_intror (ex_intro _ _ Hi)) Hop) as (h1 & q1 & ps1 & E & Hr1 & _ & Hg1); [lia|].
  rewrite E in Hrun. cbn in Hrun. etrans; [apply Hg1|]. eapply (IH h1); eauto. lia.
Qed.

(** [j] successive calls of [ring_iter_shift]. *)
Fixpoint iter_advance (j : nat) (h : ring_header) (it : ringiter) : option (result errno ringiter) :=
  match j with
  | O => Some (Ok it)
  | S j =>
      let! r := ring_iter_shift h it in
      match r with Ok it' => iter_advance j h it' | Err e => Some (Err e) end
  end.

Lemma iter_advance_spec j : ∀ h q ps it k,
  ring_rep h q ps → iter_rep h ps it k → (k + j ≤ length q)%nat →
  generation_pre h + Z.of_nat k + Z.of_nat j < 2 ^ 64 →
  ∃ it', iter_advance j h it = Some (Ok it') ∧ iter_rep h ps it' (k + j).
Proof.
  induction j as [|j IH]; intros h q ps it k Hr Hi Hlen Hg; cbn [iter_advance].
  - exists it. by rewrite Nat.add_0_r.
  - pose proof (iter_shift_spec h q ps it k Hr Hi) as Hs.
    destruct (lookup_lt_is_Some_2 q k) as [m Hm]; [lia|]. rewrite Hm in Hs.
    destruct Hs as (it1 & -> & Hi1); [lia|]. cbn.
    destruct (IH h q ps it1 (S k) Hr Hi1) as (it2 & -> & Hi2); [lia|lia|].
    exists it2. split; [done|]. by replace (k + S j)%nat with (S k + j)%nat by lia.
Qed.

(** ** Properties *)

(** [ring_write] never touches memory outside of the ring and either
    appends the message, keeping everything stored before it, or refuses it
    and changes nothing: ERANGE exactly when twice the block is larger than
    the ring, EAGAIN only when the ring is not empty. *)
Theorem ring_write_correct h q m :
  fifo_rep h q → msg_ok m →
  match ring_write h m with
  | Some (Ok h') => fifo_rep h' (q ++ [m]) ∧ 2 * block_size m ≤ size h
  | Some (Err ERANGE) => size h < 2 * block_size m
  | Some (Err EAGAIN) => 2 * block_size m ≤ size h ∧ q ≠ []
  | _ => False
  end.
Proof.
  intros [ps Hr] Hm. pose proof (ring_write_range h q ps m Hr Hm) as Hrange.
  pose proof (λ p, ring_write_empty_room h p m) as Hroom.
  destruct (ring_write_spec h q ps m Hr Hm) as [(h' & E & ? & _)|(e & E & [->| ->])]; rewrite E in *.
  - split; [by eexists|]. apply Z.nlt_ge. intros ?%Hrange. done.
  - assert (2 * block_size m ≤ size h) by (apply Z.nlt_ge; by intros ?%Hrange).
    split; [done|]. intros ->. destruct (Hroom ps) as (? & ? & _); done.
  - by apply Hrange.
Qed.

Definition sample : ring_header :=
  {| magic := ring_magic; size := 64; head := 0; generation_pre := 0; generation_post := 0;
     tail := 0; data := replicate 64 0 |}.

Lemma sample_rep : ring_rep sample [] [].
Proof. by apply ring_init_rep with 64 (replicate 64 0). Qed.

Lemma ring_write_correct_witness :
  fifo_rep sample [] ∧ msg_ok [1; 2; 3] ∧
  match ring_write sample [1; 2; 3] with Some (Ok h') => fifo_rep h' [[1; 2; 3]] | _ => False end.
Proof.
  assert (fifo_rep sample []) as Hr by (exists []; apply sample_rep).
  assert (msg_ok [1; 2; 3]) as Hm by (vm_compute; congruence).
  split_and!; [exact Hr|exact Hm|]. pose proof (ring_write_correct sample [] [1; 2; 3] Hr Hm) as H.
  vm_compute ring_write in *. apply H.
Defined.

(** C1: a ring is a queue. On a ring whose size is a positive multiple of 8
    below 2^63, freshly initialised over a buffer of that size, and for
    messages of at most 2^31 - 16 bytes: for every interleaving of posts and
    reads no access leaves the buffer, and the received messages followed by
    the content of the ring are exactly the accepted ones, in order. (Other
    sizes are accepted by ring_init and lead to accesses behind the buffer:
    [ring_unaligned_overflow].) *)
Theorem ring_trace_fifo sz d h ops :
  0 < sz < 9223372036854775808 → sz mod 8 = 0 → zlen d = sz →
  ring_init sz None (Some d) = Ok h → Forall op_ok ops →
  ∃ h' q l, fifo_run h {| accepted := []; received := [] |} ops = Some (h', l) ∧
            fifo_rep h' q ∧ accepted l = received l ++ q.
Proof.
  intros Hs H8 Hd Hi Hok. pose proof (ring_init_rep sz d h Hs H8 Hd Hi).
  destruct (fifo_run_inv ops h [] {| accepted := []; received := [] |}) as (s & q & l & ? & ? & ?); eauto 10.
  by exists [].
Qed.

Lemma ring_trace_fifo_witness :
  ∃ h' q l, fifo_run sample {| accepted := []; received := [] |} [Push [1]; Push [2; 3]; Pop] = Some (h', l) ∧
            fifo_rep h' q ∧ accepted l = received l ++ q.
Proof.
  apply (ring_trace_fifo 64 (replicate 64 0)); [lia|done|done|done|].
  repeat constructor; vm_compute; congruence.
Defined.

(** C25: an iterator taken from the ring, advanced by [j] messages and then
    held over any writes and shifts either is reported invalid, exactly when
    the consumer has passed its message, or reads the complete, unmodified
    message of its position (or finds the end of the queue). *)
Theorem ring_iter_consistent h q j ops h' :
  fifo_rep h q → (j ≤ length q)%nat → Forall ring_op_ok ops →
  generation_pre h + Z.of_nat j + zlen ops < 2 ^ 64 → ring_run h ops = Some h' →
  let passed := generation_pre h' - generation_pre h in
  ∃ it q', iter_advance j h (fst (ring_iter_init h)) = Some (Ok it) ∧ fifo_rep h' q' ∧ 0 ≤ passed ∧
    (if Z.of_nat j <? passed then ring_iter_read h' it = Some (Err EINVAL)
     else
       match q' !! Z.to_nat (Z.of_nat j - passed) with
       | None => ring_iter_read h' it = Some (Err EAGAIN)
       | Some m => ∃ p, ring_iter_read h' it = Some (Ok (p, zlen m)) ∧
                        mem_load (data h') p (zlen m) = Some m
       end).
Proof.
  intros [ps Hr] Hj Hok Hg Hrun passed. destruct (iter_init_spec h q ps Hr) as [-> Hi0].
  pose proof (zlen_nonneg ops). pose proof (rep_gen_range _ _ _ Hr).
  destruct (iter_advance_spec j h q ps _ 0 Hr Hi0) as (it & Hadv & Hi); [lia|lia|].
  assert (generation_pre h ≤ generation_pre h') as Hmono by (eapply ring_run_gen; eauto; lia).
  destruct (ring_run_iter ops h q ps it Hr (or_intror (ex_intro _ _ Hi)) Hok)
    as (h1 & q1 & ps1 & E & Hr1 & Hi1); [lia|].
  rewrite Hrun in E. injection E as <-. exists it, q1.
  split; [done|]. split; [by eexists|]. subst passed. split; [lia|].
  pose proof (iter_gen _ _ _ _ Hi) as Hgen0. destruct Hi1 as [Hlt|[k Hk]].
  - tests. unfold ring_iter_read, ring_iter_invalid. by tests.
  - pose proof (iter_gen _ _ _ _ Hk) as Hgen. tests.
    replace (Z.to_nat _) with k by lia. exact (iter_read_spec h' q1 ps1 it k Hr1 Hk).
Qed.

Lemma ring_iter_consistent_witness :
  ∃ h' it q', ring_run sample [RWrite [1]; RWrite [2; 3]; RShift] = Some h' ∧
    iter_advance 0 sample (fst (ring_iter_init sample)) = Some (Ok it) ∧ fifo_rep h' q' ∧
    ring_iter_read h' it = Some (Err EINVAL).
Proof.
  destruct (ring_run sample [RWrite [1]; RWrite [2; 3]; RShift]) as [h'|] eqn:E; [|vm_compute in E; discriminate].
  destruct (ring_iter_consistent sample [] 0 [RWrite [1]; RWrite [2; 3]; RShift] h') as (it & q' & H1 & H2 & _ & H3).
  - exists []. apply sample_rep.
  - cbn. lia.
  - repeat constructor; vm_compute; congruence.
  - vm_compute; congruence.
  - exact E.
  - exists h', it, q'. split_and!; try done. vm_compute in E. injection E as <-. exact H3.
Defined.

(** A message no larger than what [ring_available] reports is never
    refused for lack of space (rings below 2GB; a message above half of the
    ring is still refused as too large). *)
Theorem ring_available_sound h q m :
  fifo_rep h q → size h < 2147483648 → zlen m ≤ ring_available h →
  0 < ring_available h → 2 * block_size m ≤ size h →
  ∃ h', ring_write h m = Some (Ok h') ∧ fifo_rep h' (q ++ [m]).
Proof.
  intros [ps Hr] Hs31 Hm Hav Hfit. pose proof (rep_wf _ _ _ Hr) as [Hs Hs8 Hd Hh Hh8 Ht Ht8].
  pose proof (block_size_spec m). pose proof (zlen_nonneg m).
  assert (msg_ok m) as Hok by (unfold msg_ok; lia).
  destruct (ring_write_spec h q ps m Hr Hok) as [(h' & -> & Hr' & _)|(e & He & _)]; [exists h'; split; [done|by eexists]|].
  exfalso. revert He. unfold ring_write. rewrite (ring_write_begin_spec h q ps m) by done. tests.
  unfold ring_available in Hm, Hav. rewrite !Z.gtb_ltb in Hm, Hav.
  rewrite (wrapu_id 64 (size h - tail h)) in Hm, Hav by zlia.
  assert (block_size m < room (size h) (head h) (tail h) ∧
          (size h < tail h + block_size m → block_size m < head h)) as [Hroom Hfront].
  { unfold room. destruct (Z.ltb_spec (tail h) (head h)); tests.
    - rewrite wraps_id in Hm, Hav by zlia. revert Hm Hav. case_bool; lia.
    - destruct (Z.ltb_spec (size h - tail h) (head h));
        rewrite wraps_id in Hm, Hav by zlia; revert Hm Hav; case_bool; lia. }
  tests. destruct (Z.ltb_spec (size h) (tail h + block_size m)); tests; intros He; by apply bind_Ok_not_Err in He.
Qed.

Lemma ring_available_sound_witness :
  ring_available sample = 48 ∧ ∃ h', ring_write sample (replicate 20 7) = Some (Ok h') ∧ fifo_rep h' [replicate 20 7].
Proof.
  split; [reflexivity|]. apply (ring_available_sound sample [] (replicate 20 7)).
  - exists []. apply sample_rep.
  - reflexivity.
  - vm_compute. congruence.
  - reflexivity.
  - vm_compute. congruence.
Defined.

(** The size computation of [ring_write_begin] is done in 32 bits: a
    request of 2^32 bytes is accepted by a 64 byte ring as a block of 8. *)
Theorem ring_write_begin_truncates :
  alloc_size 4294967296 = 8 ∧ ring_write_begin sample 4294967296 = Ok 4.
Proof. split; reflexivity. Qed.

(** The alignment of the buffer is not checked: in a ring of 18 bytes the
    wrap marker is written past the end of the buffer, after a run in which
    every message was accepted and read. *)
Theorem ring_unaligned_overflow :
  match ring_init 18 None (Some (replicate 18 0)) with
  | Ok h0 =>
      match ring_run h0 [RWrite [1]; RWrite [2]; RShift; RShift] with
      | Some h1 => ring_write_begin h1 1 = Ok 4 ∧ ring_write h1 [3] = None
      | None => False
      end
  | Err _ => False
  end.
Proof. vm_compute. split; reflexivity. Qed.

End RingC.
