(* ===== verification/CppRing.v ===== *)
(** * The C++ ring of the memory channels (src/tll/cppring.h)

    [RingT<HeadGen, TailGen>] is the C ring with optional generation counters
    on both markers; [PubRing] (both enabled) is what the publish channel
    shares with its subscribers.  The code is modelled again from the header
    and related to [RingC]: same algorithm, different integer widths. *)
From S2P Require Import Prelude Mem Fifo Ring.

Module RingT.

(** [RingT::Pointer] *)
Record pointer := mk_pointer {
  ptr : Z;
  generation_pre : Z;
  generation_post : Z;
  enabled : bool;
}.

Record ring := mk_ringT {
  _magic : Z;
  _version : Z;
  _size : Z;
  head : pointer;
  tail : pointer;
  data : list Z;
}.

(** [RingT::Iterator] without the pointer to the ring *)
Record iterator := mk_iterator { offset : Z; generation : Z }.

Definition Magic : Z := 1919512167.

(** [Pointer::store] *)
Definition pointer_store (Gen : bool) (p : pointer) (value : Z) : pointer :=
  if Gen then
    let gen := u64 (generation_pre p + 1) in
    {| ptr := value; generation_pre := gen; generation_post := gen; enabled := enabled p |}
  else {| ptr := value; generation_pre := generation_pre p;
          generation_post := generation_post p; enabled := enabled p |}.

(** [Pointer::reset] *)
Definition pointer_reset (Gen : bool) : pointer :=
  {| ptr := 0; generation_pre := if Gen then 0 else u64 (-1);
     generation_post := if Gen then 0 else u64 (-1); enabled := Gen |}.

Definition aligned (x : Z) : Z := u64 (x + Z.land (u64 (- x)) 7).

Definition _wrap_size (off size : Z) : Z := if off >=? size then u64 (off - size) else off.

Section RingT.
Context (HeadGen TailGen : bool).

Definition init (size : Z) (d : list Z) : ring :=
  {| _magic := Magic; _version := 0; _size := size; head := pointer_reset HeadGen;
     tail := pointer_reset TailGen; data := d |}.

Definition _validate (r : ring) : bool :=
  if negb (_magic r =? Magic) then false
  else if HeadGen && negb (enabled (head r)) then false
  else if TailGen && negb (enabled (tail r)) then false
  else true.

Definition bind (r : ring) : option ring := if negb (_validate r) then None else Some r.

Definition write_begin (r : ring) (size : Z) : result errno Z :=
  let a := aligned (u64 (size + 4)) in
  if u64 (2 * a) >? _size r then Err ERANGE
  else
    let t := ptr (tail r) in
    let h := ptr (head r) in
    let free := u64 (_wrap_size (u64 (_size r + h - t - 1)) (_size r) + 1) in
    if free <=? a then Err EAGAIN
    else if u64 (t + a) >? _size r then
      if h <=? a then Err EAGAIN else Ok (0 + 4)
    else Ok (t + 4).

Definition write_end (r : ring) (p size : Z) : option ring :=
  let a := aligned (u64 (size + 4)) in
  let! (d, t) := (if p =? 0 + 4
                  then let! d := store_i32 (data r) (ptr (tail r)) (-1) in Some (d, 0)
                  else Some (data r, ptr (tail r))) in
  let! d := store_i32 d t (i32 size) in
  Some {| _magic := _magic r; _version := _version r; _size := _size r; head := head r;
          tail := pointer_store TailGen (tail r) (_wrap_size (u64 (t + a)) (_size r)); data := d |}.

Definition empty (r : ring) : bool := ptr (head r) =? ptr (tail r).

Fixpoint _read_at (fuel : nat) (r : ring) (off : Z) : option (result errno (Z * Z)) :=
  match fuel with
  | O => None
  | S fuel =>
      if off =? ptr (tail r) then Some (Err EAGAIN)
      else
        let! sz := load_i32 (data r) off in
        if sz <? 0 then _read_at fuel r 0 else Some (Ok (off + 4, sz))
  end.

Definition read (r : ring) : option (result errno (Z * Z)) := _read_at 2 r (ptr (head r)).

Fixpoint _shift_offset (fuel : nat) (r : ring) (off : Z) : option Z :=
  match fuel with
  | O => None
  | S fuel =>
      let! sz := load_i32 (data r) off in
      if sz <? 0 then _shift_offset fuel r 0
      else
        let sz := i32 (aligned (u64 (sz + 4))) in
        Some (i64 (_wrap_size (u64 (off + sz)) (_size r)))
  end.

Definition shift (r : ring) : option (result errno ring) :=
  if ptr (head r) =? ptr (tail r) then Some (Err EAGAIN)
  else
    let! off := _shift_offset 2 r (ptr (head r)) in
    if off <? 0 then Some (Err EAGAIN)
    else Some (Ok {| _magic := _magic r; _version := _version r; _size := _size r;
                     head := pointer_store HeadGen (head r) off; tail := tail r; data := data r |}).

(** *** Iterators *)
Definition valid (r : ring) (it : iterator) : bool := generation_pre (head r) <=? generation it.

Definition it_read (r : ring) (it : iterator) : option (result errno (Z * Z)) :=
  if negb (valid r it) then Some (Err EINVAL)
  else
    let! x := _read_at 2 r (offset it) in
    match x with
    | Err e => Some (Err e)
    | Ok x => if negb (valid r it) then Some (Err EINVAL) else Some (Ok x)
    end.

Definition it_shift (r : ring) (it : iterator) : option (result errno iterator) :=
  if negb (valid r it) then Some (Err EINVAL)
  else
    let t := ptr (tail r) in
    if ptr (head r) =? t then Some (Err EAGAIN)
    else if offset it =? t then Some (Err EAGAIN)
    else
      let! off := _shift_offset 2 r (offset it) in
      if off <? 0 then Some (Err EAGAIN)
      else if negb (valid r it) then Some (Err EINVAL)
      else Some (Ok {| offset := off; generation := u64 (generation it + 1) |}).

Definition _iterator (p : pointer) : iterator :=
  let none := {| offset := 0; generation := 0 |} in
  if negb (enabled p) then none
  else
    let r := {| offset := ptr p; generation := generation_post p |} in
    if negb (generation_pre p =? generation r) then none else r.

Definition begin (r : ring) : iterator := _iterator (head r).
Definition end_ (r : ring) : iterator := _iterator (tail r).

(** The calls a user of the ring makes to store one message: [write_begin],
    copy of the payload, [write_end]. *)
Definition write (r : ring) (m : msg) : option (result errno ring) :=
  match write_begin r (zlen m) with
  | Err e => Some (Err e)
  | Ok p =>
      let! d := mem_store (data r) p m in
      let! r' := write_end {| _magic := _magic r; _version := _version r; _size := _size r;
                              head := head r; tail := tail r; data := d |} p (zlen m) in
      Some (Ok r')
  end.

Definition read_msg (r : ring) : option (result errno msg) :=
  let! x := read r in
  match x with
  | Err e => Some (Err e)
  | Ok (p, sz) => let! m := mem_load (data r) p sz in Some (Ok m)
  end.

(** ** Relation to the C ring *)

(** The C header with the same markers and buffer; without head generations
    the counters of the C ring are not represented and are given. *)
Definition to_c (g : Z) (r : ring) : RingC.ring_header :=
  {| RingC.magic := _magic r; RingC.size := _size r; RingC.head := ptr (head r);
     RingC.generation_pre := if HeadGen then generation_pre (head r) else g;
     RingC.generation_post := if HeadGen then generation_post (head r) else g;
     RingC.tail := ptr (tail r); RingC.data := data r |}.

Definition res_map {A B} (f : A → B) (r : result errno A) : result errno B :=
  match r with Ok a => Ok (f a) | Err e => Err e end.

Lemma aligned_up8 x : 0 ≤ x ≤ 2147483640 → aligned x = up8 x.
Proof.
  intros Hx. unfold aligned, wrapu. change 7 with (Z.ones 3). rewrite Z.land_ones by lia.
  assert ((- x) mod 2 ^ 64 mod 2 ^ 3 = (- x) mod 8) as ->.
  { change (2 ^ 64) with (8 * 2 ^ 61). rewrite Z.rem_mul_r by lia. change (2 ^ 3) with 8.
    Z.to_euclidean_division_equations; lia. }
  pose proof (up8_spec x). unfold up8 in *. apply Z.mod_small. zlia.
Qed.

Lemma aligned_c sz : 0 ≤ sz ≤ 2147483632 → aligned (u64 (sz + 4)) = RingC.alloc_size sz.
Proof.
  intros Hs. unfold RingC.alloc_size. rewrite (wrapu_id 64 (sz + 4)) by zlia.
  rewrite (wraps_id 32) by zlia. rewrite RingC.size_aligned_up8, aligned_up8 by lia.
  pose proof (up8_spec (sz + 4)). symmetry. apply wrapu_id. zlia.
Qed.

Lemma write_begin_c g r sz :
  0 ≤ sz ≤ 2147483632 → write_begin r sz = RingC.ring_write_begin (to_c g r) sz.
Proof. intros Hs. unfold write_begin, RingC.ring_write_begin. by rewrite aligned_c. Qed.

Lemma write_end_c g r p sz :
  0 ≤ sz ≤ 2147483632 →
  to_c g <$> write_end r p sz = RingC.ring_write_end (to_c g r) p sz.
Proof.
  intros Hs. unfold write_end, RingC.ring_write_end. rewrite aligned_c by done. cbn [RingC.data RingC.tail RingC.size to_c].
  destruct (p =? 0 + 4).
  - destruct (store_i32 (data r) (ptr (tail r)) (-1)) as [d|]; cbn; [|done].
    destruct (store_i32 d 0 (i32 sz)); cbn; [|done]. by destruct TailGen.
  - cbn. destruct (store_i32 (data r) (ptr (tail r)) (i32 sz)); cbn; [|done]. by destruct TailGen.
Qed.

Lemma write_c g r m :
  RingC.msg_ok m → fmap (res_map (to_c g)) (write r m) = RingC.ring_write (to_c g r) m.
Proof.
  unfold RingC.msg_ok. intros Hm. pose proof (zlen_nonneg m). unfold write, RingC.ring_write.
  rewrite (write_begin_c g) by lia. destruct (RingC.ring_write_begin _ _) as [p|e]; [|done].
  cbn [RingC.data to_c]. destruct (mem_store (data r) p m) as [d|]; cbn [mbind option_bind fmap option_fmap option_map]; [|done].
  match goal with |- context [RingC.ring_write_end ?h _ _] =>
    change h with (to_c g {| _magic := _magic r; _version := _version r; _size := _size r;
                             head := head r; tail := tail r; data := d |}) end.
  rewrite <-write_end_c by lia. by destruct (write_end _ _ _).
Qed.

Lemma read_at_c g fuel r off : _read_at fuel r off = RingC.ring_read_at fuel (to_c g r) off.
Proof.
  revert off. induction fuel as [|fuel IH]; intros off; cbn; [done|].
  destruct (off =? _); [done|]. destruct (load_i32 (data r) off) as [sz|]; cbn; [|done].
  by rewrite IH.
Qed.

Lemma read_msg_c g r : read_msg r = RingC.ring_read_msg (to_c g r).
Proof. unfold read_msg, read, RingC.ring_read_msg, RingC.ring_read. by rewrite (read_at_c g). Qed.

Lemma shift_offset_front g r off m next :
  0 ≤ off < _size r → _size r < 9223372036854775808 → 0 ≤ next < _size r → RingC.msg_ok m →
  front_at (data r) (_size r) off (ptr (tail r)) m next →
  _shift_offset 2 r off = RingC.ring_shift_offset 2 (to_c g r) off.
Proof.
  intros Hoff Hs Hn Hm Hf. pose proof (zlen_nonneg m). pose proof (block_size_spec m).
  unfold RingC.msg_ok in Hm. cbn [_shift_offset RingC.ring_shift_offset RingC.data to_c].
  assert (i32 (aligned (u64 (zlen m + 4))) = RingC.size_aligned (i32 (u64 (zlen m + 4)))) as Ha.
  { rewrite (wrapu_id 64) by zlia. rewrite (wraps_id 32 (zlen m + 4)) by zlia.
    rewrite aligned_up8, RingC.size_aligned_up8 by lia. apply wraps_id; [lia|].
    unfold block_size in *. zlia. }
  destruct Hf as [[[Hl _] _]|(Hl & _ & [Hl0 _] & _)]; rewrite Hl; cbn [mbind option_bind]; tests.
  - by rewrite Ha.
  - rewrite Hl0. cbn [mbind option_bind]. tests. by rewrite Ha.
Qed.

(** ** Representation *)
Record rep (r : ring) (q : list msg) (ps : list Z) (g : Z) : Prop := {
  rep_c : RingC.ring_rep (to_c g r) q ps;
  rep_head_enabled : HeadGen = true → enabled (head r) = true;
  rep_tail_enabled : TailGen = true → enabled (tail r) = true;
  rep_tail_gen : TailGen = true →
    generation_pre (tail r) = generation_post (tail r) ∧
    generation_pre (tail r) = u64 (RingC.generation_pre (to_c g r) + zlen q);
}.

Lemma write_shape r m r' :
  write r m = Some (Ok r') → head r' = head r ∧ _size r' = _size r ∧
    ∃ t, tail r' = pointer_store TailGen (tail r) t.
Proof.
  unfold write. destruct (write_begin r (zlen m)) as [p|]; [|done].
  rewrite bind_Some. intros (d & _ & (r1 & H & [= ->])%bind_Some). unfold write_end in H.
  apply bind_Some in H as ([d1 t] & _ & (d2 & _ & [= <-])%bind_Some). cbn. eauto.
Qed.

Lemma write_spec r q ps g m :
  rep r q ps g → RingC.msg_ok m →
  (∃ r', write r m = Some (Ok r') ∧ rep r' (q ++ [m]) (ps ++ [ptr (tail r)]) g ∧ head r' = head r) ∨
  (∃ e, write r m = Some (Err e) ∧ (e = EAGAIN ∨ e = ERANGE)).
Proof.
  intros [Hc Hh Ht Htg] Hm. pose proof (write_c g r m Hm) as E.
  destruct (RingC.ring_write_spec (to_c g r) q ps m Hc Hm) as [(h' & Ew & Hr' & Hhd & Hgen)|(e & Ew & He)];
    rewrite Ew in E; destruct (write r m) as [[r'|e']|] eqn:Er; cbn in E; try discriminate;
    injection E as E; subst; [left|right; eauto].
  destruct (write_shape r m r' Er) as (Eh & Es & t & Et).
  exists r'. split_and!; [done| |done]. split; [done|by rewrite Eh| |].
  - intros HT. rewrite Et. unfold pointer_store. rewrite HT. cbn. auto.
  - intros HT. destruct (Htg HT) as [E1 E2]. rewrite Et, HT. cbn [pointer_store generation_pre generation_post].
    split; [done|]. replace (RingC.generation_pre (to_c g r')) with (RingC.generation_pre (to_c g r)) by (cbn; by rewrite Eh).
    rewrite E2, zlen_app, zlen_cons, zlen_nil. unfold wrapu. rewrite Zplus_mod_idemp_l. f_equal. lia.
Qed.

Lemma read_msg_spec r q ps g :
  rep r q ps g → read_msg r = Some (match q with [] => Err EAGAIN | m :: _ => Ok m end).
Proof. intros [Hc _ _ _]. rewrite (read_msg_c g). by apply RingC.ring_read_msg_spec with ps. Qed.

Definition next_g (g : Z) : Z := if HeadGen then g else u64 (g + 1).

Lemma shift_spec r q ps g :
  rep r q ps g →
  match q with
  | [] => shift r = Some (Err EAGAIN)
  | m :: q' => ∃ r' ps', shift r = Some (Ok r') ∧ ps = ptr (head r) :: ps' ∧ rep r' q' ps' (next_g g) ∧
      tail r' = tail r ∧ data r' = data r ∧ _size r' = _size r ∧
      RingC.generation_pre (to_c (next_g g) r') = u64 (RingC.generation_pre (to_c g r) + 1)
  end.
Proof.
  intros [Hc Hh Ht Htg]. pose proof (RingC.ring_shift_spec (to_c g r) q ps Hc) as Hs.
  unfold RingC.ring_shift in Hs. unfold shift. cbn [RingC.head RingC.tail to_c] in Hs.
  pose proof Hc as [Hwf HL Hp Hq Hg Hgr].
  inversion Hp as [E|off m next q' ps' Hne Hf Hp' E]; subst.
  - cbn in E. by rewrite E, Z.eqb_refl.
  - revert Hs. change (RingC.head (to_c g r)) with (ptr (head r)) in *.
    change (RingC.tail (to_c g r)) with (ptr (tail r)) in *. tests.
    destruct (ring_layout_front _ _ _ _ _ _ Hwf HL) as (n & _ & Hf' & Hwf' & HL').
    assert (n = next) as -> by (eapply front_at_det; [done|exact Hf'|exact Hf]).
    apply Forall_cons in Hq as [Hm Hq]. pose proof Hwf as []. pose proof Hwf' as []. cbn in rwf_size, rwf_head, rwf_head0.
    rewrite (shift_offset_front g r _ m next) by (done || lia).
    rewrite (RingC.ring_shift_offset_front (to_c g r) _ m next) by (done || (cbn; lia)).
    cbn [mbind option_bind]. tests. intros (h' & ps0 & [= <-] & [= <-] & Hr' & _ & _ & _ & Hg').
    eexists _, _. split_and!; try done.
    + split; cbn.
      * destruct HeadGen eqn:HG; unfold to_c, next_g, pointer_store; cbn; rewrite ?HG in *; cbn in *; done.
      * intros HG. unfold pointer_store. rewrite HG. cbn. auto.
      * done.
      * intros HT. destruct (Htg HT) as [E1 E2]. split; [done|]. rewrite E2.
        unfold to_c, next_g, pointer_store. rewrite zlen_cons. cbn.
        unfold wrapu. destruct HeadGen; cbn; unfold wrapu; rewrite Zplus_mod_idemp_l; f_equal; lia.
    + unfold to_c, next_g, pointer_store. cbn. by destruct HeadGen.
Qed.

Lemma shift_c r q ps g :
  rep r q ps g → fmap (res_map (to_c (next_g g))) (shift r) = RingC.ring_shift (to_c g r).
Proof.
  intros [Hc _ _ _]. unfold shift, RingC.ring_shift. pose proof Hc as [Hwf HL Hp Hq Hg Hgr].
  change (RingC.head (to_c g r)) with (ptr (head r)) in *.
  change (RingC.tail (to_c g r)) with (ptr (tail r)) in *.
  inversion Hp as [E|off m next q' ps' Hne Hf Hp' E]; subst.
  - by rewrite E, Z.eqb_refl.
  - tests. destruct (ring_layout_front _ _ _ _ _ _ Hwf HL) as (n & _ & Hf' & Hwf' & HL').
    assert (n = next) as -> by (eapply front_at_det; [done|exact Hf'|exact Hf]).
    apply Forall_cons in Hq as [Hm Hq]. pose proof Hwf as []. pose proof Hwf' as []. cbn in rwf_size, rwf_head, rwf_head0.
    rewrite (shift_offset_front g r _ m next) by (done || lia).
    rewrite (RingC.ring_shift_offset_front (to_c g r) _ m next) by (done || (cbn; lia)).
    cbn [mbind option_bind]. tests. unfold to_c, next_g, pointer_store. cbn. by destruct HeadGen.
Qed.

Lemma init_rep sz d :
  0 < sz < 9223372036854775808 → sz mod 8 = 0 → zlen d = sz → rep (init sz d) [] [] 0.
Proof.
  intros Hs H8 Hd. split.
  - assert (to_c 0 (init sz d) =
      {| RingC.magic := RingC.ring_magic; RingC.size := sz; RingC.head := 0; RingC.generation_pre := 0;
         RingC.generation_post := 0; RingC.tail := 0; RingC.data := d |}) as ->.
    { unfold to_c, init, pointer_reset. cbn. by destruct HeadGen. }
    by apply RingC.ring_init_rep with sz d.
  - done.
  - done.
  - intros HT. unfold init, to_c, pointer_reset. cbn. rewrite HT. by destruct HeadGen.
Qed.

Program Definition ringT_fifo : Fifo ring := {|
  fifo_push := write;
  fifo_read := read_msg;
  fifo_shift := shift;
  fifo_rep r q := ∃ ps g, rep r q ps g;
  fifo_msg_ok := RingC.msg_ok;
|}.
Next Obligation.
  intros r q m (ps & g & Hr) Hm.
  destruct (write_spec r q ps g m Hr Hm) as [(r' & ? & ? & _)|(e & ? & [->| ->])]; eauto 10.
Qed.
Next Obligation. intros r q (ps & g & Hr). by apply read_msg_spec with ps g. Qed.
Next Obligation.
  intros r q (ps & g & Hr). pose proof (shift_spec r q ps g Hr) as Hs.
  destruct q as [|m q]; [done|]. naive_solver.
Qed.
End RingT.

(** ** Publish ring: iterators of subscribers *)
Section PubRing.
Abbreviation PubRing := (rep true true).

(** The publisher stores messages and drops the oldest ones; the messages
    it was told are stored are recorded. *)
Definition pub_step (r : ring) (acc : list msg) (op : RingC.ring_op) : option (ring * list msg) :=
  match op with
  | RingC.RWrite m =>
      let! x := write true r m in
      Some (match x with Ok r' => (r', acc ++ [m]) | Err _ => (r, acc) end)
  | RingC.RShift =>
      let! x := shift true r in
      Some (match x with Ok r' => (r', acc) | Err _ => (r, acc) end)
  end.

Fixpoint pub_run (r : ring) (acc : list msg) (ops : list RingC.ring_op) : option (ring * list msg) :=
  match ops with
  | [] => Some (r, acc)
  | op :: ops => let! (r', acc') := pub_step r acc op in pub_run r' acc' ops
  end.

Definition head_gen (r : ring) : Z := generation_pre (head r).

(** [tracks]: since generation [g0], when the ring held [q0], the messages
    [acc] were stored and the first ones of [q0 ++ acc] were dropped. *)
Definition tracks (r : ring) (q q0 acc : list msg) (g0 : Z) : Prop :=
  ∃ dropped, q0 ++ acc = dropped ++ q ∧ head_gen r = g0 + zlen dropped.

Abbreviation iter_state r ps it := (RingC.iter_state (to_c true 0 r) ps it).

Lemma pub_step_inv r q ps acc op q0 g0 it :
  PubRing r q ps 0 → RingC.ring_op_ok op → head_gen r + 1 < 2 ^ 64 → tracks r q q0 acc g0 →
  iter_state r ps it →
  ∃ r' q' ps' acc', pub_step r acc op = Some (r', acc') ∧ PubRing r' q' ps' 0 ∧
    head_gen r' ≤ head_gen r + 1 ∧ tracks r' q' q0 acc' g0 ∧ iter_state r' ps' it.
Proof.
  intros Hr Hok Hg (dr & Hq & Hgd) Hit. set (g := 0) in *.
  pose proof (RingC.rep_gen_range _ _ _ (rep_c _ _ _ _ _ _ Hr)) as Hgr. cbn in Hgr.
  destruct op as [m|]; cbn in Hok; cbn [pub_step].
  - destruct (write_spec true true r q ps g m Hr Hok) as [(r' & -> & Hr' & Hh)|(e & -> & _)]; cbn.
    + eexists _, _, _, _. split; [done|]. split; [exact Hr'|].
      unfold head_gen in *. rewrite Hh. split; [lia|].
      split; [exists dr; unfold head_gen; rewrite Hh; split; [by rewrite !app_assoc, Hq|done]|].
      destruct Hit as [Hit|[k [H1 H2]]]; [left|right; exists k; split]; cbn in *; rewrite ?Hh; try done.
      rewrite lookup_app_l; [done|]. by eapply lookup_lt_Some.
    + eexists _, _, _, _. split_and!; [done|done|lia|by exists dr|done].
  - pose proof (shift_spec true true r q ps g Hr) as Hs. destruct q as [|m q].
    + rewrite Hs. cbn. eexists _, _, _, _. split_and!; [done|done|lia|by exists dr|done].
    + destruct Hs as (r' & ps' & -> & Eps & Hr' & Ht & _ & _ & Hgen). cbn in Hgen |- *.
      unfold head_gen in *. rewrite wrapu_id in Hgen by lia.
      eexists _, _, _, _. split; [done|]. split; [exact Hr'|]. rewrite Hgen. split; [lia|].
      split.
      * exists (dr ++ [m]). unfold head_gen. rewrite Hgen, Hgd, zlen_app, zlen_cons, zlen_nil, <-app_assoc.
        split; [done|lia].
      * destruct Hit as [Hit|[[|k] [H1 H2]]]; cbn in *; [left|left|right; exists k; split]; cbn; try lia.
        rewrite Ht. by rewrite Eps in H2.
Qed.

Lemma pub_run_inv ops : ∀ r q ps acc q0 g0 it,
  PubRing r q ps 0 → Forall RingC.ring_op_ok ops → head_gen r + zlen ops < 2 ^ 64 →
  tracks r q q0 acc g0 → iter_state r ps it →
  ∃ r' q' ps' acc', pub_run r acc ops = Some (r', acc') ∧ PubRing r' q' ps' 0 ∧
    tracks r' q' q0 acc' g0 ∧ iter_state r' ps' it.
Proof.
  induction ops as [|op ops IH]; intros r q ps acc q0 g0 it Hr Hok Hg Ht Hit; cbn [pub_run]; [by eauto 10|].
  apply Forall_cons in Hok as [Hop Hok]. rewrite zlen_cons in Hg. pose proof (zlen_nonneg ops).
  destruct (pub_step_inv r q ps acc op q0 g0 it Hr Hop) as (r1 & q1 & ps1 & acc1 & -> & Hr1 & Hg1 & Ht1 & Hit1); [lia|done|done|].
  cbn. apply (IH r1 q1 ps1); try done. lia.
Qed.

Definition c_iter (it : iterator) : RingC.ringiter := RingC.mk_iter (generation it) (offset it).

Lemma it_read_c r it : it_read r it = RingC.ring_iter_read (to_c true 0 r) (c_iter it).
Proof.
  unfold it_read, valid, RingC.ring_iter_read, RingC.ring_iter_invalid. cbn [c_iter RingC.it_generation RingC.it_offset].
  change (RingC.generation_pre (to_c true 0 r)) with (generation_pre (head r)).
  rewrite Z.gtb_ltb, Z.leb_antisym, negb_involutive. destruct (generation it <? _); [done|].
  by rewrite (read_at_c true 0).
Qed.

(** [end()] gives the position behind the last stored message. *)
Lemma end_iter r q ps :
  PubRing r q ps 0 → head_gen r + zlen q < 2 ^ 64 →
  RingC.iter_rep (to_c true 0 r) ps (c_iter (end_ r)) (length q).
Proof.
  intros Hr Hg. pose proof (rep_tail_gen _ _ _ _ _ _ Hr eq_refl) as [E1 E2].
  pose proof (rep_tail_enabled _ _ _ _ _ _ Hr eq_refl) as Hen.
  pose proof (rep_c _ _ _ _ _ _ Hr) as Hc. pose proof (RingC.rep_gen_range _ _ _ Hc) as Hgr.
  pose proof (zlen_nonneg q). cbn in E2, Hgr. unfold head_gen in Hg. rewrite wrapu_id in E2 by lia.
  unfold end_, _iterator. rewrite Hen. cbn [negb generation]. rewrite E1, Z.eqb_refl. cbn [negb].
  split; cbn; [rewrite <-E1, E2; done|].
  rewrite <-(ring_path_length _ _ _ _ _ _ (RingC.rep_path _ _ _ Hc)).
  by rewrite lookup_app_r, Nat.sub_diag by lia.
Qed.

End PubRing.

(** ** Properties *)

(** For every choice of generation counters the C++ ring is a queue: any
    interleaving of writes and reads on an initialised ring stays inside the
    buffer, and what was received followed by what is stored is what was accepted. *)
Theorem ringT_trace_fifo HeadGen TailGen sz d ops :
  0 < sz < 9223372036854775808 → sz mod 8 = 0 → zlen d = sz →
  Forall (@op_ok ring (ringT_fifo HeadGen TailGen)) ops →
  ∃ r' q l, @fifo_run ring (ringT_fifo HeadGen TailGen) (init HeadGen TailGen sz d)
              {| accepted := []; received := [] |} ops = Some (r', l) ∧
            @fifo_rep ring (ringT_fifo HeadGen TailGen) r' q ∧ accepted l = received l ++ q.
Proof.
  intros Hs H8 Hd Hok.
  destruct (@fifo_run_inv ring (ringT_fifo HeadGen TailGen) ops (init HeadGen TailGen sz d) []
              {| accepted := []; received := [] |}) as (s & q & l & ? & ? & ?); eauto 10.
  exists [], 0. by apply init_rep.
Qed.

Lemma ringT_trace_fifo_witness :
  ∃ r' q l, @fifo_run ring (ringT_fifo true true) (init true true 32 (replicate 32 0))
              {| accepted := []; received := [] |} [Push [1; 2]; Pop; Push [3]; Pop; Pop] = Some (r', l) ∧
            @fifo_rep ring (ringT_fifo true true) r' q ∧ accepted l = received l ++ q.
Proof.
  apply (ringT_trace_fifo true true 32 (replicate 32 0)); [lia|done|done|].
  repeat constructor; vm_compute; congruence.
Defined.

(** C28: a subscriber that joins a publish ring with [end()] and then waits
    while the publisher stores [acc] and drops old messages sees exactly the
    first message published after it joined; it is told that its position is
    invalid exactly when that message has been dropped. *)
Theorem pubring_subscribe_end r q ps ops r' acc :
  rep true true r q ps 0 → Forall RingC.ring_op_ok ops → head_gen r + zlen q + zlen ops < 2 ^ 64 →
  pub_run r [] ops = Some (r', acc) →
  let passed := head_gen r' - head_gen r in
  if zlen q <? passed then it_read r' (end_ r) = Some (Err EINVAL)
  else match acc with
       | [] => it_read r' (end_ r) = Some (Err EAGAIN)
       | m :: _ => ∃ p, it_read r' (end_ r) = Some (Ok (p, zlen m)) ∧ mem_load (data r') p (zlen m) = Some m
       end.
Proof.
  intros Hr Hok Hg Hrun passed. pose proof (zlen_nonneg q). pose proof (zlen_nonneg ops).
  pose proof (end_iter r q ps Hr) as Hi. specialize (Hi ltac:(lia)).
  destruct (pub_run_inv ops r q ps [] q (head_gen r) (c_iter (end_ r)) Hr Hok) as (r1 & q1 & ps1 & acc1 & E & Hr1 & Ht & Hi1).
  { lia. }
  { exists []. rewrite app_nil_r, zlen_nil. split; [done|lia]. }
  { right. by exists (length q). }
  rewrite Hrun in E. injection E as <- <-. destruct Ht as (dr & Hq & Hgd). rewrite it_read_c.
  subst passed. replace (head_gen r' - head_gen r) with (zlen dr) by lia.
  pose proof (RingC.iter_gen _ _ _ _ Hi) as Hg0. change (RingC.generation_pre (to_c true 0 r)) with (head_gen r) in Hg0.
  destruct Hi1 as [Hlt|[k Hk]].
  - change (RingC.generation_pre (to_c true 0 r')) with (head_gen r') in Hlt.
    unfold zlen in *. tests. unfold RingC.ring_iter_read, RingC.ring_iter_invalid.
    change (RingC.generation_pre (to_c true 0 r')) with (head_gen r'). by tests.
  - pose proof (RingC.iter_gen _ _ _ _ Hk) as Hg1. change (RingC.generation_pre (to_c true 0 r')) with (head_gen r') in Hg1.
    unfold zlen in *. tests. pose proof (RingC.iter_read_spec _ _ _ _ k (rep_c _ _ _ _ _ _ Hr1) Hk) as Hread.
    assert (q1 !! k = acc !! 0%nat) as Hl.
    { transitivity ((dr ++ q1) !! (length dr + k)%nat); [by rewrite lookup_app_r, Nat.add_sub' by lia|].
      rewrite <-Hq. replace (length dr + k)%nat with (length q + 0)%nat by lia.
      by rewrite lookup_app_r, Nat.add_sub' by lia. }
    rewrite Hl in Hread. by destruct acc.
Qed.

Lemma pubring_subscribe_end_witness :
  ∃ r' p, pub_run (init true true 64 (replicate 64 0)) [] [RingC.RWrite [5; 6]; RingC.RWrite [7]] = Some (r', [[5; 6]; [7]]) ∧
    it_read r' (end_ (init true true 64 (replicate 64 0))) = Some (Ok (p, 2)) ∧ mem_load (data r') p 2 = Some [5; 6].
Proof.
  destruct (pub_run (init true true 64 (replicate 64 0)) [] [RingC.RWrite [5; 6]; RingC.RWrite [7]]) as [[r' acc]|] eqn:E;
    [|vm_compute in E; discriminate].
  pose proof (pubring_subscribe_end (init true true 64 (replicate 64 0)) [] [] [RingC.RWrite [5; 6]; RingC.RWrite [7]] r' acc) as H.
  specialize (H ltac:(by apply init_rep) ltac:(repeat constructor; vm_compute; congruence) ltac:(reflexivity) E).
  vm_compute in E. injection E as <- <-. destruct H as (p & H1 & H2).
  eexists _, p. split_and!; [reflexivity|exact H1|exact H2].
Defined.

(** Beyond that the sizes are not treated alike: the C ring keeps a size in 32
    bits, so that 2^32 bytes pass as none, and the C++ ring refuses them. *)
Lemma wide_size :
  let r := init true true 64 (replicate 64 0) in
  write_begin r 4294967296 = Err ERANGE ∧ RingC.ring_write_begin (to_c true 0 r) 4294967296 = Ok 4.
Proof. by vm_compute. Qed.

(** C29: for messages of up to 2^31 - 16 bytes, on any ring
    of a size that is a multiple of 8 in a state that the operations lead to
    ([rep]), the C++ ring and the C ring are the same queue: a write has the
    same result, ERANGE and EAGAIN included, and leaves the same memory and
    markers, a read gives the same message or the same error, and a shift has
    the same result and leaves the same memory and markers. *)
Theorem ringT_equiv_ringC HeadGen TailGen r q ps g :
  rep HeadGen TailGen r q ps g →
  (∀ m, RingC.msg_ok m →
     fmap (res_map (to_c HeadGen g)) (write TailGen r m) = RingC.ring_write (to_c HeadGen g r) m) ∧
  read_msg r = RingC.ring_read_msg (to_c HeadGen g r) ∧
  fmap (res_map (to_c HeadGen (next_g HeadGen g))) (shift HeadGen r) = RingC.ring_shift (to_c HeadGen g r).
Proof.
  intros Hr. split_and!.
  - intros m Hm. by apply write_c.
  - apply read_msg_c.
  - by apply shift_c with TailGen q ps.
Qed.

Lemma ringT_equiv_ringC_witness :
  fmap (res_map (to_c true 0)) (write true (init true true 64 (replicate 64 0)) [1]) =
  RingC.ring_write (to_c true 0 (init true true 64 (replicate 64 0))) [1].
Proof.
  apply (ringT_equiv_ringC true true (init true true 64 (replicate 64 0)) [] [] 0).
  - by apply init_rep.
  - vm_compute. congruence.
Defined.

End RingT.
