(* ===== verification/Conv.v ===== *)
(** * Conversion of integers, booleans and sizes to and from text

    src/tll/conv/base.h, src/tll/conv/integer.h, src/tll/util/size.h.
    A character is the value of its byte; integers of type [I] are kept at
    their width [w] (8, 16, 32 or 64 bits). *)
From S2P Require Import Prelude.

Abbreviation bytes := (list Z).

(** Literals of the source. *)
Fixpoint str (s : string) : bytes :=
  match s with
  | EmptyString => []
  | String.String c s => Z.of_N (Ascii.N_of_ascii c) :: str s
  end.

Module Conv.

(** Messages of [tll::error] made by the conversions. *)
Inductive conv_error :=
| EmptyInput
| InvalidDigit (c : Z)
| Overflow
| InvalidBool
| NoMatches
| NoDigits
| InvalidSuffix (s : bytes)
| NegativeValue
| InexactRounding
| ExponentTooLarge
| ValueTooLarge.

(** ** Digits *)

(** [Digits<10>::decode]: the base itself stands for an invalid digit. *)
Definition decode10 (c : Z) : Z := if (c <? 48) || (c >? 57) then 10 else c - 48.

(** [Digits<16>::decode]: the lookup table, by rows. *)
Definition decode16 (c : Z) : Z :=
  if (48 <=? c) && (c <=? 57) then c - 48
  else if (65 <=? c) && (c <=? 70) then c - 55
  else if (97 <=? c) && (c <=? 102) then c - 87
  else 16.

Definition decode (base c : Z) : Z := if base =? 16 then decode16 c else decode10 c.

(** ** Parsing *)

(** Body of the loop of [to_any_uint_base]. *)
Fixpoint uint_loop (w limit base threshold r : Z) (s : bytes) : result conv_error Z :=
  match s with
  | [] => Ok r
  | c :: s =>
      let x := decode base c in
      if x =? base then Err (InvalidDigit c)
      else if r >? threshold then
        let old := r in
        let r := wrapu w (base * r + x) in
        if (old >? r) || (r >? limit) then Err Overflow
        else uint_loop w limit base threshold r s
      else uint_loop w limit base threshold (wrapu w (base * r + x)) s
  end.

Definition to_any_uint_base (w limit base : Z) (s : bytes) : result conv_error Z :=
  let threshold := if limit / base >? base then limit / base - base else 0 in
  match s with
  | [] => Err EmptyInput
  | _ => uint_loop w limit base threshold 0 s
  end.

Definition to_any_uint (w limit : Z) (s : bytes) : result conv_error Z :=
  match s with
  | c0 :: c1 :: (_ :: _) as s2 =>
      if (c0 =? 48) && ((c1 =? 120) || (c1 =? 88))
      then to_any_uint_base w limit 16 (drop 2 s)
      else to_any_uint_base w limit 10 s
  | _ => to_any_uint_base w limit 10 s
  end.

(** [to_any_sint]: result converted to the signed type *)
Definition to_any_sint (w : Z) (s : bytes) : result conv_error Z :=
  match s with
  | [] => Err EmptyInput
  | c :: rest =>
      let max := 2 ^ (w - 1) - 1 in
      if c =? 45 then
        let? r := to_any_uint w (max + 1) rest in Ok (wraps w (wrapu w (- r)))
      else
        let? r := to_any_uint w max (if c =? 43 then rest else s) in Ok (wraps w r)
  end.

Definition to_any_int (w : Z) (unsigned : bool) (s : bytes) : result conv_error Z :=
  if unsigned then to_any_uint w (2 ^ w - 1) s else to_any_sint w s.

(** ** Printing *)

(** [to_string_buf_uint<10>]: digits are written from the end of the buffer. *)
Fixpoint dec_loop (fuel : nat) (v : Z) (out : bytes) : option bytes :=
  match fuel with
  | O => None
  | S fuel =>
      let r := v mod 10 in
      let v := v / 10 in
      let out := 48 + r :: out in
      if v =? 0 then Some out else dec_loop fuel v out
  end.

(** Size of the buffer: one byte for the sign and three per byte of the type. *)
Definition dec_buf_size (w : Z) : Z := 1 + w / 8 * 3.

Definition to_string_uint10 (w v : Z) : option bytes := dec_loop (Z.to_nat w) v [].

Definition hex_char (d : Z) : Z := if d <? 10 then 48 + d else 87 + d.

Fixpoint hex_loop (n : nat) (v : Z) (out : bytes) : bytes :=
  match n with
  | O => out
  | S n =>
      let lo := Z.land v 15 in
      let hi := Z.shiftr (Z.land v 255) 4 in
      let v := Z.shiftr v 8 in
      let out := hex_char hi :: hex_char lo :: out in
      if v =? 0 then out else hex_loop n v out
  end.

Definition to_string_uint16 (w v : Z) : bytes := hex_loop (Z.to_nat (w / 8)) v [].

Definition to_string_buf_int (w : Z) (unsigned : bool) (v : Z) : option bytes :=
  if unsigned then to_string_uint10 w v
  else if v >=? 0 then to_string_uint10 w (wrapu w v)
  else let! r := to_string_uint10 w (wrapu w (- v)) in Some (45 :: r).

(** ** Booleans, tables *)
Definition bool_to_string (v : bool) : bytes := if v then str "true" else str "false".

Definition bool_to_any (s : bytes) : result conv_error bool :=
  if bool_decide (s = str "true") || bool_decide (s = str "yes") || bool_decide (s = str "1") then Ok true
  else if bool_decide (s = str "false") || bool_decide (s = str "no") || bool_decide (s = str "0") then Ok false
  else Err InvalidBool.

Fixpoint select {T} (s : bytes) (m : list (bytes * T)) : result conv_error T :=
  match m with
  | [] => Err NoMatches
  | (k, v) :: m => if bool_decide (k = s) then Ok v else select s m
  end.

(** [parse<std::optional<T>>] *)
Definition optional_to_any {T} (to_any : bytes → result conv_error T) (s : bytes)
  : result conv_error (option T) :=
  match s with [] => Ok None | _ => let? r := to_any s in Ok (Some r) end.

(** ** Sizes with a suffix (64-bit) *)
Definition size_suffix (v : Z) : Z * bytes :=
  if v mod (1024 * 1024 * 1024) =? 0 then (1024 * 1024 * 1024, str "gb")
  else if v mod (1024 * 1024) =? 0 then (1024 * 1024, str "mb")
  else if v mod 1024 =? 0 then (1024, str "kb")
  else (1, str "b").

Definition size_to_string (v : Z) : option bytes :=
  let '(div, s) := size_suffix v in
  let! r := to_string_buf_int 64 true (v / div) in Some (r ++ s).

Definition is_suffix_char (c : Z) : bool := bool_decide (c ∈ str "kmgbit").

(** [s.find_last_not_of("kmgbit")] splits the text: everything up to the last
    character that is not a suffix letter, and the suffix. *)
Fixpoint split_suffix (s : bytes) : bytes * bytes :=
  match s with
  | [] => ([], [])
  | c :: s =>
      let '(a, b) := split_suffix s in
      match a with
      | [] => if is_suffix_char c then ([], c :: b) else ([c], b)
      | _ => (c :: a, b)
      end
  end.

Definition size_to_any (s : bytes) : result conv_error Z :=
  match s with
  | [] => Err EmptyInput
  | _ =>
      let '(num, suffix) := split_suffix s in
      match num with
      | [] => Err NoDigits
      | _ =>
          let? v := to_any_int 64 true num in
          if bool_decide (suffix = str "b") then Ok (u64 (v * 1))
          else if bool_decide (suffix = str "kb") then Ok (u64 (v * 1024))
          else if bool_decide (suffix = str "mb") then Ok (u64 (v * (1024 * 1024)))
          else if bool_decide (suffix = str "gb") then Ok (u64 (v * (1024 * 1024 * 1024)))
          else if bool_decide (suffix = str "bit") then Ok (v / 8)
          else if bool_decide (suffix = str "kbit") then Ok (u64 (v * (1024 / 8)))
          else if bool_decide (suffix = str "mbit") then Ok (u64 (v * (1024 * 1024 / 8)))
          else if bool_decide (suffix = str "gbit") then Ok (u64 (v * (1024 * 1024 * 1024 / 8)))
          else Err (InvalidSuffix suffix)
      end
  end.

(** ** The value of a text, without machine arithmetic *)
Fixpoint text_value (base r : Z) (s : bytes) : option Z :=
  match s with
  | [] => Some r
  | c :: s => let x := decode base c in if x =? base then None else text_value base (base * r + x) s
  end.

Lemma decode_range base c : base = 10 ∨ base = 16 → 0 ≤ c → 0 ≤ decode base c ≤ base.
Proof.
  intros [->| ->] Hc; cbn; unfold decode10, decode16; rewrite ?Z.gtb_ltb; repeat case_bool; cbn; lia.
Qed.

Lemma text_value_ge base r s v :
  base = 10 ∨ base = 16 → Forall (λ c, 0 ≤ c) s → 0 ≤ r → text_value base r s = Some v → r ≤ v.
Proof.
  intros Hb Hs. revert r. induction Hs as [|c s Hc Hs IH]; intros r Hr; cbn; [by intros [= ->]|].
  pose proof (decode_range base c Hb Hc). case_bool; [done|]. intros H1%IH; destruct Hb as [-> | ->]; lia.
Qed.

Lemma text_value_app base r s t :
  text_value base r (s ++ t) = (let! r' := text_value base r s in text_value base r' t).
Proof. revert r. induction s as [|c s IH]; intros r; cbn; [done|]. case_bool; [done|]. apply IH. Qed.

(** Parsing never loses a value that fits. *)
Lemma uint_loop_complete w limit base threshold s : ∀ r v,
  base = 10 ∨ base = 16 → 0 ≤ limit < 2 ^ w → Forall (λ c, 0 ≤ c) s → 0 ≤ r →
  text_value base r s = Some v → v ≤ limit → uint_loop w limit base threshold r s = Ok v.
Proof.
  induction s as [|c s IH]; intros r v Hb Hl Hs Hr; cbn [uint_loop text_value]; [by intros [= ->]|].
  apply Forall_cons in Hs as [Hc Hs]. pose proof (decode_range base c Hb Hc).
  case_bool; [done|]. intros Hv Hle.
  assert (r ≤ base * r + decode base c) as Hge by (destruct Hb as [-> | ->]; lia).
  assert (base * r + decode base c ≤ v) as Hlev by (by eapply text_value_ge; eauto; lia).
  rewrite wrapu_id by lia. tests. cbn. destruct (threshold <? r); apply IH; try done; lia.
Qed.

Lemma text_value_shift base m s : ∀ a j V,
  text_value base a s = Some V → ∃ k, text_value base (a + j * m) s = Some (V + k * m).
Proof.
  induction s as [|c s IH]; intros a j V; cbn; [intros [= <-]; by exists j|].
  case_bool; [done|]. intros Hv. destruct (IH _ (base * j) V Hv) as [k Hk].
  exists k. rewrite <-Hk. f_equal. ring.
Qed.

Lemma wrapu_shift w z : 0 ≤ w → z = wrapu w z + z / 2 ^ w * 2 ^ w.
Proof.
  intros. unfold wrapu. assert (0 < 2 ^ w) by (apply Z.pow_pos_nonneg; lia).
  pose proof (Z.div_mod z (2 ^ w)). lia.
Qed.

(** What is accepted is the value of the text modulo the width of the type. *)
Lemma uint_loop_sound w limit base threshold s : ∀ r v,
  base = 10 ∨ base = 16 → 0 < w → 0 ≤ limit < 2 ^ w → Forall (λ c, 0 ≤ c) s →
  base * threshold + base ≤ limit + 1 ∨ threshold = 0 ∧ base ≤ limit + 1 → 0 ≤ r ≤ limit →
  uint_loop w limit base threshold r s = Ok v →
  0 ≤ v ≤ limit ∧ ∃ k, text_value base r s = Some (v + k * 2 ^ w).
Proof.
  induction s as [|c s IH]; intros r v Hb Hw Hl Hs Ht Hr; cbn [uint_loop text_value].
  { intros [= <-]. split; [lia|]. exists 0. f_equal. lia. }
  apply Forall_cons in Hs as [Hc Hs]. pose proof (decode_range base c Hb Hc).
  case_bool; [done|]. rewrite !Z.gtb_ltb. set (z := base * r + decode base c).
  pose proof (wrapu_range w z ltac:(lia)) as Hwr.
  assert (wrapu w z ≤ limit → uint_loop w limit base threshold (wrapu w z) s = Ok v →
    0 ≤ v ≤ limit ∧ ∃ k, text_value base z s = Some (v + k * 2 ^ w)) as Hrec.
  { intros Hlim Hloop. destruct (IH (wrapu w z) v) as (Hv & k & HV); try done; [lia|].
    split; [done|]. destruct (text_value_shift base (2 ^ w) s _ (z / 2 ^ w) _ HV) as [k' Hk'].
    rewrite <-wrapu_shift in Hk' by lia. exists (k + k'). rewrite Hk'. f_equal. ring. }
  destruct (Z.ltb_spec threshold r).
  - destruct (Z.ltb_spec (wrapu w z) r), (Z.ltb_spec limit (wrapu w z)); cbn; try done. by apply Hrec.
  - apply Hrec. assert (0 ≤ z ≤ limit); [|rewrite wrapu_id; lia].
    subst z. destruct Hb as [-> | ->]; lia.
Qed.

(** ** Printing produces the digits *)
Lemma decode10_digit r : 0 ≤ r < 10 → decode 10 (48 + r) = r.
Proof. intros. unfold decode, decode10. change (10 =? 16) with false. tests. cbn. lia. Qed.

Lemma dec_loop_spec fuel : ∀ v out,
  0 ≤ v < 10 ^ Z.of_nat fuel → (0 < fuel)%nat →
  ∃ ds, dec_loop fuel v out = Some (ds ++ out) ∧ text_value 10 0 ds = Some v ∧
        Forall (λ c, 48 ≤ c ≤ 57) ds ∧ ds ≠ [] ∧ (zlen ds = 1 ∨ 10 ^ (zlen ds - 1) ≤ v).
Proof.
  induction fuel as [|fuel IH]; intros v out Hv Hf; [lia|]. cbn [dec_loop].
  pose proof (Z.mod_pos_bound v 10 ltac:(lia)). pose proof (Z.div_mod v 10 ltac:(lia)).
  rewrite Nat2Z.inj_succ, Z.pow_succ_r in Hv by lia.
  destruct (Z.eqb_spec (v / 10) 0) as [E|E].
  - exists [48 + v mod 10]. split_and!; [done| | |done|].
    + cbn. rewrite decode10_digit by done. tests. f_equal. lia.
    + repeat constructor; lia.
    + by left.
  - assert (0 ≤ v / 10 < 10 ^ Z.of_nat fuel) as Hd by (split; [apply Z.div_pos; lia|apply Z.div_lt_upper_bound; lia]).
    destruct (IH (v / 10) (48 + v mod 10 :: out) Hd) as (ds & -> & Hval & Hdig & Hne & Hz).
    { destruct fuel; [cbn in Hd; lia|lia]. }
    exists (ds ++ [48 + v mod 10]). split_and!.
    + by rewrite <-app_assoc.
    + rewrite text_value_app, Hval. cbn. rewrite decode10_digit by done. tests. f_equal. lia.
    + apply Forall_app. split; [done|]. repeat constructor; lia.
    + by destruct ds.
    + right. rewrite zlen_app, zlen_cons, zlen_nil. destruct Hz as [->|Hz]; [change (10 ^ _) with 10; lia|].
      destruct ds; [done|]. rewrite zlen_cons in *. pose proof (zlen_nonneg ds).
      replace (1 + zlen ds + (1 + 0) - 1) with (Z.succ (1 + zlen ds - 1)) by lia.
      rewrite Z.pow_succ_r by lia. lia.
Qed.

Lemma to_string_uint10_spec w v :
  0 < w → 0 ≤ v < 2 ^ w →
  ∃ ds, to_string_uint10 w v = Some ds ∧ text_value 10 0 ds = Some v ∧
        Forall (λ c, 48 ≤ c ≤ 57) ds ∧ ds ≠ [] ∧ (zlen ds = 1 ∨ 10 ^ (zlen ds - 1) ≤ v).
Proof.
  intros Hw Hv. unfold to_string_uint10.
  destruct (dec_loop_spec (Z.to_nat w) v []) as (ds & E & H).
  - assert (2 ^ w ≤ 10 ^ w) by (apply Z.pow_le_mono_l; lia). rewrite Z2Nat.id by lia. lia.
  - lia.
  - exists ds. by rewrite app_nil_r in E.
Qed.

(** Decimal text is never taken for a hexadecimal one. *)
Lemma to_any_uint_decimal w limit s :
  Forall (λ c, 48 ≤ c ≤ 57) s → to_any_uint w limit s = to_any_uint_base w limit 10 s.
Proof.
  intros Hs. unfold to_any_uint. destruct s as [|c0 [|c1 [|c2 s]]]; try done.
  apply Forall_cons in Hs as [_ [H1 _]%Forall_cons].
  destruct (c0 =? 48); cbn; [|done]. by tests.
Qed.

Lemma digits_nonneg s : Forall (λ c, 48 ≤ c ≤ 57) s → Forall (λ c, 0 ≤ c) s.
Proof. intros H. eapply Forall_impl; [exact H|]. cbn. lia. Qed.

Lemma to_any_uint_digits w limit s v :
  0 ≤ limit < 2 ^ w → Forall (λ c, 48 ≤ c ≤ 57) s → s ≠ [] → text_value 10 0 s = Some v → v ≤ limit →
  to_any_uint w limit s = Ok v.
Proof.
  intros Hl Hs Hne Hv Hle. rewrite to_any_uint_decimal by done. unfold to_any_uint_base.
  destruct s as [|c s]; [done|]. apply uint_loop_complete; auto using digits_nonneg. lia.
Qed.

(** Widths of the integer types. *)
Definition int_width (w : Z) : Prop := w = 8 ∨ w = 16 ∨ w = 32 ∨ w = 64.

Lemma dec_length w v (ds : bytes) :
  int_width w → 0 ≤ v < 2 ^ w → ds ≠ [] → zlen ds = 1 ∨ 10 ^ (zlen ds - 1) ≤ v →
  zlen ds < dec_buf_size w.
Proof.
  intros Hw Hv Hne Hlen. unfold dec_buf_size. destruct (Z.lt_ge_cases (zlen ds) (1 + w / 8 * 3)) as [|Hge]; [done|].
  exfalso. assert (10 ^ (w / 8 * 3) ≤ 10 ^ (zlen ds - 1)) by (apply Z.pow_le_mono_r; lia).
  destruct Hlen as [E|Hlen]; [rewrite E in Hge; destruct Hw as [->|[->|[->| ->]]]; by vm_compute in Hge|].
  destruct Hw as [->|[->|[->| ->]]]; revert H Hv; [change (10 ^ (8 / 8 * 3)) with 1000|change (10 ^ (16 / 8 * 3)) with 1000000
    |change (10 ^ (32 / 8 * 3)) with 1000000000000|change (10 ^ (64 / 8 * 3)) with 1000000000000000000000000];
    autorewrite with tll_pow; lia.
Qed.

(** ** Suffixes of sizes *)
Lemma split_suffix_app num suf :
  Forall (λ c, 48 ≤ c ≤ 57) num → num ≠ [] → Forall (λ c, is_suffix_char c = true) suf →
  split_suffix (num ++ suf) = (num, suf).
Proof.
  intros Hn Hne Hs.
  assert (split_suffix suf = ([], suf)) as Esuf.
  { induction Hs as [|c suf Hc Hs IH]; cbn; [done|]. by rewrite IH, Hc. }
  assert (∀ c, 48 ≤ c ≤ 57 → is_suffix_char c = false) as Hdig.
  { intros c Hc. unfold is_suffix_char. apply bool_decide_eq_false. cbn.
    repeat rewrite elem_of_cons. rewrite elem_of_nil. lia. }
  induction Hn as [|c num Hc Hn IH]; [done|]. cbn. destruct num as [|c' num].
  - cbn. rewrite Esuf. by rewrite Hdig.
  - by rewrite IH.
Qed.

Lemma size_suffix_spec v :
  0 ≤ v → ∃ d s, size_suffix v = (d, s) ∧ v = v / d * d ∧ 0 < d ∧
    Forall (λ c, is_suffix_char c = true) s ∧
    ((d = 1 ∧ s = str "b") ∨ (d = 1024 ∧ s = str "kb") ∨ (d = 1024 * 1024 ∧ s = str "mb") ∨
     (d = 1024 * 1024 * 1024 ∧ s = str "gb")).
Proof.
  intros Hv. unfold size_suffix.
  repeat case_bool; eexists _, _; (split; [reflexivity|]); (split; [|split; [lia|]]);
    try (split; [repeat constructor; vm_compute; done|by auto 10]);
    match goal with |- v = v / ?d * ?d => pose proof (Z.div_mod v d ltac:(lia)); rewrite ?Z.div_1_r in *; lia end.
Qed.

(** ** Properties *)

(** Parsing an unsigned integer in base 10 or 16 returns the exact value
    of every text whose value fits the limit, and whatever it returns is
    within the limit and equal to the value of the text modulo the width. *)
Theorem to_any_uint_base_spec w limit base s :
  base = 10 ∨ base = 16 → 0 < w → base ≤ limit + 1 → limit < 2 ^ w → Forall (λ c, 0 ≤ c) s → s ≠ [] →
  (∀ v, text_value base 0 s = Some v → v ≤ limit → to_any_uint_base w limit base s = Ok v) ∧
  (∀ v, to_any_uint_base w limit base s = Ok v →
     0 ≤ v ≤ limit ∧ ∃ k, text_value base 0 s = Some (v + k * 2 ^ w)).
Proof.
  intros Hb Hw Hbl Hl Hs Hne. unfold to_any_uint_base. destruct s as [|c s]; [done|]. split.
  - intros v Hv Hle. apply uint_loop_complete; try done; destruct Hb; subst; lia.
  - intros v Hv. eapply uint_loop_sound; [| | | | | |exact Hv]; try done; try (destruct Hb; subst; lia).
    rewrite Z.gtb_ltb. destruct (Z.ltb_spec base (limit / base)); [left|right; lia].
    pose proof (Z.div_mod limit base ltac:(destruct Hb; subst; lia)).
    pose proof (Z.mod_pos_bound limit base ltac:(destruct Hb; subst; lia)). destruct Hb; subst; lia.
Qed.

Lemma to_any_uint_base_spec_witness :
  to_any_uint_base 16 65535 10 (str "65535") = Ok 65535 ∧
  ∃ k, text_value 10 0 (str "65535") = Some (65535 + k * 2 ^ 16).
Proof.
  assert (Forall (λ c, 0 ≤ c) (str "65535")) as Hs by (repeat constructor; done).
  destruct (to_any_uint_base_spec 16 65535 10 (str "65535")) as [H1 H2]; try done; [by left|].
  assert (to_any_uint_base 16 65535 10 (str "65535") = Ok 65535) as E by (by apply H1).
  split; [exact E|]. by apply H2.
Defined.

(** The overflow check compares with the previous value only, so a text
    that wraps to something larger is accepted: as [uint16_t] "81920" is
    16384, as [int64_t] "23058430092136939520" is 2^62. *)
Theorem to_any_uint_wraps :
  to_any_int 16 true (str "81920") = Ok 16384 ∧
  to_any_int 64 false (str "23058430092136939520") = Ok 4611686018427387904 ∧
  text_value 10 0 (str "81920") = Some 81920.
Proof. split_and!; vm_compute; reflexivity. Qed.

(** Printed integers parse back. *)
Lemma int_conv w (unsigned : bool) v :
  int_width w → (if unsigned then 0 ≤ v < 2 ^ w else - 2 ^ (w - 1) < v < 2 ^ (w - 1)) →
  ∃ s, to_string_buf_int w unsigned v = Some s ∧ to_any_int w unsigned s = Ok v ∧ zlen s ≤ dec_buf_size w.
Proof.
  intros Hw Hv. assert (0 < w ∧ 2 ^ w = 2 * 2 ^ (w - 1) ∧ 0 < 2 ^ (w - 1)) as (Hw0 & Hpow & Hp1).
  { by destruct Hw as [->|[->|[->| ->]]]. }
  assert (∀ v, 0 ≤ v < 2 ^ w → ∃ s, to_string_uint10 w v = Some s ∧ text_value 10 0 s = Some v ∧
    Forall (λ c, 48 ≤ c ≤ 57) s ∧ s ≠ [] ∧ zlen s < dec_buf_size w) as Hstr.
  { intros v' Hv'. destruct (to_string_uint10_spec w v' Hw0 Hv') as (s & H1 & H2 & H3 & H4 & H5).
    eauto 10 using dec_length. }
  unfold to_string_buf_int, to_any_int. destruct unsigned.
  - destruct (Hstr v) as (s & -> & H2 & H3 & H4 & H5); [lia|]. exists s. split_and!; [done| |lia].
    apply to_any_uint_digits; try done; lia.
  - rewrite Z.geb_leb. destruct (Z.leb_spec 0 v).
    + rewrite wrapu_id by lia. destruct (Hstr v) as (s & -> & H2 & H3 & H4 & H5); [lia|].
      exists s. split_and!; [done| |lia]. unfold to_any_sint. destruct s as [|c s]; [done|].
      pose proof H3 as [Hc _]%Forall_cons. tests.
      rewrite (to_any_uint_digits w _ (c :: s) v) by (done || lia). cbn. by rewrite wraps_id by lia.
    + rewrite wrapu_id by lia. destruct (Hstr (- v)) as (s & -> & H2 & H3 & H4 & H5); [lia|].
      exists (45 :: s). split_and!; [done| |rewrite zlen_cons; lia].
      unfold to_any_sint. change (45 =? 45) with true. cbn iota.
      rewrite (to_any_uint_digits w _ s (- v)) by (done || lia). cbn.
      rewrite Z.opp_involutive. f_equal. unfold wrapu. rewrite <-(Z.mod_unique v (2 ^ w) (-1) (v + 2 ^ w)) by lia.
      unfold wraps. rewrite <-(Z.mod_unique (v + 2 ^ w + 2 ^ (w - 1)) (2 ^ w) 1 (v + 2 ^ (w - 1))) by lia. lia.
Qed.

(** C39: printing an integer and parsing the text gives the integer back, for
    every width and sign, and the text fits the buffer reserved for it (the
    most negative value is excluded: its negation overflows the type). *)
Theorem int_roundtrip w (unsigned : bool) v :
  int_width w → (if unsigned then 0 ≤ v < 2 ^ w else - 2 ^ (w - 1) < v < 2 ^ (w - 1)) →
  ∃ s, to_string_buf_int w unsigned v = Some s ∧ to_any_int w unsigned s = Ok v ∧ zlen s ≤ dec_buf_size w.
Proof. apply int_conv. Qed.

Lemma int_roundtrip_witness :
  ∃ s, to_string_buf_int 32 false (-1025) = Some s ∧ to_any_int 32 false s = Ok (-1025) ∧ zlen s ≤ dec_buf_size 32.
Proof.
  apply (int_roundtrip 32 false (-1025)).
  - unfold int_width. auto.
  - vm_compute. split; reflexivity.
Defined.

(** A size printed with the largest suffix that divides it is read back
    as the same size. *)
Theorem size_roundtrip v :
  0 ≤ v < 2 ^ 64 → ∃ s, size_to_string v = Some s ∧ size_to_any s = Ok v.
Proof.
  intros Hv. unfold size_to_string. destruct (size_suffix_spec v) as (d & suf & -> & Hd & Hd0 & Hsuf & Hcase); [lia|].
  assert (0 ≤ v / d < 2 ^ 64) as Hq.
  { split; [apply Z.div_pos; lia|]. apply Z.div_lt_upper_bound; [lia|nia]. }
  unfold to_string_buf_int.
  destruct (to_string_uint10_spec 64 (v / d)) as (num & -> & H2 & H3 & H4 & _); [lia|done|].
  cbn [mbind option_bind]. eexists. split; [done|]. unfold size_to_any.
  rewrite split_suffix_app by done.
  destruct num as [|c num]; [done|]. rewrite <-app_comm_cons.
  unfold to_any_int. rewrite (to_any_uint_digits 64 _ (c :: num) (v / d)) by (done || lia). cbn [result_bind].
  destruct Hcase as [[-> ->]|[[-> ->]|[[-> ->]|[-> ->]]]];
    repeat (first [rewrite bool_decide_eq_true_2 by reflexivity|rewrite bool_decide_eq_false_2 by done]);
    rewrite wrapu_id by lia; f_equal; lia.
Qed.

Lemma size_roundtrip_witness : ∃ s, size_to_string 1536 = Some s ∧ size_to_any s = Ok 1536.
Proof. apply (size_roundtrip 1536). lia. Defined.

End Conv.
