(* ===== verification/Callback.v ===== *)
(** * Callback lists of a channel

    src/channel/context.cc ([callback_add], [callback_del],
    [tll_channel_callback_add], [tll_channel_callback_del]) and the dispatch
    loops of src/tll/channel/impl.h.  A channel keeps two arrays of
    (function, user pointer, mask) slots: one for data messages, called
    without looking at the mask, and one for everything else.  A removed slot
    stays in the middle of the array with a null function. *)
From S2P Require Import Prelude.

Module Cb.

(** ** Message types and masks (src/tll/channel.h) *)
Inductive msg_type := DATA | CONTROL | STATE | CHANNEL.

#[global] Instance msg_type_eq_dec : EqDecision msg_type.
Proof. solve_decision. Defined.

Definition type_bit (t : msg_type) : Z :=
  match t with DATA => 0 | CONTROL => 1 | STATE => 2 | CHANNEL => 3 end.

Definition MASK_DATA : Z := Z.shiftl 1 (type_bit DATA).
Definition MASK_CONTROL : Z := Z.shiftl 1 (type_bit CONTROL).
Definition MASK_STATE : Z := Z.shiftl 1 (type_bit STATE).
Definition MASK_CHANNEL : Z := Z.shiftl 1 (type_bit CHANNEL).
Definition MASK_ALL : Z := Z.lxor 4294967295 MASK_CHANNEL.

(** A callback function: one of the user's, or the static [_state_callback]
    of impl.c that a parent installs in its children. *)
Inductive cbfn := User (id : Z) | StateCallback.

#[global] Instance cbfn_eq_dec : EqDecision cbfn.
Proof. solve_decision. Defined.

(** [tll_channel_callback_pair_t]; a null function pointer is [None]. *)
Record pair := Pair { p_cb : option cbfn; p_user : Z; p_mask : Z }.

Definition key : Type := cbfn * Z.

#[global] Instance pair_eq_dec : EqDecision pair.
Proof. solve_decision. Defined.

(** The comparison [ptr->cb == cb->cb && ptr->user == cb->user]. *)
Definition same (q p : pair) : bool :=
  bool_decide (p_cb q = p_cb p) && (p_user q =? p_user p).

(** ** Array operations *)

(** The loop of [callback_add]: the slot to update, or the first empty one. *)
Fixpoint scan (l : list pair) (p : pair) (i : nat) (empty : option nat) : nat + option nat :=
  match l with
  | [] => inr empty
  | q :: l =>
      if bool_decide (p_cb q = None) && bool_decide (empty = None) then scan l p (S i) (Some i)
      else if same q p then inl i
      else scan l p (S i) empty
  end.

Definition callback_add (l : list pair) (p : pair) : list pair :=
  match scan l p 0 None with
  | inl i => alter (λ q, Pair (p_cb q) (p_user q) (Z.lor (p_mask q) (p_mask p))) i l
  | inr (Some i) => <[i := p]> l
  | inr None => l ++ [p]
  end.

Fixpoint callback_shrink (c : list pair) (size : nat) : nat :=
  match size with
  | O => O
  | S n => match c !! n with
           | Some q => if bool_decide (p_cb q = None) then callback_shrink c n else S n
           | None => S n
           end
  end.

Fixpoint find_same (l : list pair) (p : pair) (i : nat) : option nat :=
  match l with
  | [] => None
  | q :: l => if same q p then Some i else find_same l p (S i)
  end.

Definition callback_del (l : list pair) (p : pair) : list pair * result errno unit :=
  match find_same l p 0 with
  | None => (l, Err ENOENT)
  | Some i =>
      match l !! i with
      | None => (l, Err ENOENT)
      | Some q =>
          let m := Z.ldiff (p_mask q) (p_mask p) in
          if negb (m =? 0) then (<[i := Pair (p_cb q) (p_user q) m]> l, Ok tt)
          else let l := <[i := Pair None 0 0]> l in (take (callback_shrink l (length l)) l, Ok tt)
      end
  end.

(** ** The two lists of a channel *)
Record lists := Lists { data_cb : list pair; cb : list pair }.

Definition tll_channel_callback_add (in_ : lists) (f : option cbfn) (user mask : Z)
  : lists * result errno unit :=
  match f with
  | None => (in_, Err EINVAL)
  | Some f =>
      if negb (Z.land mask MASK_DATA =? 0) then
        let d := callback_add (data_cb in_) (Pair (Some f) user MASK_DATA) in
        let mask := Z.lxor mask MASK_DATA in
        if mask =? 0 then (Lists d (cb in_), Ok tt)
        else (Lists d (callback_add (cb in_) (Pair (Some f) user mask)), Ok tt)
      else (Lists (data_cb in_) (callback_add (cb in_) (Pair (Some f) user mask)), Ok tt)
  end.

Definition tll_channel_callback_del (in_ : lists) (f : option cbfn) (user mask : Z)
  : lists * result errno unit :=
  match f with
  | None => (in_, Err EINVAL)
  | Some f =>
      if negb (Z.land mask MASK_DATA =? 0) then
        let d := fst (callback_del (data_cb in_) (Pair (Some f) user MASK_DATA)) in
        let mask := Z.lxor mask MASK_DATA in
        if mask =? 0 then (Lists d (cb in_), Ok tt)
        else let '(c, r) := callback_del (cb in_) (Pair (Some f) user mask) in (Lists d c, r)
      else let '(c, r) := callback_del (cb in_) (Pair (Some f) user mask) in (Lists (data_cb in_) c, r)
  end.

(** ** Dispatch: who is called, in which order *)

(** The loop of [tll_channel_callback_data]; [None] is a call of a null pointer. *)
Fixpoint data_calls (l : list pair) : option (list key) :=
  match l with
  | [] => Some []
  | q :: l => let! f := p_cb q in let! r := data_calls l in Some ((f, p_user q) :: r)
  end.

(** The loop of [tll_channel_callback] for a message of type [t]. *)
Fixpoint masked_calls (t : msg_type) (l : list pair) : option (list key) :=
  match l with
  | [] => Some []
  | q :: l =>
      if Z.testbit (p_mask q) (type_bit t)
      then let! f := p_cb q in let! r := masked_calls t l in Some ((f, p_user q) :: r)
      else masked_calls t l
  end.

Definition calls (t : msg_type) (in_ : lists) : option (list key) :=
  match t with DATA => data_calls (data_cb in_) | _ => masked_calls t (cb in_) end.

(** ** Specification: a mask for every (function, user) *)
Inductive op := Add (k : key) (mask : Z) | Del (k : key) (mask : Z).

Definition step (in_ : lists) (o : op) : lists :=
  match o with
  | Add (f, u) m => fst (tll_channel_callback_add in_ (Some f) u m)
  | Del (f, u) m => fst (tll_channel_callback_del in_ (Some f) u m)
  end.

Definition run (ops : list op) : lists := foldl step (Lists [] []) ops.

Definition spec_step (k : key) (m : Z) (o : op) : Z :=
  match o with
  | Add k' m' => if bool_decide (k = k') then Z.lor m m' else m
  | Del k' m' => if bool_decide (k = k') then Z.ldiff m m' else m
  end.

(** Mask of [k] after the calls [ops]: bits are set by an add and cleared by
    a del, as the comments of channel.h promise. *)
Definition spec_mask (ops : list op) (k : key) : Z := foldl (spec_step k) 0 ops.

(** ** Slots *)
Definition slot_key (q : pair) : option key := f ← p_cb q; Some (f, p_user q).

(** Live slots have different keys, an empty slot has no mask. *)
Definition keys (l : list pair) : list key := omap slot_key l.

Definition wf (l : list pair) : Prop :=
  NoDup (keys l) ∧ Forall (λ q, p_cb q = None → p_mask q = 0) l.

(** Mask of a key in an array. *)
Fixpoint mask_of (l : list pair) (k : key) : Z :=
  match l with
  | [] => 0
  | q :: l => if bool_decide (slot_key q = Some k) then p_mask q else mask_of l k
  end.

Lemma keys_app l k : keys (l ++ k) = keys l ++ keys k.
Proof. apply omap_app. Qed.

Lemma keys_cons q l : keys (q :: l) = match slot_key q with Some k => k :: keys l | None => keys l end.
Proof. reflexivity. Qed.

Lemma slot_key_live f u m : slot_key (Pair (Some f) u m) = Some (f, u).
Proof. reflexivity. Qed.

Lemma slot_key_null q : slot_key q = None ↔ p_cb q = None.
Proof. unfold slot_key. destruct (p_cb q); cbn; naive_solver. Qed.

Lemma same_key q f u m : same q (Pair (Some f) u m) = true ↔ slot_key q = Some (f, u).
Proof.
  unfold same, slot_key. cbn. rewrite andb_true_iff, bool_decide_eq_true, Z.eqb_eq.
  destruct q as [[g|] v n]; cbn; naive_solver.
Qed.

Lemma not_same_key q f u m : same q (Pair (Some f) u m) = false → slot_key q ≠ Some (f, u).
Proof. intros H E. apply (same_key _ _ _ m) in E. congruence. Qed.

Lemma mask_of_notin l k : k ∉ keys l → mask_of l k = 0.
Proof.
  induction l as [|q l IH]; [done|]. rewrite keys_cons. cbn [mask_of].
  case_bool_decide as E; [rewrite E; set_solver|]. destruct (slot_key q); set_solver.
Qed.

Lemma mask_of_app l1 l2 k : k ∉ keys l1 → mask_of (l1 ++ l2) k = mask_of l2 k.
Proof.
  induction l1 as [|q l IH]; [done|]. cbn [app]. rewrite keys_cons. cbn [mask_of].
  case_bool_decide as E; [rewrite E; set_solver|]. destruct (slot_key q); set_solver.
Qed.

Lemma mask_of_app_in l1 l2 k : k ∈ keys l1 → mask_of (l1 ++ l2) k = mask_of l1 k.
Proof.
  induction l1 as [|q l IH]; [set_solver|]. cbn [app]. rewrite keys_cons. cbn [mask_of].
  case_bool_decide; [done|]. destruct (slot_key q); set_solver.
Qed.

(** Replacing a slot changes the masks of the two keys involved only. *)
Lemma mask_of_replace l1 q q' l2 k :
  NoDup (keys (l1 ++ q :: l2)) → NoDup (keys (l1 ++ q' :: l2)) →
  mask_of (l1 ++ q' :: l2) k =
    if bool_decide (slot_key q' = Some k) then p_mask q'
    else if bool_decide (slot_key q = Some k) then 0 else mask_of (l1 ++ q :: l2) k.
Proof.
  rewrite !keys_app, !keys_cons. intros Hq Hq'.
  apply NoDup_app in Hq as (_ & Hq & Hn). apply NoDup_app in Hq' as (_ & Hq' & _).
  assert (slot_key q = Some k ∨ slot_key q' = Some k → k ∉ keys l1) as Hin.
  { intros [E|E] Hk; [specialize (Hq k Hk)|specialize (Hq' k Hk)]; rewrite E in *; set_solver. }
  destruct (decide (k ∈ keys l1)) as [Hk|Hk].
  - rewrite !mask_of_app_in by done. rewrite !bool_decide_false; naive_solver.
  - rewrite !mask_of_app by done. cbn [mask_of]. case_bool_decide; [done|].
    case_bool_decide as E; [|done]. rewrite E in *. apply mask_of_notin.
    by apply NoDup_cons in Hn as [? _].
Qed.

Lemma wf_nil : wf [].
Proof. split; constructor. Qed.

Lemma wf_replace l1 q q' l2 :
  wf (l1 ++ q :: l2) → (p_cb q' = None → p_mask q' = 0) →
  (∀ k, slot_key q' = Some k → slot_key q = Some k ∨ k ∉ keys (l1 ++ q :: l2)) →
  wf (l1 ++ q' :: l2).
Proof.
  intros [Hn Hz] Hm Hk. split.
  - rewrite keys_app, keys_cons in *. destruct (slot_key q') as [k|] eqn:E; cycle 1.
    { destruct (slot_key q); [|done]. apply NoDup_app in Hn as (?&?&Hn). apply NoDup_cons in Hn as [??].
      apply NoDup_app. set_solver. }
    destruct (Hk k eq_refl) as [E2|Hnotin]; [by rewrite E2 in *|].
    destruct (slot_key q).
    + apply NoDup_app in Hn as (?&?&Hn). apply NoDup_cons in Hn as [??].
      apply NoDup_app. split_and!; [done| |]; [set_solver|]. apply NoDup_cons. set_solver.
    + apply NoDup_app in Hn as (?&?&Hn).
      apply NoDup_app. split_and!; [done| |]; [set_solver|]. apply NoDup_cons. set_solver.
  - apply Forall_app in Hz as [? Hz]. apply Forall_cons in Hz as [??].
    apply Forall_app; split; [done|]. by constructor.
Qed.

(** ** Behaviour of [callback_add] *)
Lemma scan_spec l f u m : ∀ i e,
  match scan l (Pair (Some f) u m) i e with
  | inl j => ∃ l1 q l2, l = l1 ++ q :: l2 ∧ j = (i + length l1)%nat ∧ slot_key q = Some (f, u)
  | inr e' => ((f, u) ∉ keys l) ∧
      match e with
      | Some _ => e' = e
      | None => match e' with
                | Some j => ∃ l1 q l2, l = l1 ++ q :: l2 ∧ j = (i + length l1)%nat ∧ p_cb q = None
                | None => True
                end
      end
  end.
Proof.
  induction l as [|q l IH]; intros i e; cbn [scan].
  { split; [apply not_elem_of_nil|]. by destruct e. }
  destruct (bool_decide (p_cb q = None) && bool_decide (e = None)) eqn:E1.
  - apply andb_true_iff in E1 as [E1%bool_decide_eq_true ->%bool_decide_eq_true].
    specialize (IH (S i) (Some i)). rewrite keys_cons. apply slot_key_null in E1 as E2. rewrite E2.
    destruct (scan l _ _ _) as [j|e'].
    + destruct IH as (l1 & q' & l2 & -> & -> & ?). exists (q :: l1), q', l2. cbn. split_and!; [done|lia|done].
    + destruct IH as [? ->]. split; [done|]. exists [], q, l. cbn. split_and!; [done|lia|done].
  - destruct (same q _) eqn:E2.
    + apply same_key in E2. exists [], q, l. cbn. split_and!; [done|lia|done].
    + apply not_same_key in E2. specialize (IH (S i) e). rewrite keys_cons.
      destruct (scan l _ _ _) as [j|e'].
      * destruct IH as (l1 & q' & l2 & -> & -> & ?). exists (q :: l1), q', l2. cbn. split_and!; [done|lia|done].
      * destruct IH as [Hn He]. split.
        { destruct (slot_key q); [|done]. apply not_elem_of_cons. split; [|done]. intros E. apply E2. by rewrite E. }
        destruct e; [done|]. destruct e' as [j|]; [|done].
        destruct He as (l1 & q' & l2 & -> & -> & ?). exists (q :: l1), q', l2. cbn. split_and!; [done|lia|done].
Qed.

Lemma alter_middle {A} (g : A → A) l1 x l2 : alter g (length l1) (l1 ++ x :: l2) = l1 ++ g x :: l2.
Proof. induction l1; cbn; [done|]. by f_equal. Qed.

Lemma callback_add_spec l f u m :
  wf l →
  wf (callback_add l (Pair (Some f) u m)) ∧
  ∀ k, mask_of (callback_add l (Pair (Some f) u m)) k =
       if bool_decide (k = (f, u)) then Z.lor (mask_of l k) m else mask_of l k.
Proof.
  intros Hwf. unfold callback_add. pose proof (scan_spec l f u m 0 None) as Hs.
  destruct (scan l _ 0 None) as [j|[j|]].
  - destruct Hs as (l1 & q & l2 & -> & -> & Hq). cbn [Nat.add]. rewrite alter_middle. cbn [p_mask].
    assert (slot_key (Pair (p_cb q) (p_user q) (Z.lor (p_mask q) m)) = Some (f, u)) as Hq'
      by (revert Hq; unfold slot_key; done).
    assert (wf (l1 ++ Pair (p_cb q) (p_user q) (Z.lor (p_mask q) m) :: l2)) as Hwf'.
    { eapply wf_replace; [done| |intros k Hk; left; congruence].
      cbn. intros E. apply slot_key_null in E. congruence. }
    split; [done|]. intros k. rewrite (mask_of_replace l1 q _ l2) by apply Hwf + apply Hwf'. rewrite Hq, Hq'.
    destruct (decide (k = (f, u))) as [->|Hne].
    + rewrite !bool_decide_true by done. cbn. f_equal. rewrite mask_of_app; cbn; [by rewrite bool_decide_true|].
      destruct Hwf as [Hn _]. rewrite keys_app, keys_cons, Hq in Hn. apply NoDup_app in Hn. set_solver.
    + rewrite !bool_decide_false by naive_solver. done.
  - destruct Hs as (Hni & l1 & q & l2 & -> & -> & Hq). cbn [Nat.add].
    rewrite <-(Nat.add_0_r (length l1)), insert_app_r. cbn [insert list_insert].
    apply slot_key_null in Hq as Hk.
    assert (wf (l1 ++ Pair (Some f) u m :: l2)) as Hwf'.
    { eapply wf_replace; [done|done|]. intros k [= <-]. by right. }
    split; [done|]. intros k. rewrite (mask_of_replace l1 q _ l2) by apply Hwf + apply Hwf'.
    rewrite slot_key_live, Hk. destruct (decide (k = (f, u))) as [->|Hne].
    + rewrite !bool_decide_true by done. by rewrite mask_of_notin.
    + rewrite !bool_decide_false by naive_solver. done.
  - destruct Hs as [Hni _]. destruct Hwf as [Hn Hz]. split.
    + split; [|apply Forall_app; split; [done|by repeat constructor]].
      rewrite keys_app. apply NoDup_app. split_and!; [done| |apply NoDup_singleton]. set_solver.
    + intros k. destruct (decide (k ∈ keys l)) as [Hk|Hk].
      * rewrite mask_of_app_in by done. rewrite bool_decide_false; [done|]. by intros ->.
      * rewrite mask_of_app, (mask_of_notin l) by done. cbn [mask_of]. rewrite slot_key_live.
        destruct (decide (k = (f, u))) as [->|Hne]; [by rewrite !bool_decide_true|].
        rewrite !bool_decide_false by naive_solver. done.
Qed.

(** ** Behaviour of [callback_del] *)
Lemma find_same_spec l f u m : ∀ i,
  match find_same l (Pair (Some f) u m) i with
  | Some j => ∃ l1 q l2, l = l1 ++ q :: l2 ∧ j = (i + length l1)%nat ∧ slot_key q = Some (f, u)
  | None => (f, u) ∉ keys l
  end.
Proof.
  induction l as [|q l IH]; intros i; cbn [find_same]; [apply not_elem_of_nil|].
  destruct (same q _) eqn:E.
  - apply same_key in E. exists [], q, l. cbn. split_and!; [done|lia|done].
  - apply not_same_key in E. specialize (IH (S i)). rewrite keys_cons. destruct (find_same l _ _).
    + destruct IH as (l1 & q' & l2 & -> & -> & ?). exists (q :: l1), q', l2. cbn. split_and!; [done|lia|done].
    + destruct (slot_key q); [|done]. apply not_elem_of_cons. split; [|done]. intros E2. apply E. by rewrite E2.
Qed.

(** Shrinking drops empty slots from the end. *)
Lemma callback_shrink_spec c n :
  (n ≤ length c)%nat →
  (callback_shrink c n ≤ n)%nat ∧ Forall (λ q, p_cb q = None) (drop (callback_shrink c n) (take n c)).
Proof.
  induction n as [|n IH]; intros Hn; cbn [callback_shrink]; [split; [lia|constructor]|].
  destruct (lookup_lt_is_Some_2 c n) as [q Hq]; [lia|]. rewrite Hq. case_bool_decide as E.
  - destruct IH as [? IH]; [lia|]. split; [lia|]. rewrite (take_S_r _ _ _ Hq), drop_app_le.
    + apply Forall_app. split; [done|]. by constructor.
    + rewrite length_take. lia.
  - split; [lia|]. rewrite drop_ge; [constructor|]. rewrite length_take. lia.
Qed.

Lemma mask_of_nulls l k : Forall (λ q, p_cb q = None) l → mask_of l k = 0.
Proof.
  intros H. apply mask_of_notin. induction H as [|q l Hq _ IH]; [apply not_elem_of_nil|].
  rewrite keys_cons. apply slot_key_null in Hq. by rewrite Hq.
Qed.

Lemma wf_shrink l : wf l → wf (take (callback_shrink l (length l)) l) ∧
  ∀ k, mask_of (take (callback_shrink l (length l)) l) k = mask_of l k.
Proof.
  intros [Hn Hz]. destruct (callback_shrink_spec l (length l)) as [Hle Hd]; [done|].
  rewrite firstn_all in Hd. set (n := callback_shrink l (length l)) in *. split.
  - rewrite <-(take_drop n l), keys_app in Hn. rewrite <-(take_drop n l) in Hz.
    apply NoDup_app in Hn as [? _]. apply Forall_app in Hz as [? _]. by split.
  - intros k. rewrite <-(take_drop n l) at 2. destruct (decide (k ∈ keys (take n l))).
    + by rewrite mask_of_app_in.
    + rewrite mask_of_app, mask_of_notin, mask_of_nulls; done.
Qed.

Lemma callback_del_spec l f u m :
  wf l →
  let '(l', r) := callback_del l (Pair (Some f) u m) in
  wf l' ∧ (r = Err ENOENT ↔ (f, u) ∉ keys l) ∧
  ∀ k, mask_of l' k = if bool_decide (k = (f, u)) then Z.ldiff (mask_of l k) m else mask_of l k.
Proof.
  intros Hwf. unfold callback_del. pose proof (find_same_spec l f u m 0) as Hs.
  destruct (find_same l _ 0) as [j|]; cycle 1.
  { split_and!; [done..|]. intros k. case_bool_decide; [|done]. subst. by rewrite mask_of_notin. }
  destruct Hs as (l1 & q & l2 & -> & -> & Hq). cbn [Nat.add].
  rewrite list_lookup_middle by done. cbn [p_mask].
  assert ((f, u) ∈ keys (l1 ++ q :: l2)) as Hin by (rewrite keys_app, keys_cons, Hq; set_solver).
  assert (mask_of (l1 ++ q :: l2) (f, u) = p_mask q) as Hmq.
  { rewrite mask_of_app; cbn; [by rewrite bool_decide_true|].
    destruct Hwf as [Hn _]. rewrite keys_app, keys_cons, Hq in Hn. apply NoDup_app in Hn. set_solver. }
  assert (∀ q', p_mask q' = Z.ldiff (p_mask q) m → slot_key q' = Some (f, u) ∨ slot_key q' = None ∧ p_mask q' = 0 →
    wf (l1 ++ q' :: l2) ∧ ∀ k, mask_of (l1 ++ q' :: l2) k =
      if bool_decide (k = (f, u)) then Z.ldiff (mask_of (l1 ++ q :: l2) k) m else mask_of (l1 ++ q :: l2) k) as Hrep.
  { intros q' Hm Hq'. assert (wf (l1 ++ q' :: l2)) as Hwf'.
    { eapply wf_replace; [done| |intros k Hk; left; naive_solver].
      intros E%slot_key_null. naive_solver. }
    split; [done|]. intros k. rewrite (mask_of_replace l1 q _ l2) by apply Hwf + apply Hwf'. rewrite Hq.
    destruct (decide (k = (f, u))) as [->|Hne].
    - rewrite Hmq. rewrite (bool_decide_true (Some _ = _)), (bool_decide_true ((f, u) = _)) by done.
      case_bool_decide; [done|]. destruct Hq' as [E|[_ E]]; [by destruct H|]. by rewrite <-Hm, E.
    - rewrite !bool_decide_false by naive_solver. done. }
  rewrite <-(Nat.add_0_r (length l1)), !insert_app_r. cbn [insert list_insert].
  destruct (Z.eqb_spec (Z.ldiff (p_mask q) m) 0) as [E|E]; cbn [negb].
  - destruct (Hrep (Pair None 0 0)) as [Hw Hm]; [done|by right|].
    apply wf_shrink in Hw as [Hw Hs]. split_and!; [done|naive_solver|]. intros k. by rewrite Hs, Hm.
  - destruct (Hrep (Pair (p_cb q) (p_user q) (Z.ldiff (p_mask q) m))) as [Hw Hm]; [done|by left|].
    split_and!; [done|naive_solver|done].
Qed.

(** Where a mask comes from. *)
Lemma mask_of_slot l k t : Z.testbit (mask_of l k) t = true →
  ∃ j q, l !! j = Some q ∧ slot_key q = Some k ∧ Z.testbit (p_mask q) t = true.
Proof.
  induction l as [|q l IH]; cbn [mask_of]; [by rewrite Z.testbit_0_l|].
  case_bool_decide as E; [intros H; by exists O, q|]. intros (j & q' & ? & ? & ?)%IH. by exists (S j), q'.
Qed.

Lemma slot_in_keys l j q k : l !! j = Some q → slot_key q = Some k → k ∈ keys l.
Proof. intros Hj Hk. apply list_elem_of_omap. exists q. split; [by eapply list_elem_of_lookup_2|done]. Qed.

Lemma slot_mask l : ∀ j q k, NoDup (keys l) → l !! j = Some q → slot_key q = Some k → mask_of l k = p_mask q.
Proof.
  induction l as [|q' l IH]; intros j q k Hn Hj Hk; [done|]. cbn [mask_of]. rewrite keys_cons in Hn.
  destruct j as [|j]; cbn in Hj; [injection Hj as ->; by rewrite bool_decide_true|].
  case_bool_decide as E.
  - rewrite E in Hn. apply NoDup_cons in Hn as [Hn _]. destruct Hn. by eapply slot_in_keys.
  - eapply IH; [|done|done]. destruct (slot_key q'); [by apply NoDup_cons in Hn as []|done].
Qed.

Lemma slot_unique l : ∀ i j q q' k, NoDup (keys l) → l !! i = Some q → l !! j = Some q' →
  slot_key q = Some k → slot_key q' = Some k → i = j.
Proof.
  induction l as [|x l IH]; intros i j q q' k Hn Hi Hj Hk Hk'; [done|]. rewrite keys_cons in Hn.
  destruct i as [|i], j as [|j]; cbn in Hi, Hj; [done| | |].
  - injection Hi as ->. rewrite Hk in Hn. apply NoDup_cons in Hn as [Hn _]. destruct Hn. by eapply slot_in_keys.
  - injection Hj as ->. rewrite Hk' in Hn. apply NoDup_cons in Hn as [Hn _]. destruct Hn. by eapply slot_in_keys.
  - f_equal. eapply IH; [|done..]. destruct (slot_key x); [by apply NoDup_cons in Hn as []|done].
Qed.

(** A del changes the slot of the key only. *)
Lemma callback_del_slots l f u m i q :
  wf l → l !! i = Some q → slot_key q = Some (f, u) →
  let l' := fst (callback_del l (Pair (Some f) u m)) in
  (length l' ≤ length l)%nat ∧
  ∀ j q', l' !! j = Some q' →
    (j = i ∧ (p_cb q' = None ∨ p_mask q' = Z.ldiff (p_mask q) m)) ∨ (j ≠ i ∧ l !! j = Some q').
Proof.
  intros Hwf Hi Hk. unfold callback_del. pose proof (find_same_spec l f u m 0) as Hs.
  destruct (find_same l _ 0) as [j|]; cycle 1.
  { destruct Hs. by eapply slot_in_keys. }
  destruct Hs as (l1 & q0 & l2 & El & -> & Hq0). cbn [Nat.add].
  assert (l !! length l1 = Some q0) as Hl1 by (rewrite El; by apply list_lookup_middle).
  assert (length l1 = i) as Elen by (eapply (slot_unique l); [apply Hwf|done..]).
  rewrite Elen in *. rewrite Hl1. simplify_eq. cbn [p_mask].
  destruct (Z.eqb_spec (Z.ldiff (p_mask q) m) 0) as [E|E]; cbn [negb fst].
  - split; [rewrite length_take, length_insert; lia|]. intros j q'.
    rewrite lookup_take_Some. intros [Hj Hlt].
    apply list_lookup_insert_Some in Hj as [(-> & <- & _)|[? ?]]; [left; split; [done|by left]|by right].
  - split; [by rewrite length_insert|]. intros j q' Hj.
    apply list_lookup_insert_Some in Hj as [(-> & <- & _)|[? ?]]; [left; split; [done|by right]|by right].
Qed.

(** ** Dispatch *)

(** The other list never calls a null pointer, and calls every key whose mask
    has the bit of the message once. *)
Lemma masked_calls_spec t l :
  wf l → ∃ ks, masked_calls t l = Some ks ∧ NoDup ks ∧ ks ⊆ keys l ∧
         ∀ k, k ∈ ks ↔ Z.testbit (mask_of l k) (type_bit t) = true.
Proof.
  intros [Hn Hz]. induction l as [|q l IH]; cbn [masked_calls mask_of].
  { exists []. split_and!; [done|constructor|set_solver|]. intros k. rewrite Z.testbit_0_l. set_solver. }
  apply Forall_cons in Hz as [Hq Hz]. rewrite keys_cons in *.
  destruct IH as (ks & Eks & Hnd & Hsub & Hin); [by destruct (slot_key q); [apply NoDup_cons in Hn as []|]|done|].
  destruct (p_cb q) as [f|] eqn:Ef.
  - assert (slot_key q = Some (f, p_user q)) as Es by (unfold slot_key; by rewrite Ef).
    rewrite Es in *. apply NoDup_cons in Hn as [Hni _].
    destruct (Z.testbit (p_mask q) (type_bit t)) eqn:Eb.
    + exists ((f, p_user q) :: ks). cbn. rewrite Eks. split_and!; [done| |set_solver|].
      * constructor; set_solver.
      * intros k. rewrite elem_of_cons. destruct (decide (k = (f, p_user q))) as [->|Hne].
        { rewrite bool_decide_true by done. naive_solver. }
        rewrite bool_decide_false by naive_solver. rewrite Hin. naive_solver.
    + exists ks. split_and!; [done..|set_solver|]. intros k. destruct (decide (k = (f, p_user q))) as [->|Hne].
      * rewrite bool_decide_true by done. rewrite Eb. split; [|done]. intros. exfalso. set_solver.
      * rewrite bool_decide_false by naive_solver. apply Hin.
  - rewrite Hq, Z.testbit_0_l by done. assert (slot_key q = None) as Es by (by apply slot_key_null).
    rewrite Es in *. exists ks. split_and!; [done..|set_solver|]. done.
Qed.

Lemma data_calls_spec l :
  data_calls l = if bool_decide (Forall (λ q, p_cb q ≠ None) l) then Some (keys l) else None.
Proof.
  induction l as [|q l IH]; [done|]. cbn [data_calls]. rewrite keys_cons, IH. unfold slot_key.
  destruct (p_cb q) as [f|] eqn:E; cbn.
  - case_bool_decide as H1; case_bool_decide as H2; try done; exfalso.
    + apply H2. constructor; [congruence|done].
    + apply H1. by inversion H2.
  - rewrite bool_decide_false; [done|]. by inversion 1.
Qed.

(** ** The lists after a sequence of calls *)

(** Every live slot has a bit in its mask. *)
Definition live (l : list pair) : Prop := Forall (λ q, p_cb q ≠ None → p_mask q ≠ 0) l.

Lemma live_add l p : live l → p_mask p ≠ 0 → live (callback_add l p).
Proof.
  intros Hl Hp. unfold callback_add. destruct (scan l p 0 None) as [i|[i|]].
  - apply Forall_alter; [done|]. intros q _ Hq. cbn. intros Hc E.
    apply Z.lor_eq_0_iff in E as [??]. done.
  - apply Forall_insert; done.
  - apply Forall_app. split; [done|]. by repeat constructor.
Qed.

Lemma live_del l p : live l → live (fst (callback_del l p)).
Proof.
  intros Hl. unfold callback_del. destruct (find_same l p 0) as [i|]; [|done].
  destruct (l !! i); [|done]. destruct (Z.eqb_spec (Z.ldiff (p_mask p0) (p_mask p)) 0); cbn.
  - apply Forall_take. by apply Forall_insert.
  - by apply Forall_insert.
Qed.

Lemma live_keys l k : wf l → live l → k ∈ keys l ↔ mask_of l k ≠ 0.
Proof.
  intros [_ Hz] Hl. split; cycle 1.
  { intros H. destruct (decide (k ∈ keys l)); [done|]. by rewrite mask_of_notin in H. }
  induction l as [|q l IH]; [set_solver|]. apply Forall_cons in Hz as [Hq Hz]. apply Forall_cons in Hl as [Hlq Hl].
  rewrite keys_cons. cbn [mask_of]. case_bool_decide as E.
  - intros _. apply Hlq. intros E2%slot_key_null. congruence.
  - destruct (slot_key q) as [k'|]; [|auto]. rewrite elem_of_cons. intros [->|H]; [done|auto].
Qed.

(** What the two lists say of the mask of every key. *)
Record agrees (in_ : lists) (m : key → Z) : Prop := {
  ag_wf_data : wf (data_cb in_);
  ag_wf_cb : wf (cb in_);
  ag_live : live (data_cb in_);
  ag_data k : mask_of (data_cb in_) k = Z.b2z (Z.testbit (m k) 0);
  ag_cb k t : 0 < t → Z.testbit (mask_of (cb in_) k) t = Z.testbit (m k) t;
}.

Lemma land_data m : (Z.land m MASK_DATA =? 0) = negb (Z.testbit m 0).
Proof.
  change MASK_DATA with (Z.ones 1). rewrite Z.land_ones by lia. change (2 ^ 1) with 2.
  rewrite <-Z.bit0_mod. by destruct (Z.testbit m 0).
Qed.

Lemma lxor_data_bit m t : 0 < t → Z.testbit (Z.lxor m MASK_DATA) t = Z.testbit m t.
Proof.
  intros. rewrite Z.lxor_spec. change MASK_DATA with (2 ^ 0). rewrite Z.pow2_bits_false by lia.
  apply xorb_false_r.
Qed.

Lemma b2z_lor b c : Z.lor (Z.b2z b) (Z.b2z c) = Z.b2z (b || c).
Proof. by destruct b, c. Qed.

Lemma b2z_ldiff b c : Z.ldiff (Z.b2z b) (Z.b2z c) = Z.b2z (b && negb c).
Proof. by destruct b, c. Qed.

Lemma agrees_add in_ m f u mask :
  agrees in_ m → agrees (step in_ (Add (f, u) mask)) (λ k, spec_step k (m k) (Add (f, u) mask)).
Proof.
  intros [Hd Hc Hl Hmd Hmc].
  destruct (callback_add_spec (data_cb in_) f u MASK_DATA Hd) as [Hd' Hd2].
  assert (live (callback_add (data_cb in_) (Pair (Some f) u MASK_DATA))) as Hl' by (by apply live_add).
  destruct (callback_add_spec (cb in_) f u (Z.lxor mask MASK_DATA) Hc) as [Hc1 Hc1'].
  destruct (callback_add_spec (cb in_) f u mask Hc) as [Hc2 Hc2'].
  cbn [step tll_channel_callback_add spec_step]. rewrite land_data, negb_involutive.
  destruct (Z.testbit mask 0) eqn:Eb; [destruct (Z.eqb_spec (Z.lxor mask MASK_DATA) 0) as [Ex|Ex]|];
    split; cbn [fst data_cb cb]; auto.
  1,3: intros k; rewrite Hd2, Hmd; case_bool_decide; [|done];
       by rewrite Z.lor_spec, Eb, orb_true_r, (b2z_lor _ true), orb_true_r.
  - intros k t Ht. rewrite Hmc by done. case_bool_decide; [|done].
    rewrite Z.lor_spec, <-(lxor_data_bit mask) by done. rewrite Ex, Z.testbit_0_l. by rewrite orb_false_r.
  - intros k t Ht. rewrite Hc1'. case_bool_decide; [|by apply Hmc].
    by rewrite !Z.lor_spec, lxor_data_bit, Hmc.
  - intros k. rewrite Hmd. case_bool_decide; [|done]. by rewrite Z.lor_spec, Eb, orb_false_r.
  - intros k t Ht. rewrite Hc2'. case_bool_decide; [|by apply Hmc]. by rewrite !Z.lor_spec, Hmc.
Qed.

Lemma agrees_del in_ m f u mask :
  agrees in_ m → agrees (step in_ (Del (f, u) mask)) (λ k, spec_step k (m k) (Del (f, u) mask)).
Proof.
  intros [Hd Hc Hl Hmd Hmc].
  pose proof (callback_del_spec (data_cb in_) f u MASK_DATA Hd) as Hd'.
  pose proof (live_del (data_cb in_) (Pair (Some f) u MASK_DATA) Hl) as Hl'.
  pose proof (callback_del_spec (cb in_) f u (Z.lxor mask MASK_DATA) Hc) as Hc1.
  pose proof (callback_del_spec (cb in_) f u mask Hc) as Hc2.
  cbn [step tll_channel_callback_del spec_step]. rewrite land_data, negb_involutive.
  destruct (callback_del (data_cb in_) _) as [d rd]. destruct Hd' as (Hd' & _ & Hd2).
  destruct (callback_del (cb in_) (Pair (Some f) u mask)) as [c2 r2]. destruct Hc2 as (Hc2 & _ & Hc2').
  destruct (callback_del (cb in_) (Pair (Some f) u (Z.lxor mask MASK_DATA))) as [c1 r1]. destruct Hc1 as (Hc1 & _ & Hc1').
  destruct (Z.testbit mask 0) eqn:Eb; [destruct (Z.eqb_spec (Z.lxor mask MASK_DATA) 0) as [Ex|Ex]|];
    split; cbn [fst data_cb cb]; auto.
  1,3: intros k; rewrite Hd2, Hmd; case_bool_decide; [|done];
       by rewrite Z.ldiff_spec, Eb, (b2z_ldiff _ true).
  - intros k t Ht. rewrite Hmc by done. case_bool_decide; [|done].
    rewrite Z.ldiff_spec, <-(lxor_data_bit mask) by done. rewrite Ex, Z.testbit_0_l. by rewrite andb_true_r.
  - intros k t Ht. rewrite Hc1'. case_bool_decide; [|by apply Hmc].
    by rewrite !Z.ldiff_spec, lxor_data_bit, Hmc.
  - intros k. rewrite Hmd. case_bool_decide; [|done]. by rewrite Z.ldiff_spec, Eb, andb_true_r.
  - intros k t Ht. rewrite Hc2'. case_bool_decide; [|by apply Hmc]. by rewrite !Z.ldiff_spec, Hmc.
Qed.

Lemma run_agrees ops : agrees (run ops) (spec_mask ops).
Proof.
  unfold run, spec_mask.
  assert (∀ in_ m, agrees in_ m → agrees (foldl step in_ ops) (λ k, foldl (spec_step k) (m k) ops)) as H.
  { induction ops as [|o ops IH]; intros in_ m H0; cbn; [done|].
    apply (IH _ (λ k, spec_step k (m k) o)).
    destruct o as [[f u] mask|[f u] mask]; [by apply agrees_add|by apply agrees_del]. }
  apply (H _ (λ _, 0)). split; try apply wf_nil; [constructor|done|]. intros k t _. by rewrite !Z.testbit_0_l.
Qed.

(** C30: after any sequence of calls of tll_channel_callback_add and
    tll_channel_callback_del, a control, state or channel message is delivered
    without calling a null pointer, to every (function, user) pair at most
    once, and exactly to the pairs whose mask (bits set by the adds, cleared by
    the dels, in order) has the bit of the message type. *)
Theorem callback_dispatch_masked (ops : list op) (t : msg_type) (Ht : t ≠ DATA) :
  ∃ ks, calls t (run ops) = Some ks ∧ NoDup ks ∧
        ∀ k, k ∈ ks ↔ Z.testbit (spec_mask ops k) (type_bit t) = true.
Proof.
  destruct (run_agrees ops) as [_ Hc _ _ Hm].
  destruct (masked_calls_spec t (cb (run ops)) Hc) as (ks & E & Hn & _ & Hin).
  exists ks. split_and!; [by destruct t|done|]. intros k. rewrite Hin, Hm; [done|]. by destruct t.
Qed.

Lemma callback_dispatch_masked_witness :
  ∃ ks, calls STATE (run [Add (User 1, 7) MASK_ALL; Add (User 2, 7) MASK_STATE; Del (User 1, 7) MASK_STATE]) = Some ks ∧
        NoDup ks ∧ ∀ k, k ∈ ks ↔ Z.testbit (spec_mask [Add (User 1, 7) MASK_ALL; Add (User 2, 7) MASK_STATE; Del (User 1, 7) MASK_STATE] k) (type_bit STATE) = true.
Proof. apply callback_dispatch_masked. discriminate. Defined.

(** Data messages: after any sequence of adds and dels the data array
    holds exactly the pairs that asked for data messages, each once; when no
    slot in the middle of the array has been emptied the dispatch calls all of
    them, and otherwise it calls a null function pointer. *)
Theorem callback_dispatch_data (ops : list op) :
  let l := data_cb (run ops) in
  NoDup (keys l) ∧ (∀ k, k ∈ keys l ↔ Z.testbit (spec_mask ops k) 0 = true) ∧
  calls DATA (run ops) = if bool_decide (Forall (λ q, p_cb q ≠ None) l) then Some (keys l) else None.
Proof.
  destruct (run_agrees ops) as [Hd _ Hl Hm _]. split_and!.
  - apply Hd.
  - intros k. rewrite live_keys, Hm by done. by destruct (Z.testbit (spec_mask ops k) 0).
  - apply data_calls_spec.
Qed.

(** Removing a data callback that is not the last of the array leaves a
    hole that the data dispatch calls as a null function pointer, while the
    other list skips the hole because its mask is zero. *)
Theorem callback_data_hole :
  let in_ := run [Add (User 1, 0) MASK_ALL; Add (User 2, 0) MASK_ALL; Del (User 1, 0) MASK_ALL] in
  calls DATA in_ = None ∧ calls CONTROL in_ = Some [(User 2, 0)] ∧ calls STATE in_ = Some [(User 2, 0)].
Proof. by vm_compute. Qed.

(** The result of tll_channel_callback_del after any sequence of calls: it
    is ENOENT exactly when the pair has no slot in the list of control, state
    and channel callbacks and the mask is not the data bit alone.  So removing
    a data callback that was never added succeeds, and removing an existing
    pure data callback with the mask of all messages reports ENOENT. *)
Theorem callback_del_result (ops : list op) (f : cbfn) (u mask : Z) :
  snd (tll_channel_callback_del (run ops) (Some f) u mask) = Err ENOENT ↔
  mask ≠ MASK_DATA ∧ (f, u) ∉ keys (cb (run ops)).
Proof.
  destruct (run_agrees ops) as [_ Hc _ _ _]. cbn [tll_channel_callback_del]. rewrite land_data, negb_involutive.
  pose proof (callback_del_spec (cb (run ops)) f u (Z.lxor mask MASK_DATA) Hc) as Hc1.
  pose proof (callback_del_spec (cb (run ops)) f u mask Hc) as Hc2.
  destruct (callback_del _ (Pair (Some f) u mask)) as [c2 r2]. destruct Hc2 as (_ & Hc2 & _).
  destruct (callback_del _ (Pair (Some f) u (Z.lxor mask MASK_DATA))) as [c1 r1]. destruct Hc1 as (_ & Hc1 & _).
  destruct (Z.testbit mask 0) eqn:Eb; [destruct (Z.eqb_spec (Z.lxor mask MASK_DATA) 0) as [Ex|Ex]|]; cbn.
  - apply Z.lxor_eq in Ex. naive_solver.
  - rewrite Hc1. split; [|by intros []]. intros. split; [|done]. intros ->. done.
  - rewrite Hc2. split; [|by intros []]. intros. split; [|done]. intros ->. done.
Qed.
End Cb.
