(* ===== verification/Channel.v ===== *)
(** * Channel objects: state, messages, children

    src/tll/channel.h (states, messages, capabilities), the structure
    [tll_channel_internal_t] and the dispatch of src/tll/channel/impl.h, and
    all of src/channel/impl.c.  Channels live in a store, so that a parent and
    its children share objects; a channel that is not in the store has been
    deleted and an access to it is a fault.  Every call of a user callback and
    every state change is recorded in the log of the store. *)
From S2P Require Import Prelude Callback.
Import Cb.

Module Chan.

(** ** Data *)
Inductive state := Closed | Opening | Active | Closing | Error | Destroy.

#[global] Instance state_eq_dec : EqDecision state.
Proof. solve_decision. Defined.

Definition state_num (s : state) : Z :=
  match s with Closed => 0 | Opening => 1 | Active => 2 | Closing => 3 | Error => 4 | Destroy => 5 end.

Definition tll_state_str (s : state) : string :=
  match s with
  | Closed => "Closed" | Opening => "Opening" | Active => "Active"
  | Error => "Error" | Closing => "Closing" | Destroy => "Destroy"
  end.

(** Ids of channel messages. *)
Definition CHANNEL_UPDATE : Z := 0.
Definition CHANNEL_ADD : Z := 1.
Definition CHANNEL_DELETE : Z := 2.
Definition CHANNEL_UPDATE_FD : Z := 3.

(** [tll_msg_t]; the body is a list of values together with its size. *)
Record msg := Msg {
  m_type : msg_type; m_flags : Z; m_msgid : Z; m_seq : Z;
  m_data : list Z; m_size : Z; m_addr : Z; m_time : Z
}.

Definition mk_msg (t : msg_type) (id : Z) (data : list Z) (size : Z) : msg := Msg t 0 id 0 data size 0 0.

(** [tll_msg_copy_info]: everything but the body. *)
Definition tll_msg_copy_info (dest src : msg) : msg :=
  Msg (m_type src) (m_flags src) (m_msgid src) (m_seq src) (m_data dest) (m_size dest) (m_addr src) (m_time src).

Definition CAPS_PARENT : Z := 0x1.
Definition CAPS_PROXY : Z := 0x2.
Definition CAPS_INPUT : Z := 0x4.
Definition CAPS_OUTPUT : Z := 0x8.
Definition CAPS_CUSTOM : Z := 0x10.
Definition CAPS_LONG_CLOSE : Z := 0x20.

Definition DCAPS_POLLIN : Z := 0x1.
Definition DCAPS_POLLOUT : Z := 0x2.
Definition DCAPS_POLLMASK : Z := 0x3.
Definition DCAPS_PROCESS : Z := 0x10.
Definition DCAPS_PENDING : Z := 0x20.
Definition DCAPS_SUSPEND : Z := 0x40.
Definition DCAPS_SUSPEND_PERMANENT : Z := 0x80.
Definition DCAPS_PROCESS_MASK : Z := Z.lor DCAPS_PROCESS DCAPS_SUSPEND.

Definition tll_channel_dcap_need_process (dcap : Z) : bool :=
  Z.land dcap DCAPS_PROCESS_MASK =? DCAPS_PROCESS.

Lemma need_process_bits d : tll_channel_dcap_need_process d = Z.testbit d 4 && negb (Z.testbit d 6).
Proof.
  unfold tll_channel_dcap_need_process. apply eq_true_iff_eq. rewrite Z.eqb_eq, andb_true_iff, negb_true_iff.
  change DCAPS_PROCESS with (2 ^ 4). change DCAPS_PROCESS_MASK with (Z.lor (2 ^ 4) (2 ^ 6)). split.
  - intros E. pose proof (f_equal (λ z, Z.testbit z 4) E) as E4. pose proof (f_equal (λ z, Z.testbit z 6) E) as E6.
    cbv beta in E4, E6. rewrite !Z.land_spec in E4, E6. cbn in E4, E6. by rewrite andb_true_r in E4, E6.
  - intros [H4 H6]. apply Z.bits_inj. intros n. rewrite Z.land_spec, Z.lor_spec.
    destruct (decide (n = 4)) as [->|]; [by rewrite H4|]. destruct (decide (n = 6)) as [->|]; [by rewrite H6|].
    rewrite !Z.pow2_bits_false by done. by rewrite andb_false_r.
Qed.

(** [tll_channel_stat_t]: the four sums of a channel. *)
Record stat_t := Stat { rx : Z; rxb : Z; tx : Z; txb : Z }.

(** Members of the C++ class [Base] that its operations use: the data and
    control schemes and the parameters of the last open (config "open"). *)
Record base_t := BaseT {
  scheme : option Z;
  scheme_control : option Z;
  config_open : option (list (string * string));
}.

(** [tll_channel_internal_t]; [config] keeps the value of "state" and the
    links set for tagged children. *)
Record internal := Internal {
  i_state : state;
  version : Z;
  i_name : string;
  caps : Z;
  dcaps : Z;
  fd : Z;
  dump : Z;
  config_state : string;
  config_links : gmap string Z;
  children : list Z;
  callbacks : lists;
  stat : option stat_t;
  logger : bool;
  state_count : Z;
  base : base_t;
}.

Definition set_children (l : list Z) (i : internal) : internal :=
  Internal (i_state i) (version i) (i_name i) (caps i) (dcaps i) (fd i) (dump i) (config_state i)
    (config_links i) l (callbacks i) (stat i) (logger i) (state_count i) (base i).
Definition set_callbacks (l : lists) (i : internal) : internal :=
  Internal (i_state i) (version i) (i_name i) (caps i) (dcaps i) (fd i) (dump i) (config_state i)
    (config_links i) (children i) l (stat i) (logger i) (state_count i) (base i).
Definition set_stat (s : option stat_t) (i : internal) : internal :=
  Internal (i_state i) (version i) (i_name i) (caps i) (dcaps i) (fd i) (dump i) (config_state i)
    (config_links i) (children i) (callbacks i) s (logger i) (state_count i) (base i).
Definition set_links (m : gmap string Z) (i : internal) : internal :=
  Internal (i_state i) (version i) (i_name i) (caps i) (dcaps i) (fd i) (dump i) (config_state i)
    m (children i) (callbacks i) (stat i) (logger i) (state_count i) (base i).
Definition set_dcaps (d : Z) (i : internal) : internal :=
  Internal (i_state i) (version i) (i_name i) (caps i) d (fd i) (dump i) (config_state i)
    (config_links i) (children i) (callbacks i) (stat i) (logger i) (state_count i) (base i).
Definition set_fd (f : Z) (i : internal) : internal :=
  Internal (i_state i) (version i) (i_name i) (caps i) (dcaps i) f (dump i) (config_state i)
    (config_links i) (children i) (callbacks i) (stat i) (logger i) (state_count i) (base i).
Definition set_state_fields (s : state) (i : internal) : internal :=
  Internal s (version i) (i_name i) (caps i) (dcaps i) (fd i) (dump i) (tll_state_str s)
    (config_links i) (children i) (callbacks i) (stat i) (logger i) (u32 (state_count i + 1)) (base i).
Definition set_base (b : base_t) (i : internal) : internal :=
  Internal (i_state i) (version i) (i_name i) (caps i) (dcaps i) (fd i) (dump i) (config_state i)
    (config_links i) (children i) (callbacks i) (stat i) (logger i) (state_count i) b.

(** ** The store *)
Inductive event :=
| ECall (f user c : Z) (m : msg)            (* user callback [f] called by channel [c] *)
| EState (c : Z) (old new : state)          (* "State change: old -> new" *)
| EDump (c : Z) (m : msg)                   (* message dumped to the log *)
| EWarnParent (c child : Z).                (* "Adding child, but Parent cap is not set" *)

(** [log] is newest first. *)
Record store := Store { chans : gmap Z internal; log : list event }.

Definition M (A : Type) : Type := store → option (A * store).

#[global] Instance M_ret : MRet M := λ A a w, Some (a, w).
#[global] Instance M_bind : MBind M := λ A B f m w, match m w with Some (a, w') => f a w' | None => None end.

Definition fault {A} : M A := λ _, None.

Definition get (c : Z) : M internal := λ w, let! i := chans w !! c in Some (i, w).
Definition put (c : Z) (i : internal) : M unit := λ w, Some (tt, Store (<[c := i]> (chans w)) (log w)).
Definition emit (e : event) : M unit := λ w, Some (tt, Store (chans w) (e :: log w)).
Definition modify (c : Z) (f : internal → internal) : M unit := i ← get c; put c (f i).

(** ** Child lists (src/channel/impl.c) *)
Fixpoint tll_channel_list_add (l : list Z) (c : Z) : result errno (list Z) :=
  match l with
  | [] => Ok [c]
  | x :: l => if x =? c then Err EEXIST else let? l' := tll_channel_list_add l c in Ok (x :: l')
  end.

Fixpoint tll_channel_list_del (l : list Z) (c : Z) : result errno (list Z) :=
  match l with
  | [] => Err ENOENT
  | x :: l => if x =? c then Ok l else let? l' := tll_channel_list_del l c in Ok (x :: l')
  end.

(** [tll_channel_internal_init], both versions of the symbol. *)
Definition internal_zero (v fd : Z) : internal :=
  Internal Closed v "" 0 0 fd 0 "" ∅ [] (Lists [] []) None false 0 (BaseT None None None).
Definition tll_channel_internal_init_v0 : internal := internal_zero 0 (-1).
Definition tll_channel_internal_init_v1 : internal := internal_zero 1 (-1).

Definition tll_channel_internal_clear (i : internal) : internal :=
  Internal (i_state i) (version i) (i_name i) (caps i) (dcaps i) (fd i) (dump i) (config_state i)
    (config_links i) [] (Lists [] []) (stat i) false (state_count i) (base i).

(** ** Dispatch (src/tll/channel/impl.h) *)

(** Iterate over a list of targets. *)
Fixpoint each {A} (f : A → M unit) (l : list A) : M unit :=
  match l with [] => mret tt | x :: l => _ ← f x; each f l end.

(** A callback that gets a message other than the destruction of the channel. *)
Definition call_flat (c : Z) (m : msg) (k : key) : M unit :=
  match k with
  | (User f, user) => emit (ECall f user c m)
  | (StateCallback, _) => mret tt
  end.

Definition tll_channel_callback_data (c : Z) (m : msg) : M unit :=
  i ← get c;
  if bool_decide (i_state i = Error) then mret tt else
  _ ← (if negb (dump i =? 0) then emit (EDump c m) else mret tt);
  _ ← (match stat i with
       | Some s => put c (set_stat (Some (Stat (i64 (rx s + 1)) (i64 (rxb s + m_size m)) (tx s) (txb s))) i)
       | None => mret tt
       end);
  match data_calls (data_cb (callbacks i)) with
  | None => fault
  | Some ks => each (call_flat c m) ks
  end.

(** The loop over [in->cb]: size and slots are read again at every turn. *)
Fixpoint cb_loop (call : key → M unit) (n i : nat) (c : Z) (t : msg_type) : M unit :=
  match n with
  | O => mret tt
  | S n =>
      ch ← get c;
      match cb (callbacks ch) !! i with
      | None => mret tt
      | Some q =>
          _ ← (if Z.testbit (p_mask q) (type_bit t)
               then match p_cb q with Some f => call (f, p_user q) | None => fault end
               else mret tt);
          cb_loop call n (S i) c t
      end
  end.

(** [tll_channel_callback], over the function that runs one callback. *)
Definition callback_with (call : key → M unit) (c : Z) (m : msg) : M unit :=
  if bool_decide (m_type m = DATA) then tll_channel_callback_data c m else
  i ← get c;
  if bool_decide (i_state i = Error) && negb (bool_decide (m_type m = STATE)) && negb (bool_decide (m_type m = CHANNEL))
  then mret tt
  else
    _ ← (if negb (dump i =? 0) then emit (EDump c m) else mret tt);
    cb_loop call (length (cb (callbacks i))) 0 c (m_type m).

(** Dispatch of a message that is not a Destroy notification. *)
Definition callback_flat (c : Z) (m : msg) : M unit := callback_with (call_flat c m) c m.

(** [tll_channel_internal_child_del]: its own message is not a state message. *)
Definition tll_channel_internal_child_del (p c : Z) (tag : string) : M (result errno unit) :=
  ip ← get p;
  match tll_channel_list_del (children ip) c with
  | Err e => mret (Err e)
  | Ok l =>
      _ ← put p (set_children l ip);
      _ ← callback_flat p (mk_msg CHANNEL CHANNEL_DELETE [c] 8);
      _ ← (if bool_decide (tag = "") then mret tt else modify p (λ i, set_links (delete tag (config_links i)) i));
      _ ← modify c (λ i, set_callbacks (fst (Cb.tll_channel_callback_del (callbacks i) (Some StateCallback) p MASK_STATE)) i);
      mret (Ok tt)
  end.

(** [_state_callback]: a parent forgets a child that is destroyed. *)
Definition _state_callback (c : Z) (m : msg) (data : Z) : M unit :=
  if data =? 0 then mret tt
  else if negb (bool_decide (m_type m = STATE) && (m_msgid m =? state_num Destroy)) then mret tt
  else _ ← tll_channel_internal_child_del data c ""; mret tt.

Definition call (c : Z) (m : msg) (k : key) : M unit :=
  match k with
  | (User f, user) => emit (ECall f user c m)
  | (StateCallback, user) => _state_callback c m user
  end.

Definition tll_channel_callback (c : Z) (m : msg) : M unit := callback_with (call c m) c m.

(** ** Operations of impl.c *)
Definition tll_channel_internal_child_add (p c : Z) (tag : string) : M (result errno unit) :=
  ip ← get p;
  match tll_channel_list_add (children ip) c with
  | Err e => mret (Err e)
  | Ok l =>
      _ ← put p (set_children l ip);
      _ ← (if Z.land (caps ip) CAPS_PARENT =? 0 then emit (EWarnParent p c) else mret tt);
      _ ← modify c (λ i, set_callbacks (fst (Cb.tll_channel_callback_add (callbacks i) (Some StateCallback) p MASK_STATE)) i);
      _ ← tll_channel_callback p (mk_msg CHANNEL CHANNEL_ADD [c] 8);
      _ ← (if bool_decide (tag = "") then mret tt else modify p (λ i, set_links (<[tag := c]> (config_links i)) i));
      mret (Ok tt)
  end.

Definition tll_channel_internal_set_state (c : Z) (s : state) : M unit :=
  i ← get c;
  if bool_decide (s = i_state i) then mret tt else
  _ ← emit (EState c (i_state i) s);
  _ ← put c (set_state_fields s i);
  tll_channel_callback c (mk_msg STATE (state_num s) [] 0).

(** ** Weakest preconditions: the computation ends without a fault *)
Definition wp {A} (m : M A) (w : store) (Q : A → store → Prop) : Prop :=
  match m w with Some (a, w') => Q a w' | None => False end.

Lemma wp_ret {A} (a : A) w Q : Q a w → wp (mret a) w Q.
Proof. done. Qed.

Lemma wp_bind {A B} (m : M A) (f : A → M B) w Q :
  wp m w (λ a w', wp (f a) w' Q) → wp (m ≫= f) w Q.
Proof. unfold wp, mbind, M_bind. by destruct (m w) as [[a w']|]. Qed.

Lemma wp_mono {A} (m : M A) w (Q R : A → store → Prop) :
  wp m w Q → (∀ a w', Q a w' → R a w') → wp m w R.
Proof. unfold wp. destruct (m w) as [[a w']|]; [|done]. auto. Qed.

Lemma wp_emit e w (Q : unit → store → Prop) : Q tt (Store (chans w) (e :: log w)) → wp (emit e) w Q.
Proof. done. Qed.

Lemma wp_put c i w (Q : unit → store → Prop) : Q tt (Store (<[c := i]> (chans w)) (log w)) → wp (put c i) w Q.
Proof. done. Qed.

Lemma wp_get c i w (Q : internal → store → Prop) : chans w !! c = Some i → Q i w → wp (get c) w Q.
Proof. unfold wp, get. intros ->. done. Qed.

Lemma wp_modify c f i w (Q : unit → store → Prop) :
  chans w !! c = Some i → Q tt (Store (<[c := f i]> (chans w)) (log w)) → wp (modify c f) w Q.
Proof. intros Hi HQ. apply wp_bind, (wp_get _ i); [done|]. by apply wp_put. Qed.

Lemma wp_some {A} (m : M A) w a w' (Q : A → store → Prop) : m w = Some (a, w') → Q a w' → wp m w Q.
Proof. unfold wp. by intros ->. Qed.

Lemma store_eta w : Store (chans w) (log w) = w.
Proof. by destruct w. Qed.

(** ** Dispatch without a Destroy notification changes the log only *)
Definition user_call (c : Z) (m : msg) (k : key) : list event :=
  match k with (User f, u) => [ECall f u c m] | (StateCallback, _) => [] end.

(** Events of the calls of [ks], newest first. *)
Definition call_events (c : Z) (m : msg) (ks : list key) : list event := rev (ks ≫= user_call c m).

Lemma call_events_cons c m k ks : call_events c m (k :: ks) = call_events c m ks ++ user_call c m k.
Proof. unfold call_events. cbn. rewrite rev_app_distr. f_equal. by destruct k as [[] ?]. Qed.

Lemma call_flat_eq c m k w : call_flat c m k w = Some (tt, Store (chans w) (user_call c m k ++ log w)).
Proof. destruct k as [[f|] u]; cbn; [done|by rewrite store_eta]. Qed.

Lemma each_flat c m ks w :
  each (call_flat c m) ks w = Some (tt, Store (chans w) (call_events c m ks ++ log w)).
Proof.
  revert w. induction ks as [|k ks IH]; intros w; cbn [each].
  { cbn. by rewrite store_eta. }
  unfold mbind, M_bind. rewrite call_flat_eq, IH, call_events_cons. cbn. by rewrite <-app_assoc.
Qed.

(** A Destroy notification is the only message a parent reacts to. *)
Definition is_destroy (m : msg) : bool := bool_decide (m_type m = STATE) && (m_msgid m =? state_num Destroy).

Lemma call_quiet c m k : is_destroy m = false → call c m k = call_flat c m k.
Proof.
  intros H. destruct k as [[f|] u]; cbn; [done|]. unfold _state_callback. fold (is_destroy m). rewrite H.
  by destruct (u =? 0).
Qed.

Lemma cb_loop_quiet (run : key → M unit) c m t l n : ∀ i w ch ks,
  (∀ k, run k = call_flat c m k) → chans w !! c = Some ch → cb (callbacks ch) = l →
  masked_calls t (drop i l) = Some ks → (length l - i ≤ n)%nat →
  cb_loop run n i c t w = Some (tt, Store (chans w) (call_events c m ks ++ log w)).
Proof.
  induction n as [|n IH]; intros i w ch ks Hcall Hch Hl Hks Hn; cbn [cb_loop].
  { rewrite drop_ge in Hks by lia. injection Hks as <-. cbn. by rewrite store_eta. }
  unfold mbind at 1, M_bind at 1, get. rewrite Hch. cbn [mbind option_bind]. rewrite Hl.
  destruct (l !! i) as [q|] eqn:Hq; cycle 1.
  { apply lookup_ge_None in Hq. rewrite drop_ge in Hks by lia. injection Hks as <-. cbn. by rewrite store_eta. }
  rewrite (drop_S _ _ _ Hq) in Hks. cbn [masked_calls] in Hks.
  destruct (Z.testbit (p_mask q) (type_bit t)).
  - destruct (p_cb q) as [f|]; [|done]. cbn in Hks.
    destruct (masked_calls t (drop (S i) l)) as [ks'|] eqn:Eks; [|done]. injection Hks as <-.
    unfold mbind, M_bind. rewrite Hcall, call_flat_eq.
    rewrite (IH (S i) _ ch ks') by (done || lia). cbn [chans log]. rewrite call_events_cons. by rewrite <-app_assoc.
  - cbn. eapply IH; (done || lia).
Qed.

(** Channels whose callback arrays are the result of adds and dels. *)
Definition ok_cbs (i : internal) : Prop := Cb.wf (cb (callbacks i)).

Definition dumped (c : Z) (m : msg) (i : internal) : list event := if dump i =? 0 then [] else [EDump c m].

Definition suppressed (m : msg) (i : internal) : bool :=
  bool_decide (i_state i = Error) && negb (bool_decide (m_type m = STATE)) && negb (bool_decide (m_type m = CHANNEL)).

(** Log of the delivery of a message to all the callbacks that asked for it. *)
Definition delivered (c : Z) (m : msg) (i : internal) (lg : list event) : Prop :=
  if suppressed m i then lg = []
  else ∃ ks, calls (m_type m) (callbacks i) = Some ks ∧ NoDup ks ∧ lg = call_events c m ks ++ dumped c m i.

Lemma callback_with_quiet run c m i w :
  (∀ k, run k = call_flat c m k) → chans w !! c = Some i → ok_cbs i → m_type m ≠ DATA →
  ∃ lg, callback_with run c m w = Some (tt, Store (chans w) (lg ++ log w)) ∧ delivered c m i lg.
Proof.
  intros Hcall Hi Hok Ht. unfold callback_with, delivered. rewrite bool_decide_false by done.
  unfold mbind at 1, M_bind at 1, get. rewrite Hi. cbn [mbind option_bind]. fold (suppressed m i).
  destruct (suppressed m i); [exists []; by rewrite store_eta|].
  destruct (masked_calls_spec (m_type m) _ Hok) as (ks & Eks & Hnd & _ & _).
  exists (call_events c m ks ++ dumped c m i). split.
  - unfold mbind, M_bind, dumped.
    assert ((if negb (dump i =? 0) then emit (EDump c m) else mret tt) w =
            Some (tt, Store (chans w) ((if dump i =? 0 then [] else [EDump c m]) ++ log w))) as ->.
    { destruct (dump i =? 0); cbn; [by rewrite store_eta|done]. }
    rewrite (cb_loop_quiet _ c m _ (cb (callbacks i)) _ _ _ i ks) by (try done; lia).
    cbn [chans log]. by rewrite app_assoc.
  - exists ks. split_and!; [|done|done]. by destruct (m_type m).
Qed.

Lemma callback_quiet c m i w :
  chans w !! c = Some i → ok_cbs i → m_type m ≠ DATA → is_destroy m = false →
  ∃ lg, tll_channel_callback c m w = Some (tt, Store (chans w) (lg ++ log w)) ∧ delivered c m i lg.
Proof. intros. apply callback_with_quiet; try done. intros k. by apply call_quiet. Qed.

Lemma callback_flat_quiet c m i w :
  chans w !! c = Some i → ok_cbs i → m_type m ≠ DATA →
  ∃ lg, callback_flat c m w = Some (tt, Store (chans w) (lg ++ log w)) ∧ delivered c m i lg.
Proof. intros. by apply callback_with_quiet. Qed.

(** ** State changes *)
Lemma set_state_same c i w : chans w !! c = Some i → tll_channel_internal_set_state c (i_state i) w = Some (tt, w).
Proof.
  intros Hi. unfold tll_channel_internal_set_state, mbind, M_bind, get. rewrite Hi. cbn.
  by rewrite bool_decide_true.
Qed.

Definition state_msg (s : state) : msg := mk_msg STATE (state_num s) [] 0.

Lemma set_state_change c s i w :
  chans w !! c = Some i → s ≠ i_state i →
  tll_channel_internal_set_state c s w =
  tll_channel_callback c (state_msg s) (Store (<[c := set_state_fields s i]> (chans w)) (EState c (i_state i) s :: log w)).
Proof.
  intros Hi Hs. unfold tll_channel_internal_set_state, mbind, M_bind, get. rewrite Hi. cbn.
  by rewrite bool_decide_false.
Qed.

Lemma set_state_spec c s i w :
  chans w !! c = Some i → ok_cbs i → s ≠ i_state i → s ≠ Destroy →
  ∃ lg, tll_channel_internal_set_state c s w =
        Some (tt, Store (<[c := set_state_fields s i]> (chans w)) (lg ++ EState c (i_state i) s :: log w)) ∧
        delivered c (state_msg s) (set_state_fields s i) lg.
Proof.
  intros Hi Hok Hs Hd. rewrite (set_state_change _ _ i) by done.
  destruct (callback_quiet c (state_msg s) (set_state_fields s i)
    (Store (<[c := set_state_fields s i]> (chans w)) (EState c (i_state i) s :: log w))) as (lg & E & H).
  - cbn. by rewrite lookup_insert_eq.
  - done.
  - done.
  - by destruct s.
  - exists lg. by rewrite E.
Qed.

(** ** Parents and children *)
Definition kids (w : store) (p : Z) : list Z := match chans w !! p with Some i => children i | None => [] end.
Definition cbs (w : store) (c : Z) : lists := match chans w !! c with Some i => callbacks i | None => Lists [] [] end.
Definition exists_ (w : store) (c : Z) : Prop := is_Some (chans w !! c).

(** [p] has its [_state_callback] installed in [c]. *)
Definition subscribed (w : store) (c p : Z) : bool :=
  Z.testbit (mask_of (cb (cbs w c)) (StateCallback, p)) (type_bit STATE).

(** The parent relation is recorded in both objects, and both are alive. *)
Record reg (w : store) : Prop := {
  reg_null : chans w !! 0 = None;
  reg_cbs c : Cb.wf (cb (cbs w c));
  reg_kids p : NoDup (kids w p);
  reg_link c p : subscribed w c p = true ↔ c ∈ kids w p;
}.

Lemma reg_ok w c i : reg w → chans w !! c = Some i → ok_cbs i.
Proof. intros H Hi. pose proof (reg_cbs w H c) as Hc. unfold cbs in Hc. by rewrite Hi in Hc. Qed.

Lemma reg_child w p c : reg w → c ∈ kids w p → exists_ w c ∧ exists_ w p.
Proof.
  intros H Hc. split.
  - apply (reg_link w H) in Hc. unfold subscribed, cbs in Hc. destruct (chans w !! c) eqn:E; [by exists i|].
    done.
  - unfold kids in Hc. destruct (chans w !! p) eqn:E; [by exists i|]. set_solver.
Qed.

Lemma alter_insert_lookup (m : gmap Z internal) c i f : m !! c = Some i → <[c := f i]> m = alter f c m.
Proof.
  intros Hi. apply map_eq. intros x. destruct (decide (x = c)) as [->|Hne].
  - by rewrite lookup_insert_eq, lookup_alter_eq, Hi.
  - by rewrite lookup_insert_ne, lookup_alter_ne by done.
Qed.

Lemma list_del_spec l c : NoDup l → c ∈ l →
  ∃ l', tll_channel_list_del l c = Ok l' ∧ NoDup l' ∧ (∀ x, x ∈ l' ↔ x ∈ l ∧ x ≠ c).
Proof.
  induction 1 as [|x l Hx Hn IH]; [set_solver|]. intros Hc. cbn.
  destruct (Z.eqb_spec x c) as [->|Hne].
  - exists l. split_and!; [done..|]. set_solver.
  - destruct IH as (l' & E & Hn' & Hl'); [set_solver|]. rewrite E. exists (x :: l'). split_and!; [done| |].
    + constructor; [|done]. rewrite Hl'. naive_solver.
    + intros y. rewrite !elem_of_cons, Hl'. naive_solver.
Qed.

(** A list of children without [c], in the same order. *)
Definition without (c : Z) (l : list Z) : list Z := filter (λ x, x ≠ c) l.

Lemma without_none l c : c ∉ l → without c l = l.
Proof.
  intros H. unfold without. induction l as [|x l IH]; [done|]. apply not_elem_of_cons in H as [Hx Hl].
  rewrite filter_cons, decide_True by congruence. by rewrite IH.
Qed.

Lemma without_twice l c : without c (without c l) = without c l.
Proof. apply without_none. unfold without. rewrite list_elem_of_filter. tauto. Qed.

Lemma list_del_without l c l' : NoDup l → tll_channel_list_del l c = Ok l' → l' = without c l.
Proof.
  intros Hn. revert l'. induction Hn as [|x l Hx Hn IH]; intros l' H; [done|]. cbn in H.
  unfold without. rewrite filter_cons. destruct (Z.eqb_spec x c) as [->|Hne].
  - injection H as <-. rewrite decide_False by tauto. symmetry. by apply without_none.
  - rewrite decide_True by done. destruct (tll_channel_list_del l c) as [l1|]; [|done]. cbn in H. injection H as <-.
    f_equal. by apply IH.
Qed.

Lemma list_del_err l c : c ∉ l → tll_channel_list_del l c = Err ENOENT.
Proof.
  induction l as [|x l IH]; [done|]. intros [Hx Hc]%not_elem_of_cons. cbn.
  destruct (Z.eqb_spec x c) as [->|]; [done|]. by rewrite IH.
Qed.

Lemma list_add_spec l c : NoDup l →
  tll_channel_list_add l c = if bool_decide (c ∈ l) then Err EEXIST else Ok (l ++ [c]).
Proof.
  induction 1 as [|x l Hx Hn IH]; cbn; [done|]. rewrite IH.
  destruct (Z.eqb_spec x c) as [->|Hne]; [by rewrite bool_decide_true by set_solver|].
  case_bool_decide; case_bool_decide; set_solver.
Qed.

Definition drop_sub (p : Z) (i : internal) : internal :=
  set_callbacks (fst (Cb.tll_channel_callback_del (callbacks i) (Some StateCallback) p MASK_STATE)) i.

(** Store after [tll_channel_internal_child_del] without a tag. *)
Definition del_store (w : store) (p c : Z) (l : list Z) (lg : list event) : store :=
  Store (alter (drop_sub p) c (alter (set_children l) p (chans w))) (lg ++ log w).

Lemma child_del_eq w p c :
  reg w → c ∈ kids w p →
  ∃ l lg, tll_channel_list_del (kids w p) c = Ok l ∧
    tll_channel_internal_child_del p c "" w = Some (Ok tt, del_store w p c l lg) ∧
    (∃ ip, chans w !! p = Some ip ∧ delivered p (mk_msg CHANNEL CHANNEL_DELETE [c] 8) (set_children l ip) lg).
Proof.
  intros Hreg Hc. destruct (reg_child w p c Hreg Hc) as [[ic Hic] [ip Hip]].
  destruct (list_del_spec (kids w p) c (reg_kids w Hreg p) Hc) as (l & El & _).
  assert (children ip = kids w p) as Hk by (unfold kids; by rewrite Hip).
  destruct (callback_flat_quiet p (mk_msg CHANNEL CHANNEL_DELETE [c] 8) (set_children l ip)
              (Store (<[p := set_children l ip]> (chans w)) (log w))) as (lg & Ecb & Hd).
  { cbn. by rewrite lookup_insert_eq. }
  { by apply (reg_ok w p ip). }
  { done. }
  exists l, lg. split_and!; [done| |by exists ip].
  unfold tll_channel_internal_child_del, mbind, M_bind, get, modify. rewrite Hip. cbn [mbind option_bind].
  rewrite Hk, El. cbn [put]. unfold put. rewrite Ecb. cbn [mret M_ret chans log].
  unfold mbind, M_bind, get. cbn [chans].
  rewrite (alter_insert_lookup _ _ ip) by done.
  assert (∃ i, alter (set_children l) p (chans w) !! c = Some i) as [i Hi].
  { destruct (decide (p = c)) as [->|Hne]; [rewrite lookup_alter_eq, Hic; eauto|]. rewrite lookup_alter_ne by done. eauto. }
  rewrite bool_decide_true by done. cbn [mret M_ret]. unfold mret, M_ret. cbn [chans]. rewrite Hi. cbn. unfold del_store. do 3 f_equal.
  exact (alter_insert_lookup _ _ i (drop_sub p) Hi).
Qed.

Lemma drop_sub_callbacks p i :
  callbacks (drop_sub p i) =
  Lists (data_cb (callbacks i)) (fst (callback_del (cb (callbacks i)) (Pair (Some StateCallback) p MASK_STATE))).
Proof.
  unfold drop_sub, tll_channel_callback_del. change (negb (Z.land MASK_STATE MASK_DATA =? 0)) with false.
  cbn [negb]. by destruct (callback_del _ _).
Qed.

Lemma del_store_lookup w p c l lg x :
  chans (del_store w p c l lg) !! x =
  (λ i, (if decide (x = c) then drop_sub p else id) ((if decide (x = p) then set_children l else id) i)) <$> chans w !! x.
Proof.
  unfold del_store. cbn [chans]. destruct (decide (x = c)) as [->|Hc].
  - rewrite lookup_alter_eq. destruct (decide (c = p)) as [->|Hp].
    + rewrite lookup_alter_eq. by destruct (chans w !! p).
    + rewrite lookup_alter_ne by done. by destruct (chans w !! c).
  - rewrite lookup_alter_ne by done. destruct (decide (x = p)) as [->|Hp].
    + rewrite lookup_alter_eq. by destruct (chans w !! p).
    + rewrite lookup_alter_ne by done. by destruct (chans w !! x).
Qed.

Lemma del_store_kids w p c l lg x :
  exists_ w p → kids (del_store w p c l lg) x = if decide (x = p) then l else kids w x.
Proof.
  intros [ip Hip]. unfold kids. rewrite del_store_lookup. destruct (chans w !! x) as [i|] eqn:E; cbn.
  - by destruct (decide (x = c)), (decide (x = p)).
  - destruct (decide (x = p)); [congruence|done].
Qed.

Lemma del_store_cb w p c l lg x :
  cb (cbs (del_store w p c l lg) x) =
  if decide (x = c) then fst (callback_del (cb (cbs w x)) (Pair (Some StateCallback) p MASK_STATE)) else cb (cbs w x).
Proof.
  unfold cbs. rewrite del_store_lookup. destruct (chans w !! x) as [i|]; [|by destruct (decide (x = c))].
  cbn [fmap option_fmap option_map]. destruct (decide (x = c)); [|by destruct (decide (x = p))].
  rewrite drop_sub_callbacks. by destruct (decide (x = p)).
Qed.

(** [w'] is [w] with [c] dropped from the lists of some of its parents, who
    have been told about it. *)
Record detach (c : Z) (w w' : store) : Prop := {
  dt_frame x : match chans w !! x, chans w' !! x with
    | Some i, Some i' => i' = set_children (children i') (set_callbacks (callbacks i') i)
    | None, None => True | _, _ => False end;
  dt_user x f u : mask_of (cb (cbs w' x)) (User f, u) = mask_of (cb (cbs w x)) (User f, u);
  dt_kids p x : x ≠ c → x ∈ kids w' p ↔ x ∈ kids w p;
  dt_sub p : c ∈ kids w' p → c ∈ kids w p;
  dt_list p : kids w' p = kids w p ∨ kids w' p = without c (kids w p);
  dt_data x : data_cb (cbs w' x) = data_cb (cbs w x);
  dt_cbs x : x ≠ c → cbs w' x = cbs w x;
  dt_log : ∃ lg, log w' = lg ++ log w;
  dt_told p f u : c ∈ kids w p → c ∉ kids w' p →
    Z.testbit (mask_of (cb (cbs w p)) (User f, u)) (type_bit CHANNEL) = true →
    ECall f u p (mk_msg CHANNEL CHANNEL_DELETE [c] 8) ∈ log w';
}.

Lemma detach_log c w lg : detach c w (Store (chans w) (lg ++ log w)).
Proof.
  split; try done.
  - intros x. cbn. destruct (chans w !! x) as [i|]; [|done]. by destruct i.
  - intros p. by left.
  - by exists lg.
Qed.

Lemma detach_trans c w1 w2 w3 : detach c w1 w2 → detach c w2 w3 → detach c w1 w3.
Proof.
  intros [Hf1 Hu1 Hk1 Hs1 Hw1 Hd1 Hc1 [g1 Hl1] Ht1] [Hf2 Hu2 Hk2 Hs2 Hw2 Hd2 Hc2 [g2 Hl2] Ht2]. split.
  - intros x. specialize (Hf1 x). specialize (Hf2 x).
    destruct (chans w1 !! x) as [i1|], (chans w2 !! x) as [i2|], (chans w3 !! x) as [i3|]; try done.
    rewrite Hf2. rewrite Hf1. done.
  - intros. by rewrite Hu2, Hu1.
  - intros p x Hx. by rewrite Hk2, Hk1.
  - auto.
  - intros p. destruct (Hw1 p) as [<-|E1]; [apply Hw2|]. right. destruct (Hw2 p) as [E2|E2]; rewrite E2, E1; [done|].
    apply without_twice.
  - intros x. by rewrite Hd2.
  - intros x Hx. by rewrite Hc2, Hc1.
  - exists (g2 ++ g1). by rewrite Hl2, Hl1, app_assoc.
  - intros p f u H1 H3 Hb. destruct (decide (c ∈ kids w2 p)) as [H2|H2].
    + apply Ht2; [done..|]. by rewrite Hu1.
    + rewrite Hl2. apply elem_of_app. right. by apply Ht1.
Qed.

Lemma elem_of_call_events c m ks f u : (User f, u) ∈ ks → ECall f u c m ∈ call_events c m ks.
Proof.
  intros H. unfold call_events. apply list_elem_of_In. rewrite <-in_rev. apply list_elem_of_In.
  apply list_elem_of_bind. exists (User f, u). split; [|done]. cbn. set_solver.
Qed.

Lemma delivered_user c m i lg f u :
  m_type m = CHANNEL → ok_cbs i →
  Z.testbit (mask_of (cb (callbacks i)) (User f, u)) (type_bit CHANNEL) = true →
  delivered c m i lg → ECall f u c m ∈ lg.
Proof.
  intros Ht Hok Hb Hd. unfold delivered, suppressed in Hd. rewrite Ht in Hd.
  rewrite (bool_decide_true (CHANNEL = CHANNEL)), andb_false_r in Hd by done.
  destruct Hd as (ks & Eks & _ & ->). apply elem_of_app. left. apply elem_of_call_events.
  destruct (masked_calls_spec CHANNEL _ Hok) as (ks' & Eks' & _ & _ & Hin).
  unfold calls in Eks. rewrite Eks' in Eks. injection Eks as <-. by apply Hin.
Qed.

Lemma reg_detach w p c l lg :
  reg w → c ∈ kids w p → tll_channel_list_del (kids w p) c = Ok l → reg (del_store w p c l lg).
Proof.
  intros Hreg Hc El. destruct (reg_child w p c Hreg Hc) as [[ic Hic] [ip Hip]].
  destruct (list_del_spec (kids w p) c (reg_kids w Hreg p) Hc) as (l' & El' & Hn & Hl).
  rewrite El in El'. injection El' as <-.
  pose proof (callback_del_spec (cb (cbs w c)) StateCallback p MASK_STATE (reg_cbs w Hreg c)) as Hdel.
  destruct (callback_del _ _) as [l2 r] eqn:Ed. destruct Hdel as (Hwf' & _ & Hm).
  split.
  - rewrite del_store_lookup, (reg_null w Hreg). done.
  - intros x. rewrite del_store_cb. destruct (decide (x = c)) as [->|]; [by rewrite Ed|apply (reg_cbs w Hreg)].
  - intros x. rewrite del_store_kids by (by exists ip). destruct (decide (x = p)); [done|apply (reg_kids w Hreg)].
  - intros x y. unfold subscribed. rewrite del_store_cb, del_store_kids by (by exists ip).
    destruct (decide (x = c)) as [->|Hx].
    + rewrite Ed. cbn [fst]. rewrite Hm. destruct (decide (y = p)) as [->|Hy].
      * rewrite bool_decide_true, Z.ldiff_spec, andb_false_r by done. rewrite Hl. naive_solver.
      * rewrite bool_decide_false by congruence. apply (reg_link w Hreg).
    + pose proof (reg_link w Hreg x y) as Hlink. unfold subscribed in Hlink. rewrite Hlink.
      destruct (decide (y = p)) as [->|Hy]; [|done]. rewrite Hl. naive_solver.
Qed.

Lemma detach_del w p c l lg ip :
  reg w → c ∈ kids w p → tll_channel_list_del (kids w p) c = Ok l → chans w !! p = Some ip →
  delivered p (mk_msg CHANNEL CHANNEL_DELETE [c] 8) (set_children l ip) lg → detach c w (del_store w p c l lg).
Proof.
  intros Hreg Hc El Hip Hd.
  destruct (list_del_spec (kids w p) c (reg_kids w Hreg p) Hc) as (l' & El' & Hn & Hl).
  rewrite El in El'. injection El' as <-.
  pose proof (callback_del_spec (cb (cbs w c)) StateCallback p MASK_STATE (reg_cbs w Hreg c)) as Hdel.
  destruct (callback_del _ _) as [l2 r] eqn:Ed. destruct Hdel as (_ & _ & Hm).
  split.
  - intros x. rewrite del_store_lookup. destruct (chans w !! x) as [i|]; cbn; [|done].
    by destruct (decide (x = c)), (decide (x = p)); destruct i.
  - intros x f u. rewrite del_store_cb. destruct (decide (x = c)) as [->|]; [|done].
    rewrite Ed. cbn. by rewrite Hm, bool_decide_false.
  - intros q x Hx. rewrite del_store_kids by (by exists ip). destruct (decide (q = p)) as [->|]; [|done].
    rewrite Hl. naive_solver.
  - intros q. rewrite del_store_kids by (by exists ip). destruct (decide (q = p)) as [->|]; [|done].
    rewrite Hl. naive_solver.
  - intros q. rewrite del_store_kids by (by exists ip). destruct (decide (q = p)) as [->|]; [right|by left].
    apply list_del_without; [apply (reg_kids w Hreg)|done].
  - intros x. unfold cbs. rewrite del_store_lookup. destruct (chans w !! x) as [i|]; [|done].
    cbn [fmap option_fmap option_map]. destruct (decide (x = c)); [rewrite drop_sub_callbacks|]; by destruct (decide (x = p)).
  - intros x Hx. unfold cbs. rewrite del_store_lookup. destruct (chans w !! x) as [i|]; [|done].
    cbn [fmap option_fmap option_map]. rewrite decide_False by done. by destruct (decide (x = p)).
  - by exists lg.
  - intros q f u H1 H2 Hb. rewrite del_store_kids in H2 by (by exists ip).
    destruct (decide (q = p)) as [->|]; [|done]. cbn [log del_store].
    apply elem_of_app. left. eapply delivered_user; [done|by apply (reg_ok w p ip)| |exact Hd].
    unfold cbs in Hb. by rewrite Hip in Hb.
Qed.

(** Slots already visited hold no [_state_callback] for state messages. *)
Definition visited (w : store) (c : Z) (i : nat) : Prop :=
  ∀ j q, (j < i)%nat → cb (cbs w c) !! j = Some q →
    p_cb q = Some StateCallback → Z.testbit (p_mask q) (type_bit STATE) = false.

Lemma visited_all w c i p :
  reg w → (length (cb (cbs w c)) ≤ i)%nat → visited w c i → c ∉ kids w p.
Proof.
  intros Hreg Hlen Hv Hc. apply (reg_link w Hreg) in Hc. apply mask_of_slot in Hc as (j & q & Hj & Hk & Hb).
  assert (j < length (cb (cbs w c)))%nat by (by eapply lookup_lt_Some).
  rewrite (Hv j q) in Hb; [done|lia|done|]. unfold slot_key in Hk. destruct (p_cb q); cbn in Hk; congruence.
Qed.

Definition destroy_post (c : Z) (w w' : store) : Prop :=
  reg w' ∧ detach c w w' ∧ ∀ p, c ∉ kids w' p.

(** One step of the loop on a slot of a parent. *)
Lemma destroy_step c w i q p :
  reg w → visited w c i → cb (cbs w c) !! i = Some q → p_cb q = Some StateCallback → p_user q = p →
  Z.testbit (p_mask q) (type_bit STATE) = true →
  ∃ w', call c (state_msg Destroy) (StateCallback, p) w = Some (tt, w') ∧ reg w' ∧ detach c w w' ∧
        visited w' c (S i) ∧ (length (cb (cbs w' c)) ≤ length (cb (cbs w c)))%nat.
Proof.
  intros Hreg Hv Hq Hcb Hp Hb.
  assert (slot_key q = Some (StateCallback, p)) as Hk by (unfold slot_key; rewrite Hcb; cbn; congruence).
  assert (c ∈ kids w p) as Hc.
  { apply (reg_link w Hreg). unfold subscribed. by rewrite (slot_mask _ i q) by (try apply (reg_cbs w Hreg); done). }
  destruct (child_del_eq w p c Hreg Hc) as (l & lg & El & E & ip & Hip & Hd).
  exists (del_store w p c l lg). split_and!.
  - cbn. unfold _state_callback. destruct (Z.eqb_spec p 0) as [->|]; [rewrite (reg_null w Hreg) in Hip; done|].
    change (negb _) with false. cbn [m_type state_msg]. unfold mbind, M_bind. by rewrite E.
  - by eapply reg_detach.
  - by eapply detach_del.
  - intros j q' Hj Hq'. rewrite del_store_cb, decide_True in Hq' by done.
    pose proof (callback_del_slots _ StateCallback p MASK_STATE i q (reg_cbs w Hreg c) Hq Hk) as [_ Hs].
    destruct (Hs j q' Hq') as [[-> [Hn|Hm]]|[Hne Hq2]]; [congruence| |apply (Hv j); [lia|done]].
    intros _. by rewrite Hm, Z.ldiff_spec, andb_false_r.
  - rewrite del_store_cb, decide_True by done.
    by pose proof (callback_del_slots _ StateCallback p MASK_STATE i q (reg_cbs w Hreg c) Hq Hk) as [Hle _].
Qed.

Lemma visited_skip w c i q :
  visited w c i → cb (cbs w c) !! i = Some q →
  (p_cb q = Some StateCallback → Z.testbit (p_mask q) (type_bit STATE) = false) → visited w c (S i).
Proof.
  intros Hv Hq H j q' Hj Hq' Hcb. destruct (decide (j = i)) as [->|]; [naive_solver|]. eapply (Hv j); eauto; lia.
Qed.

Lemma detach_exists c w w' x : detach c w w' → exists_ w x → exists_ w' x.
Proof.
  intros H [i Hi]. pose proof (dt_frame c w w' H x) as Hf. rewrite Hi in Hf. unfold exists_.
  destruct (chans w' !! x); [by eexists|done].
Qed.

Lemma destroy_loop c n : ∀ i w,
  reg w → exists_ w c → visited w c i → (length (cb (cbs w c)) - i ≤ n)%nat →
  wp (cb_loop (call c (state_msg Destroy)) n i c STATE) w (λ _ w', destroy_post c w w').
Proof.
  induction n as [|n IH]; intros i w Hreg [ic Hic] Hv Hn; cbn [cb_loop].
  { apply wp_ret. split_and!; [done| |].
    - pose proof (detach_log c w []) as H. by rewrite store_eta in H.
    - intros p. apply (visited_all w c i); [done|lia|done]. }
  apply wp_bind, (wp_get _ ic); [done|].
  assert (cb (callbacks ic) = cb (cbs w c)) as Ecb by (unfold cbs; by rewrite Hic). rewrite Ecb.
  destruct (cb (cbs w c) !! i) as [q|] eqn:Hq; cycle 1.
  { apply lookup_ge_None in Hq. apply wp_ret. split_and!; [done| |].
    - pose proof (detach_log c w []) as H. by rewrite store_eta in H.
    - intros p. by apply (visited_all w c i). }
  assert (∀ w', reg w' → detach c w w' → visited w' c (S i) → (length (cb (cbs w' c)) ≤ length (cb (cbs w c)))%nat →
    wp (cb_loop (call c (state_msg Destroy)) n (S i) c STATE) w' (λ _ w'', destroy_post c w w'')) as Hnext.
  { intros w' Hreg' Hd Hv' Hlen. eapply wp_mono.
    - apply IH; [done|by eapply detach_exists; [|exists ic]|done|lia].
    - intros _ w'' (? & ? & ?). split_and!; [done|by eapply detach_trans|done]. }
  apply wp_bind. destruct (Z.testbit (p_mask q) (type_bit STATE)) eqn:Hb.
  - destruct (p_cb q) as [[f|]|] eqn:Hcb.
    + apply wp_emit. apply Hnext.
      * destruct Hreg. by split.
      * apply (detach_log c w [_]).
      * eapply visited_skip; [exact Hv|done|congruence].
      * done.
    + destruct (destroy_step c w i q (p_user q)) as (w' & E & ? & ? & ? & ?); [done..|].
      eapply wp_some; [exact E|]. by apply Hnext.
    + pose proof (reg_cbs w Hreg c) as [_ Hz]. eapply Forall_lookup_1 in Hz; [|exact Hq]. cbn in Hz.
      rewrite Hz, Z.testbit_0_l in Hb by done. done.
  - apply wp_ret. apply Hnext; [done| | |done].
    + pose proof (detach_log c w []) as H. by rewrite store_eta in H.
    + by eapply visited_skip.
Qed.

Lemma reg_frame w c i i' lg :
  reg w → chans w !! c = Some i → children i' = children i → callbacks i' = callbacks i →
  reg (Store (<[c := i']> (chans w)) lg).
Proof.
  intros Hreg Hi Hk Hc.
  assert (∀ x, cbs (Store (<[c := i']> (chans w)) lg) x = cbs w x) as Ecbs.
  { intros x. unfold cbs. cbn. destruct (decide (x = c)) as [->|]; [by rewrite lookup_insert_eq, Hi|by rewrite lookup_insert_ne]. }
  assert (∀ x, kids (Store (<[c := i']> (chans w)) lg) x = kids w x) as Ekids.
  { intros x. unfold kids. cbn. destruct (decide (x = c)) as [->|]; [by rewrite lookup_insert_eq, Hi|by rewrite lookup_insert_ne]. }
  destruct Hreg as [H0 H1 H2 H3]. split.
  - cbn. rewrite lookup_insert_ne; [done|]. intros ->. congruence.
  - intros x. by rewrite Ecbs.
  - intros x. by rewrite Ekids.
  - intros x p. unfold subscribed. rewrite Ecbs, Ekids. apply H3.
Qed.

(** The object as the Destroy notification finds it. *)
Definition destroy_start (c : Z) (i : internal) (w : store) : store :=
  Store (<[c := set_state_fields Destroy i]> (chans w))
        (dumped c (state_msg Destroy) (set_state_fields Destroy i) ++ EState c (i_state i) Destroy :: log w).

Lemma destroy_start_same c i w x : chans w !! c = Some i →
  cb (cbs (destroy_start c i w) x) = cb (cbs w x) ∧ kids (destroy_start c i w) x = kids w x.
Proof.
  intros Hi. unfold cbs, kids. cbn.
  destruct (decide (x = c)) as [->|]; [by rewrite lookup_insert_eq, Hi|by rewrite lookup_insert_ne].
Qed.

Lemma set_state_destroy c i w :
  reg w → chans w !! c = Some i → i_state i ≠ Destroy →
  wp (tll_channel_internal_set_state c Destroy) w (λ _ w', destroy_post c (destroy_start c i w) w' ∧
    ∃ i', chans w' !! c = Some i' ∧ i' = set_children (children i') (set_callbacks (callbacks i') (set_state_fields Destroy i))).
Proof.
  intros Hreg Hi Hs. set (i1 := set_state_fields Destroy i). set (w1 := destroy_start c i w).
  assert (reg w1) as Hreg1 by (by eapply reg_frame).
  assert (chans w1 !! c = Some i1) as Hi1 by (cbn; by rewrite lookup_insert_eq).
  unfold wp. rewrite (set_state_change _ _ i) by done. fold i1.
  assert (tll_channel_callback c (state_msg Destroy) (Store (<[c := i1]> (chans w)) (EState c (i_state i) Destroy :: log w)) =
    cb_loop (call c (state_msg Destroy)) (length (cb (callbacks i1))) 0 c STATE w1) as ->.
  { unfold tll_channel_callback, callback_with, mbind, M_bind, get, w1, destroy_start. cbn [m_type state_msg mk_msg chans].
    rewrite bool_decide_false by done. cbn [chans]. rewrite lookup_insert_eq.
    rewrite (bool_decide_true (STATE = STATE)) by done. cbn [mbind option_bind negb]. rewrite andb_false_r. cbn [andb].
    unfold dumped. fold i1. by destruct (dump i1 =? 0). }
  change (wp (cb_loop (call c (state_msg Destroy)) (length (cb (callbacks i1))) 0 c STATE) w1
    (λ _ w', destroy_post c w1 w' ∧ ∃ i', chans w' !! c = Some i' ∧ i' = set_children (children i') (set_callbacks (callbacks i') i1))).
  eapply wp_mono.
  - apply destroy_loop; [done|by exists i1|intros j q Hj; lia|]. unfold cbs. rewrite Hi1. lia.
  - intros ? w' Hd. cbv beta in Hd. split; [done|]. destruct Hd as (Hr' & Hdt & Hno). pose proof (dt_frame c w1 w' Hdt c) as Hf.
    rewrite Hi1 in Hf. destruct (chans w' !! c) as [i'|]; [|done]. by exists i'.
Qed.

Lemma detach_all c w w' : detach c w w' → (∀ p, c ∉ kids w' p) → ∀ p, kids w' p = without c (kids w p).
Proof.
  intros Hd Hno p. destruct (dt_list _ _ _ Hd p) as [E|E]; [|done]. rewrite <- E. symmetry. apply without_none, Hno.
Qed.

Lemma internal_eta i : set_children (children i) (set_callbacks (callbacks i) i) = i.
Proof. by destruct i. Qed.

Lemma set_children_callbacks l i : set_children l (set_callbacks (callbacks i) i) = set_children l i.
Proof. by destruct i. Qed.

Lemma detach_others c w w' x : detach c w w' → (∀ p, c ∉ kids w' p) → x ≠ c →
  chans w' !! x = (λ ix, set_children (without c (children ix)) ix) <$> chans w !! x.
Proof.
  intros Hd Hno Hx. pose proof (dt_frame _ _ _ Hd x) as Hf. pose proof (dt_cbs _ _ _ Hd x Hx) as Hc.
  pose proof (detach_all _ _ _ Hd Hno x) as Hk. unfold cbs in Hc. unfold kids in Hk.
  destruct (chans w !! x) as [ix|], (chans w' !! x) as [ix'|]; try done.
  change (Some ix' = Some (set_children (without c (children ix)) ix)).
  rewrite Hf, Hk, Hc. by rewrite set_children_callbacks.
Qed.

(** C27: destroying a channel (the state change made by free) ends without a
    fault and removes it from the child list of every parent, keeping the order
    of the other children; every other object of the store is otherwise left
    exactly as it was, its callbacks included; of the channel itself only the
    state, its text and counter change, besides the callbacks by which its
    parents followed it: the user callbacks and the data callbacks stay.  Every
    subscriber of its parents gets a Delete message, and the parent relation
    stays consistent: no list holds a pointer to an object that is about to be
    deleted. *)
Theorem destroy_detaches (c : Z) (i : internal) (w : store)
  (Hreg : reg w) (Hi : chans w !! c = Some i) (Hs : i_state i ≠ Destroy) :
  ∃ w' i', tll_channel_internal_set_state c Destroy w = Some (tt, w') ∧ reg w' ∧ (∀ p, c ∉ kids w' p) ∧
    (∀ x, x ≠ c → chans w' !! x = (λ ix, set_children (without c (children ix)) ix) <$> chans w !! x) ∧
    chans w' !! c = Some i' ∧
    i' = set_children (without c (children i)) (set_callbacks (callbacks i') (set_state_fields Destroy i)) ∧
    data_cb (callbacks i') = data_cb (callbacks i) ∧
    (∀ f u, mask_of (cb (callbacks i')) (User f, u) = mask_of (cb (callbacks i)) (User f, u)) ∧
    (∀ p f u, c ∈ kids w p → Z.testbit (mask_of (cb (cbs w p)) (User f, u)) (type_bit CHANNEL) = true →
       ECall f u p (mk_msg CHANNEL CHANNEL_DELETE [c] 8) ∈ log w').
Proof.
  pose proof (set_state_destroy c i w Hreg Hi Hs) as Hwp. unfold wp in Hwp.
  destruct (tll_channel_internal_set_state c Destroy w) as [[[] w']|]; [|done].
  destruct Hwp as ((Hr & Hd & Hno) & i' & Hi' & Ei'). exists w', i'.
  pose proof (detach_all _ _ _ Hd Hno c) as Hk. pose proof (dt_data _ _ _ Hd c) as Hdat. pose proof (dt_user _ _ _ Hd c) as Hu.
  destruct (destroy_start_same c i w c Hi) as [E1 E2]. rewrite E2 in Hk. rewrite E1 in Hu.
  unfold kids in Hk. unfold cbs in Hdat, Hu. rewrite Hi', Hi in Hk. rewrite Hi', Hi in Hu. rewrite Hi' in Hdat.
  cbn in Hdat. rewrite lookup_insert_eq in Hdat.
  split_and!; [done..| |done|by rewrite <- Hk|done|done|].
  - intros x Hx. rewrite (detach_others _ _ _ _ Hd Hno Hx). cbn. by rewrite lookup_insert_ne.
  - intros p f u Hc Hb. destruct (destroy_start_same c i w p Hi) as [E3 E4].
    apply (dt_told _ _ _ Hd); [by rewrite E4|done|by rewrite E3].
Qed.

(** ** Adding a child *)
Definition add_sub (p : Z) (i : internal) : internal :=
  set_callbacks (fst (Cb.tll_channel_callback_add (callbacks i) (Some StateCallback) p MASK_STATE)) i.

Definition add_link (tag : string) (c : Z) (i : internal) : internal :=
  if bool_decide (tag = "") then i else set_links (<[tag := c]> (config_links i)) i.

Definition add_chans (w : store) (p c : Z) (tag : string) (l : list Z) : gmap Z internal :=
  alter (add_link tag c) p (alter (add_sub p) c (alter (set_children l) p (chans w))).

Lemma add_sub_callbacks p i :
  callbacks (add_sub p i) =
  Lists (data_cb (callbacks i)) (callback_add (cb (callbacks i)) (Pair (Some StateCallback) p MASK_STATE)).
Proof. reflexivity. Qed.

Lemma add_link_frame tag c i : callbacks (add_link tag c i) = callbacks i ∧ children (add_link tag c i) = children i.
Proof. unfold add_link. by destruct (bool_decide (tag = "")). Qed.

Lemma add_chans_lookup w p c tag l x :
  add_chans w p c tag l !! x =
  (λ i, (if decide (x = p) then add_link tag c else id) ((if decide (x = c) then add_sub p else id)
        ((if decide (x = p) then set_children l else id) i))) <$> chans w !! x.
Proof.
  unfold add_chans. destruct (decide (x = p)) as [->|Hp]; destruct (decide (_ = c)) as [->|Hc];
    rewrite ?lookup_alter_eq, ?lookup_alter_ne by done; rewrite ?lookup_alter_eq, ?lookup_alter_ne by done;
    rewrite ?lookup_alter_eq, ?lookup_alter_ne by done; by destruct (chans w !! _).
Qed.

Lemma alter_id_link tag c p (m : gmap Z internal) : tag = "" → alter (add_link tag c) p m = m.
Proof.
  intros ->. apply map_eq. intros x. destruct (decide (x = p)) as [->|].
  - rewrite lookup_alter_eq. by destruct (m !! p).
  - by rewrite lookup_alter_ne.
Qed.

Lemma callback_add_wf_cbs w c p : reg w →
  Cb.wf (callback_add (cb (cbs w c)) (Pair (Some StateCallback) p MASK_STATE)) ∧
  ∀ k, mask_of (callback_add (cb (cbs w c)) (Pair (Some StateCallback) p MASK_STATE)) k =
       if bool_decide (k = (StateCallback, p)) then Z.lor (mask_of (cb (cbs w c)) k) MASK_STATE else mask_of (cb (cbs w c)) k.
Proof. intros Hreg. apply callback_add_spec, (reg_cbs w Hreg). Qed.

Lemma add_chans_cb w p c tag l lg x :
  exists_ w c → cb (cbs (Store (add_chans w p c tag l) lg) x) =
  if decide (x = c) then callback_add (cb (cbs w x)) (Pair (Some StateCallback) p MASK_STATE) else cb (cbs w x).
Proof.
  intros [ic Hic]. unfold cbs. cbn [chans]. rewrite add_chans_lookup.
  destruct (chans w !! x) as [i|] eqn:Ex; cbn [fmap option_fmap option_map].
  - destruct (decide (x = p)), (decide (x = c)); rewrite ?(proj1 (add_link_frame _ _ _)); done.
  - destruct (decide (x = c)); [congruence|done].
Qed.

Lemma add_chans_kids w p c tag l lg x :
  exists_ w p → kids (Store (add_chans w p c tag l) lg) x = if decide (x = p) then l else kids w x.
Proof.
  intros [ip Hip]. unfold kids. cbn [chans]. rewrite add_chans_lookup.
  destruct (chans w !! x) as [i|] eqn:Ex; cbn [fmap option_fmap option_map].
  - destruct (decide (x = p)), (decide (x = c)); rewrite ?(proj2 (add_link_frame _ _ _)); done.
  - destruct (decide (x = p)); [congruence|done].
Qed.

Lemma reg_add w p c tag lg :
  reg w → exists_ w p → exists_ w c → c ∉ kids w p → reg (Store (add_chans w p c tag (kids w p ++ [c])) lg).
Proof.
  intros Hreg Hp Hc Hni. split.
  - cbn [chans]. by rewrite add_chans_lookup, (reg_null w Hreg).
  - intros x. rewrite add_chans_cb by done. destruct (decide (x = c)) as [->|]; [by apply callback_add_wf_cbs|apply (reg_cbs w Hreg)].
  - intros x. rewrite add_chans_kids by done. destruct (decide (x = p)); [|apply (reg_kids w Hreg)].
    apply NoDup_app. split_and!; [apply (reg_kids w Hreg)|set_solver|apply NoDup_singleton].
  - intros x y. unfold subscribed. rewrite add_chans_cb, add_chans_kids by done.
    pose proof (reg_link w Hreg x y) as Hl. unfold subscribed in Hl.
    destruct (decide (x = c)) as [->|Hx].
    + rewrite (proj2 (callback_add_wf_cbs w c p Hreg)). destruct (decide (y = p)) as [->|Hy].
      * rewrite bool_decide_true, Z.lor_spec, orb_true_r by done. set_solver.
      * rewrite bool_decide_false by congruence. done.
    + rewrite Hl. destruct (decide (y = p)) as [->|]; set_solver.
Qed.

(** The run of [tll_channel_internal_child_add] on a channel that is not in the list. *)
Lemma child_add_eq p c tag ip w :
  reg w → chans w !! p = Some ip → exists_ w c → c ∉ children ip →
  ∃ lg0 lg ip1,
    let l := children ip ++ [c] in
    let w1 := Store (add_chans w p c "" l) (lg0 ++ log w) in
    tll_channel_internal_child_add p c tag w = Some (Ok tt, Store (add_chans w p c tag l) ((lg ++ lg0) ++ log w)) ∧
    reg w1 ∧ chans w1 !! p = Some ip1 ∧ delivered p (mk_msg CHANNEL CHANNEL_ADD [c] 8) ip1 lg.
Proof.
  intros Hreg Hp Hc Hin. assert (children ip = kids w p) as Ek by (unfold kids; by rewrite Hp).
  set (l := children ip ++ [c]). set (lg0 := if Z.land (caps ip) CAPS_PARENT =? 0 then [EWarnParent p c] else []).
  set (w0 := Store (alter (set_children l) p (chans w)) (lg0 ++ log w)).
  assert (exists_ w0 c) as [ic Hic].
  { destruct Hc as [i Hi]. unfold exists_, w0. cbn. destruct (decide (p = c)) as [->|];
      [rewrite lookup_alter_eq, Hi; by eexists|rewrite lookup_alter_ne by done; by exists i]. }
  set (w1 := Store (alter (add_sub p) c (chans w0)) (lg0 ++ log w)).
  assert (Store (add_chans w p c "" l) (lg0 ++ log w) = w1) as Ew1 by (unfold add_chans; by rewrite alter_id_link).
  assert (reg w1) as Hr1 by (rewrite <-Ew1; unfold l; rewrite Ek in *; apply reg_add; [done|by exists ip|done|done]).
  assert (exists_ w1 p) as [ip1 Hp1].
  { unfold exists_. rewrite <-Ew1. cbn [chans]. rewrite add_chans_lookup, Hp. by eexists. }
  destruct (callback_quiet p (mk_msg CHANNEL CHANNEL_ADD [c] 8) ip1 w1) as (lg & Ecall & Hd);
    [done|by apply (reg_ok w1 p)|done|done|].
  exists lg0, lg, ip1. cbv zeta. rewrite Ew1. split_and!; [|done..].
  unfold tll_channel_internal_child_add, mbind at 1, M_bind at 1, get. rewrite Hp. cbn [mbind option_bind].
  rewrite list_add_spec by (rewrite Ek; apply (reg_kids w Hreg)). rewrite bool_decide_false by done. fold l.
  unfold put. unfold mbind, M_bind. cbn [chans log]. rewrite (alter_insert_lookup _ _ ip (set_children l)) by done.
  assert ((if Z.land (caps ip) CAPS_PARENT =? 0 then emit (EWarnParent p c) else mret tt)
    (Store (alter (set_children l) p (chans w)) (log w)) = Some (tt, w0)) as ->.
  { unfold w0, lg0. by destruct (Z.land (caps ip) CAPS_PARENT =? 0). }
  unfold modify, mbind, M_bind, get, put. rewrite Hic. cbn [mbind option_bind].
  pose proof (alter_insert_lookup (chans w0) c ic (add_sub p) Hic) as Ea. unfold add_sub at 1 in Ea. rewrite Ea.
  change (Store (alter (add_sub p) c (chans w0)) (log w0)) with w1. rewrite Ecall.
  unfold add_chans. change (alter (set_children l) p (chans w)) with (chans w0).
  change (alter (add_sub p) c (chans w0)) with (chans w1).
  destruct (decide (tag = "")) as [->|Hne].
  - rewrite alter_id_link, bool_decide_true by done. unfold mret, M_ret. by rewrite <-app_assoc.
  - rewrite bool_decide_false by done. cbn [chans log]. rewrite Hp1. cbn [mbind option_bind].
    rewrite <-(alter_insert_lookup _ _ ip1 (add_link tag c)) by done.
    unfold add_link, mret, M_ret. rewrite bool_decide_false by done. by rewrite <-app_assoc.
Qed.

(** Adding a child to a channel: a channel that is already in the list is
    refused with EEXIST and nothing changes; otherwise it is appended, the
    parent is subscribed to its state (so that the parent relation stays
    consistent), the tag is linked and the subscribers of the parent get an
    Add message. *)
Theorem child_add_registers (p c : Z) (tag : string) (ip : internal) (w : store)
  (Hreg : reg w) (Hp : chans w !! p = Some ip) (Hc : exists_ w c) :
  if bool_decide (c ∈ children ip)
  then tll_channel_internal_child_add p c tag w = Some (Err EEXIST, w)
  else ∃ lg, let w' := Store (add_chans w p c tag (children ip ++ [c])) (lg ++ log w) in
    tll_channel_internal_child_add p c tag w = Some (Ok tt, w') ∧ reg w' ∧
    kids w' p = kids w p ++ [c] ∧ (∀ x, x ≠ p → kids w' x = kids w x) ∧
    (∀ f u, Z.testbit (mask_of (cb (callbacks ip)) (User f, u)) (type_bit CHANNEL) = true →
       ECall f u p (mk_msg CHANNEL CHANNEL_ADD [c] 8) ∈ lg).
Proof.
  assert (children ip = kids w p) as Ek by (unfold kids; by rewrite Hp). case_bool_decide as Hin.
  { unfold tll_channel_internal_child_add, mbind at 1, M_bind at 1, get. rewrite Hp. cbn [mbind option_bind].
    rewrite list_add_spec by (rewrite Ek; apply (reg_kids w Hreg)). by rewrite bool_decide_true. }
  destruct (child_add_eq p c tag ip w Hreg Hp Hc Hin) as (lg0 & lg & ip1 & E & Hr1 & Hp1 & Hd).
  exists (lg ++ lg0). cbv zeta. split_and!.
  - done.
  - rewrite Ek in *. apply reg_add; [done|by exists ip|done|done].
  - rewrite add_chans_kids by (by exists ip). rewrite decide_True by done. by rewrite Ek.
  - intros x Hx. rewrite add_chans_kids by (by exists ip). by rewrite decide_False.
  - intros f u Hb. apply elem_of_app. left. eapply delivered_user; [done|by eapply reg_ok| |exact Hd].
    replace (callbacks ip1) with (cbs (Store (add_chans w p c "" (children ip ++ [c])) (lg0 ++ log w)) p)
      by (unfold cbs; by rewrite Hp1).
    rewrite add_chans_cb by done. unfold cbs. rewrite Hp. destruct (decide (p = c)) as [<-|]; [|done].
    pose proof (callback_add_wf_cbs w p p Hreg) as [_ Hm]. unfold cbs in Hm. rewrite Hp in Hm.
    by rewrite Hm, bool_decide_false.
Qed.

Lemma reg_fresh w :
  (∀ c i, chans w !! c = Some i → c ≠ 0 ∧ children i = [] ∧ callbacks i = Lists [] []) → reg w.
Proof.
  intros H.
  assert (∀ c, cb (cbs w c) = [] ∧ kids w c = []) as Hn.
  { intros c. unfold cbs, kids. destruct (chans w !! c) as [i|] eqn:E; [|done]. by destruct (H c i E) as (_ & -> & ->). }
  split.
  - destruct (chans w !! 0) as [i|] eqn:E; [|done]. by destruct (H 0 i E).
  - intros c. rewrite (proj1 (Hn c)). apply wf_nil.
  - intros c. rewrite (proj2 (Hn c)). constructor.
  - intros c p. unfold subscribed. rewrite (proj1 (Hn c)), (proj2 (Hn p)). cbn. set_solver.
Qed.

(** Two fresh channels, and the same with 2 as a child of 1. *)
Definition two : store := Store (list_to_map [(1, tll_channel_internal_init_v1); (2, tll_channel_internal_init_v1)]) [].
Definition family : store := Store (add_chans two 1 2 "" [2]) [].

Lemma reg_two : reg two.
Proof.
  apply reg_fresh. intros c i H. unfold two in H. cbn in H.
  apply lookup_insert_Some in H as [[<- <-]|[_ H]]; [done|].
  by apply lookup_insert_Some in H as [[<- <-]|[_ H]].
Qed.

Lemma reg_family : reg family.
Proof.
  apply (reg_add two 1 2 "" []); [apply reg_two|by eexists|by eexists|].
  change (kids two 1) with (@nil Z). set_solver.
Qed.

Lemma child_add_registers_witness :
  exists_ two 2 ∧
  if bool_decide (2 ∈ children tll_channel_internal_init_v1)
  then tll_channel_internal_child_add 1 2 "child" two = Some (Err EEXIST, two)
  else ∃ lg, let w' := Store (add_chans two 1 2 "child" (children tll_channel_internal_init_v1 ++ [2])) (lg ++ log two) in
    tll_channel_internal_child_add 1 2 "child" two = Some (Ok tt, w') ∧ reg w' ∧
    kids w' 1 = kids two 1 ++ [2] ∧ (∀ x, x ≠ 1 → kids w' x = kids two x) ∧
    (∀ f u, Z.testbit (mask_of (cb (callbacks tll_channel_internal_init_v1)) (User f, u)) (type_bit CHANNEL) = true →
       ECall f u 1 (mk_msg CHANNEL CHANNEL_ADD [2] 8) ∈ lg).
Proof.
  split; [by eexists|]. apply child_add_registers; [apply reg_two|reflexivity|by eexists].
Defined.

Lemma destroy_detaches_witness :
  let i := add_sub 1 tll_channel_internal_init_v1 in
  2 ∈ kids family 1 ∧
  ∃ w' i', tll_channel_internal_set_state 2 Destroy family = Some (tt, w') ∧ reg w' ∧ (∀ p, 2 ∉ kids w' p) ∧
    (∀ x, x ≠ 2 → chans w' !! x = (λ ix, set_children (without 2 (children ix)) ix) <$> chans family !! x) ∧
    chans w' !! 2 = Some i' ∧
    i' = set_children (without 2 (children i)) (set_callbacks (callbacks i') (set_state_fields Destroy i)) ∧
    data_cb (callbacks i') = data_cb (callbacks i) ∧
    (∀ f u, mask_of (cb (callbacks i')) (User f, u) = mask_of (cb (callbacks i)) (User f, u)) ∧
    (∀ p f u, 2 ∈ kids family p → Z.testbit (mask_of (cb (cbs family p)) (User f, u)) (type_bit CHANNEL) = true →
       ECall f u p (mk_msg CHANNEL CHANNEL_DELETE [2] 8) ∈ log w').
Proof.
  split; [vm_compute; left|].
  apply (destroy_detaches 2 (add_sub 1 tll_channel_internal_init_v1)); [apply reg_family|reflexivity|discriminate].
Defined.

(** Changing the state of a channel: setting the current state does
    nothing; any other state but Destroy is stored in the object and in its
    config, the change counter is incremented modulo 2^32, the change is
    logged and then every (function, user) pair that asked for state messages
    is called exactly once with the new state, and nothing else changes. *)
Theorem set_state_notifies (c : Z) (s : state) (i : internal) (w : store)
  (Hi : chans w !! c = Some i) (Hok : ok_cbs i) (Hs : s ≠ Destroy) :
  if bool_decide (s = i_state i) then tll_channel_internal_set_state c s w = Some (tt, w)
  else ∃ ks, let i' := set_state_fields s i in
    tll_channel_internal_set_state c s w =
      Some (tt, Store (<[c := i']> (chans w))
                      (call_events c (state_msg s) ks ++ dumped c (state_msg s) i ++ EState c (i_state i) s :: log w)) ∧
    i_state i' = s ∧ config_state i' = tll_state_str s ∧ state_count i' = u32 (state_count i + 1) ∧
    NoDup ks ∧ ∀ k, k ∈ ks ↔ Z.testbit (mask_of (cb (callbacks i)) k) (type_bit STATE) = true.
Proof.
  case_bool_decide as E; [subst; by apply set_state_same|].
  destruct (set_state_spec c s i w Hi Hok E Hs) as (lg & Eq & Hd).
  unfold delivered, suppressed in Hd. cbn [m_type state_msg mk_msg] in Hd.
  rewrite (bool_decide_true (STATE = STATE)), andb_false_r in Hd by done.
  destruct Hd as (ks & Eks & Hn & ->). exists ks. cbv zeta. split_and!; [|done..|].
  - by rewrite Eq, <-app_assoc.
  - destruct (masked_calls_spec STATE _ Hok) as (ks' & Eks' & _ & _ & Hin).
    unfold calls in Eks. cbn [callbacks set_state_fields] in Eks. rewrite Eks' in Eks. by injection Eks as <-.
Qed.

Lemma set_state_notifies_witness :
  ∃ ks, let i' := set_state_fields Opening (add_sub 1 tll_channel_internal_init_v1) in
    tll_channel_internal_set_state 2 Opening family =
      Some (tt, Store (<[2 := i']> (chans family))
        (call_events 2 (state_msg Opening) ks ++ dumped 2 (state_msg Opening) (add_sub 1 tll_channel_internal_init_v1) ++
         EState 2 Closed Opening :: log family)) ∧
    i_state i' = Opening ∧ config_state i' = tll_state_str Opening ∧ state_count i' = u32 (0 + 1) ∧
    NoDup ks ∧ ∀ k, k ∈ ks ↔ Z.testbit (mask_of (cb (callbacks (add_sub 1 tll_channel_internal_init_v1))) k) (type_bit STATE) = true.
Proof.
  apply (set_state_notifies 2 Opening (add_sub 1 tll_channel_internal_init_v1) family);
    [reflexivity|by apply (reg_ok family 2); [apply reg_family|]|discriminate].
Defined.
End Chan.
