(* ===== verification/Base.v ===== *)
(** * The base class of channels and the channel API

    src/tll/channel/base.h ([tll::channel::Base]) and the functions of
    src/channel/context.cc that drive a channel: open, close, process, post,
    free.  The derived class is a parameter: its static policies and its hooks
    [_open], [_close], [_process], [_post] and [_free].  A hook sees the whole
    store (so its answer may depend on the history) and acts on its own channel
    through the protected interface of [Base]; it returns these actions and its
    return code.  Hooks that call other channels are outside of this model. *)
From S2P Require Import Prelude Callback Channel.
Import Cb Chan.

Module Base.

(** ** Policies of a derived class *)
Inductive ProcessPolicy := ProcessNormal | ProcessNever | ProcessAlways | ProcessCustom.
Inductive OpenPolicy := OpenAuto | OpenManual.
Inductive ClosePolicy := CloseNormal | CloseLong.
Inductive ChildPolicy := ChildNever | ChildProxy | ChildMany.
Inductive ReadWritePolicy := RWNormal | RWManual | RWReadOnly | RWWriteOnly.
Inductive SchemePolicy := SchemeNormal | SchemeManual.
Inductive PostPolicy := PostDisable | PostEnable.
Inductive ProcessFlagsPolicy := FlagsNormal | FlagsPollHint.

#[global] Instance OpenPolicy_eq_dec : EqDecision OpenPolicy. Proof. solve_decision. Defined.
#[global] Instance ClosePolicy_eq_dec : EqDecision ClosePolicy. Proof. solve_decision. Defined.
#[global] Instance SchemePolicy_eq_dec : EqDecision SchemePolicy. Proof. solve_decision. Defined.
#[global] Instance PostPolicy_eq_dec : EqDecision PostPolicy. Proof. solve_decision. Defined.

(** Return codes of the C interface; zero is success. *)
Definition EAGAIN : Z := 11.
Definition EINVAL : Z := 22.
Definition ENOSYS : Z := 38.

(** What a hook can do with its own channel. *)
Inductive action :=
| SetState (s : state)                (* state(s) *)
| UpdateDcaps (caps mask : Z)         (* _update_dcaps(caps, mask) *)
| UpdateFd (fd : Z)                   (* _update_fd(fd) *)
| Callback (m : msg)                  (* _callback(msg), _callback_data(msg) *)
| Finish.                             (* Base::_close(), the end of a long close *)

Definition params : Type := list (string * string).

(** A derived class. *)
Record klass := Klass {
  process_policy : ProcessPolicy;
  process_flags_policy : ProcessFlagsPolicy;
  open_policy : OpenPolicy;
  close_policy : ClosePolicy;
  child_policy : ChildPolicy;
  readwrite_policy : ReadWritePolicy;
  scheme_policy : SchemePolicy;
  post_opening_policy : PostPolicy;
  post_closing_policy : PostPolicy;
  scheme_url : option Z;
  h_open : params → store → list action * Z;
  h_close : bool → store → list action * Z;
  h_process : Z → store → list action * Z;
  h_post : msg → Z → store → list action * Z;
  h_free : store → list action;
}.

Section base.
(** The class of every channel, and the scheme loader of the context. *)
Variable cls : Z → klass.
Variable scheme_load : Z → option Z.

Definition current : M store := λ w, Some (w, w).

(** ** Protected interface *)
Definition state_set (c : Z) (s : state) : M unit := tll_channel_internal_set_state c s.

Definition _update_dcaps (c caps mask : Z) : M unit :=
  let caps := Z.land caps mask in
  i ← get c;
  let old := dcaps i in
  if Z.land old mask =? caps then mret tt else
  _ ← put c (set_dcaps (Z.lxor old (Z.lxor (Z.land old mask) caps)) i);
  tll_channel_callback c (mk_msg CHANNEL CHANNEL_UPDATE [old] 4).

Definition _dcaps_poll (c caps : Z) : M unit := _update_dcaps c caps DCAPS_POLLMASK.
Definition _dcaps_pending (c : Z) (pending : bool) : M unit :=
  _update_dcaps c (if pending then DCAPS_PENDING else 0) DCAPS_PENDING.

Definition _update_fd (c f : Z) : M Z :=
  i ← get c;
  if f =? fd i then mret f else
  _ ← put c (set_fd f i);
  _ ← tll_channel_callback c (mk_msg CHANNEL CHANNEL_UPDATE_FD [fd i] 4);
  mret (fd i).

Definition state_fail (c err : Z) : M Z := _ ← state_set c Error; mret err.

(** [_scheme_load] for the data or the control scheme. *)
Definition _scheme_load (c url : Z) (t : msg_type) : M Z :=
  match scheme_load url with
  | None => mret EINVAL
  | Some s =>
      match t with
      | DATA => _ ← modify c (λ i, set_base (BaseT (Some s) (scheme_control (base i)) (config_open (base i))) i); mret 0
      | CONTROL => _ ← modify c (λ i, set_base (BaseT (scheme (base i)) (Some s) (config_open (base i))) i); mret 0
      | _ => state_fail c EINVAL
      end
  end.

(** Close the children that are not closed; the list is read before. *)
Fixpoint close_children (close : Z → bool → M Z) (l : list Z) : M unit :=
  match l with
  | [] => mret tt
  | x :: l =>
      i ← get x;
      _ ← (if bool_decide (i_state i = Closed) then mret 0 else close x true);
      close_children close l
  end.

(** [Base::_close], over the function that closes a child. *)
Definition base__close (close : Z → bool → M Z) (c : Z) : M unit :=
  _ ← (if bool_decide (scheme_policy (cls c) = SchemeNormal)
       then modify c (λ i, set_base (BaseT None (scheme_control (base i)) (config_open (base i))) i) else mret tt);
  _ ← _update_dcaps c 0 (Z.lor (Z.lor DCAPS_PROCESS DCAPS_PENDING) DCAPS_POLLMASK);
  i ← get c;
  _ ← close_children close (children i);
  state_set c Closed.

Definition act (close : Z → bool → M Z) (c : Z) (a : action) : M unit :=
  match a with
  | SetState s => state_set c s
  | UpdateDcaps caps mask => _update_dcaps c caps mask
  | UpdateFd f => _ ← _update_fd c f; mret tt
  | Callback m => tll_channel_callback c m
  | Finish => base__close close c
  end.

Definition run_hook (close : Z → bool → M Z) (c : Z) (hook : store → list action * Z) : M Z :=
  w ← current;
  let '(l, r) := hook w in
  _ ← each (act close c) l;
  mret r.

(** ** Close *)
Definition base_close (close : Z → bool → M Z) (c : Z) (force : bool) : M Z :=
  _ ← state_set c Closing;
  r ← run_hook close c (h_close (cls c) (force && bool_decide (close_policy (cls c) = CloseLong)));
  i ← get c;
  if bool_decide (close_policy (cls c) = CloseLong) && negb force && negb (bool_decide (i_state i = Closed))
  then _ ← (if r =? 0 then mret tt else state_set c Error); mret r
  else _ ← base__close close c; mret 0.

(** [tll_channel_close]; the fuel bounds the depth of the channel tree. *)
Fixpoint tll_channel_close (fuel : nat) (c : Z) (force : bool) : M Z :=
  match fuel with
  | O => fault
  | S fuel =>
      i ← get c;
      match i_state i with
      | Closed | Destroy => mret 0
      | Closing => if force then base_close (tll_channel_close fuel) c force else mret 0
      | _ => base_close (tll_channel_close fuel) c force
      end
  end.

(** ** Open *)
Definition base_open (fuel : nat) (c : Z) (cfg : params) : M Z :=
  _ ← modify c (λ i, set_base (BaseT (scheme (base i)) (scheme_control (base i)) (Some cfg)) i);
  _ ← state_set c Opening;
  _ ← (match process_policy (cls c) with
       | ProcessNormal | ProcessAlways => _update_dcaps c DCAPS_PROCESS DCAPS_PROCESS
       | ProcessCustom | ProcessNever => mret tt
       end);
  r ← (match scheme_policy (cls c), scheme_url (cls c) with
       | SchemeNormal, Some url => _scheme_load c url DATA
       | _, _ => mret 0
       end);
  if negb (r =? 0) then state_fail c r else
  r ← run_hook (tll_channel_close fuel) c (h_open (cls c) cfg);
  _ ← (if negb (r =? 0) then state_set c Error
       else if bool_decide (open_policy (cls c) = OpenAuto) then state_set c Active
       else mret tt);
  mret r.

Definition tll_channel_open_cfg (fuel : nat) (c : Z) (cfg : option params) : M Z :=
  i ← get c;
  if negb (bool_decide (i_state i = Closed)) then mret EINVAL
  else base_open fuel c (default [] cfg).

(** ** Process and post *)
Definition PROCESS_HINT_MASK : Z := 0x7.

Definition base_process (fuel : nat) (c flags : Z) : M Z :=
  i ← get c;
  if bool_decide (i_state i = Error) || bool_decide (i_state i = Closed) then mret 0 else
  let flags := match process_flags_policy (cls c) with
               | FlagsPollHint => if Z.land flags PROCESS_HINT_MASK =? 0 then Z.lor flags PROCESS_HINT_MASK else flags
               | FlagsNormal => flags
               end in
  r ← run_hook (tll_channel_close fuel) c (h_process (cls c) flags);
  _ ← (if negb (r =? 0) && negb (r =? EAGAIN) then state_set c Error else mret tt);
  mret r.

Definition tll_channel_process (fuel : nat) (c flags : Z) : M Z :=
  i ← get c;
  if negb (tll_channel_dcap_need_process (dcaps i)) then mret EAGAIN
  else base_process fuel c flags.

Definition post_allowed (k : klass) (s : state) : bool :=
  match s with
  | Active => true
  | Opening => bool_decide (post_opening_policy k = PostEnable)
  | Closing => bool_decide (post_closing_policy k = PostEnable)
  | _ => false
  end.

Definition base_post (fuel : nat) (c : Z) (m : msg) (flags : Z) : M Z :=
  i ← get c;
  if post_allowed (cls c) (i_state i) then run_hook (tll_channel_close fuel) c (h_post (cls c) m flags)
  else mret EINVAL.

Definition count_post (m : msg) (i : internal) : internal :=
  match stat i with
  | Some s => set_stat (Some (Stat (rx s) (rxb s) (i64 (tx s + 1)) (i64 (txb s + m_size m)))) i
  | None => i
  end.

Definition tll_channel_post (fuel : nat) (c : Z) (m : msg) (flags : Z) : M Z :=
  i ← get c;
  _ ← (if negb (dump i =? 0) then emit (EDump c m) else mret tt);
  r ← base_post fuel c m flags;
  _ ← (if negb (r =? 0) then emit (EDump c m)
       else if bool_decide (m_type m = DATA) then modify c (count_post m) else mret tt);
  mret r.

(** ** Free *)

(** The part of the context a channel is registered in. *)
Record context := Context { channels : gmap string Z; stat_list : list Z }.

Definition base_free (fuel : nat) (c : Z) : M unit :=
  _ ← state_set c Destroy;
  w ← current;
  _ ← each (act (tll_channel_close fuel) c) (h_free (cls c) w);
  modify c (λ i, tll_channel_internal_clear (set_base (BaseT None None (config_open (base i))) (set_stat None i))).

Definition drop_chan (c : Z) : M unit := λ w, Some (tt, Store (delete c (chans w)) (log w)).

Definition tll_channel_free (fuel : nat) (ctx : context) (c : Z) : M context :=
  i ← get c;
  _ ← (if bool_decide (i_state i = Destroy) || bool_decide (i_state i = Closed) then mret 0 else tll_channel_close fuel c true);
  i ← get c;
  let stats := match stat i with Some _ => filter (λ x, x ≠ c) (stat_list ctx) | None => stat_list ctx end in
  let chs := if Z.land (caps i) CAPS_CUSTOM =? 0
             then (if bool_decide (channels ctx !! i_name i = Some c) then delete (i_name i) (channels ctx) else channels ctx)
             else channels ctx in
  _ ← base_free fuel c;
  _ ← drop_chan c;
  mret (Context chs stats).

(** ** Capabilities set by [Base::init] *)
Inductive rw_t := RwNone | RwR | RwW | RwRW.
Definition rw_num (d : rw_t) : Z := match d with RwNone => 0 | RwR => 1 | RwW => 2 | RwRW => 3 end.

Definition init_caps (k : klass) (dir : rw_t) (caps0 : Z) : Z :=
  let caps1 := match readwrite_policy k with
               | RWNormal =>
                   let c := if Z.land (rw_num dir) 1 =? 0 then caps0 else Z.lor caps0 CAPS_INPUT in
                   if Z.land (rw_num dir) 2 =? 0 then c else Z.lor c CAPS_OUTPUT
               | RWManual => caps0
               | RWReadOnly => Z.lor caps0 CAPS_INPUT
               | RWWriteOnly => Z.lor caps0 CAPS_OUTPUT
               end in
  let caps2 := match child_policy k with
               | ChildNever => caps1
               | ChildProxy => Z.lor caps1 (Z.lor CAPS_PARENT CAPS_PROXY)
               | ChildMany => Z.lor caps1 CAPS_PARENT
               end in
  if bool_decide (close_policy k = CloseLong) then Z.lor caps2 CAPS_LONG_CLOSE else caps2.

End base.

(** ** What a derived class promises

    [E] is the set of allowed state changes.  A hook sets states along [E],
    never Destroy, and emits no state message by itself. *)
Section conform.
Variable E : state → state → Prop.

Fixpoint path_ok (s : state) (l : list action) : Prop :=
  match l with
  | [] => True
  | SetState s' :: l => (s' ≠ Destroy ∧ (s = s' ∨ E s s')) ∧ path_ok s' l
  | Finish :: l => (s = Closed ∨ E s Closed) ∧ path_ok Closed l
  | Callback m :: l => m_type m ≠ STATE ∧ path_ok s l
  | _ :: l => path_ok s l
  end.

Fixpoint end_state (s : state) (l : list action) : state :=
  match l with
  | [] => s
  | SetState s' :: l => end_state s' l
  | Finish :: l => end_state Closed l
  | _ :: l => end_state s l
  end.

Class Conforms (k : klass) : Prop := {
  cf_open cfg w : let '(l, r) := h_open k cfg w in
    path_ok Opening l ∧ (r ≠ 0 → end_state Opening l = Error ∨ E (end_state Opening l) Error) ∧
    (r = 0 → open_policy k = OpenAuto → end_state Opening l = Active ∨ E (end_state Opening l) Active);
  cf_close force w : let '(l, r) := h_close k force w in
    path_ok Closing l ∧ (end_state Closing l = Closed ∨ E (end_state Closing l) Closed) ∧
    (r ≠ 0 → close_policy k = CloseLong → force = false →
     end_state Closing l = Closed ∨ end_state Closing l = Error ∨ E (end_state Closing l) Error);
  cf_process flags s w : s ≠ Error → s ≠ Closed → s ≠ Destroy → let '(l, r) := h_process k flags w in
    path_ok s l ∧ (r ≠ 0 → r ≠ EAGAIN → end_state s l = Error ∨ E (end_state s l) Error);
  cf_post m flags s w : post_allowed k s = true → path_ok s (fst (h_post k m flags w));
}.
End conform.

(** ** Predicates on stores *)
Definition st (w : store) (c : Z) : option state := i_state <$> chans w !! c.

Definition good (w : store) : Prop :=
  reg w ∧ ∀ c i, chans w !! c = Some i → i_state i ≠ Destroy ∧ Forall (λ q, p_cb q ≠ None) (data_cb (callbacks i)).

Definition same_links (i i' : internal) : Prop :=
  children i' = children i ∧ callbacks i' = callbacks i ∧ (i_state i ≠ Destroy → i_state i' ≠ Destroy) ∧
  caps i' = caps i ∧ i_name i' = i_name i.

Section lifecycle.
Variable cls : Z → klass.
Variable scheme_load : Z → option Z.
Variable E : state → state → Prop.
(** Depth of a channel in the tree of children. *)
Variable rk : Z → nat.

Definition ranked (w : store) : Prop := ∀ p x, x ∈ kids w p → (rk x < rk p)%nat.

Definition event_ok (e : event) : Prop := match e with EState _ o n => E o n | _ => True end.

(** An operation of channel [c] leads from [w] to [w']: links stay, closed
    channels stay closed, channels above are not touched, and all the state
    changes are allowed. *)
Record ext (c : Z) (w w' : store) : Prop := {
  ext_links x : match chans w !! x, chans w' !! x with
    | Some i, Some i' => same_links i i' | None, None => True | _, _ => False end;
  ext_closed x : x ≠ c → st w x = Some Closed → st w' x = Some Closed;
  ext_above x : x ≠ c → (rk c ≤ rk x)%nat → chans w' !! x = chans w !! x;
  ext_log : ∃ lg, log w' = lg ++ log w ∧ Forall event_ok lg;
}.

Lemma ext_refl c w : ext c w w.
Proof.
  split; try done; [|by exists []]. intros x. by destruct (chans w !! x).
Qed.

Lemma ext_trans c w1 w2 w3 : ext c w1 w2 → ext c w2 w3 → ext c w1 w3.
Proof.
  intros [Hl1 Hc1 Ha1 (g1 & Hg1 & Hf1)] [Hl2 Hc2 Ha2 (g2 & Hg2 & Hf2)]. split.
  - intros x. specialize (Hl1 x). specialize (Hl2 x).
    destruct (chans w1 !! x), (chans w2 !! x), (chans w3 !! x); try done.
    destruct Hl1 as (?&?&?&?&?), Hl2 as (?&?&?&?&?). split_and!; [congruence|congruence|auto|congruence|congruence].
  - auto.
  - intros x Hx Hr. by rewrite Ha2, Ha1.
  - exists (g2 ++ g1). split; [by rewrite Hg2, Hg1, app_assoc|]. by apply Forall_app.
Qed.

Lemma ext_child c x w w' : ext x w w' → st w x ≠ Some Closed → (rk x < rk c)%nat → ext c w w'.
Proof.
  intros [Hl Hc Ha Hg] Hx Hr. split; [done| | |done].
  - intros y _ Hy. apply Hc; [|done]. by intros ->.
  - intros y Hy Hry. apply Ha; [|lia]. intros ->. lia.
Qed.

Lemma ext_lookup c w w' x : ext c w w' → kids w' x = kids w x ∧ cbs w' x = cbs w x.
Proof.
  intros [Hl _ _ _]. specialize (Hl x). unfold kids, cbs.
  destruct (chans w !! x), (chans w' !! x); try done. by destruct Hl as (-> & -> & _).
Qed.

Lemma ext_exists c w w' x : ext c w w' → exists_ w x → exists_ w' x.
Proof. intros [Hl _ _ _] [i Hi]. specialize (Hl x). unfold exists_. rewrite Hi in Hl. destruct (chans w' !! x); [by eexists|done]. Qed.

Lemma ext_reg c w w' : ext c w w' → reg w → reg w'.
Proof.
  intros He [H0 H1 H2 H3]. split.
  - pose proof (ext_links c w w' He 0) as Hl. rewrite H0 in Hl. by destruct (chans w' !! 0).
  - intros x. by rewrite (proj2 (ext_lookup c w w' x He)).
  - intros x. by rewrite (proj1 (ext_lookup c w w' x He)).
  - intros x p. unfold subscribed. rewrite (proj2 (ext_lookup c w w' x He)), (proj1 (ext_lookup c w w' p He)). apply H3.
Qed.

Lemma ext_ranked c w w' : ext c w w' → ranked w → ranked w'.
Proof. intros He Hr p x. rewrite (proj1 (ext_lookup c w w' p He)). apply Hr. Qed.

Lemma ext_good c w w' : ext c w w' → good w → good w'.
Proof.
  intros He [Hr Hg]. split; [by eapply ext_reg|]. intros x i' Hi'.
  pose proof (ext_links c w w' He x) as Hl. rewrite Hi' in Hl. destruct (chans w !! x) as [i|] eqn:Ei; [|done].
  destruct (Hg x i Ei) as [Hd Hf]. destruct Hl as (_ & -> & Hl & _). auto.
Qed.

(** ** Primitive steps *)
Lemma ext_put c i i' w lg :
  chans w !! c = Some i → same_links i i' → Forall event_ok lg →
  ext c w (Store (<[c := i']> (chans w)) (lg ++ log w)).
Proof.
  intros Hi Hs Hlg. split; cbn.
  - intros x. destruct (decide (x = c)) as [->|]; [by rewrite Hi, lookup_insert_eq|].
    rewrite lookup_insert_ne by done. by destruct (chans w !! x).
  - intros x Hx. unfold st. cbn. by rewrite lookup_insert_ne.
  - intros x Hx _. by rewrite lookup_insert_ne.
  - by exists lg.
Qed.

Lemma ext_emit c w lg : Forall event_ok lg → ext c w (Store (chans w) (lg ++ log w)).
Proof. intros H. split; cbn; try done; [|by exists lg]. intros x. by destruct (chans w !! x). Qed.

Lemma calls_ok c m ks : Forall event_ok (call_events c m ks).
Proof.
  unfold call_events. apply Forall_rev. induction ks as [|[[f|] u] ks IH]; cbn; [done| |done]. by constructor.
Qed.

Lemma delivered_ok c m i lg : delivered c m i lg → Forall event_ok lg.
Proof.
  unfold delivered. destruct (suppressed m i); [by intros ->|]. intros (ks & _ & _ & ->).
  apply Forall_app. split; [apply calls_ok|]. unfold dumped. destruct (dump i =? 0); by repeat constructor.
Qed.

Lemma good_ok w c i : good w → chans w !! c = Some i → ok_cbs i.
Proof. intros [Hr _]. by apply reg_ok. Qed.

Lemma state_set_wp c s w i :
  good w → chans w !! c = Some i → s ≠ Destroy → i_state i = s ∨ E (i_state i) s →
  wp (state_set c s) w (λ _ w', ext c w w' ∧ ∃ i', chans w' !! c = Some i' ∧ i_state i' = s ∧ dcaps i' = dcaps i).
Proof.
  intros Hg Hi Hs HE. destruct (decide (s = i_state i)) as [->|Hne].
  - eapply wp_some; [by apply set_state_same|]. split; [apply ext_refl|by exists i].
  - destruct (set_state_spec c s i w) as (lg & Eq & Hd); [done|by eapply good_ok|done..|].
    eapply wp_some; [exact Eq|]. split.
    + replace (lg ++ EState c (i_state i) s :: log w) with ((lg ++ [EState c (i_state i) s]) ++ log w) by (by rewrite <-app_assoc).
      eapply ext_put; [done|done|]. apply Forall_app. split; [by eapply delivered_ok|].
      constructor; [|done]. cbn. naive_solver.
    + exists (set_state_fields s i). cbn. by rewrite lookup_insert_eq.
Qed.

Definition dcaps_merge (old caps mask : Z) : Z := Z.lxor old (Z.lxor (Z.land old mask) (Z.land caps mask)).

Lemma update_dcaps_wp c caps mask w i :
  good w → chans w !! c = Some i →
  wp (_update_dcaps c caps mask) w (λ _ w', ext c w w' ∧ chans w' !! c = Some (set_dcaps (dcaps_merge (dcaps i) caps mask) i)).
Proof.
  intros Hg Hi. unfold _update_dcaps. apply wp_bind, (wp_get _ i); [done|]. unfold dcaps_merge.
  destruct (Z.eqb_spec (Z.land (dcaps i) mask) (Z.land caps mask)) as [->|Hne].
  - apply wp_ret. split; [apply ext_refl|]. rewrite Z.lxor_nilpotent, Z.lxor_0_r. rewrite Hi. by destruct i.
  - apply wp_bind, wp_put. set (i' := set_dcaps _ i).
    destruct (callback_quiet c (mk_msg CHANNEL CHANNEL_UPDATE [dcaps i] 4) i'
                (Store (<[c := i']> (chans w)) (log w))) as (lg & Eq & Hd); [by cbn; rewrite lookup_insert_eq|exact (good_ok w c i Hg Hi)|done|done|].
    eapply wp_some; [exact Eq|]. cbn [chans log]. split; [|by rewrite lookup_insert_eq].
    eapply ext_put; [done|done|by eapply delivered_ok].
Qed.

Lemma update_fd_wp c f w i :
  good w → chans w !! c = Some i →
  wp (_update_fd c f) w (λ r w', ext c w w' ∧ r = fd i ∧ chans w' !! c = Some (set_fd f i)).
Proof.
  intros Hg Hi. unfold _update_fd. apply wp_bind, (wp_get _ i); [done|].
  destruct (Z.eqb_spec f (fd i)) as [->|Hne].
  - apply wp_ret. split_and!; [apply ext_refl|done|]. rewrite Hi. by destruct i.
  - apply wp_bind, wp_put, wp_bind. set (i' := set_fd f i).
    destruct (callback_quiet c (mk_msg CHANNEL CHANNEL_UPDATE_FD [fd i] 4) i'
                (Store (<[c := i']> (chans w)) (log w))) as (lg & Eq & Hd); [by cbn; rewrite lookup_insert_eq|exact (good_ok w c i Hg Hi)|done|done|].
    eapply wp_some; [exact Eq|]. cbn [chans log]. apply wp_ret. cbn [chans log]. split_and!; [|done|by cbn; rewrite lookup_insert_eq].
    eapply ext_put; [done|done|by eapply delivered_ok].
Qed.

Lemma callback_data_wp c m w i :
  good w → chans w !! c = Some i →
  wp (tll_channel_callback_data c m) w (λ _ w', ext c w w' ∧ ∃ i', chans w' !! c = Some i' ∧ i_state i' = i_state i ∧ dcaps i' = dcaps i).
Proof.
  intros [Hr Hg] Hi. destruct (Hg c i Hi) as [_ Hf]. unfold tll_channel_callback_data.
  apply wp_bind, (wp_get _ i); [done|]. case_bool_decide; [apply wp_ret; split; [apply ext_refl|by exists i]|].
  apply wp_bind. set (lg := if dump i =? 0 then [] else [EDump c m]).
  eapply (wp_some _ _ tt (Store (chans w) (lg ++ log w))); [unfold lg; by destruct (dump i =? 0), w|].
  assert (Forall event_ok lg) as Hlg by (unfold lg; destruct (dump i =? 0); by repeat constructor).
  rewrite data_calls_spec, bool_decide_true by done.
  apply wp_bind. destruct (stat i) as [sv|].
  - apply wp_put. eapply wp_some; [apply each_flat|]. cbn [chans log]. rewrite app_assoc. split.
    + eapply ext_put; [done|done|]. apply Forall_app. split; [apply calls_ok|done].
    + eexists. rewrite lookup_insert_eq. done.
  - apply wp_ret. eapply wp_some; [apply each_flat|]. cbn [chans log]. rewrite app_assoc. split; [|by exists i].
    apply ext_emit. apply Forall_app. split; [apply calls_ok|done].
Qed.

Lemma callback_wp c m w i :
  good w → chans w !! c = Some i → m_type m ≠ STATE →
  wp (tll_channel_callback c m) w (λ _ w', ext c w w' ∧ ∃ i', chans w' !! c = Some i' ∧ i_state i' = i_state i ∧ dcaps i' = dcaps i).
Proof.
  intros Hg Hi Ht. destruct (decide (m_type m = DATA)) as [Ed|Ed].
  - unfold tll_channel_callback, callback_with. rewrite bool_decide_true by done. by apply callback_data_wp.
  - destruct (callback_quiet c m i w) as (lg & Eq & Hd); [done|by eapply good_ok|done| |].
    { unfold is_destroy. by rewrite bool_decide_false. }
    eapply wp_some; [exact Eq|]. split; [apply ext_emit; by eapply delivered_ok|by exists i].
Qed.

(** ** Closing *)
Definition close_mask : Z := Z.lor (Z.lor DCAPS_PROCESS DCAPS_PENDING) DCAPS_POLLMASK.

(** A function that closes the channels of rank less than [n]. *)
Definition closes (close : Z → bool → M Z) (n : nat) : Prop := ∀ x w,
  good w → ranked w → exists_ w x → (rk x < n)%nat → st w x ≠ Some Closed →
  wp (close x true) w (λ r w', ext x w w' ∧ st w' x = Some Closed).

Lemma close_children_wp close c l : ∀ w,
  closes close (rk c) → good w → ranked w → Forall (λ x, exists_ w x ∧ (rk x < rk c)%nat) l →
  wp (close_children close l) w (λ _ w', ext c w w' ∧ chans w' !! c = chans w !! c ∧ Forall (λ x, st w' x = Some Closed) l).
Proof.
  induction l as [|x l IH]; intros w Hcl Hg Hr Hl; cbn [close_children].
  { apply wp_ret. split_and!; [apply ext_refl|done|done]. }
  apply Forall_cons in Hl as [[[i Hi] Hx] Hl]. apply wp_bind, (wp_get _ i); [done|]. apply wp_bind.
  assert (x ≠ c) as Hxc by (intros ->; lia).
  assert (∀ w', ext c w w' → chans w' !! c = chans w !! c → st w' x = Some Closed →
    wp (close_children close l) w' (λ _ w'', ext c w w'' ∧ chans w'' !! c = chans w !! c ∧
      Forall (λ x, st w'' x = Some Closed) (x :: l))) as Hnext.
  { intros w' He Hc Hst. eapply wp_mono.
    - apply IH; [done|by eapply ext_good|by eapply ext_ranked|].
      eapply Forall_impl; [exact Hl|]. cbn. intros y [? ?]. split; [by eapply ext_exists|done].
    - intros _ w'' (He' & Hc' & Hf). split_and!; [by eapply ext_trans|congruence|].
      constructor; [|done]. by eapply ext_closed. }
  case_bool_decide as Hcl0.
  - apply wp_ret, Hnext; [apply ext_refl|done|]. unfold st. rewrite Hi. cbn. congruence.
  - assert (st w x ≠ Some Closed) as Hns by (unfold st; rewrite Hi; cbn; congruence).
    eapply wp_mono; [apply Hcl; [done|done|by exists i|done|done]|].
    intros _ w' [He Hst]. apply Hnext; [by eapply ext_child| |done]. eapply ext_above; [done|done|lia].
Qed.

Lemma base__close_wp close c w i :
  closes close (rk c) → good w → ranked w → chans w !! c = Some i → i_state i = Closed ∨ E (i_state i) Closed →
  wp (base__close cls close c) w (λ _ w', ext c w w' ∧ (∃ i', chans w' !! c = Some i' ∧ i_state i' = Closed ∧
      dcaps i' = dcaps_merge (dcaps i) 0 close_mask) ∧ Forall (λ x, st w' x = Some Closed) (children i)).
Proof.
  intros Hcl Hg Hr Hi HE. unfold base__close. apply wp_bind.
  set (i0 := if bool_decide (scheme_policy (cls c) = SchemeNormal)
             then set_base (BaseT None (scheme_control (base i)) (config_open (base i))) i else i).
  set (w0 := Store (<[c := i0]> (chans w)) (log w)).
  assert (ext c w w0) as He0 by (apply (ext_put c i i0 w []); [done|unfold i0; by case_bool_decide|done]).
  assert (chans w0 !! c = Some i0) as Hi0 by (cbn; by rewrite lookup_insert_eq).
  assert (i_state i0 = i_state i ∧ dcaps i0 = dcaps i ∧ children i0 = children i) as (Es & Ed & Ek)
    by (unfold i0; by case_bool_decide).
  assert (∀ Q : unit → store → Prop, Q tt w0 →
    wp (if bool_decide (scheme_policy (cls c) = SchemeNormal)
        then modify c (λ i, set_base (BaseT None (scheme_control (base i)) (config_open (base i))) i) else mret tt) w Q) as H0.
  { intros Q HQ. unfold w0, i0 in HQ. case_bool_decide; [by eapply wp_modify|].
    apply wp_ret. by rewrite insert_id, store_eta in HQ. }
  apply H0. clear H0. apply wp_bind. eapply wp_mono; [apply update_dcaps_wp; [by eapply ext_good|done]|].
  intros _ w1 [He1 Hi1]. rewrite Ed in Hi1. set (i1 := set_dcaps _ i0) in *.
  apply wp_bind, (wp_get _ i1); [done|]. apply wp_bind.
  assert (ext c w w1) as He by (by eapply ext_trans). assert (ranked w1) as Hr1 by (by eapply ext_ranked).
  eapply wp_mono.
  { apply (close_children_wp close c); [done|by eapply ext_good|done|]. apply Forall_forall. intros x Hx.
    assert (x ∈ kids w1 c) as Hk by (unfold kids; by rewrite Hi1). split; [|by apply Hr1].
    destruct (ext_good c w w1 He Hg) as [Hreg1 _]. by apply (reg_child w1 c x). }
  intros _ w2 (He2 & Hc2 & Hf2). eapply wp_mono.
  { eapply (state_set_wp c Closed w2 i1); [|congruence|done|cbn; by rewrite Es].
    eapply ext_good; [exact He2|]. by eapply ext_good. }
  intros _ w3 (He3 & i3 & Hi3 & Hs3 & Hd3). split_and!.
  - eapply ext_trans; [exact He|]. by eapply ext_trans.
  - by exists i3.
  - cbn in Hf2. rewrite Ek in Hf2. eapply Forall_impl; [exact Hf2|]. cbn. intros x Hx.
    destruct (decide (x = c)) as [->|]; [unfold st; by rewrite Hi3; cbn; f_equal|by eapply ext_closed].
Qed.

(** ** Hooks *)
Lemma act_wp close c a w i :
  closes close (rk c) → good w → ranked w → chans w !! c = Some i → path_ok E (i_state i) [a] →
  wp (act cls close c a) w (λ _ w', ext c w w' ∧ st w' c = Some (end_state (i_state i) [a])).
Proof.
  intros Hcl Hg Hr Hi Hp. destruct a as [s|caps mask|f|m|]; cbn in Hp |- *.
  - destruct Hp as [[Hs HE] _]. eapply wp_mono; [by eapply state_set_wp|].
    intros _ w' (He & i' & Hi' & Hs' & _). split; [done|]. unfold st. rewrite Hi'. by f_equal/=.
  - eapply wp_mono; [by eapply update_dcaps_wp|]. intros _ w' [He Hi']. split; [done|]. unfold st. by rewrite Hi'.
  - apply wp_bind. eapply wp_mono; [by eapply update_fd_wp|]. intros r w' (He & _ & Hi').
    apply wp_ret. split; [done|]. unfold st. by rewrite Hi'.
  - destruct Hp as [Ht _]. eapply wp_mono; [by eapply callback_wp|].
    intros _ w' (He & i' & Hi' & Hs' & _). split; [done|]. unfold st. rewrite Hi'. cbn. by rewrite Hs'.
  - destruct Hp as [HE _]. eapply wp_mono; [by eapply base__close_wp|].
    intros _ w' (He & (i' & Hi' & Hs' & _) & _). split; [done|]. unfold st. rewrite Hi'. cbn. by rewrite Hs'.
Qed.

Lemma st_Some w c s : st w c = Some s → ∃ i, chans w !! c = Some i ∧ i_state i = s.
Proof. unfold st. destruct (chans w !! c) as [i|]; [|done]. intros [= <-]. by exists i. Qed.

Lemma path_ok_cons a l s : path_ok E s (a :: l) → path_ok E s [a] ∧ path_ok E (end_state s [a]) l.
Proof. destruct a; cbn; tauto. Qed.

Lemma end_state_cons a l s : end_state s (a :: l) = end_state (end_state s [a]) l.
Proof. by destruct a. Qed.

Lemma acts_wp close c l : ∀ w s,
  closes close (rk c) → good w → ranked w → st w c = Some s → path_ok E s l →
  wp (each (act cls close c) l) w (λ _ w', ext c w w' ∧ st w' c = Some (end_state s l)).
Proof.
  induction l as [|a l IH]; intros w s Hcl Hg Hr Hs Hp; cbn [each].
  { apply wp_ret. split; [apply ext_refl|done]. }
  apply path_ok_cons in Hp as [Ha Hl]. apply st_Some in Hs as (i & Hi & <-). apply wp_bind.
  eapply wp_mono; [by apply (act_wp close c a w i)|]. intros _ w' [He Hs'].
  eapply wp_mono; [apply IH; [done|by eapply ext_good|by eapply ext_ranked|exact Hs'|done]|].
  intros _ w'' [He' Hs'']. split; [by eapply ext_trans|]. by rewrite end_state_cons.
Qed.

Lemma run_hook_wp close c hook w s :
  closes close (rk c) → good w → ranked w → st w c = Some s → path_ok E s (fst (hook w)) →
  wp (run_hook cls close c hook) w (λ r w', ext c w w' ∧ st w' c = Some (end_state s (fst (hook w))) ∧ r = snd (hook w)).
Proof.
  intros Hcl Hg Hr Hs Hp. unfold run_hook. apply wp_bind. unfold current. cbn. destruct (hook w) as [l r] eqn:Eh.
  apply wp_bind. eapply wp_mono; [by eapply acts_wp|]. intros _ w' [He Hs']. by apply wp_ret.
Qed.

(** ** The operations of a channel whose class conforms *)
Context (Hcls : ∀ c, Conforms E (cls c)).
Context (HE_open : E Closed Opening) (HE_fail : E Opening Error).
Context (HE_closing : ∀ s, s = Opening ∨ s = Active ∨ s = Error → E s Closing).

(** State of [c] after a forced close. *)
Definition closed_all (c : Z) (i : internal) (w' : store) : Prop :=
  (∃ i', chans w' !! c = Some i' ∧ i_state i' = Closed ∧ Z.land (dcaps i') close_mask = 0) ∧
  Forall (λ x, st w' x = Some Closed) (children i).

Lemma dcaps_merge_clear d : Z.land (dcaps_merge d 0 close_mask) close_mask = 0.
Proof.
  unfold dcaps_merge. apply Z.bits_inj. intros n. rewrite Z.land_0_l, Z.lxor_0_r.
  rewrite Z.land_spec, Z.lxor_spec, Z.land_spec, Z.testbit_0_l.
  destruct (Z.testbit d n), (Z.testbit close_mask n); done.
Qed.

Lemma base_close_wp close c force w i :
  closes close (rk c) → good w → ranked w → chans w !! c = Some i → i_state i ≠ Closed →
  wp (base_close cls close c force) w
     (λ r w', ext c w w' ∧ (force = true ∨ close_policy (cls c) = CloseNormal → r = 0 ∧ closed_all c i w')).
Proof.
  intros Hcl Hg Hr Hi Hnc. unfold base_close. apply wp_bind. eapply wp_mono.
  { eapply state_set_wp; [done|done|done|]. destruct Hg as [_ Hg]. destruct (Hg c i Hi) as [Hnd _].
    destruct (i_state i); try done; [right; auto|right; auto|by left|right; auto]. }
  intros _ w1 (He1 & i1 & Hi1 & Hs1 & _). apply wp_bind.
  set (f := force && bool_decide (close_policy (cls c) = CloseLong)).
  assert (good w1) as Hg1 by (by eapply ext_good). assert (ranked w1) as Hr1 by (by eapply ext_ranked).
  pose proof (cf_close E (k := cls c) f w1) as Hcf. destruct (h_close (cls c) f w1) as [l r] eqn:Eh.
  destruct Hcf as (Hp & Hend & Herr). eapply wp_mono.
  { apply (run_hook_wp close c _ w1 Closing); [done..| |]; [unfold st; by rewrite Hi1; cbn; f_equal|by rewrite Eh]. }
  rewrite Eh. cbn [fst snd]. intros r' w2 (He2 & Hs2 & ->). apply st_Some in Hs2 as (i2 & Hi2 & Hs2).
  assert (ext c w w2) as He by (by eapply ext_trans).
  assert (children i2 = children i) as Ek.
  { destruct (ext_lookup c w w2 c He) as [Ek _]. unfold kids in Ek. by rewrite Hi2, Hi in Ek. }
  apply wp_bind, (wp_get _ i2); [done|].
  destruct (bool_decide (close_policy (cls c) = CloseLong) && negb force && negb (bool_decide (i_state i2 = Closed))) eqn:Eb.
  - apply andb_true_iff in Eb as [[Hlong%bool_decide_eq_true Hforce%negb_true_iff]%andb_true_iff Hncl%negb_true_iff].
    apply bool_decide_eq_false in Hncl. apply wp_bind. destruct (Z.eqb_spec r 0) as [->|Hr0].
    + apply wp_ret, wp_ret. split; [done|]. intros [?|?]; congruence.
    + eapply wp_mono.
      { eapply (state_set_wp c Error w2 i2); [by eapply ext_good|done|done|]. rewrite Hs2.
        destruct Herr as [?|[?|?]]; [done|done|unfold f; by rewrite Hforce|congruence|by left|by right]. }
      intros _ w3 (He3 & _). apply wp_ret. split; [by eapply ext_trans|]. intros [?|?]; congruence.
  - apply wp_bind. eapply wp_mono.
    { apply (base__close_wp close c w2 i2); [done|by eapply ext_good|by eapply ext_ranked|done|]. by rewrite Hs2. }
    intros _ w3 (He3 & (i3 & Hi3 & Hs3 & Hd3) & Hf). apply wp_ret. split; [by eapply ext_trans|]. intros _. split; [done|].
    rewrite Ek in Hf. split; [|done]. exists i3. split_and!; [done..|]. rewrite Hd3. apply dcaps_merge_clear.
Qed.

Lemma close_wp fuel : ∀ c force w i,
  good w → ranked w → chans w !! c = Some i → (rk c < fuel)%nat →
  wp (tll_channel_close cls fuel c force) w
     (λ r w', ext c w w' ∧ (i_state i = Closed → r = 0 ∧ w' = w) ∧
        (i_state i ≠ Closed → force = true → r = 0 ∧ closed_all c i w')).
Proof.
  induction fuel as [|fuel IH]; intros c force w i Hg Hr Hi Hf; [lia|]. cbn [tll_channel_close].
  apply wp_bind, (wp_get _ i); [done|].
  assert (closes (tll_channel_close cls fuel) (rk c)) as Hcl.
  { intros x w' Hg' Hr' [ix Hix] Hx Hns. eapply wp_mono; [apply (IH x true w' ix); [done..|lia]|].
    intros r w'' (He & _ & Hc). split; [done|]. destruct Hc as [_ [(i' & Hi' & Hs' & _) _]]; [|done|].
    - intros Hs. apply Hns. unfold st. by rewrite Hix; cbn; f_equal.
    - unfold st. by rewrite Hi'; cbn; f_equal. }
  assert (i_state i ≠ Closed → wp (base_close cls (tll_channel_close cls fuel) c force) w
     (λ r w', ext c w w' ∧ (i_state i = Closed → r = 0 ∧ w' = w) ∧
        (i_state i ≠ Closed → force = true → r = 0 ∧ closed_all c i w'))) as Hbc.
  { intros Hn. eapply wp_mono; [by apply base_close_wp|]. intros r w' [He Hc]. split_and!; [done|done|]. intros _ Hfo. apply Hc. by left. }
  destruct Hg as [Hreg Hg]. destruct (Hg c i Hi) as [Hnd _].
  destruct (i_state i) eqn:Es; try (by apply Hbc); [|destruct force; [by apply Hbc|]|done];
    apply wp_ret; split_and!; try done; apply ext_refl.
Qed.

Lemma closes_fuel fuel c : (rk c ≤ fuel)%nat → closes (tll_channel_close cls fuel) (rk c).
Proof.
  intros Hf x w Hg Hr [i Hi] Hx Hns. eapply wp_mono; [apply (close_wp fuel x true w i); [done..|lia]|].
  intros r w' (He & _ & Hc). split; [done|]. destruct Hc as [_ [(i' & Hi' & Hs' & _) _]]; [|done|].
  - intros Hs. apply Hns. unfold st. by rewrite Hi; cbn; f_equal.
  - unfold st. by rewrite Hi'; cbn; f_equal.
Qed.

Lemma open_wp fuel c cfg w i :
  good w → ranked w → chans w !! c = Some i → (rk c ≤ fuel)%nat →
  wp (tll_channel_open_cfg cls scheme_load fuel c cfg) w
     (λ r w', ext c w w' ∧ (i_state i ≠ Closed → r = EINVAL ∧ w' = w) ∧
        (i_state i = Closed → r ≠ 0 → st w' c = Some Error) ∧
        (i_state i = Closed → r = 0 → open_policy (cls c) = OpenAuto → st w' c = Some Active)).
Proof.
  intros Hg Hr Hi Hf. unfold tll_channel_open_cfg. apply wp_bind, (wp_get _ i); [done|].
  case_bool_decide as Hc; cbn [negb]; [|apply wp_ret; split_and!; [apply ext_refl|done|done|done]].
  unfold base_open. apply wp_bind. eapply wp_modify; [done|]. set (i0 := set_base _ i).
  set (w0 := Store (<[c := i0]> (chans w)) (log w)).
  assert (ext c w w0) as He0 by (by apply (ext_put c i i0 w [])).
  assert (chans w0 !! c = Some i0) as Hi0 by (cbn; by rewrite lookup_insert_eq).
  apply wp_bind. eapply wp_mono.
  { apply (state_set_wp c Opening w0 i0); [by eapply ext_good|done|done|]. right. cbn. by rewrite Hc. }
  intros _ w1 (He1 & i1 & Hi1 & Hs1 & _). assert (ext c w w1) as He01 by (by eapply ext_trans).
  apply wp_bind.
  assert (wp (match process_policy (cls c) with
       | ProcessNormal | ProcessAlways => _update_dcaps c DCAPS_PROCESS DCAPS_PROCESS
       | ProcessCustom | ProcessNever => mret tt end) w1
     (λ _ w', ext c w w' ∧ st w' c = Some Opening)) as Hdc.
  { assert (st w1 c = Some Opening) as Hst1 by (unfold st; by rewrite Hi1; cbn; f_equal).
    destruct (process_policy (cls c)); try (by apply wp_ret);
      (eapply wp_mono; [apply update_dcaps_wp; [by eapply ext_good|done]|];
       intros _ w' [He Hi']; split; [by eapply ext_trans|]; unfold st; rewrite Hi'; cbn; by f_equal). }
  eapply wp_mono; [exact Hdc|]. clear Hdc. intros _ w2 [He2 Hs2]. apply wp_bind.
  assert (wp (match scheme_policy (cls c), scheme_url (cls c) with
       | SchemeNormal, Some url => _scheme_load scheme_load c url DATA | _, _ => mret 0 end) w2
     (λ _ w', ext c w w' ∧ st w' c = Some Opening)) as Hsl.
  { destruct (scheme_policy (cls c)), (scheme_url (cls c)) as [url|]; try (by apply wp_ret).
    unfold _scheme_load. destruct (scheme_load url) as [sc|]; [|by apply wp_ret].
    apply st_Some in Hs2 as (i2 & Hi2 & Hs2). apply wp_bind. eapply wp_modify; [done|]. apply wp_ret. split.
    - eapply ext_trans; [exact He2|]. by apply (ext_put c i2 _ w2 []).
    - unfold st. cbn. rewrite lookup_insert_eq. cbn. by f_equal. }
  eapply wp_mono; [exact Hsl|]. clear Hsl. intros r1 w3 [He3 Hs3].
  assert (good w3) as Hg3 by (by eapply ext_good). apply st_Some in Hs3 as Hi3. destruct Hi3 as (i3 & Hi3 & Hsi3).
  destruct (Z.eqb_spec r1 0) as [->|Hr1]; cbn [negb].
  - apply wp_bind. pose proof (cf_open E (k := cls c) (default [] cfg) w3) as Hcf.
    destruct (h_open (cls c) (default [] cfg) w3) as [l r] eqn:Eh. destruct Hcf as (Hp & Herr & Hok).
    eapply wp_mono.
    { apply (run_hook_wp (tll_channel_close cls fuel) c _ w3 Opening);
        [by apply closes_fuel|done|by eapply ext_ranked|done|by rewrite Eh]. }
    rewrite Eh. cbn [fst snd]. intros r' w4 (He4 & Hs4 & ->). apply st_Some in Hs4 as (i4 & Hi4 & Hs4).
    assert (good w4) as Hg4 by (by eapply ext_good). assert (ext c w w4) as He by (by eapply ext_trans).
    apply wp_bind. destruct (Z.eqb_spec r 0) as [->|Hr0]; cbn [negb].
    + case_bool_decide as Ha.
      * eapply wp_mono; [apply (state_set_wp c Active w4 i4); [done..|rewrite Hs4; by apply Hok]|].
        intros _ w5 (He5 & i5 & Hi5 & Hs5 & _). apply wp_ret. split_and!; [by eapply ext_trans|done|done|].
        intros _ _ _. unfold st. rewrite Hi5. cbn. by f_equal.
      * apply wp_ret, wp_ret. split_and!; done.
    + eapply wp_mono; [apply (state_set_wp c Error w4 i4); [done..|rewrite Hs4; by apply Herr]|].
      intros _ w5 (He5 & i5 & Hi5 & Hs5 & _). apply wp_ret. split_and!; [by eapply ext_trans|done| |done].
      intros _ _. unfold st. rewrite Hi5. cbn. by f_equal.
  - unfold state_fail. apply wp_bind. eapply wp_mono.
    { apply (state_set_wp c Error w3 i3); [done..|]. right. by rewrite Hsi3. }
    intros _ w5 (He5 & i5 & Hi5 & Hs5 & _). apply wp_ret. split_and!; [by eapply ext_trans|done| |done].
    intros _ _. unfold st. rewrite Hi5. cbn. by f_equal.
Qed.

Lemma process_wp fuel c flags w i :
  good w → ranked w → chans w !! c = Some i → (rk c ≤ fuel)%nat →
  wp (tll_channel_process cls fuel c flags) w (λ _ w', ext c w w').
Proof.
  intros Hg Hr Hi Hf. unfold tll_channel_process. apply wp_bind, (wp_get _ i); [done|].
  destruct (tll_channel_dcap_need_process (dcaps i)); cbn [negb]; [|apply wp_ret, ext_refl].
  unfold base_process. apply wp_bind, (wp_get _ i); [done|].
  destruct (bool_decide (i_state i = Error) || bool_decide (i_state i = Closed)) eqn:Eb; [apply wp_ret, ext_refl|].
  apply orb_false_iff in Eb as [He%bool_decide_eq_false Hc%bool_decide_eq_false].
  cbv zeta. set (fl := match process_flags_policy (cls c) with FlagsNormal => _ | FlagsPollHint => _ end).
  pose proof (proj2 Hg c i Hi) as [Hd _]. pose proof (cf_process E (k := cls c) fl (i_state i) w He Hc Hd) as Hcf.
  destruct (h_process (cls c) fl w) as [l r] eqn:Eh. destruct Hcf as [Hp Herr]. apply wp_bind. eapply wp_mono.
  { apply (run_hook_wp (tll_channel_close cls fuel) c _ w (i_state i));
      [by apply closes_fuel|done|done|unfold st; by rewrite Hi|by rewrite Eh]. }
  rewrite Eh. cbn [fst snd]. intros r' w1 (He1 & Hs1 & ->). apply st_Some in Hs1 as (i1 & Hi1 & Hs1). apply wp_bind.
  destruct (Z.eqb_spec r 0) as [E0|H0], (Z.eqb_spec r EAGAIN) as [E1|H1]; cbn [negb andb]; try (by apply wp_ret, wp_ret).
  eapply wp_mono; [apply (state_set_wp c Error w1 i1); [by eapply ext_good|done|done|rewrite Hs1; by apply Herr]|].
  intros _ w2 [He2 _]. apply wp_ret. by eapply ext_trans.
Qed.

Lemma post_wp fuel c m flags w i :
  good w → ranked w → chans w !! c = Some i → (rk c ≤ fuel)%nat →
  wp (tll_channel_post cls fuel c m flags) w (λ r w', ext c w w' ∧ (post_allowed (cls c) (i_state i) = false → r = EINVAL ∧ chans w' = chans w)).
Proof.
  intros Hg Hr Hi Hf. unfold tll_channel_post. apply wp_bind, (wp_get _ i); [done|]. apply wp_bind.
  set (lg := if dump i =? 0 then [] else [EDump c m]).
  assert (Forall event_ok lg) as Hlg by (unfold lg; destruct (dump i =? 0); by repeat constructor).
  eapply (wp_some _ _ tt (Store (chans w) (lg ++ log w))); [unfold lg; by destruct (dump i =? 0), w|].
  set (w0 := Store (chans w) (lg ++ log w)). assert (ext c w w0) as He0 by (by apply ext_emit).
  apply wp_bind. unfold base_post. apply wp_bind, (wp_get _ i); [done|].
  destruct (post_allowed (cls c) (i_state i)) eqn:Ea.
  - eapply wp_mono.
    { apply (run_hook_wp (tll_channel_close cls fuel) c _ w0 (i_state i));
        [by apply closes_fuel|by eapply ext_good|by eapply ext_ranked|unfold st; cbn; by rewrite Hi|by apply cf_post]. }
    intros r w1 (He1 & Hs1 & _). assert (ext c w w1) as He by (by eapply ext_trans).
    apply st_Some in Hs1 as (i1 & Hi1 & _). apply wp_bind. destruct (negb (r =? 0)).
    + apply wp_emit, wp_ret. split; [|done]. eapply ext_trans; [exact He|]. apply (ext_emit c w1 [_]). by repeat constructor.
    + case_bool_decide; [|by apply wp_ret, wp_ret]. eapply wp_modify; [done|]. apply wp_ret. split; [|done].
      eapply ext_trans; [exact He|]. apply (ext_put c i1 _ w1 []); [done| |done]. unfold count_post. by destruct (stat i1).
  - apply wp_ret, wp_bind. cbn. split; [|done]. eapply ext_trans; [exact He0|]. apply (ext_emit c w0 [_]). by repeat constructor.
Qed.

(** ** Sequences of calls *)
Inductive api :=
| Open (c : Z) (cfg : option params) | Close (c : Z) (force : bool) | Process (c flags : Z) | Post (c : Z) (m : msg) (flags : Z).

Definition api_chan (a : api) : Z :=
  match a with Open c _ | Close c _ | Process c _ | Post c _ _ => c end.

Definition api_run (fuel : nat) (a : api) : M Z :=
  match a with
  | Open c cfg => tll_channel_open_cfg cls scheme_load fuel c cfg
  | Close c force => tll_channel_close cls fuel c force
  | Process c flags => tll_channel_process cls fuel c flags
  | Post c m flags => tll_channel_post cls fuel c m flags
  end.

Definition api_runs (fuel : nat) (l : list api) : M unit := each (λ a, _ ← api_run fuel a; mret tt) l.

Lemma api_run_wp fuel a w :
  good w → ranked w → exists_ w (api_chan a) → (rk (api_chan a) < fuel)%nat →
  wp (api_run fuel a) w (λ _ w', ext (api_chan a) w w').
Proof.
  intros Hg Hr [i Hi] Hf. destruct a as [c cfg|c force|c flags|c m flags]; cbn [api_run api_chan] in *.
  - eapply wp_mono; [apply (open_wp fuel c cfg w i); [done..|lia]|]. by intros r w' [? _].
  - eapply wp_mono; [by apply (close_wp fuel c force w i)|]. by intros r w' [? _].
  - apply (process_wp fuel c flags w i); [done..|lia].
  - eapply wp_mono; [apply (post_wp fuel c m flags w i); [done..|lia]|]. by intros r w' [? _].
Qed.

Lemma api_runs_wp fuel l : ∀ w,
  good w → ranked w → Forall (λ a, exists_ w (api_chan a) ∧ (rk (api_chan a) < fuel)%nat) l →
  wp (api_runs fuel l) w (λ _ w', good w' ∧ ∃ lg, log w' = lg ++ log w ∧ Forall event_ok lg).
Proof.
  induction l as [|a l IH]; intros w Hg Hr Hl; unfold api_runs; cbn [each].
  { apply wp_ret. split; [done|by exists []]. }
  apply Forall_cons in Hl as [[Ha Hf] Hl]. apply wp_bind, wp_bind.
  eapply wp_mono; [by apply api_run_wp|]. intros r w1 He. cbv beta in He. apply wp_ret. eapply wp_mono.
  { apply IH; [by eapply ext_good|by eapply ext_ranked|]. eapply Forall_impl; [exact Hl|]. cbn.
    intros b [? ?]. split; [by eapply ext_exists|done]. }
  intros _ w2 [Hg2 (lg & Hlg & Hok)]. split; [done|]. destruct (ext_log _ _ _ He) as (lg1 & Hlg1 & Hok1).
  exists (lg ++ lg1). split; [by rewrite Hlg, Hlg1, app_assoc|]. by apply Forall_app.
Qed.
End lifecycle.

(** ** State changes of a channel *)

(** The changes the comments of channel.h list. *)
Definition documented (o n : state) : bool :=
  match o, n with
  | Closed, (Opening | Destroy) => true
  | Opening, (Active | Error) => true
  | Active, (Closing | Error) => true
  | Closing, (Closed | Error) => true
  | Error, Closed => true
  | _, _ => false
  end.

(** The changes the code makes: close also starts in Opening and in Error. *)
Definition lifecycle (o n : state) : bool :=
  documented o n || match o, n with (Opening | Error), Closing => true | _, _ => false end.

(** A small class whose hooks do nothing, and an active parent with a child. *)
Definition plain : klass :=
  Klass ProcessNormal FlagsNormal OpenAuto CloseNormal ChildMany RWNormal SchemeNormal PostDisable PostDisable None
    (λ _ _, ([], 0)) (λ _ _, ([], 0)) (λ _ _, ([], EAGAIN)) (λ _ _ _, ([], 0)) (λ _, []).

#[global] Instance plain_conforms (E : state → state → Prop) : E Opening Active → E Closing Closed → Conforms E plain.
Proof. intros H1 H2. split; cbn; auto. all: intros; split_and!; auto; done. Qed.

Definition active_family : store := Store (set_state_fields Active <$> chans family) [].

Lemma reg_fmap f w lg :
  (∀ i, children (f i) = children i ∧ callbacks (f i) = callbacks i) → reg w → reg (Store (f <$> chans w) lg).
Proof.
  intros Hf [H0 H1 H2 H3].
  assert (∀ x, cbs (Store (f <$> chans w) lg) x = cbs w x ∧ kids (Store (f <$> chans w) lg) x = kids w x) as Hs.
  { intros x. unfold cbs, kids. cbn. rewrite lookup_fmap. destruct (chans w !! x) as [i|]; [|done]. cbn. by destruct (Hf i). }
  split.
  - cbn. by rewrite lookup_fmap, H0.
  - intros x. by rewrite (proj1 (Hs x)).
  - intros x. by rewrite (proj2 (Hs x)).
  - intros x p. unfold subscribed. rewrite (proj1 (Hs x)), (proj2 (Hs p)). apply H3.
Qed.

Lemma two_lookup c i : chans two !! c = Some i → (c = 1 ∨ c = 2) ∧ i = tll_channel_internal_init_v1.
Proof.
  unfold two. cbn [chans list_to_map foldr uncurry fst snd]. intros H.
  apply lookup_insert_Some in H as [[<- <-]|[_ H]]; [auto|].
  apply lookup_insert_Some in H as [[<- <-]|[_ H]]; [auto|done].
Qed.

Lemma family_lookup c i : chans family !! c = Some i → i_state i = Closed ∧ data_cb (callbacks i) = [].
Proof.
  unfold family. cbn [chans]. rewrite add_chans_lookup.
  destruct (chans two !! c) as [i0|] eqn:E; [|done]. apply two_lookup in E as [[->| ->] ->]; by intros [= <-].
Qed.

Lemma good_family : good family.
Proof. split; [apply reg_family|]. intros c i Hi. apply family_lookup in Hi as [-> ->]. split; [done|constructor]. Qed.

Lemma good_active_family : good active_family.
Proof.
  split; [by apply reg_fmap, reg_family|]. intros c i'. unfold active_family. cbn [chans]. rewrite lookup_fmap.
  destruct (chans family !! c) as [i|] eqn:E; [|done]. intros [= <-]. cbn.
  apply family_lookup in E as [_ ->]. split; [done|constructor].
Qed.

Definition family_rank (c : Z) : nat := if c =? 1 then 1%nat else 0%nat.

Lemma active_family_kids p : kids active_family p = if p =? 1 then [2] else [].
Proof.
  destruct (Z.eqb_spec p 1) as [->|Hp]; [done|]. unfold kids, active_family. cbn [chans]. rewrite lookup_fmap.
  unfold family. cbn [chans]. rewrite add_chans_lookup.
  destruct (chans two !! p) as [i0|] eqn:E; [|done]. by apply two_lookup in E as [[?| ->] ->].
Qed.

Lemma ranked_active_family : ranked family_rank active_family.
Proof. intros p x. rewrite active_family_kids. unfold family_rank. destruct (Z.eqb_spec p 1) as [->|]; [|set_solver]. intros ->%list_elem_of_singleton. cbn. lia. Qed.

(** C8: a forced close always works: for a tree of channels with classes that
    promise no more than not to fake Destroy, with any policy and whatever the
    hooks do to the state, tll_channel_close(c, force=1) of a channel that is
    not closed returns 0 and leaves the channel Closed, without the process,
    pending and poll capabilities, and all of its children Closed; channels
    that were closed stay so, channels above are not touched.  The fuel needed
    is the depth of the tree. *)
Theorem forced_close (cls : Z → klass) (rk : Z → nat) (fuel : nat) (c : Z) (i : internal) (w : store)
  (Hcls : ∀ x, Conforms (λ _ _, True) (cls x)) (Hg : good w) (Hr : ranked rk w)
  (Hi : chans w !! c = Some i) (Hs : i_state i ≠ Closed) (Hf : (rk c < fuel)%nat) :
  ∃ w', tll_channel_close cls fuel c true w = Some (0, w') ∧ good w' ∧
    (∃ i', chans w' !! c = Some i' ∧ i_state i' = Closed ∧
           Z.land (dcaps i') (Z.lor (Z.lor DCAPS_PROCESS DCAPS_PENDING) DCAPS_POLLMASK) = 0) ∧
    Forall (λ x, st w' x = Some Closed) (children i) ∧
    (∀ x, x ≠ c → st w x = Some Closed → st w' x = Some Closed) ∧
    (∀ x, x ≠ c → (rk c ≤ rk x)%nat → chans w' !! x = chans w !! x).
Proof.
  pose proof (close_wp cls (λ _, None) (λ _ _, True) rk Hcls (λ _ _, I) fuel c true w i Hg Hr Hi Hf) as H. unfold wp in H.
  destruct (tll_channel_close cls fuel c true w) as [[r w']|]; [|done]. destruct H as (He & _ & Hc).
  destruct (Hc Hs eq_refl) as [-> [Hcl Hk]]. exists w'. split_and!; [done|by eapply ext_good|done|done| |].
  - intros x. by eapply ext_closed.
  - intros x. by eapply ext_above.
Qed.

Lemma forced_close_witness :
  ∃ w', tll_channel_close (λ _, plain) 2 1 true active_family = Some (0, w') ∧ good w' ∧
    (∃ i', chans w' !! 1 = Some i' ∧ i_state i' = Closed ∧
           Z.land (dcaps i') (Z.lor (Z.lor DCAPS_PROCESS DCAPS_PENDING) DCAPS_POLLMASK) = 0) ∧
    Forall (λ x, st w' x = Some Closed) [2] ∧
    (∀ x, x ≠ 1 → st active_family x = Some Closed → st w' x = Some Closed) ∧
    (∀ x, x ≠ 1 → (family_rank 1 ≤ family_rank x)%nat → chans w' !! x = chans active_family !! x).
Proof.
  apply (forced_close (λ _, plain) family_rank 2 1 (set_state_fields Active (set_children [2] tll_channel_internal_init_v1)));
    [intros x; by apply plain_conforms|apply good_active_family|apply ranked_active_family|reflexivity|discriminate|cbn; lia].
Defined.

(** C19: the life cycle of channels: whatever sequence of open, close, process
    and post calls is made on the channels of a tree whose classes move their
    state only along the life cycle, the calls all return, and every state
    change that is made (by the base class or by a hook, in a channel or in a
    child closed with it) is one of: Closed to Opening, Opening to Active,
    Error or Closing, Active to Closing or Error, Closing to Closed or Error,
    Error to Closed or Closing. *)
Theorem lifecycle_conforms (cls : Z → klass) (scheme_load : Z → option Z) (rk : Z → nat) (fuel : nat) (l : list api) (w : store)
  (Hcls : ∀ x, Conforms lifecycle (cls x)) (Hg : good w) (Hr : ranked rk w)
  (Hl : Forall (λ a, exists_ w (api_chan a) ∧ (rk (api_chan a) < fuel)%nat) l) :
  ∃ w' lg, api_runs cls scheme_load fuel l w = Some (tt, w') ∧ good w' ∧ log w' = lg ++ log w ∧
    ∀ c o n, EState c o n ∈ lg → lifecycle o n = true.
Proof.
  assert (∀ s, s = Opening ∨ s = Active ∨ s = Error → lifecycle s Closing) as Hcl by (by intros s [->|[->| ->]]).
  pose proof (api_runs_wp cls scheme_load lifecycle rk Hcls I I Hcl fuel l w Hg Hr Hl) as H. unfold wp in H.
  destruct (api_runs cls scheme_load fuel l w) as [[[] w']|]; [|done]. destruct H as (Hg' & lg & Hlg & Hok).
  exists w', lg. split_and!; [done..|]. intros c o n Hin. rewrite Forall_forall in Hok. specialize (Hok _ Hin). cbn in Hok.
  by apply Is_true_true in Hok.
Qed.

Lemma lifecycle_conforms_witness :
  ∃ w' lg, api_runs (λ _, plain) (λ _, None) 2
      [Close 1 false; Open 1 None; Open 2 None; Process 1 0; Post 1 (mk_msg DATA 10 [1] 1) 0; Close 1 true] active_family
      = Some (tt, w') ∧ good w' ∧ log w' = lg ++ log active_family ∧
    ∀ c o n, EState c o n ∈ lg → lifecycle o n = true.
Proof.
  apply (lifecycle_conforms _ _ family_rank); [intros x; by apply plain_conforms|apply good_active_family|apply ranked_active_family|].
  repeat (constructor; [split; [by eexists|cbn; lia]|]). constructor.
Defined.

(** Closing a failed channel goes through Closing, a change that the
    comments of channel.h (Error changes to Closed) do not list. *)
Theorem close_failed_undocumented :
  let w := Store {[1 := set_state_fields Error tll_channel_internal_init_v1]} [] in
  ∃ w', tll_channel_close (λ _, plain) 1 1 false w = Some (0, w') ∧
    log w' = [EState 1 Closing Closed; EState 1 Error Closing] ∧ documented Error Closing = false.
Proof. eexists. split; [reflexivity|]. by split. Qed.

(** Open: it is refused with EINVAL, without any effect, unless the channel
    is Closed; on a Closed channel it returns whatever the hook and the scheme
    loader do: with an error the channel is left in Error, and with 0 a channel
    of the automatic policy is left Active. *)
Theorem open_outcome (cls : Z → klass) (scheme_load : Z → option Z) (rk : Z → nat) (fuel : nat) (c : Z)
  (cfg : option params) (i : internal) (w : store)
  (Hcls : ∀ x, Conforms (λ _ _, True) (cls x)) (Hg : good w) (Hr : ranked rk w)
  (Hi : chans w !! c = Some i) (Hf : (rk c ≤ fuel)%nat) :
  ∃ r w', tll_channel_open_cfg cls scheme_load fuel c cfg w = Some (r, w') ∧ good w' ∧
    (i_state i ≠ Closed → r = EINVAL ∧ w' = w) ∧
    (i_state i = Closed → r ≠ 0 → st w' c = Some Error) ∧
    (i_state i = Closed → r = 0 → open_policy (cls c) = OpenAuto → st w' c = Some Active).
Proof.
  pose proof (open_wp cls scheme_load (λ _ _, True) rk Hcls I I (λ _ _, I) fuel c cfg w i Hg Hr Hi Hf) as H. unfold wp in H.
  destruct (tll_channel_open_cfg cls scheme_load fuel c cfg w) as [[r w']|]; [|done]. destruct H as (He & H).
  exists r, w'. split; [done|]. split; [by eapply ext_good|done].
Qed.

Lemma open_outcome_witness :
  ∃ r w', tll_channel_open_cfg (λ _, plain) (λ _, None) 1 2 None active_family = Some (r, w') ∧ good w' ∧
    (Active ≠ Closed → r = EINVAL ∧ w' = active_family) ∧
    (Active = Closed → r ≠ 0 → st w' 2 = Some Error) ∧
    (Active = Closed → r = 0 → open_policy plain = OpenAuto → st w' 2 = Some Active).
Proof.
  apply (open_outcome (λ _, plain) (λ _, None) family_rank 1 2 None (set_state_fields Active (add_sub 1 tll_channel_internal_init_v1)));
    [intros x; by apply plain_conforms|apply good_active_family|apply ranked_active_family|reflexivity|cbn; lia].
Defined.

(** Dynamic capabilities: after _update_dcaps(caps, mask) every bit inside
    the mask is the bit of caps and every bit outside of it is unchanged; when
    that is no change nothing is sent, and otherwise the subscribers of
    channel messages get one Update with the old value. *)
Theorem update_dcaps_bits (c caps mask : Z) (i : internal) (w : store) (Hok : ok_cbs i) (Hi : chans w !! c = Some i) :
  ∃ d lg, _update_dcaps c caps mask w = Some (tt, Store (<[c := set_dcaps d i]> (chans w)) (lg ++ log w)) ∧
    (∀ n, Z.testbit d n = if Z.testbit mask n then Z.testbit caps n else Z.testbit (dcaps i) n) ∧
    (if d =? dcaps i then lg = [] else delivered c (mk_msg CHANNEL CHANNEL_UPDATE [dcaps i] 4) (set_dcaps d i) lg).
Proof.
  set (d := dcaps_merge (dcaps i) caps mask).
  assert (∀ n, Z.testbit d n = if Z.testbit mask n then Z.testbit caps n else Z.testbit (dcaps i) n) as Hd.
  { intros n. unfold d, dcaps_merge. rewrite !Z.lxor_spec, !Z.land_spec.
    by destruct (Z.testbit (dcaps i) n), (Z.testbit mask n), (Z.testbit caps n). }
  unfold _update_dcaps, mbind, M_bind, get, put. rewrite Hi. cbn [mbind option_bind].
  destruct (Z.eqb_spec (Z.land (dcaps i) mask) (Z.land caps mask)) as [E|E].
  - exists (dcaps i), []. split_and!.
    + cbn. rewrite insert_id; [by rewrite store_eta|]. rewrite Hi. by destruct i.
    + intros n. apply (f_equal (λ z, Z.testbit z n)) in E. rewrite !Z.land_spec in E.
      destruct (Z.testbit mask n); [|done]. by rewrite !andb_true_r in E.
    + by rewrite Z.eqb_refl.
  - destruct (callback_quiet c (mk_msg CHANNEL CHANNEL_UPDATE [dcaps i] 4) (set_dcaps d i)
      (Store (<[c := set_dcaps d i]> (chans w)) (log w))) as (lg & Eq & Hdl); [by cbn; rewrite lookup_insert_eq|done..|].
    exists d, lg. split_and!; [exact Eq|done|]. destruct (Z.eqb_spec d (dcaps i)) as [E2|]; [|done].
    exfalso. apply E, Z.bits_inj. intros n. rewrite !Z.land_spec. specialize (Hd n). rewrite E2 in Hd.
    destruct (Z.testbit mask n); [by rewrite Hd|by rewrite !andb_false_r].
Qed.

Lemma update_dcaps_bits_witness :
  ∃ d lg, _update_dcaps 1 DCAPS_POLLIN DCAPS_POLLMASK two =
      Some (tt, Store (<[1 := set_dcaps d tll_channel_internal_init_v1]> (chans two)) (lg ++ log two)) ∧
    (∀ n, Z.testbit d n = if Z.testbit DCAPS_POLLMASK n then Z.testbit DCAPS_POLLIN n else Z.testbit 0 n) ∧
    (if d =? 0 then lg = [] else delivered 1 (mk_msg CHANNEL CHANNEL_UPDATE [0] 4) (set_dcaps d tll_channel_internal_init_v1) lg).
Proof.
  apply (update_dcaps_bits 1 DCAPS_POLLIN DCAPS_POLLMASK tll_channel_internal_init_v1 two); [apply wf_nil|reflexivity].
Defined.

(** Guards of post and process: a message posted in a state the class does
    not allow (only Active, and Opening or Closing when enabled) is refused
    with EINVAL and changes no object; process is not run (EAGAIN, nothing
    changes) without the Process capability or while suspended, and does
    nothing in Error and Closed.  The hook is called in no such case. *)
Theorem post_process_guards (cls : Z → klass) (fuel : nat) (c : Z) (i : internal) (w : store) (Hi : chans w !! c = Some i) :
  (∀ m flags, post_allowed (cls c) (i_state i) = false →
     ∃ lg, tll_channel_post cls fuel c m flags w = Some (EINVAL, Store (chans w) (lg ++ log w)) ∧ ∀ e, e ∈ lg → e = EDump c m) ∧
  (∀ flags, Z.testbit (dcaps i) 4 = false ∨ Z.testbit (dcaps i) 6 = true →
     tll_channel_process cls fuel c flags w = Some (EAGAIN, w)) ∧
  (∀ flags, i_state i = Error ∨ i_state i = Closed → Z.testbit (dcaps i) 4 = true → Z.testbit (dcaps i) 6 = false →
     tll_channel_process cls fuel c flags w = Some (0, w)).
Proof.
  split_and!.
  - intros m flags Hp. exists ([EDump c m] ++ if dump i =? 0 then [] else [EDump c m]). split.
    + unfold tll_channel_post, base_post, mbind, M_bind, get. rewrite Hi. cbn [mbind option_bind].
      destruct (dump i =? 0); cbn; rewrite Hi; cbn; by rewrite Hp.
    + intros e. destruct (dump i =? 0); set_solver.
  - intros flags H. unfold tll_channel_process, mbind, M_bind, get. rewrite Hi. cbn [mbind option_bind].
    rewrite need_process_bits. destruct H as [-> | ->]; [done|]. by rewrite andb_false_r.
  - intros flags H H4 H6. unfold tll_channel_process, mbind, M_bind, get. rewrite Hi. cbn [mbind option_bind].
    rewrite need_process_bits, H4, H6. cbn. unfold base_process, mbind, M_bind, get. rewrite Hi. cbn.
    by destruct H as [-> | ->].
Qed.

Lemma post_process_guards_witness :
  (∀ m flags, post_allowed plain Closed = false →
     ∃ lg, tll_channel_post (λ _, plain) 1 1 m flags two = Some (EINVAL, Store (chans two) (lg ++ log two)) ∧ ∀ e, e ∈ lg → e = EDump 1 m) ∧
  (∀ flags, Z.testbit 0 4 = false ∨ Z.testbit 0 6 = true → tll_channel_process (λ _, plain) 1 1 flags two = Some (EAGAIN, two)) ∧
  (∀ flags, Closed = Error ∨ Closed = Closed → Z.testbit 0 4 = true → Z.testbit 0 6 = false →
     tll_channel_process (λ _, plain) 1 1 flags two = Some (0, two)).
Proof. apply (post_process_guards (λ _, plain) 1 1 tll_channel_internal_init_v1 two). reflexivity. Defined.

(** ** Free *)
Lemma free_wp cls fuel c w i :
  reg w → chans w !! c = Some i → i_state i ≠ Destroy → children i = [] → (∀ w, h_free (cls c) w = []) →
  wp (_ ← base_free cls fuel c; drop_chan c) w (λ _ w', reg w' ∧ chans w' !! c = None ∧ (∀ p, c ∉ kids w' p) ∧
    ∀ p x, x ≠ c → p ≠ c → x ∈ kids w' p ↔ x ∈ kids w p).
Proof.
  intros Hreg Hi Hs Hk Hfree. apply wp_bind, wp_bind. eapply wp_mono; [by apply set_state_destroy|].
  intros ? w1 ((Hr1 & Hd1 & Hno1) & i1 & Hi1 & _). apply wp_bind. eapply (wp_some _ _ w1 w1); [done|].
  apply wp_bind. rewrite Hfree. apply wp_ret. eapply wp_modify; [done|].
  assert (kids w1 c = []) as Hk1.
  { apply elem_of_nil_inv. intros x Hx. destruct (decide (x = c)) as [->|Hne]; [by apply (Hno1 c)|].
    apply (dt_kids _ _ _ Hd1) in Hx; [|done]. rewrite (proj2 (destroy_start_same c i w c Hi)) in Hx.
    unfold kids in Hx. rewrite Hi, Hk in Hx. set_solver. }
  set (w2 := Store _ _). unfold drop_chan. cbn.
  assert (∀ x, x ≠ c → delete c (chans w2) !! x = chans w1 !! x) as Hx
    by (intros x Hx; cbn; by rewrite lookup_delete_ne, lookup_insert_ne).
  assert (delete c (chans w2) !! c = None) as Hc by (cbn; by rewrite lookup_delete_eq).
  assert (∀ x, x ≠ c → cbs (Store (delete c (chans w2)) (log w2)) x = cbs w1 x ∧
                       kids (Store (delete c (chans w2)) (log w2)) x = kids w1 x) as Hsame
    by (intros x Hxc; unfold cbs, kids; cbn [chans]; by rewrite Hx).
  assert (cbs (Store (delete c (chans w2)) (log w2)) c = Lists [] [] ∧ kids (Store (delete c (chans w2)) (log w2)) c = []) as [Ec Ek]
    by (unfold cbs, kids; cbn [chans]; by rewrite Hc).
  change (Store (delete c (<[c := _]> (chans w1))) (log w1)) with (Store (delete c (chans w2)) (log w2)).
  split_and!.
  - split.
    + cbn [chans]. destruct (decide (c = 0)) as [->|]; [done|]. rewrite Hx by done. apply (reg_null w1 Hr1).
    + intros x. destruct (decide (x = c)) as [->|Hxc]; [rewrite Ec; apply wf_nil|].
      rewrite (proj1 (Hsame x Hxc)). apply (reg_cbs w1 Hr1).
    + intros x. destruct (decide (x = c)) as [->|Hxc]; [rewrite Ek; constructor|].
      rewrite (proj2 (Hsame x Hxc)). apply (reg_kids w1 Hr1).
    + intros x p. pose proof (reg_link w1 Hr1 x p) as Hl. unfold subscribed in *.
      destruct (decide (x = c)) as [->|Hxc]; destruct (decide (p = c)) as [->|Hpc];
        rewrite ?Ec, ?Ek, ?(proj1 (Hsame x Hxc)), ?(proj2 (Hsame p Hpc)); cbn.
      * set_solver.
      * specialize (Hno1 p). naive_solver.
      * rewrite Hl, Hk1. set_solver.
      * done.
  - done.
  - intros p. destruct (decide (p = c)) as [->|Hpc]; [rewrite Ek; set_solver|]. rewrite (proj2 (Hsame p Hpc)). apply Hno1.
  - intros p x Hxc Hpc. rewrite (proj2 (Hsame p Hpc)). rewrite (dt_kids _ _ _ Hd1) by done.
    by rewrite (proj2 (destroy_start_same c i w p Hi)).
Qed.

(** Free: destroying a channel without children, in whatever state it is,
    returns, closes it first when needed, removes the object, takes it out of
    the name table of the context (unless it is a custom channel or the name
    belongs to another one) and leaves no child list of another channel that
    holds the deleted object, while all the other parent links stay. *)
Theorem free_no_dangling (cls : Z → klass) (rk : Z → nat) (fuel : nat) (ctx : context) (c : Z) (i : internal) (w : store)
  (Hcls : ∀ x, Conforms (λ _ _, True) (cls x)) (Hfree : ∀ w, h_free (cls c) w = []) (Hg : good w) (Hr : ranked rk w)
  (Hi : chans w !! c = Some i) (Hk : children i = []) (Hf : (rk c < fuel)%nat) :
  ∃ ctx' w', tll_channel_free cls fuel ctx c w = Some (ctx', w') ∧ reg w' ∧ chans w' !! c = None ∧
    (∀ p, c ∉ kids w' p) ∧ (∀ p x, x ≠ c → p ≠ c → x ∈ kids w' p ↔ x ∈ kids w p) ∧
    (Z.land (caps i) CAPS_CUSTOM = 0 → channels ctx' !! i_name i ≠ Some c) ∧
    (∀ n, n ≠ i_name i → channels ctx' !! n = channels ctx !! n).
Proof.
  assert (∀ (m : M context) Q, wp m w Q → ∃ x w', m w = Some (x, w') ∧ Q x w') as Hout.
  { intros m Q. unfold wp. destruct (m w) as [[x w']|]; [|done]. intros HQ. by exists x, w'. }
  apply Hout. clear Hout. unfold tll_channel_free. apply wp_bind, (wp_get _ i); [done|]. apply wp_bind.
  assert (wp (if bool_decide (i_state i = Destroy) || bool_decide (i_state i = Closed) then mret 0 else tll_channel_close cls fuel c true)
    w (λ _ w', ext (λ _ _, True) rk c w w')) as Hcl.
  { destruct (bool_decide (i_state i = Destroy) || bool_decide (i_state i = Closed)); [apply wp_ret, ext_refl|].
    eapply wp_mono; [by apply (close_wp cls (λ _, None) (λ _ _, True) rk Hcls (λ _ _, I))|]. by intros r w' [? _]. }
  eapply wp_mono; [exact Hcl|]. clear Hcl. intros ? w1 He. cbv beta in He.
  destruct (ext_exists _ _ _ _ _ c He) as [i1 Hi1]; [by exists i|].
  pose proof (ext_links _ _ _ _ _ He c) as Hl. rewrite Hi, Hi1 in Hl. destruct Hl as (Ek & _ & Hd & Ecaps & Ename).
  apply wp_bind, (wp_get _ i1); [done|]. cbv zeta. rewrite Ecaps, Ename.
  pose proof (ext_good _ _ _ _ _ He Hg) as [Hr1 Hg1]. destruct (Hg1 c i1 Hi1) as [Hnd _].
  pose proof (free_wp cls fuel c w1 i1 Hr1 Hi1 Hnd (eq_trans Ek Hk) Hfree) as Hwp.
  unfold wp, mbind, M_bind in Hwp. apply wp_bind. unfold wp.
  destruct (base_free cls fuel c w1) as [[[] w2]|]; [|done]. apply wp_bind. unfold wp.
  destruct (drop_chan c w2) as [[[] w3]|]; [|done]. cbn. destruct Hwp as (? & ? & ? & Hks). split_and!; [done..| | |].
  - intros p x Hx Hp. rewrite Hks by done. by rewrite (proj1 (ext_lookup _ _ _ _ _ p He)).
  - intros E. rewrite E. cbn. case_bool_decide as En; [|done]. by rewrite lookup_delete_eq.
  - intros n Hn. destruct (Z.land (caps i) CAPS_CUSTOM =? 0); [|done]. case_bool_decide; [|done].
    by rewrite lookup_delete_ne.
Qed.

Definition child_of_family : internal := set_state_fields Active (add_sub 1 tll_channel_internal_init_v1).
Definition family_context : context := Context {["" := 2]} [].

Lemma free_no_dangling_witness :
  i_name child_of_family = "" ∧ caps child_of_family = 0 ∧
  ∃ ctx' w', tll_channel_free (λ _, plain) 1 family_context 2 active_family = Some (ctx', w') ∧ reg w' ∧
    chans w' !! 2 = None ∧
    (∀ p, 2 ∉ kids w' p) ∧ (∀ p x, x ≠ 2 → p ≠ 2 → x ∈ kids w' p ↔ x ∈ kids active_family p) ∧
    (Z.land (caps child_of_family) CAPS_CUSTOM = 0 → channels ctx' !! i_name child_of_family ≠ Some 2) ∧
    (∀ n, n ≠ i_name child_of_family → channels ctx' !! n = channels family_context !! n).
Proof.
  split; [done|split; [done|]].
  apply (free_no_dangling (λ _, plain) family_rank 1 family_context 2 child_of_family active_family);
    [intros x; by apply plain_conforms|done|apply good_active_family|apply ranked_active_family|reflexivity|reflexivity|cbn; lia].
Defined.
End Base.
