(* ===== verification/Suspend.v ===== *)
(** * Suspending and resuming a tree of channels

    [tll_channel_suspend] and [tll_channel_resume] of src/channel/context.cc
    walk the child lists and change two bits of the dynamic capabilities.  The
    channels below one channel form a tree; every change is reported to the
    subscribers with the old value, here as a list of (channel, old dcaps). *)
From S2P Require Import Prelude Callback Channel.
Import Chan.

Module Suspend.

Inductive tree := Node (id dcaps : Z) (kids : list tree).

Definition root_dcaps (t : tree) : Z := match t with Node _ d _ => d end.

Section tree_ind.
Variable P : tree → Prop.
Hypothesis HP : ∀ id d ks, Forall P ks → P (Node id d ks).
Fixpoint tree_ind' (t : tree) : P t :=
  match t with
  | Node id d ks => HP id d ks ((fix go ks := match ks return Forall P ks with
      | [] => Forall_nil_2 P | k :: ks => Forall_cons_2 P k ks (tree_ind' k) (go ks) end) ks)
  end.
End tree_ind.

(** ** The code *)
Fixpoint suspend (t : tree) : tree * list (Z * Z) :=
  match t with
  | Node id old ks =>
      if negb (Z.land old DCAPS_SUSPEND =? 0) then (t, [])
      else let r := map suspend ks in
           (Node id (Z.lor old DCAPS_SUSPEND) (map fst r), (id, old) :: concat (map snd r))
  end.

Fixpoint resume (t : tree) : tree * list (Z * Z) :=
  match t with
  | Node id old ks =>
      if negb (Z.land old DCAPS_SUSPEND_PERMANENT =? 0) then (t, [])
      else if Z.land old DCAPS_SUSPEND =? 0 then (t, [])
      else let r := map resume ks in
           (Node id (Z.land old (Z.lnot DCAPS_SUSPEND)) (map fst r), (id, old) :: concat (map snd r))
  end.

Definition tll_channel_suspend (t : tree) : tree * list (Z * Z) :=
  match t with Node id d ks => suspend (Node id (Z.lor d DCAPS_SUSPEND_PERMANENT) ks) end.

Definition tll_channel_resume (t : tree) : tree * list (Z * Z) :=
  match t with Node id d ks => resume (Node id (Z.land d (Z.lnot DCAPS_SUSPEND_PERMANENT)) ks) end.

(** The call on the channel at a position of the tree. *)
Fixpoint call_at (f : tree → tree * list (Z * Z)) (path : list nat) (t : tree) : tree :=
  match path with
  | [] => fst (f t)
  | n :: path => match t with Node id d ks => Node id d (alter (call_at f path) n ks) end
  end.

Fixpoint subtree (path : list nat) (t : tree) : option tree :=
  match path with
  | [] => Some t
  | n :: path => match t with Node _ _ ks => let! k := ks !! n in subtree path k end
  end.

(** ** Bits *)
Definition suspended (d : Z) : bool := Z.testbit d 6.
Definition permanent (d : Z) : bool := Z.testbit d 7.

Lemma land_bit d n : 0 ≤ n → (Z.land d (2 ^ n) =? 0) = negb (Z.testbit d n).
Proof.
  intros Hn. apply eq_true_iff_eq. rewrite Z.eqb_eq, negb_true_iff. split.
  - intros E. apply (f_equal (λ z, Z.testbit z n)) in E. rewrite Z.land_spec, Z.pow2_bits_true, andb_true_r, Z.testbit_0_l in E by done. done.
  - intros E. apply Z.bits_inj. intros m. rewrite Z.land_spec, Z.testbit_0_l. destruct (decide (m = n)) as [->|].
    + by rewrite E.
    + rewrite Z.pow2_bits_false by lia. by rewrite andb_false_r.
Qed.

Lemma land_suspend d : (Z.land d DCAPS_SUSPEND =? 0) = negb (suspended d).
Proof. by apply (land_bit d 6). Qed.
Lemma land_permanent d : (Z.land d DCAPS_SUSPEND_PERMANENT =? 0) = negb (permanent d).
Proof. by apply (land_bit d 7). Qed.

Lemma suspended_lor d : suspended (Z.lor d DCAPS_SUSPEND) = true.
Proof. unfold suspended. rewrite Z.lor_spec. change (Z.testbit DCAPS_SUSPEND 6) with true. apply orb_true_r. Qed.
Lemma permanent_lor_s d : permanent (Z.lor d DCAPS_SUSPEND) = permanent d.
Proof. unfold permanent. rewrite Z.lor_spec. change (Z.testbit DCAPS_SUSPEND 7) with false. apply orb_false_r. Qed.
Lemma suspended_lor_p d : suspended (Z.lor d DCAPS_SUSPEND_PERMANENT) = suspended d.
Proof. unfold suspended. rewrite Z.lor_spec. change (Z.testbit DCAPS_SUSPEND_PERMANENT 6) with false. apply orb_false_r. Qed.
Lemma permanent_lor d : permanent (Z.lor d DCAPS_SUSPEND_PERMANENT) = true.
Proof. unfold permanent. rewrite Z.lor_spec. change (Z.testbit DCAPS_SUSPEND_PERMANENT 7) with true. apply orb_true_r. Qed.
Lemma suspended_land d : suspended (Z.land d (Z.lnot DCAPS_SUSPEND)) = false.
Proof. unfold suspended. rewrite Z.land_spec, Z.lnot_spec by lia. change (Z.testbit DCAPS_SUSPEND 6) with true. apply andb_false_r. Qed.
Lemma permanent_land_s d : permanent (Z.land d (Z.lnot DCAPS_SUSPEND)) = permanent d.
Proof. unfold permanent. rewrite Z.land_spec, Z.lnot_spec by lia. change (Z.testbit DCAPS_SUSPEND 7) with false. apply andb_true_r. Qed.
Lemma suspended_land_p d : suspended (Z.land d (Z.lnot DCAPS_SUSPEND_PERMANENT)) = suspended d.
Proof. unfold suspended. rewrite Z.land_spec, Z.lnot_spec by lia. change (Z.testbit DCAPS_SUSPEND_PERMANENT 6) with false. apply andb_true_r. Qed.
Lemma permanent_land d : permanent (Z.land d (Z.lnot DCAPS_SUSPEND_PERMANENT)) = false.
Proof. unfold permanent. rewrite Z.land_spec, Z.lnot_spec by lia. change (Z.testbit DCAPS_SUSPEND_PERMANENT 7) with true. apply andb_false_r. Qed.

Create Rewrite HintDb suspend_bits.
#[export] Hint Rewrite land_suspend land_permanent suspended_lor permanent_lor_s suspended_lor_p permanent_lor
  suspended_land permanent_land_s suspended_land_p permanent_land negb_involutive : suspend_bits.

(** ** The invariant: a channel is suspended exactly when it or one of the
    channels above it has been suspended explicitly *)
Fixpoint inv (above : bool) (t : tree) : Prop :=
  match t with
  | Node _ d ks => suspended d = above || permanent d ∧
      (fix go ks := match ks with [] => True | k :: ks => inv (suspended d) k ∧ go ks end) ks
  end.

Lemma inv_node above id d ks : inv above (Node id d ks) ↔ suspended d = above || permanent d ∧ Forall (inv (suspended d)) ks.
Proof.
  cbn [inv]. apply and_iff_compat_l. induction ks as [|k ks IH]; [by split|]. rewrite Forall_cons, IH. done.
Qed.

Lemma suspend_node id d ks : suspend (Node id d ks) =
  if suspended d then (Node id d ks, [])
  else (Node id (Z.lor d DCAPS_SUSPEND) (map (λ k, fst (suspend k)) ks), (id, d) :: concat (map (λ k, snd (suspend k)) ks)).
Proof. cbn [suspend]. autorewrite with suspend_bits. by rewrite !map_map. Qed.

Lemma resume_node id d ks : resume (Node id d ks) =
  if permanent d then (Node id d ks, [])
  else if suspended d
  then (Node id (Z.land d (Z.lnot DCAPS_SUSPEND)) (map (λ k, fst (resume k)) ks), (id, d) :: concat (map (λ k, snd (resume k)) ks))
  else (Node id d ks, []).
Proof.
  cbn [resume]. autorewrite with suspend_bits. destruct (permanent d), (suspended d); cbn [negb]; try done. by rewrite !map_map.
Qed.

(** Walking down from a channel that has just been suspended. *)
Lemma suspend_inv t : inv false t → inv true (fst (suspend t)).
Proof.
  induction t as [id d ks IH] using tree_ind'. rewrite inv_node, suspend_node. cbn [orb]. intros [Hd Hk].
  destruct (suspended d) eqn:Es; cbn [fst]; apply inv_node.
  - by rewrite Es, <-Hd in *.
  - autorewrite with suspend_bits. rewrite <-Hd. split; [done|]. rewrite Forall_map.
    rewrite Forall_forall in IH, Hk |- *. auto.
Qed.

Lemma resume_inv t : inv true t → inv false (fst (resume t)).
Proof.
  induction t as [id d ks IH] using tree_ind'. rewrite inv_node, resume_node. cbn [orb]. intros [Hd Hk].
  rewrite Hd in *. destruct (permanent d) eqn:Ep; cbn [fst]; apply inv_node.
  - by rewrite Hd, Ep.
  - autorewrite with suspend_bits. rewrite Ep. split; [done|]. rewrite Forall_map.
    rewrite Forall_forall in IH, Hk |- *. auto.
Qed.

Lemma tll_channel_suspend_inv above t : inv above t → inv above (fst (tll_channel_suspend t)).
Proof.
  destruct t as [id d ks]. cbn [tll_channel_suspend]. rewrite inv_node, suspend_node. intros [Hd Hk].
  autorewrite with suspend_bits. destruct (suspended d) eqn:Es; cbn [fst]; apply inv_node; autorewrite with suspend_bits.
  - rewrite Es, orb_true_r. done.
  - rewrite orb_true_r. split; [done|]. rewrite Forall_map. eapply Forall_impl; [exact Hk|]. apply suspend_inv.
Qed.

Lemma tll_channel_resume_inv t : inv false t → inv false (fst (tll_channel_resume t)).
Proof.
  destruct t as [id d ks]. cbn [tll_channel_resume]. rewrite inv_node, resume_node. intros [Hd Hk].
  autorewrite with suspend_bits. destruct (suspended d) eqn:Es; cbn [fst]; apply inv_node; autorewrite with suspend_bits.
  - split; [done|]. rewrite Forall_map. eapply Forall_impl; [exact Hk|]. apply resume_inv.
  - by rewrite Es.
Qed.

(** Whether the channel above a position is suspended. *)
Fixpoint above_at (above : bool) (path : list nat) (t : tree) : bool :=
  match path with
  | [] => above
  | n :: path => match t with Node _ d ks => match ks !! n with Some k => above_at (suspended d) path k | None => false end end
  end.

Lemma call_at_inv f path : ∀ above t,
  inv above t → (∀ t', subtree path t = Some t' → inv (above_at above path t) t' → inv (above_at above path t) (fst (f t'))) →
  inv above (call_at f path t).
Proof.
  induction path as [|n path IH]; intros above t Hi Hf; cbn in *; [by apply Hf|].
  destruct t as [id d ks]. apply inv_node in Hi as [Hd Hk]. apply inv_node. split; [done|].
  apply Forall_alter; [done|]. intros k Hn Hik. apply IH; [done|]. intros t' Ht'. rewrite Hn in Hf. by apply Hf.
Qed.

Inductive op := OpSuspend (path : list nat) | OpResume (path : list nat).

Definition step (t : tree) (o : op) : tree :=
  match o with OpSuspend p => call_at tll_channel_suspend p t | OpResume p => call_at tll_channel_resume p t end.

(** Calls that do not resume a channel below a suspended one. *)
Fixpoint proper (t : tree) (ops : list op) : Prop :=
  match ops with
  | [] => True
  | o :: ops => match o with OpResume p => above_at false p t = false | OpSuspend _ => True end ∧ proper (step t o) ops
  end.

(** All capabilities in a tree. *)
Fixpoint nodes (t : tree) : list Z := match t with Node _ d ks => d :: concat (map nodes ks) end.

Lemma inv_true_nodes t : inv true t → Forall (λ d, suspended d = true) (nodes t).
Proof.
  induction t as [id d ks IH] using tree_ind'. rewrite inv_node. cbn [orb nodes]. intros [Hd Hk].
  constructor; [done|]. apply Forall_concat, Forall_map. rewrite Hd in Hk. rewrite Forall_forall in IH, Hk |- *. auto.
Qed.

Lemma suspended_no_process d : suspended d = true → tll_channel_dcap_need_process d = false.
Proof.
  unfold suspended. intros H. by rewrite need_process_bits, H, andb_false_r.
Qed.

Lemma run_inv ops : ∀ t, inv false t → proper t ops → inv false (foldl step t ops).
Proof.
  induction ops as [|o ops IH]; intros t Hi Hp; cbn in *; [done|]. destruct Hp as [Ho Hp]. apply IH; [|done].
  destruct o as [p|p]; cbn; apply call_at_inv; try done; intros t' _.
  - apply tll_channel_suspend_inv.
  - rewrite Ho. apply tll_channel_resume_inv.
Qed.

Lemma subtree_call f p : ∀ t, subtree p (call_at f p t) = (λ k, fst (f k)) <$> subtree p t.
Proof.
  induction p as [|n p IH]; intros [id d ks]; cbn; [done|]. rewrite list_lookup_alter_eq.
  destruct (ks !! n); cbn; [apply IH|done].
Qed.

(** The subtree of a channel suspended explicitly. *)
Lemma suspended_subtree t : inv false t ∨ inv true t → inv true (fst (tll_channel_suspend t)).
Proof.
  intros Hi. assert (inv true (fst (tll_channel_suspend t)) ∨ inv false (fst (tll_channel_suspend t))) as H
    by (destruct Hi; [right|left]; by apply tll_channel_suspend_inv).
  destruct H as [H|H]; [done|]. destruct t as [id d ks]. cbn [tll_channel_suspend] in *. rewrite suspend_node in *.
  autorewrite with suspend_bits in *. destruct (suspended d) eqn:Es; cbn [fst] in *; rewrite inv_node in *;
    autorewrite with suspend_bits in *; naive_solver.
Qed.

Lemma subtree_inv p : ∀ above t t', inv above t → subtree p t = Some t' → ∃ b, inv b t'.
Proof.
  induction p as [|n p IH]; intros above [id d ks] t' Hi Hs; cbn in Hs; [simplify_eq; eauto|].
  apply inv_node in Hi as [_ Hk]. destruct (ks !! n) as [k|] eqn:E; [|done]. cbn in Hs.
  eapply Forall_lookup_1 in Hk; [|done]. eauto.
Qed.

(** C31: suspended trees: starting from channels of which none is suspended (or
    any tree where a channel is suspended exactly when it or a channel above
    it was suspended explicitly), any sequence of suspend calls, and of resume
    calls on channels whose parent is running, keeps that equivalence; and
    right after a suspend call on a channel neither it nor any channel below
    it is to be processed, whatever had been resumed before. *)
Theorem suspend_resume_invariant (t : tree) (ops : list op) (p : list nat) (k : tree)
  (Hi : inv false t) (Hp : proper t ops) (Hk : subtree p (foldl step t ops) = Some k) :
  inv false (foldl step t ops) ∧
  ∃ k', subtree p (step (foldl step t ops) (OpSuspend p)) = Some k' ∧
        Forall (λ d, tll_channel_dcap_need_process d = false) (nodes k').
Proof.
  pose proof (run_inv ops t Hi Hp) as Hr. split; [done|].
  cbn [step]. rewrite subtree_call, Hk. cbn. eexists. split; [done|].
  destruct (subtree_inv p false _ k Hr Hk) as [b Hb].
  assert (inv true (fst (tll_channel_suspend k))) as Hs%inv_true_nodes by (apply suspended_subtree; destruct b; auto).
  eapply Forall_impl; [exact Hs|]. apply suspended_no_process.
Qed.

Definition sample : tree := Node 1 16 [Node 2 16 []; Node 3 16 [Node 4 17 []]].

Lemma suspend_resume_invariant_witness :
  inv false (foldl step sample [OpSuspend [1%nat]; OpSuspend []; OpResume []; OpResume [1%nat]]) ∧
  ∃ k', subtree [1%nat] (step (foldl step sample [OpSuspend [1%nat]; OpSuspend []; OpResume []; OpResume [1%nat]]) (OpSuspend [1%nat])) = Some k' ∧
        Forall (λ d, tll_channel_dcap_need_process d = false) (nodes k').
Proof.
  apply (suspend_resume_invariant sample _ [1%nat] (Node 3 16 [Node 4 17 []])).
  - vm_compute. tauto.
  - vm_compute. tauto.
  - vm_compute. reflexivity.
Defined.

(** ** Resume undoes suspend *)
Lemma lor_land_s d : suspended d = false → Z.land (Z.lor d DCAPS_SUSPEND) (Z.lnot DCAPS_SUSPEND) = d.
Proof.
  intros H. apply Z.bits_inj'. intros n Hn. rewrite Z.land_spec, Z.lor_spec, Z.lnot_spec by done. change DCAPS_SUSPEND with (2 ^ 6).
  destruct (decide (n = 6)) as [->|]; [unfold suspended in H; by rewrite H|].
  rewrite Z.pow2_bits_false by lia. by rewrite orb_false_r, andb_true_r.
Qed.

Lemma lor_land_p d : permanent d = false → Z.land (Z.lor d DCAPS_SUSPEND_PERMANENT) (Z.lnot DCAPS_SUSPEND_PERMANENT) = d.
Proof.
  intros H. apply Z.bits_inj'. intros n Hn. rewrite Z.land_spec, Z.lor_spec, Z.lnot_spec by done. change DCAPS_SUSPEND_PERMANENT with (2 ^ 7).
  destruct (decide (n = 7)) as [->|]; [unfold permanent in H; by rewrite H|].
  rewrite Z.pow2_bits_false by lia. by rewrite orb_false_r, andb_true_r.
Qed.

(** Child by child. *)
Lemma resume_suspend_kids ks :
  Forall (λ k, fst (resume (fst (suspend k))) = k ∧
               map fst (snd (resume (fst (suspend k)))) = map fst (snd (suspend k))) ks →
  map (λ k, fst (resume k)) (map (λ k, fst (suspend k)) ks) = ks ∧
  map fst (concat (map (λ k, snd (resume k)) (map (λ k, fst (suspend k)) ks))) =
  map fst (concat (map (λ k, snd (suspend k)) ks)).
Proof.
  induction 1 as [|k ks [Hk1 Hk2] _ [IH1 IH2]]; cbn; [done|]. rewrite !map_app, Hk1, Hk2, IH2. by rewrite IH1 at 1.
Qed.

Lemma resume_suspend_rec t : inv false t →
  fst (resume (fst (suspend t))) = t ∧
  map fst (snd (resume (fst (suspend t)))) = map fst (snd (suspend t)).
Proof.
  intros Hi. induction t as [id d ks IH] using tree_ind'. apply inv_node in Hi as [Hd Hk]. cbn [orb] in Hd.
  rewrite suspend_node. destruct (suspended d) eqn:Es; cbn [fst snd]; rewrite resume_node.
  - by rewrite <-Hd.
  - autorewrite with suspend_bits. rewrite <-Hd, lor_land_s by done. cbn [fst snd map].
    destruct (resume_suspend_kids ks) as [E1 E2]; [rewrite Forall_forall in IH, Hk |- *; auto|].
    by rewrite E1, E2.
Qed.

(** Resume undoes suspend: suspending a running channel and resuming it
    restores the capabilities of every channel below it (channels that had
    been suspended explicitly stay suspended), and both calls notify the same
    channels, each once and in the same order. *)
Theorem resume_suspend (t : tree) (Hi : inv false t) (Hs : suspended (root_dcaps t) = false) :
  fst (tll_channel_resume (fst (tll_channel_suspend t))) = t ∧
  map fst (snd (tll_channel_resume (fst (tll_channel_suspend t)))) = map fst (snd (tll_channel_suspend t)).
Proof.
  destruct t as [id d ks]. cbn [root_dcaps] in Hs. apply inv_node in Hi as [Hd Hk]. rewrite Hs in Hd, Hk. cbn [orb] in Hd.
  assert (Z.land (Z.land (Z.lor (Z.lor d DCAPS_SUSPEND_PERMANENT) DCAPS_SUSPEND) (Z.lnot DCAPS_SUSPEND_PERMANENT))
                 (Z.lnot DCAPS_SUSPEND) = d) as Ed.
  { rewrite <-Z.land_assoc, (Z.land_comm (Z.lnot _)), Z.land_assoc.
    rewrite lor_land_s by (by autorewrite with suspend_bits). by apply lor_land_p. }
  cbn [tll_channel_suspend]. rewrite suspend_node. autorewrite with suspend_bits. rewrite Hs. cbn [fst snd tll_channel_resume].
  rewrite resume_node. autorewrite with suspend_bits. cbn [fst snd map]. rewrite Ed.
  destruct (resume_suspend_kids ks) as [E1 E2]; [eapply Forall_impl; [exact Hk|apply resume_suspend_rec]|].
  by rewrite E1, E2.
Qed.

Lemma resume_suspend_witness :
  fst (tll_channel_resume (fst (tll_channel_suspend sample))) = sample ∧
  map fst (snd (tll_channel_resume (fst (tll_channel_suspend sample)))) = map fst (snd (tll_channel_suspend sample)).
Proof. apply (resume_suspend sample); [vm_compute; tauto|reflexivity]. Defined.
End Suspend.
