(* ===== verification/PtrList.v ===== *)
(** * Lists of pointers with holes

    src/tll/util/pointer_list.h, the container of the event loop.  The first
    [_size] elements of the vector are the list; a null pointer is a hole left
    by a removal.  Elements beyond [_size] are only ever overwritten, so the
    list of the first [_size] elements is the whole state. *)
From S2P Require Import Prelude.

Module PtrList.

Abbreviation plist := (list (option Z)).

Fixpoint insert (l : plist) (v : Z) : plist :=
  match l with
  | [] => [Some v]
  | i :: l =>
      if bool_decide (i = Some v) then i :: l
      else match i with
           | None => Some v :: l
           | Some _ => i :: insert l v
           end
  end.

Fixpoint erase (l : plist) (v : Z) : plist :=
  match l with
  | [] => []
  | i :: l => if bool_decide (i = Some v) then None :: l else i :: erase l v
  end.

(** The loop that decrements [_size] while the last element is null. *)
Fixpoint shrink (l : plist) : plist :=
  match l with
  | [] => []
  | i :: l => match i, shrink l with None, [] => [] | _, l' => i :: l' end
  end.

Definition erase_shrink (l : plist) (v : Z) : plist := shrink (erase l v).

Definition add (l : plist) (v : Z) : plist := insert l v.
Definition del (l : plist) (v : Z) : plist := erase_shrink l v.

(** [rebuild]: the elements before [to] are kept, those from [to] to the
    current one are holes; [std::swap(i, *to++)] moves an element down. *)
Fixpoint rebuild_loop (n i to : nat) (l : plist) : plist * nat :=
  match n with
  | O => (l, to)
  | S n =>
      match l !! i with
      | Some (Some v) =>
          match l !! to with
          | Some t => rebuild_loop n (S i) (S to) (<[i := t]> (<[to := Some v]> l))
          | None => (l, to)
          end
      | _ => rebuild_loop n (S i) to l
      end
  end.

Definition rebuild (l : plist) : plist :=
  let '(l', size) := rebuild_loop (length l) 0 0 l in take size l'.

(** ** The elements of a list *)
Fixpoint elems (l : plist) : list Z :=
  match l with [] => [] | Some x :: l => x :: elems l | None :: l => elems l end.

Lemma elems_app l k : elems (l ++ k) = elems l ++ elems k.
Proof. induction l as [|[x|] l IH]; cbn; [done|by rewrite IH|done]. Qed.

(** No hole at the end, so the size is zero exactly when the list is empty. *)
Definition tight (l : plist) : Prop := last l ≠ Some None.

Lemma elems_insert_new l v : v ∉ elems l → NoDup (elems l) →
  NoDup (elems (insert l v)) ∧ ∀ x, x ∈ elems (insert l v) ↔ x = v ∨ x ∈ elems l.
Proof.
  induction l as [|i l IH]; cbn; intros Hv Hn.
  { split; [apply NoDup_singleton|]. set_solver. }
  destruct i as [x|]; cbn in *.
  - apply NoDup_cons in Hn as [Hx Hn]. case_bool_decide as E; [exfalso; set_solver|]. cbn.
    destruct IH as [Hn' Hi]; [set_solver|done|]. split.
    + apply NoDup_cons. split; [|done]. rewrite Hi. intros [->|?]; [|done]. set_solver.
    + intros y. rewrite !elem_of_cons, Hi. tauto.
  - rewrite bool_decide_false by done. cbn. split; [by apply NoDup_cons|]. intros y. by rewrite elem_of_cons.
Qed.

(** Before any hole the element is found and nothing changes. *)
Lemma insert_front l v k : Forall is_Some l → insert (l ++ Some v :: k) v = l ++ Some v :: k ∨ Some v ∈ l.
Proof.
  induction 1 as [|i l [x ->] Hl IH]; cbn; [left; by rewrite bool_decide_true|].
  case_bool_decide as E; [right; rewrite E; set_solver|]. destruct IH as [->|?]; [by left|right; set_solver].
Qed.

Lemma insert_idemp l v : insert (insert l v) v = insert l v.
Proof.
  induction l as [|i l IH]; cbn; [by rewrite bool_decide_true|]. case_bool_decide as E; cbn.
  - by rewrite bool_decide_true.
  - destruct i as [x|]; cbn; [by rewrite bool_decide_false, IH|by rewrite bool_decide_true].
Qed.

Lemma tight_cons i l : l ≠ [] → tight (i :: l) ↔ tight l.
Proof. intros H. unfold tight. destruct l; [done|]. by rewrite last_cons_cons. Qed.

Lemma insert_not_nil l v : insert l v ≠ [].
Proof. destruct l as [|[x|] l]; cbn; try case_bool_decide; done. Qed.

Lemma tight_insert l v : tight l → tight (insert l v).
Proof.
  induction l as [|i l IH]; cbn; [done|]. intros Ht. case_bool_decide; [done|].
  destruct (decide (l = [])) as [->|Hl].
  - destruct i; cbn; [done|]. by unfold tight in *.
  - apply tight_cons in Ht; [|done]. destruct i; apply tight_cons; auto using insert_not_nil.
Qed.

Lemma elems_erase l v : NoDup (elems l) →
  NoDup (elems (erase l v)) ∧ ∀ x, x ∈ elems (erase l v) ↔ x ∈ elems l ∧ x ≠ v.
Proof.
  induction l as [|i l IH]; cbn; intros Hn; [set_solver|]. destruct i as [x|]; cbn in *.
  - apply NoDup_cons in Hn as [Hx Hn]. case_bool_decide as E; cbn.
    + injection E as ->. split; [done|]. set_solver.
    + destruct (IH Hn) as [Hn' Hi]. split; [apply NoDup_cons; split; [rewrite Hi; tauto|done]|].
      intros y. rewrite !elem_of_cons, Hi. naive_solver.
  - rewrite bool_decide_false by done. cbn. auto.
Qed.

Lemma elems_shrink l : elems (shrink l) = elems l.
Proof.
  induction l as [|[x|] l IH]; cbn; [done|by rewrite <-IH|]. rewrite <-IH. by destruct (shrink l).
Qed.

Lemma tight_shrink l : tight (shrink l).
Proof.
  induction l as [|[x|] l IH]; cbn; [done| |].
  - destruct (shrink l); [done|]. by apply tight_cons.
  - destruct (shrink l); [done|]. by apply tight_cons.
Qed.

Lemma tight_empty l : tight l → (elems l = [] ↔ l = []).
Proof.
  intros Ht. split; [|by intros ->]. intros E. destruct l as [|i l] using rev_ind; [done|].
  unfold tight in Ht. rewrite last_snoc in Ht. rewrite elems_app in E. destruct i as [x|]; [|done].
  cbn in E. by apply app_eq_nil in E as [_ ?].
Qed.

Lemma elems_del l v : NoDup (elems l) →
  NoDup (elems (del l v)) ∧ (∀ x, x ∈ elems (del l v) ↔ x ∈ elems l ∧ x ≠ v) ∧ tight (del l v).
Proof.
  intros Hn. unfold del, erase_shrink. rewrite elems_shrink. destruct (elems_erase l v Hn).
  split_and!; [done..|apply tight_shrink].
Qed.

Lemma erase_absent l v : v ∉ elems l → erase l v = l.
Proof.
  induction l as [|[x|] l IH]; cbn; intros Hv; [done| |].
  - rewrite bool_decide_false by set_solver. f_equal. apply IH. set_solver.
  - rewrite bool_decide_false by done. f_equal. by apply IH.
Qed.

Lemma shrink_tight l : tight l → shrink l = l.
Proof.
  induction l as [|i l IH]; cbn; intros Ht; [done|]. destruct (decide (l = [])) as [->|Hl].
  - destruct i; cbn; [done|]. by unfold tight in Ht.
  - rewrite IH by (by apply tight_cons in Ht). destruct i, l; done.
Qed.

Lemma del_absent l v : v ∉ elems l → tight l → del l v = l.
Proof. intros Hv Ht. unfold del, erase_shrink. by rewrite erase_absent, shrink_tight. Qed.

(** ** The list as a set *)
Inductive op := Add (v : Z) | Del (v : Z).

Definition step (l : plist) (o : op) : plist := match o with Add v => add l v | Del v => del l v end.

Definition spec (s : gset Z) (o : op) : gset Z := match o with Add v => {[v]} ∪ s | Del v => s ∖ {[v]} end.

(** Adds only of elements that are not in the set. *)
Fixpoint fresh (s : gset Z) (ops : list op) : Prop :=
  match ops with [] => True | o :: ops => match o with Add v => v ∉ s | Del _ => True end ∧ fresh (spec s o) ops end.

Lemma step_set o l s :
  match o with Add v => v ∉ s | Del _ => True end → NoDup (elems l) → (∀ x, x ∈ elems l ↔ x ∈ s) → tight l →
  NoDup (elems (step l o)) ∧ (∀ x, x ∈ elems (step l o) ↔ x ∈ spec s o) ∧ tight (step l o).
Proof.
  intros Ho Hn Hs Ht. destruct o as [v|v]; cbn.
  - destruct (elems_insert_new l v) as [Hn' Hi]; [by rewrite Hs|done|]. split_and!; [done| |by apply tight_insert].
    intros x. rewrite Hi, Hs. set_solver.
  - destruct (elems_del l v Hn) as (Hn' & Hi & Ht'). split_and!; [done| |done]. intros x. rewrite Hi, Hs. set_solver.
Qed.

Lemma run_set ops : ∀ l s,
  fresh s ops → NoDup (elems l) → (∀ x, x ∈ elems l ↔ x ∈ s) → tight l →
  NoDup (elems (foldl step l ops)) ∧ (∀ x, x ∈ elems (foldl step l ops) ↔ x ∈ foldl spec s ops) ∧ tight (foldl step l ops).
Proof.
  induction ops as [|o ops IH]; intros l s Hf Hn Hs Ht; cbn in *; [done|]. destruct Hf as [Ho Hf].
  destruct (step_set o l s Ho Hn Hs Ht) as (? & ? & ?). by apply IH.
Qed.

(** The pointer list is a set with holes: after any sequence of removals,
    and of additions of elements that are not in it, it holds every element of
    the set exactly once, and its size is zero exactly when the set is empty
    (the loop switches polling of the pending and of the nofd list on and off
    by it). *)
Theorem ptrlist_is_set (ops : list op) (H : fresh ∅ ops) :
  let l := foldl step [] ops in
  NoDup (elems l) ∧ (∀ x, x ∈ elems l ↔ x ∈ foldl spec ∅ ops) ∧ (length l = 0%nat ↔ foldl spec ∅ ops = ∅).
Proof.
  destruct (run_set ops [] ∅ H) as (Hn & Hi & Ht); [constructor|set_solver|done|]. cbv zeta. split_and!; [done..|].
  rewrite length_zero_iff_nil, <-(tight_empty _ Ht). split.
  - intros E. apply set_eq. intros x. rewrite <-Hi, E. set_solver.
  - intros E. apply elem_of_nil_inv. intros x. rewrite Hi, E. set_solver.
Qed.

Lemma ptrlist_is_set_witness :
  let ops := [Add 1; Add 2; Add 3; Del 1; Add 4; Del 3; Del 2] in
  let l := foldl step [] ops in
  NoDup (elems l) ∧ (∀ x, x ∈ elems l ↔ x ∈ foldl spec ∅ ops) ∧ (length l = 0%nat ↔ foldl spec ∅ ops = ∅).
Proof. apply ptrlist_is_set. cbn. set_solver. Defined.

(** Adding an element that is already in the list behind a hole stores it
    twice, and one removal then leaves a copy behind. *)
Theorem ptrlist_duplicate :
  let l := foldl step [] [Add 1; Add 2; Del 1; Add 2] in
  elems l = [2; 2] ∧ 2 ∈ elems (step l (Del 2)).
Proof. vm_compute. split; [done|]. left. Qed.

(** ** Compaction *)
Lemma insert_middle {A} (l1 l2 : list A) n x y : n = length l1 → <[n := y]> (l1 ++ x :: l2) = l1 ++ y :: l2.
Proof. intros ->. induction l1; cbn; [done|]. by f_equal. Qed.

Lemma rebuild_loop_spec n : ∀ done_ k rest,
  length rest = n →
  rebuild_loop n (length done_ + k) (length done_) (map Some done_ ++ replicate k None ++ rest) =
  let kept := done_ ++ elems rest in
  (map Some kept ++ replicate (k + length rest - length (elems rest)) None, length kept).
Proof.
  induction n as [|n IH]; intros done_ k rest Hn; cbn [rebuild_loop].
  { destruct rest; [|done]. cbn. rewrite !app_nil_r. by rewrite Nat.sub_0_r, Nat.add_0_r. }
  destruct rest as [|i rest]; [done|]. injection Hn as Hn.
  assert ((map Some done_ ++ replicate k None ++ i :: rest) !! (length done_ + k)%nat = Some i) as Hi.
  { rewrite app_assoc. apply list_lookup_middle. rewrite length_app, length_map, length_replicate. done. }
  rewrite Hi. destruct i as [v|].
  - destruct k as [|k].
    + rewrite Nat.add_0_r in *. rewrite Hi. cbn [replicate app] in *.
      rewrite list_insert_id by (rewrite list_insert_id; done). rewrite list_insert_id by done.
      specialize (IH (done_ ++ [v]) 0%nat rest Hn). rewrite length_app in IH. cbn [length replicate app] in IH.
      rewrite !Nat.add_0_r, Nat.add_1_r in IH. rewrite map_app, <-app_assoc in IH. cbn [map app] in IH. rewrite IH.
      cbn. rewrite <-!app_assoc. cbn. done.
    + assert ((map Some done_ ++ replicate (S k) None ++ Some v :: rest) !! length done_ = Some None) as Ht.
      { apply list_lookup_middle. by rewrite length_map. }
      rewrite Ht. specialize (IH (done_ ++ [v]) (S k) rest Hn). rewrite length_app in IH. cbn [length] in IH.
      assert (<[(length done_ + S k)%nat := None]> (<[length done_ := Some v]>
        (map Some done_ ++ replicate (S k) None ++ Some v :: rest)) =
        map Some (done_ ++ [v]) ++ replicate (S k) None ++ rest) as ->.
      { cbn [replicate app]. rewrite (insert_middle (map Some done_)) by (by rewrite length_map).
        change (map Some done_ ++ Some v :: replicate k None ++ Some v :: rest)
          with (map Some done_ ++ (Some v :: replicate k None) ++ Some v :: rest).
        rewrite app_assoc, insert_middle by (rewrite length_app, length_map; cbn; rewrite length_replicate; lia).
        rewrite map_app, <-!app_assoc. cbn. do 2 f_equal.
        change (replicate k None ++ [None] ++ rest = (None :: replicate k None) ++ rest).
        by rewrite app_assoc, <-replicate_cons_app. }
      replace (S (length done_ + S k)) with (length done_ + 1 + S k)%nat by lia.
      replace (S (length done_)) with (length done_ + 1)%nat by lia. rewrite IH. cbv zeta. cbn [elems length].
      replace (S k + S (length rest) - S (length (elems rest)))%nat with (S k + length rest - length (elems rest))%nat by lia.
      by rewrite <-!app_assoc.
  - specialize (IH done_ (S k) rest Hn). rewrite replicate_S, replicate_cons_app, <-app_assoc in IH. cbn [app] in IH.
    replace (S (length done_ + k)) with (length done_ + S k)%nat by lia. rewrite IH. cbv zeta. cbn [elems length].
    by replace (S k + length rest - length (elems rest))%nat with (k + S (length rest) - length (elems rest))%nat by lia.
Qed.

(** Rebuild removes the holes and keeps the elements in their order. *)
Theorem ptrlist_rebuild (l : plist) : rebuild l = map Some (elems l).
Proof.
  unfold rebuild. pose proof (rebuild_loop_spec (length l) [] 0 l eq_refl) as E. cbn in E. rewrite E. cbn.
  rewrite <-(length_map Some (elems l)). apply take_app_length.
Qed.
End PtrList.
