(* ===== verification/Loop.v ===== *)
(** * The event loop

    src/tll/processor/loop.h, [tll_processor_loop_t] with its epoll back end.
    The loop keeps three pointer lists (channels to process, with pending data,
    without a descriptor) and the set of polled descriptors; channels tell it
    about changes with messages.  The interface of epoll is a table from
    descriptors to the registered channel and events: adding an existing
    descriptor, and changing or removing a missing one, are errors that the
    code ignores.  The result of epoll_wait is an input of [poll]. *)
From S2P Require Import Prelude Callback Channel PtrList.
Import Chan PtrList.

Module Loop.

Definition EPOLLIN : Z := 0x1.
Definition EPOLLOUT : Z := 0x4.
Definition PROCESS_READ : Z := 0x1.
Definition PROCESS_WRITE : Z := 0x2.
Definition PROCESS_PENDING : Z := 0x4.
Definition EAGAIN : Z := 11.

(** ** The poll set (struct EPoll) *)
Record epoll := EPoll {
  ep_fds : gmap Z (Z * Z);          (* descriptor -> channel, events *)
  ep_pending : bool;                (* fd_pending is polled for input *)
  ep_nofd : bool;                   (* fd_nofd is polled for input *)
}.

Definition caps2events (caps : Z) : Z :=
  if Z.land caps DCAPS_SUSPEND =? 0 then
    Z.lor (if Z.land caps DCAPS_POLLIN =? 0 then 0 else EPOLLIN) (if Z.land caps DCAPS_POLLOUT =? 0 then 0 else EPOLLOUT)
  else 0.

Definition poll_add (p : epoll) (fd c caps : Z) : epoll :=
  match ep_fds p !! fd with
  | Some _ => p
  | None => EPoll (<[fd := (c, caps2events caps)]> (ep_fds p)) (ep_pending p) (ep_nofd p)
  end.

Definition poll_update (p : epoll) (fd c caps : Z) : epoll :=
  match ep_fds p !! fd with
  | Some _ => EPoll (<[fd := (c, caps2events caps)]> (ep_fds p)) (ep_pending p) (ep_nofd p)
  | None => p
  end.

Definition poll_del (p : epoll) (fd : Z) : epoll := EPoll (delete fd (ep_fds p)) (ep_pending p) (ep_nofd p).

Definition set_pending (b : bool) (p : epoll) : epoll := EPoll (ep_fds p) b (ep_nofd p).
Definition set_nofd (b : bool) (p : epoll) : epoll := EPoll (ep_fds p) (ep_pending p) b.

(** What [EPoll::poll] returns. *)
Inductive PollResult := Timeout | PollError | Pending | Nofd | Ready (c events : Z).

(** Events of epoll as flags of process. *)
Definition poll_events (ev : Z) : Z :=
  Z.lor (if Z.land ev EPOLLIN =? 0 then 0 else PROCESS_READ) (if Z.land ev EPOLLOUT =? 0 then 0 else PROCESS_WRITE).

(** ** The loop object *)
Record loop := LoopT {
  poll_enable : bool;
  pending_count : Z;
  pending_steps : Z;
  list_ : list Z;
  list_process : plist;
  list_pending : plist;
  list_nofd : plist;
  poll_ : epoll;
}.

Definition with_poll (f : epoll → epoll) (l : loop) : loop :=
  LoopT (poll_enable l) (pending_count l) (pending_steps l) (list_ l) (list_process l) (list_pending l) (list_nofd l) (f (poll_ l)).
Definition with_process (x : plist) (l : loop) : loop :=
  LoopT (poll_enable l) (pending_count l) (pending_steps l) (list_ l) x (list_pending l) (list_nofd l) (poll_ l).
Definition with_pending (x : plist) (l : loop) : loop :=
  LoopT (poll_enable l) (pending_count l) (pending_steps l) (list_ l) (list_process l) x (list_nofd l) (poll_ l).
Definition with_nofd (x : plist) (l : loop) : loop :=
  LoopT (poll_enable l) (pending_count l) (pending_steps l) (list_ l) (list_process l) (list_pending l) x (poll_ l).
Definition with_list (x : list Z) (l : loop) : loop :=
  LoopT (poll_enable l) (pending_count l) (pending_steps l) x (list_process l) (list_pending l) (list_nofd l) (poll_ l).
Definition with_count (n : Z) (l : loop) : loop :=
  LoopT (poll_enable l) n (pending_steps l) (list_ l) (list_process l) (list_pending l) (list_nofd l) (poll_ l).

(** Members after [init]; the pending steps are read only when polling. *)
Definition init (poll : bool) (steps : Z) : loop :=
  LoopT poll 0 (if poll then steps else 0) [] [] [] [] (EPoll ∅ false false).

Definition size (l : plist) : Z := zlen l.

Definition pending_add (l : loop) (c : Z) : loop :=
  let empty := size (list_pending l) =? 0 in
  let l := with_pending (add (list_pending l) c) l in
  if negb empty then l
  else if poll_enable l then with_poll (set_pending true) l else l.

Definition pending_del (l : loop) (c : Z) : loop :=
  let l := with_pending (del (list_pending l) c) l in
  if negb (size (list_pending l) =? 0) then l
  else if poll_enable l then with_poll (set_pending false) l else l.

Definition process_add (l : loop) (c fd caps : Z) : loop :=
  if negb (tll_channel_dcap_need_process caps) then l else
  let l := with_process (add (list_process l) c) l in
  let l := if negb (Z.land caps DCAPS_PENDING =? 0) then pending_add l c else l in
  if fd =? -1 then
    let empty := size (list_nofd l) =? 0 in
    let l := with_nofd (add (list_nofd l) c) l in
    if negb empty then l
    else if poll_enable l then with_poll (set_nofd true) l else l
  else if poll_enable l then with_poll (λ p, poll_add p fd c caps) l else l.

Definition process_del (l : loop) (c fd : Z) : loop :=
  let l := with_process (del (list_process l) c) l in
  let l := pending_del l c in
  if fd =? -1 then
    let l := with_nofd (del (list_nofd l) c) l in
    if negb (size (list_nofd l) =? 0) then l
    else if poll_enable l then with_poll (set_nofd false) l else l
  else if poll_enable l then with_poll (λ p, poll_del p fd) l else l.

Definition update (l : loop) (c fd caps old : Z) : loop :=
  let delta := Z.lxor caps old in
  let need := tll_channel_dcap_need_process in
  let l := if negb (Z.land delta DCAPS_PROCESS_MASK =? 0) then
             if negb (eqb (need caps) (need old)) then
               if need caps then process_add l c fd caps else process_del l c fd
             else l
           else l in
  if negb (need caps) then l else
  let l := if negb (Z.land delta DCAPS_POLLMASK =? 0) then
             if poll_enable l && negb (fd =? -1) then with_poll (λ p, poll_update p fd c caps) l else l
           else l in
  if negb (Z.land delta DCAPS_PENDING =? 0) then
    if negb (Z.land caps DCAPS_PENDING =? 0) then pending_add l c else pending_del l c
  else l.

Definition update_fd (l : loop) (c fd caps old : Z) : loop :=
  if tll_channel_dcap_need_process caps then process_add (process_del l c old) c fd caps else l.

(** A channel with its children, as the loop reads it. *)
Inductive ctree := CNode (c fd caps : Z) (kids : list ctree).

(** [add]: the channel and then all of its children. *)
Fixpoint loop_add (t : ctree) (l : loop) : loop :=
  match t with
  | CNode c fd caps kids =>
      let l := process_add (with_list (list_ l ++ [c]) l) c fd caps in
      (fix go ks l := match ks with [] => l | k :: ks => go ks (loop_add k l) end) kids l
  end.

Fixpoint list_erase (c : Z) (l : list Z) : list Z :=
  match l with [] => [] | x :: l => if x =? c then l else x :: list_erase c l end.

(** [del]: the children first. *)
Fixpoint loop_del (t : ctree) (l : loop) : loop :=
  match t with
  | CNode c fd caps kids =>
      let l := (fix go ks l := match ks with [] => l | k :: ks => go ks (loop_del k l) end) kids l in
      let l := process_del l c fd in
      with_list (list_erase c (list_ l)) l
  end.

(** Messages the loop subscribes to, with what it reads from the channel. *)
Inductive message :=
| MState (s : state) (t : ctree)            (* state message of the channel at the root of [t] *)
| MAdd (t : ctree) | MDelete (t : ctree)    (* a child was added or deleted *)
| MUpdate (c fd caps old : Z)
| MUpdateFd (c fd caps old : Z).

Definition callback (l : loop) (m : message) : loop :=
  match m with
  | MState Opening (CNode c fd caps _) => process_add l c fd caps
  | MState (Closed | Error) (CNode c fd caps _) => process_del l c fd
  | MState Destroy t => loop_del t l
  | MState _ _ => l
  | MAdd t => loop_add t l
  | MDelete t => loop_del t l
  | MUpdate c fd caps old => update l c fd caps old
  | MUpdateFd c fd caps old => update_fd l c fd caps old
  end.

(** ** Processing *)

(** [process_list] over the results of the process calls: the calls made, and
    EAGAIN exactly when all of them returned it. *)
Fixpoint process_list (process : Z → Z) (l : plist) (flags r : Z) : list (Z * Z) * Z :=
  match l with
  | [] => ([], if r =? 0 then EAGAIN else 0)
  | None :: l => process_list process l flags r
  | Some c :: l =>
      let '(calls, res) := process_list process l flags (Z.lor r (Z.lxor (process c) EAGAIN)) in
      ((c, flags) :: calls, res)
  end.

(** [poll]: the calls of process that it makes, and whether the descriptors
    were polled. *)
Record step_result := StepResult { sr_calls : list (Z * Z); sr_polled : bool; sr_channel : option Z }.

Definition poll (process_flag : bool) (process : Z → Z) (result : PollResult) (l : loop) : step_result * loop :=
  let calls x flags := fst (process_list process x flags 0) in
  let polled l :=
    (match result with
     | Pending => StepResult (calls (list_pending l) PROCESS_PENDING) true None
     | Nofd => StepResult (calls (list_nofd l) 0) true None
     | Timeout | PollError => StepResult [] true None
     | Ready c events => StepResult (if process_flag then [(c, events)] else []) true (Some c)
     end, l) in
  if poll_enable l then
    if negb (pending_steps l =? 0) && negb (size (list_pending l) =? 0) then
      if pending_count l <? pending_steps l
      then (StepResult (calls (list_pending l) 0) false None, with_count (u32 (pending_count l + 1)) l)
      else polled (with_count 0 l)
    else polled l
  else (StepResult (calls (list_pending l) 0 ++ calls (list_process l) 0) false None, l).

Definition pending (l : loop) : bool := negb (size (list_nofd l) + size (list_pending l) =? 0).

(** ** What the loop tracks *)
Definition need (d : Z) : bool := tll_channel_dcap_need_process d.
Definition pend (d : Z) : bool := negb (Z.land d DCAPS_PENDING =? 0).

(** A pointer list that holds exactly the elements of a set. *)
Definition lset (l : plist) (P : Z → Prop) : Prop := NoDup (elems l) ∧ (∀ x, x ∈ elems l ↔ P x) ∧ tight l.

Lemma lset_iff l (P Q : Z → Prop) : lset l P → (∀ x, P x ↔ Q x) → lset l Q.
Proof. intros (Hn & Hi & Ht) HPQ. split_and!; [done| |done]. intros x. by rewrite Hi. Qed.

Lemma lset_add l P c : lset l P → ¬ P c → lset (add l c) (λ x, x = c ∨ P x).
Proof.
  intros (Hn & Hi & Ht) Hc. destruct (elems_insert_new l c) as [Hn' Hi']; [by rewrite Hi|done|].
  split_and!; [done| |by apply tight_insert]. intros x. by rewrite Hi', Hi.
Qed.

Lemma lset_del l P c : lset l P → lset (del l c) (λ x, P x ∧ x ≠ c).
Proof. intros (Hn & Hi & Ht). destruct (elems_del l c Hn) as (Hn' & Hi' & Ht'). split_and!; [done| |done]. intros x. by rewrite Hi', Hi. Qed.

Lemma size_zero l : (size l =? 0) = bool_decide (l = []).
Proof. destruct l; [done|]. unfold size. rewrite zlen_cons. pose proof (zlen_nonneg l). rewrite bool_decide_false by done. apply Z.eqb_neq. lia. Qed.

Lemma size_add l c : (size (add l c) =? 0) = false.
Proof. rewrite size_zero. apply bool_decide_false, insert_not_nil. Qed.

(** [tr] maps the channels that are to be processed to their descriptor and
    capabilities: the lists and the poll set say the same. *)
Record inv (l : loop) (tr : gmap Z (Z * Z)) : Prop := {
  iv_need c fd d : tr !! c = Some (fd, d) → need d = true;
  iv_fd c c' fd d d' : tr !! c = Some (fd, d) → tr !! c' = Some (fd, d') → fd ≠ -1 → c = c';
  iv_process : lset (list_process l) (λ c, is_Some (tr !! c));
  iv_pending : lset (list_pending l) (λ c, ∃ fd d, tr !! c = Some (fd, d) ∧ pend d = true);
  iv_nofd : lset (list_nofd l) (λ c, ∃ d, tr !! c = Some (-1, d));
  iv_ep : poll_enable l = true → ∀ fd c ev,
    ep_fds (poll_ l) !! fd = Some (c, ev) ↔ ∃ d, tr !! c = Some (fd, d) ∧ fd ≠ -1 ∧ ev = caps2events d;
  iv_ep_pending : poll_enable l = true → ep_pending (poll_ l) = negb (size (list_pending l) =? 0);
  iv_ep_nofd : poll_enable l = true → ep_nofd (poll_ l) = negb (size (list_nofd l) =? 0);
}.

Lemma lset_nil (P : Z → Prop) : (∀ x, ¬ P x) → lset [] P.
Proof. intros H. split_and!; [constructor| |done]. intros x. split; [set_solver|]. intros Hx. by destruct (H x). Qed.

Lemma inv_init b steps : inv (init b steps) ∅.
Proof.
  assert (∀ c v, (∅ : gmap Z (Z * Z)) !! c = Some v → False) as He by (intros c v; by rewrite lookup_empty).
  split; cbn [init list_process list_pending list_nofd poll_ ep_fds ep_pending ep_nofd].
  - intros c fd d H. by apply He in H.
  - intros c c' fd d d' H. by apply He in H.
  - apply lset_nil. intros x [v H]. by apply He in H.
  - apply lset_nil. intros x (fd & d & H & _). by apply He in H.
  - apply lset_nil. intros x [d H]. by apply He in H.
  - intros _ fd c ev. rewrite lookup_empty. split; [done|]. intros (d & H & _). by apply He in H.
  - done.
  - done.
Qed.

(** *** Members after the two basic operations *)
#[local] Arguments del : simpl never.
#[local] Arguments add : simpl never.
#[local] Arguments size : simpl never.

Lemma process_add_members l c fd d : need d = true →
  let l' := process_add l c fd d in
  poll_enable l' = poll_enable l ∧ list_process l' = add (list_process l) c ∧
  list_pending l' = (if pend d then add (list_pending l) c else list_pending l) ∧
  list_nofd l' = (if fd =? -1 then add (list_nofd l) c else list_nofd l) ∧
  (poll_enable l = true →
     ep_fds (poll_ l') = (if fd =? -1 then ep_fds (poll_ l) else ep_fds (poll_add (poll_ l) fd c d)) ∧
     (ep_pending (poll_ l) = negb (size (list_pending l) =? 0) → ep_pending (poll_ l') = negb (size (list_pending l') =? 0)) ∧
     (ep_nofd (poll_ l) = negb (size (list_nofd l) =? 0) → ep_nofd (poll_ l') = negb (size (list_nofd l') =? 0))).
Proof.
  intros Hd. unfold process_add, need in *. rewrite Hd. cbn [negb]. fold (pend d).
  destruct (pend d); unfold pending_add;
    repeat match goal with
    | |- context [size (list_pending (with_process ?x l)) =? 0] => change (list_pending (with_process x l)) with (list_pending l)
    | |- context [if negb (size (list_pending l) =? 0) then _ else _] => destruct (size (list_pending l) =? 0) eqn:?; cbn [negb]
    end;
    destruct (poll_enable l) eqn:Ep; cbn; rewrite ?Ep; destruct (fd =? -1); cbn;
    try (destruct (size (list_nofd l) =? 0) eqn:?); cbn; rewrite ?Ep; cbn; rewrite ?size_add; split_and!; try done;
    intros _; split_and!; try done; unfold poll_add; cbn; try (destruct (ep_fds (poll_ l) !! fd); done);
    destruct (ep_fds (poll_ l) !! fd); cbn; intros ->;
    match goal with E : (size (list_nofd l) =? 0) = _ |- _ => by rewrite E end.
Qed.

Lemma process_del_members l c fd :
  let l' := process_del l c fd in
  poll_enable l' = poll_enable l ∧ list_process l' = del (list_process l) c ∧ list_pending l' = del (list_pending l) c ∧
  list_nofd l' = (if fd =? -1 then del (list_nofd l) c else list_nofd l) ∧
  (poll_enable l = true →
     ep_fds (poll_ l') = (if fd =? -1 then ep_fds (poll_ l) else delete fd (ep_fds (poll_ l))) ∧
     (ep_pending (poll_ l) = negb (size (list_pending l) =? 0) → ep_pending (poll_ l') = negb (size (list_pending l') =? 0)) ∧
     (ep_nofd (poll_ l) = negb (size (list_nofd l) =? 0) → ep_nofd (poll_ l') = negb (size (list_nofd l') =? 0))).
Proof.
  assert (∀ x, (size (del x c) =? 0) = false → (size x =? 0) = false) as Hs by (intros [|]; done).
  unfold process_del, pending_del. cbn [with_process list_pending].
  change (list_pending (with_pending (del (list_pending l) c) (with_process (del (list_process l) c) l))) with (del (list_pending l) c).
  destruct (size (del (list_pending l) c) =? 0) eqn:E1; cbn [negb]; destruct (poll_enable l) eqn:Ep; cbn; rewrite ?Ep;
    destruct (fd =? -1); cbn; try (destruct (size (del (list_nofd l) c) =? 0) eqn:E2); cbn; rewrite ?Ep; cbn;
    rewrite ?E1, ?E2; split_and!; try done; intros _; split_and!; try done;
    try (intros ->; by rewrite (Hs _ E1)); try (intros ->; by rewrite (Hs _ E2)).
Qed.

(** A descriptor is not used by another channel. *)
Definition fd_free (tr : gmap Z (Z * Z)) (c fd : Z) : Prop := ∀ c' d, tr !! c' = Some (fd, d) → fd ≠ -1 → c' = c.

(** First-order reasoning on the entries of the tracked map. *)
Ltac members_ :=
  intros;
  repeat match goal with
  | H : ∃ _, _ |- _ => destruct H
  | H : _ ∧ _ |- _ => destruct H
  | H : _ ∨ _ |- _ => destruct H
  end; simplify_eq; try congruence; eauto 12.
Ltac members := split; members_.

Lemma inv_process_add l tr c fd d :
  inv l tr → need d = true → tr !! c = None → fd_free tr c fd → inv (process_add l c fd d) (<[c := (fd, d)]> tr).
Proof.
  intros Hi Hd Hc Hf. destruct (process_add_members l c fd d Hd) as (Ep & E1 & E2 & E3 & Eep).
  set (l' := process_add l c fd d) in *.
  assert (∀ x v, <[c := (fd, d)]> tr !! x = Some v ↔ (x = c ∧ v = (fd, d)) ∨ tr !! x = Some v) as Hl.
  { intros x v. rewrite lookup_insert_Some. split; [intros [[-> <-]|[? ?]]; auto|]. intros [[-> ->]|Hx]; [auto|].
    right. split; [|done]. intros ->. congruence. }
  split.
  - intros x fd' d' [[-> [= -> ->]]|Hx]%Hl; [done|by eapply iv_need].
  - intros x x' fd' d1 d2 Hx%Hl Hx'%Hl Hne. destruct Hx as [[-> Hx]|Hx], Hx' as [[-> Hx']|Hx']; simplify_eq; try done.
    + symmetry. by eapply Hf.
    + by eapply Hf.
    + by eapply iv_fd.
  - rewrite E1. eapply lset_iff; [apply lset_add; [apply (iv_process _ _ Hi)|intros [? ?]; congruence]|].
    intros x. cbv beta. unfold is_Some. setoid_rewrite Hl. members.
  - rewrite E2. destruct (pend d) eqn:Epd.
    + eapply lset_iff; [apply lset_add; [apply (iv_pending _ _ Hi)|intros (? & ? & ? & _); congruence]|].
      intros x. cbv beta. setoid_rewrite Hl. members.
    + eapply lset_iff; [apply (iv_pending _ _ Hi)|]. intros x. cbv beta. setoid_rewrite Hl. members.
  - rewrite E3. destruct (Z.eqb_spec fd (-1)) as [->|Hne].
    + eapply lset_iff; [apply lset_add; [apply (iv_nofd _ _ Hi)|intros [? ?]; congruence]|].
      intros x. cbv beta. setoid_rewrite Hl. members.
    + eapply lset_iff; [apply (iv_nofd _ _ Hi)|]. intros x. cbv beta. setoid_rewrite Hl. members.
  - rewrite Ep. intros Hp. destruct (Eep Hp) as (-> & _). pose proof (iv_ep _ _ Hi Hp) as Hep.
    intros fd' x ev. setoid_rewrite Hl. destruct (Z.eqb_spec fd (-1)) as [->|Hne].
    + rewrite Hep. members.
    + unfold poll_add. destruct (ep_fds (poll_ l) !! fd) as [[c0 ev0]|] eqn:E.
      { apply Hep in E as (d0 & E & _ & _). exfalso. assert (c0 = c) as -> by (by eapply Hf). congruence. }
      cbn. rewrite lookup_insert_Some, Hep. split; [members_|].
      intros (d' & [[-> [= -> ->]]|Hx] & Hne' & ->); [by left|]. right. split; [|by exists d'].
      intros <-. assert (ep_fds (poll_ l) !! fd = Some (x, caps2events d')) as E' by (apply Hep; by exists d'). congruence.
  - rewrite Ep. intros Hp. apply (Eep Hp). by apply (iv_ep_pending _ _ Hi).
  - rewrite Ep. intros Hp. apply (Eep Hp). by apply (iv_ep_nofd _ _ Hi).
Qed.

Lemma inv_process_del l tr c fd :
  inv l tr → (∀ fd' d, tr !! c = Some (fd', d) → fd' = fd) → fd_free tr c fd → inv (process_del l c fd) (delete c tr).
Proof.
  intros Hi Hc Hf. destruct (process_del_members l c fd) as (Ep & E1 & E2 & E3 & Eep).
  set (l' := process_del l c fd) in *.
  assert (∀ x v, delete c tr !! x = Some v ↔ x ≠ c ∧ tr !! x = Some v) as Hl.
  { intros x v. rewrite lookup_delete_Some. naive_solver. }
  split.
  - intros x fd' d' [_ Hx]%Hl. by eapply iv_need.
  - intros x x' fd' d1 d2 [_ Hx]%Hl [_ Hx']%Hl. by eapply iv_fd.
  - rewrite E1. eapply lset_iff; [apply lset_del, (iv_process _ _ Hi)|]. intros x. cbv beta. unfold is_Some. setoid_rewrite Hl. members.
  - rewrite E2. eapply lset_iff; [apply lset_del, (iv_pending _ _ Hi)|]. intros x. cbv beta. setoid_rewrite Hl. members.
  - rewrite E3. destruct (Z.eqb_spec fd (-1)) as [->|Hne].
    + eapply lset_iff; [apply lset_del, (iv_nofd _ _ Hi)|]. intros x. cbv beta. setoid_rewrite Hl. members.
    + eapply lset_iff; [apply (iv_nofd _ _ Hi)|]. intros x. cbv beta. setoid_rewrite Hl. split; [|members_].
      intros [d Hx]. exists d. split; [|done]. intros ->. apply Hc in Hx. congruence.
  - rewrite Ep. intros Hp. destruct (Eep Hp) as (-> & _). pose proof (iv_ep _ _ Hi Hp) as Hep.
    intros fd' x ev. setoid_rewrite Hl. destruct (Z.eqb_spec fd (-1)) as [->|Hne].
    + rewrite Hep. split; [|members_]. intros (d & Hx & Hn & ->). exists d. split_and!; try done.
      intros ->. by apply Hc in Hx.
    + rewrite lookup_delete_Some, Hep. split.
      * intros (Hn & d & Hx & Hn' & ->). exists d. split_and!; try done. intros ->. apply Hc in Hx. congruence.
      * intros (d & [Hxc Hx] & Hn' & ->). split; [|by exists d]. intros <-. apply Hxc. by eapply Hf.
  - rewrite Ep. intros Hp. apply (Eep Hp). by apply (iv_ep_pending _ _ Hi).
  - rewrite Ep. intros Hp. apply (Eep Hp). by apply (iv_ep_nofd _ _ Hi).
Qed.

(** *** Capability changes *)
Lemma delta_bits a b m n : Z.land (Z.lxor a b) m = 0 → Z.testbit m n = true → Z.testbit a n = Z.testbit b n.
Proof.
  intros E Hm. apply (f_equal (λ z, Z.testbit z n)) in E. rewrite Z.land_spec, Z.lxor_spec, Hm, andb_true_r, Z.testbit_0_l in E.
  by destruct (Z.testbit a n), (Z.testbit b n).
Qed.

Lemma land_pow2 d n : 0 ≤ n → (Z.land d (2 ^ n) =? 0) = negb (Z.testbit d n).
Proof.
  intros Hn. apply eq_true_iff_eq. rewrite Z.eqb_eq, negb_true_iff. split.
  - intros E. apply (f_equal (λ z, Z.testbit z n)) in E.
    by rewrite Z.land_spec, Z.pow2_bits_true, andb_true_r, Z.testbit_0_l in E.
  - intros E. apply Z.bits_inj. intros m. rewrite Z.land_spec, Z.testbit_0_l. destruct (decide (m = n)) as [->|]; [by rewrite E|].
    rewrite Z.pow2_bits_false by lia. by rewrite andb_false_r.
Qed.

Lemma pend_bit d : pend d = Z.testbit d 5.
Proof. unfold pend. change DCAPS_PENDING with (2 ^ 5). by rewrite land_pow2, negb_involutive. Qed.

Lemma caps2events_bits d : caps2events d =
  if Z.testbit d 6 then 0 else Z.lor (if Z.testbit d 0 then EPOLLIN else 0) (if Z.testbit d 1 then EPOLLOUT else 0).
Proof.
  unfold caps2events. change DCAPS_SUSPEND with (2 ^ 6). change DCAPS_POLLIN with (2 ^ 0). change DCAPS_POLLOUT with (2 ^ 1).
  rewrite !land_pow2 by done. by destruct (Z.testbit d 6), (Z.testbit d 0), (Z.testbit d 1).
Qed.

Lemma caps2events_same a b : need a = true → need b = true → Z.land (Z.lxor a b) DCAPS_POLLMASK = 0 → caps2events a = caps2events b.
Proof.
  unfold need. rewrite !need_process_bits. intros [_ Ha]%andb_true_iff [_ Hb]%andb_true_iff E.
  apply negb_true_iff in Ha, Hb. rewrite !caps2events_bits, Ha, Hb.
  by rewrite (delta_bits a b _ 0 E), (delta_bits a b _ 1 E).
Qed.

Lemma pend_delta a b : pend (Z.lxor a b) = xorb (pend a) (pend b).
Proof. rewrite !pend_bit. apply Z.lxor_spec. Qed.

Lemma need_delta a b : Z.land (Z.lxor a b) DCAPS_PROCESS_MASK = 0 → need a = need b.
Proof. intros E. unfold need. rewrite !need_process_bits. by rewrite (delta_bits a b _ 4 E), (delta_bits a b _ 6 E). Qed.

Lemma pending_add_members l c :
  let l' := pending_add l c in
  poll_enable l' = poll_enable l ∧ list_process l' = list_process l ∧ list_pending l' = add (list_pending l) c ∧
  list_nofd l' = list_nofd l ∧ ep_fds (poll_ l') = ep_fds (poll_ l) ∧ ep_nofd (poll_ l') = ep_nofd (poll_ l) ∧
  (poll_enable l = true → ep_pending (poll_ l) = negb (size (list_pending l) =? 0) → ep_pending (poll_ l') = true).
Proof.
  unfold pending_add. destruct (size (list_pending l) =? 0); cbn [negb]; destruct (poll_enable l) eqn:Ep; cbn; rewrite ?Ep; done.
Qed.

Lemma pending_del_members l c :
  let l' := pending_del l c in
  poll_enable l' = poll_enable l ∧ list_process l' = list_process l ∧ list_pending l' = del (list_pending l) c ∧
  list_nofd l' = list_nofd l ∧ ep_fds (poll_ l') = ep_fds (poll_ l) ∧ ep_nofd (poll_ l') = ep_nofd (poll_ l) ∧
  (poll_enable l = true → ep_pending (poll_ l) = negb (size (list_pending l) =? 0) →
   ep_pending (poll_ l') = negb (size (del (list_pending l) c) =? 0)).
Proof.
  assert ((size (del (list_pending l) c) =? 0) = false → (size (list_pending l) =? 0) = false) as Hs by (by destruct (list_pending l)).
  unfold pending_del. cbn [with_pending list_pending]. destruct (size (del (list_pending l) c) =? 0) eqn:E; cbn [negb];
    destruct (poll_enable l) eqn:Ep; cbn; rewrite ?Ep, ?E; try done. split_and!; try done. intros _ ->. by rewrite Hs.
Qed.

(** The pending list and the events of one channel follow its capabilities. *)
Lemma inv_change l tr c fd old new (l' : loop) :
  inv l tr → tr !! c = Some (fd, old) → need new = true →
  poll_enable l' = poll_enable l → list_process l' = list_process l → list_nofd l' = list_nofd l →
  (list_pending l' = if eqb (pend new) (pend old) then list_pending l
                     else if pend new then add (list_pending l) c else del (list_pending l) c) →
  (poll_enable l = true → ep_fds (poll_ l') = (if fd =? -1 then ep_fds (poll_ l) else <[fd := (c, caps2events new)]> (ep_fds (poll_ l)))) →
  (poll_enable l = true → ep_pending (poll_ l') = negb (size (list_pending l') =? 0)) → ep_nofd (poll_ l') = ep_nofd (poll_ l) →
  inv l' (<[c := (fd, new)]> tr).
Proof.
  intros Hi Hc Hn E1 E2 E3 E4 E5 E6 E7.
  assert (∀ x v, <[c := (fd, new)]> tr !! x = Some v ↔ (x = c ∧ v = (fd, new)) ∨ (x ≠ c ∧ tr !! x = Some v)) as Hl.
  { intros x v. rewrite lookup_insert_Some. naive_solver. }
  split.
  - intros x fd' d' [[-> [= -> ->]]|[_ Hx]]%Hl; [done|by eapply iv_need].
  - intros x x' fd' d1 d2 Hx%Hl Hx'%Hl Hne.
    destruct Hx as [[-> Hx]|[_ Hx]], Hx' as [[-> Hx']|[_ Hx']]; simplify_eq; try done; by eapply (iv_fd _ _ Hi).
  - rewrite E2. eapply lset_iff; [apply (iv_process _ _ Hi)|]. intros x. cbv beta.
    destruct (decide (x = c)) as [->|]; [rewrite lookup_insert_eq, Hc; split; eauto|by rewrite lookup_insert_ne].
  - rewrite E4. pose proof (iv_pending _ _ Hi) as Hp.
    assert ((∃ fd' d, <[c := (fd, new)]> tr !! c = Some (fd', d) ∧ pend d = true) ↔ pend new = true) as Hnew.
    { rewrite lookup_insert_eq. split; [intros (? & ? & [= <- <-] & ?); done|]. eauto. }
    assert ((∃ fd' d, tr !! c = Some (fd', d) ∧ pend d = true) ↔ pend old = true) as Hold.
    { rewrite Hc. split; [intros (? & ? & [= <- <-] & ?); done|]. eauto. }
    assert (∀ x, x ≠ c → (∃ fd' d, <[c := (fd, new)]> tr !! x = Some (fd', d) ∧ pend d = true) ↔
                         (∃ fd' d, tr !! x = Some (fd', d) ∧ pend d = true)) as Hoth.
    { intros x Hx. by rewrite lookup_insert_ne. }
    destruct (pend new) eqn:Pn, (pend old) eqn:Po; cbn [eqb].
    + eapply lset_iff; [exact Hp|]. intros x. destruct (decide (x = c)) as [->|Hx]; [by rewrite Hnew, Hold|by rewrite Hoth].
    + eapply lset_iff; [apply lset_add; [exact Hp|by rewrite Hold]|]. intros x.
      destruct (decide (x = c)) as [->|Hx]; [rewrite Hnew; tauto|rewrite Hoth by done; tauto].
    + eapply lset_iff; [apply lset_del, Hp|]. intros x.
      destruct (decide (x = c)) as [->|Hx]; [rewrite Hnew; naive_solver|rewrite Hoth by done; tauto].
    + eapply lset_iff; [exact Hp|]. intros x. destruct (decide (x = c)) as [->|Hx]; [by rewrite Hnew, Hold|by rewrite Hoth].
  - rewrite E3. eapply lset_iff; [apply (iv_nofd _ _ Hi)|]. intros x. cbv beta.
    destruct (decide (x = c)) as [->|Hx]; [|by rewrite lookup_insert_ne].
    rewrite Hc, lookup_insert_eq. split; intros [d [= -> <-]]; eauto.
  - rewrite E1. intros Hp. rewrite (E5 Hp). pose proof (iv_ep _ _ Hi Hp) as Hep. intros fd' x ev. setoid_rewrite Hl.
    destruct (Z.eqb_spec fd (-1)) as [->|Hne].
    + rewrite Hep. split; [intros (d & Hx & Hn' & ->)|intros (d & [[-> [= -> ->]]|[? Hx]] & Hn' & ->)]; [|done|eauto].
      exists d. split_and!; try done. right. split; [|done]. intros ->. congruence.
    + rewrite lookup_insert_Some, Hep. split.
      * intros [[<- [= <- <-]]|[Hf (d & Hx & Hn' & ->)]]; [exists new; auto|]. exists d. split_and!; try done. right.
        split; [|done]. intros ->. congruence.
      * intros (d & [[-> [= -> ->]]|[Hxc Hx]] & Hn' & ->); [by left|]. right. split; [|by exists d].
        intros <-. apply Hxc. by eapply (iv_fd _ _ Hi).
  - rewrite E1. done.
  - rewrite E1, E7, E3. apply (iv_ep_nofd _ _ Hi).
Qed.

(** Second part of [update]: events and pending data of a channel that is processed. *)
Definition update_tail (l : loop) (c fd caps delta : Z) : loop :=
  let l := if negb (Z.land delta DCAPS_POLLMASK =? 0) then
             if poll_enable l && negb (fd =? -1) then with_poll (λ p, poll_update p fd c caps) l else l
           else l in
  if negb (Z.land delta DCAPS_PENDING =? 0) then
    if negb (Z.land caps DCAPS_PENDING =? 0) then pending_add l c else pending_del l c
  else l.

Lemma update_eq l c fd caps old : update l c fd caps old =
  let l1 := if eqb (need caps) (need old) then l
            else if need caps then process_add l c fd caps else process_del l c fd in
  if need caps then update_tail l1 c fd caps (Z.lxor caps old) else l1.
Proof.
  unfold update, update_tail. cbv zeta. fold (need caps) (need old).
  destruct (Z.eqb_spec (Z.land (Z.lxor caps old) DCAPS_PROCESS_MASK) 0) as [E|E]; cbn [negb].
  - rewrite (need_delta _ _ E), eqb_reflx. by destruct (need old).
  - by destruct (eqb (need caps) (need old)), (need caps).
Qed.

Lemma inv_update_tail l tr c fd old caps delta :
  inv l tr → tr !! c = Some (fd, old) → need caps = true →
  (pend delta = false → pend caps = pend old) → (pend delta = true → pend caps = pend old →
     (if pend caps then add (list_pending l) c else del (list_pending l) c) = list_pending l) →
  (Z.land delta DCAPS_POLLMASK = 0 → caps2events caps = caps2events old) →
  inv (update_tail l c fd caps delta) (<[c := (fd, caps)]> tr).
Proof.
  intros Hi Hc Hn Hp0 Hp1 He. unfold update_tail. fold (pend delta) (pend caps).
  set (l1 := if negb (Z.land delta DCAPS_POLLMASK =? 0) then _ else _).
  assert (poll_enable l1 = poll_enable l ∧ list_process l1 = list_process l ∧ list_pending l1 = list_pending l ∧
    list_nofd l1 = list_nofd l ∧ ep_pending (poll_ l1) = ep_pending (poll_ l) ∧ ep_nofd (poll_ l1) = ep_nofd (poll_ l) ∧
    (poll_enable l = true → ep_fds (poll_ l1) = (if fd =? -1 then ep_fds (poll_ l) else <[fd := (c, caps2events caps)]> (ep_fds (poll_ l)))))
    as (E1 & E2 & E3 & E4 & E5 & E6 & E7).
  { unfold l1. destruct (poll_enable l) eqn:Ep; cycle 1.
    { destruct (negb _); cbn; rewrite ?Ep; done. }
    assert (fd ≠ -1 → ep_fds (poll_ l) !! fd = Some (c, caps2events old)) as Hfd.
    { intros Hne. apply (iv_ep _ _ Hi Ep). by exists old. }
    destruct (Z.eqb_spec (Z.land delta DCAPS_POLLMASK) 0) as [Ed|Ed]; cbn [negb].
    - split_and!; try done. intros _. destruct (Z.eqb_spec fd (-1)); [done|]. rewrite (He Ed). by rewrite insert_id by auto.
    - destruct (Z.eqb_spec fd (-1)) as [->|Hne]; cbn; [done|]. unfold poll_update. rewrite (Hfd Hne). cbn. done. }
  destruct (pend delta) eqn:Pd; [destruct (pend caps) eqn:Pc|].
  - destruct (pending_add_members l1 c) as (F1 & F2 & F3 & F4 & F5 & F6 & F7). rewrite E1, E2, E3, E4, E6 in *.
    eapply inv_change; [done..| | | |congruence].
    + rewrite F3, Pc. destruct (pend old) eqn:Po; cbn [eqb]; [by apply Hp1|done].
    + intros Hp. by rewrite F5, E7.
    + intros Hp. rewrite F3, size_add. apply F7; [done|]. rewrite E5. by apply (iv_ep_pending _ _ Hi).
  - destruct (pending_del_members l1 c) as (F1 & F2 & F3 & F4 & F5 & F6 & F7). rewrite E1, E2, E3, E4, E6 in *.
    eapply inv_change; [done..| | | |congruence].
    + rewrite F3, Pc. destruct (pend old) eqn:Po; cbn [eqb]; [done|by apply Hp1].
    + intros Hp. by rewrite F5, E7.
    + intros Hp. rewrite F3. apply F7; [done|]. rewrite E5. by apply (iv_ep_pending _ _ Hi).
  - eapply inv_change; [done..| | | |done].
    + by rewrite (Hp0 eq_refl), eqb_reflx.
    + done.
    + intros Hp. rewrite E3, E5. by apply (iv_ep_pending _ _ Hi).
Qed.

Lemma inv_update l tr c fd caps old :
  inv l tr → (need old = false → tr !! c = None) → (need old = true → need caps = true → tr !! c = Some (fd, old)) →
  (∀ fd' d, tr !! c = Some (fd', d) → fd' = fd) → fd_free tr c fd →
  inv (update l c fd caps old) (if need caps then <[c := (fd, caps)]> tr else delete c tr).
Proof.
  intros Hi Hno Hyes Hfd Hf. rewrite update_eq. cbv zeta. destruct (need caps) eqn:Nc, (need old) eqn:No; cbn [eqb].
  - pose proof (Hyes eq_refl eq_refl) as Hc. eapply inv_update_tail; [done|exact Hc|done|..].
    + rewrite pend_delta. by destruct (pend caps), (pend old).
    + rewrite pend_delta. by destruct (pend caps), (pend old).
    + intros E. by apply caps2events_same.
  - specialize (Hno eq_refl). assert (inv (process_add l c fd caps) (<[c := (fd, caps)]> tr)) as Hi1 by (by apply inv_process_add).
    rewrite <-(insert_insert_eq tr c (fd, caps) (fd, caps)). eapply inv_update_tail; [done|by rewrite lookup_insert_eq|done|done| |done].
    intros _ _. destruct (process_add_members l c fd caps Nc) as (_ & _ & E & _ & _). destruct (pend caps) eqn:Pc.
    + rewrite E. apply insert_idemp.
    + apply del_absent; [|apply (iv_pending _ _ Hi1)]. destruct (iv_pending _ _ Hi1) as (_ & Hin & _).
      rewrite Hin. intros (? & ? & Hx & Hpd). rewrite lookup_insert_eq in Hx. congruence.
  - by apply inv_process_del.
  - rewrite delete_id by auto. done.
Qed.

(** *** Trees of channels *)
Section ctree_ind.
Variable P : ctree → Prop.
Hypothesis HP : ∀ c fd d ks, Forall P ks → P (CNode c fd d ks).
Fixpoint ctree_ind' (t : ctree) : P t :=
  match t with
  | CNode c fd d ks => HP c fd d ks ((fix go ks := match ks return Forall P ks with
      | [] => Forall_nil_2 P | k :: ks => Forall_cons_2 P k ks (ctree_ind' k) (go ks) end) ks)
  end.
End ctree_ind.

Definition node : Type := Z * Z * Z.

(** Channels of a tree in the order they are added, and in the order they are removed. *)
Fixpoint pre_nodes (t : ctree) : list node :=
  match t with CNode c fd d ks => (c, fd, d) :: concat (map pre_nodes ks) end.
Fixpoint post_nodes (t : ctree) : list node :=
  match t with CNode c fd d ks => concat (map post_nodes ks) ++ [(c, fd, d)] end.

Definition add_node (l : loop) (n : node) : loop :=
  let '(c, fd, d) := n in process_add (with_list (list_ l ++ [c]) l) c fd d.
Definition del_node (l : loop) (n : node) : loop :=
  let '(c, fd, d) := n in let l := process_del l c fd in with_list (list_erase c (list_ l)) l.

Lemma loop_add_fold t : ∀ l, loop_add t l = foldl add_node l (pre_nodes t).
Proof.
  induction t as [c fd d ks IH] using ctree_ind'. intros l. cbn [loop_add pre_nodes foldl add_node].
  generalize (process_add (with_list (list_ l ++ [c]) l) c fd d) as l1.
  induction IH as [|k ks Hk _ IHk]; intros l1; [done|]. cbn [map concat]. rewrite foldl_app, <-Hk. apply IHk.
Qed.

Lemma loop_del_fold t : ∀ l, loop_del t l = foldl del_node l (post_nodes t).
Proof.
  induction t as [c fd d ks IH] using ctree_ind'. intros l. cbn [loop_del post_nodes]. rewrite foldl_app. cbn [foldl del_node].
  assert ((fix go ks l := match ks with [] => l | k :: ks => go ks (loop_del k l) end) ks l = foldl del_node l (concat (map post_nodes ks))) as ->; [|done].
  revert l. induction IH as [|k ks Hk _ IHk]; intros l; [done|]. cbn [map concat]. rewrite foldl_app, <-Hk. apply IHk.
Qed.

(** The same on the tracked map, and when it is well defined. *)
Definition tr_add (tr : gmap Z (Z * Z)) (n : node) : gmap Z (Z * Z) :=
  let '(c, fd, d) := n in if need d then <[c := (fd, d)]> tr else tr.
Definition tr_del (tr : gmap Z (Z * Z)) (n : node) : gmap Z (Z * Z) := delete (fst (fst n)) tr.

Definition can_add (tr : gmap Z (Z * Z)) (n : node) : Prop :=
  let '(c, fd, d) := n in need d = true → tr !! c = None ∧ fd_free tr c fd.
Definition can_del (tr : gmap Z (Z * Z)) (n : node) : Prop :=
  let '(c, fd, _) := n in (∀ fd' d, tr !! c = Some (fd', d) → fd' = fd) ∧ fd_free tr c fd.

Fixpoint each_ok (ok : gmap Z (Z * Z) → node → Prop) (st : gmap Z (Z * Z) → node → gmap Z (Z * Z))
  (tr : gmap Z (Z * Z)) (ns : list node) : Prop :=
  match ns with [] => True | n :: ns => ok tr n ∧ each_ok ok st (st tr n) ns end.

Lemma inv_with_list x l tr : inv l tr → inv (with_list x l) tr.
Proof. intros []. by split. Qed.

Lemma inv_add_node l tr n : inv l tr → can_add tr n → inv (add_node l n) (tr_add tr n).
Proof.
  destruct n as [[c fd] d]. cbn. intros Hi Hc. destruct (need d) eqn:E.
  - destruct (Hc eq_refl). apply inv_process_add; try done. by apply inv_with_list.
  - unfold process_add. unfold need in E. rewrite E. by apply inv_with_list.
Qed.

Lemma inv_del_node l tr n : inv l tr → can_del tr n → inv (del_node l n) (tr_del tr n).
Proof. destruct n as [[c fd] d]. cbn. intros Hi [H1 H2]. by apply inv_with_list, inv_process_del. Qed.

Lemma inv_nodes (f : loop → node → loop) ok st ns : (∀ l tr n, inv l tr → ok tr n → inv (f l n) (st tr n)) →
  ∀ l tr, inv l tr → each_ok ok st tr ns → inv (foldl f l ns) (foldl st tr ns).
Proof. intros Hf. induction ns as [|n ns IH]; intros l tr Hi Ho; cbn in *; [done|]. destruct Ho. apply IH; auto. Qed.

(** *** Messages *)
Definition track (tr : gmap Z (Z * Z)) (m : message) : gmap Z (Z * Z) :=
  match m with
  | MState Opening (CNode c fd d _) => tr_add tr (c, fd, d)
  | MState (Closed | Error) (CNode c fd d _) => tr_del tr (c, fd, d)
  | MState Destroy t | MDelete t => foldl tr_del tr (post_nodes t)
  | MState _ _ => tr
  | MAdd t => foldl tr_add tr (pre_nodes t)
  | MUpdate c fd d old => if need d then <[c := (fd, d)]> tr else delete c tr
  | MUpdateFd c fd d old => if need d then <[c := (fd, d)]> tr else tr
  end.

(** What channels guarantee about their messages: the old values are those the
    loop was told before, two channels do not share a descriptor, and a channel
    is announced again only after it was stopped. *)
Definition sound (tr : gmap Z (Z * Z)) (m : message) : Prop :=
  match m with
  | MState Opening (CNode c fd d _) => can_add tr (c, fd, d)
  | MState (Closed | Error) (CNode c fd d _) => can_del tr (c, fd, d)
  | MState Destroy t | MDelete t => each_ok can_del tr_del tr (post_nodes t)
  | MState _ _ => True
  | MAdd t => each_ok can_add tr_add tr (pre_nodes t)
  | MUpdate c fd d old =>
      (need old = false → tr !! c = None) ∧ (need old = true → need d = true → tr !! c = Some (fd, old)) ∧ can_del tr (c, fd, d)
  | MUpdateFd c fd d old => need d = true → can_del tr (c, old, d) ∧ fd_free tr c fd
  end.

Fixpoint all_sound (tr : gmap Z (Z * Z)) (ms : list message) : Prop :=
  match ms with [] => True | m :: ms => sound tr m ∧ all_sound (track tr m) ms end.

Lemma inv_callback l tr m : inv l tr → sound tr m → inv (callback l m) (track tr m).
Proof.
  intros Hi Hs. assert (∀ n, can_add tr n → inv (let '(c, fd, d) := n in process_add l c fd d) (tr_add tr n)) as Hadd.
  { intros [[c fd] d] H. cbn in *. destruct (need d) eqn:E; [destruct (H eq_refl); by apply inv_process_add|].
    unfold process_add. unfold need in E. by rewrite E. }
  assert (∀ t, each_ok can_del tr_del tr (post_nodes t) → inv (loop_del t l) (foldl tr_del tr (post_nodes t))) as Hdel.
  { intros t Ht. rewrite loop_del_fold. eapply inv_nodes; [|done|done]. apply inv_del_node. }
  destruct m as [s [c fd d ks]|t|t|c fd d old|c fd d old]; cbn [callback track sound] in *.
  - destruct s; try done.
    + destruct Hs as [H1 H2]. by apply inv_process_del.
    + by apply (Hadd (c, fd, d)).
    + destruct Hs as [H1 H2]. by apply inv_process_del.
    + by apply Hdel.
  - rewrite loop_add_fold. eapply inv_nodes; [|done|done]. apply inv_add_node.
  - by apply Hdel.
  - destruct Hs as (H1 & H2 & H3 & H4). by apply inv_update.
  - unfold update_fd. fold (need d). destruct (need d) eqn:E; [|done]. destruct (Hs eq_refl) as [[H1 H2] H3].
    rewrite <-(insert_delete_eq tr c). apply inv_process_add; [by apply inv_process_del|done|by rewrite lookup_delete_eq|].
    intros c' d' Hc'. apply lookup_delete_Some in Hc' as [_ Hc']. by apply (H3 c' d').
Qed.

Lemma inv_run ms : ∀ l tr, inv l tr → all_sound tr ms → inv (foldl callback l ms) (foldl track tr ms).
Proof. induction ms as [|m ms IH]; intros l tr Hi Hs; cbn in *; [done|]. destruct Hs. apply IH; [|done]. by apply inv_callback. Qed.

(** C26: the loop knows its channels: after any sequence of messages of channels
    (added and deleted with their children, opened, closed, failed, destroyed,
    capabilities or descriptor changed, suspended and resumed), the process
    list holds exactly the channels that are to be processed, the pending and
    the nofd list those of them with pending data and without a descriptor,
    each once; with polling the epoll set has exactly the descriptors of these
    channels with the events of their capabilities, and the two helper
    descriptors are enabled exactly when their list is not empty. *)
Theorem loop_tracks_channels (b : bool) (steps : Z) (ms : list message) (H : all_sound ∅ ms) :
  inv (foldl callback (init b steps) ms) (foldl track ∅ ms).
Proof. apply inv_run; [apply inv_init|done]. Qed.

Definition sample_messages : list message :=
  [MAdd (CNode 1 (-1) 0 [CNode 2 5 0 []]); MUpdate 1 (-1) 16 0; MUpdate 2 5 17 0; MUpdate 2 5 49 17; MUpdateFd 2 6 49 5;
   MUpdate 1 (-1) 80 16; MState Error (CNode 2 6 49 []); MUpdate 2 6 0 49; MState Destroy (CNode 2 6 0 [])].

(** Decide lookups in the maps of an example. *)
Ltac eval_track :=
  cbn [all_sound sound track each_ok foldl pre_nodes post_nodes map concat app can_add can_del tr_add tr_del fst snd];
  repeat match goal with |- context [need ?x] => let b := eval vm_compute in (need x) in change (need x) with b end;
  cbv iota.
Ltac find_in_track :=
  repeat match goal with
  | H : <[_ := _]> _ !! _ = Some _ |- _ => apply lookup_insert_Some in H as [[? H]|[? H]]
  | H : delete _ _ !! _ = Some _ |- _ => apply lookup_delete_Some in H as [? H]
  | H : ∅ !! _ = Some _ |- _ => by rewrite lookup_empty in H
  end; simplify_eq; try done.

Lemma loop_tracks_channels_witness :
  inv (foldl callback (init true 8) sample_messages) (foldl track ∅ sample_messages).
Proof.
  apply loop_tracks_channels. unfold sample_messages. repeat (eval_track; split); eval_track; unfold fd_free; intros; split_and?; try done; intros; find_in_track.
Defined.

(** ** Processing *)
Lemma process_list_spec process l flags : ∀ r,
  process_list process l flags r =
  (map (λ c, (c, flags)) (elems l),
   if (r =? 0) && bool_decide (Forall (λ c, process c = EAGAIN) (elems l)) then EAGAIN else 0).
Proof.
  induction l as [|[c|] l IH]; intros r; cbn [process_list elems map].
  - rewrite bool_decide_true by constructor. by rewrite andb_true_r.
  - rewrite IH. f_equal. destruct (Z.eqb_spec (Z.lor r (Z.lxor (process c) EAGAIN)) 0) as [E|E].
    + apply Z.lor_eq_0_iff in E as [-> E%Z.lxor_eq]. cbn.
      assert (Forall (λ c, process c = EAGAIN) (c :: elems l) ↔ Forall (λ c, process c = EAGAIN) (elems l)) as Hiff
        by (rewrite Forall_cons; naive_solver).
      by rewrite (bool_decide_ext _ _ Hiff).
    + cbn. destruct (Z.eqb_spec r 0) as [->|]; [|done]. cbn. rewrite bool_decide_false; [done|].
      intros [H _]%Forall_cons. rewrite H, Z.lxor_nilpotent in E. done.
  - apply IH.
Qed.

(** Process_list runs every channel of the list once, in order, skipping
    holes, and returns EAGAIN exactly when all of them returned EAGAIN; on
    lists that track the channels, a wakeup of the pending descriptor
    processes exactly the channels with pending data, a wakeup of the timer
    descriptor exactly those without a descriptor, and a step without polling
    the pending ones and then all that are to be processed. *)
Theorem loop_step_processes (l : loop) (tr : gmap Z (Z * Z)) (process : Z → Z) (Hi : inv l tr) :
  (∀ x flags, snd (process_list process x flags 0) = EAGAIN ↔ Forall (λ c, process c = EAGAIN) (elems x)) ∧
  (poll_enable l = true → pending_steps l = 0 →
     (∃ cs, sr_calls (fst (poll true process Pending l)) = map (λ c, (c, PROCESS_PENDING)) cs ∧ NoDup cs ∧
        ∀ c, c ∈ cs ↔ ∃ fd d, tr !! c = Some (fd, d) ∧ pend d = true) ∧
     (∃ cs, sr_calls (fst (poll true process Nofd l)) = map (λ c, (c, 0)) cs ∧ NoDup cs ∧
        ∀ c, c ∈ cs ↔ ∃ d, tr !! c = Some (-1, d))) ∧
  (poll_enable l = false → ∀ r, ∃ cs cs', sr_calls (fst (poll true process r l)) = map (λ c, (c, 0)) (cs ++ cs') ∧
     NoDup cs ∧ NoDup cs' ∧ (∀ c, c ∈ cs ↔ ∃ fd d, tr !! c = Some (fd, d) ∧ pend d = true) ∧
     ∀ c, c ∈ cs' ↔ is_Some (tr !! c)).
Proof.
  destruct (iv_process _ _ Hi) as (Hn1 & Hi1 & _), (iv_pending _ _ Hi) as (Hn2 & Hi2 & _), (iv_nofd _ _ Hi) as (Hn3 & Hi3 & _).
  split_and!.
  - intros x flags. rewrite process_list_spec. cbn. case_bool_decide; cbn; done.
  - intros Hp Hs. unfold poll. rewrite Hp, Hs. cbn. rewrite !process_list_spec. cbn.
    split; [by exists (elems (list_pending l))|by exists (elems (list_nofd l))].
  - intros Hp r. unfold poll. rewrite Hp. cbn. rewrite !process_list_spec. cbn.
    exists (elems (list_pending l)), (elems (list_process l)). rewrite map_app. done.
Qed.

Lemma loop_step_processes_witness :
  (∀ x flags, snd (process_list (λ _, EAGAIN) x flags 0) = EAGAIN ↔ Forall (λ c, EAGAIN = EAGAIN) (elems x)) ∧
  (poll_enable (init true 0) = true → pending_steps (init true 0) = 0 →
     (∃ cs, sr_calls (fst (poll true (λ _, EAGAIN) Pending (init true 0))) = map (λ c, (c, PROCESS_PENDING)) cs ∧ NoDup cs ∧
        ∀ c, c ∈ cs ↔ ∃ fd d, (∅ : gmap Z (Z * Z)) !! c = Some (fd, d) ∧ pend d = true) ∧
     (∃ cs, sr_calls (fst (poll true (λ _, EAGAIN) Nofd (init true 0))) = map (λ c, (c, 0)) cs ∧ NoDup cs ∧
        ∀ c, c ∈ cs ↔ ∃ d, (∅ : gmap Z (Z * Z)) !! c = Some (-1, d))) ∧
  (poll_enable (init true 0) = false → ∀ r, ∃ cs cs', sr_calls (fst (poll true (λ _, EAGAIN) r (init true 0))) = map (λ c, (c, 0)) (cs ++ cs') ∧
     NoDup cs ∧ NoDup cs' ∧ (∀ c, c ∈ cs ↔ ∃ fd d, (∅ : gmap Z (Z * Z)) !! c = Some (fd, d) ∧ pend d = true) ∧
     ∀ c, c ∈ cs' ↔ is_Some ((∅ : gmap Z (Z * Z)) !! c)).
Proof. apply (loop_step_processes (init true 0) ∅ (λ _, EAGAIN)). apply inv_init. Defined.

(** ** Fairness: pending channels do not keep the loop from polling *)
Definition same_counts (l l' : loop) : Prop :=
  poll_enable l' = poll_enable l ∧ pending_count l' = pending_count l ∧ pending_steps l' = pending_steps l.

#[global] Instance same_counts_preorder : PreOrder same_counts.
Proof. split; [done|]. intros a b c (?&?&?) (?&?&?). split_and!; congruence. Qed.

Lemma with_poll_counts f l : same_counts l (with_poll f l).
Proof. done. Qed.

Lemma pending_add_counts l c : same_counts l (pending_add l c).
Proof. unfold pending_add. by repeat case_match. Qed.
Lemma pending_del_counts l c : same_counts l (pending_del l c).
Proof. unfold pending_del. by repeat case_match. Qed.

Lemma process_add_counts l c fd d : same_counts l (process_add l c fd d).
Proof.
  unfold process_add. destruct (negb (tll_channel_dcap_need_process d)); [done|]. cbv zeta.
  set (l1 := with_process _ l). set (l2 := if negb (Z.land d DCAPS_PENDING =? 0) then _ else _).
  transitivity l2; [|by repeat case_match]. unfold l2. case_match; [|done].
  transitivity l1; [done|]. apply pending_add_counts.
Qed.

Lemma process_del_counts l c fd : same_counts l (process_del l c fd).
Proof.
  unfold process_del. cbv zeta. set (l1 := with_process _ l). transitivity (pending_del l1 c).
  - transitivity l1; [done|]. apply pending_del_counts.
  - by repeat case_match.
Qed.

Lemma update_counts l c fd d old : same_counts l (update l c fd d old).
Proof.
  rewrite update_eq. cbv zeta. set (l1 := if eqb (need d) (need old) then l else _).
  assert (same_counts l l1) as H1.
  { unfold l1. destruct (eqb (need d) (need old)); [done|].
    destruct (need d); [apply process_add_counts|apply process_del_counts]. }
  destruct (need d); [|done]. transitivity l1; [done|]. unfold update_tail. cbv zeta. set (l2 := if negb _ then _ else l1).
  transitivity l2; [unfold l2; by repeat case_match|]. case_match; [|done].
  case_match; [apply pending_add_counts|apply pending_del_counts].
Qed.

Lemma nodes_counts (f : loop → node → loop) ns : (∀ l n, same_counts l (f l n)) → ∀ l, same_counts l (foldl f l ns).
Proof. intros Hf. induction ns as [|n ns IH]; intros l; cbn; [done|]. transitivity (f l n); auto. Qed.

Lemma callback_counts l m : same_counts l (callback l m).
Proof.
  assert (∀ t, same_counts l (loop_del t l)) as Hdel.
  { intros t. rewrite loop_del_fold. apply nodes_counts. intros l1 [[c fd] d]. cbn. transitivity (process_del l1 c fd); [apply process_del_counts|done]. }
  destruct m as [s [c fd d ks]|t|t|c fd d old|c fd d old]; cbn [callback].
  - destruct s; auto using process_del_counts, process_add_counts; done.
  - rewrite loop_add_fold. apply nodes_counts. intros l1 [[c fd] d]. cbn.
    transitivity (with_list (list_ l1 ++ [c]) l1); [done|apply process_add_counts].
  - apply Hdel.
  - apply update_counts.
  - unfold update_fd. case_match; [|done]. transitivity (process_del l c old); [apply process_del_counts|apply process_add_counts].
Qed.

Lemma callbacks_counts ms : ∀ l, same_counts l (foldl callback l ms).
Proof. induction ms as [|m ms IH]; intros l; cbn; [done|]. transitivity (callback l m); [apply callback_counts|apply IH]. Qed.

(** Whether each of a sequence of polls, with messages in between, reached the descriptors. *)
Fixpoint polls (process : Z → Z) (l : loop) (rs : list (list message * PollResult)) : list bool :=
  match rs with
  | [] => []
  | (ms, r) :: rs =>
      let '(s, l) := poll true process r (foldl callback l ms) in sr_polled s :: polls process l rs
  end.

Lemma polls_fair process rs : ∀ l,
  poll_enable l = true → 0 ≤ pending_count l ≤ pending_steps l → pending_steps l < 2 ^ 32 - 1 →
  pending_steps l - pending_count l < zlen rs → true ∈ polls process l rs.
Proof.
  induction rs as [|[ms r] rs IH]; intros l Hp Hc Hs Hn; cbn [polls]; [rewrite zlen_nil in Hn; lia|].
  rewrite zlen_cons in Hn. destruct (callbacks_counts ms l) as (E1 & E2 & E3). set (l1 := foldl callback l ms) in *.
  unfold poll. rewrite E1, Hp, E2, E3. destruct (negb (pending_steps l =? 0) && negb (size (list_pending l1) =? 0)) eqn:Eb.
  - destruct (Z.ltb_spec (pending_count l) (pending_steps l)); cbn [sr_polled].
    + apply list_elem_of_further. assert (u32 (pending_count l + 1) = pending_count l + 1) as Ew by (apply wrapu_id; lia).
      apply IH; cbn; rewrite ?E1, ?E3, ?Ew; lia || done.
    + destruct r; cbn; left.
  - destruct r; cbn; left.
Qed.

(** Pending data does not starve the descriptors: whatever the channels do
    in between and however many of them stay pending, at least one of any
    pending-steps + 1 consecutive polls (of a loop whose counter is within its
    bound, which holds initially and is kept) really polls the descriptors. *)
Theorem loop_polls_descriptors (process : Z → Z) (l : loop) (rs : list (list message * PollResult))
  (Hp : poll_enable l = true) (Hc : 0 ≤ pending_count l ≤ pending_steps l) (Hs : pending_steps l < 2 ^ 32 - 1)
  (Hn : pending_steps l < zlen rs) :
  true ∈ polls process l rs ∧
  ∀ ms r, let l' := snd (poll true process r (foldl callback l ms)) in 0 ≤ pending_count l' ≤ pending_steps l'.
Proof.
  split; [apply polls_fair; try done; lia|]. intros ms r. cbv zeta. destruct (callbacks_counts ms l) as (E1 & E2 & E3).
  unfold poll. rewrite E1, Hp, E2, E3. set (l1 := foldl callback l ms) in *.
  destruct (negb (pending_steps l =? 0) && negb (size (list_pending l1) =? 0)); [destruct (Z.ltb_spec (pending_count l) (pending_steps l))|].
  - cbn. rewrite E3, wrapu_id; lia.
  - cbn. rewrite E3. lia.
  - cbn. rewrite E2, E3. lia.
Qed.

Lemma loop_polls_descriptors_witness :
  true ∈ polls (λ _, EAGAIN) (init true 1) [([MAdd (CNode 1 (-1) 48 [])], Timeout); ([], Timeout)] ∧
  ∀ ms r, let l' := snd (poll true (λ _, EAGAIN) r (foldl callback (init true 1) ms)) in 0 ≤ pending_count l' ≤ pending_steps l'.
Proof. apply (loop_polls_descriptors (λ _, EAGAIN) (init true 1)); cbn; [done|lia|lia|rewrite !zlen_cons, zlen_nil; lia]. Defined.
End Loop.
