(* ===== verification/Reopen.v ===== *)
(** * Reopening of child channels and sequence numbers

    src/tll/channel/reopen.h ([ReopenData] and the mixin [Reopen]) with its C
    interface in src/channel/reopen.cc, and the small mixins
    src/tll/channel/autoseq.h and src/tll/channel/lastseq.h.  Time points and
    durations are nanoseconds; the zero time point stands for "not set".  The
    only arithmetic that can leave its type in practice is the exponential
    backoff, and [None] stands for undefined behaviour there. *)
From S2P Require Import Prelude Callback Channel.
Import Cb Chan.

Module Reopen.

Inductive Action := ANone | AOpen | AClose | ARearm.

#[global] Instance Action_eq_dec : EqDecision Action.
Proof. solve_decision. Defined.

(** [ReopenData]; the channel is [None] or its id. *)
Record data := Data {
  channel : option Z;
  rstate : state;
  next : Z;
  active_ts : Z;
  closing_ts : Z;
  timeout_open : Z;
  timeout_close : Z;
  timeout_min : Z;
  timeout_max : Z;
  timeout_tremble : Z;
  time_step_suspend : Z;
  reopen_wait : bool;
  count : Z;
}.

Definition ms : Z := 1000000.
Definition second : Z := 1000000000.

Definition default_data : data :=
  Data None Closed 0 0 0 (300 * second) (10 * second) (1 * second) (30 * second) (1 * ms) (1 * second) false 0.

(** The members that the operations change. *)
Definition set (d : data) (c : option Z) (s : state) (n a cl : Z) (w : bool) (k : Z) : data :=
  Data c s n a cl (timeout_open d) (timeout_close d) (timeout_min d) (timeout_max d) (timeout_tremble d)
    (time_step_suspend d) w k.

Definition pending (d : data) : bool := negb (next d =? 0).
Definition force_close (d : data) : bool := bool_decide (rstate d = Closing).

(** [reset], with the state of the channel if there is one. *)
Definition reset (d : data) (chan_state : state) : data :=
  set d (channel d) (match channel d with Some _ => chan_state | None => Closed end) 0 (active_ts d) (closing_ts d) (reopen_wait d) 0.

(** [timeout_min * (1ll << (count - 1))]: undefined when the shift or the
    product does not fit. *)
Definition timeout (d : data) : option Z :=
  if count d =? 0 then Some 0
  else if count d - 1 <? 63 then
    let r := timeout_min d * Z.shiftl 1 (count d - 1) in
    if (- 2 ^ 63 <=? r) && (r <? 2 ^ 63) then Some (Z.min (timeout_max d) r) else None
  else None.

Definition on_state (d : data) (s : state) (now : Z) (chan_state : state) : option data :=
  match s with
  | Opening =>
      let! t := timeout d in
      let k := if t <? timeout_max d then u32 (count d + 1) else count d in
      let n := if timeout_open d >? 0 then now + timeout_open d else 0 in
      Some (set d (channel d) s n 0 (closing_ts d) (reopen_wait d) k)
  | Active => Some (set d (channel d) s 0 now (closing_ts d) (reopen_wait d) (count d))
  | Error =>
      let w := match rstate d with
               | Opening => true
               | Active => if now - active_ts d <? timeout_tremble d then true else reopen_wait d
               | _ => reopen_wait d
               end in
      Some (set d (channel d) s now (active_ts d) (closing_ts d) w (count d))
  | Closing =>
      let cl := if closing_ts d =? 0 then now else closing_ts d in
      let w := match rstate d with
               | Active => if now - active_ts d <? timeout_tremble d then true else reopen_wait d
               | _ => reopen_wait d
               end in
      Some (set d (channel d) s (cl + timeout_close d) (active_ts d) cl w (count d))
  | Closed =>
      if reopen_wait d then
        let! t := timeout d in
        Some (set d (channel d) s (now + t) (active_ts d) 0 false (count d))
      else Some (set d (channel d) s now (active_ts d) 0 false 0)
  | Destroy =>
      let d := reset (set d None (rstate d) 0 (active_ts d) (closing_ts d) (reopen_wait d) (count d)) chan_state in
      Some (set d (channel d) s (next d) (active_ts d) (closing_ts d) (reopen_wait d) (count d))
  end.

(** [on_timer]; [suspended] is the Suspend capability of the channel. *)
Definition on_timer (d : data) (now : Z) (suspended : bool) : Action * data :=
  match rstate d with
  | Error => (AClose, d)
  | Closed => if now >=? next d then (AOpen, d) else (ANone, d)
  | Opening =>
      if now >=? next d then
        if (time_step_suspend d >? 0) && bool_decide (is_Some (channel d)) && suspended
        then (ARearm, set d (channel d) (rstate d) (now + time_step_suspend d) (active_ts d) (closing_ts d) (reopen_wait d) (count d))
        else (AClose, d)
      else (ANone, d)
  | Closing => if now >=? next d then (AClose, d) else (ANone, d)
  | _ => (ANone, d)
  end.

(** ** The mixin *)

(** [_reopen_cb]: the new data, and the time the timer is armed for. *)
Definition _reopen_cb (self : state) (d : data) (s : state) (now : Z) (chan_state : state) : option (data * option Z) :=
  let! d := on_state d s now chan_state in
  match self with
  | Active | Opening => Some (d, if pending d then Some (next d) else None)
  | _ => Some (d, None)
  end.

(** What [_reopen_timer_cb] does with the child and the timer. *)
Inductive effect := EffNone | EffOpen | EffClose (force : bool) | EffRearm (t : Z).

Definition _reopen_timer_cb (d : data) (now : Z) (suspended : bool) : effect * data :=
  match channel d with
  | None => (EffNone, d)
  | Some _ =>
      match on_timer d now suspended with
      | (AOpen, d) => (EffOpen, d)
      | (AClose, d) => (EffClose (force_close d), d)
      | (ARearm, d) => (if pending d then EffRearm (next d) else EffNone, d)
      | (ANone, d) => (EffNone, d)
      end
  end.

(** ** Backoff *)

(** Parameters for which the backoff is defined. *)
Definition sane (d : data) : Prop := 0 < timeout_min d ≤ timeout_max d ∧ timeout_max d < 2 ^ 62.

(** The counter stops growing once the timeout has reached the maximum. *)
Definition bounded (d : data) : Prop :=
  sane d ∧ 0 ≤ count d ∧ (0 < count d → count d - 1 < 63 ∧ timeout_min d * 2 ^ (count d - 1) < 2 * timeout_max d).

Lemma timeout_bounded d : bounded d →
  timeout d = Some (if count d =? 0 then 0 else Z.min (timeout_max d) (timeout_min d * 2 ^ (count d - 1))).
Proof.
  intros ([Hm Hx] & Hc & Hk). unfold timeout. destruct (Z.eqb_spec (count d) 0) as [E|Hne]; [done|].
  destruct (Hk ltac:(lia)) as [H63 Hb]. rewrite Z.shiftl_1_l.
  assert (0 < 2 ^ (count d - 1)) by (apply Z.pow_pos_nonneg; lia).
  rewrite (proj2 (Z.ltb_lt _ _)) by lia. change (2 ^ 63) with (2 * 2 ^ 62).
  rewrite (proj2 (Z.leb_le _ _)) by nia. by rewrite (proj2 (Z.ltb_lt _ _)) by lia.
Qed.

Lemma pow_succ_count n : 0 < n → 2 ^ (n + 1 - 1) = 2 * 2 ^ (n - 1).
Proof. intros. replace (n + 1 - 1) with (Z.succ (n - 1)) by lia. apply Z.pow_succ_r. lia. Qed.

Lemma bounded_open d t : bounded d → timeout d = Some t → t < timeout_max d →
  0 ≤ count d + 1 ∧ count d < 63 ∧ (count d + 1 - 1 < 63 ∧ timeout_min d * 2 ^ (count d + 1 - 1) < 2 * timeout_max d).
Proof.
  intros Hb Ht Hlt. rewrite (timeout_bounded d Hb) in Ht. destruct Hb as ([Hm Hx] & Hc & Hk). injection Ht as <-.
  destruct (Z.eqb_spec (count d) 0) as [E|E].
  - rewrite E. change (2 ^ (0 + 1 - 1)) with 1. lia.
  - destruct (Hk ltac:(lia)) as [H63 Hb]. rewrite pow_succ_count by lia.
    assert (timeout_min d * 2 ^ (count d - 1) < timeout_max d) as Hlt2 by lia.
    assert (count d - 1 < 62) as H62.
    { apply (Z.pow_lt_mono_r_iff 2); [lia|lia|]. assert (0 < 2 ^ (count d - 1)) by (apply Z.pow_pos_nonneg; lia). nia. }
    split_and!; [lia|lia|lia|]. replace (timeout_min d * (2 * 2 ^ (count d - 1))) with (2 * (timeout_min d * 2 ^ (count d - 1))) by ring. lia.
Qed.

Lemma bounded_set d c s n a cl w k : bounded d → k = count d ∨ k = 0 → bounded (set d c s n a cl w k).
Proof. intros (Hs & Hc & Hk) [-> | ->]; split_and!; cbn; auto; lia. Qed.

Lemma on_state_bounded d s now cs : bounded d → ∃ d', on_state d s now cs = Some d' ∧ bounded d' ∧
  timeout_min d' = timeout_min d ∧ timeout_max d' = timeout_max d.
Proof.
  intros Hb. pose proof (timeout_bounded d Hb) as Ht. destruct s; cbn [on_state].
  - destruct (reopen_wait d); [rewrite Ht; cbn|]; eexists; split_and!; try done; apply bounded_set; auto.
  - rewrite Ht. cbn. eexists. split_and!; try done.
    set (t := if count d =? 0 then 0 else _) in *. destruct (Z.ltb_spec t (timeout_max d)) as [Hlt|Hge]; [|by apply bounded_set; auto].
    destruct (bounded_open d t Hb Ht Hlt) as (H0 & H63 & Hk). rewrite wrapu_id by (cbn; lia).
    destruct Hb as (Hs & _). split_and!; cbn; [apply Hs..|lia|]. intros _. exact Hk.
  - eexists; split_and!; try done; apply bounded_set; auto.
  - eexists; split_and!; try done; apply bounded_set; auto.
  - eexists; split_and!; try done; apply bounded_set; auto.
  - eexists; split_and!; try done. apply bounded_set; [|auto]. apply bounded_set; [|auto]. apply bounded_set; auto.
Qed.

(** Events of the child: new state, time. *)
Fixpoint run (d : data) (evs : list (state * Z)) : option data :=
  match evs with [] => Some d | (s, now) :: evs => let! d := on_state d s now s in run d evs end.

Lemma run_app d evs evs' : run d (evs ++ evs') = (let! d := run d evs in run d evs').
Proof.
  revert d. induction evs as [|[s now] evs IH]; intros d; cbn [app run]; [done|].
  destruct (on_state d s now s); cbn; [apply IH|done].
Qed.

Lemma run_bounded evs : ∀ d, bounded d → ∃ d', run d evs = Some d' ∧ bounded d' ∧ timeout_max d' = timeout_max d.
Proof.
  induction evs as [|[s now] evs IH]; intros d Hb; cbn [run]; [by exists d|].
  destruct (on_state_bounded d s now s Hb) as (d1 & E & Hb1 & _ & Em). rewrite E. cbn.
  destruct (IH d1 Hb1) as (d' & E' & Hb' & Em'). exists d'. split_and!; [done..|congruence].
Qed.

(** C40: the backoff is safe: with a positive minimum that is not above the
    maximum (and a maximum below 2^62 ns, 146 years), whatever states the
    child goes through and however often it fails, the handler never computes
    a shift or a product that does not fit, and the time to wait is between
    zero and the maximum. *)
Theorem backoff_bounded (d : data) (evs : list (state * Z)) (Hs : sane d) (Hc : count d = 0) :
  ∃ d' t, run d evs = Some d' ∧ timeout d' = Some t ∧ 0 ≤ t ≤ timeout_max d.
Proof.
  assert (bounded d) as Hb by (split_and!; [apply Hs..|lia|lia]).
  destruct (run_bounded evs d Hb) as (d' & E & Hb' & Em). rewrite <-Em.
  eexists d', _. split; [done|]. split; [by apply timeout_bounded|].
  destruct Hb' as ([Hm Hx] & Hc' & _). destruct (Z.eqb_spec (count d') 0); [lia|].
  assert (0 < 2 ^ (count d' - 1)) by (apply Z.pow_pos_nonneg; lia). nia.
Qed.

Lemma sane_default : sane default_data.
Proof. split; [split|]; vm_compute; congruence. Qed.

Lemma backoff_bounded_witness :
  sane default_data ∧ ∃ d' t, run default_data [(Opening, 5); (Error, 6); (Closing, 7); (Closed, 8); (Opening, 9)] = Some d' ∧
    timeout d' = Some t ∧ 0 ≤ t ≤ timeout_max default_data.
Proof. split; [apply sane_default|]. apply backoff_bounded; [apply sane_default|reflexivity]. Defined.

(** *** Consecutive failures *)
Definition attempt (t : Z * Z * Z * Z) : list (state * Z) :=
  let '(t1, t2, t3, t4) := t in [(Opening, t1); (Error, t2); (Closing, t3); (Closed, t4)].

(** Timeout after [n] failures. *)
Definition backoff (d : data) (n : nat) : Z :=
  match n with O => 0 | S n => Z.min (timeout_max d) (timeout_min d * 2 ^ Z.of_nat n) end.

Lemma attempt_count d t : bounded d → reopen_wait d = false →
  ∃ t0 d', timeout d = Some t0 ∧ run d (attempt t) = Some d' ∧ bounded d' ∧ reopen_wait d' = false ∧
    timeout_min d' = timeout_min d ∧ timeout_max d' = timeout_max d ∧
    count d' = (if t0 <? timeout_max d then count d + 1 else count d) ∧
    ∃ t1, timeout d' = Some t1 ∧ next d' = t.2 + t1.
Proof.
  intros Hb Hw. destruct t as [[[t1 t2] t3] t4]. pose proof (timeout_bounded d Hb) as Ht.
  destruct (on_state_bounded d Opening t1 Opening Hb) as (d1 & E1 & Hb1 & Em1 & Ex1).
  assert (count d1 = (if (if count d =? 0 then 0 else Z.min (timeout_max d) (timeout_min d * 2 ^ (count d - 1))) <? timeout_max d
                      then count d + 1 else count d)) as Ec.
  { cbn in E1. rewrite Ht in E1. cbn in E1. injection E1 as <-. cbn.
    set (t0 := if count d =? 0 then 0 else _) in *. destruct (Z.ltb_spec t0 (timeout_max d)) as [Hlt|]; [|done].
    destruct (bounded_open d t0 Hb Ht Hlt) as (H0 & H63 & _). apply wrapu_id. cbn. lia. }
  assert (rstate d1 = Opening) as Es by (cbn in E1; rewrite Ht in E1; cbn in E1; by injection E1 as <-).
  pose proof (timeout_bounded d1 Hb1) as Ht1. set (w1 := if count d1 =? 0 then 0 else _) in Ht1.
  set (d2 := set d1 (channel d1) Error t2 (active_ts d1) (closing_ts d1) true (count d1)).
  set (cl := if closing_ts d2 =? 0 then t3 else closing_ts d2).
  set (d3 := set d2 (channel d2) Closing (cl + timeout_close d2) (active_ts d2) cl true (count d2)).
  set (d4 := set d3 (channel d3) Closed (t4 + w1) (active_ts d3) 0 false (count d3)).
  assert (on_state d1 Error t2 Error = Some d2) as E2 by (cbn; by rewrite Es).
  assert (on_state d2 Closing t3 Closing = Some d3) as E3 by reflexivity.
  assert (on_state d3 Closed t4 Closed = Some d4) as E4.
  { unfold on_state. change (reopen_wait d3) with true. change (timeout d3) with (timeout d1). by rewrite Ht1. }
  eexists _, d4. split; [exact Ht|]. split; [|split_and!].
  - cbn [attempt run]. rewrite E1. cbn [mbind option_bind]. rewrite E2. cbn [mbind option_bind]. rewrite E3. cbn [mbind option_bind].
    by rewrite E4.
  - by do 3 (apply bounded_set; [|by left]).
  - done.
  - done.
  - done.
  - exact Ec.
  - exists w1. split; [|done]. change (timeout d4) with (timeout d1). done.
Qed.

Lemma backoff_step d n t0 : bounded d → timeout d = Some t0 → t0 = backoff d n →
  Z.min (timeout_max d) (timeout_min d * 2 ^ ((if t0 <? timeout_max d then count d + 1 else count d) - 1)) = backoff d (S n) ∧
  (if t0 <? timeout_max d then count d + 1 else count d) ≠ 0.
Proof.
  intros Hb Ht En. rewrite (timeout_bounded d Hb) in Ht. destruct Hb as ([Hm Hx] & Hc & Hk). injection Ht as Ht.
  assert (∀ k, 0 ≤ k → 0 < 2 ^ k) as Hpos by (intros; apply Z.pow_pos_nonneg; lia). unfold backoff.
  destruct (Z.ltb_spec t0 (timeout_max d)) as [Hlt|Hge].
  - split; [|lia]. f_equal. f_equal. f_equal. destruct (Z.eqb_spec (count d) 0) as [E|E].
    + destruct n as [|n]; [lia|]. cbn in En. pose proof (Hpos (Z.of_nat n)). nia.
    + destruct n as [|n]; [cbn in En; pose proof (Hpos (count d - 1)); nia|].
      cbn in En. assert (2 ^ (count d - 1) = 2 ^ Z.of_nat n) as Hp by nia.
      apply Z.pow_inj_r in Hp; lia.
  - destruct (Z.eqb_spec (count d) 0) as [E|E]; [lia|]. split; [|done].
    destruct n as [|n]; [cbn in En; lia|]. cbn in En. rewrite Nat2Z.inj_succ, Z.pow_succ_r by lia. pose proof (Hpos (Z.of_nat n)). nia.
Qed.

(** Exponential backoff: after n failed attempts in a row (Opening, Error,
    Closing, Closed, at any times) the next attempt is scheduled for the time
    of the last close plus min(timeout_max, timeout_min * 2^(n-1)). *)
Theorem backoff_exponential (d : data) (ts : list (Z * Z * Z * Z)) (t : Z * Z * Z * Z)
  (Hs : sane d) (Hc : count d = 0) (Hw : reopen_wait d = false) :
  ∃ d', run d (concat (map attempt ts) ++ attempt t) = Some d' ∧ rstate d' = Closed ∧
        next d' = t.2 + Z.min (timeout_max d) (timeout_min d * 2 ^ zlen ts).
Proof.
  assert (∀ n d, bounded d → reopen_wait d = false → timeout d = Some (backoff d n) →
    ∃ d', run d (concat (map attempt ts) ++ attempt t) = Some d' ∧ rstate d' = Closed ∧
          next d' = t.2 + backoff d (S (n + length ts))) as H.
  { clear. induction ts as [|t' ts IH]; intros n d Hb Hw Ht; cbn [map concat app].
    - destruct (attempt_count d t Hb Hw) as (t0 & d' & Et & E & Hb' & _ & Em & Ex & Ec & t1 & Et1 & En).
      exists d'. split; [done|]. assert (t0 = backoff d n) as E0 by congruence.
      destruct (backoff_step d n t0 Hb Et E0) as [Hbk Hne]. split.
      + revert E. destruct t as [[[a b] c] e]. cbn [attempt run]. destruct (on_state d Opening a Opening) as [d1|]; [|done].
        cbn [mbind option_bind]. destruct (on_state d1 Error b Error) as [d2|]; [|done]. cbn [mbind option_bind].
        destruct (on_state d2 Closing c Closing) as [d3|]; [|done]. cbn [mbind option_bind on_state].
        destruct (reopen_wait d3); [destruct (timeout d3); [|done]|]; cbn; by intros [= <-].
      + rewrite En, Nat.add_0_r. f_equal. rewrite (timeout_bounded d' Hb'), Ec, Em, Ex in Et1.
        rewrite (proj2 (Z.eqb_neq _ _) Hne) in Et1. injection Et1 as <-. done.
    - destruct (attempt_count d t' Hb Hw) as (t0 & d1 & Et & E & Hb' & Hw1 & Em & Ex & Ec & t1 & Et1 & En).
      assert (t0 = backoff d n) as E0 by congruence. destruct (backoff_step d n t0 Hb Et E0) as [Hbk Hne].
      assert (timeout d1 = Some (backoff d1 (S n))) as Ht1.
      { rewrite (timeout_bounded d1 Hb'), Ec, Em, Ex. rewrite (proj2 (Z.eqb_neq _ _) Hne), Hbk. unfold backoff. by rewrite Em, Ex. }
      destruct (IH (S n) d1 Hb' Hw1 Ht1) as (d' & E' & Es & En'). exists d'. rewrite <-app_assoc. split_and!; [|done|].
      + rewrite run_app, E. done.
      + rewrite En'. unfold backoff. rewrite Em, Ex. cbn [length]. by rewrite Nat.add_succ_r. }
  assert (bounded d) as Hb by (split_and!; [apply Hs..|lia|lia]).
  destruct (H O d Hb Hw) as (d' & E & Es & En); [by rewrite (timeout_bounded d Hb), Hc|].
  exists d'. split_and!; [done..|]. rewrite En. done.
Qed.

Lemma backoff_exponential_witness :
  ∃ d', run default_data (concat (map attempt [(1, 2, 3, 4); (5, 6, 7, 8)]) ++ attempt (9, 10, 11, 12)) = Some d' ∧ rstate d' = Closed ∧
        next d' = (9, 10, 11, 12).2 + Z.min (timeout_max default_data) (timeout_min default_data * 2 ^ zlen [(1, 2, 3, 4); (5, 6, 7, 8)]).
Proof. apply (backoff_exponential default_data); [apply sane_default|reflexivity|reflexivity]. Defined.

(** A timer that fires when it is due always acts: after the child enters
    Error, Closed, Closing, or Opening with an open timeout, the timer armed
    for [next] leads to a close of a failed child, an open of a closed one, a
    forced close of one that does not finish closing, and for one that does not
    finish opening to a close, or, while it is suspended, to a later timer; a
    stable child (Active for at least the tremble time) that closes is reopened
    at once and its failures are forgotten. *)
Theorem reopen_timer_acts (d d' : data) (s : state) (now now' : Z) (susp : bool)
  (Hrun : on_state d s now s = Some d') (Hch : is_Some (channel d)) (Hdue : next d' ≤ now')
  (Hopen : 0 < timeout_open d) (Hstep : 0 < time_step_suspend d) :
  fst (_reopen_timer_cb d' now' susp) =
    match s with
    | Error => EffClose false
    | Closed => EffOpen
    | Closing => EffClose true
    | Opening => if susp then (if now' + time_step_suspend d =? 0 then EffNone else EffRearm (now' + time_step_suspend d)) else EffClose false
    | _ => EffNone
    end ∧
  (s = Closed → reopen_wait d = false → next d' = now ∧ count d' = 0) ∧
  (s = Closing → rstate d = Active → timeout_tremble d ≤ now - active_ts d → reopen_wait d' = reopen_wait d).
Proof.
  destruct Hch as [c Hc]. assert ((now' >=? next d') = true) as Hge by (rewrite Z.geb_leb; by apply Z.leb_le).
  destruct s; cbn [on_state] in Hrun.
  - destruct (reopen_wait d) eqn:Ew; [destruct (timeout d) as [t|]; [|done]|]; cbn in Hrun; injection Hrun as <-;
      unfold _reopen_timer_cb, on_timer; cbn in *; rewrite Hc, Hge; done.
  - destruct (timeout d) as [t|]; [|done]. cbn in Hrun. injection Hrun as <-. unfold _reopen_timer_cb, on_timer. cbn in *.
    rewrite Hc, Hge. rewrite (proj2 (Z.gtb_lt (time_step_suspend d) 0)) by lia. rewrite bool_decide_true by (by eexists).
    destruct susp; cbn; unfold pending; cbn; [|done]. destruct (now' + time_step_suspend d =? 0); done.
  - injection Hrun as <-. unfold _reopen_timer_cb. cbn. by rewrite Hc.
  - injection Hrun as <-. unfold _reopen_timer_cb, on_timer. cbn in *. rewrite Hc, Hge. split_and!; [done|done|].
    intros _ -> Ht. rewrite (proj2 (Z.ltb_ge _ _)) by lia. done.
  - injection Hrun as <-. unfold _reopen_timer_cb. cbn. by rewrite Hc.
  - injection Hrun as <-. done.
Qed.

Definition watched : data :=
  set default_data (Some 1) Active 0 100 0 false 1.

Lemma reopen_timer_acts_witness :
  fst (_reopen_timer_cb (set watched (Some 1) Closing (50000000 + 10 * second) 100 50000000 false 1) (60 * second) false) = EffClose true ∧
  (Closing = Closed → reopen_wait watched = false → 50000000 + 10 * second = 50000000 ∧ 1 = 0) ∧
  (Closing = Closing → rstate watched = Active → timeout_tremble watched ≤ 50000000 - active_ts watched → false = reopen_wait watched).
Proof.
  apply (reopen_timer_acts watched (set watched (Some 1) Closing (50000000 + 10 * second) 100 50000000 false 1) Closing 50000000 (60 * second) false);
    [reflexivity|by eexists|vm_compute; congruence|vm_compute; congruence|vm_compute; congruence].
Defined.

(** A timer left over from the closed state closes a child that is opening:
    with the open timeout disabled (zero) entering Opening clears [next] but
    does not stop the timer, and a timer that fires then is taken for the open
    timeout at any time. *)
Theorem reopen_stale_timer (d d' : data) (now now' : Z)
  (Hopen : timeout_open d = 0) (Hrun : on_state d Opening now Opening = Some d') (Hch : is_Some (channel d)) (Hnow : 0 ≤ now') :
  pending d' = false ∧ fst (_reopen_timer_cb d' now' false) = EffClose false.
Proof.
  cbn in Hrun. destruct (timeout d) as [t|]; [|done]. cbn in Hrun. rewrite Hopen in Hrun. injection Hrun as <-.
  destruct Hch as [c Hc]. split; [done|]. unfold _reopen_timer_cb, on_timer. cbn. rewrite Hc, Z.geb_leb.
  rewrite (proj2 (Z.leb_le _ _)) by done. by rewrite andb_false_r.
Qed.

Definition no_open_timeout : data :=
  Data (Some 1) Closed 7 0 0 0 second second second ms second false 0.

Lemma reopen_stale_timer_witness :
  ∃ d', on_state no_open_timeout Opening 5 Opening = Some d' ∧ pending d' = false ∧ fst (_reopen_timer_cb d' 7 false) = EffClose false.
Proof.
  eexists. split; [reflexivity|]. eapply (reopen_stale_timer no_open_timeout _ 5 7); [reflexivity|reflexivity|by eexists|lia].
Defined.

(** A zero minimum (no wait between attempts) lets the failure counter grow
    without a bound, and after 64 failed attempts the backoff shifts a 64-bit
    value by 63 bits or more. *)
Theorem backoff_zero_min :
  let d := Data (Some 1) Closed 0 0 0 second second 0 second ms second false 0 in
  is_Some (run d (concat (replicate 63 (attempt (1, 2, 3, 4))))) ∧ run d (concat (replicate 64 (attempt (1, 2, 3, 4)))) = None.
Proof. vm_compute. split; [by eexists|done]. Qed.
End Reopen.

(** ** Sequence numbers *)
Module AutoSeq.

(** [autoseq::AutoSeq] *)
Record autoseq := AutoSeqT { seq : Z; enable : bool }.

Definition autoseq_init : autoseq := AutoSeqT (-1) true.

Definition reset (a : autoseq) (s : Z) : autoseq * Z := (AutoSeqT s (enable a), seq a).

Definition with_seq (s : Z) (m : msg) : msg :=
  Msg (m_type m) (m_flags m) (m_msgid m) s (m_data m) (m_size m) (m_addr m) (m_time m).

Definition update (a : autoseq) (m : msg) : autoseq * msg :=
  if negb (enable a) then (a, m) else
  let s := i64 (seq a + 1) in (AutoSeqT s (enable a), with_seq s m).

(** [AutoSeq::_post] and [LastSeq::_post] over the post of the base class:
    the state of the mixins, and the message the base gets. *)
Definition autoseq_post (a : autoseq) (m : msg) : autoseq * msg :=
  if negb (bool_decide (m_type m = DATA)) then (a, m) else update a m.

(** [LastSeq::_post] in a mode with Tx: the recorded number. *)
Definition lastseq_post (txseq : Z) (m : msg) (r : Z) : Z :=
  if (r =? 0) && bool_decide (m_type m = DATA) then m_seq m else txseq.

(** [LastSeq::_callback_data] in a mode with Rx. *)
Definition lastseq_rx (rxseq : Z) (m : msg) : Z := m_seq m.

(** Posts through both mixins: messages passed on, with the results of the base. *)
Fixpoint posts (a : autoseq) (tx : Z) (ms : list (msg * Z)) : autoseq * Z * list msg :=
  match ms with
  | [] => (a, tx, [])
  | (m, r) :: ms =>
      let '(a, m) := autoseq_post a m in
      let '(a, tx, out) := posts a (lastseq_post tx m r) ms in
      (a, tx, m :: out)
  end.

Definition data_msgs (l : list msg) : list msg := filter (λ m, m_type m = DATA) l.

Definition is_data (m : msg) : bool := bool_decide (m_type m = DATA).

(** Number of the last successful data post. *)
Definition last_ok (tx : Z) (l : list (msg * Z)) : Z :=
  foldl (λ tx '(m, r), if (r =? 0) && is_data m then m_seq m else tx) tx l.

Lemma posts_spec ms : ∀ a tx, enable a = true → - 2 ^ 63 ≤ seq a → seq a + zlen ms < 2 ^ 63 →
  let '(a', tx', out) := posts a tx ms in
  seq a' = seq a + zlen (data_msgs out) ∧
  map m_seq (data_msgs out) = seqZ (seq a + 1) (zlen (data_msgs out)) ∧
  Forall2 (λ m x, m = if is_data (fst x) then with_seq (m_seq m) (fst x) else fst x) out ms ∧
  tx' = last_ok tx (zip out (map snd ms)).
Proof.
  induction ms as [|[m r] ms IH]; intros a tx He Hlo Hhi; cbn [posts].
  { split_and!; [|done|constructor|done]. change (zlen (data_msgs [])) with 0. lia. }
  rewrite zlen_cons in Hhi. pose proof (zlen_nonneg ms). unfold autoseq_post. fold (is_data m).
  destruct (is_data m) eqn:Ed; cbn [negb].
  - unfold update. rewrite He. cbn [negb]. assert (i64 (seq a + 1) = seq a + 1) as -> by (apply wraps_id; cbn; lia).
    specialize (IH (AutoSeqT (seq a + 1) true) (lastseq_post tx (with_seq (seq a + 1) m) r)). cbn [seq enable] in IH.
    destruct (posts _ _ ms) as [[a' tx'] out] eqn:Ep. destruct IH as (H1 & H2 & H3 & H4); [done|lia|lia|].
    assert (data_msgs (with_seq (seq a + 1) m :: out) = with_seq (seq a + 1) m :: data_msgs out) as E.
    { unfold data_msgs. rewrite filter_cons_True; [done|]. unfold is_data in Ed. by apply bool_decide_eq_true in Ed. }
    rewrite E, zlen_cons. cbn [map]. split_and!.
    + lia.
    + pose proof (zlen_nonneg (data_msgs out)). rewrite H2, (seqZ_cons (seq a + 1)) by lia.
      change (m_seq (with_seq (seq a + 1) m)) with (seq a + 1). do 2 f_equal; lia.
    + constructor; [by cbn; rewrite Ed|done].
    + rewrite H4. reflexivity.
  - specialize (IH a (lastseq_post tx m r)). destruct (posts _ _ ms) as [[a' tx'] out] eqn:Ep.
    destruct IH as (H1 & H2 & H3 & H4); [done|lia|lia|].
    assert (data_msgs (m :: out) = data_msgs out) as E.
    { unfold data_msgs. rewrite filter_cons_False; [done|]. unfold is_data in Ed. by apply bool_decide_eq_false in Ed. }
    rewrite E. split_and!; [done|done| |].
    + constructor; [by cbn; rewrite Ed|done].
    + rewrite H4. reflexivity.
Qed.

(** Automatic sequence numbers: the data messages of any series of posts
    go to the base class with consecutive numbers that continue the last one,
    everything else in them and all other messages unchanged, and the last
    number recorded for statistics is that of the last data message the base
    accepted. *)
Theorem autoseq_consecutive (a : autoseq) (tx : Z) (ms : list (msg * Z))
  (He : enable a = true) (Hlo : - 2 ^ 63 ≤ seq a) (Hhi : seq a + zlen ms < 2 ^ 63) :
  let '(a', tx', out) := posts a tx ms in
  seq a' = seq a + zlen (data_msgs out) ∧
  map m_seq (data_msgs out) = seqZ (seq a + 1) (zlen (data_msgs out)) ∧
  Forall2 (λ m x, m = if is_data (fst x) then with_seq (m_seq m) (fst x) else fst x) out ms ∧
  tx' = last_ok tx (zip out (map snd ms)).
Proof. by apply posts_spec. Qed.

Lemma autoseq_consecutive_witness :
  let ms := [(mk_msg DATA 1 [] 0, 0); (mk_msg CONTROL 2 [] 0, 0); (mk_msg DATA 3 [] 0, 11)] in
  let '(a', tx', out) := posts autoseq_init 0 ms in
  seq a' = seq autoseq_init + zlen (data_msgs out) ∧
  map m_seq (data_msgs out) = seqZ (seq autoseq_init + 1) (zlen (data_msgs out)) ∧
  Forall2 (λ m x, m = if is_data (fst x) then with_seq (m_seq m) (fst x) else fst x) out ms ∧
  tx' = last_ok 0 (zip out (map snd ms)).
Proof. apply (autoseq_consecutive autoseq_init 0); [reflexivity|vm_compute; discriminate|vm_compute; reflexivity]. Defined.
End AutoSeq.
