(* ===== verification/Text.v ===== *)
(** * Strings: splitting, matching and properties

    src/tll/util/string.h (iterator over the parts of a string),
    src/tll/util/browse.h, src/tll/conv/list.h, src/tll/util/bits.h,
    src/tll/util/getter.h, src/tll/util/props.h, src/tll/util/url.h and
    src/tll/util/hostport.h.  Strings are lists of byte values, positions in
    them are natural numbers. *)
From stdpp Require Import sorting.
From S2P Require Import Prelude Conv.

(** ** Splitting *)

Module Str.
Section split.
Context (sep : Z → bool).

(** An iterator points into the string; [data_end] is one past the end, so
    that an empty last part has a position of its own. *)
Record iterator := It { it_begin : nat; it_end : nat }.

Definition data_end (s : bytes) : nat := length s + 1.

Definition matches (s : bytes) (p : nat) : bool :=
  match s !! p with Some c => sep c | None => false end.

Fixpoint next_loop (s : bytes) (n p : nat) : nat :=
  match n with
  | O => p
  | S n => if (p + 1 <? data_end s)%nat && negb (matches s p) then next_loop s n (S p) else p
  end.

Definition next (s : bytes) (p : nat) : nat :=
  if (data_end s <=? p)%nat then data_end s else next_loop s (length s) p.

Fixpoint prev (s : bytes) (p : nat) : nat :=
  match p with
  | O => O
  | S q => if matches s q then p else prev s q
  end.

Definition make (s : bytes) (p : nat) : iterator := It p (next s p).
Definition begin (s : bytes) : iterator := make s 0.
Definition end_ (s : bytes) : iterator := make s (data_end s).

(** [operator ++] and [operator --]. *)
Definition incr (s : bytes) (i : iterator) : iterator :=
  if (it_end i =? data_end s)%nat then It (it_end i) (it_end i)
  else It (S (it_end i)) (next s (S (it_end i))).

Definition decr (s : bytes) (i : iterator) : iterator :=
  if (it_begin i =? 0)%nat then i
  else let e := (it_begin i - 1)%nat in It (prev s e) e.

(** [operator *]. *)
Definition deref (s : bytes) (i : iterator) : bytes :=
  if (it_begin i =? data_end s)%nat then []
  else take (it_end i - it_begin i) (drop (it_begin i) s).

(** The loop [for (auto i : split(s))]; the result is [None] when the
    iterations did not suffice to reach the end. *)
Fixpoint collect (s : bytes) (n : nat) (i : iterator) : option (list bytes) :=
  if (it_begin i =? it_begin (end_ s))%nat then Some [] else
  match n with
  | O => None
  | S n => let! l := collect s n (incr s i) in Some (deref s i :: l)
  end.

Definition split (s : bytes) : list bytes :=
  default [] (collect s (length s + 1) (begin s)).

(** ** What the parts are *)

Fixpoint fields (s : bytes) : list bytes :=
  match s with
  | [] => [[]]
  | c :: s =>
      if sep c then [] :: fields s
      else match fields s with f :: l => (c :: f) :: l | [] => [] end
  end.

Lemma fields_not_nil s : fields s ≠ [].
Proof. induction s as [|c s IH]; cbn; [done|]. destruct (sep c); [done|]. by destruct (fields s). Qed.

(** Position of the first separator at or behind a position. *)
Definition field_end (s : bytes) : nat :=
  match fields s with f :: _ => length f | [] => 0%nat end.

Lemma field_end_cons c s : field_end (c :: s) = if sep c then 0%nat else S (field_end s).
Proof.
  unfold field_end; cbn. destruct (sep c); [done|].
  pose proof (fields_not_nil s). by destruct (fields s).
Qed.

Lemma field_end_le s : (field_end s ≤ length s)%nat.
Proof.
  induction s as [|c s IH]; [by cbn|]. rewrite field_end_cons. destruct (sep c); cbn; lia.
Qed.

Lemma fields_unfold s :
  fields s = take (field_end s) s ::
    (if decide (field_end s < length s)%nat then fields (drop (S (field_end s)) s) else []).
Proof.
  induction s as [|c s IH]; [done|]. rewrite field_end_cons. cbn [fields].
  destruct (sep c) eqn:E.
  - rewrite decide_True by (cbn; lia). cbn. by rewrite drop_0.
  - rewrite IH. cbn [take drop length]. f_equal.
    destruct (decide (field_end s < length s)%nat); [rewrite decide_True by lia|rewrite decide_False by lia]; done.
Qed.

Lemma next_loop_spec s p q : q = drop p s → ∀ n, (p ≤ length s)%nat → (length s - p ≤ n)%nat →
  next_loop s n p = (p + field_end q)%nat.
Proof.
  revert p. induction q as [|c q IH]; intros p Hq n Hp Hn.
  - assert (p = length s) as ->.
    { apply (f_equal length) in Hq. rewrite length_drop in Hq. cbn in Hq. lia. }
    cbn. destruct n as [|n]; cbn [next_loop]; [lia|]. unfold data_end.
    destruct (Nat.ltb_spec (length s + 1) (length s + 1)); [lia|]. cbn. lia.
  - assert (p < length s)%nat.
    { apply (f_equal length) in Hq. rewrite length_drop in Hq. cbn in Hq. lia. }
    destruct n as [|n]; [lia|]. cbn [next_loop]. unfold data_end, matches.
    destruct (Nat.ltb_spec (p + 1) (length s + 1)); [|lia].
    assert (s !! p = Some c) as ->.
    { rewrite <-(Nat.add_0_r p), <-lookup_drop, <-Hq. done. }
    rewrite field_end_cons. destruct (sep c) eqn:E; cbn; [lia|].
    rewrite (IH (S p)); [lia| |lia|lia].
    rewrite <-Nat.add_1_r, <-drop_drop, <-Hq. done.
Qed.

Lemma next_spec s p : (p ≤ length s)%nat → next s p = (p + field_end (drop p s))%nat.
Proof.
  intros Hp. unfold next, data_end. destruct (Nat.leb_spec (length s + 1) p); [lia|].
  by apply next_loop_spec; [|lia|lia].
Qed.

Lemma next_end s : next s (data_end s) = data_end s.
Proof. unfold next. by rewrite Nat.leb_refl. Qed.

Lemma collect_spec s n : ∀ p, (p ≤ length s)%nat → (length s - p < n)%nat →
  collect s n (make s p) = Some (fields (drop p s)).
Proof.
  induction n as [|n IH]; intros p Hp Hn; [lia|]. cbn [collect make it_begin end_ ]. unfold data_end at 1.
  destruct (Nat.eqb_spec p (length s + 1)); [lia|].
  rewrite (fields_unfold (drop p s)). pose proof (field_end_le (drop p s)) as Hl.
  rewrite length_drop in Hl |- *. unfold incr, deref, make; cbn [it_begin it_end].
  rewrite (next_spec s p) by lia. unfold data_end.
  destruct (Nat.eqb_spec p (length s + 1)); [lia|].
  destruct (Nat.eqb_spec (p + field_end (drop p s)) (length s + 1)); [lia|].
  replace (p + field_end (drop p s) - p)%nat with (field_end (drop p s)) by lia.
  destruct (decide _).
  - change (It _ _) with (make s (S (p + field_end (drop p s)))).
    rewrite IH by lia. cbn. rewrite drop_drop. do 4 f_equal. lia.
  - assert (S (p + field_end (drop p s)) = data_end s) as -> by (unfold data_end; lia).
    change (It _ _) with (end_ s).
    destruct n as [|n]; cbn [collect]; by rewrite Nat.eqb_refl.
Qed.

Lemma split_spec s : split s = fields s.
Proof.
  unfold split, begin. rewrite (collect_spec s (length s + 1) 0) by lia.
  cbn. by rewrite drop_0.
Qed.

(** Parts of a string followed by a piece without separators. *)
Lemma fields_app_plain a b : forallb (negb ∘ sep) b = true →
  ∃ l f, fields a = l ++ [f] ∧ fields (a ++ b) = l ++ [f ++ b].
Proof.
  intros Hb. induction a as [|c a (l & f & Ea & Eb)].
  - exists [], []. split; [done|]. cbn [app]. induction b as [|c b IH]; [done|].
    cbn in Hb. apply andb_true_iff in Hb as [Hc Hb]. cbn. apply negb_true_iff in Hc. rewrite Hc.
    rewrite IH by done. done.
  - cbn [app fields]. rewrite Ea, Eb. destruct (sep c).
    + by exists ([] :: l), f.
    + destruct l as [|g l]; cbn; [by exists [], (c :: f)|by exists ((c :: g) :: l), f].
Qed.

Lemma fields_snoc_sep a c : sep c = true → fields (a ++ [c]) = fields a ++ [[]].
Proof.
  intros Hc. induction a as [|d a IH]; cbn; [by rewrite Hc|].
  rewrite IH. destruct (sep d); [done|]. pose proof (fields_not_nil a). by destruct (fields a).
Qed.

(** Going back from a position: the part in front of it. *)
Lemma prev_spec s p : (p ≤ length s)%nat →
  (prev s p ≤ p)%nat ∧ last (fields (take p s)) = Some (take (p - prev s p) (drop (prev s p) s)).
Proof.
  induction p as [|p IH]; intros Hp; [by cbn|]. cbn [prev].
  destruct (lookup_lt_is_Some_2 s p ltac:(lia)) as [c Hc].
  rewrite (take_S_r s p c Hc). unfold matches. rewrite Hc. destruct (sep c) eqn:E.
  - split; [lia|]. rewrite fields_snoc_sep, last_snoc by done. by rewrite Nat.sub_diag.
  - destruct IH as [Hle IH]; [lia|]. split; [lia|].
    destruct (fields_app_plain (take p s) [c]) as (l & f & E1 & E2); [cbn; by rewrite E|].
    rewrite E1, last_snoc in IH. injection IH as ->. rewrite E2, last_snoc. f_equal.
    replace (S p - prev s p)%nat with (S (p - prev s p)) by lia. symmetry. apply take_S_r.
    rewrite lookup_drop. by replace (prev s p + (p - prev s p))%nat with p by lia.
Qed.

(** [*--end()] is the last part. *)
Lemma last_spec s : Some (deref s (decr s (end_ s))) = last (fields s).
Proof.
  unfold decr, deref, end_, make, data_end; cbn [it_begin it_end].
  destruct (Nat.eqb_spec (length s + 1) 0); [lia|]. cbn [it_begin it_end].
  replace (length s + 1 - 1)%nat with (length s) by lia.
  destruct (prev_spec s (length s)) as [Hle H]; [lia|]. rewrite take_ge in H by lia. rewrite H.
  destruct (Nat.eqb_spec (prev s (length s)) (length s + 1)); [lia|]. done.
Qed.
End split.

Definition eqc (c : Z) : Z → bool := Z.eqb c.

(** Parts joined again. *)
Fixpoint join (c : Z) (l : list bytes) : bytes :=
  match l with
  | [] => []
  | [f] => f
  | f :: l => f ++ c :: join c l
  end.

Lemma join_fields c s : join c (fields (eqc c) s) = s.
Proof.
  induction s as [|d s IH]; [done|]. cbn. unfold eqc at 1. destruct (Z.eqb_spec c d) as [->|].
  - pose proof (fields_not_nil (eqc d) s). destruct (fields (eqc d) s) eqn:E; [done|].
    cbn in *. by rewrite IH.
  - pose proof (fields_not_nil (eqc c) s). destruct (fields (eqc c) s) as [|f l] eqn:E; [done|].
    destruct l; cbn in *; by rewrite IH.
Qed.

Lemma fields_plain c f : c ∉ f → fields (eqc c) f = [f].
Proof.
  induction f as [|d f IH]; intros H; [done|]. apply not_elem_of_cons in H as [Hd Hf].
  cbn. unfold eqc at 1. destruct (Z.eqb_spec c d); [done|]. by rewrite IH.
Qed.

Lemma fields_app_sep c f s : c ∉ f → fields (eqc c) (f ++ c :: s) = f :: fields (eqc c) s.
Proof.
  induction f as [|d f IH]; intros H; cbn; unfold eqc at 1.
  - by rewrite Z.eqb_refl.
  - apply not_elem_of_cons in H as [Hd Hf]. destruct (Z.eqb_spec c d); [done|]. by rewrite IH.
Qed.

Lemma fields_join c l : l ≠ [] → Forall (λ f, c ∉ f) l → fields (eqc c) (join c l) = l.
Proof.
  induction l as [|f l IH]; intros Hn H; [done|]. apply Forall_cons in H as [Hf Hl].
  destruct l as [|g l]; [by apply fields_plain|].
  change (join c (f :: g :: l)) with (f ++ c :: join c (g :: l)).
  rewrite fields_app_sep by done. by rewrite IH.
Qed.

Lemma fields_no_sep c s : Forall (λ f, c ∉ f) (fields (eqc c) s).
Proof.
  induction s as [|d s IH]; cbn.
  - constructor; [|done]. apply not_elem_of_nil.
  - unfold eqc at 1. destruct (Z.eqb_spec c d).
    + constructor; [apply not_elem_of_nil|done].
    + destruct (fields (eqc c) s) as [|f l]; [done|]. inversion IH; subst.
      constructor; [|done]. apply not_elem_of_cons; done.
Qed.

(** Iterating over a string split at one character ends after the last
    part and yields the only list of parts, none with the separator in it,
    that joined by the separator give the string back; the iterator stepped
    back once from the end stands on the last of them. *)
Theorem split_parts (c : Z) (s : bytes) (l : list bytes) :
  (l = split (eqc c) s ↔ l ≠ [] ∧ Forall (λ f, c ∉ f) l ∧ join c l = s) ∧
  is_Some (collect (eqc c) s (length s + 1) (begin (eqc c) s)) ∧
  Some (deref s (decr (eqc c) s (end_ (eqc c) s))) = last (split (eqc c) s).
Proof.
  rewrite split_spec. split_and!.
  - split.
    + intros ->. split_and!; [apply fields_not_nil|apply fields_no_sep|apply join_fields].
    + intros (Hn & Hf & <-). by rewrite fields_join.
  - unfold begin. rewrite (collect_spec _ s (length s + 1) 0) by lia. by eexists.
  - apply last_spec.
Qed.
End Str.

(** ** Searching in strings *)

Module Find.

(** [find_first_of(c)], [find_last_of(c)], [find(pat)]. *)
Fixpoint find_char (c : Z) (s : bytes) : option nat :=
  match s with
  | [] => None
  | d :: s => if c =? d then Some 0%nat else S <$> find_char c s
  end.

Definition find_last_char (c : Z) (s : bytes) : option nat :=
  (λ n, length s - 1 - n)%nat <$> find_char c (rev s).

Fixpoint prefix_of (pat s : bytes) : bool :=
  match pat, s with
  | [], _ => true
  | a :: pat, b :: s => (a =? b) && prefix_of pat s
  | _, [] => false
  end.

Fixpoint find_sub (pat s : bytes) : option nat :=
  if prefix_of pat s then Some 0%nat
  else match s with [] => None | _ :: s => S <$> find_sub pat s end.

(** [strip]: without the given characters at both ends. *)
Fixpoint drop_chars (chars s : bytes) : bytes :=
  match s with
  | [] => []
  | c :: s' => if bool_decide (c ∈ chars) then drop_chars chars s' else s
  end.

Definition strip (chars s : bytes) : bytes := rev (drop_chars chars (rev (drop_chars chars s))).

Lemma find_char_app c a b : c ∉ a → find_char c (a ++ c :: b) = Some (length a).
Proof.
  induction a as [|d a IH]; intros H; cbn; [by rewrite Z.eqb_refl|].
  apply not_elem_of_cons in H as [Hd Ha]. destruct (Z.eqb_spec c d); [done|]. by rewrite IH.
Qed.

Lemma find_char_None c s : c ∉ s → find_char c s = None.
Proof.
  induction s as [|d s IH]; intros H; cbn; [done|].
  apply not_elem_of_cons in H as [Hd Hs]. destruct (Z.eqb_spec c d); [done|]. by rewrite IH.
Qed.

Lemma find_char_elem c s : is_Some (find_char c s) ↔ c ∈ s.
Proof.
  induction s as [|d s IH]; cbn.
  - split; [by intros []|]. by intros ?%not_elem_of_nil.
  - rewrite elem_of_cons, <-IH. destruct (Z.eqb_spec c d) as [->|Hne].
    + split; [by left|by eexists].
    + rewrite fmap_is_Some. split; [by right|]. by intros [|].
Qed.

Lemma find_last_char_app c a b : c ∉ b → find_last_char c (a ++ c :: b) = Some (length a).
Proof.
  intros H. unfold find_last_char. rewrite rev_app_distr. cbn. rewrite <-app_assoc. cbn.
  rewrite find_char_app by (intros Hin%list_elem_of_In%in_rev%list_elem_of_In; done).
  cbn. f_equal. rewrite length_app, length_rev. cbn. lia.
Qed.

(** The separator of urls has no character twice in a row that starts it, so
    it cannot begin inside of a text without its first character. *)
Lemma find_sub_app a b c pat : c ∉ a → find_sub (c :: pat) (a ++ c :: pat ++ b) = Some (length a).
Proof.
  assert (∀ p s, prefix_of p (p ++ s) = true) as Hp.
  { induction p as [|x p IH]; intros s; cbn; [done|]. by rewrite Z.eqb_refl, IH. }
  induction a as [|d a IH]; intros H.
  - cbn. by rewrite Z.eqb_refl, Hp.
  - apply not_elem_of_cons in H as [Hd Ha]. cbn. destruct (Z.eqb_spec c d); [done|]. cbn. by rewrite IH.
Qed.
End Find.

(** ** Properties and urls *)

Module Props.
Import Find.

Inductive parse_error := MissingEq | DuplicateKey (k : bytes) | NoSeparator | EmptyProto.

(** [std::map<Str, Str>] iterates in the order of the keys. *)
Fixpoint key_leb (a b : bytes) : bool :=
  match a, b with
  | [], _ => true
  | _ :: _, [] => false
  | x :: a, y :: b => (x <? y) || (x =? y) && key_leb a b
  end.

Definition entry_le (a b : bytes * bytes) : Prop := key_leb (fst a) (fst b) = true.

#[global] Instance entry_le_dec a b : Decision (entry_le a b).
Proof. unfold entry_le. apply _. Defined.

Definition entries (m : gmap bytes bytes) : list (bytes * bytes) := merge_sort entry_le (map_to_list m).

(** Body of the loop of [PropsT::parse]. *)
Fixpoint parse_loop (r : gmap bytes bytes) (l : list bytes) : result parse_error (gmap bytes bytes) :=
  match l with
  | [] => Ok r
  | [] :: l => parse_loop r l
  | i :: l =>
      match find_char 61 i with
      | None => Err MissingEq
      | Some sep =>
          let key := take sep i in
          let value := drop (S sep) i in
          match r !! key with
          | Some _ => Err (DuplicateKey key)
          | None => parse_loop (<[key := value]> r) l
          end
      end
  end.

Definition parse (s : bytes) : result parse_error (gmap bytes bytes) :=
  parse_loop ∅ (Str.split (Str.eqc 59) s).

Definition has (m : gmap bytes bytes) (key : bytes) : bool := bool_decide (is_Some (m !! key)).
Definition get (m : gmap bytes bytes) (key : bytes) : option bytes := m !! key.

(** [conv::dump<PropsT>::to_string] *)
Fixpoint dump_loop (r : bytes) (l : list (bytes * bytes)) : bytes :=
  match l with
  | [] => r
  | (k, v) :: l =>
      let r := match r with [] => r | _ => r ++ [59] end in
      dump_loop (r ++ k ++ 61 :: v) l
  end.

Definition to_string (m : gmap bytes bytes) : bytes := dump_loop [] (entries m).

Record url := Url { proto : bytes; host : bytes; props : gmap bytes bytes }.

(** [UrlT::parse]; an absent [;] makes [substr] run to the end. *)
Definition url_parse (s : bytes) : result parse_error url :=
  match find_sub (str "://") s with
  | None => Err NoSeparator
  | Some sep =>
      let proto := take sep s in
      if bool_decide (proto = []) then Err EmptyProto else
      let rest := drop (sep + 3) s in
      match find_char 59 rest with
      | None => Ok (Url proto rest ∅)
      | Some hsep =>
          let? p := parse (drop (S hsep) rest) in
          Ok (Url proto (take hsep rest) p)
      end
  end.

Definition url_to_string (u : url) : bytes :=
  let r := proto u ++ str "://" ++ host u in
  match to_string (props u) with [] => r | p => r ++ 59 :: p end.

(** Texts that can be printed: separators do not occur where they have a
    meaning. *)
Definition entry_ok (e : bytes * bytes) : Prop := (59 ∉ e.1) ∧ (61 ∉ e.1) ∧ (59 ∉ e.2).

Definition pair_text (e : bytes * bytes) : bytes := fst e ++ 61 :: snd e.

Lemma dump_loop_join l : ∀ r, r ≠ [] →
  dump_loop r l = match l with [] => r | _ => r ++ 59 :: Str.join 59 (map pair_text l) end.
Proof.
  induction l as [|[k v] l IH]; intros r Hr; [done|]. cbn [dump_loop map].
  destruct r as [|c r]; [done|]. rewrite IH by done.
  destruct l as [|e l]; [by rewrite <-app_assoc|].
  cbn [map]. change (Str.join 59 (pair_text (k, v) :: pair_text e :: map pair_text l)) with
    (pair_text (k, v) ++ 59 :: Str.join 59 (pair_text e :: map pair_text l)).
  change (pair_text (k, v)) with (k ++ 61 :: v). by repeat (rewrite <-app_assoc; cbn [app]).
Qed.

Lemma dump_join l : dump_loop [] l = Str.join 59 (map pair_text l).
Proof.
  destruct l as [|[k v] l]; [done|]. cbn [dump_loop app map].
  rewrite dump_loop_join by (by destruct k). by destruct l.
Qed.

Lemma parse_loop_app l : ∀ m, Forall entry_ok l → NoDup (l.*1) → (∀ k, k ∈ l.*1 → m !! k = None) →
  parse_loop m (map pair_text l) = Ok (list_to_map l ∪ m).
Proof.
  induction l as [|[k v] l IH]; intros m Hok Hnd Hm; cbn [map parse_loop].
  - by rewrite list_to_map_nil, (left_id_L ∅ (∪)).
  - apply Forall_cons in Hok as [(H1 & H2 & H3) Hok]. rewrite fmap_cons in Hnd, Hm. cbn [fst snd] in *. apply NoDup_cons in Hnd as [Hk Hnd].
    assert (pair_text (k, v) ≠ []) as Hne by (unfold pair_text; cbn; by destruct k).
    destruct (pair_text (k, v)) as [|c t] eqn:E; [done|]. rewrite <-E in *. clear E.
    unfold pair_text; cbn [fst snd]. rewrite find_char_app by done.
    rewrite take_app_length, (Hm k) by (by left).
    replace (drop (S (length k)) (k ++ 61 :: v)) with v.
    2: { replace (k ++ 61 :: v) with ((k ++ [61]) ++ v) by (by rewrite <-app_assoc).
         rewrite drop_app_length'; [done|]. rewrite length_app; cbn; lia. }
    rewrite IH; [|done|done|].
    + f_equal. rewrite list_to_map_cons. rewrite <-insert_union_l, insert_union_r; [done|].
      by apply not_elem_of_list_to_map.
    + intros k' Hk'. rewrite lookup_insert_ne; [apply Hm; by right|]. by intros ->.
Qed.

Lemma entries_perm m : entries m ≡ₚ map_to_list m.
Proof. apply merge_sort_Permutation. Qed.

Lemma entries_map m : list_to_map (entries m) = m.
Proof.
  rewrite <-(list_to_map_to_list m) at 2. apply list_to_map_proper.
  - rewrite (fmap_Permutation fst _ _ (entries_perm m)). apply NoDup_fst_map_to_list.
  - apply entries_perm.
Qed.

Lemma parse_to_string m : map_Forall (λ k v, entry_ok (k, v)) m → parse (to_string m) = Ok m.
Proof.
  intros Hm. unfold parse, to_string. rewrite dump_join, Str.split_spec.
  assert (Forall entry_ok (entries m)) as Hok.
  { rewrite entries_perm. apply Forall_forall. intros [k v] H%elem_of_map_to_list. by apply Hm. }
  destruct (entries m) as [|e l] eqn:E.
  - cbn. rewrite <-(entries_map m), E. done.
  - rewrite Str.fields_join.
    + rewrite <-E. rewrite parse_loop_app; [|by rewrite E| |done].
      * by rewrite entries_map, (right_id_L ∅ (∪)).
      * rewrite (fmap_Permutation fst _ _ (entries_perm m)). apply NoDup_fst_map_to_list.
    + done.
    + apply Forall_map. eapply Forall_impl; [exact Hok|]. intros [k v] (H1 & _ & H3). unfold pair_text; cbn in *.
      rewrite elem_of_app, elem_of_cons. intros [?|[?|?]]; done.
Qed.

(** C36: printing a url and parsing the text gives the url back: protocol,
    host and every property, when the protocol is not empty and the
    separators of the format occur only where it puts them. *)
Theorem url_roundtrip (u : url) (Hp : proto u ≠ []) (Hc : 58 ∉ proto u) (Hh : 59 ∉ host u)
  (Hm : map_Forall (λ k v, entry_ok (k, v)) (props u)) : url_parse (url_to_string u) = Ok u.
Proof.
  destruct u as [p h m]; cbn [proto host props] in *.
  set (t := to_string m). set (tail := match t with [] => [] | p => 59 :: p end).
  assert (url_to_string (Url p h m) = p ++ 58 :: str "//" ++ h ++ tail) as ->.
  { unfold url_to_string, tail; cbn [proto host props]. fold t.
    destruct t; [by rewrite app_nil_r|]. by rewrite <-app_assoc. }
  unfold url_parse.
  change (str "://") with (58 :: str "//"). rewrite find_sub_app by done.
  rewrite take_app_length, bool_decide_false by done.
  replace (drop (length p + 3) (p ++ 58 :: str "//" ++ h ++ tail)) with (h ++ tail).
  2: { rewrite drop_app_ge by lia. by replace (length p + 3 - length p)%nat with 3%nat by lia. }
  unfold tail. pose proof (parse_to_string m Hm) as E. fold t in E. destruct t as [|c t'].
  - rewrite app_nil_r, find_char_None by done. do 2 f_equal.
    cbn in E. by injection E.
  - rewrite find_char_app, take_app_length by done.
    replace (drop (S (length h)) (h ++ 59 :: c :: t')) with (c :: t').
    2: { rewrite drop_app_ge by lia. by replace (S (length h) - length h)%nat with 1%nat by lia. }
    by rewrite E.
Qed.

Lemma url_roundtrip_witness :
  let u := Url (str "tcp") (str "::1:5555") (<[str "size" := str "10kb"]> (<[str "name" := str "a=b"]> ∅)) in
  url_parse (url_to_string u) = Ok u.
Proof.
  apply (url_roundtrip (Url (str "tcp") (str "::1:5555") (<[str "size" := str "10kb"]> (<[str "name" := str "a=b"]> ∅)))).
  - discriminate.
  - apply (bool_decide_unpack _). vm_compute. exact I.
  - apply (bool_decide_unpack _). vm_compute. exact I.
  - apply map_Forall_insert_2; [|apply map_Forall_insert_2; [|apply map_Forall_empty]];
      (split_and!; apply (bool_decide_unpack _); vm_compute; exact I).
Defined.
End Props.

(** ** Typed access to properties *)

Module Getter.
Import Conv Find.

Inductive get_error := InvalidValue (v : bytes) (e : conv_error) | MissingValue.

Section getT.
Context {T : Type} (to_any : bytes → result conv_error T).

(** [GetT::get]: an absent or empty value is no value. *)
Definition _getT (get : bytes → option bytes) (key : bytes) : result get_error (option T) :=
  match get key with
  | None | Some [] => Ok None
  | Some v => match to_any v with Ok r => Ok (Some r) | Err e => Err (InvalidValue v e) end
  end.

Definition getT (get : bytes → option bytes) (key : bytes) : result get_error T :=
  let? r := _getT get key in
  match r with None => Err MissingValue | Some v => Ok v end.

Definition getT_def (get : bytes → option bytes) (key : bytes) (def : T) : result get_error T :=
  let? r := _getT get key in Ok (default def r).

Definition getT_map (get : bytes → option bytes) (key : bytes) (def : T) (m : list (bytes * T)) : result get_error T :=
  match get key with
  | None | Some [] => Ok def
  | Some v => match select v m with Ok r => Ok r | Err e => Err (InvalidValue v e) end
  end.
End getT.

(** [PropsPrefix] and [PropsChainT]. *)
Definition make_key (prefix key : bytes) : bytes := prefix ++ str "." ++ key.

Definition prefix_get (get : bytes → option bytes) (prefix key : bytes) : option bytes := get (make_key prefix key).

Fixpoint chain_has (chain : list (bytes → option bytes)) (key : bytes) : bool :=
  match chain with
  | [] => false
  | get :: chain => bool_decide (is_Some (get key)) || chain_has chain key
  end.

Fixpoint chain_get (chain : list (bytes → option bytes)) (key : bytes) : option bytes :=
  match chain with
  | [] => None
  | get :: chain =>
      match get key with
      | Some (c :: v) => Some (c :: v)
      | _ => chain_get chain key
      end
  end.

(** *** [PropsReaderT]: reads many values and remembers the first error. *)
Definition reader : Type := option (bytes * get_error).

Section reader.
Context {T : Type} (T0 : T) (get : bytes → option bytes).

Definition reader_getT (r : reader) (to_any : bytes → result conv_error T) (key : bytes) (def : option T) : reader * T :=
  match r with
  | Some e => (Some e, default T0 def)
  | None =>
      match _getT to_any get key with
      | Err e => (Some (key, e), default T0 def)
      | Ok None =>
          match def with
          | None => (Some (key, MissingValue), T0)
          | Some d => (None, d)
          end
      | Ok (Some v) => (None, v)
      end
  end.

Definition reader_getT_map (r : reader) (key : bytes) (def : T) (m : list (bytes * T)) : reader * T :=
  match r with
  | Some e => (Some e, def)
  | None =>
      match get key with
      | None => (None, def)
      | Some v => match select v m with Ok r => (None, r) | Err e => (Some (key, InvalidValue v e), def) end
      end
  end.

(** Reads of an initialization, in order. *)
Inductive request :=
| Plain (to_any : bytes → result conv_error T) (key : bytes) (def : option T)
| Table (key : bytes) (def : T) (m : list (bytes * T)).

Definition read (r : reader) (q : request) : reader * T :=
  match q with
  | Plain f key def => reader_getT r f key def
  | Table key def m => reader_getT_map r key def m
  end.

Fixpoint reads (r : reader) (qs : list request) : reader * list T :=
  match qs with
  | [] => (r, [])
  | q :: qs => let '(r, v) := read r q in let '(r, vs) := reads r qs in (r, v :: vs)
  end.

(** What one read means on its own. *)
Definition fallback (q : request) : T :=
  match q with Plain _ _ def => default T0 def | Table _ def _ => def end.

Definition outcome (q : request) : (bytes * get_error) + T :=
  match q with
  | Plain f key def =>
      match def with
      | None => match getT f get key with Ok v => inr v | Err e => inl (key, e) end
      | Some d => match getT_def f get key d with Ok v => inr v | Err e => inl (key, e) end
      end
  | Table key def m =>
      match get key with
      | None => inr def
      | Some v => match select v m with Ok r => inr r | Err e => inl (key, InvalidValue v e) end
      end
  end.

Lemma read_spec q : read None q = match outcome q with inl e => (Some e, fallback q) | inr v => (None, v) end.
Proof.
  destruct q as [f key def|key def m]; cbn; unfold reader_getT, reader_getT_map.
  - destruct def as [d|]; unfold getT, getT_def; by destruct (_getT f get key) as [[v|]|e].
  - destruct (get key) as [v|]; [|done]. by destruct (select v m).
Qed.

Lemma read_failed e q : read (Some e) q = (Some e, fallback q).
Proof. by destruct q. Qed.

Lemma reads_failed e qs : reads (Some e) qs = (Some e, map fallback qs).
Proof. induction qs as [|q qs IH]; cbn; [done|]. by rewrite read_failed, IH. Qed.

(** A reader used for any series of values: up to the first one that is
    invalid, or missing without a default, every read returns the value or
    the default; that error with its key is the one reported at the end, no
    matter what follows, and from there on every read returns its default. *)
Theorem reader_reports_first (good : list request) (vs : list T) (rest : list request)
  (H : Forall2 (λ q v, outcome q = inr v) good vs) :
  match rest with
  | [] => reads None good = (None, vs)
  | bad :: rest' => ∀ e, outcome bad = inl e →
      reads None (good ++ bad :: rest') = (Some e, vs ++ map fallback (bad :: rest'))
  end.
Proof.
  assert (∀ tail r ws, reads None tail = (r, ws) → reads None (good ++ tail) = (r, vs ++ ws)) as Hgood.
  { induction H as [|q v good vs Hq H IH]; intros tail r ws Ht; [done|].
    cbn. by rewrite read_spec, Hq, (IH _ _ _ Ht). }
  destruct rest as [|bad rest'].
  - rewrite <-(app_nil_r good), <-(app_nil_r vs). by apply Hgood.
  - intros e He. apply Hgood. cbn. by rewrite read_spec, He, reads_failed.
Qed.
End reader.

Lemma reader_reports_first_witness :
  let get k := if bool_decide (k = str "size") then Some (str "12") else if bool_decide (k = str "port") then Some (str "x") else None in
  let int := to_any_int 32 false in
  reads 0 get None [Plain int (str "size") (Some 1); Plain int (str "port") (Some 2); Plain int (str "name") None]
    = (Some (str "port", InvalidValue (str "x") (InvalidDigit 120)), [12; 2; 0]).
Proof.
  cbv zeta.
  set (get := λ k, if bool_decide (k = str "size") then Some (str "12") else if bool_decide (k = str "port") then Some (str "x") else None).
  apply (reader_reports_first 0 get [Plain (to_any_int 32 false) (str "size") (Some 1)] [12]
    [Plain (to_any_int 32 false) (str "port") (Some 2); Plain (to_any_int 32 false) (str "name") None]).
  - constructor; [vm_compute; reflexivity|constructor].
  - vm_compute. reflexivity.
Defined.
End Getter.

(** ** Network addresses *)

Module HostPort.
Import Conv Find Getter.

Inductive AddressFamily := UNSPEC | INET | INET6 | UNIX.

#[global] Instance AddressFamily_eq_dec : EqDecision AddressFamily.
Proof. solve_decision. Defined.

Record hostport := HP { af : AddressFamily; hp_host : bytes; port : Z }.

Inductive hp_error := NoColon | InvalidPort (s : bytes) (e : conv_error) | PortField (e : get_error).

Definition set_af (h : hostport) (v : AddressFamily) : result errno hostport :=
  if bool_decide (v = UNSPEC) then Ok h
  else if negb (bool_decide (af h = UNSPEC)) && negb (bool_decide (af h = v)) then Err EINVAL
  else Ok (HP v (hp_host h) (port h)).

Definition parse_hostport (host : bytes) (a : AddressFamily) : result hp_error hostport :=
  let a := if bool_decide (a = UNSPEC) && bool_decide (is_Some (find_char 47 host)) then UNIX else a in
  if bool_decide (a = UNIX) then Ok (HP a host 0) else
  match find_last_char 58 host with
  | None => Err NoColon
  | Some sep =>
      match to_any_int 16 true (drop (S sep) host) with
      | Err e => Err (InvalidPort (drop (S sep) host) e)
      | Ok p => Ok (HP a (take sep host) p)
      end
  end.

(** [GetT<hostport>::get]: either one string or separate keys. *)
Definition hostport_get (get : bytes → option bytes) (key : bytes) : result hp_error (option hostport) :=
  match get key with
  | None | Some [] =>
      match get (key ++ str ".host") with
      | None | Some [] =>
          match get (key ++ str ".path") with
          | None | Some [] => Ok None
          | Some path => Ok (Some (HP UNIX path 0))
          end
      | Some host =>
          match getT (to_any_int 16 true) get (key ++ str ".port") with
          | Err e => Err (PortField e)
          | Ok p => Ok (Some (HP (if bool_decide (is_Some (find_char 58 host)) then INET6 else UNSPEC) host p))
          end
      end
  | Some v => match parse_hostport v UNSPEC with Ok r => Ok (Some r) | Err e => Err e end
  end.

(** An address written as host, colon and decimal port parses to that host
    and port for every port number, whatever colons the host has, unless it
    has a slash (then the text is the path of a unix socket). *)
Theorem hostport_parse (host : bytes) (p : Z) (a : AddressFamily) (Hp : 0 ≤ p < 2 ^ 16) (Ha : a ≠ UNIX) :
  ∃ s, to_string_buf_int 16 true p = Some s ∧
    parse_hostport (host ++ 58 :: s) a =
      Ok (if decide (a = UNSPEC ∧ (47 ∈ host)) then HP UNIX (host ++ 58 :: s) 0 else HP a host p).
Proof.
  destruct (to_string_uint10_spec 16 p) as (s & Es & Ev & Hd & Hne & _); [lia|done|].
  exists s. split; [done|]. assert (∀ c, c < 48 ∨ 57 < c → c ∉ s) as Hs.
  { intros c Hc Hin. rewrite Forall_forall in Hd. specialize (Hd c Hin). lia. }
  unfold parse_hostport.
  assert (is_Some (find_char 47 (host ++ 58 :: s)) ↔ 47 ∈ host) as Hsl.
  { rewrite find_char_elem. rewrite elem_of_app, elem_of_cons. split; [|by left].
    intros [?|[?|?]]; [done|done|]. by edestruct (Hs 47); [lia|]. }
  rewrite find_last_char_app by (apply Hs; lia). rewrite take_app_length.
  replace (drop (S (length host)) (host ++ 58 :: s)) with s.
  2: { rewrite drop_app_ge by lia. by replace (S (length host) - length host)%nat with 1%nat by lia. }
  change (to_any_int 16 true s) with (to_any_uint 16 (2 ^ 16 - 1) s).
  rewrite (to_any_uint_digits 16 (2 ^ 16 - 1) s p) by (done || lia).
  destruct (decide (a = UNSPEC)) as [->|Hna].
  - rewrite (bool_decide_true (UNSPEC = UNSPEC)) by done. cbn [andb].
    destruct (decide (47 ∈ host)) as [Hin|Hin].
    + rewrite (bool_decide_true (is_Some _)) by (by apply Hsl). by rewrite decide_True.
    + rewrite (bool_decide_false (is_Some _)) by (by rewrite Hsl). rewrite decide_False by tauto. done.
  - rewrite (bool_decide_false (a = UNSPEC)) by done. cbn [andb].
    rewrite (bool_decide_false (a = UNIX)) by done. by rewrite decide_False by tauto.
Qed.

Lemma hostport_parse_witness :
  ∃ s, to_string_buf_int 16 true 5555 = Some s ∧ parse_hostport (str "::1" ++ 58 :: s) INET6 =
    Ok (if decide (INET6 = UNSPEC ∧ (47 ∈ str "::1")) then HP UNIX (str "::1" ++ 58 :: s) 0 else HP INET6 (str "::1") 5555).
Proof. apply (hostport_parse (str "::1") 5555 INET6); [lia|discriminate]. Defined.
End HostPort.

(** ** Lists of values *)

Module ListConv.
Import Conv.

Inductive list_error := EmptyValue | ItemError (e : conv_error).

Section list.
Context {T : Type} (to_string : T → bytes) (to_any : bytes → result conv_error T).

Fixpoint dump_loop (r : bytes) (l : list T) : bytes :=
  match l with
  | [] => r
  | i :: l =>
      let r := match r with [] => r | _ => r ++ [44] end in
      dump_loop (r ++ to_string i) l
  end.

Definition list_to_string (l : list T) : bytes := dump_loop [] l.

Fixpoint parse_loop (l : list bytes) : result list_error (list T) :=
  match l with
  | [] => Ok []
  | [] :: _ => Err EmptyValue
  | i :: l =>
      match to_any i with
      | Err e => Err (ItemError e)
      | Ok v => let? r := parse_loop l in Ok (v :: r)
      end
  end.

Definition list_to_any (s : bytes) : result list_error (list T) := parse_loop (Str.split (Str.eqc 44) s).

(** Elements that can stand in a list. *)
Definition item_ok (v : T) : Prop := to_string v ≠ [] ∧ (44 ∉ to_string v) ∧ to_any (to_string v) = Ok v.

Lemma list_dump_join l : Forall item_ok l → ∀ r, r ≠ [] →
  dump_loop r l = match l with [] => r | _ => r ++ 44 :: Str.join 44 (map to_string l) end.
Proof.
  intros Hl. induction Hl as [|v l Hv Hl IH]; intros r Hr; [done|]. cbn [dump_loop map].
  destruct r as [|c r]; [done|]. rewrite IH by done. destruct l as [|w l]; [by rewrite <-app_assoc|].
  cbn [map]. change (Str.join 44 (to_string v :: to_string w :: map to_string l)) with
    (to_string v ++ 44 :: Str.join 44 (to_string w :: map to_string l)).
  by repeat (rewrite <-app_assoc; cbn [app]).
Qed.

(** A non-empty list of values that print without a comma and parse back
    is printed and parsed back whole. *)
Theorem list_roundtrip (l : list T) (Hne : l ≠ []) (Hl : Forall item_ok l) :
  list_to_any (list_to_string l) = Ok l.
Proof.
  unfold list_to_any, list_to_string. destruct l as [|v l]; [done|]. cbn [dump_loop app].
  apply Forall_cons in Hl as [Hv Hl]. pose proof Hv as (Hv1 & _ & _). rewrite list_dump_join by done.
  transitivity (parse_loop (map to_string (v :: l))).
  - f_equal. rewrite Str.split_spec. rewrite <-(Str.fields_join 44 (map to_string (v :: l))); [by destruct l|done|].
    apply Forall_map, Forall_cons. split; [apply Hv|]. eapply Forall_impl; [exact Hl|]. by intros w (_ & ? & _).
  - assert (Forall item_ok (v :: l)) as H by (by constructor). clear -H. induction H as [|w k (H1 & _ & H3) Hk IH]; [done|].
    cbn [map parse_loop]. destruct (to_string w) as [|c t] eqn:E; [done|]. rewrite H3. by rewrite IH.
Qed.
End list.

Lemma list_roundtrip_witness :
  let to_string v := default [] (to_string_buf_int 32 false v) in
  list_to_any (to_any_int 32 false) (list_to_string to_string [10; -20; 0]) = Ok [10; -20; 0].
Proof.
  apply (list_roundtrip (λ v, default [] (to_string_buf_int 32 false v)) (to_any_int 32 false)); [discriminate|].
  repeat constructor; try (by vm_compute); apply (bool_decide_unpack _); vm_compute; exact I.
Defined.
End ListConv.

(** ** Bit fields *)

Module Bits.

(** [0xffffffffu >> (32 - width)]; the shift is undefined for width 0. *)
Definition mask (width : Z) : Z := Z.shiftr 0xffffffff (32 - width).

Definition get (bits offset width : Z) : Z := Z.land (mask width) (Z.shiftr bits offset).

(** [_bits ^= (get(offset, width) ^ (mask(width) & v)) << offset], where the
    shifted value is a 32-bit [unsigned]: a shift by 32 or more is undefined. *)
Definition set (w bits offset width v : Z) : option Z :=
  if offset <? 32
  then Some (Z.lxor bits (wrapu w (wrapu 32 (Z.shiftl (Z.lxor (get bits offset width) (Z.land (mask width) v)) offset))))
  else None.

Lemma mask_ones width : 0 ≤ width ≤ 32 → mask width = Z.ones width.
Proof.
  intros H. unfold mask. change 0xffffffff with (Z.ones 32). apply Z.bits_inj'. intros i Hi.
  rewrite Z.shiftr_spec by done. rewrite !Z.testbit_ones by lia.
  destruct (Z.leb_spec 0 (i + (32 - width))), (Z.ltb_spec (i + (32 - width)) 32), (Z.leb_spec 0 i), (Z.ltb_spec i width);
    cbn; lia || done.
Qed.

(** Writing a bit field that ends within 32 bits stores the value cut to
    the width of the field and leaves every other bit as it was. *)
Theorem bits_set_spec (w bits offset width v : Z)
  (Ho : 0 ≤ offset) (Hw : 1 ≤ width) (H32 : offset + width ≤ 32) (Hww : offset + width ≤ w) :
  ∃ b, set w bits offset width v = Some b ∧ get b offset width = v mod 2 ^ width ∧
    (∀ i, 0 ≤ i → ¬ offset ≤ i < offset + width → Z.testbit b i = Z.testbit bits i).
Proof.
  unfold set. tests. set (b := Z.lxor bits _). exists b. split; [done|].
  assert (∀ i, 0 ≤ i → Z.testbit b i =
    if decide (offset ≤ i < offset + width) then Z.testbit v (i - offset) else Z.testbit bits i) as Hbit.
  { intros i Hi. unfold b, wrapu, get. rewrite mask_ones by lia. rewrite Z.lxor_spec.
    rewrite <-!Z.land_ones by lia. rewrite !Z.land_spec, !Z.testbit_ones by lia.
    rewrite Z.shiftl_spec, Z.lxor_spec, !Z.land_spec by lia.
    destruct (decide _) as [Hr|Hr].
    - rewrite !Z.testbit_ones by lia. rewrite Z.shiftr_spec by lia. replace (i - offset + offset) with i by lia.
      tests. cbn. rewrite !andb_true_r. by destruct (Z.testbit bits i), (Z.testbit v (i - offset)).
    - destruct (Z.lt_ge_cases i offset).
      + rewrite (Z.testbit_neg_r _ (i - offset)), (Z.testbit_neg_r v (i - offset)) by lia.
        rewrite (Z.testbit_neg_r (Z.shiftr bits offset)) by lia. cbn. by rewrite xorb_false_r.
      + rewrite !Z.testbit_ones by lia. tests. cbn. by destruct (Z.testbit bits i). }
  split.
  - clearbody b. unfold get. rewrite mask_ones by lia. apply Z.bits_inj'. intros i Hi.
    rewrite Z.land_spec, Z.testbit_ones, Z.shiftr_spec by lia. rewrite Hbit by lia.
    rewrite <-Z.land_ones, Z.land_spec, Z.testbit_ones by lia.
    replace (i + offset - offset) with i by lia.
    destruct (decide _); destruct (Z.leb_spec 0 i), (Z.ltb_spec i width); cbn; rewrite ?andb_true_r, ?andb_false_r; lia || done.
  - intros i Hi Hr. rewrite Hbit by done. by rewrite decide_False.
Qed.

Lemma bits_set_spec_witness :
  ∃ b, set 16 0xffff 4 3 5 = Some b ∧ get b 4 3 = 5 mod 2 ^ 3 ∧
    (∀ i, 0 ≤ i → ¬ 4 ≤ i < 4 + 3 → Z.testbit b i = Z.testbit 0xffff i).
Proof. apply (bits_set_spec 16 0xffff 4 3 5); lia. Defined.

(** A 64-bit set of flags: bits from 32 up are out of reach, and a field across
    that border loses its upper part. *)
Lemma bits_set_high : set 64 0 40 1 1 = None ∧ set 64 0 31 2 3 = Some (2 ^ 31).
Proof. split; reflexivity. Qed.
End Bits.

(** ** Masks *)

Module Browse.

Definition star : bytes := str "*".
Definition dstar : bytes := str "**".

(** The check in front of the loop: no empty component, at most one [**]. *)
Fixpoint mask_valid (seen : bool) (mask : list bytes) : bool :=
  match mask with
  | [] => true
  | i :: mask =>
      if bool_decide (i = []) then false
      else if bool_decide (i = dstar) then (if seen then false else mask_valid true mask)
      else mask_valid seen mask
  end.

Fixpoint match_loop (mask path : list bytes) : bool :=
  match path, mask with
  | [], [] => true
  | [], _ :: _ => false
  | _ :: _, [] => false
  | p :: path, m :: mask =>
      if bool_decide (m = star) then match_loop mask path
      else if bool_decide (m = dstar) then
        (match mask with [] => true | _ => match_loop mask path end)
      else if bool_decide (m = p) then match_loop mask path
      else false
  end.

Definition match_list (mask : list bytes) (path : bytes) : bool :=
  mask_valid false mask && match_loop mask (Str.split (Str.eqc 46) path).

Definition match_ (mask path : bytes) : bool :=
  match mask with
  | [] => bool_decide (path = [])
  | _ =>
      if bool_decide (path = []) then false
      else if bool_decide (mask = dstar) then true
      else match_list (Str.split (Str.eqc 46) mask) path
  end.

(** [PropsT::browse] *)
Definition props_browse (m : gmap bytes bytes) (mask : bytes) : list (bytes * bytes) :=
  filter (λ e, match_list (Str.split (Str.eqc 46) mask) e.1) (Props.entries m).

(** One component of a mask against one of a path. *)
Definition one (m p : bytes) : Prop := m = star ∨ m = dstar ∨ m = p.

Lemma match_loop_spec mask : ∀ path,
  match_loop mask path = true ↔
  Forall2 one mask path ∨
  ∃ front pre p rest, mask = front ++ [dstar] ∧ path = pre ++ p :: rest ∧ Forall2 one front pre.
Proof.
  induction mask as [|m mask IH]; intros [|p path]; cbn [match_loop].
  - split; [intros _; left; constructor|done].
  - split; [done|]. intros [H|(front & pre & q & rest & H & _)]; [inversion H|by destruct front].
  - split; [done|]. intros [H|(front & pre & q & rest & _ & H & _)]; [inversion H|by destruct pre].
  - assert (one m p → (match_loop mask path = true ↔
      Forall2 one (m :: mask) (p :: path) ∨
      (∃ front pre q rest, m :: mask = front ++ [dstar] ∧ p :: path = pre ++ q :: rest ∧ Forall2 one front pre ∧ front ≠ []))) as Hrec.
    { intros Hone. rewrite IH. split.
      - intros [H|(front & pre & q & rest & -> & -> & H)]; [left; by constructor|].
        right. exists (m :: front), (p :: pre), q, rest. split_and!; [done|done|by constructor|done].
      - intros [H|(front & pre & q & rest & Hm & Hp & H & Hn)]; [left; by inversion H|].
        inversion H as [|? ? ? ? ? H']; subst; [done|]. cbn in *. injection Hm as -> ->. injection Hp as -> ->.
        right. eauto 8. }
    destruct (bool_decide_reflect (m = star)) as [->|H1].
    { rewrite Hrec by (by left). split.
      - intros [H|(front & pre & q & rest & ? & ? & ? & _)]; [by left|right; eauto 8].
      - intros [H|([|x front] & pre & q & rest & Hm & ? & ?)]; [by left|by cbn in Hm|right].
        exists (x :: front), pre, q, rest. done. }
    destruct (bool_decide_reflect (m = dstar)) as [->|H2].
    { destruct mask as [|m' mask'].
      - split; [|done]. intros _. right. exists [], [], p, path. done.
      - rewrite Hrec by (by right; left). split.
        + intros [H|(front & pre & q & rest & ? & ? & ? & _)]; [by left|right; eauto 8].
        + intros [H|([|x front] & pre & q & rest & Hm & ? & ?)]; [by left|by cbn in Hm|right].
          exists (x :: front), pre, q, rest. done. }
    destruct (bool_decide_reflect (m = p)) as [->|H3].
    { rewrite Hrec by (by right; right). split.
      - intros [H|(front & pre & q & rest & ? & ? & ? & _)]; [by left|right; eauto 8].
      - intros [H|([|x front] & pre & q & rest & Hm & ? & ?)]; [by left|cbn in Hm; by injection Hm|right].
        exists (x :: front), pre, q, rest. done. }
    split; [done|]. intros [H|([|x front] & pre & q & rest & Hm & Hp & H)].
    + inversion H as [|? ? ? ? Ho]; subst. destruct Ho as [?|[?|?]]; done.
    + cbn in Hm. by injection Hm.
    + inversion H as [|? y ? ? Ho]; subst. cbn in *. injection Hm as -> ->. injection Hp as -> ->.
      destruct Ho as [?|[?|?]]; done.
Qed.
End Browse.
