(* ===== verification/Config.v ===== *)
(** * Configuration trees

    src/config/config.h (the tree and its operations), src/config/config.cc
    (the C interface) and the path helpers of src/tll/compat/filesystem.h.
    A node is an object in a heap: it points to its parent and has its
    children by name, like the [tll_config_t] objects of the source.  Locks
    and reference counts are left out: the operations run one at a time and
    nodes are never freed.  Links make look-ups recursive, so the functions
    that follow them take the depth of the recursion they may use; [None] is
    a computation that did not end within it (or followed a null pointer). *)
From stdpp Require Import sorting.
From S2P Require Import Prelude Conv Text.

Module Config.
Import Find.

(** A path of a link: components without the root directory. *)
Record path := Path { p_abs : bool; p_comps : list bytes }.

#[global] Instance path_eq_dec : EqDecision path.
Proof. solve_decision. Defined.

(** [std::variant<std::monostate, std::string, cb_pair_t, path_t>]; a callback
    is known by a number. *)
Inductive value := VNone | VStr (s : bytes) | VCb (cb : Z) | VLink (p : path).

#[global] Instance value_eq_dec : EqDecision value.
Proof. solve_decision. Defined.

Record node := Node { parent : option Z; kids : gmap bytes Z; data : value }.
Record heap := Heap { nodes : gmap Z node; next_id : Z }.

Definition holds_link (d : value) : bool := match d with VLink _ => true | _ => false end.

Definition dot : bytes := str ".".
Definition dotdot : bytes := str "..".

(** [std::map] iterates in the order of the names. *)
Definition kid_le (a b : bytes * Z) : Prop := Props.key_leb a.1 b.1 = true.

#[global] Instance kid_le_dec a b : Decision (kid_le a b).
Proof. unfold kid_le. apply _. Defined.

Definition sorted_kids (m : gmap bytes Z) : list (bytes * Z) := merge_sort kid_le (map_to_list m).

(** ** Changes of one node *)

Definition alter_node (f : node → node) (n : Z) (h : heap) : heap := Heap (alter f n (nodes h)) (next_id h).

Definition set_data (d : value) (n : Z) (h : heap) : heap :=
  alter_node (λ x, Node (parent x) (kids x) d) n h.
Definition set_parent (p : option Z) (n : Z) (h : heap) : heap :=
  alter_node (λ x, Node p (kids x) (data x)) n h.
Definition set_kids (f : gmap bytes Z → gmap bytes Z) (n : Z) (h : heap) : heap :=
  alter_node (λ x, Node (parent x) (f (kids x)) (data x)) n h.

(** [new tll_config_t(p)] *)
Definition alloc (p : option Z) (h : heap) : heap * Z :=
  (Heap (<[next_id h := Node p ∅ VNone]> (nodes h)) (next_id h + 1), next_id h).

(** ** Following links and paths *)

(** [while (r->parent) r = r->parent] *)
Fixpoint root (f : nat) (h : heap) (n : Z) : option Z :=
  match f with
  | O => None
  | S f =>
      let! x := nodes h !! n in
      match parent x with None => Some n | Some p => root f h p end
  end.

(** The leading [..] of a relative link. *)
Fixpoint up (h : heap) (n : Z) (comps : list bytes) : option (option Z * list bytes) :=
  match comps with
  | c :: rest =>
      if bool_decide (c = dotdot) then
        let! x := nodes h !! n in
        match parent x with None => Some (None, comps) | Some p => up h p rest end
      else Some (Some n, comps)
  | [] => Some (Some n, [])
  end.

(** [_lookup_link] and [_lookup]; the latter also returns what is left of the path. *)
Fixpoint _lookup_link (f : nat) (h : heap) (n : Z) : option (option Z) :=
  match f with
  | O => None
  | S f =>
      let! x := nodes h !! n in
      match data x with
      | VLink link =>
          let! start :=
            (if p_abs link then let! r := root f h n in Some (Some r, p_comps link)
             else up h n (p_comps link)) in
          match start with
          | (None, _) => Some None
          | (Some m, []) => Some (Some m)
          | (Some m, rest) =>
              let! r := _lookup f h m rest in
              match r with
              | (r, []) => Some r
              | (_, _ :: _) => Some None
              end
          end
      | _ => Some (Some n)
      end
  end
with _lookup (f : nat) (h : heap) (n : Z) (p : list bytes) : option (option Z * list bytes) :=
  match f with
  | O => None
  | S f =>
      match p with
      | [] => Some (Some n, [])
      | key :: rest =>
          let! r := _lookup_link f h n in
          match r with
          | None => Some (None, p)
          | Some m =>
              let! x := nodes h !! m in
              match kids x !! key with
              | None => Some (Some m, p)
              | Some c => _lookup f h c rest
              end
          end
      end
  end.

Definition split_path (s : bytes) : list bytes := Str.split (Str.eqc 46) s.

(** [find(path) const] *)
Definition find (f : nat) (h : heap) (n : Z) (p : list bytes) : option (option Z) :=
  let! r := _lookup f h n p in
  match r with
  | (v, []) => Some v
  | (_, _ :: _) => Some None
  end.

(** The loop of [find] that adds missing nodes: [emplace] keeps a child that
    is there. *)
Fixpoint create_loop (h : heap) (v : Z) (p : list bytes) : option (heap * Z) :=
  match p with
  | [] => Some (h, v)
  | k :: p =>
      let! x := nodes h !! v in
      match kids x !! k with
      | Some c => create_loop h c p
      | None =>
          let '(h, c) := alloc (Some v) h in
          create_loop (set_kids (insert k c) v h) c p
      end
  end.

(** [find(pi, end, create)] *)
Definition find_create (f : nat) (h : heap) (n : Z) (p : list bytes) (create : bool) : option (heap * option Z) :=
  let! r := _lookup f h n p in
  match r with
  | (None, _) => Some (h, None)
  | (Some v, []) => Some (h, Some v)
  | (Some v, rest) =>
      if create then let! r := create_loop h v rest in Some (fst r, Some (snd r))
      else Some (h, None)
  end.

(** ** Values *)

Section call.
Context (call : Z → option bytes).

(** [get()] *)
Fixpoint get (f : nat) (h : heap) (n : Z) : option (option bytes) :=
  match f with
  | O => None
  | S f =>
      let! x := nodes h !! n in
      match data x with
      | VLink _ =>
          let! r := _lookup_link f h n in
          match r with None => Some None | Some m => get f h m end
      | VStr s => Some (Some s)
      | VCb cb => Some (call cb)
      | VNone => Some None
      end
  end.

(** [get(key)] *)
Definition get_key (f : nat) (h : heap) (n : Z) (key : bytes) : option (option bytes) :=
  let! r := find f h n (split_path key) in
  match r with None => Some None | Some m => get f h m end.
End call.

(** [value()] *)
Fixpoint has_value (f : nat) (h : heap) (n : Z) : option bool :=
  match f with
  | O => None
  | S f =>
      let! x := nodes h !! n in
      match data x with
      | VLink _ =>
          let! r := _lookup_link f h n in
          match r with None => Some false | Some m => has_value f h m end
      | VNone => Some false
      | _ => Some true
      end
  end.

(** ** Operations of the C interface

    Each returns the new heap with the result code. *)

Definition rc : Type := result errno ().
Definition ok : rc := Ok tt.

Definition tll_config_new (h : heap) : heap * Z := alloc None h.

Definition tll_config_set (f : nat) (h : heap) (cfg : Z) (p : option bytes) (v : bytes) : option (heap * rc) :=
  match p with
  | None => Some (set_data (VStr v) cfg h, ok)
  | Some p =>
      let! r := find_create f h cfg (split_path p) true in
      match r with
      | (h, None) => Some (h, Err EINVAL)
      | (h, Some sub) => Some (set_data (VStr v) sub h, ok)
      end
  end.

Definition tll_config_set_callback (f : nat) (h : heap) (cfg : Z) (p : option bytes) (cb : Z) : option (heap * rc) :=
  match p with
  | None => Some (set_data (VCb cb) cfg h, ok)
  | Some p =>
      let! r := find_create f h cfg (split_path p) true in
      match r with
      | (h, None) => Some (h, Err EINVAL)
      | (h, Some sub) => Some (set_data (VCb cb) sub h, ok)
      end
  end.

Definition tll_config_unset (f : nat) (h : heap) (cfg : Z) (p : option bytes) : option (heap * rc) :=
  match p with
  | None => Some (set_data VNone cfg h, ok)
  | Some p =>
      let! r := find_create f h cfg (split_path p) false in
      match r with
      | (h, None) => Some (h, Err ENOENT)
      | (h, Some sub) => Some (set_data VNone sub h, ok)
      end
  end.

(** [set(path, cfg, consume)]: the last component names the child; a null
    result of [find] is dereferenced. *)
Definition tll_config_set_config (f : nat) (h : heap) (cfg : Z) (p : bytes) (ptr : Z) : option (heap * rc) :=
  let comps := split_path p in
  let! r := find_create f h cfg (removelast comps) true in
  match r with
  | (_, None) => None
  | (h, Some v) =>
      let! k := last comps in
      let! x := nodes h !! v in
      let h := match kids x !! k with Some old => set_parent None old h | None => h end in
      Some (set_parent (Some v) ptr (set_kids (insert k ptr) v h), ok)
  end.

(** The node in front of the last component, for [unlink] and [remove]. *)
Definition lookup_front (f : nat) (h : heap) (cfg : Z) (comps : list bytes) : option (option Z) :=
  match removelast comps with
  | [] => Some (Some cfg)
  | front => find f h cfg front
  end.

Definition tll_config_unlink (f : nat) (h : heap) (cfg : Z) (p : bytes) : option (heap * rc) :=
  let comps := split_path p in
  let! r := lookup_front f h cfg comps in
  match r with
  | None => Some (h, Err ENOENT)
  | Some m =>
      let! k := last comps in
      let! x := nodes h !! m in
      match kids x !! k with
      | None => Some (h, Err ENOENT)
      | Some _ => Some (set_kids (delete k) m h, ok)
      end
  end.

Definition tll_config_remove (f : nat) (h : heap) (cfg : Z) (p : bytes) : option (heap * rc) :=
  let comps := split_path p in
  let! r := lookup_front f h cfg comps in
  match r with
  | None => Some (h, Err ENOENT)
  | Some m =>
      let! k := last comps in
      let! x := nodes h !! m in
      match kids x !! k with
      | None => Some (h, Err ENOENT)
      | Some c =>
          let! kc := _lookup_link f h c in
          match kc with
          | None => Some (h, Err ENOENT)
          | Some t =>
              let! y := nodes h !! t in
              if bool_decide (kids y = ∅) then Some (set_kids (delete k) m h, ok)
              else Some (set_data VNone t h, ok)
          end
      end
  end.

Definition tll_config_has (f : nat) (h : heap) (cfg : Z) (p : option bytes) : option bool :=
  match p with
  | None => has_value f h cfg
  | Some p =>
      let! r := find f h cfg (split_path p) in
      match r with None => Some false | Some m => has_value f h m end
  end.

(** [_get_sv]: the result code, the length reported and the bytes written to a
    buffer of the given size ([None]: no buffer). *)
Definition _get_sv (v : bytes) (buf : option Z) : result errno bytes * Z :=
  match buf with
  | None => (Err EAGAIN, zlen v + 1)
  | Some size => if size <? zlen v + 1 then (Err EAGAIN, zlen v + 1) else (Ok (v ++ [0]), zlen v)
  end.

(** [tll_config_get]; no length is reported when there is no value. *)
Definition tll_config_get (call : Z → option bytes) (f : nat) (h : heap) (cfg : Z) (p : option bytes) (buf : option Z)
  : option (result errno bytes * option Z) :=
  let! start :=
    (match p with
     | Some p => find f h cfg (split_path p)
     | None => let! b := has_value f h cfg in Some (if (b : bool) then Some cfg else None)
     end : option (option Z)) in
  match start with
  | None => Some (Err ENOENT, None)
  | Some m =>
      let! t := _lookup_link f h m in
      match t with
      | None => Some (Err ENOENT, None)
      | Some t =>
          let! x := nodes h !! t in
          match data x with
          | VStr v => let '(r, n) := _get_sv v buf in Some (r, Some n)
          | VCb cb => let '(r, n) := _get_sv (default [] (call cb)) buf in Some (r, Some n)
          | _ => Some (Err ENOENT, None)
          end
      end
  end.

Definition tll_config_get_copy (call : Z → option bytes) (f : nat) (h : heap) (cfg : Z) (p : option bytes) : option (option bytes) :=
  match p with
  | Some p => get_key call f h cfg p
  | None => get call f h cfg
  end.

(** ** Paths of links

    [std::filesystem::path] on the components of a text: the root directory
    apart, an empty last component for a trailing separator. *)
Definition path_of (s : bytes) : path :=
  let fs := Str.split (Str.eqc 47) s in
  let names := filter (λ c, c ≠ []) fs in
  Path (match s with c :: _ => c =? 47 | [] => false end)
    (names ++ if bool_decide (names ≠ [] ∧ last fs = Some []) then [[]] else []).

Definition path_empty (p : path) : bool := negb (p_abs p) && bool_decide (p_comps p = []).
Definition filename (p : path) : bytes := default [] (last (p_comps p)).

(** [operator /]: an absolute right side replaces the left one, an empty last
    component of the left one goes away. *)
Definition drop_empty (l : list bytes) : list bytes :=
  if bool_decide (last l = Some []) then removelast l else l.

Definition path_append (p q : path) : path :=
  if p_abs q then q
  else if bool_decide (p_comps q = []) || bool_decide (p_comps q = [[]]) && path_empty p then p
  else Path (p_abs p) (drop_empty (p_comps p) ++ p_comps q).

(** [lexically_normal]: components kept so far in reverse order. *)
Definition normal_step (absolute : bool) (st : list bytes) (c : bytes) : list bytes :=
  if bool_decide (c = []) || bool_decide (c = dot) then st
  else if bool_decide (c = dotdot) then
    match st with
    | [] => if absolute then [] else [c]
    | top :: rest => if bool_decide (top = dotdot) then c :: st else rest
    end
  else c :: st.

Definition lexically_normal (p : path) : path :=
  if path_empty p then p else
  let st := foldl (normal_step (p_abs p)) [] (p_comps p) in
  match st with
  | [] => if p_abs p then Path true [] else Path false [dot]
  | top :: _ =>
      let l := filename p in
      let trailing := (bool_decide (l = []) || bool_decide (l = dot) || bool_decide (l = dotdot))
        && negb (bool_decide (top = dotdot)) in
      Path (p_abs p) (rev st ++ if trailing then [[]] else [])
  end.

(** [std::filesystem::weakly_canonical] on the machine that runs the program:
    what exists there of a path is replaced by its canonical form, without
    symbolic links, and the rest is normalized; an exception that it throws
    is left out.  On a machine where no component exists it only normalizes. *)
Class Host := weakly_canonical : path → path.

Definition empty_host : Host := lexically_normal.

(** [path::lexically_relative]: how far to go up from [base], and from there to [p]. *)
Fixpoint strip_common (p base : list bytes) : list bytes * list bytes :=
  match p, base with
  | a :: p', b :: base' => if bool_decide (a = b) then strip_common p' base' else (p, base)
  | _, _ => (p, base)
  end.

Definition ups (n : Z) (c : bytes) : Z :=
  if bool_decide (c = dotdot) then n - 1
  else if bool_decide (c = []) || bool_decide (c = dot) then n
  else n + 1.

Definition lexically_relative (p base : path) : path :=
  if negb (Bool.eqb (p_abs p) (p_abs base)) then Path false [] else
  let '(rest, brest) := strip_common (p_comps p) (p_comps base) in
  if bool_decide (rest = []) && bool_decide (brest = []) then Path false [dot] else
  let n := foldl ups 0 brest in
  if n <? 0 then Path false []
  else if (n =? 0) && (bool_decide (rest = []) || bool_decide (head rest = Some [])) then Path false [dot]
  else Path false (replicate (Z.to_nat n) dotdot ++ rest).

(** [relative_simple], which is [std::filesystem::relative] of the two paths:
    paths of the configuration are looked up on the machine. *)
Definition relative_simple {host : Host} (p base : path) : path :=
  lexically_relative (weakly_canonical p) (weakly_canonical base).

(** [path()]: from the root, by the name under which each parent has the node. *)
Fixpoint kid_name (c : Z) (l : list (bytes * Z)) : option bytes :=
  match l with
  | [] => None
  | (k, v) :: l => if v =? c then Some k else kid_name c l
  end.

Fixpoint node_path (f : nat) (h : heap) (n : Z) : option (option path) :=
  match f with
  | O => None
  | S f =>
      let! x := nodes h !! n in
      match parent x with
      | None => Some (Some (Path true []))
      | Some p =>
          let! r := node_path f h p in
          match r with
          | None => Some None
          | Some q =>
              let! y := nodes h !! p in
              Some ((λ k, path_append q (path_of k)) <$> kid_name n (sorted_kids (kids y)))
          end
      end
  end.

(** [set_link] *)
Definition set_link {host : Host} (f : nat) (h : heap) (n : Z) (v : path) : option (heap * rc) :=
  let val := lexically_normal v in
  let! rel :=
    (if p_abs val
     then let! p := node_path f h n in Some (option_map (relative_simple val) p)
     else Some (Some val) : option (option path)) in
  match rel with
  | None => Some (h, Err EINVAL)
  | Some rel =>
      if path_empty rel then Some (h, Err EINVAL)
      else if negb (bool_decide (head (p_comps rel) = Some dotdot)) then Some (h, Err EINVAL)
      else if bool_decide (filename rel = dotdot) || bool_decide (filename rel = dot) then Some (h, Err EINVAL)
      else Some (set_data (VLink val) n h, ok)
  end.

Definition tll_config_set_link {host : Host} (f : nat) (h : heap) (cfg : Z) (p dest : bytes) : option (heap * rc) :=
  let! r := find_create f h cfg (split_path p) true in
  match r with
  | (h, None) => Some (h, Err EINVAL)
  | (h, Some sub) => set_link f h sub (path_of dest)
  end.

(** ** Merging and copying *)

(** [merge]: children that are missing are moved over, others are merged. *)
Fixpoint merge (f : nat) (h : heap) (this rhs : Z) (overwrite : bool) : option heap :=
  match f with
  | O => None
  | S f =>
      let! r := nodes h !! rhs in
      let h := if overwrite && negb (bool_decide (data r = VNone)) then set_data (data r) this h else h in
      foldl (λ acc '(k, rk),
        let! h := acc in
        let! l := nodes h !! this in
        match kids l !! k with
        | None => Some (set_kids (delete k) rhs (set_kids (insert k rk) this (set_parent (Some this) rk h)))
        | Some lk => merge f h lk rk overwrite
        end) (Some h) (sorted_kids (kids r))
  end.

Definition tll_config_merge (f : nat) (h : heap) (c src : Z) (overwrite : bool) : option (heap * rc) :=
  let! h := merge f h c src overwrite in Some (h, ok).

(** Leading [..] of a relative link, to see whether it leaves the subtree that
    is copied. *)
Fixpoint leading_up (l : list bytes) : nat :=
  match l with c :: l => if bool_decide (c = dotdot) then S (leading_up l) else O | [] => O end.

(** The copying constructor. *)
Fixpoint copy (f : nat) (h : heap) (n : Z) (depth : nat) (is_root : bool) : option (heap * Z) :=
  match f with
  | O => None
  | S f =>
      let! x := nodes h !! n in
      let '(h, c) := alloc None h in
      let! src :=
        (match data x with
         | VLink link =>
             if (if p_abs link then negb is_root else (depth <? leading_up (p_comps link))%nat)
             then _lookup_link f h n
             else Some (Some n)
         | _ => Some (Some n)
         end : option (option Z)) in
      match src with
      | None => Some (h, c)
      | Some m =>
          let! y := nodes h !! m in
          let h := set_data (data y) c h in
          let! h := foldl (λ acc '(k, kc),
            let! h := acc in
            let! r := copy f h kc (S depth) is_root in
            Some (set_parent (Some c) r.2 (set_kids (insert k r.2) c r.1))) (Some h) (sorted_kids (kids y)) in
          Some (h, c)
      end
  end.

Definition tll_config_copy (f : nat) (h : heap) (cfg : Z) : option (heap * Z) :=
  let! x := nodes h !! cfg in
  copy f h cfg 0 (bool_decide (parent x = None)).

(** ** Browsing

    The callback gets the name and the node and may stop the walk with its
    result; the calls made are returned in order. *)
Section browse.
Context (cb : bytes → Z → Z) (h : heap).

(** Calls of one step followed by the next step, if the result is zero. *)
Definition then_ (r : list (bytes * Z) * Z) (k : option (list (bytes * Z) * Z)) : option (list (bytes * Z) * Z) :=
  if r.2 =? 0 then let! s := k in Some (r.1 ++ s.1, s.2) else Some r.

Definition emit (p : bytes) (n : Z) : list (bytes * Z) * Z := ([(p, n)], cb p n).

(** The loop over the children. *)
Fixpoint browse_kids (visit : bytes → Z → option (list (bytes * Z) * Z)) (l : list (bytes * Z)) : option (list (bytes * Z) * Z) :=
  match l with
  | [] => Some ([], 0)
  | (k, c) :: l => let! r := visit k c in then_ r (browse_kids visit l)
  end.

Fixpoint browse_at (f : nat) (n : Z) (mask : list bytes) (prefix : bytes) : option (list (bytes * Z) * Z) :=
  match f with
  | O => None
  | S f =>
      let! x := nodes h !! n in
      match mask with
      | [] => Some ([], 0)
      | m :: next =>
          if bool_decide (m = Browse.star) || bool_decide (m = Browse.dstar) then
            browse_kids (λ k c,
              let p := prefix ++ k in
              let! t := _lookup_link f h c in
              match t with
              | None => Some ([], 0)
              | Some t =>
                  then_ (match next with [] => emit p t | _ => ([], 0) end)
                    (let! r := browse_at f t next (p ++ dot) in
                     then_ r
                       (if bool_decide (m = Browse.dstar) then browse_at f t mask (p ++ dot) else Some ([], 0)))
              end) (sorted_kids (kids x))
          else
            match kids x !! m with
            | None => Some ([], 0)
            | Some c =>
                match next with
                | [] => Some (emit (prefix ++ m) c)
                | _ => browse_at f c next (prefix ++ m ++ dot)
                end
            end
      end
  end.

(** More than one [**] is refused. *)
Definition dstars (mask : list bytes) : nat := length (filter (λ m, m = Browse.dstar) mask).

(** The loop over the plain names in front of the first star. *)
Fixpoint browse_plain (f : nat) (n : Z) (mask : list bytes) (prefix : bytes) : option (list (bytes * Z) * Z) :=
  match mask with
  | [] => browse_at f n [] prefix
  | m :: next =>
      let! t := _lookup_link f h n in
      match t with
      | None => Some ([], 0)
      | Some t =>
          if bool_decide (m = Browse.star) || bool_decide (m = Browse.dstar) then browse_at f t mask prefix
          else
            let! x := nodes h !! t in
            match kids x !! m with
            | None => Some ([], 0)
            | Some c => browse_plain f c next (prefix ++ m ++ dot)
            end
      end
  end.

Definition browse (f : nat) (n : Z) (mask : bytes) : option (result errno (list (bytes * Z) * Z)) :=
  let mv := split_path mask in
  if (1 <? dstars mv)%nat then Some (Err EINVAL)
  else let! r := browse_plain f n mv [] in Some (Ok r).
End browse.

(** [tll_config_list] stops at the first nonzero result. *)
Fixpoint list_loop (cb : bytes → Z → Z) (l : list (bytes * Z)) : list (bytes * Z) :=
  match l with
  | [] => []
  | (k, c) :: l => (k, c) :: if cb k c =? 0 then list_loop cb l else []
  end.

Definition tll_config_list (cb : bytes → Z → Z) (h : heap) (n : Z) : option (list (bytes * Z)) :=
  let! x := nodes h !! n in Some (list_loop cb (sorted_kids (kids x))).

(** ** Urls as configuration ([ConfigUrl]) *)

Inductive url_error := UrlMissingEq | UrlDuplicate (k : bytes) | UrlNoSeparator | UrlEmptyProto | UrlSetFailed (k : bytes).

Fixpoint props_loop (f : nat) (h : heap) (r : Z) (l : list bytes) : option (heap * result url_error Z) :=
  match l with
  | [] => Some (h, Ok r)
  | [] :: l => props_loop f h r l
  | i :: l =>
      match find_char 61 i with
      | None => Some (h, Err UrlMissingEq)
      | Some sep =>
          let key := take sep i in
          let! b := tll_config_has f h r (Some key) in
          if (b : bool) then Some (h, Err (UrlDuplicate key)) else
          let! s := tll_config_set f h r (Some key) (drop (S sep) i) in
          match s with
          | (h, Ok _) => props_loop f h r l
          | (h, Err _) => Some (h, Err (UrlSetFailed key))
          end
      end
  end.

Definition parse_props (f : nat) (h : heap) (s : bytes) : option (heap * result url_error Z) :=
  let '(h, r) := tll_config_new h in props_loop f h r (Str.split (Str.eqc 59) s).

Definition set_ignored (f : nat) (r : Z) (key v : bytes) (h : heap) : option heap :=
  let! s := tll_config_set f h r (Some key) v in Some s.1.

Definition parse_url (f : nat) (h : heap) (s : bytes) : option (heap * result url_error Z) :=
  match find_sub (str "://") s with
  | None => Some (h, Err UrlNoSeparator)
  | Some sep =>
      let proto := take sep s in
      if bool_decide (proto = []) then Some (h, Err UrlEmptyProto) else
      let rest := drop (sep + 3) s in
      let finish h r host :=
        let! h := set_ignored f r (str "tll.proto") proto h in
        let! h := (if bool_decide (host = []) then Some h else set_ignored f r (str "tll.host") host h) in
        Some (h, Ok r) in
      match find_char 59 rest with
      | None => let '(h, r) := tll_config_new h in finish h r rest
      | Some hsep =>
          let! p := parse_props f h (drop (S hsep) rest) in
          match p with
          | (h, Err e) => Some (h, Err e)
          | (h, Ok r) =>
              let! b := tll_config_has f h r (Some (str "tll.proto")) in
              if (b : bool) then Some (h, Err (UrlDuplicate (str "tll.proto"))) else
              let! b := tll_config_has f h r (Some (str "tll.host")) in
              if (b : bool) then Some (h, Err (UrlDuplicate (str "tll.host"))) else
              finish h r (take hsep rest)
          end
      end
  end.
End Config.
