(* ===== verification/ConfigSpec.v ===== *)
(** * Configuration trees: what the operations do

    Theory of Config.v.  Without links a tree is a map from paths to values:
    [view] reads it off the heap, the operations of the C interface refine
    operations on that map, and browsing lists the paths that match a mask.
    Links are transparent as long as they do not run in a circle; a circle
    makes look-ups run without end. *)
From stdpp Require Import sorting.
From S2P Require Import Prelude Conv Text Config.

Module ConfigSpec.
Import Config.

(** ** Heaps that are trees *)

Definition plain (h : heap) : Prop := ∀ n x, nodes h !! n = Some x → holds_link (data x) = false.

Record wf (h : heap) : Prop := {
  wf_kid : ∀ n x k c, nodes h !! n = Some x → kids x !! k = Some c →
    ∃ y, nodes h !! c = Some y ∧ parent y = Some n;
  wf_name : ∀ n x k k' c, nodes h !! n = Some x → kids x !! k = Some c → kids x !! k' = Some c → k = k';
  wf_next : ∀ n x, nodes h !! n = Some x → n < next_id h;
}.

(** The node at a path below a node. *)
Definition step (h : heap) (n : Z) (k : bytes) : option Z := let! x := nodes h !! n in kids x !! k.

Fixpoint walk (h : heap) (n : Z) (p : list bytes) : option Z :=
  match p with
  | [] => Some n
  | k :: p => let! c := step h n k in walk h c p
  end.

(** The values of a tree by path; [None] where there is no node. *)
Definition tree : Type := list bytes → option value.

Definition view (h : heap) (n : Z) : tree := λ p, let! m := walk h n p in data <$> nodes h !! m.

Lemma walk_app h p q : ∀ n, walk h n (p ++ q) = (let! m := walk h n p in walk h m q).
Proof. induction p as [|k p IH]; intros n; cbn; [done|]. destruct (step h n k); cbn; [apply IH|done]. Qed.

Lemma walk_snoc h n p k : walk h n (p ++ [k]) = (let! m := walk h n p in step h m k).
Proof. rewrite walk_app. destruct (walk h n p); [|done]. cbn. by destruct (step h z k). Qed.

Lemma step_Some h n k c : step h n k = Some c ↔ ∃ x, nodes h !! n = Some x ∧ kids x !! k = Some c.
Proof. unfold step. destruct (nodes h !! n) as [x|]; cbn; [|naive_solver]. naive_solver. Qed.

Lemma walk_exists h n p m : wf h → is_Some (nodes h !! n) → walk h n p = Some m → is_Some (nodes h !! m).
Proof.
  intros Hwf. revert n. induction p as [|k p IH]; intros n Hn; cbn; [by intros [= <-]|].
  destruct (step h n k) as [c|] eqn:E; [|done]. cbn. apply IH.
  apply step_Some in E as (x & Hx & Hk). destruct (wf_kid _ Hwf _ _ _ _ Hx Hk) as (y & Hy & _). by eexists.
Qed.

(** A root: a node without parent. *)
Definition is_root (h : heap) (n : Z) : Prop := ∃ x, nodes h !! n = Some x ∧ parent x = None.

Lemma is_root_exists h n : is_root h n → is_Some (nodes h !! n).
Proof. intros (x & Hx & _). by eexists. Qed.

(** Different paths lead to different nodes. *)
Lemma walk_inj h n p q m : wf h → is_root h n → walk h n p = Some m → walk h n q = Some m → p = q.
Proof.
  intros Hwf (r & Hr & Hroot). revert q m.
  assert (∀ p k m, walk h n (p ++ [k]) = Some m → ∃ i x y, walk h n p = Some i ∧ nodes h !! i = Some x ∧
    kids x !! k = Some m ∧ nodes h !! m = Some y ∧ parent y = Some i) as Hlast.
  { intros p' k m. rewrite walk_snoc. destruct (walk h n p') as [i|]; [|done]. cbn.
    intros (x & Hx & Hk)%step_Some. destruct (wf_kid _ Hwf _ _ _ _ Hx Hk) as (y & Hy & Hp).
    exists i, x, y. done. }
  induction p as [|k p IH] using rev_ind; intros q m Hp Hq.
  - destruct q as [|k q _] using rev_ind; [done|]. exfalso. cbn in Hp. injection Hp as <-.
    apply Hlast in Hq as (i & x & y & _ & _ & _ & Hy & Hpar). naive_solver.
  - destruct q as [|k' q _] using rev_ind.
    + exfalso. cbn in Hq. injection Hq as <-. apply Hlast in Hp as (i & x & y & _ & _ & _ & Hy & Hpar). naive_solver.
    + apply Hlast in Hp as (i & x & y & Hi & Hx & Hk & Hy & Hpar).
      apply Hlast in Hq as (i' & x' & y' & Hi' & Hx' & Hk' & Hy' & Hpar').
      assert (i' = i) as -> by congruence. assert (x' = x) as -> by congruence.
      rewrite (IH q i) by done. by rewrite (wf_name _ Hwf _ _ _ _ _ Hx Hk Hk').
Qed.

(** ** Look-ups without links *)

Lemma lookup_link_plain f h n : plain h → is_Some (nodes h !! n) → _lookup_link (S f) h n = Some (Some n).
Proof. intros Hp [x Hx]. cbn. rewrite Hx. cbn. specialize (Hp _ _ Hx). by destruct (data x). Qed.

Lemma lookup_plain h p : wf h → plain h → ∀ f n, is_Some (nodes h !! n) → (length p < f)%nat →
  ∃ pre rest m, p = pre ++ rest ∧ walk h n pre = Some m ∧ _lookup f h n p = Some (Some m, rest) ∧
    (∀ k r, rest = k :: r → step h m k = None).
Proof.
  intros Hwf Hpl. induction p as [|k p IH]; intros f n Hn Hf.
  - destruct f as [|f]; [lia|]. exists [], [], n. done.
  - destruct f as [|[|f]]; [cbn in Hf; lia|cbn in Hf; lia|].
    cbn [_lookup]. rewrite lookup_link_plain by done. cbn [mbind option_bind].
    destruct Hn as [x Hx]. rewrite Hx. cbn [mbind option_bind].
    destruct (kids x !! k) as [c|] eqn:Ek.
    + assert (step h n k = Some c) as Es by (apply step_Some; eauto).
      destruct (IH (S f) c) as (pre & rest & m & -> & Hw & Hl & Hr).
      { destruct (wf_kid _ Hwf _ _ _ _ Hx Ek) as (y & Hy & _). by eexists. }
      { cbn in Hf. lia. }
      exists (k :: pre), rest, m. split_and!; [done|cbn; by rewrite Es|done|done].
    + exists [], (k :: p), n. split_and!; [done|done|done|]. intros k' r [= <- <-]. unfold step. by rewrite Hx.
Qed.

Lemma walk_stuck h n pre k r m : walk h n pre = Some m → step h m k = None → walk h n (pre ++ k :: r) = None.
Proof. intros Hw Hs. rewrite walk_app, Hw. cbn. by rewrite Hs. Qed.

Lemma find_plain f h n p : wf h → plain h → is_Some (nodes h !! n) → (length p < f)%nat →
  find f h n p = Some (walk h n p).
Proof.
  intros Hwf Hpl Hn Hf. destruct (lookup_plain h p Hwf Hpl f n Hn Hf) as (pre & rest & m & -> & Hw & Hl & Hr).
  unfold find. rewrite Hl. cbn. destruct rest as [|k r]; [by rewrite app_nil_r, Hw|].
  by rewrite (walk_stuck h n pre k r m Hw) by (by eapply Hr).
Qed.

(** ** Changing one node *)

(** [h'] differs from [h] only at [m] and in nodes that are new. *)
Record changed (h h' : heap) (m : Z) (x x' : node) : Prop := {
  ch_old : nodes h !! m = Some x;
  ch_new : nodes h' !! m = Some x';
  ch_rest : ∀ i, i ≠ m → is_Some (nodes h !! i) → nodes h' !! i = nodes h !! i;
}.

Lemma walk_changed h h' n m x x' pre q : wf h → is_root h n → changed h h' m x x' → walk h n pre = Some m →
  (∀ k t, q = pre ++ k :: t → kids x' !! k = kids x !! k) → walk h' n q = walk h n q.
Proof.
  intros Hwf Hroot Hch Hpre. induction q as [|k q IH] using rev_ind; intros Hq; [done|].
  rewrite !walk_snoc. rewrite IH.
  2: { intros k' t Ht. apply (Hq k' (t ++ [k])). rewrite Ht. by rewrite <-app_assoc. }
  destruct (walk h n q) as [i|] eqn:Ei; [|done]. cbn. unfold step.
  destruct (decide (i = m)) as [->|Hne].
  - rewrite (ch_old _ _ _ _ _ Hch), (ch_new _ _ _ _ _ Hch). cbn. apply (Hq k []).
    by rewrite (walk_inj h n q pre m).
  - rewrite (ch_rest _ _ _ _ _ Hch i Hne); [done|].
    eapply walk_exists; [done|by apply is_root_exists|done].
Qed.

Lemma view_changed h h' n m x x' pre q : wf h → is_root h n → changed h h' m x x' → walk h n pre = Some m →
  (∀ k t, q = pre ++ k :: t → kids x' !! k = kids x !! k) →
  view h' n q = if decide (q = pre) then Some (data x') else view h n q.
Proof.
  intros Hwf Hroot Hch Hpre Hq. unfold view. rewrite (walk_changed h h' n m x x' pre q) by done.
  destruct (decide (q = pre)) as [->|Hne].
  - rewrite Hpre. cbn. by rewrite (ch_new _ _ _ _ _ Hch).
  - destruct (walk h n q) as [i|] eqn:Ei; [|done]. cbn.
    destruct (decide (i = m)) as [->|Him]; [by destruct Hne; eapply walk_inj|].
    rewrite (ch_rest _ _ _ _ _ Hch i Him); [done|]. eapply walk_exists; [done|by apply is_root_exists|done].
Qed.

(** A tree of a root without links. *)
Record good (h : heap) (n : Z) : Prop := { g_wf : wf h; g_plain : plain h; g_root : is_root h n }.

Lemma good_walk h n p m : good h n → walk h n p = Some m → ∃ x, nodes h !! m = Some x.
Proof. intros [Hwf _ Hr] Hw. eapply walk_exists; [done|by apply is_root_exists|done]. Qed.

Lemma alter_lookup (g : node → node) m i (h : heap) : nodes (alter_node g m h) !! i =
  if decide (i = m) then g <$> nodes h !! m else nodes h !! i.
Proof.
  cbn. destruct (decide (i = m)) as [->|]; [by rewrite lookup_alter_eq|by rewrite lookup_alter_ne].
Qed.

(** A change of one node that keeps its parent and only drops children. *)
Lemma good_alter h n m x (g : node → node) : good h n → nodes h !! m = Some x →
  parent (g x) = parent x → kids (g x) ⊆ kids x → holds_link (data (g x)) = false →
  good (alter_node g m h) n ∧ changed h (alter_node g m h) m x (g x).
Proof.
  intros [Hwf Hpl (r & Hr & Hrp)] Hx Hp Hk Hd.
  assert (∀ i y, nodes (alter_node g m h) !! i = Some y → ∃ y0, nodes h !! i = Some y0 ∧ parent y = parent y0 ∧ kids y ⊆ kids y0) as Hold.
  { intros i y. rewrite alter_lookup. case_decide as E; [subst; rewrite Hx; cbn; intros [= <-]; eauto|eauto]. }
  split; [split|].
  - split.
    + intros i y k c (y0 & Hy0 & _ & Hs)%Hold Hc. pose proof (lookup_weaken _ _ _ _ Hc Hs) as Hc0.
      destruct (wf_kid _ Hwf _ _ _ _ Hy0 Hc0) as (z & Hz & Hpz). rewrite alter_lookup. case_decide; subst.
      * rewrite Hz. cbn. eexists. split; [done|]. congruence.
      * eauto.
    + intros i y k k' c (y0 & Hy0 & _ & Hs)%Hold Hc Hc'. eapply (wf_name _ Hwf); [done| |]; by eapply lookup_weaken.
    + intros i y (y0 & Hy0 & _)%Hold. by eapply (wf_next _ Hwf).
  - intros i y. rewrite alter_lookup. case_decide; subst; [rewrite Hx; cbn; by intros [= <-]|apply Hpl].
  - unfold is_root. rewrite alter_lookup. case_decide; subst; [|eauto].
    rewrite Hx. cbn. eexists. split; [done|]. congruence.
  - split; [done|rewrite alter_lookup, decide_True, Hx by done; done|].
    intros i Hi _. by rewrite alter_lookup, decide_False.
Qed.

Lemma set_data_view h n pre m d : good h n → walk h n pre = Some m → holds_link d = false →
  good (set_data d m h) n ∧ ∀ q, view (set_data d m h) n q = if decide (q = pre) then Some d else view h n q.
Proof.
  intros Hg Hw Hd. destruct (good_walk h n pre m Hg Hw) as [x Hx].
  destruct (good_alter h n m x (λ x, Node (parent x) (kids x) d) Hg Hx) as [Hg' Hch]; [done|done|done|].
  fold (set_data d m h) in Hg', Hch. split; [done|]. intros q. destruct Hg as [Hwf Hpl Hr]. by rewrite (view_changed _ _ n m x _ pre q Hwf Hr Hch Hw).
Qed.

(** Dropping a child takes away the paths through it. *)
Lemma drop_kid_view h n pre m k : good h n → walk h n pre = Some m →
  good (set_kids (delete k) m h) n ∧
  ∀ q, view (set_kids (delete k) m h) n q = if decide ((pre ++ [k]) `prefix_of` q) then None else view h n q.
Proof.
  intros Hg Hw. destruct (good_walk h n pre m Hg Hw) as [x Hx].
  destruct (good_alter h n m x (λ x, Node (parent x) (delete k (kids x)) (data x)) Hg Hx) as [Hg' Hch];
    [done|apply delete_subseteq|apply (g_plain _ _ Hg _ _ Hx)|].
  fold (set_kids (delete k) m h) in Hg', Hch. split; [done|]. intros q. destruct Hg as [Hwf Hpl Hr]. case_decide as Hq.
  - destruct Hq as [t ->]. unfold view. rewrite <-app_assoc. cbn [app]. rewrite walk_app.
    rewrite (walk_changed h _ n m x _ pre pre Hwf Hr Hch Hw), Hw.
    + cbn. unfold step. rewrite (ch_new _ _ _ _ _ Hch). cbn. by rewrite lookup_delete_eq.
    + intros k' t' Ht. exfalso. apply (f_equal length) in Ht. rewrite length_app in Ht. cbn in Ht. lia.
  - erewrite (view_changed h _ n m x _ pre q Hwf Hr Hch Hw).
    + case_decide; subst; [|done]. cbn. unfold view. rewrite Hw. cbn. by rewrite Hx.
    + intros k' t ->. cbn. rewrite lookup_delete_ne; [done|]. intros ->. apply Hq. exists t. by rewrite <-app_assoc.
Qed.

(** Adding a new child without value. *)
Lemma add_leaf h n pre m k : good h n → walk h n pre = Some m → step h m k = None →
  let h' := set_kids (insert k (next_id h)) m (alloc (Some m) h).1 in
  good h' n ∧ walk h' n (pre ++ [k]) = Some (next_id h) ∧ (∀ k', step h' (next_id h) k' = None) ∧
  ∀ q, view h' n q = if decide (q = pre ++ [k]) then Some VNone else view h n q.
Proof.
  intros [Hwf Hpl Hr] Hw Hs h'. set (c := next_id h) in *.
  destruct (good_walk h n pre m) as [x Hx]; [done|done|].
  assert (kids x !! k = None) as Hk by (unfold step in Hs; by rewrite Hx in Hs).
  assert (m < c) as Hmc by (by eapply (wf_next _ Hwf)).
  assert (nodes h !! c = None) as Hc.
  { destruct (nodes h !! c) eqn:E; [|done]. pose proof (wf_next _ Hwf _ _ E). unfold c in *. lia. }
  assert (∀ i, nodes h' !! i = if decide (i = m) then Some (Node (parent x) (<[k:=c]> (kids x)) (data x))
    else if decide (i = c) then Some (Node (Some m) ∅ VNone) else nodes h !! i) as Hn.
  { intros i. unfold h', set_kids. rewrite alter_lookup. cbn. fold c. repeat case_decide; subst.
    - rewrite lookup_insert_ne, Hx by lia. done.
    - by rewrite lookup_insert_eq.
    - by rewrite lookup_insert_ne. }
  assert (changed h h' m x (Node (parent x) (<[k:=c]> (kids x)) (data x))) as Hch.
  { split; [done|by rewrite Hn, decide_True|]. intros i Hi [y Hy]. rewrite Hn, decide_False by done.
    rewrite decide_False; [done|]. intros ->. congruence. }
  assert (∀ i y k' c', nodes h !! i = Some y → kids y !! k' = Some c' → c' ≠ c) as Hfresh.
  { intros i y k' c' Hy Hk' ->. destruct (wf_kid _ Hwf _ _ _ _ Hy Hk') as (z & Hz & _). congruence. }
  assert (good h' n) as Hg.
  { split; [split| |].
    - intros i y k' c'. rewrite Hn. repeat case_decide; subst.
      + intros [= <-]. cbn. rewrite lookup_insert_Some. intros [[<- <-]|[Hne Hk']].
        * exists (Node (Some m) ∅ VNone). by rewrite Hn, decide_False, decide_True by (done || lia).
        * destruct (wf_kid _ Hwf _ _ _ _ Hx Hk') as (z & Hz & Hp). pose proof (Hfresh _ _ _ _ Hx Hk').
          rewrite Hn. repeat case_decide; subst; [|done|eauto]. rewrite Hx in Hz. injection Hz as <-. eauto.
      + intros [= <-]. cbn. by rewrite lookup_empty.
      + intros Hy Hk'. destruct (wf_kid _ Hwf _ _ _ _ Hy Hk') as (z & Hz & Hp). pose proof (Hfresh _ _ _ _ Hy Hk').
        rewrite Hn. repeat case_decide; subst; [|done|eauto]. rewrite Hx in Hz. injection Hz as <-. eauto.
    - intros i y k1 k2 c'. rewrite Hn. repeat case_decide; subst.
      + intros [= <-]. cbn. rewrite !lookup_insert_Some. intros [[<- <-]|[Hne1 Hk1]] [[<- Hc']|[Hne2 Hk2]]; try done.
        * by destruct (Hfresh _ _ _ _ Hx Hk2).
        * subst. by destruct (Hfresh _ _ _ _ Hx Hk1).
        * by eapply (wf_name _ Hwf).
      + intros [= <-]. cbn. by rewrite lookup_empty.
      + by apply (wf_name _ Hwf).
    - intros i y. rewrite Hn. unfold h'. cbn. fold c. repeat case_decide; subst; [intros _; lia|intros _; lia|].
      intros Hy. pose proof (wf_next _ Hwf _ _ Hy). fold c in H1. lia.
    - intros i y. rewrite Hn. repeat case_decide; subst; [|by intros [= <-]|apply Hpl].
      intros [= <-]. cbn. by eapply Hpl.
    - destruct Hr as (r & Hr & Hrp). unfold is_root. rewrite Hn. repeat case_decide; subst; [|congruence|eauto].
      eexists. split; [done|]. cbn. congruence. }
  assert (walk h' n pre = Some m) as Hpre.
  { rewrite (walk_changed h h' n m x _ pre pre Hwf Hr Hch Hw); [done|].
    intros k' t' Ht. exfalso. apply (f_equal length) in Ht. rewrite length_app in Ht. cbn in Ht. lia. }
  assert (step h' m k = Some c) as Hstep.
  { unfold step. rewrite Hn, decide_True by done. cbn. by rewrite lookup_insert_eq. }
  assert (∀ k', step h' c k' = None) as Hnew.
  { intros k'. unfold step. rewrite Hn, decide_False, decide_True by (done || lia). cbn. by rewrite lookup_empty. }
  split_and!; [done|by rewrite walk_snoc, Hpre|done|].
  intros q. destruct (decide ((pre ++ [k]) `prefix_of` q)) as [[t ->]|Hq].
  - unfold view. rewrite !(walk_app _ (pre ++ [k])), !walk_snoc, Hpre, Hw. cbn. rewrite Hstep, Hs. cbn.
    destruct t as [|k' t].
    + rewrite app_nil_r, decide_True by done. cbn. by rewrite Hn, decide_False, decide_True by (done || lia).
    + cbn. rewrite Hnew. cbn. rewrite decide_False; [done|]. intros E. apply (f_equal length) in E.
      rewrite !length_app in E. cbn in E. lia.
  - rewrite decide_False by (intros ->; by apply Hq).
    erewrite (view_changed h h' n m x _ pre q Hwf Hr Hch Hw).
    + case_decide; subst; [|done]. cbn. unfold view. rewrite Hw. cbn. by rewrite Hx.
    + intros k' t ->. cbn. rewrite lookup_insert_ne; [done|]. intros ->. apply Hq. exists t. by rewrite <-app_assoc.
Qed.

Lemma view_Some h n p m : good h n → walk h n p = Some m → ∃ x, nodes h !! m = Some x ∧ view h n p = Some (data x).
Proof. intros Hg Hw. destruct (good_walk h n p m Hg Hw) as [x Hx]. exists x. unfold view. by rewrite Hw; cbn; rewrite Hx. Qed.

Lemma view_walk h n p : good h n → view h n p = None ↔ walk h n p = None.
Proof.
  intros Hg. destruct (walk h n p) as [m|] eqn:E; [|unfold view; by rewrite E].
  destruct (view_Some h n p m Hg E) as (x & _ & ->). done.
Qed.

Lemma view_prefix h n p q m : good h n → walk h n p = Some m → q `prefix_of` p → is_Some (view h n q).
Proof.
  intros Hg Hw [t ->]. rewrite walk_app in Hw. destruct (walk h n q) as [i|] eqn:E; [|done].
  destruct (view_Some h n q i Hg E) as (x & _ & ->). by eexists.
Qed.

(** *** Operations on maps *)

(** A path and everything above it exists; other values stay. *)
Definition tree_make (T : tree) (p : list bytes) : tree :=
  λ q, if decide (q `prefix_of` p) then Some (default VNone (T q)) else T q.
Definition tree_put (d : value) (T : tree) (p : list bytes) : tree :=
  λ q, if decide (q = p) then Some d else T q.
Definition tree_drop (T : tree) (p : list bytes) : tree :=
  λ q, if decide (p `prefix_of` q) then None else T q.

Lemma create_spec rest : ∀ h n pre m, good h n → walk h n pre = Some m →
  (∀ k r, rest = k :: r → step h m k = None) →
  ∃ h' c, create_loop h m rest = Some (h', c) ∧ good h' n ∧ walk h' n (pre ++ rest) = Some c ∧
    ∀ q, view h' n q = tree_make (view h n) (pre ++ rest) q.
Proof.
  induction rest as [|k rest IH]; intros h n pre m Hg Hw Hrest.
  - exists h, m. rewrite app_nil_r. split_and!; [done|done|done|]. intros q. unfold tree_make. case_decide as Hq; [|done].
    destruct (view_prefix h n pre q m Hg Hw Hq) as [d Hd]. by rewrite Hd.
  - pose proof (Hrest k rest eq_refl) as Hs. destruct (good_walk h n pre m Hg Hw) as [x Hx].
    destruct (add_leaf h n pre m k Hg Hw Hs) as (Hg1 & Hw1 & Hs1 & Hv1).
    cbn [create_loop]. rewrite Hx. cbn [mbind option_bind].
    assert (kids x !! k = None) as -> by (unfold step in Hs; by rewrite Hx in Hs). cbn [alloc].
    destruct (IH _ n _ _ Hg1 Hw1) as (h' & c & Hc & Hg' & Hw' & Hv'); [by intros; apply Hs1|].
    rewrite <-app_assoc in Hw', Hv'. exists h', c. split_and!; [done|done|done|].
    intros q. rewrite Hv'. unfold tree_make. cbn [app]. rewrite Hv1. case_decide as Hq.
    + case_decide as E; [|done]. subst. cbn. f_equal.
      assert (view h n (pre ++ [k]) = None) as -> by (apply view_walk; [done|]; by rewrite walk_snoc, Hw). done.
    + case_decide as E; [|done]. subst. destruct Hq. exists rest. by rewrite <-app_assoc.
Qed.

Lemma find_create_spec f h n p : good h n → (length p < f)%nat →
  ∃ h' c, find_create f h n p true = Some (h', Some c) ∧ good h' n ∧ walk h' n p = Some c ∧
    ∀ q, view h' n q = tree_make (view h n) p q.
Proof.
  intros Hg Hf. pose proof Hg as [Hwf Hpl Hr].
  destruct (lookup_plain h p Hwf Hpl f n) as (pre & rest & m & -> & Hw & Hl & Hrest); [by apply is_root_exists|done|].
  unfold find_create. rewrite Hl. cbn [mbind option_bind].
  destruct (create_spec rest h n pre m Hg Hw Hrest) as (h' & c & Hc & Hg' & Hw' & Hv').
  destruct rest as [|k r].
  - cbn in Hc. injection Hc as <- <-. eauto 8.
  - rewrite Hc. cbn. eauto 8.
Qed.

Lemma find_create_no f h n p : good h n → (length p < f)%nat →
  find_create f h n p false = Some (h, walk h n p).
Proof.
  intros [Hwf Hpl Hr] Hf.
  destruct (lookup_plain h p Hwf Hpl f n) as (pre & rest & m & -> & Hw & Hl & Hrest); [by apply is_root_exists|done|].
  unfold find_create. rewrite Hl. cbn [mbind option_bind]. destruct rest as [|k r]; [by rewrite app_nil_r, Hw|].
  by rewrite (walk_stuck h n pre k r m Hw) by (by eapply Hrest).
Qed.

(** *** The interface against maps *)

Inductive op :=
| OSet (p : bytes) (v : bytes)
| OSetCallback (p : bytes) (cb : Z)
| OUnset (p : bytes)
| OUnlink (p : bytes)
| ORemove (p : bytes).

Definition op_path (o : op) : bytes :=
  match o with OSet p _ | OSetCallback p _ | OUnset p | OUnlink p | ORemove p => p end.

Definition apply_op (f : nat) (n : Z) (h : heap) (o : op) : option (heap * rc) :=
  match o with
  | OSet p v => tll_config_set f h n (Some p) v
  | OSetCallback p cb => tll_config_set_callback f h n (Some p) cb
  | OUnset p => tll_config_unset f h n (Some p)
  | OUnlink p => tll_config_unlink f h n p
  | ORemove p => tll_config_remove f h n p
  end.

Definition has_child (T : tree) (p : list bytes) : Prop := ∃ k, is_Some (T (p ++ [k])).

(** What each operation means for the map: the result and the new map. *)
Definition op_spec (T : tree) (o : op) (T' : tree) (r : rc) : Prop :=
  let p := split_path (op_path o) in
  match o with
  | OSet _ v => r = ok ∧ ∀ q, T' q = tree_put (VStr v) (tree_make T p) p q
  | OSetCallback _ cb => r = ok ∧ ∀ q, T' q = tree_put (VCb cb) (tree_make T p) p q
  | OUnset _ =>
      if T p is Some _ then r = ok ∧ ∀ q, T' q = tree_put VNone T p q
      else r = Err ENOENT ∧ ∀ q, T' q = T q
  | OUnlink _ =>
      if T p is Some _ then r = ok ∧ ∀ q, T' q = tree_drop T p q
      else r = Err ENOENT ∧ ∀ q, T' q = T q
  | ORemove _ =>
      if T p is Some _ then r = ok ∧
        (has_child T p ∧ (∀ q, T' q = tree_put VNone T p q) ∨ ¬ has_child T p ∧ ∀ q, T' q = tree_drop T p q)
      else r = Err ENOENT ∧ ∀ q, T' q = T q
  end.

Lemma put_spec f h n p d : good h n → (length p < f)%nat → holds_link d = false →
  ∃ h' c, find_create f h n p true = Some (h', Some c) ∧ good (set_data d c h') n ∧
    ∀ q, view (set_data d c h') n q = tree_put d (tree_make (view h n) p) p q.
Proof.
  intros Hg Hf Hd. destruct (find_create_spec f h n p Hg Hf) as (h' & c & -> & Hg' & Hw & Hv).
  destruct (set_data_view h' n p c d Hg' Hw Hd) as [Hg2 Hv2]. exists h', c. split_and!; [done|done|].
  intros q. rewrite Hv2. unfold tree_put. by rewrite Hv.
Qed.

Lemma split_path_last s : ∃ front k, split_path s = front ++ [k].
Proof.
  unfold split_path. rewrite Str.split_spec. pose proof (Str.fields_not_nil (Str.eqc 46) s).
  destruct (exists_last H) as (l & k & E). eauto.
Qed.

Lemma lookup_front_spec f h n front k : good h n → (length (front ++ [k]) < f)%nat →
  lookup_front f h n (front ++ [k]) = Some (walk h n front).
Proof.
  intros [Hwf Hpl Hr] Hf. unfold lookup_front. rewrite removelast_last. destruct front as [|a front]; [done|].
  apply find_plain; [done|done|by apply is_root_exists|]. rewrite length_app in Hf. cbn in *. lia.
Qed.

Lemma view_front h n front k : good h n →
  view h n (front ++ [k]) = match walk h n front with
    | None => None
    | Some m => match step h m k with None => None | Some c => data <$> nodes h !! c end
    end.
Proof. intros Hg. unfold view. rewrite walk_snoc. destruct (walk h n front); [cbn|done]. by destruct (step h z k). Qed.

Lemma has_child_kids h n p m x : good h n → walk h n p = Some m → nodes h !! m = Some x →
  has_child (view h n) p ↔ kids x ≠ ∅.
Proof.
  intros Hg Hw Hx. split.
  - intros [k Hk] He. rewrite view_front, Hw in Hk by done. unfold step in Hk. rewrite Hx in Hk. cbn in Hk.
    rewrite He, lookup_empty in Hk. by destruct Hk.
  - intros Hne. apply map_choose in Hne as (k & c & Hk). exists k. rewrite view_front, Hw by done.
    unfold step. rewrite Hx. cbn. rewrite Hk. destruct (wf_kid _ (g_wf _ _ Hg) _ _ _ _ Hx Hk) as (y & -> & _). by eexists.
Qed.

Lemma apply_op_spec f n h o : good h n → (length (split_path (op_path o)) < f)%nat →
  ∃ h' r, apply_op f n h o = Some (h', r) ∧ good h' n ∧ op_spec (view h n) o (view h' n) r.
Proof.
  intros Hg Hf. destruct o as [p v|p cb|p|p|p]; cbn [apply_op op_path] in *.
  - unfold tll_config_set. destruct (put_spec f h n _ (VStr v) Hg Hf eq_refl) as (h' & c & -> & Hg' & Hv).
    cbn [mbind option_bind]. eexists _, _. split_and!; [done|done|]. by split.
  - unfold tll_config_set_callback. destruct (put_spec f h n _ (VCb cb) Hg Hf eq_refl) as (h' & c & -> & Hg' & Hv).
    cbn [mbind option_bind]. eexists _, _. split_and!; [done|done|]. by split.
  - unfold tll_config_unset. rewrite find_create_no by done. cbn [mbind option_bind].
    unfold op_spec; cbn [op_path]. destruct (walk h n (split_path p)) as [m|] eqn:Ew.
    + destruct (set_data_view h n _ m VNone Hg Ew eq_refl) as [Hg' Hv].
      destruct (view_Some h n _ m Hg Ew) as (x & _ & ->). eexists _, _. split_and!; [done|done|done|]. done.
    + rewrite (proj2 (view_walk h n (split_path p) Hg) Ew). eexists _, _. split_and!; done.
  - unfold tll_config_unlink, op_spec; cbn [op_path]. destruct (split_path_last p) as (front & k & E).
    rewrite E in Hf |- *. rewrite lookup_front_spec by done. cbn [mbind option_bind]. rewrite view_front by done.
    destruct (walk h n front) as [m|] eqn:Ew; [|by eexists _, _].
    rewrite last_snoc. cbn [mbind option_bind]. destruct (good_walk h n front m Hg Ew) as [x Hx]. unfold step. rewrite Hx. cbn.
    destruct (kids x !! k) as [c|] eqn:Ek; [|by eexists _, _].
    destruct (wf_kid _ (g_wf _ _ Hg) _ _ _ _ Hx Ek) as (y & -> & _). cbn.
    destruct (drop_kid_view h n front m k Hg Ew) as [Hg' Hv]. eexists _, _. by split_and!.
  - unfold tll_config_remove, op_spec; cbn [op_path]. destruct (split_path_last p) as (front & k & E).
    rewrite E in Hf |- *. rewrite lookup_front_spec by done. cbn [mbind option_bind]. rewrite view_front by done.
    destruct (walk h n front) as [m|] eqn:Ew; [|by eexists _, _].
    rewrite last_snoc. cbn [mbind option_bind]. destruct (good_walk h n front m Hg Ew) as [x Hx].
    destruct (step h m k) as [c|] eqn:Es; rewrite Hx; cbn [mbind option_bind].
    2: { unfold step in Es. rewrite Hx in Es. cbn in Es. rewrite Es. by eexists _, _. }
    assert (walk h n (front ++ [k]) = Some c) as Ewc by (by rewrite walk_snoc, Ew).
    assert (kids x !! k = Some c) as -> by (unfold step in Es; by rewrite Hx in Es).
    destruct (good_walk h n _ c Hg Ewc) as [y Hy]. rewrite Hy. cbn [fmap option_fmap option_map].
    destruct f as [|f]; [lia|]. rewrite lookup_link_plain by (apply Hg || by eexists). cbn [mbind option_bind]. rewrite Hy.
    cbn [mbind option_bind]. pose proof (has_child_kids h n _ c y Hg Ewc Hy) as Hch.
    destruct (bool_decide_reflect (kids y = ∅)) as [He|He].
    + destruct (drop_kid_view h n front m k Hg Ew) as [Hg' Hv]. eexists _, _. split_and!; [done|done|done|].
      right. split; [|done]. intros Hc. by apply Hch in Hc.
    + destruct (set_data_view h n _ c VNone Hg Ewc eq_refl) as [Hg' Hv]. eexists _, _. split_and!; [done|done|done|].
      left. split; [by apply Hch|done].
Qed.

(** Runs of operations, on the heap and on the map. *)
Fixpoint run (f : nat) (n : Z) (h : heap) (os : list op) : option (heap * list rc) :=
  match os with
  | [] => Some (h, [])
  | o :: os =>
      let! a := apply_op f n h o in
      let! b := run f n a.1 os in
      Some (b.1, a.2 :: b.2)
  end.

Inductive run_spec : tree → list op → tree → list rc → Prop :=
| run_nil T T' : (∀ q, T' q = T q) → run_spec T [] T' []
| run_cons T o T1 r os T2 rs : op_spec T o T1 r → run_spec T1 os T2 rs → run_spec T (o :: os) T2 (r :: rs).

(** The text of a value. *)
Definition text (call : Z → option bytes) (v : option value) : option bytes :=
  match v with
  | Some (VStr s) => Some s
  | Some (VCb cb) => call cb
  | _ => None
  end.

Lemma get_plain call f h n : plain h → is_Some (nodes h !! n) → (0 < f)%nat →
  get call f h n = Some (text call (data <$> nodes h !! n)).
Proof.
  intros Hp [x Hx] Hf. destruct f as [|f]; [lia|]. cbn. rewrite Hx. cbn.
  specialize (Hp _ _ Hx). by destruct (data x).
Qed.

Lemma get_copy_spec call f h n s : good h n → (length (split_path s) < f)%nat →
  tll_config_get_copy call f h n (Some s) = Some (text call (view h n (split_path s))).
Proof.
  intros Hg Hf. cbn. unfold get_key. rewrite find_plain by (apply Hg || by apply is_root_exists, Hg || done).
  cbn [mbind option_bind]. unfold view. destruct (walk h n (split_path s)) as [m|] eqn:E; [|done].
  cbn [mbind option_bind]. apply get_plain; [apply Hg|by eapply good_walk|lia].
Qed.

Definition empty_heap : heap := Heap ∅ 1.

(** The map of a new configuration: a root without value. *)
Definition empty_tree : tree := λ q, if decide (q = []) then Some VNone else None.

Lemma good_new : good (tll_config_new empty_heap).1 1 ∧ ∀ q, view (tll_config_new empty_heap).1 1 q = empty_tree q.
Proof.
  assert (∀ i x, nodes (tll_config_new empty_heap).1 !! i = Some x → i = 1 ∧ x = Node None ∅ VNone) as H.
  { intros i x. cbn. rewrite lookup_insert_Some, lookup_empty. naive_solver. }
  split; [split; [split| |]|].
  - intros i x k c (-> & ->)%H. cbn. by rewrite lookup_empty.
  - intros i x k k' c (-> & ->)%H. cbn. by rewrite lookup_empty.
  - intros i x (-> & ->)%H. cbn. lia.
  - by intros i x (-> & ->)%H.
  - exists (Node None ∅ VNone). split; [|done]. cbn. by rewrite lookup_insert_eq.
  - intros [|k q]; [done|]. unfold view. cbn. unfold step. cbn. done.
Qed.

Lemma run_refines f n os : ∀ h, good h n → Forall (λ o, (length (split_path (op_path o)) < f)%nat) os →
  ∃ h' rs, run f n h os = Some (h', rs) ∧ good h' n ∧ run_spec (view h n) os (view h' n) rs.
Proof.
  induction os as [|o os IH]; intros h Hg Hf; [exists h, []; split_and!; [done|done|by constructor]|].
  apply Forall_cons in Hf as [Ho Hf]. destruct (apply_op_spec f n h o Hg Ho) as (h1 & r & E1 & Hg1 & Hs1).
  destruct (IH h1 Hg1 Hf) as (h2 & rs & E2 & Hg2 & Hs2).
  exists h2, (r :: rs). cbn. rewrite E1. cbn. rewrite E2. split_and!; [done|done|by econstructor].
Qed.

(** C2: a configuration is a map from paths to values: any series of set,
    unset, unlink and remove calls on a new configuration returns, with the
    results and the changes of the map that each call is meant to make
    (missing nodes above a new value appear without value, unlink takes the
    subtree away, remove keeps a node that has children), and reading a path
    afterwards gives the value the map has there.  The recursion needed is
    one more than the number of components of the longest path. *)
Theorem config_refines_map (call : Z → option bytes) (f : nat) (os : list op)
  (Hf : Forall (λ o, (length (split_path (op_path o)) < f)%nat) os) :
  let '(h, n) := tll_config_new empty_heap in
  ∃ h' rs, run f n h os = Some (h', rs) ∧ run_spec (view h n) os (view h' n) rs ∧
    (∀ q, view h n q = empty_tree q) ∧
    ∀ s, (length (split_path s) < f)%nat →
      tll_config_get_copy call f h' n (Some s) = Some (text call (view h' n (split_path s))).
Proof.
  destruct good_new as [Hg Hv]. change (tll_config_new empty_heap) with ((tll_config_new empty_heap).1, 1).
  destruct (run_refines f 1 os _ Hg Hf) as (h' & rs & E & Hg' & Hs).
  exists h', rs. split_and!; [done|done|done|]. intros s Hlen. by apply get_copy_spec.
Qed.

Lemma config_refines_map_witness :
  let os := [OSet (str "a.b") (str "1"); OSet (str "a") (str "x"); OUnlink (str "a.b"); ORemove (str "z")] in
  let '(h, n) := tll_config_new empty_heap in
  ∃ h' rs, run 5 n h os = Some (h', rs) ∧ run_spec (view h n) os (view h' n) rs ∧
    (∀ q, view h n q = empty_tree q) ∧
    ∀ s, (length (split_path s) < 5)%nat →
      tll_config_get_copy (λ _, None) 5 h' n (Some s) = Some (text (λ _, None) (view h' n (split_path s))).
Proof.
  apply (config_refines_map (λ _, None) 5 [OSet (str "a.b") (str "1"); OSet (str "a") (str "x"); OUnlink (str "a.b"); ORemove (str "z")]).
  repeat constructor.
Defined.
(** ** Links *)

(** Names that stand for themselves in paths with dots and with slashes. *)
Definition simple (k : bytes) : Prop := k ≠ [] ∧ (46 ∉ k) ∧ (47 ∉ k).

Lemma simple_not k : simple k → k ≠ [] ∧ k ≠ dot ∧ k ≠ dotdot.
Proof.
  intros (H1 & H2 & H3). split_and!; [done| |]; intros ->; apply H2; apply (bool_decide_unpack _); vm_compute; exact I.
Qed.

Lemma split_join p : p ≠ [] → Forall simple p → split_path (Str.join 46 p) = p.
Proof.
  intros Hn Hp. unfold split_path. rewrite Str.split_spec. apply Str.fields_join; [done|].
  eapply Forall_impl; [exact Hp|]. by intros k (_ & ? & _).
Qed.

Lemma filter_simple t : Forall simple t → filter (λ c, c ≠ []) t = t.
Proof. induction 1 as [|k t (Hk & _) Ht IH]; [done|]. rewrite filter_cons_True by done. by rewrite IH. Qed.

Lemma last_simple t : Forall simple t → last t ≠ Some [].
Proof. intros Ht Hl. apply last_Some_elem_of in Hl. rewrite Forall_forall in Ht. by destruct (Ht _ Hl). Qed.

Lemma path_of_absolute t : t ≠ [] → Forall simple t → path_of (47 :: Str.join 47 t) = Path true t.
Proof.
  intros Hn Ht. unfold path_of. rewrite Str.split_spec. cbn [Str.fields]. change (Str.eqc 47 47) with true. cbn iota.
  rewrite Str.fields_join; [|done|eapply Forall_impl; [exact Ht|by intros k (_ & _ & ?)]].
  rewrite filter_cons_False by (intros H; by apply H). rewrite filter_simple by done.
  rewrite bool_decide_false; [by rewrite app_nil_r|]. intros [_ Hl]. destruct t as [|k t]; [done|].
  by apply (last_simple (k :: t)).
Qed.

Lemma path_of_simple k : simple k → path_of k = Path false [k].
Proof.
  intros (H1 & H2 & H3). unfold path_of. rewrite Str.split_spec, Str.fields_plain by done.
  rewrite filter_cons_True by done. destruct k as [|c k]; [done|]. rewrite bool_decide_false by (by intros [_ [=]]).
  destruct (Z.eqb_spec c 47) as [->|]; [|done]. by destruct H3; left.
Qed.

Lemma normal_simple t : Forall simple t → lexically_normal (Path true t) = Path true t.
Proof.
  intros Ht. unfold lexically_normal. cbn [path_empty p_abs p_comps negb andb].
  assert (∀ st, foldl (normal_step true) st t = rev t ++ st) as ->.
  { induction Ht as [|k t Hk Ht IH]; intros st; [done|]. cbn [foldl rev].
    rewrite IH, <-app_assoc. unfold normal_step. destruct (simple_not k Hk) as (N1 & N2 & N3).
    by rewrite !bool_decide_false by done. }
  rewrite app_nil_r. destruct (rev t) as [|top st] eqn:E.
  - apply (f_equal (@rev _)) in E. rewrite rev_involutive in E. by subst.
  - rewrite <-E, rev_involutive. f_equal. unfold filename. cbn [p_comps].
    assert (last t = Some top) as ->. { rewrite <-(rev_involutive t), E. cbn. by rewrite last_snoc. }
    assert (simple top) as Htop.
    { rewrite Forall_forall in Ht. apply Ht. apply list_elem_of_In, in_rev. rewrite E. by left. }
    destruct (simple_not top Htop) as (N1 & N2 & N3). cbn [default]. rewrite !bool_decide_false by done.
    cbn. by rewrite app_nil_r.
Qed.

Lemma strip_common_spec t p : ∃ cm, t = cm ++ (strip_common t p).1 ∧ p = cm ++ (strip_common t p).2 ∧
  ((strip_common t p).1 = [] ∨ (strip_common t p).2 = [] ∨ head (strip_common t p).1 ≠ head (strip_common t p).2).
Proof.
  revert p. induction t as [|a t IH]; intros p; [exists []; by split_and!; [..|left]|].
  destruct p as [|b p]; [exists []; split_and!; [done|done|by right; left]|].
  cbn [strip_common]. destruct (bool_decide_reflect (a = b)) as [->|Hne].
  - destruct (IH p) as (cm & E1 & E2 & H). exists (b :: cm). cbn. by rewrite <-E1, <-E2.
  - exists []. split_and!; [done|done|]. right. right. cbn. congruence.
Qed.

(** Neither path is below the other. *)
Definition apart (t p : list bytes) : Prop := ¬ t `prefix_of` p ∧ ¬ p `prefix_of` t.

Lemma strip_apart t p : apart t p ↔ (strip_common t p).1 ≠ [] ∧ (strip_common t p).2 ≠ [].
Proof.
  destruct (strip_common_spec t p) as (cm & E1 & E2 & H). destruct (strip_common t p) as [r b]; cbn in *. split.
  - intros [H1 H2]. split; intros ->; rewrite app_nil_r in *; [apply H1|apply H2]; subst; by eexists.
  - intros [Hr Hb]. destruct H as [H|[H|H]]; [done|done|]. destruct r as [|x r]; [done|]. destruct b as [|y b]; [done|].
    subst. cbn in H. split; intros [z Hz]; rewrite <-app_assoc in Hz; apply app_inv_head in Hz; cbn in Hz; congruence.
Qed.

(** The machine knows no symbolic link on the way to a path. *)
Definition plain_on_host {host : Host} (t : list bytes) : Prop := weakly_canonical (Path true t) = Path true t.

Lemma plain_on_empty t : Forall simple t → @plain_on_host empty_host t.
Proof. apply normal_simple. Qed.

Lemma ups_simple l : Forall simple l → ∀ n, foldl ups n l = n + zlen l.
Proof.
  induction 1 as [|k l Hk Hl IH]; intros n; [unfold zlen; cbn; lia|]. cbn [foldl]. rewrite IH. unfold ups.
  destruct (simple_not k Hk) as (N1 & N2 & N3). rewrite !bool_decide_false by done. unfold zlen. cbn [orb length]. lia.
Qed.

Lemma relative_simple_spec {host : Host} t p : plain_on_host t → plain_on_host p → Forall simple t → Forall simple p →
  relative_simple (Path true t) (Path true p) =
    match strip_common t p with
    | ([], []) => Path false [dot]
    | (r, b) => Path false (replicate (length b) dotdot ++ r)
    end.
Proof.
  unfold plain_on_host, relative_simple. intros -> -> Ht Hp. unfold lexically_relative. cbn [p_abs p_comps negb Bool.eqb].
  destruct (strip_common_spec t p) as (cm & E1 & E2 & _). destruct (strip_common t p) as [r b]; cbn [fst snd] in *.
  rewrite E1 in Ht. rewrite E2 in Hp. apply Forall_app in Ht as [_ Hr], Hp as [_ Hb]. rewrite ups_simple by done.
  destruct b as [|y b].
  - destruct r as [|x r]; [done|]. apply Forall_cons in Hr as [(Hx & _) _]. cbn. destruct x; [done|]. done.
  - rewrite andb_comm, bool_decide_false by done. cbn [andb].
    pose proof (zlen_nonneg b). rewrite Z.add_0_l, zlen_cons.
    destruct (Z.ltb_spec (1 + zlen b) 0); [lia|]. destruct (Z.eqb_spec (1 + zlen b) 0); [lia|].
    cbn [andb]. replace (Z.to_nat (1 + zlen b)) with (length (y :: b)) by (unfold zlen; cbn; lia). by destruct r.
Qed.

(** The checks of [set_link] pass exactly for a target beside the link. *)
Lemma link_check {host : Host} t p : plain_on_host t → plain_on_host p → Forall simple t → Forall simple p →
  let rel := relative_simple (Path true t) (Path true p) in
  (path_empty rel || negb (bool_decide (head (p_comps rel) = Some dotdot)) ||
   (bool_decide (filename rel = dotdot) || bool_decide (filename rel = dot))) = false ↔ apart t p.
Proof.
  intros Hht Hhp Ht Hp rel. unfold rel. rewrite relative_simple_spec by done. rewrite strip_apart.
  destruct (strip_common_spec t p) as (cm & E1 & E2 & _). destruct (strip_common t p) as [r b]; cbn [fst snd] in *.
  assert (Forall simple r) as Hr by (rewrite E1 in Ht; by apply Forall_app in Ht as [_ ?]).
  destruct b as [|y b].
  - split; [|by intros [_ ?]]. destruct r as [|x r]; [done|]. apply Forall_cons in Hr as [Hx _].
    destruct (simple_not x Hx) as (_ & _ & Hn). unfold path_empty. cbn [length replicate app p_abs p_comps negb andb head].
    rewrite (bool_decide_false (Some x = Some dotdot)) by congruence. by rewrite orb_true_r.
  - destruct r as [|x r _] using rev_ind.
    + rewrite app_nil_r. split; [|by intros [? _]]. intros Hc. exfalso. unfold path_empty, filename in Hc. cbn [p_abs p_comps] in Hc.
      assert (last (replicate (length (y :: b)) dotdot) = Some dotdot) as E.
      { cbn [length]. rewrite replicate_S_end. by rewrite last_snoc. }
      rewrite E in Hc. cbn [default id] in Hc. rewrite (bool_decide_true (dotdot = dotdot)) in Hc by done. by rewrite orb_true_r in Hc.
    + split; [intros _; split; [by intros [_ [=]]%app_eq_nil|done]|]. intros _.
      destruct (r ++ [x]) as [|z l] eqn:E; [by destruct r|]. rewrite <-E in *.
      unfold path_empty, filename. cbn [p_abs p_comps negb andb]. rewrite app_assoc, last_snoc. cbn.
      apply Forall_app in Hr as [_ [Hx _]%Forall_cons]. destruct (simple_not x Hx) as (_ & N2 & N3).
      by rewrite (bool_decide_false (x = dotdot)), (bool_decide_false (x = dot)), bool_decide_true.
Qed.

(** The path of a node is the one it was reached by. *)
Lemma kid_name_sorted m k c : m !! k = Some c → (∀ k', m !! k' = Some c → k' = k) → kid_name c (sorted_kids m) = Some k.
Proof.
  intros Hk Hu. assert ((k, c) ∈ sorted_kids m) as Hin.
  { unfold sorted_kids. rewrite merge_sort_Permutation. by apply elem_of_map_to_list. }
  assert (∀ k', (k', c) ∈ sorted_kids m → k' = k) as Hall.
  { intros k'. unfold sorted_kids. rewrite merge_sort_Permutation. intros H%elem_of_map_to_list. by apply Hu. }
  induction (sorted_kids m) as [|[a v] l IH]; [by apply not_elem_of_nil in Hin|]. cbn.
  destruct (Z.eqb_spec v c) as [->|Hne]; [f_equal; apply Hall; by left|].
  apply IH; [|by intros k' ?; apply Hall; right]. apply elem_of_cons in Hin as [[=]|]; [by subst|done].
Qed.

Lemma node_path_spec h n p : good h n → Forall simple p → ∀ f m, walk h n p = Some m → (length p < f)%nat →
  node_path f h m = Some (Some (Path true p)).
Proof.
  intros Hg. induction p as [|k p IH] using rev_ind; intros Hp f m Hw Hf.
  - cbn in Hw. injection Hw as <-. destruct f as [|f]; [lia|]. destruct (g_root _ _ Hg) as (x & Hx & Hpar).
    cbn. by rewrite Hx; cbn; rewrite Hpar.
  - rewrite length_app in Hf. cbn in Hf. apply Forall_app in Hp as [Hp [Hk _]%Forall_cons].
    rewrite walk_snoc in Hw. destruct (walk h n p) as [i|] eqn:Ei; [|done]. cbn in Hw.
    apply step_Some in Hw as (x & Hx & Hkid). destruct (wf_kid _ (g_wf _ _ Hg) _ _ _ _ Hx Hkid) as (y & Hy & Hpar).
    destruct f as [|f]; [lia|]. cbn [node_path]. rewrite Hy. cbn [mbind option_bind]. rewrite Hpar.
    rewrite (IH Hp f i) by (done || lia). cbn [mbind option_bind]. rewrite Hx. cbn [mbind option_bind].
    rewrite (kid_name_sorted _ k) by (done || (intros k' Hk'; exact (wf_name _ (g_wf _ _ Hg) _ _ _ _ _ Hx Hk' Hkid))).
    cbn. do 2 f_equal. rewrite path_of_simple by done. unfold path_append. cbn [p_abs p_comps path_empty].
    assert (k ≠ []) by (by destruct Hk). rewrite !bool_decide_false by congruence. cbn. unfold drop_empty.
    by rewrite bool_decide_false by (by apply last_simple).
Qed.

(** Walking a path whose nodes, but for the last, are not links. *)
Inductive route (h : heap) : Z → list bytes → Z → Prop :=
| route_nil n : route h n [] n
| route_cons n x k c p m : nodes h !! n = Some x → holds_link (data x) = false → kids x !! k = Some c →
    route h c p m → route h n (k :: p) m.

Lemma link_self f h n x : nodes h !! n = Some x → holds_link (data x) = false → _lookup_link (S f) h n = Some (Some n).
Proof. intros Hx Hd. cbn. rewrite Hx. cbn. by destruct (data x). Qed.

Lemma lookup_route h n p m : route h n p m → ∀ f q, (0 < f)%nat → _lookup (length p + f) h n (p ++ q) = _lookup f h m q.
Proof.
  induction 1 as [|n x k c p m Hx Hd Hk Hr IH]; intros f q Hf; [done|]. cbn [length app Nat.add].
  cbn [_lookup]. destruct (length p + f)%nat as [|g] eqn:E; [lia|]. rewrite (link_self g h n x) by done.
  cbn [mbind option_bind]. rewrite Hx. cbn [mbind option_bind]. rewrite Hk. rewrite <-E. by apply IH.
Qed.

Lemma walk_root h n p m : good h n → walk h n p = Some m → ∀ h' f,
  (∀ i, parent <$> nodes h' !! i = parent <$> nodes h !! i) → (length p < f)%nat → root f h' m = Some n.
Proof.
  intros Hg. revert m. induction p as [|k p IH] using rev_ind; intros m Hw h' f Hpar Hf.
  - cbn in Hw. injection Hw as <-. destruct f as [|f]; [lia|]. destruct (g_root _ _ Hg) as (x & Hx & Hp).
    specialize (Hpar n). rewrite Hx in Hpar. cbn in *. destruct (nodes h' !! n) as [y|]; [|done]. cbn in *.
    injection Hpar as ->. by rewrite Hp.
  - rewrite length_app in Hf. cbn in Hf. rewrite walk_snoc in Hw. destruct (walk h n p) as [i|] eqn:Ei; [|done].
    cbn in Hw. apply step_Some in Hw as (x & Hx & Hkid).
    destruct (wf_kid _ (g_wf _ _ Hg) _ _ _ _ Hx Hkid) as (y & Hy & Hp).
    destruct f as [|f]; [lia|]. pose proof (Hpar m) as Hm. rewrite Hy in Hm. cbn in *.
    destruct (nodes h' !! m) as [z|]; [|done]. cbn in *. injection Hm as ->. rewrite Hp. apply IH; [done|done|lia].
Qed.
(** One node of a tree has become a link. *)
Section linked.
Context (h h' : heap) (n c : Z) (d : value).
Context (Hg : good h n) (Hh' : h' = set_data d c h).

Lemma linked_nodes i : nodes h' !! i = if decide (i = c) then (λ x, Node (parent x) (kids x) d) <$> nodes h !! c else nodes h !! i.
Proof. rewrite Hh'. unfold set_data. apply alter_lookup. Qed.

Lemma route_walk p : ∀ a b, walk h a p = Some b → (∀ pr k r, p = pr ++ k :: r → walk h a pr ≠ Some c) → route h' a p b.
Proof.
  induction p as [|k p IH]; intros a b Hw Hc; cbn in Hw; [injection Hw as <-; constructor|].
  destruct (step h a k) as [e|] eqn:Es; [|done]. cbn in Hw. apply step_Some in Es as Hs. destruct Hs as (x & Hx & Hk).
  assert (a ≠ c) as Hac by (intros ->; by apply (Hc [] k p)).
  apply (route_cons h' a x k e p b); [by rewrite linked_nodes, decide_False|by eapply (g_plain _ _ Hg)|done|].
  apply IH; [done|]. intros pr k' r -> Hpr. apply (Hc (k :: pr) k' r); [done|]. cbn. by rewrite Es.
Qed.

Lemma lookup_avoid q : ∀ f a, is_Some (nodes h !! a) → (∀ pr r, q = pr ++ r → walk h a pr ≠ Some c) →
  _lookup f h' a q = _lookup f h a q.
Proof.
  induction q as [|k q IH]; intros f a Ha Hc; [by destruct f|]. destruct f as [|f]; [done|].
  assert (a ≠ c) as Hac by (intros ->; by apply (Hc [] (k :: q))).
  destruct Ha as [x Hx]. assert (nodes h' !! a = Some x) as Hx' by (by rewrite linked_nodes, decide_False).
  cbn [_lookup]. destruct f as [|f]; [done|].
  rewrite (link_self f h' a x), (link_self f h a x) by (done || by eapply (g_plain _ _ Hg)).
  cbn [mbind option_bind]. rewrite Hx, Hx'. cbn [mbind option_bind].
  destruct (kids x !! k) as [e|] eqn:Ek; [|done]. apply IH.
  - destruct (wf_kid _ (g_wf _ _ Hg) _ _ _ _ Hx Ek) as (y & Hy & _). by eexists.
  - intros pr r -> Hpr. apply (Hc (k :: pr) r); [done|]. cbn. unfold step. rewrite Hx. cbn. by rewrite Ek.
Qed.
End linked.

Lemma lookup_enough h n p m : route h n p m → ∀ f, (length p < f)%nat → _lookup f h n p = Some (Some m, []).
Proof.
  intros Hr f Hf. rewrite <-(app_nil_r p). replace f with (length p + (f - length p))%nat by lia.
  rewrite (lookup_route h n p m Hr) by lia. by destruct (f - length p)%nat eqn:E; [lia|].
Qed.

(** Reading through an absolute link. *)
Lemma read_link call h n p c t m q f : good h n → walk h n p = Some c → walk h n t = Some m → apart t p → t ≠ [] →
  (2 * length p + length t + length q + 6 ≤ f)%nat →
  let h' := set_data (VLink (Path true t)) c h in
  (let! r := find f h' n (p ++ q) in match r with None => Some None | Some x => get call f h' x end) =
  Some (text call (view h n (t ++ q))).
Proof.
  intros Hg Hp Ht [Hap1 Hap2] Hne Hf h'. pose proof (g_wf _ _ Hg) as Hwf. pose proof (g_root _ _ Hg) as Hroot.
  assert (∀ i, nodes h' !! i = if decide (i = c) then (λ x, Node (parent x) (kids x) (VLink (Path true t))) <$> nodes h !! c else nodes h !! i) as Hn
    by (intros i; by apply linked_nodes).
  assert (∀ z, walk h n (t ++ z) ≠ Some c) as Htz.
  { intros z Hz. apply Hap1. exists z. symmetry. by eapply walk_inj. }
  assert (route h' n p c) as Hrp.
  { eapply (route_walk h h' n c); [done|done|done|]. intros pr k r E Hpr.
    assert (pr = p) as -> by (by eapply walk_inj). apply (f_equal length) in E. rewrite length_app in E. cbn in E. lia. }
  assert (route h' n t m) as Hrt.
  { eapply (route_walk h h' n c); [done|done|done|]. intros pr k r E Hpr.
    assert (pr = p) as -> by (by eapply walk_inj). apply Hap2. by exists (k :: r). }
  destruct (good_walk h n p c Hg Hp) as [x Hx]. destruct (good_walk h n t m Hg Ht) as [y Hy].
  assert (m ≠ c) as Hmc by (intros ->; apply (Htz []); by rewrite app_nil_r).
  assert (nodes h' !! c = Some (Node (parent x) (kids x) (VLink (Path true t)))) as Hxc by (by rewrite Hn, decide_True, Hx).
  assert (nodes h' !! m = Some y) as Hy' by (by rewrite Hn, decide_False).
  pose proof (g_plain _ _ Hg _ _ Hy) as Hyd.
  assert (∀ g, (length p < g)%nat → (length t < g)%nat → _lookup_link (S g) h' c = Some (Some m)) as Hlink.
  { intros g Hg1 Hg2. cbn [_lookup_link]. rewrite Hxc. cbn [mbind option_bind data p_abs p_comps].
    rewrite (walk_root h n p c Hg Hp h' g); [|intros i; rewrite Hn; case_decide; subst; [by rewrite Hx|done]|done].
    cbn [mbind option_bind]. destruct t as [|k t']; [done|]. rewrite (lookup_enough h' n _ m Hrt) by done. done. }
  assert (∀ g z, (0 < g)%nat → z ≠ c → (∃ w, nodes h !! z = Some w) → get call g h' z = Some (text call (data <$> nodes h !! z))) as Hget.
  { intros g z Hg0 Hz [w Hw]. destruct g as [|g]; [lia|]. cbn. rewrite Hn, decide_False, Hw by done. cbn.
    pose proof (g_plain _ _ Hg _ _ Hw). by destruct (data w). }
  replace f with (length p + S (f - length p - 1))%nat at 1 by lia. set (g := (f - length p - 1)%nat).
  assert (length p + length t + length q + 5 ≤ g)%nat as Hgf by (unfold g; lia).
  unfold find. rewrite (lookup_route h' n p c Hrp) by lia. destruct q as [|k q].
  - cbn [_lookup mbind option_bind]. destruct f as [|f]; [lia|]. cbn [get]. rewrite Hxc. cbn [mbind option_bind data].
    destruct f as [|f]; [lia|]. rewrite Hlink by lia. cbn [mbind option_bind]. rewrite Hget by (done || lia || eauto).
    rewrite app_nil_r. unfold view. by rewrite Ht.
  - assert (_lookup (S g) h' c (k :: q) = _lookup (S g) h' m (k :: q)) as ->.
    { cbn [_lookup]. destruct g as [|g']; [lia|]. rewrite Hlink by lia. by rewrite (link_self g' h' m y). }
    rewrite (lookup_avoid h h' n c _ Hg eq_refl); [|by eexists|].
    2: { intros pr r _ Hw. apply (Htz pr). by rewrite walk_app, Ht. }
    pose proof (find_plain (S g) h m (k :: q) Hwf (g_plain _ _ Hg)) as Hfind. unfold find in Hfind.
    rewrite Hfind; [|by eexists|lia]. cbn [mbind option_bind]. unfold view. rewrite walk_app, Ht. cbn [mbind option_bind].
    destruct (walk h m (k :: q)) as [z|] eqn:Ez; [|done]. cbn [mbind option_bind]. apply Hget; [lia| |].
    + intros ->. apply (Htz (k :: q)). by rewrite walk_app, Ht.
    + eapply walk_exists; [done| |exact Ez]. by eexists.
Qed.

(** C32: in any configuration that was built without links, take an absolute
    link at a path [p] to an existing node [t], the names of both simple (not
    empty, no dot and no slash in them) and neither path changed by the
    symbolic links of the machine.  If no one is above the other, the link is
    accepted, and then reading any path of simple names through the link gives
    what the same path at the target gives; a link to itself or to a node above
    or below it is refused with EINVAL.  The depth [f] of the recursion is any
    that is enough for the lengths of the paths. *)
Theorem link_transparent {host : Host} (call : Z → option bytes) (f : nat) (os : list op) (h : heap) (rs : list rc) (p t : list bytes)
  (Hos : Forall (λ o, (length (split_path (op_path o)) < f)%nat) os)
  (Hrun : run f 1 (tll_config_new empty_heap).1 os = Some (h, rs))
  (Hp : p ≠ []) (Ht : t ≠ []) (Hps : Forall simple p) (Hts : Forall simple t)
  (Hhp : plain_on_host p) (Hht : plain_on_host t) (Hex : view h 1 t ≠ None)
  (Hf : (2 * length p + length t + 6 ≤ f)%nat) :
  ∃ h' r, tll_config_set_link f h 1 (Str.join 46 p) (47 :: Str.join 47 t) = Some (h', r) ∧
    (¬ apart t p → r = Err EINVAL) ∧
    (apart t p → r = ok ∧ ∀ q, Forall simple q → (2 * length p + length t + length q + 6 ≤ f)%nat →
      tll_config_get_copy call f h' 1 (Some (Str.join 46 (p ++ q))) =
      tll_config_get_copy call f h 1 (Some (Str.join 46 (t ++ q)))).
Proof.
  destruct (run_refines f 1 os _ (proj1 good_new) Hos) as (h0 & rs0 & E & Hg & _).
  rewrite Hrun in E. injection E as <- <-.
  unfold tll_config_set_link. rewrite split_join, path_of_absolute by done.
  destruct (find_create_spec f h 1 p Hg) as (h1 & c & -> & Hg1 & Hw & Hv); [lia|]. cbn [mbind option_bind].
  unfold set_link. rewrite normal_simple by done. cbn [p_abs].
  rewrite (node_path_spec h1 1 p Hg1 Hps f c Hw) by lia. cbn [mbind option_bind option_map].
  pose proof (link_check t p Hht Hhp Hts Hps) as Hchk. cbv zeta in Hchk.
  set (rel := relative_simple (Path true t) (Path true p)) in *.
  destruct (path_empty rel); cbn [orb] in Hchk.
  { eexists _, _. split_and!; [done|done|]. by intros ?%Hchk. }
  destruct (negb _); cbn [orb] in Hchk.
  { eexists _, _. split_and!; [done|done|]. by intros ?%Hchk. }
  destruct (_ || _).
  { eexists _, _. split_and!; [done|done|]. by intros ?%Hchk. }
  eexists _, _. split_and!; [done| |]. { intros Hn. destruct Hn. by apply Hchk. }
  intros Hap. split; [done|]. intros q Hq Hfq.
  assert (split_path (Str.join 46 (t ++ q)) = t ++ q) as Htq by (apply split_join; [by destruct t|by apply Forall_app]).
  assert (split_path (Str.join 46 (p ++ q)) = p ++ q) as Hpq by (apply split_join; [by destruct p|by apply Forall_app]).
  rewrite (get_copy_spec call f h 1) by (done || (rewrite Htq, length_app; lia)). rewrite Htq.
  assert (∀ z, view h1 1 (t ++ z) = view h 1 (t ++ z)) as Hvz.
  { intros z. rewrite Hv. unfold tree_make. rewrite decide_False; [done|]. intros Hz. apply (proj1 Hap).
    etrans; [|exact Hz]. by exists z. }
  destruct (walk h1 1 t) as [m|] eqn:Et.
  2: { destruct Hex. rewrite <-(app_nil_r t), <-Hvz, app_nil_r. by apply view_walk. }
  cbn [tll_config_get_copy]. unfold get_key. rewrite Hpq.
  rewrite (read_link call h1 1 p c t m q f) by done. by rewrite Hvz.
Qed.

Lemma link_transparent_witness :
  ∃ h h' r rs, run 20 1 (tll_config_new empty_heap).1 [OSet (str "a.b") (str "1")] = Some (h, rs) ∧
    @tll_config_set_link empty_host 20 h 1 (str "c.d") (str "/a") = Some (h', r) ∧ r = ok ∧
    tll_config_get_copy (λ _, None) 20 h' 1 (Some (str "c.d.b")) = tll_config_get_copy (λ _, None) 20 h 1 (Some (str "a.b")).
Proof.
  assert (∀ k, bool_decide (k ≠ [] ∧ (46 ∉ k) ∧ (47 ∉ k)) = true → simple k) as Hs by (intros k Hk; by apply bool_decide_eq_true in Hk).
  destruct (run 20 1 (tll_config_new empty_heap).1 [OSet (str "a.b") (str "1")]) as [[h rs]|] eqn:E; [|by vm_compute in E].
  assert (view h 1 [str "a"] ≠ None) as Hv by (vm_compute in E; injection E as <- <-; by vm_compute).
  assert (Forall simple [str "c"; str "d"]) as Hcd by (constructor; [by apply Hs|]; constructor; [by apply Hs|constructor]).
  assert (Forall simple [str "a"]) as Ha by (constructor; [by apply Hs|constructor]).
  destruct (@link_transparent empty_host (λ _, None) 20 [OSet (str "a.b") (str "1")] h rs [str "c"; str "d"] [str "a"])
    as (h' & r & E1 & _ & H); [repeat constructor|exact E|discriminate|discriminate|exact Hcd|exact Ha| | |exact Hv|cbn; lia|].
  { by apply plain_on_empty. }
  { by apply plain_on_empty. }
  destruct H as [Hr H]; [split; (intros [z Hz]; discriminate Hz)|].
  exists h, h', r, rs. split_and!; [done|exact E1|exact Hr|].
  apply (H [str "b"]); [constructor; [by apply Hs|constructor]|cbn; lia].
Defined.

(** The configurations from here on are on a machine without files. *)
#[local] Existing Instance empty_host.

(** A machine on which /bin is a symbolic link to /usr/bin. *)
Definition merged_usr : Host := λ p,
  let p := lexically_normal p in
  match p_comps p with
  | c :: r => if p_abs p && bool_decide (c = str "bin") then Path true (str "usr" :: c :: r) else p
  | [] => p
  end.

(** On it the link [usr] to the node [bin] beside it is refused: its target is
    looked up on the machine, and /usr/bin is below /usr. *)
Lemma link_depends_on_host :
  (let! s := run 20 1 (tll_config_new empty_heap).1 [OSet (str "bin") (str "1")] in
   let! r := @tll_config_set_link empty_host 20 s.1 1 (str "usr") (str "/bin") in
   let! r' := @tll_config_set_link merged_usr 20 s.1 1 (str "usr") (str "/bin") in
   Some (r.2, r'.2)) = Some (ok, Err EINVAL).
Proof. vm_compute. reflexivity. Qed.

(** Two links at each other, accepted by [set_link]. *)
Definition looped : option (heap * rc) :=
  let! a := tll_config_set_link 10 (tll_config_new empty_heap).1 1 (str "a") (str "/b") in
  tll_config_set_link 10 a.1 1 (str "b") (str "/a").

(** Links in a circle are accepted, and reading through them never
    returns: there is no depth of recursion at which [get] yields a result. *)
Theorem link_loop_diverges (call : Z → option bytes) :
  ∃ h, looped = Some (h, ok) ∧ ∀ f, tll_config_get_copy call f h 1 (Some (str "a")) = None.
Proof.
  destruct looped as [[h r]|] eqn:E; [|by vm_compute in E]. vm_compute in E. injection E as <- <-.
  eexists. split; [reflexivity|]. set (h := Heap _ _).
  assert (∀ f, (_lookup_link f h 2 = None ∨ _lookup_link f h 2 = Some (Some 3)) ∧
               (_lookup_link f h 3 = None ∨ _lookup_link f h 3 = Some (Some 2))) as Hl.
  { intros f. do 3 (destruct f as [|f]; [split; left; reflexivity|]). split; right; reflexivity. }
  assert (∀ f, get call f h 2 = None ∧ get call f h 3 = None) as Hget.
  { induction f as [|f [IH2 IH3]]; [done|]. destruct (Hl f) as [H2 H3]. split.
    - change (get call (S f) h 2) with (let! r := _lookup_link f h 2 in match r with None => Some None | Some m => get call f h m end).
      destruct H2 as [-> | ->]; [done|exact IH3].
    - change (get call (S f) h 3) with (let! r := _lookup_link f h 3 in match r with None => Some None | Some m => get call f h m end).
      destruct H3 as [-> | ->]; [done|exact IH2]. }
  intros f. cbn [tll_config_get_copy]. unfold get_key.
  destruct (find f h 1 (split_path (str "a"))) as [r|] eqn:Ef; [|done]. cbn [mbind option_bind].
  assert (r = Some 2) as ->.
  { do 3 (destruct f as [|f]; [vm_compute in Ef; congruence|]). vm_compute in Ef. congruence. }
  apply Hget.
Qed.
(** ** Browsing *)

(** Paths that match a mask: [*] is one name, [**] is one or more. *)
Inductive mask_match : list bytes → list bytes → Prop :=
| mm_nil : mask_match [] []
| mm_star k m p : mask_match m p → mask_match (Browse.star :: m) (k :: p)
| mm_one k m p : mask_match m p → mask_match (Browse.dstar :: m) (k :: p)
| mm_more k m p : mask_match (Browse.dstar :: m) p → mask_match (Browse.dstar :: m) (k :: p)
| mm_name k m p : k ≠ Browse.star → k ≠ Browse.dstar → mask_match m p → mask_match (k :: m) (k :: p).

Lemma mask_match_nil m : mask_match m [] ↔ m = [].
Proof. split; [by inversion 1|intros ->; constructor]. Qed.

Lemma mask_match_star m k p : mask_match (Browse.star :: m) (k :: p) ↔ mask_match m p.
Proof. split; [inversion 1; subst; done|by constructor]. Qed.

Lemma mask_match_dstar m k p :
  mask_match (Browse.dstar :: m) (k :: p) ↔ mask_match m p ∨ mask_match (Browse.dstar :: m) p.
Proof. split; [inversion 1; subst; auto; done|intros [?|?]; [by apply mm_one|by apply mm_more]]. Qed.

Lemma mask_match_name a m k p : a ≠ Browse.star → a ≠ Browse.dstar →
  mask_match (a :: m) (k :: p) ↔ k = a ∧ mask_match m p.
Proof. intros H1 H2. split; [inversion 1; subst; done|intros [-> ?]; by apply mm_name]. Qed.

Lemma mask_match_length m p : mask_match m p → (length m ≤ length p)%nat ∧ (dstars m = 0%nat → length p = length m).
Proof.
  unfold dstars. induction 1 as [|k m p H [IH1 IH2]|k m p H [IH1 IH2]|k m p H [IH1 IH2]|k m p Hs Hd H [IH1 IH2]]; cbn [length] in *.
  - done.
  - split; [lia|]. rewrite filter_cons_False by done. intros E. by rewrite IH2.
  - split; [lia|]. by rewrite filter_cons_True.
  - split; [lia|]. by rewrite filter_cons_True.
  - split; [lia|]. rewrite filter_cons_False by done. intros E. by rewrite IH2.
Qed.

Lemma dstars_cons m l : dstars (m :: l) = ((if decide (m = Browse.dstar) then 1 else 0) + dstars l)%nat.
Proof. unfold dstars. rewrite filter_cons. by case_decide. Qed.

(** Calls for a set of paths with their nodes. *)
Definition named (prefix : bytes) (l : list (list bytes * Z)) : list (bytes * Z) :=
  map (λ e, (prefix ++ Str.join 46 e.1, e.2)) l.

Definition below (k : bytes) (l : list (list bytes * Z)) : list (list bytes * Z) := map (λ e, (k :: e.1, e.2)) l.

(** The list has each of the paths with their nodes once. *)
Definition lists (h : heap) (n : Z) (P : list bytes → Prop) (l : list (list bytes * Z)) : Prop :=
  NoDup l.*1 ∧ ∀ p c, (p, c) ∈ l ↔ p ≠ [] ∧ walk h n p = Some c ∧ P p.

Lemma named_below prefix k l : Forall (λ e, e.1 ≠ []) l →
  named prefix (below k l) = named (prefix ++ k ++ dot) l.
Proof.
  unfold named, below. rewrite map_map. intros H. apply map_ext_Forall. eapply Forall_impl; [exact H|].
  intros [p c] Hp; cbn [fst snd] in *. destruct p as [|a p]; [done|]. f_equal.
  change (Str.join 46 (k :: a :: p)) with (k ++ 46 :: Str.join 46 (a :: p)). rewrite <-!app_assoc. done.
Qed.

Lemma lists_paths h n P l : lists h n P l → Forall (λ e, e.1 ≠ []) l.
Proof. intros [_ H]. apply Forall_forall. intros [p c] Hin. by apply H in Hin as (? & _). Qed.

Lemma elem_of_below k l p c : (p, c) ∈ below k l ↔ ∃ p', p = k :: p' ∧ (p', c) ∈ l.
Proof.
  unfold below. rewrite list_elem_of_fmap. split.
  - intros ([p' c'] & [= -> ->] & H). eauto.
  - intros (p' & -> & H). by exists (p', c).
Qed.

Lemma below_fst k l : (below k l).*1 = (λ p, k :: p) <$> l.*1.
Proof. unfold below. rewrite <-!list_fmap_compose. done. Qed.

Definition no_stop (p : bytes) (c : Z) : Z := 0.

(** Two disjoint parts below the same name. *)
Lemma lists_app h n P Q l1 l2 : lists h n P l1 → lists h n Q l2 → (∀ p, P p → Q p → False) →
  lists h n (λ p, P p ∨ Q p) (l1 ++ l2).
Proof.
  intros [N1 H1] [N2 H2] Hd. split.
  - rewrite fmap_app. apply NoDup_app. split_and!; [done| |done].
    intros p ([p1 c1] & -> & Hin1)%list_elem_of_fmap ([p2 c2] & E & Hin2)%list_elem_of_fmap. cbn in E. subst.
    apply H1 in Hin1 as (_ & _ & ?). apply H2 in Hin2 as (_ & _ & ?). eauto.
  - intros p c. rewrite elem_of_app, H1, H2. naive_solver.
Qed.

Section browse.
Context (h : heap) (r : Z) (Hg : good h r).

Lemma then_spec l1 k l2 : k = Some (l2, 0) → then_ (l1, 0) k = Some (l1 ++ l2, 0).
Proof. by intros ->. Qed.

(** The loop over the children of a node. *)
Lemma browse_kids_spec n prefix P visit l :
  NoDup l.*1 →
  (∀ k c, (k, c) ∈ l → step h n k = Some c ∧ ∃ lk, visit k c = Some (named prefix (below k lk), 0) ∧
     NoDup lk.*1 ∧ ∀ p e, (p, e) ∈ lk ↔ walk h c p = Some e ∧ P (k :: p)) →
  ∃ ll, browse_kids visit l = Some (named prefix ll, 0) ∧ NoDup ll.*1 ∧
    ∀ p e, (p, e) ∈ ll ↔ ∃ k c p', (k, c) ∈ l ∧ p = k :: p' ∧ walk h c p' = Some e ∧ P p.
Proof.
  induction l as [|[k c] l IH]; intros Hnd Hv.
  - exists []. split_and!; [done|constructor|]. intros p e. split; [by intros ?%not_elem_of_nil|].
    by intros (? & ? & ? & ?%not_elem_of_nil & _).
  - cbn in Hnd. apply NoDup_cons in Hnd as [Hk Hnd].
    destruct (Hv k c) as (Hs & lk & Hvk & Hndk & Hlk); [by left|].
    destruct IH as (ll & Hll & Hndl & Hin); [done|by intros; apply Hv; right|].
    exists (below k lk ++ ll). cbn [browse_kids]. rewrite Hvk. cbn [mbind option_bind].
    rewrite (then_spec _ _ _ Hll). split_and!.
    + unfold named. by rewrite map_app.
    + rewrite fmap_app. apply NoDup_app. split_and!; [|  |done].
      * rewrite below_fst. apply NoDup_fmap; [by intros ?? [=]|done].
      * intros p ([p1 c1] & -> & (p1' & -> & _)%elem_of_below)%list_elem_of_fmap ([p2 c2] & E & Hin2)%list_elem_of_fmap. cbn in E. subst p2.
        apply Hin in Hin2 as (k2 & c2' & p2' & Hin2 & [= <- <-] & _). apply Hk. apply list_elem_of_fmap. by exists (k, c2').
    + intros p e. rewrite elem_of_app, elem_of_below, Hin. split.
      * intros [(p' & -> & H%Hlk)|(k' & c' & p' & H & -> & H')].
        -- exists k, c, p'. split_and!; [by left|done|by apply H..].
        -- exists k', c', p'. split_and!; [by right|done|by apply H'..].
      * intros (k' & c' & p' & [[= -> ->]|H]%elem_of_cons & -> & H1 & H2).
        -- left. exists p'. split; [done|]. by apply Hlk.
        -- right. exists k', c', p'. done.
Qed.

Lemma sorted_kids_elem (m : gmap bytes Z) k c : (k, c) ∈ sorted_kids m ↔ m !! k = Some c.
Proof. unfold sorted_kids. rewrite merge_sort_Permutation. apply elem_of_map_to_list. Qed.

Lemma sorted_kids_nodup (m : gmap bytes Z) : NoDup (sorted_kids m).*1.
Proof. unfold sorted_kids. rewrite (fmap_Permutation fst _ _ (merge_sort_Permutation _ _)). apply NoDup_fst_map_to_list. Qed.

(** Longest path below a node. *)
Definition height (n : Z) (d : nat) : Prop := ∀ p c, walk h n p = Some c → (length p ≤ d)%nat.

Lemma height_kid n k c d : step h n k = Some c → height n d → (0 < d)%nat ∧ height c (d - 1).
Proof.
  intros Hs Hd. split.
  - specialize (Hd [k] c). cbn in Hd. rewrite Hs in Hd. specialize (Hd eq_refl). lia.
  - intros p e Hp. specialize (Hd (k :: p) e). cbn in Hd. rewrite Hs in Hd. specialize (Hd Hp). lia.
Qed.

Lemma step_exists n k c : step h n k = Some c → is_Some (nodes h !! c).
Proof. intros (x & Hx & Hk)%step_Some. destruct (wf_kid _ (g_wf _ _ Hg) _ _ _ _ Hx Hk) as (y & Hy & _). by eexists. Qed.

Lemma lists_empty n (P : list bytes → Prop) : (∀ p, p ≠ [] → P p → False) → lists h n P [].
Proof.
  intros H. split; [constructor|]. intros p c. split; [by intros ?%not_elem_of_nil|]. intros (H1 & _ & H2). by destruct (H p).
Qed.

(** What is visited at a child: itself, if the mask ends there, and what is below. *)
Lemma kid_list c (Q R : list bytes → Prop) (b : bool) l : lists h c Q l → (R [] ↔ b = true) → (∀ p, p ≠ [] → (R p ↔ Q p)) →
  NoDup ((if b then [([], c)] else []) ++ l).*1 ∧
  ∀ p e, (p, e) ∈ (if b then [([], c)] else []) ++ l ↔ walk h c p = Some e ∧ R p.
Proof.
  intros [Hnd Hl] HR0 HR. assert (∀ p e, (p, e) ∈ l ↔ p ≠ [] ∧ walk h c p = Some e ∧ R p) as Hl'.
  { intros p e. rewrite Hl. split; intros (H1 & H2 & H3); split_and!; try done; by apply HR. }
  split.
  - destruct b; [|done]. cbn. apply NoDup_cons. split; [|done]. intros ([p e] & E & Hin)%list_elem_of_fmap.
    cbn in E. subst. by apply Hl in Hin as (? & _).
  - intros p e. rewrite elem_of_app, Hl'. destruct p as [|k p].
    + destruct b.
      * rewrite list_elem_of_singleton. cbn. split; [intros [[= ->]|[? _]]; [split; [done|by apply HR0]|done]|].
        intros [[= ->] _]. by left.
      * split; [intros [?%not_elem_of_nil|[? _]]; done|]. intros [_ H%HR0]. done.
    + split; [|by right]. intros [H|H]; [|by destruct H as (_ & ?)]. exfalso.
      destruct b; [apply list_elem_of_singleton in H; by injection H|by apply not_elem_of_nil in H].
Qed.

Lemma visit_calls prefix k c (b : bool) l :
  Forall (λ e, e.1 ≠ []) l →
  then_ (if b then emit no_stop (prefix ++ k) c else ([], 0)) (Some (named ((prefix ++ k) ++ dot) l, 0)) =
  Some (named prefix (below k ((if b then [([], c)] else []) ++ l)), 0).
Proof.
  intros Hl. unfold below. rewrite map_app. fold (below k l). unfold named at 2. rewrite map_app.
  fold (named prefix (below k l)). rewrite named_below, app_assoc by done. by destruct b.
Qed.

Lemma browse_at_spec f : ∀ n d mask prefix, is_Some (nodes h !! n) → height n d → (d < f)%nat → (dstars mask ≤ 1)%nat →
  ∃ l, browse_at no_stop h f n mask prefix = Some (named prefix l, 0) ∧ lists h n (mask_match mask) l.
Proof.
  induction f as [|f IH]; intros n d mask prefix [x Hx] Hd Hf Hm; [lia|]. cbn [browse_at]. rewrite Hx. cbn [mbind option_bind].
  destruct mask as [|m next]; [exists []; split; [done|]; apply lists_empty; intros [|??] ? H; [done|inversion H]|].
  assert (∀ k c, kids x !! k = Some c ↔ step h n k = Some c) as Hstep by (intros; unfold step; by rewrite Hx).
  assert (dstars next ≤ 1)%nat as Hnext.
  { rewrite dstars_cons in Hm. lia. }
  destruct (bool_decide_reflect (m = Browse.star)) as [->|Hns]; [|destruct (bool_decide_reflect (m = Browse.dstar)) as [->|Hnd]]; cbn [orb].
  3: { destruct (kids x !! m) as [c|] eqn:Ek.
    - apply Hstep in Ek. destruct (height_kid n m c d Ek Hd) as [Hd0 Hdc]. destruct next as [|m' next].
      + exists [([m], c)]. split; [unfold emit, named, no_stop; done|]. split; [apply NoDup_singleton|].
        intros p e. rewrite list_elem_of_singleton. split.
        * intros [= -> ->]. cbn. rewrite Ek. split_and!; [done|done|]. apply mm_name; [done|done|constructor].
        * intros (_ & Hw & Hmm). destruct p as [|k p]; [by inversion Hmm|]. apply mask_match_name in Hmm as [-> Hp]; [|done|done].
          inversion Hp; subst. cbn in Hw. rewrite Ek in Hw. by injection Hw as ->.
      + destruct (IH c (d - 1)%nat (m' :: next) (prefix ++ m ++ dot)) as (l & -> & Hl); [by eapply step_exists|done|lia|done|].
        exists (below m l). rewrite named_below by (by eapply lists_paths). split; [done|]. destruct Hl as [Hnd' Hl]. split.
        * rewrite below_fst. apply NoDup_fmap; [by intros ?? [=]|done].
        * intros p e. rewrite elem_of_below. split.
          -- intros (p' & -> & (H1 & H2 & H3)%Hl). cbn. rewrite Ek. split_and!; [done|done|]. by apply mm_name.
          -- intros (_ & Hw & Hmm). destruct p as [|k p]; [by inversion Hmm|]. apply mask_match_name in Hmm as [-> Hp]; [|done|done].
             exists p. split; [done|]. apply Hl. cbn in Hw. rewrite Ek in Hw. split_and!; [|done|done]. intros ->. by inversion Hp.
    - exists []. split; [done|]. split; [constructor|]. intros p e. split; [by intros ?%not_elem_of_nil|].
      intros (_ & Hw & Hmm). destruct p as [|k p]; [by inversion Hmm|]. apply mask_match_name in Hmm as [-> Hp]; [|done|done].
      cbn in Hw. unfold step in Hw. rewrite Hx in Hw. cbn in Hw. by rewrite Ek in Hw. }
  all: match goal with |- context [browse_kids ?v ?l] =>
    match goal with |- context [mask_match ?msk] =>
    destruct (browse_kids_spec n prefix (mask_match msk) v l) as (ll & -> & Hndl & Hll) end end;
    [apply sorted_kids_nodup| |
     exists ll; split; [done|]; split; [done|]; intros p e; rewrite Hll; split;
     [intros (k & c & p' & Hk%sorted_kids_elem%Hstep & -> & Hw & Hmm); cbn; by rewrite Hk
     |intros (Hp & Hw & Hmm); destruct p as [|k p']; [done|]; cbn in Hw; destruct (step h n k) as [c|] eqn:Es; [|done];
      exists k, c, p'; split_and!; [by apply sorted_kids_elem, Hstep|done|done|done]]].
  - intros k c Hk%sorted_kids_elem%Hstep. split; [done|]. destruct (height_kid n k c d Hk Hd) as [Hd0 Hdc].
    pose proof (step_exists n k c Hk) as Hc. destruct f as [|f]; [lia|].
    rewrite lookup_link_plain by (apply Hg || done). cbn [mbind option_bind].
    destruct (IH c (d - 1)%nat next ((prefix ++ k) ++ dot)) as (l & -> & Hl); [done|done|lia|done|]. cbn [mbind option_bind].
    rewrite bool_decide_false by done. rewrite (then_spec _ (Some ([], 0)) [] eq_refl), app_nil_r.
    exists ((if bool_decide (next = []) then [([], c)] else []) ++ l). split.
    + rewrite <-visit_calls by (by eapply lists_paths). by destruct next.
    + apply (kid_list c (mask_match next)); [done| |by intros; apply mask_match_star].
      by rewrite mask_match_star, mask_match_nil, bool_decide_eq_true.
  - intros k c Hk%sorted_kids_elem%Hstep. split; [done|]. destruct (height_kid n k c d Hk Hd) as [Hd0 Hdc].
    pose proof (step_exists n k c Hk) as Hc. destruct f as [|f]; [lia|].
    rewrite lookup_link_plain by (apply Hg || done). cbn [mbind option_bind].
    destruct (IH c (d - 1)%nat next ((prefix ++ k) ++ dot)) as (l1 & -> & Hl1); [done|done|lia|done|]. cbn [mbind option_bind].
    destruct (IH c (d - 1)%nat (Browse.dstar :: next) ((prefix ++ k) ++ dot)) as (l2 & E2 & Hl2); [done|done|lia|done|].
    rewrite (then_spec _ _ _ E2). unfold named at 1 2. rewrite <-map_app. fold (named ((prefix ++ k) ++ dot) (l1 ++ l2)).
    assert (lists h c (λ p, mask_match next p ∨ mask_match (Browse.dstar :: next) p) (l1 ++ l2)) as Hl.
    { apply lists_app; [done|done|]. intros p [_ H1]%mask_match_length [H2 _]%mask_match_length.
      rewrite dstars_cons, decide_True in Hm by done. rewrite H1 in H2 by lia. cbn in H2. lia. }
    exists ((if bool_decide (next = []) then [([], c)] else []) ++ (l1 ++ l2)). split.
    + rewrite <-visit_calls by (by eapply lists_paths). by destruct next.
    + apply (kid_list c (λ p, mask_match next p ∨ mask_match (Browse.dstar :: next) p)); [done| |by intros; apply mask_match_dstar].
      rewrite mask_match_dstar, !mask_match_nil, bool_decide_eq_true. naive_solver.
Qed.

Definition starred (m : bytes) : Prop := m = Browse.star ∨ m = Browse.dstar.

Lemma browse_plain_spec f mask : ∀ n d prefix, is_Some (nodes h !! n) → height n d → (d < f)%nat → (dstars mask ≤ 1)%nat →
  ∃ l, browse_plain no_stop h f n mask prefix = Some (named prefix l, 0) ∧
    (Exists starred mask → lists h n (mask_match mask) l) ∧ (¬ Exists starred mask → l = []).
Proof.
  induction mask as [|m next IH]; intros n d prefix Hn Hd Hf Hm; cbn [browse_plain].
  - destruct (browse_at_spec f n d [] prefix Hn Hd Hf Hm) as (l & _ & Hl). exists []. split_and!; [|by intros ?%Exists_nil|done].
    destruct f as [|f]; [lia|]. destruct Hn as [x Hx]. cbn. by rewrite Hx.
  - destruct f as [|f]; [lia|]. rewrite lookup_link_plain by (apply Hg || done). cbn [mbind option_bind].
    destruct (decide (m = Browse.star ∨ m = Browse.dstar)) as [Hs|Hs].
    + assert (bool_decide (m = Browse.star) || bool_decide (m = Browse.dstar) = true) as ->
        by (apply orb_true_iff; rewrite !bool_decide_eq_true; done).
      destruct (browse_at_spec (S f) n d (m :: next) prefix Hn Hd Hf Hm) as (l & -> & Hl). exists l.
      split_and!; [done|done|]. intros Hne. destruct Hne. by left.
    + rewrite !bool_decide_false by tauto. cbn [orb]. destruct Hn as [x Hx]. rewrite Hx. cbn [mbind option_bind].
      assert (Exists starred (m :: next) ↔ Exists starred next) as Hst.
      { split; [inversion 1; subst; [by destruct Hs|done]|by right]. }
      rewrite dstars_cons in Hm. destruct (kids x !! m) as [c|] eqn:Ek.
      * assert (step h n m = Some c) as Es by (unfold step; by rewrite Hx).
        destruct (height_kid n m c d Es Hd) as [Hd0 Hdc].
        destruct (IH c (d - 1)%nat (prefix ++ m ++ dot)) as (l & -> & Hl1 & Hl2); [by eapply step_exists|done|lia|lia|].
        exists (below m l). rewrite Hst. destruct (decide (Exists starred next)) as [Hex|Hex].
        -- specialize (Hl1 Hex). rewrite named_below by (by eapply lists_paths). split_and!; [done| |done].
           intros _. destruct Hl1 as [Hnd' Hl]. split; [rewrite below_fst; apply NoDup_fmap; [by intros ?? [=]|done]|].
           intros p e. rewrite elem_of_below. split.
           ++ intros (p' & -> & (H1 & H2 & H3)%Hl). cbn. rewrite Es. split_and!; [done|done|]. apply mm_name; tauto.
           ++ intros (_ & Hw & Hmm). destruct p as [|k p]; [by inversion Hmm|]. apply mask_match_name in Hmm as [-> Hp]; [|tauto|tauto].
              exists p. split; [done|]. apply Hl. cbn in Hw. rewrite Es in Hw. split_and!; [|done|done].
              intros ->. apply mask_match_nil in Hp. subst. by apply Exists_nil in Hex.
        -- rewrite (Hl2 Hex). by split_and!.
      * exists []. split_and!; [done| |done]. intros _. split; [constructor|]. intros p e. split; [by intros ?%not_elem_of_nil|].
        intros (_ & Hw & Hmm). destruct p as [|k p]; [by inversion Hmm|]. apply mask_match_name in Hmm as [-> Hp]; [|tauto|tauto].
        cbn in Hw. unfold step in Hw. rewrite Hx in Hw. cbn in Hw. by rewrite Ek in Hw.
Qed.
End browse.

(** The tree is no deeper than the paths used to build it. *)
Lemma op_spec_depth f T o T' r : op_spec T o T' r → (length (split_path (op_path o)) < f)%nat →
  (∀ q, T q ≠ None → (length q < f)%nat) → ∀ q, T' q ≠ None → (length q < f)%nat.
Proof.
  intros Ho Hf HT q. pose proof (λ q, prefix_length q (split_path (op_path o))) as Hpre.
  assert (∀ d, tree_put d T (split_path (op_path o)) q ≠ None → (length q < f)%nat) as Hput.
  { intros d. unfold tree_put. case_decide; [by subst|auto]. }
  assert (∀ d, tree_put d (tree_make T (split_path (op_path o))) (split_path (op_path o)) q ≠ None → (length q < f)%nat) as Hmk.
  { intros d. unfold tree_put, tree_make. case_decide; [by subst|]. case_decide as Hq; [|auto]. intros _. specialize (Hpre _ Hq). lia. }
  assert (tree_drop T (split_path (op_path o)) q ≠ None → (length q < f)%nat) as Hdr.
  { unfold tree_drop. case_decide; [done|auto]. }
  unfold op_spec in Ho. destruct o; cbn [op_path] in *.
  - destruct Ho as [_ ->]. by apply Hmk.
  - destruct Ho as [_ ->]. by apply Hmk.
  - revert Ho. destruct (T (split_path p)); intros [_ ->]; [apply Hput|apply HT].
  - revert Ho. destruct (T (split_path p)); intros [_ ->]; [apply Hdr|apply HT].
  - revert Ho. destruct (T (split_path p)); intros Ho; [|destruct Ho as [_ ->]; apply HT].
    destruct Ho as (_ & [[_ ->]|[_ ->]]); [apply Hput|apply Hdr].
Qed.

Lemma run_spec_depth f T os T' rs : run_spec T os T' rs → Forall (λ o, (length (split_path (op_path o)) < f)%nat) os →
  (∀ q, T q ≠ None → (length q < f)%nat) → ∀ q, T' q ≠ None → (length q < f)%nat.
Proof.
  induction 1 as [T T' E|T o T1 r os T2 rs Ho Hrun IH]; intros Hos HT.
  - intros q. rewrite E. apply HT.
  - apply Forall_cons in Hos as [Hf Hos]. apply IH; [done|]. by eapply op_spec_depth.
Qed.

(** Browsing a configuration built without links: a mask with a star in it
    makes one call for every node whose path matches ([*] one name, [**] one
    or more), with its name and node, and none twice; more than one [**] is
    refused; a mask without a star makes no call at all, whether the node is
    there or not. *)
Theorem browse_lists (f : nat) (os : list op) (h : heap) (rs : list rc) (mask : bytes)
  (Hos : Forall (λ o, (length (split_path (op_path o)) < f)%nat) os) (Hf : (0 < f)%nat)
  (Hrun : run f 1 (tll_config_new empty_heap).1 os = Some (h, rs)) :
  if (1 <? dstars (split_path mask))%nat then browse no_stop h f 1 mask = Some (Err EINVAL) else
  ∃ l, browse no_stop h f 1 mask = Some (Ok (named [] l, 0)) ∧
    (Exists starred (split_path mask) → lists h 1 (mask_match (split_path mask)) l) ∧
    (¬ Exists starred (split_path mask) → l = []).
Proof.
  destruct good_new as [Hg0 Hv0]. destruct (run_refines f 1 os _ Hg0 Hos) as (h0 & rs0 & E & Hg & Hspec).
  rewrite Hrun in E. injection E as <- <-. unfold browse. destruct (Nat.ltb_spec 1 (dstars (split_path mask))) as [|Hd]; [done|].
  destruct (browse_plain_spec h 1 Hg f (split_path mask) 1 (f - 1) []) as (l & -> & Hl); [by apply is_root_exists, Hg| |lia|lia|eauto].
  intros p c Hw. assert (length p < f)%nat; [|lia].
  eapply run_spec_depth; [exact Hspec|exact Hos| |].
  - intros q. rewrite Hv0. unfold empty_tree. case_decide; [by subst|done].
  - intros Hn. apply view_walk in Hn; [congruence|done].
Qed.

Lemma browse_lists_witness :
  ∃ h rs l, run 4 1 (tll_config_new empty_heap).1 [OSet (str "a.b") (str "1"); OSet (str "a.c.d") (str "2")] = Some (h, rs) ∧
    browse no_stop h 4 1 (str "a.**") = Some (Ok (named [] l, 0)) ∧ lists h 1 (mask_match [str "a"; str "**"]) l.
Proof.
  destruct (run 4 1 (tll_config_new empty_heap).1 [OSet (str "a.b") (str "1"); OSet (str "a.c.d") (str "2")]) as [[h rs]|] eqn:E;
    [|by vm_compute in E].
  destruct (browse_lists 4 [OSet (str "a.b") (str "1"); OSet (str "a.c.d") (str "2")] h rs (str "a.**")) as (l & Hb & Hl & _);
    [repeat constructor|lia|exact E|].
  exists h, rs, l. split_and!; [done|exact Hb|]. apply Hl. right. left. by right.
Defined.

(** ** Corner cases of links

    A configuration with the values [a = v], [a.b = 1] and a link [c] to [/a],
    and one with a link [c] to the missing node [/z]. *)
Definition with_link (dest : bytes) : option heap :=
  let! s := run 20 1 (tll_config_new empty_heap).1 [OSet (str "a") (str "v"); OSet (str "a.b") (str "1")] in
  let! s := tll_config_set_link 20 s.1 1 (str "c") dest in
  Some s.1.

(** [remove] of a link to a node with children leaves the link and takes the
    value of the target. *)
Lemma remove_takes_target :
  (let! h := with_link (str "/a") in
   let! s := tll_config_remove 20 h 1 (str "c") in
   let! v := tll_config_get_copy (λ _, None) 20 s.1 1 (Some (str "a")) in
   let! w := tll_config_get_copy (λ _, None) 20 s.1 1 (Some (str "c.b")) in
   Some (s.2, v, w)) = Some (ok, None, Some (str "1")).
Proof. vm_compute. reflexivity. Qed.

(** A subtree put behind a link is stored in the node of the link, where no
    look-up finds it. *)
Lemma set_config_behind_link :
  (let! h := with_link (str "/a") in
   let '(h, sub) := tll_config_new h in
   let! s := tll_config_set_config 20 h 1 (str "c.x") sub in
   let! r := find 20 s.1 1 (split_path (str "c.x")) in
   Some (s.2, r)) = Some (ok, None).
Proof. vm_compute. reflexivity. Qed.

(** Behind a link to a missing node it follows a null pointer, whatever the
    depth allowed for the recursion. *)
Lemma set_config_dangling :
  (let! h := with_link (str "/z") in
   let '(h, sub) := tll_config_new h in
   let! r := find_create 50 h 1 (removelast (split_path (str "c.x.y"))) true in
   Some (r.2, tll_config_set_config 50 h 1 (str "c.x.y") sub)) = Some (None, None).
Proof. vm_compute. reflexivity. Qed.

(** A node that was taken out with [unlink] keeps pointing to its parent. *)
Lemma unlink_keeps_parent :
  (let! s := run 20 1 (tll_config_new empty_heap).1 [OSet (str "a.b") (str "1")] in
   let! c := find 20 s.1 1 (split_path (str "a")) in
   let! c := c in
   let! u := tll_config_unlink 20 s.1 1 (str "a") in
   let! x := nodes u.1 !! c in
   Some (u.2, parent x)) = Some (ok, Some 1).
Proof. vm_compute. reflexivity. Qed.
End ConfigSpec.
