(* ===== verification/Encode.v ===== *)
(** * Binary data as text and packed numbers

    src/tll/util/bin2ascii.h (hexadecimal and base64), src/tll/util/varint.h
    and src/tll/util/decimal128.h.  Bytes are integers from 0 to 255; the
    lookup tables are written as the ranges they consist of. *)
From S2P Require Import Prelude Conv.

Definition is_byte (c : Z) : Prop := 0 ≤ c < 256.

(** A test that holds for all small numbers. *)
Lemma all_below (n : Z) (P : Z → bool) : forallb P (seqZ 0 n) = true → ∀ d, 0 ≤ d < n → P d = true.
Proof.
  intros Hb d Hd. rewrite forallb_forall in Hb. apply Hb. apply list_elem_of_In. by apply elem_of_seqZ.
Qed.

(** ** Hexadecimal *)

Module Hex.

Inductive hex_error := OddSize | InvalidHex (i : nat).

(** The table: 0x80 marks everything that is not a digit. *)
Definition lookup (c : Z) : Z :=
  if (48 <=? c) && (c <=? 57) then c - 48
  else if (65 <=? c) && (c <=? 70) then c - 55
  else if (97 <=? c) && (c <=? 102) then c - 87
  else 0x80.

Fixpoint hex2bin_loop (i : nat) (s : bytes) : result hex_error bytes :=
  match s with
  | a :: b :: s =>
      let hi := lookup a in
      let lo := lookup b in
      if negb (Z.land 0x80 (Z.lor hi lo) =? 0) then Err (InvalidHex i)
      else let? r := hex2bin_loop (i + 2) s in Ok (Z.lor (u8 (Z.shiftl hi 4)) lo :: r)
  | _ => Ok []
  end.

Definition hex2bin (s : bytes) : result hex_error bytes :=
  if negb (zlen s mod 2 =? 0) then Err OddSize else hex2bin_loop 0 s.

(** ["0123456789abcdef"] with its terminating zero; [None] is a read outside. *)
Definition hex_char (d : Z) : option Z :=
  if d <? 0 then None
  else if d <? 10 then Some (48 + d)
  else if d <? 16 then Some (87 + d)
  else if d =? 16 then Some 0 else None.

(** The elements of the argument are [char] or [unsigned char]: values from
    -128 or from 0; the two halves are converted to [unsigned char]. *)
Fixpoint bin2hex (s : list Z) : option bytes :=
  match s with
  | [] => Some []
  | c :: s =>
      let! hi := hex_char (u8 (Z.shiftr c 4)) in
      let! lo := hex_char (u8 (Z.land c 0xf)) in
      let! r := bin2hex s in
      Some (hi :: lo :: r)
  end.

Lemma hex_digit d : 0 ≤ d < 16 → ∃ c, hex_char d = Some c ∧ lookup c = d.
Proof.
  intros Hd. pose proof (all_below 16 (λ d, match hex_char d with Some c => lookup c =? d | None => false end) eq_refl d Hd) as H.
  cbv beta in H. destruct (hex_char d) as [c|]; [|done]. exists c. split; [done|by apply Z.eqb_eq].
Qed.

Lemma nibbles c : is_byte c → 0 ≤ Z.shiftr c 4 < 16 ∧ 0 ≤ Z.land c 0xf < 16 ∧
  Z.lor (u8 (Z.shiftl (Z.shiftr c 4) 4)) (Z.land c 0xf) = c.
Proof.
  intros Hc. pose proof (all_below 256 (λ c, (0 <=? Z.shiftr c 4) && (Z.shiftr c 4 <? 16) && (0 <=? Z.land c 0xf) &&
    (Z.land c 0xf <? 16) && (Z.lor (u8 (Z.shiftl (Z.shiftr c 4) 4)) (Z.land c 0xf) =? c)) eq_refl c Hc) as H. cbv beta in H. lia.
Qed.

Lemma digits_valid a b : 0 ≤ a < 16 → 0 ≤ b < 16 → (Z.land 0x80 (Z.lor a b) =? 0) = true.
Proof.
  intros Ha Hb.
  pose proof (all_below 16 (λ a, forallb (λ b, Z.land 0x80 (Z.lor a b) =? 0) (seqZ 0 16)) eq_refl a Ha) as H. cbv beta in H.
  exact (all_below 16 _ H b Hb).
Qed.

(** Unsigned bytes are printed and parsed back. *)
Lemma hex_loop s : Forall is_byte s → ∀ i, ∃ t, bin2hex s = Some t ∧ hex2bin_loop i t = Ok s ∧ zlen t = 2 * zlen s.
Proof.
  induction 1 as [|c s Hc Hs IH]; intros i; [by exists []|]. destruct (IH (i + 2)%nat) as (t & E & Ht & Hl).
  destruct (nibbles c Hc) as (Hhi & Hlo & Ec). cbn [bin2hex].
  rewrite !(wrapu_id 8) by (change (2 ^ 8) with 256; lia).
  destruct (hex_digit _ Hhi) as (a & -> & Ea). destruct (hex_digit _ Hlo) as (b & -> & Eb). cbn [mbind option_bind].
  rewrite E. cbn [mbind option_bind]. eexists. split; [done|]. cbn [hex2bin_loop]. rewrite Ea, Eb.
  rewrite digits_valid by done. cbn [negb]. rewrite Ht. cbn [result_bind]. rewrite Ec. split; [done|].
  rewrite !zlen_cons. lia.
Qed.

Lemma hex_roundtrip_lemma s : Forall is_byte s → ∃ t, bin2hex s = Some t ∧ hex2bin t = Ok s.
Proof.
  intros Hs. destruct (hex_loop s Hs 0) as (t & E & Ht & Hl). exists t. split; [done|]. unfold hex2bin.
  rewrite Hl, Z.mul_comm, Z.mod_mul by lia. done.
Qed.

(** A negative [char] reads outside of the table of digits. *)
Lemma bin2hex_char : bin2hex [-1] = None.
Proof. reflexivity. Qed.
End Hex.

(** ** Base64 *)

Module Base64.

Inductive b64_error := InvalidSize | InvalidB64 (group : bytes).

(** ["ABC...+/"] *)
Definition char64 (d : Z) : Z :=
  if d <? 26 then 65 + d
  else if d <? 52 then 71 + d
  else if d <? 62 then d - 4
  else if d =? 62 then 43 else 47.

(** The inverse table: 0x80 for other characters, 0xff for the padding. *)
Definition lookup (c : Z) : Z :=
  if (65 <=? c) && (c <=? 90) then c - 65
  else if (97 <=? c) && (c <=? 122) then c - 71
  else if (48 <=? c) && (c <=? 57) then c + 4
  else if c =? 43 then 0x3e
  else if c =? 47 then 0x3f
  else if c =? 61 then 0xff else 0x80.

(** The four groups of six bits of a 24-bit number. *)
Definition n0 (n : Z) : Z := Z.land (u8 (Z.shiftr n 18)) 0x3f.
Definition n1 (n : Z) : Z := Z.land (u8 (Z.shiftr n 12)) 0x3f.
Definition n2 (n : Z) : Z := Z.land (u8 (Z.shiftr n 6)) 0x3f.
Definition n3 (n : Z) : Z := Z.land (u8 n) 0x3f.

Fixpoint encode_loop (s : bytes) : bytes :=
  match s with
  | [] => []
  | [a] =>
      let n := Z.shiftl a 16 in
      [char64 (n0 n); char64 (n1 n)]
  | [a; b] =>
      let n := Z.lor (Z.shiftl a 16) (Z.shiftl b 8) in
      [char64 (n0 n); char64 (n1 n); char64 (n2 n)]
  | a :: b :: c :: s =>
      let n := Z.lor (Z.lor (Z.shiftl a 16) (Z.shiftl b 8)) c in
      char64 (n0 n) :: char64 (n1 n) :: char64 (n2 n) :: char64 (n3 n) :: encode_loop s
  end.

Definition padding (s : bytes) : nat := Z.to_nat ((3 - zlen s mod 3) mod 3).

Definition b64_encode (s : bytes) : bytes :=
  match s with
  | [] => []
  | _ => encode_loop s ++ replicate (padding s) 61
  end.

Definition valid (l : list Z) : bool := Z.land 0x80 (foldr Z.lor 0 l) =? 0.

Definition byte2 (n : Z) : Z := Z.land (Z.shiftr n 16) 0xff.
Definition byte1 (n : Z) : Z := Z.land (Z.shiftr n 8) 0xff.
Definition byte0 (n : Z) : Z := Z.land n 0xff.

(** The last group may be padded. *)
Definition decode_last (a b c d : Z) : result b64_error bytes :=
  let m0 := lookup a in
  let m1 := lookup b in
  if negb (valid [m0; m1]) then Err (InvalidB64 [a; b; c; d]) else
  let n := Z.lor (Z.shiftl m0 18) (Z.shiftl m1 12) in
  if (c =? 61) && (d =? 61) then Ok [byte2 n]
  else if d =? 61 then
    let m2 := lookup c in
    if negb (valid [m2]) then Err (InvalidB64 [a; b; c; d]) else
    let n' := Z.lor n (Z.shiftl m2 6) in Ok [byte2 n; byte1 n']
  else
    let m2 := lookup c in
    let m3 := lookup d in
    if negb (valid [m2; m3]) then Err (InvalidB64 [a; b; c; d]) else
    let n' := Z.lor n (Z.lor (Z.shiftl m2 6) m3) in Ok [byte2 n; byte1 n'; byte0 n'].

Fixpoint decode_loop (s : bytes) : result b64_error bytes :=
  match s with
  | [a; b; c; d] => decode_last a b c d
  | a :: b :: c :: d :: s =>
      let l := [lookup a; lookup b; lookup c; lookup d] in
      if negb (valid l) then Err (InvalidB64 [a; b; c; d]) else
      let n := Z.lor (Z.lor (Z.lor (Z.shiftl (lookup a) 18) (Z.shiftl (lookup b) 12)) (Z.shiftl (lookup c) 6)) (lookup d) in
      let? r := decode_loop s in Ok (byte2 n :: byte1 n :: byte0 n :: r)
  | _ => Ok []
  end.

Definition b64_decode (s : bytes) : result b64_error bytes :=
  match s with
  | [] => Ok []
  | _ => if negb (zlen s mod 4 =? 0) then Err InvalidSize else decode_loop s
  end.

(** *** Bits *)

Lemma high_bit w n i : 0 ≤ n < 2 ^ w → w ≤ i → 0 ≤ w → Z.testbit n i = false.
Proof.
  intros Hn Hi Hw. destruct (Z.eq_dec n 0) as [->|]; [apply Z.bits_0|]. apply Z.bits_above_log2; [lia|].
  assert (Z.log2 n < w) by (apply Z.log2_lt_pow2; lia). lia.
Qed.

Lemma sextet n k : 0 ≤ n < 2 ^ 24 → 0 ≤ k → ∀ i, 0 ≤ i →
  Z.testbit (Z.land (u8 (Z.shiftr n k)) 0x3f) i = (i <? 6) && Z.testbit n (i + k).
Proof.
  intros Hn Hk i Hi. unfold wrapu. rewrite Z.land_spec. destruct (Z.ltb_spec i 6).
  - rewrite Z.mod_pow2_bits_low, Z.shiftr_spec by lia. change 0x3f with (Z.ones 6).
    rewrite Z.ones_spec_low by lia. by rewrite andb_true_r.
  - change 0x3f with (Z.ones 6). rewrite Z.ones_spec_high by lia. by rewrite andb_false_r.
Qed.

Lemma shift_bit x k i : 0 ≤ i → Z.testbit (Z.shiftl x k) i = Z.testbit x (i - k).
Proof. intros. by apply Z.shiftl_spec. Qed.

(** Six bits four times make the number again. *)
Lemma regroup n : 0 ≤ n < 2 ^ 24 →
  Z.lor (Z.lor (Z.lor (Z.shiftl (n0 n) 18) (Z.shiftl (n1 n) 12)) (Z.shiftl (n2 n) 6)) (n3 n) = n.
Proof.
  intros Hn. apply Z.bits_inj'. intros i Hi. rewrite !Z.lor_spec, !shift_bit by done.
  assert (∀ k x, 0 ≤ k → (∀ j, 0 ≤ j → Z.testbit x j = (j <? 6) && Z.testbit n (j + k)) → 
    Z.testbit x (i - k) = (k <=? i) && (i <? k + 6) && Z.testbit n i) as Hx.
  { intros k x Hk Hx. destruct (Z.leb_spec k i); cbn.
    - rewrite Hx by lia. replace (i - k + k) with i by lia. f_equal. destruct (Z.ltb_spec (i - k) 6), (Z.ltb_spec i (k + 6)); lia || done.
    - by rewrite Z.testbit_neg_r by lia. }
  rewrite (Hx 18), (Hx 12), (Hx 6) by (lia || (intros; by apply sextet)).
  assert (Z.testbit (n3 n) i = (0 <=? i) && (i <? 0 + 6) && Z.testbit n i) as ->.
  { rewrite <-(Hx 0 (n3 n)); [by rewrite Z.sub_0_r|lia|]. intros j Hj. unfold n3. rewrite <-(Z.shiftr_0_r n) at 1. by apply sextet. }
  destruct (Z.testbit n i) eqn:E; [|by rewrite !andb_false_r]. rewrite !andb_true_r.
  destruct (Z.lt_ge_cases i 24); [|by rewrite (high_bit 24) in E by lia].
  destruct (Z.leb_spec 18 i), (Z.leb_spec 12 i), (Z.leb_spec 6 i), (Z.leb_spec 0 i), (Z.ltb_spec i (18 + 6)),
    (Z.ltb_spec i (12 + 6)), (Z.ltb_spec i (6 + 6)), (Z.ltb_spec i (0 + 6)); cbn; lia || done.
Qed.

Lemma byte_of x a k : (∀ i, 0 ≤ i < 8 → Z.testbit x (i + k) = Z.testbit a i) → 0 ≤ k → is_byte a →
  Z.land (Z.shiftr x k) 0xff = a.
Proof.
  intros Hx Hk Ha. apply Z.bits_inj'. intros i Hi. rewrite Z.land_spec, Z.shiftr_spec by done.
  change 0xff with (Z.ones 8). destruct (Z.lt_ge_cases i 8).
  - by rewrite Z.ones_spec_low, andb_true_r, Hx by lia.
  - rewrite Z.ones_spec_high, andb_false_r by lia. symmetry. apply (high_bit 8); [exact Ha|lia|lia].
Qed.

Lemma three a b c : is_byte a → is_byte b → is_byte c →
  let n := Z.lor (Z.lor (Z.shiftl a 16) (Z.shiftl b 8)) c in
  0 ≤ n < 2 ^ 24 ∧ byte2 n = a ∧ byte1 n = b ∧ byte0 n = c.
Proof.
  intros Ha Hb Hc n.
  assert (∀ i, 0 ≤ i → Z.testbit n i = Z.testbit a (i - 16) || Z.testbit b (i - 8) || Z.testbit c i) as Hn.
  { intros i Hi. unfold n. by rewrite !Z.lor_spec, !shift_bit. }
  assert (0 ≤ n) as Hn0.
  { unfold n. apply Z.lor_nonneg. split; [|unfold is_byte in *; lia]. apply Z.lor_nonneg. unfold is_byte in *. split; apply Z.shiftl_nonneg; lia. }
  split_and!.
  - done.
  - destruct (Z.lt_ge_cases n (2 ^ 24)) as [|Hge]; [done|]. exfalso.
    assert (Z.testbit n (Z.log2 n) = true) as E by (apply Z.bit_log2; lia).
    assert (24 ≤ Z.log2 n) by (apply Z.log2_le_pow2; lia).
    rewrite Hn in E by lia. rewrite !(high_bit 8) in E by (done || lia). done.
  - apply byte_of; [|lia|done]. intros i Hi. rewrite Hn by lia.
    rewrite (high_bit 8 b), (high_bit 8 c) by (done || lia). rewrite !orb_false_r. f_equal. lia.
  - apply byte_of; [|lia|done]. intros i Hi. rewrite Hn by lia.
    rewrite (Z.testbit_neg_r a) by lia. rewrite (high_bit 8 c) by (done || lia). cbn. rewrite orb_false_r. f_equal. lia.
  - unfold byte0. rewrite <-(Z.shiftr_0_r n). apply byte_of; [|lia|done]. intros i Hi. rewrite Z.add_0_r, Hn by lia.
    by rewrite (Z.testbit_neg_r a), (Z.testbit_neg_r b) by lia.
Qed.

Lemma sextet_range n k : 0 ≤ Z.land (u8 (Z.shiftr n k)) 0x3f < 64.
Proof. change 0x3f with (Z.ones 6). rewrite Z.land_ones by lia. apply Z.mod_pos_bound. lia. Qed.

Lemma n3_range n : 0 ≤ n3 n < 64.
Proof. unfold n3. rewrite <-(Z.shiftr_0_r n). apply sextet_range. Qed.

Lemma lookup_char d : 0 ≤ d < 64 → lookup (char64 d) = d ∧ char64 d ≠ 61.
Proof.
  intros Hd. pose proof (all_below 64 (λ d, (lookup (char64 d) =? d) && negb (char64 d =? 61)) eq_refl d Hd) as H. cbv beta in H. lia.
Qed.

Lemma valid_sextets l : Forall (λ d, 0 ≤ d < 64) l → valid l = true.
Proof.
  intros Hl. unfold valid. apply Z.eqb_eq. apply Z.bits_inj'. intros i Hi. rewrite Z.land_spec, Z.bits_0.
  destruct (Z.eq_dec i 7) as [->|Hne].
  - rewrite andb_comm. apply andb_false_intro1. induction Hl as [|d l Hd Hl IH]; [done|]. cbn [foldr].
    rewrite Z.lor_spec, IH. rewrite (high_bit 6) by (done || lia). done.
  - apply andb_false_intro1. change 0x80 with (2 ^ 7). by apply Z.pow2_bits_false.
Qed.

(** A group of three bytes written and read again. *)
Lemma group a b c : is_byte a → is_byte b → is_byte c →
  let n := Z.lor (Z.lor (Z.shiftl a 16) (Z.shiftl b 8)) c in
  let m := Z.lor (Z.shiftl (n0 n) 18) (Z.shiftl (n1 n) 12) in
  byte2 m = a ∧ byte1 (Z.lor m (Z.shiftl (n2 n) 6)) = b ∧
  Z.lor (Z.lor m (Z.shiftl (n2 n) 6)) (n3 n) = n ∧ Z.lor m (Z.lor (Z.shiftl (n2 n) 6) (n3 n)) = n.
Proof.
  intros Ha Hb Hc n m. destruct (three a b c Ha Hb Hc) as (Hn & E2 & E1 & E0). fold n in Hn, E2, E1, E0.
  pose proof (regroup n Hn) as Hr. fold m in Hr.
  assert (∀ x k, 0 ≤ x < 64 → k + 6 ≤ 16 → 0 ≤ k → ∀ i, 16 ≤ i → Z.testbit (Z.shiftl x k) i = false) as Hlow.
  { intros x k Hx Hk Hk0 i Hi. rewrite shift_bit by lia. apply (high_bit 6); [done|lia|lia]. }
  split_and!.
  - apply byte_of; [|lia|done]. intros i Hi. rewrite <-E2. unfold byte2. rewrite Z.land_spec, Z.shiftr_spec by lia.
    change 0xff with (Z.ones 8). rewrite Z.ones_spec_low, andb_true_r by lia. rewrite <-Hr, !Z.lor_spec.
    rewrite (Hlow (n2 n) 6) by (apply sextet_range || lia).
    rewrite (high_bit 6 (n3 n)) by (apply n3_range || lia). by rewrite !orb_false_r.
  - apply byte_of; [|lia|done]. intros i Hi. rewrite <-E1. unfold byte1. rewrite (Z.land_spec _ 0xff), Z.shiftr_spec by lia.
    change 0xff with (Z.ones 8). rewrite Z.ones_spec_low, andb_true_r by lia.
    rewrite <-(f_equal (λ z, Z.testbit z (i + 8)) Hr), !Z.lor_spec.
    rewrite (high_bit 6 (n3 n)) by (apply n3_range || lia). by rewrite !orb_false_r.
  - done.
  - by rewrite Z.lor_assoc.
Qed.

Lemma padding_step a b c s : padding (a :: b :: c :: s) = padding s.
Proof. unfold padding. rewrite !zlen_cons. do 3 f_equal. replace (1 + (1 + (1 + zlen s))) with (zlen s + 1 * 3) by lia. apply Z.mod_add. lia. Qed.

Lemma byte_0 : is_byte 0. Proof. by unfold is_byte. Qed.

Lemma decode_encode k : ∀ s, (length s ≤ k)%nat → s ≠ [] → Forall is_byte s →
  decode_loop (encode_loop s ++ replicate (padding s) 61) = Ok s ∧
  zlen (encode_loop s ++ replicate (padding s) 61) mod 4 = 0 ∧ encode_loop s ++ replicate (padding s) 61 ≠ [].
Proof.
  induction k as [|k IH]; intros s Hk Hne Hs; [by destruct s; cbn in Hk; [|lia]|].
  destruct s as [|a [|b [|c s]]]; [done| | |].
  - apply Forall_cons in Hs as [Ha _]. destruct (group a 0 0 Ha byte_0 byte_0) as (E2 & _).
    rewrite Z.shiftl_0_l, !Z.lor_0_r in E2. change (padding [a]) with 2%nat. cbn [encode_loop app replicate decode_loop].
    split_and!; [|done|done]. unfold decode_last.
    destruct (lookup_char (n0 (Z.shiftl a 16))) as [-> _]; [apply sextet_range|].
    destruct (lookup_char (n1 (Z.shiftl a 16))) as [-> _]; [apply sextet_range|].
    rewrite valid_sextets by (repeat constructor; apply sextet_range). cbn [negb andb Z.eqb Pos.eqb]. by rewrite E2.
  - apply Forall_cons in Hs as [Ha [Hb _]%Forall_cons]. destruct (group a b 0 Ha Hb byte_0) as (E2 & E1 & _).
    rewrite Z.lor_0_r in E2, E1. set (n := Z.lor (Z.shiftl a 16) (Z.shiftl b 8)) in *.
    change (padding [a; b]) with 1%nat. cbn [encode_loop app replicate decode_loop]. fold n.
    split_and!; [|done|done]. unfold decode_last.
    destruct (lookup_char (n0 n)) as [-> _]; [apply sextet_range|].
    destruct (lookup_char (n1 n)) as [-> _]; [apply sextet_range|].
    destruct (lookup_char (n2 n)) as [-> Hn2]; [apply sextet_range|].
    rewrite valid_sextets by (repeat constructor; apply sextet_range). cbn [negb].
    destruct (Z.eqb_spec (char64 (n2 n)) 61); [done|]. cbn [andb Z.eqb Pos.eqb].
    rewrite valid_sextets by (repeat constructor; apply sextet_range). cbn [negb]. by rewrite E2, E1.
  - apply Forall_cons in Hs as [Ha [Hb [Hc Hs]%Forall_cons]%Forall_cons].
    destruct (group a b c Ha Hb Hc) as (E2 & E1 & Ea & Eb). destruct (three a b c Ha Hb Hc) as (_ & T2 & T1 & T0).
    cbv zeta in *. rewrite padding_step. cbn [encode_loop]. set (n := Z.lor (Z.lor (Z.shiftl a 16) (Z.shiftl b 8)) c) in *.
    destruct (lookup_char (n0 n)) as [L0 _]; [apply sextet_range|].
    destruct (lookup_char (n1 n)) as [L1 _]; [apply sextet_range|].
    destruct (lookup_char (n2 n)) as [L2 _]; [apply sextet_range|].
    destruct (lookup_char (n3 n)) as [L3 H3]; [apply n3_range|].
    assert (∀ l, l ⊆ [n0 n; n1 n; n2 n; n3 n] → valid l = true) as Hv.
    { intros l Hl. apply valid_sextets, Forall_forall. intros d Hd%Hl.
      repeat (apply elem_of_cons in Hd as [->|Hd]; [apply sextet_range || apply n3_range|]). by apply not_elem_of_nil in Hd. }
    destruct s as [|d s].
    + cbn [encode_loop app]. change (replicate (padding []) 61) with (@nil Z). cbn [decode_loop]. split_and!; [|done|done].
      unfold decode_last. rewrite L0, L1, L2, L3, !Hv by set_solver. cbn [negb].
      destruct (Z.eqb_spec (char64 (n3 n)) 61); [done|]. rewrite andb_false_r. rewrite Eb. by rewrite E2, T1, T0.
    + destruct (IH (d :: s)) as (IH1 & IH2 & IH3); [cbn in *; lia|done|done|].
      cbn [app]. set (rest := encode_loop (d :: s) ++ replicate (padding (d :: s)) 61) in *.
      split_and!; [| |done].
      * cbn [decode_loop]. destruct rest as [|r0 rest]; [done|]. rewrite L0, L1, L2, L3, Hv by done. cbn [negb].
        rewrite IH1. cbn [result_bind]. rewrite Ea. by rewrite T2, T1, T0.
      * rewrite !zlen_cons. replace (1 + (1 + (1 + (1 + zlen rest)))) with (zlen rest + 1 * 4) by lia.
        by rewrite Z.mod_add by lia.
Qed.

(** Base64 and hexadecimal text decode to the bytes they were made from,
    for any number of bytes. *)
Theorem text_roundtrip (s : bytes) (Hs : Forall is_byte s) :
  b64_decode (b64_encode s) = Ok s ∧ ∃ t, Hex.bin2hex s = Some t ∧ Hex.hex2bin t = Ok s.
Proof.
  split; [|by apply Hex.hex_roundtrip_lemma]. destruct s as [|a s]; [done|].
  destruct (decode_encode (length (a :: s)) (a :: s)) as (H1 & H2 & H3); [lia|done|done|].
  unfold b64_encode, b64_decode. destruct (encode_loop (a :: s) ++ replicate (padding (a :: s)) 61); [done|].
  by rewrite H2.
Qed.

Lemma text_roundtrip_witness :
  b64_decode (b64_encode [255; 239; 0; 17]) = Ok [255; 239; 0; 17] ∧
  ∃ t, Hex.bin2hex [255; 239; 0; 17] = Some t ∧ Hex.hex2bin t = Ok [255; 239; 0; 17].
Proof. apply (text_roundtrip [255; 239; 0; 17]). repeat constructor; discriminate. Defined.
End Base64.

(** ** Variable length integers *)

Module Varint.

(** The loop of [encode_uint] for a value of [w] bits. *)
Fixpoint encode_loop (fuel : nat) (v : Z) : option bytes :=
  match fuel with
  | O => None
  | S fuel =>
      let b := Z.land v 0x7f in
      let v := Z.shiftr v 7 in
      if v =? 0 then Some [Z.lxor (Z.lor 0x80 b) 0x80]
      else let! r := encode_loop fuel v in Some (Z.lor 0x80 b :: r)
  end.

(** The bytes are written to a buffer of [sizeof(value) * 8 / 7] bytes; [None]
    when they go past its end. *)
Definition encode_uint (w v : Z) : option bytes :=
  let! r := encode_loop (Z.to_nat w) v in
  if zlen r <=? w / 7 then Some r else None.

(** [value |= (b & 0x7f) << (7 * i)]: the shift is one of a 32-bit [int],
    undefined when the result does not fit in 32 bits. *)
Definition add_bits (w value b i : Z) : option Z :=
  let x := Z.shiftl (Z.land b 0x7f) (7 * i) in
  if (7 * i <? 32) && (x <? 2 ^ 32) then Some (Z.lor value (wrapu w (i32 x))) else None.

(** [decode_uint]: the value and the number of bytes used, or [Ok None] for -1. *)
Fixpoint decode_loop (w : Z) (limit : nat) (i value : Z) (s : bytes) : option (option (Z * Z)) :=
  match limit, s with
  | S limit, b :: s =>
      let! value := add_bits w value b i in
      if Z.land b 0x80 =? 0 then Some (Some (value, i + 1))
      else decode_loop w limit (i + 1) value s
  | _, _ => Some None
  end.

Definition decode_uint (w : Z) (s : bytes) : option (option (Z * Z)) :=
  decode_loop w (Z.to_nat (Z.min (zlen s) (Z.min 9 (w / 7)))) 0 0 s.

Lemma low7 v : 0 ≤ v → Z.land v 0x7f = v mod 128 ∧ Z.shiftr v 7 = v / 128.
Proof. intros. split; [by apply (Z.land_ones v 7)|by rewrite Z.shiftr_div_pow2]. Qed.

Lemma cont_byte b : 0 ≤ b < 128 → Z.land (Z.lor 0x80 b) 0x7f = b ∧ (Z.land (Z.lor 0x80 b) 0x80 =? 0) = false ∧
  Z.lxor (Z.lor 0x80 b) 0x80 = b ∧ Z.land b 0x7f = b ∧ (Z.land b 0x80 =? 0) = true.
Proof.
  intros Hb. pose proof (all_below 128 (λ b, (Z.land (Z.lor 0x80 b) 0x7f =? b) && negb (Z.land (Z.lor 0x80 b) 0x80 =? 0) &&
    (Z.lxor (Z.lor 0x80 b) 0x80 =? b) && (Z.land b 0x7f =? b) && (Z.land b 0x80 =? 0)) eq_refl b Hb) as H.
  cbv beta in H. repeat apply andb_true_iff in H as [H ?]. split_and!; lia.
Qed.

(** One more digit on top of a value below it. *)
Lemma add_bits_spec w value b i : 0 ≤ i → 0 ≤ value < 2 ^ (7 * i) → 0 ≤ b < 128 → b * 2 ^ (7 * i) < 2 ^ 28 → 28 ≤ w ∨ b * 2 ^ (7 * i) < 2 ^ w → 7 * i < 28 → 0 < w →
  ∀ c, Z.land c 0x7f = b → add_bits w value c i = Some (value + b * 2 ^ (7 * i)).
Proof.
  intros Hi Hv Hb Hlim Hw Hi28 Hw0 c Hc. unfold add_bits. rewrite Hc, Z.shiftl_mul_pow2 by lia.
  assert (2 ^ 28 < 2 ^ 31) by (apply Z.pow_lt_mono_r; lia). assert (2 ^ 31 < 2 ^ 32) by (apply Z.pow_lt_mono_r; lia).
  assert (0 < 2 ^ (7 * i)) by (apply Z.pow_pos_nonneg; lia). assert (0 ≤ b * 2 ^ (7 * i)) by nia.
  destruct (Z.ltb_spec (7 * i) 32); [|lia]. destruct (Z.ltb_spec (b * 2 ^ (7 * i)) (2 ^ 32)); [|lia]. cbn [andb].
  rewrite (wraps_id 32) by (change (32 - 1) with 31; lia). rewrite wrapu_id.
  2: { split; [done|]. destruct Hw as [Hw|Hw]; [|done]. assert (2 ^ 28 ≤ 2 ^ w) by (apply Z.pow_le_mono_r; lia). lia. }
  f_equal. apply Z.bits_inj'. intros j Hj. rewrite Z.lor_spec.
  destruct (Z.lt_ge_cases j (7 * i)).
  - rewrite (Z.mul_pow2_bits_low b) by lia. rewrite orb_false_r.
    rewrite <-(Z.mod_pow2_bits_low (value + b * 2 ^ (7 * i)) (7 * i) j) by lia. rewrite Z.mod_add by lia. by rewrite Z.mod_small.
  - rewrite (Base64.high_bit (7 * i) value) by lia. cbn [orb].
    assert (Z.testbit (value + b * 2 ^ (7 * i)) j = Z.testbit ((value + b * 2 ^ (7 * i)) / 2 ^ (7 * i)) (j - 7 * i)) as ->.
    { rewrite <-Z.shiftr_div_pow2, Z.shiftr_spec by lia. f_equal. lia. }
    rewrite Z.div_add, Z.div_small, Z.add_0_l by lia. rewrite <-(Z.mul_pow2_bits_add b (7 * i) (j - 7 * i)) by lia. f_equal; lia.
Qed.

(** Bytes of a value with [k] digits left. *)
Lemma varint_loop k : ∀ w fuel v i value, (0 < k)%nat → (k ≤ fuel)%nat → 0 ≤ v < 2 ^ (7 * Z.of_nat k) → 0 ≤ i →
  i + Z.of_nat k ≤ 4 → 0 ≤ value < 2 ^ (7 * i) → value + v * 2 ^ (7 * i) < 2 ^ w → 0 < w →
  ∃ r, encode_loop fuel v = Some r ∧ 1 ≤ zlen r ≤ Z.of_nat k ∧
    ∀ limit, (length r ≤ limit)%nat → decode_loop w limit i value r = Some (Some (value + v * 2 ^ (7 * i), i + zlen r)).
Proof.
  induction k as [|k IH]; intros w fuel v i value Hk Hf Hv Hi Hik Hval Hvw Hw; [lia|].
  destruct fuel as [|fuel]; [lia|]. cbn [encode_loop].
  destruct (low7 v) as [E1 E2]; [lia|]. rewrite E1, E2.
  pose proof (Z.mod_pos_bound v 128 ltac:(lia)) as Hm. pose proof (Z.div_mod v 128 ltac:(lia)) as Hdm.
  destruct (cont_byte (v mod 128) Hm) as (B1 & B2 & B3 & B4 & B5).
  assert (0 < 2 ^ (7 * i)) as Hp by (apply Z.pow_pos_nonneg; lia).
  assert (v mod 128 * 2 ^ (7 * i) < 2 ^ 28) as Hlim.
  { assert (2 ^ 28 = 2 ^ (28 - 7 * i) * 2 ^ (7 * i)) as -> by (rewrite <-Z.pow_add_r by lia; f_equal; lia).
    apply Z.mul_lt_mono_pos_r; [done|]. assert (2 ^ 7 ≤ 2 ^ (28 - 7 * i)) by (apply Z.pow_le_mono_r; lia). change (2 ^ 7) with 128 in *. lia. }
  assert (0 ≤ v / 128) by (apply Z.div_pos; lia).
  assert (∀ c, Z.land c 0x7f = v mod 128 → add_bits w value c i = Some (value + v mod 128 * 2 ^ (7 * i))) as Hadd.
  { intros c Hc. apply add_bits_spec; [lia|lia|lia|lia| |lia|lia|done]. right. nia. }
  destruct (Z.eqb_spec (v / 128) 0) as [E|E].
  - exists [v mod 128]. rewrite B3. split_and!; [done|unfold zlen; cbn [length]; lia..|]. intros limit Hl. destruct limit as [|limit]; [cbn in Hl; lia|].
    cbn [decode_loop]. rewrite Hadd by done. cbn [mbind option_bind]. rewrite B5. do 2 f_equal. f_equal.
    f_equal. rewrite Hdm at 2. by rewrite E.
  - assert (0 < k)%nat as Hk'.
    { destruct k as [|k]; [|lia]. change (7 * Z.of_nat 1) with 7 in Hv. destruct E. apply Z.div_small. change (2 ^ 7) with 128 in Hv. lia. }
    assert (2 ^ (7 * (i + 1)) = 128 * 2 ^ (7 * i)) as Hpi by (change 128 with (2 ^ 7); rewrite <-Z.pow_add_r by lia; f_equal; lia).
    destruct (IH w fuel (v / 128) (i + 1) (value + v mod 128 * 2 ^ (7 * i))) as (r & Er & Hr & Hd).
    + lia.
    + lia.
    + split; [done|]. apply Z.div_lt_upper_bound; [lia|]. change 128 with (2 ^ 7). rewrite <-Z.pow_add_r by lia.
      replace (7 + 7 * Z.of_nat k) with (7 * Z.of_nat (S k)) by lia. lia.
    + lia.
    + lia.
    + split; [nia|]. rewrite Hpi. nia.
    + rewrite Hpi. nia.
    + done.
    + rewrite Er. cbn [mbind option_bind]. exists (Z.lor 0x80 (v mod 128) :: r). rewrite zlen_cons. split_and!; [done|lia|lia|].
      intros limit Hl. destruct limit as [|limit]; [cbn in Hl; lia|]. cbn [decode_loop]. rewrite Hadd by done.
      cbn [mbind option_bind]. rewrite B2, Hd by (cbn in Hl; lia). do 2 f_equal. f_equal; [|lia].
      rewrite Hpi. nia.
Qed.

(** A value below 2^28 that fits the buffer reserved for its type is
    encoded into at most four bytes and decoded to itself, with the number of
    bytes it took. *)
Theorem varint_roundtrip (w v : Z) (Hw : w = 8 ∨ w = 16 ∨ w = 32 ∨ w = 64)
  (Hv : 0 ≤ v < 2 ^ (7 * Z.min 4 (w / 7))) :
  ∃ s, encode_uint w v = Some s ∧ zlen s ≤ 4 ∧ decode_uint w s = Some (Some (v, zlen s)).
Proof.
  set (k := Z.to_nat (Z.min 4 (w / 7))).
  assert (1 ≤ Z.min 4 (w / 7) ≤ 4 ∧ 7 * Z.min 4 (w / 7) ≤ w ∧ Z.min 4 (w / 7) ≤ w / 7 ∧ Z.min 4 (w / 7) ≤ 9 ∧ 0 < w ∧ (k ≤ Z.to_nat w)%nat) as (H1 & H2 & H3 & H4 & H5 & H6).
  { unfold k. destruct Hw as [->|[->|[->| ->]]]; split_and!;
      solve [apply Z.leb_le; reflexivity|apply Z.ltb_lt; reflexivity|apply Nat.leb_le; reflexivity]. }
  assert (2 ^ (7 * Z.min 4 (w / 7)) ≤ 2 ^ w) by (apply Z.pow_le_mono_r; lia).
  destruct (varint_loop k w (Z.to_nat w) v 0 0) as (r & Er & Hr & Hd); unfold k in *; rewrite ?Z2Nat.id by lia; try lia.
  rewrite Z2Nat.id in Hr by lia. exists r. unfold encode_uint. rewrite Er. cbn [mbind option_bind].
  destruct (Z.leb_spec (zlen r) (w / 7)); [|lia]. split_and!; [done|lia|].
  unfold decode_uint. rewrite Hd; [do 2 f_equal; f_equal; cbn; lia|]. unfold zlen in *. lia.
Qed.

Lemma varint_roundtrip_witness :
  ∃ s, encode_uint 32 300000 = Some s ∧ zlen s ≤ 4 ∧ decode_uint 32 s = Some (Some (300000, zlen s)).
Proof. apply (varint_roundtrip 32 300000); [auto|]. vm_compute. split; [discriminate|reflexivity]. Defined.

(** Values of the type that need one more byte are written past the buffer. *)
Lemma varint_overflow : encode_uint 8 128 = None ∧ encode_uint 32 (2 ^ 28) = None ∧ encode_uint 64 (2 ^ 63) = None.
Proof. vm_compute. done. Qed.

(** Decoding a 64-bit value of more than five bytes shifts an [int] too far. *)
Lemma varint_shift : ∃ s, encode_uint 64 (2 ^ 40) = Some s ∧ decode_uint 64 s = None.
Proof. eexists. split; [vm_compute; reflexivity|vm_compute; reflexivity]. Qed.
End Varint.

(** ** Decimal floating point numbers *)

Module Decimal128.

Record decimal := Dec { lo : Z; hisig : Z; combination : Z; sign : Z }.
Record unpacked := Unpacked { u_sign : Z; u_exponent : Z; u_hi : Z; u_lo : Z }.

Definition exp_inf : Z := 10000.
Definition exp_nan : Z := 10001.
Definition exp_snan : Z := 10002.
Definition exp_min : Z := -6176.
Definition exp_max : Z := 6111.
Definition hisig_max : Z := 0x1ed09bead87c0.

Definition high_mask : Z := Z.shiftl 0xc0 6.
Definition inf_value : Z := Z.shiftl 0xf0 6.
Definition inf_mask : Z := Z.shiftl 0xf8 6.
Definition nan_value : Z := Z.shiftl 0xf8 6.
Definition nan_mask : Z := Z.shiftl 0xfc 6.
Definition snan_value : Z := Z.shiftl 0xfc 6.
Definition snan_mask : Z := Z.shiftl 0xfc 6.

Definition unpack (d : decimal) : unpacked :=
  if Z.land (combination d) high_mask =? high_mask then
    Unpacked (sign d)
      (if Z.land (combination d) inf_mask =? inf_value then exp_inf
       else if Z.land (combination d) nan_mask =? nan_value then exp_nan
       else if Z.land (combination d) snan_mask =? snan_value then exp_snan
       else 0) 0 0
  else Unpacked (sign d) (combination d + exp_min) (hisig d) (lo d).

(** [pack] into a number that has some value already; the bit fields take 1,
    14 and 49 bits. *)
Definition pack (d : decimal) (u : unpacked) : decimal * result errno () :=
  let e := u_exponent u in
  if e >? exp_max then
    let zero := Dec 0 0 0 0 in
    if e =? exp_inf then (Dec 0 0 inf_value (wrapu 1 (u_sign u)), Ok tt)
    else if e =? exp_nan then (Dec 0 0 nan_value 0, Ok tt)
    else if e =? exp_snan then (Dec 0 0 snan_value 0, Ok tt)
    else (zero, Err ERANGE)
  else if e <? exp_min then (d, Err ERANGE)
  else if u_hi u >? hisig_max then (d, Err ERANGE)
  else (Dec (u_lo u) (wrapu 49 (u_hi u)) (wrapu 14 (e - exp_min)) (wrapu 1 (u_sign u)), Ok tt).

(** The constructor: what cannot be packed becomes NaN. *)
Definition make (u : unpacked) : decimal :=
  match pack (Dec 0 0 0 0) u with
  | (d, Ok _) => d
  | (d, Err _) => fst (pack d (Unpacked 0 exp_nan 0 0))
  end.

Definition isnan (d : decimal) : bool :=
  let e := u_exponent (unpack d) in (e =? exp_nan) || (e =? exp_snan).
Definition isinf (d : decimal) : bool := u_exponent (unpack d) =? exp_inf.

(** Numbers that can be packed. *)
Definition packable (u : unpacked) : Prop :=
  (0 ≤ u_sign u < 2) ∧ exp_min ≤ u_exponent u ≤ exp_max ∧ 0 ≤ u_hi u ≤ hisig_max ∧ 0 ≤ u_lo u < 2 ^ 64.

(** Ordinary combinations are below the mask of the special ones. *)
Lemma high_combination c : 0 ≤ c < 12288 → (Z.land c high_mask =? high_mask) = false.
Proof.
  intros Hc. apply Z.eqb_neq. intros E. change high_mask with (Z.lor (2 ^ 13) (2 ^ 12)) in E.
  assert (Z.testbit c 13 = true ∧ Z.testbit c 12 = true) as [H13 H12].
  { split; [apply (f_equal (λ z, Z.testbit z 13)) in E|apply (f_equal (λ z, Z.testbit z 12)) in E];
      rewrite Z.land_spec in E; by apply andb_true_iff in E as [? _]. }
  destruct (Z.lt_ge_cases c 8192) as [Hlt|Hge]; [by rewrite (Base64.high_bit 13) in H13 by (change (2 ^ 13) with 8192; lia)|].
  assert (Z.testbit (c - 8192) 12 = true) as H.
  { rewrite <-H12. rewrite <-(Z.mod_pow2_bits_low c 13 12), <-(Z.mod_pow2_bits_low (c - 8192) 13 12) by lia.
    f_equal. change (2 ^ 13) with 8192. replace c with (c - 8192 + 1 * 8192) at 2 by lia. by rewrite Z.mod_add by lia. }
  by rewrite (Base64.high_bit 12) in H by (change (2 ^ 12) with 4096; lia).
Qed.

(** Decimal numbers: what [pack] accepts is what [unpack] gives back, sign,
    exponent and all digits; infinities and NaN are kept apart from numbers
    and from each other; every other exponent or mantissa is refused with
    ERANGE, and the constructor makes NaN of it. *)
Theorem decimal_roundtrip (d : decimal) (u : unpacked) :
  (packable u → ∃ d', pack d u = (d', Ok tt) ∧ unpack d' = u ∧ isnan d' = false ∧ isinf d' = false) ∧
  (u_exponent u = exp_inf → ∃ d', pack d u = (d', Ok tt) ∧ isinf d' = true ∧ isnan d' = false ∧ sign d' = u_sign u mod 2) ∧
  (u_exponent u = exp_nan ∨ u_exponent u = exp_snan → ∃ d', pack d u = (d', Ok tt) ∧ isnan d' = true ∧ isinf d' = false ∧
     u_exponent (unpack d') = u_exponent u) ∧
  ((u_exponent u < exp_min ∨ exp_max < u_exponent u ∨ hisig_max < u_hi u) → ¬ exp_inf ≤ u_exponent u ≤ exp_snan →
     (∃ d', pack d u = (d', Err ERANGE)) ∧ isnan (make u) = true).
Proof.
  destruct u as [s e hi l]; unfold packable, exp_min, exp_max, hisig_max; cbn [u_sign u_exponent u_hi u_lo].
  split_and!.
  - intros (Hs & He & Hhi & Hlo). unfold pack; cbn [u_sign u_exponent u_hi u_lo]. unfold exp_min, exp_max, hisig_max.
    rewrite !Z.gtb_ltb. tests. rewrite (wrapu_id 1), (wrapu_id 14), (wrapu_id 49) by (cbn; lia).
    eexists. split; [done|]. assert (unpack (Dec l hi (e - -6176) s) = Unpacked s e hi l) as E.
    { unfold unpack; cbn [combination sign hisig lo]. rewrite high_combination by lia. f_equal. unfold exp_min. lia. }
    split; [done|]. unfold isnan, isinf. rewrite E; cbn [u_exponent]. unfold exp_nan, exp_snan, exp_inf. by tests.
  - intros ->. eexists. split; [done|]. split_and!; [done|done|]. cbn. unfold wrapu. done.
  - intros [-> | ->]; (eexists; split; [done|]); by split_and!.
  - intros Hbad Hspec. unfold exp_inf, exp_snan in Hspec.
    assert (∀ d, ∃ d', pack d (Unpacked s e hi l) = (d', Err ERANGE)) as Hp.
    { intros d0. unfold pack; cbn [u_sign u_exponent u_hi u_lo]. unfold exp_min, exp_max, hisig_max, exp_inf, exp_nan, exp_snan.
      rewrite !Z.gtb_ltb. destruct (Z.ltb_spec 6111 e); [tests; eauto|]. destruct (Z.ltb_spec e (-6176)); [eauto|].
      destruct (Z.ltb_spec 0x1ed09bead87c0 hi); [eauto|lia]. }
    split; [apply Hp|]. unfold make. destruct (Hp (Dec 0 0 0 0)) as [d' ->]. done.
Qed.

(** The mantissa is checked by its upper half only: 10^34, a digit too many, is
    accepted. *)
Lemma decimal_too_long : let u := Unpacked 0 0 (10 ^ 34 / 2 ^ 64) (10 ^ 34 mod 2 ^ 64) in
  ∃ d, pack (Dec 0 0 0 0) u = (d, Ok tt).
Proof. eexists. vm_compute. reflexivity. Qed.
End Decimal128.
