(* ===== verification/Yaml.v ===== *)
(** * Loading of configuration

    src/config/yaml.cc: the machine that builds a configuration from the events of a YAML parser, and the
    part of src/config/config.cc on top of it: the table of protocols, imports and urls.

    The parser itself (libyaml), decompression (zlib), the files and loaders registered by
    others are parameters.  A configuration is a node of a heap of [Config];
    [f] is the depth of recursion its operations may use.  The text of the messages to the log is left out. *)
From S2P Require Import Prelude Conv Text Encode Config.

Module Yaml.
Import Conv Config.

(** [yaml_event_t]; the start of the stream and both ends of a document change nothing. *)
Inductive event :=
| StreamStart | StreamEnd | DocumentStart | DocumentEnd | NoEvent
| Alias (name : bytes)
| Scalar (anchor tag : option bytes) (v : bytes)
| SequenceStart (anchor : option bytes) | SequenceEnd
| MappingStart (anchor : option bytes) | MappingEnd.

(** [variant_t]: nothing, the next index of a list, a key that waits for its value, the key of a merge. *)
Inductive variant_t := KNone | KIndex (i : Z) | KName (s : bytes) | KMerge.

#[global] Instance variant_eq_dec : EqDecision variant_t.
Proof. solve_decision. Defined.

(** [Frame], without the path for the log. *)
Record Frame := MkFrame { fr_cfg : Z; fr_key : variant_t; fr_merge : option Z }.

(** [state_t] with the heap its configurations live in. *)
Record state := State {
  hp : heap;
  cfg : Z;
  stack : list Frame;
  key : variant_t;
  merged : option Z;
  anchors : gmap bytes Z;
}.

Definition with_heap h st := State h (cfg st) (stack st) (key st) (merged st) (anchors st).
Definition with_key k st := State (hp st) (cfg st) (stack st) k (merged st) (anchors st).

(** [snprintf("%04zd")] *)
Definition index_name (i : Z) : option bytes :=
  let! ds := to_string_uint10 64 i in Some (replicate (4 - length ds) 48 ++ ds).

(** [key_string]: the name of the next value and what is left of the key. *)
Definition key_string (k : variant_t) : option (bytes * variant_t) :=
  match k with
  | KNone => Some ([], KNone)
  | KIndex i => let! s := index_name i in Some (s, KIndex (u64 (i + 1)))
  | KName s => Some (s, KNone)
  | KMerge => Some (str "<<", KNone)
  end.

(** [anchor(name, cfg)] *)
Definition set_anchor (name : option bytes) (c : Z) (st : state) : state :=
  match name with
  | None => st
  | Some a => State (hp st) (cfg st) (stack st) (key st) (merged st) (<[a := c]> (anchors st))
  end.

Definition tag_binary : bytes := str "tag:yaml.org,2002:binary".
Definition tag_merge : bytes := str "tag:yaml.org,2002:merge".
Definition tag_link : bytes := str "!link".

(** ** Events *)

Definition on_alias (f : nat) (name : bytes) (st : state) : option (result errno state) :=
  match anchors st !! name with
  | None => Some (Err ENOENT)
  | Some a =>
      match key st with
      | KNone => Some (Err EINVAL)
      | KMerge =>
          let! (h, c) := tll_config_copy f (hp st) a in
          Some (Ok (State h (cfg st) (stack st) KNone (Some c) (anchors st)))
      | _ =>
          let! (k, key') := key_string (key st) in
          let! (h, c) := tll_config_copy f (hp st) a in
          let! (h, _) := tll_config_set_config f h (cfg st) k c in
          Some (Ok (with_key key' (with_heap h st)))
      end
  end.

(** The end of a mapping or of a sequence. *)
Definition on_end (f : nat) (st : state) : option (result errno state) :=
  match stack st with
  | [] => Some (Ok st)
  | fr :: rest =>
      let! h := match merged st with
                | Some m => merge f (hp st) (cfg st) m false
                | None => Some (hp st)
                end in
      let '(key, merged) := match fr_key fr with KMerge => (KNone, Some (cfg st)) | k => (k, fr_merge fr) end in
      Some (Ok (State h (fr_cfg fr) rest key merged (anchors st)))
  end.

(** The start of one; [first] is the new key. *)
Definition on_start (f : nat) (anchor : option bytes) (first : variant_t) (st : state) : option (result errno state) :=
  let! r := match key st with
            | KMerge => let '(h, c) := tll_config_new (hp st) in Some (h, Some c, KMerge)
            | KNone => Some (hp st, Some (cfg st), KNone)
            | _ =>
                let! (k, key') := key_string (key st) in
                let! (h, sub) := find_create f (hp st) (cfg st) (split_path k) true in
                Some (h, sub, key')
            end in
  match r with
  | (_, None, _) => Some (Err EINVAL)
  | (h, Some c, key') =>
      let st := State h c (MkFrame (cfg st) key' (merged st) :: stack st) (key st) (merged st) (anchors st) in
      Some (Ok (with_key first (set_anchor anchor c st)))
  end.

(** The value is stored as its tag says. *)
Definition store {host : Host} (f : nat) (h : heap) (c : Z) (k : bytes) (tag : option bytes) (v : bytes) : option (heap * rc) :=
  match tag with
  | None => tll_config_set f h c (Some k) v
  | Some t =>
      if bool_decide (t = tag_binary) then
        match Base64.b64_decode v with
        | Err _ => Some (h, Err EINVAL)
        | Ok r => tll_config_set f h c (Some k) r
        end
      else if bool_decide (t = tag_link) then tll_config_set_link f h c k v
      else Some (h, Err EINVAL)
  end.

Definition on_scalar {host : Host} (f : nat) (anchor tag : option bytes) (v : bytes) (st : state) : option (result errno state) :=
  match key st with
  | KNone =>
      Some (Ok (with_key (if bool_decide (tag = Some tag_merge) || bool_decide (v = str "<<") then KMerge else KName v) st))
  | k =>
      let! (k, key') := key_string k in
      let! (h, sub) := find_create f (hp st) (cfg st) (split_path k) true in
      match sub with
      | None => Some (Err EINVAL)
      | Some s =>
          let! b := has_value f h s in
          if (b : bool) then Some (Err EINVAL) else
          let! (h, r) := store f h (cfg st) k tag v in
          match r with
          | Err _ => Some (Err EINVAL)
          | Ok _ =>
              let st := with_key key' (with_heap h st) in
              match anchor with
              | None => Some (Ok st)
              | Some _ =>
                  let! (_, sub) := find_create f h (cfg st) (split_path k) false in
                  let! c := sub in
                  Some (Ok (set_anchor anchor c st))
              end
          end
      end
  end.

(** [parse] *)
Definition parse {host : Host} (f : nat) (e : event) (st : state) : option (result errno state) :=
  match e with
  | StreamStart | StreamEnd | DocumentStart | DocumentEnd | NoEvent => Some (Ok st)
  | Alias name => on_alias f name st
  | MappingEnd | SequenceEnd => on_end f st
  | SequenceStart a => on_start f a (KIndex 0) st
  | MappingStart a => on_start f a KNone st
  | Scalar a t v => on_scalar f a t v st
  end.

(** The loop of [yaml_parse]; no event is an error of the parser.  A parser goes on until it fails or the stream ends. *)
Fixpoint parse_loop {host : Host} (f : nat) (es : list (option event)) (st : state) : option (result errno state) :=
  match es with
  | [] => None
  | None :: _ => Some (Err EINVAL)
  | Some StreamEnd :: _ => Some (Ok st)
  | Some e :: es =>
      let! r := parse f e st in
      match r with
      | Ok st => parse_loop f es st
      | Err _ => Some (Err EINVAL)
      end
  end.

(** The state before the first event. *)
Definition start (h : heap) : state :=
  let '(h, c) := tll_config_new h in State h c [] KNone None ∅.

(** A function that gives a configuration or a null pointer. *)
Definition loaded : Type := option (heap * result errno Z).

Definition yaml_parse {host : Host} (f : nat) (h : heap) (es : list (option event)) : loaded :=
  let! r := parse_loop f es (start h) in
  Some (match r with Ok st => (hp st, Ok (cfg st)) | Err _ => (h, Err EINVAL) end).

(** ** Protocols *)

(** Loaders of the table; those of others are known by a number. *)
Inductive loader := LUrl | LProps | LYaml | LYamls | LYamlsGz | LUser (n : Z).

#[global] Instance loader_eq_dec : EqDecision loader.
Proof. solve_decision. Defined.

Definition context_t : Type := gmap bytes loader.

Definition context_new : context_t :=
  list_to_map [(str "url", LUrl); (str "props", LProps); (str "yaml", LYaml); (str "yamls", LYamls); (str "yamls+gz", LYamlsGz)].

Definition reg (prefix : bytes) (l : loader) (x : context_t) : context_t * rc :=
  match x !! prefix with
  | Some _ => (x, Err EEXIST)
  | None => (<[prefix := l]> x, ok)
  end.

Definition unreg (prefix : bytes) (l : loader) (x : context_t) : context_t * rc :=
  match x !! prefix with
  | None => (x, Err ENOENT)
  | Some o => if bool_decide (o ≠ l) then (x, Err EINVAL) else (delete prefix x, ok)
  end.

Section load.
Context {host : Host} (libyaml : bytes → list (option event)) (decompress : bytes → option bytes) (files : bytes → option bytes)
  (user : Z → bytes → heap → loaded).

Definition yaml_load (f : nat) (h : heap) (filename : bytes) : loaded :=
  match files filename with
  | None => Some (h, Err EINVAL)
  | Some data => yaml_parse f h (libyaml data)
  end.

Definition yaml_load_data (f : nat) (h : heap) (data : bytes) : loaded :=
  match data with
  | [] => let '(h, c) := tll_config_new h in Some (h, Ok c)
  | _ => yaml_parse f h (libyaml data)
  end.

(** Errors of urls become a null pointer. *)
Definition or_null {E} (r : heap * result E Z) : heap * result errno Z :=
  (r.1, match r.2 with Ok c => Ok c | Err _ => Err EINVAL end).

Definition load_with (l : loader) (f : nat) (h : heap) (data : bytes) : loaded :=
  match l with
  | LProps => let! r := parse_props f h data in Some (or_null r)
  | LUrl => let! r := parse_url f h data in Some (or_null r)
  | LYaml => yaml_load f h data
  | LYamls => yaml_load_data f h data
  | LYamlsGz =>
      match Base64.b64_decode data with
      | Err _ => Some (h, Err EINVAL)
      | Ok zbin =>
          match decompress zbin with
          | None => Some (h, Err EINVAL)
          | Some bin => yaml_load_data f h bin
          end
      end
  | LUser n => user n data h
  end.

(** [load(proto, data)] and [load(url)] *)
Definition load_data (x : context_t) (f : nat) (h : heap) (proto data : bytes) : loaded :=
  match x !! proto with
  | None => Some (h, Err EINVAL)
  | Some l => load_with l f h data
  end.

Definition load (x : context_t) (f : nat) (h : heap) (s : bytes) : loaded :=
  match Find.find_sub (str "://") s with
  | None => Some (h, Err EINVAL)
  | Some sep => load_data x f h (take sep s) (drop (sep + 3) s)
  end.

(** ** Imports *)
Section call.
Context (call : Z → option bytes).

(** The texts of the imports, last name first. *)
Definition import_text (d : value) : option bytes :=
  match d with VStr s => Some s | VCb cb => call cb | _ => None end.

Fixpoint import_list (h : heap) (l : list (bytes * Z)) (acc : list bytes) : option (list bytes) :=
  match l with
  | [] => Some acc
  | (_, c) :: l =>
      let! x := nodes h !! c in
      import_list h l (match import_text (data x) with Some s => s :: acc | None => acc end)
  end.

(** [process_imports(path, parents)] *)
Fixpoint process_imports (d : nat) (x : context_t) (f : nat) (h : heap) (this : Z) (path : bytes) (parents : list bytes) : option (heap * rc) :=
  match d with
  | O => None
  | S d =>
      let! (h, icfg) := find_create f h this (split_path path) false in
      match icfg with
      | None => Some (h, ok)
      | Some i =>
          let! y := nodes h !! i in
          let! l := import_list h (sorted_kids (kids y)) [] in
          (fix loop (l : list bytes) (h : heap) : option (heap * rc) :=
             match l with
             | [] => Some (h, ok)
             | i :: l =>
                 if bool_decide (i ∈ parents) then Some (h, Err EINVAL) else
                 let! (h, c) := load x f h i in
                 match c with
                 | Err _ => Some (h, Err EINVAL)
                 | Ok c =>
                     let! (h, r) := process_imports d x f h c path (parents ++ [i]) in
                     match r with
                     | Err _ => Some (h, Err EINVAL)
                     | Ok _ => let! h := merge f h this c false in loop l h
                     end
                 end
             end) l h
      end
  end.

Definition tll_config_process_imports (d : nat) (x : context_t) (f : nat) (h : heap) (c : Z) (path : bytes) : option (heap * rc) :=
  process_imports d x f h c path [].

(** ** Urls of a configuration *)
Inductive get_url_error := BothUrl | UrlInvalid (e : url_error) | DuplicateKey (k : bytes) | NullConfig | MissingSubtree.

(** The callback of the walk over the tree, for the nodes in the order of the walk: the walk reads the configuration and the
    callback changes the result, which is another tree. *)
Fixpoint copy_values (f : nat) (h : heap) (result : Z) (l : list (bytes * Z)) : option (heap * option bytes) :=
  match l with
  | [] => Some (h, None)
  | (k, n) :: l =>
      if bool_decide (k = str "url") then copy_values f h result l else
      let! v := get call f h n in
      match v with
      | None => copy_values f h result l
      | Some v =>
          let! (h, sub) := find_create f h result (split_path k) true in
          let! s := sub in
          let! old := get call f h s in
          match old with
          | Some _ => Some (h, Some k)
          | None => copy_values f (set_data (VStr v) s h) result l
          end
      end
  end.

Definition _get_url (f : nat) (h : heap) (c : Z) : option (heap * result get_url_error Z) :=
  let! proto := get_key call f h c (str "tll.proto") in
  match proto with
  | Some _ => let! (h, r) := tll_config_copy f h c in Some (h, Ok r)
  | None =>
      let! url := get_key call f h c (str "url") in
      let! s := get call f h c in
      let parsed text := let! (h, r) := parse_url f h text in
                         Some (h, match r with Ok r => Ok r | Err e => Err (UrlInvalid e) end) in
      let! (h, r) := (match url, s with
                      | Some _, Some _ => Some (h, Err BothUrl)
                      | Some text, None | None, Some text => parsed text
                      | None, None => let '(h, r) := tll_config_new h in Some (h, Ok r)
                      end : option (heap * result get_url_error Z)) in
      match r with
      | Err e => Some (h, Err e)
      | Ok r =>
          let! b := browse (λ _ _, 0) h f c (str "**") in
          let! (h, dup) := copy_values f h r (match b with Ok (l, _) => l | Err _ => [] end) in
          Some (h, match dup with Some ((_ :: _) as k) => Err (DuplicateKey k) | _ => Ok r end)
      end
  end.

(** [tll_config_get_url]: an error becomes the value of a new configuration; [text] gives the message. *)
Definition tll_config_get_url (text : get_url_error → bytes) (f : nat) (h : heap) (c : option Z) (path : option bytes) : option (heap * Z) :=
  let fail h e := let '(h, r) := tll_config_new h in (set_data (VStr (text e)) r h, r) in
  match c with
  | None => Some (fail h NullConfig)
  | Some c =>
      let! sub := match path with Some p => find f h c (split_path p) | None => Some (Some c) end in
      match sub with
      | None => Some (fail h MissingSubtree)
      | Some c =>
          let! (h, r) := _get_url f h c in
          Some (match r with Ok r => (h, r) | Err e => fail h e end)
      end
  end.
End call.
End load.
End Yaml.
