(* ===== verification/YamlSpec.v ===== *)
(** * What a loaded document is

    A document becomes the map of its values: the assignments it stands for, made one after the other. *)
From S2P Require Import Prelude Conv Text Encode Config ConfigSpec Yaml.

Module YamlSpec.
Import Conv Config ConfigSpec Yaml.

(** ** Documents *)

(** A document without anchors, tags and merges. *)
Inductive doc :=
| DScalar (v : bytes)
| DSeq (l : list doc)
| DMap (l : list (bytes * doc)).

Section induction.
Context (P : doc → Prop) (Hs : ∀ v, P (DScalar v)) (Hq : ∀ l, Forall P l → P (DSeq l)) (Hm : ∀ l, Forall (λ kd, P kd.2) l → P (DMap l)).

Fixpoint doc_induction (d : doc) : P d :=
  match d with
  | DScalar v => Hs v
  | DSeq l => Hq l ((fix go l : Forall P l := match l with [] => Forall_nil_2 _ | d :: l => Forall_cons_2 _ _ _ (doc_induction d) (go l) end) l)
  | DMap l => Hm l ((fix go l : Forall (λ kd, P kd.2) l :=
                       match l with [] => Forall_nil_2 _ | d :: l => Forall_cons_2 _ _ _ (doc_induction d.2) (go l) end) l)
  end.
End induction.

(** The events a parser gives for it. *)
Fixpoint events (d : doc) : list event :=
  match d with
  | DScalar v => [Scalar None None v]
  | DSeq l => SequenceStart None :: concat (map events l) ++ [SequenceEnd]
  | DMap l => MappingStart None :: concat (map (λ '(k, d), Scalar None None k :: events d) l) ++ [MappingEnd]
  end.

(** The assignments of a document below a path: a node without value or a value, in the order of the text. *)
Definition number (i : nat) : bytes := default [] (index_name (Z.of_nat i)).

Fixpoint assigns (d : doc) (p : list bytes) : list (list bytes * option bytes) :=
  match d with
  | DScalar v => [(p, Some v)]
  | DSeq l => (p, None) :: concat (imap (λ i a, a (p ++ split_path (number i))) (map assigns l))
  | DMap l => (p, None) :: concat (map (λ '(k, d), assigns d (p ++ split_path k)) l)
  end.

(** The map after an assignment: a second value for the same path is refused. *)
Definition assign (T : tree) (a : list bytes * option bytes) : option tree :=
  let T' := tree_make T a.1 in
  match a.2 with
  | None => Some T'
  | Some v =>
      match T a.1 with
      | None | Some VNone => Some (tree_put (VStr v) T' a.1)
      | Some _ => None
      end
  end.

Fixpoint assign_all (T : tree) (l : list (list bytes * option bytes)) : option tree :=
  match l with
  | [] => Some T
  | a :: l => let! T := assign T a in assign_all T l
  end.

(** Keys are not merges, and the recursion may go as deep as their paths. *)
Fixpoint doc_ok (f : nat) (d : doc) : Prop :=
  match d with
  | DScalar _ => True
  | DSeq l => Z.of_nat (length l) < 2 ^ 64 - 1 ∧ fold_right and True (map (doc_ok f) l)
  | DMap l => fold_right and True (map (λ '(k, d), k ≠ str "<<" ∧ (length (split_path k) < f)%nat ∧ doc_ok f d) l)
  end.

(** ** Maps up to pointwise equality *)
Definition same (o o' : option tree) : Prop :=
  match o, o' with
  | Some T, Some T' => ∀ q, T q = T' q
  | None, None => True
  | _, _ => False
  end.

Lemma assign_ext T T' a : (∀ q, T q = T' q) → same (assign T a) (assign T' a).
Proof.
  intros HT. assert (∀ q, tree_make T a.1 q = tree_make T' a.1 q) as HM by (intros q; unfold tree_make; by rewrite HT).
  unfold assign, same. rewrite HT. destruct a.2; [|done]. unfold tree_put.
  destruct (T' a.1) as [[]|]; try done; intros q; by rewrite HM.
Qed.

Lemma assign_all_ext l : ∀ T T', (∀ q, T q = T' q) → same (assign_all T l) (assign_all T' l).
Proof.
  induction l as [|a l IH]; intros T T' HT; [done|]. cbn. pose proof (assign_ext T T' a HT) as Ha.
  destruct (assign T a), (assign T' a); cbn in *; try done. by apply IH.
Qed.

Lemma assign_all_app T l k : assign_all T (l ++ k) = (let! T := assign_all T l in assign_all T k).
Proof. revert T. induction l as [|a l IH]; intros T; [done|]. cbn. destruct (assign T a); [apply IH|done]. Qed.

(** ** Operations below a node *)

(** Nodes keep their places. *)
Definition grows (h h' : heap) : Prop := ∀ a k b, step h a k = Some b → step h' a k = Some b.

Lemma grows_walk h h' n p m : grows h h' → walk h n p = Some m → walk h' n p = Some m.
Proof.
  intros Hs. revert n. induction p as [|k p IH]; intros n; [done|]. cbn. destruct (step h n k) as [c|] eqn:E; [|done].
  rewrite (Hs _ _ _ E). apply IH.
Qed.

Lemma heap_grows_trans h1 h2 h3 : grows h1 h2 → grows h2 h3 → grows h1 h3.
Proof. unfold grows. auto. Qed.

Lemma grows_set_data d m h : grows h (set_data d m h).
Proof.
  intros a k b Hs. apply step_Some in Hs as (x & Hx & Hk). apply step_Some. unfold set_data. rewrite alter_lookup.
  case_decide; subst; [rewrite Hx; cbn; eauto|eauto].
Qed.

Lemma grows_leaf h n m k : wf h → step h m k = None → m < next_id h →
  grows h (set_kids (insert k n) m (alloc (Some m) h).1).
Proof.
  intros Hwf Hs Hm a k' b Hst. apply step_Some in Hst as (x & Hx & Hk). apply step_Some. unfold set_kids. rewrite alter_lookup.
  pose proof (wf_next _ Hwf _ _ Hx). unfold step in Hs. case_decide; subst; cbn; rewrite lookup_insert_ne by lia.
  - rewrite Hx in Hs |- *. cbn in *. eexists. split; [done|]. cbn. rewrite lookup_insert_ne; [done|]. intros ->. congruence.
  - eauto.
Qed.

Lemma create_grows rest : ∀ h n pre m h' c, good h n → walk h n pre = Some m →
  (∀ k r, rest = k :: r → step h m k = None) → create_loop h m rest = Some (h', c) → grows h h'.
Proof.
  induction rest as [|k rest IH]; intros h n pre m h' c Hg Hw Hrest; [cbn; by intros [= <- <-] a k b|].
  pose proof (Hrest k rest eq_refl) as Hs. destruct (good_walk h n pre m Hg Hw) as [x Hx].
  destruct (add_leaf h n pre m k Hg Hw Hs) as (Hg1 & Hw1 & Hs1 & _).
  cbn [create_loop]. rewrite Hx. cbn [mbind option_bind].
  assert (kids x !! k = None) as -> by (unfold step in Hs; by rewrite Hx in Hs). cbn [alloc]. intros Hc.
  eapply heap_grows_trans; [|eapply IH; [exact Hg1|exact Hw1| |exact Hc]; by intros; apply Hs1].
  apply grows_leaf; [apply Hg|done|]. by eapply wf_next; [apply Hg|].
Qed.

Lemma make_at f h n pre m p : good h n → walk h n pre = Some m → (length p < f)%nat →
  ∃ h' c, find_create f h m p true = Some (h', Some c) ∧ good h' n ∧ grows h h' ∧ walk h' n (pre ++ p) = Some c ∧
    ∀ q, view h' n q = tree_make (view h n) (pre ++ p) q.
Proof.
  intros Hg Hw Hf. destruct (good_walk h n pre m Hg Hw) as [x Hx].
  destruct (lookup_plain h p (g_wf _ _ Hg) (g_plain _ _ Hg) f m) as (p1 & rest & i & -> & Hw1 & Hl & Hrest); [by eexists|done|].
  assert (walk h n (pre ++ p1) = Some i) as Hi by (by rewrite walk_app, Hw).
  destruct (create_spec rest h n (pre ++ p1) i Hg Hi Hrest) as (h' & c & Hc & Hg' & Hw' & Hv').
  pose proof (create_grows rest h n (pre ++ p1) i h' c Hg Hi Hrest Hc) as Hgr. rewrite <-app_assoc in Hw', Hv'.
  exists h', c. unfold find_create. rewrite Hl. cbn [mbind option_bind]. split; [|done].
  destruct rest; [cbn in Hc; by injection Hc as <- <-|by rewrite Hc].
Qed.

Lemma has_value_plain f h n x : plain h → nodes h !! n = Some x → (0 < f)%nat → has_value f h n = Some (negb (bool_decide (data x = VNone))).
Proof. intros Hp Hx Hf. destruct f; [lia|]. cbn. rewrite Hx. cbn. specialize (Hp _ _ Hx). by destruct (data x). Qed.

(** A value is set once. *)
Lemma scalar_at {host : Host} f n pre k key' v st : good (hp st) n → walk (hp st) n pre = Some (cfg st) → (length (split_path k) < f)%nat →
  key st ≠ KNone → key_string (key st) = Some (k, key') →
  match assign (view (hp st) n) (pre ++ split_path k, Some v) with
  | None => on_scalar f None None v st = Some (Err EINVAL)
  | Some T => ∃ h', on_scalar f None None v st = Some (Ok (with_key key' (with_heap h' st))) ∧ good h' n ∧ grows (hp st) h' ∧
      ∀ q, view h' n q = T q
  end.
Proof.
  intros Hg Hw Hf Hk Hks. destruct (make_at f _ n pre _ (split_path k) Hg Hw Hf) as (h1 & c & Hm & Hg1 & Hgr1 & Hw1 & Hv1).
  destruct (good_walk h1 n _ c Hg1 Hw1) as [x Hx].
  assert (on_scalar f None None v st =
    if negb (bool_decide (data x = VNone)) then Some (Err EINVAL)
    else let! (h, r) := store f h1 (cfg st) k None v in
         match r with Err _ => Some (Err EINVAL) | Ok _ => Some (Ok (with_key key' (with_heap h st))) end) as ->.
  { unfold on_scalar. destruct (key st) eqn:E; [done|..]; rewrite Hks; cbn [mbind option_bind]; rewrite Hm; cbn [mbind option_bind];
      rewrite (has_value_plain f h1 c x (g_plain _ _ Hg1) Hx) by lia; by destruct (bool_decide _). }
  assert (view h1 n (pre ++ split_path k) = Some (data x)) as Hd by (unfold view; rewrite Hw1; cbn; by rewrite Hx).
  rewrite Hv1 in Hd. unfold tree_make in Hd. rewrite decide_True in Hd by done. injection Hd as Hd. unfold assign. cbn [fst snd].
  assert (data x = VNone → ∃ h', (let! (h, r) := store f h1 (cfg st) k None v in
         match r with Err _ => Some (Err EINVAL) | Ok _ => Some (Ok (with_key key' (with_heap h st))) end) =
       Some (Ok (with_key key' (with_heap h' st))) ∧ good h' n ∧ grows (hp st) h' ∧
       ∀ q, view h' n q = tree_put (VStr v) (tree_make (view (hp st) n) (pre ++ split_path k)) (pre ++ split_path k) q) as Hset.
  { intros _. pose proof (grows_walk _ _ n pre _ Hgr1 Hw) as Hw'.
    destruct (make_at f h1 n pre _ (split_path k) Hg1 Hw' Hf) as (h2 & c2 & Hm2 & Hg2 & Hgr2 & Hw2 & Hv2).
    cbn [store]. unfold tll_config_set. rewrite Hm2. cbn [mbind option_bind].
    destruct (set_data_view h2 n _ c2 (VStr v) Hg2 Hw2 eq_refl) as [Hg3 Hv3]. eexists. split; [done|]. split; [done|].
    split; [eapply heap_grows_trans; [exact Hgr1|]; eapply heap_grows_trans; [exact Hgr2|apply grows_set_data]|].
    intros q. rewrite Hv3. unfold tree_put. case_decide; [done|]. rewrite Hv2. unfold tree_make. case_decide as Hq; [|by rewrite Hv1; unfold tree_make; rewrite decide_False].
    rewrite Hv1. unfold tree_make. by rewrite decide_True. }
  destruct (view (hp st) n (pre ++ split_path k)) as [d|]; cbn in Hd; subst.
  - destruct (data x) eqn:E; try done. apply Hset. done.
  - rewrite bool_decide_true by done. apply Hset. done.
Qed.
(** ** Documents are their assignments *)
Section load.
Context {host : Host} (f : nat) (n : Z).

(** The machine takes the events [evs] for the assignments [l] and goes on in the state [st']. *)
Definition outcome (st : state) (evs : list event) (es : list (option event)) (l : list (list bytes * option bytes)) (st' : heap → state) : Prop :=
  match assign_all (view (hp st) n) l with
  | None => parse_loop f (map Some evs ++ es) st = Some (Err EINVAL)
  | Some T => ∃ h', parse_loop f (map Some evs ++ es) st = parse_loop f es (st' h') ∧ good h' n ∧ grows (hp st) h' ∧ ∀ q, view h' n q = T q
  end.

Lemma outcome_app st e1 e2 es l1 l2 st1 st2 : (∀ h, hp (st1 h) = h) →
  outcome st e1 (map Some e2 ++ es) l1 st1 → (∀ h, good h n → grows (hp st) h → outcome (st1 h) e2 es l2 st2) →
  outcome st (e1 ++ e2) es (l1 ++ l2) st2.
Proof.
  intros Hst H1 H2. unfold outcome in *. rewrite assign_all_app, map_app, <-app_assoc.
  destruct (assign_all (view (hp st) n) l1) as [T|]; cbn [mbind option_bind]; [|done].
  destruct H1 as (h & -> & Hg & Hgr & Hv). specialize (H2 h Hg Hgr). rewrite Hst in H2.
  pose proof (assign_all_ext l2 _ _ Hv) as Hx. unfold same in Hx.
  destruct (assign_all (view h n) l2) as [T2|], (assign_all T l2) as [T2'|]; try done.
  destruct H2 as (h' & E & Hg' & Hgr' & Hv'). exists h'. split; [done|]. split; [done|]. split; [by eapply heap_grows_trans|].
  intros q. by rewrite Hv', Hx.
Qed.

(** A step that takes the first event and makes one assignment. *)
Lemma outcome_cons st e evs es a l st1 h1 st2 : hp st1 = h1 → (e ≠ StreamEnd) →
  parse f e st = Some (Ok st1) → grows (hp st) h1 → same (assign (view (hp st) n) a) (Some (view h1 n)) →
  outcome st1 evs es l st2 → outcome st (e :: evs) es (a :: l) st2.
Proof.
  intros <- He Hp Hgr Hs Ho. unfold outcome in *. cbn [assign_all map app parse_loop].
  assert ((match e with StreamEnd => Some (Ok st) | _ => let! r := parse f e st in
            match r with Ok st0 => parse_loop f (map Some evs ++ es) st0 | Err _ => Some (Err EINVAL) end end) =
          parse_loop f (map Some evs ++ es) st1) as E by (rewrite Hp; by destruct e).
  rewrite E. unfold same in Hs. destruct (assign (view (hp st) n) a) as [T|]; [|done]. cbn [mbind option_bind].
  pose proof (assign_all_ext l _ _ Hs) as Hx. unfold same in Hx.
  destruct (assign_all T l) as [T1|], (assign_all (view (hp st1) n) l) as [T2|]; try done.
  destruct Ho as (h' & ? & ? & ? & Hv). exists h'. split; [done|]. split; [done|]. split; [by eapply heap_grows_trans|]. intros q. by rewrite Hv, Hx.
Qed.

Lemma index_digits i : 0 ≤ i < 2 ^ 64 → ∃ s, index_name i = Some s ∧ split_path s = [s].
Proof.
  intros Hi. unfold index_name. destruct (to_string_uint10_spec 64 i ltac:(lia) Hi) as (ds & -> & _ & Hd & _). cbn [mbind option_bind].
  eexists. split; [done|]. unfold split_path. rewrite Str.split_spec. apply Str.fields_plain. rewrite elem_of_app. intros [H|H].
  - apply elem_of_replicate in H as [? _]. done.
  - rewrite Forall_forall in Hd. specialize (Hd _ H). lia.
Qed.

(** The key of a value that is expected. *)
Definition expects (st : state) (k : bytes) (key' : variant_t) : Prop :=
  key_string (key st) = Some (k, key') ∧ key st ≠ KNone ∧ key st ≠ KMerge ∧ merged st = None.

Definition takes (d : doc) : Prop := ∀ st pre k key' es, good (hp st) n → walk (hp st) n pre = Some (cfg st) →
  expects st k key' → (length (split_path k) < f)%nat → doc_ok f d →
  outcome st (events d) es (assigns d (pre ++ split_path k)) (λ h, State h (cfg st) (stack st) key' None (anchors st)).

Lemma expects_key st k key' : expects st k key' → key' ≠ KMerge.
Proof.
  intros (H & _). destruct (key st); cbn in H; [by injection H as _ <-| |by injection H as _ <-|by injection H as _ <-].
  destruct (index_name i); [|done]. by injection H as _ <-.
Qed.

Lemma takes_scalar v : takes (DScalar v).
Proof.
  intros st pre k key' es Hg Hw (Hks & Hn & _ & Hm) Hf _. pose proof (scalar_at f n pre k key' v st Hg Hw Hf Hn Hks) as H.
  unfold outcome. cbn [assigns assign_all]. destruct (assign _ _) as [T|]; cbn [mbind option_bind map app events parse_loop parse].
  - destruct H as (h' & -> & Hg' & Hgr & Hv). exists h'. cbn [mbind option_bind]. unfold with_key, with_heap. cbn. by rewrite Hm.
  - by rewrite H.
Qed.

(** The pairs of a mapping. *)
Lemma takes_pairs l : Forall (λ kd, takes kd.2) l → ∀ st pre es, good (hp st) n → walk (hp st) n pre = Some (cfg st) →
  key st = KNone → merged st = None → doc_ok f (DMap l) →
  outcome st (concat (map (λ '(k, d), Scalar None None k :: events d) l)) es (concat (map (λ '(k, d), assigns d (pre ++ split_path k)) l))
    (λ h, State h (cfg st) (stack st) KNone None (anchors st)).
Proof.
  induction 1 as [|[k d] l Hd Hl IH]; intros st pre es Hg Hw Hk Hm Hok.
  - unfold outcome. cbn. exists (hp st). destruct st as [h c s ky m a]; cbn in *. subst. by split_and!; try done; intros ? ? ?.
  - destruct Hok as ((Hkey & Hfuel & Hok) & Hok'). cbn [map concat]. eapply (outcome_app _ _ _ _ _ _ (λ h, State h (cfg st) (stack st) KNone None (anchors st))); [done| |].
    + set (st1 := State (hp st) (cfg st) (stack st) (KName k) (merged st) (anchors st)).
      assert (outcome st1 (events d) (map Some (concat (map (λ '(k, d), Scalar None None k :: events d) l)) ++ es) (assigns d (pre ++ split_path k))
        (λ h, State h (cfg st) (stack st) KNone None (anchors st))) as Ho.
      { apply (Hd st1 pre k KNone); try done. }
      unfold outcome in *. cbn [map app parse_loop parse]. unfold on_scalar. rewrite Hk.
      rewrite bool_decide_false by done. rewrite bool_decide_false by done. exact Ho.
    + intros h Hg' Hgr. apply (IH (State h (cfg st) (stack st) KNone None (anchors st)) pre es); try done. by eapply grows_walk.
Qed.

(** The values of a sequence from an index on. *)
Lemma takes_items l : Forall takes l → ∀ i st pre es, good (hp st) n → walk (hp st) n pre = Some (cfg st) →
  key st = KIndex (Z.of_nat i) → merged st = None → (1 < f)%nat → Z.of_nat i + Z.of_nat (length l) < 2 ^ 64 - 1 → fold_right and True (map (doc_ok f) l) →
  outcome st (concat (map events l)) es (concat (imap (λ j a, a (pre ++ split_path (number (i + j)))) (map assigns l)))
    (λ h, State h (cfg st) (stack st) (KIndex (Z.of_nat (i + length l))) None (anchors st)).
Proof.
  induction 1 as [|d l Hd Hl IH]; intros i st pre es Hg Hw Hk Hm Hf Hlen Hok.
  - unfold outcome. cbn. exists (hp st). rewrite Nat.add_0_r. destruct st as [h c s ky m a]; cbn in *. subst. by split_and!; try done; intros ? ? ?.
  - destruct Hok as (Hok & Hok'). cbn [length] in Hlen. cbn [map concat imap].
    destruct (index_digits (Z.of_nat i)) as (s & Hs & Hsp); [lia|].
    eapply (outcome_app _ _ _ _ _ _ (λ h, State h (cfg st) (stack st) (KIndex (Z.of_nat (S i))) None (anchors st))); [done| |].
    + rewrite Nat.add_0_r. assert (number i = s) as -> by (unfold number; by rewrite Hs).
      apply (Hd st pre s (KIndex (Z.of_nat (S i)))); try done.
      * split; [|by rewrite Hk]. rewrite Hk. cbn [key_string]. rewrite Hs. cbn [mbind option_bind]. rewrite wrapu_id by lia. do 3 f_equal. lia.
      * rewrite Hsp. cbn. lia.
    + intros h Hg' Hgr.
      pose proof (IH (S i) (State h (cfg st) (stack st) (KIndex (Z.of_nat (S i))) None (anchors st)) pre es) as IH'.
      rewrite Nat.add_succ_l in IH'. cbn [length]. rewrite Nat.add_succ_r.
      erewrite imap_ext; [apply IH'; try done; [by eapply grows_walk|lia]|]. intros j a _. cbn. by rewrite Nat.add_succ_r.
Qed.

(** The start and the end of a mapping or a sequence around what is in it. *)
Lemma takes_nested st pre k key' es evs l first last_key e_start e_end anchor_ :
  (∀ st, parse f e_start st = on_start f None first st) → e_start ≠ StreamEnd → (∀ st, parse f e_end st = on_end f st) → e_end ≠ StreamEnd →
  anchor_ = anchors st → good (hp st) n → walk (hp st) n pre = Some (cfg st) → expects st k key' → (length (split_path k) < f)%nat →
  (∀ h c, good h n → grows (hp st) h → walk h n (pre ++ split_path k) = Some c →
     outcome (State h c (MkFrame (cfg st) key' None :: stack st) first None anchor_) evs (Some e_end :: es) l
       (λ h', State h' c (MkFrame (cfg st) key' None :: stack st) last_key None anchor_)) →
  outcome st (e_start :: evs ++ [e_end]) es ((pre ++ split_path k, None) :: l) (λ h, State h (cfg st) (stack st) key' None anchor_).
Proof.
  intros Hs1 Hs2 He1 He2 -> Hg Hw Hex Hf Hin. pose proof (expects_key _ _ _ Hex) as Hk'. destruct Hex as (Hks & Hn & Hmg & Hm).
  destruct (make_at f _ n pre _ (split_path k) Hg Hw Hf) as (h1 & c & Hmk & Hg1 & Hgr1 & Hw1 & Hv1).
  set (st1 := State h1 c (MkFrame (cfg st) key' None :: stack st) first None (anchors st)).
  eapply (outcome_cons _ _ _ _ _ _ st1 h1); [done|done| |done| |].
  - rewrite Hs1. unfold on_start. destruct (key st) eqn:E; try done; rewrite Hks; cbn [mbind option_bind]; rewrite Hmk;
      cbn [mbind option_bind]; unfold with_key; cbn; by rewrite Hm.
  - cbn. intros q. by rewrite Hv1.
  - rewrite <-(app_nil_r l). eapply outcome_app; [|apply (Hin h1 c Hg1 Hgr1 Hw1)|]; [done|].
    intros h Hgh Hgrh. unfold outcome. cbn [assign_all map app parse_loop]. exists h. cbn [hp].
    split; [|by split_and!; try done; intros ? ? ?].
    set (s2 := State h c (MkFrame (cfg st) key' None :: stack st) last_key None (anchors st)).
    assert (parse f e_end s2 = Some (Ok (State h (cfg st) (stack st) key' None (anchors st)))) as E.
    { rewrite He1. unfold on_end, s2. cbn. by destruct key'. }
    destruct e_end; try done; by rewrite E.
Qed.

Lemma takes_all d : takes d.
Proof.
  induction d as [v|l Hl|l Hl] using doc_induction; [apply takes_scalar|..]; intros st pre k key' es Hg Hw Hex Hf Hok.
  - destruct Hok as [Hlen Hok]. cbn [events assigns].
    eapply (takes_nested st pre k key' es _ _ (KIndex 0) (KIndex (Z.of_nat (0 + length l)))); [done..|].
    intros h c Hgh Hgrh Hwh. apply (takes_items l Hl 0 (State h c (MkFrame (cfg st) key' None :: stack st) (KIndex 0) None (anchors st))); try done.
    pose proof (Str.fields_not_nil (Str.eqc 46) k) as Hne. revert Hf. unfold split_path. rewrite Str.split_spec.
    destruct (Str.fields (Str.eqc 46) k); [done|]. cbn. lia.
  - cbn [events assigns]. eapply (takes_nested st pre k key' es _ _ KNone KNone); [done..|].
    intros h c Hgh Hgrh Hwh. by apply (takes_pairs l Hl (State h c (MkFrame (cfg st) key' None :: stack st) KNone None (anchors st))).
Qed.
End load.

(** ** Values of a document *)

(** The values among the assignments. *)
Definition values (l : list (list bytes * option bytes)) : list (list bytes * bytes) :=
  omap (λ a, (λ v, (a.1, v)) <$> a.2) l.

Lemma elem_of_values l p v : (p, v) ∈ values l ↔ (p, Some v) ∈ l.
Proof.
  unfold values. rewrite list_elem_of_omap. split.
  - intros ([q [w|]] & Hin & Hf); cbn in Hf; [|done]. by injection Hf as -> ->.
  - intros Hin. exists (p, Some v). by split.
Qed.

(** Without two values for one path all assignments are made, and the values are those of the document. *)
Lemma assign_all_values l : ∀ T, NoDup (values l).*1 → (∀ p v, (p, v) ∈ values l → T p = None ∨ T p = Some VNone) →
  ∃ T', assign_all T l = Some T' ∧
    ∀ q, (∀ v, (q, v) ∈ values l → T' q = Some (VStr v)) ∧
         ((∀ v, (q, v) ∉ values l) → T' q = T q ∨ T' q = Some VNone ∧ T q = None).
Proof.
  induction l as [|[p o] l IH]; intros T Hnd Hfree.
  - exists T. split; [done|]. intros q. split; [by intros v ?%not_elem_of_nil|by left].
  - cbn [assign_all].
    assert (∃ T1, assign T (p, o) = Some T1 ∧ (∀ v, o = Some v → T1 p = Some (VStr v)) ∧
              ∀ q, (∀ v, o = Some v → q ≠ p) → T1 q = T q ∨ T1 q = Some VNone ∧ T q = None) as (T1 & -> & Hp & Hq).
    { assert (∀ q, tree_make T p q = T q ∨ tree_make T p q = Some VNone ∧ T q = None) as Hmk.
      { intros q. unfold tree_make. case_decide; [|by left]. destruct (T q); [by left|by right]. }
      unfold assign. cbn [fst snd]. destruct o as [v|]; [|exists (tree_make T p); naive_solver].
      exists (tree_put (VStr v) (tree_make T p) p). split.
      - destruct (Hfree p v) as [-> | ->]; [|done|done]. apply elem_of_values. by left.
      - unfold tree_put. split; [intros w [= <-]; by rewrite decide_True|]. intros q Hne.
        rewrite decide_False by (by apply (Hne v)). apply Hmk. }
    cbn [mbind option_bind]. unfold values in Hnd, Hfree |- *. cbn [omap list_omap] in Hnd, Hfree |- *. fold (values l) in Hnd, Hfree |- *.
    destruct (IH T1) as (T' & -> & HT').
    + destruct o; cbn in Hnd; [by apply NoDup_cons in Hnd as [_ ?]|done].
    + intros r w Hr.
      assert (∀ v, o = Some v → r ≠ p) as Hne.
      { intros v -> ->. cbn in Hnd. apply NoDup_cons in Hnd as [Hn _]. apply Hn. apply list_elem_of_fmap. by exists (p, w). }
      destruct (Hfree r w) as [H|H]; [destruct o; cbn; [by right|done]|..]; destruct (Hq r Hne) as [E|[E _]]; rewrite E; auto.
    + exists T'. split; [done|]. intros q. destruct (HT' q) as [Hv Hn]. destruct o as [v|]; cbn.
      * split; [intros w [[= -> ->]|Hin]%elem_of_cons|].
        -- destruct (Hn) as [E|[_ E]]; [|by rewrite E; apply Hp|by rewrite (Hp _ eq_refl) in E].
           intros w Hin. cbn in Hnd. apply NoDup_cons in Hnd as [Hx _]. apply Hx, list_elem_of_fmap. by exists (p, w).
        -- by apply Hv.
        -- intros Hno. assert (q ≠ p) as Hne by (intros ->; by apply (Hno v); left).
           destruct (Hn) as [E|[E E']]; [by intros w ?; apply (Hno w); right| |];
             destruct (Hq q) as [E1|[E1 E2]]; try (by intros ? _); rewrite ?E, ?E1 in *; auto.
      * split; [apply Hv|]. intros Hno.
        destruct (Hn Hno) as [E|[E E']]; destruct (Hq q) as [E1|[E1 E2]]; try done; rewrite ?E, ?E1 in *; auto.
Qed.

(** ** Loading *)
Lemma good_fresh h : wf h → plain h → good (tll_config_new h).1 (next_id h) ∧
  ∀ q, view (tll_config_new h).1 (next_id h) q = empty_tree q.
Proof.
  intros Hwf Hpl. cbn. set (h' := Heap _ _). assert (∀ i x, nodes h !! i = Some x → i ≠ next_id h) as Hlt.
  { intros i x Hx ->. pose proof (wf_next _ Hwf _ _ Hx). lia. }
  assert (∀ i, nodes h' !! i = if decide (i = next_id h) then Some (Node None ∅ VNone) else nodes h !! i) as Hn.
  { intros i. cbn. case_decide; subst; [by rewrite lookup_insert_eq|by rewrite lookup_insert_ne]. }
  split; [split; [split| |]|].
  - intros i x k c. rewrite Hn. case_decide; [intros [= <-]; cbn; by rewrite lookup_empty|]. intros Hx Hk.
    destruct (wf_kid _ Hwf _ _ _ _ Hx Hk) as (y & Hy & Hp). exists y. rewrite Hn, decide_False by (by eapply Hlt). done.
  - intros i x k k' c. rewrite Hn. case_decide; [intros [= <-]; cbn; by rewrite lookup_empty|]. by apply (wf_name _ Hwf).
  - intros i x. rewrite Hn. cbn [next_id h']. case_decide; [intros _; lia|]. intros Hx. pose proof (wf_next _ Hwf _ _ Hx). lia.
  - intros i x. rewrite Hn. case_decide; [by intros [= <-]|apply Hpl].
  - exists (Node None ∅ VNone). by rewrite Hn, decide_True.
  - intros q. unfold view, empty_tree. destruct q as [|k q].
    + cbn. by rewrite lookup_insert_eq.
    + rewrite decide_False by done. cbn [walk]. unfold step. rewrite Hn, decide_True by done. cbn. by rewrite lookup_empty.
Qed.

(** All the events of a stream with one document. *)
Definition stream (d : doc) : list (option event) :=
  Some StreamStart :: Some DocumentStart :: map Some (events d) ++ [Some DocumentEnd; Some StreamEnd].

Lemma top_level {host : Host} f h d : wf h → plain h → (1 < f)%nat → doc_ok f d → (∀ v, d ≠ DScalar v) →
  outcome f (next_id h) (start h) (events d) [Some DocumentEnd; Some StreamEnd] (assigns d [])
    (λ h', State h' (next_id h) [] KNone None ∅).
Proof.
  intros Hwf Hpl Hf Hok Hd. destruct (good_fresh h Hwf Hpl) as [Hg Hv]. set (h0 := (tll_config_new h).1) in *.
  assert (∀ first last_key evs l e_start e_end,
    (∀ st, parse f e_start st = on_start f None first st) → e_start ≠ StreamEnd → (∀ st, parse f e_end st = on_end f st) → e_end ≠ StreamEnd →
    outcome f (next_id h) (State h0 (next_id h) [MkFrame (next_id h) KNone None] first None ∅) evs [Some e_end; Some DocumentEnd; Some StreamEnd] l
      (λ h', State h' (next_id h) [MkFrame (next_id h) KNone None] last_key None ∅) →
    outcome f (next_id h) (start h) (e_start :: evs ++ [e_end]) [Some DocumentEnd; Some StreamEnd] (([], None) :: l)
      (λ h', State h' (next_id h) [] KNone None ∅)) as Hwrap.
  { intros first last_key evs l e_start e_end Hs1 Hs2 He1 He2 Hin.
    eapply (outcome_cons f (next_id h) (start h) _ _ _ _ _ (State h0 (next_id h) [MkFrame (next_id h) KNone None] first None ∅) h0);
      [done|done|by rewrite Hs1|by intros ? ? ?| |].
    - cbn. intros q. change (view h0 (next_id h) q) with (view h0 (next_id h) q). unfold tree_make. fold h0. rewrite Hv. unfold empty_tree.
      destruct q; [by rewrite decide_True by apply prefix_nil|]. rewrite !decide_False; [done|done|].
      intros [t Ht]. done.
    - rewrite <-(app_nil_r l). eapply outcome_app; [|exact Hin|]; [done|]. intros h1 Hg1 Hgr1. unfold outcome. cbn [assign_all map app parse_loop].
      exists h1. cbn [hp]. split; [|by split_and!; try done; intros ? ? ?].
      set (s2 := State h1 (next_id h) [MkFrame (next_id h) KNone None] last_key None ∅).
      assert (parse f e_end s2 = Some (Ok (State h1 (next_id h) [] KNone None ∅))) as E by (by rewrite He1).
      destruct e_end; try done; by rewrite E. }
  destruct d as [v|l|l]; [by destruct (Hd v)|..]; cbn [events assigns].
  - destruct Hok as [Hlen Hok]. apply (Hwrap (KIndex 0) (KIndex (Z.of_nat (0 + length l)))); [done..|].
    assert (Forall (takes f (next_id h)) l) as Hl by (apply Forall_true; intros; apply takes_all).
    apply (takes_items f (next_id h) l Hl 0 (State h0 (next_id h) [MkFrame (next_id h) KNone None] (KIndex 0) None ∅) []); done.
  - apply (Hwrap KNone KNone); [done..|].
    assert (Forall (λ kd, takes f (next_id h) kd.2) l) as Hl by (apply Forall_true; intros; apply takes_all).
    by apply (takes_pairs f (next_id h) l Hl (State h0 (next_id h) [MkFrame (next_id h) KNone None] KNone None ∅) []).
Qed.

(** A document is loaded as its assignments say. *)
Lemma document_loaded {host : Host} f h d : wf h → plain h → (1 < f)%nat → doc_ok f d → (∀ v, d ≠ DScalar v) →
  match assign_all empty_tree (assigns d []) with
  | None => yaml_parse f h (stream d) = Some (h, Err EINVAL)
  | Some T => ∃ h' c, yaml_parse f h (stream d) = Some (h', Ok c) ∧ good h' c ∧ ∀ q, view h' c q = T q
  end.
Proof.
  intros Hwf Hpl Hf Hok Hd. destruct (good_fresh h Hwf Hpl) as [Hg Hv].
  pose proof (top_level f h d Hwf Hpl Hf Hok Hd) as Ht. unfold outcome in Ht.
  pose proof (assign_all_ext (assigns d []) _ _ Hv) as Hx. unfold same in Hx. change (hp (start h)) with (tll_config_new h).1 in Ht.
  unfold yaml_parse, stream. cbn [parse_loop parse mbind option_bind].
  destruct (assign_all (view _ _) _) as [T1|], (assign_all empty_tree _) as [T|]; try done; [|by rewrite Ht].
  destruct Ht as (h' & -> & Hg' & _ & Hv'). cbn [parse_loop parse mbind option_bind]. exists h', (next_id h).
  split; [done|]. split; [done|]. intros q. by rewrite Hv', Hx.
Qed.

(** Nodes are only made above the paths of the assignments. *)
Lemma assign_all_domain l : ∀ T T' q, assign_all T l = Some T' → T' q ≠ None → T q ≠ None ∨ ∃ a, a ∈ l ∧ q `prefix_of` a.1.
Proof.
  induction l as [|a l IH]; intros T T' q; cbn; [intros [= <-]; by left|]. destruct (assign T a) as [T1|] eqn:Ha; [|done]. cbn. intros Hl Hq.
  destruct (IH T1 T' q Hl Hq) as [H|(b & Hb & Hp)]; [|right; exists b; split; [by right|done]].
  assert (q `prefix_of` a.1 ∨ T1 q = T q) as [Hp|E].
  { destruct (decide (q `prefix_of` a.1)) as [|Hn]; [by left|]. right. unfold assign in Ha.
    assert (tree_make T a.1 q = T q) as E by (unfold tree_make; by rewrite decide_False).
    assert (∀ v, tree_put (VStr v) (tree_make T a.1) a.1 q = T q) as E'.
    { intros v. unfold tree_put. rewrite decide_False; [done|]. intros ->. by apply Hn. }
    destruct a.2; [destruct (T a.1) as [[]|]; try done|]; by injection Ha as <-. }
  - right. exists a. split; [by left|done].
  - left. by rewrite <-E.
Qed.

(** C33: loading gives the document. For any document that is a mapping or a
    sequence, of mappings, sequences and values (at any depth, keys with
    dots are paths, keys other than the merge key), the configuration that
    is built from its events is the map after the assignments the document
    stands for, made in order, and the document is refused exactly when a
    path would get a second value; when no path occurs twice it is loaded,
    and it has a value at a path if and only if the document has it there.
    *)
Theorem yaml_document {host : Host} f h d : wf h → plain h → (1 < f)%nat → doc_ok f d → (∀ v, d ≠ DScalar v) →
  match assign_all empty_tree (assigns d []) with
  | None => yaml_parse f h (stream d) = Some (h, Err EINVAL)
  | Some T => ∃ h' c, yaml_parse f h (stream d) = Some (h', Ok c) ∧ good h' c ∧ ∀ q, view h' c q = T q
  end ∧
  (NoDup (values (assigns d [])).*1 → ∃ h' c, yaml_parse f h (stream d) = Some (h', Ok c) ∧
     ∀ q v, view h' c q = Some (VStr v) ↔ (q, Some v) ∈ assigns d []).
Proof.
  intros Hwf Hpl Hf Hok Hd. pose proof (document_loaded f h d Hwf Hpl Hf Hok Hd) as Hmain. split; [done|].
  intros Hnd. destruct (assign_all_values (assigns d []) empty_tree Hnd) as (T & HT & HT').
  { intros p v _. unfold empty_tree. case_decide; auto. }
  rewrite HT in Hmain. destruct Hmain as (h' & c & Hy & _ & Hview). exists h', c. split; [done|]. intros q v.
  destruct (HT' q) as [H1 H2]. rewrite Hview, <-elem_of_values. split; [|apply H1]. intros Hq.
  destruct (decide (q ∈ (values (assigns d [])).*1)) as [Hin|Hno].
  - apply list_elem_of_fmap in Hin as ([q' w] & -> & Hin). cbn in *. rewrite (H1 w Hin) in Hq. by injection Hq as <-.
  - destruct H2 as [E|[E _]].
    + intros w Hin. apply Hno, list_elem_of_fmap. by exists (q, w).
    + rewrite E in Hq. unfold empty_tree in Hq. by case_decide.
    + by rewrite E in Hq.
Qed.

(** [{a: [1, {k: 2}], b.c: x, b: {d: y}}] *)
Definition sample : doc :=
  DMap [(str "a", DSeq [DScalar (str "1"); DMap [(str "k", DScalar (str "2"))]]);
        (str "b.c", DScalar (str "x")); (str "b", DMap [(str "d", DScalar (str "y"))])].

Lemma wf_empty : wf empty_heap ∧ plain empty_heap.
Proof. split; [split|]; intros n x; cbn; by rewrite lookup_empty. Qed.

#[local] Existing Instance empty_host.

Lemma yaml_document_witness :
  match assign_all empty_tree (assigns sample []) with
  | None => yaml_parse 3 empty_heap (stream sample) = Some (empty_heap, Err EINVAL)
  | Some T => ∃ h' c, yaml_parse 3 empty_heap (stream sample) = Some (h', Ok c) ∧ good h' c ∧ ∀ q, view h' c q = T q
  end ∧
  (NoDup (values (assigns sample [])).*1 → ∃ h' c, yaml_parse 3 empty_heap (stream sample) = Some (h', Ok c) ∧
     ∀ q v, view h' c q = Some (VStr v) ↔ (q, Some v) ∈ assigns sample []).
Proof.
  apply (yaml_document 3 empty_heap sample).
  - apply wf_empty.
  - apply wf_empty.
  - lia.
  - cbn [doc_ok sample map fold_right length]. split_and!; try done; vm_compute; try reflexivity; repeat constructor.
  - done.
Defined.

(** ** Names of a list *)

(** Names are in the order of the numbers up to four digits. *)
Lemma index_digits4 i : 0 ≤ i < 10000 →
  index_name i = Some [48 + i / 1000; 48 + i / 100 mod 10; 48 + i / 10 mod 10; 48 + i mod 10].
Proof.
  intros Hi. unfold index_name, to_string_uint10. change (Z.to_nat 64) with (S (S (S (S 60)))). cbn [dec_loop].
  assert (i / 10 / 10 = i / 100 ∧ i / 10 / 10 / 10 = i / 1000 ∧ i / 10 / 10 / 10 / 10 = 0) as (E1 & E2 & E3).
  { rewrite !Zdiv.Zdiv_Zdiv by lia. split; [done|]. split; [done|]. apply Z.div_small. lia. }
  rewrite E3, E2, E1. change (0 =? 0) with true. cbn iota.
  destruct (Z.eqb_spec (i / 10) 0) as [H1|H1]; [|destruct (Z.eqb_spec (i / 100) 0) as [H2|H2]; [|destruct (Z.eqb_spec (i / 1000) 0) as [H3|H3]]];
    cbn; repeat f_equal; Z.to_euclidean_division_equations; lia.
Qed.

Lemma number_order i j : (i < j)%nat → Z.of_nat j < 10000 → Props.key_leb (number i) (number j) = true ∧ number i ≠ number j.
Proof.
  intros Hij Hj. unfold number. rewrite !index_digits4 by lia. cbn [default id Props.key_leb].
  set (a := Z.of_nat i) in *. set (b := Z.of_nat j) in *. assert (0 ≤ a < b ∧ b < 10000) as Hab by lia. clearbody a b. split.
  - destruct (Z.ltb_spec (48 + a / 1000) (48 + b / 1000)); [done|]. cbn [orb].
    destruct (Z.eqb_spec (48 + a / 1000) (48 + b / 1000)); [|exfalso; Z.to_euclidean_division_equations; lia]. cbn [andb].
    destruct (Z.ltb_spec (48 + a / 100 mod 10) (48 + b / 100 mod 10)); [done|]. cbn [orb].
    destruct (Z.eqb_spec (48 + a / 100 mod 10) (48 + b / 100 mod 10)); [|exfalso; Z.to_euclidean_division_equations; lia]. cbn [andb].
    destruct (Z.ltb_spec (48 + a / 10 mod 10) (48 + b / 10 mod 10)); [done|]. cbn [orb].
    destruct (Z.eqb_spec (48 + a / 10 mod 10) (48 + b / 10 mod 10)); [|exfalso; Z.to_euclidean_division_equations; lia]. cbn [andb].
    destruct (Z.ltb_spec (48 + a mod 10) (48 + b mod 10)); [done|]. exfalso; Z.to_euclidean_division_equations; lia.
  - intros [= H1 H2 H3 H4]. Z.to_euclidean_division_equations. lia.
Qed.

(** ** What the machine does with other documents *)

(** The values of a loaded configuration. *)
Definition dump (r : loaded) : option (list (bytes * bytes)) :=
  match r with
  | Some (h, Ok c) =>
      match browse (λ _ _, 0) h 50 c (str "**") with
      | Some (Ok (l, _)) =>
          Some (omap (λ kn, match get (λ _, None) 50 h kn.2 with Some (Some v) => Some (kn.1, v) | _ => None end) l)
      | _ => None
      end
  | _ => None
  end.

Definition scalar (s : bytes) : option event := Some (Scalar None None s).

(** The same value twice is refused, as is a value for an alias that is not known. *)
Lemma duplicate_refused : yaml_parse 5 empty_heap (stream (DMap [(str "a", DScalar (str "1")); (str "a", DScalar (str "2"))])) = Some (empty_heap, Err EINVAL).
Proof. vm_compute. reflexivity. Qed.

(** An alias replaces a value that is there: [{x: &n 1, a: 2, a: *n}]. *)
Lemma alias_replaces : dump (yaml_parse 50 empty_heap
  [Some (MappingStart None); scalar (str "x"); Some (Scalar (Some (str "n")) None (str "1")); scalar (str "a"); scalar (str "2");
   scalar (str "a"); Some (Alias (str "n")); Some MappingEnd; Some StreamEnd]) = Some [(str "a", str "1"); (str "x", str "1")].
Proof. vm_compute. reflexivity. Qed.

(** A merge that is the last key of a mapping: [{x: &n {k: v}, a: {b: {c: 1}, <<: *n}}]. *)
Lemma merge_last : dump (yaml_parse 50 empty_heap
  [Some (MappingStart None); scalar (str "x"); Some (MappingStart (Some (str "n"))); scalar (str "k"); scalar (str "v"); Some MappingEnd;
   scalar (str "a"); Some (MappingStart None); scalar (str "b"); Some (MappingStart None); scalar (str "c"); scalar (str "1"); Some MappingEnd;
   scalar (str "<<"); Some (Alias (str "n")); Some MappingEnd; Some MappingEnd; Some StreamEnd]) =
  Some [(str "a.b.c", str "1"); (str "a.k", str "v"); (str "x.k", str "v")].
Proof. vm_compute. reflexivity. Qed.

(** The same mapping with the merge in front, [{x: &n {k: v}, a: {<<: *n, b: {c: 1}}}]: what is merged goes to the
    nested mapping and is missing in the one it was written in. *)
Lemma merge_first_leaks : dump (yaml_parse 50 empty_heap
  [Some (MappingStart None); scalar (str "x"); Some (MappingStart (Some (str "n"))); scalar (str "k"); scalar (str "v"); Some MappingEnd;
   scalar (str "a"); Some (MappingStart None); scalar (str "<<"); Some (Alias (str "n"));
   scalar (str "b"); Some (MappingStart None); scalar (str "c"); scalar (str "1"); Some MappingEnd;
   Some MappingEnd; Some MappingEnd; Some StreamEnd]) =
  Some [(str "a.b.c", str "1"); (str "a.b.k", str "v"); (str "x.k", str "v")].
Proof. vm_compute. reflexivity. Qed.

(** Names of a list longer than 10000 values are not in order. *)
Lemma long_list_order : ∃ a b, index_name 9999 = Some a ∧ index_name 10000 = Some b ∧ Props.key_leb b a = true ∧ Props.key_leb a b = false.
Proof. eexists _, _. vm_compute. done. Qed.

(** *** Imports and urls *)

(** A configuration with values, made by [set]. *)
Fixpoint set_all (h : heap) (c : Z) (l : list (bytes * bytes)) : option heap :=
  match l with
  | [] => Some h
  | (k, v) :: l => let! (h, _) := tll_config_set 50 h c (Some k) v in set_all h c l
  end.

Definition config_of (l : list (bytes * bytes)) : option (heap * Z) :=
  let '(h, c) := tll_config_new empty_heap in let! h := set_all h c l in Some (h, c).

(** No parser, files and loaders but the ones of the table, and one of a user that imports itself. *)
Definition user_load (n : Z) (data : bytes) (h : heap) : loaded :=
  let '(h, c) := tll_config_new h in
  let! h := set_all h c [(str "import.a", str "user://" ++ data)] in Some (h, Ok c).

Definition imported (l : list (bytes * bytes)) : option (option (list (bytes * bytes)) * rc) :=
  let! (h, c) := config_of l in
  let! (h, r) := tll_config_process_imports (λ _, []) (λ _, None) (λ _, None) user_load (λ _, None) 20
    (reg (str "user") (LUser 0) context_new).1 50 h c (str "import") in
  Some (dump (Some (h, Ok c)), r).

(** The values of the configuration win over those of the imports, and a later import over an earlier one. *)
Lemma imports_order : imported [(str "import.a", str "props://a=1;b.c=2"); (str "import.b", str "props://a=2;b.d=3"); (str "b.c", str "10")] =
  Some (Some [(str "a", str "2"); (str "b.c", str "10"); (str "b.d", str "3"); (str "import.a", str "props://a=1;b.c=2"); (str "import.b", str "props://a=2;b.d=3")], ok).
Proof. vm_compute. reflexivity. Qed.

(** An import that leads back to itself is refused, as is one that is not known. *)
Lemma imports_recursive : (λ r, r.2) <$> imported [(str "import.a", str "user://x")] = Some (Err EINVAL).
Proof. vm_compute. reflexivity. Qed.
Lemma imports_unknown : (λ r, r.2) <$> imported [(str "import.a", str "none://x")] = Some (Err EINVAL).
Proof. vm_compute. reflexivity. Qed.

Definition url_of (l : list (bytes * bytes)) : option (list (bytes * bytes)) :=
  let! (h, c) := config_of l in
  let! (h, r) := tll_config_get_url (λ _, None) (λ _, []) 50 h (Some c) (Some (str "u")) in
  dump (Some (h, Ok r)).

(** The forms a url may have in a configuration are the same url: text, unpacked, and text with values beside it; a value
    that is in both is an error. *)
Definition the_url : list (bytes * bytes) := [(str "dump", str "yes"); (str "stat", str "no"); (str "tll.host", str "*:8080"); (str "tll.proto", str "tcp")].

Lemma get_url_forms :
  url_of [(str "u", str "tcp://*:8080;dump=yes;stat=no")] = Some the_url ∧
  url_of [(str "u.tll.proto", str "tcp"); (str "u.tll.host", str "*:8080"); (str "u.dump", str "yes"); (str "u.stat", str "no")] = Some the_url ∧
  url_of [(str "u.url", str "tcp://*:8080;dump=yes"); (str "u.stat", str "no")] = Some the_url ∧
  url_of [(str "u.url", str "tcp://*:8080;dump=yes"); (str "u.dump", str "no")] = Some [] ∧
  url_of [(str "u", str "tcp://*:8080"); (str "u.url", str "tcp://*:8080")] = Some [].
Proof. split_and!; vm_compute; reflexivity. Qed.
End YamlSpec.
