(* ===== verification/Stat.v ===== *)
(** * Statistics

    src/tll/stat.h and src/stat.cc.  A block has two pages of fields: writers
    take the active one out of [lock], update fields and put it back; the one
    collector swaps the pages and reads and resets the one that was active.
    The operations on the block are atomic or single reads and writes.  The
    accesses to a field are ordinary ones: an update reads the field and then
    writes it, and the collector copies a field and then resets it, so an
    interleaving of writers and the collector is a sequence of single reads
    and writes and only the lock keeps them apart.  ([swap_pages] is one step:
    nobody but the collector reads or writes the two pointers.)
    Fields are 64-bit integers; the overflow of a sum, which is undefined in
    the source, wraps here.  Floating point fields are not modelled. *)
From S2P Require Import Prelude.

Module Stat.

Inductive Method := Sum | Min | Max | Last.

#[global] Instance Method_eq_dec : EqDecision Method.
Proof. solve_decision. Defined.

Definition int_min : Z := - 2 ^ 63.
Definition int_max : Z := 2 ^ 63 - 1.

Definition default_value (m : Method) : Z :=
  match m with Sum => 0 | Min => int_max | Max => int_min | Last => int_min end.

Definition update (m : Method) (v0 v1 : Z) : Z :=
  match m with
  | Sum => i64 (v0 + v1)
  | Min => Z.min v0 v1
  | Max => Z.max v0 v1
  | Last => v1
  end.

Record field := Field { method : Method; value : Z }.

Definition field_new (m : Method) : field := Field m (default_value m).
Definition field_reset (f : field) : field := Field (method f) (default_value (method f)).
Definition field_update (v : Z) (f : field) : field := Field (method f) (update (method f) (value f) v).

(** The two accesses of [field_update]: the value read, and the value written
    by an update that has read [old]. *)
Definition field_load (f : field) : Z := value f.
Definition field_store (old v : Z) (f : field) : field := Field (method f) (update (method f) old v).

Lemma field_update_steps v f : field_update v f = field_store (field_load f) v f.
Proof. done. Qed.

(** [GroupT]: count, sum, minimum and maximum of one quantity. *)
Definition group_new : list field := [field_new Sum; field_new Sum; field_new Min; field_new Max].

Definition group_update (v : Z) (g : list field) : list field :=
  match g with
  | [count; sum; min; max] => [field_update 1 count; field_update v sum; field_update v min; field_update v max]
  | _ => g
  end.

(** ** The block

    Pages are known by a boolean. *)
Record block := Block { lock : option bool; active : bool; inactive : bool }.

Definition block_new : block := Block (Some false) false true.

Definition acquire (b : block) : option bool * block := (lock b, Block None (active b) (inactive b)).

(** [acquire_wait], alone on the block: [iterations] is an [unsigned] that is
    decreased before it is compared. *)
Fixpoint acquire_wait (fuel : nat) (iterations : Z) (b : block) : option (option bool * block) :=
  match fuel with
  | O => None
  | S fuel =>
      match acquire b with
      | (Some p, b) => Some (Some p, b)
      | (None, b) =>
          let iterations := u32 (iterations - 1) in
          if iterations >? 0 then acquire_wait fuel iterations b else Some (None, b)
      end
  end.

(** [iterations] tries when the page stays taken, [2 ^ 32] of them for zero. *)
Lemma acquire_wait_busy n k b :
  0 ≤ n < 2 ^ 32 → (if decide (n = 0) then 2 ^ 32 else n) ≤ Z.of_nat k →
  lock b = None → acquire_wait k n b = Some (None, b).
Proof.
  revert n. induction k as [|k IH]; intros n Hn Hk Hb; [case_decide; zlia|].
  destruct b as [l a i]. cbn in Hb. subst l. cbn [acquire_wait acquire lock active inactive].
  assert (u32 (n - 1) = if decide (n = 0) then 2 ^ 32 - 1 else n - 1) as ->.
  { case_decide; [by subst|]. apply wrapu_id. lia. }
  rewrite Z.gtb_ltb. case_decide; case_bool; try done; apply IH; try done; try case_decide; zlia.
Qed.

Definition release (p : bool) (b : block) : block := Block (Some p) (active b) (inactive b).

(** [swap] in the steps that others can see: the read of [active], the
    exchange, and the swap of the pointers.  [weak] is the spurious failure
    that [compare_exchange_weak] allows. *)
Definition swap_cas (tmp : bool) (weak : bool) (b : block) : bool * block :=
  if negb weak && bool_decide (lock b = Some tmp)
  then (true, Block (Some (inactive b)) (active b) (inactive b))
  else (false, b).

Definition swap_pages (b : block) : block := Block (lock b) (inactive b) (active b).

(** ** Writers and the collector *)

Inductive collector :=
| CIdle
| CRead (tmp : bool)                              (* [active] was read *)
| CSwap                                           (* the exchange is done *)
| CCopy (p : bool) (i : nat) (out : list Z)       (* fields of [p] below [i] are copied and reset *)
| CReset (p : bool) (i : nat) (out : list Z) (v : Z).   (* field [i] is copied as [v] and not yet reset *)

(** A writer without a page, with the page it has acquired, or in the middle
    of an update with [v] of field [i], which it has read as [old]. *)
Inductive writer := WIdle | WHold (p : bool) | WUpdate (p : bool) (i : nat) (v old : Z).

Definition held (w : writer) : option bool :=
  match w with WIdle => None | WHold p | WUpdate p _ _ _ => Some p end.

Record state := State {
  blk : block;
  pages : bool → list field;
  writers : gmap Z writer;
  coll : collector;
  reports : list (list Z);           (* values returned by [iter_swap] *)
  updates : list (nat * Z);          (* updates made, by field *)
}.

Definition set_page (p : bool) (l : list field) (pages : bool → list field) : bool → list field :=
  λ q, if Bool.eqb q p then l else pages q.

(** Steps of a writer: [acquire_guard], the two halves of an update of a
    field, [reset] of the guard. *)
Definition w_acquire (t : Z) (s : state) : option state :=
  match writers s !! t with
  | Some WIdle =>
      let '(p, b) := acquire (blk s) in
      let w := match p with Some p => WHold p | None => WIdle end in
      Some (State b (pages s) (<[t := w]> (writers s)) (coll s) (reports s) (updates s))
  | _ => None
  end.

Definition w_load (t : Z) (i : nat) (v : Z) (s : state) : option state :=
  match writers s !! t with
  | Some (WHold p) =>
      let! f := pages s p !! i in
      Some (State (blk s) (pages s) (<[t := WUpdate p i v (field_load f)]> (writers s)) (coll s) (reports s) (updates s))
  | _ => None
  end.

Definition w_store (t : Z) (s : state) : option state :=
  match writers s !! t with
  | Some (WUpdate p i v old) =>
      let! f := pages s p !! i in
      Some (State (blk s) (set_page p (<[i := field_store old v f]> (pages s p)) (pages s))
        (<[t := WHold p]> (writers s)) (coll s) (reports s) (updates s ++ [(i, v)]))
  | _ => None
  end.

Definition w_release (t : Z) (s : state) : option state :=
  match writers s !! t with
  | Some (WHold p) =>
      Some (State (release p (blk s)) (pages s) (<[t := WIdle]> (writers s)) (coll s) (reports s) (updates s))
  | _ => None
  end.

(** Steps of [tll_stat_iter_t::swap]. *)
Definition c_step (weak : bool) (s : state) : option state :=
  match coll s with
  | CIdle => Some (State (blk s) (pages s) (writers s) (CRead (active (blk s))) (reports s) (updates s))
  | CRead tmp =>
      let '(done_, b) := swap_cas tmp weak (blk s) in
      Some (State b (pages s) (writers s) (if done_ : bool then CSwap else CIdle) (reports s) (updates s))
  | CSwap =>
      let b := swap_pages (blk s) in
      Some (State b (pages s) (writers s) (CCopy (inactive b) 0 []) (reports s) (updates s))
  | CCopy p i out =>
      match pages s p !! i with
      | Some f => Some (State (blk s) (pages s) (writers s) (CReset p i out (field_load f)) (reports s) (updates s))
      | None => Some (State (blk s) (pages s) (writers s) CIdle (reports s ++ [out]) (updates s))
      end
  | CReset p i out v =>
      let! f := pages s p !! i in
      Some (State (blk s) (set_page p (<[i := field_reset f]> (pages s p)) (pages s)) (writers s)
        (CCopy p (S i) (out ++ [v])) (reports s) (updates s))
  end.

Inductive event :=
| EAcquire (t : Z) | ELoad (t : Z) (i : nat) (v : Z) | EStore (t : Z) | ERelease (t : Z) | ECollect (weak : bool).

Definition exec (s : state) (e : event) : option state :=
  match e with
  | EAcquire t => w_acquire t s
  | ELoad t i v => w_load t i v s
  | EStore t => w_store t s
  | ERelease t => w_release t s
  | ECollect weak => c_step weak s
  end.

(** Values are 64-bit integers. *)
Definition valid_event (e : event) : Prop :=
  match e with ELoad _ _ v => int_min ≤ v ≤ int_max | _ => True end.

Inductive step (s : state) : state → Prop :=
| step_event e s' : exec s e = Some s' → valid_event e → step s s'.

(** A new block with the given fields and any number of idle writers. *)
Definition start (ms : list Method) (threads : list Z) : state :=
  State block_new (λ _, map field_new ms) (list_to_map ((λ t, (t, WIdle)) <$> threads)) CIdle [] [].

Definition reachable (ms : list Method) (threads : list Z) : state → Prop := rtc step (start ms threads).

(** A given interleaving. *)
Fixpoint run (es : list event) (s : state) : option state :=
  match es with
  | [] => Some s
  | e :: es => let! s := exec s e in run es s
  end.

Lemma run_reachable ms ts es s' :
  Forall valid_event es → run es (start ms ts) = Some s' → reachable ms ts s'.
Proof.
  unfold reachable. generalize (start ms ts). induction es as [|e es IH]; cbn; intros s Hv.
  - by intros [= ->].
  - apply Forall_cons in Hv as [He Hv]. destruct (exec s e) as [s1|] eqn:E; [|done].
    cbn. intros Hr. eapply rtc_l; [by econstructor|by apply IH].
Qed.

(** ** Ownership of the pages *)

(** The page that [lock] gives or has given away. *)
Definition cur (s : state) : bool :=
  match coll s with CSwap => inactive (blk s) | _ => active (blk s) end.

Definition holds (s : state) (t : Z) (p : bool) : Prop := writers s !! t ≫= held = Some p.

(** The page the collector reads and resets. *)
Definition copied (s : state) : option bool :=
  match coll s with CCopy p _ _ | CReset p _ _ _ => Some p | _ => None end.

Record owned (s : state) : Prop := {
  own_other : inactive (blk s) = negb (active (blk s));
  own_lock : lock (blk s) = Some (cur s) ∧ (∀ t p, ¬ holds s t p)
             ∨ lock (blk s) = None ∧ ∃ t, ∀ t' p, holds s t' p ↔ t' = t ∧ p = cur s;
  own_read : ∀ tmp, coll s = CRead tmp → tmp = active (blk s);
  own_copy : ∀ p, copied s = Some p → p = inactive (blk s);
}.

Lemma start_idle ms ts t p : ¬ holds (start ms ts) t p.
Proof.
  unfold holds. cbn [start writers]. intros (w & H & ?)%bind_Some.
  apply elem_of_list_to_map_2, list_elem_of_fmap in H as (? & [= _ ->] & _). done.
Qed.

Lemma holds_insert s s' t w t' p :
  writers s' = <[t := w]> (writers s) →
  holds s' t' p ↔ if decide (t' = t) then held w = Some p else holds s t' p.
Proof.
  unfold holds. intros ->. case_decide as E; [subst; by rewrite lookup_insert_eq|by rewrite lookup_insert_ne].
Qed.

Lemma owned_start ms ts : owned (start ms ts).
Proof. split; try done. left. split; [done|apply start_idle]. Qed.

(** Steps inside of an update change neither the block nor the holders. *)
Lemma owned_keep s s' t w w' :
  blk s' = blk s → coll s' = coll s → writers s !! t = Some w → writers s' = <[t := w']> (writers s) →
  held w' = held w → owned s → owned s'.
Proof.
  intros Eb Ec Ew Ew' Eh [Ho Hl Hr Hc]. unfold cur, copied in *.
  assert (∀ t' p, holds s' t' p ↔ holds s t' p) as E.
  { intros t' p. rewrite (holds_insert s s' t w' t' p Ew'), Eh. case_decide; [|done]. subst.
    unfold holds. by rewrite Ew. }
  split; unfold cur, copied; rewrite ?Eb, ?Ec; try done.
  setoid_rewrite E. exact Hl.
Qed.

Lemma owned_acquire t s s' : owned s → w_acquire t s = Some s' → owned s'.
Proof.
  intros [Ho Hl Hr Hc]. unfold w_acquire.
  destruct (writers s !! t) as [[|?|????]|] eqn:Et; try done. cbn. intros [= <-].
  split; cbn [blk active inactive]; [done| |done|done]. right. split; [done|].
  destruct Hl as [[Hl Hn]|[Hl [t0 H0]]]; rewrite Hl.
  - exists t. intros t' p. erewrite (holds_insert s) by reflexivity. case_decide.
    + subst. split; [intros [= <-]; done|intros [_ ->]; done].
    + split; [intros H'; by destruct (Hn t' p)|intros [-> _]; done].
  - exists t0. intros t' p. erewrite (holds_insert s) by reflexivity. rewrite <-H0. case_decide; [|done].
    subst. unfold holds. by rewrite Et.
Qed.

Lemma owned_release t s s' : owned s → w_release t s = Some s' → owned s'.
Proof.
  intros [Ho Hl Hr Hc]. unfold w_release.
  destruct (writers s !! t) as [[|p|????]|] eqn:Et; try done. intros [= <-].
  assert (holds s t p) as Hp by (unfold holds; by rewrite Et).
  destruct Hl as [[Hl Hn]|[Hl [t0 H0]]]; [by destruct (Hn t p)|].
  destruct (proj1 (H0 t p) Hp) as [-> ->].
  split; cbn [blk release active inactive]; [done| |done|done]. left. split; [done|].
  intros t' p. erewrite (holds_insert s) by reflexivity. case_decide; [done|].
  intros [-> _]%H0. done.
Qed.

Lemma owned_load t i v s s' : owned s → w_load t i v s = Some s' → owned s'.
Proof.
  intros Ho. unfold w_load. destruct (writers s !! t) as [[|p|????]|] eqn:Et; try done.
  destruct (pages s p !! i); [|done]. cbn. intros [= <-]. by eapply (owned_keep s).
Qed.

Lemma owned_store t s s' : owned s → w_store t s = Some s' → owned s'.
Proof.
  intros Ho. unfold w_store. destruct (writers s !! t) as [[|?|p i v old]|] eqn:Et; try done.
  destruct (pages s p !! i); [|done]. cbn. intros [= <-]. by eapply (owned_keep s).
Qed.

Lemma owned_collect weak s s' : owned s → c_step weak s = Some s' → owned s'.
Proof.
  destruct s as [[l a i] pg w c r u]. intros [Ho Hl Hr Hc]. unfold c_step, cur, copied, holds in *. cbn in *. subst i.
  destruct c as [|tmp| |p k out|p k out v]; cbn.
  - intros [= <-]. split; try done. by intros ? [= <-].
  - specialize (Hr tmp eq_refl) as ->. unfold swap_cas. cbn.
    destruct (negb weak && bool_decide (l = Some a)) eqn:E; intros [= <-]; split; try done.
    apply andb_prop in E as [_ E%bool_decide_eq_true]. subst l.
    left. split; [done|]. by destruct Hl as [[_ ?]|[? _]].
  - intros [= <-]. split; cbn; [by rewrite negb_involutive|done|done|congruence].
  - destruct (pg p !! k); intros [= <-]; by split.
  - destruct (pg p !! k); [|done]. intros [= <-]; by split.
Qed.

Lemma owned_step s s' : owned s → step s s' → owned s'.
Proof.
  intros Ho [[] ? E _]; cbn [exec] in E;
    eauto using owned_acquire, owned_load, owned_store, owned_release, owned_collect.
Qed.

Lemma owned_reachable ms ts s : reachable ms ts s → owned s.
Proof. revert s. apply (rtc_ind_r owned); eauto using owned_start, owned_step. Qed.

Lemma owned_exclusive s :
  owned s →
  (∀ t t' p p', holds s t p → holds s t' p' → t = t' ∧ p = p')
  ∧ (∀ t p, holds s t p → p = cur s ∧ copied s ≠ Some p).
Proof.
  intros [Ho Hl Hr Hc].
  destruct Hl as [[_ Hn]|[_ [t0 H0]]]; [split; intros; exfalso; by eapply Hn|].
  split.
  - intros t t' p p' [-> ->]%H0 [-> ->]%H0. done.
  - intros t p [-> ->]%H0. split; [done|]. intros E. specialize (Hc _ E). revert Hc.
    unfold cur, copied in *. destruct (coll s); try done; rewrite Ho; by destruct (active (blk s)).
Qed.

(** In every interleaving of any number of writers with the collector, at
    most one writer holds a page, the page held is the one that the next
    report takes over, and the page that is read and reset is held by nobody. *)
Theorem stat_exclusive ms ts s :
  reachable ms ts s →
  (∀ t t' p p', holds s t p → holds s t' p' → t = t' ∧ p = p')
  ∧ (∀ t p, holds s t p → p = cur s ∧ copied s ≠ Some p).
Proof. intros H%owned_reachable. by apply owned_exclusive. Qed.

(** Two writers and the collector: the swap fails while writer 1 holds a
    page, and writer 2 updates the new page while the old one is copied. *)
Definition sample_events : list event :=
  [EAcquire 1; ELoad 1 0 5; EStore 1; ELoad 1 1 5; EAcquire 2; ECollect false; ECollect false; EStore 1;
   ERelease 1; ECollect false; ECollect true; ECollect false; ECollect false; EAcquire 2;
   ECollect false; ECollect false; ELoad 2 0 7; ECollect false; EStore 2; ELoad 2 1 (-3)].

Definition sample : state := default (start [] []) (run sample_events (start [Sum; Max] [1; 2])).

Lemma sample_reachable : reachable [Sum; Max] [1; 2] sample.
Proof. apply (run_reachable _ _ sample_events); [|vm_compute; reflexivity]. by repeat constructor. Qed.

Lemma stat_exclusive_witness : holds sample 2 true ∧ copied sample = Some false ∧ true = cur sample.
Proof.
  assert (holds sample 2 true) as H by (vm_compute; reflexivity).
  split; [exact H|]. split; [vm_compute; reflexivity|].
  exact (proj1 (proj2 (stat_exclusive [Sum; Max] [1; 2] sample sample_reachable) 2 true H)).
Defined.

(** ** No update is lost

    The methods but [Last] are commutative monoids on 64-bit integers with the
    default as the unit. *)
Definition in64 (v : Z) : Prop := int_min ≤ v ≤ int_max.

Definition comb (m : Method) (l : list Z) : Z := foldr (update m) (default_value m) l.

Lemma default_in64 m : in64 (default_value m).
Proof. by destruct m. Qed.

Lemma update_in64 m a b : in64 a → in64 b → in64 (update m a b).
Proof.
  unfold in64. destruct m; cbn [update]; try lia. intros _ _.
  pose proof (wraps_range 64 (a + b)). unfold int_min, int_max. lia.
Qed.

Lemma comb_in64 m l : Forall in64 l → in64 (comb m l).
Proof. induction 1; [apply default_in64|]. by apply update_in64. Qed.

Lemma i64_add_l a b : i64 (i64 a + b) = i64 (a + b).
Proof.
  unfold wraps. f_equal.
  replace ((a + 2 ^ (64 - 1)) mod 2 ^ 64 - 2 ^ (64 - 1) + b + 2 ^ (64 - 1)) with ((a + 2 ^ (64 - 1)) mod 2 ^ 64 + b) by lia.
  rewrite Zplus_mod_idemp_l. f_equal. lia.
Qed.

Lemma update_comm m a b : m ≠ Last → update m a b = update m b a.
Proof. destruct m; cbn [update]; intros; [f_equal; lia|lia|lia|done]. Qed.

Lemma update_assoc m a b c : m ≠ Last → update m (update m a b) c = update m a (update m b c).
Proof.
  destruct m; cbn [update]; intros; [|lia|lia|done].
  rewrite i64_add_l, (Z.add_comm a (i64 _)), i64_add_l. f_equal. lia.
Qed.

Lemma update_default m a : m ≠ Last → in64 a → update m (default_value m) a = a.
Proof.
  unfold in64, int_min, int_max. destruct m; cbn [update default_value]; intros ? Ha; [|unfold int_max; lia|unfold int_min; lia|done].
  apply wraps_id; lia.
Qed.

Lemma comb_perm m l l' : m ≠ Last → l ≡ₚ l' → comb m l = comb m l'.
Proof.
  intros Hm. unfold comb. induction 1 as [| | |l l' l'' _ IH1 _ IH2]; cbn; [done|congruence| |congruence].
  by rewrite <-!update_assoc, (update_comm m y x).
Qed.

Lemma comb_unit m l : m ≠ Last → Forall in64 l → comb m (default_value m :: l) = comb m l.
Proof. intros. cbn. apply update_default; [done|by apply comb_in64]. Qed.

Lemma comb_merge m a b l : m ≠ Last → comb m (update m a b :: l) = comb m (a :: b :: l).
Proof. intros. cbn. by apply update_assoc. Qed.

(** The updates of field [i], and where they are: in the reports made, in the
    report being made and in the two pages. *)
Definition updates_of (i : nat) (s : state) : list Z :=
  omap (λ '(j, v), if decide (j = i) then Some v else None) (updates s).

Definition out_of (i : nat) (c : collector) : list Z :=
  match c with CCopy _ _ out | CReset _ _ out _ => option_list (out !! i) | _ => [] end.

Definition page_of (i : nat) (s : state) (p : bool) : list Z := option_list (value <$> pages s p !! i).

Definition recorded (i : nat) (s : state) : list Z :=
  omap (.!! i) (reports s) ++ out_of i (coll s) ++ page_of i s false ++ page_of i s true.

Record kept (ms : list Method) (s : state) : Prop := {
  kept_method : ∀ p, method <$> pages s p = ms;
  kept_value : ∀ i, Forall in64 (recorded i s);
  kept_copy : ∀ p k out, coll s = CCopy p k out ∨ (∃ v, coll s = CReset p k out v) → length out = k;
  kept_total : ∀ i m, ms !! i = Some m → m ≠ Last → comb m (updates_of i s) = comb m (recorded i s);
}.

Lemma set_page_same p l pg : set_page p l pg p = l.
Proof. unfold set_page. by rewrite eqb_reflx. Qed.

Lemma set_page_other p l pg : set_page p l pg (negb p) = pg (negb p).
Proof. unfold set_page. by destruct p. Qed.

Lemma set_page_ne p q l pg : q ≠ p → set_page p l pg q = pg q.
Proof. unfold set_page. by destruct (Bool.eqb_spec q p). Qed.

(** What a writer has read in an update, and what the collector has read of a
    field it is about to reset, is still the value of the field: nobody else
    writes to the page.  This is what the lock is for. *)
Record loaded (s : state) : Prop := {
  load_writer : ∀ t p i v old,
    writers s !! t = Some (WUpdate p i v old) → value <$> pages s p !! i = Some old ∧ in64 v;
  load_coll : ∀ p i out v, coll s = CReset p i out v → value <$> pages s p !! i = Some v;
}.

Lemma loaded_start ms ts : loaded (start ms ts).
Proof.
  split; [|done]. intros t p i v old E. exfalso. apply (start_idle ms ts t p). unfold holds. by rewrite E.
Qed.

(** A step of a writer that changes no page. *)
Lemma loaded_writer s b t w u :
  loaded s →
  (∀ p i v old, w = WUpdate p i v old → value <$> pages s p !! i = Some old ∧ in64 v) →
  loaded (State b (pages s) (<[t := w]> (writers s)) (coll s) (reports s) u).
Proof.
  intros [Hw Hc] H. split; [|exact Hc]. cbn [writers pages]. intros t' p i v old.
  rewrite lookup_insert. case_decide; [intros [= E]; by apply H|apply Hw].
Qed.

Lemma loaded_store t s s' : owned s → loaded s → w_store t s = Some s' → loaded s'.
Proof.
  intros [Hx Hn]%owned_exclusive [Hw Hc]. unfold w_store.
  destruct (writers s !! t) as [[|?|p i v old]|] eqn:Et; try done.
  destruct (pages s p !! i); [|done]. cbn. intros [= <-].
  assert (holds s t p) as Hp by (unfold holds; by rewrite Et).
  split; cbn [writers pages coll].
  - intros t' p' i' v' old'. rewrite lookup_insert. case_decide as E; [done|]. intros Et'.
    destruct (Hx t t' p p' Hp) as [-> _]; [|done]. unfold holds. by rewrite Et'.
  - intros p' k out x Ec. rewrite set_page_ne; [by eapply Hc|]. intros ->.
    destruct (Hn t p Hp) as [_ []]. unfold copied. by rewrite Ec.
Qed.

Lemma loaded_collect weak s s' : owned s → loaded s → c_step weak s = Some s' → loaded s'.
Proof.
  intros [Hx Hn]%owned_exclusive [Hw Hc]. unfold c_step.
  destruct (coll s) as [|tmp| |p k out|p k out x] eqn:Ec.
  - intros [= <-]. by split.
  - destruct (swap_cas _ _ _) as [[] b]; intros [= <-]; by split.
  - intros [= <-]. by split.
  - destruct (pages s p !! k) as [f|] eqn:Ef; intros [= <-]; split; try done; cbn [coll pages].
    intros ???? [= <- <- <- <-]. by rewrite Ef.
  - destruct (pages s p !! k) as [f|]; [|done]. cbn. intros [= <-]. split; [|done]. cbn [writers pages].
    intros t p' i v old Et. rewrite set_page_ne; [by eapply Hw|]. intros ->.
    destruct (Hn t p) as [_ []]; [unfold holds; by rewrite Et|]. unfold copied. by rewrite Ec.
Qed.

Lemma loaded_step s s' : owned s → loaded s → step s s' → loaded s'.
Proof.
  intros Ho Hl [[t|t i v|t|t|weak] ? E Hv]; cbn [exec] in E; [| |by eapply loaded_store| |by eapply loaded_collect].
  - revert E. unfold w_acquire. destruct (writers s !! t) as [[]|]; try done. cbn. intros [= <-].
    apply loaded_writer; [done|]. by destruct (lock (blk s)).
  - revert E. unfold w_load. destruct (writers s !! t) as [[|p|]|]; try done.
    destruct (pages s p !! i) as [f|] eqn:Ef; [|done]. cbn. intros [= <-].
    apply loaded_writer; [done|]. intros ???? [= <- <- <- <-]. by rewrite Ef.
  - revert E. unfold w_release. destruct (writers s !! t) as [[]|]; try done. intros [= <-].
    by apply loaded_writer.
Qed.

(** [recorded] with the page [p] first. *)
Lemma recorded_perm i s p :
  recorded i s ≡ₚ page_of i s p ++ page_of i s (negb p) ++ omap (.!! i) (reports s) ++ out_of i (coll s).
Proof. unfold recorded. destruct p; cbn [negb]; solve_Permutation. Qed.

Lemma page_field ms s p i f :
  method <$> pages s p = ms → pages s p !! i = Some f → ms !! i = Some (method f).
Proof. intros <- E. by rewrite list_lookup_fmap, E. Qed.

Lemma kept_start ms ts : kept ms (start ms ts).
Proof.
  assert (∀ i p, page_of i (start ms ts) p = option_list (default_value <$> ms !! i)) as E.
  { intros. unfold page_of. cbn [start pages]. rewrite list_lookup_fmap. by destruct (ms !! i). }
  split; [| |cbn; naive_solver|].
  - intros p. cbn [start pages]. rewrite <-list_fmap_compose. apply map_id.
  - intros i. unfold recorded. rewrite !E. cbn.
    destruct (ms !! i) as [m|]; cbn; repeat constructor; apply default_in64.
  - intros i m Hi Hm. unfold recorded, updates_of. rewrite !E, Hi. cbn [start updates reports coll out_of omap fmap option_fmap option_map option_list app list_omap].
    change (comb m [] = comb m [default_value m; default_value m]).
    by rewrite !comb_unit by eauto using default_in64.
Qed.

Lemma kept_store ms t s s' : loaded s → kept ms s → w_store t s = Some s' → kept ms s'.
Proof.
  intros [Hw _] [Hm Hr Hc Ht]. unfold w_store.
  destruct (writers s !! t) as [[|?|p i v old]|] eqn:Et; try done.
  destruct (Hw t p i v old Et) as [Hold Hv].
  destruct (pages s p !! i) as [f|] eqn:Ef; [|done]. injection Hold as <-. cbn. intros [= <-].
  set (s' := State _ _ _ _ _ _).
  assert (∀ j, page_of j s' (negb p) = page_of j s (negb p)) as Eo.
  { intros j. unfold page_of. cbn [s' pages]. by rewrite set_page_other. }
  assert (∀ j, i ≠ j → page_of j s' p = page_of j s p) as Ej.
  { intros j ?. unfold page_of. cbn [s' pages]. by rewrite set_page_same, list_lookup_insert_ne. }
  assert (page_of i s' p = [update (method f) (value f) v]) as Ei.
  { unfold page_of. cbn [s' pages]. rewrite set_page_same, list_lookup_insert_eq; [done|].
    by eapply lookup_lt_Some. }
  assert (page_of i s p = [value f]) as Ei0 by (unfold page_of; by rewrite Ef).
  assert (∀ j, updates_of j s' = updates_of j s ++ (if decide (i = j) then [v] else [])) as Eu.
  { intros j. unfold updates_of. cbn [s' updates]. rewrite omap_app. cbn. by case_decide. }
  split; [| |done|].
  - intros q. cbn [s' pages]. unfold set_page. destruct (Bool.eqb_spec q p) as [->|]; [|done].
    rewrite list_fmap_insert. cbn. rewrite (Hm p). by eapply list_insert_id, page_field.
  - intros j. specialize (Hr j). rewrite (recorded_perm j s p) in Hr. rewrite (recorded_perm j s' p), Eo. cbn [s' reports coll].
    destruct (decide (i = j)) as [<-|]; [|by rewrite Ej].
    rewrite Ei. rewrite Ei0 in Hr. inversion Hr; subst. constructor; [by apply update_in64|done].
  - intros j m Hj Hl. rewrite Eu. rewrite (comb_perm m _ _ Hl (recorded_perm j s' p)), Eo.
    specialize (Ht j m Hj Hl). rewrite (comb_perm m _ _ Hl (recorded_perm j s p)) in Ht.
    cbn [s' reports coll]. case_decide as E; [subst j|by rewrite app_nil_r, Ej].
    assert (method f = m) as Em by (pose proof (page_field ms s p i f (Hm p) Ef); congruence).
    rewrite Ei, Em. cbn [app]. rewrite comb_merge by done.
    rewrite (comb_perm m _ (v :: updates_of i s)) by (try done; solve_Permutation).
    rewrite (comb_perm m (value f :: v :: _) _ Hl (perm_swap _ _ _)).
    rewrite Ei0 in Ht. unfold comb in *. cbn [foldr app] in *. f_equal. exact Ht.
Qed.

(** A copied field: the value moves from the page to the report. *)
Lemma kept_copied ms p k out f s :
  kept ms s → coll s = CReset p k out (value f) → pages s p !! k = Some f →
  kept ms (State (blk s) (set_page p (<[k := field_reset f]> (pages s p)) (pages s)) (writers s)
            (CCopy p (S k) (out ++ [value f])) (reports s) (updates s)).
Proof.
  intros [Hm Hr Hc Ht] Ec Ef. set (s' := State _ _ _ _ _ _).
  pose proof (page_field ms s p k f (Hm p) Ef) as Em.
  assert (∀ j, j ≠ k → recorded j s' = recorded j s) as Ej.
  { intros j Hj. unfold recorded, page_of, out_of. cbn [s' pages reports coll]. rewrite Ec.
    specialize (Hc _ _ _ (or_intror (ex_intro _ _ Ec))).
    assert ((out ++ [value f]) !! j = out !! j) as ->.
    { destruct (decide (j < length out)%nat); [by rewrite lookup_app_l|].
      rewrite !(proj2 (lookup_ge_None _ _)); [done|lia|rewrite length_app; cbn; lia]. }
    by destruct p; cbn; rewrite list_lookup_insert_ne. }
  assert (recorded k s' ≡ₚ default_value (method f) :: recorded k s) as Ek.
  { rewrite (recorded_perm k s' p), (recorded_perm k s p). specialize (Hc _ _ _ (or_intror (ex_intro _ _ Ec))).
    unfold page_of, out_of. cbn [s' pages reports coll]. rewrite Ec, set_page_same, set_page_other, Ef.
    rewrite list_lookup_insert_eq by (by eapply lookup_lt_Some).
    rewrite lookup_app_r, Hc, Nat.sub_diag, (proj2 (lookup_ge_None out k)) by lia. cbn. solve_Permutation. }
  split.
  - intros q. cbn [s' pages]. unfold set_page. destruct (Bool.eqb_spec q p) as [->|]; [|done].
    rewrite list_fmap_insert. cbn. rewrite (Hm p). by apply list_insert_id.
  - intros j. destruct (decide (j = k)) as [->|]; [|by rewrite Ej].
    rewrite Ek. constructor; [apply default_in64|done].
  - cbn [s' coll]. intros ??? [[= <- <- <-]|[? ?]]; [|done].
    rewrite length_app, (Hc _ _ _ (or_intror (ex_intro _ _ Ec))). cbn. lia.
  - intros j m Hj Hl. change (updates_of j s') with (updates_of j s). rewrite (Ht j m Hj Hl).
    destruct (decide (j = k)) as [->|]; [|by rewrite Ej].
    assert (method f = m) as Efm by congruence.
    by rewrite (comb_perm m _ _ Hl Ek), Efm, comb_unit.
Qed.

(** Steps that move no values. *)
Lemma kept_same ms s s' :
  pages s' = pages s → updates s' = updates s →
  (∀ i, recorded i s' ≡ₚ recorded i s) →
  (∀ p k out, coll s' = CCopy p k out ∨ (∃ v, coll s' = CReset p k out v) → length out = k) →
  kept ms s → kept ms s'.
Proof.
  intros Ep Eu Er Hc' [Hm Hr Hc Ht]. split; [by rewrite Ep| |done|].
  - intros i. by rewrite Er.
  - intros i m Hi Hl. rewrite (comb_perm m _ _ Hl (Er i)), <-Ht by done. unfold updates_of. by rewrite Eu.
Qed.

Lemma kept_collect ms weak s s' : loaded s → kept ms s → c_step weak s = Some s' → kept ms s'.
Proof.
  intros [_ Hl] Hk. unfold c_step. destruct (coll s) as [|tmp| |p k out|p k out v] eqn:Ec.
  - intros [= <-]. apply (kept_same ms s); try done; [|naive_solver]. intros i. unfold recorded. by rewrite Ec.
  - destruct (swap_cas _ _ _) as [d b]. intros [= <-]. apply (kept_same ms s); try done.
    + intros i. unfold recorded. rewrite Ec. by destruct d.
    + cbn. destruct d; naive_solver.
  - intros [= <-]. apply (kept_same ms s); try done.
    + intros i. unfold recorded. by rewrite Ec.
    + cbn. naive_solver.
  - destruct (pages s p !! k) as [f|] eqn:Ef; intros [= <-]; apply (kept_same ms s); try done.
    + intros i. unfold recorded. by rewrite Ec.
    + cbn. intros ??? [?|[? [= <- <- <- _]]]; [done|]. eapply (kept_copy _ _ Hk). by left.
    + intros i. unfold recorded, page_of. cbn [pages reports coll out_of]. rewrite Ec, omap_app.
      cbn. destruct (out !! i); cbn; [|by rewrite app_nil_r]. by rewrite <-app_assoc.
    + naive_solver.
  - specialize (Hl _ _ _ _ eq_refl). destruct (pages s p !! k) as [f|] eqn:Ef; [|done].
    injection Hl as <-. cbn. intros [= <-]. by apply kept_copied.
Qed.

Lemma kept_step ms s s' : loaded s → kept ms s → step s s' → kept ms s'.
Proof.
  intros Hl Hk [[t|t i v|t|t|weak] ? E Hv]; cbn [exec] in E; eauto using kept_store, kept_collect.
  all: revert E; unfold w_acquire, w_load, w_release; destruct (writers s !! t) as [[]|]; try done.
  2: destruct (pages s _ !! i); [|done].
  all: intros [= <-]; by apply (kept_same ms s); try done; apply Hk.
Qed.

Lemma kept_reachable ms ts s : reachable ms ts s → owned s ∧ loaded s ∧ kept ms s.
Proof.
  revert s. apply (rtc_ind_r (λ s, owned s ∧ loaded s ∧ kept ms s)).
  - split_and!; [apply owned_start|apply loaded_start|apply kept_start].
  - intros s s' _ Hs (Ho & Hl & Hk).
    split_and!; [by eapply owned_step|by eapply loaded_step|by eapply kept_step].
Qed.

(** A page that nobody holds can be taken, by a writer or by the collector. *)
Lemma owned_free s :
  owned s → (∀ t p, ¬ holds s t p) →
  (∀ t, writers s !! t = Some WIdle → ∃ s', w_acquire t s = Some s' ∧ holds s' t (cur s))
  ∧ (∀ tmp, coll s = CRead tmp → ∃ s', c_step false s = Some s' ∧ coll s' = CSwap).
Proof.
  intros [Ho Hl Hr Hc] Hn. destruct Hl as [[Hl _]|[_ [t0 H0]]]; [|by destruct (Hn t0 (cur s)); apply H0].
  split.
  - intros t Et. unfold w_acquire. rewrite Et. cbn. rewrite Hl. eexists. split; [done|].
    unfold holds. cbn [writers]. by rewrite lookup_insert_eq.
  - intros tmp Ec. unfold c_step. rewrite Ec, (Hr _ Ec). unfold swap_cas, cur in *. rewrite Ec in Hl.
    rewrite bool_decide_eq_true_2 by done. by eexists.
Qed.

(** C9: No update is lost and none is counted twice. An update is a read of
    the field and then a write, a report copies a field and then resets it,
    and these accesses of any number of writers and one collector come in any
    order that the lock of the block allows. Then at every moment, for every
    field but those that keep the last value, the sum (minimum, maximum) of
    all updates made is the sum (minimum, maximum) of the values reported, the
    value in the report being made and the values in the two pages (a value
    copied and not yet reset is counted once). And the lock gives the page
    back: when no writer holds it, a writer that asks for it gets it, and the
    exchange of the collector succeeds if it does not fail spuriously. Fields
    are integers, sums are taken modulo 2^64. *)
Theorem stat_conservation ms ts s :
  reachable ms ts s →
  (∀ i m, ms !! i = Some m → m ≠ Last → comb m (updates_of i s) = comb m (recorded i s))
  ∧ ((∀ t p, ¬ holds s t p) →
     (∀ t, writers s !! t = Some WIdle → ∃ s', w_acquire t s = Some s' ∧ holds s' t (cur s))
     ∧ (∀ tmp, coll s = CRead tmp → ∃ s', c_step false s = Some s' ∧ coll s' = CSwap)).
Proof. intros (Ho & _ & Hk)%kept_reachable. split; [apply Hk|by apply owned_free]. Qed.

(** In the sample writer 2 reads field 0 of the new page while the collector
    is between the copy and the reset of field 0 of the old one, writes it
    after the reset, and is then in the middle of an update of field 1. *)
Lemma stat_conservation_witness :
  updates_of 0 sample = [5; 7] ∧ recorded 0 sample = [5; 0; 7] ∧ comb Sum [5; 7] = comb Sum [5; 0; 7].
Proof.
  split; [vm_compute; reflexivity|]. split; [vm_compute; reflexivity|].
  exact (proj1 (stat_conservation [Sum; Max] [1; 2] sample sample_reachable) 0%nat Sum eq_refl ltac:(discriminate)).
Defined.
End Stat.
