(* ===== verification/Scheme.v ===== *)
(** * Schemes: descriptors and the layout of messages

    The structures of src/tll/scheme.h and the functions of src/scheme.cc that
    work on them: [tll_scheme_fix] with its parts, which computes the sizes and
    offsets of all fields, and [dump_type].  Descriptors that the source shares
    by pointer (the enum of a field, the message of a field, ...) are referred
    to by their position in the list that owns them. *)
From S2P Require Import Prelude Conv Text.

Module Scheme.
Import Conv Getter.

(** ** Descriptors *)
Inductive field_type :=
| Int8 | Int16 | Int32 | Int64 | UInt8 | UInt16 | UInt32 | Double | Decimal128
| Bytes | Message | Array | Pointer | Union | UInt64.

Inductive sub_type := SubNone | Enum | ByteString | Fixed | TimePoint | Duration | Bits.

Inductive time_resolution := NS | US | MS | SECOND | MINUTE | HOUR | DAY.

Inductive offset_ptr_version := PTR_DEFAULT | PTR_LEGACY_SHORT | PTR_LEGACY_LONG.

#[global] Instance field_type_eq_dec : EqDecision field_type.
Proof. solve_decision. Defined.
#[global] Instance sub_type_eq_dec : EqDecision sub_type.
Proof. solve_decision. Defined.
#[global] Instance time_resolution_eq_dec : EqDecision time_resolution.
Proof. solve_decision. Defined.
#[global] Instance offset_ptr_version_eq_dec : EqDecision offset_ptr_version.
Proof. solve_decision. Defined.

(** Options are a list of names and values. *)
Abbreviation options := (list (bytes * bytes)).

Fixpoint opt_get (o : options) (key : bytes) : option bytes :=
  match o with
  | [] => None
  | (k, v) :: o => if bool_decide (key = k) then Some v else opt_get o key
  end.

Definition opt_has (o : options) (key : bytes) : bool := bool_decide (is_Some (opt_get o key)).

Definition alloc_option (name value : bytes) (next : options) : options := (name, value) :: next.

(** The value of the option that [lookup_name] finds is replaced. *)
Fixpoint opt_replace (o : options) (key value : bytes) : options :=
  match o with
  | [] => []
  | (k, v) :: o => if bool_decide (k = key) then (k, value) :: o else (k, v) :: opt_replace o key value
  end.

Record enum := MkEnum {
  e_name : bytes;
  e_type : field_type;
  e_size : Z;
  e_values : list (bytes * Z);
  e_options : options;
}.

Record bit_field := MkBitField { bf_name : bytes; bf_offset : Z; bf_size : Z }.

Record bits := MkBits {
  b_name : bytes;
  b_type : field_type;
  b_size : Z;
  b_values : list bit_field;
  b_options : options;
}.

(** Pointers to descriptors: in the lists of the message or of the scheme. *)
Inductive ref := Local (i : nat) | Global (i : nat).

#[global] Instance ref_eq_dec : EqDecision ref.
Proof. solve_decision. Defined.

(** [tll_scheme_field_t]: [data] is its union. *)
Inductive field_data (F : Type) :=
| DNone
| DMessage (type_msg : nat)
| DPointer (type_ptr : F) (version : offset_ptr_version)
| DArray (type_array count_ptr : F) (count : Z)
| DEnum (type_enum : ref)
| DFixed (precision : Z)
| DTime (resolution : time_resolution)
| DBits (bitfields : list bit_field) (type_bits : ref)
| DUnion (type_union : ref).
Arguments DNone {F}.
Arguments DMessage {F} type_msg.
Arguments DPointer {F} type_ptr version.
Arguments DArray {F} type_array count_ptr count.
Arguments DEnum {F} type_enum.
Arguments DFixed {F} precision.
Arguments DTime {F} resolution.
Arguments DBits {F} bitfields type_bits.
Arguments DUnion {F} type_union.

Inductive field := MkField {
  name : option bytes;
  type : field_type;
  sub : sub_type;
  size : Z;
  offset : Z;
  index : Z;
  opts : options;
  data : field_data field;
}.

Record union := MkUnion {
  u_name : bytes;
  u_type_ptr : field;
  u_fields : list field;
  u_union_size : Z;
  u_options : options;
}.

Record message := MkMessage {
  m_name : bytes;
  m_msgid : Z;
  m_size : Z;
  m_fields : list field;
  m_enums : list enum;
  m_unions : list union;
  m_bits : list bits;
  m_pmap : option nat;
  m_options : options;
}.

Record scheme := MkScheme {
  s_options : options;
  s_messages : list message;
  s_enums : list enum;
  s_aliases : list field;
  s_unions : list union;
  s_bits : list bits;
}.

(** The lists that [Local] references of a message lead to; global unions and
    aliases belong to no message. *)
Definition owner := option nat.

Definition get_message (s : scheme) (own : owner) : option message := let! i := own in s_messages s !! i.

Definition get_enum (s : scheme) (own : owner) (r : ref) : option enum :=
  match r with Local i => let! m := get_message s own in m_enums m !! i | Global i => s_enums s !! i end.
Definition get_union (s : scheme) (own : owner) (r : ref) : option union :=
  match r with Local i => let! m := get_message s own in m_unions m !! i | Global i => s_unions s !! i end.
Definition get_bits (s : scheme) (own : owner) (r : ref) : option bits :=
  match r with Local i => let! m := get_message s own in m_bits m !! i | Global i => s_bits s !! i end.

(** ** Names of types *)
Definition field_int_size (t : field_type) : option Z :=
  match t with
  | Int8 => Some 1 | Int16 => Some 2 | Int32 => Some 4 | Int64 => Some 8
  | UInt8 => Some 1 | UInt16 => Some 2 | UInt32 => Some 4 | UInt64 => Some 4
  | _ => None
  end.

Definition default_count_type (size : Z) : field_type :=
  if size <? 0x80 then Int8 else if size <? 0x8000 then Int16 else if size <? 0x80000000 then Int32 else Int32.

Definition dec (v : Z) : bytes := default [] (to_string_uint10 64 v).

Definition time_resolution_str (r : time_resolution) : bytes :=
  match r with
  | NS => str "ns" | US => str "us" | MS => str "ms" | SECOND => str "s"
  | MINUTE => str "m" | HOUR => str "h" | DAY => str "d"
  end.

Definition offset_ptr_type_name (v : offset_ptr_version) : bytes :=
  match v with
  | PTR_DEFAULT => str "default" | PTR_LEGACY_SHORT => str "legacy-short" | PTR_LEGACY_LONG => str "legacy-long"
  end.

Definition is_inline (o : options) : bool := bool_decide (default [] (opt_get o (str "_auto")) = str "inline").

(** [dump_type] without a field, as for the type of an enum. *)
Definition dump_type0 (t : field_type) : bytes :=
  match t with
  | Int8 => str "int8" | Int16 => str "int16" | Int32 => str "int32" | Int64 => str "int64"
  | UInt8 => str "uint8" | UInt16 => str "uint16" | UInt32 => str "uint32" | UInt64 => str "uint64"
  | Double => str "double" | Decimal128 => str "decimal128"
  | Message | Bytes | Array | Pointer => str "unknown"
  | Union => str "union"
  end.

(** [dump_type(f->type, f)]; [None] is a pointer that leads nowhere. *)
Fixpoint dump_type (s : scheme) (own : owner) (f : field) : option bytes :=
  let body :=
    match type f with
    | Message =>
        match data f with DMessage i => m_name <$> s_messages s !! i | _ => None end
    | Bytes => Some (str "byte" ++ dec (size f))
    | Array =>
        match data f with
        | DArray elem _ n => let! t := dump_type s own elem in Some (t ++ str "[" ++ dec n ++ str "]")
        | _ => None
        end
    | Pointer =>
        if bool_decide (sub f = ByteString) then Some (str "string") else
        match data f with DPointer elem _ => let! t := dump_type s own elem in Some (str "*" ++ t) | _ => None end
    | Union =>
        match data f with
        | DUnion r => let! u := get_union s own r in Some (if is_inline (u_options u) then str "union" else u_name u)
        | _ => None
        end
    | t => Some (dump_type0 t)
    end in
  match sub f, data f with
  | Enum, DEnum r => let! e := get_enum s own r in if is_inline (e_options e) then body else Some (e_name e)
  | Enum, _ => None
  | Bits, DBits _ r => let! b := get_bits s own r in if is_inline (b_options b) then body else Some (b_name b)
  | Bits, _ => None
  | _, _ => body
  end.

(** ** Assignments *)
Definition set_name (n : option bytes) (f : field) := MkField n (type f) (sub f) (size f) (offset f) (index f) (opts f) (data f).
Definition set_type (t : field_type) (f : field) := MkField (name f) t (sub f) (size f) (offset f) (index f) (opts f) (data f).
Definition set_size (n : Z) (f : field) := MkField (name f) (type f) (sub f) n (offset f) (index f) (opts f) (data f).
Definition set_offset (n : Z) (f : field) := MkField (name f) (type f) (sub f) (size f) n (index f) (opts f) (data f).
Definition set_index (n : Z) (f : field) := MkField (name f) (type f) (sub f) (size f) (offset f) n (opts f) (data f).
Definition set_opts (o : options) (f : field) := MkField (name f) (type f) (sub f) (size f) (offset f) (index f) o (data f).
Definition set_data (d : field_data field) (f : field) := MkField (name f) (type f) (sub f) (size f) (offset f) (index f) (opts f) d.

Definition on_messages (g : list message → list message) (s : scheme) : scheme :=
  MkScheme (s_options s) (g (s_messages s)) (s_enums s) (s_aliases s) (s_unions s) (s_bits s).
Definition on_message (i : nat) (g : message → message) : scheme → scheme := on_messages (alter g i).

Definition on_m_unions (g : list union → list union) (m : message) : message :=
  MkMessage (m_name m) (m_msgid m) (m_size m) (m_fields m) (m_enums m) (g (m_unions m)) (m_bits m) (m_pmap m) (m_options m).
Definition on_m_bits (g : list bits → list bits) (m : message) : message :=
  MkMessage (m_name m) (m_msgid m) (m_size m) (m_fields m) (m_enums m) (m_unions m) (g (m_bits m)) (m_pmap m) (m_options m).
Definition on_m_field (p : nat) (g : field → field) (m : message) : message :=
  MkMessage (m_name m) (m_msgid m) (m_size m) (alter g p (m_fields m)) (m_enums m) (m_unions m) (m_bits m) (m_pmap m) (m_options m).
Definition set_m_size (n : Z) (m : message) : message :=
  MkMessage (m_name m) (m_msgid m) n (m_fields m) (m_enums m) (m_unions m) (m_bits m) (m_pmap m) (m_options m).
Definition set_m_pmap (p : option nat) (m : message) : message :=
  MkMessage (m_name m) (m_msgid m) (m_size m) (m_fields m) (m_enums m) (m_unions m) (m_bits m) p (m_options m).

Definition on_union (own : owner) (r : ref) (g : union → union) (s : scheme) : scheme :=
  match r, own with
  | Global k, _ => MkScheme (s_options s) (s_messages s) (s_enums s) (s_aliases s) (alter g k (s_unions s)) (s_bits s)
  | Local k, Some i => on_message i (on_m_unions (alter g k)) s
  | Local k, None => s
  end.

Definition set_u_type_ptr (f : field) (u : union) := MkUnion (u_name u) f (u_fields u) (u_union_size u) (u_options u).
Definition set_u_size (n : Z) (u : union) := MkUnion (u_name u) (u_type_ptr u) (u_fields u) n (u_options u).
Definition on_u_field (p : nat) (g : field → field) (u : union) :=
  MkUnion (u_name u) (u_type_ptr u) (alter g p (u_fields u)) (u_union_size u) (u_options u).

(** ** [tll_scheme_field_fix]

    A function that may fail returns whether it succeeded with the scheme it
    leaves; [None] is a null pointer that is followed or a recursion through
    messages without end.  [nm] is the name of the field, which its parent may
    just have set. *)
Definition fix_offset_ptr_options (v : offset_ptr_version) (o : options) : bool * options :=
  match v with
  | PTR_DEFAULT => (true, o)
  | _ =>
      match opt_get o (str "offset-ptr-type") with
      | None => (true, alloc_option (str "offset-ptr-type") (offset_ptr_type_name v) o)
      | Some t => (bool_decide (t = offset_ptr_type_name v), o)
      end
  end.

Definition offset_ptr_size (v : offset_ptr_version) : Z :=
  match v with PTR_DEFAULT => 8 | PTR_LEGACY_SHORT => 4 | PTR_LEGACY_LONG => 8 end.

(** The sizes of the plain types in [tll_scheme_field_fix]. *)
Definition type_size (t : field_type) : Z :=
  match t with
  | Int8 | UInt8 => 1 | Int16 | UInt16 => 2 | Int32 | UInt32 => 4
  | Int64 | UInt64 | Double => 8 | Decimal128 => 16
  | _ => 0
  end.

(** Fields with an enum or bits take their type from it. *)
Definition fix_sub (s : scheme) (own : owner) (f : field) : option field :=
  match sub f, data f with
  | Enum, DEnum r => let! e := get_enum s own r in Some (set_type (e_type e) f)
  | Bits, DBits _ r => let! b := get_bits s own r in Some (set_type (b_type b) (set_data (DBits (b_values b) r) f))
  | Enum, _ | Bits, _ => None
  | _, _ => Some f
  end.

(** The options that describe the sub type. *)
Definition fix_sub_options (s : scheme) (own : owner) (f : field) : option options :=
  let o := opts f in
  if opt_has o (str "type") then Some o else
  match sub f, data f with
  | Bits, DBits _ r =>
      let! b := get_bits s own r in
      Some (if opt_has (b_options b) (str "_auto") then alloc_option (str "type") (str "bits") o else o)
  | Enum, DEnum r =>
      let! e := get_enum s own r in
      Some (if opt_has (e_options e) (str "_auto") then alloc_option (str "type") (str "enum") o else o)
  | ByteString, _ => Some (alloc_option (str "type") (str "string") o)
  | Fixed, DFixed n => Some (alloc_option (str "type") (str "fixed" ++ dec n) o)
  | Duration, DTime r | TimePoint, DTime r =>
      let o := alloc_option (str "type") (if bool_decide (sub f = Duration) then str "duration" else str "time_point") o in
      Some (if opt_has o (str "resolution") then o else alloc_option (str "resolution") (time_resolution_str r) o)
  | SubNone, _ => Some o
  | _, _ => None
  end.

Definition fix_end (s : scheme) (own : owner) (f : field) : option (bool * scheme * field) :=
  let! o := fix_sub_options s own f in Some (true, s, set_opts o f).

(** [count-type] of an array whose counter has the type of [cnt]. *)
Definition fix_count_options (s : scheme) (own : owner) (cnt : field) (n : Z) (o : options) : option options :=
  let old := opt_get o (str "count-type") in
  if bool_decide (type cnt ≠ default_count_type n) || bool_decide (is_Some old) then
    let! t := dump_type s own cnt in
    Some (if bool_decide (is_Some old) then opt_replace o (str "count-type") t else alloc_option (str "count-type") t o)
  else Some o.

Section field_fix.
Context (message_fix : nat → scheme → option (bool * scheme)).

Fixpoint field_fix (s : scheme) (own : owner) (nm : option bytes) (f0 : field) {struct f0} : option (bool * scheme * field) :=
  let! f := fix_sub s own (set_name nm f0) in
  match type f with
  | Int8 | Int16 | Int32 | Int64 | UInt8 | UInt16 | UInt32 | UInt64 | Double | Decimal128 =>
      fix_end s own (set_size (type_size (type f)) f)
  | Bytes => fix_end s own (if size f =? 0 then set_size 1 f else f)
  | Array =>
      match data f0 with
      | DArray elem cnt n =>
          let! cname := match name cnt with Some c => Some c | None => let! c := nm in Some (c ++ str "_count") end in
          let! ename := match name elem with Some e => Some e | None => nm end in
          let! (_, s, cnt) := field_fix s own (Some cname) cnt in
          let! (_, s, elem) := field_fix s own (Some ename) elem in
          let elem := set_offset (size cnt) elem in
          let f := set_data (DArray elem cnt n) (set_size (u64 (size cnt + n * size elem)) f) in
          let! o := fix_count_options s own cnt n (opts f) in
          fix_end s own (set_opts o f)
      | _ => None
      end
  | Pointer =>
      match data f0 with
      | DPointer elem v =>
          let! ename := match name elem with Some e => Some e | None => nm end in
          let f := set_size (offset_ptr_size v) f in
          let '(ok, o) := fix_offset_ptr_options v (opts f) in
          let f := set_opts o f in
          if ok : bool then
            let! (ok, s, elem) := field_fix s own (Some ename) elem in
            Some (ok, s, set_data (DPointer elem v) f)
          else Some (false, s, set_data (DPointer (set_name (Some ename) elem) v) f)
      | _ => None
      end
  | Message =>
      match data f0 with
      | DMessage i =>
          let! m := s_messages s !! i in
          let! (ok, s) := if m_size m =? 0 then message_fix i s else Some (true, s) in
          if ok : bool then
            let! m := s_messages s !! i in
            fix_end s own (set_size (m_size m) f)
          else Some (false, s, f)
      | _ => None
      end
  | Union =>
      match data f0 with
      | DUnion r =>
          let! u := get_union s own r in
          fix_end s own (set_size (u64 (size (u_type_ptr u) + u_union_size u)) f)
      | _ => None
      end
  end.

(** [tll_scheme_union_fix] *)
Fixpoint union_fields_fix (s : scheme) (own : owner) (r : ref) (ps : list nat) : option (bool * scheme) :=
  match ps with
  | [] => Some (true, s)
  | p :: ps =>
      let! u := get_union s own r in
      let! f := u_fields u !! p in
      let! (ok, s, f) := field_fix s own (name f) (set_offset (size (u_type_ptr u)) f) in
      let s := on_union own r (on_u_field p (λ _, f)) s in
      if ok : bool then
        let f := set_index (Z.of_nat p) f in
        let s := on_union own r (on_u_field p (λ _, f)) s in
        let! u := get_union s own r in
        union_fields_fix (on_union own r (set_u_size (Z.max (u_union_size u) (size f))) s) own r ps
      else Some (false, s)
  end.

Definition union_fix (s : scheme) (own : owner) (r : ref) : option (bool * scheme) :=
  let! u := get_union s own r in
  let! (ok, s, f) := field_fix s own (name (u_type_ptr u)) (u_type_ptr u) in
  let s := on_union own r (set_u_type_ptr f) s in
  if ok : bool
  then union_fields_fix (on_union own r (set_u_size 0) s) own r (seq 0 (length (u_fields u)))
  else Some (false, s).

Fixpoint unions_fix (s : scheme) (own : owner) (rs : list ref) : option (bool * scheme) :=
  match rs with
  | [] => Some (true, s)
  | r :: rs =>
      let! (ok, s) := union_fix s own r in
      if ok : bool then unions_fix s own rs else Some (false, s)
  end.

(** The fields of message [i] from position [p] on. *)
Fixpoint fields_fix (s : scheme) (i : nat) (moptional : bool) (ps : list nat) (off idx : Z) : option (bool * scheme * Z) :=
  match ps with
  | [] => Some (true, s, off)
  | p :: ps =>
      let! m := s_messages s !! i in
      let! f := m_fields m !! p in
      let! (ok, s, f) := field_fix s (Some i) (name f) f in
      if negb ok then Some (false, on_message i (on_m_field p (λ _, f)) s, off) else
      let f := set_index (-1) f in
      let '(rd, pmap) := reader_getT false (opt_get (opts f)) None bool_to_any (str "pmap") (Some false) in
      let '(rd, optional) := reader_getT false (opt_get (opts f)) rd bool_to_any (str "optional") (Some moptional) in
      let! m := s_messages s !! i in
      if bool_decide (is_Some rd) || pmap && bool_decide (is_Some (m_pmap m))
      then Some (false, on_message i (on_m_field p (λ _, f)) s, off) else
      let s := if pmap then on_message i (set_m_pmap (Some p)) s else s in
      let indexed := negb pmap && optional && bool_decide (default [] (opt_get (opts f) (str "_auto")) = []) in
      let f := set_offset off (if indexed then set_index idx f else f) in
      fields_fix (on_message i (on_m_field p (λ _, f)) s) i moptional ps (u64 (off + size f)) (if indexed then idx + 1 else idx)
  end.
End field_fix.

Fixpoint bits_fix (l : list bits) : bool * list bits :=
  match l with
  | [] => (true, [])
  | b :: l =>
      match field_int_size (b_type b) with
      | None => (false, b :: l)
      | Some n =>
          let '(ok, l) := bits_fix l in
          (ok, MkBits (b_name b) (b_type b) n (b_values b) (b_options b) :: l)
      end
  end.

(** [tll_scheme_message_fix] of the message at [i]. *)
Fixpoint message_fix (fuel : nat) (i : nat) (s : scheme) : option (bool * scheme) :=
  match fuel with
  | O => None
  | S fuel =>
      let! m := s_messages s !! i in
      if negb (m_size m =? 0) then Some (true, s) else
      match getT_def bool_to_any (opt_get (m_options m)) (str "defaults.optional") false with
      | Err _ => Some (false, s)
      | Ok moptional =>
          let! (ok, s) := unions_fix (message_fix fuel) s (Some i) (Local <$> seq 0 (length (m_unions m))) in
          if negb ok then Some (false, s) else
          let! m := s_messages s !! i in
          let '(ok, l) := bits_fix (m_bits m) in
          let s := on_message i (on_m_bits (λ _, l)) s in
          if negb ok then Some (false, s) else
          let! (ok, s, off) := fields_fix (message_fix fuel) s i moptional (seq 0 (length (m_fields m))) 0 0 in
          if negb ok then Some (false, s) else Some (true, on_message i (set_m_size off) s)
      end
  end.

Fixpoint messages_fix (fuel : nat) (s : scheme) (ms : list nat) : option (bool * scheme) :=
  match ms with
  | [] => Some (true, s)
  | i :: ms =>
      let! (ok, s) := message_fix fuel i s in
      if ok : bool then messages_fix fuel s ms else Some (false, s)
  end.

Definition tll_scheme_fix (fuel : nat) (s : scheme) : option (bool * scheme) :=
  let! (ok, s) := unions_fix (message_fix fuel) s None (Global <$> seq 0 (length (s_unions s))) in
  if negb ok then Some (false, s) else
  let '(ok, l) := bits_fix (s_bits s) in
  let s := MkScheme (s_options s) (s_messages s) (s_enums s) (s_aliases s) (s_unions s) l in
  if negb ok then Some (false, s) else
  messages_fix fuel s (seq 0 (length (s_messages s))).
End Scheme.
