(* ===== verification/SchemeLayout.v ===== *)
(** * Schemes: what [tll_scheme_fix] computes

    The reference definition of the layout reads the sizes off the shape of the
    fields in one pass over the scheme.  For schemes that keep to [scheme_wf]
    [tll_scheme_fix] succeeds and agrees with it, and the fields of a message
    follow each other without gaps and do not overlap. *)
From S2P Require Import Prelude Conv Text Scheme.

Module SchemeLayout.
Import Conv Getter Scheme.
#[local] Arguments str : simpl never.

(** ** The reference layout *)
Inductive shape :=
| Plain (n : Z)
| Arr (count elem : shape) (n : Z)
| Ptr (elem : shape) (v : offset_ptr_version)
| Msg (i : nat)
| Uni (r : ref).

Definition is_int (t : field_type) : bool :=
  match t with Int8 | Int16 | Int32 | Int64 | UInt8 | UInt16 | UInt32 | UInt64 => true | _ => false end.

Fixpoint shape_of (s : scheme) (own : owner) (f : field) : option shape :=
  match sub f, data f with
  | Enum, DEnum r => let! e := get_enum s own r in Some (Plain (type_size (e_type e)))
  | Bits, DBits _ r => let! b := get_bits s own r in Some (Plain (type_size (b_type b)))
  | Enum, _ | Bits, _ => None
  | _, _ =>
      match type f with
      | Bytes => Some (Plain (if size f =? 0 then 1 else size f))
      | Array =>
          match data f with
          | DArray elem cnt n =>
              let! c := shape_of s own cnt in
              let! e := shape_of s own elem in
              Some (Arr c e n)
          | _ => None
          end
      | Pointer => match data f with DPointer elem v => let! e := shape_of s own elem in Some (Ptr e v) | _ => None end
      | Message => match data f with DMessage i => Some (Msg i) | _ => None end
      | Union => match data f with DUnion r => Some (Uni r) | _ => None end
      | t => Some (Plain (type_size t))
      end
  end.

(** Sizes of the messages and unions that a shape may refer to. *)
Record sizes := Sizes { z_messages : list Z; z_local : list Z; z_global : list Z }.

Definition ref_size (z : sizes) (r : ref) : option Z :=
  match r with Local k => z_local z !! k | Global k => z_global z !! k end.

Fixpoint shape_size (z : sizes) (sh : shape) : Z :=
  match sh with
  | Plain n => n
  | Arr c e n => u64 (shape_size z c + n * shape_size z e)
  | Ptr _ v => offset_ptr_size v
  | Msg i => default 0 (z_messages z !! i)
  | Uni r => default 0 (ref_size z r)
  end.

Definition spec_size (s : scheme) (own : owner) (z : sizes) (f : field) : Z :=
  default 0 (shape_size z <$> shape_of s own f).

Definition union_spec (s : scheme) (own : owner) (z : sizes) (u : union) : Z :=
  u64 (spec_size s own z (u_type_ptr u) + foldl Z.max 0 (spec_size s own z <$> u_fields u)).

Definition push (glob : bool) (n : Z) (z : sizes) : sizes :=
  if glob then Sizes (z_messages z) (z_local z) (z_global z ++ [n])
  else Sizes (z_messages z) (z_local z ++ [n]) (z_global z).

(** The sizes of the global unions, or of the unions of a message, each of
    which may refer to those before it. *)
Fixpoint unions_spec (glob : bool) (s : scheme) (own : owner) (z : sizes) (us : list union) : sizes :=
  match us with
  | [] => z
  | u :: us => unions_spec glob s own (push glob (union_spec s own z u) z) us
  end.

Definition total (off : Z) (l : list Z) : Z := foldl (λ a n, u64 (a + n)) off l.

Definition message_spec (s : scheme) (i : nat) (z : sizes) (m : message) : Z :=
  let z := unions_spec false s (Some i) (Sizes (z_messages z) [] (z_global z)) (m_unions m) in
  total 0 (spec_size s (Some i) z <$> m_fields m).

Fixpoint messages_spec (s : scheme) (i : nat) (z : sizes) (ms : list message) : sizes :=
  match ms with
  | [] => z
  | m :: ms => messages_spec s (S i) (Sizes (z_messages z ++ [message_spec s i z m]) [] (z_global z)) ms
  end.

Definition global_sizes (s : scheme) : sizes := unions_spec true s None (Sizes [] [] []) (s_unions s).
Definition scheme_spec (s : scheme) : sizes := messages_spec s 0 (global_sizes s) (s_messages s).

(** ** Schemes that can be fixed *)
Definition sub_ok (f : field) : bool :=
  match sub f, data f with
  | SubNone, _ | ByteString, _ | Fixed, DFixed _ | Duration, DTime _ | TimePoint, DTime _ => true
  | _, _ => false
  end.

Definition ptr_options_ok (v : offset_ptr_version) (o : options) : bool := (fix_offset_ptr_options v o).1.

(** Names are set, references lead to descriptors that come before, a message
    is not used as a field while it is empty, counters are plain integers, and
    the options do not contradict the descriptor. *)
Fixpoint field_wf (s : scheme) (own : owner) (z : sizes) (f : field) : bool :=
  bool_decide (is_Some (name f)) &&
  match sub f, data f with
  | Enum, DEnum r => match get_enum s own r with Some e => is_int (e_type e) | None => false end
  | Bits, DBits _ r => match get_bits s own r with Some b => is_int (b_type b) | None => false end
  | _, d =>
      sub_ok f &&
      match type f, d with
      | Array, DArray elem cnt n =>
          bool_decide (sub f = SubNone) && bool_decide (sub cnt = SubNone) && is_int (type cnt)
          && field_wf s own z cnt && field_wf s own z elem
      | Pointer, DPointer elem v => ptr_options_ok v (opts f) && field_wf s own z elem
      | Message, DMessage i => match z_messages z !! i with Some n => negb (n =? 0) | None => false end
      | Union, DUnion r => bool_decide (is_Some (ref_size z r))
      | Array, _ | Pointer, _ | Message, _ | Union, _ => false
      | _, DPointer _ _ | _, DArray _ _ _ => false
      | _, _ => true
      end
  end.

Definition union_wf (s : scheme) (own : owner) (z : sizes) (u : union) : bool :=
  field_wf s own z (u_type_ptr u) && forallb (field_wf s own z) (u_fields u).

Fixpoint unions_wf (glob : bool) (s : scheme) (own : owner) (z : sizes) (us : list union) : bool :=
  match us with
  | [] => true
  | u :: us => union_wf s own z u && unions_wf glob s own (push glob (union_spec s own z u) z) us
  end.

Definition option_flag (o : options) (key : bytes) (def : bool) : result get_error bool := getT_def bool_to_any (opt_get o) key def.

Definition flag_ok (o : options) (key : bytes) : bool := match option_flag o key false with Ok _ => true | Err _ => false end.
Definition is_pmap (f : field) : bool := match option_flag (opts f) (str "pmap") false with Ok b => b | Err _ => false end.

Definition pmap_count (l : list field) : nat := length (filter (λ f, is_pmap f = true) l).

Definition flags_ok (f : field) : bool := flag_ok (opts f) (str "pmap") && flag_ok (opts f) (str "optional").

Definition message_wf (s : scheme) (i : nat) (z : sizes) (m : message) : bool :=
  let z0 := Sizes (z_messages z) [] (z_global z) in
  (m_size m =? 0) && bool_decide (m_pmap m = None)
  && flag_ok (m_options m) (str "defaults.optional")
  && forallb (λ b, is_int (b_type b)) (m_bits m)
  && unions_wf false s (Some i) z0 (m_unions m)
  && forallb (field_wf s (Some i) (unions_spec false s (Some i) z0 (m_unions m))) (m_fields m)
  && forallb flags_ok (m_fields m)
  && (pmap_count (m_fields m) <=? 1)%nat.

Fixpoint messages_wf (s : scheme) (i : nat) (z : sizes) (ms : list message) : bool :=
  match ms with
  | [] => true
  | m :: ms =>
      message_wf s i z m
      && messages_wf s (S i) (Sizes (z_messages z ++ [message_spec s i z m]) [] (z_global z)) ms
  end.

Definition scheme_wf (s : scheme) : bool :=
  unions_wf true s None (Sizes [] [] []) (s_unions s)
  && forallb (λ b, is_int (b_type b)) (s_bits s)
  && messages_wf s 0 (global_sizes s) (s_messages s).

(** ** Fields *)
Lemma field_nested_ind (P : field → Prop) :
  (∀ f, match data f with DPointer elem _ => P elem | DArray elem cnt _ => P elem ∧ P cnt | _ => True end → P f) →
  ∀ f, P f.
Proof.
  intros H. fix IH 1. intros f. apply H. destruct f as [? ? ? ? ? ? ? d]; cbn. destruct d; try exact I; [|split]; apply IH.
Qed.

(** The sizes stand for what is in the scheme. *)
Record sized (s : scheme) (own : owner) (z : sizes) : Prop := {
  sized_messages : ∀ i n, z_messages z !! i = Some n → ∃ m, s_messages s !! i = Some m ∧ m_size m = n;
  sized_unions : ∀ r n, ref_size z r = Some n →
    ∃ u, get_union s own r = Some u ∧ u64 (size (u_type_ptr u) + u_union_size u) = n;
}.

(** A field, with the fields nested in it, has its size. *)
Fixpoint laid (s : scheme) (own : owner) (z : sizes) (f : field) : Prop :=
  is_Some (shape_of s own f) ∧ size f = spec_size s own z f ∧
  match data f with
  | DArray elem cnt _ => laid s own z elem ∧ laid s own z cnt ∧ offset elem = size cnt
  | DPointer elem _ => laid s own z elem
  | _ => True
  end.

Lemma laid_size s own z f : laid s own z f → ∃ sh, shape_of s own f = Some sh ∧ size f = shape_size z sh.
Proof.
  destruct f. cbn [laid]. intros ([sh E] & -> & _). exists sh. split; [done|]. unfold spec_size. by rewrite E.
Qed.

Lemma shape_set_offset s own n f : shape_of s own (set_offset n f) = shape_of s own f.
Proof. by destruct f. Qed.

Lemma laid_set_offset s own z n f : laid s own z (set_offset n f) ↔ laid s own z f.
Proof. by destruct f. Qed.

Lemma laid_set_index s own z n f : laid s own z (set_index n f) ↔ laid s own z f.
Proof. by destruct f. Qed.

(** The options that [tll_scheme_field_fix] adds. *)
Definition added : list bytes := [str "type"; str "resolution"; str "offset-ptr-type"; str "count-type"].

Definition same_opts (o o' : options) : Prop := ∀ k, k ∉ added → opt_get o' k = opt_get o k.

Lemma same_opts_trans o o1 o2 : same_opts o o1 → same_opts o1 o2 → same_opts o o2.
Proof. intros H1 H2 k Hk. by rewrite H2, H1. Qed.

Lemma same_opts_alloc k v o : k ∈ added → same_opts o (alloc_option k v o).
Proof. intros Hk k' Hk'. cbn. case_bool_decide; [by subst|done]. Qed.

Lemma same_opts_replace k v o : k ∈ added → same_opts o (opt_replace o k v).
Proof.
  intros Hk k' Hk'. induction o as [|[k1 v1] o IH]; cbn; [done|].
  case_bool_decide; cbn; case_bool_decide; subst; done.
Qed.

Lemma fix_offset_ptr_options_same v o : same_opts o (fix_offset_ptr_options v o).2.
Proof.
  destruct v; [done| |]; cbn; destruct (opt_get o (str "offset-ptr-type")); try done;
    apply same_opts_alloc; unfold added; set_solver.
Qed.

Lemma fix_sub_options_spec s own f :
  sub_ok f = true ∨ (∃ r e, sub f = Enum ∧ data f = DEnum r ∧ get_enum s own r = Some e)
    ∨ (∃ l r b, sub f = Bits ∧ data f = DBits l r ∧ get_bits s own r = Some b) →
  ∃ o, fix_sub_options s own f = Some o ∧ same_opts (opts f) o.
Proof.
  intros H. unfold fix_sub_options. destruct (opt_has (opts f) (str "type")); [by eexists|].
  assert (∀ v o, same_opts o (alloc_option (str "type") v o)) as Ht by (intros; apply same_opts_alloc; unfold added; set_solver).
  destruct H as [H|[(r & e & -> & -> & ->)|(l & r & b & -> & -> & ->)]]; cbn [mbind option_bind].
  - unfold sub_ok in H. destruct (sub f), (data f); try discriminate; try (by eexists);
      case_match; eexists; (split; [done|]); try (eapply same_opts_trans; [apply Ht|]; apply same_opts_alloc; unfold added; set_solver); apply Ht.
  - case_match; eexists; (split; [done|]); [apply Ht|done].
  - case_match; eexists; (split; [done|]); [apply Ht|done].
Qed.

(** What fixing a field gives, next to the size. *)
Record fixed (s : scheme) (own : owner) (z : sizes) (nm : option bytes) (f f' : field) : Prop := {
  fixed_laid : laid s own z f';
  fixed_shape : shape_of s own f' = shape_of s own f;
  fixed_name : name f' = nm;
  fixed_opts : same_opts (opts f) (opts f');
  fixed_type : sub f' = sub f ∧ (sub f = SubNone → type f' = type f);
  fixed_offset : offset f' = offset f;
}.

Lemma fix_end_spec s own f :
  sub_ok f = true ∨ (∃ r e, sub f = Enum ∧ data f = DEnum r ∧ get_enum s own r = Some e)
    ∨ (∃ l r b, sub f = Bits ∧ data f = DBits l r ∧ get_bits s own r = Some b) →
  ∃ o, fix_end s own f = Some (true, s, set_opts o f) ∧ same_opts (opts f) o.
Proof. intros (o & E & Ho)%fix_sub_options_spec. exists o. unfold fix_end. by rewrite E. Qed.

Lemma dump_type_int s own f : sub f = SubNone → is_int (type f) = true → ∃ t, dump_type s own f = Some t.
Proof. destruct f as [? t sb ? ? ? ? d]. cbn. intros -> Ht. destruct t; try discriminate; by eexists. Qed.

Lemma fix_count_options_spec s own cnt n o :
  (∃ t, dump_type s own cnt = Some t) → ∃ o', fix_count_options s own cnt n o = Some o' ∧ same_opts o o'.
Proof.
  intros [t Et]. unfold fix_count_options. case_match; [|by eexists]. rewrite Et. cbn.
  eexists. split; [done|]. case_match; [apply same_opts_replace|apply same_opts_alloc]; unfold added; set_solver.
Qed.

Ltac bsplit := repeat match goal with H : _ && _ = true |- _ => apply andb_prop in H as [? H] end.

(** Evaluate accesses to fields only. *)
Ltac fcbn :=
  unfold set_name, set_type, set_size, set_offset, set_index, set_opts, set_data;
  cbn [name type sub size offset index opts data type_size].
Ltac fcbn_in H :=
  unfold set_name, set_type, set_size, set_offset, set_index, set_opts, set_data in H;
  cbn [name type sub size offset index opts data type_size] in H.

Section field_fix.
Context (cb : nat → scheme → option (bool * scheme)) (s : scheme) (own : owner) (z : sizes).

Definition fixes (nm : option bytes) (f : field) : Prop :=
  ∃ f', field_fix cb s own nm f = Some (true, s, f') ∧ fixed s own z nm f f'.

Lemma field_fix_enum nm f r e :
  sub f = Enum → data f = DEnum r → get_enum s own r = Some e → is_int (e_type e) = true → fixes nm f.
Proof.
  intros Es Ed Ee Hi. destruct f as [nm0 t sb n off ix o d]. cbn in Es, Ed. subst sb d.
  unfold fixes. cbn [field_fix fix_sub set_name sub data]. rewrite Ee. cbn [mbind option_bind type set_type].
  destruct (fix_end_spec s own (set_size (type_size (e_type e)) (MkField nm (e_type e) Enum n off ix o (DEnum r))))
    as (o' & E & Ho); [right; left; by exists r, e|].
  destruct (e_type e) eqn:Et; try discriminate; fcbn; fcbn_in E; rewrite E; eexists; (split; [done|]);
    split; cbn; unfold spec_size; cbn; rewrite ?Ee; cbn; rewrite ?Et; eauto; done.
Qed.

Lemma field_fix_bits nm f l r b :
  sub f = Bits → data f = DBits l r → get_bits s own r = Some b → is_int (b_type b) = true → fixes nm f.
Proof.
  intros Es Ed Ee Hi. destruct f as [nm0 t sb n off ix o d]. cbn in Es, Ed. subst sb d.
  unfold fixes. cbn [field_fix fix_sub set_name sub data]. rewrite Ee. cbn [mbind option_bind type set_type].
  destruct (fix_end_spec s own (set_size (type_size (b_type b)) (MkField nm (b_type b) Bits n off ix o (DBits (b_values b) r))))
    as (o' & E & Ho); [right; right; by exists (b_values b), r, b|].
  destruct (b_type b) eqn:Et; try discriminate; fcbn; fcbn_in E; rewrite E; eexists; (split; [done|]);
    split; cbn; unfold spec_size; cbn; rewrite ?Ee; cbn; rewrite ?Et; eauto; done.
Qed.

(** Types without nested fields: the size is that of the shape. *)
Lemma fix_plain nm f g n :
  fix_sub s own (set_name nm f) = Some (set_name nm f) → sub_ok f = true →
  match data f with DPointer _ _ | DArray _ _ _ => False | _ => True end →
  g = set_size n (set_name nm f) →
  shape_of s own g = shape_of s own f → spec_size s own z f = n → is_Some (shape_of s own f) →
  ∃ f', fix_end s own g = Some (true, s, f') ∧ fixed s own z nm f f'.
Proof.
  intros _ Hs Hd -> Hsh Hn Hi.
  destruct (fix_end_spec s own (set_size n (set_name nm f))) as (o & E & Ho); [by left; destruct f|].
  exists (set_opts o (set_size n (set_name nm f))). split; [done|].
  assert (shape_of s own (set_opts o (set_size n (set_name nm f))) = shape_of s own f) as Esh.
  { rewrite <-Hsh. destruct f as [? t sb ? ? ? ? d]. by destruct t, sb, d. }
  destruct f as [? t sb ? ? ? ? d]. split; [|done|done|done|done|done].
  fcbn. fcbn_in Esh. cbn [laid size]. unfold spec_size in *. rewrite Esh.
  split; [done|]. split; [done|]. by destruct d.
Qed.

Lemma field_fix_spec : sized s own z → ∀ f nm, is_Some nm → field_wf s own z f = true → fixes nm f.
Proof.
  intros Hz. induction f as [f IH] using field_nested_ind. intros nm Hnm Hwf.
  destruct f as [nm0 t sb n off ix o d]. cbn [field_wf name sub data type opts] in Hwf.
  apply andb_prop in Hwf as [Hname%bool_decide_eq_true Hwf].
  destruct (decide (sb = Enum)) as [->|Hne].
  { destruct d; try discriminate. destruct (get_enum s own type_enum) as [e|] eqn:Ee; [|done].
    by eapply field_fix_enum. }
  destruct (decide (sb = Bits)) as [->|Hnb].
  { destruct d; try discriminate. destruct (get_bits s own type_bits) as [b|] eqn:Ee; [|done].
    by eapply field_fix_bits. }
  assert (sub_ok (MkField nm0 t sb n off ix o d) &&
      match t, d with
      | Array, DArray elem cnt n =>
          bool_decide (sb = SubNone) && bool_decide (sub cnt = SubNone) && is_int (type cnt)
          && field_wf s own z cnt && field_wf s own z elem
      | Pointer, DPointer elem v => ptr_options_ok v o && field_wf s own z elem
      | Message, DMessage i => match z_messages z !! i with Some n => negb (n =? 0) | None => false end
      | Union, DUnion r => bool_decide (is_Some (ref_size z r))
      | Array, _ | Pointer, _ | Message, _ | Union, _ => false
      | _, DPointer _ _ | _, DArray _ _ _ => false
      | _, _ => true
      end = true) as H by (by destruct sb).
  clear Hwf. apply andb_prop in H as [Hs H].
  assert (fix_sub s own (MkField nm t sb n off ix o d) = Some (MkField nm t sb n off ix o d)) as Ef by (by destruct sb).
  unfold fixes. destruct t; cbn [field_fix]; fcbn; rewrite Ef; cbn [mbind option_bind type].
  all: try (eapply fix_plain; [done|done|by destruct d|done|by destruct sb|by destruct sb|by destruct sb]).
  - (* Bytes *)
    eapply (fix_plain nm _ _ (if n =? 0 then 1 else n)); [done|done|by destruct d| |..];
      fcbn; destruct (n =? 0) eqn:E; try done; destruct sb; try done; unfold spec_size; cbn; by rewrite ?E.
  - (* Message *)
    destruct d as [|i| | | | | | |]; try discriminate. destruct (z_messages z !! i) as [k|] eqn:Ek; [|done].
    destruct (sized_messages _ _ _ Hz i k Ek) as (m & Em & Hm). cbn [data]. rewrite Em. cbn [mbind option_bind].
    rewrite Hm. apply negb_true_iff in H. rewrite H. cbn [mbind option_bind]. rewrite Em. cbn [mbind option_bind]. fcbn. rewrite Hm.
    eapply (fix_plain nm _ _ k); try done; try (by destruct sb).
    unfold spec_size. cbn [shape_of sub type data]. destruct sb; try done; cbn; by rewrite Ek.
  - (* Array *)
    destruct d as [| | |elem cnt c| | | | |]; try discriminate. cbn [data] in IH |- *. destruct IH as [IHe IHc].
    bsplit. repeat match goal with H : bool_decide _ = true |- _ => apply bool_decide_eq_true in H end. subst sb.
    assert (∀ g, field_wf s own z g = true → is_Some (name g)) as Hn.
    { intros g Hg. destruct g; cbn in Hg. bsplit. by eapply bool_decide_eq_true. }
    destruct (Hn cnt) as [cn Ecn]; [done|]. destruct (Hn elem) as [en Een]; [done|].
    rewrite Ecn, Een. cbn [mbind option_bind].
    destruct (IHc (Some cn)) as (cnt' & Ecnt & Hcnt); [done|done|].
    destruct (IHe (Some en)) as (elem' & Eelem & Helem); [done|done|].
    rewrite Ecnt. cbn [mbind option_bind]. rewrite Eelem. cbn [mbind option_bind].
    destruct Hcnt as [Lc Sc Nc Oc [Tc Tc'] _], Helem as [Le Se Ne Oe Te _].
    destruct (fix_count_options_spec s own cnt' c o) as (o1 & E1 & Ho1).
    { apply dump_type_int; [congruence|]. by rewrite Tc'. }
    fcbn. rewrite E1. cbn [mbind option_bind].
    match goal with |- context [fix_end s own ?g] => destruct (fix_end_spec s own g) as (o2 & E2 & Ho2); [by left|] end.
    rewrite E2. eexists. split; [done|]. fcbn_in Ho2.
    change (MkField (name elem') (type elem') (sub elem') (size elem') (size cnt') (index elem') (opts elem') (data elem'))
      with (set_offset (size cnt') elem').
    destruct (laid_size _ _ _ _ Lc) as (shc & Ec & Zc), (laid_size _ _ _ _ Le) as (she & Ee & Ze).
    assert (∀ k off' ix' o' nm', shape_of s own (MkField nm' Array SubNone k off' ix' o' (DArray (set_offset (size cnt') elem') cnt' c)) = Some (Arr shc she c)) as Esh.
    { intros. cbn [shape_of sub type data]. by rewrite shape_set_offset, Ec, Ee. }
    split; fcbn; [| |done|by eapply same_opts_trans|done|done].
    + cbn [laid data size]. unfold spec_size. rewrite Esh. split; [done|]. split; [cbn; by rewrite Zc, Ze|].
      split; [|split; [exact Lc|done]]. by apply laid_set_offset.
    + rewrite Esh. cbn [shape_of sub type data]. by rewrite <-Sc, <-Se, Ec, Ee.
  - (* Pointer *)
    destruct d as [| |elem v| | | | | |]; try discriminate. cbn [data] in IH |- *.
    bsplit. assert (is_Some (name elem)) as [en Een].
    { destruct elem; cbn in H. bsplit. by eapply bool_decide_eq_true. }
    rewrite Een. cbn [mbind option_bind].
    destruct (IH (Some en)) as (elem' & Eelem & [Le Se Ne Oe Te _]); [done|done|].
    pose proof (fix_offset_ptr_options_same v o) as Ho. unfold ptr_options_ok in *. fcbn.
    destruct (fix_offset_ptr_options v o) as [ok o']. cbn in H0, Ho. subst ok.
    cbn [mbind option_bind].  unfold set_name in Eelem. rewrite Eelem. cbn [mbind option_bind].
    eexists. split; [done|]. destruct (laid_size _ _ _ _ Le) as (she & Ee & Ze).
    assert (∀ k off' ix' o' nm' x, shape_of s own x = Some she → shape_of s own (MkField nm' Pointer sb k off' ix' o' (DPointer x v)) = Some (Ptr she v)) as Esh.
    { intros ?????? Ex. destruct sb; try done; cbn [shape_of sub type data]; by rewrite Ex. }
    split; fcbn; [|rewrite !Esh; congruence|done|done|done|done].
    cbn [laid data size]. unfold spec_size. by rewrite Esh.
  - (* Union *)
    destruct d as [| | | | | | | |r]; try discriminate. cbn [data]. apply bool_decide_eq_true in H as [k Ek].
    destruct (sized_unions _ _ _ Hz r k Ek) as (u & Eu & Hu). rewrite Eu. cbn [mbind option_bind]. fcbn. rewrite Hu.
    eapply (fix_plain nm _ _ k); try done; try (by destruct sb).
    unfold spec_size. cbn [shape_of sub type data]. destruct sb; try done; cbn; by rewrite Ek.
Qed.
End field_fix.

(** ** Schemes with the same types *)
Record same_env (s s' : scheme) (own : owner) : Prop := {
  same_enum : ∀ r, get_enum s' own r = get_enum s own r;
  same_bits : ∀ r, b_type <$> get_bits s' own r = b_type <$> get_bits s own r;
}.

Lemma same_bits_get s s' own r b : same_env s s' own → get_bits s own r = Some b →
  ∃ b', get_bits s' own r = Some b' ∧ b_type b' = b_type b.
Proof.
  intros [_ H] E. specialize (H r). rewrite E in H. cbn in H.
  apply fmap_Some in H as (b' & -> & ?). by eexists.
Qed.

Lemma same_bits_none s s' own r : same_env s s' own → get_bits s own r = None → get_bits s' own r = None.
Proof. intros [_ H] E. specialize (H r). rewrite E in H. by apply fmap_None in H. Qed.

Ltac nested IH :=
  match type of IH with
  | _ ∧ _ => let H1 := fresh in let H2 := fresh in destruct IH as [H1 H2]; rewrite ?H1, ?H2
  | _ => rewrite ?IH
  end.

Lemma shape_same s s' own f : same_env s s' own → shape_of s' own f = shape_of s own f.
Proof.
  intros H. induction f as [[nm t sb n off ix o d] IH] using field_nested_ind. cbn [data] in IH.
  assert (∀ r, get_enum s' own r = get_enum s own r) as He by apply H.
  destruct sb; cbn [shape_of sub data type].
  all: try (destruct t, d; try done; cbn [mbind option_bind]; by nested IH).
  - destruct d; try done. by rewrite He.
  - destruct d; try done. destruct (get_bits s own type_bits) as [b|] eqn:E.
    + destruct (same_bits_get _ _ _ _ _ H E) as (b' & -> & Eb). cbn. by rewrite Eb.
    + by rewrite (same_bits_none _ _ _ _ H E).
Qed.

Lemma spec_same s s' own z f : same_env s s' own → spec_size s' own z f = spec_size s own z f.
Proof. intros H. unfold spec_size. by rewrite (shape_same s s'). Qed.

Lemma laid_same s s' own z f : same_env s s' own → laid s' own z f ↔ laid s own z f.
Proof.
  intros H. induction f as [[nm t sb n off ix o d] IH] using field_nested_ind. cbn [data] in IH.
  cbn [laid data size]. rewrite (shape_same s s'), (spec_same s s') by done.
  destruct d; try done; [by rewrite IH|destruct IH as [-> ->]; done].
Qed.

Lemma field_wf_same s s' own z f : same_env s s' own → field_wf s' own z f = field_wf s own z f.
Proof.
  intros H. induction f as [[nm t sb n off ix o d] IH] using field_nested_ind. cbn [data] in IH.
  assert (∀ r, get_enum s' own r = get_enum s own r) as He by apply H.
  cbn [field_wf name sub data type opts]. f_equal.
  destruct sb; try (f_equal; destruct t, d; try done; by nested IH).
  - destruct d; try done. by rewrite He.
  - destruct d; try done. destruct (get_bits s own type_bits) as [b|] eqn:E.
    + destruct (same_bits_get _ _ _ _ _ H E) as (b' & -> & Eb). by rewrite Eb.
    + by rewrite (same_bits_none _ _ _ _ H E).
Qed.

Lemma fixed_same s s' own z nm f f' : same_env s s' own → fixed s' own z nm f f' ↔ fixed s own z nm f f'.
Proof.
  intros H. split; intros [Hl Hs ????]; split; try done;
    rewrite ?(laid_same s s'), ?(shape_same s s') in *; try done.
Qed.

Lemma union_spec_same s s' own z u : same_env s s' own → union_spec s' own z u = union_spec s own z u.
Proof.
  intros H. unfold union_spec. rewrite (spec_same s s') by done. do 2 f_equal. f_equal.
  apply list_fmap_ext. intros. by apply spec_same.
Qed.

Lemma fields_wf_same s s' own z l : same_env s s' own → forallb (field_wf s' own z) l = forallb (field_wf s own z) l.
Proof. intros H. induction l as [|f l IH]; [done|]. cbn. by rewrite IH, (field_wf_same s s'). Qed.

Lemma union_wf_same s s' own z u : same_env s s' own → union_wf s' own z u = union_wf s own z u.
Proof.
  intros H. unfold union_wf. by rewrite (field_wf_same s s'), (fields_wf_same s s').
Qed.

Lemma unions_wf_same glob s s' own us : same_env s s' own → ∀ z, unions_wf glob s' own z us = unions_wf glob s own z us.
Proof.
  intros H. induction us as [|u us IH]; intros z; [done|]. cbn. by rewrite (union_wf_same s s'), (union_spec_same s s'), IH.
Qed.

Lemma unions_spec_same glob s s' own us : same_env s s' own → ∀ z, unions_spec glob s' own z us = unions_spec glob s own z us.
Proof.
  intros H. induction us as [|u us IH]; intros z; [done|]. cbn. by rewrite (union_spec_same s s'), IH.
Qed.

(** ** Unions *)
Definition mk (glob : bool) (k : nat) : ref := if glob then Global k else Local k.

Definition get_unions (glob : bool) (s : scheme) (own : owner) : option (list union) :=
  if glob then Some (s_unions s) else m_unions <$> get_message s own.

Definition on_unions (glob : bool) (own : owner) (g : list union → list union) (s : scheme) : scheme :=
  if glob then MkScheme (s_options s) (s_messages s) (s_enums s) (s_aliases s) (g (s_unions s)) (s_bits s)
  else match own with Some i => on_message i (on_m_unions g) s | None => s end.

Lemma on_union_unions glob own k g s : on_union own (mk glob k) g s = on_unions glob own (alter g k) s.
Proof. by destruct glob, own. Qed.

Lemma get_union_unions glob own k s : get_union s own (mk glob k) = let! l := get_unions glob s own in l !! k.
Proof. destruct glob; [done|]. cbn. by destruct (get_message s own). Qed.

Lemma get_message_on i g s : get_message (on_message i g s) (Some i) = g <$> get_message s (Some i).
Proof. cbn. by rewrite list_lookup_alter_eq. Qed.

Lemma on_message_comp i f g s : on_message i f (on_message i g s) = on_message i (f ∘ g) s.
Proof. unfold on_message, on_messages. cbn. by rewrite list_alter_alter_eq. Qed.

Lemma on_message_ext i f g s : (∀ m, s_messages s !! i = Some m → f m = g m) → on_message i f s = on_message i g s.
Proof. intros H. unfold on_message, on_messages. f_equal. by apply list_alter_ext. Qed.

Lemma get_unions_on glob own g s l :
  get_unions glob s own = Some l → get_unions glob (on_unions glob own g s) own = Some (g l).
Proof.
  destruct glob; cbn [get_unions on_unions]; [by intros [= <-]|].
  destruct own as [i|]; [|done]. rewrite get_message_on. by destruct (get_message s (Some i)); [intros [= <-]|].
Qed.

Lemma on_unions_comp glob own f g s : on_unions glob own f (on_unions glob own g s) = on_unions glob own (f ∘ g) s.
Proof. destruct glob; [done|]. destruct own; [|done]. cbn. by rewrite on_message_comp. Qed.

Lemma on_unions_ext glob own f g s l :
  get_unions glob s own = Some l → f l = g l → on_unions glob own f s = on_unions glob own g s.
Proof.
  destruct glob; cbn; [by intros [= ->] <-|]. destruct own as [i|]; [|done]. cbn. intros E Hl.
  apply on_message_ext. intros m Em. rewrite Em in E. injection E as <-. unfold on_m_unions. by rewrite Hl.
Qed.

Lemma on_unions_const glob own f s l :
  get_unions glob s own = Some l → on_unions glob own f s = on_unions glob own (λ _, f l) s.
Proof. intros H. by eapply on_unions_ext. Qed.

Lemma same_env_unions glob own g s : same_env s (on_unions glob own g s) own.
Proof.
  destruct glob; [by split|]. destruct own as [i|]; [|by split]. cbn [on_unions].
  split; intros [k|k]; try done; cbn [get_enum get_bits]; rewrite get_message_on; by destruct (get_message s (Some i)).
Qed.

Lemma sized_unions_push glob s own z g :
  sized s own z →
  (∀ k n, ref_size z (mk glob k) = Some n → ∀ l, get_unions glob s own = Some l → g l !! k = l !! k) →
  sized (on_unions glob own g s) own z.
Proof.
  intros [Hm Hu] Hg. split.
  - intros i n E. destruct (Hm i n E) as (m & Em & Hn). destruct glob; [by exists m|].
    destruct own as [j|]; [|by exists m]. cbn. destruct (decide (i = j)) as [->|].
    + rewrite list_lookup_alter_eq, Em. by eexists.
    + rewrite list_lookup_alter_ne by done. by exists m.
  - intros r n E. destruct (Hu r n E) as (u & Eu & Hn). exists u. split; [|done].
    destruct (decide (r = mk glob (match r with Local k | Global k => k end))) as [Er|Hne].
    + rewrite Er in E, Eu |- *. rewrite get_union_unions in Eu |- *.
      destruct (get_unions glob s own) as [l|] eqn:El; [|done].
      rewrite (get_unions_on _ _ _ _ l El). cbn in Eu |- *. by erewrite Hg.
    + destruct glob, r as [k|k]; try done. by destruct own.
Qed.

Section one_union.
Context (cb : nat → scheme → option (bool * scheme)) (glob : bool) (own : owner) (k : nat).
Abbreviation r := (mk glob k).

Lemma get_union_on s g u : get_union s own r = Some u → get_union (on_union own r g s) own r = Some (g u).
Proof.
  rewrite on_union_unions, !get_union_unions. destruct (get_unions glob s own) as [l|] eqn:El; [|done].
  rewrite (get_unions_on _ _ _ _ l El). cbn. intros E. by rewrite list_lookup_alter_eq, E.
Qed.

Lemma on_union_comp f g s : on_union own r f (on_union own r g s) = on_union own r (f ∘ g) s.
Proof.
  rewrite !on_union_unions, on_unions_comp. destruct (get_unions glob s own) as [l|] eqn:El.
  - eapply on_unions_ext; [done|]. cbn. by rewrite list_alter_alter_eq.
  - destruct glob; [done|]. destruct own as [i|]; [|done]. cbn in El |- *. apply on_message_ext.
    intros m Em. by rewrite Em in El.
Qed.

Lemma on_union_ext f g s u : get_union s own r = Some u → f u = g u → on_union own r f s = on_union own r g s.
Proof.
  rewrite !on_union_unions, get_union_unions. destruct (get_unions glob s own) as [l|] eqn:El; [|done]. cbn.
  intros E Hu. eapply on_unions_ext; [done|]. apply list_alter_ext; [|done]. intros ? ?. by simplify_eq.
Qed.

Lemma same_env_union g s : same_env s (on_union own r g s) own.
Proof. rewrite on_union_unions. apply same_env_unions. Qed.

Lemma sized_union s z g : ref_size z r = None → sized s own z → sized (on_union own r g s) own z.
Proof.
  intros Hr Hz. rewrite on_union_unions. apply sized_unions_push; [done|].
  intros k' n E l _. apply list_lookup_alter_ne. congruence.
Qed.

Definition member_done (s : scheme) (z : sizes) (off : Z) (f f' : field) : Prop :=
  fixed s own z (name f) (set_offset off f) f'.

Lemma member_fix s z off f :
  sized s own z → field_wf s own z f = true →
  ∃ f', field_fix cb s own (name f) (set_offset off f) = Some (true, s, f') ∧ ∀ ix, member_done s z off f (set_index ix f').
Proof.
  intros Hz Hwf. assert (is_Some (name f)) as Hn.
  { destruct f. cbn in Hwf. bsplit. by eapply bool_decide_eq_true. }
  destruct (field_fix_spec cb s own z Hz (set_offset off f) (name f)) as (f' & E & [Hl Hs Hname Ho Ht Hoff]); [done|by destruct f|].
  exists f'. split; [done|]. intros ix. split; try done; [by apply laid_set_index|]. by destruct f'.
Qed.

Lemma on_union_id s : on_union own r id s = s.
Proof.
  assert (∀ l : list union, alter id k l = l) as Ha by (intros; by apply list_alter_id).
  rewrite on_union_unions. destruct glob; cbn [on_unions]; [rewrite Ha; by destruct s|].
  destruct own as [i|]; [|done]. destruct s. unfold on_message, on_messages. cbn. f_equal.
  apply list_alter_id. intros []. unfold on_m_unions. cbn. by rewrite Ha.
Qed.

Lemma member_same s s' z off f f' : same_env s s' own → member_done s' z off f f' ↔ member_done s z off f f'.
Proof. apply fixed_same. Qed.

Lemma union_fields_fix_spec z todo : ∀ (done : list field) s u,
  get_union s own r = Some u → u_fields u = done ++ todo → ref_size z r = None → sized s own z →
  forallb (field_wf s own z) todo = true →
  ∃ todo', Forall2 (member_done s z (size (u_type_ptr u))) todo todo' ∧
    union_fields_fix cb s own r (seq (length done) (length todo)) =
      Some (true, on_union own r (λ _, MkUnion (u_name u) (u_type_ptr u) (done ++ todo')
                                         (foldl Z.max (u_union_size u) (size <$> todo')) (u_options u)) s).
Proof.
  induction todo as [|f todo IH]; intros done_ s u Eu Ef Hr Hz Hwf.
  - exists []. split; [done|]. cbn [union_fields_fix seq length]. do 2 f_equal.
    rewrite <-(on_union_ext id _ s u Eu), on_union_id; [done|]. destruct u; cbn in *. by rewrite Ef.
  - cbn [forallb] in Hwf. apply andb_prop in Hwf as [Hf Hwf].
    destruct (member_fix s z (size (u_type_ptr u)) f Hz Hf) as (f' & E & Hd).
    set (f1 := set_index (Z.of_nat (length done_)) f').
    set (u1 := MkUnion (u_name u) (u_type_ptr u) ((done_ ++ [f1]) ++ todo) (Z.max (u_union_size u) (size f1)) (u_options u)).
    set (s1 := on_union own r (λ _, u1) s).
    destruct (IH (done_ ++ [f1]) s1 u1) as (todo' & Hd' & E').
    { by apply (get_union_on s (λ _, u1) u). }
    { done. } { done. } { by apply sized_union. }
    { rewrite (fields_wf_same s) by apply same_env_union. done. }
    exists (f1 :: todo'). split.
    { constructor; [apply Hd|]. eapply Forall2_impl; [exact Hd'|]. intros g g'. by rewrite (member_same s s1) by apply same_env_union. }
    cbn [union_fields_fix seq length]. rewrite Eu. cbn [mbind option_bind].
    rewrite Ef, list_lookup_middle by done. cbn [mbind option_bind]. rewrite E. cbn [mbind option_bind].
    rewrite on_union_comp.
    match goal with |- context [get_union (on_union own r ?g s) own r] => rewrite (get_union_on s g u Eu) end.
    cbn [mbind option_bind]. rewrite on_union_comp.
    rewrite (on_union_ext _ (λ _, u1) s u Eu).
    2: { cbn. unfold set_u_size, on_u_field. destruct u as [un ut uf us uo]. cbn in Ef |- *. subst uf. unfold u1. f_equal.
         rewrite list_alter_alter_eq, <-app_assoc. cbn.
         rewrite (alter_app_r_alt _ done_ (f :: todo)), Nat.sub_diag by done. done. }
    change (on_union own r (λ _, u1) s) with s1.
    replace (S (length done_)) with (length (done_ ++ [f1])) by (rewrite length_app; cbn; lia).
    rewrite E'. do 2 f_equal. unfold s1. rewrite on_union_comp. apply (on_union_ext _ _ s u Eu). cbn.
    by rewrite <-app_assoc.
Qed.

(** A union that has been fixed. *)
Record union_done (s : scheme) (z : sizes) (u u' : union) : Prop := {
  done_name : u_name u' = u_name u;
  done_options : u_options u' = u_options u;
  done_type : fixed s own z (name (u_type_ptr u)) (u_type_ptr u) (u_type_ptr u');
  done_fields : Forall2 (member_done s z (size (u_type_ptr u'))) (u_fields u) (u_fields u');
  done_size : u_union_size u' = foldl Z.max 0 (size <$> u_fields u');
}.

Lemma fixed_size s z nm f f' : fixed s own z nm f f' → size f' = spec_size s own z f.
Proof. intros [Hl Hs _ _ _ _]. unfold spec_size. rewrite <-Hs. by destruct (laid_size _ _ _ _ Hl) as (sh & -> & ->). Qed.

Lemma spec_set_offset s z n f : spec_size s own z (set_offset n f) = spec_size s own z f.
Proof. unfold spec_size. by rewrite shape_set_offset. Qed.

Lemma union_done_size s z u u' :
  union_done s z u u' → u64 (size (u_type_ptr u') + u_union_size u') = union_spec s own z u.
Proof.
  intros [_ _ Ht Hf Hs]. unfold union_spec. rewrite Hs, (fixed_size _ _ _ _ _ Ht). do 2 f_equal. f_equal.
  clear -Hf. induction Hf as [|f f' l l' H _ IH]; [done|]. cbn. rewrite IH. f_equal.
  unfold member_done in H. by rewrite (fixed_size _ _ _ _ _ H), spec_set_offset.
Qed.

Lemma union_done_same s s' z u u' : same_env s s' own → union_done s' z u u' ↔ union_done s z u u'.
Proof.
  intros H. split; intros [? ? Ht Hf ?]; (split; [done|done|by apply (fixed_same s s')| |done]);
    eapply Forall2_impl; try exact Hf; intros; by apply (fixed_same s s').
Qed.

Lemma union_fix_spec s z u :
  get_union s own r = Some u → ref_size z r = None → sized s own z → union_wf s own z u = true →
  ∃ u', union_done s z u u' ∧ union_fix cb s own r = Some (true, on_union own r (λ _, u') s).
Proof.
  intros Eu Hr Hz Hwf. unfold union_wf in Hwf. apply andb_prop in Hwf as [Ht Hf].
  unfold union_fix. rewrite Eu. cbn [mbind option_bind].
  destruct (field_fix_spec cb s own z Hz (u_type_ptr u) (name (u_type_ptr u))) as (t' & E & Ht'); [|done|].
  { destruct (u_type_ptr u). cbn in Ht. bsplit. by eapply bool_decide_eq_true. }
  rewrite E. cbn [mbind option_bind]. rewrite on_union_comp.
  set (u1 := set_u_size 0 (set_u_type_ptr t' u)).
  rewrite (on_union_ext _ (λ _, u1) s u Eu) by done.
  destruct (union_fields_fix_spec z (u_fields u) [] (on_union own r (λ _, u1) s) u1) as (fs & Hd & E').
  { by apply (get_union_on s (λ _, u1) u). } { done. } { done. } { by apply sized_union. }
  { rewrite (fields_wf_same s); [done|apply same_env_union]. }
  cbn [length] in E'. rewrite E'. eexists. rewrite on_union_comp. split; [|do 2 f_equal; by apply (on_union_ext _ _ s u)].
  split; cbn; [done|done|done| |done].
  eapply Forall2_impl; [exact Hd|]. intros f f' Hm. eapply (proj1 (member_same _ _ _ _ _ _ (same_env_union _ _))), Hm.
Qed.
End one_union.

Inductive unions_done (glob : bool) (s : scheme) (own : owner) : sizes → list union → list union → Prop :=
| done_nil z : unions_done glob s own z [] []
| done_cons z u u' us us' :
    union_done own s z u u' → unions_done glob s own (push glob (union_spec s own z u) z) us us' →
    unions_done glob s own z (u :: us) (u' :: us').

Lemma unions_done_same glob s s' own z us us' :
  same_env s s' own → unions_done glob s' own z us us' → unions_done glob s own z us us'.
Proof.
  intros H. induction 1 as [|z u u' us us' Hu _ IH]; constructor.
  - by apply (union_done_same own s s').
  - by rewrite <-(union_spec_same s s').
Qed.

Lemma ref_size_pushed glob n z r k :
  ref_size (push glob n z) r = Some k →
  ref_size z r = Some k ∨ r = mk glob (length (if glob then z_global z else z_local z)) ∧ k = n.
Proof.
  assert (∀ (l : list Z) i, (l ++ [n]) !! i = Some k → l !! i = Some k ∨ i = length l ∧ k = n) as H.
  { intros l i [?|[? E]]%lookup_app_Some; [by left|]. right.
    apply list_lookup_singleton_Some in E as [? ->]. split; [lia|done]. }
  destruct glob, r as [i|i]; cbn; try (intros ->; by left); intros [->|[-> ->]]%H; auto.
Qed.

Lemma sized_push glob s own z n u l :
  sized s own z → get_unions glob s own = Some l → l !! length (if glob then z_global z else z_local z) = Some u →
  u64 (size (u_type_ptr u) + u_union_size u) = n → sized s own (push glob n z).
Proof.
  intros [Hm Hu] El Elu Hn. split.
  - intros i k E. apply Hm. by destruct glob.
  - intros r k [E|[-> ->]]%ref_size_pushed; [by apply Hu|].
    exists u. by rewrite get_union_unions, El.
Qed.

Lemma unions_fix_spec cb glob own todo : ∀ done_ s z,
  get_unions glob s own = Some (done_ ++ todo) → length (if glob then z_global z else z_local z) = length done_ →
  sized s own z → unions_wf glob s own z todo = true →
  ∃ todo', unions_done glob s own z todo todo' ∧
    unions_fix cb s own (mk glob <$> seq (length done_) (length todo)) =
      Some (true, on_unions glob own (λ _, done_ ++ todo') s) ∧
    sized (on_unions glob own (λ _, done_ ++ todo') s) own (unions_spec glob s own z todo).
Proof.
  induction todo as [|u todo IH]; intros done_ s z El Hlen Hz Hwf.
  - assert (on_unions glob own (λ _, done_ ++ []) s = s) as E.
    { rewrite <-(on_unions_ext glob own id _ s _ El) by done.
      destruct glob; cbn [on_unions]; [by destruct s|]. destruct own as [i|]; [|done].
      destruct s. unfold on_message, on_messages. cbn. f_equal. apply list_alter_id. by intros []. }
    exists []. cbn. rewrite E. split; [constructor|done].
  - cbn [unions_wf] in Hwf. apply andb_prop in Hwf as [Hu Hwf].
    assert (get_union s own (mk glob (length done_)) = Some u) as Eu.
    { rewrite get_union_unions, El. cbn. by apply list_lookup_middle. }
    assert (ref_size z (mk glob (length done_)) = None) as Hr.
    { destruct glob; cbn; apply lookup_ge_None; lia. }
    destruct (union_fix_spec cb glob own (length done_) s z u) as (u' & Hd & E); [done..|].
    set (s1 := on_unions glob own (λ _, (done_ ++ [u']) ++ todo) s).
    assert (on_union own (mk glob (length done_)) (λ _, u') s = s1) as E1.
    { rewrite on_union_unions. apply (on_unions_ext _ _ _ _ _ _ El).
      rewrite alter_app_r_alt, Nat.sub_diag by done. by rewrite <-app_assoc. }
    assert (same_env s s1 own) as Henv by apply same_env_unions.
    assert (get_unions glob s1 own = Some ((done_ ++ [u']) ++ todo)) as El1 by by apply (get_unions_on _ _ (λ _, (done_ ++ [u']) ++ todo) _ _ El).
    destruct (IH (done_ ++ [u']) s1 (push glob (union_spec s own z u) z)) as (todo' & Hd' & E' & Hz').
    + done.
    + destruct glob; cbn in *; rewrite !length_app; cbn; lia.
    + eapply sized_push; [|exact El1| |by apply (union_done_size own)].
      * rewrite <-E1. by apply sized_union.
      * rewrite <-app_assoc. by apply list_lookup_middle.
    + by rewrite (unions_wf_same glob s s1).
    + assert (on_unions glob own (λ _, done_ ++ u' :: todo') s = on_unions glob own (λ _, (done_ ++ [u']) ++ todo') s1) as E2.
      { unfold s1. rewrite on_unions_comp. apply (on_unions_ext _ _ _ _ _ _ El). cbn. by rewrite <-app_assoc. }
      exists (u' :: todo'). rewrite E2. split; [constructor; [done|by eapply unions_done_same]|]. split.
      * cbn [length seq fmap list_fmap unions_fix]. rewrite E. cbn [mbind option_bind]. rewrite E1.
        rewrite length_app, Nat.add_comm in E'. exact E'.
      * cbn [unions_spec]. by rewrite (unions_spec_same glob s s1) in Hz'.
Qed.

(** ** Changes of one message *)
Lemma same_env_message s own i g :
  (∀ m, m_enums (g m) = m_enums m) → (∀ m, b_type <$> m_bits (g m) = b_type <$> m_bits m) →
  same_env s (on_message i g s) own.
Proof.
  intros He Hb.
  assert (∀ j, get_message (on_message i g s) (Some j) = (if decide (i = j) then g else id) <$> get_message s (Some j)) as E.
  { intros j. cbn. rewrite list_lookup_alter. case_decide; [by subst|]. by rewrite option_fmap_id. }
  split; intros [k|k]; try done; destruct own as [j|]; try done; cbn [get_enum get_bits]; rewrite E;
    destruct (get_message s (Some j)) as [m|]; try done; cbn; case_decide; cbn; rewrite ?He; try done.
  by rewrite <-!list_lookup_fmap, Hb.
Qed.

Lemma same_env_set s own i m m' :
  s_messages s !! i = Some m → m_enums m' = m_enums m → b_type <$> m_bits m' = b_type <$> m_bits m →
  same_env s (on_message i (λ _, m') s) own.
Proof.
  intros Em He Hb.
  assert (∀ j, get_message (on_message i (λ _, m') s) (Some j) = if decide (i = j) then Some m' else get_message s (Some j)) as E.
  { intros j. cbn. rewrite list_lookup_alter. case_decide; [subst; by rewrite Em|done]. }
  split; intros [k|k]; try done; destruct own as [j|]; try done; cbn [get_enum get_bits]; rewrite E; case_decide; try done;
    subst j; cbn; rewrite Em; cbn; [by rewrite He|by rewrite <-!list_lookup_fmap, Hb].
Qed.

Lemma sized_message s i z g :
  (∀ m, m_size (g m) = m_size m) → (∀ m, m_unions (g m) = m_unions m) →
  sized s (Some i) z → sized (on_message i g s) (Some i) z.
Proof.
  intros Hs Hu [Hzm Hzu]. split.
  - intros j n E. destruct (Hzm j n E) as (m & Em & Hn). cbn. rewrite list_lookup_alter. case_decide; [subst j|by exists m].
    rewrite Em. eexists. split; [done|]. by rewrite Hs.
  - intros r n E. destruct (Hzu r n E) as (u & Eu & Hn). exists u. split; [|done].
    destruct r as [k|k]; [|done]. cbn [get_union] in *. rewrite get_message_on.
    destruct (get_message s (Some i)) as [m|]; [|done]. cbn in *. by rewrite Hu.
Qed.

Lemma on_message_const s i g m : s_messages s !! i = Some m → on_message i g s = on_message i (λ _, g m) s.
Proof. intros E. apply on_message_ext. intros m' E'. by simplify_eq. Qed.

Lemma lookup_on_message s i g m : s_messages s !! i = Some m → s_messages (on_message i g s) !! i = Some (g m).
Proof. intros E. cbn. by rewrite list_lookup_alter_eq, E. Qed.

(** ** Bits *)
Definition bits_done (b b' : bits) : Prop :=
  b_name b' = b_name b ∧ b_type b' = b_type b ∧ b_values b' = b_values b ∧ b_options b' = b_options b
  ∧ field_int_size (b_type b) = Some (b_size b').

Lemma bits_fix_spec l :
  forallb (λ b, is_int (b_type b)) l = true → ∃ l', bits_fix l = (true, l') ∧ Forall2 bits_done l l'.
Proof.
  induction l as [|b l IH]; intros H; [by exists []|]. cbn in H |- *. apply andb_prop in H as [Hb H].
  destruct (field_int_size (b_type b)) as [n|] eqn:E; [|by destruct (b_type b)].
  destruct (IH H) as (l' & -> & Hl). eexists. split; [done|]. constructor; [|done]. done.
Qed.

Lemma bits_done_types l l' : Forall2 bits_done l l' → b_type <$> l' = b_type <$> l.
Proof. induction 1 as [|b b' l l' (_ & E & _) _ IH]; [done|]. cbn. by rewrite E, IH. Qed.

(** ** Fields of a message *)
Fixpoint fields_done (s : scheme) (own : owner) (z : sizes) (off : Z) (l l' : list field) : Prop :=
  match l, l' with
  | [], [] => True
  | f :: l, f' :: l' =>
      fixed s own z (name f) (set_offset off f) f' ∧ fields_done s own z (u64 (off + size f')) l l'
  | _, _ => False
  end.

Lemma fields_done_same s s' own z l : same_env s s' own → ∀ off l', fields_done s' own z off l l' → fields_done s own z off l l'.
Proof.
  intros H. induction l as [|f l IH]; intros off [|f' l']; cbn; try done.
  intros [Hf Hl]. split; [by apply (fixed_same s s')|by apply IH].
Qed.

Lemma fields_done_total s own z l : ∀ off l', fields_done s own z off l l' →
  total off (size <$> l') = total off (spec_size s own z <$> l).
Proof.
  induction l as [|f l IH]; intros off [|f' l']; cbn; try done.
  intros [Hf Hl]. rewrite (fixed_size own _ _ _ _ _ Hf), spec_set_offset in *. by apply IH.
Qed.

Lemma pmap_not_added : str "pmap" ∉ added.
Proof. refine (proj1 (bool_decide_eq_false (str "pmap" ∈ added)) _). vm_compute. reflexivity. Qed.
Lemma optional_not_added : str "optional" ∉ added.
Proof. refine (proj1 (bool_decide_eq_false (str "optional" ∈ added)) _). vm_compute. reflexivity. Qed.

Lemma reader_flag o key d : flag_ok o key = true →
  ∃ b, reader_getT false (opt_get o) None bool_to_any key (Some d) = (None, b) ∧ option_flag o key d = Ok b.
Proof.
  unfold flag_ok, option_flag, getT_def, reader_getT. destruct (_getT bool_to_any (opt_get o) key) as [[b|]|]; cbn; [..|done]; by eexists.
Qed.

Lemma flag_same o o' key d : same_opts o o' → key ∉ added → option_flag o' key d = option_flag o key d.
Proof. intros Ho Hk. unfold option_flag, getT_def, _getT. by rewrite Ho. Qed.

Definition set_fields (l : list field) (p : option nat) (m : message) : message :=
  MkMessage (m_name m) (m_msgid m) (m_size m) l (m_enums m) (m_unions m) (m_bits m) p (m_options m).

(** The position of the pmap field, counted from [p]. *)
Fixpoint pmap_position (p : nat) (l : list field) : option nat :=
  match l with [] => None | f :: l => if is_pmap f then Some p else pmap_position (S p) l end.

Lemma field_flags f o mo :
  flags_ok f = true → same_opts (opts f) o →
  ∃ b, reader_getT false (opt_get o) None bool_to_any (str "pmap") (Some false) = (None, is_pmap f)
    ∧ reader_getT false (opt_get o) None bool_to_any (str "optional") (Some mo) = (None, b).
Proof.
  intros [Hp Ho]%andb_prop Hs.
  destruct (reader_flag o (str "pmap") false) as (p & -> & Ep).
  { unfold flag_ok. by rewrite (flag_same _ _ _ _ Hs pmap_not_added). }
  destruct (reader_flag o (str "optional") mo) as (b & -> & _).
  { unfold flag_ok. by rewrite (flag_same _ _ _ _ Hs optional_not_added). }
  exists b. rewrite (flag_same _ _ _ _ Hs pmap_not_added) in Ep. unfold is_pmap. by rewrite Ep.
Qed.

Lemma fields_fix_spec cb i z mo todo : ∀ done_ s m off idx,
  s_messages s !! i = Some m → m_fields m = done_ ++ todo → sized s (Some i) z →
  forallb (field_wf s (Some i) z) todo = true → forallb flags_ok todo = true →
  (pmap_count todo + (if m_pmap m is Some _ then 1 else 0) ≤ 1)%nat →
  ∃ todo', fields_done s (Some i) z off todo todo' ∧
    let p := match m_pmap m with Some p => Some p | None => pmap_position (length done_) todo end in
    fields_fix cb s i mo (seq (length done_) (length todo)) off idx =
      Some (true, on_message i (λ _, set_fields (done_ ++ todo') p m) s, total off (size <$> todo')).
Proof.
  induction todo as [|f todo IH]; intros done_ s m off idx Em Ef Hz Hwf Hfl Hp.
  - exists []. split; [done|]. cbn. do 3 f_equal. symmetry.
    destruct s as [so sm se sa su sb]. unfold on_message, on_messages. cbn in *. f_equal.
    rewrite <-list_insert_alter. apply list_insert_id. rewrite Em. f_equal. destruct m as [? ? ? ? ? ? ? pm ?]; cbn in *.
    unfold set_fields; cbn. rewrite Ef. by destruct pm.
  - cbn [forallb] in Hwf, Hfl. apply andb_prop in Hwf as [Hf Hwf]. apply andb_prop in Hfl as [Hff Hfl].
    assert (is_Some (name f)) as Hn by (destruct f; cbn in Hf; bsplit; by eapply bool_decide_eq_true).
    destruct (field_fix_spec cb s (Some i) z Hz f (name f) Hn Hf) as (f1 & E & [Hl Hs Hname Ho Ht Hoff]).
    destruct (field_flags f (opts f1) mo Hff Ho) as (opt & Ep & Eo).
    cbn [fields_fix seq length]. rewrite Em. cbn [mbind option_bind]. rewrite Ef, list_lookup_middle by done.
    cbn [mbind option_bind]. rewrite E. cbn [mbind option_bind negb].
    assert (∀ n, opts (set_index n f1) = opts f1) as Eop by done. rewrite !Eop, Ep, Eo, Em. cbn [mbind option_bind].
    assert (bool_decide (is_Some (@None (bytes * get_error))) || is_pmap f && bool_decide (is_Some (m_pmap m)) = false) as ->.
    { cbn. destruct (is_pmap f) eqn:Ef0; [|done]. destruct (m_pmap m); [|done]. exfalso.
      unfold pmap_count in Hp. rewrite filter_cons_True in Hp by done. cbn in Hp. lia. }
    match goal with |- context [set_offset off (if ?b then _ else _)] => set (ixd := b) end.
    set (f2 := set_offset off (if ixd then set_index idx (set_index (-1) f1) else set_index (-1) f1)).
    set (p1 := if is_pmap f then Some (length done_) else m_pmap m).
    set (m1 := set_fields ((done_ ++ [f2]) ++ todo) p1 m).
    set (s1 := on_message i (λ _, m1) s).
    assert (on_message i (on_m_field (length done_) (λ _, f2)) (if is_pmap f then on_message i (set_m_pmap (Some (length done_))) s else s) = s1) as ->.
    { unfold s1, m1, p1. assert (∀ x, alter (λ _, f2) (length done_) (done_ ++ x :: todo) = (done_ ++ [f2]) ++ todo) as Ea.
      { intros x. by rewrite alter_app_r_alt, Nat.sub_diag, <-app_assoc. }
      destruct (is_pmap f); rewrite ?on_message_comp; apply on_message_ext; intros m' Em'; simplify_eq;
        unfold set_m_pmap, on_m_field, set_fields; cbn; by rewrite Ef, Ea. }
    assert (same_env s s1 (Some i)) as Henv.
    { unfold s1, m1. rewrite <-(on_message_const s i (set_fields ((done_ ++ [f2]) ++ todo) p1) m Em). by apply same_env_message. }
    assert (fixed s (Some i) z (name f) (set_offset off f) f2) as Hf2.
    { assert (∀ n g, laid s (Some i) z (set_offset n g) ↔ laid s (Some i) z g) as Hlo by (intros; apply laid_set_offset).
      assert (∀ n g, laid s (Some i) z (set_index n g) ↔ laid s (Some i) z g) as Hli by (intros; apply laid_set_index).
      unfold f2. split; destruct ixd; try done; [by rewrite Hlo, !Hli|by rewrite Hlo, Hli| |];
        rewrite !shape_set_offset; rewrite <-Hs; by destruct f1. }
    assert (size f2 = size f1) as Esz by (unfold f2; by destruct ixd). rewrite Esz.
    destruct (IH (done_ ++ [f2]) s1 m1 (u64 (off + size f1)) (if ixd then idx + 1 else idx)) as (todo' & Hd & E').
    { by apply (lookup_on_message s i (λ _, m1) m). } { done. }
    { unfold s1, m1. rewrite <-(on_message_const s i (set_fields ((done_ ++ [f2]) ++ todo) p1) m Em). by apply sized_message. }
    { by rewrite (fields_wf_same s s1). } { done. }
    { unfold pmap_count in *. cbn. unfold p1. destruct (is_pmap f) eqn:Ef0.
      - rewrite filter_cons_True in Hp by done. cbn in Hp. lia.
      - rewrite filter_cons_False in Hp by (by rewrite Ef0). done. }
    exists (f2 :: todo'). split.
    { cbn [fields_done]. rewrite Esz. split; [done|]. by apply (fields_done_same s s1). }
    replace (S (length done_)) with (length (done_ ++ [f2])) by (rewrite length_app; cbn; lia).
    rewrite E'. cbn [fmap list_fmap]. unfold total. cbn [foldl]. rewrite Esz. do 3 f_equal.
    unfold s1. rewrite on_message_comp. apply on_message_ext. intros m' Em'. simplify_eq. cbn.
    unfold set_fields; cbn. rewrite <-app_assoc. cbn. f_equal.
    unfold p1. cbn [pmap_position]. destruct (is_pmap f) eqn:Ef0.
    + destruct (m_pmap m); [|done]. exfalso. unfold pmap_count in Hp. rewrite filter_cons_True in Hp by done. cbn in Hp. lia.
    + rewrite length_app, Nat.add_comm. done.
Qed.

(** ** Messages *)
Definition no_locals (z : sizes) : sizes := Sizes (z_messages z) [] (z_global z).

Definition locals (s : scheme) (i : nat) (z : sizes) (m : message) : sizes :=
  unions_spec false s (Some i) (no_locals z) (m_unions m).

Record message_done (s : scheme) (i : nat) (z : sizes) (m m' : message) : Prop := {
  md_name : m_name m' = m_name m;
  md_msgid : m_msgid m' = m_msgid m;
  md_options : m_options m' = m_options m;
  md_enums : m_enums m' = m_enums m;
  md_unions : unions_done false s (Some i) (no_locals z) (m_unions m) (m_unions m');
  md_bits : Forall2 bits_done (m_bits m) (m_bits m');
  md_fields : fields_done s (Some i) (locals s i z m) 0 (m_fields m) (m_fields m');
  md_pmap : m_pmap m' = pmap_position 0 (m_fields m);
  md_size : m_size m' = message_spec s i z m;
}.

Lemma message_done_same s s' i z m m' : same_env s s' (Some i) → message_done s' i z m m' → message_done s i z m m'.
Proof.
  intros H [? ? ? ? Hu ? Hf ? Hs]. unfold message_spec, locals in *.
  assert (∀ z', (spec_size s' (Some i) z' <$> m_fields m) = (spec_size s (Some i) z' <$> m_fields m)) as E.
  { intros. apply list_fmap_ext. intros. by apply spec_same. }
  rewrite (unions_spec_same false s s'), E in * by done. split; try done.
  - by eapply unions_done_same.
  - by eapply fields_done_same.
Qed.

Lemma message_spec_same s s' i z m : same_env s s' (Some i) → message_spec s' i z m = message_spec s i z m.
Proof.
  intros H. unfold message_spec. rewrite (unions_spec_same false s s') by done. f_equal.
  apply list_fmap_ext. intros. by apply spec_same.
Qed.

Lemma message_wf_same s s' i z m : same_env s s' (Some i) → message_wf s' i z m = message_wf s i z m.
Proof.
  intros H. unfold message_wf. by rewrite (unions_wf_same false s s'), (unions_spec_same false s s'), (fields_wf_same s s').
Qed.

Lemma message_fix_spec fuel i s z m :
  s_messages s !! i = Some m → message_wf s i z m = true → sized s (Some i) (no_locals z) →
  ∃ m', message_done s i z m m' ∧ message_fix (S fuel) i s = Some (true, on_message i (λ _, m') s).
Proof.
  intros Em Hwf Hz. unfold message_wf in Hwf. fold (no_locals z) in Hwf.
  apply andb_prop in Hwf as [[[[[[[Hsz Hpm]%andb_prop Hdo]%andb_prop Hbits]%andb_prop Huwf]%andb_prop Hfwf]%andb_prop Hfl]%andb_prop Hpc].
  apply bool_decide_eq_true in Hpm. apply Nat.leb_le in Hpc.
  cbn [message_fix]. rewrite Em. cbn [mbind option_bind]. rewrite Hsz. cbn [negb].
  unfold flag_ok, option_flag in Hdo.
  destruct (getT_def bool_to_any (opt_get (m_options m)) (str "defaults.optional") false) as [mo|]; [|done].
  destruct (unions_fix_spec (message_fix fuel) false (Some i) (m_unions m) [] s (no_locals z)) as (us & Hus & Eu & Hz1);
    [cbn; by rewrite Em|done|done|done|].
  change (mk false <$> seq (length []) (length (m_unions m))) with (Local <$> seq 0 (length (m_unions m))) in Eu.
  rewrite Eu. cbn [mbind option_bind negb].
  rewrite (on_unions_ext false (Some i) (λ _, [] ++ us) (λ _, us) s (m_unions m)) in Hz1 |- * by (cbn; by rewrite ?Em).
  cbn [on_unions] in Hz1 |- *. set (s1 := on_message i (on_m_unions (λ _, us)) s) in *.
  assert (s_messages s1 !! i = Some (on_m_unions (λ _, us) m)) as Em1 by by apply lookup_on_message.
  rewrite Em1. cbn [mbind option_bind m_bits on_m_unions].
  destruct (bits_fix_spec (m_bits m)) as (bs & Eb & Hbs); [done|]. rewrite Eb. cbn [negb].
  set (s2 := on_message i (on_m_bits (λ _, bs)) s1).
  set (m2 := on_m_bits (λ _, bs) (on_m_unions (λ _, us) m)).
  assert (s_messages s2 !! i = Some m2) as Em2 by by apply lookup_on_message.
  assert (same_env s s2 (Some i)) as Henv.
  { unfold s2, s1. rewrite on_message_comp, (on_message_const s i _ m Em).
    apply (same_env_set _ _ _ m); [done|done|]. by apply bits_done_types. }
  assert (sized s2 (Some i) (locals s i z m)) as Hz2 by by apply sized_message.
  destruct (fields_fix_spec (message_fix fuel) i (locals s i z m) mo (m_fields m) [] s2 m2 0 0) as (fs & Hfs & Ef);
    [done|done|done|by rewrite (fields_wf_same s s2)|done|cbn; rewrite Hpm; lia|].
  cbv zeta in Ef. cbn [length app] in Ef. change (m_fields (on_m_unions (λ _, us) m)) with (m_fields m).
  rewrite Ef. cbn [mbind option_bind negb].
  exists (set_m_size (total 0 (size <$> fs)) (set_fields fs (pmap_position 0 (m_fields m)) m2)). split.
  - split; try done.
    + by eapply fields_done_same.
    + cbn. rewrite (fields_done_total s (Some i) (locals s i z m) (m_fields m)); [done|by eapply fields_done_same].
  - do 2 f_equal. unfold s2, s1. rewrite !on_message_comp. apply on_message_ext. intros m' Em'. simplify_eq. cbn.
    unfold m2. cbn. by rewrite Hpm.
Qed.

Fixpoint messages_done (s : scheme) (i : nat) (z : sizes) (ms ms' : list message) : Prop :=
  match ms, ms' with
  | [], [] => True
  | m :: ms, m' :: ms' =>
      message_done s i z m m' ∧ messages_done s (S i) (Sizes (z_messages z ++ [message_spec s i z m]) [] (z_global z)) ms ms'
  | _, _ => False
  end.

Definition with_messages (l : list message) (s : scheme) : scheme :=
  MkScheme (s_options s) l (s_enums s) (s_aliases s) (s_unions s) (s_bits s).

(** With no local unions the owner does not matter. *)
Lemma sized_owner s own own' z : sized s own (no_locals z) → sized s own' (no_locals z).
Proof.
  intros [Hm Hu]. split; [done|]. intros [k|k] n E; [done|]. by apply (Hu (Global k)).
Qed.

Lemma same_env_trans s s1 s2 own : same_env s s1 own → same_env s1 s2 own → same_env s s2 own.
Proof. intros [H1 H2] [H3 H4]. split; intros r; [by rewrite H3|by rewrite H4]. Qed.

Lemma messages_fix_spec fuel s0 todo : ∀ done_ s z,
  s_messages s = done_ ++ todo → length (z_messages z) = length done_ → (∀ own, same_env s0 s own) →
  sized s None (no_locals z) → messages_wf s0 (length done_) z todo = true →
  ∃ todo', messages_done s0 (length done_) z todo todo' ∧
    messages_fix (S fuel) s (seq (length done_) (length todo)) = Some (true, with_messages (done_ ++ todo') s).
Proof.
  induction todo as [|m todo IH]; intros done_ s z Em Hlen Henv Hz Hwf.
  - exists []. split; [done|]. cbn. do 2 f_equal. destruct s. cbn in *. unfold with_messages. cbn. by rewrite Em.
  - cbn [messages_wf] in Hwf. apply andb_prop in Hwf as [Hm Hwf].
    assert (s_messages s !! length done_ = Some m) as Elm by (rewrite Em; by apply list_lookup_middle).
    destruct (message_fix_spec fuel (length done_) s z m Elm) as (m' & Hd & E).
    { by rewrite (message_wf_same s0 s). } { by eapply sized_owner. }
    set (s1 := on_message (length done_) (λ _, m') s).
    assert (s_messages s1 = (done_ ++ [m']) ++ todo) as Em1.
    { unfold s1. cbn. by rewrite Em, alter_app_r_alt, Nat.sub_diag, <-app_assoc by done. }
    assert (∀ own, same_env s s1 own) as Henv1.
    { intros own. apply (same_env_set _ _ _ m); [done|by apply Hd|]. apply bits_done_types, Hd. }
    destruct (IH (done_ ++ [m']) s1 (Sizes (z_messages z ++ [message_spec s0 (length done_) z m]) [] (z_global z))) as (todo' & Hd' & E').
    + done.
    + cbn. rewrite !length_app. cbn. lia.
    + intros own. by eapply same_env_trans.
    + destruct Hz as [Hzm Hzu]. split.
      * cbn [z_messages no_locals]. intros j n [Ej|[Hj Ej]]%lookup_app_Some.
        -- destruct (Hzm j n Ej) as (mj & Emj & Hn). exists mj. split; [|done]. unfold s1. cbn.
           rewrite list_lookup_alter_ne; [done|]. apply lookup_lt_Some in Ej. lia.
        -- apply list_lookup_singleton_Some in Ej as [Hj' <-]. exists m'. split.
           ++ rewrite Em1, <-app_assoc. apply list_lookup_middle. lia.
           ++ by rewrite (md_size _ _ _ _ _ Hd), (message_spec_same s0 s).
      * intros [k|k] n Ek; [done|]. by apply (Hzu (Global k)).
    + by rewrite length_app, Nat.add_comm.
    + exists (m' :: todo'). split.
      { split; [by eapply message_done_same|]. by rewrite length_app, Nat.add_comm in Hd'. }
      cbn [length seq messages_fix]. rewrite E. cbn [mbind option_bind].
      replace (S (length done_)) with (length (done_ ++ [m'])) by (rewrite length_app; cbn; lia). fold s1. rewrite E'.
      do 2 f_equal. by rewrite <-app_assoc.
Qed.

Lemma scheme_fix_spec fuel s :
  scheme_wf s = true →
  ∃ s', tll_scheme_fix (S fuel) s = Some (true, s')
    ∧ s_options s' = s_options s ∧ s_enums s' = s_enums s ∧ s_aliases s' = s_aliases s
    ∧ unions_done true s None (Sizes [] [] []) (s_unions s) (s_unions s')
    ∧ Forall2 bits_done (s_bits s) (s_bits s')
    ∧ messages_done s 0 (global_sizes s) (s_messages s) (s_messages s').
Proof.
  intros [[Hu Hb]%andb_prop Hm]%andb_prop. unfold tll_scheme_fix.
  destruct (unions_fix_spec (message_fix (S fuel)) true None (s_unions s) [] s (Sizes [] [] [])) as (us & Hus & Eu & Hz);
    [done|done|by split; [|intros [|]]|done|].
  change (mk true <$> seq (length []) (length (s_unions s))) with (Global <$> seq 0 (length (s_unions s))) in Eu.
  rewrite Eu. cbn [mbind option_bind negb app on_unions]. cbn [s_bits].
  destruct (bits_fix_spec (s_bits s) Hb) as (bs & -> & Hbs). cbn [negb].
  cbn [s_options s_messages s_enums s_aliases s_unions].
  set (s1 := MkScheme (s_options s) (s_messages s) (s_enums s) (s_aliases s) us bs).
  assert (∀ own, same_env s s1 own) as Henv.
  { intros own. split; intros [k|k]; try done. cbn. by rewrite <-!list_lookup_fmap, (bits_done_types _ _ Hbs). }
  fold (global_sizes s) in Hz.
  assert (z_messages (global_sizes s) = [] ∧ z_local (global_sizes s) = []) as [Ezm Ezl].
  { unfold global_sizes. assert (∀ us z, z_messages z = [] → z_local z = [] →
      z_messages (unions_spec true s None z us) = [] ∧ z_local (unions_spec true s None z us) = []) as H; [|by apply H].
    clear. induction us as [|u us IH]; [done|]. intros z Hm Hl. by apply IH. }
  destruct (messages_fix_spec fuel s (s_messages s) [] s1 (global_sizes s)) as (ms & Hms & E); [done|by rewrite Ezm|done| |done|].
  { destruct Hz as [Hzm Hzu]. split; [cbn; by rewrite Ezm|]. intros [k|k] n Ek; [done|]. by apply (Hzu (Global k)). }
  cbn [length app] in E. rewrite E. eexists. split; [done|]. done.
Qed.

(** ** The layout *)
Lemma messages_done_lookup s ms : ∀ i z ms', messages_done s i z ms ms' →
  (m_size <$> ms') = drop (length (z_messages z)) (z_messages (messages_spec s i z ms)) ∧
  (∃ l, z_messages (messages_spec s i z ms) = z_messages z ++ l) ∧
  ∀ k m m', ms !! k = Some m → ms' !! k = Some m' → message_done s (i + k) (messages_spec s i z (take k ms)) m m'.
Proof.
  induction ms as [|m ms IH]; intros i z [|m' ms']; cbn [messages_done messages_spec]; try done.
  - intros _. split; [by rewrite drop_all|]. split; [by exists []; rewrite app_nil_r|]. intros k ?? H; by rewrite lookup_nil in H.
  - intros [Hm Hd]. destruct (IH _ _ _ Hd) as (E & (l & El) & Hk). cbn [z_messages] in *. split_and!.
    + cbn [fmap list_fmap]. rewrite E, El, (md_size _ _ _ _ _ Hm), drop_app_length, <-app_assoc, drop_app_length. done.
    + eexists. by rewrite El, <-app_assoc.
    + intros [|k] m1 m1'; cbn.
      * intros [= <-] [= <-]. by rewrite Nat.add_0_r.
      * intros H1 H2. rewrite Nat.add_succ_r. by apply Hk.
Qed.

Lemma fields_done_facts s own z l : ∀ off l', fields_done s own z off l l' →
  (name <$> l') = (name <$> l) ∧ (shape_of s own <$> l') = (shape_of s own <$> l) ∧
  ∀ p f', l' !! p = Some f' → laid s own z f' ∧ offset f' = total off (take p (size <$> l')).
Proof.
  induction l as [|f l IH]; intros off [|f' l']; cbn [fields_done]; try done.
  intros [Hf Hl]. destruct (IH _ _ Hl) as (En & Es & Hp). cbn. rewrite En, Es. split_and!.
  - by rewrite (fixed_name _ _ _ _ _ _ Hf).
  - by rewrite (fixed_shape _ _ _ _ _ _ Hf), shape_set_offset.
  - intros [|p] g; cbn.
    + intros [= <-]. split; [apply Hf|]. by rewrite (fixed_offset _ _ _ _ _ _ Hf).
    + by intros Hg%Hp.
Qed.

(** What the fields of message [i] may refer to: the messages before it, the
    global unions and those of the message. *)
Definition sizes_at (s : scheme) (i : nat) (m : message) : sizes :=
  locals s i (messages_spec s 0 (global_sizes s) (take i (s_messages s))) m.

(** C5: [tll_scheme_fix] computes the reference layout of every scheme that
    keeps to [scheme_wf]: fields have names; what a field refers to is defined
    before it (an alias to a union or to bits, whose reference the loader
    leaves empty, is excluded), enums and bits are integers; a message used as
    a field is not empty; counters are plain integers and an array has no sub
    type; the options pmap, optional and
    defaults.optional are booleans, offset-ptr-type agrees with the
    descriptor, at most one field is the presence map, and nothing has been
    fixed yet. Then the call succeeds; the sizes of the messages are those
    that the reference reads off the shapes of the fields in one pass; fields
    keep their names and types; every field, and everything nested in it, has
    the size of its type, computed from the sizes of what comes before
    ([sizes_at]), and starts where the one before it ends. *)
Theorem scheme_layout s (Hwf : scheme_wf s = true) :
  ∃ s', tll_scheme_fix 1 s = Some (true, s')
    ∧ (m_size <$> s_messages s') = z_messages (scheme_spec s)
    ∧ ∀ i m m', s_messages s !! i = Some m → s_messages s' !! i = Some m' →
        (name <$> m_fields m') = (name <$> m_fields m)
        ∧ (shape_of s (Some i) <$> m_fields m') = (shape_of s (Some i) <$> m_fields m)
        ∧ m_size m' = total 0 (size <$> m_fields m')
        ∧ m_pmap m' = pmap_position 0 (m_fields m)
        ∧ ∀ p f', m_fields m' !! p = Some f' →
            laid s (Some i) (sizes_at s i m) f' ∧ offset f' = total 0 (take p (size <$> m_fields m')).
Proof.
  destruct (scheme_fix_spec 0 s Hwf) as (s' & E & _ & _ & _ & _ & _ & Hm).
  exists s'. split; [done|]. destruct (messages_done_lookup _ _ _ _ _ Hm) as (Es & (l & El) & Hk). split.
  { rewrite Es. unfold scheme_spec. assert (z_messages (global_sizes s) = []) as ->; [|done].
    unfold global_sizes. assert (∀ us z, z_messages (unions_spec true s None z us) = z_messages z) as H; [|by rewrite H].
    clear. induction us as [|u us IH]; intros z; [done|]. cbn. by rewrite IH. }
  intros i m m' Em Em'. pose proof (Hk i m m' Em Em') as Hd. cbn [Nat.add] in Hd.
  destruct (fields_done_facts _ _ _ _ _ _ (md_fields _ _ _ _ _ Hd)) as (En & Esh & Hp).
  split_and!; [done|done| |apply Hd|exact Hp].
  rewrite (md_size _ _ _ _ _ Hd), (fields_done_total _ _ _ _ _ _ (md_fields _ _ _ _ _ Hd)). done.
Qed.

(** A scheme with every kind of field. *)
Definition plain (n : string) (t : field_type) : field := MkField (Some (str n)) t SubNone 0 0 0 [] DNone.

Definition sample : scheme :=
  MkScheme []
    [ MkMessage (str "Sub") 0 0 [plain "s0" Int8; plain "s1" Decimal128] [] [] [] None [];
      MkMessage (str "Data") 10 0
        [ MkField (Some (str "pmap")) Bytes SubNone 2 0 0 [(str "pmap", str "yes")] DNone;
          MkField (Some (str "e")) Int8 Enum 0 0 0 [] (DEnum (Global 0));
          MkField (Some (str "a")) Array SubNone 0 0 0 [] (DArray (MkField (Some (str "a")) Message SubNone 0 0 0 [] (DMessage 0)) (plain "a_count" Int8) 4);
          MkField (Some (str "p")) Pointer SubNone 0 0 0 [] (DPointer (plain "p" Int32) PTR_DEFAULT);
          MkField (Some (str "u")) Union SubNone 0 0 0 [] (DUnion (Local 0));
          MkField (Some (str "b")) UInt64 Bits 0 0 0 [] (DBits [] (Global 0)) ]
        [] [MkUnion (str "u") (plain "_type" Int8) [plain "x" Int16; MkField (Some (str "y")) Message SubNone 0 0 0 [] (DMessage 0)] 0 []] [] None [] ]
    [MkEnum (str "E") Int16 2 [(str "A", 1)] []] [] [] [MkBits (str "B") UInt64 0 [] []].

Lemma scheme_layout_witness : ∃ s', tll_scheme_fix 1 sample = Some (true, s') ∧ (m_size <$> s_messages s') = [17; 107].
Proof.
  destruct (scheme_layout sample) as (s' & E & Es & _); [vm_compute; reflexivity|].
  exists s'. split; [exact E|]. rewrite Es. vm_compute. reflexivity.
Defined.

Definition zsum (l : list Z) : Z := foldr Z.add 0 l.

Lemma zsum_nonneg l : Forall (λ n, 0 ≤ n) l → 0 ≤ zsum l.
Proof. unfold zsum. induction 1; cbn; lia. Qed.

Lemma total_sum l : ∀ off, Forall (λ n, 0 ≤ n) l → 0 ≤ off → off + zsum l < 2 ^ 64 → total off l = off + zsum l.
Proof.
  induction l as [|n l IH]; intros off Hl Ho Hs; [cbn; lia|].
  inversion Hl as [|? ? Hn Hl']; subst. pose proof (zsum_nonneg l Hl').
  change (zsum (n :: l)) with (n + zsum l) in *. change (total off (n :: l)) with (total (u64 (off + n)) l).
  rewrite wrapu_id by lia. rewrite IH by (done || lia). lia.
Qed.

Lemma zsum_app l k : zsum (l ++ k) = zsum l + zsum k.
Proof. unfold zsum. induction l; cbn; lia. Qed.

(** The sum of the elements before [q] covers those up to [p], [p] included. *)
Lemma zsum_take l p q n : Forall (λ n, 0 ≤ n) l → l !! p = Some n → (p < q)%nat → zsum (take p l) + n ≤ zsum (take q l).
Proof.
  intros Hl E Hpq. rewrite <-(take_drop (S p) (take q l)), zsum_app, take_take, Nat.min_l by lia.
  rewrite (take_S_r l p n E), zsum_app. cbn.
  assert (0 ≤ zsum (drop (S p) (take q l))) by by apply zsum_nonneg, Forall_drop, Forall_take. lia.
Qed.

(** C22: The fields of a message do not overlap and lie inside of it, as long as
    the sizes of its fields add up to less than 2^64. *)
Theorem scheme_no_overlap s s' i m' p q f g
  (Hwf : scheme_wf s = true) (Hfix : tll_scheme_fix 1 s = Some (true, s')) (Hm : s_messages s' !! i = Some m')
  (Hpos : Forall (λ f, 0 ≤ size f) (m_fields m')) (Hsum : zsum (size <$> m_fields m') < 2 ^ 64)
  (Hpq : (p < q)%nat) (Hf : m_fields m' !! p = Some f) (Hg : m_fields m' !! q = Some g) :
  0 ≤ offset f ∧ offset f + size f ≤ offset g ∧ offset g + size g ≤ m_size m'.
Proof.
  destruct (scheme_fix_spec 0 s Hwf) as (s1 & E & _ & _ & _ & _ & _ & Hd). rewrite E in Hfix. injection Hfix as <-.
  destruct (messages_done_lookup _ _ _ _ _ Hd) as (Es & _ & Hk).
  assert (∃ m, s_messages s !! i = Some m) as [m Em].
  { apply lookup_lt_is_Some. apply lookup_lt_Some in Hm. apply (f_equal length) in Es.
    assert (∀ ms i z ms', messages_done s i z ms ms' → length ms = length ms') as Hlen.
    { clear. induction ms as [|m ms IH]; intros i z [|m' ms']; cbn; try done. intros [_ H%IH]. by rewrite H. }
    by rewrite (Hlen _ _ _ _ Hd). }
  pose proof (Hk i m m' Em Hm) as Hmd. cbn [Nat.add] in Hmd.
  pose proof (md_size _ _ _ _ _ Hmd) as Esz. unfold message_spec in Esz.
  assert (m_size m' = total 0 (size <$> m_fields m')) as Etot.
  { rewrite (fields_done_total _ _ _ _ _ _ (md_fields _ _ _ _ _ Hmd)). exact Esz. }
  destruct (fields_done_facts _ _ _ _ _ _ (md_fields _ _ _ _ _ Hmd)) as (_ & _ & Hp).
  assert (Forall (λ n, 0 ≤ n) (size <$> m_fields m')) as Hpos' by by apply Forall_fmap.
  set (l := size <$> m_fields m') in *.
  assert (l !! p = Some (size f)) as Elp by (unfold l; by rewrite list_lookup_fmap, Hf).
  assert (l !! q = Some (size g)) as Elq by (unfold l; by rewrite list_lookup_fmap, Hg).
  assert (∀ k, zsum (take k l) ≤ zsum l) as Hle.
  { intros k. rewrite <-(take_drop k l) at 2. rewrite zsum_app.
    pose proof (zsum_nonneg (drop k l) (Forall_drop _ _ _ Hpos')). lia. }
  assert (∀ k, total 0 (take k l) = zsum (take k l)) as Ht.
  { intros k. rewrite total_sum; [lia|by apply Forall_take|lia|]. specialize (Hle k). lia. }
  destruct (Hp p f Hf) as [_ ->], (Hp q g Hg) as [_ ->]. rewrite !Ht, Etot, (total_sum l 0) by (done || lia).
  pose proof (zsum_take l p q _ Hpos' Elp Hpq).
  assert (zsum (take q l) + size g ≤ zsum l).
  { pose proof (zsum_take l q (length l) _ Hpos' Elq ltac:(by eapply lookup_lt_Some)) as Hq. by rewrite (take_ge l (length l)) in Hq. }
  pose proof (zsum_nonneg (take p l) (Forall_take _ _ _ Hpos')). lia.
Qed.

Lemma scheme_no_overlap_witness : ∃ s' m' f g, tll_scheme_fix 1 sample = Some (true, s') ∧ s_messages s' !! 1%nat = Some m'
  ∧ m_fields m' !! 2%nat = Some f ∧ m_fields m' !! 4%nat = Some g ∧ offset f + size f ≤ offset g.
Proof.
  eexists _, _, _, _. split; [vm_compute; reflexivity|]. split; [vm_compute; reflexivity|].
  split; [vm_compute; reflexivity|]. split; [vm_compute; reflexivity|].
  eapply (scheme_no_overlap sample _ 1 _ 2 4); try (vm_compute; reflexivity); [|lia].
  vm_compute. repeat constructor; discriminate.
Defined.

(** The size of an array is computed without a check: this field, of 2^61
    numbers, has one byte. *)
Lemma array_size_overflow :
  ∃ s', tll_scheme_fix 1 (MkScheme [] [MkMessage (str "M") 0 0
      [MkField (Some (str "a")) Array SubNone 0 0 0 [] (DArray (plain "a" Int64) (plain "c" Int8) (2 ^ 61))] [] [] [] None []] [] [] [] [])
    = Some (true, s') ∧ (m_size <$> s_messages s') = [1].
Proof. eexists. split; vm_compute; reflexivity. Qed.

(** Bits and enums of type [uint64] get the size of 32 bits. *)
Lemma uint64_bits_size : field_int_size UInt64 = Some 4 ∧ type_size UInt64 = 8.
Proof. done. Qed.

(** An array of fields that cannot be fixed is taken for fixed. *)
Lemma array_ignores_errors :
  let bad := MkField (Some (str "p")) Pointer SubNone 0 0 0 [(str "offset-ptr-type", str "x")] (DPointer (plain "p" Int8) PTR_LEGACY_LONG) in
  let arr := MkField (Some (str "a")) Array SubNone 0 0 0 [] (DArray bad (plain "c" Int8) 4) in
  let s f := MkScheme [] [MkMessage (str "M") 0 0 [f] [] [] [] None []] [] [] [] [] in
  fst <$> tll_scheme_fix 1 (s bad) = Some false ∧ fst <$> tll_scheme_fix 1 (s arr) = Some true.
Proof. vm_compute. done. Qed.
End SchemeLayout.
