(* ===== verification/Processor.v ===== *)
(** * The processor: running objects in the order of their dependencies

    src/processor/processor.cc, src/processor/processor.h and
    src/processor/deps.h.  The processor owns the objects (channels) of an
    application, with the graph of their dependencies, and tells the workers
    that run them when to open and to close each one.  It hears of their
    states by messages; every message and timer is one step.

    Objects are known by their position in the list of objects.  The messages
    to the workers are collected in [posts], in order, each with the objects
    as they were when it was posted.  The functions that walk the graph take
    the depth of the recursion they may use; [None] stands for a walk that
    does not end, a null pointer or undefined arithmetic. *)
From S2P Require Import Prelude Callback Channel Reopen.

Module Processor.
Import Chan.

Record object := Object {
  ostate : state;
  state_prev : state;
  decay_ : bool;
  opening : bool;
  closing : bool;
  subtree_closed : bool;
  reopen : Reopen.data;
  suspended : bool;            (* the Suspend capability of the channel *)
  depends : list nat;
  rdepends : list nat;
  worker : nat;
}.

(** Why [deactivate] was called: its [msg] and [failure].  [Plain] and
    [Requested] are calls without a message; the second is the one for a
    ChannelClose message. *)
Inductive reason := Plain | Requested | DecayedLeaf | Decayed | Failed | Pending.

Inductive command :=
| Activate (o : nat)
| Deactivate (o : nat) (why : reason)
| Exit (w : nat)
| CloseObject (o : nat)        (* direct calls of a forced close *)
| CloseWorker (w : nat)
| Report (o : nat) (s : state).

Record post := Post { cmd : command; seen : list object }.

Record proc := Proc {
  objects : list object;
  pending : list (Z * nat);    (* multimap: sorted by time, equal times in order of insertion *)
  pstate : state;
  workers : list state;
  posts : list post;
  timer : list Z;              (* times posted to the timer channel *)
  exit_code : Z;
  stopped : bool;
}.

(** ** Flags of objects *)
Definition set_flags (st prev : state) (dc op cl sc : bool) (r : Reopen.data) (o : object) : object :=
  Object st prev dc op cl sc r (suspended o) (depends o) (rdepends o) (worker o).

Definition set_state (s : state) (o : object) :=
  set_flags s (ostate o) (decay_ o) (opening o) (closing o) (subtree_closed o) (reopen o) o.
Definition set_decay (b : bool) (o : object) :=
  set_flags (ostate o) (state_prev o) b (opening o) (closing o) (subtree_closed o) (reopen o) o.
Definition set_opening (b : bool) (o : object) :=
  set_flags (ostate o) (state_prev o) (decay_ o) b (closing o) (subtree_closed o) (reopen o) o.
Definition set_closing (b : bool) (o : object) :=
  set_flags (ostate o) (state_prev o) (decay_ o) (opening o) b (subtree_closed o) (reopen o) o.
Definition set_subtree_closed (b : bool) (o : object) :=
  set_flags (ostate o) (state_prev o) (decay_ o) (opening o) (closing o) b (reopen o) o.
Definition set_reopen (r : Reopen.data) (o : object) :=
  set_flags (ostate o) (state_prev o) (decay_ o) (opening o) (closing o) (subtree_closed o) r o.

(** [reopen.next] and [reopen.active_ts] *)
Definition set_next (n : Z) (r : Reopen.data) : Reopen.data :=
  Reopen.set r (Reopen.channel r) (Reopen.rstate r) n (Reopen.active_ts r) (Reopen.closing_ts r) (Reopen.reopen_wait r) (Reopen.count r).
Definition set_active_ts (n : Z) (r : Reopen.data) : Reopen.data :=
  Reopen.set r (Reopen.channel r) (Reopen.rstate r) (Reopen.next r) n (Reopen.closing_ts r) (Reopen.reopen_wait r) (Reopen.count r).

(** All objects of a list of positions; a position outside of the list of
    objects would be a dangling pointer and satisfies nothing. *)
Definition all_of (os : list object) (p : object → bool) (l : list nat) : bool :=
  forallb (λ i, match os !! i with Some o => p o | None => false end) l.
Definition any_of (os : list object) (p : object → bool) (l : list nat) : bool :=
  existsb (λ i, match os !! i with Some o => p o | None => false end) l.

Definition is_state (s : state) (o : object) : bool := bool_decide (ostate o = s).

Definition ready_open (os : list object) (o : object) : bool :=
  if any_of os decay_ (depends o) then false else all_of os (is_state Active) (depends o).

Definition ready_close (os : list object) (o : object) : bool :=
  if is_state Closed o || is_state Closing o || closing o || opening o then false
  else all_of os subtree_closed (rdepends o).

(** The loops over lists of objects that act on one object each. *)
Fixpoint each {A} (f : nat → A → option A) (l : list nat) (a : A) : option A :=
  match l with [] => Some a | i :: l => let! a := f i a in each f l a end.

Fixpoint mark_subtree_open (fuel : nat) (i : nat) (os : list object) : option (list object) :=
  match fuel with
  | O => None
  | S fuel =>
      let! o := os !! i in
      if negb (subtree_closed o) then Some os else
      each (mark_subtree_open fuel) (depends o) (<[i := set_subtree_closed false o]> os)
  end.

(** [Object::on_state] *)
Definition on_state (fuel : nat) (os : list object) (i : nat) (s : state) (now : Z) : option (list object) :=
  let! o := os !! i in
  let! r := Reopen.on_state (reopen o) s now Closed in
  let os := <[i := set_reopen r o]> os in
  let! os := if bool_decide (s ≠ Closed) then mark_subtree_open fuel i os else Some os in
  let! o := os !! i in
  Some (match s with
        | Opening => <[i := set_opening false o]> os
        | Closing => <[i := set_closing false o]> os
        | _ => os
        end).

(** ** The processor *)
Definition on_objects (os : list object) (p : proc) : proc :=
  Proc os (pending p) (pstate p) (workers p) (posts p) (timer p) (exit_code p) (stopped p).
Definition set_pending (l : list (Z * nat)) (p : proc) : proc :=
  Proc (objects p) l (pstate p) (workers p) (posts p) (timer p) (exit_code p) (stopped p).
Definition set_pstate (s : state) (p : proc) : proc :=
  Proc (objects p) (pending p) s (workers p) (posts p) (timer p) (exit_code p) (stopped p).
Definition set_workers (l : list state) (p : proc) : proc :=
  Proc (objects p) (pending p) (pstate p) l (posts p) (timer p) (exit_code p) (stopped p).
Definition post_ (c : command) (p : proc) : proc :=
  Proc (objects p) (pending p) (pstate p) (workers p) (posts p ++ [Post c (objects p)]) (timer p) (exit_code p) (stopped p).
Definition pending_rearm (ts : Z) (p : proc) : proc :=
  Proc (objects p) (pending p) (pstate p) (workers p) (posts p) (timer p ++ [ts]) (exit_code p) (stopped p).
Definition set_exit_code (c : Z) (p : proc) : proc :=
  Proc (objects p) (pending p) (pstate p) (workers p) (posts p) (timer p) c (stopped p).
Definition stop (p : proc) : proc :=
  Proc (objects p) (pending p) (pstate p) (workers p) (posts p) (timer p) (exit_code p) true.

Section run.
(** The loops over elements with equal times read the position behind the last
    element; what they see there is undefined. *)
Context (junk : Z).

(** From the first element at [ts] on. *)
Fixpoint find_ts (ts : Z) (l : list (Z * nat)) : list (Z * nat) :=
  match l with
  | [] => []
  | (t, o) :: l' => if t =? ts then l else find_ts ts l'
  end.

Fixpoint has_loop (ts : Z) (o : nat) (l : list (Z * nat)) : option bool :=
  match l with
  | [] => if junk =? ts then None else Some false
  | (t, x) :: l => if t =? ts then if bool_decide (x = o) then Some true else has_loop ts o l else Some false
  end.

Definition pending_has (ts : Z) (o : nat) (p : proc) : option bool :=
  match find_ts ts (pending p) with [] => Some false | l => has_loop ts o l end.

(** Insertion behind equal times. *)
Fixpoint pending_insert (ts : Z) (o : nat) (l : list (Z * nat)) : list (Z * nat) :=
  match l with
  | [] => [(ts, o)]
  | (t, x) :: l => if ts <? t then (ts, o) :: (t, x) :: l else (t, x) :: pending_insert ts o l
  end.

Definition pending_add (ts : Z) (o : nat) (p : proc) : option proc :=
  let! has := pending_has ts o p in
  if has : bool then Some p else
  let rearm := match pending p with [] => true | (t, _) :: _ => t >? ts end in
  let p := set_pending (pending_insert ts o (pending p)) p in
  Some (if rearm then pending_rearm ts p else p).

Fixpoint del_loop (ts : Z) (o : nat) (l : list (Z * nat)) : option (list (Z * nat)) :=
  match l with
  | [] => if junk =? ts then None else Some []
  | (t, x) :: l' =>
      if t =? ts then
        let! r := del_loop ts o l' in Some (if bool_decide (x = o) then r else (t, x) :: r)
      else Some l
  end.

Fixpoint erase_ts (ts : Z) (o : nat) (l : list (Z * nat)) : option (list (Z * nat)) :=
  match l with
  | [] => Some []
  | (t, x) :: l' => if t =? ts then del_loop ts o l else let! r := erase_ts ts o l' in Some ((t, x) :: r)
  end.

Definition pending_del (ts : Z) (o : nat) (p : proc) : option proc :=
  match find_ts ts (pending p) with
  | [] => Some p
  | _ =>
      let! l := erase_ts ts o (pending p) in
      let p := set_pending l p in
      Some (match l with
            | [] => pending_rearm 0 p
            | (t, _) :: _ => if t >? ts then pending_rearm t p else p
            end)
  end.

Definition activate (fuel : nat) (i : nat) (p : proc) : option proc :=
  let! o := objects p !! i in
  let o := set_reopen (set_next 0 (reopen o)) (set_opening true (set_decay false o)) in
  let! os := mark_subtree_open fuel i (<[i := o]> (objects p)) in
  Some (post_ (Activate i) (on_objects os p)).

Definition deactivate (i : nat) (why : reason) (p : proc) : option proc :=
  let! o := objects p !! i in
  if closing o then Some p else
  let o := match why with Failed => o | _ => set_reopen (set_active_ts 0 (reopen o)) o end in
  let o := if bool_decide (ostate o ≠ Closing) then set_closing true o else o in
  Some (post_ (Deactivate i why) (on_objects (<[i := o]> (objects p)) p)).

Definition reactivate (fuel : nat) (now : Z) (i : nat) (p : proc) : option proc :=
  if bool_decide (pstate p ≠ Active) then Some p else
  let! o := objects p !! i in
  if ready_open (objects p) o then
    if Reopen.next (reopen o) >? now then
      let! _ := Reopen.timeout (reopen o) in   (* for the log *)
      pending_add (Reopen.next (reopen o)) i p
    else activate fuel i p
  else Some p.

(** [Object::mark_subtree_closed] with [reactivate] and [deactivate]. *)
Fixpoint mark_subtree_closed (fuel : nat) (now : Z) (i : nat) (p : proc) : option (proc * bool) :=
  match fuel with
  | O => None
  | S fuel' =>
      let! o := objects p !! i in
      if subtree_closed o then
        if ready_open (objects p) o then let! p := reactivate fuel now i p in Some (p, true) else Some (p, false)
      else if negb (all_of (objects p) subtree_closed (rdepends o)) then Some (p, false)
      else if opening o then Some (p, false)
      else if negb (is_state Closed o) && negb (is_state Closing o) then
        if decay_ o then let! p := deactivate i Plain p in Some (p, false) else Some (p, false)
      else
        let p := on_objects (<[i := set_subtree_closed true o]> (objects p)) p in
        let! (p, r) := each (λ d '(p, r), let! (p, r') := mark_subtree_closed fuel' now d p in Some (p, r' || r))
                         (depends o) (p, false) in
        let! o := objects p !! i in
        if ready_open (objects p) o then let! p := reactivate fuel now i p in Some (p, true) else Some (p, r)
  end.

Fixpoint decay (fuel : nat) (i : nat) (p : proc) : option proc :=
  match fuel with
  | O => None
  | S fuel =>
      let! o := objects p !! i in
      if subtree_closed o then Some p else
      let p := on_objects (<[i := set_decay true o]> (objects p)) p in
      let! p := each (decay fuel) (rdepends o) p in
      let! o := objects p !! i in
      if ready_close (objects p) o then deactivate i DecayedLeaf p else Some p
  end.

Definition all_closed (l : list state) : bool := forallb (λ s, bool_decide (s = Closed)) l.

Definition _close_workers (p : proc) : proc :=
  if all_closed (workers p) then p
  else if all_closed (ostate <$> objects p) then foldl (λ p w, post_ (Exit w) p) p (seq 0 (length (workers p)))
  else p.

Definition close_if_ready (why : reason) (i : nat) (p : proc) : option proc :=
  let! o := objects p !! i in
  if ready_close (objects p) o then deactivate i why p else Some p.

Definition open_if_ready (fuel : nat) (i : nat) (p : proc) : option proc :=
  let! o := objects p !! i in
  if ready_open (objects p) o then activate fuel i p else Some p.

Definition add_next (i : nat) (p : proc) : option proc :=
  let! o := objects p !! i in
  if Reopen.pending (reopen o) then pending_add (Reopen.next (reopen o)) i p else Some p.

Definition update (fuel : nat) (now : Z) (i : nat) (s : state) (p : proc) : option proc :=
  let! o := objects p !! i in
  let p := on_objects (<[i := set_state s o]> (objects p)) p in
  let! p := if Reopen.pending (reopen o) then pending_del (Reopen.next (reopen o)) i p else Some p in
  let! os := on_state fuel (objects p) i s now in
  let p := on_objects os p in
  let! o := objects p !! i in
  match s with
  | Opening =>
      let! p := if decay_ o then close_if_ready Decayed i p else Some p in
      add_next i p
  | Closing => add_next i p
  | Active => each (open_if_ready fuel) (rdepends o) p
  | Error => deactivate i Failed p
  | Closed =>
      let! (p, r) := mark_subtree_closed fuel now i p in
      let! p := if r && bool_decide (pstate p = Active) then Some p
                else let! p := decay fuel i p in each (close_if_ready Plain) (depends o) p in
      Some (match pstate p with Closing | Closed => _close_workers p | _ => p end)
  | Destroy => Some p
  end.

Definition activate_all (fuel : nat) (p : proc) : option proc :=
  each (λ i p, let! o := objects p !! i in
               if bool_decide (depends o ≠ []) then Some p else activate fuel i p)
    (seq 0 (length (objects p))) (set_pstate Active p).

(** [Processor::_close] *)
Definition _close (force : bool) (p : proc) : option proc :=
  let! p := each (λ i p, let! o := objects p !! i in
                         close_if_ready DecayedLeaf i (on_objects (<[i := set_decay true o]> (objects p)) p))
              (seq 0 (length (objects p))) p in
  let p := _close_workers p in
  if negb force then Some p else
  let p := foldl (λ p i, post_ (CloseObject i) p) p (reverse (seq 0 (length (objects p)))) in
  let p := foldl (λ p w, post_ (CloseWorker w) p) p (seq 0 (length (workers p))) in
  Some (set_pstate Closed (stop p)).

(** [tll_channel_close] of the processor with [Base::close]. *)
Definition close (force : bool) (p : proc) : option proc :=
  match pstate p with
  | Closed => Some p
  | Closing => if force then _close true p else Some p
  | _ => _close force (set_pstate Closing p)
  end.

(** ** Events *)
Inductive event :=
| EState (o : nat) (s : state)             (* scheme::State *)
| EWorker (w : nat) (s : state)            (* scheme::WorkerState *)
| EExit (code : Z)                         (* scheme::Exit *)
| EChannelClose (o : nat)                  (* processor_scheme::ChannelClose *)
| ETimer                                   (* the timer of pending actions *)
| EClose (force : bool).

Definition cb_worker (fuel : nat) (w : nat) (s : state) (p : proc) : option proc :=
  let! _ := workers p !! w in
  let p := set_workers (<[w := s]> (workers p)) p in
  match s with
  | Closed => if all_closed (workers p) then _close true p else Some p
  | Active => if forallb (λ s, bool_decide (s = Active)) (workers p) then activate_all fuel p else Some p
  | _ => Some p
  end.

Definition cb_close (i : nat) (p : proc) : option proc :=
  let! o := objects p !! i in
  if is_state Closed o then Some p else deactivate i Requested p.

Definition pending_action (fuel : nat) (now : Z) (i : nat) (p : proc) : option proc :=
  let! o := objects p !! i in
  let '(a, r) := Reopen.on_timer (reopen o) now (suspended o) in
  let p := on_objects (<[i := set_reopen r o]> (objects p)) p in
  match a with
  | Reopen.AOpen =>
      if negb (ready_open (objects p) o) || bool_decide (pstate p ≠ Active)
      then Some (on_objects (<[i := set_reopen (set_next 0 r) o]> (objects p)) p)
      else activate fuel i p
  | Reopen.AClose => deactivate i Pending p
  | Reopen.ARearm => add_next i p
  | Reopen.ANone => Some p
  end.

(** The loop erases the element after its action; [n] bounds the elements that
    are due. *)
Fixpoint pending_loop (n fuel : nat) (now : Z) (p : proc) : option proc :=
  match n with
  | O => None
  | S n =>
      match pending p with
      | (t, i) :: l =>
          if t <? now then
            let! p := pending_action fuel now i p in
            pending_loop n fuel now (set_pending (tail (pending p)) p)
          else Some p
      | [] => Some p
      end
  end.

Definition pending_process (fuel : nat) (now : Z) (p : proc) : option proc :=
  let! p := pending_loop (S (length (pending p))) fuel now p in
  Some (match pending p with [] => p | (t, _) :: _ => pending_rearm t p end).

(** [Processor::cb], the timer and the close of the channel. *)
Definition step (fuel : nat) (now : Z) (e : event) (p : proc) : option proc :=
  match e with
  | EState i s => let! p := update fuel now i s p in Some (post_ (Report i s) p)
  | EWorker w s => cb_worker fuel w s p
  | EExit code => if bool_decide (pstate p = Closing) then Some p else close false (set_exit_code code p)
  | EChannelClose i => cb_close i p
  | ETimer => pending_process fuel now p
  | EClose force => close force p
  end.
End run.
End Processor.
