(* ===== verification/ProcessorSpec.v ===== *)
(** * Properties of the processor

    The invariant of the graph of objects in Processor.v and the theorems
    about it: in which order objects are opened and closed, that a shutdown
    never waits for nobody, and that every walk of the graph ends.

    The invariant speaks about the flags of the objects only, and it has
    exceptions ([C], [B] and [S]), the objects for which one of its parts does
    not hold while an operation is at work on them. *)
From S2P Require Import Prelude Callback Channel Reopen Processor.

Module ProcessorSpec.
Import Chan Processor.

(** ** Definitions *)

(** [o] is at rest: closed or about to be, and not told to open. *)
Definition quiet (o : object) : Prop := (ostate o = Closed ∨ ostate o = Closing) ∧ opening o = false.

Definition swept (os : list object) (i : nat) : Prop := ∃ o, os !! i = Some o ∧ subtree_closed o = true.
Definition unswept (os : list object) (i : nat) : Prop := ∃ o, os !! i = Some o ∧ subtree_closed o = false.

(** The lists of dependencies and of dependants agree, and lead nowhere else. *)
Definition linked (os : list object) : Prop :=
  ∀ i o, os !! i = Some o →
    (∀ d, d ∈ depends o → ∃ od, os !! d = Some od ∧ i ∈ rdepends od) ∧
    (∀ r, r ∈ rdepends o → ∃ od, os !! r = Some od ∧ i ∈ depends od).

(** [j] depends on [i], directly or through other objects. *)
Definition dependant (os : list object) : nat → nat → Prop :=
  tc (λ i j, ∃ o, os !! i = Some o ∧ j ∈ rdepends o).

(** A decaying object that could be told to close has been told. *)
Definition told (os : list object) (o : object) : Prop := decay_ o = true → ready_close os o = false.

(** A closed object without anything open above it is marked so. *)
Definition marked (os : list object) (o : object) : Prop :=
  ostate o = Closed → opening o = false → all_of os subtree_closed (rdepends o) = true → subtree_closed o = true.

Record inv (C B S : nat → Prop) (os : list object) : Prop := Inv {
  inv_linked : linked os;
  inv_down : ∀ i o d, os !! i = Some o → d ∈ depends o → swept os d → subtree_closed o = true;
  inv_quiet : ∀ i o, ¬ C i → os !! i = Some o → subtree_closed o = true → quiet o;
  inv_told : ∀ i o, ¬ B i → os !! i = Some o → told os o;
  inv_marked : ∀ i o, ¬ S i → os !! i = Some o → marked os o;
}.

Definition none (i : nat) : Prop := False.

(** Does a command ask object [i] for state [s] ([Some true]), or report that
    it has come to it ([Some false])? *)
Definition asks (i : nat) (s : state) (c : command) : option bool :=
  match c with
  | Activate j => if bool_decide (j = i ∧ s = Opening) then Some true else None
  | Deactivate j _ => if bool_decide (j = i ∧ s = Closing) then Some true else None
  | Report j s' => if bool_decide (j = i ∧ s' = s) then Some false else None
  | _ => None
  end.

(** The last of these in the log is a request: it has not been answered. *)
Definition awaiting (i : nat) (s : state) (l : list post) : bool :=
  foldl (λ b x, default b (asks i s (cmd x))) false l.

(** The flags [closing] and [opening] stand for unanswered requests. *)
Definition waits_on (os : list object) (l : list post) : Prop :=
  ∀ i o, os !! i = Some o →
    (closing o = true → awaiting i Closing l = true) ∧ (opening o = true → awaiting i Opening l = true).

(** What holds when a command is posted. *)
Definition post_ok (x : post) : Prop :=
  match cmd x with
  | Activate i => ∃ o, seen x !! i = Some o ∧
      ∀ d, d ∈ depends o → ∃ od, seen x !! d = Some od ∧ ostate od = Active ∧ decay_ od = false
  | Deactivate i why => ∃ o, seen x !! i = Some o ∧
      match why with
      | Failed => ostate o = Error
      | Requested | Pending => True
      | _ => ∀ j, dependant (seen x) i j → ∃ oj, seen x !! j = Some oj ∧ quiet oj
      end
  | Exit w => ∀ i o, seen x !! i = Some o → ostate o = Closed
  | _ => True
  end.

Record pinv (C B S : nat → Prop) (p : proc) : Prop := Pinv {
  p_inv : inv C B S (objects p);
  p_posts : Forall post_ok (posts p);
  p_waits : waits_on (objects p) (posts p);
}.

Lemma not_none i : ¬ none i.
Proof. by intros []. Qed.

#[local] Hint Resolve not_none : core.

(** ** Lists of objects *)
Lemma all_of_spec os p l : all_of os p l = true ↔ ∀ i, i ∈ l → ∃ o, os !! i = Some o ∧ p o = true.
Proof.
  unfold all_of. rewrite forallb_forall. setoid_rewrite <- list_elem_of_In. split; intros H i Hi; specialize (H i Hi).
  - destruct (os !! i) as [o|]; [by exists o|done].
  - destruct H as (o & -> & ?). done.
Qed.

Lemma any_of_false os p l : any_of os p l = false ↔ ∀ i o, i ∈ l → os !! i = Some o → p o = false.
Proof.
  unfold any_of. rewrite <- not_true_iff_false, existsb_exists. setoid_rewrite <- list_elem_of_In. split.
  - intros H i o Hi Ho. apply not_true_is_false. intros Hp. apply H. exists i. by rewrite Ho.
  - intros H (i & Hi & Hp). destruct (os !! i) as [o|] eqn:E; [|done]. by rewrite (H i o Hi E) in Hp.
Qed.

Lemma all_swept os l : all_of os subtree_closed l = true ↔ ∀ i, i ∈ l → swept os i.
Proof. apply all_of_spec. Qed.

(** Two states whose objects differ in nothing that [swept] sees. *)
Lemma swept_insert os i o o' j : os !! i = Some o → subtree_closed o' = subtree_closed o →
  swept (<[i := o']> os) j ↔ swept os j.
Proof.
  intros Ho Hs. unfold swept. destruct (decide (i = j)) as [<-|Hne].
  - rewrite list_lookup_insert_eq by (by eapply lookup_lt_Some). rewrite Ho. split; intros (x & [= <-] & Hx); eexists; (split; [done|congruence]).
  - by rewrite list_lookup_insert_ne.
Qed.

Lemma all_swept_ext os os' l : (∀ j, swept os' j ↔ swept os j) →
  all_of os' subtree_closed l = all_of os subtree_closed l.
Proof. intros H. apply eq_true_iff_eq. rewrite !all_swept. by setoid_rewrite H. Qed.

Lemma ready_close_ext os os' o : (∀ j, swept os' j ↔ swept os j) → ready_close os' o = ready_close os o.
Proof. intros H. unfold ready_close. by rewrite (all_swept_ext os os' _ H). Qed.

Lemma told_ext os os' o : (∀ j, swept os' j ↔ swept os j) → told os o → told os' o.
Proof. intros H. unfold told. by rewrite (ready_close_ext os os' _ H). Qed.

Lemma marked_ext os os' o : (∀ j, swept os' j ↔ swept os j) → marked os o → marked os' o.
Proof. intros H. unfold marked. by rewrite (all_swept_ext os os' _ H). Qed.

Lemma lookup_insert_cases {A} (l : list A) i x j y : <[i := x]> l !! j = Some y →
  (j = i ∧ y = x ∧ i < length l)%nat ∨ (j ≠ i ∧ l !! j = Some y).
Proof.
  intros H. destruct (decide (j = i)) as [->|Hne].
  - left. assert (i < length l)%nat as Hl. { apply lookup_lt_Some in H. by rewrite length_insert in H. }
    rewrite list_lookup_insert_eq in H by done. naive_solver.
  - right. by rewrite list_lookup_insert_ne in H by done.
Qed.

Lemma linked_insert os i o o' : os !! i = Some o → depends o' = depends o → rdepends o' = rdepends o →
  linked os → linked (<[i := o']> os).
Proof.
  intros Ho Hd Hr Hl.
  assert (∀ (sel : object → list nat), sel o' = sel o → ∀ k j, (∃ od, os !! j = Some od ∧ k ∈ sel od) →
    ∃ od, <[i := o']> os !! j = Some od ∧ k ∈ sel od) as Hx.
  { intros sel Hsel k j (od & Hj & Hk). destruct (decide (j = i)) as [->|Hne].
    - exists o'. rewrite list_lookup_insert_eq by (by eapply lookup_lt_Some). split; [done|]. rewrite Hsel. by simplify_eq.
    - exists od. by rewrite list_lookup_insert_ne. }
  intros j x [(-> & -> & _)|(Hne & Hj)]%lookup_insert_cases.
  - rewrite Hd, Hr. destruct (Hl i o Ho) as [H1 H2]. split; intros d Hdd; apply Hx; eauto.
  - destruct (Hl j x Hj) as [H1 H2]. split; intros d Hdd; apply Hx; eauto.
Qed.

(** ** The invariant when the flags of one object change *)
Lemma inv_insert C B S C' B' S' os i o o' : inv C B S os → os !! i = Some o →
  depends o' = depends o → rdepends o' = rdepends o → subtree_closed o' = subtree_closed o →
  (∀ j, j ≠ i → (C j → C' j) ∧ (B j → B' j) ∧ (S j → S' j)) →
  (¬ C' i → subtree_closed o' = true → quiet o') → (¬ B' i → told os o') → (¬ S' i → marked os o') →
  inv C' B' S' (<[i := o']> os).
Proof.
  intros [Hl Hd Hq Ht Hm] Ho Ed Er Es Hsub Hq' Ht' Hm'.
  pose proof (λ j, swept_insert os i o o' j Ho Es) as Hsw.
  split.
  - by eapply linked_insert.
  - intros j x d Hj Hdd Hs. apply Hsw in Hs. apply lookup_insert_cases in Hj as [(-> & -> & _)|(Hne & Hj)].
    + rewrite Es. apply (Hd i o d Ho); [by rewrite <- Ed|done].
    + by eapply Hd.
  - intros j x HC Hj. apply lookup_insert_cases in Hj as [(-> & -> & _)|(Hne & Hj)]; [by apply Hq'|].
    apply (Hq j); [|done]. by intros ?%Hsub.
  - intros j x HC Hj. apply (told_ext os _ _ Hsw). apply lookup_insert_cases in Hj as [(-> & -> & _)|(Hne & Hj)]; [by apply Ht'|].
    apply (Ht j); [|done]. by intros ?%Hsub.
  - intros j x HC Hj. apply (marked_ext os _ _ Hsw). apply lookup_insert_cases in Hj as [(-> & -> & _)|(Hne & Hj)]; [by apply Hm'|].
    apply (Hm j); [|done]. by intros ?%Hsub.
Qed.

Lemma inv_weaken (C B S C' B' S' : nat → Prop) os : inv C B S os →
  (∀ j, C j → C' j) → (∀ j, B j → B' j) → (∀ j, S j → S' j) → inv C' B' S' os.
Proof. intros [Hl Hd Hq Ht Hm] HC HB HS. split; [done|done|..]; intros i o Hi; eauto 6. Qed.

(** ** [mark_subtree_open] *)
Record opens (R : nat → Prop) (os os' : list object) : Prop := Opens {
  opens_same : ∀ j o, os !! j = Some o → ∃ b, os' !! j = Some (set_subtree_closed b o) ∧ (b = true → subtree_closed o = true);
  opens_none : ∀ j, os !! j = None → os' !! j = None;
  opens_deps : ∀ j o, os !! j = Some o → subtree_closed o = true → unswept os' j → ∀ d, d ∈ depends o → unswept os' d;
  opens_parent : ∀ j o, os !! j = Some o → subtree_closed o = true → unswept os' j →
    R j ∨ ∃ k ok, os !! k = Some ok ∧ j ∈ depends ok ∧ unswept os' k;
}.

Lemma each_inv {A} (P : list nat → A → Prop) (f : nat → A → option A) l a a' :
  (∀ i l a a', P (i :: l) a → f i a = Some a' → P l a') → P l a → each f l a = Some a' → P [] a'.
Proof.
  intros Hf. revert a. induction l as [|i l IH]; intros a HP He; cbn in He; [by simplify_eq|].
  destruct (f i a) as [a1|] eqn:E; [|done]. cbn in He. eapply IH; [|done]. by eapply Hf.
Qed.

Lemma set_subtree_closed_twice b b' o : set_subtree_closed b (set_subtree_closed b' o) = set_subtree_closed b o.
Proof. done. Qed.

Lemma set_subtree_closed_id o : set_subtree_closed (subtree_closed o) o = o.
Proof. by destruct o. Qed.

Lemma opens_refl R os : opens R os os.
Proof.
  split; [|done|..].
  - intros j o Hj. exists (subtree_closed o). by rewrite set_subtree_closed_id.
  - intros j o Hj Hs (x & Hx & Hsx). simplify_eq. congruence.
  - intros j o Hj Hs (x & Hx & Hsx). simplify_eq. congruence.
Qed.

Lemma opens_mono R os os' j : opens R os os' → unswept os j → unswept os' j.
Proof.
  intros Ho (o & Hj & Hs). destruct (opens_same _ _ _ Ho j o Hj) as (b & Hb & Himp).
  eexists. split; [done|]. cbn. destruct b; [|done]. by rewrite Himp in Hs.
Qed.

Lemma opens_swept R os os' j : opens R os os' → swept os' j → swept os j.
Proof.
  intros Ho (o' & Hj & Hs). destruct (os !! j) as [o|] eqn:E.
  - destruct (opens_same _ _ _ Ho j o E) as (b & Hb & Himp). exists o. split; [done|]. apply Himp.
    rewrite Hb in Hj. by injection Hj as <-.
  - by rewrite (opens_none _ _ _ Ho j E) in Hj.
Qed.

Lemma opens_trans R R' os os1 os2 : opens R os os1 → opens R' os1 os2 → (∀ j, R' j → R j) → opens R os os2.
Proof.
  intros H1 H2 HR. split.
  - intros j o Hj. destruct (opens_same _ _ _ H1 j o Hj) as (b & Hb & Himp).
    destruct (opens_same _ _ _ H2 j _ Hb) as (b' & Hb' & Himp'). exists b'. rewrite Hb'. split; [done|]. intros E. by apply Himp, Himp'.
  - intros j Hj. by apply (opens_none _ _ _ H2), (opens_none _ _ _ H1).
  - intros j o Hj Hs Hu d Hd. destruct (opens_same _ _ _ H1 j o Hj) as (b & Hb & Himp). destruct b.
    + by apply (opens_deps _ _ _ H2 j _ Hb).
    + eapply opens_mono; [done|]. eapply (opens_deps _ _ _ H1 j o Hj); [done| |done]. by eexists.
  - intros j o Hj Hs Hu. destruct (opens_same _ _ _ H1 j o Hj) as (b & Hb & Himp). destruct b.
    + destruct (opens_parent _ _ _ H2 j _ Hb eq_refl Hu) as [Hr|(k & ok & Hk & Hjk & Huk)]; [left; by apply HR|right].
      destruct (os !! k) as [x|] eqn:E.
      * destruct (opens_same _ _ _ H1 k x E) as (b' & Hb' & _). exists k, x. split_and!; [done| |done].
        rewrite Hb' in Hk. by injection Hk as <-.
      * by rewrite (opens_none _ _ _ H1 k E) in Hk.
    + destruct (opens_parent _ _ _ H1 j o Hj Hs) as [Hr|(k & ok & Hk & Hjk & Huk)]; [by eexists|by left|right].
      exists k, ok. split_and!; [done|done|]. by eapply opens_mono.
Qed.

Lemma each_opens (R : nat → Prop) f l os os' : (∀ d os os', f d os = Some os' → opens (λ j, j = d) os os' ∧ unswept os' d) →
  (∀ d, d ∈ l → R d) → each f l os = Some os' → opens R os os' ∧ ∀ d, d ∈ l → unswept os' d.
Proof.
  intros Hf. revert os. induction l as [|d l IH]; intros os HR He; cbn in He.
  - simplify_eq. split; [apply opens_refl|]. by intros d ?%not_elem_of_nil.
  - destruct (f d os) as [os1|] eqn:E; [|done]. cbn in He. destruct (Hf d os os1 E) as [H1 H2].
    destruct (IH os1 ltac:(intros; apply HR; set_solver) He) as [H3 H4]. split.
    + apply opens_trans with (R' := R) (os1 := os1); [|done|done].
      destruct H1 as [A1 A2 A3 A4]. split; [done..|]. intros j o Hj Hs Hu.
      destruct (A4 j o Hj Hs Hu) as [->|]; [left; apply HR; set_solver|by right].
    + intros x [->|Hx]%elem_of_cons; [by eapply opens_mono|by apply H4].
Qed.

(** Opening [i] by hand and then its dependencies. *)
Lemma opens_insert i o os os' : os !! i = Some o → opens (λ d, d ∈ depends o) (<[i := set_subtree_closed false o]> os) os' →
  (∀ d, d ∈ depends o → unswept os' d) → opens (λ j, j = i) os os' ∧ unswept os' i.
Proof.
  intros Ho H Hd. pose proof (lookup_lt_Some _ _ _ Ho) as Hlt.
  assert (<[i := set_subtree_closed false o]> os !! i = Some (set_subtree_closed false o)) as Hi by by apply list_lookup_insert_eq.
  assert (unswept os' i) as Hui. { eapply opens_mono; [done|]. by eexists. }
  split; [|done]. split.
  - intros j x Hj. destruct (decide (j = i)) as [->|Hne].
    + simplify_eq. destruct (opens_same _ _ _ H i _ Hi) as (b & Hb & Himp). exists b. rewrite Hb. split; [done|]. intros ->. by specialize (Himp eq_refl).
    + apply (opens_same _ _ _ H). by rewrite list_lookup_insert_ne.
  - intros j Hj. apply (opens_none _ _ _ H). destruct (decide (j = i)) as [->|Hne]; [congruence|by rewrite list_lookup_insert_ne].
  - intros j x Hj Hs Hu d Hdd. destruct (decide (j = i)) as [->|Hne]; [apply Hd; by simplify_eq|].
    apply (opens_deps _ _ _ H j x); [by rewrite list_lookup_insert_ne|done..].
  - intros j x Hj Hs Hu. destruct (decide (j = i)) as [->|Hne]; [by left|right].
    destruct (opens_parent _ _ _ H j x) as [Hr|(k & ok & Hk & Hjk & Huk)]; [by rewrite list_lookup_insert_ne|exact Hs|exact Hu|by exists i, o|].
    apply lookup_insert_cases in Hk as [(-> & -> & _)|(Hne' & Hk)]; [by exists i, o|by exists k, ok].
Qed.

Lemma mark_subtree_open_opens fuel i os os' : mark_subtree_open fuel i os = Some os' → opens (λ j, j = i) os os' ∧ unswept os' i.
Proof.
  revert i os os'. induction fuel as [|fuel IH]; intros i os os' H; cbn in H; [done|].
  destruct (os !! i) as [o|] eqn:Ho; [|done]. cbn in H. destruct (subtree_closed o) eqn:Es; cbn in H.
  - destruct (each_opens (λ d, d ∈ depends o) _ _ _ _ IH (λ _ h, h) H) as [H1 H2]. by eapply opens_insert.
  - simplify_eq. split; [apply opens_refl|by exists o].
Qed.

Lemma opens_linked R os os' : opens R os os' → linked os → linked os'.
Proof.
  intros Ho Hl.
  assert (∀ (sel : object → list nat), (∀ b o, sel (set_subtree_closed b o) = sel o) → ∀ k j,
    (∃ od, os !! j = Some od ∧ k ∈ sel od) → ∃ od, os' !! j = Some od ∧ k ∈ sel od) as Hx.
  { intros sel Hsel k j (od & Hj & Hk). destruct (opens_same _ _ _ Ho j od Hj) as (b & Hb & _).
    exists (set_subtree_closed b od). by rewrite Hsel. }
  intros j x Hj. destruct (os !! j) as [o|] eqn:E; [|by rewrite (opens_none _ _ _ Ho j E) in Hj].
  destruct (opens_same _ _ _ Ho j o E) as (b & Hb & _). rewrite Hb in Hj. injection Hj as <-.
  destruct (Hl j o E) as [H1 H2]. split; intros d Hd; [apply (Hx rdepends); [done|by apply H1]|apply (Hx depends); [done|by apply H2]].
Qed.

(** What the flags of an object with its subtree opened still say. *)
Lemma opens_back R os os' j x : opens R os os' → os' !! j = Some x →
  ∃ o b, os !! j = Some o ∧ x = set_subtree_closed b o ∧ (b = true → subtree_closed o = true).
Proof.
  intros Ho Hj. destruct (os !! j) as [o|] eqn:E; [|by rewrite (opens_none _ _ _ Ho j E) in Hj].
  destruct (opens_same _ _ _ Ho j o E) as (b & Hb & Himp). exists o, b. split_and!; [done|congruence|done].
Qed.

Lemma opens_inv i C B S os os' : opens (λ j, j = i) os os' → unswept os' i → inv C B S os →
  (∀ o, os !! i = Some o → opening o = true ∨ ostate o ≠ Closed) →
  inv (λ j, C j ∧ j ≠ i) B S os'.
Proof.
  intros Ho Hu [Hl Hd Hq Ht Hm] Hroot. pose proof (λ j, opens_swept _ os os' j Ho) as Hsw.
  assert (∀ l, all_of os' subtree_closed l = true → all_of os subtree_closed l = true) as Hall.
  { intros l. rewrite !all_swept. eauto. }
  split.
  - by eapply opens_linked.
  - intros j x d Hj Hdd Hs. destruct (opens_back _ _ _ _ _ Ho Hj) as (o & b & Hjo & -> & Himp). cbn in *.
    destruct b; [done|]. pose proof (Hd j o d Hjo Hdd (Hsw d Hs)) as Hso.
    destruct (opens_deps _ _ _ Ho j o Hjo Hso) with (d := d) as (y & Hy & Hys); [by eexists|done|].
    destruct Hs as (z & Hz & Hzs). congruence.
  - intros j x HC Hj Hs. destruct (opens_back _ _ _ _ _ Ho Hj) as (o & b & Hjo & -> & Himp). cbn in Hs.
    destruct (decide (j = i)) as [->|Hne].
    + destruct Hu as (y & Hy & Hys). rewrite Hj in Hy. injection Hy as <-. cbn in Hys. congruence.
    + apply (Hq j o); [naive_solver|done|by apply Himp].
  - intros j x HB Hj. destruct (opens_back _ _ _ _ _ Ho Hj) as (o & b & Hjo & -> & Himp).
    intros Hdec. specialize (Ht j o HB Hjo Hdec). unfold ready_close in *. cbn in *.
    destruct (_ || _); [done|]. apply not_true_is_false. intros Htr. by rewrite (Hall _ Htr) in Ht.
  - intros j x HS Hj. destruct (opens_back _ _ _ _ _ Ho Hj) as (o & b & Hjo & -> & Himp).
    intros Hst Hop Hall'. cbn in *. specialize (Hm j o HS Hjo Hst Hop (Hall _ Hall')). destruct b; [done|exfalso].
    destruct (opens_parent _ _ _ Ho j o Hjo Hm) as [->|(k & ok & Hk & Hjk & Huk)];
      [by eexists|by destruct (Hroot o Hjo) as [E|E]; congruence|].
    destruct (Hl k ok Hk) as [H1 _]. destruct (H1 j Hjk) as (od & Hod & Hin). rewrite Hjo in Hod. injection Hod as <-.
    destruct (proj1 (all_swept _ _) Hall' k Hin) as (y & Hy & Hys). destruct Huk as (z & Hz & Hzs). congruence.
Qed.

(** ** Requests and the log *)
Lemma awaiting_app i s l x : awaiting i s (l ++ [x]) = default (awaiting i s l) (asks i s (cmd x)).
Proof. unfold awaiting. by rewrite foldl_app. Qed.

Lemma waits_post os l c x : (∀ i s, c ≠ Report i s) → waits_on os l → waits_on os (l ++ [Post c x]).
Proof.
  intros Hc Hw i o Hi. destruct (Hw i o Hi) as [H1 H2]. rewrite !awaiting_app. cbn.
  split; intros Hf; [rewrite (H1 Hf)|rewrite (H2 Hf)]; destruct c; cbn; try done; try case_bool_decide; naive_solver.
Qed.

Lemma waits_insert os l i o' : waits_on os l → (closing o' = true → awaiting i Closing l = true) →
  (opening o' = true → awaiting i Opening l = true) → waits_on (<[i := o']> os) l.
Proof. intros Hw H1 H2 j o [(-> & -> & _)|(_ & Hj)]%lookup_insert_cases; [done|by apply Hw]. Qed.

Lemma waits_opens R os os' l : opens R os os' → waits_on os l → waits_on os' l.
Proof.
  intros Ho Hw j x Hj. destruct (opens_back _ _ _ _ _ Ho Hj) as (o & b & Hjo & -> & _). exact (Hw j o Hjo).
Qed.

Lemma pinv_weaken (C B S C' B' S' : nat → Prop) p : pinv C B S p →
  (∀ j, C j → C' j) → (∀ j, B j → B' j) → (∀ j, S j → S' j) → pinv C' B' S' p.
Proof. intros [H1 H2 H3] HC HB HS. split; [by eapply inv_weaken|done|done]. Qed.

(** The invariant after a change of one object whose requests stay. *)
Lemma pinv_insert C B S C' B' S' p i o o' : pinv C B S p → objects p !! i = Some o →
  depends o' = depends o → rdepends o' = rdepends o → subtree_closed o' = subtree_closed o →
  (∀ j, j ≠ i → (C j → C' j) ∧ (B j → B' j) ∧ (S j → S' j)) →
  (¬ C' i → subtree_closed o' = true → quiet o') → (¬ B' i → told (objects p) o') → (¬ S' i → marked (objects p) o') →
  (closing o' = true → closing o = true) → (opening o' = true → opening o = true) →
  pinv C' B' S' (on_objects (<[i := o']> (objects p)) p).
Proof.
  intros [H1 H2 H3] Ho Ed Er Es Hsub Hq Ht Hm Hc Hop. destruct (H3 i o Ho) as [W1 W2].
  split; [by eapply inv_insert|done|]. cbn. apply waits_insert; [done|auto..].
Qed.

Lemma pinv_told_at C B S p i o : pinv C (λ j, B j ∨ j = i) S p → objects p !! i = Some o → told (objects p) o → pinv C B S p.
Proof.
  intros [[Hl Hd Hq Ht Hm] H2 H3] Ho Hto. split; [|done|done]. split; [done|done|done| |done].
  intros j x HB Hj. destruct (decide (j = i)) as [->|Hne]; [by simplify_eq|]. apply (Ht j); [|done]. by intros [?|?].
Qed.

Lemma pinv_marked_at C B S p i o : pinv C B (λ j, S j ∨ j = i) p → objects p !! i = Some o → marked (objects p) o → pinv C B S p.
Proof.
  intros [[Hl Hd Hq Ht Hm] H2 H3] Ho Hto. split; [|done|done]. split; [done|done|done|done|].
  intros j x HB Hj. destruct (decide (j = i)) as [->|Hne]; [by simplify_eq|]. apply (Hm j); [|done]. by intros [?|?].
Qed.

Lemma pinv_core C B S p p' : objects p' = objects p → posts p' = posts p → pinv C B S p → pinv C B S p'.
Proof. intros E1 E2 [H1 H2 H3]. split; by rewrite ?E1, ?E2. Qed.

(** ** The dependants of an object with all direct dependants marked *)
Lemma dependants_swept C B S os i o j : inv C B S os → os !! i = Some o → all_of os subtree_closed (rdepends o) = true →
  dependant os i j → swept os j.
Proof.
  intros Hi Ho Hall Hd. assert (∀ x o', os !! x = Some o' → swept os x → ∀ r, r ∈ rdepends o' → swept os r) as Hup.
  { intros x o' Hx Hsx r Hr. destruct (proj2 (inv_linked _ _ _ _ Hi x o' Hx) r Hr) as (od & Hod & Hin).
    exists od. split; [done|]. by eapply (inv_down _ _ _ _ Hi). }
  revert o Ho Hall. induction Hd as [i j (o' & Ho' & Hj)|i k j (o' & Ho' & Hk) Hkj IH]; intros o Ho Hall; simplify_eq.
  - by apply (proj1 (all_swept _ _) Hall).
  - pose proof (proj1 (all_swept _ _) Hall k Hk) as Hsk. destruct (Hsk) as (ok & Hok & _).
    apply (IH ok Hok). apply all_swept. by eapply Hup.
Qed.

Lemma dependants_quiet B S os i o : inv none B S os → os !! i = Some o → all_of os subtree_closed (rdepends o) = true →
  ∀ j, dependant os i j → ∃ oj, os !! j = Some oj ∧ quiet oj.
Proof.
  intros Hi Ho Hall j Hd. destruct (dependants_swept _ _ _ _ _ _ _ Hi Ho Hall Hd) as (oj & Hj & Hs).
  exists oj. split; [done|]. by apply (inv_quiet _ _ _ _ Hi j).
Qed.

(** ** [activate] and [deactivate] *)
Lemma ready_open_spec os o : ready_open os o = true →
  ∀ d, d ∈ depends o → ∃ od, os !! d = Some od ∧ ostate od = Active ∧ decay_ od = false.
Proof.
  unfold ready_open. destruct (any_of _ _ _) eqn:E; [done|]. intros H d Hd.
  destruct (proj1 (all_of_spec _ _ _) H d Hd) as (od & Hod & Hs). exists od. split_and!; [done| |].
  - unfold is_state in Hs. by apply bool_decide_eq_true in Hs.
  - by apply (proj1 (any_of_false _ _ _) E d).
Qed.

Definition activated (o : object) : object := set_reopen (set_next 0 (reopen o)) (set_opening true (set_decay false o)).

Lemma activate_inv fuel C B S p i o p' : pinv C B S p → objects p !! i = Some o → ready_open (objects p) o = true →
  activate fuel i p = Some p' → pinv C B S p'.
Proof.
  intros [Hi Hp Hw] Ho Hr H. unfold activate in H. rewrite Ho in H. cbn in H. fold (activated o) in H.
  destruct (mark_subtree_open _ _ _) as [os|] eqn:E; [|done]. cbn in H. injection H as <-.
  destruct (mark_subtree_open_opens _ _ _ _ E) as [Hop Hu].
  pose proof (lookup_lt_Some _ _ _ Ho) as Hlt.
  assert (<[i := activated o]> (objects p) !! i = Some (activated o)) as Hio by by apply list_lookup_insert_eq.
  assert (inv (λ j, C j ∨ j = i) B S (<[i := activated o]> (objects p))) as Hinv.
  { eapply inv_insert; [exact Hi|exact Ho|done..| | | |].
    - intros j Hne. tauto.
    - tauto.
    - done.
    - intros _ _ Hf. done. }
  split; cbn.
  - eapply inv_weaken; [apply (opens_inv i _ _ _ _ _ Hop Hu Hinv)|..]; [|naive_solver..].
    intros x Hx. rewrite Hio in Hx. injection Hx as <-. by left.
  - apply Forall_app_2; [done|]. constructor; [|done]. cbn.
    destruct (opens_same _ _ _ Hop i _ Hio) as (b & Hb & _). eexists. split; [exact Hb|]. cbn. intros d Hd.
    destruct (ready_open_spec _ _ Hr d Hd) as (od & Hod & Hst & Hdc).
    destruct (decide (d = i)) as [->|Hne].
    + eexists. split; [exact Hb|]. simplify_eq. done.
    + destruct (opens_same _ _ _ Hop d od) as (b' & Hb' & _); [by rewrite list_lookup_insert_ne|]. by eexists.
  - eapply waits_opens; [done|]. intros j x Hj.
    apply lookup_insert_cases in Hj as [(-> & -> & _)|(Hne & Hj)].
    + rewrite !awaiting_app. cbn. split; intros Hf; [|by rewrite bool_decide_true].
      rewrite bool_decide_false by naive_solver. by apply (Hw i o).
    + by apply (waits_post _ _ (Activate i) os ltac:(done) Hw).
Qed.

(** What allows a deactivation. *)
Definition may_close (os : list object) (o : object) (why : reason) : Prop :=
  match why with
  | Failed => ostate o = Error
  | Requested | Pending => True
  | _ => all_of os subtree_closed (rdepends o) = true
  end.

Lemma deactivate_inv B S p i o why p' : pinv none (λ j, B j ∨ j = i) S p → objects p !! i = Some o →
  may_close (objects p) o why → deactivate i why p = Some p' → pinv none B S p'.
Proof.
  intros Hpi Ho Hmay H. unfold deactivate in H. rewrite Ho in H. cbn in H. destruct (closing o) eqn:Hc.
  { simplify_eq. apply (pinv_told_at _ _ _ _ i o); [done|done|]. intros _. unfold ready_close. rewrite Hc. by rewrite !orb_true_r. }
  injection H as <-. set (o1 := match why with Failed => o | _ => _ end). set (o2 := if bool_decide _ then _ else _).
  assert (depends o2 = depends o ∧ rdepends o2 = rdepends o ∧ subtree_closed o2 = subtree_closed o ∧ ostate o2 = ostate o ∧
          opening o2 = opening o ∧ (ostate o2 ≠ Closing → closing o2 = true)) as (Ed & Er & Es & Est & Eop & Ec).
  { subst o2 o1. destruct why, o as [[] ? ? ? ? ? ? ? ? ? ?]; cbn; split_and!; try done; intros []; done. }
  destruct Hpi as [Hi Hp Hw].
  assert (inv none B S (<[i := o2]> (objects p))) as Hinv.
  { eapply inv_insert; [exact Hi|exact Ho|exact Ed|exact Er|exact Es|..].
    - intros j Hne. naive_solver.
    - intros _ Hs. rewrite Es in Hs. destruct (inv_quiet _ _ _ _ Hi i o ltac:(done) Ho Hs) as [Hq1 Hq2]. split; [by rewrite Est|by rewrite Eop].
    - intros _ _. unfold ready_close, is_state. destruct (decide (ostate o2 = Closing)) as [E|E].
      + rewrite (bool_decide_true _ E). by rewrite orb_true_r.
      + rewrite (Ec E). by rewrite !orb_true_r.
    - intros HS H1 H2 H3. rewrite Es. rewrite Est in H1. rewrite Eop in H2. rewrite Er in H3. by apply (inv_marked _ _ _ _ Hi i o). }
  split; cbn; [done| |].
  - apply Forall_app_2; [done|]. constructor; [|done]. cbn. exists o2.
    assert (<[i:=o2]> (objects p) !! i = Some o2) as Hio by (apply list_lookup_insert_eq; by eapply lookup_lt_Some).
    split; [done|]. destruct why; cbn in Hmay; try done; try (by rewrite Est);
      (eapply dependants_quiet; [done|done|]; rewrite Er;
       by rewrite (all_swept_ext (objects p) _ _ (λ j, swept_insert _ i o o2 j Ho Es))).
  - intros j x Hj. apply lookup_insert_cases in Hj as [(-> & -> & _)|(Hne & Hj)].
    + rewrite !awaiting_app. cbn. split; intros Hf; [by rewrite bool_decide_true|].
      rewrite bool_decide_false by naive_solver. apply (Hw i o); [done|]. by rewrite <- Eop.
    + by apply (waits_post _ _ (Deactivate i why) _ ltac:(done) Hw).
Qed.

(** ** Actions that leave the objects alone *)
Section run.
Context (junk : Z) (now : Z).

Definition core_eq (p p' : proc) : Prop := objects p' = objects p ∧ posts p' = posts p ∧ pstate p' = pstate p ∧ workers p' = workers p.

Lemma pending_add_core ts i p p' : pending_add junk ts i p = Some p' → core_eq p p'.
Proof.
  unfold pending_add. destruct (pending_has _ _ _ _) as [[]|]; cbn; intros H; simplify_eq; [done|]. by case_match.
Qed.

Lemma pending_del_core ts i p p' : pending_del junk ts i p = Some p' → core_eq p p'.
Proof.
  unfold pending_del. destruct (find_ts _ _); cbn; intros H; simplify_eq; [done|].
  destruct (erase_ts _ _ _ _) as [l'|]; [|done]. cbn in H. simplify_eq. destruct l' as [|[]]; cbn; [done|]. by case_match.
Qed.

Lemma core_inv C B S p p' : core_eq p p' → pinv C B S p → pinv C B S p'.
Proof. intros (H1 & H2 & _). by apply pinv_core. Qed.

Lemma add_next_core i p p' : add_next junk i p = Some p' → core_eq p p'.
Proof.
  unfold add_next. destruct (objects p !! i); cbn; [|done]. case_match; [apply pending_add_core|]. by intros [= <-].
Qed.

Lemma reactivate_inv fuel B S i p p' : pinv none B S p → reactivate junk fuel now i p = Some p' → pinv none B S p'.
Proof.
  unfold reactivate. intros Hp H. case_bool_decide; [by simplify_eq|].
  destruct (objects p !! i) as [o|] eqn:Ho; [|done]. cbn in H. destruct (ready_open _ _) eqn:Hr; [|by simplify_eq].
  case_match; [|by eapply activate_inv]. destruct (Reopen.timeout _); [|done]. cbn in H. by eapply core_inv; [eapply pending_add_core|].
Qed.

Lemma close_if_ready_inv B S why i p p' : (why = Plain ∨ why = DecayedLeaf ∨ why = Decayed) →
  pinv none (λ j, B j ∨ j = i) S p → close_if_ready why i p = Some p' → pinv none B S p'.
Proof.
  unfold close_if_ready. intros Hw Hp H. destruct (objects p !! i) as [o|] eqn:Ho; [|done]. cbn in H.
  destruct (ready_close (objects p) o) eqn:Hr.
  - eapply deactivate_inv; [done|done| |done]. unfold ready_close in Hr. destruct (_ || _); [done|]. by destruct Hw as [-> | [-> | ->]].
  - simplify_eq. eapply pinv_told_at; [done|done|]. by intros _.
Qed.

Lemma open_if_ready_inv fuel C B S i p p' : pinv C B S p → open_if_ready fuel i p = Some p' → pinv C B S p'.
Proof.
  unfold open_if_ready. intros Hp H. destruct (objects p !! i) as [o|] eqn:Ho; [|done]. cbn in H.
  destruct (ready_open (objects p) o) eqn:Hr; [by eapply activate_inv|by simplify_eq].
Qed.

(** Marking a closed object moves the exceptions to its dependencies. *)
Lemma mark_inv B S p i o : pinv none (λ j, B j ∨ j = i) (λ j, S j ∨ j = i) p → objects p !! i = Some o → quiet o →
  all_of (objects p) subtree_closed (rdepends o) = true →
  pinv none (λ j, B j ∨ j ∈ depends o) (λ j, S j ∨ j ∈ depends o) (on_objects (<[i := set_subtree_closed true o]> (objects p)) p).
Proof.
  intros [[Hl Hd Hq Ht Hm] Hp Hw] Ho Hqo Hall. set (os := <[i := _]> _).
  assert (∀ j, swept os j → j ≠ i → swept (objects p) j) as Hback.
  { intros j (x & Hj & Hs) Hne. exists x. split; [|done]. subst os. by rewrite list_lookup_insert_ne in Hj. }
  assert (∀ j x, objects p !! j = Some x → j ∉ depends o → ∀ r, r ∈ rdepends x → swept os r → swept (objects p) r) as Hrd.
  { intros j x Hj Hni r Hr Hs. apply Hback; [done|]. intros ->. destruct (proj2 (Hl j x Hj) i Hr) as (od & Hod & Hin).
    by simplify_eq. }
  split; [|done|]; cbn.
  - split.
    + by eapply linked_insert.
    + intros j x d Hj Hdd Hs. apply lookup_insert_cases in Hj as [(-> & -> & _)|(Hne & Hj)]; [done|].
      destruct (decide (d = i)) as [->|Hne']; [|by eapply Hd; [..|apply Hback]].
      destruct (proj1 (Hl j x Hj) i Hdd) as (od & Hod & Hin). simplify_eq.
      destruct (proj1 (all_swept _ _) Hall j Hin) as (y & Hy & Hys). by simplify_eq.
    + intros j x _ Hj. apply lookup_insert_cases in Hj as [(-> & -> & _)|(Hne & Hj)]; [done|by apply (Hq j)].
    + intros j x Hn Hj. apply lookup_insert_cases in Hj as [(-> & -> & _)|(Hne & Hj)].
      * intros _. unfold ready_close, is_state. cbn. destruct Hqo as [[-> | ->] _]; done.
      * intros Hdec. pose proof (Ht j x ltac:(naive_solver) Hj Hdec) as Hr. unfold ready_close in *.
        destruct (_ || _); [done|]. apply not_true_is_false. intros Ha. rewrite all_swept in Ha.
        apply not_true_iff_false in Hr. apply Hr, all_swept. intros r Hr'. eapply Hrd; [done|naive_solver|done|by apply Ha].
    + intros j x Hn Hj. apply lookup_insert_cases in Hj as [(-> & -> & _)|(Hne & Hj)]; [done|].
      intros Hst Hop Ha. rewrite all_swept in Ha. apply (Hm j x ltac:(naive_solver) Hj Hst Hop).
      apply all_swept. intros r Hr'. eapply Hrd; [done|naive_solver|done|by apply Ha].
  - apply waits_insert; [done|apply (Hw i o Ho)..].
Qed.

Lemma mark_subtree_closed_inv n i B S p p' r : pinv none (λ j, B j ∨ j = i) (λ j, S j ∨ j = i) p →
  mark_subtree_closed junk n now i p = Some (p', r) → pinv none B S p'.
Proof.
  revert i B S p p' r. induction n as [|n IH]; intros i B S p p' r Hp H; cbn in H; [done|].
  destruct (objects p !! i) as [o|] eqn:Ho; [|done]. cbn in H.
  assert (pinv none B S p ∨ subtree_closed o = false) as Hsc.
  { destruct (subtree_closed o) eqn:Es; [left|by right].
    pose proof (inv_quiet _ _ _ _ (p_inv _ _ _ _ Hp) i o ltac:(done) Ho Es) as [Hq _].
    apply (pinv_marked_at _ _ _ _ i o); [|done|by intros _ _ _]. eapply (pinv_told_at _ _ _ _ i o); [exact Hp|done|].
    intros _. unfold ready_close, is_state. by destruct Hq as [-> | ->]. }
  destruct (subtree_closed o) eqn:Es.
  { destruct Hsc as [Hsc|]; [|done]. destruct (ready_open _ _); [|by simplify_eq].
    destruct (reactivate _ _ _ _ _) eqn:E; [|done]. cbn in H. simplify_eq. by eapply reactivate_inv. }
  assert (all_of (objects p) subtree_closed (rdepends o) = false ∨ opening o = true ∨ ostate o ≠ Closed →
    pinv none (λ j, B j ∨ j = i) S p) as Hmk.
  { intros Hor. eapply pinv_marked_at; [done|done|]. intros H1 H2 H3. by destruct Hor as [E|[E|E]]; congruence. }
  destruct (all_of _ _ _) eqn:Hall; cbn in H.
  2: { simplify_eq. eapply pinv_told_at; [by apply Hmk; left|done|]. intros _. unfold ready_close. rewrite Hall. by destruct (_ || _). }
  destruct (opening o) eqn:Hop.
  { simplify_eq. eapply pinv_told_at; [apply Hmk; tauto|done|]. intros _. unfold ready_close. rewrite Hop. by rewrite !orb_true_r. }
  destruct (is_state Closed o) eqn:Hc; [|destruct (is_state Closing o) eqn:Hc']; cbn in H.
  3: { assert (ostate o ≠ Closed) as Hne by (unfold is_state in Hc; by apply bool_decide_eq_false in Hc).
       assert (pinv none (λ j, B j ∨ j = i) S p) as Hp' by (apply Hmk; tauto).
       destruct (decay_ o) eqn:Hdec.
       - destruct (deactivate _ _ _) eqn:E; [|done]. cbn in H. simplify_eq. eapply deactivate_inv; [exact Hp'|exact Ho| |exact E]; exact Hall.
       - simplify_eq. eapply pinv_told_at; [done|done|]. intros Hf. congruence. }
  all: destruct (each _ _ _) as [[p1 r1]|] eqn:E; [|done]; cbn in H.
  all: assert (pinv none B S p1) as Hp1 by (
    eapply pinv_weaken with (B := λ j, B j ∨ j ∈ []) (S := λ j, S j ∨ j ∈ []);
      [|done|intros ? [?|[]%elem_of_nil]; done|intros ? [?|[]%elem_of_nil]; done];
    refine (each_inv (λ l a, pinv none (λ j, B j ∨ j ∈ l) (λ j, S j ∨ j ∈ l) a.1) _ _ (_, _) (_, _) _ _ E);
    [ intros d l [q rq] [q' rq'] Hq Hf; cbn in Hf; destruct (mark_subtree_closed _ _ _ _ _) as [[q1 r']|] eqn:E1; [|done];
      cbn in Hf; simplify_eq; cbn in *; eapply IH; [|done]; eapply pinv_weaken; [done|done|set_solver|set_solver]
    | apply mark_inv; [done|done| |done]; unfold is_state in *; split; [|done];
      first [by left; apply bool_decide_eq_true in Hc|by right; apply bool_decide_eq_true in Hc'] ]).
  all: destruct (objects p1 !! i) as [o1|] eqn:Ho1; [|done]; cbn in H; destruct (ready_open _ _); [|by simplify_eq];
    destruct (reactivate _ _ _ _ _) eqn:E2; [|done]; cbn in H; simplify_eq; by eapply reactivate_inv.
Qed.
Lemma decay_inv n i B S p p' : pinv none B S p → decay n i p = Some p' → pinv none B S p'.
Proof.
  revert i B S p p'. induction n as [|n IH]; intros i B S p p' Hp H; cbn in H; [done|].
  destruct (objects p !! i) as [o|] eqn:Ho; [|done]. cbn in H. destruct (subtree_closed o) eqn:Es; [by simplify_eq|].
  destruct (each _ _ _) as [p1|] eqn:E; [|done]. cbn in H. change (close_if_ready DecayedLeaf i p1 = Some p') in H.
  eapply close_if_ready_inv; [by right; left| |done].
  refine (each_inv (λ _ a, pinv none (λ j, B j ∨ j = i) S a) _ _ _ _ _ _ E).
  - intros d l a a' Ha Hf. by eapply IH.
  - eapply pinv_insert; [exact Hp|exact Ho|done|done|done|naive_solver|..].
    + intros _ Hs. cbn in Hs; congruence.
    + intros HB. exfalso. apply HB. by right.
    + intros HS. exact (inv_marked _ _ _ _ (p_inv _ _ _ _ Hp) i o HS Ho).
    + done.
    + done.
Qed.

Lemma pinv_posts C B S cs p : pinv C B S p → (∀ c, c ∈ cs → post_ok (Post c (objects p)) ∧ ∀ i s, c ≠ Report i s) →
  pinv C B S (foldl (λ p c, post_ c p) p cs).
Proof.
  revert p. induction cs as [|c cs IH]; intros p Hp Hc; [done|]. cbn. apply IH.
  - destruct (Hc c ltac:(set_solver)) as [H1 H2]. destruct Hp as [Hi Hf Hw]. split; cbn; [done| |by apply waits_post].
    apply Forall_app_2; [done|]. by constructor.
  - cbn. intros c' Hc'. apply Hc. set_solver.
Qed.

Lemma foldl_post {A} (f : A → command) l p : foldl (λ p x, post_ (f x) p) p l = foldl (λ p c, post_ c p) p (f <$> l).
Proof. revert p. induction l as [|x l IH]; intros p; [done|]. cbn. apply IH. Qed.

Lemma close_workers_inv C B S p : pinv C B S p → pinv C B S (_close_workers p).
Proof.
  intros Hp. unfold _close_workers. case_match; [done|]. destruct (all_closed (ostate <$> objects p)) eqn:E; [|done].
  rewrite (foldl_post Exit). apply pinv_posts; [done|]. intros c (w & -> & _)%list_elem_of_fmap. split; [|done].
  intros i o Ho. cbn in Ho. unfold all_closed in E. rewrite forallb_forall in E.
  specialize (E (ostate o)). rewrite <- list_elem_of_In in E.
  assert (ostate o ∈ ostate <$> objects p) as Hin by (apply list_elem_of_fmap; exists o; split; [done|by eapply list_elem_of_lookup_2]).
  by apply E, bool_decide_eq_true in Hin.
Qed.

(** ** A report of a state *)
Definition allowed (i : nat) (s : state) (p : proc) : Prop :=
  s ≠ Destroy ∧ (s = Active → ∀ o, objects p !! i = Some o → ostate o ≠ Closed ∧ ostate o ≠ Closing).

(** The exceptions while the report is being processed. *)
Definition Cx (i : nat) (s : state) (j : nat) : Prop := s ≠ Closed ∧ j = i.
Definition Bx (i : nat) (s : state) (j : nat) : Prop := (s = Opening ∨ s = Error) ∧ j = i.
Definition Sx (i : nat) (s : state) (j : nat) : Prop := s = Closed ∧ j = i.

Lemma set_state_inv p i s o : pinv none none none p → allowed i s p → objects p !! i = Some o →
  pinv (Cx i s) (Bx i s) (Sx i s) (on_objects (<[i := set_state s o]> (objects p)) p).
Proof.
  intros Hp [Hs1 Hs2] Ho. eapply pinv_insert; [exact Hp|exact Ho|done|done|done|..]; [|..|done|done].
  - by intros j Hne.
  - intros HC Hs. assert (s = Closed) as -> by (destruct (decide (s = Closed)); [done|exfalso; apply HC; by split]).
    cbn in Hs. destruct (inv_quiet _ _ _ _ (p_inv _ _ _ _ Hp) i o ltac:(done) Ho Hs) as [_ Hop]. by split; [left|].
  - intros HB Hd. unfold ready_close, is_state. cbn in *. destruct s; cbn; try done.
    + exfalso. apply HB. by split; [left|].
    + destruct (Hs2 eq_refl o Ho) as [H1 H2]. pose proof (inv_told _ _ _ _ (p_inv _ _ _ _ Hp) i o ltac:(done) Ho Hd) as Hr.
      unfold ready_close, is_state in Hr. by rewrite (bool_decide_false _ H1), (bool_decide_false _ H2) in Hr.
    + exfalso. apply HB. by split; [right|].
  - intros HS Hst. cbn in Hst. exfalso. by apply HS.
Qed.

Lemma on_state_inv fuel p i s o os : pinv (Cx i s) (Bx i s) (Sx i s) p → objects p !! i = Some o → ostate o = s →
  on_state fuel (objects p) i s now = Some os →
  pinv none (Bx i s) (Sx i s) (on_objects os p) ∧
  ∃ o', os !! i = Some o' ∧ ostate o' = s ∧ (s = Closing → closing o' = false) ∧ (s = Opening → opening o' = false).
Proof.
  intros Hp Ho Hst H. unfold on_state in H. rewrite Ho in H. cbn in H. destruct (Reopen.on_state _ _ _ _) as [r|]; [|done]. cbn in H.
  set (o1 := set_reopen r o) in *. set (os1 := <[i := o1]> (objects p)) in *.
  assert (pinv (Cx i s) (Bx i s) (Sx i s) (on_objects os1 p)) as Hp1.
  { eapply pinv_insert; [exact Hp|exact Ho|done|done|done|naive_solver|..]; [..|done|done].
    - intros HC. exact (inv_quiet _ _ _ _ (p_inv _ _ _ _ Hp) i o HC Ho).
    - intros HC. exact (inv_told _ _ _ _ (p_inv _ _ _ _ Hp) i o HC Ho).
    - intros HC. exact (inv_marked _ _ _ _ (p_inv _ _ _ _ Hp) i o HC Ho). }
  assert (os1 !! i = Some o1) as Ho1 by (apply list_lookup_insert_eq; by eapply lookup_lt_Some).
  assert (∃ os2 o2, (if bool_decide (s ≠ Closed) then mark_subtree_open fuel i os1 else Some os1) = Some os2 ∧ os2 !! i = Some o2 ∧
    ostate o2 = s ∧ (s ≠ Closed → subtree_closed o2 = false) ∧ pinv none (Bx i s) (Sx i s) (on_objects os2 p)) as
    (os2 & o2 & E & Ho2 & Hst2 & Hsc2 & Hp2).
  { case_bool_decide as Hc.
    - destruct (mark_subtree_open _ _ _) as [os2|] eqn:E; [|done]. destruct (mark_subtree_open_opens _ _ _ _ E) as [Hop Hu].
      destruct (opens_same _ _ _ Hop i o1 Ho1) as (b & Hb & _). exists os2. eexists. split_and!; [done|exact Hb|done|..].
      + intros _. destruct Hu as (y & Hy & Hys). congruence.
      + destruct Hp1 as [Hi Hf Hw]. split; [|done|by eapply waits_opens].
        eapply inv_weaken; [eapply (opens_inv i); [done|done|exact Hi|]| |done|done].
        * intros x Hx. cbn in Hx. rewrite Ho1 in Hx. injection Hx as <-. right. cbn. congruence.
        * intros j [[_ ->] ?]. done.
    - exists os1, o1. split_and!; [done|done|done|done|]. eapply pinv_weaken; [done| |done|done]. by intros j [? _]. }
  rewrite E in H. cbn in H. rewrite Ho2 in H. cbn in H.
  assert (i < length os2)%nat as Hlt2 by by eapply lookup_lt_Some.
  destruct s; simplify_eq.
  all: try (split; [exact Hp2|by exists o2]).
  - split; [|eexists; split; [by apply list_lookup_insert_eq|done]].
    eapply (pinv_insert _ _ _ _ _ _ (on_objects os2 p) i o2); [exact Hp2|exact Ho2|done|done|done|naive_solver|..]; [..|done|done].
    + intros _ Hf. cbn in Hf. by rewrite Hsc2 in Hf.
    + intros HB. exfalso. apply HB. by split; [left|].
    + intros _ Hf. cbn in Hf. congruence.
  - split; [|eexists; split; [by apply list_lookup_insert_eq|done]].
    eapply (pinv_insert _ _ _ _ _ _ (on_objects os2 p) i o2); [exact Hp2|exact Ho2|done|done|done|naive_solver|..]; [..|done|done].
    + intros _ Hf. cbn in Hf. by rewrite Hsc2 in Hf.
    + intros _ _. unfold ready_close, is_state. cbn. by rewrite Hst2.
    + intros _ Hf. cbn in Hf. congruence.
Qed.
Lemma each_pinv C B S (f : nat → proc → option proc) l p p' :
  (∀ i p p', pinv C B S p → f i p = Some p' → pinv C B S p') → pinv C B S p → each f l p = Some p' → pinv C B S p'.
Proof. intros Hf Hp H. refine (each_inv (λ _ a, pinv C B S a) f l p p' _ Hp H). intros i l' a a' Ha Hfa. by eapply Hf. Qed.

Lemma close_if_ready_same B S why i p p' : (why = Plain ∨ why = DecayedLeaf ∨ why = Decayed) →
  pinv none B S p → close_if_ready why i p = Some p' → pinv none B S p'.
Proof. intros Hw Hp. apply close_if_ready_inv; [done|]. eapply pinv_weaken; [done|naive_solver..]. Qed.

Lemma Bx_none i s : s ≠ Opening → s ≠ Error → ∀ j, Bx i s j → none j.
Proof. by intros H1 H2 j [[?|?] _]. Qed.

Lemma Sx_none i s : s ≠ Closed → ∀ j, Sx i s j → none j.
Proof. by intros H j [? _]. Qed.

(** The part of [update] behind [on_state]. *)
Definition update_rest (fuel : nat) (i : nat) (s : state) (o : object) (p : proc) : option proc :=
  match s with
  | Opening =>
      let! p := if decay_ o then close_if_ready Decayed i p else Some p in
      add_next junk i p
  | Closing => add_next junk i p
  | Active => each (open_if_ready fuel) (rdepends o) p
  | Error => deactivate i Failed p
  | Closed =>
      let! (p, r) := mark_subtree_closed junk fuel now i p in
      let! p := if r && bool_decide (pstate p = Active) then Some p
                else let! p := decay fuel i p in each (close_if_ready Plain) (depends o) p in
      Some (match pstate p with Closing | Closed => _close_workers p | _ => p end)
  | Destroy => Some p
  end.

Lemma update_split fuel i s p p' : update junk fuel now i s p = Some p' →
  ∃ o p2 os o2, objects p !! i = Some o ∧ core_eq (on_objects (<[i := set_state s o]> (objects p)) p) p2 ∧
    on_state fuel (objects p2) i s now = Some os ∧ os !! i = Some o2 ∧ update_rest fuel i s o2 (on_objects os p2) = Some p'.
Proof.
  unfold update. destruct (objects p !! i) as [o|] eqn:Ho; [|done]. cbn. intros H.
  destruct (if Reopen.pending (reopen o) then _ else _) as [p2|] eqn:E; [|done]. cbn in H.
  destruct (on_state _ _ _ _ _) as [os|] eqn:Eo; [|done]. cbn in H. destruct (os !! i) as [o2|] eqn:Ho2; [|done]. cbn in H.
  exists o, p2, os, o2. split; [done|]. split; [|done].
  destruct (Reopen.pending _); [by eapply pending_del_core|by simplify_eq].
Qed.

Lemma update_rest_inv fuel i s o p p' : pinv none (Bx i s) (Sx i s) p → objects p !! i = Some o → ostate o = s →
  s ≠ Destroy → update_rest fuel i s o p = Some p' → pinv none none none p'.
Proof.
  intros Hp Ho Hst Hd H. unfold update_rest in H. destruct s; [| | | | |done].
  - destruct (mark_subtree_closed _ _ _ _ _) as [[p1 r]|] eqn:E; [|done]. cbn in H.
    assert (pinv none none none p1) as Hp1.
    { eapply mark_subtree_closed_inv; [|done]. eapply pinv_weaken; [done|done| |]; intros j []; [naive_solver|by right]. }
    destruct (if r && _ then _ else _) as [p2|] eqn:E2; [|done]. cbn in H.
    assert (pinv none none none p2) as Hp2.
    { destruct (r && _); [by simplify_eq|]. destruct (decay _ _ _) as [p3|] eqn:E3; [|done]. cbn in E2.
      eapply each_pinv; [|by eapply decay_inv|done]. intros j q q' Hq. apply close_if_ready_same; [by left|done]. }
    injection H as <-. destruct (pstate p2); try done; by apply close_workers_inv.
  - destruct (if decay_ o then _ else _) as [p1|] eqn:E; [|done]. cbn in H.
    eapply core_inv; [by eapply add_next_core|]. destruct (decay_ o) eqn:Hdec.
    + eapply close_if_ready_inv; [by right; right| |done]. eapply pinv_weaken; [done|done| |by apply Sx_none]. intros j [_ ->]. by right.
    + simplify_eq. eapply (pinv_told_at _ _ _ _ i o); [|done|by intros ?; congruence].
      eapply pinv_weaken; [done|done| |by apply Sx_none]. intros j [_ ->]. by right.
  - eapply each_pinv; [|eapply pinv_weaken; [done|done|by apply Bx_none|by apply Sx_none]|done].
    intros j q q' Hq. by apply open_if_ready_inv.
  - eapply core_inv; [by eapply add_next_core|]. eapply pinv_weaken; [done|done|by apply Bx_none|by apply Sx_none].
  - eapply deactivate_inv; [|exact Ho| |exact H]; [|exact Hst].
    eapply pinv_weaken; [done|done| |by apply Sx_none]. intros j [_ ->]. by right.
Qed.

Lemma update_inv fuel i s p p' : pinv none none none p → allowed i s p → update junk fuel now i s p = Some p' → pinv none none none p'.
Proof.
  intros Hp Ha H. apply update_split in H as (o & p2 & os & o2 & Ho & Hc & Hon & Ho2 & Hr).
  pose proof (core_inv _ _ _ _ _ Hc (set_state_inv p i s o Hp Ha Ho)) as Hp2. destruct Hc as (Hc & _).
  assert (objects p2 !! i = Some (set_state s o)) as Ho'.
  { rewrite Hc. cbn. apply list_lookup_insert_eq. by eapply lookup_lt_Some. }
  destruct (on_state_inv fuel p2 i s _ os Hp2 Ho' eq_refl Hon) as [Hp3 (o3 & Ho3 & Hst & _)].
  rewrite Ho2 in Ho3. injection Ho3 as <-. eapply (update_rest_inv fuel i s o2); [exact Hp3|exact Ho2|done|by destruct Ha|done].
Qed.

(** What [update] answers: the request that the report is about. *)
Lemma update_answers fuel i s p p' o' : pinv none none none p → allowed i s p → update junk fuel now i s p = Some p' →
  objects p' !! i = Some o' → (s = Closing → closing o' = false) ∧ (s = Opening → opening o' = false).
Proof.
  intros Hp Ha H Ho'. apply update_split in H as (o & p2 & os & o2 & Ho & Hc & Hon & Ho2 & Hr).
  pose proof (core_inv _ _ _ _ _ Hc (set_state_inv p i s o Hp Ha Ho)) as Hp2. destruct Hc as (Hc & _).
  assert (objects p2 !! i = Some (set_state s o)) as Hos.
  { rewrite Hc. cbn. apply list_lookup_insert_eq. by eapply lookup_lt_Some. }
  destruct (on_state_inv fuel p2 i s _ os Hp2 Hos eq_refl Hon) as [_ (o3 & Ho3 & _ & Hcl & Hop)].
  rewrite Ho2 in Ho3. injection Ho3 as <-. destruct s; try (by split; intros [=]); cbn in Hr.
  - destruct (if decay_ o2 then _ else _) as [p3|] eqn:E; [|done]. cbn in Hr. destruct (add_next_core _ _ _ Hr) as (Hobj & _).
    rewrite Hobj in Ho'. split; [by intros [=]|]. intros _. destruct (decay_ o2).
    + unfold close_if_ready in E. cbn in E. rewrite Ho2 in E. cbn in E. destruct (ready_close os o2); [|simplify_eq; cbn in Ho'; simplify_eq; by apply Hop].
      unfold deactivate in E. cbn in E. rewrite Ho2 in E. cbn in E. destruct (closing o2); simplify_eq; cbn in Ho'; [simplify_eq; by apply Hop|].
      rewrite list_lookup_insert_eq in Ho' by (by eapply lookup_lt_Some). injection Ho' as <-. specialize (Hop eq_refl). by case_bool_decide; cbn.
    + simplify_eq. cbn in Ho'. simplify_eq. by apply Hop.
  - destruct (add_next_core _ _ _ Hr) as (Hobj & _). rewrite Hobj in Ho'. cbn in Ho'. simplify_eq. split; [auto|by intros [=]].
Qed.
(** ** The other events *)
Lemma pinv_reopen C B S p i o r : pinv C B S p → objects p !! i = Some o →
  pinv C B S (on_objects (<[i := set_reopen r o]> (objects p)) p).
Proof.
  intros Hp Ho. eapply pinv_insert; [exact Hp|exact Ho|done|done|done|naive_solver|..]; [..|done|done].
  - intros HC. exact (inv_quiet _ _ _ _ (p_inv _ _ _ _ Hp) i o HC Ho).
  - intros HC. exact (inv_told _ _ _ _ (p_inv _ _ _ _ Hp) i o HC Ho).
  - intros HC. exact (inv_marked _ _ _ _ (p_inv _ _ _ _ Hp) i o HC Ho).
Qed.

Definition decay_one (i : nat) (p : proc) : option proc :=
  let! o := objects p !! i in
  close_if_ready DecayedLeaf i (on_objects (<[i := set_decay true o]> (objects p)) p).

Lemma decay_one_inv i p p' : pinv none none none p → decay_one i p = Some p' → pinv none none none p'.
Proof.
  unfold decay_one. intros Hp H. destruct (objects p !! i) as [o|] eqn:Ho; [|done]. cbn [mbind option_bind] in H.
  eapply close_if_ready_inv; [by right; left| |exact H].
  eapply pinv_insert; [exact Hp|exact Ho|done|done|done|naive_solver|..]; [..|done|done].
  - intros HC. exact (inv_quiet _ _ _ _ (p_inv _ _ _ _ Hp) i o HC Ho).
  - intros HB. exfalso. apply HB. by right.
  - intros HC. exact (inv_marked _ _ _ _ (p_inv _ _ _ _ Hp) i o HC Ho).
Qed.

Lemma close__inv force p p' : pinv none none none p → _close force p = Some p' → pinv none none none p'.
Proof.
  intros Hp H. unfold _close in H. change (λ i p, let! o := objects p !! i in _) with decay_one in H.
  destruct (each _ _ _) as [p1|] eqn:E; [|done]. cbn [mbind option_bind] in H.
  assert (pinv none none none (_close_workers p1)) as Hp1.
  { apply close_workers_inv. by eapply each_pinv; [apply decay_one_inv|exact Hp|exact E]. }
  destruct force; cbn [negb] in H; [|by simplify_eq]. injection H as <-.
  eapply pinv_core; [..|apply (pinv_posts _ _ _ (CloseWorker <$> seq 0 (length (workers (foldl (λ p i, post_ (CloseObject i) p) (_close_workers p1)
    (reverse (seq 0 (length (objects (_close_workers p1)))))))))
    (foldl (λ p c, post_ c p) (_close_workers p1) (CloseObject <$> reverse (seq 0 (length (objects (_close_workers p1)))))))].
  - by rewrite <- !foldl_post.
  - by rewrite <- !foldl_post.
  - apply pinv_posts; [done|]. by intros c (x & -> & _)%list_elem_of_fmap.
  - by intros c (x & -> & _)%list_elem_of_fmap.
Qed.

Lemma close_inv force p p' : pinv none none none p → close force p = Some p' → pinv none none none p'.
Proof.
  intros Hp H. unfold close in H.
  destruct (pstate p); [by simplify_eq| | |destruct force; [|by simplify_eq]| |]; (eapply close__inv; [|exact H]; first [exact Hp|by apply (pinv_core _ _ _ p)]).
Qed.

Lemma activate_all_inv fuel p p' : pinv none none none p → activate_all fuel p = Some p' → pinv none none none p'.
Proof.
  intros Hp. unfold activate_all. apply each_pinv; [|by apply (pinv_core _ _ _ p)]. intros i q q' Hq H.
  destruct (objects q !! i) as [o|] eqn:Ho; [|done]. cbn in H. case_bool_decide as Hd; [by simplify_eq|].
  eapply activate_inv; [exact Hq|exact Ho| |exact H]. destruct (depends o) as [|d l] eqn:E; [by unfold ready_open; rewrite E|]. done.
Qed.

Lemma cb_worker_inv fuel w s p p' : pinv none none none p → cb_worker fuel w s p = Some p' → pinv none none none p'.
Proof.
  intros Hp H. unfold cb_worker in H. destruct (workers p !! w); [|done]. cbn [mbind option_bind workers set_workers] in H.
  assert (pinv none none none (set_workers (<[w := s]> (workers p)) p)) as Hw by by apply (pinv_core _ _ _ p).
  destruct s; try (injection H as <-; exact Hw).
  - destruct (all_closed _); [by eapply close__inv|]. by injection H as <-.
  - destruct (forallb _ _); [by eapply activate_all_inv|]. by injection H as <-.
Qed.

Lemma cb_close_inv i p p' : pinv none none none p → cb_close i p = Some p' → pinv none none none p'.
Proof.
  intros Hp H. unfold cb_close in H. destruct (objects p !! i) as [o|] eqn:Ho; [|done]. cbn in H. case_match; [by simplify_eq|].
  eapply deactivate_inv; [|exact Ho| |exact H]; [|done]. eapply pinv_weaken; [exact Hp|naive_solver..].
Qed.

Lemma pending_action_inv fuel i p p' : pinv none none none p → pending_action junk fuel now i p = Some p' → pinv none none none p'.
Proof.
  intros Hp H. unfold pending_action in H. destruct (objects p !! i) as [o|] eqn:Ho; [|done]. cbn in H.
  destruct (Reopen.on_timer _ _ _) as [a r]. pose proof (pinv_reopen _ _ _ p i o r Hp Ho) as Hp1.
  set (p1 := on_objects _ p) in *. assert (objects p1 !! i = Some (set_reopen r o)) as Ho1.
  { apply list_lookup_insert_eq. by eapply lookup_lt_Some. }
  destruct a; [by simplify_eq| | |].
  - change (ready_open _ o) with (ready_open (objects p1) o) in H. destruct (ready_open (objects p1) o) eqn:Hr; cbn [negb orb] in H.
    + case_bool_decide; [injection H as <-; exact (pinv_reopen _ _ _ p1 i _ (set_next 0 r) Hp1 Ho1)|].
      eapply activate_inv; [exact Hp1|exact Ho1|exact Hr|exact H].
    + injection H as <-. exact (pinv_reopen _ _ _ p1 i _ (set_next 0 r) Hp1 Ho1).
  - eapply deactivate_inv; [|exact Ho1| |exact H]; [|done]. eapply pinv_weaken; [exact Hp1|naive_solver..].
  - by eapply core_inv; [eapply add_next_core|].
Qed.

Lemma pending_process_inv fuel p p' : pinv none none none p → pending_process junk fuel now p = Some p' → pinv none none none p'.
Proof.
  intros Hp H. unfold pending_process in H. destruct (pending_loop _ _ _ _ _) as [p1|] eqn:E; [|done]. cbn in H.
  assert (pinv none none none p1) as Hp1.
  { revert E. generalize (Datatypes.S (length (pending p))) as m. intros m. revert p Hp.
    induction m as [|m IH]; intros p Hp E; cbn in E; [done|]. destruct (pending p) as [|[t i] l]; [by simplify_eq|].
    case_match; [|by simplify_eq]. destruct (pending_action _ _ _ _ _) as [q|] eqn:Eq; [|done]. cbn in E.
    eapply IH; [|exact E]. apply (pinv_core _ _ _ q); [done|done|]. eapply pending_action_inv; [exact Hp|exact Eq]. }
  injection H as <-. destruct (pending p1) as [|[t i] l]; by apply (pinv_core _ _ _ p1).
Qed.

Definition legal (e : event) (p : proc) : Prop :=
  match e with EState i s => allowed i s p | _ => True end.

Lemma report_inv i s p : pinv none none none p →
  (∀ o, objects p !! i = Some o → (s = Closing → closing o = false) ∧ (s = Opening → opening o = false)) →
  pinv none none none (post_ (Report i s) p).
Proof.
  intros [H1 H2 H3] Ha. split; cbn; [done| |].
  - apply Forall_app_2; [done|]. by constructor.
  - intros j o Hj. destruct (H3 j o Hj) as [W1 W2]. rewrite !awaiting_app. cbn. split; intros Hf.
    + case_bool_decide as Hc; [|by apply W1]. destruct Hc as [-> ->]. destruct (Ha o Hj) as [E _]. rewrite E in Hf by done. done.
    + case_bool_decide as Hc; [|by apply W2]. destruct Hc as [-> ->]. destruct (Ha o Hj) as [_ E]. rewrite E in Hf by done. done.
Qed.

Lemma step_inv fuel e p p' : pinv none none none p → legal e p → step junk fuel now e p = Some p' → pinv none none none p'.
Proof.
  intros Hp He H. destruct e; cbn in H.
  - destruct (update _ _ _ _ _ _) as [p1|] eqn:E; [|done]. cbn in H. simplify_eq.
    apply report_inv; [by eapply update_inv|]. intros o' Ho. by eapply update_answers.
  - by eapply cb_worker_inv.
  - case_bool_decide; [by simplify_eq|]. eapply close_inv; [|exact H]. by apply (pinv_core _ _ _ p).
  - by eapply cb_close_inv.
  - by eapply pending_process_inv.
  - by eapply close_inv.
Qed.
(** ** A closing processor: every object decays *)
Definition frozen (os : list object) : Prop := ∀ i o, os !! i = Some o → decay_ o = true.

Definition calm (p p' : proc) : Prop :=
  pstate p' = pstate p ∧ (pstate p ≠ Active → frozen (objects p) → frozen (objects p')).

#[local] Instance calm_refl : Reflexive calm.
Proof. by intros p. Qed.

#[local] Instance calm_trans : Transitive calm.
Proof. intros p q r [H1 H2] [H3 H4]. split; [congruence|]. intros Hn Hf. apply H4; [congruence|auto]. Qed.

Lemma core_calm p p' : core_eq p p' → calm p p'.
Proof. intros (H1 & _ & H3 & _). split; [done|]. by rewrite H1. Qed.

Lemma each_calm f l p p' : (∀ i p p', f i p = Some p' → calm p p') → each f l p = Some p' → calm p p'.
Proof.
  intros Hf H. refine (each_inv (λ _ a, calm p a) f l p p' _ (reflexivity p) H).
  intros i l' a a' Ha Hfa. etransitivity; [done|by eapply Hf].
Qed.

Lemma frozen_insert os i o' : decay_ o' = true → frozen os → frozen (<[i := o']> os).
Proof. intros Hd Hf j x [(-> & -> & _)|(_ & Hj)]%lookup_insert_cases; [done|by eapply Hf]. Qed.

Lemma frozen_opens R os os' : opens R os os' → frozen os → frozen os'.
Proof. intros Ho Hf j x Hj. destruct (opens_back _ _ _ _ _ Ho Hj) as (o & b & Hjo & -> & _). exact (Hf j o Hjo). Qed.

Lemma deactivate_calm i why p p' : deactivate i why p = Some p' → calm p p'.
Proof.
  unfold deactivate. destruct (objects p !! i) as [o|] eqn:Ho; [|done]. cbn. destruct (closing o); intros H; simplify_eq; [done|].
  split; [done|]. intros _ Hf. cbn. apply frozen_insert; [|done]. rewrite <- (Hf i o Ho). by case_bool_decide; destruct why.
Qed.

Lemma close_if_ready_calm why i p p' : close_if_ready why i p = Some p' → calm p p'.
Proof.
  unfold close_if_ready. destruct (objects p !! i); [|done]. cbn. case_match; [apply deactivate_calm|]. by intros [= <-].
Qed.

Lemma activate_pstate fuel i p p' : activate fuel i p = Some p' → pstate p' = pstate p.
Proof.
  unfold activate. destruct (objects p !! i); [|done]. cbn. destruct (mark_subtree_open _ _ _); [|done]. cbn. by intros [= <-].
Qed.

Lemma reactivate_calm fuel i p p' : reactivate junk fuel now i p = Some p' → calm p p'.
Proof.
  unfold reactivate. case_bool_decide as Ha; [by intros [= <-]|].
  destruct (objects p !! i); [|done]. cbn. destruct (ready_open _ _); [|by intros [= <-]]. case_match.
  - destruct (Reopen.timeout _); [|done]. cbn. intros E. by eapply core_calm, pending_add_core.
  - intros E. split; [by eapply activate_pstate|done].
Qed.

Lemma set_calm i o o' p : objects p !! i = Some o → (decay_ o = true → decay_ o' = true) →
  calm p (on_objects (<[i := o']> (objects p)) p).
Proof. intros Ho Hd. split; [done|]. intros _ Hf. cbn. apply frozen_insert; [|done]. by eapply Hd, Hf. Qed.

Lemma mark_subtree_closed_calm n i p p' r : mark_subtree_closed junk n now i p = Some (p', r) → calm p p'.
Proof.
  revert i p p' r. induction n as [|n IH]; intros i p p' r H; cbn in H; [done|].
  assert (∀ q q' (b b' : bool), (let! p := reactivate junk (Datatypes.S n) now i q in Some (p, b)) = Some (q', b') → calm q q') as Hre.
  { intros q q' b b'. destruct (reactivate junk (Datatypes.S n) now i q) eqn:E; [|done]. cbn. intros [= <- _]. by eapply reactivate_calm. }
  destruct (objects p !! i) as [o|] eqn:Ho; [|done]. cbn in H.
  destruct (subtree_closed o); [destruct (ready_open _ _); [by eapply Hre|by simplify_eq]|].
  destruct (negb (all_of _ _ _)); [by simplify_eq|]. destruct (opening o); [by simplify_eq|]. destruct (_ && _).
  { destruct (decay_ o); [|by simplify_eq]. destruct (deactivate _ _ _) eqn:E; [|done]. cbn in H. simplify_eq. by eapply deactivate_calm. }
  destruct (each _ _ _) as [[p1 r1]|] eqn:E; [|done]. cbn in H. destruct (objects p1 !! i) as [o1|]; [|done]. cbn in H.
  assert (calm p p1) as Hp1.
  { etransitivity; [by apply (set_calm i o (set_subtree_closed true o))|].
    refine (each_inv (λ _ a, calm _ a.1) _ _ (_, _) (_, _) _ _ E); [|reflexivity].
    intros d l [q rq] [q' rq'] Hq Hf. cbn in Hf. destruct (mark_subtree_closed _ _ _ _ _) as [[q1 r']|] eqn:E1; [|done].
    cbn in Hf. simplify_eq. cbn in *. etransitivity; [exact Hq|]. by eapply IH. }
  etransitivity; [exact Hp1|]. destruct (ready_open _ _); [by eapply Hre|by simplify_eq].
Qed.

Lemma decay_calm n i p p' : decay n i p = Some p' → calm p p'.
Proof.
  revert i p p'. induction n as [|n IH]; intros i p p' H; cbn in H; [done|].
  destruct (objects p !! i) as [o|] eqn:Ho; [|done]. cbn in H. destruct (subtree_closed o); [by simplify_eq|].
  destruct (each _ _ _) as [p1|] eqn:E; [|done]. cbn in H. change (close_if_ready DecayedLeaf i p1 = Some p') in H.
  etransitivity; [by apply (set_calm i o (set_decay true o))|]. etransitivity; [eapply each_calm; [exact IH|exact E]|].
  by eapply close_if_ready_calm.
Qed.

Lemma fold_post_calm p cs : calm p (foldl (λ p c, post_ c p) p cs).
Proof. revert p. induction cs as [|c cs IH]; intros p; [done|]. cbn. etransitivity; [|apply IH]. done. Qed.

Lemma close_workers_calm p : calm p (_close_workers p).
Proof. unfold _close_workers. case_match; [done|]. case_match; [|done]. rewrite (foldl_post Exit). apply fold_post_calm. Qed.

(** An object that depends on something is not ready in a frozen processor. *)
Definition has_deps (os : list object) (i : nat) : Prop := ∃ o d, os !! i = Some o ∧ d ∈ depends o ∧ is_Some (os !! d).

Lemma open_frozen fuel l p p' : frozen (objects p) → (∀ d, d ∈ l → has_deps (objects p) d) →
  each (open_if_ready fuel) l p = Some p' → p' = p.
Proof.
  intros Hf. revert p'. induction l as [|i l IH]; intros p' Hl H; cbn in H; [by simplify_eq|].
  destruct (open_if_ready fuel i p) as [q|] eqn:E; [|done]. cbn in H. unfold open_if_ready in E.
  destruct (Hl i ltac:(set_solver)) as (o & d & Ho & Hd & od & Hod). rewrite Ho in E. cbn in E.
  destruct (ready_open (objects p) o) eqn:Hr.
  - destruct (ready_open_spec _ _ Hr d Hd) as (x & Hx & _ & Hdx). specialize (Hf d x Hx). congruence.
  - injection E as <-. apply IH; [set_solver|done].
Qed.

Lemma update_calm fuel i s p p' : pinv none none none p → allowed i s p → update junk fuel now i s p = Some p' → calm p p'.
Proof.
  intros Hp Ha H. apply update_split in H as (o & p2 & os & o2 & Ho & Hc & Hon & Ho2 & Hr).
  pose proof (core_inv _ _ _ _ _ Hc (set_state_inv p i s o Hp Ha Ho)) as Hp2.
  assert (objects p2 !! i = Some (set_state s o)) as Hos.
  { rewrite (proj1 Hc). cbn. apply list_lookup_insert_eq. by eapply lookup_lt_Some. }
  destruct (on_state_inv fuel p2 i s _ os Hp2 Hos eq_refl Hon) as [Hp3 _].
  assert (calm p2 (on_objects os p2)) as Hcos.
  { unfold on_state in Hon. rewrite Hos in Hon. cbn in Hon. destruct (Reopen.on_state _ _ _ _) as [r|]; [|done]. cbn in Hon.
    destruct (if bool_decide (s ≠ Closed) then _ else _) as [os2|] eqn:E; [|done]. cbn in Hon.
    destruct (os2 !! i) as [o3|] eqn:Ho3; [|done]. cbn in Hon. split; [done|]. intros _ Hf. cbn.
    assert (frozen os2) as Hf2.
    { assert (frozen (<[i := set_reopen r (set_state s o)]> (objects p2))) as Hf1 by (apply frozen_insert; [exact (Hf i _ Hos)|done]).
      case_bool_decide; [|by simplify_eq]. destruct (mark_subtree_open_opens _ _ _ _ E) as [Hop _]. by eapply frozen_opens. }
    destruct s; simplify_eq; try done; apply frozen_insert; try done; exact (Hf2 i _ Ho3). }
  etransitivity; [by apply (set_calm i o (set_state s o))|]. etransitivity; [by apply core_calm|]. etransitivity; [exact Hcos|].
  unfold update_rest in Hr. destruct s; [| | | | |by simplify_eq].
  - destruct (mark_subtree_closed _ _ _ _ _) as [[p4 r]|] eqn:E; [|done]. cbn in Hr.
    etransitivity; [by eapply mark_subtree_closed_calm|]. destruct (if r && _ then _ else _) as [p5|] eqn:E5; [|done]. cbn in Hr.
    assert (calm p4 p5) as H45.
    { destruct (r && _); [by simplify_eq|]. destruct (decay _ _ _) as [p6|] eqn:E6; [|done]. cbn in E5.
      etransitivity; [by eapply decay_calm|]. eapply each_calm; [|exact E5]. intros. by eapply close_if_ready_calm. }
    etransitivity; [exact H45|]. injection Hr as <-. destruct (pstate p5); try done; apply close_workers_calm.
  - destruct (if decay_ o2 then _ else _) as [p4|] eqn:E; [|done]. cbn in Hr. etransitivity; [|by eapply core_calm, add_next_core].
    destruct (decay_ o2); [by eapply close_if_ready_calm|by simplify_eq].
  - split.
    + refine (each_inv (λ _ a, pstate a = pstate (on_objects os p2)) _ _ _ _ _ eq_refl Hr). intros d l a a' Ha' Hf.
      rewrite <- Ha'. unfold open_if_ready in Hf. destruct (objects a !! d); [|done]. cbn in Hf. case_match; [by eapply activate_pstate|by simplify_eq].
    + intros _ Hf. assert (p' = on_objects os p2) as ->; [|done]. eapply open_frozen; [exact Hf| |exact Hr].
      intros d Hd. cbn. destruct (proj2 (inv_linked _ _ _ _ (p_inv _ _ _ _ Hp3) i o2 Ho2) d Hd) as (od & Hod & Hin).
      exists od, i. split_and!; [exact Hod|done|by exists o2].
  - by eapply core_calm, add_next_core.
  - by eapply deactivate_calm.
Qed.
Lemma decay_one_frozen l p p' : (∀ i o, objects p !! i = Some o → i ∈ l ∨ decay_ o = true) →
  each decay_one l p = Some p' → frozen (objects p').
Proof.
  intros Hl H. assert (∀ i o, objects p' !! i = Some o → i ∈ ([] : list nat) ∨ decay_ o = true) as Hx.
  2: { intros i o Ho. by destruct (Hx i o Ho) as [?%not_elem_of_nil|?]. }
  refine (each_inv (λ l a, ∀ i o, objects a !! i = Some o → i ∈ l ∨ decay_ o = true) _ _ _ _ _ Hl H).
  clear. intros i l a a' Ha Hf. unfold decay_one in Hf. destruct (objects a !! i) as [o|] eqn:Ho; [|done].
  cbn [mbind option_bind] in Hf. unfold close_if_ready in Hf. set (os := <[i := _]> _) in *.
  assert (∀ j x, os !! j = Some x → j ∈ l ∨ decay_ x = true) as Hos.
  { intros j x [(-> & -> & _)|(Hne & Hj)]%lookup_insert_cases; [by right|]. destruct (Ha j x Hj) as [Hin|?]; [left; set_solver|by right]. }
  change (objects (on_objects os a)) with os in Hf.
  destruct (os !! i) as [o1|] eqn:Ho1; [|done]. cbn [mbind option_bind] in Hf. destruct (ready_close os o1); [|by simplify_eq].
  unfold deactivate in Hf. change (objects (on_objects os a)) with os in Hf. rewrite Ho1 in Hf. cbn in Hf.
  destruct (closing o1); simplify_eq; [done|]. intros j x [(-> & -> & _)|(Hne & Hj)]%lookup_insert_cases; [|by apply Hos].
  by case_bool_decide; apply (Hos i o1).
Qed.

Lemma close__frozen force p p' : _close force p = Some p' → frozen (objects p').
Proof.
  intros H. unfold _close in H. change (λ i p, let! o := objects p !! i in _) with decay_one in H.
  destruct (each _ _ _) as [p1|] eqn:E; [|done]. cbn [mbind option_bind] in H.
  assert (frozen (objects p1)) as Hf.
  { eapply decay_one_frozen; [|exact E]. intros i o Ho. left. apply elem_of_seq. apply lookup_lt_Some in Ho. lia. }
  assert (∀ cs q, objects (foldl (λ p c, post_ c p) q cs) = objects q) as Hfold.
  { induction cs as [|c cs IH]; intros q; [done|]. cbn. by rewrite IH. }
  assert (frozen (objects (_close_workers p1))) as Hf1.
  { unfold _close_workers. destruct (all_closed (workers p1)); [exact Hf|]. destruct (all_closed (ostate <$> _)); [|exact Hf].
    rewrite (foldl_post Exit), Hfold. exact Hf. }
  destruct force; cbn [negb] in H; [|by simplify_eq]. injection H as <-. cbn [objects set_pstate stop].
  by rewrite (foldl_post CloseWorker), (foldl_post CloseObject), !Hfold.
Qed.

(** The states in which the processor wants every object closed. *)
Definition ending (p : proc) : Prop := pstate p = Closing ∨ pstate p = Closed.

Lemma ending_calm p p' : calm p p' → (ending p → frozen (objects p)) → ending p' → frozen (objects p').
Proof.
  intros [H1 H2] Hf He. assert (ending p) as Hp by (unfold ending in *; by rewrite <- H1).
  apply H2; [|by apply Hf]. by destruct Hp as [-> | ->].
Qed.

Lemma pending_process_calm fuel p p' : pending_process junk fuel now p = Some p' → calm p p'.
Proof.
  intros H. unfold pending_process in H. destruct (pending_loop _ _ _ _ _) as [p1|] eqn:E; [|done]. cbn in H.
  assert (calm p p1) as Hp1.
  { clear H. revert E. generalize (Datatypes.S (length (pending p))) as m. intros m. revert p.
    induction m as [|m IH]; intros p E; cbn in E; [done|]. destruct (pending p) as [|[t i] l]; [by simplify_eq|].
    case_match; [|by simplify_eq]. destruct (pending_action _ _ _ _ _) as [q|] eqn:Eq; [|done]. cbn in E.
    transitivity q; [|transitivity (set_pending (tail (pending q)) q); [done|by apply IH]].
    unfold pending_action in Eq. destruct (objects p !! i) as [o|] eqn:Ho; [|done]. cbn [mbind option_bind] in Eq.
    destruct (Reopen.on_timer _ _ _) as [a r]. set (p2 := on_objects _ p) in *.
    assert (calm p p2) as Hp2 by by apply (set_calm i o (set_reopen r o)).
    assert (objects p2 !! i = Some (set_reopen r o)) as Ho2 by (apply list_lookup_insert_eq; by eapply lookup_lt_Some).
    etransitivity; [exact Hp2|]. destruct a; [by simplify_eq| |by eapply deactivate_calm|by eapply core_calm, add_next_core].
    destruct (negb _ || _) eqn:Hc; [injection Eq as <-; by apply (set_calm i (set_reopen r o) (set_reopen (set_next 0 r) o) p2 Ho2)|].
    split; [by eapply activate_pstate|]. intros Hn. apply orb_false_elim in Hc as [_ Hc]. by apply bool_decide_eq_false in Hc. }
  injection H as <-. etransitivity; [exact Hp1|]. by destruct (pending p1) as [|[t i] l].
Qed.

Lemma step_frozen fuel e p p' : pinv none none none p → legal e p → (ending p → frozen (objects p)) →
  step junk fuel now e p = Some p' → ending p' → frozen (objects p').
Proof.
  intros Hp He Hf H.
  assert (∀ force q q', close force q = Some q' → (ending q → frozen (objects q)) → ending q' → frozen (objects q')) as Hclose.
  { intros force q q' Hq Hfq. unfold close in Hq. destruct (pstate q) eqn:Es; [by simplify_eq| | |destruct force; [|by simplify_eq]| |];
      intros _; by eapply close__frozen. }
  destruct e; cbn [step] in H.
  - destruct (update _ _ _ _ _ _) as [p1|] eqn:E; [|done]. cbn in H. simplify_eq.
    apply (ending_calm p); [|done]. transitivity p1; [by eapply update_calm|done].
  - unfold cb_worker in H. destruct (workers p !! w); [|done]. cbn [mbind option_bind workers set_workers] in H.
    destruct s; try (by injection H as <-).
    + destruct (all_closed _); [intros _; by eapply close__frozen|by injection H as <-].
    + destruct (forallb _ _); [|by injection H as <-]. intros He'. exfalso. unfold activate_all in H.
      assert (pstate p' = Active) as Hps; [|by destruct He' as [E|E]; rewrite E in Hps].
      refine (each_inv (λ _ a, pstate a = Active) _ _ _ _ _ _ H); [|done]. intros d l a a' Ha Hfa.
      destruct (objects a !! d); [|done]. cbn in Hfa. case_bool_decide; [by simplify_eq|]. by rewrite <- Ha; eapply activate_pstate.
  - case_bool_decide; [by simplify_eq|]. by eapply Hclose.
  - unfold cb_close in H. destruct (objects p !! o); [|done]. cbn in H. destruct (is_state _ _); [by simplify_eq|].
    by eapply ending_calm; [eapply deactivate_calm|].
  - by eapply ending_calm; [eapply pending_process_calm|].
  - by eapply Hclose.
Qed.
End run.

(** ** Runs of the processor *)
Definition fresh (os : list object) : Prop :=
  ∀ i o, os !! i = Some o →
    ostate o = Closed ∧ decay_ o = false ∧ opening o = false ∧ closing o = false ∧ subtree_closed o = true.

Inductive reachable (junk : Z) : proc → Prop :=
| reachable_init os ws : linked os → fresh os → reachable junk (Proc os [] Opening ws [] [] 0 false)
| reachable_step p fuel now e p' : reachable junk p → legal e p → step junk fuel now e p = Some p' → reachable junk p'.

Lemma fresh_inv os : linked os → fresh os → inv none none none os.
Proof.
  intros Hl Hf. split; [done|..].
  - intros i o d Ho _ _. by apply (Hf i o Ho).
  - intros i o _ Ho _. destruct (Hf i o Ho) as (H1 & _ & H2 & _). by split; [left|].
  - intros i o _ Ho Hd. destruct (Hf i o Ho) as (_ & H2 & _). congruence.
  - intros i o _ Ho _ _ _. by apply (Hf i o Ho).
Qed.

Lemma reachable_inv junk p : reachable junk p → pinv none none none p ∧ (ending p → frozen (objects p)).
Proof.
  induction 1 as [os ws Hl Hf|p fuel now e p' Hr [IH1 IH2] He Hs].
  - split; [|by intros [?|?]]. split; cbn; [by apply fresh_inv|done|]. intros i o Ho. destruct (Hf i o Ho) as (_ & _ & H1 & H2 & _).
    split; intros; congruence.
  - split; [by eapply step_inv|]. by eapply step_frozen.
Qed.

(** ** Running a list of events *)
Definition legalb (e : event) (p : proc) : bool :=
  match e with
  | EState i s => negb (bool_decide (s = Destroy)) &&
      (negb (bool_decide (s = Active)) ||
       match objects p !! i with Some o => negb (is_state Closed o) && negb (is_state Closing o) | None => true end)
  | _ => true
  end.

Fixpoint run (junk : Z) (fuel : nat) (es : list (Z * event)) (p : proc) : option proc :=
  match es with
  | [] => Some p
  | (now, e) :: es => if legalb e p then let! p := step junk fuel now e p in run junk fuel es p else None
  end.

Lemma legalb_legal e p : legalb e p = true → legal e p.
Proof.
  destruct e; cbn; try done. intros [H1 H2]%andb_prop. apply negb_true_iff, bool_decide_eq_false in H1. split; [done|].
  intros -> x Hx. rewrite bool_decide_true in H2 by done. cbn in H2. rewrite Hx in H2. unfold is_state in H2.
  apply andb_prop in H2 as [H2 H3]. apply negb_true_iff, bool_decide_eq_false in H2, H3. done.
Qed.

Lemma events_reachable junk fuel es p p' : reachable junk p → run junk fuel es p = Some p' → reachable junk p'.
Proof.
  revert p. induction es as [|[now e] es IH]; intros p Hp H; cbn in H; [by simplify_eq|].
  destruct (legalb e p) eqn:El; [|done]. destruct (step _ _ _ _ _) as [q|] eqn:E; [|done]. cbn in H.
  eapply IH; [|exact H]. eapply reachable_step; [exact Hp|by apply legalb_legal|exact E].
Qed.

(** C4: the order of the objects.  In every reachable state, each Activate was
    posted when all dependencies of its object were Active and none of them was
    to be closed; each Deactivate that was not asked for from outside, by a
    failure of the object or by a timer was posted when all objects that depend
    on it, directly or not, were Closed or Closing and not about to open; and a
    worker was told to exit only when all objects were Closed. *)
Theorem processor_order (junk : Z) (p : proc) : reachable junk p → Forall post_ok (posts p).
Proof. intros H. by destruct (reachable_inv _ _ H) as [[]]. Qed.

(** No cycles: a rank that goes down from an object to those that depend on it. *)
Definition ranked (h : nat → nat) (os : list object) : Prop :=
  ∀ i o r, os !! i = Some o → r ∈ rdepends o → (h r < h i)%nat.

Definition outstanding (p : proc) (i : nat) : Prop :=
  ∃ o, objects p !! i = Some o ∧
    (ostate o = Closing ∨ awaiting i Closing (posts p) = true ∨ awaiting i Opening (posts p) = true).

Lemma ranked_by h os : forallb (λ '(i, o), forallb (λ r, h r <? h i)%nat (rdepends o)) (imap pair os) = true → ranked h os.
Proof.
  intros H i o r Ho Hr. rewrite forallb_forall in H. specialize (H (i, o)). rewrite <- list_elem_of_In in H.
  assert ((i, o) ∈ imap pair os) as Hin by (apply elem_of_lookup_imap; by exists i, o).
  specialize (H Hin). cbn in H. rewrite forallb_forall in H. apply Nat.ltb_lt, H. by apply list_elem_of_In.
Qed.

Lemma not_all_swept os l : all_of os subtree_closed l = false → ∃ r, r ∈ l ∧ ¬ swept os r.
Proof.
  induction l as [|r l IH]; cbn; [done|]. intros [H|H]%andb_false_iff.
  - exists r. split; [set_solver|]. intros (o & Ho & Hs). by rewrite Ho, Hs in H.
  - destruct (IH H) as (x & Hx & Hn). exists x. split; [set_solver|done].
Qed.

Lemma unswept_outstanding h p i o : pinv none none none p → frozen (objects p) → ranked h (objects p) →
  objects p !! i = Some o → subtree_closed o = false → ∃ j, outstanding p j.
Proof.
  intros [Hi _ Hw] Hf Hh. remember (h i) as n eqn:Hn. revert i o Hn. induction n as [n IH] using lt_wf_ind. intros i o Hn Ho Hs.
  destruct (Hw i o Ho) as [W1 W2].
  destruct (closing o) eqn:Hc; [exists i, o; auto|]. destruct (opening o) eqn:Hop; [exists i, o; auto|].
  destruct (decide (ostate o = Closing)) as [Hcl|Hcl]; [exists i, o; auto|].
  assert (all_of (objects p) subtree_closed (rdepends o) = false) as Hall.
  { destruct (decide (ostate o = Closed)) as [Hst|Hst].
    - apply not_true_iff_false. intros Ha. pose proof (inv_marked _ _ _ _ Hi i o ltac:(done) Ho Hst Hop Ha). congruence.
    - pose proof (inv_told _ _ _ _ Hi i o ltac:(done) Ho (Hf i o Ho)) as Hr. unfold ready_close, is_state in Hr.
      by rewrite (bool_decide_false _ Hst), (bool_decide_false _ Hcl), Hc, Hop in Hr. }
  destruct (not_all_swept _ _ Hall) as (r & Hr & Hns). destruct (proj2 (inv_linked _ _ _ _ Hi i o Ho) r Hr) as (x & Hx & _).
  eapply (IH (h r)); [subst n; by eapply Hh|done|exact Hx|].
  apply not_true_is_false. intros Hsx. apply Hns. by exists x.
Qed.

(** C18: a shutdown never waits for nobody.  While the processor is closing, or
    closed by force, either every object is Closed or there is an object that is
    Closing, or that was told to open or to close and has not yet reported that
    it does.  (The dependencies have no cycles, and objects report Active only
    after Opening.) *)
Theorem processor_progress (junk : Z) (h : nat → nat) (p : proc) : reachable junk p → ranked h (objects p) → ending p →
  (∀ i o, objects p !! i = Some o → ostate o = Closed) ∨ ∃ i, outstanding p i.
Proof.
  intros Hr Hh He. destruct (reachable_inv _ _ Hr) as [Hp Hf]. specialize (Hf He).
  destruct (decide (Forall (λ o, ostate o = Closed) (objects p))) as [Hall|Hall].
  - left. intros i o Ho. by eapply (Forall_lookup_1 _ _ _ _ Hall).
  - right. apply not_Forall_Exists, Exists_exists in Hall as (o & Hin & Hst); [|apply _].
    apply list_elem_of_lookup in Hin as [i Ho]. destruct (subtree_closed o) eqn:Hs; [|by eapply unswept_outstanding].
    destruct (inv_quiet _ _ _ _ (p_inv _ _ _ _ Hp) i o ltac:(done) Ho Hs) as [[?|?] _]; [done|]. exists i, o. auto.
Qed.

(** Three objects in a chain, object 2 on object 1 and that on object 0. *)
Definition chain_object (ds rs : list nat) : object :=
  Object Closed Closed false false false true Reopen.default_data false ds rs 0.
Definition chain : list object := [chain_object [] [1%nat]; chain_object [0%nat] [2%nat]; chain_object [1%nat] []].
Definition chain_start : proc := Proc chain [] Opening [Closed] [] [] 0 false.

(** All of them open, then the processor is closed; object 2 has begun to. *)
Definition chain_events : list (Z * event) :=
  (1, EWorker 0 Active) ::
  concat (map (λ i, [(2, EState i Opening); (3, EState i Active)]) [0%nat; 1%nat; 2%nat]) ++
  [(4, EClose false); (5, EState 2 Closing); (6, EState 2 Closed)].

Lemma chain_linked : linked chain.
Proof.
  intros i o Ho. destruct i as [|[|[|i]]]; cbn in Ho; simplify_eq; cbn; split; intros d Hd; apply list_elem_of_In in Hd; cbn in Hd;
    (repeat destruct Hd as [<-|Hd]); try done; eexists; (split; [reflexivity|]); cbn; set_solver.
Qed.

Lemma chain_reachable : reachable 0 chain_start.
Proof. constructor; [apply chain_linked|]. intros i o Ho. by destruct i as [|[|[|i]]]; cbn in Ho; simplify_eq. Qed.

Definition chain_end : proc := default chain_start (run 0 10 chain_events chain_start).

Lemma chain_end_reachable : reachable 0 chain_end.
Proof. apply (events_reachable 0 10 chain_events chain_start); [apply chain_reachable|]. vm_compute. reflexivity. Qed.

Definition chain_posts : list command :=
  [Activate 0; Report 0 Opening; Activate 1; Report 0 Active; Report 1 Opening; Activate 2; Report 1 Active; Report 2 Opening;
   Report 2 Active; Deactivate 2 DecayedLeaf; Report 2 Closing; Deactivate 1 Plain; Report 2 Closed].

Lemma processor_order_witness : cmd <$> posts chain_end = chain_posts ∧ Forall post_ok (posts chain_end).
Proof. split; [vm_compute; reflexivity|]. apply (processor_order 0). apply chain_end_reachable. Defined.

Lemma processor_progress_witness : ending chain_end ∧
  ((∀ i o, objects chain_end !! i = Some o → ostate o = Closed) ∨ ∃ i, outstanding chain_end i).
Proof.
  split; [left; vm_compute; reflexivity|]. apply (processor_progress 0 (λ i, 3 - i)%nat).
  - apply chain_end_reachable.
  - apply ranked_by. vm_compute. reflexivity.
  - left. vm_compute. reflexivity.
Defined.

(** A processor that is closed before its workers have come up goes back to
    Active, and opens its objects, when the last of them reports. *)
Lemma late_worker_reopens :
  (λ p, (pstate p, cmd <$> posts p)) <$> run 0 10 [(1, EClose false); (2, EWorker 0 Active)] chain_start = Some (Active, [Activate 0]).
Proof. vm_compute. reflexivity. Qed.
End ProcessorSpec.
