(* ===== verification/ProcessorTotal.v ===== *)
(** * The processor always returns

    Every handler of Processor.v ends and leaves no undefined value, for a
    graph of dependencies without cycles: the depth of its walks is bounded by
    the number of ranks, the arithmetic of the reopening data stays in range,
    and the list of pending actions is only read where it has elements (what
    lies behind it, [junk], must be below the clock). *)
From S2P Require Import Prelude Callback Channel Reopen Processor ProcessorSpec.

Module ProcessorTotal.
Import Chan Processor ProcessorSpec.

Definition graph (os : list object) : list (list nat * list nat) := (λ o, (depends o, rdepends o)) <$> os.

(** A graph whose ranks, below [N], go down from an object to its dependants. *)
Definition ordered (h : nat → nat) (N : nat) (g : list (list nat * list nat)) : Prop :=
  ∀ i ds rs, g !! i = Some (ds, rs) → (h i < N)%nat ∧
    (∀ d, d ∈ ds → (d < length g ∧ h i < h d)%nat) ∧ (∀ r, r ∈ rs → (r < length g ∧ h r < h i)%nat).

Section total.
Context (junk now : Z) (h : nat → nat) (N : nat) (g : list (list nat * list nat)).
Context (Hnow : junk < now) (Hg : ordered h N g).

(** Reopening data with sane parameters, and times that the clock has shown. *)
Definition sound (d : Reopen.data) : Prop :=
  Reopen.bounded d ∧ 0 ≤ Reopen.timeout_close d ∧
  (Reopen.next d = 0 ∨ junk < Reopen.next d) ∧ (Reopen.closing_ts d = 0 ∨ junk < Reopen.closing_ts d).

Definition tame_os (os : list object) : Prop := graph os = g ∧ Forall (λ o, sound (reopen o)) os.
Definition tame (p : proc) : Prop := tame_os (objects p) ∧ Forall (λ x, (x.2 < length g)%nat) (pending p).

(** ** Reopening data *)
Lemma sound_next n d : sound d → n = 0 ∨ junk < n → sound (set_next n d).
Proof. by intros (H1 & H2 & H3 & H4) Hn. Qed.

Lemma sound_active n d : sound d → sound (set_active_ts n d).
Proof. by intros (H1 & H2 & H3 & H4). Qed.

Lemma timeout_nonneg d t : Reopen.bounded d → Reopen.timeout d = Some t → 0 ≤ t.
Proof.
  intros Hb Ht. rewrite (Reopen.timeout_bounded d Hb) in Ht. injection Ht as <-. destruct Hb as ([Hm Hx] & Hc & _).
  case_match; [lia|]. apply Z.min_glb; [lia|]. apply Z.mul_nonneg_nonneg; [lia|]. apply Z.pow_nonneg. lia.
Qed.

Lemma sound_on_state d s : sound d → ∃ d', Reopen.on_state d s now Closed = Some d' ∧ sound d'.
Proof.
  intros (Hb & Hc & Hn & Hcl). destruct (Reopen.on_state_bounded d s now Closed Hb) as (d' & E & Hb' & _). exists d'. split; [done|].
  assert (∀ t, Reopen.timeout d = Some t → 0 ≤ t) as Ht by (intros t; by apply timeout_nonneg).
  destruct s; cbn in E.
  - destruct (Reopen.reopen_wait d).
    + destruct (Reopen.timeout d) as [t|]; [|done]. cbn in E. simplify_eq. specialize (Ht t eq_refl). split_and!; cbn; auto; right; lia.
    + simplify_eq. split_and!; cbn; auto.
  - destruct (Reopen.timeout d) as [t|]; [|done]. cbn in E. simplify_eq. split_and!; cbn; auto.
    destruct (Reopen.timeout_open d >? 0) eqn:Et; [right|by left]. apply Z.gtb_lt in Et. lia.
  - simplify_eq. split_and!; cbn; auto.
  - simplify_eq. split_and!; cbn; auto; right; destruct (Z.eqb_spec (Reopen.closing_ts d) 0); destruct Hcl; lia.
  - simplify_eq. split_and!; cbn; auto.
  - simplify_eq. split_and!; cbn; auto.
Qed.

Lemma sound_on_timer d susp a d' : sound d → Reopen.on_timer d now susp = (a, d') → sound d'.
Proof.
  intros Hd E. unfold Reopen.on_timer in E. destruct (Reopen.rstate d); simplify_eq; try done; case_match; simplify_eq; try done.
  case_match eqn:Hc; simplify_eq; [|done]. apply andb_prop in Hc as [[Hc _]%andb_prop _]. apply Z.gtb_lt in Hc.
  destruct Hd as (H1 & H2 & H3 & H4). split_and!; cbn; try done. right; lia.
Qed.

(** ** Lists of objects *)
Lemma graph_lookup os i o : os !! i = Some o → graph os !! i = Some (depends o, rdepends o).
Proof. intros Ho. unfold graph. by rewrite list_lookup_fmap, Ho. Qed.

Lemma tame_lookup os i : tame_os os → (i < length g)%nat → ∃ o, os !! i = Some o ∧ sound (reopen o) ∧
  (h i < N)%nat ∧ (∀ d, d ∈ depends o → (d < length g ∧ h i < h d)%nat) ∧ (∀ r, r ∈ rdepends o → (r < length g ∧ h r < h i)%nat).
Proof.
  intros [Hos Hf] Hi. rewrite <- Hos in Hi. unfold graph in Hi. rewrite length_fmap in Hi.
  destruct (lookup_lt_is_Some_2 os i Hi) as [o Ho]. exists o. split; [done|]. split; [by eapply (Forall_lookup_1 _ _ _ _ Hf)|].
  apply Hg. rewrite <- Hos. by apply graph_lookup.
Qed.

Lemma tame_insert os i o o' : tame_os os → os !! i = Some o → depends o' = depends o → rdepends o' = rdepends o →
  sound (reopen o') → tame_os (<[i := o']> os).
Proof.
  intros [Hos Hf] Ho Hd Hr Hs. split; [|by apply Forall_insert]. rewrite <- Hos. unfold graph. rewrite list_fmap_insert.
  apply list_insert_id. rewrite list_lookup_fmap, Ho. cbn. by rewrite Hd, Hr.
Qed.

Lemma each_returns {A} (P : A → Prop) (f : nat → A → option A) l a : P a →
  (∀ i a, i ∈ l → P a → ∃ a', f i a = Some a' ∧ P a') → ∃ a', each f l a = Some a' ∧ P a'.
Proof.
  revert a. induction l as [|i l IH]; intros a Ha Hf; cbn; [by exists a|].
  destruct (Hf i a ltac:(set_solver) Ha) as (a1 & E & Ha1). rewrite E. cbn. apply IH; [done|]. intros j b Hj. apply Hf. set_solver.
Qed.

Lemma mark_subtree_open_returns fuel i os : tame_os os → (i < length g)%nat → (N ≤ fuel + h i)%nat →
  ∃ os', mark_subtree_open fuel i os = Some os' ∧ tame_os os'.
Proof.
  revert i os. induction fuel as [|fuel IH]; intros i os Hos Hi Hfuel.
  { destruct (tame_lookup os i Hos Hi) as (o & _ & _ & Hlt & _). lia. }
  cbn. destruct (tame_lookup os i Hos Hi) as (o & Ho & Hs & Hlt & Hd & _). rewrite Ho. cbn. destruct (subtree_closed o); cbn; [|by exists os].
  apply each_returns; [by eapply tame_insert|]. intros d os1 Hin Hos1. destruct (Hd d Hin). apply IH; [done|done|lia].
Qed.

(** ** Pending actions *)
Lemma has_loop_returns ts i l : junk < ts → ∃ b, has_loop junk ts i l = Some b.
Proof.
  intros Ht. induction l as [|[t x] l [b IH]]; cbn; [rewrite (proj2 (Z.eqb_neq junk ts)) by lia; by eexists|].
  case_match; [|by eexists]. case_bool_decide; by eexists.
Qed.

Lemma del_loop_returns ts i l : junk < ts → Forall (λ x, (x.2 < length g)%nat) l →
  ∃ l', del_loop junk ts i l = Some l' ∧ Forall (λ x, (x.2 < length g)%nat) l'.
Proof.
  intros Ht. induction l as [|[t x] l IH]; intros Hl; cbn; [rewrite (proj2 (Z.eqb_neq junk ts)) by lia; by eexists|].
  inversion_clear Hl as [|? ? Hx Hl']. case_match; [|eexists; split; [done|by constructor]].
  destruct (IH Hl') as (l' & -> & Hf). cbn. eexists; split; [done|]. case_bool_decide; [done|by constructor].
Qed.

Lemma erase_ts_returns ts i l : junk < ts → Forall (λ x, (x.2 < length g)%nat) l →
  ∃ l', erase_ts junk ts i l = Some l' ∧ Forall (λ x, (x.2 < length g)%nat) l'.
Proof.
  intros Ht. induction l as [|[t x] l IH]; intros Hl; cbn [erase_ts]; [by eexists|].
  case_match; [by apply del_loop_returns|]. inversion_clear Hl as [|? ? Hx Hl']. destruct (IH Hl') as (l' & -> & Hf). cbn.
  eexists; split; [done|by constructor].
Qed.

Lemma pending_insert_valid ts i l : (i < length g)%nat → Forall (λ x, (x.2 < length g)%nat) l →
  Forall (λ x, (x.2 < length g)%nat) (pending_insert ts i l).
Proof.
  intros Hi. induction l as [|[t x] l IH]; intros Hl; cbn; [by repeat constructor|]. case_match; [by constructor|].
  inversion_clear Hl. constructor; auto.
Qed.

Lemma pending_add_returns ts i p : tame p → (i < length g)%nat → junk < ts → ∃ p', pending_add junk ts i p = Some p' ∧ tame p'.
Proof.
  intros [Hos Hp] Hi Ht. unfold pending_add, pending_has. destruct (find_ts ts (pending p)) as [|x l] eqn:Ef.
  - cbn. eexists. split; [done|]. case_match; (split; [done|by apply pending_insert_valid]).
  - destruct (has_loop_returns ts i (x :: l) Ht) as [[] ->]; cbn; eexists; (split; [done|]); [by split|].
    case_match; (split; [done|by apply pending_insert_valid]).
Qed.

Lemma pending_del_returns ts i p : tame p → junk < ts → ∃ p', pending_del junk ts i p = Some p' ∧ tame p'.
Proof.
  intros [Hos Hp] Ht. unfold pending_del. destruct (find_ts ts (pending p)); [by exists p|].
  destruct (erase_ts_returns ts i (pending p) Ht Hp) as (l' & -> & Hl'). cbn. eexists. split; [done|].
  destruct l' as [|[t x] l']; [by split|]. case_match; by split.
Qed.

(** ** The handlers *)
Lemma tame_set p i o o' : tame p → objects p !! i = Some o → depends o' = depends o → rdepends o' = rdepends o →
  sound (reopen o') → tame (on_objects (<[i := o']> (objects p)) p).
Proof. intros [Hos Hp] Ho Hd Hr Hs. split; [by eapply tame_insert|done]. Qed.

Lemma activate_returns fuel i p : tame p → (i < length g)%nat → (N ≤ fuel + h i)%nat → ∃ p', activate fuel i p = Some p' ∧ tame p'.
Proof.
  intros [Hos Hp] Hi Hfuel. unfold activate. destruct (tame_lookup _ i Hos Hi) as (o & Ho & Hs & _). rewrite Ho. cbn.
  set (o' := set_reopen _ _). assert (tame_os (<[i := o']> (objects p))) as Hos1.
  { eapply tame_insert; [exact Hos|exact Ho|done|done|]. apply sound_next; [exact Hs|by left]. }
  destruct (mark_subtree_open_returns fuel i _ Hos1 Hi Hfuel) as (os & -> & Hos'). cbn. eexists. split; [done|]. by split.
Qed.

Lemma deactivate_returns i why p : tame p → (i < length g)%nat → ∃ p', deactivate i why p = Some p' ∧ tame p'.
Proof.
  intros Ht Hi. unfold deactivate. destruct (tame_lookup _ i (proj1 Ht) Hi) as (o & Ho & Hs & _). rewrite Ho. cbn.
  destruct (closing o); [by exists p|]. eexists. split; [done|].
  eapply (tame_set p i o); [done|done|..]; destruct why; case_bool_decide; cbn; try done; by apply sound_active.
Qed.

Lemma reactivate_returns fuel i p : tame p → (i < length g)%nat → (N ≤ fuel + h i)%nat →
  ∃ p', reactivate junk fuel now i p = Some p' ∧ tame p'.
Proof.
  intros Ht Hi Hfuel. unfold reactivate. case_bool_decide; [by exists p|].
  destruct (tame_lookup _ i (proj1 Ht) Hi) as (o & Ho & Hs & _). rewrite Ho. cbn. destruct (ready_open _ _); [|by exists p].
  destruct (Z.gtb_spec (Reopen.next (reopen o)) now); [|by apply activate_returns].
  rewrite (Reopen.timeout_bounded _ (proj1 Hs)). cbn. apply pending_add_returns; [done|done|lia].
Qed.

Lemma mark_subtree_closed_returns n i p : tame p → (i < length g)%nat → (N ≤ n + h i)%nat →
  ∃ p' r, mark_subtree_closed junk n now i p = Some (p', r) ∧ tame p'.
Proof.
  revert i p. induction n as [|n IH]; intros i p Ht Hi Hn.
  { destruct (tame_lookup _ i (proj1 Ht) Hi) as (o & _ & _ & Hlt & _). lia. }
  assert (∀ q (b : bool), tame q → ∃ p' (r : bool), (let! p := reactivate junk (Datatypes.S n) now i q in Some (p, b)) = Some (p', r) ∧ tame p') as Hre.
  { intros q b Hq. destruct (reactivate_returns (Datatypes.S n) i q Hq Hi Hn) as (q' & -> & Hq'). cbn. by eexists _, _. }
  destruct (tame_lookup _ i (proj1 Ht) Hi) as (o & Ho & Hs & Hlt & Hd & _). cbn [mark_subtree_closed]. rewrite Ho. cbn [mbind option_bind].
  destruct (subtree_closed o); [destruct (ready_open _ _); [by apply Hre|by eexists _, _]|].
  destruct (negb (all_of _ _ _)); [by eexists _, _|]. destruct (opening o); [by eexists _, _|]. destruct (_ && _).
  { destruct (decay_ o); [|by eexists _, _]. destruct (deactivate_returns i Plain p Ht Hi) as (q & -> & Hq). by eexists _, _. }
  edestruct (each_returns (λ a : proc * bool, tame a.1)) as ([p1 r1] & E & Hp1); [| |cbn in E; rewrite E; cbn [mbind option_bind]].
  - cbn. by apply (tame_set p i o).
  - intros d [q rq] Hin Hq. destruct (Hd d Hin) as [Hdl Hdh]. destruct (IH d q Hq Hdl ltac:(lia)) as (q' & r' & -> & Hq').
    cbn. eexists. by split.
  - cbn in Hp1. destruct (tame_lookup _ i (proj1 Hp1) Hi) as (o1 & Ho1 & _). rewrite Ho1. cbn [mbind option_bind].
    destruct (ready_open _ _); [by apply Hre|by eexists _, _].
Qed.

Lemma close_if_ready_returns why i p : tame p → (i < length g)%nat → ∃ p', close_if_ready why i p = Some p' ∧ tame p'.
Proof.
  intros Ht Hi. unfold close_if_ready. destruct (tame_lookup _ i (proj1 Ht) Hi) as (o & Ho & _). rewrite Ho. cbn.
  destruct (ready_close _ _); [by apply deactivate_returns|by exists p].
Qed.

Lemma open_if_ready_returns fuel i p : tame p → (i < length g)%nat → (N ≤ fuel + h i)%nat → ∃ p', open_if_ready fuel i p = Some p' ∧ tame p'.
Proof.
  intros Ht Hi Hn. unfold open_if_ready. destruct (tame_lookup _ i (proj1 Ht) Hi) as (o & Ho & _). rewrite Ho. cbn.
  destruct (ready_open _ _); [by apply activate_returns|by exists p].
Qed.

Lemma decay_returns n i p : tame p → (i < length g)%nat → (h i < n)%nat → ∃ p', decay n i p = Some p' ∧ tame p'.
Proof.
  revert i p. induction n as [|n IH]; intros i p Ht Hi Hn; [lia|]. cbn.
  destruct (tame_lookup _ i (proj1 Ht) Hi) as (o & Ho & Hs & _ & _ & Hr). rewrite Ho. cbn. destruct (subtree_closed o); [by exists p|].
  destruct (each_returns tame (decay n) (rdepends o) (on_objects (<[i := set_decay true o]> (objects p)) p)) as (p1 & E & Hp1).
  - by apply (tame_set p i o).
  - intros d q Hin Hq. destruct (Hr d Hin) as [Hl Hh]. apply IH; [done|done|lia].
  - rewrite E. cbn. by apply (close_if_ready_returns DecayedLeaf i p1).
Qed.

Lemma add_next_returns i p : tame p → (i < length g)%nat → ∃ p', add_next junk i p = Some p' ∧ tame p'.
Proof.
  intros Ht Hi. unfold add_next. destruct (tame_lookup _ i (proj1 Ht) Hi) as (o & Ho & Hs & _). rewrite Ho. cbn.
  destruct (Reopen.pending (reopen o)) eqn:Ep; [|by exists p]. apply pending_add_returns; [done|done|].
  unfold Reopen.pending in Ep. apply negb_true_iff, Z.eqb_neq in Ep. destruct Hs as (_ & _ & [?|?] & _); done.
Qed.
Lemma tame_core p p' : objects p' = objects p → pending p' = pending p → tame p → tame p'.
Proof. intros E1 E2 [H1 H2]. split; by rewrite ?E1, ?E2. Qed.

Lemma tame_posts cs p : tame p → tame (foldl (λ p c, post_ c p) p cs).
Proof. revert p. induction cs as [|c cs IH]; intros p Hp; [done|]. cbn. by apply IH. Qed.

Lemma close_workers_tame p : tame p → tame (_close_workers p).
Proof.
  intros Hp. unfold _close_workers. destruct (all_closed (workers p)); [done|]. destruct (all_closed (ostate <$> _)); [|done].
  rewrite (foldl_post Exit). by apply tame_posts.
Qed.

Lemma on_state_returns fuel i s os : tame_os os → (i < length g)%nat → (N ≤ fuel)%nat →
  ∃ os' o, on_state fuel os i s now = Some os' ∧ tame_os os' ∧ os' !! i = Some o ∧ sound (reopen o).
Proof.
  intros Hos Hi Hn. unfold on_state. destruct (tame_lookup _ i Hos Hi) as (o & Ho & Hs & _). rewrite Ho. cbn.
  destruct (sound_on_state _ s Hs) as (r & -> & Hr). cbn.
  assert (tame_os (<[i := set_reopen r o]> os)) as Hos1 by by apply (tame_insert os i o).
  assert (∃ os2, (if bool_decide (s ≠ Closed) then mark_subtree_open fuel i (<[i := set_reopen r o]> os)
    else Some (<[i := set_reopen r o]> os)) = Some os2 ∧ tame_os os2) as (os2 & -> & Hos2).
  { case_bool_decide; [|by eexists]. apply mark_subtree_open_returns; [done|done|lia]. }
  cbn. destruct (tame_lookup _ i Hos2 Hi) as (o2 & Ho2 & Hs2 & _). rewrite Ho2. cbn.
  assert (i < length os2)%nat as Hl by by eapply lookup_lt_Some.
  destruct s; eexists _, _; (split; [done|]); try (split; [exact Hos2|split; [exact Ho2|exact Hs2]]).
  all: split; [by apply (tame_insert os2 i o2)|]; split; [by apply list_lookup_insert_eq|done].
Qed.

Lemma update_returns fuel i s p : tame p → (i < length g)%nat → (N ≤ fuel)%nat → ∃ p', update junk fuel now i s p = Some p' ∧ tame p'.
Proof.
  intros Ht Hi Hn. unfold update. destruct (tame_lookup _ i (proj1 Ht) Hi) as (o & Ho & Hs & _). rewrite Ho. cbn [mbind option_bind].
  assert (tame (on_objects (<[i := set_state s o]> (objects p)) p)) as Ht1 by by apply (tame_set p i o).
  assert (∃ p2, (if Reopen.pending (reopen o) then pending_del junk (Reopen.next (reopen o)) i (on_objects (<[i := set_state s o]> (objects p)) p)
    else Some (on_objects (<[i := set_state s o]> (objects p)) p)) = Some p2 ∧ tame p2) as (p2 & -> & Ht2).
  { destruct (Reopen.pending (reopen o)) eqn:Ep; [|by eexists]. apply pending_del_returns; [done|].
    unfold Reopen.pending in Ep. apply negb_true_iff, Z.eqb_neq in Ep. destruct Hs as (_ & _ & [?|?] & _); done. }
  cbn [mbind option_bind]. destruct (on_state_returns fuel i s _ (proj1 Ht2) Hi Hn) as (os & o2 & -> & Hos & Ho2 & _). cbn [mbind option_bind].
  assert (tame (on_objects os p2)) as Ht3 by (split; [done|apply Ht2]).
  change (objects (on_objects os p2)) with os. rewrite Ho2. cbn [mbind option_bind].
  destruct (tame_lookup _ i Hos Hi) as (o3 & Ho3 & _ & Hlt & Hd & Hr). rewrite Ho2 in Ho3. injection Ho3 as <-.
  destruct s; [| | | | |by eexists].
  - destruct (mark_subtree_closed_returns fuel i _ Ht3 Hi ltac:(lia)) as (p4 & r & -> & Ht4). cbn [mbind option_bind].
    assert (∃ p5, (if r && bool_decide (pstate p4 = Active) then Some p4
      else let! p := decay fuel i p4 in each (close_if_ready Plain) (depends o2) p) = Some p5 ∧ tame p5) as (p5 & -> & Ht5).
    { destruct (r && _); [by eexists|]. destruct (decay_returns fuel i p4 Ht4 Hi ltac:(lia)) as (q & -> & Hq). cbn.
      apply each_returns; [done|]. intros d a Hin Ha. apply close_if_ready_returns; [done|by apply Hd]. }
    cbn. eexists. split; [done|]. destruct (pstate p5); try done; by apply close_workers_tame.
  - assert (∃ p5, (if decay_ o2 then close_if_ready Decayed i (on_objects os p2) else Some (on_objects os p2)) = Some p5 ∧ tame p5) as (p5 & -> & Ht5).
    { destruct (decay_ o2); [by apply close_if_ready_returns|by eexists]. }
    cbn. by apply add_next_returns.
  - apply each_returns; [done|]. intros d a Hin Ha. apply open_if_ready_returns; [done|by apply Hr|lia].
  - by apply add_next_returns.
  - by apply deactivate_returns.
Qed.

Lemma close__returns force p : tame p → ∃ p', _close force p = Some p' ∧ tame p'.
Proof.
  intros Ht. unfold _close. change (λ i p, let! o := objects p !! i in _) with decay_one.
  destruct (each_returns tame decay_one (seq 0 (length (objects p))) p Ht) as (p1 & -> & Ht1).
  { intros i a Hin Ha. apply elem_of_seq in Hin. assert (i < length g)%nat as Hi.
    { rewrite <- (proj1 (proj1 Ht)). unfold graph. rewrite length_fmap. lia. }
    unfold decay_one. destruct (tame_lookup _ i (proj1 Ha) Hi) as (o & Ho & Hs & _). rewrite Ho. cbn [mbind option_bind].
    apply close_if_ready_returns; [|done]. by apply (tame_set a i o). }
  cbn [mbind option_bind]. pose proof (close_workers_tame p1 Ht1) as Ht2. destruct force; cbn [negb]; [|by eexists].
  eexists. split; [done|]. rewrite (foldl_post CloseWorker), (foldl_post CloseObject). by apply (tame_posts _ (foldl _ _ _)), tame_posts.
Qed.

Lemma close_returns force p : tame p → ∃ p', close force p = Some p' ∧ tame p'.
Proof.
  intros Ht. unfold close. destruct (pstate p); [by eexists| | |destruct force; [|by eexists]| |]; by apply close__returns.
Qed.

(** ** The timer *)
Definition due (l : list (Z * nat)) : nat := length (filter (λ x, x.1 < now) l).

Lemma due_insert ts i l : now ≤ ts → due (pending_insert ts i l) = due l.
Proof.
  intros Ht. unfold due. induction l as [|[t x] l IH]; cbn; [by rewrite decide_False by (cbn; lia)|]. case_match.
  - rewrite filter_cons. by rewrite decide_False by (cbn; lia).
  - rewrite !filter_cons. destruct (decide _); cbn; by rewrite IH.
Qed.

Lemma on_timer_rearm d susp d' : Reopen.on_timer d now susp = (Reopen.ARearm, d') → now < Reopen.next d'.
Proof.
  unfold Reopen.on_timer. destruct (Reopen.rstate d); try done; case_match; try done.
  destruct (_ && _ && _) eqn:E; [|done]. intros [= <-]. cbn. apply andb_prop in E as [[E _]%andb_prop _]. apply Z.gtb_lt in E. lia.
Qed.

Lemma pending_action_returns fuel i p t x l : tame p → (i < length g)%nat → (N ≤ fuel)%nat → pending p = (t, x) :: l → t < now →
  ∃ p' l', pending_action junk fuel now i p = Some p' ∧ tame p' ∧ pending p' = (t, x) :: l' ∧ due l' = due l.
Proof.
  intros Ht Hi Hn Hp Hnowt. unfold pending_action. destruct (tame_lookup _ i (proj1 Ht) Hi) as (o & Ho & Hs & _). rewrite Ho.
  cbn [mbind option_bind]. destruct (Reopen.on_timer _ _ _) as [a r] eqn:E. pose proof (sound_on_timer _ _ _ _ Hs E) as Hr.
  assert (tame (on_objects (<[i := set_reopen r o]> (objects p)) p)) as Ht1 by by apply (tame_set p i o).
  set (p1 := on_objects _ p) in *. assert (pending p1 = (t, x) :: l) as Hp1 by done. destruct a.
  - by eexists _, l.
  - destruct (_ || _).
    + eexists _, l. split; [done|]. split; [|done]. eapply (tame_set p1 i (set_reopen r o)); [done| |done|done|by apply sound_next; [|left]].
      apply list_lookup_insert_eq. by eapply lookup_lt_Some.
    + destruct (activate_returns fuel i p1 Ht1 Hi ltac:(lia)) as (p2 & E2 & Ht2). rewrite E2. exists p2, l. split; [done|]. split; [exact Ht2|]. split; [|done].
      unfold activate in E2. destruct (objects p1 !! i); [|done]. cbn in E2. destruct (mark_subtree_open _ _ _); [|done]. cbn in E2. by simplify_eq.
  - destruct (deactivate_returns i Pending p1 Ht1 Hi) as (p2 & E2 & Ht2). rewrite E2. exists p2, l. split; [done|]. split; [exact Ht2|]. split; [|done].
    unfold deactivate in E2. destruct (objects p1 !! i); [|done]. cbn in E2. case_match; by simplify_eq.
  - destruct (add_next_returns i p1 Ht1 Hi) as (p2 & E2 & Ht2). rewrite E2.
    unfold add_next in E2. assert (objects p1 !! i = Some (set_reopen r o)) as Ho1 by (apply list_lookup_insert_eq; by eapply lookup_lt_Some).
    rewrite Ho1 in E2. cbn in E2. pose proof (on_timer_rearm _ _ _ E) as Hnx. destruct (Reopen.pending r); [|injection E2 as <-; by exists p1, l].
    unfold pending_add in E2. destruct (pending_has _ _ _ _) as [[]|]; cbn in E2; [injection E2 as <-; by exists p1, l| |done].
    exists p2, (pending_insert (Reopen.next r) i l). injection E2 as E2. rewrite due_insert by lia.
    assert (pending p2 = pending_insert (Reopen.next r) i (pending p)) as -> by (rewrite <- E2; by case_match).
    rewrite Hp. cbn. rewrite (proj2 (Z.ltb_ge _ _)) by lia. split; [done|]. by split.
Qed.

Lemma pending_loop_returns n fuel p : tame p → (N ≤ fuel)%nat → (due (pending p) < n)%nat → ∃ p', pending_loop junk n fuel now p = Some p' ∧ tame p'.
Proof.
  revert p. induction n as [|n IH]; intros p Ht Hn Hd; [lia|]. cbn [pending_loop]. destruct (pending p) as [|[t i] l] eqn:Ep; [by eexists|].
  destruct (Z.ltb_spec t now) as [Hlt|Hge]; [|by eexists].
  assert (i < length g)%nat as Hi. { pose proof (proj2 Ht) as Hf. rewrite Ep in Hf. by inversion Hf. }
  destruct (pending_action_returns fuel i p t i l Ht Hi Hn Ep Hlt) as (p' & l' & -> & Ht' & Ep' & Ed). cbn [mbind option_bind].
  rewrite Ep'. cbn [tail]. apply IH; [|done|].
  - split; [apply Ht'|]. pose proof (proj2 Ht') as Hf. rewrite Ep' in Hf. by inversion Hf.
  - change (due l' < n)%nat. rewrite Ed. unfold due in Hd. rewrite filter_cons_True in Hd by done. cbn in Hd. unfold due. lia.
Qed.

(** What a worker or the user can send. *)
Definition valid (e : event) (p : proc) : Prop :=
  match e with
  | EState i _ | EChannelClose i => (i < length g)%nat
  | EWorker w _ => (w < length (workers p))%nat
  | _ => True
  end.

(** C23: termination. For a graph of dependencies without cycles, sane
    reopening parameters and indices of objects and workers that exist,
    every message and every timer is handled to its end, with walks no
    deeper than the number of ranks; no dangling object is touched and no
    arithmetic leaves its type. The conditions hold again afterwards, so the
    same is true of whole runs. (The search in the list of pending actions
    compares the key of end(), which is read from memory the list does not
    own, with a time; the theorem takes it to be a number below the clock.)
    *)
Theorem processor_returns (fuel : nat) (e : event) (p : proc) : tame p → valid e p → (N ≤ fuel)%nat →
  ∃ p', step junk fuel now e p = Some p' ∧ tame p'.
Proof.
  intros Ht He Hn. destruct e as [i s|w s|c|i| |force]; cbn [step].
  - destruct (update_returns fuel i s p Ht He Hn) as (p' & -> & Ht'). cbn. by eexists.
  - unfold cb_worker. cbn in He. destruct (lookup_lt_is_Some_2 _ _ He) as [s0 ->]. cbn [mbind option_bind].
    assert (tame (set_workers (<[w := s]> (workers p)) p)) as Hw by done. destruct s; try by eexists.
    + destruct (all_closed _); [by apply close__returns|by eexists].
    + destruct (forallb _ _); [|by eexists]. unfold activate_all. apply each_returns; [done|]. intros i a Hin Ha. apply elem_of_seq in Hin.
      assert (i < length g)%nat as Hi. { rewrite <- (proj1 (proj1 Ht)). unfold graph. rewrite length_fmap. cbn in Hin. lia. }
      destruct (tame_lookup _ i (proj1 Ha) Hi) as (o & Ho & _). rewrite Ho. cbn. case_bool_decide; [by eexists|]. apply activate_returns; [done|done|lia].
  - case_bool_decide; [by eexists|]. by apply close_returns.
  - unfold cb_close. destruct (tame_lookup _ i (proj1 Ht) He) as (o & Ho & _). rewrite Ho. cbn. case_match; [by eexists|by apply deactivate_returns].
  - unfold pending_process. destruct (pending_loop_returns (Datatypes.S (length (pending p))) fuel p Ht Hn) as (p' & -> & Ht').
    + unfold due. pose proof (length_filter (λ x : Z * nat, x.1 < now) (pending p)). lia.
    + cbn. eexists. split; [done|]. by destruct (pending p') as [|[]].
  - by apply close_returns.
Qed.
End total.

(** The conditions for the chain of ProcessorSpec.v. *)
Definition chain_rank (i : nat) : nat := 3 - i.

Lemma chain_ordered : ordered chain_rank 4 (graph chain).
Proof.
  intros i ds rs Hi. destruct i as [|[|[|i]]]; cbn in Hi; simplify_eq; (split; [unfold chain_rank; lia|]); split; intros d Hd;
    apply list_elem_of_In in Hd; cbn in Hd; unfold chain_rank, graph; repeat destruct Hd as [<-|Hd]; try done; cbn; lia.
Qed.

Lemma sound_default : sound 0 Reopen.default_data.
Proof. split; [by split_and!; cbn; try lia|]. split_and!; cbn; [unfold Reopen.second; lia|by left|by left]. Qed.

Lemma chain_tame : tame 0 (graph chain) chain_start.
Proof. split; [split; [done|]|by constructor]. repeat constructor; apply sound_default. Qed.

Lemma processor_returns_witness : 0 < 1 ∧
  ∃ p', step 0 4 1 (EWorker 0 Active) chain_start = Some p' ∧ tame 0 (graph chain) p'.
Proof.
  split; [lia|]. apply (processor_returns 0 1 chain_rank 4 (graph chain)); [lia|apply chain_ordered|apply chain_tame|cbn; lia|lia].
Defined.
End ProcessorTotal.
