(* ===== verification/Deps.v ===== *)
(** * The processor: reading the objects and their dependencies

    src/processor/processor.cc: [init_pre], [object_depth], [init_depends],
    [init_stages] and [build_rdepends], the part of the initialization that
    turns the configuration of the objects into the order in which they are
    created and into the graph that Processor.v walks.

    A node of the configuration is what the functions read of it: its values
    by key, and the url of the object as the map of its values.  Maps and sets
    of strings iterate in the order of the strings. *)
From stdpp Require Import sorting.
From S2P Require Import Prelude Conv Text.

Module Deps.
Import Conv Find Getter.

#[local] Arguments str : simpl never.

(** ** Objects before their creation *)
Record depends_t := DependsT { dlist : gset bytes; depth : Z }.

Record PreObject := Pre {
  url : gmap bytes bytes;
  name : bytes;
  worker : bytes;
  channels : gset bytes;
  disabled : bool;
  depends_open : depends_t;
  depends_init : depends_t;
}.

Definition depends (init : bool) (o : PreObject) : depends_t := if init then depends_init o else depends_open o.

Definition set_depth (init : bool) (n : Z) (o : PreObject) : PreObject :=
  if init then Pre (url o) (name o) (worker o) (channels o) (disabled o) (depends_open o) (DependsT (dlist (depends_init o)) n)
  else Pre (url o) (name o) (worker o) (channels o) (disabled o) (DependsT (dlist (depends_open o)) n) (depends_init o).

(** A node "objects.*": its values, the nodes below "channels" with their
    values (empty where there is none), and the url below "init" or "url" if
    it can be read. *)
Record entry := Entry {
  extname : bytes;
  cfg : gmap bytes bytes;
  channel_nodes : list (bytes * bytes);
  cfg_url : option (gmap bytes bytes);
}.

(** ** Iteration *)
Definition name_le (a b : bytes) : Prop := Props.key_leb a b = true.

#[global] Instance name_le_dec a b : Decision (name_le a b).
Proof. unfold name_le. apply _. Defined.

Definition sorted (s : gset bytes) : list bytes := merge_sort name_le (elements s).
Definition keys (m : gmap bytes PreObject) : list bytes := sorted (dom m).

(** ** [init_pre] *)

(** A list of names separated by commas; [None] if one of them is empty. *)
Fixpoint names_loop (r : gset bytes) (l : list bytes) : option (gset bytes) :=
  match l with
  | [] => Some r
  | d :: l =>
      let n := strip (str " ") d in
      if bool_decide (n = []) then None else names_loop ({[n]} ∪ r) l
  end.

Definition names (r : gset bytes) (s : bytes) : option (gset bytes) := names_loop r (Str.split (Str.eqc 44) s).

Fixpoint add_channels (u : gmap bytes bytes) (l : list (bytes * bytes)) : option (gmap bytes bytes) :=
  match l with
  | [] => Some u
  | (k, v) :: l =>
      let key := str "tll.channel." ++ k in
      if bool_decide (is_Some (u !! key)) then None else add_channels (<[key := v]> u) l
  end.

(** The channels that the url names: a value for each group below "tll.channel". *)
Fixpoint channel_names (r : gset bytes) (l : list (bytes * bytes)) : option (gset bytes) :=
  match l with
  | [] => Some r
  | (k, v) :: l =>
      if prefix_of (str "tll.channel.") k && negb (bool_decide (v = [])) then
        let! r := names r v in channel_names r l
      else channel_names r l
  end.

Definition disabled_object : PreObject := Pre ∅ [] [] ∅ true (DependsT ∅ (-1)) (DependsT ∅ (-1)).

(** The url of the entry, its name, its channels and what it depends on.  The
    condition [deps || !deps->empty()] looks at the value of a missing "depends"
    as well: [Config::get] returns an [optional_config_string]
    (src/tll/config.h), not a [std::optional], and without a value that is an
    empty view, so the condition is defined and false: no dependencies. *)
Definition init_pre (ipc : bytes) (e : entry) : option PreObject :=
  let get k := cfg e !! k in
  let nm := default (extname e) (get (str "name")) in
  let '(r, enable) := reader_getT true get None bool_to_any (str "enable") (Some true) in
  let '(r, dis) := reader_getT true get r bool_to_any (str "disable") (Some (negb enable)) in
  match r with Some _ => None | None =>
  if dis then Some disabled_object else
  let! u := cfg_url e in
  if bool_decide (is_Some (u !! str "name")) then None else
  let u := <[str "name" := nm]> u in
  let! u := add_channels u (channel_nodes e) in
  let! open := match get (str "depends") with None => Some ∅ | Some s => names ∅ s end in
  let! ch := channel_names ∅ (Props.entries u) in
  let! init := match u !! str "master" with
               | None => Some ch
               | Some master =>
                   match getT_def bool_to_any (λ k, u !! k) (str "tll.processor.ignore-master-dependency") false with
                   | Err _ => None
                   | Ok ignore => Some (if ignore then ch else {[master]} ∪ ch)
                   end
               end in
  Some (Pre u nm (default (str "default") (get (str "worker"))) ch false
          (DependsT (open ∖ {[ipc]}) (-1)) (DependsT (init ∖ {[ipc]}) (-1)))
  end.

(** ** [object_depth] *)
Inductive init_error :=
| BadObject
| UnknownChannel (o c : bytes)
| WorkerMismatch (o c : bytes)
| Cycle (path : list bytes)
| Missing (o d : bytes)
| EmptyName
| UnknownObject (n : bytes)
| EmptyStage
| RecursiveDepend (o : bytes)
| DuplicateDepend (o d : bytes).

(** The path is what the recursion has entered; [None]: out of fuel. *)
Fixpoint object_depth (fuel : nat) (m : gmap bytes PreObject) (init : bool) (o : PreObject) (path : list bytes) : option (result init_error Z) :=
  match fuel with
  | O => None
  | S fuel =>
      let obj := depends init o in
      if negb (depth obj =? -1) then Some (Ok (depth obj)) else
      if bool_decide (name o ∈ path) then Some (Err (Cycle (path ++ [name o]))) else
      foldl (λ r d,
        match r with
        | Some (Ok n) =>
            match m !! d with
            | None => Some (Err (Missing (name o) d))
            | Some od =>
                match object_depth fuel m init od (path ++ [name o]) with
                | Some (Ok dd) => Some (Ok (Z.max n (dd + 1)))
                | r => r
                end
            end
        | _ => r
        end) (Some (Ok 0)) (sorted (dlist obj))
  end.

(** ** [init_depends] *)

(** Objects by name; the first of a name stays. *)
Fixpoint read_objects (ipc : bytes) (m : gmap bytes PreObject) (l : list entry) : result init_error (gmap bytes PreObject) :=
  match l with
  | [] => Ok m
  | e :: l =>
      match init_pre ipc e with
      | None => Err BadObject
      | Some o =>
          if disabled o then read_objects ipc m l
          else read_objects ipc (if bool_decide (is_Some (m !! name o)) then m else <[name o := o]> m) l
      end
  end.

Definition check_channel (m : gmap bytes PreObject) (o : PreObject) (c : bytes) : result init_error () :=
  match m !! c with
  | None => Err (UnknownChannel (name o) c)
  | Some oc => if bool_decide (worker oc ≠ worker o) then Err (WorkerMismatch (name o) c) else Ok tt
  end.

(** A loop that stops at the first error. *)
Fixpoint check_all {A} (f : A → result init_error ()) (l : list A) : result init_error () :=
  match l with [] => Ok tt | x :: l => let? _ := f x in check_all f l end.

Definition check_channels (m : gmap bytes PreObject) : result init_error () :=
  check_all (λ k, match m !! k with
                  | Some o => check_all (check_channel m o) (sorted (channels o))
                  | None => Ok tt
                  end) (keys m).

(** Body of the loop over the objects: one of the two depths of object [k]. *)
Definition fill_depth (init : bool) (m : gmap bytes PreObject) (k : bytes) : option (result init_error (gmap bytes PreObject)) :=
  match m !! k with
  | None => Some (Ok m)
  | Some o =>
      if negb (depth (depends init o) =? -1) then Some (Ok m) else
      match object_depth (S (size m)) m init o [] with
      | None => None
      | Some (Err e) => Some (Err e)
      | Some (Ok n) => Some (Ok (<[k := set_depth init n o]> m))
      end
  end.

Fixpoint fill_depths (m : gmap bytes PreObject) (l : list bytes) : option (result init_error (gmap bytes PreObject)) :=
  match l with
  | [] => Some (Ok m)
  | k :: l =>
      match fill_depth false m k with
      | Some (Ok m) =>
          match fill_depth true m k with
          | Some (Ok m) => fill_depths m l
          | r => r
          end
      | r => r
      end
  end.

Definition init_depth (m : gmap bytes PreObject) (k : bytes) : Z :=
  match m !! k with Some o => depth (depends_init o) | None => -1 end.

Definition max_depth (m : gmap bytes PreObject) : Z := foldl (λ r k, Z.max r (init_depth m k)) 0 (keys m).

Definition init_order (m : gmap bytes PreObject) : list bytes :=
  concat ((λ i, filter (λ k, init_depth m k = Z.of_nat i) (keys m)) <$> seq 0 (Z.to_nat (max_depth m + 1))).

(** The objects and the order of their creation, [init_one] of each. *)
Definition init_depends (ipc : bytes) (l : list entry) : option (result init_error (gmap bytes PreObject * list bytes)) :=
  match read_objects ipc ∅ l with
  | Err e => Some (Err e)
  | Ok m =>
      match check_channels m with
      | Err e => Some (Err e)
      | Ok _ =>
          match fill_depths m (keys m) with
          | None => None
          | Some (Err e) => Some (Err e)
          | Some (Ok m) => Some (Ok (m, init_order m))
          end
      end
  end.

(** ** Objects, stages and the graph *)

(** What is left of an object for the graph: its name and [depends_names]. *)
Record named := Named { oname : bytes; depends_names : list bytes }.

Definition created (m : gmap bytes PreObject) (order : list bytes) : list named :=
  (λ n, Named n (match m !! n with Some o => sorted (dlist (depends_open o)) | None => [] end)) <$> order.

(** [Processor::find]: the first object of a name. *)
Fixpoint find_name (n : bytes) (l : list named) : option nat :=
  match l with
  | [] => None
  | o :: l => if bool_decide (oname o = n) then Some 0%nat else S <$> find_name n l
  end.

(** A stage, from the values below its node ([None]: no value). *)
Fixpoint stage_objects (l : list named) (r : gset bytes) (vs : list (option bytes)) : result init_error (gset bytes) :=
  match vs with
  | [] => Ok r
  | v :: vs =>
      match v with
      | None | Some [] => Err EmptyName
      | Some n => match find_name n l with None => Err (UnknownObject n) | Some _ => stage_objects l ({[n]} ∪ r) vs end
      end
  end.

Fixpoint read_stages (l : list named) (ss : list (bytes * list (option bytes))) : result init_error (list (bytes * gset bytes)) :=
  match ss with
  | [] => Ok []
  | (n, vs) :: ss => let? s := stage_objects l ∅ vs in let? r := read_stages l ss in Ok ((n, s) :: r)
  end.

(** The objects that no other one depends on. *)
Definition leaves (l : list named) : gset bytes :=
  foldl (λ s o, s ∖ list_to_set (depends_names o)) (list_to_set (oname <$> l)) l.

(** [init_stages]; the stage objects are named by [stage_name], the name of a
    child of the processor. *)
Fixpoint add_stages (stage_name : bytes → bytes) (l : list named) (ss : list (bytes * gset bytes)) : result init_error (list named) :=
  match ss with
  | [] => Ok l
  | (n, s) :: ss =>
      if bool_decide (s = ∅) then Err EmptyStage
      else add_stages stage_name (l ++ [Named (stage_name n) (sorted s)]) ss
  end.

Definition init_stages (stage_name : bytes → bytes) (l : list named) (ss : list (bytes * list (option bytes))) : result init_error (list named) :=
  let? stages := read_stages l ss in
  add_stages stage_name l (match stages with [] => [(str "active", leaves l)] | _ => stages end).

(** [build_rdepends]: the lists of dependencies and of dependants. *)
Definition push_depend (d : nat) (x : list nat * list nat) := (x.1 ++ [d], x.2).
Definition push_rdepend (i : nat) (x : list nat * list nat) := (x.1, x.2 ++ [i]).

Fixpoint link_one (l : list named) (o : named) (i : nat) (deps : list nat) (ns : list bytes) (g : list (list nat * list nat)) : result init_error (list (list nat * list nat)) :=
  match ns with
  | [] => Ok g
  | n :: ns =>
      match find_name n l with
      | None => Err (UnknownObject n)
      | Some d =>
          if bool_decide (d = i) then Err (RecursiveDepend (oname o))
          else if bool_decide (d ∈ deps) then Err (DuplicateDepend (oname o) n)
          else link_one l o i (d :: deps) ns (alter (push_rdepend i) d (alter (push_depend d) i g))
      end
  end.

Fixpoint link_all (l : list named) (i : nat) (os : list named) (g : list (list nat * list nat)) : result init_error (list (list nat * list nat)) :=
  match os with
  | [] => Ok g
  | o :: os => let? g := link_one l o i [] (depends_names o) g in link_all l (S i) os g
  end.

Definition build_rdepends (l : list named) : result init_error (list (list nat * list nat)) :=
  link_all l 0 l (replicate (length l) ([], [])).

(** The graph of the processor from its configuration. *)
Definition init_graph (ipc : bytes) (stage_name : bytes → bytes) (l : list entry) (ss : list (bytes * list (option bytes)))
  : option (result init_error (list (list nat * list nat))) :=
  match init_depends ipc l with
  | None => None
  | Some (Err e) => Some (Err e)
  | Some (Ok (m, order)) =>
      Some (let? os := init_stages stage_name (created m order) ss in build_rdepends os)
  end.
End Deps.
