(* ===== verification/DepsSpec.v ===== *)
(** * Properties of the dependencies of the processor

    For Deps.v: [object_depth] is the length of the longest chain of
    dependencies, it fails exactly when something is missing or depends on
    itself, objects are created after everything they need, and the graph that
    is built is one on which the theorems about Processor.v hold. *)
From stdpp Require Import sorting.
From S2P Require Import Prelude Conv Text Deps Callback Channel Reopen Processor ProcessorSpec ProcessorTotal.

Module DepsSpec.
Import Conv Find Getter Deps.
Import Processor ProcessorSpec ProcessorTotal.
Import Deps.

#[local] Arguments str : simpl never.

(** ** Depth in a graph of names *)
Section depth.
Context (E : bytes → option (gset bytes)).

Definition edge (a b : bytes) : Prop := ∃ s, E a = Some s ∧ b ∈ s.

(** The length of the longest chain of dependencies. *)
Inductive has_depth : bytes → Z → Prop :=
| Has n s k : E n = Some s → 0 ≤ k → (∀ d, d ∈ s → ∃ j, has_depth d j ∧ j < k) →
    (k = 0 ∨ ∃ d, d ∈ s ∧ has_depth d (k - 1)) → has_depth n k.

Lemma has_depth_inv n k : has_depth n k → ∃ s, E n = Some s ∧ 0 ≤ k ∧ (∀ d, d ∈ s → ∃ j, has_depth d j ∧ j < k) ∧
  (k = 0 ∨ ∃ d, d ∈ s ∧ has_depth d (k - 1)).
Proof. intros H. inversion H; subst. by eexists. Qed.

Lemma has_depth_fun n k k' : has_depth n k → has_depth n k' → k = k'.
Proof.
  intros H H'. assert (0 ≤ k) as Hk by (by destruct (has_depth_inv n k H) as (? & _ & ? & _)).
  revert n k' H H'. pattern k. revert k Hk. refine (Zlt_0_ind _ _). intros k IH Hk n k' H H'.
  destruct (has_depth_inv n k H) as (s & Hs & _ & Hd & Hm). destruct (has_depth_inv n k' H') as (s' & Hs' & Hk' & Hd' & Hm').
  rewrite Hs in Hs'. injection Hs' as <-. assert (k ≤ k') as H1.
  { destruct Hm as [->|(d & Hin & Hdk)]; [lia|]. destruct (Hd' d Hin) as (j & Hj & Hlt).
    assert (0 ≤ k - 1) by (by destruct (has_depth_inv d _ Hdk) as (? & _ & ? & _)).
    rewrite <- (IH (k - 1) ltac:(lia) d j) in Hlt; [lia|done..]. }
  assert (k' ≤ k); [|lia]. destruct Hm' as [->|(d & Hin & Hdk)]; [lia|]. destruct (Hd d Hin) as (j & Hj & Hlt).
  assert (0 ≤ j) by (by destruct (has_depth_inv d _ Hj) as (? & _ & ? & _)).
  rewrite (IH j ltac:(lia) d (k' - 1)) in Hlt; [lia|done..].
Qed.

(** A path that leads to [n] by edges. *)
Fixpoint chain (path : list bytes) (n : bytes) : Prop :=
  match path with
  | [] => True
  | p :: rest => edge p (match rest with [] => n | q :: _ => q end) ∧ chain rest n
  end.

Lemma chain_snoc path a b : chain path a → edge a b → chain (path ++ [a]) b.
Proof.
  induction path as [|p rest IH]; intros H He; [done|]. destruct H as [H1 H2]. split; [|by apply IH].
  by destruct rest.
Qed.

Lemma chain_tc path n x : chain path n → x ∈ path → tc edge x n.
Proof.
  revert x. induction path as [|p rest IH]; intros x H Hx; [by apply not_elem_of_nil in Hx|]. destruct H as [H1 H2].
  apply elem_of_cons in Hx as [->|Hx]; [|by apply IH]. destruct rest as [|q rest]; [by apply tc_once|].
  eapply tc_l; [done|]. apply IH; [done|set_solver].
Qed.

(** What the two errors of [object_depth] say. *)
Definition blamed (e : init_error) : Prop :=
  match e with
  | Missing o d => edge o d ∧ E d = None
  | Cycle path => ∃ n, n ∈ path ∧ tc edge n n
  | _ => False
  end.

Lemma depth_acyclic n k x : has_depth n k → tc edge n x → ∃ j, has_depth x j ∧ j < k.
Proof.
  intros H Ht. revert k H. induction Ht as [n x (s & Hs & Hx)|n y x (s & Hs & Hy) Ht IH]; intros k H;
    destruct (has_depth_inv n k H) as (s' & Hs' & _ & Hd & _); simplify_eq; [by apply Hd|].
  destruct (Hd y Hy) as (j & Hj & Hlt). destruct (IH j Hj) as (i & Hi & Hlt'). exists i. split; [done|lia].
Qed.

Lemma depth_no_blame n k : has_depth n k → ∀ x, (x = n ∨ tc edge n x) → E x ≠ None ∧ ¬ tc edge x x.
Proof.
  intros H x Hx. assert (∃ j, has_depth x j) as [j Hj].
  { destruct Hx as [->|Hx]; [by eexists|]. destruct (depth_acyclic _ _ _ H Hx) as (j & ? & _). by eexists. }
  destruct (has_depth_inv x j Hj) as (s & Hs & _). split; [congruence|]. intros Hc.
  destruct (depth_acyclic _ _ _ Hj Hc) as (i & Hi & Hlt). pose proof (has_depth_fun _ _ _ Hj Hi). lia.
Qed.
End depth.

(** ** [object_depth] *)
Definition graph_of (m : gmap bytes PreObject) (init : bool) (n : bytes) : option (gset bytes) := (λ o, dlist (depends init o)) <$> m !! n.

(** The names are the keys, and a depth that is set is right. *)
Definition memo (m : gmap bytes PreObject) : Prop :=
  ∀ n o, m !! n = Some o → name o = n ∧
    ∀ init, depth (depends init o) = -1 ∨ has_depth (graph_of m init) n (depth (depends init o)).

Lemma elem_of_sorted s x : x ∈ sorted s ↔ x ∈ s.
Proof. unfold sorted. by rewrite merge_sort_Permutation, elem_of_elements. Qed.

Lemma NoDup_sorted s : NoDup (sorted s).
Proof. unfold sorted. rewrite merge_sort_Permutation. apply NoDup_elements. Qed.

(** One dependency of the loop. *)
Definition depth_step (fuel : nat) (m : gmap bytes PreObject) (init : bool) (o : PreObject) (path : list bytes)
    (r : option (result init_error Z)) (d : bytes) : option (result init_error Z) :=
  match r with
  | Some (Ok n) =>
      match m !! d with
      | None => Some (Err (Missing (name o) d))
      | Some od =>
          match object_depth fuel m init od (path ++ [name o]) with
          | Some (Ok dd) => Some (Ok (Z.max n (dd + 1)))
          | r => r
          end
      end
  | _ => r
  end.

Lemma depth_steps_stuck fuel m init o path l r : (∀ n, r ≠ Some (Ok n)) → foldl (depth_step fuel m init o path) r l = r.
Proof. intros Hr. induction l as [|d l IH]; [done|]. cbn. destruct r as [[n|e]|]; [by destruct (Hr n)|done|done]. Qed.

Lemma graph_of_lookup m init n o : m !! n = Some o → graph_of m init n = Some (dlist (depends init o)).
Proof. intros H. unfold graph_of. by rewrite H. Qed.

Lemma object_depth_ok fuel m init o path n : memo m → m !! name o = Some o →
  object_depth fuel m init o path = Some (Ok n) → has_depth (graph_of m init) (name o) n.
Proof.
  intros Hm. revert o path n. induction fuel as [|fuel IH]; intros o path n Ho H; [done|]. cbn [object_depth] in H.
  destruct (Z.eqb_spec (depth (depends init o)) (-1)) as [Hd|Hd]; cbn [negb] in H.
  2: { simplify_eq. destruct (Hm _ _ Ho) as [_ Hmo]. by destruct (Hmo init). }
  case_bool_decide; [done|]. fold (depth_step fuel m init o path) in H.
  assert (∀ l n0, foldl (depth_step fuel m init o path) (Some (Ok n0)) l = Some (Ok n) → n0 ≤ n ∧
    (∀ d, d ∈ l → ∃ j, has_depth (graph_of m init) d j ∧ j < n) ∧ (n = n0 ∨ ∃ d, d ∈ l ∧ has_depth (graph_of m init) d (n - 1))) as Hfold.
  { induction l as [|d l IHl]; intros n0 Hl; [simplify_eq/=; split_and!; [lia|by intros ? ?%not_elem_of_nil|by left]|].
    cbn [foldl] in Hl. destruct (depth_step fuel m init o path (Some (Ok n0)) d) as [[n1|e]|] eqn:E1;
      [|rewrite depth_steps_stuck in Hl by done; done..].
    unfold depth_step in E1. destruct (m !! d) as [od|] eqn:Ed; [|done].
    destruct (object_depth _ _ _ _ _) as [[dd|]|] eqn:E2; [|done..]. injection E1 as <-.
    destruct (Hm d od Ed) as [Hn _]. assert (has_depth (graph_of m init) d dd) as Hdd by (rewrite <- Hn in *; by eapply IH).
    destruct (IHl _ Hl) as (H1 & H2 & H3). split_and!; [lia| |].
    - intros x [->|Hx]%elem_of_cons; [|by apply H2]. exists dd. split; [done|lia].
    - destruct H3 as [->|(x & Hx & Hxd)]; [|right; exists x; split; [set_solver|done]].
      destruct (Z.max_spec n0 (dd + 1)) as [[_ ->]|[_ ->]]; [right|by left]. exists d. split; [set_solver|]. by replace (dd + 1 - 1) with dd by lia. }
  destruct (Hfold _ _ H) as (H1 & H2 & H3). econstructor; [by apply graph_of_lookup|lia|..].
  - intros d Hdin. apply H2. by apply elem_of_sorted.
  - destruct H3 as [->|(d & Hdin & Hdd)]; [by left|right]. exists d. split; [by apply elem_of_sorted|done].
Qed.

Lemma object_depth_err fuel m init o path e : memo m → m !! name o = Some o → chain (graph_of m init) path (name o) →
  object_depth fuel m init o path = Some (Err e) → blamed (graph_of m init) e.
Proof.
  intros Hm. revert o path. induction fuel as [|fuel IH]; intros o path Ho Hc H; [done|]. cbn [object_depth] in H.
  destruct (negb _); [done|]. case_bool_decide as Hin.
  { injection H as <-. exists (name o). split; [set_solver|]. by eapply chain_tc. }
  fold (depth_step fuel m init o path) in H.
  assert (∀ l n0, (∀ d, d ∈ l → edge (graph_of m init) (name o) d) →
    foldl (depth_step fuel m init o path) (Some (Ok n0)) l = Some (Err e) → blamed (graph_of m init) e) as Hfold.
  { induction l as [|d l IHl]; intros n0 Hl Hf; [done|]. cbn [foldl] in Hf.
    destruct (depth_step fuel m init o path (Some (Ok n0)) d) as [[n1|e1]|] eqn:E1.
    - eapply IHl; [|exact Hf]. intros x Hx. apply Hl. set_solver.
    - rewrite depth_steps_stuck in Hf by done. injection Hf as <-. unfold depth_step in E1.
      assert (edge (graph_of m init) (name o) d) as Hed by (apply Hl; set_solver).
      destruct (m !! d) as [od|] eqn:Ed; [|injection E1 as <-; split; [done|unfold graph_of; by rewrite Ed]].
      destruct (object_depth _ _ _ _ _) as [[dd|e2]|] eqn:E2; [done| |done]. injection E1 as <-.
      destruct (Hm d od Ed) as [Hn _]. eapply IH; [|..|exact E2]; [by rewrite Hn|]. rewrite Hn. by apply chain_snoc.
    - rewrite depth_steps_stuck in Hf by done. done. }
  eapply Hfold; [|exact H]. intros d Hd. eexists. split; [by apply graph_of_lookup|]. by apply elem_of_sorted.
Qed.

Lemma NoDup_size (m : gmap bytes PreObject) (path : list bytes) : NoDup path → (∀ x, x ∈ path → is_Some (m !! x)) → (length path ≤ size m)%nat.
Proof.
  intros Hn Hp. rewrite <- (size_list_to_set (C := gset bytes)) by done. rewrite <- (size_dom (D := gset bytes) m).
  apply subseteq_size.
  intros x Hx. apply elem_of_dom, Hp. by apply elem_of_list_to_set in Hx.
Qed.

Lemma object_depth_returns fuel m init o path : memo m → m !! name o = Some o → NoDup path →
  (∀ x, x ∈ path → is_Some (m !! x)) → (size m < fuel + length path)%nat → object_depth fuel m init o path ≠ None.
Proof.
  intros Hm. revert o path. induction fuel as [|fuel IH]; intros o path Ho Hn Hp Hs.
  { pose proof (NoDup_size m path Hn Hp). lia. }
  cbn [object_depth]. destruct (negb _); [done|]. case_bool_decide as Hin; [done|]. fold (depth_step fuel m init o path).
  generalize (Ok 0 : result init_error Z) as r. induction (sorted _) as [|d l IHl]; intros r; [done|]. cbn [foldl].
  destruct (depth_step fuel m init o path (Some r) d) as [r1|] eqn:E1; [apply IHl|]. exfalso.
  unfold depth_step in E1. destruct r as [n|e]; [|done]. destruct (m !! d) as [od|] eqn:Ed; [|done].
  destruct (object_depth _ _ _ _ _) as [[dd|e]|] eqn:E2; [done|done|]. revert E2. apply IH.
  - destruct (Hm d od Ed) as [Hnm _]. by rewrite Hnm.
  - apply NoDup_app. split_and!; [done|set_solver|apply NoDup_singleton].
  - intros x [Hx|Hx%list_elem_of_singleton]%elem_of_app; [by apply Hp|subst x; by eexists].
  - rewrite length_app. cbn. lia.
Qed.
(** ** The depths of all objects *)

(** An object as [init_pre] returns it, before its depths are known. *)
Definition unfilled (o : PreObject) : PreObject := set_depth true (-1) (set_depth false (-1) o).

Lemma unfilled_set_depth init n o : unfilled (set_depth init n o) = unfilled o.
Proof. by destruct o, init. Qed.

Lemma unfilled_same o o' : unfilled o = unfilled o' → worker o = worker o' ∧ channels o = channels o'.
Proof. by intros [=]. Qed.

(** [m'] is [m] with some depths filled in, all of them right. *)
Record fills (m m' : gmap bytes PreObject) : Prop := Fills {
  fills_dom : dom m' = dom m;
  fills_graph : ∀ init n, graph_of m' init n = graph_of m init n;
  fills_other : ∀ n o', m' !! n = Some o' → ∃ o, m !! n = Some o ∧ unfilled o' = unfilled o;
  fills_done : ∀ init n o o', m !! n = Some o → m' !! n = Some o' → depth (depends init o) ≠ -1 → depth (depends init o') = depth (depends init o);
}.

Lemma fills_refl m : fills m m.
Proof. split; [done|done|naive_solver|]. intros init n o o' H H'. by simplify_eq. Qed.

Lemma fills_trans m m1 m2 : fills m m1 → fills m1 m2 → fills m m2.
Proof.
  intros [A1 A2 A3 A4] [B1 B2 B3 B4]. split; [congruence|congruence|..].
  - intros n o2 H2. destruct (B3 n o2 H2) as (o1 & H1 & ?). destruct (A3 n o1 H1) as (o & ? & ?). exists o. split; congruence.
  - intros init n o o2 H0 H2 Hd. destruct (B3 n o2 H2) as (o1 & H1 & _). pose proof (A4 init n o o1 H0 H1 Hd) as E1.
    rewrite <- E1. apply (B4 init n o1 o2 H1 H2). congruence.
Qed.

Lemma has_depth_ext E E' n k : (∀ x, E x = E' x) → has_depth E n k → has_depth E' n k.
Proof.
  intros HE H. assert (0 ≤ k) as Hk by (by destruct (has_depth_inv _ n k H) as (? & _ & ? & _)).
  revert n H. pattern k. revert k Hk. refine (Zlt_0_ind _ _). intros k IH Hk n H.
  destruct (has_depth_inv _ n k H) as (s & Hs & _ & Hd & Hm). econstructor; [by rewrite <- HE|done|..].
  - intros d Hin. destruct (Hd d Hin) as (j & Hj & Hlt). exists j. split; [|done]. apply IH; [|done].
    by destruct (has_depth_inv _ d j Hj) as (? & _ & ? & _).
  - destruct Hm as [->|(d & Hin & Hdk)]; [by left|right]. exists d. split; [done|]. apply IH; [|done].
    by destruct (has_depth_inv _ d _ Hdk) as (? & _ & ? & _); lia.
Qed.

Lemma fill_depth_spec init m k o : memo m → m !! k = Some o →
  match fill_depth init m k with
  | None => False
  | Some (Err e) => blamed (graph_of m init) e
  | Some (Ok m') => memo m' ∧ fills m m' ∧ ∃ o', m' !! k = Some o' ∧ depth (depends init o') ≠ -1
  end.
Proof.
  intros Hm Ho. unfold fill_depth. rewrite Ho. destruct (Hm k o Ho) as [Hn Hmo].
  destruct (Z.eqb_spec (depth (depends init o)) (-1)) as [Hd|Hd]; cbn [negb]; [|by split_and!; [done|apply fills_refl|exists o]].
  destruct (object_depth _ m init o []) as [[n|e]|] eqn:E.
  - pose proof (object_depth_ok _ m init o [] n Hm ltac:(by rewrite Hn) E) as Hdep. rewrite Hn in Hdep.
    set (o1 := set_depth init n o). assert (∀ i x, graph_of (<[k := o1]> m) i x = graph_of m i x) as Hg.
    { intros i x. unfold graph_of. destruct (decide (x = k)) as [->|Hne]; [|by rewrite lookup_insert_ne].
      rewrite lookup_insert_eq, Ho. subst o1. cbn. by destruct init, i. }
    split; [|split].
    + intros x ox Hx. destruct (decide (x = k)) as [->|Hne].
      * rewrite lookup_insert_eq in Hx. injection Hx as <-. split; [by subst o1; destruct init|]. intros i.
        assert (has_depth (graph_of (<[k := o1]> m) init) k n) as Hdep' by (eapply has_depth_ext; [|exact Hdep]; intros y; by rewrite Hg).
        destruct (decide (i = init)) as [->|Hi]; [right; by subst o1; destruct init|].
        destruct (Hmo i) as [Hl|Hr]; [left; subst o1; by destruct i, init|right].
        eapply has_depth_ext; [intros y; symmetry; apply Hg|]. subst o1. by destruct i, init.
      * rewrite lookup_insert_ne in Hx by done. destruct (Hm x ox Hx) as [Hnx Hmx]. split; [done|]. intros i.
        destruct (Hmx i) as [Hl|Hr]; [by left|right]. eapply has_depth_ext; [intros y; symmetry; apply Hg|done].
    + split; [rewrite dom_insert_L; apply elem_of_dom_2 in Ho; set_solver|done|..].
      * intros x ox Hx. destruct (decide (x = k)) as [->|Hne]; [|rewrite lookup_insert_ne in Hx by done; by exists ox].
        rewrite lookup_insert_eq in Hx. injection Hx as <-. exists o. split; [done|apply unfilled_set_depth].
      * intros i x ox ox' Hx Hx' Hdx. destruct (decide (x = k)) as [->|Hne]; [|rewrite lookup_insert_ne in Hx' by done; by simplify_eq].
        rewrite lookup_insert_eq in Hx'. injection Hx' as <-. rewrite Ho in Hx. injection Hx as <-.
        destruct (decide (i = init)) as [->|Hi]; [done|]. subst o1. by destruct i, init.
    + exists o1. rewrite lookup_insert_eq. split; [done|].
      destruct (has_depth_inv _ _ _ Hdep) as (? & _ & ? & _). subst o1. destruct init; cbn; lia.
  - eapply object_depth_err; [exact Hm|by rewrite Hn| |exact E]. done.
  - revert E. apply object_depth_returns; [done|by rewrite Hn|constructor|by intros ? ?%not_elem_of_nil|cbn; lia].
Qed.

Definition filled (m : gmap bytes PreObject) (k : bytes) : Prop := ∀ o, m !! k = Some o → ∀ init, depth (depends init o) ≠ -1.

Lemma fills_filled m m' k : fills m m' → filled m k → filled m' k.
Proof.
  intros Hf Hk o' Ho' init. destruct (fills_other _ _ Hf k o' Ho') as (o & Ho & _).
  rewrite (fills_done _ _ Hf init k o o' Ho Ho' (Hk o Ho init)). by apply Hk.
Qed.

Lemma blamed_ext E E' e : (∀ x, E x = E' x) → blamed E e → blamed E' e.
Proof.
  intros HE. assert (∀ a b, edge E a b → edge E' a b) as He. { intros a b (s & Hs & Hb). exists s. by rewrite <- HE. }
  destruct e; try done; cbn.
  - intros (n & Hn & Hc). exists n. split; [done|]. eapply tc_congruence with (f := id); [|exact Hc]. exact He.
  - intros [H1 H2]. split; [by apply He|by rewrite <- HE].
Qed.

Lemma fill_depths_spec m l : memo m → (∀ k, k ∈ l → k ∈ dom m) →
  match fill_depths m l with
  | None => False
  | Some (Err e) => ∃ init, blamed (graph_of m init) e
  | Some (Ok m') => memo m' ∧ fills m m' ∧ ∀ k, k ∈ l → filled m' k
  end.
Proof.
  revert m. induction l as [|k l IH]; intros m Hm Hl; cbn [fill_depths].
  { split_and!; [done|apply fills_refl|by intros ? ?%not_elem_of_nil]. }
  assert (is_Some (m !! k)) as [o Ho] by (apply elem_of_dom, Hl; set_solver).
  pose proof (fill_depth_spec false m k o Hm Ho) as H1. destruct (fill_depth false m k) as [[m1|e]|]; [|by exists false|done].
  destruct H1 as (Hm1 & Hf1 & o1 & Ho1 & Hd1).
  pose proof (fill_depth_spec true m1 k o1 Hm1 Ho1) as H2. destruct (fill_depth true m1 k) as [[m2|e]|]; [| |done].
  2: { exists true. eapply blamed_ext; [apply Hf1|done]. }
  destruct H2 as (Hm2 & Hf2 & o2 & Ho2 & Hd2). pose proof (fills_trans _ _ _ Hf1 Hf2) as Hf.
  assert (∀ x, x ∈ l → x ∈ dom m2) as Hl2 by (intros x Hx; rewrite (fills_dom _ _ Hf); apply Hl; set_solver).
  pose proof (IH m2 Hm2 Hl2) as H3. destruct (fill_depths m2 l) as [[m3|e]|]; [| |done].
  - destruct H3 as (Hm3 & Hf3 & Hfl). split_and!; [done|by eapply fills_trans|]. intros x [->|Hx]%elem_of_cons; [|by apply Hfl].
    eapply fills_filled; [exact Hf3|]. intros o' Ho' init. rewrite Ho2 in Ho'. injection Ho' as <-.
    destruct init; [done|]. by rewrite (fills_done _ _ Hf2 false k o1 o2 Ho1 Ho2 Hd1).
  - destruct H3 as (init & Hb). exists init. eapply blamed_ext; [apply (fills_graph _ _ Hf)|done].
Qed.

(** ** The order of creation *)
Section order.
Context (f : bytes → Z) (ks : list bytes) (Hks : NoDup ks).

Definition level (i : nat) : list bytes := filter (λ k, f k = Z.of_nat i) ks.

Lemma elem_of_levels a n x : x ∈ concat (level <$> seq a n) ↔ x ∈ ks ∧ Z.of_nat a ≤ f x < Z.of_nat (a + n).
Proof.
  revert a. induction n as [|n IH]; intros a; cbn; [split; [by intros ?%not_elem_of_nil|lia]|].
  rewrite elem_of_app, IH. unfold level. rewrite list_elem_of_filter. split; [intros [[? ?]|[? ?]]; split; (done || lia)|].
  intros [H1 H2]. destruct (decide (f x = Z.of_nat a)); [by left|right; split; [done|lia]].
Qed.

Lemma levels_sorted a n : StronglySorted (λ x y, f x ≤ f y) (concat (level <$> seq a n)).
Proof.
  revert a. induction n as [|n IH]; intros a; cbn; [constructor|]. apply StronglySorted_app. split_and!; [|..|apply IH].
  - intros x y [Hx _]%list_elem_of_filter [_ Hy]%elem_of_levels. lia.
  - unfold level. assert (∀ x, x ∈ filter (λ k, f k = Z.of_nat a) ks → f x = Z.of_nat a) as Hall by (intros x [? _]%list_elem_of_filter; done).
    induction (filter _ ks) as [|x l IHl]; constructor; [apply IHl; intros; apply Hall; set_solver|].
    apply Forall_forall. intros y Hy. rewrite (Hall x), (Hall y); [lia|set_solver..].
Qed.

Lemma levels_NoDup a n : NoDup (concat (level <$> seq a n)).
Proof.
  revert a. induction n as [|n IH]; intros a; cbn; [constructor|]. apply NoDup_app. split_and!; [by apply NoDup_filter| |apply IH].
  intros x [Hx _]%list_elem_of_filter [_ Hy]%elem_of_levels. lia.
Qed.
End order.

Lemma max_depth_ge m k : k ∈ dom m → init_depth m k ≤ max_depth m ∧ 0 ≤ max_depth m.
Proof.
  intros Hk. unfold max_depth. apply elem_of_sorted in Hk. fold (keys m) in Hk.
  assert (∀ l r, r ≤ foldl (λ r k, Z.max r (init_depth m k)) r l ∧
    ∀ x, x ∈ l → init_depth m x ≤ foldl (λ r k, Z.max r (init_depth m k)) r l) as Hfold.
  { induction l as [|y l IH]; intros r; [split; [done|by intros ? ?%not_elem_of_nil]|]. cbn.
    destruct (IH (Z.max r (init_depth m y))) as [H1 H2]. split; [lia|]. intros x [->|Hx]%elem_of_cons; [lia|by apply H2]. }
  destruct (Hfold (keys m) 0) as [H1 H2]. split; [by apply H2|done].
Qed.

(** Every object once, and after the objects that it needs. *)
Definition order_ok (m : gmap bytes PreObject) (order : list bytes) : Prop :=
  NoDup order ∧ (∀ n, n ∈ order ↔ is_Some (m !! n)) ∧
  (∀ l1 n l2 o, order = l1 ++ n :: l2 → m !! n = Some o → ∀ d, d ∈ dlist (depends_init o) → d ∈ l1).

Lemma init_order_ok m : memo m → (∀ k, k ∈ dom m → filled m k) → order_ok m (init_order m).
Proof.
  intros Hm Hfl. assert (∀ n o, m !! n = Some o → has_depth (graph_of m true) n (init_depth m n)) as Hd.
  { intros n o Ho. unfold init_depth. rewrite Ho. destruct (Hm n o Ho) as [_ Hmo]. destruct (Hmo true) as [E|E]; [|done].
    exfalso. by eapply (Hfl n (elem_of_dom_2 _ _ _ Ho) o Ho true). }
  assert (∀ n, n ∈ init_order m ↔ is_Some (m !! n)) as Hin.
  { intros n. unfold init_order. fold (level (init_depth m) (keys m)). rewrite elem_of_levels. unfold keys. rewrite elem_of_sorted, elem_of_dom.
    split; [by intros []|]. intros [o Ho]. split; [by eexists|]. destruct (has_depth_inv _ _ _ (Hd n o Ho)) as (_ & _ & H0 & _).
    pose proof (max_depth_ge m n (elem_of_dom_2 _ _ _ Ho)). cbn. lia. }
  split_and!; [apply levels_NoDup, NoDup_sorted|done|].
  intros l1 n l2 o E Ho d Hdin. destruct (has_depth_inv _ _ _ (Hd n o Ho)) as (s & Hs & _ & Hall & _).
  rewrite (graph_of_lookup m true n o Ho) in Hs. injection Hs as <-. destruct (Hall d Hdin) as (j & Hj & Hlt).
  destruct (has_depth_inv _ _ _ Hj) as (s & Hs & _). unfold graph_of in Hs. destruct (m !! d) as [od|] eqn:Eod; [|done].
  rewrite (has_depth_fun _ _ _ _ Hj (Hd d od Eod)) in Hlt.
  assert (d ∈ init_order m) as Hdo by (apply Hin; by eexists). rewrite E in Hdo. apply elem_of_app in Hdo as [Hdo|Hdo]; [done|exfalso].
  apply elem_of_cons in Hdo as [->|Hdo]; [lia|].
  pose proof (levels_sorted (init_depth m) (keys m) (NoDup_sorted _) 0 (Z.to_nat (max_depth m + 1))) as Hso.
  change (concat _) with (init_order m) in Hso. rewrite E in Hso. apply StronglySorted_app in Hso as (_ & _ & Hso).
  apply StronglySorted_inv in Hso as [_ Hfa]. rewrite Forall_forall in Hfa. specialize (Hfa d Hdo). cbn in Hfa. lia.
Qed.
(** ** [init_depends] *)
Lemma init_pre_fresh ipc e o : init_pre ipc e = Some o → ∀ init, depth (depends init o) = -1.
Proof.
  unfold init_pre. destruct (reader_getT _ _ _ _ _ _) as [r enable]. destruct (reader_getT _ _ r _ _ _) as [r' dis].
  destruct r'; [done|]. destruct dis; [by intros [= <-] []|]. intros H init.
  destruct (cfg_url e) as [u|]; [|done]. cbn [mbind option_bind] in H. case_bool_decide; [done|].
  destruct (add_channels _ _) as [u1|]; [|done]. cbn [mbind option_bind] in H.
  destruct (match cfg e !! _ with Some _ => _ | None => _ end) as [op|]; [|done]. cbn [mbind option_bind] in H.
  destruct (channel_names _ _) as [ch|]; [|done]. cbn [mbind option_bind] in H.
  destruct (match u1 !! _ with Some _ => _ | None => _ end) as [ini|]; [|done]. cbn [mbind option_bind] in H.
  injection H as <-. by destruct init.
Qed.

Lemma read_objects_memo ipc m l m' : memo m → (∀ n o, m !! n = Some o → ∀ init, depth (depends init o) = -1) →
  read_objects ipc m l = Ok m' → memo m'.
Proof.
  revert m. induction l as [|e l IH]; intros m Hm Hf H; cbn in H; [by simplify_eq|].
  destruct (init_pre ipc e) as [o|] eqn:Eo; [|done]. destruct (disabled o); [by eapply IH|].
  pose proof (init_pre_fresh ipc e o Eo) as Hfo. case_bool_decide; [by eapply IH|].
  assert (∀ n o', <[name o := o]> m !! n = Some o' → ∀ init, depth (depends init o') = -1) as Hf'.
  { intros n o' Ho' init. destruct (decide (n = name o)) as [->|Hne].
    - rewrite lookup_insert_eq in Ho'. injection Ho' as <-. apply Hfo.
    - rewrite lookup_insert_ne in Ho' by done. by eapply Hf. }
  eapply IH; [|exact Hf'|exact H]. intros n o' Ho'. split; [|left; by eapply Hf'].
  destruct (decide (n = name o)) as [->|Hne]; [rewrite lookup_insert_eq in Ho'; by injection Ho' as <-|].
  rewrite lookup_insert_ne in Ho' by done. by apply (Hm n o').
Qed.

Lemma check_all_ok {A} (f : A → result init_error ()) l : check_all f l = Ok tt → ∀ x, x ∈ l → f x = Ok tt.
Proof.
  induction l as [|y l IH]; intros H x Hx; [by apply not_elem_of_nil in Hx|]. cbn in H. destruct (f y) as [[]|] eqn:E; [|done].
  apply elem_of_cons in Hx as [->|Hx]; [done|by apply IH].
Qed.

(** The channels of an object exist and run in its worker. *)
Definition channels_ok (m : gmap bytes PreObject) : Prop :=
  ∀ n o c, m !! n = Some o → c ∈ channels o → ∃ oc, m !! c = Some oc ∧ worker oc = worker o.

Lemma check_channels_ok m : check_channels m = Ok tt → channels_ok m.
Proof.
  intros H n o c Ho Hc. pose proof (check_all_ok _ _ H n ltac:(apply elem_of_sorted, elem_of_dom; by eexists)) as Hn.
  cbn beta in Hn. rewrite Ho in Hn. pose proof (check_all_ok _ _ Hn c ltac:(by apply elem_of_sorted)) as Hx.
  unfold check_channel in Hx. destruct (m !! c) as [oc|]; [|done]. case_bool_decide as Hw; [done|]. exists oc. split; [done|].
  exact Hw.
Qed.

Lemma memo_empty : memo ∅.
Proof. by intros n o Ho. Qed.

Lemma init_depends_split ipc l m order : init_depends ipc l = Some (Ok (m, order)) →
  ∃ m0, read_objects ipc ∅ l = Ok m0 ∧ check_channels m0 = Ok tt ∧ memo m ∧ fills m0 m ∧ (∀ k, k ∈ dom m → filled m k) ∧ order = init_order m.
Proof.
  unfold init_depends. destruct (read_objects _ _ _) as [m0|] eqn:Er; [|done]. destruct (check_channels m0) as [[]|] eqn:Ec; [|done].
  assert (memo m0) as Hm0 by (eapply (read_objects_memo ipc ∅); [apply memo_empty|by intros ? ? ?|exact Er]).
  pose proof (fill_depths_spec m0 (keys m0) Hm0 ltac:(intros k; by rewrite <- elem_of_sorted)) as Hs.
  destruct (fill_depths _ _) as [[m'|]|]; [|done..]. intros [= <- <-]. destruct Hs as (H1 & H2 & H3). exists m0. split_and!; try done.
  intros k Hk. apply H3, elem_of_sorted. by rewrite <- (fills_dom _ _ H2).
Qed.

(** The enabled objects of the configuration, in its order, and the first of
    them with a name. *)
Definition enabled (ipc : bytes) (l : list entry) : list PreObject :=
  filter (λ o, disabled o = false) (omap (init_pre ipc) l).

Definition first_named (n : bytes) (os : list PreObject) : option PreObject := head (filter (λ o, name o = n) os).

Lemma first_named_cons n o os : first_named n (o :: os) = if decide (name o = n) then Some o else first_named n os.
Proof. unfold first_named. rewrite filter_cons. by case_decide. Qed.

Lemma first_named_some n os : is_Some (first_named n os) ↔ n ∈ name <$> os.
Proof.
  induction os as [|o os IH]; [split; [by intros []|by intros ?%not_elem_of_nil]|].
  rewrite first_named_cons, fmap_cons, elem_of_cons, <- IH. case_decide as Hn; [|naive_solver congruence].
  split; [by left|by eexists].
Qed.

(** What is read: every entry is valid, and of the enabled objects with the same
    name the first one stays. *)
Lemma read_objects_spec ipc m l m' : read_objects ipc m l = Ok m' →
  Forall (λ e, is_Some (init_pre ipc e)) l ∧
  ∀ n, m' !! n = match m !! n with Some o => Some o | None => first_named n (enabled ipc l) end.
Proof.
  revert m. induction l as [|e l IH]; intros m H; cbn in H.
  { injection H as <-. split; [constructor|]. intros n. by destruct (m !! n). }
  unfold enabled. cbn [omap list_omap]. destruct (init_pre ipc e) as [o|] eqn:Eo; [|done].
  rewrite filter_cons. destruct (disabled o) eqn:Ed.
  { rewrite decide_False by done. destruct (IH _ H) as [H1 H2]. split; [constructor; [by eexists|done]|exact H2]. }
  rewrite decide_True by done. destruct (IH _ H) as [H1 H2]. split; [constructor; [by eexists|done]|].
  intros n. rewrite H2, first_named_cons. case_bool_decide as Hs; case_decide as Hn.
  - subst n. by destruct Hs as [x ->].
  - done.
  - subst n. rewrite lookup_insert_eq. apply eq_None_not_Some in Hs. by rewrite Hs.
  - by rewrite lookup_insert_ne.
Qed.

Lemma init_pre_unfilled ipc e o : init_pre ipc e = Some o → unfilled o = o.
Proof.
  intros H. pose proof (init_pre_fresh _ _ _ H) as Hf. destruct o as [u n w c d [l1 d1] [l2 d2]].
  pose proof (Hf true) as H1. pose proof (Hf false) as H2. cbn in *. by subst.
Qed.

Lemma enabled_unfilled ipc l o : o ∈ enabled ipc l → unfilled o = o.
Proof.
  unfold enabled. rewrite list_elem_of_filter. intros (_ & (e & _ & He)%list_elem_of_omap). by eapply init_pre_unfilled.
Qed.

Lemma first_named_elem n os o : first_named n os = Some o → o ∈ os.
Proof.
  induction os as [|x os IH]; [done|]. rewrite first_named_cons. case_decide; [intros [= ->]; by left|].
  intros H'. right. by apply IH.
Qed.

Lemma fills_objects ipc l m0 m : read_objects ipc ∅ l = Ok m0 → fills m0 m →
  ∀ n, unfilled <$> m !! n = first_named n (enabled ipc l).
Proof.
  intros Hr Hf n. destruct (read_objects_spec _ _ _ _ Hr) as [_ Hm]. specialize (Hm n). rewrite lookup_empty in Hm.
  destruct (m !! n) as [o|] eqn:E.
  - destruct (fills_other _ _ Hf n o E) as (o0 & Ho0 & Eu). rewrite Ho0 in Hm. rewrite <- Hm. change (Some (unfilled o) = Some o0). rewrite Eu. f_equal.
    eapply enabled_unfilled, first_named_elem. by symmetry.
  - cbn. rewrite <- Hm. symmetry. apply not_elem_of_dom. rewrite <- (fills_dom _ _ Hf). by apply not_elem_of_dom.
Qed.

(** C21: the order in which objects are created, against the configuration.
    When the configuration of the objects is accepted, every entry of it was
    valid; the names in the order are those of the enabled objects, each of them
    exactly once; the object that is created for a name is the first enabled one
    of that name, unchanged but for its depths (a second enabled entry with
    the same name is accepted and dropped without a word, see
    [duplicate_dropped], as the map keeps the first one); every object comes
    after all objects that its initialization needs, its channels and its
    master; and the channels that its url names exist and run in the same
    worker. *)
Theorem init_depends_order (ipc : bytes) (l : list entry) (m : gmap bytes PreObject) (order : list bytes) :
  init_depends ipc l = Some (Ok (m, order)) →
  Forall (λ e, is_Some (init_pre ipc e)) l ∧
  (∀ n, n ∈ order ↔ n ∈ name <$> enabled ipc l) ∧
  (∀ n, unfilled <$> m !! n = first_named n (enabled ipc l)) ∧
  order_ok m order ∧ channels_ok m.
Proof.
  intros H. destruct (init_depends_split _ _ _ _ H) as (m0 & Hr & Hc & Hm & Hf & Hfl & ->).
  pose proof (init_order_ok _ Hm Hfl) as Hord. pose proof (fills_objects _ _ _ _ Hr Hf) as Hobj.
  split_and!; [apply (read_objects_spec _ _ _ _ Hr)| |done|done|].
  - intros n. destruct Hord as (_ & -> & _). by rewrite <- first_named_some, <- Hobj, fmap_is_Some.
  - intros n o c Ho Hin. destruct (fills_other _ _ Hf n o Ho) as (o0 & Ho0 & [Ew Ech]%unfilled_same).
    destruct (check_channels_ok _ Hc n o0 c Ho0 ltac:(by rewrite <- Ech)) as (oc & Hoc & Hw).
    assert (is_Some (m !! c)) as [oc' Hoc'] by (apply elem_of_dom; rewrite (fills_dom _ _ Hf); by eapply elem_of_dom_2).
    exists oc'. split; [done|]. destruct (fills_other _ _ Hf c oc' Hoc') as (x & Hx & [Ewc _]%unfilled_same). simplify_eq. congruence.
Qed.

(** Nothing that an object depends on is missing, and nothing depends on itself. *)
Definition well_founded_deps (m : gmap bytes PreObject) : Prop :=
  ∀ init, (∀ a b, edge (graph_of m init) a b → is_Some (m !! b)) ∧ (∀ a, ¬ tc (edge (graph_of m init)) a a).

(** C24: the dependencies are accepted exactly when they make sense.  The search
    for the depths always ends (with the number of objects as the bound of the
    recursion), and once the objects are read and their channels checked it
    succeeds if and only if no dependency of either kind is missing and there
    is no cycle. *)
Theorem init_depends_complete (ipc : bytes) (l : list entry) :
  init_depends ipc l ≠ None ∧
  ∀ m0, read_objects ipc ∅ l = Ok m0 → check_channels m0 = Ok tt →
    ((∃ m order, init_depends ipc l = Some (Ok (m, order))) ↔ well_founded_deps m0).
Proof.
  unfold init_depends. destruct (read_objects _ _ _) as [m1|] eqn:Er; [|done].
  assert (memo m1) as Hm1 by (eapply (read_objects_memo ipc ∅); [apply memo_empty|by intros ? ? ?|exact Er]).
  pose proof (fill_depths_spec m1 (keys m1) Hm1 ltac:(intros k; by rewrite <- elem_of_sorted)) as Hs.
  split; [destruct (check_channels m1); [|done]; by destruct (fill_depths _ _) as [[]|]|].
  intros m0 [= <-] ->. destruct (fill_depths m1 (keys m1)) as [[m'|e]|]; [| |done].
  - destruct Hs as (Hm & Hf & Hfl). split; [intros _|by eauto].
    assert (∀ init n, is_Some (m1 !! n) → ∃ k, has_depth (graph_of m1 init) n k) as Hd.
    { intros init n Hn. assert (n ∈ dom m') as Hn' by (by rewrite (fills_dom _ _ Hf), elem_of_dom).
      apply elem_of_dom in Hn' as [o Ho]. destruct (Hm n o Ho) as [_ Hmo]. destruct (Hmo init) as [E|E].
      - exfalso. apply (Hfl n) with (o := o) (init := init); [|done|done]. apply elem_of_sorted. by rewrite elem_of_dom.
      - eexists. eapply has_depth_ext; [apply (fills_graph _ _ Hf)|exact E]. }
    intros init. assert (∀ a b, edge (graph_of m1 init) a b → is_Some (m1 !! a)) as Hsrc.
    { intros a b (s & Hs & _). unfold graph_of in Hs. by destruct (m1 !! a). }
    split.
    + intros a b Hab. destruct (Hd init a (Hsrc a b Hab)) as [k Hk].
      destruct (depth_no_blame _ _ _ Hk b ltac:(right; by apply tc_once)) as [Hne _]. unfold graph_of in Hne. by destruct (m1 !! b).
    + intros a Ha. assert (∃ b, edge (graph_of m1 init) a b) as [b Hb] by (inversion Ha; eauto).
      destruct (Hd init a (Hsrc a b Hb)) as [k Hk]. by destruct (depth_no_blame _ _ _ Hk a (or_introl eq_refl)) as [_ Hc].
  - split; [by intros (? & ? & ?)|]. intros Hw. exfalso. destruct Hs as (init & Hb). destruct (Hw init) as [H1 H2]. destruct e; try done.
    + destruct Hb as (n & _ & Hc). by apply (H2 n).
    + destruct Hb as [He Hn]. destruct (H1 _ _ He) as [x Hx]. unfold graph_of in Hn. by rewrite Hx in Hn.
Qed.
(** ** The graph *)
Definition good (rank : nat → nat) (g : list (list nat * list nat)) : Prop :=
  ∀ i x, g !! i = Some x →
    (∀ d, d ∈ x.1 → (rank d < rank i)%nat ∧ ∃ y, g !! d = Some y ∧ i ∈ y.2) ∧ (∀ r, r ∈ x.2 → ∃ y, g !! r = Some y ∧ i ∈ y.1).

Lemma lookup_push (g : list (list nat * list nat)) i d j y : i ≠ d →
  alter (push_rdepend i) d (alter (push_depend d) i g) !! j = Some y →
  ∃ x, g !! j = Some x ∧ y = (if decide (j = i) then push_depend d x else if decide (j = d) then push_rdepend i x else x).
Proof.
  intros Hne H. destruct (decide (j = i)) as [->|Hji].
  - rewrite list_lookup_alter_ne, list_lookup_alter_eq in H by done. destruct (g !! i) as [x|]; [|done]. exists x. by injection H.
  - destruct (decide (j = d)) as [->|Hjd].
    + rewrite list_lookup_alter_eq, list_lookup_alter_ne in H by done. destruct (g !! d) as [x|]; [|done]. exists x. by injection H.
    + rewrite !list_lookup_alter_ne in H by done. by exists y.
Qed.

Lemma push_lookup (g : list (list nat * list nat)) i d j x : i ≠ d → g !! j = Some x →
  alter (push_rdepend i) d (alter (push_depend d) i g) !! j =
    Some (if decide (j = i) then push_depend d x else if decide (j = d) then push_rdepend i x else x).
Proof.
  intros Hne H. destruct (decide (j = i)) as [->|Hji]; [by rewrite list_lookup_alter_ne, list_lookup_alter_eq, H by done|].
  destruct (decide (j = d)) as [->|Hjd]; [by rewrite list_lookup_alter_eq, list_lookup_alter_ne, H by done|].
  by rewrite !list_lookup_alter_ne by done.
Qed.

Lemma good_push rank g i d : good rank g → (i < length g)%nat → (d < length g)%nat → (rank d < rank i)%nat →
  good rank (alter (push_rdepend i) d (alter (push_depend d) i g)).
Proof.
  intros Hg Hi Hd Hr. assert (i ≠ d) as Hne by (intros ->; lia).
  assert (∀ j x, g !! j = Some x → ∃ y, alter (push_rdepend i) d (alter (push_depend d) i g) !! j = Some y ∧
    (∀ k, k ∈ x.1 → k ∈ y.1) ∧ (∀ k, k ∈ x.2 → k ∈ y.2)) as Hup.
  { intros j x Hj. rewrite (push_lookup g i d j x Hne Hj). eexists. split; [done|].
    repeat case_decide; cbn; split; intros; try done; apply elem_of_app; by left. }
  destruct (lookup_lt_is_Some_2 g i Hi) as [xi Hxi]. destruct (lookup_lt_is_Some_2 g d Hd) as [xd Hxd].
  pose proof (push_lookup g i d i xi Hne Hxi) as Pi. pose proof (push_lookup g i d d xd Hne Hxd) as Pd.
  rewrite decide_True in Pi by done. rewrite (decide_False (P := d = i)), decide_True in Pd by done.
  intros j y Hy. destruct (lookup_push g i d j y Hne Hy) as (x & Hx & ->). destruct (Hg j x Hx) as [H1 H2].
  assert (∀ k, k ∈ x.1 → (rank k < rank j)%nat ∧ ∃ y, alter (push_rdepend i) d (alter (push_depend d) i g) !! k = Some y ∧ j ∈ y.2) as H1'.
  { intros k Hk. destruct (H1 k Hk) as [Hlt (z & Hz & Hin)]. split; [done|]. destruct (Hup k z Hz) as (y & Hy' & _ & Hsub). eauto. }
  assert (∀ k, k ∈ x.2 → ∃ y, alter (push_rdepend i) d (alter (push_depend d) i g) !! k = Some y ∧ j ∈ y.1) as H2'.
  { intros k Hk. destruct (H2 k Hk) as (z & Hz & Hin). destruct (Hup k z Hz) as (y & Hy' & Hsub & _). eauto. }
  destruct (decide (j = i)) as [->|Hji]; [|destruct (decide (j = d)) as [->|Hjd]]; cbn; split; try done.
  - intros k [Hk| ->%list_elem_of_singleton]%elem_of_app; [by apply H1'|]. split; [done|]. eexists. split; [exact Pd|].
    apply elem_of_app. right. set_solver.
  - intros k [Hk| ->%list_elem_of_singleton]%elem_of_app; [by apply H2'|]. eexists. split; [exact Pi|].
    apply elem_of_app. right. set_solver.
Qed.

Lemma find_name_lookup n l i : find_name n l = Some i → ∃ o, l !! i = Some o ∧ oname o = n.
Proof.
  revert i. induction l as [|o l IH]; intros i H; [done|]. cbn in H. case_bool_decide as Ho; [injection H as <-; by exists o|].
  destruct (find_name n l) as [j|]; [|done]. injection H as <-. by apply IH.
Qed.

Lemma find_name_app n l l' i : find_name n l = Some i → find_name n (l ++ l') = Some i.
Proof.
  revert i. induction l as [|o l IH]; intros i H; [done|]. cbn in *. case_bool_decide; [done|].
  destruct (find_name n l) as [j|]; [|done]. by rewrite (IH j eq_refl).
Qed.

Lemma find_name_elem n l : n ∈ oname <$> l → is_Some (find_name n l).
Proof.
  induction l as [|o l IH]; cbn; [by intros ?%not_elem_of_nil|]. intros [->|H]%elem_of_cons; [by rewrite bool_decide_true|].
  case_bool_decide; [done|]. destruct (IH H) as [j ->]. done.
Qed.

Lemma link_one_good rank l o i deps ns g g' : good rank g → length g = length l → (i < length l)%nat →
  (∀ n d, n ∈ ns → find_name n l = Some d → (rank d < rank i)%nat) → link_one l o i deps ns g = Ok g' → good rank g' ∧ length g' = length l.
Proof.
  intros Hg Hl Hi. revert deps g Hg Hl. induction ns as [|n ns IH]; intros deps g Hg Hl Hr H; cbn in H; [by simplify_eq|].
  destruct (find_name n l) as [d|] eqn:Ef; [|done]. case_bool_decide; [done|]. case_bool_decide; [done|].
  destruct (find_name_lookup _ _ _ Ef) as (od & Hod & _). eapply IH; [| |set_solver|exact H].
  - apply good_push; [done|lia|rewrite Hl; by eapply lookup_lt_Some|]. apply (Hr n); [set_solver|done].
  - by rewrite !length_alter.
Qed.

Lemma link_all_good rank l i os g g' : good rank g → length g = length l → os = drop i l →
  (∀ j o n d, l !! j = Some o → n ∈ depends_names o → find_name n l = Some d → (rank d < rank j)%nat) →
  link_all l i os g = Ok g' → good rank g' ∧ length g' = length l.
Proof.
  intros Hg Hl Hos Hr. revert i g Hg Hl Hos. induction os as [|o os IH]; intros i g Hg Hl Hos H; cbn in H; [by simplify_eq|].
  assert (l !! i = Some o) as Ho. { rewrite <- (Nat.add_0_r i), <- lookup_drop, <- Hos. done. }
  destruct (link_one _ _ _ _ _ _) as [g1|] eqn:E; [|done]. cbn in H.
  destruct (link_one_good rank l o i [] (depends_names o) g g1 Hg Hl) as [Hg1 Hl1]; [by eapply lookup_lt_Some|by eauto|done|].
  eapply (IH (S i)); [done|done| |exact H]. rewrite <- Nat.add_1_r, <- drop_drop, <- Hos. done.
Qed.

(** A graph with ranks and lists that agree is one on which the processor works. *)
Lemma good_ordered rank g : good rank g → ∃ h N, ordered h N g.
Proof.
  intros Hg. set (M := foldr (λ i r, Nat.max (rank i) r) 0%nat (seq 0 (length g))).
  assert (∀ i, (i < length g)%nat → (rank i ≤ M)%nat) as HM.
  { intros i Hi. assert (i ∈ seq 0 (length g)) as Hin by (apply elem_of_seq; lia). revert Hin. unfold M.
    induction (seq _ _) as [|j l IH]; [by intros ?%not_elem_of_nil|]. cbn. intros [->|Hx]%elem_of_cons; [lia|]. specialize (IH Hx). lia. }
  exists (λ i, M - rank i)%nat, (S M). intros i ds rs Hi. destruct (Hg i _ Hi) as [H1 H2]. cbn in *.
  pose proof (HM i (lookup_lt_Some _ _ _ Hi)). split_and!; [lia| |].
  - intros d Hd. destruct (H1 d Hd) as [Hlt (y & Hy & _)]. apply lookup_lt_Some in Hy. split; [done|]. pose proof (HM d Hy). lia.
  - intros r Hr. destruct (H2 r Hr) as (y & Hy & Hin). destruct (Hg r y Hy) as [H3 _]. destruct (H3 i Hin) as [Hlt _].
    apply lookup_lt_Some in Hy. split; [done|]. pose proof (HM r Hy). lia.
Qed.

Lemma good_linked rank g os : good rank g → graph os = g → linked os.
Proof.
  intros Hg <- i o Ho. assert (∀ j x, graph os !! j = Some x → ∃ oj, os !! j = Some oj ∧ x = (Processor.depends oj, Processor.rdepends oj)) as Hx.
  { intros j x Hj. unfold graph in Hj. rewrite list_lookup_fmap in Hj. destruct (os !! j) as [oj|]; [|done]. exists oj. by injection Hj. }
  destruct (Hg i _ (graph_lookup os i o Ho)) as [H1 H2]. cbn in *. split.
  - intros d Hd. destruct (H1 d Hd) as [_ (y & Hy & Hin)]. destruct (Hx d y Hy) as (od & Hod & ->). by exists od.
  - intros r Hr. destruct (H2 r Hr) as (y & Hy & Hin). destruct (Hx r y Hy) as (od & Hod & ->). by exists od.
Qed.
(** ** Stages *)
Definition within (l : list named) (e : named) : Prop := ∀ n, n ∈ depends_names e → n ∈ oname <$> l.

Lemma find_name_In n l i : find_name n l = Some i → n ∈ oname <$> l.
Proof.
  intros H. destruct (find_name_lookup _ _ _ H) as (o & Ho & <-). apply list_elem_of_fmap. exists o. split; [done|].
  by eapply list_elem_of_lookup_2.
Qed.

Lemma stage_objects_in l r vs s : stage_objects l r vs = Ok s → (∀ n, n ∈ r → n ∈ oname <$> l) → ∀ n, n ∈ s → n ∈ oname <$> l.
Proof.
  revert r. induction vs as [|v vs IH]; intros r H Hr; cbn in H; [by simplify_eq|].
  destruct v as [[|c v]|]; [done| |done]. destruct (find_name (c :: v) l) as [i|] eqn:E; [|done].
  eapply IH; [exact H|]. intros n [Hn|Hn]%elem_of_union; [|by apply Hr]. apply elem_of_singleton in Hn as ->. by eapply find_name_In.
Qed.

Lemma read_stages_in l ss r : read_stages l ss = Ok r → ∀ x, x ∈ r → ∀ n, n ∈ x.2 → n ∈ oname <$> l.
Proof.
  revert r. induction ss as [|[n vs] ss IH]; intros r H x Hx; cbn in H; [simplify_eq; by apply not_elem_of_nil in Hx|].
  destruct (stage_objects l ∅ vs) as [s|] eqn:Es; [|done]. cbn in H. destruct (read_stages l ss) as [r'|] eqn:Er; [|done]. cbn in H.
  injection H as <-. apply elem_of_cons in Hx as [->|Hx]; [|by eapply IH]. intros k Hk. by eapply stage_objects_in; [exact Es|set_solver|].
Qed.

Lemma leaves_in l n : n ∈ leaves l → n ∈ oname <$> l.
Proof.
  unfold leaves. assert (∀ k (s : gset bytes), n ∈ foldl (λ s o, s ∖ list_to_set (depends_names o)) s k → n ∈ s) as Hf.
  { induction k as [|o k IH]; intros s Hn; [done|]. cbn in Hn. apply IH in Hn. set_solver. }
  intros Hn%Hf. by apply elem_of_list_to_set in Hn.
Qed.

Lemma add_stages_app f l0 l ss l' : add_stages f l ss = Ok l' → (∀ x, x ∈ ss → ∀ n, n ∈ x.2 → n ∈ oname <$> l0) →
  ∃ extra, l' = l ++ extra ∧ Forall (within l0) extra.
Proof.
  revert l. induction ss as [|[n s] ss IH]; intros l H Hs; cbn in H; [simplify_eq; exists []; by rewrite app_nil_r|].
  case_bool_decide; [done|]. destruct (IH _ H) as (extra & -> & Hf). { intros x Hx. apply Hs. set_solver. }
  exists (Named (f n) (sorted s) :: extra). rewrite <- app_assoc. split; [done|]. constructor; [|done].
  intros k Hk. apply (Hs (n, s)); [set_solver|]. by apply elem_of_sorted.
Qed.

Lemma init_stages_app f l ss l' : init_stages f l ss = Ok l' → ∃ extra, l' = l ++ extra ∧ Forall (within l) extra.
Proof.
  unfold init_stages. destruct (read_stages l ss) as [r|] eqn:Er; [|done]. cbn. intros H. eapply add_stages_app; [exact H|].
  pose proof (read_stages_in _ _ _ Er) as Hr. destruct r as [|x r]; [|done].
  intros y ->%list_elem_of_singleton n Hn. by apply leaves_in.
Qed.

(** The rank of an object is its depth by the dependencies for opening, and
    stages come behind all objects. *)
Definition open_depth (m : gmap bytes PreObject) (n : bytes) : nat :=
  match m !! n with Some o => Z.to_nat (depth (depends_open o)) | None => 0 end.

Definition index_rank (m : gmap bytes PreObject) (order : list bytes) (i : nat) : nat :=
  match order !! i with Some n => open_depth m n | None => S (max_list (open_depth m <$> order)) end.

Lemma created_names m order : oname <$> created m order = order.
Proof. unfold created. rewrite <- list_fmap_compose. by apply list_fmap_id. Qed.

Lemma find_created m order extra n d : find_name n (created m order ++ extra) = Some d → n ∈ order → order !! d = Some n.
Proof.
  intros H Hn. rewrite <- (created_names m order) in Hn. destruct (find_name_elem _ _ Hn) as [i Hi].
  rewrite (find_name_app _ _ extra _ Hi) in H. injection H as <-. destruct (find_name_lookup _ _ _ Hi) as (o & Ho & <-).
  rewrite <- (created_names m order). rewrite list_lookup_fmap, Ho. done.
Qed.

Lemma index_rank_edges m order extra : memo m → (∀ k, k ∈ dom m → filled m k) → order_ok m order → Forall (within (created m order)) extra →
  ∀ j o n d, (created m order ++ extra) !! j = Some o → n ∈ depends_names o → find_name n (created m order ++ extra) = Some d →
    (index_rank m order d < index_rank m order j)%nat.
Proof.
  intros Hm Hfl (_ & Hin & _) Hex j o n d Hj Hn Hf. apply lookup_app_Some in Hj as [Hj|[Hlen Hj]].
  - unfold created in Hj. rewrite list_lookup_fmap in Hj. destruct (order !! j) as [nj|] eqn:Enj; [|done]. injection Hj as <-. cbn in Hn.
    destruct (m !! nj) as [oj|] eqn:Eoj; [|by apply not_elem_of_nil in Hn]. apply elem_of_sorted in Hn.
    assert (∀ x ox, m !! x = Some ox → has_depth (graph_of m false) x (depth (depends_open ox))) as Hd.
    { intros x ox Hx. destruct (Hm x ox Hx) as [_ Hmo]. destruct (Hmo false) as [E|E]; [|done].
      exfalso. by eapply (Hfl x (elem_of_dom_2 _ _ _ Hx) ox Hx false). }
    destruct (has_depth_inv _ _ _ (Hd nj oj Eoj)) as (s & Hs & _ & Hall & _).
    rewrite (graph_of_lookup m false nj oj Eoj) in Hs. injection Hs as <-. destruct (Hall n Hn) as (k & Hk & Hlt).
    destruct (has_depth_inv _ _ _ Hk) as (s & Hs & Hk0 & _). unfold graph_of in Hs. destruct (m !! n) as [on|] eqn:Eon; [|done].
    rewrite (has_depth_fun _ _ _ _ Hk (Hd n on Eon)) in *. assert (n ∈ order) as Hno by (apply Hin; by eexists).
    unfold index_rank, open_depth. rewrite (find_created _ _ _ _ _ Hf Hno), Enj, Eon, Eoj. lia.
  - rewrite Forall_forall in Hex. pose proof (Hex o ltac:(by eapply list_elem_of_lookup_2) n Hn) as Hno. rewrite created_names in Hno.
    assert (order !! j = None) as Ej. { apply lookup_ge_None. rewrite <- (created_names m order), length_fmap. done. }
    unfold index_rank. rewrite (find_created _ _ _ _ _ Hf Hno), Ej. apply Nat.lt_succ_r, max_list_elem_of_le, list_elem_of_fmap. by exists n.
Qed.

(** A graph on which the processor works: its ranks are ordered, and any
    objects with these lists are linked. *)
Definition well_built (g : list (list nat * list nat)) : Prop :=
  (∃ h N, ordered h N g) ∧ ∀ os, graph os = g → linked os.

(** C20: the graph.  Whatever the configuration, if the processor is built from
    it then the lists of dependencies and dependants of its objects (stages
    included) agree, lead nowhere else and have no cycles; so the order of
    opening and closing, the progress of a shutdown and the termination of its
    handlers hold for it. *)
Theorem init_graph_ok (ipc : bytes) (f : bytes → bytes) (l : list entry) (ss : list (bytes * list (option bytes)))
    (g : list (list nat * list nat)) :
  init_graph ipc f l ss = Some (Ok g) → well_built g.
Proof.
  intros H. unfold init_graph in H. destruct (init_depends ipc l) as [[[m order]|]|] eqn:Ed; [|done..].
  destruct (init_stages _ _ _) as [os|] eqn:Es; [|done]. cbn in H. injection H as H.
  destruct (init_depends_split _ _ _ _ Ed) as (m0 & _ & _ & Hm & _ & Hfl & ->).
  destruct (init_stages_app _ _ _ _ Es) as (extra & -> & Hex).
  pose proof (index_rank_edges m _ extra Hm Hfl (init_order_ok m Hm Hfl) Hex) as Hrank. unfold build_rdepends in H.
  assert (good (index_rank m (init_order m)) (replicate (length (created m (init_order m) ++ extra)) ([], []))) as Hg0.
  { intros i x [-> _]%lookup_replicate. cbn. split; by intros ? ?%not_elem_of_nil. }
  destruct (link_all_good _ _ 0 _ _ g Hg0 (length_replicate _ _) eq_refl Hrank H) as [Hg _].
  split; [by eapply good_ordered|]. intros os. by eapply good_linked.
Qed.
(** ** An example: three objects *)
Definition sample_entry (n dep : bytes) (chans : list (bytes * bytes)) (u : list (bytes * bytes)) : entry :=
  Entry n (if bool_decide (dep = []) then ∅ else {[str "depends" := dep]}) chans (Some (list_to_map u)).

Definition sample : list entry :=
  [sample_entry (str "feed") (str "log, disk") [(str "input", str "disk")] [(str "tll.proto", str "direct")];
   sample_entry (str "log") [] [] [(str "tll.proto", str "file"); (str "master", str "disk")];
   sample_entry (str "disk") [] [] [(str "tll.proto", str "file")]].

Definition sample_ipc : bytes := str "processor/ipc".
Definition sample_stage (n : bytes) : bytes := str "processor/stage/" ++ n.

Definition sample_result : gmap bytes PreObject * list bytes :=
  match init_depends sample_ipc sample with Some (Ok r) => r | _ => (∅, []) end.

Lemma sample_accepted : init_depends sample_ipc sample = Some (Ok (fst sample_result, snd sample_result)).
Proof. vm_compute. reflexivity. Qed.

Lemma init_depends_order_witness : snd sample_result = [str "disk"; str "feed"; str "log"] ∧
  Forall (λ e, is_Some (init_pre sample_ipc e)) sample ∧
  (∀ n, n ∈ snd sample_result ↔ n ∈ name <$> enabled sample_ipc sample) ∧
  (∀ n, unfilled <$> fst sample_result !! n = first_named n (enabled sample_ipc sample)) ∧
  order_ok (fst sample_result) (snd sample_result) ∧ channels_ok (fst sample_result).
Proof. split; [vm_compute; reflexivity|]. apply (init_depends_order sample_ipc sample). apply sample_accepted. Defined.

Definition sample_read : gmap bytes PreObject := match read_objects sample_ipc ∅ sample with Ok m => m | Err _ => ∅ end.

Lemma init_depends_complete_witness : read_objects sample_ipc ∅ sample = Ok sample_read ∧
  ((∃ m order, init_depends sample_ipc sample = Some (Ok (m, order))) ↔ well_founded_deps sample_read).
Proof.
  split; [vm_compute; reflexivity|]. apply (init_depends_complete sample_ipc sample); vm_compute; reflexivity.
Defined.

(** Objects disk, feed and log, and the default stage, which waits for feed. *)
Definition sample_graph : list (list nat * list nat) := [([], [1%nat]); ([0%nat; 2%nat], [3%nat]); ([], [1%nat]); ([1%nat], [])].

Lemma init_graph_ok_witness : init_graph sample_ipc sample_stage sample [] = Some (Ok sample_graph) ∧
  well_built sample_graph.
Proof. split; [vm_compute; reflexivity|]. apply (init_graph_ok sample_ipc sample_stage sample []). vm_compute. reflexivity. Defined.

(** An object with an empty "depends" is refused. *)
Lemma empty_depends_fails :
  init_pre sample_ipc (Entry (str "disk") {[str "depends" := []]} [] (Some {[str "tll.proto" := str "file"]})) = None.
Proof. vm_compute. reflexivity. Qed.

(** Two enabled objects with the name disk: the configuration is accepted and
    the second one is not created. *)
Lemma duplicate_dropped :
  let e p := Entry (str "a") {[str "name" := str "disk"]} [] (Some {[str "tll.proto" := str p]}) in
  option_map (λ r, match r with Ok (m, order) => ((λ o, url o !! str "tll.proto") <$> m !! str "disk", order) | Err _ => (None, []) end)
    (init_depends sample_ipc [e "file"; e "tcp"]) = Some (Some (Some (str "file")), [str "disk"]).
Proof. vm_compute. reflexivity. Qed.
End DepsSpec.
