(* ===== verification/Binder.v ===== *)
(** * Binders of messages

    Access to fields of a message through a view of its buffer
    (src/tll/scheme/binder.h, src/tll/util/memoryview.h): scalars, and the pointer of a list or of
    a string, which keeps offset, number of elements and size of an element
    (src/tll/scheme/types.h).  The buffer is a list of bytes that grows; a
    view is a position in it.  [None] is an access outside of the buffer. *)
From S2P Require Import Prelude Mem.

Module Binder.

Definition zeros (n : Z) : list Z := replicate (Z.to_nat n) 0.

(** [std::vector::resize] *)
Definition buf_resize (buf : list Z) (n : Z) : list Z := take (Z.to_nat n) buf ++ zeros (n - zlen buf).

(** [memoryview::size] of the view at [p]. *)
Definition view_size (buf : list Z) (p : Z) : Z := Z.max (zlen buf - p) 0.

(** [memoryview::resize] of the view at [p]. *)
Definition view_resize (buf : list Z) (p n : Z) : list Z := buf_resize buf (n + p).

(** [_get_scalar] and [_set_scalar] for an unsigned type of [n] bytes. *)
Definition _get_scalar (n : nat) (buf : list Z) (off : Z) : option Z :=
  let! bs := mem_load buf off (Z.of_nat n) in Some (le_value bs).
Definition _set_scalar (n : nat) (buf : list Z) (off v : Z) : option (list Z) :=
  mem_store buf off (le_bytes n v).

(** [tll_scheme_offset_ptr_t] *)
Record offset_ptr := OffsetPtr { p_offset : Z; p_size : Z; p_entity : Z }.

Definition load_ptr (buf : list Z) (p : Z) : option offset_ptr :=
  let! o := _get_scalar 4 buf p in
  let! s := _get_scalar 3 buf (p + 4) in
  let! e := _get_scalar 1 buf (p + 7) in
  Some (OffsetPtr o s e).

Definition set_size (buf : list Z) (p v : Z) : option (list Z) := _set_scalar 3 buf (p + 4) v.
Definition set_offset (buf : list Z) (p v : Z) : option (list Z) := _set_scalar 4 buf p v.
Definition set_entity (buf : list Z) (p v : Z) : option (list Z) := _set_scalar 1 buf (p + 7) v.

(** [offset_ptr_t::entity_size] and [data_offset] of the pointer at [p]. *)
Definition entity_size (buf : list Z) (p : Z) : option Z :=
  let! q := load_ptr buf p in
  if negb (p_offset q =? 0) && (p_entity q =? 0xff)
  then _get_scalar 4 buf (p + p_offset q) else Some (p_entity q).

Definition data_offset (buf : list Z) (p : Z) : option Z :=
  let! q := load_ptr buf p in
  if p_offset q =? 0 then Some 0 else
  let! e := entity_size buf p in
  Some (if 0xff <=? e then p_offset q + 4 else p_offset q).

(** [List::resize] of the list at [p] with elements of [entity] bytes. *)
Definition list_resize (entity : Z) (buf : list Z) (p size : Z) : option (list Z) :=
  let entity_header := 0xff <=? entity in
  let! q := load_ptr buf p in
  let data_end := p_offset q + entity * p_size q + (if entity_header then 4 else 0) in
  let buf_end := view_size buf p in
  if size <=? p_size q then
    let! buf := set_size buf p size in
    if buf_end =? data_end
    then let! o := data_offset buf p in Some (view_resize buf (p + o) (entity * size))
    else Some buf
  else if negb (p_size q =? 0) && (buf_end =? data_end) then
    let! o := data_offset buf p in
    set_size (view_resize buf (p + o) (entity * size)) p size
  else if entity_header then
    let buf := view_resize buf p (buf_end + 4 + entity * size) in
    let! buf := set_size buf p size in
    let! buf := set_offset buf p buf_end in
    let! buf := set_entity buf p 0xff in
    _set_scalar 4 buf (p + u32 buf_end) entity
  else
    let buf := view_resize buf p (buf_end + entity * size) in
    let! buf := set_size buf p size in
    let! buf := set_offset buf p buf_end in
    set_entity buf p entity.

(** [String::size]: without the terminating zero. *)
Definition string_size (buf : list Z) (p : Z) : option Z :=
  let! q := load_ptr buf p in Some (Z.max (p_size q) 1 - 1).

(** [String::copy], [_set_string] *)
Definition _set_string (buf : list Z) (p : Z) (v : list Z) : option (list Z) :=
  let! buf := list_resize 1 buf p (zlen v + 1) in
  let! o := data_offset buf p in
  let! buf := mem_store buf (p + o) v in
  let! n := string_size buf p in
  mem_store buf (p + o + n) [0].

(** [scheme::String::operator std::string_view], [_get_string] *)
Definition _get_string (buf : list Z) (p : Z) : option (list Z) :=
  let! q := load_ptr buf p in
  if p_size q =? 0 then Some [] else
  let! o := data_offset buf p in
  mem_load buf (p + o) (p_size q - 1).

(** ** Scalars *)
Lemma zlen_zeros n : zlen (zeros n) = Z.max n 0.
Proof. unfold zeros, zlen. rewrite length_replicate. lia. Qed.

Lemma set_scalar_total n buf off v :
  0 ≤ off → off + Z.of_nat n ≤ zlen buf → ∃ buf', _set_scalar n buf off v = Some buf'.
Proof. intros. apply mem_store_total; rewrite ?zlen_le_bytes; lia. Qed.

Lemma set_scalar_zlen n buf off v buf' : _set_scalar n buf off v = Some buf' → zlen buf' = zlen buf.
Proof. apply mem_store_zlen. Qed.

Lemma get_set_same n buf off v buf' :
  _set_scalar n buf off v = Some buf' → _get_scalar n buf' off = Some (v mod 256 ^ Z.of_nat n).
Proof.
  intros H. apply mem_load_store_same in H. rewrite zlen_le_bytes in H.
  unfold _get_scalar. rewrite H. cbn [mbind option_bind]. by rewrite le_value_bytes.
Qed.

Lemma get_set_disj n n' buf off off' v buf' :
  _set_scalar n buf off v = Some buf' →
  off' + Z.of_nat n' ≤ off ∨ off + Z.of_nat n ≤ off' →
  _get_scalar n' buf' off' = _get_scalar n' buf off'.
Proof.
  intros H Hd. unfold _get_scalar.
  by rewrite (mem_load_store_disj _ _ _ _ _ _ H) by (rewrite zlen_le_bytes; lia).
Qed.

Lemma set_scalar_lookup n buf off v buf' (i : nat) :
  _set_scalar n buf off v = Some buf' →
  Z.of_nat i < off ∨ off + Z.of_nat n ≤ Z.of_nat i → buf' !! i = buf !! i.
Proof.
  intros H Hd. rewrite (mem_store_lookup _ _ _ _ i H), zlen_le_bytes.
  destruct (Z.leb_spec off (Z.of_nat i)), (Z.ltb_spec (Z.of_nat i) (off + Z.of_nat n)); cbn; try done; lia.
Qed.

Lemma get_scalar_total n buf off :
  0 ≤ off → off + Z.of_nat n ≤ zlen buf → ∃ v, _get_scalar n buf off = Some v.
Proof.
  intros. unfold _get_scalar. destruct (mem_load_total buf off (Z.of_nat n)) as [l ->]; [lia..|].
  cbn. eauto.
Qed.

(** ** Pointers *)
Lemma load_ptr_total buf p : 0 ≤ p → p + 8 ≤ zlen buf → ∃ q, load_ptr buf p = Some q.
Proof.
  intros. unfold load_ptr.
  destruct (get_scalar_total 4 buf p) as [? ->]; [lia..|].
  destruct (get_scalar_total 3 buf (p + 4)) as [? ->]; [lia..|].
  destruct (get_scalar_total 1 buf (p + 7)) as [? ->]; [lia..|]. cbn. eauto.
Qed.

Lemma load_ptr_ext buf buf' p :
  zlen buf = zlen buf' → (∀ i : nat, p ≤ Z.of_nat i < p + 8 → buf !! i = buf' !! i) →
  load_ptr buf p = load_ptr buf' p.
Proof.
  intros Hl Hi. unfold load_ptr, _get_scalar.
  by rewrite !(mem_load_ext buf buf') by (try done; intros; apply Hi; lia).
Qed.

Lemma load_ptr_prefix buf buf' p :
  0 ≤ p → p + 8 ≤ zlen buf → zlen buf ≤ zlen buf' → (∀ i : nat, Z.of_nat i < zlen buf → buf' !! i = buf !! i) →
  load_ptr buf' p = load_ptr buf p.
Proof.
  intros Hp Hb Hl Hi. assert (∀ n off, p ≤ off → off + Z.of_nat n ≤ p + 8 → _get_scalar n buf' off = _get_scalar n buf off) as E.
  { intros n off Ho Hn. unfold _get_scalar. destruct (mem_load_total buf off (Z.of_nat n)) as [l Hll]; [lia..|].
    destruct (mem_load_total buf' off (Z.of_nat n)) as [l' Hl']; [lia..|]. rewrite Hll, Hl'. do 3 f_equal.
    pose proof (mem_load_length _ _ _ _ Hll). pose proof (mem_load_length _ _ _ _ Hl'). unfold zlen in *.
    apply list_eq. intros i. destruct (decide (Z.of_nat i < Z.of_nat n)) as [Hin|Hin].
    - rewrite (mem_load_lookup _ _ _ _ i Hll), (mem_load_lookup _ _ _ _ i Hl') by lia. apply Hi. lia.
    - rewrite !lookup_ge_None_2 by lia. done. }
  unfold load_ptr. by rewrite !E by lia.
Qed.

Lemma load_ptr_set_size buf p v buf' q :
  set_size buf p v = Some buf' → load_ptr buf p = Some q →
  load_ptr buf' p = Some (OffsetPtr (p_offset q) (v mod 2 ^ 24) (p_entity q)).
Proof.
  intros H Hq. unfold load_ptr in *. unfold set_size in H.
  rewrite (get_set_same _ _ _ _ _ H), (get_set_disj _ 4 _ _ p _ _ H), (get_set_disj _ 1 _ _ (p + 7) _ _ H) by lia.
  destruct (_get_scalar 4 buf p); [|done]. destruct (_get_scalar 3 buf _); [|done].
  destruct (_get_scalar 1 buf _); [|done]. cbn in *. by simplify_eq.
Qed.

Lemma load_ptr_set_offset buf p v buf' q :
  set_offset buf p v = Some buf' → load_ptr buf p = Some q →
  load_ptr buf' p = Some (OffsetPtr (u32 v) (p_size q) (p_entity q)).
Proof.
  intros H Hq. unfold load_ptr in *. unfold set_offset in H.
  rewrite (get_set_same _ _ _ _ _ H), (get_set_disj _ 3 _ _ (p + 4) _ _ H), (get_set_disj _ 1 _ _ (p + 7) _ _ H) by lia.
  destruct (_get_scalar 4 buf p); [|done]. destruct (_get_scalar 3 buf _); [|done].
  destruct (_get_scalar 1 buf _); [|done]. cbn in *. by simplify_eq.
Qed.

Lemma load_ptr_set_entity buf p v buf' q :
  set_entity buf p v = Some buf' → load_ptr buf p = Some q →
  load_ptr buf' p = Some (OffsetPtr (p_offset q) (p_size q) (v mod 2 ^ 8)).
Proof.
  intros H Hq. unfold load_ptr in *. unfold set_entity in H.
  rewrite (get_set_same _ _ _ _ _ H), (get_set_disj _ 4 _ _ p _ _ H), (get_set_disj _ 3 _ _ (p + 4) _ _ H) by lia.
  destruct (_get_scalar 4 buf p); [|done]. destruct (_get_scalar 3 buf _); [|done].
  destruct (_get_scalar 1 buf _); [|done]. cbn in *. by simplify_eq.
Qed.

(** ** Strings *)
Lemma zlen_buf_resize buf n : 0 ≤ n → zlen (buf_resize buf n) = n.
Proof.
  intros. unfold buf_resize. rewrite zlen_app, zlen_zeros. unfold zlen. rewrite length_take. lia.
Qed.

Lemma buf_resize_lookup buf n (i : nat) :
  Z.of_nat i < n → Z.of_nat i < zlen buf → buf_resize buf n !! i = buf !! i.
Proof.
  intros H1 H2. unfold buf_resize, zlen in *. rewrite lookup_app_l by (rewrite length_take; lia).
  by rewrite lookup_take_lt by lia.
Qed.

(** The pointer at [p] is one of a string: elements of one byte that lie in
    the buffer behind the pointer. *)
Definition string_ptr (buf : list Z) (p : Z) : Prop :=
  0 ≤ p ∧ p + 8 ≤ zlen buf ∧ ∃ q, load_ptr buf p = Some q ∧
  (p_size q = 0 ∨ (0 < p_size q ∧ p_entity q = 1 ∧ 8 ≤ p_offset q ∧ p + p_offset q + p_size q ≤ zlen buf)).

(** Positions that belong to the string at [p]: its pointer and its bytes. *)
Definition owns (buf : list Z) (p i : Z) : Prop :=
  p ≤ i < p + 8 ∨ ∃ q, load_ptr buf p = Some q ∧ p + p_offset q ≤ i < p + p_offset q + p_size q.

Lemma data_offset_one buf p q :
  load_ptr buf p = Some q → p_entity q = 1 → data_offset buf p = Some (p_offset q).
Proof.
  intros Hq He. unfold data_offset, entity_size. rewrite Hq. cbn [mbind option_bind].
  rewrite He. destruct (Z.eqb_spec (p_offset q) 0) as [->|]; [done|]. cbn. done.
Qed.

(** What [list_resize] leaves for a string of [n] bytes. *)
Definition resized (buf : list Z) (p n : Z) (buf' : list Z) : Prop :=
  p + 8 ≤ zlen buf' ∧
  (∃ q', load_ptr buf' p = Some q' ∧ p_size q' = n ∧ p_entity q' = 1 ∧ 8 ≤ p_offset q' ∧
     p + p_offset q' + n ≤ zlen buf' ∧
     (∀ i, p + p_offset q' ≤ i < p + p_offset q' + n → i < zlen buf → owns buf p i)) ∧
  (∀ i : nat, Z.of_nat i < zlen buf → ¬ owns buf p (Z.of_nat i) → buf' !! i = buf !! i).

Lemma resize_keep buf p n q buf1 :
  load_ptr buf p = Some q → p_entity q = 1 → 8 ≤ p_offset q → p + p_offset q + p_size q ≤ zlen buf →
  0 ≤ p → 0 < n ≤ p_size q → n < 2 ^ 24 → set_size buf p n = Some buf1 →
  resized buf p n buf1 ∧ (p + p_offset q + p_size q = zlen buf → resized buf p n (buf_resize buf1 (p + p_offset q + n))).
Proof.
  intros Hq He Ho Hl Hp Hn Hn24 H1.
  pose proof (set_scalar_zlen _ _ _ _ _ H1) as Hz1.
  assert (load_ptr buf1 p = Some (OffsetPtr (p_offset q) n 1)) as Hq1.
  { rewrite (load_ptr_set_size _ _ _ _ _ H1 Hq), He. by rewrite Z.mod_small by lia. }
  assert (∀ i : nat, Z.of_nat i < zlen buf → ¬ owns buf p (Z.of_nat i) → buf1 !! i = buf !! i) as Hout.
  { intros i _ Hno. apply (set_scalar_lookup _ _ _ _ _ i H1). unfold owns in Hno.
    destruct (decide (p ≤ Z.of_nat i < p + 8)); [tauto|lia]. }
  assert (∀ i, p + p_offset q ≤ i < p + p_offset q + n → i < zlen buf → owns buf p i) as Hown.
  { intros i Hi _. right. exists q. split; [done|lia]. }
  split.
  - split; [lia|]. split; [|done]. eexists. split; [done|]. cbn. split_and!; auto; lia.
  - intros Hend. assert (load_ptr (buf_resize buf1 (p + p_offset q + n)) p = load_ptr buf1 p) as E.
    { set (b2 := buf_resize _ _).
      rewrite <-(load_ptr_prefix b2 buf1 p); [done|lia|..].
      - unfold b2. rewrite zlen_buf_resize by lia. lia.
      - unfold b2. rewrite zlen_buf_resize by lia. lia.
      - intros i Hi. unfold b2 in *. rewrite zlen_buf_resize in Hi by lia.
        symmetry. apply buf_resize_lookup; lia. }
    split; [rewrite zlen_buf_resize; lia|]. split.
    + eexists. rewrite E. split; [done|]. cbn. rewrite zlen_buf_resize by lia. split_and!; auto; lia.
    + intros i Hi Hno. destruct (decide (Z.of_nat i < p + p_offset q + n)).
      * rewrite buf_resize_lookup by lia. auto.
      * destruct Hno. right. exists q. split; [done|lia].
Qed.

(** The list at the end of the buffer grows in place. *)
Lemma resize_grow buf p n q :
  load_ptr buf p = Some q → p_entity q = 1 → 8 ≤ p_offset q → p + p_offset q + p_size q = zlen buf →
  0 ≤ p → 0 ≤ p_size q < n → n < 2 ^ 24 →
  ∃ buf', set_size (buf_resize buf (p + p_offset q + n)) p n = Some buf' ∧ resized buf p n buf'.
Proof.
  intros Hq He Ho Hl Hp Hn Hn24.
  set (b := buf_resize buf (p + p_offset q + n)).
  assert (zlen b = p + p_offset q + n) as Hb by (apply zlen_buf_resize; lia).
  assert (∀ i : nat, Z.of_nat i < zlen buf → b !! i = buf !! i) as Hbi
    by (intros i Hi; apply buf_resize_lookup; lia).
  assert (load_ptr b p = Some q) as Hqb by (rewrite (load_ptr_prefix buf b p); auto; lia).
  destruct (set_scalar_total 3 b (p + 4) n) as [b' Hb']; [lia..|].
  exists b'. split; [done|]. pose proof (set_scalar_zlen _ _ _ _ _ Hb') as Hz.
  split; [lia|]. split.
  - eexists. rewrite (load_ptr_set_size _ _ _ _ _ Hb' Hqb), He, Z.mod_small by lia.
    split; [done|]. cbn. split_and!; try done; try lia. intros i Hi Hi'. right. exists q. split; [done|lia].
  - intros i Hi Hno. rewrite (set_scalar_lookup _ _ _ _ _ i Hb'); [auto|].
    unfold owns in Hno. destruct (decide (p ≤ Z.of_nat i < p + 8)); [tauto|lia].
Qed.

(** A list that cannot grow in place moves to the end of the buffer. *)
Lemma resize_move buf p n q :
  load_ptr buf p = Some q → 0 ≤ p → p + 8 ≤ zlen buf → 0 < n < 2 ^ 24 → zlen buf - p < 2 ^ 32 →
  ∃ buf', (let! b := set_size (buf_resize buf (zlen buf + n)) p n in
           let! b := set_offset b p (zlen buf - p) in set_entity b p 1) = Some buf' ∧ resized buf p n buf'.
Proof.
  intros Hq Hp Hl Hn Hmax.
  set (b := buf_resize buf (zlen buf + n)).
  assert (zlen b = zlen buf + n) as Hb by (apply zlen_buf_resize; lia).
  assert (∀ i : nat, Z.of_nat i < zlen buf → b !! i = buf !! i) as Hbi
    by (intros i Hi; apply buf_resize_lookup; lia).
  assert (load_ptr b p = Some q) as Hqb by (rewrite (load_ptr_prefix buf b p); auto; lia).
  destruct (set_scalar_total 3 b (p + 4) n) as [b1 H1]; [lia..|].
  pose proof (set_scalar_zlen _ _ _ _ _ H1) as Z1. pose proof (load_ptr_set_size _ _ _ _ _ H1 Hqb) as Q1.
  destruct (set_scalar_total 4 b1 p (zlen buf - p)) as [b2 H2]; [lia..|].
  pose proof (set_scalar_zlen _ _ _ _ _ H2) as Z2. pose proof (load_ptr_set_offset _ _ _ _ _ H2 Q1) as Q2.
  destruct (set_scalar_total 1 b2 (p + 7) 1) as [b3 H3]; [lia..|].
  pose proof (set_scalar_zlen _ _ _ _ _ H3) as Z3. pose proof (load_ptr_set_entity _ _ _ _ _ H3 Q2) as Q3.
  cbn [p_offset p_size p_entity] in Q3. rewrite !Z.mod_small in Q3 by lia.
  rewrite (wrapu_id 32) in Q3 by lia.
  exists b3. split.
  { unfold set_size. rewrite H1. cbn [mbind option_bind]. unfold set_offset. rewrite H2. cbn [mbind option_bind]. exact H3. }
  split; [lia|]. split.
  - eexists. split; [exact Q3|]. cbn. split_and!; try done; try lia.
  - intros i Hi Hno. assert (¬ (p ≤ Z.of_nat i < p + 8)) by (unfold owns in Hno; tauto).
    rewrite (set_scalar_lookup _ _ _ _ _ i H3), (set_scalar_lookup _ _ _ _ _ i H2),
      (set_scalar_lookup _ _ _ _ _ i H1) by lia. auto.
Qed.

Lemma list_resize_string buf p n :
  string_ptr buf p → 0 < n < 2 ^ 24 → zlen buf - p < 2 ^ 32 →
  ∃ buf', list_resize 1 buf p n = Some buf' ∧ resized buf p n buf'.
Proof.
  intros (Hp & Hl & q & Hq & Hptr) Hn Hmax. unfold list_resize. rewrite Hq. cbn [mbind option_bind].
  change (255 <=? 1) with false. cbv iota. unfold view_size, view_resize.
  rewrite Z.add_0_r, !Z.mul_1_l. rewrite (Z.max_l (zlen buf - p)) by lia.
  pose proof (load_ptr_total buf p Hp Hl).
  destruct (Z.leb_spec n (p_size q)) as [Hle|Hgt].
  - destruct Hptr as [|(Hs & He & Ho & Hin)]; [lia|].
    destruct (set_scalar_total 3 buf (p + 4) n) as [b1 H1]; [lia..|].
    destruct (resize_keep buf p n q b1) as [R1 R2]; auto; try lia.
    unfold set_size at 1. rewrite H1. cbn [mbind option_bind].
    destruct (Z.eqb_spec (zlen buf - p) (p_offset q + p_size q)); [|eauto].
    erewrite data_offset_one; [|apply (load_ptr_set_size _ _ _ _ _ H1 Hq)|done]. cbn [mbind option_bind p_offset].
    eexists. split; [done|]. replace (n + (p + p_offset q)) with (p + p_offset q + n) by lia. apply R2. lia.
  - destruct (Z.eqb_spec (p_size q) 0) as [Hz|Hnz]; cbn [negb andb].
    { replace (zlen buf - p + n + p) with (zlen buf + n) by lia. apply (resize_move buf p n q); auto. }
    destruct Hptr as [|(Hs & He & Ho & Hin)]; [lia|].
    destruct (Z.eqb_spec (zlen buf - p) (p_offset q + p_size q)).
    + erewrite data_offset_one by done. cbn [mbind option_bind].
      replace (n + (p + p_offset q)) with (p + p_offset q + n) by lia.
      apply (resize_grow buf p n q); auto; lia.
    + replace (zlen buf - p + n + p) with (zlen buf + n) by lia. apply (resize_move buf p n q); auto.
Qed.

Lemma load_ptr_store_disj buf p off bs buf' :
  mem_store buf off bs = Some buf' → p + 8 ≤ off → load_ptr buf' p = load_ptr buf p.
Proof.
  intros H Ho. apply load_ptr_ext; [by eapply mem_store_zlen|].
  intros i Hi. rewrite (mem_store_lookup _ _ _ _ i H).
  destruct (Z.leb_spec off (Z.of_nat i)); cbn; [lia|done].
Qed.

Lemma mem_store_outside buf off bs buf' (i : nat) :
  mem_store buf off bs = Some buf' → Z.of_nat i < off ∨ off + zlen bs ≤ Z.of_nat i → buf' !! i = buf !! i.
Proof.
  intros H Hi. rewrite (mem_store_lookup _ _ _ _ i H).
  destruct (Z.leb_spec off (Z.of_nat i)), (Z.ltb_spec (Z.of_nat i) (off + zlen bs)); cbn; try done; lia.
Qed.

Lemma binder_string_aux buf p v :
  string_ptr buf p → zlen v < 2 ^ 24 - 1 → zlen buf - p < 2 ^ 32 →
  ∃ buf', _set_string buf p v = Some buf' ∧ _get_string buf' p = Some v ∧ string_ptr buf' p ∧
    (∀ i : nat, Z.of_nat i < zlen buf → ¬ owns buf p (Z.of_nat i) → buf' !! i = buf !! i) ∧
    (load_ptr buf p = Some (OffsetPtr 0 0 0) → zlen buf ≤ zlen buf') ∧
    (∀ i, owns buf' p i → i < zlen buf → owns buf p i).
Proof.
  intros Hs Hv Hmax. pose proof (zlen_nonneg v). assert (0 ≤ p) by apply Hs.
  destruct (list_resize_string buf p (zlen v + 1) Hs) as (b & Hb & Hp8 & (q & Hq & Hn & He & Ho & Hin & Hown) & Hout); [lia..|].
  unfold _set_string. rewrite Hb. cbn [mbind option_bind].
  rewrite (data_offset_one b p q Hq He). cbn [mbind option_bind].
  destruct (mem_store_total b (p + p_offset q) v) as [b1 H1]; [lia..|].
  pose proof (mem_store_zlen _ _ _ _ H1) as Z1. rewrite H1. cbn [mbind option_bind].
  assert (load_ptr b1 p = Some q) as Q1 by (rewrite (load_ptr_store_disj _ _ _ _ _ H1); [done|lia]).
  unfold string_size. rewrite Q1. cbn [mbind option_bind].
  replace (p + p_offset q + (Z.max (p_size q) 1 - 1)) with (p + p_offset q + zlen v) by lia.
  assert (zlen [0] = 1) as Hz0 by done.
  destruct (mem_store_total b1 (p + p_offset q + zlen v) [0]) as [b2 H2]; [lia..|].
  pose proof (mem_store_zlen _ _ _ _ H2) as Z2.
  assert (load_ptr b2 p = Some q) as Q2 by (rewrite (load_ptr_store_disj _ _ _ _ _ H2); [done|lia]).
  exists b2. split; [done|]. split; [|split].
  - unfold _get_string. rewrite Q2. cbn [mbind option_bind]. tests.
    rewrite (data_offset_one b2 p q Q2 He). cbn [mbind option_bind].
    rewrite (mem_load_store_disj _ _ _ _ _ _ H2) by lia.
    replace (p_size q - 1) with (zlen v) by lia. by apply (mem_load_store_same _ _ _ _ H1).
  - split; [lia|]. split; [lia|]. exists q. split; [done|]. right. lia.
  - split.
    + intros i Hi Hno. rewrite (mem_store_outside _ _ _ _ i H2), (mem_store_outside _ _ _ _ i H1); [auto|..].
      all: destruct (decide (p + p_offset q ≤ Z.of_nat i < p + p_offset q + p_size q)); [exfalso; apply Hno, Hown; lia|lia].
    + split.
      * intros Hq0. destruct (decide (zlen buf ≤ zlen b2)); [done|exfalso].
        destruct (Hown (p + p_offset q)) as [?|(q0 & Hq1 & Hr)]; [lia|lia|lia|]. rewrite Hq0 in Hq1. injection Hq1 as <-. cbn in Hr. lia.
      * intros i [Hi|(q' & Hq' & Hi)] Hlt; [by left|]. rewrite Q2 in Hq'. injection Hq' as <-. apply Hown; lia.
Qed.

(** C35: a string of less than 2^24 - 1 bytes (the size that the pointer of
    the message can hold) that has been set in a message is read back,
    wherever the pointer led before (nowhere, into the middle of the buffer
    or to its end), and no other byte of the message changes. *)
Theorem binder_string buf p v :
  string_ptr buf p → zlen v < 2 ^ 24 - 1 → zlen buf - p < 2 ^ 32 →
  ∃ buf', _set_string buf p v = Some buf' ∧ _get_string buf' p = Some v ∧ string_ptr buf' p ∧
    ∀ i : nat, Z.of_nat i < zlen buf → ¬ owns buf p (Z.of_nat i) → buf' !! i = buf !! i.
Proof.
  intros H1 H2 H3. destruct (binder_string_aux buf p v H1 H2 H3) as (buf' & ? & ? & ? & ? & _). by exists buf'.
Qed.

(** A pointer at the end of a buffer of eight zero bytes. *)
Lemma binder_string_witness :
  string_ptr (zeros 8) 0 ∧
  ∃ buf', _set_string (zeros 8) 0 [97; 98; 99] = Some buf' ∧ _get_string buf' 0 = Some [97; 98; 99] ∧ string_ptr buf' 0 ∧
    ∀ i : nat, Z.of_nat i < zlen (zeros 8) → ¬ owns (zeros 8) 0 (Z.of_nat i) → buf' !! i = zeros 8 !! i.
Proof.
  assert (string_ptr (zeros 8) 0) as H by (split; [lia|]; split; [vm_compute; done|]; exists (OffsetPtr 0 0 0); split; [done|by left]).
  split; [exact H|]. apply (binder_string (zeros 8) 0 [97; 98; 99]); [exact H|vm_compute; done|vm_compute; done].
Defined.

(** A string that shrinks, then grows: the first fits where it is, the second
    moves only when something follows it. *)
Example set_string_twice :
  (let! b := _set_string (zeros 8) 0 [97; 98; 99] in let! b := _set_string b 0 [100] in _set_string b 0 [101; 102; 103; 104]) =
    Some ([8; 0; 0; 0; 5; 0; 0; 1] ++ [101; 102; 103; 104; 0]).
Proof. reflexivity. Qed.

End Binder.
