(* ===== verification/Storage.v ===== *)
(** * Logs of messages and their storage

    A log is a list of messages whose numbers grow.  [Storage] is what a storage of
    messages promises to the channels over it, such as the stream server: posts
    append, a reader opened at a number gets the messages from there on, also those that are
    posted later.  The file channel is an instance ([FileTail]). *)
From Stdlib Require Import Sorted.
From S2P Require Import Prelude Callback Channel.
Import Cb Chan.

Module Storage.

(** ** Logs *)
Definition last_seq (ms : list msg) : Z := default (-1) (m_seq <$> last ms).
Definition first_seq (ms : list msg) : Z := default (-1) (m_seq <$> head ms).

(** Numbers of messages in a file grow and are not negative. *)
Definition increasing (ms : list msg) : Prop :=
  StronglySorted (λ a b, m_seq a < m_seq b) ms ∧ Forall (λ m, 0 ≤ m_seq m) ms.

Lemma increasing_app ms m :
  increasing ms → last_seq ms < m_seq m → 0 ≤ m_seq m → increasing (ms ++ [m]).
Proof.
  intros [Hs Hp] Hl Hm. split; [|by apply Forall_app; split; [|constructor]].
  induction ms as [|a ms IH]; [by repeat constructor|]. cbn.
  apply StronglySorted_inv in Hs as [Hs Ha]. apply Forall_cons in Hp as [Hpa Hp].
  assert (ms ≠ [] → last_seq (a :: ms) = last_seq ms) as El.
  { intros Hne. unfold last_seq. rewrite last_cons. destruct (last ms) eqn:E; [done|]. by apply last_None in E. }
  constructor.
  - destruct ms as [|b ms]; [repeat constructor|]. apply IH; [done|done|]. rewrite <-El; done.
  - apply Forall_app. split; [done|]. constructor; [|done]. destruct ms as [|b ms]; [done|].
  rewrite El in Hl by done. unfold last_seq in Hl. destruct (last (b :: ms)) as [x|] eqn:E; [|by apply last_None in E].
  cbn in Hl. rewrite Forall_forall in Ha. specialize (Ha x). apply last_Some_elem_of in E. specialize (Ha E). cbn in Ha. lia.
Qed.

Lemma last_seq_app ms m : last_seq (ms ++ [m]) = m_seq m.
Proof. unfold last_seq. by rewrite last_snoc. Qed.
Lemma first_seq_app ms m : increasing ms → (if first_seq ms =? -1 then m_seq m else first_seq ms) = first_seq (ms ++ [m]).
Proof.
  intros [_ Hp]. unfold first_seq. destruct ms as [|a ms]; [done|]. cbn. apply Forall_cons in Hp as [Ha _]. case_bool; [lia|done].
Qed.
Lemma last_seq_low ms : increasing ms → -1 ≤ last_seq ms.
Proof.
  intros [_ Hp]. unfold last_seq. destruct (last ms) as [x|] eqn:E; [|done]. cbn.
  rewrite Forall_forall in Hp. specialize (Hp x (last_Some_elem_of _ _ E)). cbn in Hp. lia.
Qed.

(** The messages from the number [s] on. *)
Definition from (s : Z) (ms : list msg) : list msg := filter (λ m, s ≤ m_seq m) ms.

Definition sorted (ms : list msg) : Prop := StronglySorted (λ a b, m_seq a < m_seq b) ms.
Definition below (s : Z) (ms : list msg) : Prop := Forall (λ m, m_seq m < s) ms.

Lemma sorted_app a b : sorted (a ++ b) → sorted b ∧ ∀ x y, x ∈ a → y ∈ b → m_seq x < m_seq y.
Proof.
  induction a as [|z a IH]; intros H.
  - split; [exact H|]. intros x y Hx. by apply not_elem_of_nil in Hx.
  - apply StronglySorted_inv in H as [H Hz]. destruct (IH H) as [Hb Hab]. split; [exact Hb|].
    intros x y Hx Hy. apply elem_of_cons in Hx as [->|Hx]; [|by apply Hab].
    rewrite Forall_forall in Hz. apply Hz, elem_of_app. by right.
Qed.

Lemma from_app s a b : from s (a ++ b) = from s a ++ from s b.
Proof. apply filter_app. Qed.

Lemma from_below s a b : below s a → from s (a ++ b) = from s b.
Proof.
  intros H. unfold from. induction H as [|x a Hx H IH]; [done|]. cbn [app].
  by rewrite filter_cons_False by lia.
Qed.

Lemma from_all s m ms : sorted (m :: ms) → s ≤ m_seq m → from s (m :: ms) = m :: ms.
Proof.
  intros H Hm. apply StronglySorted_inv in H as [_ H]. unfold from. rewrite filter_cons_True by lia. f_equal.
  induction H as [|x ms Hx H IH]; [done|]. rewrite filter_cons_True by lia. by f_equal.
Qed.

Lemma from_skip s m ms : m_seq m < s → from s (m :: ms) = from s ms.
Proof. intros H. unfold from. by rewrite filter_cons_False by lia. Qed.

Lemma from_last ms : sorted ms → from (last_seq ms) ms = match last ms with Some m => [m] | None => [] end.
Proof.
  intros Hs. destruct (last ms) as [m|] eqn:E; [|by apply last_None in E as ->].
  apply last_Some in E as (l & ->). apply sorted_app in Hs as [Hs Hlt].
  unfold last_seq. rewrite last_snoc. cbn [fmap option_fmap option_map default id].
  rewrite from_below; [by apply from_all; [|lia]|]. apply Forall_forall. intros x Hx. apply Hlt; [done|by left].
Qed.

Lemma sorted_increasing ms : increasing ms → sorted ms.
Proof. by intros [H _]. Qed.

(** What a storage keeps of a message. *)
Definition kept (m : msg) : msg := Msg DATA 0 (m_msgid m) (m_seq m) (m_data m) (zlen (m_data m)) 0 0.

(** ** The contract

    [W] are the states of a storage that is open for writing, [R] those of a
    reader of it; [G] is how the messages are laid out, which only the
    laws speak of. *)
Class Storage (W R G : Type) := {
  st_post : msg → W → option (result errno unit * W);
  st_seq : W → Z;                               (* info.seq *)
  st_seq_begin : W → Z;                         (* info.seq-begin *)
  st_open : W → Z → option (result errno R);    (* a reader from a number on *)
  st_next : W → R → option (option msg * R);    (* one call of process: a message or nothing *)

  (** The storage holds the messages. *)
  st_log : W → G → list msg → Prop;
  (** The reader has the messages in front of it. *)
  st_read : W → G → R → list msg → Prop;
  (** Messages that the storage can take. *)
  st_ok : W → msg → Prop;

  st_log_spec w g l : st_log w g l → increasing l ∧ st_seq w = last_seq l ∧ st_seq_begin w = first_seq l;
  st_post_spec w g l m : st_log w g l → st_ok w m → ∃ r w' g', st_post m w = Some (r, w') ∧
    (∀ x, st_ok w x → st_ok w' x) ∧
    match r with
    | Ok _ => st_log w' g' (l ++ [kept m]) ∧ (∀ rd rest, st_read w g rd rest → st_read w' g' rd (rest ++ [kept m]))
    | Err _ => st_log w' g' l ∧ (∀ rd rest, st_read w g rd rest → st_read w' g' rd rest)
    end;
  st_open_spec w g l s : st_log w g l → ∃ rd, st_open w s = Some (Ok rd) ∧ st_read w g rd (from s l);
  st_next_spec w g l rd rest : st_log w g l → st_read w g rd rest →
    ∃ rd', st_next w rd = Some (head rest, rd') ∧ st_read w g rd' (tail rest);
}.

(** ** A writer and a reader interleaved *)
Inductive op := Post (m : msg) | Read.

(** What has been read, and the messages that were accepted; [idle] is whether
    the last call found nothing to read. *)
Record run (W R : Type) := Run { r_w : W; r_rd : R; got : list msg; put : list msg; idle : bool }.
Arguments Run {W R} _ _ _ _ _.
Arguments r_w {W R} _.
Arguments r_rd {W R} _.
Arguments got {W R} _.
Arguments put {W R} _.
Arguments idle {W R} _.

Section Interleave.
Context {W R G : Type} `{Storage W R G}.

Definition step (o : op) (x : run W R) : option (run W R) :=
  match o with
  | Post m =>
      let! (r, w) := st_post m (r_w x) in
      Some (Run w (r_rd x) (got x) (match r with Ok _ => put x ++ [kept m] | Err _ => put x end) false)
  | Read =>
      let! (m, rd) := st_next (r_w x) (r_rd x) in
      Some (match m with
            | Some m => Run (r_w x) rd (got x ++ [m]) (put x) false
            | None => Run (r_w x) rd (got x) (put x) true
            end)
  end.

Fixpoint steps (os : list op) (x : run W R) : option (run W R) :=
  match os with [] => Some x | o :: os => let! x := step o x in steps os x end.

Definition op_ok (w : W) (o : op) : Prop := match o with Post m => st_ok w m | Read => True end.

(** [l] is in front of the reader at the start. *)
Definition following (l0 l : list msg) (x : run W R) : Prop :=
  ∃ g rest, st_log (r_w x) g (l0 ++ put x) ∧ st_read (r_w x) g (r_rd x) rest ∧ got x ++ rest = l ++ put x ∧
    (idle x = true → rest = []).

Lemma step_following l0 l o x :
  following l0 l x → op_ok (r_w x) o →
  ∃ x', step o x = Some x' ∧ following l0 l x' ∧ ∀ o', op_ok (r_w x) o' → op_ok (r_w x') o'.
Proof.
  intros (g & rest & Hlog & Hrd & Hgot & Hidle) Hok. destruct o as [m|]; cbn [step].
  - destruct (st_post_spec _ _ _ m Hlog Hok) as (r & w' & g' & Hp & Hok' & Hr). rewrite Hp. eexists. split; [reflexivity|].
    split; [|intros [m'|]; cbn; [apply Hok'|done]]. exists g'. destruct r as [[]|e]; destruct Hr as [Hlog' Hrd'].
    + exists (rest ++ [kept m]). cbn [r_w r_rd got put idle]. rewrite (app_assoc l0), !(app_assoc _ _ [kept m]), Hgot.
      split_and!; [done|by apply Hrd'|done..].
    + exists rest. cbn [r_w r_rd got put idle]. split_and!; [done|by apply Hrd'|done..].
  - destruct (st_next_spec _ _ _ _ rest Hlog Hrd) as (rd' & Hn & Hrd'). rewrite Hn. eexists. split; [reflexivity|].
    split; [|by destruct (head rest)]. exists g. destruct rest as [|m rest]; cbn in *.
    + exists []. done.
    + exists rest. cbn. by rewrite <-app_assoc.
Qed.

(** Nothing is lost, repeated or reordered, and a reader that finds nothing has
    all that was accepted. *)
Lemma steps_following l0 l os : ∀ x,
  following l0 l x → Forall (op_ok (r_w x)) os → ∃ x', steps os x = Some x' ∧ following l0 l x'.
Proof.
  induction os as [|o os IH]; intros x Hx Hok; [by exists x|]. apply Forall_cons in Hok as [Ho Hok].
  destruct (step_following l0 l o x Hx Ho) as (x1 & H1 & Hx1 & Hok1). cbn [steps]. rewrite H1.
  apply (IH x1 Hx1). eapply Forall_impl; [exact Hok|]. done.
Qed.
End Interleave.

(** ** A storage in memory

    The list of what was posted; a reader is a position in it. *)
Definition mem_post (m : msg) (w : list msg) : option (result errno unit * list msg) :=
  if (m_seq m <=? last_seq w) || (m_seq m <? 0) then Some (Err EINVAL, w) else Some (Ok tt, w ++ [kept m]).
Definition mem_open (w : list msg) (s : Z) : option (result errno nat) :=
  Some (Ok (length w - length (from s w))%nat).
Definition mem_next (w : list msg) (r : nat) : option (option msg * nat) :=
  Some (match w !! r with Some m => (Some m, S r) | None => (None, r) end).

Lemma from_drop s w : sorted w → drop (length w - length (from s w)) w = from s w.
Proof.
  induction w as [|m w IH]; intros Hw; [done|]. pose proof Hw as [Hs _]%StronglySorted_inv. specialize (IH Hs).
  destruct (decide (s ≤ m_seq m)).
  - by rewrite from_all, Nat.sub_diag.
  - rewrite from_skip by lia. cbn [length]. assert (length (from s w) ≤ length w)%nat by apply length_filter.
    by rewrite Nat.sub_succ_l by lia.
Qed.

#[export] Program Instance mem_storage : Storage (list msg) nat unit := {
  st_post := mem_post;
  st_seq := last_seq;
  st_seq_begin := first_seq;
  st_open := mem_open;
  st_next := mem_next;
  st_log w _ l := w = l ∧ increasing l;
  st_read w _ r rest := (r ≤ length w)%nat ∧ drop r w = rest;
  st_ok _ _ := True;
}.
Next Obligation. by intros w _ l [-> H]. Qed.
Next Obligation.
  intros w _ l m [-> Hl] _. cbn. unfold mem_post. destruct (Z.leb_spec (m_seq m) (last_seq l)); cbn [orb]; [by eexists (Err EINVAL), l, tt|].
  destruct (Z.ltb_spec (m_seq m) 0); [by eexists (Err EINVAL), l, tt|]. eexists (Ok tt), _, tt. split; [done|]. split; [done|]. split.
  - split; [done|]. apply increasing_app; cbn; [done|lia|lia].
  - intros rd rest [Hr <-]. split; [rewrite length_app; lia|]. by rewrite drop_app_le.
Qed.
Next Obligation.
  intros w _ l s [-> Hl]. eexists. split; [done|]. split; [lia|]. by apply from_drop, sorted_increasing.
Qed.
Next Obligation.
  intros w _ l rd rest _ [Hr <-]. cbn. unfold mem_next. destruct (w !! rd) as [m|] eqn:E.
  - rewrite (drop_S _ _ _ E). pose proof (lookup_lt_Some _ _ _ E). eexists. split; [done|]. split; [lia|done].
  - apply lookup_ge_None in E. rewrite drop_ge by done. eexists. split; [done|]. split; [done|]. by apply drop_ge.
Qed.

End Storage.
