(* ===== verification/File.v ===== *)
(** * File channel

    src/channel/file.h and src/channel/file.cc with [IOPosix] and without compression.  A
    file is a sequence of blocks of equal size.  It begins with a frame of
    metadata; each other block begins with a frame without data; messages are
    frames that never cross the end of a block.  The space that is left at the
    end of a block is marked with a skip frame.

    An operation is a function of the object that returns a result and the new
    object, also for errors, since a failed operation moves the position.
    [None] is undefined behaviour, or the branches of LZ4 compression. *)
From S2P Require Import Prelude Mem Callback Channel Reopen Binder.
Import Cb Chan.

Module File.

Abbreviation zeros := Binder.zeros.

(** ** The file *)

(** [pread]: what the file has, at most [n] bytes. *)
Definition pread (d : list Z) (n off : Z) : list Z := take (Z.to_nat n) (drop (Z.to_nat off) d).

(** [pwrite] of all of [bs]: a hole before the position reads as zeros. *)
Definition write_at (d : list Z) (off : Z) (bs : list Z) : list Z :=
  take (Z.to_nat off) d ++ zeros (off - zlen d) ++ bs ++ drop (Z.to_nat (off + zlen bs)) d.

(** [ftruncate] *)
Definition resize_to (d : list Z) (n : Z) : list Z := take (Z.to_nat n) d ++ zeros (n - zlen d).

(** ** State *)

Inductive EOD := Once | BeforeClose | Many.
#[global] Instance EOD_eq_dec : EqDecision EOD.
Proof. solve_decision. Defined.

(** Parameters of the channel ([_init]). *)
Record conf := Conf {
  input : bool;                 (* caps::Input *)
  block_init : Z;
  version_init : Z;
  autoclose : bool;
  tail_extra_size : Z;
  exact_last_seq : bool;
  end_of_data : EOD;
  scheme_init : option (list Z);   (* the scheme of the channel, as it is dumped *)
  scheme_load : list Z → bool;     (* Context::scheme_load accepts the text *)
}.

Record file := File {
  (* the file behind the descriptor, and the largest size it may have *)
  disk : list Z;
  limit : Z;
  (* IOPosix *)
  offset : Z;
  block_end : Z;
  io_block_size : Z;
  io_buf : Z;                   (* size of the buffer *)
  (* File *)
  cf : conf;
  f_seq : Z;
  seq_begin : Z;
  seq_eod : Z;
  block_size : Z;
  tail_extra_blocks : Z;
  file_size_cache : Z;
  f_version : Z;
  size_marker : Z;
  f_scheme : option (list Z);
  f_autoseq : AutoSeq.autoseq;
  pending : bool;               (* dcaps::Pending *)
  closed : bool;                (* the channel has closed itself *)
  out : list msg;               (* messages given to callbacks *)
}.

Definition LLONG_MIN : Z := - 2 ^ 63.

(** Assignments to members. *)
Definition with_disk (d : list Z) (f : file) : file :=
  File d (limit f) (offset f) (block_end f) (io_block_size f) (io_buf f) (cf f) (f_seq f) (seq_begin f) (seq_eod f)
    (block_size f) (tail_extra_blocks f) (file_size_cache f) (f_version f) (size_marker f) (f_scheme f)
    (f_autoseq f) (pending f) (closed f) (out f).
Definition with_pos (o e : Z) (f : file) : file :=
  File (disk f) (limit f) o e (io_block_size f) (io_buf f) (cf f) (f_seq f) (seq_begin f) (seq_eod f)
    (block_size f) (tail_extra_blocks f) (file_size_cache f) (f_version f) (size_marker f) (f_scheme f)
    (f_autoseq f) (pending f) (closed f) (out f).
Definition with_io (bs buf : Z) (f : file) : file :=
  File (disk f) (limit f) (offset f) (block_end f) bs buf (cf f) (f_seq f) (seq_begin f) (seq_eod f)
    (block_size f) (tail_extra_blocks f) (file_size_cache f) (f_version f) (size_marker f) (f_scheme f)
    (f_autoseq f) (pending f) (closed f) (out f).
Definition with_seqs (s b e : Z) (f : file) : file :=
  File (disk f) (limit f) (offset f) (block_end f) (io_block_size f) (io_buf f) (cf f) s b e
    (block_size f) (tail_extra_blocks f) (file_size_cache f) (f_version f) (size_marker f) (f_scheme f)
    (f_autoseq f) (pending f) (closed f) (out f).
Definition with_cache (c : Z) (f : file) : file :=
  File (disk f) (limit f) (offset f) (block_end f) (io_block_size f) (io_buf f) (cf f) (f_seq f) (seq_begin f) (seq_eod f)
    (block_size f) (tail_extra_blocks f) c (f_version f) (size_marker f) (f_scheme f)
    (f_autoseq f) (pending f) (closed f) (out f).
Definition with_meta (bs v : Z) (s : option (list Z)) (f : file) : file :=
  File (disk f) (limit f) (offset f) (block_end f) (io_block_size f) (io_buf f) (cf f) (f_seq f) (seq_begin f) (seq_eod f)
    bs (tail_extra_blocks f) (file_size_cache f) v (size_marker f) s
    (f_autoseq f) (pending f) (closed f) (out f).
Definition with_marker (mk : Z) (f : file) : file :=
  File (disk f) (limit f) (offset f) (block_end f) (io_block_size f) (io_buf f) (cf f) (f_seq f) (seq_begin f) (seq_eod f)
    (block_size f) (tail_extra_blocks f) (file_size_cache f) (f_version f) mk (f_scheme f)
    (f_autoseq f) (pending f) (closed f) (out f).
Definition with_extra (n : Z) (f : file) : file :=
  File (disk f) (limit f) (offset f) (block_end f) (io_block_size f) (io_buf f) (cf f) (f_seq f) (seq_begin f) (seq_eod f)
    (block_size f) n (file_size_cache f) (f_version f) (size_marker f) (f_scheme f)
    (f_autoseq f) (pending f) (closed f) (out f).
Definition with_autoseq (a : AutoSeq.autoseq) (f : file) : file :=
  File (disk f) (limit f) (offset f) (block_end f) (io_block_size f) (io_buf f) (cf f) (f_seq f) (seq_begin f) (seq_eod f)
    (block_size f) (tail_extra_blocks f) (file_size_cache f) (f_version f) (size_marker f) (f_scheme f)
    a (pending f) (closed f) (out f).
Definition with_channel (p c : bool) (o : list msg) (f : file) : file :=
  File (disk f) (limit f) (offset f) (block_end f) (io_block_size f) (io_buf f) (cf f) (f_seq f) (seq_begin f) (seq_eod f)
    (block_size f) (tail_extra_blocks f) (file_size_cache f) (f_version f) (size_marker f) (f_scheme f)
    (f_autoseq f) p c o.
Definition set_seq (s : Z) (f : file) : file := with_seqs s (seq_begin f) (seq_eod f) f.
Definition set_seq_begin (s : Z) (f : file) : file := with_seqs (f_seq f) s (seq_eod f) f.
Definition set_seq_eod (s : Z) (f : file) : file := with_seqs (f_seq f) (seq_begin f) s f.

(** ** The monad of the operations *)
Definition FM (A : Type) : Type := file → option (result errno A * file).

#[global] Instance FM_ret : MRet FM := λ A a f, Some (Ok a, f).
#[global] Instance FM_bind : MBind FM := λ A B k m f,
  match m f with
  | Some (Ok a, f') => k a f'
  | Some (Err e, f') => Some (Err e, f')
  | None => None
  end.

Definition fail {A} (e : errno) : FM A := λ f, Some (Err e, f).
Definition ub {A} : FM A := λ _, None.
Definition get {A} (g : file → A) : FM A := λ f, Some (Ok (g f), f).
Definition upd (g : file → file) : FM unit := λ f, Some (Ok tt, g f).
Definition lift {A} (o : option A) : FM A := λ f, match o with Some a => Some (Ok a, f) | None => None end.

(** The result of a call as a value. *)
Definition attempt {A} (m : FM A) : FM (result errno A) := λ f,
  match m f with Some (r, f') => Some (Ok r, f') | None => None end.

(** Errors that are not [EAGAIN] become [EINVAL]. *)
Definition or_einval {A} (m : FM A) : FM A :=
  r ← attempt m;
  match r with
  | Ok a => mret a
  | Err EAGAIN => fail EAGAIN
  | Err _ => fail EINVAL
  end.

(** Every error becomes [EINVAL]. *)
Definition all_einval {A} (m : FM A) : FM A :=
  r ← attempt m;
  match r with Ok a => mret a | Err _ => fail EINVAL end.

(** ** IOPosix *)

(** [IOPosix::init] *)
Definition io_init (block : Z) : FM unit := upd (with_io block block).

(** [IOPosix::read].  A count above SSIZE_MAX is an error of the system call;
    more bytes than the buffer has room for overwrite memory. *)
Definition io_read (size off : Z) : FM (list Z) := λ f,
  if 2 ^ 63 <=? size then Some (Err EINVAL, f) else
  let bs := pread (disk f) size (offset f + off) in
  if io_buf f <? zlen bs then None else
  if zlen bs =? size then Some (Ok bs, f) else Some (Err EAGAIN, f).

(** [pwrite]: the number of bytes written, or -1.  The file does not grow
    above [limit]. *)
Definition pwrite (bs : list Z) (off : Z) (f : file) : Z * file :=
  if limit f <=? off then (-1, f) else
  let n := Z.min (zlen bs) (limit f - off) in
  (n, with_disk (write_at (disk f) off (take (Z.to_nat n) bs)) f).

(** [IOPosix::writev] of a frame and the data behind it. *)
Definition io_writev (frame : Z) (data : list Z) : FM Z := λ f,
  let '(r, f) := pwrite (le_bytes 4 frame ++ data) (offset f) f in Some (Ok r, f).

(** [IOBase::block] *)
Definition io_block (start : Z) : FM unit := upd (λ f, with_pos start (start + io_block_size f) f).

(** [_shift], [IOBase::shift] and [_shift_skip] *)
Definition _shift (size : Z) : FM unit := upd (λ f, with_pos (offset f + size) (block_end f) f).
Definition _shift_skip : FM unit := upd (λ f, with_pos (block_end f) (block_end f) f).

(** [_truncate]: the result of [ftruncate] is ignored. *)
Definition _truncate (o : Z) : FM unit := upd (λ f,
  with_cache o (if o <=? limit f then with_disk (resize_to (disk f) o) f else f)).

(** [_file_size] *)
Definition _file_size : FM Z := λ f, let n := zlen (disk f) in Some (Ok n, with_cache n f).

(** [_check_write] *)
Definition _check_write (size r : Z) : FM unit :=
  if r <? 0 then fail EINVAL
  else if negb (r =? size) then
    o ← get offset;
    _ ← _truncate o;
    fail EINVAL
  else mret tt.

(** ** Reading of frames *)

(** [_read_frame_nocheck] *)
Definition _read_frame_nocheck : FM Z :=
  bs ← or_einval (io_read 4 0);
  mk ← get size_marker;
  o ← get offset;
  e ← get block_end;
  let frame := i32 (le_value bs) in
  frame ←
    (if negb (mk =? 0) && negb (o =? 0) then
       if Z.land (nth 3 bs 0) 0x80 =? 0 then fail EAGAIN
       else mret (if negb (frame =? -1) then Z.land frame 0x7fffffff else frame)
     else mret frame);
  if 4 <? frame then
    if e <? o + frame then fail EMSGSIZE else mret frame
  else if frame =? 0 then fail EAGAIN
  else if frame <? 0 then mret frame
  else fail EMSGSIZE.

(** [_shift_block] *)
Definition _shift_block (start : Z) : FM unit :=
  _ ← io_block start;
  frame ← _read_frame_nocheck;
  if frame =? -1 then fail EINVAL else _shift frame.

(** [_read_frame]: [sizeof(full_frame_t) + 1] bytes are the least that a
    message needs. *)
Definition _read_frame : FM Z :=
  o ← get offset;
  e ← get block_end;
  _ ← (if e <? o + 16 + 1 then _shift_block e else mret tt);
  _read_frame_nocheck.

(** [_data_size] *)
Definition _data_size (frame : Z) : Z := u64 (frame - 4 - 1).

Definition mk_data (id seq : Z) (data : list Z) : msg := Msg DATA 0 id seq data (zlen data) 0 0.

(** [_read_data] *)
Definition _read_data (size : Z) : FM msg :=
  bs ← or_einval (io_read (u64 (size + 1)) 4);
  if Z.land (nth (Z.to_nat size) bs 0) 0x80 =? 0 then fail EAGAIN else
  let bs := take (Z.to_nat size) bs in
  if size <? 12 then fail EINVAL else
  mret (mk_data (i32 (le_value (take 4 bs))) (i64 (le_value (take 8 (drop 4 bs)))) (drop 12 bs)).

(** The two functions [_read_seq]. *)
Definition _read_seq_frame (frame : Z) : FM msg :=
  let size := _data_size frame in
  if size <? 4 then fail EINVAL else _read_data size.

Definition _read_seq : FM msg := frame ← _read_frame; _read_seq_frame frame.

(** [_block_seq]; the recursion is on the block behind the first. *)
Fixpoint _block_seq (fuel : nat) (block : Z) : FM msg :=
  match fuel with
  | O => ub
  | S fuel =>
      bs ← get block_size;
      _ ← io_block (block * bs);
      frame ← _read_frame;
      if frame =? -1 then
        e ← get block_end;
        ibs ← get io_block_size;
        if negb (e =? ibs) then fail EAGAIN else _block_seq fuel 1
      else
        _ ← _shift frame;
        o ← get offset;
        c ← get file_size_cache;
        if c <? o + 4 then fail EAGAIN else _read_seq
  end.

(** ** Bounds and search *)

(** The loop of [_file_bounds] from the last block to the first with data.
    The index is unsigned: below block 0, whose data was read just before, it
    wraps around. *)
Fixpoint last_block (last : nat) : FM msg :=
  r ← attempt (_block_seq 2 (Z.of_nat last));
  match r with
  | Ok m => mret m
  | Err EAGAIN => match last with O => ub | S last => last_block last end
  | Err _ => fail EINVAL
  end.

(** The loop of [_file_bounds] over the messages of the last block. *)
Fixpoint bounds_loop (fuel : nat) (block_prev : Z) : FM unit :=
  match fuel with
  | O => ub
  | S fuel =>
      e ← get block_end;
      c ← get cf;
      if negb (exact_last_seq c) && negb (e =? block_prev) then mret tt else
      r ← attempt _read_frame;
      match r with
      | Err EAGAIN => mret tt
      | Err e => fail e
      | Ok frame =>
          if frame =? -1 then _ ← _shift_skip; bounds_loop fuel block_prev else
          r ← attempt (_read_seq_frame frame);
          match r with
          | Err EAGAIN => mret tt
          | Err e => fail e
          | Ok m =>
              _ ← upd (set_seq (m_seq m));
              _ ← _shift frame;
              bounds_loop fuel block_prev
          end
      end
  end.

(** Number of the last block of a file of [size] bytes. *)
Definition last_index (size bs : Z) : FM nat :=
  if bs =? 0 then ub else mret (Z.to_nat (u64 ((size + bs - 1) / bs - 1))).

(** [_file_bounds] *)
Definition _file_bounds (fuel : nat) : FM unit :=
  size ← _file_size;
  if size <=? 0 then fail EINVAL else
  m ← or_einval (_block_seq 2 0);
  _ ← upd (set_seq_begin (m_seq m));
  bs ← get block_size;
  last ← last_index size bs;
  m ← last_block last;
  _ ← upd (set_seq (m_seq m));
  e ← get block_end;
  bounds_loop fuel e.

(** [_seek_start] *)
Definition _seek_start : FM unit := all_einval (_shift_block 0).

(** The loop of [_seek] that looks for the last block with data. *)
Fixpoint seek_last (last : nat) : FM nat :=
  match last with
  | O => mret O
  | S prev =>
      r ← attempt (_block_seq 2 (Z.of_nat last));
      match r with
      | Ok _ => mret last
      | Err EAGAIN => seek_last prev
      | Err _ => fail EINVAL
      end
  end.

(** The bisection of [_seek] over the first messages of the blocks: [None]
    when the block begins with the message that is asked for. *)
Fixpoint seek_bisect (fuel : nat) (seq first last : Z) : FM (option Z) :=
  if first + 1 <? last then
    match fuel with
    | O => ub
    | S fuel =>
        let mid := (first + last) / 2 in
        r ← attempt (_block_seq 2 mid);
        match r with
        | Err EAGAIN => seek_bisect fuel seq first mid
        | Err e => fail e
        | Ok m =>
            if m_seq m =? seq then mret None
            else if seq <? m_seq m then seek_bisect fuel seq first mid
            else seek_bisect fuel seq mid last
        end
    end
  else mret (Some first).

(** The loop of [_seek] over the messages from a block on. *)
Fixpoint seek_scan (fuel : nat) (seq : Z) : FM unit :=
  match fuel with
  | O => ub
  | S fuel =>
      o ← get offset;
      e ← get block_end;
      bs ← get block_size;
      _ ← (if o + bs =? e then _shift_block e else mret tt);
      frame ← _read_frame;
      if frame =? -1 then _ ← _shift_skip; seek_scan fuel seq else
      m ← _read_seq_frame frame;
      if seq <=? m_seq m then mret tt else
      _ ← _shift frame;
      seek_scan fuel seq
  end.

(** [_seek] *)
Definition _seek (fuel : nat) (seq : Z) : FM unit :=
  size ← _file_size;
  bs ← get block_size;
  last ← last_index size bs;
  last ← seek_last last;
  _ ← _block_seq 2 0;
  e ← get block_end;
  r ← seek_bisect fuel seq (e / bs - 1) (Z.of_nat last + 1);
  match r with
  | None => mret tt
  | Some first =>
      _ ← all_einval (_shift_block (first * bs));
      seek_scan fuel seq
  end.

(** ** Writing *)

(** [_write_block] *)
Definition _write_block (start : Z) : FM unit :=
  _ ← io_block start;
  mk ← get size_marker;
  r ← io_writev (Z.lor 5 mk) [0x80];
  _ ← _check_write 5 r;
  _ ← _shift 5;
  n ← get tail_extra_blocks;
  c ← get file_size_cache;
  e ← get block_end;
  bs ← get block_size;
  if negb (n =? 0) && (c <=? e) then _truncate (e + n * bs) else mret tt.

(** [frame_t] *)
Definition frame_bytes (id seq : Z) : list Z := le_bytes 4 id ++ le_bytes 8 seq.

(** [_write_data] *)
Definition _write_data (id seq : Z) (data : list Z) : FM unit :=
  bs ← get block_size;
  let size := 12 + zlen data + 4 + 1 in
  if bs <? size then fail EMSGSIZE else
  o ← get offset;
  e ← get block_end;
  _ ← (if e <? o + size then
         _ ← (if o + 4 <? e then r ← io_writev (-1) []; _check_write 4 r else mret tt);
         io_block e
       else mret tt);
  o ← get offset;
  e ← get block_end;
  _ ← (if o + bs =? e then _write_block o else mret tt);
  mk ← get size_marker;
  r ← io_writev (Z.lor size mk) (frame_bytes id seq ++ data ++ [0x80]);
  _ ← _check_write size r;
  _shift size.

Definition control_seek_msgid : Z := 10.
Definition control_eod_msgid : Z := 20.

(** [_post] *)
Definition _post (fuel : nat) (m : msg) : FM unit :=
  c ← get cf;
  if input c then
    if bool_decide (m_type m = CONTROL) then
      if m_msgid m =? control_seek_msgid then _seek fuel (m_seq m) else mret tt
    else fail ENOSYS
  else if negb (bool_decide (m_type m = DATA)) then mret tt else
  a ← get f_autoseq;
  let '(a, m) := AutoSeq.update a m in
  _ ← upd (with_autoseq a);
  last ← get f_seq;
  if m_seq m <=? last then fail EINVAL else
  bs ← get block_size;
  if bs <? 16 + m_size m then fail EMSGSIZE else
  data ← lift (mem_load (m_data m) 0 (m_size m));
  _ ← _write_data (m_msgid m) (m_seq m) data;
  upd (λ f, with_seqs (m_seq m) (if seq_begin f =? -1 then m_seq m else seq_begin f) (seq_eod f) f).

(** ** Processing *)

(** [_close] *)
Definition _close : FM unit := upd (λ f, with_io 0 (io_buf f) (with_pos 0 0 f)).

Definition emit (m : msg) : FM unit := upd (λ f, with_channel (pending f) (closed f) (out f ++ [m]) f).
Definition set_pending (b : bool) : FM unit := upd (λ f, with_channel b (closed f) (out f) f).

(** [close] of the channel, which is active. *)
Definition close : FM unit := _ ← _close; upd (λ f, with_channel false true (out f) f).

(** What [_process] does at the end of the data; callbacks do not change the
    state of the channel. *)
Definition at_end : FM unit :=
  c ← get cf;
  s ← get f_seq;
  d ← get seq_eod;
  if negb (d =? s) then
    let eod := (negb (autoclose c) || bool_decide (end_of_data c = BeforeClose)) &&
               (bool_decide (end_of_data c = Many) || (d =? LLONG_MIN)) in
    _ ← (if eod then emit (Msg CONTROL 0 control_eod_msgid 0 [] 0 0 0) else mret tt);
    _ ← upd (set_seq_eod s);
    if autoclose c then _ ← close; fail EAGAIN
    else _ ← set_pending false; fail EAGAIN
  else
    _ ← set_pending false;
    fail EAGAIN.

(** [_process] *)
Fixpoint _process (fuel : nat) : FM unit :=
  match fuel with
  | O => ub
  | S fuel =>
      o ← get offset;
      e ← get block_end;
      bs ← get io_block_size;
      _ ← (if o + bs =? e then
             frame ← _read_frame_nocheck;
             if frame =? -1 then fail EINVAL else _shift frame
           else mret tt);
      r ← attempt _read_frame;
      match r with
      | Err EAGAIN => at_end
      | Err e => fail e
      | Ok frame =>
          if frame =? -1 then _ ← _shift_skip; _process fuel else
          let size := _data_size frame in
          if size <? 4 then fail EINVAL else
          r ← attempt (_read_data size);
          match r with
          | Err EAGAIN => _ ← set_pending false; fail EAGAIN
          | Err e => fail e
          | Ok m =>
              _ ← _shift frame;
              _ ← set_pending true;
              _ ← upd (set_seq (m_seq m));
              emit m
          end
      end
  end.

(** ** Metadata (src/channel/file-scheme.h) *)
Definition meta_id : Z := 1635018061.
Definition meta_size : Z := 32.

(** The buffer that [_write_meta] builds: a frame, the message [Meta] with the
    text of the scheme behind it and the tail. *)
Definition meta_bytes (block version : Z) (scheme : option (list Z)) : option (list Z) :=
  let buf := zeros 16 in
  let buf := Binder.view_resize buf 16 meta_size in
  let! buf := Binder._set_scalar 2 buf (16 + 0) meta_size in
  let! buf := Binder._set_scalar 4 buf (16 + 4) block in
  let! buf := Binder._set_scalar 1 buf (16 + 2) version in
  let! buf := Binder._set_scalar 1 buf (16 + 3) 0 in
  let! buf := (match scheme with Some s => Binder._set_string buf (16 + 8) s | None => Some buf end) in
  let buf := buf ++ [0x80] in
  let! buf := Binder._set_scalar 4 buf 0 (zlen buf) in
  mem_store buf 4 (frame_bytes meta_id 0).

(** [_write_meta] *)
Definition _write_meta : FM unit :=
  _ ← upd (λ f, with_pos 0 (block_end f) f);
  bs ← get block_size;
  v ← get f_version;
  s ← get f_scheme;
  buf ← lift (meta_bytes bs v s);
  r ← (λ f, let '(r, f) := pwrite buf 0 f in Some (Ok r, f));
  _ ← _check_write (zlen buf) r;
  _shift (zlen buf).

(** [_read_meta]; the data with compression is outside of the model. *)
Definition _read_meta : FM unit :=
  _ ← upd (λ f, with_pos 0 (block_end f) f);
  d ← get disk;
  let frame := pread d 16 0 in
  if negb (zlen frame =? 16) then fail EINVAL else
  if negb (i32 (le_value (take 4 (drop 4 frame))) =? meta_id) then fail EINVAL else
  let size := i32 (le_value (take 4 frame)) in
  if size <? 16 + 1 then fail EINVAL else
  if 4 * 1024 * 1024 <? size then fail EINVAL else
  let buf := pread d (size - 16) 16 in
  if negb (zlen buf =? size - 16) then fail EINVAL else
  if Z.land (List.last buf 0) 0x80 =? 0 then fail EINVAL else
  let buf := removelast buf in
  if zlen buf <? meta_size then fail EINVAL else
  v ← lift (Binder._get_scalar 1 buf 2);
  if 2 <=? v then fail EINVAL else
  _ ← upd (λ f, with_meta (block_size f) v (f_scheme f) f);
  bs ← lift (Binder._get_scalar 4 buf 4);
  _ ← upd (λ f, with_meta bs v (f_scheme f) f);
  comp ← lift (Binder._get_scalar 1 buf 3);
  if comp =? 1 then ub else
  if negb (comp =? 0) then fail EINVAL else
  s ← lift (Binder._get_string buf 8);
  own ← get f_scheme;
  c ← get cf;
  match own with
  | Some _ => mret tt
  | None =>
      if zlen s =? 0 then mret tt else
      if negb (scheme_load c s) then fail EINVAL else
      upd (with_meta bs v (Some s))
  end.

(** ** Opening *)

(** Parameters of [_open]. *)
Inductive open_mode := ModeSeq | ModeLast | ModeEnd.
#[global] Instance open_mode_eq_dec : EqDecision open_mode.
Proof. solve_decision. Defined.

Record open_params := OpenParams { mode : open_mode; seq_param : option Z; overwrite : bool }.

(** The members that [_open] sets before it opens the file.  The scheme is
    the one that the base class has loaded from the parameters of the channel. *)
Definition open_reset (f : file) : file :=
  let c := cf f in
  with_seqs (-1) (-1) LLONG_MIN (with_cache 0 (with_marker 0
    (with_meta (block_init c) (version_init c) (scheme_init c) (with_io 0 (io_buf f) (with_pos 0 0 f))))).

Definition set_marker : FM unit :=
  v ← get f_version;
  if 1 <=? v then upd (with_marker 0x80000000) else mret tt.

(** A failure of [_file_bounds] other than an empty file. *)
Definition load_bounds (fuel : nat) : FM unit :=
  r ← attempt (_file_bounds fuel);
  match r with Ok _ => mret tt | Err EAGAIN => mret tt | Err _ => fail EINVAL end.

Definition open_seek (fuel : nat) (seq : Z) : FM unit :=
  r ← attempt (_seek fuel seq);
  match r with Ok _ => mret tt | Err EAGAIN => mret tt | Err _ => fail EINVAL end.

(** [_open] for reading; [exists_] is whether the file is there. *)
Definition open_read (fuel : nat) (exists_ : bool) (p : open_params) : FM unit :=
  _ ← upd open_reset;
  if negb exists_ then fail EINVAL else
  _ ← all_einval _read_meta;
  bs ← get block_size;
  _ ← io_init bs;
  _ ← set_marker;
  _ ← load_bounds fuel;
  last ← get f_seq;
  _ ← (match mode p with
       | ModeEnd => mret tt
       | ModeLast => open_seek fuel last
       | ModeSeq =>
           match seq_param p with
           | Some s => open_seek fuel s
           | None => _seek_start
           end
       end);
  set_pending true.

(** The new file is written under a temporary name and then renamed, so that
    a failure leaves the old one. *)
Definition create_file : FM unit := λ f,
  match all_einval _write_meta (with_disk [] f) with
  | Some (Err e, f') => Some (Err e, with_disk (disk f) f')
  | r => r
  end.

(** The number of blocks that are kept behind the data. *)
Definition set_extra (bs : Z) (c : conf) : FM unit :=
  if tail_extra_size c =? 0 then upd (with_extra 0)
  else if bs =? 0 then ub
  else upd (with_extra ((tail_extra_size c + bs - 1) / bs)).

(** What follows the last message is cut off. *)
Definition trim : FM unit :=
  size ← _file_size;
  o ← get offset;
  if negb (size =? o) then
    r ← attempt (io_read 4 0);
    match r with Ok _ => _truncate o | Err _ => mret tt end
  else mret tt.

Definition extend (bs : Z) : FM unit :=
  n ← get tail_extra_blocks;
  e ← get block_end;
  if negb (n =? 0) then _truncate (e + bs * n) else mret tt.

(** [_open] for writing. *)
Definition open_write (fuel : nat) (exists_ : bool) (p : open_params) : FM unit :=
  _ ← upd open_reset;
  d ← get disk;
  _ ← (if overwrite p || negb exists_ || (zlen d =? 0) then create_file else all_einval _read_meta);
  _ ← set_marker;
  bs ← get block_size;
  c ← get cf;
  _ ← set_extra bs c;
  _ ← io_init bs;
  _ ← load_bounds fuel;
  _ ← upd (λ f, with_autoseq (fst (AutoSeq.reset (f_autoseq f) (f_seq f))) f);
  _ ← trim;
  extend bs.

(** [_open] *)
Definition _open (fuel : nat) (exists_ : bool) (p : open_params) : FM unit :=
  c ← get cf;
  if input c then open_read fuel exists_ p else open_write fuel exists_ p.

(** A channel of the given parameters over the file [d] ([_init]). *)
Definition new (c : conf) (autoseq : bool) (d : list Z) (lim : Z) : file :=
  File d lim 0 0 0 0 c (-1) (-1) LLONG_MIN 0 0 0 0 0 (scheme_init c) (AutoSeq.AutoSeqT (-1) autoseq) false false [].

End File.
