(* ===== verification/FileLayout.v ===== *)
(** * Layout of files

    What the bytes of a file are when they hold a list of messages, and what
    the functions of [File] that read frames do on them.  Blocks are described by
    the messages in each of them: [bs !! k] are those of block [k]. *)
From S2P Require Import Prelude Mem Callback Channel Reopen Binder File.
Import Cb Chan File.

Module FileLayout.

(** ** Bytes of a file *)

(** The file has the bytes [bs] at [off]. *)
Definition at_ (d : list Z) (off : Z) (bs : list Z) : Prop := pread d (zlen bs) off = bs.

Lemma zlen_pread d n off : 0 ≤ off → 0 ≤ n → zlen (pread d n off) = Z.max 0 (Z.min n (zlen d - off)).
Proof. intros. unfold pread, zlen. rewrite length_take, length_drop. lia. Qed.

Lemma at_bound d off bs : 0 ≤ off → at_ d off bs → bs = [] ∨ off + zlen bs ≤ zlen d.
Proof.
  intros Ho H. unfold at_ in H. pose proof (zlen_pread d (zlen bs) off Ho (zlen_nonneg bs)) as E. rewrite H in E.
  pose proof (zlen_nonneg bs). destruct bs; [by left|]. rewrite zlen_cons in *. pose proof (zlen_nonneg bs). right. lia.
Qed.

Lemma at_app d off a b : 0 ≤ off → at_ d off (a ++ b) ↔ at_ d off a ∧ at_ d (off + zlen a) b.
Proof.
  intros Ho. unfold at_, pread, zlen. rewrite length_app, !Nat2Z.id.
  rewrite Z2Nat.inj_add, !Nat2Z.id by lia.
  rewrite <-drop_drop, <-take_take_drop. split.
  - intros E. apply app_inj_1 in E; [done|]. apply (f_equal length) in E.
  rewrite !length_app, !length_take, !length_drop in E. rewrite length_take, length_drop. lia.
  - intros [-> ->]. done.
Qed.

Lemma at_lookup d off bs (i : nat) x : 0 ≤ off → at_ d off bs → bs !! i = Some x → d !! (Z.to_nat off + i)%nat = Some x.
Proof.
  intros Ho H Hi. unfold at_, pread, zlen in H. rewrite Nat2Z.id in H. rewrite <-H in Hi.
  apply lookup_take_Some in Hi as [Hi _]. by rewrite lookup_drop in Hi.
Qed.

(** The bytes stay when the file agrees on them. *)
Lemma at_ext d d' off bs :
  0 ≤ off → at_ d off bs → (∀ i : nat, off ≤ Z.of_nat i < off + zlen bs → d' !! i = d !! i) → at_ d' off bs.
Proof.
  intros Ho H Hi. unfold at_, pread, zlen in *. rewrite Nat2Z.id in *. apply list_eq. intros i.
  destruct (decide (i < length bs)%nat) as [Hl|Hl].
  - rewrite lookup_take_lt, lookup_drop, Hi by lia. rewrite <-lookup_drop, <-(lookup_take_lt _ (length bs)) by lia.
  by rewrite H.
  - rewrite !lookup_ge_None_2; [done|lia|]. rewrite length_take. lia.
Qed.

Lemma write_at_lookup d off bs (i : nat) :
  0 ≤ off →
  write_at d off bs !! i =
    if Z.of_nat i <? off then (match d !! i with Some x => Some x | None => Some 0 end)
    else if Z.of_nat i <? off + zlen bs then bs !! (i - Z.to_nat off)%nat else d !! i.
Proof.
  intros Ho. unfold write_at. pose proof (zlen_nonneg bs).
  destruct (Z.ltb_spec (Z.of_nat i) off) as [H1|H1].
  - destruct (d !! i) as [x|] eqn:E.
  + apply lookup_app_l_Some. rewrite lookup_take_lt by lia. done.
  + apply lookup_ge_None_1 in E. rewrite lookup_app_r by (rewrite length_take; lia).
    apply lookup_app_l_Some. unfold Binder.zeros. apply lookup_replicate_2.
    rewrite length_take. unfold zlen. lia.
  - rewrite app_assoc. assert (length (take (Z.to_nat off) d ++ zeros (off - zlen d)) = Z.to_nat off) as El.
  { rewrite length_app, length_take. unfold Binder.zeros, zlen. rewrite length_replicate. lia. }
  rewrite lookup_app_r by lia. rewrite El.
  destruct (Z.ltb_spec (Z.of_nat i) (off + zlen bs)) as [H2|H2]; unfold zlen in *.
  + rewrite lookup_app_l by lia. done.
  + rewrite lookup_app_r by lia. rewrite lookup_drop. f_equal. lia.
Qed.

Lemma zlen_write_at d off bs : 0 ≤ off → 0 < zlen bs → zlen (write_at d off bs) = Z.max (zlen d) (off + zlen bs).
Proof.
  intros. unfold write_at, Binder.zeros, zlen in *.
  rewrite !length_app, length_take, length_replicate, length_drop. lia.
Qed.

(** What is written is there, and the bytes before and behind stay. *)
Lemma write_at_same d off bs : 0 ≤ off → at_ (write_at d off bs) off bs.
Proof.
  intros Ho. unfold at_, pread. apply list_eq. intros i. unfold zlen. rewrite Nat2Z.id.
  destruct (decide (i < length bs)%nat) as [Hl|Hl].
  - rewrite lookup_take_lt, lookup_drop, write_at_lookup by lia. unfold zlen. tests. f_equal. lia.
  - rewrite !lookup_ge_None_2; [done|lia|]. rewrite length_take. lia.
Qed.

Lemma write_at_before d off bs a l : 0 ≤ a → a + zlen l ≤ off → at_ d a l → at_ (write_at d off bs) a l.
Proof.
  intros Ha Hl H. destruct (at_bound d a l Ha H) as [->|Hb]; [done|].
  apply (at_ext d); [done..|]. intros i Hi. rewrite write_at_lookup by lia. tests.
  destruct (d !! i) eqn:E; [done|]. apply lookup_ge_None_1 in E. unfold zlen in *. lia.
Qed.

Lemma resize_to_lookup d n (i : nat) :
  0 ≤ n → resize_to d n !! i = if Z.of_nat i <? n then (match d !! i with Some x => Some x | None => Some 0 end) else None.
Proof.
  intros Hn. unfold resize_to. destruct (Z.ltb_spec (Z.of_nat i) n) as [H1|H1].
  - destruct (d !! i) as [x|] eqn:E.
  + apply lookup_app_l_Some. rewrite lookup_take_lt by lia. done.
  + apply lookup_ge_None_1 in E. rewrite lookup_app_r by (rewrite length_take; lia).
    unfold Binder.zeros. apply lookup_replicate_2. rewrite length_take. unfold zlen. lia.
  - apply lookup_ge_None_2. rewrite length_app, length_take. unfold Binder.zeros, zlen. rewrite length_replicate. lia.
Qed.

Lemma zlen_resize_to d n : 0 ≤ n → zlen (resize_to d n) = n.
Proof. intros. unfold resize_to, Binder.zeros, zlen. rewrite length_app, length_take, length_replicate. lia. Qed.

Lemma resize_to_before d n a l : 0 ≤ a → a + zlen l ≤ n → at_ d a l → at_ (resize_to d n) a l.
Proof.
  intros Ha Hl H. pose proof (zlen_nonneg l). destruct (at_bound d a l Ha H) as [->|Hb]; [done|].
  apply (at_ext d); [done..|]. intros i Hi. rewrite resize_to_lookup by lia. tests.
  destruct (d !! i) eqn:E; [done|]. apply lookup_ge_None_1 in E. unfold zlen in *. lia.
Qed.

(** ** Frames

    The size of a frame as it is written, with the marker [mk] of the version. *)
Definition marker_ok (mk : Z) : Prop := mk = 0 ∨ mk = 0x80000000.

Definition msize (m : msg) : Z := 12 + zlen (m_data m) + 4 + 1.

Definition enc (mk : Z) (m : msg) : list Z :=
  le_bytes 4 (Z.lor (msize m) mk) ++ frame_bytes (m_msgid m) (m_seq m) ++ m_data m ++ [0x80].

Definition skip : list Z := le_bytes 4 (-1).

(** A message as it is read back. *)
Definition entry_ok (m : msg) : Prop :=
  m = mk_data (m_msgid m) (m_seq m) (m_data m) ∧
  - 2 ^ 31 ≤ m_msgid m < 2 ^ 31 ∧ - 2 ^ 63 ≤ m_seq m < 2 ^ 63.

Lemma msize_pos m : 17 ≤ msize m.
Proof. unfold msize. pose proof (zlen_nonneg (m_data m)). lia. Qed.

Lemma zlen_frame_bytes a b : zlen (frame_bytes a b) = 12.
Proof. unfold frame_bytes. by rewrite zlen_app, !zlen_le_bytes. Qed.

Lemma zlen_enc mk m : zlen (enc mk m) = msize m.
Proof. unfold enc, msize. rewrite !zlen_app, zlen_frame_bytes, zlen_le_bytes. change (zlen [128]) with 1. lia. Qed.

Lemma land_0x80 b : 0 ≤ b < 256 → (Z.land b 0x80 =? 0) = (b <? 128).
Proof.
  intros Hb. assert (forallb (λ b, Bool.eqb (Z.land b 0x80 =? 0) (b <? 128)) (seqZ 0 256) = true) as H by (vm_compute; done).
  rewrite forallb_forall in H. apply Bool.eqb_prop, H, list_elem_of_In, elem_of_seqZ. lia.
Qed.

Lemma lor_marker n : 0 ≤ n < 2 ^ 31 → Z.lor n 0x80000000 = n + 2 ^ 31.
Proof.
  intros Hn. change 0x80000000 with (2 ^ 31). rewrite <-Z.add_lor_land.
  assert (Z.land n (2 ^ 31) = 0) as ->; [|lia].
  apply Z.bits_inj_0. intros i. rewrite Z.land_spec.
  destruct (decide (i = 31)) as [->|Hi].
  - destruct (decide (n = 0)) as [->|]; [by rewrite Z.bits_0|].
  rewrite (Z.bits_above_log2 n 31); [done|lia|]. apply Z.log2_lt_pow2; lia.
  - rewrite Z.pow2_bits_false by lia. apply andb_false_r.
Qed.

(** The size read from the bytes of a frame, with the test of the marker. *)
Definition frame_value (mk o : Z) (bs : list Z) : result errno Z :=
  let frame := i32 (le_value bs) in
  if negb (mk =? 0) && negb (o =? 0) then
    if Z.land (nth 3 bs 0) 0x80 =? 0 then Err EAGAIN
    else Ok (if negb (frame =? -1) then Z.land frame 0x7fffffff else frame)
  else Ok frame.

Lemma le_value_4 z : 0 ≤ z < 2 ^ 32 → le_value (le_bytes 4 z) = z.
Proof. intros. rewrite le_value_bytes. change (256 ^ Z.of_nat 4) with (2 ^ 32). apply Z.mod_small. lia. Qed.

Lemma le_bytes_3 z : 0 ≤ z < 2 ^ 32 → nth 3 (le_bytes 4 z) 0 = z / 2 ^ 24.
Proof.
  intros Hz. cbn [le_bytes nth]. rewrite !Z.div_div by lia. change (256 * 256 * 256) with (2 ^ 24).
  apply Z.mod_small. split; [apply Z.div_pos; lia|apply Z.div_lt_upper_bound; lia].
Qed.

Lemma frame_value_plain o n mk : 0 ≤ n < 2 ^ 31 → mk = 0 ∨ o = 0 → frame_value mk o (le_bytes 4 n) = Ok n.
Proof.
  intros Hn Ho. unfold frame_value. rewrite le_value_4 by lia. rewrite (wraps_id 32) by lia.
  destruct (Z.eqb_spec mk 0), (Z.eqb_spec o 0); cbn; try done; lia.
Qed.

Lemma frame_value_size o n mk : marker_ok mk → o ≠ 0 → 0 ≤ n < 2 ^ 31 - 1 → frame_value mk o (le_bytes 4 (Z.lor n mk)) = Ok n.
Proof.
  intros [->| ->] Ho Hn; [rewrite Z.lor_0_r; apply frame_value_plain; [lia|by left]|].
  rewrite lor_marker by lia. unfold frame_value. rewrite le_value_4, le_bytes_3 by lia. tests. cbn [negb andb].
  assert (128 ≤ (n + 2 ^ 31) / 2 ^ 24 < 256) as Hb.
  { split; [apply Z.div_le_lower_bound; lia|apply Z.div_lt_upper_bound; lia]. }
  rewrite land_0x80 by lia. tests.
  assert (i32 (n + 2 ^ 31) = n - 2 ^ 31) as ->.
  { unfold wraps. replace (n + 2 ^ 31 + 2 ^ (32 - 1)) with (n + 1 * 2 ^ 32) by lia. rewrite Z.mod_add, Z.mod_small by lia. lia. }
  tests. cbn [negb]. f_equal. change 0x7fffffff with (Z.ones 31). rewrite Z.land_ones by lia.
  replace (n - 2 ^ 31) with (n + (-1) * 2 ^ 31) by lia. rewrite Z.mod_add, Z.mod_small by lia. done.
Qed.

Lemma frame_value_skip mk o : frame_value mk o skip = Ok (-1).
Proof. unfold frame_value. destruct (negb (mk =? 0) && negb (o =? 0)); reflexivity. Qed.

Lemma frame_value_zero mk o : frame_value mk o [0; 0; 0; 0] = Ok 0 ∨ frame_value mk o [0; 0; 0; 0] = Err EAGAIN.
Proof. unfold frame_value. destruct (negb (mk =? 0) && negb (o =? 0)); [by right|by left]. Qed.

(** ** Reading of one frame *)

(** Evaluate a step of the monad. *)
Lemma FM_bind_ok {A B} (m : FM A) (k : A → FM B) f a f' : m f = Some (Ok a, f') → (x ← m; k x) f = k a f'.
Proof. intros H. unfold mbind, FM_bind. by rewrite H. Qed.
Lemma FM_bind_err {A B} (m : FM A) (k : A → FM B) f e f' : m f = Some (Err e, f') → (x ← m; k x) f = Some (Err e, f').
Proof. intros H. unfold mbind, FM_bind. by rewrite H. Qed.
Lemma FM_bind_get {A B} (g : file → A) (k : A → FM B) f : (x ← get g; k x) f = k (g f) f.
Proof. reflexivity. Qed.
Lemma FM_bind_upd {B} (g : file → file) (k : unit → FM B) f : (x ← upd g; k x) f = k tt (g f).
Proof. reflexivity. Qed.
Lemma FM_bind_ret {A B} (a : A) (k : A → FM B) f : (x ← mret a; k x) f = k a f.
Proof. reflexivity. Qed.
Lemma FM_bind_attempt {A B} (m : FM A) (k : result errno A → FM B) f r f' :
  m f = Some (r, f') → (x ← attempt m; k x) f = k r f'.
Proof. intros H. unfold mbind, FM_bind, attempt. by rewrite H. Qed.

Lemma or_einval_ok {A} (m : FM A) f a f' : m f = Some (Ok a, f') → or_einval m f = Some (Ok a, f').
Proof. intros H. unfold or_einval. by rewrite (FM_bind_attempt _ _ _ _ _ H). Qed.
Lemma or_einval_again {A} (m : FM A) f f' : m f = Some (Err EAGAIN, f') → or_einval m f = Some (Err EAGAIN, f').
Proof. intros H. unfold or_einval. by rewrite (FM_bind_attempt _ _ _ _ _ H). Qed.
Lemma all_einval_ok {A} (m : FM A) f a f' : m f = Some (Ok a, f') → all_einval m f = Some (Ok a, f').
Proof. intros H. unfold all_einval. by rewrite (FM_bind_attempt _ _ _ _ _ H). Qed.

Lemma io_read_at f n off bs :
  0 ≤ offset f + off → zlen bs = n → n < 2 ^ 63 → n ≤ io_buf f → at_ (disk f) (offset f + off) bs →
  io_read n off f = Some (Ok bs, f).
Proof.
  intros Ho <- Hn Hb H. unfold io_read. tests. unfold at_ in H. rewrite H. tests. done.
Qed.

Lemma io_read_short f n off :
  0 ≤ offset f + off → 0 < n < 2 ^ 63 → n ≤ io_buf f → zlen (disk f) < offset f + off + n →
  io_read n off f = Some (Err EAGAIN, f).
Proof.
  intros Ho Hn Hb Hd. unfold io_read. tests. cbv zeta. rewrite !zlen_pread by lia. tests. done.
Qed.

(** The outcome of [_read_frame_nocheck] for the four bytes at the position. *)
Definition frame_result (mk o e : Z) (bs : list Z) : result errno Z :=
  let? fr := frame_value mk o bs in
  if 4 <? fr then if e <? o + fr then Err EMSGSIZE else Ok fr
  else if fr =? 0 then Err EAGAIN
  else if fr <? 0 then Ok fr
  else Err EMSGSIZE.

Lemma read_frame_nocheck_at f bs :
  0 ≤ offset f → 4 ≤ io_buf f → zlen bs = 4 → at_ (disk f) (offset f) bs →
  _read_frame_nocheck f = Some (frame_result (size_marker f) (offset f) (block_end f) bs, f).
Proof.
  intros Ho Hb Hl H. unfold _read_frame_nocheck.
  rewrite (FM_bind_ok _ _ f bs f) by (apply or_einval_ok, io_read_at; rewrite ?Z.add_0_r; done || lia).
  rewrite !FM_bind_get. cbv zeta. unfold frame_result, frame_value.
  destruct (negb (size_marker f =? 0) && negb (offset f =? 0)).
  - destruct (Z.land (nth 3 bs 0) 0x80 =? 0); [reflexivity|]. rewrite FM_bind_ret. cbn [result_bind].
  repeat case_bool; reflexivity.
  - rewrite FM_bind_ret. cbn [result_bind]. repeat case_bool; reflexivity.
Qed.

Lemma read_frame_nocheck_short f :
  0 ≤ offset f → 4 ≤ io_buf f → zlen (disk f) < offset f + 4 →
  _read_frame_nocheck f = Some (Err EAGAIN, f).
Proof.
  intros Ho Hb Hd. unfold _read_frame_nocheck.
  by rewrite (FM_bind_err _ _ f EAGAIN f) by (apply or_einval_again, io_read_short; lia).
Qed.

Lemma frame_result_size mk o e n :
  marker_ok mk → o ≠ 0 → 5 ≤ n < 2 ^ 31 - 1 → o + n ≤ e → frame_result mk o e (le_bytes 4 (Z.lor n mk)) = Ok n.
Proof. intros. unfold frame_result. rewrite frame_value_size by (done || lia). cbn [result_bind]. tests. done. Qed.

Lemma frame_result_skip mk o e : frame_result mk o e skip = Ok (-1).
Proof. unfold frame_result. rewrite frame_value_skip. reflexivity. Qed.

Lemma frame_result_zero mk o e : frame_result mk o e [0; 0; 0; 0] = Err EAGAIN.
Proof. unfold frame_result. destruct (frame_value_zero mk o) as [-> | ->]; reflexivity. Qed.

Lemma data_size_id n : 17 ≤ n < 2 ^ 31 → _data_size n = n - 5 ∧ (_data_size n <? 4) = false.
Proof. intros. unfold _data_size. rewrite (wrapu_id 64) by lia. tests. split; [lia|done]. Qed.

Lemma read_seq_frame_eq n : 17 ≤ n < 2 ^ 31 → _read_seq_frame n = _read_data (_data_size n).
Proof. intros Hn. unfold _read_seq_frame. cbv zeta. by rewrite (proj2 (data_size_id n Hn)). Qed.

(** Reading of the data of a message whose frame is at the position. *)
Lemma read_data_at mk f m :
  entry_ok m → 0 ≤ offset f → msize m ≤ io_buf f → msize m < 2 ^ 31 → at_ (disk f) (offset f) (enc mk m) →
  _read_data (_data_size (msize m)) f = Some (Ok m, f).
Proof.
  intros (Hm & Hid & Hseq) Ho Hb Hn H. pose proof (msize_pos m) as Hp. pose proof (zlen_nonneg (m_data m)).
  unfold _data_size. rewrite (wrapu_id 64) by lia.
  assert (msize m - 4 - 1 = 12 + zlen (m_data m)) as Hs by (unfold msize; lia). rewrite Hs.
  unfold enc in H. apply at_app in H as [_ H]; [|done]. rewrite zlen_le_bytes in H. change (Z.of_nat 4) with 4 in H.
  set (body := frame_bytes _ _ ++ _ ++ _) in H.
  assert (zlen body = 12 + zlen (m_data m) + 1) as Hl.
  { unfold body. rewrite !zlen_app, zlen_frame_bytes. change (zlen [128]) with 1. lia. }
  unfold _read_data. rewrite (wrapu_id 64) by lia.
  rewrite (FM_bind_ok _ _ f body f) by (apply or_einval_ok, io_read_at; done || lia).
  assert (Z.to_nat (12 + zlen (m_data m)) = length (frame_bytes (m_msgid m) (m_seq m) ++ m_data m)) as Hlen.
  { rewrite length_app. pose proof (zlen_frame_bytes (m_msgid m) (m_seq m)). unfold zlen in *. lia. }
  assert (body = (frame_bytes (m_msgid m) (m_seq m) ++ m_data m) ++ [128]) as -> by (unfold body; by rewrite app_assoc).
  rewrite Hlen, nth_middle. change (Z.land 128 128 =? 0) with false. cbv iota zeta.
  rewrite take_app_length. tests. unfold frame_bytes. rewrite <-!app_assoc.
  rewrite take_app_length' by (by rewrite length_le_bytes). rewrite drop_app_length' by (by rewrite length_le_bytes).
  rewrite take_app_length' by (by rewrite length_le_bytes). unfold mret, FM_ret. do 3 f_equal.
  rewrite (app_assoc (le_bytes 4 _)), drop_app_length' by (by rewrite length_app, !length_le_bytes).
  rewrite Hm at 4. f_equal.
  - rewrite le_value_bytes. change (256 ^ Z.of_nat 4) with (2 ^ 32). unfold wraps.
  rewrite Zplus_mod_idemp_l, Z.mod_small by lia. lia.
  - rewrite le_value_bytes. change (256 ^ Z.of_nat 8) with (2 ^ 64). unfold wraps.
  rewrite Zplus_mod_idemp_l, Z.mod_small by lia. lia.
Qed.

(** The data is not complete. *)
Lemma read_data_torn f n :
  17 ≤ n < 2 ^ 31 → 0 ≤ offset f → n ≤ io_buf f → zlen (disk f) < offset f + n →
  _read_data (_data_size n) f = Some (Err EAGAIN, f).
Proof.
  intros Hn Ho Hb Hd. unfold _data_size, _read_data. rewrite (wrapu_id 64 (n - 4 - 1)), (wrapu_id 64) by lia.
  by rewrite (FM_bind_err _ _ f EAGAIN f) by (apply or_einval_again, io_read_short; lia).
Qed.

(** ** Blocks *)

(** Size of a block, marker of the version and size of the frame of metadata. *)
Record geo := Geo { gB : Z; gmk : Z; gh : Z }.

Definition geo_ok (g : geo) : Prop :=
  marker_ok (gmk g) ∧ 22 ≤ gB g < 2 ^ 31 - 1 ∧ 17 ≤ gh g ≤ gB g.

Definition start (g : geo) (k : nat) : Z := Z.of_nat k * gB g.
Definition hlen (g : geo) (k : nat) : Z := match k with O => gh g | S _ => 5 end.
Definition hbytes (g : geo) (k : nat) : list Z :=
  le_bytes 4 (match k with O => gh g | S _ => Z.lor 5 (gmk g) end).
Definition body (g : geo) (ms : list msg) : list Z := concat (map (enc (gmk g)) ms).
Definition used (g : geo) (k : nat) (ms : list msg) : Z := hlen g k + zlen (body g ms).
Definition eob (g : geo) (k : nat) (ms : list msg) : Z := start g k + used g k ms.

Definition block_at (g : geo) (d : list Z) (k : nat) (ms : list msg) : Prop :=
  at_ d (start g k) (hbytes g k) ∧ at_ d (start g k + hlen g k) (body g ms).

(** No frame can be read at [o]: the file ends, or has zeros. *)
Definition quiet0 (d : list Z) (o : Z) : Prop := zlen d < o + 4 ∨ at_ d o [0; 0; 0; 0].

(** The file ends inside of the frame at [o]. *)
Definition torn (g : geo) (d : list Z) (o e : Z) : Prop :=
  ∃ n, 17 ≤ n ∧ o + n ≤ e ∧ at_ d o (le_bytes 4 (Z.lor n (gmk g))) ∧ zlen d < o + n.

(** Nothing more follows in a block. *)
Definition full (g : geo) (d : list Z) (k : nat) (ms : list msg) : Prop :=
  gB g - used g k ms < 17 ∨ (at_ d (eob g k ms) skip ∧ ms ≠ []).

Record laid (g : geo) (d : list Z) (bs : list (list msg)) : Prop := {
  l_some : bs ≠ [];
  l_block k ms : bs !! k = Some ms → block_at g d k ms ∧ used g k ms ≤ gB g ∧ Forall entry_ok ms;
  l_full k ms : bs !! k = Some ms → (S k < length bs)%nat → full g d k ms;
  l_inner k : (S k < length bs)%nat → bs !! S k ≠ Some [] ∨ (S (S k) = length bs)%nat;
  l_last k ms : bs !! k = Some ms → S k = length bs →
    full g d k ms ∨ quiet0 d (eob g k ms) ∨ torn g d (eob g k ms) (start g (S k));
  l_behind k : (length bs ≤ k)%nat → quiet0 d (start g k);
}.

Definition ready (g : geo) (f : file) : Prop :=
  block_size f = gB g ∧ io_block_size f = gB g ∧ io_buf f = gB g ∧ size_marker f = gmk g.

(** The position is behind the first [i] messages of block [k]. *)
Definition pos_at (g : geo) (k : nat) (ms : list msg) (i : nat) (f : file) : Prop :=
  offset f = eob g k (take i ms) ∧ block_end f = start g (S k).

(** What is left to read at a position. *)
Definition cursor (g : geo) (bs : list (list msg)) (f : file) (rest : list msg) : Prop :=
  ∃ k i ms, bs !! k = Some ms ∧ (i ≤ length ms)%nat ∧ pos_at g k ms i f ∧
    rest = drop i ms ++ concat (drop (S k) bs).

(** The position at the end: behind the last message, or at the start of the
    next block when the last one is full. *)
Definition tip (g : geo) (d : list Z) (bs : list (list msg)) (f : file) : Prop :=
  ∃ k ms, bs !! k = Some ms ∧ S k = length bs ∧
    (pos_at g k ms (length ms) f ∨
     (full g d k ms ∧ offset f = start g (S k) ∧ block_end f = start g (S (S k)))).

Section Reading.
Context (g : geo) (Hg : geo_ok g).

Lemma start_S k : start g (S k) = start g k + gB g.
Proof. unfold start. lia. Qed.

Lemma start_nonneg k : 0 ≤ start g k.
Proof. destruct Hg as (_ & ? & _). unfold start. nia. Qed.

Lemma hlen_pos k : 5 ≤ hlen g k.
Proof. destruct Hg as (_ & _ & ?). destruct k; cbn; lia. Qed.

Lemma body_app a b : body g (a ++ b) = body g a ++ body g b.
Proof. unfold body. by rewrite map_app, concat_app. Qed.
Lemma body_one m : body g [m] = enc (gmk g) m.
Proof. unfold body. cbn. by rewrite app_nil_r. Qed.
Lemma zlen_body_cons m ms : zlen (body g (m :: ms)) = msize m + zlen (body g ms).
Proof. change (m :: ms) with ([m] ++ ms). by rewrite body_app, body_one, zlen_app, zlen_enc. Qed.

Lemma used_nil k : used g k [] = hlen g k.
Proof. unfold used. change (zlen (body g [])) with 0. lia. Qed.
Lemma used_app k a b : used g k (a ++ b) = used g k a + zlen (body g b).
Proof. unfold used. rewrite body_app, zlen_app. lia. Qed.
Lemma used_take_S k ms i m : ms !! i = Some m → used g k (take (S i) ms) = used g k (take i ms) + msize m.
Proof.
  intros H. rewrite (take_S_r _ _ _ H), used_app, body_one. by rewrite zlen_enc.
Qed.
Lemma used_pos k ms : 5 ≤ used g k ms.
Proof. unfold used. pose proof (hlen_pos k). pose proof (zlen_nonneg (body g ms)). lia. Qed.
Lemma eob_pos k ms : 0 < eob g k ms.
Proof. unfold eob. pose proof (used_pos k ms). pose proof (start_nonneg k). lia. Qed.

Lemma used_drop k ms i : used g k ms = used g k (take i ms) + zlen (body g (drop i ms)).
Proof. rewrite <-used_app. by rewrite take_drop. Qed.

Lemma block_msg d k ms i m :
    block_at g d k ms → ms !! i = Some m → at_ d (eob g k (take i ms)) (enc (gmk g) m).
Proof.
  intros [_ H] Hi. rewrite <-(take_drop_middle ms i m Hi) in H. rewrite body_app in H.
  pose proof (start_nonneg k). pose proof (hlen_pos k).
  apply at_app in H as [_ H]; [|lia].
  change (m :: drop (S i) ms) with ([m] ++ drop (S i) ms) in H. rewrite body_app, body_one in H.
  apply at_app in H as [H _]; [|pose proof (zlen_nonneg (body g (take i ms))); lia].
  unfold eob, used. by rewrite Z.add_assoc.
Qed.

Lemma ready_pos o e f : ready g f → ready g (with_pos o e f).
Proof. done. Qed.

Lemma with_pos_same f : with_pos (offset f) (block_end f) f = f.
Proof. by destruct f. Qed.

(** *** Frames at known places *)
Lemma nocheck_block d k ms f :
    ready g f → disk f = d → block_at g d k ms → offset f = start g k → start g (S k) ≤ block_end f → hlen g k ≤ gB g →
    _read_frame_nocheck f = Some (Ok (hlen g k), f).
Proof.
  intros (_ & _ & Hbuf & Hmk) Hd [H _] Ho He Hh. pose proof (start_nonneg k). pose proof (hlen_pos k).
  rewrite start_S in He. destruct Hg as (Hm & HB & Hgh).
  rewrite (read_frame_nocheck_at f (hbytes g k)); [|lia|lia| |by rewrite Hd, Ho].
  2: { unfold hbytes. by rewrite zlen_le_bytes. }
  rewrite Hmk, Ho. do 2 f_equal. unfold hbytes, frame_result. destruct k; cbn [hlen] in *.
  - rewrite frame_value_plain by (unfold start; lia). cbn [result_bind]. tests. done.
  - rewrite frame_value_size by (unfold start in *; done || lia). cbn [result_bind]. tests. done.
Qed.

Lemma nocheck_quiet f o :
    ready g f → quiet0 (disk f) o → offset f = o → 0 ≤ o →
    _read_frame_nocheck f = Some (Err EAGAIN, f).
Proof.
  intros (_ & _ & Hbuf & Hmk) Hq Ho Hp. destruct Hg as (_ & HB & _). destruct Hq as [Hq|Hq].
  - apply read_frame_nocheck_short; lia.
  - rewrite (read_frame_nocheck_at f [0; 0; 0; 0]); [|lia|lia|done|by rewrite Ho].
    by rewrite frame_result_zero.
Qed.

Lemma nocheck_msg d f o m :
    ready g f → disk f = d → at_ d o (enc (gmk g) m) → offset f = o → 0 < o → o + msize m ≤ block_end f →
    msize m ≤ gB g → _read_frame_nocheck f = Some (Ok (msize m), f).
Proof.
  intros (_ & _ & Hbuf & Hmk) Hd H Ho Hp He Hs. destruct Hg as (Hm & HB & _). pose proof (msize_pos m).
  unfold enc in H. apply at_app in H as [H _]; [|lia].
  rewrite (read_frame_nocheck_at f (le_bytes 4 (Z.lor (msize m) (gmk g)))); [|lia|lia| |by rewrite Hd, Ho].
  2: by rewrite zlen_le_bytes.
  rewrite Hmk, frame_result_size by (done || lia). done.
Qed.

Lemma nocheck_skip d f o :
    ready g f → disk f = d → at_ d o skip → offset f = o → 0 ≤ o → _read_frame_nocheck f = Some (Ok (-1), f).
Proof.
  intros (_ & _ & Hbuf & Hmk) Hd H Ho Hp. destruct Hg as (Hm & HB & _).
  rewrite (read_frame_nocheck_at f skip); [|lia|lia|done|by rewrite Hd, Ho].
  by rewrite frame_result_skip.
Qed.

(** *** Moving to a block *)
Lemma shift_block_ok d k ms f :
    ready g f → disk f = d → block_at g d k ms → hlen g k ≤ gB g →
    _shift_block (start g k) f = Some (Ok tt, with_pos (start g k + hlen g k) (start g (S k)) f).
Proof.
  intros Hr Hd Hb Hh. pose proof (hlen_pos k). unfold _shift_block, io_block. rewrite FM_bind_upd.
  destruct Hr as (H1 & H2 & H3 & H4).
  rewrite H2, <-start_S. set (f1 := with_pos _ _ f).
  rewrite (FM_bind_ok _ _ f1 (hlen g k) f1).
  2: { apply (nocheck_block d k ms); try done; unfold f1; cbn; lia. }
  tests. reflexivity.
Qed.

Lemma shift_block_quiet k f :
    ready g f → quiet0 (disk f) (start g k) →
    _shift_block (start g k) f = Some (Err EAGAIN, with_pos (start g k) (start g (S k)) f).
Proof.
  intros Hr Hq. unfold _shift_block, io_block. rewrite FM_bind_upd.
  destruct Hr as (H1 & H2 & H3 & H4). rewrite H2, <-start_S.
  rewrite (FM_bind_err _ _ _ EAGAIN (with_pos (start g k) (start g (S k)) f)); [done|].
  apply (nocheck_quiet _ (start g k)); [done..|]. apply start_nonneg.
Qed.

(** [_read_frame] away from the end of the block, and at it. *)
Lemma read_frame_here f : offset f + 17 ≤ block_end f → _read_frame f = _read_frame_nocheck f.
Proof. intros H. unfold _read_frame. rewrite !FM_bind_get. tests. by rewrite FM_bind_ret. Qed.

Lemma read_frame_shift f r f' :
    block_end f < offset f + 17 → _shift_block (block_end f) f = Some (r, f') →
    _read_frame f = match r with Ok _ => _read_frame_nocheck f' | Err e => Some (Err e, f') end.
Proof.
  intros H Hs. unfold _read_frame. rewrite !FM_bind_get. tests. destruct r as [[]|e].
  - by rewrite (FM_bind_ok _ _ _ _ _ Hs).
  - by rewrite (FM_bind_err _ _ _ _ _ Hs).
Qed.

(** *** The next message *)

(** The next frame that is not a skip frame has the size [n]; [f'] is the
      object when it has been read. *)
Definition sees (f : file) (n : Z) (f' : file) : Prop :=
    _read_frame f = Some (Ok n, f') ∨
    (_read_frame f = Some (Ok (-1), f) ∧ _read_frame (with_pos (block_end f) (block_end f) f) = Some (Ok n, f')).

Context (d : list Z) (bs : list (list msg)) (Hl : laid g d bs).

Lemma laid_used k ms i : bs !! k = Some ms → used g k (take i ms) ≤ gB g.
Proof.
  intros H. destruct (l_block _ _ _ Hl k ms H) as (_ & Hu & _). rewrite (used_drop k ms i) in Hu.
  pose proof (zlen_nonneg (body g (drop i ms))). lia.
Qed.

Lemma laid_hlen k ms : bs !! k = Some ms → hlen g k ≤ gB g.
Proof. intros H. pose proof (laid_used k ms 0 H) as Hu. rewrite take_0, used_nil in Hu. done. Qed.

Lemma laid_msg k ms i m :
    bs !! k = Some ms → ms !! i = Some m →
    at_ d (eob g k (take i ms)) (enc (gmk g) m) ∧ entry_ok m ∧ eob g k (take i ms) + msize m ≤ start g (S k) ∧
    eob g k (take (S i) ms) = eob g k (take i ms) + msize m ∧ msize m ≤ gB g.
Proof.
  intros Hk Hi. destruct (l_block _ _ _ Hl k ms Hk) as (Hb & Hu & Hf).
  pose proof (laid_used k ms (S i) Hk) as Hu'. rewrite (used_take_S k ms i m Hi) in Hu'.
  pose proof (used_pos k (take i ms)). pose proof (msize_pos m).
  split_and!; [by apply block_msg| |unfold eob; rewrite start_S; lia|unfold eob; rewrite (used_take_S k ms i m Hi); lia|lia].
  rewrite Forall_forall in Hf. apply Hf. by eapply list_elem_of_lookup_2.
Qed.

Lemma read_frame_msg k ms i m f :
    ready g f → disk f = d → bs !! k = Some ms → ms !! i = Some m → pos_at g k ms i f →
    _read_frame f = Some (Ok (msize m), f) ∧ _read_data (_data_size (msize m)) f = Some (Ok m, f).
Proof.
  intros Hr Hd Hk Hi (Ho & He). destruct (laid_msg k ms i m Hk Hi) as (Hat & Hok & Hend & _ & Hs).
  pose proof (msize_pos m). pose proof (eob_pos k (take i ms)). destruct Hg as (_ & HB & _).
  rewrite read_frame_here by lia. split; [apply (nocheck_msg d _ (eob g k (take i ms))); done || lia|].
  destruct Hr as (_ & _ & Hbuf & _). apply (read_data_at (gmk g)); [done|lia|lia|lia|]. by rewrite Hd, Ho.
Qed.

(** Entering a block that has a message. *)
Lemma read_frame_enter k m ms f :
    ready g f → disk f = d → bs !! k = Some (m :: ms) → block_end f = start g k → block_end f < offset f + 17 →
    let f' := with_pos (eob g k []) (start g (S k)) f in
    _read_frame f = Some (Ok (msize m), f') ∧ _read_data (_data_size (msize m)) f' = Some (Ok m, f').
Proof.
  intros Hr Hd Hk He Ho f'. destruct (l_block _ _ _ Hl k _ Hk) as (Hb & _ & _).
  pose proof (shift_block_ok d k (m :: ms) f Hr Hd Hb (laid_hlen k _ Hk)) as Hs. rewrite <-He in Hs.
  assert (with_pos (block_end f + hlen g k) (start g (S k)) f = f') as E.
  { unfold f', eob. by rewrite used_nil, He. }
  rewrite E in Hs. rewrite (read_frame_shift f _ _ Ho Hs).
  destruct (read_frame_msg k (m :: ms) 0 m f') as [H1 H2]; try done.
  destruct (laid_msg k (m :: ms) 0 m Hk eq_refl) as (_ & _ & Hend & _ & _). rewrite take_0 in Hend. pose proof (msize_pos m).
  rewrite read_frame_here in H1 by (unfold f'; cbn; lia). done.
Qed.

Lemma cursor_advance k i ms m o e f rest :
    bs !! k = Some ms → ms !! i = Some m → o = eob g k (take i ms) → e = start g (S k) →
    rest = drop (S i) ms ++ concat (drop (S k) bs) → cursor g bs (with_pos (o + msize m) e f) rest.
Proof.
  intros Hk Hi -> -> Hr. destruct (laid_msg k ms i m Hk Hi) as (_ & _ & _ & E & _).
  exists k, (S i), ms. split_and!; [done|apply lookup_lt_Some in Hi; lia| |done].
  split; [cbn; by rewrite E|done].
Qed.

Lemma cursor_head f m rest :
    ready g f → disk f = d → cursor g bs f (m :: rest) →
    ∃ o e, sees f (msize m) (with_pos o e f) ∧
      _read_data (_data_size (msize m)) (with_pos o e f) = Some (Ok m, with_pos o e f) ∧
      cursor g bs (with_pos (o + msize m) e f) rest ∧ cursor g bs (with_pos o e f) (m :: rest) ∧ entry_ok m ∧ msize m ≤ gB g.
Proof.
  intros Hr Hd (k & i & ms & Hk & Hi & (Ho & He) & Hrest).
  destruct (decide (i < length ms)%nat) as [Hlt|Hge].
  - destruct (lookup_lt_is_Some_2 ms i Hlt) as [m' Hm']. rewrite (drop_S ms m' i Hm') in Hrest.
    cbn in Hrest. injection Hrest as -> Hrest. exists (offset f), (block_end f). rewrite with_pos_same.
    destruct (read_frame_msg k ms i m' f) as [H1 H2]; try done.
    destruct (laid_msg k ms i m' Hk Hm') as (_ & Hok & _ & _ & Hs).
    split_and!; [by left|done| | |done|done]; [by apply (cursor_advance k i ms m')|].
    exists k, i, ms. split_and!; [done..|]. by rewrite (drop_S ms m' i Hm'), Hrest.
  - assert (i = length ms) as -> by lia. rewrite drop_all in Hrest. cbn in Hrest.
    destruct (bs !! S k) as [ms'|] eqn:Hk'; [|rewrite drop_ge in Hrest by (by apply lookup_ge_None_1); done].
    pose proof (lookup_lt_Some _ _ _ Hk') as Hlt. rewrite (drop_S bs ms' (S k) Hk') in Hrest. cbn in Hrest.
    destruct ms' as [|m' ms'].
    { destruct (l_inner _ _ _ Hl k Hlt) as [?|E]; [congruence|]. rewrite drop_ge in Hrest by lia. done. }
    cbn in Hrest. injection Hrest as -> Hrest. exists (eob g (S k) []), (start g (S (S k))).
    rewrite firstn_all in Ho. unfold eob in Ho. rewrite start_S in He. pose proof (used_pos k ms).
    destruct (laid_msg (S k) (m' :: ms') 0 m' Hk' eq_refl) as (_ & Hok & _ & _ & Hs).
    assert (cursor g bs (with_pos (eob g (S k) [] + msize m') (start g (S (S k))) f) rest) as Hc.
    { apply (cursor_advance (S k) 0 (m' :: ms') m'); try done. }
    assert (cursor g bs (with_pos (eob g (S k) []) (start g (S (S k))) f) (m' :: rest)) as Hc0.
    { exists (S k), 0%nat, (m' :: ms'). split_and!; [done|lia|done|]. by rewrite drop_0, Hrest. }
    assert (gB g - used g k ms < 17 ∨ 17 ≤ gB g - used g k ms ∧ at_ d (eob g k ms) skip) as [Hsm|[Hsm Hsk]].
    { destruct (l_full _ _ _ Hl k ms Hk ltac:(lia)) as [?|[? _]]; [by left|].
      destruct (decide (gB g - used g k ms < 17)); [by left|right]. split; [lia|done]. }
    + destruct (read_frame_enter (S k) m' ms' f) as [H1 H2]; try done; [rewrite start_S; lia|lia|].
      split_and!; [by left|done..].
    + destruct (read_frame_enter (S k) m' ms' (with_pos (block_end f) (block_end f) f)) as [H1 H2]; try done;
        [cbn; rewrite start_S; lia|cbn; lia|].
      split_and!; [right; split; [|exact H1]|exact H2|done..].
      rewrite read_frame_here by lia. pose proof (eob_pos k ms).
      apply (nocheck_skip d _ (eob g k ms)); try done; unfold eob in *; lia.
Qed.

(** *** The end of the data *)

(** Reading of a frame or of its data finds nothing. *)
Definition nothing (f f' : file) : Prop :=
    _read_frame f = Some (Err EAGAIN, f') ∨
    ∃ n, 17 ≤ n < 2 ^ 31 ∧ _read_frame f = Some (Ok n, f') ∧ _read_data (_data_size n) f' = Some (Err EAGAIN, f').

Definition sees_end (f f' : file) : Prop :=
    nothing f f' ∨
    (_read_frame f = Some (Ok (-1), f) ∧ nothing (with_pos (block_end f) (block_end f) f) f').

Lemma nothing_quiet k ms f :
    ready g f → disk f = d → pos_at g k ms (length ms) f → 17 ≤ gB g - used g k ms →
    quiet0 d (eob g k ms) ∨ torn g d (eob g k ms) (start g (S k)) →
    nothing f f ∧ _read_frame f = _read_frame_nocheck f.
Proof.
  intros Hr Hd (Ho & He) Hu Hq. rewrite firstn_all in Ho. pose proof (eob_pos k ms) as Hp.
  assert (offset f + 17 ≤ block_end f) as H17 by (rewrite Ho, He, start_S; unfold eob; lia).
  split; [|by apply read_frame_here]. unfold nothing. rewrite read_frame_here by done.
  destruct Hq as [Hq|(n & Hn & Hle & Hat & Ht)].
  - left. apply (nocheck_quiet f (eob g k ms)); [done|by rewrite Hd|done|lia].
  - right. destruct Hg as (Hm & HB & _). exists n.
    assert (n < 2 ^ 31 - 1) by (rewrite start_S in Hle; unfold eob in Hle; pose proof (used_pos k ms); lia).
    destruct Hr as (_ & _ & Hbuf & Hmk).
    rewrite (read_frame_nocheck_at f (le_bytes 4 (Z.lor n (gmk g)))); [|lia|lia|by rewrite zlen_le_bytes|by rewrite Hd, Ho].
    rewrite Hmk, frame_result_size by (done || lia). split; [lia|]. split; [done|].
    apply read_data_torn; [lia|lia| |rewrite Hd; lia].
    rewrite Hbuf. rewrite start_S in Hle. unfold eob in Hle. pose proof (used_pos k ms). lia.
Qed.

(** Moving to a block that is not there. *)
Lemma nothing_behind k f :
    ready g f → disk f = d → (length bs ≤ k)%nat → block_end f = start g k → block_end f < offset f + 17 →
    nothing f (with_pos (start g k) (start g (S k)) f).
Proof.
  intros Hr Hd Hk He Ho. left. pose proof (shift_block_quiet k f Hr) as Hs. rewrite Hd, <-He in Hs.
  rewrite (read_frame_shift f _ _ Ho (Hs ltac:(rewrite He; by apply (l_behind _ _ _ Hl)))). by rewrite He.
Qed.

(** Entering a block with a header only, the last one. *)
Lemma nothing_enter k f :
    ready g f → disk f = d → bs !! S k = Some [] → S (S k) = length bs → block_end f = start g (S k) →
    block_end f < offset f + 17 → nothing f (with_pos (eob g (S k) []) (start g (S (S k))) f).
Proof.
  intros Hr Hd Hk Hlen He Ho. destruct (l_block _ _ _ Hl _ _ Hk) as (Hb & _ & _).
  pose proof (shift_block_ok d (S k) [] f Hr Hd Hb (laid_hlen _ _ Hk)) as Hs. rewrite <-He in Hs.
  assert (with_pos (block_end f + hlen g (S k)) (start g (S (S k))) f = with_pos (eob g (S k) []) (start g (S (S k))) f) as E.
  { unfold eob. by rewrite used_nil, He. }
  rewrite E in Hs. set (f' := with_pos _ _ f) in *.
  assert (nothing f' f' ∧ _read_frame f' = _read_frame_nocheck f') as [Hn Heq].
  { destruct Hg as (Hm & HB & Hh). apply (nothing_quiet (S k) []); try done.
    - rewrite used_nil. cbn. lia.
    - destruct (l_last _ _ _ Hl _ _ Hk Hlen) as [[?|[_ ?]]|?]; try done. rewrite used_nil in *. cbn in *. lia. }
  unfold nothing. rewrite (read_frame_shift f _ _ Ho Hs). unfold nothing in Hn. by rewrite Heq in Hn.
Qed.

Lemma cursor_tail f :
    ready g f → disk f = d → cursor g bs f [] →
    ∃ o e, sees_end f (with_pos o e f) ∧ tip g d bs (with_pos o e f).
Proof.
  intros Hr Hd (k & i & ms & Hk & Hi & (Ho & He) & Hrest).
  symmetry in Hrest. apply app_eq_nil in Hrest as [Hdrop Hrest].
  assert (i = length ms) as -> by (apply (f_equal length) in Hdrop; rewrite length_drop in Hdrop; cbn in Hdrop; lia).
  assert (pos_at g k ms (length ms) f) as Hpos by done.
  pose proof (lookup_lt_Some _ _ _ Hk) as Hkl. rewrite start_S in He. pose proof Ho as Ho'. rewrite firstn_all in Ho'. unfold eob in Ho'.
  pose proof (eob_pos k ms). pose proof (used_pos k ms). pose proof (start_nonneg k).
  assert (∀ k', block_end f = start g k' → gB g - used g k ms < 17 → block_end f < offset f + 17) as Hmove by lia.
  assert (full g d k ms → gB g - used g k ms < 17 ∨ _read_frame f = Some (Ok (-1), f)) as Hskip.
  { intros [?|[Hsk _]]; [by left|]. destruct (decide (gB g - used g k ms < 17)); [by left|right].
    rewrite read_frame_here by lia. apply (nocheck_skip d _ (eob g k ms)); try done; unfold eob in *; lia. }
  destruct (decide (S k = length bs)) as [Hlast|Hlast].
  - assert (tip g d bs f) as Htip by (exists k, ms; split_and!; [done..|by left]).
    assert (∀ f0, full g d k ms → tip g d bs (with_pos (start g (S k)) (start g (S (S k))) f0)) as Htip'.
    { intros f0 Hf. exists k, ms. split_and!; [done..|]. right. done. }
    destruct (decide (gB g - used g k ms < 17)) as [Hsm|Hbig].
    { exists (start g (S k)), (start g (S (S k))). split; [left|by apply Htip'; left].
      apply nothing_behind; try done; [lia|rewrite start_S; lia|lia]. }
    destruct (l_last _ _ _ Hl k ms Hk Hlast) as [Hf|Hq].
    + destruct (Hskip Hf) as [?|Hr1]; [lia|].
      exists (start g (S k)), (start g (S (S k))). split; [right|by apply Htip'].
      split; [done|]. change (with_pos (start g (S k)) (start g (S (S k))) f) with
        (with_pos (start g (S k)) (start g (S (S k))) (with_pos (block_end f) (block_end f) f)).
      apply nothing_behind; try done; [lia|cbn; rewrite start_S; lia|cbn; lia].
    + exists (offset f), (block_end f). rewrite with_pos_same. split; [left|done].
      apply (nothing_quiet k ms); try done; lia.
  - destruct (lookup_lt_is_Some_2 bs (S k) ltac:(lia)) as [ms' Hk'].
    rewrite (drop_S bs ms' (S k) Hk') in Hrest. cbn in Hrest. apply app_eq_nil in Hrest as [-> Hrest].
    destruct (l_inner _ _ _ Hl k ltac:(lia)) as [?|Hlen]; [congruence|].
    exists (eob g (S k) []), (start g (S (S k))). split.
    2: { exists (S k), []. split_and!; [done..|left]. done. }
    destruct (Hskip (l_full _ _ _ Hl k ms Hk ltac:(lia))) as [Hsm|Hr1].
    + left. apply nothing_enter; try done; [rewrite start_S; lia|lia].
    + right. split; [done|]. change (with_pos (eob g (S k) []) (start g (S (S k))) f) with
        (with_pos (eob g (S k) []) (start g (S (S k))) (with_pos (block_end f) (block_end f) f)).
      apply nothing_enter; try done; [cbn; rewrite start_S; lia|cbn; lia].
Qed.
End Reading.

End FileLayout.
