(* ===== verification/FileMeta.v ===== *)
(** * Metadata of files

    What [_write_meta] writes and [_read_meta] reads back. *)
From S2P Require Import Prelude Mem Callback Channel Reopen Binder File FileLayout.
Import Cb Chan File FileLayout.

Module FileMeta.

Lemma get_scalar_drop n b (k : nat) off :
  Z.of_nat k ≤ zlen b → 0 ≤ off → Binder._get_scalar n (drop k b) off = Binder._get_scalar n b (Z.of_nat k + off).
Proof. intros. unfold Binder._get_scalar. by rewrite mem_load_drop. Qed.

Lemma load_ptr_drop b (k : nat) p :
  Z.of_nat k ≤ zlen b → 0 ≤ p → Binder.load_ptr (drop k b) p = Binder.load_ptr b (Z.of_nat k + p).
Proof. intros. unfold Binder.load_ptr. by rewrite !get_scalar_drop, !Z.add_assoc by lia. Qed.

(** Pointers are relative: a message can be read from any buffer around it. *)
Lemma get_string_drop b (k : nat) p :
  Z.of_nat k ≤ zlen b → 0 ≤ p → Binder.string_ptr b (Z.of_nat k + p) →
  Binder._get_string (drop k b) p = Binder._get_string b (Z.of_nat k + p).
Proof.
  intros Hk Hp (_ & _ & q & Hq & Hptr). unfold Binder._get_string, Binder.data_offset, Binder.entity_size.
  rewrite !load_ptr_drop, Hq by done. cbn [mbind option_bind].
  destruct (Z.eqb_spec (Binder.p_size q) 0); [done|]. destruct Hptr as [?|(Hs & He & Ho & Hl)]; [done|].
  rewrite He. tests. cbn [negb andb]. change (255 =? 255) with true. change (1 =? 255) with false. cbn [mbind option_bind andb].
  change (255 <=? 1) with false. cbv iota. rewrite mem_load_drop by lia. by rewrite Z.add_assoc.
Qed.

Lemma get_scalar_agree n b b' off v :
  Binder._get_scalar n b off = Some v → off + Z.of_nat n ≤ zlen b' →
  (∀ i : nat, off ≤ Z.of_nat i < off + Z.of_nat n → b' !! i = b !! i) → Binder._get_scalar n b' off = Some v.
Proof.
  unfold Binder._get_scalar. intros H Hl Hi. destruct (mem_load b off _) as [l|] eqn:E; [|done].
  by rewrite (mem_load_agree b b' off _ l).
Qed.

(** The fixed part of the message. *)
Lemma meta_fixed B v :
  0 ≤ B < 2 ^ 32 → 0 ≤ v < 2 ^ 8 →
  ∃ b, (let! b := Binder._set_scalar 2 (Binder.view_resize (zeros 16) 16 meta_size) 16 meta_size in
        let! b := Binder._set_scalar 4 b 20 B in
        let! b := Binder._set_scalar 1 b 18 v in
        Binder._set_scalar 1 b 19 0) = Some b ∧ zlen b = 48 ∧
    Binder._get_scalar 1 b 18 = Some v ∧ Binder._get_scalar 4 b 20 = Some B ∧ Binder._get_scalar 1 b 19 = Some 0 ∧
    Binder.load_ptr b 24 = Some (Binder.OffsetPtr 0 0 0).
Proof.
  intros HB Hv. set (b0 := Binder.view_resize (zeros 16) 16 meta_size).
  assert (zlen b0 = 48) as Z0 by reflexivity. assert (Binder.load_ptr b0 24 = Some (Binder.OffsetPtr 0 0 0)) as P0 by reflexivity.
  destruct (Binder.set_scalar_total 2 b0 16 meta_size) as [b1 H1]; [lia..|].
  destruct (Binder.set_scalar_total 4 b1 20 B) as [b2 H2]; [lia|rewrite (Binder.set_scalar_zlen _ _ _ _ _ H1); lia|].
  pose proof (Binder.set_scalar_zlen _ _ _ _ _ H1) as Z1. pose proof (Binder.set_scalar_zlen _ _ _ _ _ H2) as Z2.
  destruct (Binder.set_scalar_total 1 b2 18 v) as [b3 H3]; [lia..|]. pose proof (Binder.set_scalar_zlen _ _ _ _ _ H3) as Z3.
  destruct (Binder.set_scalar_total 1 b3 19 0) as [b4 H4]; [lia..|]. pose proof (Binder.set_scalar_zlen _ _ _ _ _ H4) as Z4.
  exists b4. rewrite H1. cbn [mbind option_bind]. rewrite H2. cbn [mbind option_bind]. rewrite H3. cbn [mbind option_bind].
  split; [done|]. split; [lia|].
  pose proof (Binder.get_set_same _ _ _ _ _ H2) as G2. pose proof (Binder.get_set_same _ _ _ _ _ H3) as G3.
  pose proof (Binder.get_set_same _ _ _ _ _ H4) as G4. rewrite Z.mod_small in G2, G3 by lia.
  split_and!; [|..].
  - by rewrite (Binder.get_set_disj _ 1 _ _ 18 _ _ H4) by lia.
  - by rewrite (Binder.get_set_disj _ 4 _ _ 20 _ _ H4), (Binder.get_set_disj _ 4 _ _ 20 _ _ H3) by lia.
  - done.
  - rewrite (Binder.load_ptr_ext b4 b0 24); [done|lia|]. intros i Hi.
    by rewrite (Binder.set_scalar_lookup _ _ _ _ _ i H4), (Binder.set_scalar_lookup _ _ _ _ _ i H3),
      (Binder.set_scalar_lookup _ _ _ _ _ i H2), (Binder.set_scalar_lookup _ _ _ _ _ i H1) by lia.
Qed.

(** The frame is put in front of the message. *)
Lemma meta_frame b : 16 ≤ zlen b →
  (let! b1 := Binder._set_scalar 4 (b ++ [0x80]) 0 (zlen (b ++ [0x80])) in mem_store b1 4 (frame_bytes meta_id 0)) =
  Some (le_bytes 4 (zlen (b ++ [0x80])) ++ frame_bytes meta_id 0 ++ drop 16 b ++ [0x80]).
Proof.
  intros Hb. set (n := zlen (b ++ [128])). assert (zlen b + 1 = n) as Hn by (unfold n; rewrite zlen_app; reflexivity).
  unfold Binder._set_scalar, mem_store. rewrite zlen_le_bytes.
  rewrite (proj2 (in_range_spec (b ++ [128]) 0 (Z.of_nat 4))) by (fold n; lia). cbn [mbind option_bind].
  change (take (Z.to_nat 0) (b ++ [128])) with (@nil Z). cbn [app]. change (Z.to_nat (0 + Z.of_nat 4)) with 4%nat.
  set (b1 := le_bytes 4 n ++ drop 4 (b ++ [128])).
  assert (zlen b1 = n) as Hb1 by (unfold b1; rewrite zlen_app, zlen_le_bytes; unfold n, zlen in *; rewrite length_drop; lia).
  rewrite (proj2 (in_range_spec b1 4 (zlen (frame_bytes meta_id 0)))) by (rewrite zlen_frame_bytes; lia).
  rewrite zlen_frame_bytes. change (Z.to_nat 4) with 4%nat. change (Z.to_nat (4 + 12)) with 16%nat. f_equal.
  unfold b1 at 1. rewrite take_app_length' by (by rewrite length_le_bytes). f_equal. f_equal.
  unfold b1. rewrite drop_app_ge by (rewrite length_le_bytes; lia). rewrite length_le_bytes, drop_drop.
  change (4 + (16 - 4))%nat with 16%nat. rewrite drop_app_le by (unfold zlen in *; lia). done.
Qed.

(** A scheme that fits. *)
Definition scheme_ok (s : option (list Z)) : Prop := from_option (λ s, 0 < zlen s < 2 ^ 24 - 1) True s.

(** The buffer of metadata: a frame, then the message, from which every field
    is read as it was set. *)
Lemma meta_bytes_spec B v s :
  0 ≤ B < 2 ^ 32 → 0 ≤ v < 2 ^ 8 → scheme_ok s →
  ∃ H b, meta_bytes B v s = Some H ∧ 32 ≤ zlen b ∧
    H = le_bytes 4 (zlen H) ++ frame_bytes meta_id 0 ++ b ++ [0x80] ∧
    Binder._get_scalar 1 b 2 = Some v ∧ Binder._get_scalar 4 b 4 = Some B ∧ Binder._get_scalar 1 b 3 = Some 0 ∧
    Binder._get_string b 8 = Some (default [] s).
Proof.
  intros HB Hv Hs. destruct (meta_fixed B v HB Hv) as (b & Hb & Hz & Gv & GB & Gc & Hp).
  assert (Binder.string_ptr b 24) as Hptr.
  { split; [lia|]. split; [lia|]. exists (Binder.OffsetPtr 0 0 0). split; [done|by left]. }
  assert (∃ b', (match s with Some s => Binder._set_string b 24 s | None => Some b end) = Some b' ∧ 48 ≤ zlen b' ∧
    (∀ i : nat, 16 ≤ Z.of_nat i < 24 → b' !! i = b !! i) ∧ Binder.string_ptr b' 24 ∧
    Binder._get_string b' 24 = Some (default [] s)) as (b' & Hb' & Hz' & Hi & Hptr' & Gs).
  { destruct s as [s|].
    - cbn in Hs. destruct (Binder.binder_string_aux b 24 s Hptr ltac:(lia) ltac:(lia)) as (b' & H1 & H2 & H3 & H4 & H5 & _).
      specialize (H5 Hp). exists b'. split_and!; try done.
      + lia.
      + intros i Hi. apply H4; [lia|]. intros [?|(q & Hq & Hr)]; [lia|]. rewrite Hp in Hq. injection Hq as <-. cbn in Hr. lia.
    - exists b. split_and!; try done; [lia|]. unfold Binder._get_string. by rewrite Hp. }
  exists (le_bytes 4 (zlen (b' ++ [128])) ++ frame_bytes meta_id 0 ++ drop 16 b' ++ [128]), (drop 16 b').
  assert (Z.of_nat 16 ≤ zlen b') as H16 by lia.
  assert (∀ n off v, 16 ≤ 16 + off → 16 + off + Z.of_nat n ≤ 24 → Binder._get_scalar n b (16 + off) = Some v → Binder._get_scalar n (drop 16 b') off = Some v) as Hget.
  { intros n off x H1 H2 H3. rewrite get_scalar_drop by lia. apply (get_scalar_agree n b); [done|lia|].
    intros i Hii. apply Hi. lia. }
  split.
  { unfold meta_bytes. change (16 + 0) with 16. change (16 + 4) with 20. change (16 + 2) with 18. change (16 + 3) with 19. change (16 + 8) with 24.
    cbv zeta. destruct (Binder._set_scalar 2 _ 16 meta_size) as [x1|]; [|done]. cbn [mbind option_bind] in *.
    destruct (Binder._set_scalar 4 x1 20 B) as [x2|]; [|done]. cbn [mbind option_bind] in *.
    destruct (Binder._set_scalar 1 x2 18 v) as [x3|]; [|done]. cbn [mbind option_bind] in *. rewrite Hb. cbn [mbind option_bind].
    rewrite Hb'. cbn [mbind option_bind]. apply meta_frame. lia. }
  split; [unfold zlen in *; rewrite length_drop; lia|]. split.
  { do 2 f_equal. rewrite !zlen_app, zlen_le_bytes, zlen_frame_bytes. unfold zlen in *. rewrite length_drop. lia. }
  split_and!; [by apply Hget|by apply Hget|by apply Hget|].
  rewrite get_string_drop; [done|done|lia|done].
Qed.

(** ** Reading *)

(** The file begins with metadata for these parameters. *)
Definition meta_at (d : list Z) (B v : Z) (s : option (list Z)) (n : Z) : Prop :=
  0 ≤ B < 2 ^ 32 ∧ 0 ≤ v < 2 ∧ scheme_ok s ∧ 49 ≤ n ≤ 4 * 1024 * 1024 ∧
  ∃ H, meta_bytes B v s = Some H ∧ zlen H = n ∧ at_ d 0 H.

(** The scheme of the channel after the file has been opened. *)
Definition opened_scheme (own s : option (list Z)) : option (list Z) :=
  match own with Some _ => own | None => s end.

Lemma pread_at d off a : at_ d off a → pread d (zlen a) off = a.
Proof. done. Qed.

Lemma read_meta_spec f B v s n :
  meta_at (disk f) B v s n → from_option (scheme_load (cf f)) true s = true →
  _read_meta f = Some (Ok tt, with_meta B v (opened_scheme (f_scheme f) s) (with_pos 0 (block_end f) f)).
Proof.
  intros (HB & Hv & Hs & Hn & H & Hm & Hlen & Hat) Hload.
  destruct (meta_bytes_spec B v s HB ltac:(lia) Hs) as (H' & b & Hm' & Hb & HH & G1 & G2 & G3 & G4).
  assert (H' = H) as -> by congruence. rewrite Hlen in HH.
  set (fr := le_bytes 4 n ++ frame_bytes meta_id 0).
  assert (zlen fr = 16) as Hfr by (unfold fr; by rewrite zlen_app, zlen_le_bytes, zlen_frame_bytes).
  assert (H = fr ++ b ++ [128]) as E by (rewrite HH; unfold fr; by rewrite <-app_assoc).
  assert (zlen (b ++ [128]) = n - 16) as Htail by (rewrite <-Hlen, E, !zlen_app; lia).
  rewrite E in Hat. apply at_app in Hat as [A1 A2]; [|lia]. rewrite Hfr in A2. apply pread_at in A1, A2. rewrite Hfr in A1. rewrite Htail in A2.
  unfold _read_meta. rewrite FM_bind_upd, FM_bind_get. cbn [disk with_pos]. change (0 + 16) with 16 in A2. rewrite A1.
  rewrite Hfr. change (negb (16 =? 16)) with false. cbv iota.
  assert (take 4 fr = le_bytes 4 n) as -> by (unfold fr; by rewrite take_app_length' by (by rewrite length_le_bytes)).
  assert (take 4 (drop 4 fr) = le_bytes 4 meta_id) as ->.
  { unfold fr, frame_bytes. rewrite drop_app_length' by (by rewrite length_le_bytes). by rewrite take_app_length' by (by rewrite length_le_bytes). }
  change (negb (i32 (le_value (le_bytes 4 meta_id)) =? meta_id)) with false. cbv iota zeta.
  rewrite le_value_4 by lia. rewrite (wraps_id 32 n) by lia. tests. rewrite A2, Htail. tests. cbn [negb].
  rewrite last_last. change (Z.land 128 128 =? 0) with false. cbv iota. rewrite removelast_last. unfold meta_size. tests.
  rewrite (FM_bind_ok _ _ _ v (with_pos 0 (block_end f) f)) by (unfold lift; by rewrite G1). tests. rewrite FM_bind_upd.
  rewrite (FM_bind_ok _ _ _ B (with_meta (block_size f) v (f_scheme f) (with_pos 0 (block_end f) f))) by (unfold lift; by rewrite G2).
  rewrite FM_bind_upd. set (f1 := with_meta _ _ _ (with_meta _ _ _ _)).
  rewrite (FM_bind_ok _ _ _ 0 f1) by (unfold lift; by rewrite G3). change (0 =? 1) with false. change (negb (0 =? 0)) with false. cbv iota.
  rewrite (FM_bind_ok _ _ _ (default [] s) f1) by (unfold lift; by rewrite G4). rewrite !FM_bind_get.
  change (f_scheme f1) with (f_scheme f). change (cf f1) with (cf f).
  destruct (f_scheme f) eqn:Es; [reflexivity|].
  destruct s as [s|]; cbn [default from_option opened_scheme] in *.
  - cbn in Hs. unfold id. tests. rewrite Hload. cbn [negb]. reflexivity.
  - change (zlen [] =? 0) with true. cbv iota. reflexivity.
Qed.

Lemma meta_bytes_total B v s :
  0 ≤ B < 2 ^ 32 → 0 ≤ v < 2 → scheme_ok s → ∃ H, meta_bytes B v s = Some H ∧ 49 ≤ zlen H.
Proof.
  intros HB Hv Hs. destruct (meta_bytes_spec B v s HB ltac:(lia) Hs) as (H & b & Hm & Hb & HH & _).
  exists H. split; [done|]. rewrite HH, !zlen_app, zlen_le_bytes, zlen_frame_bytes. change (zlen [128]) with 1. lia.
Qed.

End FileMeta.
