(* ===== verification/FileRead.v ===== *)
(** * Reading of files

    Opening for reading, search and delivery of messages, for a file whose
    blocks hold given messages ([FileLayout.laid]). *)
From S2P Require Import Prelude Mem Callback Channel Reopen Binder Storage File FileLayout FileMeta.
Import Cb Chan Storage File FileLayout FileMeta.

Module FileRead.

Section Blocks.
Context (g : geo) (Hg : geo_ok g) (d : list Z) (bs : list (list msg)) (Hl : laid g d bs).

(** An object over this file, with its size known. *)
Definition sized (f : file) : Prop := ready g f ∧ disk f = d ∧ file_size_cache f = zlen d.

Lemma sized_pos o e f : sized f → sized (with_pos o e f).
Proof. done. Qed.

(** ** The first message of a block *)

Lemma io_block_eq k f : ready g f → io_block (start g k) f = Some (Ok tt, with_pos (start g k) (start g (S k)) f).
Proof. intros (_ & H & _). unfold io_block, upd. by rewrite H, <-start_S. Qed.

(** [_block_seq] reads the header of a block that is there. *)
Lemma block_seq_header k ms n f :
    sized f → bs !! k = Some ms →
    _block_seq (S n) (Z.of_nat k) f =
      (if zlen d <? eob g k [] + 4 then Some (Err EAGAIN, with_pos (eob g k []) (start g (S k)) f)
       else _read_seq (with_pos (eob g k []) (start g (S k)) f)).
Proof.
  intros (Hr & Hd & Hc) Hk. pose proof Hg as (_ & HB & _). pose proof (hlen_pos g Hg k).
  cbn [_block_seq]. rewrite FM_bind_get. pose proof (proj1 Hr) as Hbs. rewrite Hbs.
  rewrite (FM_bind_ok _ _ _ _ _ (io_block_eq k f Hr)). set (f1 := with_pos _ _ f).
  rewrite (FM_bind_ok _ _ f1 (hlen g k) f1).
  2: { rewrite read_frame_here by (unfold f1; cbn; rewrite start_S; lia).
       apply (nocheck_block g Hg d k ms); try done; [by apply (l_block _ _ _ Hl)|by apply (laid_hlen g d bs Hl k ms)]. }
  tests. unfold _shift. rewrite FM_bind_upd, !FM_bind_get.
  change (file_size_cache (with_pos _ _ f1)) with (file_size_cache f). rewrite Hc.
  assert (with_pos (offset f1 + hlen g k) (block_end f1) f1 = with_pos (eob g k []) (start g (S k)) f) as ->.
  { unfold eob. by rewrite used_nil. }
  cbn [offset with_pos]. by destruct (zlen d <? eob g k [] + 4).
Qed.

Lemma at_msg_bound k m ms : bs !! k = Some (m :: ms) → eob g k [] + msize m ≤ zlen d.
Proof.
  intros Hk. destruct (laid_msg g Hg d bs Hl k _ 0 m Hk eq_refl) as (Hat & _). rewrite take_0 in Hat.
  pose proof (eob_pos g Hg k []). pose proof (msize_pos m).
  apply at_bound in Hat as [Hn|Hb]; [apply (f_equal zlen) in Hn|..]; rewrite ?zlen_enc, ?zlen_nil in *; lia.
Qed.

Lemma block_seq_hit k m ms n f :
    sized f → bs !! k = Some (m :: ms) →
    _block_seq (S n) (Z.of_nat k) f = Some (Ok m, with_pos (eob g k []) (start g (S k)) f).
Proof.
  intros Hs Hk. rewrite (block_seq_header k (m :: ms) n f Hs Hk). pose proof (at_msg_bound k m ms Hk). pose proof (msize_pos m).
  tests. set (f1 := with_pos _ _ f). destruct Hs as (Hr & Hd & _).
  destruct (read_frame_msg g Hg d bs Hl k (m :: ms) 0 m f1) as [H1 H2]; try done.
  unfold _read_seq. rewrite (FM_bind_ok _ _ _ _ _ H1), read_seq_frame_eq; [done|].
  destruct (laid_msg g Hg d bs Hl k _ 0 m Hk eq_refl) as (_ & _ & _ & _ & Hm). destruct Hg as (_ & HB & _). lia.
Qed.

(** The metadata fill the first block, so that its first message is that of
      the second. *)
Lemma block_seq_next m ms n f :
    sized f → bs !! 0%nat = Some [] → bs !! 1%nat = Some (m :: ms) →
    _block_seq (S n) 0 f = Some (Ok m, with_pos (eob g 1 []) (start g 2) f).
Proof.
  intros Hs H0 H1. change 0 with (Z.of_nat 0) at 1. rewrite (block_seq_header 0 [] n f Hs H0).
  pose proof (at_msg_bound 1 m ms H1) as Hb. pose proof (msize_pos m). pose proof (lookup_lt_Some _ _ _ H1) as Hlt.
  destruct (l_full _ _ _ Hl 0 [] H0 ltac:(lia)) as [Hu|[_ ?]]; [|done].
  pose proof Hg as (_ & HB & Hh). unfold eob in *. rewrite !used_nil in *. unfold start in *. cbn [hlen] in *.
  tests. set (f1 := with_pos _ _ f). destruct Hs as (Hr & Hd & _).
  destruct (read_frame_enter g Hg d bs Hl 1 m ms f1) as [R1 R2]; try done; [unfold f1, start; cbn; lia|].
  unfold _read_seq. rewrite (FM_bind_ok _ _ _ _ _ R1), read_seq_frame_eq, R2.
  - unfold eob. rewrite used_nil. reflexivity.
  - destruct (laid_msg g Hg d bs Hl 1 _ 0 m H1 eq_refl) as (_ & _ & _ & _ & Hm). lia.
Qed.

(** A block behind the last. *)
Lemma block_seq_behind k n f :
    sized f → (length bs ≤ k)%nat →
    _block_seq (S n) (Z.of_nat k) f = Some (Err EAGAIN, with_pos (start g k) (start g (S k)) f).
Proof.
  intros (Hr & Hd & Hc) Hk. pose proof Hg as (_ & HB & _).
  cbn [_block_seq]. rewrite FM_bind_get. pose proof (proj1 Hr) as Hbs. rewrite Hbs.
  rewrite (FM_bind_ok _ _ _ _ _ (io_block_eq k f Hr)). set (f1 := with_pos _ _ f).
  rewrite (FM_bind_err _ _ f1 EAGAIN f1); [done|].
  rewrite read_frame_here by (unfold f1; cbn; rewrite start_S; lia).
  apply (nocheck_quiet g Hg f1 (start g k)); [done| |done|by apply start_nonneg].
  change (disk f1) with (disk f). rewrite Hd. by apply (l_behind _ _ _ Hl).
Qed.

Lemma read_seq_nothing f f' : nothing f f' → _read_seq f = Some (Err EAGAIN, f').
Proof.
  unfold _read_seq. intros [H|(n & Hn & H1 & H2)].
  - by rewrite (FM_bind_err _ _ _ _ _ H).
  - by rewrite (FM_bind_ok _ _ _ _ _ H1), read_seq_frame_eq.
Qed.

(** The last block without a message. *)
Lemma block_seq_empty k n f :
    sized f → bs !! k = Some [] → S k = length bs →
    ∃ o e, _block_seq (S n) (Z.of_nat k) f = Some (Err EAGAIN, with_pos o e f) ∧ tip g d bs (with_pos o e f).
Proof.
  intros Hs Hk Hlen. rewrite (block_seq_header k [] n f Hs Hk). set (f1 := with_pos (eob g k []) _ f).
  assert (tip g d bs f1) as Htip.
  { exists k, []. split_and!; [done..|left]. split; done. }
  destruct (Z.ltb_spec (zlen d) (eob g k [] + 4)); [by eexists _, _|].
  destruct Hs as (Hr & Hd & _). pose proof Hg as (_ & HB & _).
  destruct (decide (gB g - used g k [] < 17)) as [Hsm|Hbig].
  - exists (start g (S k)), (start g (S (S k))). split.
    + apply (read_seq_nothing f1).
      change (with_pos (start g (S k)) (start g (S (S k))) f) with (with_pos (start g (S k)) (start g (S (S k))) f1).
      apply (nothing_behind g Hg d bs Hl); try done; [lia|]. unfold f1, eob in *. cbn in *. rewrite start_S. lia.
    + exists k, []. split_and!; [done..|right]. split_and!; [by left|done..].
  - exists (offset f1), (block_end f1). change (with_pos (offset f1) (block_end f1) f) with f1. split; [|done].
    apply read_seq_nothing. apply (nothing_quiet g Hg d k []); try done; [lia|].
    destruct (l_last _ _ _ Hl k [] Hk Hlen) as [[?|[_ ?]]|?]; [lia|done|done].
Qed.

(** ** The last block with a message *)
Definition last_data (K : nat) (m : msg) (ms : list msg) : Prop :=
    bs !! K = Some (m :: ms) ∧ concat (drop (S K) bs) = [].

Lemma last_data_ex : concat bs ≠ [] → ∃ K m ms, last_data K m ms.
Proof.
  unfold last_data. clear Hl. induction bs as [|ms l IH]; [done|]. cbn [concat]. intros Hne.
  destruct (decide (concat l = [])) as [E|E].
  - rewrite E, app_nil_r in Hne. destruct ms as [|m ms]; [done|]. exists 0%nat, m, ms. by rewrite skipn_cons, drop_0.
  - destruct (IH E) as (K & m & ms' & H1 & H2). exists (S K), m, ms'. done.
Qed.

Lemma concat_nil_lookup {A} (l : list (list A)) k x : concat l = [] → l !! k = Some x → x = [].
Proof. revert k. induction l as [|y l IH]; intros [|k] H Hk; cbn in *; try done; apply app_eq_nil in H as [-> H]; naive_solver. Qed.

Lemma concat_middle {A} (l : list (list A)) k x :
    l !! k = Some x → concat l = concat (take k l) ++ x ++ concat (drop (S k) l).
Proof. intros H. by rewrite <-(take_drop_middle l k x H) at 1; rewrite concat_app. Qed.

Lemma block_seq_miss K m ms k n f :
    sized f → last_data K m ms → (K < k)%nat →
    ∃ o e, _block_seq (S n) (Z.of_nat k) f = Some (Err EAGAIN, with_pos o e f).
Proof.
  intros Hs [HK Hc] Hk. destruct (decide (length bs ≤ k)%nat) as [Hge|Hlt].
  - eexists _, _. by apply block_seq_behind.
  - destruct (lookup_lt_is_Some_2 bs k ltac:(lia)) as [x Hx].
    assert (x = []) as ->.
    { apply (concat_nil_lookup (drop (S K) bs) (k - S K)); [done|]. rewrite lookup_drop, <-Hx. f_equal. lia. }
    destruct k as [|k']; [lia|]. destruct (l_inner _ _ _ Hl k' ltac:(lia)) as [?|Hlen]; [congruence|].
    destruct (block_seq_empty (S k') n f Hs Hx Hlen) as (o & e & H & _). eauto.
Qed.

Lemma last_block_spec K m ms f : sized f → last_data K m ms → ∀ n, (K ≤ n)%nat →
    last_block n f = Some (Ok m, with_pos (eob g K []) (start g (S K)) f).
Proof.
  intros Hs HK n Hn. revert f Hs. induction n as [|n IH]; intros f Hs.
  - assert (K = 0%nat) as -> by lia. cbn [last_block].
    by rewrite (FM_bind_attempt _ _ _ _ _ (block_seq_hit 0 m ms 1 f Hs (proj1 HK))).
  - cbn [last_block]. destruct (decide (K = S n)) as [->|].
    + by rewrite (FM_bind_attempt _ _ _ _ _ (block_seq_hit (S n) m ms 1 f Hs (proj1 HK))).
    + destruct (block_seq_miss K m ms (S n) 1 f Hs HK ltac:(lia)) as (o & e & H).
      rewrite (FM_bind_attempt _ _ _ _ _ H), IH by (done || lia). done.
Qed.

Lemma seek_last_spec K m ms f : sized f → last_data K m ms → ∀ n, (K ≤ n)%nat →
    ∃ o e, seek_last n f = Some (Ok K, with_pos o e f).
Proof.
  intros Hs HK n Hn. revert f Hs. induction n as [|n IH]; intros f Hs.
  - assert (K = 0%nat) as -> by lia. exists (offset f), (block_end f). by rewrite with_pos_same.
  - cbn [seek_last]. destruct (decide (K = S n)) as [->|].
    + eexists _, _. by rewrite (FM_bind_attempt _ _ _ _ _ (block_seq_hit (S n) m ms 1 f Hs (proj1 HK))).
    + destruct (block_seq_miss K m ms (S n) 1 f Hs HK ltac:(lia)) as (o & e & H).
      rewrite (FM_bind_attempt _ _ _ _ _ H). destruct (IH ltac:(lia) (with_pos o e f) Hs) as (o' & e' & H').
      exists o', e'. done.
Qed.

Lemma last_index_spec K m ms f : last_data K m ms → zlen d < 2 ^ 63 →
    ∃ n, last_index (zlen d) (gB g) f = Some (Ok n, f) ∧ (K ≤ n)%nat.
Proof.
  intros [HK _] Hd. pose proof (at_msg_bound K m ms HK) as Hb. pose proof (msize_pos m). pose proof (used_pos g Hg K []).
  unfold eob, start in Hb. pose proof Hg as (_ & HB & _). unfold last_index. tests. eexists. split; [done|].
  assert (Z.of_nat K + 1 ≤ (zlen d + gB g - 1) / gB g) by (apply Z.div_le_lower_bound; nia).
  assert ((zlen d + gB g - 1) / gB g < 2 ^ 63) by (apply Z.div_lt_upper_bound; nia).
  rewrite (wrapu_id 64) by lia. lia.
Qed.

(** ** Bounds *)

(** Block 0, as [_file_bounds] and [_seek] read it. *)
Lemma block_seq_zero m rest f :
    sized f → concat bs = m :: rest →
    ∃ k ms, bs !! k = Some (m :: ms) ∧ (k = 0%nat ∨ (k = 1%nat ∧ bs !! 0%nat = Some [])) ∧
      _block_seq 2 0 f = Some (Ok m, with_pos (eob g k []) (start g (S k)) f).
Proof.
  intros Hs Hc. destruct (bs !! 0%nat) as [ms0|] eqn:H0.
  2: { apply lookup_ge_None_1 in H0. destruct bs; [done|cbn in *; lia]. }
  destruct ms0 as [|m0 ms0].
  - destruct (bs !! 1%nat) as [ms1|] eqn:H1.
    + assert (ms1 ++ concat (drop 2 bs) = m :: rest) as E.
      { rewrite <-Hc, (concat_middle _ _ _ H1), (take_S_r bs 0 [] H0). done. }
      destruct ms1 as [|m1 ms1].
      { destruct (l_inner _ _ _ Hl 0 ltac:(apply lookup_lt_Some in H1; lia)) as [?|Hlen]; [congruence|].
        rewrite drop_ge in E by lia. done. }
      cbn in E. injection E as -> E. exists 1%nat, ms1. split; [done|]. split; [by right|].
      by rewrite (block_seq_next m ms1 1 f Hs H0 H1).
    + apply lookup_ge_None_1 in H1. destruct bs as [|x [|? ?]]; cbn in *; try lia; [done|]. injection H0 as ->. done.
  - exists 0%nat, ms0. assert (m0 = m) as ->.
    { destruct bs as [|x l]; [done|]. cbn in H0, Hc. injection H0 as ->. cbn in Hc. congruence. }
    split; [done|]. split; [by left|]. by apply (block_seq_hit 0 m ms0 1 f Hs).
Qed.

Lemma block_seq_zero_empty f :
    sized f → concat bs = [] →
    ∃ o e, _block_seq 2 0 f = Some (Err EAGAIN, with_pos o e f) ∧ tip g d bs (with_pos o e f).
Proof.
  intros Hs Hc. pose proof (l_some _ _ _ Hl) as Hne.
  destruct (bs !! 0%nat) as [ms0|] eqn:H0; [|apply lookup_ge_None_1 in H0; destruct bs; [done|cbn in *; lia]].
  pose proof (concat_nil_lookup _ _ _ Hc H0) as ->.
  destruct (bs !! 1%nat) as [ms1|] eqn:H1.
  - pose proof (concat_nil_lookup _ _ _ Hc H1) as ->. pose proof (lookup_lt_Some _ _ _ H1) as Hlt.
    destruct (l_inner _ _ _ Hl 0 ltac:(lia)) as [?|Hlen]; [congruence|].
    exists (eob g 1 []), (start g 2). split.
    2: { exists 1%nat, []. split_and!; [done..|left]. done. }
    change 0 with (Z.of_nat 0). rewrite (block_seq_header 0 [] 1 f Hs H0). pose proof Hs as (Hr & Hd & _).
    destruct (l_full _ _ _ Hl 0 [] H0 ltac:(lia)) as [Hu|[_ ?]]; [|done].
    destruct (l_block _ _ _ Hl 1 [] H1) as ([Hb _] & _). pose proof (start_nonneg g Hg 1).
    apply at_bound in Hb as [Hn|Hb]; [done| |done]. pose proof Hg as (_ & HB & Hh).
    assert (zlen (hbytes g 1) = 4) as Hz by (unfold hbytes; by rewrite zlen_le_bytes).
    unfold eob at 1, start at 1. rewrite used_nil in *. cbn [hlen] in *. unfold start in Hb. tests.
    apply read_seq_nothing. set (f1 := with_pos (eob g 0 []) _ f).
    change (with_pos (eob g 1 []) (start g 2) f) with (with_pos (eob g 1 []) (start g 2) f1).
    apply (nothing_enter g Hg d bs Hl 0); try done. unfold f1, eob, start. cbn [offset block_end with_pos].
    rewrite used_nil. cbn [hlen]. lia.
  - apply lookup_ge_None_1 in H1. pose proof (lookup_lt_Some _ _ _ H0).
    by apply (block_seq_empty 0 1 f Hs H0); lia.
Qed.

(** The loop over the messages of the last block with data. *)
Lemma bounds_loop_spec K ms : bs !! K = Some ms → concat (drop (S K) bs) = [] →
    ∀ n i f fuel, (length ms - i)%nat = n → (n + 1 < fuel)%nat → (i ≤ length ms)%nat →
    sized f → pos_at g K ms i f →
    ∃ o e, bounds_loop fuel (start g (S K)) f =
        Some (Ok tt, with_pos o e (set_seq (default (f_seq f) (m_seq <$> last (drop i ms))) f)) ∧
      tip g d bs (with_pos o e f).
Proof.
  intros HK Hc n. induction n as [|n IH]; intros i f fuel Hn Hfuel Hi Hs Hpos; pose proof Hs as (Hr & Hd & _);
    (destruct fuel as [|fuel]; [lia|]); cbn [bounds_loop]; rewrite !FM_bind_get; pose proof Hpos as [Ho He];
    rewrite He, Z.eqb_refl, andb_false_r.
  - rewrite drop_ge by lia. cbn [last fmap option_fmap option_map default].
    destruct (cursor_tail g Hg d bs Hl f Hr Hd) as (o & e & Hend & Htip).
    { exists K, i, ms. split_and!; [done..|]. by rewrite Hc, drop_ge by lia. }
    exists o, e. split; [|done].
    assert (with_pos o e (set_seq (f_seq f) f) = with_pos o e f) as -> by (by destruct f).
    assert (∀ fuel f1, (0 < fuel)%nat → block_end f1 = start g (S K) → nothing f1 (with_pos o e f) → bounds_loop fuel (start g (S K)) f1 = Some (Ok tt, with_pos o e f)) as Hstop.
    { intros fu f1 Hfu He1 Hno. destruct fu as [|fu]; [lia|]. cbn [bounds_loop]. rewrite !FM_bind_get, He1, Z.eqb_refl, andb_false_r.
      destruct Hno as [H|(x & Hx & H1 & H2)].
      - by rewrite (FM_bind_attempt _ _ _ _ _ H).
      - rewrite (FM_bind_attempt _ _ _ _ _ H1). tests. rewrite read_seq_frame_eq by done.
        by rewrite (FM_bind_attempt _ _ _ _ _ H2). }
    destruct Hend as [Hno|[H1 Hno]].
    + specialize (Hstop 1%nat f ltac:(lia) He Hno). cbn [bounds_loop] in Hstop.
      rewrite !FM_bind_get, He, Z.eqb_refl, andb_false_r in Hstop.
      destruct Hno as [H|(x & Hx & H1 & H2)].
      * by rewrite (FM_bind_attempt _ _ _ _ _ H).
      * rewrite (FM_bind_attempt _ _ _ _ _ H1). tests. rewrite read_seq_frame_eq by done.
        by rewrite (FM_bind_attempt _ _ _ _ _ H2).
    + rewrite (FM_bind_attempt _ _ _ _ _ H1). change (-1 =? -1) with true. cbv iota.
      unfold _shift_skip. rewrite FM_bind_upd. apply Hstop; [lia|by cbn|done].
  - destruct (lookup_lt_is_Some_2 ms i ltac:(lia)) as [m Hm].
    destruct (read_frame_msg g Hg d bs Hl K ms i m f Hr Hd HK Hm Hpos) as [H1 H2].
    destruct (laid_msg g Hg d bs Hl K ms i m HK Hm) as (_ & _ & _ & Enext & Hms).
    pose proof (msize_pos m). pose proof Hg as (_ & HB & _).
    rewrite (FM_bind_attempt _ _ _ _ _ H1). tests. rewrite read_seq_frame_eq by lia.
    rewrite (FM_bind_attempt _ _ _ _ _ H2). unfold _shift. rewrite !FM_bind_upd.
    set (f1 := with_pos _ _ _).
    destruct (IH (S i) f1 fuel) as (o & e & Hrun & Htip); [lia|lia|lia|done| |].
    { split; [|done]. unfold f1. cbn [offset with_pos set_seq with_seqs]. by rewrite Ho, Enext. }
    exists o, e. split; [|done]. rewrite Hrun. rewrite (drop_S ms m i Hm), last_cons.
    destruct (last (drop (S i) ms)); reflexivity.
Qed.

Lemma sized_cache f : ready g f → disk f = d → sized (with_cache (zlen d) f).
Proof. done. Qed.

(** [_file_bounds] of a file without messages: the position is at the end. *)
Lemma file_bounds_empty f fuel :
    ready g f → disk f = d → 0 < zlen d → concat bs = [] →
    ∃ o e, _file_bounds fuel f = Some (Err EAGAIN, with_pos o e (with_cache (zlen d) f)) ∧ tip g d bs (with_pos o e f).
Proof.
  intros Hr Hd Hz Hc. unfold _file_bounds.
  rewrite (FM_bind_ok _ _ f (zlen d) (with_cache (zlen d) f)) by (unfold _file_size; by rewrite Hd). tests.
  destruct (block_seq_zero_empty (with_cache (zlen d) f)) as (o & e & H & Htip); [by apply sized_cache|done|].
  exists o, e. split; [|done]. by rewrite (FM_bind_err _ _ _ _ _ (or_einval_again _ _ _ H)).
Qed.

(** [_file_bounds] of a file with messages: the numbers of the first and of
      the last one, and the position at the end. *)
Lemma file_bounds_ok f fuel m rest :
    ready g f → disk f = d → zlen d < 2 ^ 63 → concat bs = m :: rest → (length (concat bs) + 1 < fuel)%nat →
    ∃ o e, _file_bounds fuel f =
        Some (Ok tt, with_pos o e (with_seqs (default 0 (m_seq <$> last (concat bs))) (m_seq m) (seq_eod f) (with_cache (zlen d) f))) ∧
      tip g d bs (with_pos o e f).
Proof.
  intros Hr Hd Hz Hc Hfuel. unfold _file_bounds.
  rewrite (FM_bind_ok _ _ f (zlen d) (with_cache (zlen d) f)) by (unfold _file_size; by rewrite Hd).
  set (f1 := with_cache (zlen d) f). assert (sized f1) as Hs1 by done.
  destruct (block_seq_zero m rest f1 Hs1 Hc) as (k0 & ms0 & Hk0 & _ & H0).
  pose proof (at_msg_bound k0 m ms0 Hk0). pose proof (msize_pos m). pose proof (eob_pos g Hg k0 []). tests.
  rewrite (FM_bind_ok _ _ _ _ _ (or_einval_ok _ _ _ _ H0)). rewrite FM_bind_upd, FM_bind_get.
  set (f2 := set_seq_begin _ _). assert (sized f2) as Hs2 by done.
  destruct (last_data_ex ltac:(rewrite Hc; done)) as (K & mK & msK & HK).
  destruct (last_index_spec K mK msK f2 HK Hz) as (n & Hn & HKn).
  change (block_size f2) with (block_size f). rewrite (proj1 Hr). rewrite (FM_bind_ok _ _ _ _ _ Hn).
  rewrite (FM_bind_ok _ _ _ _ _ (last_block_spec K mK msK f2 Hs2 HK n HKn)). rewrite FM_bind_upd, FM_bind_get.
  set (f3 := set_seq _ _). assert (sized f3) as Hs3 by done.
  destruct HK as [HK HKc].
  assert (length (mK :: msK) ≤ length (concat bs))%nat as Hlen.
  { rewrite (concat_middle _ _ _ HK), !length_app. lia. }
  destruct (bounds_loop_spec K (mK :: msK) HK HKc (length (mK :: msK)) 0 f3 fuel) as (o & e & Hrun & Htip);
    [lia|lia|lia|done|split; [by rewrite take_0|done]|].
  exists o, e. split; [|done]. change (block_end f3) with (start g (S K)). rewrite Hrun. do 2 f_equal.
  assert (last (concat bs) = last (mK :: msK)) as ->.
  { rewrite (concat_middle _ _ _ HK), HKc, app_nil_r. by rewrite last_app_cons || rewrite last_app. }
  rewrite drop_0. destruct (last (mK :: msK)) eqn:E; [reflexivity|]. apply last_None in E. done.
Qed.

(** ** Delivery *)
Lemma cursor_away f rest : ready g f → cursor g bs f rest → (offset f + io_block_size f =? block_end f) = false.
Proof.
  intros (_ & H & _) (k & i & ms & _ & _ & (Ho & He) & _). rewrite H, Ho, He, start_S. unfold eob.
  pose proof (used_pos g Hg k (take i ms)). case_bool; [lia|done].
Qed.

(** What one call of [_process] leaves when it delivers [m]. *)
Definition delivered (m : msg) (f : file) : file :=
    with_channel true (closed f) (out f ++ [m]) (set_seq (m_seq m) f).

Lemma process_msg f m rest fuel :
    ready g f → disk f = d → cursor g bs f (m :: rest) → (2 ≤ fuel)%nat →
    ∃ o e, _process fuel f = Some (Ok tt, delivered m (with_pos o e f)) ∧
      cursor g bs (delivered m (with_pos o e f)) rest.
Proof.
  intros Hr Hd Hcur Hfuel. destruct (cursor_head g Hg d bs Hl f m rest Hr Hd Hcur) as (o & e & Hsee & Hdata & Hnext & _ & _ & Hms).
  exists (o + msize m), e. split; [|done]. pose proof (msize_pos m). pose proof Hg as (_ & HB & _).
  destruct (data_size_id (msize m) ltac:(lia)) as [_ H4].
  assert (∀ n f0, (offset f0 + io_block_size f0 =? block_end f0) = false → _read_frame f0 = Some (Ok (msize m), with_pos o e f) →
    _process (S n) f0 = Some (Ok tt, delivered m (with_pos (o + msize m) e f))) as Hgo.
  { intros n f0 Hst Hrf. cbn [_process]. rewrite !FM_bind_get, Hst, FM_bind_ret.
    rewrite (FM_bind_attempt _ _ _ _ _ Hrf). tests. cbv zeta. rewrite ?H4.
    by rewrite (FM_bind_attempt _ _ _ _ _ Hdata). }
  destruct fuel as [|[|fuel]]; [lia|lia|].
  destruct Hsee as [Hrf|[Hskip Hrf]]; [apply Hgo; [by eapply cursor_away|done]|].
  remember (S fuel) as n1. cbn [_process]. rewrite !FM_bind_get, (cursor_away f _ Hr Hcur), FM_bind_ret.
  rewrite (FM_bind_attempt _ _ _ _ _ Hskip). change (-1 =? -1) with true. cbv iota.
  unfold _shift_skip. rewrite FM_bind_upd. subst n1. apply Hgo; [|done].
  destruct Hr as (_ & Hio & _). cbn. rewrite Hio. case_bool; [lia|done].
Qed.

Lemma process_end f fuel :
    ready g f → disk f = d → cursor g bs f [] → (2 ≤ fuel)%nat →
    ∃ o e, tip g d bs (with_pos o e f) ∧
      (_process fuel f = at_end (with_pos o e f) ∨
       _process fuel f = Some (Err EAGAIN, with_channel false (closed f) (out f) (with_pos o e f))).
Proof.
  intros Hr Hd Hcur Hfuel. destruct (cursor_tail g Hg d bs Hl f Hr Hd Hcur) as (o & e & Hend & Htip).
  exists o, e. split; [done|].
  assert (∀ n f0, (offset f0 + io_block_size f0 =? block_end f0) = false → nothing f0 (with_pos o e f) →
    _process (S n) f0 = at_end (with_pos o e f) ∨
    _process (S n) f0 = Some (Err EAGAIN, with_channel false (closed f) (out f) (with_pos o e f))) as Hgo.
  { intros n f0 Hst Hno. cbn [_process]. rewrite !FM_bind_get, Hst, FM_bind_ret.
    destruct Hno as [H|(x & Hx & H1 & H2)]; [left; by rewrite (FM_bind_attempt _ _ _ _ _ H)|right].
    rewrite (FM_bind_attempt _ _ _ _ _ H1). tests. cbv zeta. rewrite ?(proj2 (data_size_id x Hx)).
    by rewrite (FM_bind_attempt _ _ _ _ _ H2). }
  destruct fuel as [|[|fuel]]; [lia|lia|].
  destruct Hend as [Hno|[Hskip Hno]]; [apply Hgo; [by eapply cursor_away|done]|].
  remember (S fuel) as n1. cbn [_process]. rewrite !FM_bind_get, (cursor_away f _ Hr Hcur), FM_bind_ret.
  rewrite (FM_bind_attempt _ _ _ _ _ Hskip). change (-1 =? -1) with true. cbv iota.
  unfold _shift_skip. rewrite FM_bind_upd. subst n1. apply Hgo; [|done].
  destruct Hr as (_ & Hio & _). pose proof Hg as (_ & HB & _). cbn. rewrite Hio. case_bool; [lia|done].
Qed.
End Blocks.

(** Calls of [_process] that all deliver a message. *)
Fixpoint drain (fuel n : nat) : FM unit :=
  match n with O => mret tt | S n => _ ← _process fuel; drain fuel n end.

Lemma drain_spec g d bs rest : geo_ok g → laid g d bs → ∀ f fuel,
  ready g f → disk f = d → cursor g bs f rest → (2 ≤ fuel)%nat →
  ∃ f', drain fuel (length rest) f = Some (Ok tt, f') ∧ out f' = out f ++ rest ∧
    ready g f' ∧ disk f' = d ∧ cursor g bs f' [] ∧ closed f' = closed f ∧ cf f' = cf f ∧ seq_eod f' = seq_eod f.
Proof.
  intros Hg Hl. induction rest as [|m rest IH]; intros f fuel Hr Hd Hcur Hfuel.
  - exists f. rewrite app_nil_r. done.
  - destruct (process_msg g Hg d bs Hl f m rest fuel Hr Hd Hcur Hfuel) as (o & e & H & Hc).
  destruct (IH (delivered m (with_pos o e f)) fuel) as (f' & Hf' & Ho & Hr' & Hd' & Hc' & E1 & E2 & E3); try done.
  exists f'. cbn [length drain]. rewrite (FM_bind_ok _ _ _ _ _ H). split; [done|].
  split; [|done]. rewrite Ho. cbn [out delivered with_channel]. by rewrite <-app_assoc.
Qed.

(** ** Opening for reading *)
(** The object once the bounds of the file are known. *)
Definition bounded (ms : list msg) (n : Z) (f : file) : file :=
  with_seqs (last_seq ms) (first_seq ms) (seq_eod f) (with_cache n f).

Lemma load_bounds_spec g d bs f fuel :
  geo_ok g → laid g d bs → ready g f → disk f = d → 0 < zlen d < 2 ^ 63 → f_seq f = -1 → seq_begin f = -1 →
  (length (concat bs) + 1 < fuel)%nat →
  ∃ o e, load_bounds fuel f = Some (Ok tt, with_pos o e (bounded (concat bs) (zlen d) f)) ∧ tip g d bs (with_pos o e f).
Proof.
  intros Hg Hl Hr Hd Hz Hs Hb Hfuel. unfold load_bounds, bounded. destruct (concat bs) as [|m rest] eqn:Hc.
  - destruct (file_bounds_empty g Hg d bs Hl f fuel Hr Hd ltac:(lia) Hc) as (o & e & H & Htip). exists o, e. split; [|done].
  rewrite (FM_bind_attempt _ _ _ _ _ H). destruct f; cbn in *. by subst.
  - destruct (file_bounds_ok g Hg d bs Hl f fuel m rest Hr Hd ltac:(lia) Hc ltac:(rewrite Hc; done)) as (o & e & H & Htip).
  exists o, e. split; [|done]. rewrite (FM_bind_attempt _ _ _ _ _ H), Hc. unfold mret, FM_ret. do 3 f_equal.
  unfold last_seq, first_seq. cbn [head fmap option_fmap option_map default]. f_equal.
  destruct (last (m :: rest)) eqn:E; [done|]. by apply last_None in E.
Qed.

Definition marker_of (v : Z) : Z := if 1 <=? v then 0x80000000 else 0.

Lemma marker_of_ok v : marker_ok (marker_of v).
Proof. unfold marker_of. case_bool; [by right|by left]. Qed.

(** The file [d] has metadata and holds the messages in [bs]. *)
Definition holds (g : geo) (v : Z) (s : option (list Z)) (d : list Z) (bs : list (list msg)) : Prop :=
  geo_ok g ∧ gmk g = marker_of v ∧ meta_at d (gB g) v s (gh g) ∧ laid g d bs.

Lemma meta_at_zlen d B v s n : meta_at d B v s n → 49 ≤ n ≤ zlen d.
Proof.
  intros (_ & _ & _ & Hn & H & _ & HH & Hat). apply at_bound in Hat; [|lia].
  destruct Hat as [->|Hat]; [rewrite zlen_nil in HH; lia|lia].
Qed.

(** The object after [_read_meta], [set_marker] and [io_init]. *)
Definition prepared (g : geo) (v : Z) (s : option (list Z)) (f : file) : file :=
  with_marker (gmk g) (with_io (gB g) (gB g) (with_meta (gB g) v s (with_pos 0 0 f))).

Lemma set_marker_spec f v : f_version f = v → size_marker f = 0 → set_marker f = Some (Ok tt, with_marker (marker_of v) f).
Proof.
  intros Hv Hm. unfold set_marker, marker_of. rewrite FM_bind_get, Hv. destruct (1 <=? v); [done|].
  unfold mret, FM_ret. do 2 f_equal. destruct f; cbn in *. by subst.
Qed.

Lemma tip_pos g d bs o e f f' : tip g d bs (with_pos o e f) → tip g d bs (with_pos o e f').
Proof. unfold tip, pos_at. cbn [offset block_end with_pos]. done. Qed.

(** Everything that [open_read] does before it looks for the first message. *)
Lemma open_read_spec g v s d bs f fuel p :
  holds g v s d bs → disk f = d → zlen d < 2 ^ 63 → from_option (scheme_load (cf f)) true s = true →
  (length (concat bs) + 1 < fuel)%nat →
  ∃ o e, let f1 := with_pos o e (bounded (concat bs) (zlen d) (prepared g v (opened_scheme (scheme_init (cf f)) s) (open_reset f))) in
    tip g d bs f1 ∧ ready g f1 ∧ disk f1 = d ∧
    open_read fuel true p f =
      (_ ← (match mode p with
            | ModeEnd => mret tt
            | ModeLast => open_seek fuel (last_seq (concat bs))
            | ModeSeq => match seq_param p with Some s => open_seek fuel s | None => _seek_start end
            end); set_pending true) f1.
Proof.
  intros (Hg & Hmk & Hmeta & Hl) Hd Hz Hload Hfuel. pose proof (meta_at_zlen _ _ _ _ _ Hmeta) as Hn.
  set (f2 := prepared g v (opened_scheme (scheme_init (cf f)) s) (open_reset f)).
  destruct (load_bounds_spec g d bs f2 fuel Hg Hl) as (o & e & Hb & Htip); [done|done|lia|done|done|done|].
  exists o, e. cbv zeta. split; [by apply (tip_pos _ _ _ _ _ f2)|]. split; [split_and!; reflexivity|]. split; [exact Hd|].
  unfold open_read. rewrite FM_bind_upd. cbn [negb].
  rewrite (FM_bind_ok _ _ _ tt (with_meta (gB g) v (opened_scheme (scheme_init (cf f)) s) (with_pos 0 0 (open_reset f)))).
  2: { apply all_einval_ok. rewrite (read_meta_spec (open_reset f) (gB g) v s (gh g)); [done|by rewrite <-Hd in Hmeta|done]. }
  rewrite FM_bind_get. unfold io_init at 1. rewrite FM_bind_upd.
  rewrite (FM_bind_ok _ _ _ tt f2).
  2: { unfold f2, prepared. rewrite Hmk. apply set_marker_spec; reflexivity. }
  rewrite (FM_bind_ok _ _ _ _ _ Hb). rewrite FM_bind_get. reflexivity.
Qed.

(** Opened for reading from the start. *)
Lemma open_read_start g v s d bs f fuel :
  holds g v s d bs → disk f = d → zlen d < 2 ^ 63 → from_option (scheme_load (cf f)) true s = true →
  (length (concat bs) + 1 < fuel)%nat →
  ∃ f', open_read fuel true (OpenParams ModeSeq None false) f = Some (Ok tt, f') ∧
    ready g f' ∧ disk f' = d ∧ cursor g bs f' (concat bs) ∧ out f' = out f ∧ closed f' = closed f ∧
    cf f' = cf f ∧ seq_eod f' = LLONG_MIN ∧ f_seq f' = last_seq (concat bs).
Proof.
  intros Hh Hd Hz Hload Hfuel.
  destruct (open_read_spec g v s d bs f fuel (OpenParams ModeSeq None false) Hh Hd Hz Hload Hfuel) as (o & e & Htip & Hr & Hd1 & ->).
  cbn [mode seq_param]. set (f1 := with_pos o e _) in *. destruct Hh as (Hg & _ & _ & Hl).
  pose proof (l_some _ _ _ Hl) as Hne. destruct (lookup_lt_is_Some_2 bs 0) as [ms Hk]; [destruct bs; [done|cbn; lia]|].
  pose proof (shift_block_ok g Hg d 0 ms f1 Hr Hd1 (proj1 (l_block _ _ _ Hl _ _ Hk)) (laid_hlen g d bs Hl 0 ms Hk)) as Hsh.
  unfold _seek_start. change 0 with (start g 0). rewrite (FM_bind_ok _ _ _ _ _ (all_einval_ok _ _ _ _ Hsh)).
  eexists. split; [reflexivity|]. split; [split_and!; reflexivity|]. split; [exact Hd|]. split; [|split_and!; reflexivity].
  exists 0%nat, 0%nat, ms. split; [exact Hk|]. split; [lia|]. split.
  - split; [|reflexivity]. cbn [offset with_channel with_pos]. unfold eob. by rewrite take_0, used_nil.
  - rewrite drop_0. by rewrite (concat_middle _ _ _ Hk).
Qed.

End FileRead.
