(* ===== verification/FileWrite.v ===== *)
(** * Writing of files

    A post of the writer adds one message to the layout of the file, or, when it
    fails, none; the object may be reopened from what is on the disk. *)
From Stdlib Require Import Sorted.
From S2P Require Import Prelude Mem Callback Channel Reopen Binder Storage File FileLayout FileMeta FileRead.
Import Cb Chan Storage File FileLayout FileMeta FileRead.

Module FileWrite.

(** ** One write *)

Lemma FM_bind_assoc {A B C} (m : FM A) (k : A → FM B) (h : B → FM C) f :
  (x ← m; y ← k x; h y) f = (y ← (x ← m; k x); h y) f.
Proof. unfold mbind, FM_bind. by destruct (m f) as [[[?|?] ?]|]. Qed.

(** From [o] on the file has zeros only. *)
Definition zero_from (d : list Z) (o : Z) : Prop := ∀ (i : nat) x, o ≤ Z.of_nat i → d !! i = Some x → x = 0.

Lemma zero_from_quiet d o p : zero_from d o → o ≤ p → 0 ≤ p → quiet0 d p.
Proof.
  intros Hz Ho Hp. destruct (decide (zlen d < p + 4)) as [|Hl]; [by left|right].
  unfold at_. change (zlen [0; 0; 0; 0]) with 4. unfold pread, zlen in *. apply list_eq. intros i.
  destruct (decide (i < 4)%nat) as [Hi|Hi].
  - rewrite lookup_take_lt, lookup_drop by lia.
  destruct (lookup_lt_is_Some_2 d (Z.to_nat p + i)) as [x Hx]; [lia|]. rewrite Hx, (Hz (Z.to_nat p + i)%nat x ltac:(lia) Hx).
  do 4 (destruct i as [|i]; [done|]). lia.
  - rewrite !lookup_ge_None_2; [done|cbn; lia|]. rewrite length_take. lia.
Qed.

Lemma zero_from_mono d o p : zero_from d o → o ≤ p → zero_from d p.
Proof. intros Hz Hp i x Hi. apply Hz. lia. Qed.

Lemma zero_from_resize d o n : zero_from d o → 0 ≤ n → zero_from (resize_to d n) o.
Proof.
  intros Hz Hn i x Hi. rewrite resize_to_lookup by done. case_bool; [|done].
  destruct (d !! i) eqn:E; [|congruence]. intros [= <-]. by eapply Hz.
Qed.

Lemma zero_from_short d o : zlen d ≤ o → zero_from d o.
Proof. intros Hl i x Hi Hx. apply lookup_lt_Some in Hx. unfold zlen in *. lia. Qed.

(** Nothing is read behind the position of the writer.  Up to three bytes of
    a size may be there when the file is not extended. *)
Definition clean (d : list Z) (o n : Z) : Prop := zero_from d o ∨ (n = 0 ∧ zlen d < o + 4).

Lemma clean_quiet d o n p : clean d o n → o ≤ p → 0 ≤ p → quiet0 d p.
Proof. intros [Hz|[_ Hs]] Ho Hp; [by eapply zero_from_quiet|left; lia]. Qed.

Lemma clean_write d o n bytes : clean d o n → 0 ≤ o → 4 ≤ zlen bytes → zero_from (write_at d o bytes) (o + zlen bytes).
Proof.
  intros Hc Ho Hb i x Hi. rewrite write_at_lookup by done. tests. intros Hx.
  destruct Hc as [Hz|[_ Hs]]; [apply (Hz i); [lia|done]|]. apply lookup_lt_Some in Hx. unfold zlen in *. lia.
Qed.

(** The object after a write that did not fit: what was written is cut off. *)
Definition failed_write (bytes : list Z) (f : file) : file :=
  if limit f <=? offset f then f
  else with_cache (offset f) (with_disk (resize_to (write_at (disk f) (offset f) (take (Z.to_nat (limit f - offset f)) bytes)) (offset f)) f).

Lemma file_put_spec frame data n f :
  n = 4 + zlen data → 0 ≤ offset f →
  (r ← io_writev frame data; _check_write n r) f =
    if offset f + n <=? limit f
    then Some (Ok tt, with_disk (write_at (disk f) (offset f) (le_bytes 4 frame ++ data)) f)
    else Some (Err EINVAL, failed_write (le_bytes 4 frame ++ data) f).
Proof.
  intros -> Ho. pose proof (zlen_nonneg data). unfold io_writev. unfold mbind at 1, FM_bind at 1.
  set (bytes := le_bytes 4 frame ++ data).
  assert (zlen bytes = 4 + zlen data) as Hb by (unfold bytes; by rewrite zlen_app, zlen_le_bytes).
  unfold pwrite, failed_write. destruct (Z.leb_spec (limit f) (offset f)) as [H1|H1].
  - tests. unfold _check_write. change (-1 <? 0) with true. reflexivity.
  - rewrite Hb. destruct (Z.leb_spec (offset f + (4 + zlen data)) (limit f)) as [H2|H2].
  + rewrite Z.min_l by lia. unfold _check_write. tests. cbn [negb]. rewrite <-Hb. unfold zlen at 1. rewrite Nat2Z.id, firstn_all. reflexivity.
  + rewrite Z.min_r by lia. unfold _check_write. tests. cbn [negb]. rewrite FM_bind_get. unfold _truncate. rewrite FM_bind_upd.
    cbn [offset limit with_disk disk]. tests. reflexivity.
Qed.

(** A write that failed leaves what was there before the position. *)
Lemma failed_write_disk bytes f n :
  0 ≤ offset f → clean (disk f) (offset f) n →
  (∀ a l, 0 ≤ a → a + zlen l ≤ offset f → at_ (disk f) a l → at_ (disk (failed_write bytes f)) a l) ∧
  clean (disk (failed_write bytes f)) (offset f) n.
Proof.
  intros Ho Hc. unfold failed_write. destruct (limit f <=? offset f); [done|].
  cbn [disk with_cache with_disk]. split.
  - intros a l Ha Hl Hat. apply resize_to_before; [done..|]. by apply write_at_before.
  - left. apply zero_from_short. rewrite zlen_resize_to by done. lia.
Qed.

Lemma failed_write_limit bytes f : zlen (disk f) ≤ limit f → zlen (disk (failed_write bytes f)) ≤ limit f.
Proof.
  intros Hl. unfold failed_write. case_bool; [done|]. cbn [disk with_cache with_disk].
  unfold resize_to, Binder.zeros, zlen in *. rewrite length_app, length_take, length_replicate. lia.
Qed.

Lemma failed_write_frame bytes f :
  ∃ c d, failed_write bytes f = with_cache c (with_disk d f) ∧ d = disk (failed_write bytes f).
Proof.
  unfold failed_write. destruct (limit f <=? offset f); [|by eexists _, _].
  exists (file_size_cache f), (disk f). split; [by destruct f|done].
Qed.

(** ** Layouts that grow *)
Section Growing.
Context (g : geo) (Hg : geo_ok g).

(** [d'] keeps what [d] has before [o]. *)
Definition keeps (d d' : list Z) (o : Z) : Prop :=
    ∀ a l, 0 ≤ a → a + zlen l ≤ o → at_ d a l → at_ d' a l.

Lemma keeps_mono d d' o p : keeps d d' o → p ≤ o → keeps d d' p.
Proof. intros H Hp a l Ha Hl. apply H; [done|lia]. Qed.

Lemma block_keeps d d' k ms o : keeps d d' o → eob g k ms ≤ o → used g k ms ≤ gB g → block_at g d k ms → block_at g d' k ms.
Proof.
  intros Hk Ho Hu [H1 H2]. pose proof (start_nonneg g Hg k). pose proof (hlen_pos g Hg k). unfold eob, used in Ho.
  pose proof (zlen_nonneg (body g ms)). split; apply Hk; try done; try lia.
  unfold hbytes. rewrite zlen_le_bytes. lia.
Qed.

Lemma full_keeps d d' k ms o : keeps d d' o → start g (S k) ≤ o → full g d k ms → full g d' k ms.
Proof.
  intros Hk Ho [?|[Hs Hm]]; [by left|]. destruct (decide (gB g - used g k ms < 17)); [by left|right].
  split; [|done]. pose proof (eob_pos g Hg k ms). apply Hk; [lia| |done]. rewrite start_S in Ho. unfold skip. rewrite zlen_le_bytes.
  unfold eob. lia.
Qed.

Lemma start_le j k : (j ≤ k)%nat → start g j ≤ start g k.
Proof. intros H. destruct Hg as (_ & HB & _). unfold start. nia. Qed.

Lemma eob_le_start k ms : used g k ms ≤ gB g → eob g k ms ≤ start g (S k).
Proof. intros H. unfold eob. rewrite start_S. lia. Qed.

Lemma full_inner d k ms : full g d k ms → (0 < k)%nat → ms ≠ [].
Proof.
  intros [Hu|[_ ?]] Hk; [|done]. intros ->. rewrite used_nil in Hu. destruct Hg as (_ & HB & _).
  destruct k; cbn in Hu; lia.
Qed.

(** Blocks before the last one end before its data. *)
Lemma before_last d bs k ms j x :
    laid g d bs → bs !! k = Some ms → S k = length bs → bs !! j = Some x → j ≠ k → start g (S j) ≤ eob g k ms.
Proof.
  intros Hl Hk Hlen Hj Hne. apply lookup_lt_Some in Hj. pose proof (start_le (S j) k ltac:(lia)).
  pose proof (used_pos g Hg k ms). unfold eob. lia.
Qed.

(** The same blocks in a file that keeps what is before the end of the last. *)
Lemma laid_last d d' bs k ms :
    laid g d bs → bs !! k = Some ms → S k = length bs → keeps d d' (eob g k ms) →
    full g d' k ms ∨ quiet0 d' (eob g k ms) → (∀ j, (length bs ≤ j)%nat → quiet0 d' (start g j)) →
    laid g d' bs.
Proof.
  intros Hl Hk Hlen Hkeep Hlast Hq. split.
  - apply (l_some _ _ _ Hl).
  - intros j x Hj. destruct (l_block _ _ _ Hl j x Hj) as (Hb & Hu & Hf). split_and!; [|done..].
    apply (block_keeps d d' j x (eob g k ms)); try done.
    destruct (decide (j = k)) as [->|Hne]; [replace x with ms by congruence; lia|].
    pose proof (eob_le_start j x Hu). pose proof (before_last d bs k ms j x Hl Hk Hlen Hj Hne). lia.
  - intros j x Hj Hlt. apply (full_keeps d d' j x (eob g k ms)); [done| |by apply (l_full _ _ _ Hl)].
    apply (before_last d bs k ms j x); done || lia.
  - apply (l_inner _ _ _ Hl).
  - intros j x Hj Hj'. assert (j = k) as -> by lia. replace x with ms by congruence. tauto.
  - done.
Qed.

Lemma laid_keep d d' bs f :
    laid g d bs → tip g d bs f → keeps d d' (offset f) → (∀ p, offset f ≤ p → quiet0 d' p) →
    laid g d' bs ∧ tip g d' bs f.
Proof.
  intros Hl (k & ms & Hk & Hlen & Hpos) Hkeep Hq.
  destruct (l_block _ _ _ Hl k ms Hk) as (_ & Huk & _). pose proof (eob_le_start k ms Huk).
  assert (∀ j, (length bs ≤ j)%nat → start g (S k) ≤ start g j) as Hj by (intros; apply start_le; lia).
  destruct Hpos as [[Ho He]|(Hf & Ho & He)].
  - pose proof Ho as Ho'. rewrite firstn_all in Ho. split.
    + apply (laid_last d d' bs k ms); try done; [apply (keeps_mono d d' (offset f)); [done|lia]|right; apply Hq; lia|].
      intros j Hjl. apply Hq. specialize (Hj j Hjl). lia.
    + exists k, ms. split_and!; [done..|]. left. done.
  - assert (full g d' k ms) as Hf' by (apply (full_keeps d d' k ms (offset f)); done || lia). split.
    + apply (laid_last d d' bs k ms); try done; [apply (keeps_mono d d' (offset f)); [done|lia]|by left|].
      intros j Hjl. apply Hq. specialize (Hj j Hjl). lia.
    + exists k, ms. split_and!; [done..|]. right. done.
Qed.

(** One more message in the last block. *)
Lemma laid_append d d' bs k ms m :
    laid g d bs → bs !! k = Some ms → S k = length bs → keeps d d' (eob g k ms) →
    at_ d' (eob g k ms) (enc (gmk g) m) → eob g k ms + msize m ≤ start g (S k) → entry_ok m →
    (∀ p, eob g k ms + msize m ≤ p → quiet0 d' p) →
    laid g d' (<[k := ms ++ [m]]> bs).
Proof.
  intros Hl Hk Hlen Hkeep Hat Hfit Hok Hq.
  destruct (l_block _ _ _ Hl k ms Hk) as (Hbk & Huk & Hfk). pose proof (msize_pos m).
  assert (used g k (ms ++ [m]) = used g k ms + msize m) as Hu' by (rewrite used_app, body_one, zlen_enc; done).
  assert (eob g k (ms ++ [m]) = eob g k ms + msize m) as He' by (unfold eob; rewrite Hu'; lia).
  assert (used g k ms + msize m ≤ gB g) as Hfit' by (rewrite start_S in Hfit; unfold eob in Hfit; lia).
  assert (∀ j, (j < k)%nat → start g (S j) ≤ eob g k ms) as Hbefore.
  { intros j Hj. destruct (lookup_lt_is_Some_2 bs j ltac:(lia)) as [x Hx].
    apply (before_last d bs k ms j x); done || lia. }
  split.
  - intros E. apply (f_equal length) in E. rewrite length_insert in E. cbn in E. lia.
  - intros j x Hj. destruct (decide (j = k)) as [->|Hne].
    + rewrite list_lookup_insert_eq in Hj by lia. injection Hj as <-. rewrite Hu'. split_and!; [|lia|].
      * destruct (block_keeps d d' k ms (eob g k ms) Hkeep ltac:(lia) Huk Hbk) as [B1 B2]. split; [done|].
        rewrite body_app, body_one. pose proof (start_nonneg g Hg k). pose proof (hlen_pos g Hg k).
        apply at_app; [lia|]. split; [done|]. unfold eob, used in Hat. by rewrite Z.add_assoc in Hat.
      * by apply Forall_app; split; [|constructor].
    + rewrite list_lookup_insert_ne in Hj by done. destruct (l_block _ _ _ Hl j x Hj) as (Hb & Hu & Hf). split_and!; [|done..].
      pose proof (lookup_lt_Some _ _ _ Hj). apply (block_keeps d d' j x (eob g k ms)); try done.
      pose proof (eob_le_start j x Hu). pose proof (Hbefore j ltac:(lia)). lia.
  - intros j x Hj Hlt. rewrite length_insert in Hlt. rewrite list_lookup_insert_ne in Hj by lia.
    apply (full_keeps d d' j x (eob g k ms)); [done|apply Hbefore; lia|by apply (l_full _ _ _ Hl)].
  - intros j Hlt. rewrite length_insert in *. destruct (decide (S j = k)) as [<-|Hne].
    + rewrite list_lookup_insert_eq by lia. left. intros [= E]. by destruct ms.
    + rewrite list_lookup_insert_ne by done. by apply (l_inner _ _ _ Hl).
  - intros j x Hj Hlast. rewrite length_insert in Hlast. assert (j = k) as -> by lia.
    rewrite list_lookup_insert_eq in Hj by lia. injection Hj as <-. right. left. rewrite He'. apply Hq. lia.
  - intros j Hj. rewrite length_insert in Hj. apply Hq. pose proof (start_le (S k) j ltac:(lia)). lia.
Qed.

(** One more block. *)
Lemma laid_block d d' bs k ms :
    laid g d bs → bs !! k = Some ms → S k = length bs → full g d k ms → keeps d d' (start g (S k)) →
    at_ d' (start g (S k)) (hbytes g (S k)) → (∀ p, eob g (S k) [] ≤ p → quiet0 d' p) →
    laid g d' (bs ++ [[]]).
Proof.
  intros Hl Hk Hlen Hf Hkeep Hat Hq.
  assert (∀ j x, bs !! j = Some x → block_at g d' j x ∧ used g j x ≤ gB g ∧ Forall entry_ok x) as Hblk.
  { intros j x Hj. destruct (l_block _ _ _ Hl j x Hj) as (Hb & Hu & Hfa). split_and!; [|done..].
    pose proof (lookup_lt_Some _ _ _ Hj). apply (block_keeps d d' j x (start g (S k))); try done.
    pose proof (eob_le_start j x Hu). pose proof (start_le (S j) (S k) ltac:(lia)). lia. }
  assert (∀ j x, (bs ++ [[]]) !! j = Some x → bs !! j = Some x ∨ (j = S k ∧ x = [])) as Hcase.
  { intros j x Hj. destruct (decide (j < length bs)%nat); [left; by rewrite lookup_app_l in Hj|right].
    rewrite lookup_app_r in Hj by lia. apply list_lookup_singleton_Some in Hj. split; [lia|naive_solver]. }
  split.
  - by destruct bs.
  - intros j x Hj. destruct (Hcase j x Hj) as [Hj'|[-> ->]]; [by apply Hblk|]. rewrite used_nil.
    destruct Hg as (_ & HB & _). split_and!; [split; [done|done]|cbn; lia|constructor].
  - intros j x Hj Hlt. rewrite length_app in Hlt. cbn in Hlt. destruct (Hcase j x Hj) as [Hj'|[-> ->]]; [|lia].
    apply (full_keeps d d' j x (start g (S k))); [done|apply start_le; lia|].
    destruct (decide (j = k)) as [->|]; [replace x with ms by congruence; done|].
    apply (l_full _ _ _ Hl j x Hj'). lia.
  - intros j Hlt. rewrite length_app in *. cbn in *. destruct (decide (S j = S k)) as [Heq|Hne]; [right; lia|left].
    intros E. destruct (Hcase _ _ E) as [E'|[? _]]; [|lia].
    destruct (decide (S j = k)) as [<-|].
    + apply (full_inner d (S j) ms Hf); [lia|]. congruence.
    + destruct (l_inner _ _ _ Hl j ltac:(lia)) as [?|?]; [done|lia].
  - intros j x Hj Hlast. rewrite length_app in Hlast. cbn in Hlast. destruct (Hcase _ _ Hj) as [Hj'|[-> ->]].
    + apply lookup_lt_Some in Hj'. lia.
    + right. left. apply Hq. lia.
  - intros j Hj. rewrite length_app in Hj. cbn in Hj. apply Hq. pose proof (start_le (S (S k)) j ltac:(lia)).
    rewrite start_S in *. unfold eob. rewrite used_nil. destruct Hg as (_ & HB & _). cbn. lia.
Qed.
End Growing.

Lemma meta_keep d d' B v s n : meta_at d B v s n → keeps d d' n → meta_at d' B v s n.
Proof.
  intros (M1 & M2 & M3 & M4 & H & M5 & M6 & M7) Hk. unfold meta_at. repeat (split; [assumption|]).
  exists H. repeat (split; [assumption|]). apply Hk; [done|lia|done].
Qed.

(** Blocks after some writes: messages are only added, and only behind the
    last one. *)
Definition grown (bs bs' : list (list msg)) : Prop :=
  ∀ k ms, bs !! k = Some ms → ∃ ms', bs' !! k = Some ms' ∧ ms `prefix_of` ms' ∧ ((S k < length bs)%nat → ms' = ms).

Lemma grown_refl bs : grown bs bs.
Proof. intros k ms H. by exists ms. Qed.
Lemma grown_length a b : grown a b → (length a ≤ length b)%nat.
Proof.
  intros H. destruct (decide (length a ≤ length b)%nat) as [|Hn]; [done|].
  destruct (lookup_lt_is_Some_2 a (length b) ltac:(lia)) as [x Hx]. destruct (H _ _ Hx) as (y & Hy & _).
  apply lookup_lt_Some in Hy. lia.
Qed.
Lemma grown_trans a b c : grown a b → grown b c → grown a c.
Proof.
  intros H1 H2 k ms H. destruct (H1 k ms H) as (x & Hx & P1 & E1). destruct (H2 k x Hx) as (y & Hy & P2 & E2).
  exists y. split; [done|]. split; [by etrans|]. intros Hk. pose proof (grown_length a b H1). rewrite E2 by lia. auto.
Qed.
Lemma grown_snoc bs x : grown bs (bs ++ [x]).
Proof. intros k ms H. exists ms. split; [by apply lookup_app_l_Some|done]. Qed.
Lemma grown_insert bs k ms m : bs !! k = Some ms → S k = length bs → grown bs (<[k := ms ++ [m]]> bs).
Proof.
  intros H Hk j x Hj. destruct (decide (j = k)) as [->|Hne].
  - exists (ms ++ [m]). rewrite list_lookup_insert_eq by lia. replace x with ms by congruence.
  split; [done|]. split; [by apply prefix_app_r|lia].
  - exists x. by rewrite list_lookup_insert_ne.
Qed.

(** All of the messages of [bs], the last of them in block [K], are the first
    ones of the blocks that have grown from it. *)
Lemma grown_take a b K : grown a b → (K < length a)%nat → take K b = take K a.
Proof.
  intros H HK. apply list_eq. intros i. destruct (decide (i < K)%nat) as [Hi|Hi].
  - rewrite !lookup_take_lt by done. destruct (lookup_lt_is_Some_2 a i ltac:(lia)) as [x Hx]. destruct (H i x Hx) as (y & Hy & _ & E).
  rewrite Hx, Hy, E by lia. done.
  - rewrite !lookup_ge_None_2; [done|rewrite length_take; lia..].
Qed.

(** ** The writer *)

(** A writer over a file with the blocks [bs], at its end. *)
Record writer (g : geo) (f : file) (bs : list (list msg)) : Prop := {
  w_ready : ready g f;
  w_laid : laid g (disk f) bs;
  w_tip : tip g (disk f) bs f;
  w_clean : clean (disk f) (offset f) (tail_extra_blocks f);
  w_extra : 0 ≤ tail_extra_blocks f;
  w_limit : zlen (disk f) ≤ limit f;
}.

(** The members that writing does not change. *)
Definition same_channel (f f' : file) : Prop :=
  cf f' = cf f ∧ f_seq f' = f_seq f ∧ seq_begin f' = seq_begin f ∧ f_autoseq f' = f_autoseq f ∧
  limit f' = limit f ∧ tail_extra_blocks f' = tail_extra_blocks f ∧ seq_eod f' = seq_eod f ∧ out f' = out f.

Lemma same_refl f : same_channel f f.
Proof. done. Qed.
Lemma same_trans f f' f'' : same_channel f f' → same_channel f' f'' → same_channel f f''.
Proof. unfold same_channel. intuition congruence. Qed.

(** What is in front of the position stays. *)
Definition grows (f f' : file) : Prop :=
  same_channel f f' ∧ keeps (disk f) (disk f') (offset f) ∧ offset f ≤ offset f'.

Lemma grows_trans f f' f'' : grows f f' → grows f' f'' → grows f f''.
Proof.
  intros (H1 & K1 & L1) (H2 & K2 & L2). split; [by eapply same_trans|]. split; [|lia].
  intros a l Ha Hl Hat. apply K2; [done|lia|]. by apply K1.
Qed.

(** A message that fits in every block but the first, and, when it is the first
    of the file, behind the metadata, unless these fill their block. *)
Definition fits (g : geo) (ms : list msg) (m : msg) : Prop :=
  5 + msize m ≤ gB g ∧ (ms = [] → gh g + msize m ≤ gB g ∨ gB g < gh g + 17).

Section Writing.
Context (g : geo) (Hg : geo_ok g).

Lemma tip_offset d bs f : laid g d bs → tip g d bs f → 0 < gh g ≤ offset f.
Proof.
  intros Hl (k & ms & Hk & _ & Hpos). pose proof Hg as (_ & HB & Hh). pose proof (start_nonneg g Hg k).
  destruct Hpos as [[Ho _]|(_ & Ho & _)]; rewrite Ho; [|rewrite start_S; lia].
  rewrite firstn_all. unfold eob, used. pose proof (zlen_nonneg (body g ms)). destruct k as [|k]; cbn [hlen]; [lia|].
  rewrite start_S. pose proof (start_nonneg g Hg k). lia.
Qed.

Lemma grows_intro f f' :
  same_channel f f' → keeps (disk f) (disk f') (offset f) → offset f ≤ offset f' → grows f f'.
Proof. by intros. Qed.

Lemma grows_pos f f' : disk f' = disk f → same_channel f f' → offset f ≤ offset f' → grows f f'.
Proof. intros Hd Hs Ho. split; [done|]. rewrite Hd. by split; [intros a l|]. Qed.

(** A failed write leaves the writer as it is. *)
Lemma writer_failed f bs bytes :
    writer g f bs → writer g (failed_write bytes f) bs ∧ grows f (failed_write bytes f).
Proof.
  intros [Hr Hl Ht Hc Hx Hlim]. pose proof (tip_offset _ _ _ Hl Ht) as Ho.
  destruct (failed_write_disk bytes f _ ltac:(lia) Hc) as [Hk Hc'].
  destruct (failed_write_frame bytes f) as (c & d & E & Hd). rewrite E in *. cbn [disk with_cache with_disk] in *.
  destruct (laid_keep g Hg (disk f) d bs f Hl Ht Hk) as [Hl' Ht'].
  { intros p Hp. apply (clean_quiet _ _ _ _ Hc'); lia. }
  split; [|apply grows_intro; [split_and!; reflexivity|exact Hk|cbn; lia]]. split; [exact Hr|exact Hl'|exact Ht'|exact Hc'|exact Hx|].
  pose proof (failed_write_limit bytes f Hlim) as Hfl. by rewrite E in Hfl.
Qed.

Lemma keeps_write d o bytes : keeps d (write_at d o bytes) o.
Proof. intros a l Ha Hl. by apply write_at_before. Qed.

(** A message that fits at the position. *)
Lemma writer_msg f bs k ms m :
    writer g f bs → bs !! k = Some ms → S k = length bs → pos_at g k ms (length ms) f →
    eob g k ms + msize m ≤ start g (S k) → entry_ok m → offset f + msize m ≤ limit f →
    let f' := with_pos (offset f + msize m) (block_end f) (with_disk (write_at (disk f) (offset f) (enc (gmk g) m)) f) in
    writer g f' (<[k := ms ++ [m]]> bs) ∧ grows f f'.
Proof.
  intros [Hr Hl Ht Hc Hx Hlim] Hk Hlen [Ho He] Hfit Hok Hroom f'. rewrite firstn_all in Ho. pose proof (eob_pos g Hg k ms).
  pose proof (msize_pos m).
  assert (zero_from (disk f') (offset f + msize m)) as Hz.
  { pose proof (clean_write _ _ _ (enc (gmk g) m) Hc ltac:(lia) ltac:(rewrite zlen_enc; lia)) as Hz.
    by rewrite zlen_enc in Hz. }
  split; [|apply grows_intro; [split_and!; reflexivity|apply keeps_write|unfold f'; cbn [offset with_pos]; lia]]. split; [exact Hr| | |left; exact Hz|exact Hx|].
  3: { unfold f'. cbn [disk limit with_pos with_disk]. rewrite zlen_write_at by (rewrite ?zlen_enc; lia). rewrite zlen_enc. lia. }
  - apply (laid_append g Hg (disk f) (disk f') bs k ms m Hl Hk Hlen); try done.
    + rewrite <-Ho. apply keeps_write.
    + rewrite <-Ho. apply write_at_same. lia.
    + intros p Hp. apply (zero_from_quiet _ _ _ Hz); lia.
  - exists k, (ms ++ [m]). split; [apply list_lookup_insert_eq; lia|]. split; [by rewrite length_insert|]. left. split; [|exact He].
    rewrite firstn_all. unfold f'. cbn [offset with_pos]. rewrite Ho. unfold eob. rewrite used_app, body_one, zlen_enc. lia.
Qed.

(** The skip frame at the end of a block, and the move to the next block. *)
Lemma writer_skip f bs k ms :
    writer g f bs → bs !! k = Some ms → S k = length bs → pos_at g k ms (length ms) f →
    (ms = [] → gB g - used g k ms < 17) →
    (offset f + 4 < block_end f → offset f + 4 ≤ limit f →
      let f' := with_pos (block_end f) (block_end f + gB g) (with_disk (write_at (disk f) (offset f) skip) f) in
      writer g f' bs ∧ grows f f' ∧ full g (disk f') k ms ∧ offset f' = start g (S k) ∧ block_end f' = start g (S (S k))) ∧
    (block_end f ≤ offset f + 4 →
      let f' := with_pos (block_end f) (block_end f + gB g) f in
      writer g f' bs ∧ grows f f' ∧ full g (disk f') k ms ∧ offset f' = start g (S k) ∧ block_end f' = start g (S (S k))).
Proof.
  intros Hw Hk Hlen Hpos Hfirst. pose proof Hw as [Hr Hl Ht Hc Hx Hlim]. pose proof Hpos as [Ho He]. rewrite firstn_all in Ho.
  pose proof (eob_pos g Hg k ms). destruct (l_block _ _ _ Hl k ms Hk) as (_ & Hu & _).
  pose proof (eob_le_start g k ms Hu) as Hle. pose proof (start_S g k). pose proof (start_S g (S k)).
  assert (zlen skip = 4) as Hsz by reflexivity.
  split; [intros Hroom Hlim4 f'|intros Hroom f'].
  - set (d' := write_at (disk f) (offset f) skip).
    assert (zero_from d' (offset f + 4)) as Hz by (rewrite <-Hsz; eapply clean_write; [done|lia|lia]).
    assert (full g d' k ms) as Hfull.
    { destruct (decide (gB g - used g k ms < 17)) as [|Hbig]; [by left|right]. split; [|intros ->; tauto].
      rewrite <-Ho. apply write_at_same. lia. }
    assert (laid g d' bs) as Hl'.
    { apply (laid_last g Hg (disk f) d' bs k ms); try done; [rewrite <-Ho; apply keeps_write|by left|].
      intros j Hj. apply (zero_from_quiet _ _ _ Hz); [|by apply start_nonneg].
      pose proof (start_le g Hg (S k) j ltac:(lia)). lia. }
    split; [|split; [apply grows_intro; [split_and!; reflexivity|apply keeps_write|unfold f'; cbn [offset with_pos]; lia]|split; [exact Hfull|unfold f'; cbn [offset block_end with_pos]; lia]]].
    split; [exact Hr|exact Hl'| |left; apply (zero_from_mono _ _ _ Hz); unfold f'; cbn [offset with_pos]; lia|exact Hx|unfold f'; cbn [disk limit with_pos with_disk]; rewrite zlen_write_at; lia].
    exists k, ms. split; [exact Hk|]. split; [done|]. right. split; [exact Hfull|]. unfold f'. cbn [offset block_end with_pos]. lia.
  - assert (full g (disk f) k ms) as Hfull by (left; unfold eob in *; lia).
    split; [|split; [apply grows_pos; [reflexivity|split_and!; reflexivity|unfold f'; cbn [offset with_pos]; lia]|split; [exact Hfull|unfold f'; cbn [offset block_end with_pos]; lia]]].
    split; [exact Hr|exact Hl| | |exact Hx|exact Hlim].
    + exists k, ms. split; [exact Hk|]. split; [done|]. right. split; [exact Hfull|]. unfold f'. cbn [offset block_end with_pos]. lia.
    + destruct Hc as [Hz|[Hn Hs]]; [left; apply (zero_from_mono _ _ _ Hz)|right; split; [exact Hn|]]; unfold f'; cbn [offset with_pos disk]; lia.
Qed.

(** The header of a block at its start, whatever then happens to the size of
      the file. *)
Lemma writer_header f bs k ms d2 c :
    writer g f bs → bs !! k = Some ms → S k = length bs → full g (disk f) k ms →
    offset f = start g (S k) → block_end f = start g (S (S k)) →
    let d1 := write_at (disk f) (offset f) (hbytes g (S k) ++ [0x80]) in
    keeps d1 d2 (offset f + 5) → zero_from d2 (offset f + 5) → zlen d2 ≤ limit f →
    let f' := with_cache c (with_disk d2 (with_pos (offset f + 5) (block_end f) f)) in
    grows f f' ∧ writer g f' (bs ++ [[]]) ∧ pos_at g (S k) [] 0 f'.
Proof.
  intros Hw Hk Hlen Hfull Ho He d1 Hk2 Hz2 Hd2 f'. pose proof Hw as [Hr Hl Ht Hc Hx Hlim]. pose proof (tip_offset _ _ _ Hl Ht) as Hpos.
  assert (at_ d1 (offset f) (hbytes g (S k) ++ [128])) as Hat by (apply write_at_same; lia).
  assert (keeps (disk f) d2 (offset f)) as Hk1.
  { intros a l Ha Hle Hat'. apply Hk2; [done|lia|]. apply write_at_before; done. }
  assert (eob g (S k) [] = offset f + 5) as Heob by (unfold eob; rewrite used_nil, Ho; reflexivity).
  assert (pos_at g (S k) [] 0 f') as Hp.
  { split; [|exact He]. unfold f'. cbn [offset with_cache with_disk with_pos]. by rewrite take_nil, Heob. }
  split; [|split; [|exact Hp]].
  { apply grows_intro; [split_and!; reflexivity|exact Hk1|unfold f'; cbn [offset with_cache with_disk with_pos]; lia]. }
  split; [exact Hr| | |left; exact Hz2|exact Hx|exact Hd2].
  - apply (laid_block g Hg (disk f) d2 bs k ms Hl Hk Hlen Hfull); [by rewrite <-Ho| |].
    + rewrite <-Ho. apply at_app in Hat as [Hat _]; [|lia]. apply Hk2; [lia| |exact Hat].
      unfold hbytes. rewrite zlen_le_bytes. lia.
    + intros p Hp'. apply (zero_from_quiet _ _ _ Hz2); lia.
  - exists (S k), []. split; [|split; [rewrite length_app; cbn; lia|left; exact Hp]].
    rewrite lookup_app_r by lia. by replace (S k - length bs)%nat with 0%nat by lia.
Qed.

Lemma writer_block f bs k ms :
    writer g f bs → bs !! k = Some ms → S k = length bs → full g (disk f) k ms →
    offset f = start g (S k) → block_end f = start g (S (S k)) →
    ∃ r f', _write_block (offset f) f = Some (r, f') ∧ grows f f' ∧
      match r with
      | Ok _ => writer g f' (bs ++ [[]]) ∧ pos_at g (S k) [] 0 f'
      | Err e => e = EINVAL ∧ writer g f' bs
      end.
Proof.
  intros Hw Hk Hlen Hfull Ho He. pose proof Hw as [Hr Hl Ht Hc Hx Hlim]. pose proof (tip_offset _ _ _ Hl Ht) as Hpos.
  pose proof Hr as (HB & Hio & Hbuf & Hmk). pose proof (start_S g (S k)) as HS.
  unfold _write_block, io_block. rewrite FM_bind_upd, Hio.
  assert (with_pos (offset f) (offset f + gB g) f = f) as -> by (replace (offset f + gB g) with (block_end f) by lia; apply with_pos_same).
  rewrite FM_bind_get, FM_bind_assoc, Hmk.
  pose proof (file_put_spec (Z.lor 5 (gmk g)) [128] 5 f eq_refl ltac:(lia)) as Hput.
  destruct (Z.leb_spec (offset f + 5) (limit f)) as [H5|H5].
  2: { rewrite (FM_bind_err _ _ _ _ _ Hput). eexists _, _. split; [reflexivity|].
       destruct (writer_failed f bs (le_bytes 4 (Z.lor 5 (gmk g)) ++ [128]) Hw). done. }
  rewrite (FM_bind_ok _ _ _ _ _ Hput). unfold _shift. rewrite FM_bind_upd, !FM_bind_get.
  change (le_bytes 4 (Z.lor 5 (gmk g))) with (hbytes g (S k)).
  set (d1 := write_at (disk f) (offset f) (hbytes g (S k) ++ [128])). set (f1 := with_pos _ _ _).
  assert (zlen (hbytes g (S k) ++ [128]) = 5) as Hb5 by (unfold hbytes; rewrite zlen_app, zlen_le_bytes; reflexivity).
  assert (zero_from d1 (offset f + 5)) as Hz by (rewrite <-Hb5; eapply clean_write; [done|lia|lia]).
  assert (zlen d1 ≤ limit f) as Hd1 by (unfold d1; rewrite zlen_write_at; lia).
  assert (∀ c d2, keeps d1 d2 (offset f + 5) → zero_from d2 (offset f + 5) → zlen d2 ≤ limit f →
    grows f (with_cache c (with_disk d2 f1)) ∧ writer g (with_cache c (with_disk d2 f1)) (bs ++ [[]]) ∧
    pos_at g (S k) [] 0 (with_cache c (with_disk d2 f1))) as Hgo'.
  { intros c d2 Hk2 Hz2 Hd2. apply (writer_header f bs k ms d2 c Hw Hk Hlen Hfull Ho He Hk2 Hz2 Hd2). }
  assert (∀ c, grows f (with_cache c f1) ∧ writer g (with_cache c f1) (bs ++ [[]]) ∧ pos_at g (S k) [] 0 (with_cache c f1)) as Hsame.
  { intros c. apply (Hgo' c d1); [by intros a l|done|done]. }
  destruct (negb (tail_extra_blocks f1 =? 0) && (file_size_cache f1 <=? block_end f1)).
  - eexists _, _. split; [reflexivity|]. set (n := block_end f1 + tail_extra_blocks f1 * block_size f1).
    destruct (Z.leb_spec n (limit f1)) as [Hnl|]; [|apply Hsame].
    assert (offset f + 5 ≤ n) as Hn.
    { unfold n, f1. cbn [block_end tail_extra_blocks block_size with_pos with_disk]. destruct Hg as (_ & HgB & _). nia. }
    apply (Hgo' n (resize_to d1 n)); [|apply zero_from_resize; [done|lia]|rewrite zlen_resize_to by lia; exact Hnl].
    intros a l Ha Hle Hat'. apply resize_to_before; [done|lia|done].
  - eexists _, _. split; [reflexivity|]. apply (Hsame (file_size_cache f1)).
Qed.

(** What a write of the message [m] leaves: the blocks with it, or, after
      a failure, without. *)
Definition written (f : file) (bs : list (list msg)) (m : msg) (res : option (result errno unit * file)) : Prop :=
    ∃ r f', res = Some (r, f') ∧ grows f f' ∧
      match r with
      | Ok _ => ∃ bs', writer g f' bs' ∧ concat bs' = concat bs ++ [m] ∧ grown bs bs'
      | Err e => e = EINVAL ∧ ∃ bs', writer g f' bs' ∧ concat bs' = concat bs ∧ grown bs bs'
      end.

Lemma written_same f f0 bs bs0 m res :
    grows f f0 → concat bs0 = concat bs → grown bs bs0 → written f0 bs0 m res → written f bs m res.
Proof.
  intros Hs Hc Hgr (r & f' & -> & Hs' & Hr). exists r, f'. split; [done|]. split; [by eapply grows_trans|]. rewrite Hc in Hr.
  destruct r; [|destruct Hr as [-> Hr]; split; [done|]]; destruct Hr as (bs' & H1 & H2 & H3); exists bs';
    (split; [done|]); (split; [done|]); by eapply grown_trans.
Qed.

(** The last part of [_write_data]: the frame of the message. *)
Definition write_frame (m : msg) : FM unit :=
    mk ← get size_marker;
    r ← io_writev (Z.lor (msize m) mk) (frame_bytes (m_msgid m) (m_seq m) ++ m_data m ++ [0x80]);
    _ ← _check_write (msize m) r;
    _shift (msize m).

Lemma write_frame_spec f bs k ms m :
    writer g f bs → bs !! k = Some ms → S k = length bs → pos_at g k ms (length ms) f →
    eob g k ms + msize m ≤ start g (S k) → entry_ok m → written f bs m (write_frame m f).
Proof.
  intros Hw Hk Hlen Hpos Hfit Hok. pose proof (tip_offset _ _ _ (w_laid _ _ _ Hw) (w_tip _ _ _ Hw)) as Ho.
  pose proof (w_ready _ _ _ Hw) as (_ & _ & _ & Hmk).
  unfold write_frame. rewrite FM_bind_get, FM_bind_assoc, Hmk. set (data := frame_bytes _ _ ++ _).
  pose proof (file_put_spec (Z.lor (msize m) (gmk g)) data (msize m) f) as Hput.
  assert (msize m = 4 + zlen data) as Hs.
  { unfold data, msize. rewrite !zlen_app, zlen_frame_bytes. change (zlen [128]) with 1. lia. }
  specialize (Hput Hs ltac:(lia)). change (le_bytes 4 (Z.lor (msize m) (gmk g)) ++ data) with (enc (gmk g) m) in Hput.
  destruct (Z.leb_spec (offset f + msize m) (limit f)) as [Hroom|Hroom].
  - rewrite (FM_bind_ok _ _ _ _ _ Hput). destruct (writer_msg f bs k ms m Hw Hk Hlen Hpos Hfit Hok Hroom) as [Hw' Hsame].
    eexists _, _. split; [reflexivity|]. split; [exact Hsame|]. exists (<[k := ms ++ [m]]> bs). split; [exact Hw'|]. split; [|apply grown_insert; done || lia].
    rewrite insert_take_drop by lia. rewrite (concat_middle bs k ms Hk), concat_app. cbn [concat].
    rewrite (drop_ge bs (S k)) by lia. cbn [concat]. by rewrite !app_nil_r, app_assoc.
  - rewrite (FM_bind_err _ _ _ _ _ Hput). destruct (writer_failed f bs (enc (gmk g) m) Hw) as [Hw' Hsame].
    eexists _, _. split; [reflexivity|]. split; [exact Hsame|]. split; [done|]. exists bs. split; [done|]. split; [done|apply grown_refl].
Qed.

(** The part of [_write_data] behind the skip frame. *)
Definition write_rest (m : msg) : FM unit :=
    o ← get offset;
    e ← get block_end;
    _ ← (if o + gB g =? e then _write_block o else mret tt);
    write_frame m.

Lemma write_rest_start f bs k ms m :
    writer g f bs → bs !! k = Some ms → S k = length bs → full g (disk f) k ms →
    offset f = start g (S k) → block_end f = start g (S (S k)) → 5 + msize m ≤ gB g → entry_ok m →
    written f bs m (write_rest m f).
Proof.
  intros Hw Hk Hlen Hf Ho He Hm Hok. unfold write_rest. rewrite !FM_bind_get, Ho, He, (start_S g (S k)), Z.eqb_refl, <-Ho.
  destruct (writer_block f bs k ms Hw Hk Hlen Hf Ho He) as (r & f' & Hwb & Hsame & Hr). destruct r as [[]|e].
  - rewrite (FM_bind_ok _ _ _ _ _ Hwb). destruct Hr as [Hw' Hp]. apply (written_same f f' bs (bs ++ [[]])); [done| |apply grown_snoc|].
    { rewrite concat_app. cbn. by rewrite app_nil_r. }
    apply (write_frame_spec f' (bs ++ [[]]) (S k) []); try done.
    + rewrite lookup_app_r by lia. by replace (S k - length bs)%nat with 0%nat by lia.
    + rewrite length_app. cbn. lia.
    + unfold eob. rewrite used_nil, (start_S g (S k)). cbn. lia.
  - rewrite (FM_bind_err _ _ _ _ _ Hwb). destruct Hr as [-> Hw']. eexists _, _. split; [reflexivity|].
    split; [done|]. split; [done|]. exists bs. split; [done|]. split; [done|apply grown_refl].
Qed.

Lemma fits_first f bs k ms m :
    laid g (disk f) bs → bs !! k = Some ms → S k = length bs → fits g (concat bs) m → start g (S k) < eob g k ms + msize m →
    ms = [] → gB g - used g k ms < 17.
Proof.
  intros Hl Hk Hlen [Hm Hfirst] Hno ->. unfold eob in Hno. rewrite used_nil in *. rewrite start_S in Hno.
  destruct k as [|k]; cbn [hlen] in *; [|lia].
  destruct bs as [|x [|]]; try done. cbn in Hk. injection Hk as ->. cbn in Hfirst. specialize (Hfirst eq_refl). lia.
Qed.

Lemma write_data_eq m f : block_size f = gB g →
    _write_data (m_msgid m) (m_seq m) (m_data m) f =
      if gB g <? msize m then Some (Err EMSGSIZE, f) else
      (_ ← (if block_end f <? offset f + msize m then
              _ ← (if offset f + 4 <? block_end f then r ← io_writev (-1) []; _check_write 4 r else mret tt);
              io_block (block_end f)
            else mret tt);
       write_rest m) f.
Proof.
  intros HB. unfold _write_data. rewrite FM_bind_get, HB. fold (msize m). case_bool; [done|]. rewrite !FM_bind_get.
  unfold write_rest, write_frame. reflexivity.
Qed.

(** [_write_data] on every branch. *)
Lemma write_data_spec f bs m :
    writer g f bs → fits g (concat bs) m → entry_ok m →
    written f bs m (_write_data (m_msgid m) (m_seq m) (m_data m) f).
Proof.
  intros Hw Hfits Hok. pose proof Hw as [Hr Hl (k & ms & Hk & Hlen & Hpos) Hc Hx]. pose proof Hr as (HB & Hio & _).
  rewrite write_data_eq by done. pose proof (msize_pos m). destruct Hfits as [Hm Hfirst] eqn:E; clear E.
  destruct (Z.ltb_spec (gB g) (msize m)); [lia|].
  pose proof (used_pos g Hg k ms). pose proof (start_S g (S k)) as HSS.
  destruct Hpos as [Hpos|(Hf & Ho & He)].
  2: { tests. rewrite FM_bind_ret. by apply (write_rest_start f bs k ms m). }
  pose proof Hpos as [Ho He]. rewrite firstn_all in Ho. rewrite Ho, He.
  destruct (Z.ltb_spec (start g (S k)) (eob g k ms + msize m)) as [Hno|Hfit].
  - pose proof (fits_first f bs k ms m Hl Hk Hlen Hfits Hno) as Hsmall.
    destruct (writer_skip f bs k ms Hw Hk Hlen Hpos Hsmall) as [Hskip Hnoskip]. rewrite Ho, He in *.
    destruct (Z.ltb_spec (eob g k ms + 4) (start g (S k))) as [Hroom|Hroom].
    + pose proof (file_put_spec (-1) [] 4 f eq_refl ltac:(pose proof (eob_pos g Hg k ms); lia)) as Hput. rewrite Ho in Hput.
      destruct (Z.leb_spec (eob g k ms + 4) (limit f)) as [Hl4|Hl4].
      * specialize (Hskip Hroom Hl4). set (f1 := with_pos _ _ _) in Hskip. destruct Hskip as (Hw1 & Hs1 & Hf1 & Ho1 & He1).
        rewrite (FM_bind_ok _ _ f tt f1); [|rewrite (FM_bind_ok _ _ _ _ _ Hput); unfold io_block, upd; cbn [io_block_size with_disk]; by rewrite Hio].
        apply (written_same f f1 bs bs); [done|done|apply grown_refl|]. apply (write_rest_start f1 bs k ms m); done.
      * rewrite (FM_bind_err _ _ f EINVAL (failed_write (le_bytes 4 (-1) ++ []) f)) by (by rewrite (FM_bind_err _ _ _ _ _ Hput)).
        destruct (writer_failed f bs (le_bytes 4 (-1) ++ []) Hw) as [Hw' Hsame].
        eexists _, _. split; [reflexivity|]. split; [exact Hsame|]. split; [done|]. exists bs. split; [done|]. split; [done|apply grown_refl].
    + specialize (Hnoskip Hroom). set (f1 := with_pos _ _ _) in Hnoskip. destruct Hnoskip as (Hw1 & Hs1 & Hf1 & Ho1 & He1).
      rewrite (FM_bind_ok _ _ f tt f1); [|rewrite FM_bind_ret; unfold io_block, upd; by rewrite Hio].
      apply (written_same f f1 bs bs); [done|done|apply grown_refl|]. apply (write_rest_start f1 bs k ms m); done.
  - rewrite FM_bind_ret. unfold write_rest. rewrite !FM_bind_get, Ho, He.
    assert ((eob g k ms + gB g =? start g (S k)) = false) as -> by (rewrite start_S; unfold eob; case_bool; lia).
    rewrite FM_bind_ret. by apply (write_frame_spec f bs k ms m).
Qed.
End Writing.

(** ** Posts *)

(** A writer whose file holds the messages of the blocks [bs]. *)
Definition log_at (g : geo) (v : Z) (s : option (list Z)) (f : file) (bs : list (list msg)) : Prop :=
  writer g f bs ∧ gmk g = marker_of v ∧ meta_at (disk f) (gB g) v s (gh g) ∧
  f_seq f = last_seq (concat bs) ∧ seq_begin f = first_seq (concat bs) ∧ input (cf f) = false ∧ increasing (concat bs).

(** The refinement of the file by a list of messages. *)
Definition log (g : geo) (v : Z) (s : option (list Z)) (f : file) (ms : list msg) : Prop :=
  ∃ bs, log_at g v s f bs ∧ concat bs = ms.

(** A data message with fields in the range of their types. *)
Definition msg_ok (m : msg) : Prop :=
  m_type m = DATA ∧ m_size m = zlen (m_data m) ∧ - 2 ^ 31 ≤ m_msgid m < 2 ^ 31 ∧ - 2 ^ 63 ≤ m_seq m < 2 ^ 63.

(** The message that a post stores: with the number of the mixin [AutoSeq]. *)
Definition stored (a : AutoSeq.autoseq) (m : msg) : msg :=
  mk_data (m_msgid m) (m_seq (snd (AutoSeq.update a m))) (m_data m).

Lemma stored_ok a m : msg_ok m → entry_ok (stored a m).
Proof.
  intros (Ht & Hs & Hid & Hseq). split; [done|]. cbn [m_msgid m_seq stored mk_data]. split; [done|].
  unfold AutoSeq.update. destruct (negb (AutoSeq.enable a)); cbn [snd m_seq AutoSeq.with_seq]; [done|].
  pose proof (wraps_range 64 (AutoSeq.seq a + 1) ltac:(lia)). cbn in *. lia.
Qed.

(** What [_post] does with a data message. *)
Lemma post_spec g v s f bs m fuel :
  geo_ok g → log_at g v s f bs → msg_ok m → fits g (concat bs) (stored (f_autoseq f) m) →
  ∃ r f', _post fuel m f = Some (r, f') ∧ f_autoseq f' = fst (AutoSeq.update (f_autoseq f) m) ∧ limit f' = limit f ∧
    keeps (disk f) (disk f') (offset f) ∧ cf f' = cf f ∧
    match r with
    | Ok _ => last_seq (concat bs) < m_seq (stored (f_autoseq f) m) ∧
        ∃ bs', log_at g v s f' bs' ∧ concat bs' = concat bs ++ [stored (f_autoseq f) m] ∧ grown bs bs'
    | Err e => e = EINVAL ∧ ∃ bs', log_at g v s f' bs' ∧ concat bs' = concat bs ∧ grown bs bs'
    end.
Proof.
  intros Hg (Hw & Hmk & Hmeta & Hseq & Hbeg & Hin & Hinc) Hm Hfits. set (ms := concat bs) in *.
  pose proof (stored_ok (f_autoseq f) m Hm) as Hok. pose proof Hm as (Ht & Hsz & _).
  set (m' := stored (f_autoseq f) m) in *. unfold _post. rewrite FM_bind_get, Hin, Ht. cbn [bool_decide negb].
  rewrite bool_decide_eq_true_2 by done. cbn [negb]. rewrite FM_bind_get.
  destruct (AutoSeq.update (f_autoseq f) m) as [a mu] eqn:Eu.
  assert (m_msgid mu = m_msgid m ∧ m_data mu = m_data m ∧ m_size mu = m_size m ∧ m_seq mu = m_seq m') as (E1 & E2 & E3 & E4).
  { unfold m', stored. rewrite Eu. cbn. unfold AutoSeq.update in Eu. destruct (negb _); by injection Eu as <- <-. }
  rewrite FM_bind_upd. set (f1 := with_autoseq a f). rewrite !FM_bind_get. change (f_seq f1) with (f_seq f). rewrite Hseq, E4.
  assert (writer g f1 bs) as Hw1 by (destruct Hw; by split).
  destruct (Z.leb_spec (m_seq m') (last_seq ms)) as [Hlow|Hlow].
  { eexists _, _. split; [reflexivity|]. split; [reflexivity|]. split; [reflexivity|]. split; [by intros a' l|]. split; [done|]. split; [done|]. exists bs.
  split; [split_and!; done|]. split; [done|apply grown_refl]. }
  assert (block_size f1 = gB g) as HB by apply (w_ready _ _ _ Hw). rewrite FM_bind_get, HB, E3, Hsz. destruct Hfits as [Hf1 Hf2].
  assert (msize m' = 17 + zlen (m_data m)) as Hms by (unfold msize, m', stored, mk_data; cbn [m_data]; lia). tests.
  rewrite E1, E2. rewrite (FM_bind_ok _ _ f1 (m_data m) f1).
  2: { unfold lift, mem_load. rewrite (proj2 (in_range_spec (m_data m) 0 (zlen (m_data m)))) by (pose proof (zlen_nonneg (m_data m)); lia).
     cbn. unfold zlen. by rewrite Nat2Z.id, firstn_all. }
  destruct (write_data_spec g Hg f1 bs m' Hw1) as (r & f' & Hrun & (Hsame & Hkeep & _) & Hr); [done|done|].
  change (m_msgid m') with (m_msgid m) in Hrun. change (m_data m') with (m_data m) in Hrun.
  assert (meta_at (disk f') (gB g) v s (gh g)) as Hmeta'.
  { eapply meta_keep; [exact Hmeta|]. apply (keeps_mono _ _ _ _ Hkeep).
    pose proof (tip_offset g Hg _ _ _ (w_laid _ _ _ Hw) (w_tip _ _ _ Hw)). cbn. lia. }
  destruct Hsame as (S1 & S2 & S3 & S4 & S5 & S6 & S7 & S8).
  destruct r as [[]|e].
  - rewrite (FM_bind_ok _ _ _ _ _ Hrun). eexists _, _. split; [reflexivity|]. split; [exact S4|]. split; [exact S5|]. split; [exact Hkeep|]. split; [exact S1|]. split; [done|].
  destruct Hr as (bs' & Hw' & Hc' & Hgr). exists bs'. assert (0 ≤ m_seq m') by (pose proof (last_seq_low ms Hinc); lia).
  split; [|split; [done|exact Hgr]]. split; [destruct Hw' as [W1 W2 W3 W4 W5 W6]; split; [exact W1|exact W2|exact W3|exact W4|exact W5|exact W6]|].
  split; [done|]. split; [exact Hmeta'|]. cbn [f_seq seq_begin with_seqs cf]. rewrite Hc'. fold ms.
  split; [by rewrite last_seq_app|]. split; [|split; [by rewrite S1|by apply increasing_app]].
  rewrite S3. change (seq_begin f1) with (seq_begin f). rewrite Hbeg. by apply first_seq_app.
  - rewrite (FM_bind_err _ _ _ _ _ Hrun). destruct Hr as [-> (bs' & Hw' & Hc' & Hgr)]. eexists _, _. split; [reflexivity|]. split; [exact S4|].
  split; [exact S5|]. split; [exact Hkeep|]. split; [exact S1|]. split; [done|]. exists bs'. split; [|split; [done|exact Hgr]]. split; [done|]. split; [done|]. split; [done|].
  rewrite Hc'. fold ms. rewrite S2, S3, S1. split_and!; done.
Qed.

(** ** Opening for writing *)

(** What [open_write] does behind the metadata. *)
Definition open_rest (fuel : nat) : FM unit :=
  _ ← set_marker;
  bs ← get block_size;
  c ← get cf;
  _ ← set_extra bs c;
  _ ← io_init bs;
  _ ← load_bounds fuel;
  _ ← upd (λ f, with_autoseq (fst (AutoSeq.reset (f_autoseq f) (f_seq f))) f);
  _ ← trim;
  extend bs.

Lemma open_write_eq fuel ex p f :
  open_write fuel ex p f =
    (_ ← (if overwrite p || negb ex || (zlen (disk f) =? 0) then create_file else all_einval _read_meta);
     open_rest fuel) (open_reset f).
Proof. reflexivity. Qed.

(** Another disk with the same data makes the same writer. *)
Lemma writer_disk g f bs c d' :
  geo_ok g → ready g f → laid g (disk f) bs → tip g (disk f) bs f → keeps (disk f) d' (offset f) →
  clean d' (offset f) (tail_extra_blocks f) → 0 ≤ tail_extra_blocks f → zlen d' ≤ limit f →
  writer g (with_cache c (with_disk d' f)) bs.
Proof.
  intros Hg Hr Hl Ht Hk Hc Hx Hlim. pose proof (tip_offset g Hg _ _ _ Hl Ht).
  destruct (laid_keep g Hg (disk f) d' bs f Hl Ht Hk) as [Hl' Ht'].
  { intros p Hp. apply (clean_quiet _ _ _ _ Hc); lia. }
  split; [exact Hr|exact Hl'|exact Ht'|exact Hc|exact Hx|exact Hlim].
Qed.

Lemma keeps_refl d o : keeps d d o.
Proof. by intros a l. Qed.
Lemma keeps_resize d o n : o ≤ n → keeps d (resize_to d n) o.
Proof. intros Hn a l Ha Hl Hat. apply resize_to_before; [done|lia|done]. Qed.

Lemma trim_spec g f bs :
  geo_ok g → ready g f → laid g (disk f) bs → tip g (disk f) bs f → zlen (disk f) ≤ limit f →
  0 ≤ tail_extra_blocks f → (tail_extra_blocks f = 0 ∨ zero_from (disk f) (offset f)) →
  ∃ c d', trim f = Some (Ok tt, with_cache c (with_disk d' f)) ∧
    writer g (with_cache c (with_disk d' f)) bs ∧ keeps (disk f) d' (offset f).
Proof.
  intros Hg Hr Hl Ht Hlim Hx Hextra. pose proof (tip_offset g Hg _ _ _ Hl Ht) as Ho.
  pose proof Hr as (_ & _ & Hbuf & _). pose proof Hg as (_ & HB & _).
  unfold trim. rewrite (FM_bind_ok _ _ f (zlen (disk f)) (with_cache (zlen (disk f)) f)) by reflexivity.
  rewrite FM_bind_get. set (f1 := with_cache _ f). change (offset f1) with (offset f).
  assert (f1 = with_cache (zlen (disk f)) (with_disk (disk f) f)) as E1 by (by destruct f).
  assert (∀ c d', keeps (disk f) d' (offset f) → clean d' (offset f) (tail_extra_blocks f) → zlen d' ≤ limit f → writer g (with_cache c (with_disk d' f)) bs) as Hgo
  by (intros; by apply writer_disk).
  destruct (Z.eqb_spec (zlen (disk f)) (offset f)) as [Heq|Hne]; cbn [negb].
  - exists (zlen (disk f)), (disk f). rewrite <-E1. split; [reflexivity|]. split; [|apply keeps_refl]. rewrite E1.
  apply Hgo; [apply keeps_refl|left; apply zero_from_short; lia|done].
  - destruct (Z.leb_spec (offset f + 4) (zlen (disk f))) as [Hlong|Hshort].
  + assert (∃ b, io_read 4 0 f1 = Some (Ok b, f1)) as [b Hb].
    { exists (pread (disk f) 4 (offset f)). assert (zlen (pread (disk f) 4 (offset f)) = 4) as Hz by (rewrite zlen_pread; lia).
      apply io_read_at; try (cbn; lia). unfold at_. rewrite Hz. by rewrite Z.add_0_r. }
    rewrite (FM_bind_attempt _ _ _ _ _ Hb). unfold _truncate, upd. change (limit f1) with (limit f). tests.
    exists (offset f), (resize_to (disk f) (offset f)). split; [reflexivity|].
    split; [|apply keeps_resize; lia]. apply Hgo; [apply keeps_resize; lia| |rewrite zlen_resize_to; lia].
    left. apply zero_from_short. rewrite zlen_resize_to; lia.
  + rewrite (FM_bind_attempt _ _ _ _ _ (io_read_short f1 4 0 ltac:(cbn; lia) ltac:(lia) ltac:(cbn; lia) ltac:(cbn; lia))).
    exists (zlen (disk f)), (disk f). rewrite <-E1. split; [reflexivity|]. split; [|apply keeps_refl]. rewrite E1.
    apply Hgo; [apply keeps_refl| |done]. destruct Hextra as [?|?]; [by right|by left].
Qed.

Lemma extend_spec g f bs :
  geo_ok g → writer g f bs →
  ∃ c d', extend (gB g) f = Some (Ok tt, with_cache c (with_disk d' f)) ∧
    writer g (with_cache c (with_disk d' f)) bs ∧ keeps (disk f) d' (offset f).
Proof.
  intros Hg Hw. pose proof Hw as [Hr Hl Ht Hc Hx Hlim]. pose proof (tip_offset g Hg _ _ _ Hl Ht) as Ho. pose proof Hg as (_ & HB & _).
  assert (f = with_cache (file_size_cache f) (with_disk (disk f) f)) as E0 by (by destruct f).
  unfold extend. rewrite !FM_bind_get. destruct (Z.eqb_spec (tail_extra_blocks f) 0) as [H0|H0]; cbn [negb].
  - exists (file_size_cache f), (disk f). rewrite <-E0. split; [done|]. split; [done|apply keeps_refl].
  - unfold _truncate, upd. set (n := block_end f + gB g * tail_extra_blocks f). exists n.
  destruct Hc as [Hz|[? _]]; [|done]. destruct (Z.leb_spec n (limit f)) as [Hnl|Hnl].
  + assert (offset f ≤ n) as Hn.
    { destruct Ht as (k & ms & Hk & Hlen & Hpos). destruct (l_block _ _ _ Hl k ms Hk) as (_ & Hu & _).
      pose proof (eob_le_start g k ms Hu). unfold n.
      destruct Hpos as [[Ho' He]|(_ & Ho' & He)]; rewrite Ho', He; [rewrite firstn_all|rewrite !start_S]; nia. }
    exists (resize_to (disk f) n). split; [reflexivity|]. split; [|by apply keeps_resize].
    apply writer_disk; try done; [by apply keeps_resize| |rewrite zlen_resize_to by lia; done]. left. apply zero_from_resize; [done|lia].
  + exists (disk f). split; [by destruct f|]. split; [|apply keeps_refl]. apply writer_disk; try done; [apply keeps_refl|by left].
Qed.

(** The object when the metadata have been read or written. *)
Definition fresh (g : geo) (v : Z) (f : file) : Prop :=
  block_size f = gB g ∧ f_version f = v ∧ size_marker f = 0 ∧ f_seq f = -1 ∧ seq_begin f = -1 ∧
  0 ≤ tail_extra_size (cf f).

Lemma open_rest_spec g v s bs f fuel :
  holds g v s (disk f) bs → fresh g v f → zlen (disk f) ≤ limit f → zlen (disk f) < 2 ^ 63 →
  (tail_extra_size (cf f) = 0 ∨ ∀ f0, tip g (disk f) bs f0 → zero_from (disk f) (offset f0)) →
  (length (concat bs) + 1 < fuel)%nat →
  ∃ f', open_rest fuel f = Some (Ok tt, f') ∧ writer g f' bs ∧ keeps (disk f) (disk f') (gh g) ∧
    f_seq f' = last_seq (concat bs) ∧ seq_begin f' = first_seq (concat bs) ∧ cf f' = cf f ∧
    f_autoseq f' = AutoSeq.AutoSeqT (last_seq (concat bs)) (AutoSeq.enable (f_autoseq f)) ∧ limit f' = limit f.
Proof.
  intros (Hg & Hmk & Hmeta & Hl) (F1 & F2 & F3 & F4 & F5 & F6) Hlim Hz Hextra Hfuel.
  pose proof (meta_at_zlen _ _ _ _ _ Hmeta) as Hn. pose proof Hg as (_ & HB & _).
  unfold open_rest. rewrite (FM_bind_ok _ _ _ _ _ (set_marker_spec f v F2 F3)), <-Hmk. set (f1 := with_marker (gmk g) f).
  rewrite !FM_bind_get. change (block_size f1) with (block_size f). change (cf f1) with (cf f). rewrite F1.
  set (x := if tail_extra_size (cf f) =? 0 then 0 else (tail_extra_size (cf f) + gB g - 1) / gB g).
  assert (0 ≤ x ∧ (tail_extra_size (cf f) = 0 → x = 0)) as [Hx Hx0].
  { unfold x. case_bool; [lia|]. split; [apply Z.div_pos; lia|lia]. }
  rewrite (FM_bind_ok _ _ f1 tt (with_extra x f1)).
  2: { unfold set_extra, x. case_bool; [done|]. tests. done. }
  unfold io_init. rewrite FM_bind_upd. set (f2 := with_io _ _ _).
  destruct (load_bounds_spec g (disk f) bs f2 fuel Hg Hl) as (o & e & Hb & Htip); [split_and!; [exact F1|done..]|done|lia|exact F4|exact F5|done|].
  rewrite (FM_bind_ok _ _ _ _ _ Hb). rewrite FM_bind_upd. set (f4 := with_pos o e _). set (f5 := with_autoseq _ f4).
  destruct (trim_spec g f5 bs Hg) as (c6 & d6 & H6 & Hw6 & Hk6).
  { split_and!; [exact F1|done..]. }
  { exact Hl. }
  { exact (tip_pos _ _ _ _ _ f2 f5 Htip). }
  { exact Hlim. }
  { exact Hx. }
  { destruct Hextra as [H0|Hzero]; [left; exact (Hx0 H0)|right]. exact (Hzero _ Htip). }
  rewrite (FM_bind_ok _ _ _ _ _ H6). set (f6 := with_cache c6 _) in *.
  destruct (extend_spec g f6 bs Hg Hw6) as (c7 & d7 & H7 & Hw7 & Hk7).
  exists (with_cache c7 (with_disk d7 f6)). split; [exact H7|]. split; [exact Hw7|].
  pose proof (tip_offset g Hg _ _ _ Hl (tip_pos _ _ _ _ _ f2 f5 Htip)) as Hgh. change (offset (with_pos o e f5)) with (offset f5) in Hgh.
  split; [|split_and!; reflexivity].
  intros a l Ha Hle Hat. change (disk (with_cache c7 (with_disk d7 f6))) with d7. apply Hk7; [done|change (offset f6) with (offset f5); lia|].
  change (disk f6) with d6. apply Hk6; [done|lia|exact Hat].
Qed.

End FileWrite.
