(* ===== verification/FileSpec.v ===== *)
(** * The file channel as a log of messages

    What a writer has accepted is what a reader gets, in the same order, also
    when the file is read or written again after a crash that has lost its
    end, and a search finds the first message from a number on. *)
From Stdlib Require Import Sorted.
From S2P Require Import Prelude Mem Callback Channel Reopen Binder Storage File FileLayout FileMeta FileRead FileWrite.
Import Cb Chan Storage File FileLayout FileMeta FileRead FileWrite.

Module FileSpec.

(** ** A new file *)

(** The geometry of a file that a writer with these parameters creates. *)
Definition geo_of (B v : Z) (s : option (list Z)) : option geo :=
  H ← meta_bytes B v s; Some (Geo B (marker_of v) (zlen H)).

(** Parameters for which the metadata fit in a block. *)
Definition create_ok (g : geo) (c : conf) : Prop :=
  geo_of (block_init c) (version_init c) (scheme_init c) = Some g ∧
  22 ≤ gB g < 2 ^ 31 - 1 ∧ gh g ≤ gB g ∧ gh g ≤ 4 * 1024 * 1024 ∧ 0 ≤ version_init c < 2 ∧
  scheme_ok (scheme_init c) ∧ input c = false ∧ 0 ≤ tail_extra_size c.

Lemma create_geo g c :
  create_ok g c → geo_ok g ∧ gB g = block_init c ∧ gmk g = marker_of (version_init c) ∧
  ∃ H, meta_bytes (block_init c) (version_init c) (scheme_init c) = Some H ∧ gh g = zlen H ∧ 49 ≤ zlen H ∧
    at_ H 0 (le_bytes 4 (zlen H)).
Proof.
  intros (Hgeo & HB & Hh & H4 & Hv & Hs & _). unfold geo_of in Hgeo.
  destruct (meta_bytes _ _ _) as [H|] eqn:Em; [|done]. cbn in Hgeo. injection Hgeo as <-. cbn [gB gmk gh] in *.
  destruct (meta_bytes_spec (block_init c) (version_init c) (scheme_init c)) as (H' & b & Hm' & Hb & HH & _); [lia|lia|done|].
  assert (H' = H) as -> by congruence.
  assert (zlen H = 16 + zlen b + 1) as Hz.
  { rewrite HH at 1. rewrite !zlen_app, zlen_le_bytes, zlen_frame_bytes. change (zlen [128]) with 1. lia. }
  split. { split; [apply marker_of_ok|]. cbn. lia. }
  split; [done|]. split; [done|]. exists H. split_and!; [done|done|lia|].
  unfold at_. rewrite zlen_le_bytes. unfold pread. cbn [Z.to_nat]. rewrite drop_0. rewrite HH at 1.
  by rewrite take_app_length' by (by rewrite length_le_bytes).
Qed.

Lemma create_holds g c H :
  create_ok g c → meta_bytes (block_init c) (version_init c) (scheme_init c) = Some H →
  holds g (version_init c) (scheme_init c) H [[]].
Proof.
  intros Hc Hm. destruct (create_geo g c Hc) as (Hg & HB & Hmk & H' & Hm' & Hh & H49 & Hat).
  assert (H' = H) as -> by congruence. destruct Hc as (_ & HBr & Hle & H4 & Hv & Hs & _).
  split; [done|]. split; [done|]. split.
  { rewrite HB, Hh in *. repeat (split; [done || lia|]). exists H. split; [done|]. split; [done|].
    unfold at_, pread. cbn [Z.to_nat]. rewrite drop_0. unfold zlen. by rewrite Nat2Z.id, firstn_all. }
  assert (∀ k, (1 ≤ k)%nat → gB g ≤ start g k) as Hst by (intros k Hk; unfold start; nia).
  split.
  - done.
  - intros k ms Hk. destruct k; [|done]. injection Hk as <-. split_and!; [split|rewrite used_nil; cbn; lia|constructor].
    + unfold start, hbytes. rewrite Hh. exact Hat.
    + by unfold at_, pread.
  - intros k ms Hk Hlt. destruct k; [cbn in Hlt; lia|done].
  - intros k Hlt. cbn in Hlt. lia.
  - intros k ms Hk _. destruct k; [|done]. injection Hk as <-. right. left. left. unfold eob, start. rewrite used_nil. cbn. lia.
  - intros k Hk. left. cbn in Hk. specialize (Hst k Hk). lia.
Qed.

Lemma write_meta_spec f H :
  meta_bytes (block_size f) (f_version f) (f_scheme f) = Some H → 0 < zlen H ≤ limit f →
  create_file f = Some (Ok tt, with_pos (zlen H) (block_end f) (with_disk H (with_pos 0 (block_end f) (with_disk [] f)))).
Proof.
  intros Hm Hl. unfold create_file.
  rewrite (all_einval_ok _ _ tt (with_pos (zlen H) (block_end f) (with_disk H (with_pos 0 (block_end f) (with_disk [] f))))); [done|].
  unfold _write_meta. rewrite FM_bind_upd, !FM_bind_get.
  set (f1 := with_pos 0 _ (with_disk [] f)).
  change (block_size f1) with (block_size f). change (f_version f1) with (f_version f). change (f_scheme f1) with (f_scheme f).
  rewrite (FM_bind_ok _ _ f1 H f1) by (unfold lift; by rewrite Hm).
  rewrite (FM_bind_ok _ _ f1 (zlen H) (with_disk H f1)).
  2: { unfold pwrite. change (limit f1) with (limit f). tests. rewrite Z.min_l by lia. unfold zlen at 2. rewrite Nat2Z.id, firstn_all.
       change (disk f1) with (@nil Z). unfold write_at. cbn [Z.to_nat take app]. unfold Binder.zeros.
       rewrite drop_nil, app_nil_r. reflexivity. }
  unfold _check_write. tests. rewrite ?Z.eqb_refl. cbn [negb]. rewrite FM_bind_ret. reflexivity.
Qed.

(** Opening for writing creates an empty log. *)
Lemma file_create_spec g c auto d lim fuel ex p :
  create_ok g c → gh g ≤ lim < 2 ^ 63 → (1 < fuel)%nat → overwrite p || negb ex || (zlen d =? 0) = true →
  ∃ f', open_write fuel ex p (new c auto d lim) = Some (Ok tt, f') ∧
    log_at g (version_init c) (scheme_init c) f' [[]] ∧
    f_autoseq f' = AutoSeq.AutoSeqT (-1) auto ∧ limit f' = lim.
Proof.
  intros Hc Hlim Hfuel Hnew. pose proof (create_geo g c Hc) as (Hg & HB & Hmk & H & Hm & Hh & H49 & _).
  pose proof (create_holds g c H Hc Hm) as Hholds. destruct Hc as (_ & _ & Hle & _ & _ & _ & Hin & Hx).
  rewrite open_write_eq. change (disk (new c auto d lim)) with d. rewrite Hnew.
  set (f0 := open_reset (new c auto d lim)).
  set (f1 := with_pos (zlen H) (block_end f0) (with_disk H (with_pos 0 (block_end f0) (with_disk [] f0)))).
  assert (create_file f0 = Some (Ok tt, f1)) as Hcr.
  { apply (write_meta_spec f0 H Hm). cbn. lia. }
  rewrite (FM_bind_ok _ _ _ _ _ Hcr).
  destruct (open_rest_spec g (version_init c) (scheme_init c) [[]] f1 fuel) as (f' & Hrun & Hw & Hk & Hs & Hb & Hcf & Ha & Hl').
  - exact Hholds.
  - split_and!; try reflexivity; [by rewrite HB|exact Hx].
  - cbn. lia.
  - cbn. lia.
  - right. intros f2 Htip. destruct Hholds as (_ & _ & _ & Hl). pose proof (tip_offset g Hg _ _ _ Hl Htip). change (disk f1) with H.
    apply zero_from_short. lia.
  - cbn. lia.
  - exists f'. split; [exact Hrun|]. split; [|split; [exact Ha|exact Hl']].
    split; [exact Hw|]. split; [done|]. split; [eapply meta_keep; [apply Hholds|exact Hk]|].
    split; [exact Hs|]. split; [exact Hb|]. split; [by rewrite Hcf|]. split; constructor.
Qed.

(** ** Posts *)

(** A sequence of posts with their results. *)
Fixpoint posts (fuel : nat) (ms : list msg) : FM (list (result errno unit)) :=
  match ms with
  | [] => mret []
  | m :: ms => r ← attempt (_post fuel m); rs ← posts fuel ms; mret (r :: rs)
  end.

(** The messages of the posts that succeeded, with the numbers they got. *)
Fixpoint accepted (a : AutoSeq.autoseq) (ms : list msg) (rs : list (result errno unit)) : list msg :=
  match ms, rs with
  | m :: ms, r :: rs =>
      let rest := accepted (fst (AutoSeq.update a m)) ms rs in
      match r with Ok _ => stored a m :: rest | Err _ => rest end
  | _, _ => []
  end.

(** Small enough for every block and for the first one. *)
Definition fits_any (g : geo) (m : msg) : Prop :=
  22 + zlen (m_data m) ≤ gB g ∧ (gh g + 17 + zlen (m_data m) ≤ gB g ∨ gB g < gh g + 17).

Lemma fits_any_fits g ms a m : fits_any g m → fits g ms (stored a m).
Proof.
  intros [H1 H2]. unfold fits, msize. change (m_data (stored a m)) with (m_data m). split; [lia|]. intros _. lia.
Qed.

Lemma posts_log g v s ms : geo_ok g → ∀ f bs fuel,
  log_at g v s f bs → Forall msg_ok ms → Forall (fits_any g) ms →
  ∃ rs f' bs', posts fuel ms f = Some (Ok rs, f') ∧ length rs = length ms ∧ limit f' = limit f ∧
    log_at g v s f' bs' ∧ concat bs' = concat bs ++ accepted (f_autoseq f) ms rs ∧ grown bs bs'.
Proof.
  intros Hg. induction ms as [|m ms IH]; intros f bs fuel Hlog Hok Hfit.
  - exists [], f, bs. rewrite app_nil_r. split_and!; try done. apply grown_refl.
  - apply Forall_cons in Hok as [Hm Hok]. apply Forall_cons in Hfit as [Hf Hfit].
    destruct (post_spec g v s f bs m fuel Hg Hlog Hm (fits_any_fits g _ _ m Hf)) as (r & f1 & Hrun & Ha & Hli & _ & _ & Hr).
    assert (∃ bs1, log_at g v s f1 bs1 ∧ grown bs bs1 ∧
      concat bs1 = concat bs ++ (match r with Ok _ => [stored (f_autoseq f) m] | Err _ => [] end)) as (bs1 & Hlog1 & Hgr1 & E1).
    { destruct r as [?|e]; destruct Hr as (_ & bs1 & H1 & H2 & H3); exists bs1; (split; [done|]); (split; [done|]); [done|by rewrite app_nil_r]. }
    destruct (IH f1 bs1 fuel Hlog1 Hok Hfit) as (rs & f' & bs' & Hrun' & Hlen & Hli' & Hlog' & Hc' & Hgr').
    exists (r :: rs), f', bs'. cbn [posts accepted]. rewrite (FM_bind_attempt _ _ _ _ _ Hrun), (FM_bind_ok _ _ _ _ _ Hrun').
    split; [done|]. split; [cbn; lia|]. split; [congruence|]. split; [done|]. split; [|by eapply grown_trans].
    rewrite Hc', E1, Ha, <-app_assoc. by destruct r.
Qed.

Lemma log_holds g v s f bs : geo_ok g → log_at g v s f bs → holds g v s (disk f) bs.
Proof. intros Hg (Hw & Hmk & Hmeta & _). split_and!; try done. apply (w_laid _ _ _ Hw). Qed.

(** ** Reading back *)

Definition eod_msg : msg := Msg CONTROL 0 control_eod_msgid 0 [] 0 0 0.

(** What happens behind the last message: no message, and, with [autoclose],
    the channel closes. *)
Lemma at_end_spec f : closed f = false → seq_eod f ≠ f_seq f →
  ∃ f', at_end f = Some (Err EAGAIN, f') ∧ closed f' = autoclose (cf f) ∧
    out f' = out f ++ (if (negb (autoclose (cf f)) || bool_decide (end_of_data (cf f) = BeforeClose)) &&
                          (bool_decide (end_of_data (cf f) = Many) || (seq_eod f =? LLONG_MIN)) then [eod_msg] else []) ∧
    (autoclose (cf f) = false → pending f' = false).
Proof.
  intros Hcl Hne. unfold at_end. rewrite !FM_bind_get. rewrite (proj2 (Z.eqb_neq _ _) Hne). cbn [negb]. cbv zeta.
  set (b := _ && _). destruct b.
  - unfold emit. rewrite !FM_bind_upd. destruct (autoclose (cf f)).
    + eexists. split; [reflexivity|]. done.
    + eexists. split; [reflexivity|]. split; [exact Hcl|]. done.
  - rewrite FM_bind_ret, FM_bind_upd. destruct (autoclose (cf f)).
    + eexists. split; [reflexivity|]. rewrite app_nil_r. done.
    + eexists. split; [reflexivity|]. rewrite app_nil_r. split; [exact Hcl|]. done.
Qed.

Lemma at_end_out f : ∃ f', at_end f = Some (Err EAGAIN, f') ∧ (out f' = out f ∨ out f' = out f ++ [eod_msg]) ∧ disk f' = disk f.
Proof.
  unfold at_end. rewrite !FM_bind_get. cbv zeta. destruct (negb (seq_eod f =? f_seq f)).
  - set (b := _ && _). destruct b.
    + unfold emit. rewrite !FM_bind_upd. destruct (autoclose _); (eexists; split; [reflexivity|]; split; [by right|done]).
    + rewrite FM_bind_ret, FM_bind_upd. destruct (autoclose _); (eexists; split; [reflexivity|]; split; [by left|done]).
  - eexists; split; [reflexivity|]; split; [by left|done].
Qed.

(** Behind the last message. *)
Lemma process_drained g d bs f fuel :
  geo_ok g → laid g d bs → ready g f → disk f = d → cursor g bs f [] → (2 ≤ fuel)%nat →
  ∃ f', _process fuel f = Some (Err EAGAIN, f') ∧ (out f' = out f ∨ out f' = out f ++ [eod_msg]) ∧ disk f' = d.
Proof.
  intros Hg Hl Hr Hd Hcur Hfuel. destruct (process_end g Hg d bs Hl f fuel Hr Hd Hcur Hfuel) as (o & e & _ & [Hp|Hp]); rewrite Hp.
  - destruct (at_end_out (with_pos o e f)) as (f' & H1 & H2 & H3). exists f'. split; [done|]. split; [done|]. by rewrite H3.
  - eexists. split; [reflexivity|]. split; [by left|done].
Qed.

(** A reader that opens the file gets the messages and then nothing. *)
Definition reads_back (c : conf) (d : list Z) (ms : list msg) : Prop :=
  ∀ auto lim fuel, (length ms + 1 < fuel)%nat → ∃ f f' f'',
    open_read fuel true (OpenParams ModeSeq None false) (new c auto d lim) = Some (Ok tt, f) ∧
    drain fuel (length ms) f = Some (Ok tt, f') ∧ out f' = ms ∧
    _process fuel f' = Some (Err EAGAIN, f'') ∧
    (out f'' = ms ∨ out f'' = ms ++ [eod_msg]) ∧ f_seq f = last_seq ms ∧ disk f'' = d.

Lemma holds_reads g v s d bs c :
  holds g v s d bs → zlen d < 2 ^ 63 → from_option (scheme_load c) true s = true → reads_back c d (concat bs).
Proof.
  intros Hh Hz Hload auto lim fuel Hfuel.
  destruct (open_read_start g v s d bs (new c auto d lim) fuel Hh eq_refl Hz Hload Hfuel) as (f & Hopen & Hr & Hd & Hcur & Ho & Hcl & Hcf & He & Hs).
  destruct Hh as (Hg & _ & _ & Hl). change (out (new c auto d lim)) with (@nil msg) in Ho. change (closed (new c auto d lim)) with false in Hcl.
  destruct (drain_spec g d bs (concat bs) Hg Hl f fuel Hr Hd Hcur ltac:(lia)) as (f' & Hdr & Ho' & Hr' & Hd' & Hcur' & Hcl' & Hcf' & He').
  rewrite Ho in Ho'. cbn in Ho'.
  destruct (process_drained g d bs f' fuel Hg Hl Hr' Hd' Hcur' ltac:(lia)) as (f'' & H1 & H2 & H3). rewrite Ho' in H2.
  by exists f, f', f''.
Qed.

Lemma log_reads g v s f bs c :
  geo_ok g → log_at g v s f bs → limit f < 2 ^ 63 → from_option (scheme_load c) true s = true → reads_back c (disk f) (concat bs).
Proof.
  intros Hg Hlog Hlim Hload. pose proof (log_holds g v s f bs Hg Hlog) as Hh.
  pose proof (w_limit _ _ _ (proj1 Hlog)). by apply (holds_reads g v s); [|lia|].
Qed.

Definition default_open : open_params := OpenParams ModeSeq None false.

(** C10: Round trip through a file. A writer creates the file and data
    messages are posted to it, of sizes that fit in a block together with
    its header (and the first one behind the metadata, unless nothing fits
    there); each post may fail (a number that does not grow, no space left
    on the disk). A reader that opens the file then gets exactly the
    messages whose posts succeeded, with their numbers, in the order of the
    posts, and then nothing more. (Without the condition on sizes a post may
    succeed that cannot be read: [large_message_unreadable],
    [first_message_unreadable].) *)
Theorem file_roundtrip g c auto lim ms rc fuel :
  create_ok g c → gh g ≤ lim < 2 ^ 63 → Forall msg_ok ms → Forall (fits_any g) ms →
  from_option (scheme_load rc) true (scheme_init c) = true → (1 < fuel)%nat →
  ∃ rs f, (_ ← open_write fuel false default_open; posts fuel ms) (new c auto [] lim) = Some (Ok rs, f) ∧
    length rs = length ms ∧ reads_back rc (disk f) (accepted (AutoSeq.AutoSeqT (-1) auto) ms rs).
Proof.
  intros Hc Hlim Hok Hfit Hload Hfuel. pose proof (create_geo g c Hc) as (Hg & _).
  destruct (file_create_spec g c auto [] lim fuel false default_open Hc Hlim Hfuel eq_refl) as (f & Hopen & Hlog & Ha & Hl).
  destruct (posts_log g _ _ ms Hg f [[]] fuel Hlog Hok Hfit) as (rs & f' & bs' & Hrun & Hlen & Hli & Hlog' & Hc' & _).
  exists rs, f'. rewrite (FM_bind_ok _ _ _ _ _ Hopen). split; [done|]. split; [done|]. rewrite Ha in Hc'. cbn in Hc'. rewrite <-Hc'.
  apply (log_reads g _ _ f' _ rc Hg Hlog'); [|done].
  rewrite Hli, Hl. lia.
Qed.

(** A small file: blocks of 128 bytes, without a scheme. *)
Definition sample_conf : conf := Conf false 128 1 true 0 true Once None (λ _, true).
Definition sample_reader : conf := Conf true 0 0 true 0 true BeforeClose None (λ _, true).
Definition sample_geo : geo := Geo 128 0x80000000 49.
Definition sample_msgs : list msg := [mk_data 10 1 (replicate 60 7); mk_data 10 1 []; mk_data 20 5 (replicate 40 8); mk_data 30 6 [1; 2; 3]].

Lemma sample_ok : create_ok sample_geo sample_conf.
Proof. unfold create_ok. repeat (split; [vm_compute; done || (cbn; lia)|]). cbn. lia. Qed.

Lemma file_roundtrip_witness :
  ∃ rs f, (_ ← open_write 10 false default_open; posts 10 sample_msgs) (new sample_conf false [] 4096) = Some (Ok rs, f) ∧
    length rs = length sample_msgs ∧ reads_back sample_reader (disk f) (accepted (AutoSeq.AutoSeqT (-1) false) sample_msgs rs).
Proof.
  apply (file_roundtrip sample_geo sample_conf false 4096 sample_msgs sample_reader 10 sample_ok).
  - cbn. lia.
  - unfold sample_msgs. repeat (apply Forall_cons; split; [repeat split; cbn; lia|]). by apply Forall_nil.
  - unfold sample_msgs. repeat (apply Forall_cons; split; [split; [vm_compute; discriminate|left; vm_compute; discriminate]|]). by apply Forall_nil.
  - reflexivity.
  - lia.
Defined.

(** The second post of the sample fails, since its number does not grow, and
    the third goes to the second block. *)
Example sample_results :
  (let! (rs, f) := (_ ← open_write 10 false default_open; posts 10 sample_msgs) (new sample_conf false [] 4096) in
   Some (rs, zlen (disk f))) = Some (Ok [Ok tt; Err EINVAL; Ok tt; Ok tt], 210).
Proof. vm_compute. reflexivity. Qed.

(** ** Files that cannot be read

    A run of a writer over an empty disk and of a reader over what it leaves:
    the results of the posts, of the open, of [n] calls of [_process], and
    what callbacks and flags of the reader are then. *)
Fixpoint processes (fuel n : nat) : FM (list (result errno unit)) :=
  match n with O => mret [] | S n => r ← attempt (_process fuel); rs ← processes fuel n; mret (r :: rs) end.

Definition write_read (c rc : conf) (ms : list msg) (p : open_params) (n : nat) :=
  let! (rs, f) := (_ ← open_write 10 false default_open; posts 10 ms) (new c false [] 4096) in
  let! (r, f) := attempt (open_read 10 true p) (new rc false (disk f) 4096) in
  let! (ps, f') := processes 10 n f in
  Some (rs, r, ps, m_seq <$> out f', pending f', closed f').

(** A message is accepted although the header of its block and its frame are
    larger than a block: the reader fails when it gets there. *)
Lemma large_message_unreadable :
  write_read sample_conf sample_reader [mk_data 10 1 []; mk_data 10 2 (replicate 108 7); mk_data 10 3 (replicate 80 8)] default_open 2 =
    Some (Ok [Ok tt; Ok tt; Ok tt], Ok (Ok tt), Ok [Ok tt; Err EMSGSIZE], [1], true, false).
Proof. vm_compute. reflexivity. Qed.

(** The first message of a file does not fit behind the metadata, and a skip
    frame follows these: the file cannot be opened. *)
Lemma first_message_unreadable :
  write_read sample_conf sample_reader [mk_data 10 1 (replicate 80 7)] default_open 0 =
    Some (Ok [Ok tt], Ok (Err EINVAL), Ok [], [], false, false).
Proof. vm_compute. reflexivity. Qed.

(** A reader is opened at the end of a file whose last block is full.  It
    is always pending and never reports the end nor closes; with a
    message less, it does. *)
Lemma end_of_full_block :
  write_read sample_conf sample_reader [mk_data 10 1 (replicate 60 7)] (OpenParams ModeEnd None false) 3 =
    Some (Ok [Ok tt], Ok (Ok tt), Ok [Err EAGAIN; Err EAGAIN; Err EAGAIN], [], true, false) ∧
  write_read sample_conf sample_reader [mk_data 10 1 (replicate 40 7)] (OpenParams ModeEnd None false) 1 =
    Some (Ok [Ok tt], Ok (Ok tt), Ok [Err EAGAIN], [0], false, true).
Proof. split; vm_compute; reflexivity. Qed.

End FileSpec.
