(* ===== verification/FileCrash.v ===== *)
(** * Files that have lost their end

    The first bytes of a file hold the first messages, so that a crash of the
    writer in the middle of a write costs only what was not yet on the disk. *)
From Stdlib Require Import Sorted.
From S2P Require Import Prelude Mem Callback Channel Reopen Binder Storage File FileLayout FileMeta FileRead FileWrite FileSpec.
Import Cb Chan Storage File FileLayout FileMeta FileRead FileWrite FileSpec.

Module FileCrash.

(** The first [n] bytes of a file. *)
Definition cut (n : Z) (d : list Z) : list Z := take (Z.to_nat n) d.

Lemma zlen_cut n d : 0 ≤ n → zlen (cut n d) = Z.min n (zlen d).
Proof. intros. unfold cut, zlen. rewrite length_take. lia. Qed.

Lemma at_cut d n o l : 0 ≤ o → o + zlen l ≤ n → at_ d o l → at_ (cut n d) o l.
Proof.
  intros Ho Hl H. apply (at_ext d); [done..|]. intros i Hi. unfold cut. by rewrite lookup_take_lt by lia.
Qed.

Lemma quiet0_cut d n o : 0 ≤ o → 0 ≤ n → quiet0 d o → quiet0 (cut n d) o.
Proof.
  intros Ho Hn [H|H]; [left; rewrite zlen_cut; lia|].
  destruct (decide (n < o + 4)); [left; rewrite zlen_cut; lia|right]. apply at_cut; [done|change (zlen [0; 0; 0; 0]) with 4; lia|done].
Qed.

(** The last number up to [n] with a property. *)
Lemma last_such (P : nat → Prop) `{∀ n, Decision (P n)} n :
  P 0%nat → ∃ i, (i ≤ n)%nat ∧ P i ∧ ∀ j, (i < j ≤ n)%nat → ¬ P j.
Proof.
  intros H0. induction n as [|n (i & Hi & Hp & Hn)].
  - exists 0%nat. split_and!; [done|done|]. intros j Hj. lia.
  - destruct (decide (P (S n))) as [Hs|Hs].
  + exists (S n). split_and!; [done|done|]. intros j Hj. lia.
  + exists i. split_and!; [lia|done|]. intros j Hj. destruct (decide (j = S n)) as [->|]; [done|]. apply Hn. lia.
Qed.

Section Cut.
Context (g : geo) (Hg : geo_ok g) (d : list Z) (bs : list (list msg)) (Hl : laid g d bs) (n : Z) (Hn : gh g ≤ n).

Lemma eob_take_mono k ms i j : (i ≤ j)%nat → eob g k (take i ms) ≤ eob g k (take j ms).
Proof.
  intros Hij. unfold eob. rewrite (used_drop g k (take j ms) i), take_take, Nat.min_l by done.
  pose proof (zlen_nonneg (body g (drop i (take j ms)))). lia.
Qed.

(** The block at which the first [n] bytes end, and the messages of it that are
      complete. *)
Lemma cut_place : ∃ K ms i, bs !! K = Some ms ∧ (i ≤ length ms)%nat ∧
    start g K + 4 ≤ n ∧ (∀ k, (K < k < length bs)%nat → n < start g k + 4) ∧
    (i = 0%nat ∨ eob g K (take i ms) ≤ n) ∧ (∀ j, (i < j ≤ length ms)%nat → n < eob g K (take j ms)).
Proof.
  pose proof (l_some _ _ _ Hl) as Hne. pose proof Hg as (_ & HB & Hh).
  destruct (last_such (λ k, start g k + 4 ≤ n) (pred (length bs))) as (K & HK & HP & Hmax); [unfold start; lia|].
  assert (0 < length bs)%nat by (destruct bs; [done|cbn; lia]).
  destruct (lookup_lt_is_Some_2 bs K ltac:(lia)) as [ms Hms].
  destruct (last_such (λ i, i = 0%nat ∨ eob g K (take i ms) ≤ n) (length ms)) as (i & Hi & HPi & Hmaxi); [by left|].
  exists K, ms, i. split_and!; try done.
  - intros k Hk. specialize (Hmax k ltac:(lia)). lia.
  - intros j Hj. specialize (Hmaxi j Hj). lia.
Qed.

(** What follows the complete messages of that block. *)
Lemma cut_last K ms i :
    bs !! K = Some ms → (i ≤ length ms)%nat → start g K + 4 ≤ n →
    (∀ j, (i < j ≤ length ms)%nat → n < eob g K (take j ms)) →
    full g (cut n d) K (take i ms) ∨ quiet0 (cut n d) (eob g K (take i ms)) ∨
      torn g (cut n d) (eob g K (take i ms)) (start g (S K)).
Proof.
  intros HK Hi Hst Hmax. pose proof (eob_pos g Hg K (take i ms)). remember (eob g K (take i ms)) as o eqn:Eo. pose proof Hg as (_ & HB & Hh).
  assert (0 ≤ n) by lia. pose proof (start_nonneg g Hg K).
  destruct (decide (zlen (cut n d) < o + 4)) as [Hsh|Hlong]; [right; left; by left|].
  rewrite zlen_cut in Hlong by lia.
  destruct (decide (i < length ms)%nat) as [Hlt|Hge].
  - destruct (lookup_lt_is_Some_2 ms i Hlt) as [m Hm]. destruct (laid_msg g Hg d bs Hl K ms i m HK Hm) as (Hat & _ & Hend & Hnext & _). rewrite <-Eo in *.
    specialize (Hmax (S i) ltac:(lia)). rewrite Hnext in Hmax. right. right. exists (msize m). pose proof (msize_pos m).
    split; [done|]. split; [done|]. unfold enc in Hat. apply at_app in Hat as [Hat _]; [|lia].
    split; [apply at_cut; [lia|rewrite zlen_le_bytes; lia|done]|]. rewrite zlen_cut by lia. lia.
  - assert (i = length ms) as -> by lia. rewrite firstn_all in *. subst o.
    assert (full g d K ms → full g (cut n d) K ms) as Hfull.
    { intros [?|[Hs ?]]; [by left|right]. split; [|done]. apply at_cut; [lia|unfold skip; rewrite zlen_le_bytes; lia|done]. }
    destruct (decide (S K = length bs)) as [Hlast|].
    + destruct (l_last _ _ _ Hl K ms HK Hlast) as [?|[?|(x & X1 & X2 & X3 & X4)]]; [left; auto|right; left; by apply quiet0_cut; [lia|..]|].
      right. right. exists x. split_and!; [done|done| |rewrite zlen_cut; lia].
      apply at_cut; [lia|rewrite zlen_le_bytes; lia|done].
    + left. apply Hfull, (l_full _ _ _ Hl K ms HK). pose proof (lookup_lt_Some _ _ _ HK). lia.
Qed.

  Section Place.
Context (K : nat) (ms : list msg) (i : nat) (HK : bs !! K = Some ms) (Hi : (i ≤ length ms)%nat) (Hst : start g K + 4 ≤ n)
      (Hbeyond : ∀ k, (K < k < length bs)%nat → n < start g k + 4)
      (Hin : i = 0%nat ∨ eob g K (take i ms) ≤ n)
      (Hmax : ∀ j, (i < j ≤ length ms)%nat → n < eob g K (take j ms)).

Definition cut_blocks : list (list msg) := take K bs ++ [take i ms].

Lemma cut_blocks_length : length cut_blocks = S K.
Proof. pose proof (lookup_lt_Some _ _ _ HK). unfold cut_blocks. rewrite length_app, length_take. cbn. lia. Qed.

Lemma cut_blocks_low k : (k < K)%nat → cut_blocks !! k = bs !! k.
Proof.
    intros Hk. pose proof (lookup_lt_Some _ _ _ HK). unfold cut_blocks.
    rewrite lookup_app_l by (rewrite length_take; lia). by rewrite lookup_take_lt.
Qed.

Lemma cut_blocks_at : cut_blocks !! K = Some (take i ms).
Proof.
    pose proof (lookup_lt_Some _ _ _ HK). unfold cut_blocks. rewrite lookup_app_r by (rewrite length_take; lia).
    rewrite length_take. by replace (K - K `min` length bs)%nat with 0%nat by lia.
Qed.

Lemma cut_blocks_case k x : cut_blocks !! k = Some x → (k < K)%nat ∧ bs !! k = Some x ∨ k = K ∧ x = take i ms.
Proof.
    intros Hx. pose proof (lookup_lt_Some _ _ _ Hx) as Hlt. rewrite cut_blocks_length in Hlt.
    destruct (decide (k = K)) as [->|]; [right; rewrite cut_blocks_at in Hx; split; [done|congruence]|left].
    rewrite cut_blocks_low in Hx by lia. split; [lia|done].
Qed.

Lemma cut_before k : (k < K)%nat → start g (S k) ≤ n.
Proof. intros Hk. pose proof (start_le g Hg (S k) K ltac:(lia)). lia. Qed.

Lemma cut_block k x : cut_blocks !! k = Some x →
      block_at g (cut n d) k x ∧ used g k x ≤ gB g ∧ Forall entry_ok x.
Proof.
    intros Hx. pose proof (start_nonneg g Hg k). pose proof (hlen_pos g Hg k).
    destruct (cut_blocks_case k x Hx) as [[Hk Hx']|[-> ->]].
    - destruct (l_block _ _ _ Hl k x Hx') as ([B1 B2] & Hu & Hf). pose proof (cut_before k Hk) as Hb.
      pose proof (zlen_nonneg (body g x)). unfold used in Hu. rewrite start_S in Hb.
      split_and!; [split|done|done]; apply at_cut; try done; try lia. unfold hbytes. rewrite zlen_le_bytes. lia.
    - destruct (l_block _ _ _ Hl K ms HK) as ([B1 B2] & Hu & Hf). pose proof (laid_used g d bs Hl K ms i HK).
      split_and!; [split|done|by apply Forall_take]; [apply at_cut; [lia|unfold hbytes; rewrite zlen_le_bytes; lia|done]|].
      destruct Hin as [->|Hle]; [by unfold at_, pread|]. unfold eob, used in Hle.
      rewrite <-(take_drop i ms), body_app in B2. apply at_app in B2 as [B2 _]; [|lia]. apply at_cut; [lia|lia|done].
Qed.

Lemma cut_full k x : cut_blocks !! k = Some x → (k < K)%nat → full g (cut n d) k x.
Proof.
    intros Hx Hk. rewrite cut_blocks_low in Hx by done. pose proof (lookup_lt_Some _ _ _ HK).
    destruct (l_full _ _ _ Hl k x Hx ltac:(lia)) as [?|[Hs Hne]]; [by left|].
    destruct (decide (gB g - used g k x < 17)); [by left|right]. split; [|done].
    pose proof (cut_before k Hk) as Hb. rewrite start_S in Hb. pose proof (eob_pos g Hg k x).
    apply at_cut; [lia|unfold skip; rewrite zlen_le_bytes; unfold eob in *; lia|done].
Qed.

Lemma cut_laid : laid g (cut n d) cut_blocks.
Proof.
    pose proof cut_blocks_length as Hlen. pose proof (lookup_lt_Some _ _ _ HK) as HKl. pose proof Hg as (_ & HB & Hh). split.
    - intros E. rewrite E in Hlen. done.
    - apply cut_block.
    - intros k x Hx Hlt. apply cut_full; [done|lia].
    - intros k Hk. rewrite Hlen in *. destruct (decide (S k = K)) as [->|]; [by right|left].
      rewrite cut_blocks_low by lia. destruct (l_inner _ _ _ Hl k ltac:(lia)); [done|lia].
    - intros k x Hx Hk. rewrite Hlen in Hk. injection Hk as ->. rewrite cut_blocks_at in Hx. injection Hx as <-. by apply cut_last.
    - intros k Hk. rewrite Hlen in Hk. pose proof (start_nonneg g Hg k).
      destruct (decide (S K < length bs)%nat) as [Hlt|].
      + left. specialize (Hbeyond (S K) ltac:(lia)). pose proof (start_le g Hg (S K) k Hk). rewrite zlen_cut; lia.
      + apply quiet0_cut; [done|lia|]. apply (l_behind _ _ _ Hl). lia.
Qed.

Lemma cut_concat : concat cut_blocks = concat (take K bs) ++ take i ms.
Proof. unfold cut_blocks. rewrite concat_app. cbn [concat]. by rewrite app_nil_r. Qed.

Lemma cut_durable k x j :
      bs !! k = Some x → (0 < j ≤ length x)%nat → eob g k (take j x) ≤ n →
      (concat (take k bs) ++ take j x) `prefix_of` concat cut_blocks.
Proof.
    intros Hx Hj Hle. rewrite cut_concat.
    assert (k ≤ K)%nat as HkK.
    { destruct (decide (k ≤ K)%nat); [done|]. pose proof (lookup_lt_Some _ _ _ Hx). specialize (Hbeyond k ltac:(lia)).
      unfold eob in Hle. pose proof (used_pos g Hg k (take j x)). lia. }
    destruct (decide (k = K)) as [->|].
    - replace x with ms in * by congruence. apply prefix_app.
      destruct (decide (j ≤ i)%nat) as [Hji|Hji]; [|specialize (Hmax j ltac:(lia)); lia].
      rewrite <-(Nat.min_l j i Hji), <-take_take. apply prefix_take.
    - apply prefix_app_r. assert (take K bs !! k = Some x) as Hx' by (by rewrite lookup_take_lt by lia).
      rewrite (concat_middle (take K bs) k x Hx'), take_take, Nat.min_l by lia. apply prefix_app, prefix_app_r, prefix_take.
Qed.
  End Place.

(** The first [n] bytes hold a first part of the messages, with all of those
      that end before [n]. *)
Lemma laid_cut : ∃ bs', laid g (cut n d) bs' ∧ concat bs' `prefix_of` concat bs ∧
    ∀ k x j, bs !! k = Some x → (0 < j ≤ length x)%nat → eob g k (take j x) ≤ n →
      (concat (take k bs) ++ take j x) `prefix_of` concat bs'.
Proof.
  destruct cut_place as (K & ms & i & HK & Hi & Hst & Hbeyond & Hin & Hmax).
  exists (cut_blocks K ms i). split; [by apply cut_laid|]. split; [|intros; by eapply cut_durable].
  rewrite cut_concat, (concat_middle bs K ms HK). apply prefix_app, prefix_app_r, prefix_take.
Qed.
End Cut.

(** ** Recovery *)

(** What a writer has at its end was before its position. *)
Lemma writer_durable g f bs K m ms :
  geo_ok g → writer g f bs → last_data bs K m ms → eob g K (m :: ms) ≤ offset f.
Proof.
  intros Hg [_ Hl (k & x & Hk & Hlen & Hpos) _ _ _] [HK Hc].
  destruct (l_block _ _ _ Hl K _ HK) as (_ & Hu & _). pose proof (eob_le_start g K _ Hu) as Hle.
  destruct (l_block _ _ _ Hl k _ Hk) as (_ & Hux & _).
  assert (K = k ∨ (S K ≤ k)%nat) as [->|Hlt] by (apply lookup_lt_Some in HK; lia).
  - replace x with (m :: ms) in * by congruence. destruct Hpos as [[Ho _]|(_ & Ho & _)]; rewrite Ho; [by rewrite firstn_all|done].
  - pose proof (start_le g Hg (S K) k Hlt). pose proof (start_le g Hg k (S k) ltac:(lia)). pose proof (used_pos g Hg k x).
  destruct Hpos as [[Ho _]|(_ & Ho & _)]; rewrite Ho; [rewrite firstn_all; unfold eob in *|]; lia.
Qed.

(** Opening a file for writing again. *)
Lemma reopen_spec g v s d bs c auto lim fuel :
  holds g v s d bs → increasing (concat bs) → input c = false → tail_extra_size c = 0 → zlen d ≤ lim < 2 ^ 63 →
  from_option (scheme_load c) true s = true → (length (concat bs) + 1 < fuel)%nat →
  ∃ f', open_write fuel true default_open (new c auto d lim) = Some (Ok tt, f') ∧ log_at g v s f' bs ∧
    f_autoseq f' = AutoSeq.AutoSeqT (last_seq (concat bs)) auto.
Proof.
  intros Hh Hinc Hin Hx Hlim Hload Hfuel. pose proof Hh as (Hg & Hmk & Hmeta & Hl). pose proof (meta_at_zlen _ _ _ _ _ Hmeta).
  rewrite open_write_eq. change (disk (new c auto d lim)) with d. cbn [overwrite default_open negb orb]. tests.
  set (f0 := open_reset (new c auto d lim)).
  set (f1 := with_meta (gB g) v (opened_scheme (f_scheme f0) s) (with_pos 0 (block_end f0) f0)).
  rewrite (FM_bind_ok _ _ f0 tt f1) by (apply all_einval_ok; by apply (read_meta_spec f0 (gB g) v s (gh g))).
  destruct (open_rest_spec g v s bs f1 fuel) as (f' & Hrun & Hw & Hk & Hs & Hb & Hcf & Ha & Hli); try done.
  - split_and!; try reflexivity. change (cf f1) with c. lia.
  - change (disk f1) with d. change (limit f1) with lim. lia.
  - change (disk f1) with d. lia.
  - by left.
  - exists f'. split; [exact Hrun|]. split; [|exact Ha]. split; [done|]. split; [done|]. split; [by eapply meta_keep|].
  split; [done|]. split; [done|]. split; [by rewrite Hcf|done].
Qed.

Lemma increasing_prefix a b : a `prefix_of` b → increasing b → increasing a.
Proof.
  intros [k ->] [Hs Hp]. apply Forall_app in Hp as [Hp _]. split; [|done]. clear Hp.
  induction a as [|x a IH]; [constructor|]. cbn in Hs. apply StronglySorted_inv in Hs as [Hs Hx].
  apply Forall_app in Hx as [Hx _]. constructor; auto.
Qed.

(** The messages of the writer at one moment, in what is left of the file
    when it has lost bytes from behind the position of that moment. *)
Lemma crash_prefix g v s f0 bs0 f bs n :
  geo_ok g → log_at g v s f0 bs0 → log_at g v s f bs → grown bs0 bs → offset f0 ≤ n →
  ∃ bs', holds g v s (cut n (disk f)) bs' ∧ concat bs0 `prefix_of` concat bs' ∧ concat bs' `prefix_of` concat bs.
Proof.
  intros Hg (Hw0 & Hmk & _) (Hw & _ & Hmeta & _) Hgr Hn.
  pose proof (tip_offset g Hg _ _ _ (w_laid _ _ _ Hw0) (w_tip _ _ _ Hw0)) as Hgh.
  destruct (laid_cut g Hg (disk f) bs (w_laid _ _ _ Hw) n ltac:(lia)) as (bs' & Hl' & Hpre & Hdur).
  exists bs'. split_and!; [split_and!; [done|done| |done]| |done].
  - apply (meta_keep (disk f)); [done|]. intros a l Ha Hle Hat. apply at_cut; [done|lia|done].
  - destruct (decide (concat bs0 = [])) as [->|Hne]; [apply prefix_nil|].
  destruct (last_data_ex bs0 Hne) as (K & m & ms & HK). pose proof (writer_durable g f0 bs0 K m ms Hg Hw0 HK) as Hend.
  destruct HK as [HK Hc]. destruct (Hgr K _ HK) as (x & Hx & [y ->] & _).
  specialize (Hdur K _ (length (m :: ms)) Hx). rewrite take_app_length in Hdur.
  rewrite (grown_take bs0 bs K Hgr) in Hdur by (by eapply lookup_lt_Some).
  rewrite (concat_middle bs0 K _ HK), Hc, app_nil_r. apply Hdur; [rewrite length_app; cbn; lia|lia].
Qed.

(** C11: Recovery from a crash. At some moment the file of a writer holds
    the messages [ms0]; then more messages are posted, of sizes that fit in
    a block together with its header (and behind the metadata, unless
    nothing fits there), and a crash leaves any first part of the file that
    has at least what was written up to that moment. A reader of what is
    left gets the messages [ms0] and then some of the later ones, in order
    and without a gap; a writer that opens it (without extra space at the
    end of the file, its parameter extra-space) continues from exactly these
    messages. *)
Theorem file_crash g v s f0 ms0 ms rs f fuel n rc wc :
  geo_ok g → log g v s f0 ms0 → Forall msg_ok ms → Forall (fits_any g) ms →
  posts fuel ms f0 = Some (Ok rs, f) → offset f0 ≤ n → limit f0 < 2 ^ 63 →
  from_option (scheme_load rc) true s = true →
  input wc = false → tail_extra_size wc = 0 → from_option (scheme_load wc) true s = true →
  ∃ ms', ms0 `prefix_of` ms' ∧ ms' `prefix_of` (ms0 ++ accepted (f_autoseq f0) ms rs) ∧
    reads_back rc (cut n (disk f)) ms' ∧
    ∀ auto lim fuel, limit f0 ≤ lim < 2 ^ 63 → (length ms' + 1 < fuel)%nat →
      ∃ f', open_write fuel true default_open (new wc auto (cut n (disk f)) lim) = Some (Ok tt, f') ∧ log g v s f' ms'.
Proof.
  intros Hg (bs0 & Hlog0 & <-) Hok Hfit Hrun Hn Hlim Hrc Hin Hx Hwc.
  destruct (posts_log g v s ms Hg f0 bs0 fuel Hlog0 Hok Hfit) as (rs' & f' & bs & Hrun' & _ & Hli & Hlog & Hc & Hgr).
  assert (f' = f ∧ rs' = rs) as [-> ->] by (rewrite Hrun in Hrun'; by injection Hrun').
  destruct (crash_prefix g v s f0 bs0 f bs n Hg Hlog0 Hlog Hgr Hn) as (bs' & Hh & Hp0 & Hp).
  assert (zlen (cut n (disk f)) ≤ limit f0) as Hz.
  { pose proof (w_limit _ _ _ (proj1 Hlog)). unfold cut, zlen in *. rewrite length_take. lia. }
  assert (increasing (concat bs')) as Hinc by (eapply increasing_prefix; [exact Hp|apply Hlog]).
  exists (concat bs'). split; [done|]. split; [by rewrite <-Hc|]. split; [apply (holds_reads g v s); [done|lia|done]|].
  intros auto lim fu Hl Hfu. destruct (reopen_spec g v s _ bs' wc auto lim fu Hh Hinc Hin Hx ltac:(lia) Hwc Hfu) as (f' & Hopen & Hlog' & _).
  exists f'. split; [done|]. by exists bs'.
Qed.

(** The writer of [FileSpec.sample_conf] when it has been opened, and after
    the posts. *)
Definition sample_start : file :=
  match open_write 10 false default_open (new sample_conf false [] 4096) with Some (_, f) => f | None => new sample_conf false [] 4096 end.
Definition sample_end : file :=
  match posts 10 sample_msgs sample_start with Some (_, f) => f | None => sample_start end.
Definition sample_rs : list (result errno unit) := [Ok tt; Err EINVAL; Ok tt; Ok tt].
Definition sample_writer : conf := Conf false 0 0 true 0 true Once None (λ _, true).

Lemma sample_log : log sample_geo 1 None sample_start [].
Proof.
  destruct (file_create_spec sample_geo sample_conf false [] 4096 10 false default_open sample_ok) as (f & Hopen & Hlog & _); [cbn; lia|lia|done|].
  unfold sample_start. rewrite Hopen. by exists [[]].
Qed.

(** A crash in the middle of the last message. *)
Lemma file_crash_witness :
  ∃ ms', [] `prefix_of` ms' ∧ ms' `prefix_of` ([] ++ accepted (f_autoseq sample_start) sample_msgs sample_rs) ∧
    reads_back sample_reader (cut 200 (disk sample_end)) ms' ∧
    ∀ auto lim fuel, limit sample_start ≤ lim < 2 ^ 63 → (length ms' + 1 < fuel)%nat →
      ∃ f', open_write fuel true default_open (new sample_writer auto (cut 200 (disk sample_end)) lim) = Some (Ok tt, f') ∧
        log sample_geo 1 None f' ms'.
Proof.
  apply (file_crash sample_geo 1 None sample_start [] sample_msgs sample_rs sample_end 10 200 sample_reader sample_writer).
  - apply (create_geo sample_geo sample_conf sample_ok).
  - exact sample_log.
  - unfold sample_msgs. repeat (apply Forall_cons; split; [repeat split; cbn; lia|]). by apply Forall_nil.
  - unfold sample_msgs. repeat (apply Forall_cons; split; [split; [vm_compute; discriminate|left; vm_compute; discriminate]|]). by apply Forall_nil.
  - vm_compute. reflexivity.
  - vm_compute. discriminate.
  - vm_compute. reflexivity.
  - reflexivity.
  - reflexivity.
  - reflexivity.
  - reflexivity.
Defined.

End FileCrash.
