(* ===== verification/FileSeek.v ===== *)
(** * Search in files

    [_seek] finds the first message from a number on: bisection over the first
    messages of the blocks, then a scan of the messages. *)
From Stdlib Require Import Sorted.
From S2P Require Import Prelude Mem Callback Channel Reopen Binder Storage File FileLayout FileMeta FileRead FileWrite FileSpec.
Import Cb Chan Storage File FileLayout FileMeta FileRead FileWrite FileSpec.

Module FileSeek.

Section Seek.
Context (g : geo) (Hg : geo_ok g) (d : list Z) (bs : list (list msg)) (Hl : laid g d bs) (Hsort : sorted (concat bs)).

(** What the search leaves: the position is in front of the messages [ms], or at the end
    when there is none. *)
Definition found (f : file) (ms : list msg) : Prop :=
  cursor g bs f ms ∨ (ms = [] ∧ tip g d bs f).

Definition outcome (ms : list msg) : result errno unit :=
  match ms with [] => Err EAGAIN | _ => Ok tt end.

(** ** The scan *)
Lemma seek_scan_away f rest : ready g f → cursor g bs f rest → (offset f + block_size f =? block_end f) = false.
Proof.
  intros Hr Hc. pose proof (cursor_away g Hg bs f rest Hr Hc) as H. destruct Hr as (-> & Hio & _). by rewrite Hio in H.
Qed.

Lemma seek_scan_end f f' seq n :
  (offset f + block_size f =? block_end f) = false → nothing f f' → seek_scan (S n) seq f = Some (Err EAGAIN, f').
Proof.
  intros Ha Hno. cbn [seek_scan]. rewrite !FM_bind_get, Ha, FM_bind_ret.
  destruct Hno as [H|(x & Hx & H1 & H2)]; [by rewrite (FM_bind_err _ _ _ _ _ H)|].
  rewrite (FM_bind_ok _ _ _ _ _ H1). tests. rewrite read_seq_frame_eq by done. by rewrite (FM_bind_err _ _ _ _ _ H2).
Qed.

Lemma seek_scan_skip f seq n :
  (offset f + block_size f =? block_end f) = false → _read_frame f = Some (Ok (-1), f) →
  seek_scan (S n) seq f = seek_scan n seq (with_pos (block_end f) (block_end f) f).
Proof.
  intros Ha H. cbn [seek_scan]. rewrite !FM_bind_get, Ha, FM_bind_ret, (FM_bind_ok _ _ _ _ _ H).
  reflexivity.
Qed.

Lemma seek_scan_msg f f' seq n m :
  (offset f + block_size f =? block_end f) = false → _read_frame f = Some (Ok (msize m), f') →
  _read_data (_data_size (msize m)) f' = Some (Ok m, f') → msize m ≤ gB g →
  seek_scan (S n) seq f =
    if seq <=? m_seq m then Some (Ok tt, f') else seek_scan n seq (with_pos (offset f' + msize m) (block_end f') f').
Proof.
  intros Ha H1 H2 Hm. cbn [seek_scan]. rewrite !FM_bind_get, Ha, FM_bind_ret, (FM_bind_ok _ _ _ _ _ H1).
  pose proof (msize_pos m). destruct Hg as (_ & HB & _). tests. rewrite read_seq_frame_eq by lia.
  rewrite (FM_bind_ok _ _ _ _ _ H2). by destruct (seq <=? m_seq m).
Qed.

Lemma skip_away f : ready g f → (block_end f + block_size f =? block_end f) = false.
Proof. intros (-> & _). destruct Hg as (_ & HB & _). case_bool; [lia|done]. Qed.

Lemma seek_scan_spec seq rest : sorted rest → ∀ f fuel,
  ready g f → disk f = d → cursor g bs f rest → (2 * length rest + 2 ≤ fuel)%nat →
  ∃ o e, seek_scan fuel seq f = Some (outcome (from seq rest), with_pos o e f) ∧ found (with_pos o e f) (from seq rest).
Proof.
  induction rest as [|m rest IH]; intros Hs f fuel Hr Hd Hcur Hfuel.
  - destruct (cursor_tail g Hg d bs Hl f Hr Hd Hcur) as (o & e & Hend & Htip). exists o, e. split; [|by right].
    destruct fuel as [|[|n]]; [cbn in Hfuel; lia..|].
    destruct Hend as [Hno|[Hsk Hno]]; [apply seek_scan_end; [by eapply seek_scan_away|done]|].
    rewrite (seek_scan_skip f) by (done || by eapply seek_scan_away).
    apply seek_scan_end; [exact (skip_away f Hr)|done].
  - destruct (cursor_head g Hg d bs Hl f m rest Hr Hd Hcur) as (o & e & Hsee & Hdata & Hnext & Hhere & _ & Hm).
    assert (∀ f0 n, (offset f0 + block_size f0 =? block_end f0) = false → _read_frame f0 = Some (Ok (msize m), with_pos o e f) →
      (2 * length rest + 2 ≤ n)%nat →
      ∃ o e, seek_scan (S n) seq f0 = Some (outcome (from seq (m :: rest)), with_pos o e f) ∧ found (with_pos o e f) (from seq (m :: rest))) as Hgo.
    { intros f0 n Ha Hrf Hn. rewrite (seek_scan_msg f0 _ seq n m Ha Hrf Hdata Hm).
      destruct (Z.leb_spec seq (m_seq m)) as [Hle|Hlt].
      - rewrite (from_all _ _ _ Hs Hle). exists o, e. split; [done|by left].
      - rewrite (from_skip _ _ _ Hlt). apply StronglySorted_inv in Hs as [Hs _].
        apply (IH Hs (with_pos (o + msize m) e f) n); done. }
    cbn [length] in Hfuel. destruct fuel as [|[|n]]; [lia..|].
    destruct Hsee as [Hrf|[Hsk Hrf]]; [apply Hgo; [by eapply seek_scan_away|done|lia]|].
    rewrite (seek_scan_skip f) by (done || by eapply seek_scan_away).
    apply Hgo; [exact (skip_away f Hr)|done|lia].
Qed.

(** ** The bisection *)

(** The blocks in front of block [k] have numbers below [seq] only. *)
Definition starts (seq : Z) (k : nat) : Prop := below seq (concat (take k bs)).

Lemma starts_from seq k ms :
  starts seq k → bs !! k = Some ms → from seq (concat bs) = from seq (ms ++ concat (drop (S k) bs)).
Proof. intros H Hk. rewrite (concat_middle bs k ms Hk). by apply from_below. Qed.

Lemma starts_of seq k m ms : bs !! k = Some (m :: ms) → m_seq m ≤ seq → starts seq k.
Proof.
  intros Hk Hm. pose proof Hsort as Hs. rewrite (concat_middle bs k _ Hk) in Hs. apply sorted_app in Hs as [_ Hs].
  apply Forall_forall. intros x Hx. assert (m_seq x < m_seq m); [|lia]. apply Hs; [exact Hx|]. by left.
Qed.

Lemma sorted_from k ms : bs !! k = Some ms → sorted (ms ++ concat (drop (S k) bs)).
Proof. intros Hk. pose proof Hsort as Hs. rewrite (concat_middle bs k _ Hk) in Hs. by apply sorted_app in Hs as [Hs _]. Qed.

(** Blocks between the first and the last one with messages have messages. *)
Lemma inner_block K mK msK k : last_data bs K mK msK → (0 < k ≤ K)%nat → ∃ m ms, bs !! k = Some (m :: ms).
Proof.
  intros [HK _] Hk. pose proof (lookup_lt_Some _ _ _ HK) as HKl.
  destruct (decide (k = K)) as [->|Hne]; [by exists mK, msK|].
  destruct (lookup_lt_is_Some_2 bs k ltac:(lia)) as [[|m ms] Hx]; [|by exists m, ms].
  destruct k as [|k]; [lia|]. destruct (l_inner _ _ _ Hl k ltac:(lia)) as [?|?]; [congruence|lia].
Qed.

Lemma seek_bisect_spec seq K mK msK : last_data bs K mK msK → ∀ fuel first last f,
  sized g d f → (last ≤ S K)%nat → (first < last)%nat → (last ≤ first + fuel)%nat → starts seq first →
  ∃ r o e, seek_bisect fuel seq (Z.of_nat first) (Z.of_nat last) f = Some (Ok r, with_pos o e f) ∧
    match r with
    | Some k => ∃ k' : nat, k = Z.of_nat k' ∧ (k' ≤ K)%nat ∧ starts seq k'
    | None => ∃ k m ms, bs !! k = Some (m :: ms) ∧ m_seq m = seq ∧ o = eob g k [] ∧ e = start g (S k)
    end.
Proof.
  intros HK. induction fuel as [|fuel IH]; intros first last f Hs Hlast Hlt Hfuel Hst; [lia|].
  cbn [seek_bisect]. destruct (Z.ltb_spec (Z.of_nat first + 1) (Z.of_nat last)) as [Hlt1|Hge].
  2: { exists (Some (Z.of_nat first)), (offset f), (block_end f). rewrite with_pos_same. split; [done|]. exists first. split_and!; [done|lia|done]. }
  assert ((Z.of_nat first + Z.of_nat last) / 2 = Z.of_nat ((first + last) / 2)) as Hmid by (rewrite Nat2Z.inj_div, Nat2Z.inj_add; done).
  set (mid := ((first + last) / 2)%nat) in *. cbv zeta. rewrite Hmid.
  assert (first < mid < last)%nat as Hm by (unfold mid; split; [apply Nat.div_le_lower_bound|apply Nat.Div0.div_lt_upper_bound]; lia).
  destruct (inner_block K mK msK mid HK ltac:(lia)) as (m & ms & Hx).
  rewrite (FM_bind_attempt _ _ _ _ _ (block_seq_hit g Hg d bs Hl mid m ms 1 f Hs Hx)).
  set (f1 := with_pos _ _ f). assert (sized g d f1) as Hs1 by done.
  destruct (Z.eqb_spec (m_seq m) seq) as [Heq|Hne].
  { exists None, (eob g mid []), (start g (S mid)). split; [done|]. by exists mid, m, ms. }
  destruct (Z.ltb_spec seq (m_seq m)) as [Hgt|Hle].
  - destruct (IH first mid f1 Hs1) as (r & o & e & Hrun & Hr); [lia..|done|]. by exists r, o, e.
  - destruct (IH mid last f1 Hs1) as (r & o & e & Hrun & Hr); [lia..| |by exists r, o, e].
    apply (starts_of seq mid m ms Hx). lia.
Qed.

(** ** The search *)
Lemma last_data_count K mK msK : last_data bs K mK msK → (K ≤ length (concat bs))%nat.
Proof.
  intros HK. assert (∀ k, (k ≤ K)%nat → (k ≤ length (concat (take k bs)) + match bs !! 0%nat with Some [] | None => 1 | _ => 0 end)%nat) as H.
  { induction k as [|k IH]; [lia|]. intros Hk. specialize (IH ltac:(lia)).
    destruct (lookup_lt_is_Some_2 bs k) as [x Hx]; [destruct HK as [HK _]; apply lookup_lt_Some in HK; lia|].
    rewrite (take_S_r bs k x Hx), concat_app, length_app. cbn [concat]. rewrite app_nil_r.
    destruct k as [|k]; [rewrite Hx; destruct x; cbn; lia|].
    destruct (inner_block K mK msK (S k) HK ltac:(lia)) as (m & ms & Hx'). rewrite Hx in Hx'. injection Hx' as ->. cbn. lia. }
  specialize (H K ltac:(lia)). destruct HK as [HK _]. rewrite (concat_middle bs K _ HK), !length_app. cbn [length].
  destruct (bs !! 0%nat) as [[|]|]; lia.
Qed.

Lemma seek_last_none : concat bs = [] → ∀ n f, sized g d f → ∃ o e, seek_last n f = Some (Ok 0%nat, with_pos o e f).
Proof.
  intros Hc. induction n as [|n IH]; intros f Hs; [exists (offset f), (block_end f); by rewrite with_pos_same|].
  assert (∃ o e, _block_seq 2 (Z.of_nat (S n)) f = Some (Err EAGAIN, with_pos o e f)) as (o & e & H).
  { destruct (decide (length bs ≤ S n)%nat) as [Hge|Hlt]; [eexists _, _; by apply (block_seq_behind g Hg d bs Hl)|].
    destruct (lookup_lt_is_Some_2 bs (S n) ltac:(lia)) as [x Hx]. pose proof (concat_nil_lookup _ _ _ Hc Hx) as ->.
    destruct (l_inner _ _ _ Hl n ltac:(lia)) as [?|Hlen]; [congruence|].
    destruct (block_seq_empty g Hg d bs Hl (S n) 1 f Hs Hx Hlen) as (o & e & H & _). eauto. }
  cbn [seek_last]. rewrite (FM_bind_attempt _ _ _ _ _ H). apply (IH (with_pos o e f) Hs).
Qed.

(** [_seek] once the first and the last block with messages are known. *)
Lemma seek_blocks seq K mK msK k m ms f fuel :
  last_data bs K mK msK → bs !! k = Some (m :: ms) → (k ≤ K)%nat → starts seq k → sized g d f →
  (2 * length (concat bs) + 3 ≤ fuel)%nat →
  ∃ o e, (r ← seek_bisect fuel seq (Z.of_nat k) (Z.of_nat K + 1);
          match r with
          | None => mret tt
          | Some first => _ ← all_einval (_shift_block (first * gB g)); seek_scan fuel seq
          end) f = Some (outcome (from seq (concat bs)), with_pos o e f) ∧ found (with_pos o e f) (from seq (concat bs)).
Proof.
  intros HK Hk HkK Hst Hs Hfuel. pose proof (last_data_count K mK msK HK) as HKn.
  destruct (seek_bisect_spec seq K mK msK HK fuel k (S K) f Hs) as (r & o & e & Hrun & Hr); [lia..|done|].
  replace (Z.of_nat K + 1) with (Z.of_nat (S K)) by lia. rewrite (FM_bind_ok _ _ _ _ _ Hrun).
  set (f1 := with_pos o e f) in *. destruct r as [first|].
  - destruct Hr as (k' & -> & Hk' & Hst'). change (Z.of_nat k' * gB g) with (start g k').
    destruct (lookup_lt_is_Some_2 bs k') as [ms' Hx]; [destruct HK as [HK _]; apply lookup_lt_Some in HK; lia|].
    pose proof (shift_block_ok g Hg d k' ms' f1 (proj1 Hs) (proj1 (proj2 Hs)) (proj1 (l_block _ _ _ Hl _ _ Hx)) (laid_hlen g d bs Hl k' ms' Hx)) as Hsh.
    rewrite (FM_bind_ok _ _ _ _ _ (all_einval_ok _ _ _ _ Hsh)). rewrite (starts_from seq k' ms' Hst' Hx).
    set (f2 := with_pos _ _ f1). destruct Hs as (Hr & Hd & Hc).
    apply (seek_scan_spec seq _ (sorted_from k' ms' Hx) f2 fuel); [done|done| |].
    + exists k', 0%nat, ms'. split_and!; [done|lia| |by rewrite drop_0]. split; [|done].
      unfold f2, eob. cbn [offset with_pos]. by rewrite take_0, used_nil.
    + rewrite (concat_middle bs k' _ Hx), length_app in Hfuel. lia.
  - destruct Hr as (k' & m' & ms' & Hx & Hm & Ho & He).
    pose proof (starts_of seq k' m' ms' Hx ltac:(lia)) as Hst'. rewrite (starts_from seq k' _ Hst' Hx).
    cbn [app]. rewrite from_all by (apply sorted_from in Hx; done || lia). exists o, e. split; [done|left].
    exists k', 0%nat, (m' :: ms'). split_and!; [done|lia|done|done].
Qed.

Lemma seek_spec seq f fuel :
  ready g f → disk f = d → zlen d < 2 ^ 63 → (2 * length (concat bs) + 3 ≤ fuel)%nat →
  ∃ o e, _seek fuel seq f = Some (outcome (from seq (concat bs)), with_pos o e (with_cache (zlen d) f)) ∧
    found (with_pos o e f) (from seq (concat bs)).
Proof.
  intros Hr Hd Hz Hfuel. unfold _seek.
  rewrite (FM_bind_ok _ _ f (zlen d) (with_cache (zlen d) f)) by (unfold _file_size; by rewrite Hd).
  set (f1 := with_cache (zlen d) f). assert (sized g d f1) as Hs1 by done. pose proof Hg as (_ & HB & _).
  rewrite FM_bind_get. change (block_size f1) with (block_size f). rewrite (proj1 Hr).
  assert (concat bs = [] ∨ ∃ m rest, concat bs = m :: rest) as [Hc|(m & rest & Hc)] by (destruct (concat bs); eauto).
  - rewrite Hc. rewrite (FM_bind_ok _ _ f1 (Z.to_nat (u64 ((zlen d + gB g - 1) / gB g - 1))) f1) by (unfold last_index; tests; done).
    destruct (seek_last_none Hc (Z.to_nat (u64 ((zlen d + gB g - 1) / gB g - 1))) f1 Hs1) as (o & e & H).
    rewrite (FM_bind_ok _ _ _ _ _ H).
    destruct (block_seq_zero_empty g Hg d bs Hl (with_pos o e f1) Hs1 Hc) as (o' & e' & H' & Htip).
    exists o', e'. rewrite (FM_bind_err _ _ _ _ _ H'). split; [done|by right].
  - destruct (last_data_ex bs ltac:(by rewrite Hc)) as (K & mK & msK & HK).
    destruct (last_index_spec g Hg d bs Hl K mK msK f1 HK Hz) as (n & Hn & HKn). rewrite (FM_bind_ok _ _ _ _ _ Hn).
    destruct (seek_last_spec g Hg d bs Hl K mK msK f1 Hs1 HK n HKn) as (o & e & H). rewrite (FM_bind_ok _ _ _ _ _ H).
    destruct (block_seq_zero g Hg d bs Hl m rest (with_pos o e f1) Hs1 Hc) as (k & ms & Hk & Hk01 & H').
    rewrite (FM_bind_ok _ _ _ _ _ H'), FM_bind_get. cbn [block_end with_pos].
    assert (start g (S k) / gB g - 1 = Z.of_nat k) as -> by (unfold start; rewrite Z.div_mul by lia; lia).
    apply (seek_blocks seq K mK msK k m ms (with_pos (eob g k []) (start g (S k)) (with_pos o e f1)) fuel); try done.
    + destruct HK as [HK HKc]. destruct (decide (k ≤ K)%nat) as [|Hgt]; [done|].
      pose proof (concat_nil_lookup (drop (S K) bs) (k - S K) (m :: ms) HKc) as Hno. rewrite lookup_drop in Hno.
      replace (S K + (k - S K))%nat with k in Hno by lia. by specialize (Hno Hk).
    + unfold starts. destruct Hk01 as [->|[-> H0]]; [constructor|]. rewrite (take_S_r bs 0 [] H0). constructor.
Qed.

(** ** What a reader gets *)

(** Calls of [_process] deliver the messages [ms] and then nothing. *)
Definition delivers (fuel : nat) (f : file) (ms : list msg) : Prop :=
  ∃ f' f'', drain fuel (length ms) f = Some (Ok tt, f') ∧ out f' = out f ++ ms ∧
    _process fuel f' = Some (Err EAGAIN, f'') ∧ (out f'' = out f' ∨ out f'' = out f' ++ [eod_msg]).

(** A reader at the end of the file. *)
Lemma process_tip f fuel :
  ready g f → disk f = d → tip g d bs f → (2 ≤ fuel)%nat →
  ∃ f', _process fuel f = Some (Err EAGAIN, f') ∧ (out f' = out f ∨ out f' = out f ++ [eod_msg]).
Proof.
  intros Hr Hd (k & ms & Hk & Hlen & [Hpos|(_ & Ho & He)]) Hfuel.
  - destruct (process_drained g d bs f fuel Hg Hl Hr Hd) as (f' & H1 & H2 & _); [|done|by exists f'].
    exists k, (length ms), ms. split; [done|]. split; [lia|]. split; [done|]. by rewrite drop_all, drop_ge by lia.
  - destruct fuel as [|n]; [lia|]. exists f. split; [|by left]. cbn [_process].
    assert ((offset f + io_block_size f =? block_end f) = true) as Hst.
    { destruct Hr as (_ & -> & _). rewrite Ho, He, (start_S g (S k)). apply Z.eqb_refl. }
    rewrite !FM_bind_get, Hst. rewrite (FM_bind_err _ _ f EAGAIN f); [done|].
    rewrite (FM_bind_err _ _ f EAGAIN f); [done|]. apply (nocheck_quiet g Hg f (start g (S k))); [done| |done|by apply start_nonneg].
    rewrite Hd. apply (l_behind _ _ _ Hl). lia.
Qed.

Lemma found_delivers f ms fuel : ready g f → disk f = d → found f ms → (2 ≤ fuel)%nat → delivers fuel f ms.
Proof.
  intros Hr Hd [Hc|[-> Ht]] Hfuel.
  - destruct (drain_spec g d bs ms Hg Hl f fuel Hr Hd Hc Hfuel) as (f' & H1 & H2 & Hr' & Hd' & Hc' & _).
    destruct (process_drained g d bs f' fuel Hg Hl Hr' Hd' Hc' Hfuel) as (f'' & H3 & H4 & _). by exists f', f''.
  - destruct (process_tip f fuel Hr Hd Ht Hfuel) as (f' & H1 & H2). exists f, f'. by rewrite app_nil_r.
Qed.
End Seek.

(** What a reader that opens the file in one of the modes is meant to get. *)
Definition wanted (p : open_params) (ms : list msg) : list msg :=
  match mode p with
  | ModeEnd => []
  | ModeLast => match last ms with Some m => [m] | None => [] end
  | ModeSeq => match seq_param p with Some s => from s ms | None => ms end
  end.

(** C12: Search.  On a reader of a file with messages whose numbers grow, in
    whatever place and state it is, the control message Seek with the number [seq] finds the
    first message from this number on, by bisection over the blocks: the reader then
    gets all the messages from there to the end and no other.  The result is EAGAIN
    exactly when there is none; then nothing is delivered. *)
Theorem file_seek g v s d bs f fuel seq :
  holds g v s d bs → sorted (concat bs) → zlen d < 2 ^ 63 →
  ready g f → disk f = d → input (cf f) = true → (2 * length (concat bs) + 3 ≤ fuel)%nat →
  ∃ f', _post fuel (Msg CONTROL 0 control_seek_msgid seq [] 0 0 0) f =
      Some (if bool_decide (from seq (concat bs) = []) then Err EAGAIN else Ok tt, f') ∧
    out f' = out f ∧ delivers fuel f' (from seq (concat bs)).
Proof.
  intros (Hg & _ & _ & Hl) Hs Hz Hr Hd Hin Hfuel.
  destruct (seek_spec g Hg d bs Hl Hs seq f fuel Hr Hd Hz Hfuel) as (o & e & H & Hf).
  exists (with_pos o e (with_cache (zlen d) f)). split_and!; [|done|].
  - unfold _post. rewrite FM_bind_get, Hin. cbn [m_type m_msgid m_seq]. rewrite bool_decide_true by done.
    rewrite Z.eqb_refl, H. by destruct (from seq (concat bs)).
  - apply (found_delivers g Hg d bs Hl); [done..|lia].
Qed.

(** What each mode does to a reader whose bounds are known. *)
Lemma mode_delivers g d bs fuel p f1 : geo_ok g → laid g d bs → sorted (concat bs) → zlen d < 2 ^ 63 → (2 * length (concat bs) + 3 ≤ fuel)%nat →
  ready g f1 → disk f1 = d → tip g d bs f1 →
  out f1 = [] → f_seq f1 = last_seq (concat bs) → seq_begin f1 = first_seq (concat bs) →
  ∃ f, (_ ← (match mode p with
            | ModeEnd => mret tt
            | ModeLast => open_seek fuel (last_seq (concat bs))
            | ModeSeq => match seq_param p with Some s => open_seek fuel s | None => _seek_start end
            end); set_pending true) f1 = Some (Ok tt, f) ∧ out f = [] ∧
    f_seq f = last_seq (concat bs) ∧ seq_begin f = first_seq (concat bs) ∧ delivers fuel f (wanted p (concat bs)).
Proof.
  intros Hg Hl Hs Hz Hfuel Hr Hd Htip Ho1 Hs1 Hb1.
  assert (∀ f, ready g f → disk f = d → out f = [] → f_seq f = last_seq (concat bs) → seq_begin f = first_seq (concat bs) →
    found g d bs f (wanted p (concat bs)) →
    ∃ f', set_pending true f = Some (Ok tt, f') ∧ out f' = [] ∧ f_seq f' = last_seq (concat bs) ∧ seq_begin f' = first_seq (concat bs) ∧
      delivers fuel f' (wanted p (concat bs))) as Hfin.
  { intros f Hrf Hdf Hof Hsf Hbf Hf. eexists. split; [reflexivity|]. split; [exact Hof|]. split; [exact Hsf|]. split; [exact Hbf|].
    apply (found_delivers g Hg d bs Hl); [done..|lia]. }
  assert (∀ seq, wanted p (concat bs) = from seq (concat bs) →
    ∃ f', (_ ← open_seek fuel seq; set_pending true) f1 = Some (Ok tt, f') ∧ out f' = [] ∧ f_seq f' = last_seq (concat bs) ∧
      seq_begin f' = first_seq (concat bs) ∧ delivers fuel f' (wanted p (concat bs))) as Hseek.
  { intros seq Hw. destruct (seek_spec g Hg d bs Hl Hs seq f1 fuel Hr Hd Hz Hfuel) as (o' & e' & H & Hf).
    rewrite (FM_bind_ok _ _ f1 tt (with_pos o' e' (with_cache (zlen d) f1))).
    - apply Hfin; try done. by rewrite Hw.
    - unfold open_seek. rewrite (FM_bind_attempt _ _ _ _ _ H). by destruct (from seq (concat bs)). }
  unfold wanted in *. destruct (mode p).
  - destruct (seq_param p) as [seq|]; [by apply Hseek|].
    destruct (lookup_lt_is_Some_2 bs 0) as [ms Hk]; [pose proof (l_some _ _ _ Hl); destruct bs; [done|cbn; lia]|].
    pose proof (shift_block_ok g Hg d 0 ms f1 Hr Hd (proj1 (l_block _ _ _ Hl _ _ Hk)) (laid_hlen g d bs Hl 0 ms Hk)) as Hsh.
    unfold _seek_start. change 0 with (start g 0). rewrite (FM_bind_ok _ _ _ _ _ (all_einval_ok _ _ _ _ Hsh)).
    set (f2 := with_pos _ _ f1). assert (cursor g bs f2 (concat bs)) as Hc.
    { exists 0%nat, 0%nat, ms. split_and!; [done|lia| |by rewrite drop_0, (concat_middle _ _ _ Hk)].
      split; [|done]. unfold f2, eob. cbn [offset with_pos]. by rewrite take_0, used_nil. }
    apply Hfin; [done..|by left].
  - apply Hseek. by rewrite (from_last _ Hs).
  - rewrite FM_bind_ret. apply Hfin; [done..|]. right. done.
Qed.

(** C38: Modes of a reader.  A file with messages whose numbers grow, opened
    from its start, from a number on, at the last message or at the end, gives
    exactly the messages that the mode asks for, and knows the numbers of the
    first and of the last message. *)
Theorem file_open_modes g v s d bs c p auto lim fuel :
  holds g v s d bs → sorted (concat bs) → zlen d < 2 ^ 63 →
  from_option (scheme_load c) true s = true → (2 * length (concat bs) + 3 ≤ fuel)%nat →
  ∃ f, open_read fuel true p (new c auto d lim) = Some (Ok tt, f) ∧ out f = [] ∧
    f_seq f = last_seq (concat bs) ∧ seq_begin f = first_seq (concat bs) ∧
    delivers fuel f (wanted p (concat bs)).
Proof.
  intros Hh Hs Hz Hload Hfuel.
  destruct (open_read_spec g v s d bs (new c auto d lim) fuel p Hh eq_refl Hz Hload ltac:(lia)) as (o & e & Htip & Hr & Hd & ->).
  destruct Hh as (Hg & _ & _ & Hl). by apply (mode_delivers g d bs fuel p _ Hg Hl Hs Hz Hfuel Hr Hd Htip).
Qed.

(** A file of three messages in two blocks. *)
Definition sample_file : list Z :=
  match (_ ← open_write 10 false default_open; posts 10 sample_msgs) (new sample_conf false [] 4096) with
  | Some (_, f) => disk f
  | None => []
  end.
Definition sample_blocks : list (list msg) :=
  [[mk_data 10 1 (replicate 60 7)]; [mk_data 20 5 (replicate 40 8); mk_data 30 6 [1; 2; 3]]].

Lemma sample_holds : ∃ bs, holds sample_geo 1 None sample_file bs ∧ concat bs = concat sample_blocks.
Proof.
  destruct (file_create_spec sample_geo sample_conf false [] 4096 10 false default_open sample_ok) as (f & Hopen & Hlog & Ha & _); [cbn; lia|lia|done|].
  destruct (create_geo sample_geo sample_conf sample_ok) as (Hg & _).
  destruct (posts_log sample_geo _ _ sample_msgs Hg f [[]] 10 Hlog) as (rs & f' & bs & Hrun & _ & _ & Hlog' & Hc & _).
  - unfold sample_msgs. repeat (apply Forall_cons; split; [repeat split; cbn; lia|]). by apply Forall_nil.
  - unfold sample_msgs. repeat (apply Forall_cons; split; [split; [vm_compute; discriminate|left; vm_compute; discriminate]|]). by apply Forall_nil.
  - exists bs. pose proof (log_holds _ _ _ _ _ Hg Hlog') as Hh.
    assert ((_ ← open_write 10 false default_open; posts 10 sample_msgs) (new sample_conf false [] 4096) = Some (Ok rs, f')) as Hall
      by (by rewrite (FM_bind_ok _ _ _ _ _ Hopen)).
    unfold sample_file. rewrite Hall. split; [exact Hh|].
    assert (rs = [Ok tt; Err EINVAL; Ok tt; Ok tt]) as ->.
    { assert ((let! (r, _) := (_ ← open_write 10 false default_open; posts 10 sample_msgs) (new sample_conf false [] 4096) in Some r) =
        Some (Ok [Ok tt; Err EINVAL; Ok tt; Ok tt])) as E by (vm_compute; reflexivity). rewrite Hall in E. cbn in E. by injection E. }
    rewrite Hc, Ha. reflexivity.
Qed.

Lemma sample_sorted : sorted (concat sample_blocks).
Proof. repeat constructor. Qed.

(** A reader of it in the initial place. *)
Definition sample_open : file :=
  match open_read 10 true default_open (new sample_reader false sample_file 4096) with Some (_, f) => f | None => new sample_reader false [] 0 end.

Lemma file_seek_witness :
  ∃ f', _post 10 (Msg CONTROL 0 control_seek_msgid 3 [] 0 0 0) sample_open =
      Some (if bool_decide (from 3 (concat sample_blocks) = []) then Err EAGAIN else Ok tt, f') ∧
    out f' = out sample_open ∧ delivers 10 f' (from 3 (concat sample_blocks)).
Proof.
  destruct sample_holds as (bs & Hh & Hc). rewrite <-Hc.
  apply (file_seek sample_geo 1 None sample_file bs).
  - exact Hh.
  - rewrite Hc. exact sample_sorted.
  - vm_compute. reflexivity.
  - vm_compute. done.
  - vm_compute. reflexivity.
  - vm_compute. reflexivity.
  - rewrite Hc. cbn. lia.
Defined.

Lemma file_open_modes_witness :
  ∃ f, open_read 10 true (OpenParams ModeLast None false) (new sample_reader false sample_file 4096) = Some (Ok tt, f) ∧ out f = [] ∧
    f_seq f = last_seq (concat sample_blocks) ∧ seq_begin f = first_seq (concat sample_blocks) ∧
    delivers 10 f (wanted (OpenParams ModeLast None false) (concat sample_blocks)).
Proof.
  destruct sample_holds as (bs & Hh & Hc). rewrite <-Hc.
  apply (file_open_modes sample_geo 1 None sample_file bs).
  - exact Hh.
  - rewrite Hc. exact sample_sorted.
  - vm_compute. reflexivity.
  - reflexivity.
  - rewrite Hc. cbn. lia.
Defined.

End FileSeek.
