(* ===== verification/FileTail.v ===== *)
(** * Reading a file while it is written

    The position of a reader stays valid when a writer adds messages, so that a
    reader that does not close at the end follows the writer. *)
From S2P Require Import Prelude Mem Callback Channel Reopen Binder Storage File FileLayout FileMeta FileRead FileWrite FileSpec FileSeek.
Import Cb Chan Storage File FileLayout FileMeta FileRead FileWrite FileSpec FileSeek.

Module FileTail.

(** What a reader has in front of it: it is behind a message (or a header), or at the
    start of a block that may not be there yet. *)
Definition reads (g : geo) (d : list Z) (bs : list (list msg)) (f : file) (rest : list msg) : Prop :=
  cursor g bs f rest ∨
  ∃ k ms, bs !! k = Some ms ∧ full g d k ms ∧ offset f = start g (S k) ∧ block_end f = start g (S (S k)) ∧
    rest = concat (drop (S k) bs).

(** The reader as it is when it gets control again: the file is that of the writer. *)
Definition at_disk (d : list Z) (f : file) : file := with_disk d f.

(** A reader that stays open at the end. *)
Definition follows (g : geo) (d : list Z) (f : file) : Prop :=
  ready g f ∧ disk f = d ∧ autoclose (cf f) = false.

Definition datas (f : file) : list msg := filter (λ m, m_type m = DATA) (out f).

Lemma entry_data m : entry_ok m → m_type m = DATA.
Proof. by intros [-> _]. Qed.

Section Tail.
Context (g : geo) (Hg : geo_ok g).

Lemma found_reads d bs f ms : found g d bs f ms → reads g d bs f ms.
Proof.
  intros [Hc|[-> (k & x & Hk & Hlen & [[Ho He]|(Hf & Ho & He)])]]; [by left|left|right].
  - exists k, (length x), x. split_and!; [done|lia|by split|]. by rewrite drop_all, drop_ge by lia.
  - exists k, x. split_and!; [done..|]. by rewrite drop_ge by lia.
Qed.

(** ** The file grows *)
Lemma tail_blocks (bs bs' : list (list msg)) k new :
  grown bs bs' → (k < length bs)%nat → concat bs' = concat bs ++ new → concat (drop k bs') = concat (drop k bs) ++ new.
Proof.
  intros Hgr Hk Hc. rewrite <-(take_drop k bs), <-(take_drop k bs'), !concat_app, <-app_assoc, (grown_take bs bs' k Hgr Hk) in Hc.
  by apply app_inv_head in Hc.
Qed.

Lemma skip_not_msg m : msize m ≤ gB g → take 4 (enc (gmk g) m) ≠ skip.
Proof.
  intros Hm E. unfold enc in E. rewrite take_app_length' in E by (by rewrite length_le_bytes).
  apply (f_equal le_value) in E. pose proof (msize_pos m). destruct Hg as ([Hmk|Hmk] & HB & _); rewrite Hmk in E.
  - rewrite Z.lor_0_r, le_value_4 in E by lia. change (le_value skip) with (2 ^ 32 - 1) in E. lia.
  - rewrite lor_marker in E by lia. rewrite le_value_4 in E by lia. change (le_value skip) with (2 ^ 32 - 1) in E. lia.
Qed.

(** A block with nothing more in it stays so. *)
Lemma full_stays d d' bs bs' w k ms :
  writer g w bs → disk w = d → laid g d' bs' → keeps d d' (offset w) → grown bs bs' →
  bs !! k = Some ms → full g d k ms → bs' !! k = Some ms ∧ full g d' k ms.
Proof.
  intros Hw Hd Hl' Hkeep Hgr Hk Hfull. pose proof Hw as [_ Hl Ht Hcl _ _]. rewrite Hd in *.
  destruct (Hgr k ms Hk) as (ms' & Hk' & [more ->] & Hsame).
  assert (more = [] → bs' !! k = Some ms) as Hnil by (intros ->; by rewrite Hk', app_nil_r).
  destruct (decide (S k < length bs)%nat) as [Hlt|Hlast].
  { assert (more = []) as Hm by (specialize (Hsame Hlt); apply (f_equal length) in Hsame; rewrite length_app in Hsame; destruct more; [done|cbn in Hsame; lia]).
    split; [by apply Hnil|]. pose proof (grown_length _ _ Hgr). apply (l_full _ _ _ Hl'); [by apply Hnil|lia]. }
  assert (S k = length bs) as Hlen by (apply lookup_lt_Some in Hk; lia).
  destruct (l_block _ _ _ Hl' k _ Hk') as (Hb & Hu & _). destruct (l_block _ _ _ Hl k _ Hk) as (_ & Hu0 & _).
  destruct (decide (gB g - used g k ms < 17)) as [Hsm|Hbig].
  { assert (more = []) as Hm; [|by split; [apply Hnil|left]]. destruct more as [|x more]; [done|].
    rewrite used_app, zlen_body_cons in Hu. pose proof (msize_pos x). pose proof (zlen_nonneg (body g more)). lia. }
  destruct Hfull as [?|[Hsk Hne]]; [lia|]. pose proof (eob_pos g Hg k ms) as Hpos. assert (zlen skip = 4) as Hz4 by reflexivity.
  assert (eob g k ms + 4 ≤ offset w) as Hoff.
  { destruct Ht as (k2 & ms2 & Hk2 & Hlen2 & Hpos2). assert (k2 = k) as -> by lia. rewrite Hk in Hk2. injection Hk2 as <-.
    destruct Hpos2 as [[Ho _]|(_ & Ho & _)].
    - rewrite firstn_all in Ho. rewrite Ho in Hcl. exfalso. destruct Hcl as [Hz|[_ Hz]].
      + assert (d !! (Z.to_nat (eob g k ms) + 0)%nat = Some 255) as H1 by (apply (at_lookup d _ skip); [lia|done|reflexivity]).
        apply Hz in H1; lia.
      + apply at_bound in Hsk as [?|?]; [done|lia|lia].
    - rewrite Ho, start_S. unfold eob in *. lia. }
  apply Hkeep in Hsk; [|lia|lia].
  assert (more = []) as Hm; [|by split; [apply Hnil|right]]. destruct more as [|x more]; [done|exfalso].
  destruct (laid_msg g Hg d' bs' Hl' k (ms ++ x :: more) (length ms) x Hk') as (Hat & _ & _ & _ & Hx).
  { rewrite lookup_app_r by lia. by rewrite Nat.sub_diag. }
  rewrite take_app_length in Hat. apply (skip_not_msg x Hx). pose proof (msize_pos x).
  rewrite <-(take_drop 4 (enc (gmk g) x)) in Hat. apply at_app in Hat as [Hat _]; [|lia].
  unfold at_ in Hat, Hsk. assert (zlen (take 4 (enc (gmk g) x)) = 4) as Hz.
  { pose proof (zlen_enc (gmk g) x) as Hze. unfold zlen in *. rewrite length_take. lia. }
  rewrite Hz in Hat. rewrite Hz4 in Hsk. congruence.
Qed.

Lemma reads_grow d d' bs bs' new w f rest :
  writer g w bs → disk w = d → laid g d' bs' → keeps d d' (offset w) → grown bs bs' → concat bs' = concat bs ++ new →
  reads g d bs f rest → reads g d' bs' (at_disk d' f) (rest ++ new).
Proof.
  intros Hw Hd Hl' Hkeep Hgr Hc [(k & i & ms & Hk & Hi & [Ho He] & ->)|(k & ms & Hk & Hfull & Ho & He & ->)].
  - left. destruct (Hgr k ms Hk) as (ms' & Hk' & [more ->] & _). pose proof (lookup_lt_Some _ _ _ Hk) as Hlt.
    exists k, i, (ms ++ more). split; [done|]. split; [rewrite length_app; lia|]. split; [split; [by rewrite take_app_le by lia|exact He]|].
    pose proof (tail_blocks bs bs' k new Hgr Hlt Hc) as E. rewrite (drop_S bs ms k Hk), (drop_S bs' _ k Hk') in E. cbn [concat] in E.
    rewrite <-!app_assoc in E. apply app_inv_head in E. by rewrite drop_app_le, <-!app_assoc, E by lia.
  - right. destruct (full_stays d d' bs bs' w k ms Hw Hd Hl' Hkeep Hgr Hk Hfull) as [Hk' Hfull'].
    exists k, ms. split_and!; [done..|]. pose proof (lookup_lt_Some _ _ _ Hk) as Hlt.
    pose proof (tail_blocks bs bs' k new Hgr Hlt Hc) as E. rewrite (drop_S bs ms k Hk), (drop_S bs' ms k Hk') in E. cbn [concat] in E.
    rewrite <-app_assoc in E. by apply app_inv_head in E.
Qed.

(** ** One call of [_process] *)
Section Process.
Context (d : list Z) (bs : list (list msg)) (Hl : laid g d bs).

(** A block that has appeared: its header is read first. *)
Lemma process_enter k ms n f :
  ready g f → disk f = d → bs !! S k = Some ms → offset f = start g (S k) → block_end f = start g (S (S k)) →
  let f1 := with_pos (eob g (S k) []) (start g (S (S k))) f in
  _process (S n) f = _process (S n) f1 ∧ cursor g bs f1 (concat (drop (S k) bs)).
Proof.
  intros Hr Hd Hk Ho He f1. assert (cursor g bs f1 (concat (drop (S k) bs))) as Hc.
  { exists (S k), 0%nat, ms. split_and!; [done|lia|done|]. by rewrite drop_0, (drop_S bs ms (S k) Hk). }
  split; [|exact Hc]. pose proof (cursor_away g Hg bs f1 _ Hr Hc) as Haway. pose proof Hr as (_ & Hio & _).
  assert ((offset f + io_block_size f =? block_end f) = true) as Hst by (rewrite Hio, Ho, He, (start_S g (S k)); apply Z.eqb_refl).
  assert (_read_frame_nocheck f = Some (Ok (hlen g (S k)), f)) as Hh.
  { apply (nocheck_block g Hg d (S k) ms); try done; [by apply (l_block _ _ _ Hl)|lia|by apply (laid_hlen g d bs Hl (S k) ms)]. }
  cbn [_process]. rewrite !FM_bind_get, Hst, Haway, FM_bind_ret.
  rewrite (FM_bind_ok _ _ f tt f1); [done|]. rewrite (FM_bind_ok _ _ _ _ _ Hh).
  pose proof (hlen_pos g Hg (S k)). tests. unfold _shift, upd, f1. by rewrite Ho, He, <-(used_nil g (S k)).
Qed.

(** A message is delivered. *)
Lemma reads_msg f m rest fuel :
  follows g d f → reads g d bs f (m :: rest) → (2 ≤ fuel)%nat →
  ∃ f', _process fuel f = Some (Ok tt, f') ∧ follows g d f' ∧ reads g d bs f' rest ∧ out f' = out f ++ [m].
Proof.
  intros (Hr & Hd & Ha) Hrd Hfuel.
  assert (∀ f1, ready g f1 → disk f1 = d → cf f1 = cf f → out f1 = out f → cursor g bs f1 (m :: rest) →
    ∃ f', _process fuel f1 = Some (Ok tt, f') ∧ follows g d f' ∧ reads g d bs f' rest ∧ out f' = out f ++ [m]) as Hgo.
  { intros f1 Hr1 Hd1 Hc1 Ho1 Hcur. destruct (process_msg g Hg d bs Hl f1 m rest fuel Hr1 Hd1 Hcur Hfuel) as (o & e & H & Hcur').
    exists (delivered m (with_pos o e f1)). split; [done|]. split; [split_and!; [done|done|by cbn; rewrite Hc1]|]. split; [by left|].
    unfold delivered. cbn [out with_channel set_seq with_seqs with_pos]. by rewrite Ho1. }
  destruct Hrd as [Hc|(k & ms & Hk & Hf & Ho & He & Hrest)]; [by apply Hgo|].
  destruct (bs !! S k) as [ms'|] eqn:Hk'; [|rewrite drop_ge in Hrest by (by apply lookup_ge_None_1); done].
  destruct fuel as [|n]; [lia|]. destruct (process_enter k ms' n f Hr Hd Hk' Ho He) as [-> Hc].
  apply Hgo; try done. by rewrite Hrest.
Qed.

Lemma at_end_open f : autoclose (cf f) = false →
  ∃ f', at_end f = Some (Err EAGAIN, f') ∧ offset f' = offset f ∧ block_end f' = block_end f ∧
    (ready g f → ready g f') ∧ disk f' = disk f ∧ cf f' = cf f ∧ datas f' = datas f.
Proof.
  intros Ha. unfold at_end. rewrite !FM_bind_get. cbv zeta. destruct (negb (seq_eod f =? f_seq f)).
  - set (b := _ && _). destruct b.
    + unfold emit. rewrite !FM_bind_upd, Ha. eexists. split; [reflexivity|]. do 5 (split; [done|]).
      unfold datas. cbn [out with_channel set_seq_eod with_seqs]. by rewrite filter_app, app_nil_r.
    + rewrite FM_bind_ret, FM_bind_upd, Ha. eexists. split; [reflexivity|]. done.
  - eexists. split; [reflexivity|]. done.
Qed.

(** There is nothing to read yet. *)
Lemma reads_none f fuel :
  follows g d f → reads g d bs f [] → (2 ≤ fuel)%nat →
  ∃ f', _process fuel f = Some (Err EAGAIN, f') ∧ follows g d f' ∧ reads g d bs f' [] ∧ datas f' = datas f.
Proof.
  intros (Hr & Hd & Ha) Hrd Hfuel.
  assert (∀ f1, ready g f1 → disk f1 = d → cf f1 = cf f → out f1 = out f → cursor g bs f1 [] →
    ∃ f', _process fuel f1 = Some (Err EAGAIN, f') ∧ follows g d f' ∧ reads g d bs f' [] ∧ datas f' = datas f) as Hgo.
  { intros f1 Hr1 Hd1 Hc1 Ho1 Hcur. assert (autoclose (cf f1) = false) as Ha1 by (by rewrite Hc1).
    assert (datas f1 = datas f) as Ed by (unfold datas; by rewrite Ho1).
    destruct (process_end g Hg d bs Hl f1 fuel Hr1 Hd1 Hcur Hfuel) as (o & e & Htip & [Hp|Hp]); rewrite Hp.
    - destruct (at_end_open (with_pos o e f1) Ha1) as (f' & H & H1 & H2 & H3 & H4 & H5 & H6). exists f'. split; [done|].
      split; [split_and!; [by apply H3|by rewrite H4|by rewrite H5]|]. split; [|by rewrite H6].
      apply found_reads. right. split; [done|]. apply (tip_pos g d bs o e f1 f') in Htip. cbn in H1, H2. rewrite <-H1, <-H2, with_pos_same in Htip. done.
    - eexists. split; [reflexivity|]. split; [split_and!; done|]. split; [|by rewrite <-Ed].
      apply found_reads. right. split; [done|]. exact Htip. }
  destruct Hrd as [Hc|(k & ms & Hk & Hf & Ho & He & Hrest)]; [by apply Hgo|].
  destruct fuel as [|n]; [lia|]. destruct (bs !! S k) as [ms'|] eqn:Hk'.
  - destruct (process_enter k ms' n f Hr Hd Hk' Ho He) as [-> Hc]. apply Hgo; try done. by rewrite <-Hrest in Hc.
  - apply lookup_ge_None_1 in Hk'. exists f. split; [|split; [done|split; [right; by exists k, ms|done]]].
    assert ((offset f + io_block_size f =? block_end f) = true) as Hst.
    { destruct Hr as (_ & -> & _). rewrite Ho, He, (start_S g (S k)). apply Z.eqb_refl. }
    cbn [_process]. rewrite !FM_bind_get, Hst. rewrite (FM_bind_err _ _ f EAGAIN f); [done|].
    rewrite (FM_bind_err _ _ f EAGAIN f); [done|].
    apply (nocheck_quiet g Hg f (start g (S k))); [done| |done|by apply start_nonneg].
    rewrite Hd. by apply (l_behind _ _ _ Hl).
Qed.
End Process.
End Tail.
(** ** The file as a storage *)
Section Instance.
Context (g : geo) (v : Z) (s : option (list Z)) (Hg : geo_ok g).

Lemma body_length ms : 17 * zlen ms ≤ zlen (body g ms).
Proof.
  induction ms as [|m ms IH]; [done|]. rewrite zlen_body_cons, zlen_cons. pose proof (msize_pos m). lia.
Qed.

(** A file has more bytes than messages. *)
Lemma laid_count d bs : laid g d bs → zlen (concat bs) ≤ zlen d.
Proof.
  intros Hl. assert (∀ k, (k ≤ length bs)%nat → zlen (concat (take k bs)) ≤ start g k) as Hk.
  { induction k as [|k IH]; intros Hk; [done|]. destruct (lookup_lt_is_Some_2 bs k ltac:(lia)) as [ms Hx].
    rewrite (take_S_r bs k ms Hx), concat_app, zlen_app, start_S. cbn [concat]. rewrite app_nil_r. specialize (IH ltac:(lia)).
    destruct (l_block _ _ _ Hl k ms Hx) as (_ & Hu & _). unfold used in Hu. pose proof (hlen_pos g Hg k). pose proof (body_length ms).
    pose proof (zlen_nonneg ms). lia. }
  destruct (decide (concat bs = [])) as [->|Hne]; [apply zlen_nonneg|].
  destruct (last_data_ex bs Hne) as (K & m & ms & [HK Hc]).
  rewrite (concat_middle bs K _ HK), Hc, app_nil_r, zlen_app. specialize (Hk K ltac:(apply lookup_lt_Some in HK; lia)).
  destruct (l_block _ _ _ Hl K _ HK) as ([_ Hb] & _). pose proof (body_length (m :: ms)) as Hbl. pose proof (zlen_nonneg (m :: ms)). pose proof (hlen_pos g Hg K). pose proof (start_nonneg g Hg K).
  apply at_bound in Hb as [Hb|Hb]; [|lia|lia]. apply (f_equal zlen) in Hb. rewrite zlen_body_cons, zlen_nil in Hb.
  pose proof (msize_pos m). pose proof (zlen_nonneg (body g ms)). lia.
Qed.

(** The url of the reader: that of the writer with another direction, without its
    scheme, and not closing at the end. *)
Definition reader_conf (c : conf) : conf :=
  Conf true (block_init c) (version_init c) false (tail_extra_size c) (exact_last_seq c) (end_of_data c) None (scheme_load c).

Definition f_open (w : file) (seq : Z) : option (result errno file) :=
  let! (r, f) := open_read (2 * length (disk w) + 3) true (OpenParams ModeSeq (Some seq) false)
                   (new (reader_conf (cf w)) false (disk w) (limit w)) in
  Some (let? _ := r in Ok f).

Definition f_next (w rd : file) : option (option msg * file) :=
  let! (r, rd') := _process 2 (at_disk (disk w) rd) in
  Some (match r with Ok _ => last (out rd') | Err _ => None end, rd').

Definition f_log (w : file) (bs : list (list msg)) (l : list msg) : Prop :=
  log_at g v s w bs ∧ concat bs = l ∧ limit w < 2 ^ 63 ∧ from_option (scheme_load (cf w)) true s = true ∧
  AutoSeq.enable (f_autoseq w) = false.

Definition f_read (w : file) (bs : list (list msg)) (rd : file) (rest : list msg) : Prop :=
  ready g rd ∧ autoclose (cf rd) = false ∧ reads g (disk w) bs (at_disk (disk w) rd) rest.

Definition f_ok (w : file) (m : msg) : Prop := msg_ok m ∧ fits_any g m.

Lemma f_post_spec w bs l m : f_log w bs l → f_ok w m → ∃ r w' bs', _post 0 m w = Some (r, w') ∧
  (∀ x, f_ok w x → f_ok w' x) ∧
  match r with
  | Ok _ => f_log w' bs' (l ++ [kept m]) ∧ (∀ rd rest, f_read w bs rd rest → f_read w' bs' rd (rest ++ [kept m]))
  | Err _ => f_log w' bs' l ∧ (∀ rd rest, f_read w bs rd rest → f_read w' bs' rd rest)
  end.
Proof.
  intros (Hlog & <- & Hlim & Hload & Ha) (Hm & Hfit).
  assert (stored (f_autoseq w) m = kept m ∧ AutoSeq.update (f_autoseq w) m = (f_autoseq w, m)) as [Hst Hup].
  { unfold stored, AutoSeq.update. by rewrite Ha. }
  pose proof (fits_any_fits g (concat bs) (f_autoseq w) m Hfit) as Hfits.
  destruct (post_spec g v s w bs m 0 Hg Hlog Hm Hfits) as (r & w' & Hrun & Ha' & Hli & Hkeep & Hcf & Hr).
  exists r, w'. rewrite Hup in Ha'. cbn in Ha'. rewrite Hst in Hr.
  assert (∀ bs' new, log_at g v s w' bs' → concat bs' = concat bs ++ new → grown bs bs' →
    f_log w' bs' (concat bs ++ new) ∧ (∀ rd rest, f_read w bs rd rest → f_read w' bs' rd (rest ++ new))) as Hgo.
  { intros bs' new Hlog' Hc Hgr. split.
    - split; [done|]. rewrite Hli, Hcf, Ha'. done.
    - intros rd rest (Hrd & Hac & Hreads). split; [done|]. split; [done|].
      apply (reads_grow g Hg (disk w) (disk w') bs bs' new w (at_disk (disk w) rd) rest); try done; [apply Hlog|apply Hlog']. }
  destruct r as [[]|e].
  - destruct Hr as (_ & bs' & Hlog' & Hc & Hgr). exists bs'. split; [done|]. split; [done|]. by apply Hgo.
  - destruct Hr as (_ & bs' & Hlog' & Hc & Hgr). exists bs'. split; [done|]. split; [done|].
    destruct (Hgo bs' [] Hlog') as [H1 H2]; [by rewrite app_nil_r|done|]. rewrite app_nil_r in H1.
    split; [done|]. intros rd rest Hrd. specialize (H2 rd rest Hrd). by rewrite app_nil_r in H2.
Qed.

Lemma f_open_spec w bs l seq : f_log w bs l → ∃ rd, f_open w seq = Some (Ok rd) ∧ f_read w bs rd (from seq l).
Proof.
  intros (Hlog & <- & Hlim & Hload & Ha). pose proof (log_holds g v s w bs Hg Hlog) as Hh.
  destruct Hlog as (Hw & _ & _ & _ & _ & _ & Hinc). pose proof (laid_count _ _ (w_laid _ _ _ Hw)) as Hcnt.
  pose proof (w_limit _ _ _ Hw). set (fuel := (2 * length (disk w) + 3)%nat).
  assert (2 * length (concat bs) + 3 ≤ fuel)%nat as Hfuel by (unfold zlen in Hcnt; lia).
  set (c := reader_conf (cf w)). set (p := OpenParams ModeSeq (Some seq) false). set (f0 := new c false (disk w) (limit w)).
  destruct (open_read_spec g v s (disk w) bs f0 fuel p Hh eq_refl ltac:(lia) Hload ltac:(lia)) as (o & e & _ & Hr & Hd & Hopen).
  cbv zeta in Hopen. set (f1 := with_pos o e _) in *. cbn [p mode seq_param] in Hopen. destruct Hh as (_ & _ & _ & Hl).
  destruct (seek_spec g Hg (disk w) bs Hl (sorted_increasing _ Hinc) seq f1 fuel Hr Hd ltac:(lia) Hfuel) as (o' & e' & Hsk & Hf).
  assert (out f1 = [] ∧ autoclose (cf f1) = false) as [Ho1 Hac1] by (split; reflexivity). clearbody f1. set (f2 := with_pos o' e' (with_cache (zlen (disk w)) f1)) in *.
  assert (open_seek fuel seq f1 = Some (Ok tt, f2)) as Hs.
  { unfold open_seek. rewrite (FM_bind_attempt _ _ _ _ _ Hsk). by destruct (from seq (concat bs)). }
  exists (with_channel true (closed f2) (out f2) f2). split.
  - unfold f_open. fold fuel c p f0. rewrite Hopen. rewrite (FM_bind_ok _ _ _ _ _ Hs). reflexivity.
  - split; [exact Hr|]. split; [done|]. apply found_reads. exact Hf.
Qed.

Lemma at_disk_same d f : disk f = d → at_disk d f = f.
Proof. intros <-. by destruct f. Qed.

Lemma f_next_spec w bs l rd rest : f_log w bs l → f_read w bs rd rest →
  ∃ rd', f_next w rd = Some (head rest, rd') ∧ f_read w bs rd' (tail rest).
Proof.
  intros (Hlog & _) (Hr & Ha & Hrd). pose proof (w_laid _ _ _ (proj1 Hlog)) as Hl.
  assert (follows g (disk w) (at_disk (disk w) rd)) as Hf by done. unfold f_next. destruct rest as [|m rest].
  - destruct (reads_none g Hg (disk w) bs Hl _ 2 Hf Hrd ltac:(lia)) as (rd' & -> & (Hr' & Hd' & Ha') & Hrd' & _).
    exists rd'. split; [done|]. split; [done|]. split; [done|]. cbn [tail]. by rewrite (at_disk_same _ _ Hd').
  - destruct (reads_msg g Hg (disk w) bs Hl _ m rest 2 Hf Hrd ltac:(lia)) as (rd' & -> & (Hr' & Hd' & Ha') & Hrd' & Ho).
    exists rd'. split; [cbn; by rewrite Ho, last_snoc|]. split; [done|]. split; [done|]. cbn [tail]. by rewrite (at_disk_same _ _ Hd').
Qed.

Lemma f_log_spec w bs l : f_log w bs l → increasing l ∧ f_seq w = last_seq l ∧ seq_begin w = first_seq l.
Proof. intros (Hlog & <- & _). split_and!; apply Hlog. Qed.

#[export] Instance file_storage : Storage file file (list (list msg)) := {|
  st_post := _post 0; st_seq := f_seq; st_seq_begin := seq_begin; st_open := f_open; st_next := f_next;
  st_log := f_log; st_read := f_read; st_ok := f_ok; st_log_spec := f_log_spec;
  st_post_spec := f_post_spec; st_open_spec := f_open_spec; st_next_spec := f_next_spec;
|}.
End Instance.

(** A post and a read of a file, and a series of them. *)
Definition f_steps (g : geo) (v : Z) (s : option (list Z)) (Hg : geo_ok g) : list op → run file file → option (run file file) :=
  steps (H := file_storage g v s Hg).

(** C13: Reading while writing.  A reader is opened at the number [n] of a file that
    a writer has open; then messages are posted and read in any order.  What the reader
    has got is always a first part of the messages from [n] on that were there when it was
    opened, followed by those accepted since, and it is all of them when the reader
    has found nothing more to read. *)
Theorem file_follow g v s (Hg : geo_ok g) w bs l n os :
  f_log g v s w bs l → Forall (λ o, match o with Post m => msg_ok m ∧ fits_any g m | Read => True end) os →
  ∃ rd x, f_open w n = Some (Ok rd) ∧ f_steps g v s Hg os (Run w rd [] [] false) = Some x ∧
    got x `prefix_of` from n l ++ put x ∧ (idle x = true → got x = from n l ++ put x) ∧
    ∃ bs', f_log g v s (r_w x) bs' (l ++ put x).
Proof.
  intros Hlog Hok. destruct (f_open_spec g v s Hg w bs l n Hlog) as (rd & Hopen & Hrd).
  destruct (steps_following (H := file_storage g v s Hg) l (from n l) os (Run w rd [] [] false)) as (x & Hx & bs' & rest & Hl & _ & Hgot & Hidle).
  - exists bs, (from n l). cbn. rewrite !app_nil_r. done.
  - eapply Forall_impl; [exact Hok|]. intros [m|]; done.
  - exists rd, x. split; [done|]. split; [done|]. split; [by exists rest|]. split; [|by exists bs'].
    intros Hi. by rewrite <-Hgot, (Hidle Hi), app_nil_r.
Qed.

(** The writer of [FileSpec.sample_conf]. *)
Definition sample_writer_file : file :=
  match open_write 10 false default_open (new sample_conf false [] 4096) with Some (_, f) => f | None => new sample_conf false [] 4096 end.

Lemma sample_geo_ok : geo_ok sample_geo.
Proof. apply (create_geo sample_geo sample_conf sample_ok). Qed.

(** Posts with reads between them, until the reader finds nothing. *)
Definition sample_ops : list op := [Read; Post (mk_data 10 1 (replicate 60 7)); Post (mk_data 20 5 (replicate 40 8)); Read; Read; Read; Post (mk_data 30 6 [1]); Read].

Lemma file_follow_witness :
  ∃ rd x, f_open sample_writer_file 0 = Some (Ok rd) ∧ f_steps sample_geo 1 None sample_geo_ok sample_ops (Run sample_writer_file rd [] [] false) = Some x ∧
    got x `prefix_of` from 0 [] ++ put x ∧ (idle x = true → got x = from 0 [] ++ put x) ∧
    ∃ bs', f_log sample_geo 1 None (r_w x) bs' ([] ++ put x).
Proof.
  apply (file_follow sample_geo 1 None sample_geo_ok sample_writer_file [[]] [] 0 sample_ops).
  - destruct (file_create_spec sample_geo sample_conf false [] 4096 10 false default_open sample_ok) as (f & Hopen & Hlog & Ha & Hl); [cbn; lia|lia|done|].
    assert (f = sample_writer_file) as -> by (unfold sample_writer_file; by rewrite Hopen).
    split; [exact Hlog|]. split; [done|]. split; [rewrite Hl; lia|]. split; [done|by rewrite Ha].
  - unfold sample_ops. repeat (apply Forall_cons; split; [first [exact I|split; [repeat split; cbn; lia|split; [vm_compute; discriminate|left; vm_compute; discriminate]]]|]). by apply Forall_nil.
Defined.

End FileTail.
