(* ===== verification/Rotate.v ===== *)
(** * Rotated storage

    src/channel/rotate.cc and src/channel/rotate.h over any [Storage], which is what one file is: the map of files,
    a writer that starts a new file, and a reader in the same process (a channel that has the writer as its master), which goes from file to
    file while they are written.  Conversion of messages between schemes is left out, and so are automatic numbers ([AutoSeq]).

    Iterators of the map are keys; the content of a file is kept with its entry. *)
From S2P Require Import Prelude Callback Channel Storage.
Import Cb Chan.

Module Rotate.

(** File names: prefix.current.dat and prefix.KEY.dat. *)
Inductive name := Current | Dated (key : Z).

#[export] Instance name_eq_dec : EqDecision name.
Proof. solve_decision. Defined.

(** What the user of the reader sees. *)
Inductive event := Data (m : msg) | EndOfData | Rotated.

Inductive op :=
| Post (m : msg)                (* the user of the writer posts *)
| PostRotate                    (* and asks for a new file *)
| Open (seq : option Z)         (* the reader is opened *)
| Child                         (* its file is processed *)
| Process.                      (* it is processed itself *)

Section Rotate.
Context {W R G : Type} `{Storage.Storage W R G}.
(** A file that has just been created. *)
Variable fresh : W.
(** filename-key and autoclose *)
Variables (key_first autoclose : bool).

(** *** State *)
Record file := File { f_key : Z; f_name : name; f_last : Z; f_current : bool; f_data : W }.

Record files := Files { f_map : list file; seq_first : Z; seq_last : Z }.

(** [accepted] records the messages whose post has succeeded. *)
Record writer := Writer { w_file : option Z; _current_empty : bool; accepted : list msg }.

(** [child] is the file that is open (its key), its reader and whether it has reported the end of data. *)
Record reader := Reader {
  r_state : state;
  _current_file : option Z;
  child : option (Z * R * bool);
  _open_cfg : name * Z;
  _seq_last : Z;
  _seq_close : Z;
  notified : bool;
  _end_of_data : bool;
  out : list event;
}.

Record sys := Sys { fs : files; wr : writer; rd : reader }.

Definition with_rd (f : reader → reader) (x : sys) : sys := Sys (fs x) (wr x) (f (rd x)).
Definition set_state (s : state) (r : reader) : reader :=
  Reader s (_current_file r) (child r) (_open_cfg r) (_seq_last r) (_seq_close r) (notified r) (_end_of_data r) (out r).
Definition set_child (c : option (Z * R * bool)) (r : reader) : reader :=
  Reader (r_state r) (_current_file r) c (_open_cfg r) (_seq_last r) (_seq_close r) (notified r) (_end_of_data r) (out r).
Definition set_notified (b : bool) (r : reader) : reader :=
  Reader (r_state r) (_current_file r) (child r) (_open_cfg r) (_seq_last r) (_seq_close r) b (_end_of_data r) (out r).
Definition set_seq_last (s : Z) (r : reader) : reader :=
  Reader (r_state r) (_current_file r) (child r) (_open_cfg r) s (_seq_close r) (notified r) (_end_of_data r) (out r).
Definition set_seq_close (s : Z) (r : reader) : reader :=
  Reader (r_state r) (_current_file r) (child r) (_open_cfg r) (_seq_last r) s (notified r) (_end_of_data r) (out r).
Definition set_eod (r : reader) : reader :=
  Reader (r_state r) (_current_file r) (child r) (_open_cfg r) (_seq_last r) (_seq_close r) (notified r) true (out r).
Definition callback (e : event) (r : reader) : reader :=
  Reader (r_state r) (_current_file r) (child r) (_open_cfg r) (_seq_last r) (_seq_close r) (notified r) (_end_of_data r) (out r ++ [e]).

(** *** The map of files *)
Definition seq_close (f : file) : Z := if f_current f then -1 else f_last f.

(** The position of a key. *)
Fixpoint find_key (k : Z) (l : list file) : option nat :=
  match l with
  | [] => None
  | f :: l => if f_key f =? k then Some O else S <$> find_key k l
  end.

Definition entry (k : Z) (l : list file) : option file := let! i := find_key k l in l !! i.

Fixpoint find_name (n : name) (l : list file) : option file :=
  match l with
  | [] => None
  | f :: l => if bool_decide (f_name f = n) then Some f else find_name n l
  end.

(** How many keys are not greater. *)
Fixpoint upper_bound (s : Z) (l : list file) : nat :=
  match l with
  | [] => O
  | f :: l => if s <? f_key f then O else S (upper_bound s l)
  end.

(** An element with a key that is there already is not inserted. *)
Fixpoint emplace (f : file) (l : list file) : list file :=
  match l with
  | [] => [f]
  | g :: l' => if f_key f <? f_key g then f :: l else if f_key f =? f_key g then l else g :: emplace f l'
  end.

Definition with_data (d : W) (f : file) : file := File (f_key f) (f_name f) (f_last f) (f_current f) d.
Definition with_map (l : list file) (fs : files) : files := Files l (seq_first fs) (seq_last fs).

(** *** Writer *)
Definition _post (m : msg) (x : sys) : option (result errno unit * sys) :=
  let! k := w_file (wr x) in
  let! i := find_key k (f_map (fs x)) in
  let! f := f_map (fs x) !! i in
  let! (r, d) := Storage.st_post m (f_data f) in
  let l := <[i := with_data d f]> (f_map (fs x)) in
  Some (match r with
        | Err e => (Err e, Sys (with_map l (fs x)) (wr x) (rd x))
        | Ok _ =>
            let first := if _current_empty (wr x) && (seq_first (fs x) =? -1) then m_seq m else seq_first (fs x) in
            (Ok tt, Sys (Files l first (m_seq m)) (Writer (w_file (wr x)) false (accepted (wr x) ++ [Storage.kept m])) (rd x))
        end).

(** [notify]: the reader asks to be processed. *)
Definition notify (r : reader) : reader := if bool_decide (r_state r = Active) then set_notified true r else r.

(** The first part of [_rotate]: the file is closed and renamed, its readers are told. *)
Definition rotate_close (x : sys) : option sys :=
  let! k := w_file (wr x) in
  let! i := find_key k (f_map (fs x)) in
  let! f := f_map (fs x) !! i in
  let key := if key_first then Storage.st_seq_begin (f_data f) else Storage.st_seq (f_data f) in
  let r := if bool_decide (_current_file (rd x) = Some k) then notify (rd x) else rd x in
  let f := File (f_key f) (Dated key) (seq_last (fs x)) false (f_data f) in
  Some (Sys (with_map (<[i := f]> (f_map (fs x))) (fs x)) (Writer None (_current_empty (wr x)) (accepted (wr x))) r).

(** The second part: the new file is created, and [_on_active] enters it in the map. *)
Definition rotate_open (x : sys) : sys :=
  let k := seq_last (fs x) + 1 in
  Sys (with_map (emplace (File k Current (-1) true fresh) (f_map (fs x))) (fs x)) (Writer (Some k) true (accepted (wr x))) (rd x).

Definition _post_rotate (x : sys) : option sys :=
  if _current_empty (wr x) then Some x else let! x := rotate_close x in Some (rotate_open x).

(** *** Reader *)

(** [_child->open(_open_cfg)], and [_on_active] when it has succeeded. *)
Definition open_child (x : sys) : option sys :=
  let (n, s) := _open_cfg (rd x) in
  match find_name n (f_map (fs x)) with
  | None => Some (with_rd (set_state Error) x)
  | Some f =>
      let! r := Storage.st_open (f_data f) s in
      Some (match r with
            | Err _ => with_rd (set_state Error) x
            | Ok c => with_rd (λ r, set_state Active (set_child (Some (f_key f, c, false)) r)) x
            end)
  end.

(** The reader is to open [f] at [s]. *)
Definition select (f : file) (s : Z) (r : reader) : reader :=
  Reader (r_state r) (Some (f_key f)) None (f_name f, s) (_seq_last r) (seq_close f) (notified r) (_end_of_data r) (out r).

Definition _seek (s : Z) (x : sys) : option sys :=
  match upper_bound s (f_map (fs x)) with
  | O => Some (with_rd (set_state Error) x)
  | S i =>
      let! f := f_map (fs x) !! i in
      open_child (with_rd (select f s) x)
  end.

Definition _open (seq : option Z) (x : sys) : option sys :=
  let x := with_rd (λ r, Reader Opening None None (Current, -1) (seq_last (fs x)) (-1) false false (out r)) x in
  match f_map (fs x) with
  | [] => Some (with_rd (set_state Error) x)
  | f :: _ =>
      match seq with
      | Some s => if s =? -1 then open_child (with_rd (select f (seq_first (fs x))) x) else _seek s x
      | None => open_child (with_rd (select f (seq_first (fs x))) x)
      end
  end.

(** The child is closed: the next file, or the end. *)
Definition _on_closed (x : sys) : option sys :=
  let! k := _current_file (rd x) in
  let! i := find_key k (f_map (fs x)) in
  Some (match f_map (fs x) !! S i with
        | None => with_rd (λ r, set_notified false (set_state Closed (set_child None r))) x
        | Some f => with_rd (λ r, callback Rotated (notify (select f (f_key f) r))) x
        end).

Definition _on_data (m : msg) (r : reader) : reader :=
  let r := set_seq_last (m_seq m) r in
  let r := if m_seq m =? _seq_close r then notify r else r in
  callback (Data m) r.

Definition child_close (x : sys) : option sys := _on_closed (with_rd (set_child None) x).

(** [_on_other] with the end of data of the child. *)
Definition _on_other (x : sys) : option sys :=
  let! k := _current_file (rd x) in
  let! f := entry k (f_map (fs x)) in
  if f_current f then
    let x := if _end_of_data (rd x) then x else with_rd (λ r, callback EndOfData (set_eod r)) x in
    if autoclose then child_close x else Some x
  else child_close x.

(** One call of process of the child: a message, or the end of data, which it reports once; with autoclose it closes there. *)
Definition child_process (x : sys) : option sys :=
  let! (k, c, eod) := child (rd x) in
  let! f := entry k (f_map (fs x)) in
  let! (m, c) := Storage.st_next (f_data f) c in
  match m with
  | Some m => Some (with_rd (λ r, _on_data m (set_child (Some (k, c, eod)) r)) x)
  | None =>
      let x := with_rd (set_child (Some (k, c, true))) x in
      if (eod : bool) then Some x else if autoclose then child_close x else _on_other x
  end.

Definition _process (x : sys) : option sys :=
  let x := with_rd (set_notified false) x in
  match child (rd x) with
  | None => open_child x
  | Some _ =>
      let! k := _current_file (rd x) in
      let! f := entry k (f_map (fs x)) in
      if f_current f then Some x else
      let x := with_rd (set_seq_close (f_last f)) x in
      if _seq_last (rd x) <? f_last f then Some x else child_close x
  end.

(** *** Runs *)
Definition step (o : op) (x : sys) : option sys :=
  match o with
  | Post m => let! (_, x) := _post m x in Some x
  | PostRotate => _post_rotate x
  | Open s => if bool_decide (r_state (rd x) = Closed) then _open s x else Some x
  | Child => if bool_decide (r_state (rd x) = Active) && bool_decide (is_Some (child (rd x))) then child_process x else Some x
  | Process => if bool_decide (r_state (rd x) = Active) && notified (rd x) then _process x else Some x
  end.

Fixpoint run (os : list op) (x : sys) : option sys :=
  match os with [] => Some x | o :: os => let! x := step o x in run os x end.

Definition delivered (l : list event) : list msg := omap (λ e, match e with Data m => Some m | _ => None end) l.

End Rotate.

Arguments file : clear implicits.
Arguments files : clear implicits.
Arguments reader : clear implicits.
Arguments sys : clear implicits.
End Rotate.
