(* ===== verification/RotateSpec.v ===== *)
(** * Rotated storage: the log over the files, and a reader that follows

    The files of a writer hold its log piece by piece ([chain]); a reader goes through them while
    messages are posted and files are rotated. *)
From Stdlib Require Import Sorted.
From S2P Require Import Prelude Callback Channel Storage Rotate.
Import Cb Chan Storage.

Module RotateSpec.
Import Rotate.

Section Spec.
Context {W R G : Type} `{Storage W R G}.
Variables (fresh : W) (g0 : G) (key_first : bool).
Hypothesis fresh_log : st_log fresh g0 [].

Abbreviation file := (file W).
Abbreviation sys := (sys W R).
Abbreviation reader := (reader R).

(** ** The log over the files *)
Definition date (l : list msg) : Z := if key_first then first_seq l else last_seq l.

Record piece_ok (lo : Z) (f : file) (g : G) (l : list msg) : Prop := {
  pc_log : st_log (f_data f) g l;
  pc_lo : lo ≤ f_key f;
  pc_key : Forall (λ m, f_key f ≤ m_seq m) l;
}.

Fixpoint chain (lo : Z) (fs : list file) (gl : list (G * list msg)) : Prop :=
  match fs, gl with
  | f :: fs', (g, l) :: gl' =>
      piece_ok lo f g l ∧
      match fs' with
      | [] => gl' = [] ∧ f_current f = true ∧ f_name f = Current
      | _ => f_current f = false ∧ f_name f = Dated (date l) ∧ l ≠ [] ∧ f_last f = last_seq l ∧ chain (last_seq l + 1) fs' gl'
      end
  | _, _ => False
  end.

Definition log_of (gl : list (G * list msg)) : list msg := concat (snd <$> gl).

(** ** Logs *)
Lemma last_seq_in l : l ≠ [] → ∃ m, m ∈ l ∧ last_seq l = m_seq m.
Proof.
  intros Hl. unfold last_seq. destruct (last l) as [m|] eqn:Em; [|by apply last_None in Em].
  exists m. split; [by apply last_Some_elem_of|done].
Qed.

Lemma first_seq_in l : l ≠ [] → ∃ m, m ∈ l ∧ first_seq l = m_seq m.
Proof. intros Hl. destruct l as [|m l]; [done|]. exists m. split; [by left|done]. Qed.

Lemma last_seq_max l m : sorted l → m ∈ l → m_seq m ≤ last_seq l.
Proof.
  intros Hs Hm. destruct (last l) as [x|] eqn:Ex; [|apply last_None in Ex as ->; by apply not_elem_of_nil in Hm].
  apply last_Some in Ex as (k & ->). rewrite last_seq_app. apply elem_of_app in Hm as [Hm|Hm].
  - apply sorted_app in Hs as [_ Hs]. specialize (Hs m x Hm). apply Z.lt_le_incl, Hs. by left.
  - by apply list_elem_of_singleton in Hm as ->.
Qed.

Lemma sorted_join a b : sorted a → sorted b → (∀ x y, x ∈ a → y ∈ b → m_seq x < m_seq y) → sorted (a ++ b).
Proof.
  intros Ha Hb Hab. induction Ha as [|m a Ha IH Hm]; cbn; [done|]. constructor.
  - apply IH. intros x y Hx. apply Hab. by right.
  - apply Forall_app. split; [done|]. apply Forall_forall. intros y Hy. apply Hab; [by left|done].
Qed.

Lemma last_seq_app_ne a b : b ≠ [] → last_seq (a ++ b) = last_seq b.
Proof. intros Hb. unfold last_seq. rewrite last_app. destruct (last b) eqn:Eb; [done|by apply last_None in Eb]. Qed.

Lemma chain_cons lo f fs g l gl : fs ≠ [] →
  chain lo (f :: fs) ((g, l) :: gl) ↔
  piece_ok lo f g l ∧ f_current f = false ∧ f_name f = Dated (date l) ∧ l ≠ [] ∧ f_last f = last_seq l ∧ chain (last_seq l + 1) fs gl.
Proof. by destruct fs. Qed.

Lemma chain_sorted fs : ∀ lo gl, chain lo fs gl → sorted (log_of gl) ∧ Forall (λ m, lo ≤ m_seq m) (log_of gl) ∧ length gl = length fs.
Proof.
  induction fs as [|f fs IH]; intros lo [|[g l] gl]; [done..|]. intros [[Hl Hlo Hk] Hr].
  destruct (st_log_spec _ _ _ Hl) as ([Hs Hp] & _).
  assert (Forall (λ m, lo ≤ m_seq m) l) as Hll by (eapply Forall_impl; [exact Hk|cbn; lia]).
  destruct fs as [|f' fs].
  - destruct Hr as (-> & _). unfold log_of. cbn. by rewrite app_nil_r.
  - destruct Hr as (_ & _ & Hne & _ & Hc). destruct (IH _ _ Hc) as (Hs' & Hlo' & Hlen).
    unfold log_of in *. cbn [fmap list_fmap snd concat]. destruct (last_seq_in l Hne) as (x & Hx & Ex).
    assert (lo ≤ last_seq l). { rewrite Ex. rewrite Forall_forall in Hll. by apply Hll. }
    split_and!.
    + apply sorted_join; [done..|]. intros y z Hy Hz. rewrite Forall_forall in Hlo'. specialize (Hlo' z Hz).
      pose proof (last_seq_max l y Hs Hy). cbn in Hlo'. lia.
    + apply Forall_app. split; [done|]. eapply Forall_impl; [exact Hlo'|]. cbn. lia.
    + cbn in *. lia.
Qed.

Lemma piece_last lo f g l : piece_ok lo f g l → l ≠ [] → lo ≤ f_key f ≤ date l ∧ date l ≤ last_seq l.
Proof.
  intros [Hl Hlo Hk] Hne. destruct (st_log_spec _ _ _ Hl) as ([Hs _] & _). rewrite Forall_forall in Hk.
  destruct (last_seq_in l Hne) as (m & Hm & Em). destruct (first_seq_in l Hne) as (m' & Hm' & Em').
  pose proof (Hk m Hm). pose proof (Hk m' Hm'). pose proof (last_seq_max l m' Hs Hm'). unfold date. destruct key_first; lia.
Qed.

(** What the map says of the file at a position. *)
Lemma chain_at fs : ∀ lo gl i f, chain lo fs gl → fs !! i = Some f →
  lo ≤ f_key f ∧ find_key (f_key f) fs = Some i ∧ find_name (f_name f) fs = Some f ∧
  (f_name f = Current ∨ ∃ d, f_name f = Dated d ∧ lo ≤ d) ∧
  ∃ g l, gl !! i = Some (g, l) ∧ piece_ok lo f g l ∧
    (if decide (S i = length fs) then f_current f = true else f_current f = false ∧ l ≠ [] ∧ f_last f = last_seq l).
Proof.
  induction fs as [|f0 fs IH]; intros lo [|[g0' l0] gl] i f; [done..|]. intros Hc Hf. destruct i as [|i]; cbn in Hf.
  - injection Hf as <-. cbn [find_key find_name lookup list_lookup]. rewrite Z.eqb_refl, bool_decide_true by done.
    destruct (decide (fs = [])) as [->|Hne].
    + destruct Hc as (Hp & -> & Hcur & Hname). split_and!; [apply Hp|done|done|by left|].
      exists g0', l0. split_and!; [done|done|]. by rewrite decide_True.
    + apply chain_cons in Hc as (Hp & Hcur & Hname & Hl & Hlast & _); [|done]. pose proof (piece_last _ _ _ _ Hp Hl).
      split_and!; [lia|done|done|right; eexists; split; [exact Hname|lia]|].
      exists g0', l0. split_and!; [done|done|]. rewrite decide_False; [done|]. destruct fs; cbn; [done|lia].
  - assert (fs ≠ []) as Hne by by destruct fs. apply chain_cons in Hc as (Hp & Hcur & Hname & Hl & Hlast & Hc); [|done].
    pose proof (piece_last _ _ _ _ Hp Hl). destruct (IH _ _ _ _ Hc Hf) as (H1 & H2 & H3 & H4 & g & l & H5 & [P1 P2 P3] & H6).
    cbn [find_key find_name]. rewrite (proj2 (Z.eqb_neq _ _)) by lia. rewrite H2. rewrite bool_decide_false.
    2:{ rewrite Hname. destruct H4 as [->|(d & -> & ?)]; [done|]. intros [= Ed]. lia. }
    split_and!; [lia|done|done|destruct H4 as [?|(d & ? & ?)]; [by left|right; exists d; split; [done|lia]]|].
    exists g, l. split_and!; [done|split; [done|lia|done]|]. cbn [length]. destruct (decide (S i = length fs)).
    + by rewrite decide_True by lia.
    + by rewrite decide_False by lia.
Qed.

Lemma chain_entry fs lo gl i f : chain lo fs gl → fs !! i = Some f → entry (f_key f) fs = Some f.
Proof. intros Hc Hf. destruct (chain_at _ _ _ _ _ Hc Hf) as (_ & Hk & _). unfold entry. by rewrite Hk. Qed.

(** The last file is the current one. *)
Lemma chain_last_file fs lo gl : chain lo fs gl → ∃ olds cur gls g l, fs = olds ++ [cur] ∧ gl = gls ++ [(g, l)] ∧ length gls = length olds.
Proof.
  intros Hc. destruct (chain_sorted _ _ _ Hc) as (_ & _ & Hlen).
  destruct fs as [|cur olds _] using rev_ind; [by destruct gl|]. destruct gl as [|[g l] gls _] using rev_ind; [rewrite length_app in Hlen; cbn in Hlen; lia|].
  exists olds, cur, gls, g, l. split_and!; [done..|]. rewrite !length_app in Hlen. cbn in Hlen. lia.
Qed.

Lemma chain_update olds cur cur' gls g l g' l' : ∀ lo,
  chain lo (olds ++ [cur]) (gls ++ [(g, l)]) → length gls = length olds →
  (∀ lo, piece_ok lo cur g l → piece_ok lo cur' g' l') → f_current cur' = true → f_name cur' = Current →
  chain lo (olds ++ [cur']) (gls ++ [(g', l')]).
Proof.
  revert gls. induction olds as [|f olds IH]; intros [|[gf lf] gls] lo Hc Hlen Hp H1 H2; try done.
  - destruct Hc as (Hc & _). split; [by apply Hp|done].
  - cbn [app] in *. apply chain_cons in Hc; [|by destruct olds]. apply chain_cons; [by destruct olds|].
    destruct Hc as (? & ? & ? & ? & ? & Hc). split_and!; try done. apply IH; [done|by injection Hlen|done..].
Qed.

Lemma chain_rotate olds cur cur' new gls g l g' : ∀ lo,
  chain lo (olds ++ [cur]) (gls ++ [(g, l)]) → length gls = length olds → l ≠ [] →
  f_data cur' = f_data cur → f_key cur' = f_key cur → f_current cur' = false → f_name cur' = Dated (date l) → f_last cur' = last_seq l →
  (∀ lo, lo ≤ last_seq l + 1 → piece_ok lo new g' []) → f_current new = true → f_name new = Current →
  chain lo (olds ++ [cur'; new]) (gls ++ [(g, l); (g', [])]).
Proof.
  revert gls. induction olds as [|f olds IH]; intros [|[gf lf] gls] lo Hc Hlen Hl E1 E2 E3 E4 E5 Hp H1 H2; try done.
  - destruct Hc as ([P1 P2 P3] & _). cbn [app]. apply chain_cons; [done|]. split_and!; try done.
    + split; [by rewrite E1|by rewrite E2|by rewrite E2].
    + split; [apply Hp; lia|done].
  - cbn [app] in *. apply chain_cons in Hc; [|by destruct olds]. apply chain_cons; [by destruct olds|].
    destruct Hc as (? & ? & ? & ? & ? & Hc). split_and!; try done. apply IH; try done. by injection Hlen.
Qed.

Lemma emplace_snoc f (l : list file) : Forall (λ g, f_key g < f_key f) l → emplace f l = l ++ [f].
Proof.
  induction 1 as [|g l Hg _ IH]; cbn; [done|]. rewrite (proj2 (Z.ltb_ge _ _)), (proj2 (Z.eqb_neq _ _)) by lia. by rewrite IH.
Qed.

Lemma chain_keys_below fs lo gl : chain lo fs gl → ∀ n, last_seq (log_of gl) < n → (∀ i g l, gl !! i = Some (g, l) → S i = length fs → l ≠ []) →
  Forall (λ f, f_key f < n) fs.
Proof.
  intros Hc n Hn Hne. apply Forall_forall. intros f Hf. apply list_elem_of_lookup_1 in Hf as [i Hf].
  destruct (chain_at _ _ _ _ _ Hc Hf) as (_ & _ & _ & _ & g & l & Hg & Hp & Hcur).
  assert (l ≠ []) as Hl by (destruct (decide (S i = length fs)); [by eapply Hne|apply Hcur]).
  destruct (last_seq_in l Hl) as (m & Hm & _). destruct Hp as [_ _ Hk]. rewrite Forall_forall in Hk. specialize (Hk m Hm).
  destruct (chain_sorted _ _ _ Hc) as (Hs & _). pose proof (last_seq_max (log_of gl) m Hs) as Hmax.
  assert (m ∈ log_of gl) as Hin. { apply list_elem_of_In, List.in_concat. exists l. split; apply list_elem_of_In; [|done].
    apply list_elem_of_fmap. exists (g, l). split; [done|]. by eapply list_elem_of_lookup_2. }
  specialize (Hmax Hin). cbn in Hk. lia.
Qed.

(** ** Seeking *)
Lemma from_ge s l : Forall (λ m, s ≤ m_seq m) l → from s l = l.
Proof.
  unfold from. induction 1 as [|m l Hm _ IH]; [done|]. rewrite filter_cons_True by done. by rewrite IH.
Qed.

Lemma from_lt s l : Forall (λ m, m_seq m < s) l → from s l = [].
Proof. intros Hl. pose proof (from_below s l [] Hl) as Hb. by rewrite app_nil_r in Hb. Qed.

Lemma chain_key lo f fs gl : chain lo (f :: fs) gl → chain (f_key f) (f :: fs) gl.
Proof. destruct gl as [|[g l] gl]; [done|]. intros ([P1 P2 P3] & Hr). split; [by split|done]. Qed.

Definition tail_log (i : nat) (gl : list (G * list msg)) : list msg := log_of (drop (S i) gl).

Lemma seek_position s fs : ∀ lo gl i, chain lo fs gl → upper_bound s fs = S i →
  ∃ f g l, fs !! i = Some f ∧ gl !! i = Some (g, l) ∧ f_key f ≤ s ∧ from s (log_of gl) = from s l ++ tail_log i gl.
Proof.
  induction fs as [|f fs IH]; intros lo [|[g l] gl] i; [done..|]. intros Hc. cbn [upper_bound].
  destruct (Z.ltb_spec s (f_key f)) as [|Hle]; [done|]. intros [= Hi]. unfold log_of at 1. cbn [fmap list_fmap snd concat].
  rewrite from_app. destruct (decide (fs = [])) as [->|Hne].
  - cbn in Hi. subst i. destruct Hc as (_ & -> & _). exists f, g, l. split_and!; try done.
  - apply chain_cons in Hc as (Hp & _ & _ & Hl & _ & Hc); [|done]. destruct i as [|i].
    + exists f, g, l. split_and!; try done. f_equal. unfold tail_log. cbn [drop]. apply from_ge.
      destruct fs as [|f' fs]; [done|]. cbn in Hi. destruct (Z.ltb_spec s (f_key f')); [|done].
      apply chain_key in Hc. destruct (chain_sorted _ _ _ Hc) as (_ & Hf & _). eapply Forall_impl; [exact Hf|cbn; lia].
    + destruct (IH _ _ _ Hc Hi) as (f' & g' & l' & H1 & H2 & H3 & H4). exists f', g', l'. split_and!; [done..|].
      fold (log_of gl). rewrite H4. rewrite (from_lt s l); [done|].
      destruct (chain_at _ _ _ _ _ Hc H1) as (Hlo & _). destruct Hp as [Hp _ _]. destruct (st_log_spec _ _ _ Hp) as ([Hs _] & _).
      apply Forall_forall. intros m Hm. pose proof (last_seq_max l m Hs Hm). lia.
Qed.

(** ** Invariant *)
Record writer_ok (x : sys) (gl : list (G * list msg)) (log0 : list msg) : Prop := {
  wo_chain : ∃ lo, chain lo (f_map (fs x)) gl;
  wo_log : log_of gl = log0 ++ accepted (wr x);
  wo_last : seq_last (fs x) = last_seq (log_of gl);
  wo_first : seq_first (fs x) = first_seq (log_of gl);
  wo_file : ∀ cur, last (f_map (fs x)) = Some cur →
    w_file (wr x) = Some (f_key cur) ∧ f_key cur ≤ seq_last (fs x) + 1 ∧ ∀ m, st_ok fresh m → st_ok (f_data cur) m;
  wo_empty : ∀ g l, last gl = Some (g, l) → _current_empty (wr x) = bool_decide (l = []);
}.

(** The child reads the file [f] with the log [l], of which [u] is in front of it; [t] is what follows in later files. *)
Record reading (r : reader) (f : file) (g : G) (l t : list msg) (want : list msg) (c : R) (eod : bool) (u : list msg) : Prop := {
  rg_read : st_read (f_data f) g c u;
  rg_part : u `suffix_of` l;
  rg_want : want = delivered (out r) ++ u ++ t;
  rg_ahead : delivered (out r) ≠ [] → Forall (λ m, _seq_last r < m_seq m) (u ++ t);
  rg_end : u = [] → last_seq l ≤ _seq_last r;
  rg_woken : f_current f = false → eod = false ∨ notified r = true ∨ (_seq_close r = f_last f ∧ u ≠ []);
  rg_close : f_current f = false → notified r = true → u ≠ [] → _seq_last r < f_last f;
}.

(** The child is closed and is going to be opened at the start of [f]. *)
Record waiting (r : reader) (f : file) (l t : list msg) (want : list msg) : Prop := {
  wt_notified : notified r = true;
  wt_cfg : _open_cfg r = (f_name f, f_key f);
  wt_want : want = delivered (out r) ++ l ++ t;
  wt_ahead : delivered (out r) ≠ [] → Forall (λ m, _seq_last r < m_seq m) (l ++ t);
}.

Definition phase (r : reader) (f : file) (g : G) (l t : list msg) (want : list msg) : Prop :=
  match child r with
  | None => waiting r f l t want
  | Some (k, c, eod) => k = f_key f ∧ ∃ u, reading r f g l t want c eod u
  end.

Record reader_ok (x : sys) (gl : list (G * list msg)) (want : list msg) (i : nat) : Prop := {
  rk_state : r_state (rd x) = Active;
  rk_last : -1 ≤ _seq_last (rd x) ≤ seq_last (fs x);
  rk_phase : ∃ f g l, f_map (fs x) !! i = Some f ∧ gl !! i = Some (g, l) ∧ _current_file (rd x) = Some (f_key f) ∧
    phase (rd x) f g l (tail_log i gl) want;
}.

Definition inv (log0 want0 : list msg) (x : sys) : Prop :=
  ∃ gl i, writer_ok x gl log0 ∧ reader_ok x gl (want0 ++ accepted (wr x)) i.

(** The reader has not just been opened on a file that is closed before it has read anything, and is not on its way to it. *)
Definition calm (x : sys) : Prop :=
  _current_empty (wr x) = false → r_state (rd x) = Active → _current_file (rd x) = w_file (wr x) →
  match child (rd x) with
  | None => False
  | Some (k, c, _) =>
      delivered (out (rd x)) ≠ [] ∨ _seq_last (rd x) < seq_last (fs x) ∨
      ∃ f c', entry k (f_map (fs x)) = Some f ∧ st_next (f_data f) c = Some (None, c')
  end.

Definition legal (o : op) (x : sys) : Prop :=
  match o with
  | Post m => seq_last (fs x) < m_seq m ∧ 0 ≤ m_seq m ∧ st_ok fresh m
  | PostRotate => calm x
  | _ => True
  end.

Fixpoint legal_run (os : list op) (x : sys) : Prop :=
  match os with
  | [] => True
  | o :: os => legal o x ∧ ∀ x', step fresh key_first false o x = Some x' → legal_run os x'
  end.

Lemma tail_log_snoc i gls g l : tail_log i (gls ++ [(g, l)]) = if decide (i < length gls)%nat then tail_log i gls ++ l else [].
Proof.
  unfold tail_log, log_of. destruct (decide (i < length gls)%nat).
  - rewrite drop_app_le by lia. rewrite fmap_app, concat_app. cbn. by rewrite app_nil_r.
  - rewrite drop_ge; [done|]. rewrite length_app. cbn. lia.
Qed.

Lemma log_of_snoc gls g l : log_of (gls ++ [(g, l)]) = log_of gls ++ l.
Proof. unfold log_of. rewrite fmap_app, concat_app. cbn. by rewrite app_nil_r. Qed.

(** ** The writer *)
Record tail_form (x : sys) (gl : list (G * list msg)) (log0 : list msg) (olds : list file) (cur : file) (gls : list (G * list msg)) (g : G) (l : list msg) : Prop := {
  tf_map : f_map (fs x) = olds ++ [cur];
  tf_gl : gl = gls ++ [(g, l)];
  tf_len : length gls = length olds;
  tf_at : f_map (fs x) !! length olds = Some cur;
  tf_key : find_key (f_key cur) (f_map (fs x)) = Some (length olds);
  tf_piece : ∃ lo, piece_ok lo cur g l;
  tf_current : f_current cur = true;
  tf_name : f_name cur = Current;
  tf_file : w_file (wr x) = Some (f_key cur) ∧ f_key cur ≤ seq_last (fs x) + 1 ∧ ∀ m, st_ok fresh m → st_ok (f_data cur) m;
  tf_empty : _current_empty (wr x) = bool_decide (l = []);
}.

Lemma chain_last_at olds cur gls g l lo : chain lo (olds ++ [cur]) (gls ++ [(g, l)]) → length gls = length olds →
  piece_ok lo cur g l ∧ f_current cur = true ∧ f_name cur = Current ∧ find_key (f_key cur) (olds ++ [cur]) = Some (length olds).
Proof.
  revert lo gls. induction olds as [|f olds IH]; intros lo [|[gf lf] gls] Hc Hlen; try done.
  - destruct Hc as (Hp & _ & H1 & H2). cbn. by rewrite Z.eqb_refl.
  - assert (((f :: olds) ++ [cur]) !! length (f :: olds) = Some cur) as Hl by apply list_lookup_middle, eq_refl.
    destruct (chain_at _ _ _ _ _ Hc Hl) as (_ & Hk & _). cbn [app] in Hc. apply chain_cons in Hc as (Hp & _ & _ & Hne & _ & Hc); [|by destruct olds].
    destruct (IH _ _ Hc) as ([P1 P2 P3] & H1 & H2 & H3); [by injection Hlen|].
    pose proof (piece_last _ _ _ _ Hp Hne). split_and!; [split; [done|lia|done]|done..].
Qed.

Lemma writer_tail x gl log0 : writer_ok x gl log0 → ∃ olds cur gls g l, tail_form x gl log0 olds cur gls g l.
Proof.
  intros [[lo Hc] _ _ _ Hf He]. destruct (chain_last_file _ _ _ Hc) as (olds & cur & gls & g & l & E1 & E2 & Hlen). exists olds, cur, gls, g, l.
  rewrite E1, E2 in Hc. destruct (chain_last_at _ _ _ _ _ _ Hc Hlen) as (Hp & Hcur & Hname & Hk).
  split; rewrite ?E1; try done.
  - apply list_lookup_middle, eq_refl.
  - by exists lo.
  - apply Hf. rewrite E1. apply last_snoc.
  - apply (He g). rewrite E2. apply last_snoc.
Qed.

Lemma chain_pos fs : ∀ lo gl, chain lo fs gl → Forall (λ m, 0 ≤ m_seq m) (log_of gl).
Proof.
  induction fs as [|f fs IH]; intros lo [|[g l] gl]; [done..|]. intros Hc.
  assert (Forall (λ m, 0 ≤ m_seq m) l) as Hl.
  { destruct Hc as ([Hp _ _] & _). by destruct (st_log_spec _ _ _ Hp) as ([_ ?] & _). }
  unfold log_of. cbn [fmap list_fmap snd concat]. destruct (decide (fs = [])) as [->|Hne].
  - destruct Hc as (_ & -> & _). cbn. by rewrite app_nil_r.
  - apply chain_cons in Hc as (_ & _ & _ & _ & _ & Hc); [|done]. apply Forall_app. split; [done|by apply (IH _ _ Hc)].
Qed.

Lemma log_increasing x gl log0 : writer_ok x gl log0 → increasing (log_of gl) ∧ -1 ≤ seq_last (fs x).
Proof.
  intros [[lo Hc] _ Hlast _ _ _]. destruct (chain_sorted _ _ _ Hc) as (Hs & _ & _).
  assert (increasing (log_of gl)) as Hi by (split; [done|by eapply chain_pos]). split; [done|]. rewrite Hlast. by apply last_seq_low.
Qed.

Lemma last_seq_below gl i g l : increasing (log_of gl) → gl !! i = Some (g, l) → last_seq l ≤ last_seq (log_of gl).
Proof.
  intros Hinc Hg. destruct (decide (l = [])) as [->|Hne]; [by apply last_seq_low|]. destruct (last_seq_in l Hne) as (z & Hz & ->).
  apply last_seq_max; [by apply sorted_increasing|]. apply list_elem_of_In, List.in_concat. exists l. split; apply list_elem_of_In; [|done].
  apply list_elem_of_fmap. exists (g, l). split; [done|]. by eapply list_elem_of_lookup_2.
Qed.

(** The entry of the current file is replaced. *)
Lemma writer_update x gl log0 olds cur gls g l d g' l' fst lst emp acc :
  writer_ok x gl log0 → tail_form x gl log0 olds cur gls g l →
  (∀ lo, piece_ok lo cur g l → piece_ok lo (with_data d cur) g' l') →
  (∀ m, st_ok fresh m → st_ok d m) → f_key cur ≤ lst + 1 →
  log_of gls ++ l' = log0 ++ acc → lst = last_seq (log_of gls ++ l') → fst = first_seq (log_of gls ++ l') → emp = bool_decide (l' = []) →
  writer_ok (Sys (Files (<[length olds := with_data d cur]> (f_map (fs x))) fst lst) (Writer (w_file (wr x)) emp acc) (rd x)) (gls ++ [(g', l')]) log0.
Proof.
  intros Hw T Hp Hok Hk Hlog Hlst Hfst Hemp. destruct T as [E1 E2 Hlen _ _ _ Hcur Hname (Hfile & _) _].
  destruct Hw as [[lo Hc] _ _ _ _ _]. rewrite E1, E2 in Hc.
  assert (<[length olds := with_data d cur]> (f_map (fs x)) = olds ++ [with_data d cur]) as Eins.
  { rewrite E1, insert_app_r_alt by lia. by rewrite Nat.sub_diag. }
  split; cbn [fs wr f_map seq_last seq_first w_file _current_empty accepted]; rewrite ?Eins, ?log_of_snoc.
  - exists lo. by apply (chain_update olds cur _ gls g l).
  - done.
  - done.
  - done.
  - intros c Hl. rewrite last_snoc in Hl. injection Hl as <-. by split_and!.
  - intros gc lc Hl. rewrite last_snoc in Hl. by injection Hl as _ <-.
Qed.

(** What a reader sees of a post. *)
Lemma post_phase r cur g l d g' l' add i gls want f :
  (∀ c u, st_read (f_data cur) g c u → st_read d g' c (u ++ add)) → l' = l ++ add →
  (∀ m, m ∈ add → _seq_last r < m_seq m) → f_current cur = true →
  (i ≤ length gls)%nat →
  (i = length gls → f = cur) →
  ∀ gi li, (gls ++ [(g, l)]) !! i = Some (gi, li) → phase r f gi li (tail_log i (gls ++ [(g, l)])) want →
  ∃ gi' li', (gls ++ [(g', l')]) !! i = Some (gi', li') ∧
    phase r (if decide (i < length gls)%nat then f else with_data d f) gi' li' (tail_log i (gls ++ [(g', l')])) (want ++ add).
Proof.
  intros Hrd El Hadd Hcur Hi Hf gi li Hg Hph. rewrite tail_log_snoc in *.
  destruct (decide (i < length gls)%nat) as [Hlt|Hge].
  - exists gi, li. rewrite lookup_app_l in Hg |- * by done. split; [done|]. unfold phase in *. destruct (child r) as [[[k c] eod]|].
    + destruct Hph as (Hk & u & [R1 R2 R3 R4 R5 R6 R7]). split; [done|]. exists u. split; try done.
      * by rewrite R3, El, <-!app_assoc.
      * intros Hne. specialize (R4 Hne). rewrite El, !app_assoc, <-(app_assoc u). apply Forall_app. split; [done|by apply Forall_forall].
    + destruct Hph as [R1 R2 R3 R4]. split; try done.
      * by rewrite R3, El, <-!app_assoc.
      * intros Hne. specialize (R4 Hne). rewrite El, !app_assoc, <-(app_assoc li). apply Forall_app. split; [done|by apply Forall_forall].
  - assert (i = length gls) as -> by lia. rewrite list_lookup_middle in Hg |- * by done. injection Hg as <- <-. rewrite (Hf eq_refl) in *.
    exists g', l'. split; [done|]. unfold phase in *. destruct (child r) as [[[k c] eod]|].
    + destruct Hph as (Hk & u & [R1 R2 R3 R4 R5 R6 R7]). split; [done|]. exists (u ++ add). split; cbn [with_data f_data f_current f_last]; try by rewrite Hcur.
      * by apply Hrd.
      * rewrite El. destruct R2 as [p ->]. exists p. by rewrite app_assoc.
      * by rewrite R3, !app_nil_r, <-app_assoc.
      * intros Hne. specialize (R4 Hne). rewrite app_nil_r in *. apply Forall_app. split; [done|by apply Forall_forall].
      * intros [-> ->]%app_eq_nil. rewrite El, app_nil_r. by apply R5.
    + destruct Hph as [R1 R2 R3 R4]. split; try done.
      * by rewrite R3, El, !app_nil_r, <-app_assoc.
      * intros Hne. specialize (R4 Hne). rewrite app_nil_r in *. rewrite El. apply Forall_app. split; [done|by apply Forall_forall].
Qed.

Lemma post_inv log0 want0 x m : inv log0 want0 x → legal (Post m) x → ∃ r x', _post m x = Some (r, x') ∧ inv log0 want0 x'.
Proof.
  intros (gl & i & Hw & [Hst Hlast (f & gi & li & Hf & Hgi & Hcf & Hph)]) (Hm & Hpos & Hokm).
  destruct (writer_tail _ _ _ Hw) as (olds & cur & gls & g & l & T). destruct (log_increasing _ _ _ Hw) as [Hinc _].
  pose proof T as [E1 E2 Hlen Hat Hkey [lo Hp] Hcur Hname (Hfile & Hkl & Hok) Hemp].
  destruct (st_post_spec _ _ _ m (pc_log _ _ _ _ Hp) (Hok m Hokm)) as (r & d & g' & Epost & Hok' & Hr).
  assert ((i ≤ length gls)%nat) as Hi.
  { apply lookup_lt_Some in Hgi. rewrite E2, length_app in Hgi. cbn in Hgi. lia. }
  assert (i = length gls → f = cur) as Hfc by (intros ->; rewrite Hlen in Hf; congruence).
  unfold _post. rewrite Hfile. cbn [mbind option_bind]. rewrite Hkey. cbn [mbind option_bind]. rewrite Hat. cbn [mbind option_bind].
  rewrite Epost. cbn [mbind option_bind]. rewrite <-Hfile.
  assert ((<[length olds := with_data d cur]> (f_map (fs x))) !! i = Some (if decide (i < length gls)%nat then f else with_data d f)) as Hf'.
  { destruct (decide (i < length gls)%nat); [by rewrite list_lookup_insert_ne by lia|].
    assert (i = length gls) as Ei by lia. rewrite Ei, Hlen, (Hfc Ei). apply list_lookup_insert_eq. by eapply lookup_lt_Some. }
  assert (Some (f_key f) = Some (f_key (if decide (i < length gls)%nat then f else with_data d f))) as Hkf by by destruct (decide _).
  pose proof Hw as [_ Wlog Wlast Wfirst _ _]. rewrite E2, log_of_snoc in Wlog, Wlast, Wfirst, Hinc. subst gl.
  destruct r as [[]|e]; destruct Hr as [Hlog' Hrd'].
  - eexists _, _. split; [done|]. exists (gls ++ [(g', l ++ [kept m])]), i. split.
    + apply (writer_update x (gls ++ [(g, l)]) log0 olds cur gls g l d g' (l ++ [kept m])); try done; [|auto|lia|by rewrite app_assoc, Wlog, <-app_assoc|by rewrite app_assoc, last_seq_app| |].
      * intros lo' [P1 P2 P3]. split; [done|done|]. apply Forall_app. split; [done|]. constructor; [|done]. cbn. lia.
      * rewrite app_assoc, <-first_seq_app by done. rewrite <-Wfirst, Hemp.
        destruct (Z.eqb_spec (seq_first (fs x)) (-1)) as [E|E]; [|by rewrite andb_false_r]. cbn [m_seq kept].
        rewrite bool_decide_true; [done|]. rewrite Wfirst in E. destruct l; [done|]. destruct Hinc as [_ Hinc].
        unfold first_seq in E. destruct (log_of gls ++ _) as [|z zs] eqn:Ez; [by apply app_eq_nil in Ez as [_ ?]|]. cbn in E.
        apply Forall_cons in Hinc as [Hz _]. lia.
      * symmetry. apply bool_decide_false. by destruct l.
    + destruct (post_phase (rd x) cur g l d g' (l ++ [kept m]) [kept m] i gls (want0 ++ accepted (wr x)) f) with (gi := gi) (li := li) as (gi' & li' & Hg' & Hph'); try done.
      { intros z Hz. apply list_elem_of_singleton in Hz as ->. cbn. lia. }
      split; [done|cbn; lia|]. eexists _, gi', li'. split_and!; [exact Hf'|done|by rewrite <-Hkf|]. cbn [wr accepted rd]. by rewrite app_assoc.
  - eexists _, _. split; [done|]. exists (gls ++ [(g', l)]), i. split.
    + assert (wr x = Writer (w_file (wr x)) (_current_empty (wr x)) (accepted (wr x))) as Ewr by by destruct (wr x).
      rewrite Ewr at 1. apply (writer_update x (gls ++ [(g, l)]) log0 olds cur gls g l d g' l _ _ (_current_empty (wr x)) (accepted (wr x))); try done.
      * intros lo' [P1 P2 P3]. by split.
      * auto.
    + destruct (post_phase (rd x) cur g l d g' l [] i gls (want0 ++ accepted (wr x)) f) with (gi := gi) (li := li) as (gi' & li' & Hg' & Hph'); try done.
      { intros c u Hu. rewrite app_nil_r. by apply Hrd'. }
      { by rewrite app_nil_r. }
      { intros z Hz. by apply not_elem_of_nil in Hz. }
      rewrite app_nil_r in Hph'. split; [done|done|]. eexists _, gi', li'. split_and!; [exact Hf'|done|by rewrite <-Hkf|done].
Qed.

Lemma tail_log_two i gls (g : G) l g' : (i ≤ length gls)%nat →
  tail_log i (gls ++ [(g, l); (g', [])]) = tail_log i (gls ++ [(g, l)]).
Proof.
  intros Hi. change ([(g, l); (g', [])]) with ([(g, l)] ++ [(g', @nil msg)]). rewrite app_assoc, tail_log_snoc, length_app. cbn [length].
  rewrite decide_True by lia. by rewrite app_nil_r.
Qed.

(** The entries after a rotation. *)
Lemma rotate_map x gl log0 olds cur gls g l : writer_ok x gl log0 → tail_form x gl log0 olds cur gls g l → l ≠ [] →
  let cur' := File (f_key cur) (Dated (date l)) (seq_last (fs x)) false (f_data cur) in
  let new := File (seq_last (fs x) + 1) Current (-1) true fresh in
  emplace new (<[length olds := cur']> (f_map (fs x))) = olds ++ [cur'; new] ∧
  (∃ lo, chain lo (olds ++ [cur'; new]) (gls ++ [(g, l); (g0, [])])) ∧ seq_last (fs x) = last_seq l.
Proof.
  intros Hw T Hl cur' new. destruct T as [E1 E2 Hlen Hat Hkey _ Hcur Hname _ _]. destruct Hw as [[lo Hc] _ Hlast _ _ _].
  assert (seq_last (fs x) = last_seq l) as Elast by (by rewrite Hlast, E2, log_of_snoc, last_seq_app_ne).
  split_and!; [| |done].
  - rewrite E1, insert_app_r_alt, Nat.sub_diag by lia. cbn [insert list_insert].
    change [cur'; new] with ([cur'] ++ [new]). rewrite app_assoc. apply emplace_snoc.
    assert (Forall (λ f : file, f_key f < seq_last (fs x) + 1) (f_map (fs x))) as Hk.
    { apply (chain_keys_below _ _ _ Hc); [rewrite Hlast; lia|]. intros i gi li Hi Hn. rewrite E1, length_app in Hn. cbn in Hn.
      assert (i = length gls) as -> by lia. rewrite E2, list_lookup_middle in Hi by done. by injection Hi as <- <-. }
    rewrite E1 in Hk. apply Forall_app in Hk as [Hk1 Hk2]. apply Forall_app. split; [done|]. apply Forall_cons in Hk2 as [Hk2 _]. by constructor.
  - exists lo. rewrite E1, E2 in Hc. apply (chain_rotate olds cur cur' new gls g l g0); try done.
    intros lo' Hlo'. split; cbn; [done|lia|done].
Qed.

Lemma sorted_suffix u l m : sorted l → u `suffix_of` l → m ∈ u → m_seq m ≤ last_seq l.
Proof. intros Hs [p ->] Hm. apply last_seq_max; [done|]. apply elem_of_app. by right. Qed.

Lemma rotate_inv log0 want0 x : inv log0 want0 x → legal PostRotate x →
  ∃ x', _post_rotate fresh key_first x = Some x' ∧ inv log0 want0 x'.
Proof.
  intros (gl & i & Hw & Hr) Hcalm. unfold _post_rotate. destruct (_current_empty (wr x)) eqn:Eemp; [exists x; split; [done|by exists gl, i]|].
  destruct Hr as [Hst Hlast (f & gi & li & Hf & Hgi & Hcf & Hph)].
  destruct (writer_tail _ _ _ Hw) as (olds & cur & gls & g & l & T).
  pose proof T as [E1 E2 Hlen Hat Hkey [lo Hp] Hcur Hname (Hfile & Hkl & Hok) Hemp].
  assert (l ≠ []) as Hl by (intros ->; rewrite bool_decide_true in Hemp by done; congruence).
  destruct (rotate_map _ _ _ _ _ _ _ _ Hw T Hl) as (Emap & [lo' Hc'] & Elast).
  destruct (st_log_spec _ _ _ (pc_log _ _ _ _ Hp)) as (Hinc & Eseq & Efirst).
  unfold rotate_close. rewrite Hfile. cbn [mbind option_bind]. rewrite Hkey. cbn [mbind option_bind]. rewrite Hat. cbn [mbind option_bind].
  rewrite Eseq, Efirst. fold (date l). eexists. split; [done|]. exists (gls ++ [(g, l); (g0, [])]), i.
  unfold rotate_open. cbn [fs wr rd with_map f_map seq_first seq_last]. rewrite Emap.
  assert ((i ≤ length gls)%nat) as Hi.
  { apply lookup_lt_Some in Hgi. rewrite E2, length_app in Hgi. cbn in Hgi. lia. }
  destruct Hw as [[lo'' Hc] Wlog Wlast Wfirst _ _].
  assert (log_of (gls ++ [(g, l); (g0, [])]) = log_of gl) as Elog.
  { change [(g, l); (g0, [])] with ([(g, l)] ++ [(g0, @nil msg)]). rewrite app_assoc, log_of_snoc, app_nil_r. by rewrite E2. }
  split.
  - split; cbn [fs wr with_map f_map seq_last seq_first w_file _current_empty accepted]; rewrite ?Elog; try done.
    + by exists lo'.
    + intros c Hlc. rewrite last_app in Hlc. injection Hlc as <-. cbn. split_and!; [done|lia|done].
    + intros gc lc Hlc. rewrite last_app in Hlc. by injection Hlc as _ <-.
  - destruct (chain_at _ _ _ _ _ Hc Hf) as (_ & Hkf & _). rewrite Hcf. destruct (decide (i = length olds)) as [->|Hne].
    + assert (f = cur) as -> by congruence. assert (gi = g ∧ li = l) as [-> ->].
      { rewrite E2, list_lookup_middle in Hgi by done. by injection Hgi as <- <-. }
      rewrite bool_decide_true by done. unfold notify. rewrite bool_decide_true by done.
      split; [done|done|]. cbn [fs f_map rd set_notified _current_file r_state wr accepted].
      eexists _, g, l. split_and!; [by apply list_lookup_middle|by apply list_lookup_middle|done|].
      rewrite tail_log_two, <-E2 by lia. unfold phase in *. cbn [set_notified child].
      cbn in Hcalm. specialize (Hcalm Eemp Hst). rewrite Hcf, Hfile in Hcalm. specialize (Hcalm eq_refl).
      destruct (child (rd x)) as [[[k c] eod]|]; [|done]. destruct Hph as (-> & u & [R1 R2 R3 R4 R5 R6 R7]).
      split; [done|]. exists u. split; cbn [set_notified notified _seq_close _seq_last out f_data f_current f_last]; try done; [by right; left|].
      intros _ _ Hu. destruct u as [|m u]; [done|]. destruct Hcalm as [Hgot|[?|(f' & c' & Hf' & Hn)]]; [|done|].
      * specialize (R4 Hgot). apply Forall_app in R4 as [R4 _]. apply Forall_cons in R4 as [R4 _]. rewrite Elast.
        pose proof (sorted_suffix (m :: u) l m (sorted_increasing _ Hinc) R2 ltac:(by left)). lia.
      * rewrite (chain_entry _ _ _ _ _ Hc Hf) in Hf'. injection Hf' as <-.
        destruct (st_next_spec _ _ _ _ _ (pc_log _ _ _ _ Hp) R1) as (c'' & Hn' & _). rewrite Hn in Hn'. done.
    + rewrite bool_decide_false; [|intros [= E]; congruence].
      split; [done|done|]. cbn [fs with_map f_map rd wr accepted]. exists f, gi, li.
      assert (i < length olds)%nat as Hlt by (rewrite Hlen in Hi; lia).
      rewrite E1, lookup_app_l in Hf by done. rewrite E2, lookup_app_l in Hgi by lia. split_and!.
      * by rewrite lookup_app_l.
      * rewrite lookup_app_l by lia. done.
      * done.
      * by rewrite tail_log_two, <-E2 by lia.
Qed.

(** ** The reader *)
Lemma events_app a b : delivered (a ++ b) = delivered a ++ delivered b.
Proof. apply omap_app. Qed.

Lemma writer_rd x gl log0 f : writer_ok x gl log0 → writer_ok (with_rd f x) gl log0.
Proof. by intros []. Qed.

Lemma tail_log_next i (gl : list (G * list msg)) g l : gl !! S i = Some (g, l) → tail_log i gl = l ++ tail_log (S i) gl.
Proof. intros Hg. unfold tail_log, log_of. by rewrite (drop_S _ _ _ Hg). Qed.

(** The reader has come to the end of a file that is not the current one. *)
Lemma next_file x gl log0 want i f : writer_ok x gl log0 →
  f_map (fs x) !! i = Some f → f_current f = false → _current_file (rd x) = Some (f_key f) → child (rd x) = None →
  r_state (rd x) = Active → -1 ≤ _seq_last (rd x) ≤ seq_last (fs x) →
  want = delivered (out (rd x)) ++ tail_log i gl →
  (delivered (out (rd x)) ≠ [] → Forall (λ m, _seq_last (rd x) < m_seq m) (tail_log i gl)) →
  ∃ r', _on_closed x = Some (Sys (fs x) (wr x) r') ∧ reader_ok (Sys (fs x) (wr x) r') gl want (S i) ∧
    out r' = out (rd x) ++ [Rotated] ∧ child r' = None.
Proof.
  intros [[lo Hc] _ _ _ _ _] Hf Hcur Hcf Hch Hst Hlast Hwant Hahead.
  destruct (chain_at _ _ _ _ _ Hc Hf) as (_ & Hk & _ & _ & g & l & Hg & _ & Hpos).
  destruct (decide (S i = length (f_map (fs x)))) as [|Hne]; [congruence|].
  destruct (lookup_lt_is_Some_2 (f_map (fs x)) (S i)) as [f' Hf']; [apply lookup_lt_Some in Hf; lia|].
  destruct (chain_at _ _ _ _ _ Hc Hf') as (_ & _ & _ & _ & g' & l' & Hg' & _ & _).
  unfold _on_closed. rewrite Hcf. cbn [mbind option_bind]. rewrite Hk. cbn [mbind option_bind]. rewrite Hf'.
  unfold with_rd, notify, select. cbn [r_state rd]. rewrite Hst, bool_decide_true by done. eexists. split; [done|].
  split_and!; [|done|done]. split; [done|done|]. cbn [fs rd callback set_notified _current_file]. exists f', g', l'. split_and!; [done..|].
  unfold phase. cbn [child callback set_notified]. rewrite (tail_log_next _ _ _ _ Hg') in Hwant, Hahead.
  split; cbn [notified _open_cfg out _seq_last callback set_notified]; rewrite ?events_app; cbn [delivered omap list_omap]; rewrite ?app_nil_r; done.
Qed.

Lemma piece_all lo f g l : piece_ok lo f g l → from (f_key f) l = l.
Proof. intros [_ _ Hk]. by apply from_ge. Qed.

(** The next file is opened. *)
Lemma open_waiting x gl log0 want i : writer_ok x gl log0 → reader_ok x gl want i → child (rd x) = None →
  ∃ r', open_child (with_rd (set_notified false) x) = Some (Sys (fs x) (wr x) r') ∧ reader_ok (Sys (fs x) (wr x) r') gl want i ∧
    out r' = out (rd x) ∧ ∃ k c, child r' = Some (k, c, false).
Proof.
  intros [[lo Hc] _ _ _ _ _] [Hst Hlast (f & g & l & Hf & Hg & Hcf & Hph)] Hch. unfold phase in Hph. rewrite Hch in Hph.
  destruct Hph as [W1 W2 W3 W4]. destruct (chain_at _ _ _ _ _ Hc Hf) as (_ & _ & Hname & _ & g' & l' & Hg' & Hp & _).
  rewrite Hg in Hg'. injection Hg' as <- <-.
  destruct (st_open_spec _ _ _ (f_key f) (pc_log _ _ _ _ Hp)) as (c & Ho & Hrd). rewrite (piece_all _ _ _ _ Hp) in Hrd.
  unfold open_child, with_rd. cbn [rd set_notified _open_cfg fs]. rewrite W2. cbn. rewrite Hname. rewrite Ho. cbn [mbind option_bind].
  eexists. split; [done|]. split_and!; [|done|by eexists _, _]. split; [done|done|]. exists f, g, l. split_and!; [done..|].
  unfold phase. cbn. split; [done|]. exists l. split; cbn; try done.
  - intros ->. cbn. lia.
  - by left.
Qed.

(** What a call of the reader leaves alone. *)
Definition by_reader (x x' : sys) : Prop := fs x' = fs x ∧ wr x' = wr x.

Lemma close_file x gl log0 want i f : writer_ok x gl log0 →
  r_state (rd x) = Active → -1 ≤ _seq_last (rd x) ≤ seq_last (fs x) →
  f_map (fs x) !! i = Some f → f_current f = false → _current_file (rd x) = Some (f_key f) →
  want = delivered (out (rd x)) ++ tail_log i gl →
  (delivered (out (rd x)) ≠ [] → Forall (λ m, _seq_last (rd x) < m_seq m) (tail_log i gl)) →
  ∃ r', child_close x = Some (Sys (fs x) (wr x) r') ∧ reader_ok (Sys (fs x) (wr x) r') gl want (S i) ∧
    out r' = out (rd x) ++ [Rotated] ∧ child r' = None.
Proof.
  intros Hw Hst Hlast Hf Hcur Hcf Hwant Hahead. unfold child_close.
  apply (next_file (with_rd (set_child None) x) gl log0 want i f); try done. by apply writer_rd.
Qed.

(** What is left to do. *)
Definition work (gl : list (G * list msg)) (want : list msg) (i : nat) (r : reader) : nat :=
  4 * (length want - length (delivered (out r))) + 3 * (length gl - i) +
  match child r with None => 2 | Some (_, _, false) => 1 | Some (_, _, true) => 0 end.

(** The file at [i] has been read, and another one follows. *)
Definition at_end (x : sys) (gl : list (G * list msg)) (want : list msg) (i : nat) : Prop :=
  (∀ f, f_map (fs x) !! i = Some f → f_current f = false) ∧ want = delivered (out (rd x)) ++ tail_log i gl.

Lemma work_rotated gl want i r r' : out r' = out r ++ [Rotated] → child r' = None → (i < length gl)%nat →
  is_Some (child r) → (work gl want (S i) r' < work gl want i r)%nat.
Proof.
  intros Eo Ec Hi [[[k c] b] Hc]. unfold work. rewrite Eo, Ec, Hc, events_app. cbn [delivered omap list_omap]. rewrite app_nil_r. destruct b; lia.
Qed.

Lemma process_inv x gl log0 want i : writer_ok x gl log0 → reader_ok x gl want i → notified (rd x) = true →
  ∃ r' j, _process x = Some (Sys (fs x) (wr x) r') ∧ reader_ok (Sys (fs x) (wr x) r') gl want j ∧
    (work gl want j r' ≤ work gl want i (rd x))%nat ∧ delivered (out r') = delivered (out (rd x)) ∧
    (child (rd x) = None ∨ at_end x gl want i → (work gl want j r' < work gl want i (rd x))%nat).
Proof.
  intros Hw Hr Hn. unfold _process. cbn [with_rd rd set_notified child]. destruct (child (rd x)) as [[[k c] eod]|] eqn:Hch.
  2:{ destruct (open_waiting _ _ _ _ _ Hw Hr Hch) as (r' & E & Hr' & Eo & k & c & Ec). exists r', i. split; [done|]. split; [done|].
      unfold work. rewrite Eo, Ec, Hch. split; [lia|]. split; [done|lia]. }
  pose proof Hr as [Hst Hlast (f & g & l & Hf & Hg & Hcf & Hph)]. unfold phase in Hph. rewrite Hch in Hph.
  destruct Hph as (-> & u & [R1 R2 R3 R4 R5 R6 R7]). pose proof Hw as [[lo Hc] _ _ _ _ _].
  cbn [set_notified _current_file]. rewrite Hcf. cbn [mbind option_bind with_rd fs]. rewrite (chain_entry _ _ _ _ _ Hc Hf). cbn [mbind option_bind].
  destruct (f_current f) eqn:Hcur.
  - exists (set_notified false (rd x)), i. split; [done|]. split_and!.
    + split; [done|done|]. exists f, g, l. split_and!; [done..|].
      unfold phase. cbn [rd set_notified child]. rewrite Hch. split; [done|]. exists u. split; cbn; try done; by rewrite Hcur.
    + done.
    + done.
    + intros [?|[Hne _]]; [congruence|]. specialize (Hne f Hf). congruence.
  - destruct (chain_at _ _ _ _ _ Hc Hf) as (_ & _ & _ & _ & g' & l' & Hg' & _ & Hpos). rewrite Hg in Hg'. injection Hg' as <- <-.
    destruct (decide (S i = length (f_map (fs x)))) as [|_]; [congruence|]. destruct Hpos as (_ & Hne & Hfl).
    cbn [with_rd rd set_notified set_seq_close _seq_last]. destruct (Z.ltb_spec (_seq_last (rd x)) (f_last f)) as [Hlt|Hge].
    + assert (u ≠ []) as Hu by (intros ->; specialize (R5 eq_refl); lia).
      exists (set_seq_close (f_last f) (set_notified false (rd x))), i. split; [done|]. split_and!.
      * split; [done|done|]. exists f, g, l. split_and!; [done..|].
        unfold phase. cbn [rd set_seq_close set_notified child]. rewrite Hch. split; [done|]. exists u. split; cbn; try done.
        intros _. right. by right.
      * done.
      * done.
      * intros [?|[_ He]]; [congruence|]. rewrite R3 in He. apply app_inv_head in He. by apply (app_inv_tail _ u []) in He.
    + assert (u = []) as ->. { destruct u as [|m u]; [done|]. specialize (R7 eq_refl Hn ltac:(done)). lia. }
      destruct (close_file (with_rd (set_seq_close (f_last f)) (with_rd (set_notified false) x)) gl log0 want i f)
        as (r' & E & Hr' & Eo & Ec); try done; [by apply writer_rd, writer_rd|]. exists r', (S i). split; [done|]. split; [done|].
      assert (work gl want (S i) r' < work gl want i (rd x))%nat.
      2:{ split; [lia|]. split; [|done]. rewrite Eo, events_app. by rewrite app_nil_r. }
      apply work_rotated; [done|done|by eapply lookup_lt_Some|by eexists].
Qed.

(** A call of process of the child: the next message, the end of data, or the next file. *)
Lemma child_inv x gl log0 want i : writer_ok x gl log0 → reader_ok x gl want i → is_Some (child (rd x)) →
  ∃ r' j, child_process false x = Some (Sys (fs x) (wr x) r') ∧ reader_ok (Sys (fs x) (wr x) r') gl want j ∧
    ((work gl want j r' < work gl want i (rd x))%nat ∨
     work gl want j r' = work gl want i (rd x) ∧
       (delivered (out r') = want ∨ notified r' = true ∧ at_end (Sys (fs x) (wr x) r') gl want j)).
Proof.
  intros Hw Hr [[[k c] eod] Hch]. pose proof Hr as [Hst Hlast (f & g & l & Hf & Hg & Hcf & Hph)].
  unfold phase in Hph. rewrite Hch in Hph. destruct Hph as (-> & u & [R1 R2 R3 R4 R5 R6 R7]).
  pose proof Hw as [[lo Hc] _ Wlast _ _ _]. destruct (log_increasing _ _ _ Hw) as [Hinc _].
  destruct (chain_at _ _ _ _ _ Hc Hf) as (_ & _ & _ & _ & g' & l' & Hg' & Hp & Hpos). rewrite Hg in Hg'. injection Hg' as <- <-.
  destruct (st_next_spec _ _ _ _ _ (pc_log _ _ _ _ Hp) R1) as (c' & Hn & Hrd).
  destruct (st_log_spec _ _ _ (pc_log _ _ _ _ Hp)) as (Hincl & _).
  unfold child_process. rewrite Hch. cbn [mbind option_bind]. rewrite (chain_entry _ _ _ _ _ Hc Hf). cbn [mbind option_bind].
  rewrite Hn. cbn [mbind option_bind]. destruct u as [|m u]; cbn [head tail] in *.
  - (* nothing to read *)
    destruct eod.
    + exists (set_child (Some (f_key f, c', true)) (rd x)), i. split; [done|]. split.
      * split; [done|done|]. exists f, g, l. split_and!; [done..|].
        unfold phase. cbn [rd set_child child]. split; [done|]. exists []. split; try done.
      * right. unfold work. rewrite Hch. split; [done|]. cbn [set_child out notified]. destruct (decide (S i = length (f_map (fs x)))) as [El|_].
        -- left. rewrite R3. destruct (chain_sorted _ _ _ Hc) as (_ & _ & Hlg). unfold tail_log. rewrite drop_ge by lia. by rewrite app_nil_r.
        -- destruct Hpos as (Hcur & _). right. destruct (R6 Hcur) as [?|[?|[_ ?]]]; [done| |done]. split; [done|]. split; [|done].
           cbn [fs]. intros f' Hf'. congruence.
    + unfold _on_other. cbn [with_rd rd set_child _current_file]. rewrite Hcf. cbn [mbind option_bind with_rd fs]. rewrite (chain_entry _ _ _ _ _ Hc Hf). cbn [mbind option_bind].
      destruct (f_current f) eqn:Hcur.
      * destruct (_end_of_data (rd x)) eqn:He.
        -- exists (set_child (Some (f_key f, c', true)) (rd x)), i. cbn [with_rd rd set_child _end_of_data]. rewrite He. split; [done|].
           split; [|left; unfold work; rewrite Hch; cbn [set_child child out]; lia]. split; [done|done|]. exists f, g, l. split_and!; [done..|].
           unfold phase. cbn [rd set_child child]. split; [done|]. exists []. split; cbn; try done; by rewrite Hcur.
        -- eexists _, i. cbn [with_rd rd set_child _end_of_data]. rewrite He. split; [done|].
           split; [|left; unfold work; rewrite Hch; cbn [with_rd rd callback set_eod set_child child out]; rewrite events_app; cbn [delivered omap list_omap]; rewrite app_nil_r; fold (delivered (out (rd x))); lia]. split; [done|done|]. exists f, g, l. split_and!; [done..|].
           unfold phase. cbn [rd set_child child callback set_eod]. split; [done|]. exists []. split; cbn; rewrite ?events_app; cbn; rewrite ?app_nil_r; try done; by rewrite Hcur.
      * destruct (close_file (with_rd (set_child (Some (f_key f, c', true))) x) gl log0 want i f) as (r' & E & Hr' & Eo & Ec); try done; [by apply writer_rd|]. exists r', (S i). split; [done|]. split; [done|]. left.
        apply work_rotated; [done|done|by eapply lookup_lt_Some|by eexists].
  - (* a message *)
    assert (∀ z, z ∈ u ++ tail_log i gl → m_seq m < m_seq z) as Hafter.
    { destruct R2 as [p Ep]. pose proof (sorted_increasing _ Hinc) as Hs.
      assert (log_of gl = log_of (take i gl) ++ (p ++ [m]) ++ u ++ tail_log i gl) as El.
      { unfold log_of, tail_log. rewrite <-(take_drop i gl) at 1. rewrite (drop_S _ _ _ Hg), fmap_app, concat_app. cbn. by rewrite Ep, <-!app_assoc. }
      rewrite El in Hs. apply sorted_app in Hs as [Hs _]. apply sorted_app in Hs as [_ Hs]. intros z Hz. apply Hs; [|done].
      apply elem_of_app. right. by left. }
    assert (m_seq m ≤ last_seq l) as Hml by (eapply sorted_suffix; [by apply sorted_increasing|exact R2|by left]).
    assert (0 ≤ m_seq m) as Hm0. { destruct Hincl as [_ Hpo]. rewrite Forall_forall in Hpo. apply Hpo. destruct R2 as [p ->]. apply elem_of_app. right. by left. }
    assert (last_seq l ≤ seq_last (fs x)) as Hll by (rewrite Wlast; by eapply last_seq_below).
    set (r1 := set_seq_last (m_seq m) (set_child (Some (f_key f, c', eod)) (rd x))).
    set (b := m_seq m =? _seq_close r1).
    assert (_on_data m (set_child (Some (f_key f, c', eod)) (rd x)) = callback (Data m) (if b then set_notified true r1 else r1)) as Eon.
    { unfold _on_data. fold r1. fold b. unfold notify. change (r_state r1) with (r_state (rd x)). by rewrite Hst, bool_decide_true. }
    eexists _, i. split; [unfold with_rd; rewrite Eon; reflexivity|]. cbn [wr fs].
    assert (child (callback (Data m) (if b then set_notified true r1 else r1)) = Some (f_key f, c', eod)) as E0 by by destruct b.
    assert (out (callback (Data m) (if b then set_notified true r1 else r1)) = out (rd x) ++ [Data m]) as E2 by by destruct b.
    split; [|left; unfold work; rewrite E0, E2, Hch, events_app, R3, !length_app; cbn [delivered omap list_omap length]; lia].
    split; [by destruct b|destruct b; cbn; lia|]. exists f, g, l. split_and!; [done|done|by destruct b|].
    unfold phase. cbn [rd]. rewrite E0. split; [done|]. exists u.
    assert (_seq_last (callback (Data m) (if b then set_notified true r1 else r1)) = m_seq m) as E1 by by destruct b.
    assert (_seq_close (callback (Data m) (if b then set_notified true r1 else r1)) = _seq_close (rd x)) as E3 by by destruct b.
    assert (notified (callback (Data m) (if b then set_notified true r1 else r1)) = b || notified (rd x)) as E4 by by destruct b.
    cbn [rd]. split; rewrite ?E1, ?E2, ?E3, ?E4, ?events_app.
    + done.
    + destruct R2 as [p ->]. exists (p ++ [m]). by rewrite <-app_assoc.
    + rewrite R3, <-app_assoc. done.
    + intros _. by apply Forall_forall.
    + intros ->. destruct R2 as [p ->]. by rewrite last_seq_app.
    + intros Hcur. destruct (decide (S i = length (f_map (fs x)))) as [|_]; [congruence|]. destruct Hpos as (_ & _ & Hfl).
      destruct (R6 Hcur) as [?|[Hno|[Hsc _]]]; [by left|right; left; by rewrite Hno, orb_true_r|].
      destruct u as [|z u]; [|by right; right]. right. left. unfold b, r1. cbn. rewrite Hsc, Hfl. destruct R2 as [p ->]. rewrite last_seq_app.
      by rewrite Z.eqb_refl.
    + intros Hcur _ Hu. destruct (decide (S i = length (f_map (fs x)))) as [|_]; [congruence|]. destruct Hpos as (_ & _ & Hfl).
      rewrite Hfl. destruct u as [|z u]; [done|]. specialize (Hafter z ltac:(by left)).
      pose proof (sorted_suffix (m :: z :: u) l z (sorted_increasing _ Hincl) R2 ltac:(by right; left)). lia.
Qed.

(** ** Runs *)
Lemma rotate_step_inv log0 want0 o x : inv log0 want0 x → legal o x →
  ∃ x', step fresh key_first false o x = Some x' ∧ inv log0 want0 x'.
Proof.
  intros Hi Hl. destruct o as [m| |so| |]; cbn [step].
  - destruct (post_inv _ _ _ _ Hi Hl) as (r & x' & E & Hi'). exists x'. by rewrite E.
  - by apply rotate_inv.
  - destruct Hi as (gl & i & Hw & Hr). rewrite bool_decide_false; [by exists x; split; [|exists gl, i]|]. destruct Hr as [Hst _ _]. by rewrite Hst.
  - destruct Hi as (gl & i & Hw & Hr). destruct (child (rd x)) as [c|] eqn:Hc; cbn.
    + rewrite (bool_decide_true (r_state (rd x) = Active)) by apply Hr. cbn [andb].
      destruct (child_inv x gl log0 (want0 ++ accepted (wr x)) i Hw Hr) as (r' & j & E & Hr' & _); [by rewrite Hc|].
      eexists. split; [exact E|]. exists gl, j. split; [|exact Hr']. exact (writer_rd x gl log0 (λ _, r') Hw).
    + rewrite andb_false_r. exists x. split; [done|by exists gl, i].
  - destruct Hi as (gl & i & Hw & Hr). rewrite bool_decide_true by apply Hr. cbn [andb].
    destruct (notified (rd x)) eqn:Hn; [|exists x; split; [done|by exists gl, i]].
    destruct (process_inv x gl log0 _ i Hw Hr Hn) as (r' & j & E & Hr' & _).
    eexists. split; [exact E|]. exists gl, j. split; [|exact Hr']. exact (writer_rd x gl log0 (λ _, r') Hw).
Qed.

Lemma rotate_run_inv log0 want0 os : ∀ x, inv log0 want0 x → legal_run os x →
  ∃ x', run fresh key_first false os x = Some x' ∧ inv log0 want0 x'.
Proof.
  induction os as [|o os IH]; intros x Hi Hl; [by exists x|]. destruct Hl as [Ho Hl]. cbn [run].
  destruct (rotate_step_inv _ _ _ _ Hi Ho) as (x1 & E & Hi1). rewrite E. cbn [mbind option_bind]. by apply IH, Hl.
Qed.

(** One turn of the loop of the reader. *)
Definition turns (n : nat) : list op := concat (replicate n [Child; Process]).

Lemma turn_inv x gl log0 want i : writer_ok x gl log0 → reader_ok x gl want i →
  ∃ r' j, run fresh key_first false [Child; Process] x = Some (Sys (fs x) (wr x) r') ∧ reader_ok (Sys (fs x) (wr x) r') gl want j ∧
    (delivered (out r') = want ∨ (work gl want j r' < work gl want i (rd x))%nat).
Proof.
  intros Hw Hr.
  assert (∀ r j, reader_ok (Sys (fs x) (wr x) r) gl want j →
    ∃ r' j', step fresh key_first false Process (Sys (fs x) (wr x) r) = Some (Sys (fs x) (wr x) r') ∧ reader_ok (Sys (fs x) (wr x) r') gl want j' ∧
      (work gl want j' r' ≤ work gl want j r)%nat ∧ delivered (out r') = delivered (out r) ∧
      (notified r = true → child r = None ∨ at_end (Sys (fs x) (wr x) r) gl want j → (work gl want j' r' < work gl want j r)%nat)) as Hproc.
  { intros r j Hrj. cbn [step rd]. rewrite bool_decide_true by apply Hrj. destruct (notified r) eqn:Hn; cbn [andb].
    - destruct (process_inv (Sys (fs x) (wr x) r) gl log0 want j) as (r' & j' & E & Hr' & H1 & H2 & H3); [exact (writer_rd x gl log0 (λ _, r) Hw)|done|done|].
      exists r', j'. by split_and!.
    - exists r, j. by split_and!. }
  cbn [run]. destruct (child (rd x)) as [c|] eqn:Hc.
  - destruct (child_inv x gl log0 want i Hw Hr) as (r1 & j & E & Hr1 & Hwork); [by rewrite Hc|].
    assert (step fresh key_first false Child x = Some (Sys (fs x) (wr x) r1)) as ->.
    { cbn [step]. rewrite bool_decide_true by apply Hr. rewrite Hc. exact E. }
    cbn [mbind option_bind]. destruct (Hproc r1 j Hr1) as (r2 & j2 & E2 & Hr2 & W1 & W2 & W3). rewrite E2. cbn [mbind option_bind].
    exists r2, j2. split_and!; [done..|]. destruct Hwork as [Hlt|[Heq [Hd|[Hn He]]]]; [right; lia| |right; specialize (W3 Hn (or_intror He)); lia].
    left. by rewrite W2.
  - assert (step fresh key_first false Child x = Some (Sys (fs x) (wr x) (rd x))) as ->.
    { cbn [step]. rewrite Hc. cbn. rewrite andb_false_r. by destruct x. }
    cbn [mbind option_bind]. assert (Sys (fs x) (wr x) (rd x) = x) as Ex by by destruct x.
    destruct (Hproc (rd x) i) as (r2 & j2 & E2 & Hr2 & W1 & W2 & W3); [by rewrite Ex|]. rewrite E2. cbn [mbind option_bind].
    exists r2, j2. split_and!; [done..|right]. apply W3; [|by left].
    pose proof Hr as [_ _ (f & g & l & _ & _ & _ & Hph)]. unfold phase in Hph. rewrite Hc in Hph. apply Hph.
Qed.

Lemma rotate_run_app a b x : run fresh key_first false (a ++ b) x = (let! y := run fresh key_first false a x in run fresh key_first false b y).
Proof. revert x. induction a as [|o a IH]; intros x; [done|]. cbn [app run]. destruct (step _ _ _ o x); [apply IH|done]. Qed.

Lemma turns_all gl log0 want w : ∀ x i, writer_ok x gl log0 → reader_ok x gl want i → (work gl want i (rd x) ≤ w)%nat →
  ∃ n x', (n ≤ S w)%nat ∧ run fresh key_first false (turns n) x = Some x' ∧ delivered (out (rd x')) = want.
Proof.
  induction w as [w IH] using lt_wf_ind. intros x i Hw Hr Hle.
  destruct (turn_inv x gl log0 want i Hw Hr) as (r' & j & E & Hr' & [Hd|Hlt]).
  - exists 1%nat, (Sys (fs x) (wr x) r'). split_and!; [lia| |done]. unfold turns. cbn [replicate concat]. by rewrite app_nil_r.
  - destruct (IH (work gl want j r')) with (x := Sys (fs x) (wr x) r') (i := j) as (n & x' & Hn & Hrun & Hd); [lia|exact (writer_rd x gl log0 (λ _, r') Hw)|done|done|].
    exists (S n), x'. split_and!; [lia| |done]. unfold turns in *. cbn [replicate concat]. rewrite rotate_run_app, E. exact Hrun.
Qed.

(** ** Opening *)

(** Where a reader starts. *)
Definition start (so : option Z) (log : list msg) : list msg :=
  match so with Some s => if s =? -1 then log else from s log | None => log end.

(** The number is not before the first file. *)
Definition seekable (so : option Z) (x : sys) : Prop :=
  match so with
  | Some s => s = -1 ∨ ∀ f, head (f_map (fs x)) = Some f → f_key f ≤ s
  | None => True
  end.

Lemma from_suffix s l : sorted l → from s l `suffix_of` l.
Proof. intros Hs. exists (take (length l - length (from s l)) l). by rewrite <-(from_drop s l Hs) at 2; rewrite take_drop. Qed.

Lemma open_at x gl log i s f : writer_ok x gl log → accepted (wr x) = [] → delivered (out (rd x)) = [] →
  f_map (fs x) !! i = Some f →
  _seq_last (rd x) = seq_last (fs x) → notified (rd x) = false →
  ∃ r' g l, gl !! i = Some (g, l) ∧ open_child (with_rd (select f s) x) = Some (Sys (fs x) (wr x) r') ∧
    reader_ok (Sys (fs x) (wr x) r') gl (from s l ++ tail_log i gl) i ∧ out r' = out (rd x).
Proof.
  intros Hw Hacc Hout Hf Hsl Hno. pose proof Hw as [[lo Hc] _ Wlast _ _ _]. destruct (log_increasing _ _ _ Hw) as [Hinc Hlow].
  destruct (chain_at _ _ _ _ _ Hc Hf) as (_ & _ & Hname & _ & g & l & Hg & Hp & _).
  destruct (st_open_spec _ _ _ s (pc_log _ _ _ _ Hp)) as (c & Ho & Hrd). destruct (st_log_spec _ _ _ (pc_log _ _ _ _ Hp)) as (Hincl & _).
  unfold open_child, with_rd. cbn [rd select _open_cfg fs]. rewrite Hname, Ho. cbn [mbind option_bind].
  eexists _, g, l. split; [done|]. split; [done|]. split; [|done]. split; [done|cbn; lia|]. exists f, g, l. split_and!; [done..|].
  unfold phase. cbn [rd set_state set_child child]. split; [done|]. exists (from s l).
  split; cbn [rd set_state set_child select out notified _seq_close _seq_last]; rewrite ?Hout, ?Hno; try done.
  - by apply from_suffix, sorted_increasing.
  - intros _. rewrite Hsl, Wlast. by eapply last_seq_below.
  - by left.
Qed.

Lemma from_first_seq l t : increasing (l ++ t) → from (first_seq (l ++ t)) l = l.
Proof.
  intros [Hs _]. destruct l as [|m l]; [done|]. apply from_all; [|by cbn; lia].
  cbn [app] in Hs. apply StronglySorted_inv in Hs as [Hs Hm]. apply Forall_app in Hm as [Hm _]. constructor; [|done].
  clear Hm. induction l as [|z l IH]; [constructor|]. cbn [app] in Hs. apply StronglySorted_inv in Hs as [Hs Hz]. apply Forall_app in Hz as [Hz _].
  constructor; [by apply IH|done].
Qed.

Lemma rotate_open_inv x gl log so : writer_ok x gl log → accepted (wr x) = [] → delivered (out (rd x)) = [] → seekable so x →
  ∃ x1, _open so x = Some x1 ∧ inv log (start so log) x1 ∧ wr x1 = wr x.
Proof.
  intros Hw Hacc Hout Hso. pose proof Hw as [[lo Hc] Wlog _ Wfirst _ _]. rewrite Hacc, app_nil_r in Wlog.
  destruct (log_increasing _ _ _ Hw) as [Hinc _].
  set (x0 := with_rd (λ r, Reader Opening None None (Current, -1) (seq_last (fs x)) (-1) false false (out r)) x).
  assert (writer_ok x0 gl log) as Hw0 by by apply writer_rd.
  assert (∀ i s f, f_map (fs x) !! i = Some f → (∀ g l, gl !! i = Some (g, l) → from s l ++ tail_log i gl = start so log) →
    ∃ x1, open_child (with_rd (select f s) x0) = Some x1 ∧ inv log (start so log) x1 ∧ wr x1 = wr x) as Hat.
  { intros i s f Hf Hs. destruct (open_at x0 gl log i s f) as (r' & g & l & Hg & E & Hr' & _); try done.
    eexists. split; [exact E|]. split; [|done]. exists gl, i. split; [exact (writer_rd x0 gl log (λ _, r') Hw0)|].
    cbn [wr with_rd x0]. rewrite Hacc, app_nil_r, <-(Hs g l Hg). exact Hr'. }
  destruct (f_map (fs x)) as [|f fl] eqn:Em; [done|].
  assert (start None log = log → ∀ g l, gl !! 0%nat = Some (g, l) → from (seq_first (fs x)) l ++ tail_log 0 gl = log) as Hfirst.
  { intros _ g l Hg. destruct gl as [|[g' l'] gl]; [done|]. injection Hg as -> ->. rewrite Wfirst. unfold tail_log in *. cbn [drop].
    unfold log_of in *. cbn [fmap list_fmap snd concat] in *. rewrite from_first_seq by done. done. }
  unfold _open. fold x0. change (f_map (fs x0)) with (f_map (fs x)). rewrite Em. destruct so as [s|]; cbn [start] in *.
  - destruct (Z.eqb_spec s (-1)) as [->|Hs].
    + apply (Hat 0%nat); [done|]. intros g l Hg. by apply (Hfirst eq_refl g l).
    + destruct Hso as [?|Hso]; [done|]. unfold _seek. change (f_map (fs x0)) with (f_map (fs x)). rewrite Em in *.
      specialize (Hso f eq_refl). destruct (upper_bound s (f :: fl)) as [|i] eqn:Eu.
      { cbn in Eu. destruct (Z.ltb_spec s (f_key f)); [lia|done]. }
      destruct (seek_position s _ _ _ _ Hc Eu) as (f' & g' & l' & Hf' & Hg' & _ & Efrom). rewrite Hf'. cbn [mbind option_bind].
      apply (Hat i s f' Hf'). intros g l Hg. rewrite Hg' in Hg. injection Hg as -> ->. by rewrite <-Efrom, Wlog.
  - apply (Hat 0%nat); [done|]. intros g l Hg. by apply (Hfirst eq_refl g l).
Qed.

(** ** Properties *)

(** C14: a rotated storage is one log over its files. A reader that does not
    close at the end is opened at a number anywhere in the log; then
    messages are posted, whose numbers grow and which the files take, files
    are rotated and the two make steps in any order, where a file is not
    rotated between the moment the reader has opened it as the current one
    and its first message or the end of what is in it ([calm];
    [lost_after_open] and [lost_renamed] are runs that lose messages). Then
    no handler fails, the reader has at every moment the beginning of the
    log from the number on, and finitely many turns of its loop give it all
    of it. *)
Theorem rotate_follow x gl log so : writer_ok x gl log → accepted (wr x) = [] → delivered (out (rd x)) = [] → seekable so x →
  ∃ x1, _open so x = Some x1 ∧ ∀ os, legal_run os x1 →
    ∃ x2 gl2, run fresh key_first false os x1 = Some x2 ∧ writer_ok x2 gl2 log ∧
      let want := start so log ++ accepted (wr x2) in
      delivered (out (rd x2)) `prefix_of` want ∧
      ∃ n x3, run fresh key_first false (turns n) x2 = Some x3 ∧ delivered (out (rd x3)) = want.
Proof.
  intros Hw Hacc Hout Hso. destruct (rotate_open_inv x gl log so Hw Hacc Hout Hso) as (x1 & E1 & Hi1 & _). exists x1. split; [done|].
  intros os Hl. destruct (rotate_run_inv _ _ os x1 Hi1 Hl) as (x2 & E2 & gl2 & i & Hw2 & Hr2). exists x2, gl2. split; [done|]. split; [done|].
  intros want. split.
  - destruct Hr2 as [_ _ (f & g & l & _ & _ & _ & Hph)]. unfold phase in Hph. destruct (child (rd x2)) as [[[k c] eod]|].
    + destruct Hph as (_ & u & [_ _ R3 _ _ _ _]). by eexists.
    + destruct Hph as [_ _ W3 _]. by eexists.
  - destruct (turns_all gl2 log want _ x2 i Hw2 Hr2 (le_n _)) as (n & x3 & _ & E3 & Hd). by exists n, x3.
Qed.
End Spec.

(** ** Runs over the storage in memory *)
#[local] Existing Instance Storage.mem_storage.

Abbreviation msys := (sys (list msg) nat).

Definition note (s : Z) : msg := Msg DATA 0 10 s [s] 1 0 0.

Definition closed_reader : reader nat := Reader Closed None None (Current, -1) (-1) (-1) false false [].

(** A writer that has just been opened in an empty directory. *)
Definition empty : msys := Sys (Files [File 0 Current (-1) true []] (-1) (-1)) (Writer (Some 0) true []) closed_reader.

Lemma empty_ok : writer_ok [] true empty [(tt, [])] [].
Proof.
  split; [|done|done|done| |].
  - exists 0. repeat split; cbn; done || constructor.
  - intros c [= <-]. by split_and!.
  - intros [] l [= <-]. done.
Qed.

Definition ops : list op := [Post (note 1); Post (note 4); Child; PostRotate; Post (note 7); Process; Child; Post (note 8); PostRotate; Child; Process].

Definition opened : msys := default empty (_open None empty).

Ltac legal_step := split; [|let x := fresh "x" in let Hx := fresh "Hx" in intros x Hx; vm_compute in Hx; injection Hx as <-].

Lemma ops_legal : legal_run [] true ops opened.
Proof.
  unfold ops. legal_step; [vm_compute; by split_and!|]. legal_step; [vm_compute; by split_and!|]. legal_step; [done|].
  legal_step; [intros _ _ _; cbn; by left|]. legal_step; [vm_compute; by split_and!|]. legal_step; [done|]. legal_step; [done|].
  legal_step; [vm_compute; by split_and!|]. legal_step; [intros _ _ _; cbn; by left|]. legal_step; [done|]. legal_step; [done|]. done.
Qed.

Lemma rotate_follow_witness :
  ∃ x2 n x3, run [] true false ops opened = Some x2 ∧ run [] true false (turns n) x2 = Some x3 ∧
    delivered (out (rd x3)) = [note 1; note 4; note 7; note 8].
Proof.
  assert (@Storage.st_log _ _ _ mem_storage [] tt []) as Hf by (repeat split; constructor).
  destruct (rotate_follow [] tt true Hf empty [(tt, [])] [] None empty_ok eq_refl eq_refl I) as (x1 & E1 & Hrun).
  assert (x1 = opened) as -> by (unfold opened; rewrite E1; reflexivity).
  destruct (Hrun ops ops_legal) as (x2 & gl2 & E2 & _ & _ & n & x3 & E3 & Hd).
  exists x2, n, x3. split; [exact E2|]. split; [exact E3|]. rewrite Hd.
  assert (accepted (wr x2) = [note 1; note 4; note 7; note 8]) as -> by (vm_compute in E2; injection E2 as <-; reflexivity).
  reflexivity.
Defined.

(** ** What goes wrong *)
Definition got (x : option msys) : option (list Z) := let! x := x in Some (m_seq <$> delivered (out (rd x))).

(** The reader takes the last number of the log for one that it has read: when the file on which it has just been opened is
    rotated, it goes on to the next file without having read a message. *)
Lemma lost_after_open :
  got (let! x := run [] true false [Post (note 1); Post (note 2)] empty in
       let! x := _open (Some 1) x in run [] true false ([PostRotate; Process; Post (note 3)] ++ turns 9) x) = Some [3].
Proof. vm_compute. reflexivity. Qed.

(** The name of the next file is kept until the reader is processed; a rotation in between gives it to another file,
    which is read instead of the one that was meant, and then once more. *)
Lemma lost_renamed :
  got (let! x := run [] true false [Post (note 1); PostRotate; Post (note 2)] empty in
       let! x := _open (Some 1) x in run [] true false ([Child; Child; Child; PostRotate; Post (note 3)] ++ turns 9) x) = Some [1; 3; 3].
Proof. vm_compute. reflexivity. Qed.

(** Between the two parts of a rotation there is no next file: a reader that is processed then closes itself. *)
Lemma closed_between :
  (let! x := run [] true false [Post (note 1)] empty in
   let! x := _open None x in
   let! x := run [] true false [Child] x in
   let! x := rotate_close true x in
   let! x := step [] true false Process x in
   let! x := run [] true false (Post (note 2) :: turns 9) (rotate_open [] x) in
   Some (r_state (rd x), m_seq <$> delivered (out (rd x)))) = Some (Closed, [1]).
Proof. vm_compute. reflexivity. Qed.

(** The new file takes numbers that are in earlier files. *)
Lemma number_again :
  (let! x := run [] true false [Post (note 5); PostRotate] empty in
   let! (r, x) := _post (note 5) x in Some (r, seq_last (fs x))) = Some (Ok tt, 5).
Proof. vm_compute. reflexivity. Qed.
End RotateSpec.
