(* ===== verification/Queue.v ===== *)
(** * Queues of the C++ helpers

    src/tll/util/cppring.h: a ring in a vector (Module [VecRing]) and a ring of frames
    with data in a byte buffer (Module [DataRing]), which is an instance of [Fifo]. *)
From S2P Require Import Prelude Mem Fifo.

Module VecRing.

(** [Ring<T>]; the indices are unsigned integers of 32 bits. *)
Record ring (A : Type) := Ring { data : list A; head : Z; tail : Z }.
Arguments Ring {A} _ _ _.
Arguments data {A} _.
Arguments head {A} _.
Arguments tail {A} _.

Section Ops.
Context {A : Type}.
Implicit Types r : ring A.

(** A vector of [n] values. *)
Definition make (x : A) (n : nat) : ring A := Ring (replicate n x) 0 0.
Definition clear r : ring A := Ring (data r) 0 0.

Definition shift r (v : Z) : Z := let v := u32 (v + 1) in if v =? zlen (data r) then 0 else v.
Definition prev r (v : Z) : Z := if v =? 0 then u32 (zlen (data r) - 1) else u32 (v - 1).

(** Access to the vector; outside of it is a fault. *)
Definition at_ r (v : Z) : option A := if 0 <=? v then data r !! Z.to_nat v else None.

Definition front r : option A := at_ r (head r).
Definition back r : option A := at_ r (prev r (tail r)).

Definition size r : Z :=
  if head r <=? tail r then u32 (tail r - head r) else u64 (u64 (tail r + zlen (data r)) - head r).
Definition capacity r : Z := u64 (zlen (data r) - 1).
Definition empty r : bool := head r =? tail r.

(** [push_back]: the inner option is the pointer that is returned. *)
Definition push_back r (v : A) : option (option (ring A)) :=
  let t := shift r (tail r) in
  if t =? head r then Some None else
  if tail r <? zlen (data r) then Some (Some (Ring (<[Z.to_nat (tail r) := v]> (data r)) (head r) t)) else None.

Definition pop_front r : ring A :=
  if head r =? tail r then r else Ring (data r) (shift r (head r)) (tail r).

(** ** The ring holds the values [es] *)
Definition rep r (es : list A) : Prop :=
  let n := zlen (data r) in
  1 ≤ n < 2 ^ 32 ∧ 0 ≤ head r < n ∧ 0 ≤ tail r < n ∧
  zlen es = (tail r - head r) mod n ∧
  ∀ i : nat, (i < length es)%nat → es !! i = data r !! Z.to_nat ((head r + Z.of_nat i) mod n).

Lemma shift_mod r v : 1 ≤ zlen (data r) < 2 ^ 32 → 0 ≤ v < zlen (data r) → shift r v = (v + 1) mod zlen (data r).
Proof.
  intros Hn Hv. unfold shift. rewrite (wrapu_id 32) by lia. cbv zeta. destruct (Z.eqb_spec (v + 1) (zlen (data r))) as [->|].
  - by rewrite Z.mod_same by lia.
  - rewrite Z.mod_small; lia.
Qed.

Lemma prev_mod r v : 1 ≤ zlen (data r) < 2 ^ 32 → 0 ≤ v < zlen (data r) → prev r v = (v - 1) mod zlen (data r).
Proof.
  intros Hn Hv. unfold prev. destruct (Z.eqb_spec v 0) as [->|].
  - rewrite (wrapu_id 32) by lia. apply Z.mod_unique_pos with (-1); lia.
  - rewrite (wrapu_id 32) by lia. rewrite Z.mod_small; lia.
Qed.

Lemma rep_clear r : 1 ≤ zlen (data r) < 2 ^ 32 → rep (clear r) [].
Proof. intros Hn. split; [done|]. cbn. split; [lia|]. split; [lia|]. split; [by rewrite Z.mod_0_l by lia|]. intros i Hi. cbn in Hi. lia. Qed.

(** Length of the queue against the indices. *)
Lemma rep_cases r es : rep r es →
  (head r ≤ tail r ∧ zlen es = tail r - head r) ∨ (tail r < head r ∧ zlen es = tail r - head r + zlen (data r)).
Proof.
  intros (Hn & Hh & Ht & Hlen & _). rewrite Hlen. destruct (decide (head r ≤ tail r)); [left|right]; (split; [lia|]).
  - apply Z.mod_small. lia.
  - symmetry. apply Z.mod_unique_pos with (-1); lia.
Qed.

Lemma rep_size r es : rep r es → size r = zlen es.
Proof.
  intros Hr. pose proof (rep_cases r es Hr) as Hc. destruct Hr as (Hn & Hh & Ht & _). unfold size.
  destruct Hc as [[Hle ->]|[Hlt ->]]; tests.
  - by rewrite (wrapu_id 32) by lia.
  - rewrite (wrapu_id 64 (tail r + _)), (wrapu_id 64) by lia. lia.
Qed.

Lemma rep_capacity r es : rep r es → capacity r = zlen (data r) - 1 ∧ zlen es ≤ zlen (data r) - 1.
Proof.
  intros Hr. pose proof (rep_cases r es Hr) as Hc. destruct Hr as (Hn & Hh & Ht & _). unfold capacity.
  rewrite (wrapu_id 64) by lia. split; [done|]. lia.
Qed.

Lemma rep_empty r es : rep r es → empty r = bool_decide (es = []).
Proof.
  intros Hr. pose proof (rep_cases r es Hr) as Hc. destruct Hr as (Hn & Hh & Ht & _). unfold empty.
  destruct es as [|e es]; cbn [bool_decide decide decide_rel]; [rewrite zlen_nil in Hc; rewrite bool_decide_true by done; tests; done|].
  rewrite bool_decide_false by done. rewrite zlen_cons in Hc. pose proof (zlen_nonneg es). tests. done.
Qed.

Lemma rep_front r e es : rep r (e :: es) → front r = Some e.
Proof.
  intros (Hn & Hh & Ht & _ & Hi). unfold front, at_. tests. rewrite <-(Z.mod_small (head r) (zlen (data r))) by lia.
  rewrite <-(Hi 0%nat ltac:(cbn; lia)) at 1 || (specialize (Hi 0%nat ltac:(cbn; lia)); cbn in Hi; by rewrite Z.add_0_r in Hi).
Qed.

Lemma rep_back r es e : rep r (es ++ [e]) → back r = Some e.
Proof.
  intros (Hn & Hh & Ht & Hlen & Hi). unfold back, at_. rewrite prev_mod by lia.
  pose proof (Z.mod_pos_bound (tail r - 1) (zlen (data r)) ltac:(lia)). tests.
  specialize (Hi (length es) ltac:(rewrite length_app; cbn; lia)). rewrite lookup_app_r, Nat.sub_diag in Hi by lia. cbn in Hi.
  rewrite Hi. f_equal. f_equal. rewrite zlen_app in Hlen. change (zlen [e]) with 1 in Hlen.
  assert (Z.of_nat (length es) = (tail r - head r) mod zlen (data r) - 1) as -> by (unfold zlen in *; lia).
  replace (head r + ((tail r - head r) mod zlen (data r) - 1)) with ((head r - 1) + (tail r - head r) mod zlen (data r)) by lia.
  rewrite Zplus_mod_idemp_r. f_equal. lia.
Qed.

Lemma vec_rep_pop r e es : rep r (e :: es) → rep (pop_front r) es.
Proof.
  intros Hr. pose proof (rep_empty _ _ Hr) as He. pose proof (rep_cases _ _ Hr) as Hc. destruct Hr as (Hn & Hh & Ht & Hlen & Hi).
  unfold empty in He. rewrite bool_decide_false in He by done. unfold pop_front. rewrite He.
  pose proof (Z.mod_pos_bound (head r + 1) (zlen (data r)) ltac:(lia)).
  split; [done|]. cbn [data head tail]. rewrite shift_mod by lia. split; [lia|]. split; [lia|].
  rewrite zlen_cons in *. split.
  - rewrite Zminus_mod_idemp_r. replace (tail r - (head r + 1)) with (tail r - head r - 1) by lia.
    rewrite <-Zminus_mod_idemp_l, <-Hlen, Z.mod_small; [lia|]. pose proof (zlen_nonneg es). lia.
  - intros i Hlt. specialize (Hi (S i) ltac:(cbn; lia)). etransitivity; [exact Hi|].
    rewrite Zplus_mod_idemp_l. do 3 f_equal. lia.
Qed.

Lemma vec_rep_push r es v : rep r es → zlen es < zlen (data r) - 1 →
  ∃ r', push_back r v = Some (Some r') ∧ rep r' (es ++ [v]) ∧ zlen (data r') = zlen (data r).
Proof.
  intros Hr Hroom. pose proof (rep_cases _ _ Hr) as Hc. destruct Hr as (Hn & Hh & Ht & Hlen & Hi). unfold push_back. cbv zeta.
  rewrite shift_mod by lia. pose proof (Z.mod_pos_bound (tail r + 1) (zlen (data r)) ltac:(lia)) as Hb.
  assert ((tail r + 1) mod zlen (data r) = tail r + 1 ∨ (tail r + 1 = zlen (data r) ∧ (tail r + 1) mod zlen (data r) = 0)) as Hm.
  { destruct (decide (tail r + 1 = zlen (data r))) as [->|]; [right; by rewrite Z.mod_same by lia|left; apply Z.mod_small; lia]. }
  tests. eexists. split; [reflexivity|]. assert (zlen (<[Z.to_nat (tail r) := v]> (data r)) = zlen (data r)) as E by (unfold zlen; by rewrite length_insert).
  split; [|done]. split; cbn [data head tail]; rewrite E; [done|]. split; [lia|]. split; [lia|]. rewrite zlen_app. change (zlen [v]) with 1. split.
  - rewrite Zminus_mod_idemp_l. replace (tail r + 1 - head r) with (tail r - head r + 1) by lia.
    rewrite <-Zplus_mod_idemp_l, <-Hlen, Z.mod_small; [lia|]. pose proof (zlen_nonneg es). lia.
  - intros i Hlt. rewrite length_app in Hlt. cbn in Hlt.
    pose proof (Z.mod_pos_bound (head r + Z.of_nat i) (zlen (data r)) ltac:(lia)) as Hbi.
    assert ((head r + Z.of_nat i) mod zlen (data r) = head r + Z.of_nat i ∨ (head r + Z.of_nat i) mod zlen (data r) = head r + Z.of_nat i - zlen (data r)) as Hmi.
    { destruct (decide (head r + Z.of_nat i < zlen (data r))); [left; apply Z.mod_small; lia|right]. symmetry. apply Z.mod_unique_pos with 1; unfold zlen in *; lia. }
    destruct (decide (i < length es)%nat) as [Hl|Hl].
    + rewrite lookup_app_l by lia. rewrite (Hi i Hl). symmetry. apply list_lookup_insert_ne. unfold zlen in *. lia.
    + assert (i = length es) as -> by lia. rewrite lookup_app_r, Nat.sub_diag by lia. cbn.
      replace (Z.to_nat ((head r + Z.of_nat (length es)) mod zlen (data r))) with (Z.to_nat (tail r)) by (unfold zlen in *; lia).
      rewrite list_lookup_insert_eq; [done|unfold zlen in *; lia].
Qed.
End Ops.
End VecRing.

Module DataRing.
Import VecRing.

(** [framed_data_t]: the place of the frame in the buffer and the size of the data. *)
Definition framed : Type := Z * Z.

(** [DataRing<T>] *)
Record data_ring := DRing { index : ring framed; bytes : list Z }.

Section Ops.
(** [sizeof (T)] *)
Context (frame_size : Z).

Definition end_ (e : framed) : Z := fst e + frame_size + snd e.

Definition make (entries : nat) (size : nat) : data_ring := DRing (VecRing.make (0, 0) entries) (replicate size 0).
Definition clear (r : data_ring) : data_ring := DRing (VecRing.clear (index r)) (bytes r).
Definition pop_front (r : data_ring) : data_ring := DRing (VecRing.pop_front (index r)) (bytes r).
Definition empty (r : data_ring) : bool := VecRing.empty (index r).

(** Addresses are offsets in the buffer. *)
Definition data_head (r : data_ring) : option Z :=
  if empty r then Some (zlen (bytes r)) else let! e := front (index r) in Some (fst e).
Definition data_tail (r : data_ring) : option Z :=
  if empty r then Some 0 else let! e := back (index r) in Some (end_ e).

Definition data_capacity (r : data_ring) : Z := zlen (bytes r).

Definition data_size (r : data_ring) : option Z :=
  if empty r then Some 0 else
  let! f := front (index r) in
  let! b := back (index r) in
  Some (if fst f <? end_ b then end_ b - fst f else end_ b + zlen (bytes r) - fst f).

Definition data_free (r : data_ring) : option Z :=
  if empty r then Some (zlen (bytes r)) else
  let! f := front (index r) in
  let! b := back (index r) in
  Some (if fst f <? end_ b then Z.max (zlen (bytes r) - end_ b) (fst f) else fst f - end_ b).

(** Where [push_back] puts an entry of [full] bytes. *)
Definition place (r : data_ring) (full : Z) : option (option Z) :=
  let! tl := data_tail r in
  let! hd := data_head r in
  Some (if hd <? tl then
          if zlen (bytes r) - tl <? full then (if hd <? full then None else Some 0) else Some tl
        else if hd - tl <? full then None else Some tl).

(** [push_back (value, data, size)] with the bytes of the frame. *)
Definition push_back (r : data_ring) (frame data : list Z) : option (option data_ring) :=
  if VecRing.size (index r) =? VecRing.capacity (index r) then Some None else
  let full := frame_size + zlen data in
  if zlen (bytes r) <? full then Some None else
  let! p := place r full in
  match p with
  | None => Some None
  | Some tl =>
      let! b := mem_store (bytes r) (tl + frame_size) data in
      let! i := VecRing.push_back (index r) (tl, zlen data) in
      match i with
      | None => Some None
      | Some i => let! b := mem_store b tl frame in Some (Some (DRing i b))
      end
  end.

(** The frame and the data in front. *)
Definition peek (r : data_ring) : option (list Z * list Z) :=
  let! e := front (index r) in
  let! f := mem_load (bytes r) (fst e) frame_size in
  let! d := mem_load (bytes r) (fst e + frame_size) (snd e) in
  Some (f, d).
End Ops.

(** ** What a ring holds *)
Section Rep.
Context (fs : Z) (Hfs : 0 < fs).

(** Entries one behind another from [a] to [b]. *)
Fixpoint chain (a : Z) (es : list framed) (b : Z) : Prop :=
  match es with
  | [] => a = b
  | e :: es => fst e = a ∧ 0 ≤ snd e ∧ chain (end_ fs e) es b
  end.

Definition holds_entry (d : list Z) (e : framed) (m : list Z * list Z) : Prop :=
  mem_load d (fst e) fs = Some (fst m) ∧ mem_load d (fst e + fs) (snd e) = Some (snd m) ∧ zlen (fst m) = fs.

(** The entries run from [h] to [e1] and then, when the ring has wrapped around,
    from the start of the buffer to [e2]. *)
Definition placed (n : Z) (es1 es2 : list framed) : Prop :=
  ∃ h e1 e2, chain h es1 e1 ∧ 0 ≤ h ∧ e1 ≤ n ∧ chain 0 es2 e2 ∧ (es2 ≠ [] → es1 ≠ [] ∧ e2 ≤ h).

Definition rep (r : data_ring) (q : list (list Z * list Z)) : Prop :=
  ∃ es1 es2, VecRing.rep (index r) (es1 ++ es2) ∧ placed (zlen (bytes r)) es1 es2 ∧
    Forall2 (holds_entry (bytes r)) (es1 ++ es2) q.

Lemma end_gt e : 0 ≤ snd e → fst e < end_ fs e.
Proof. unfold end_. lia. Qed.

Lemma chain_le a es b : chain a es b → a ≤ b.
Proof. revert a. induction es as [|e es IH]; intros a; cbn; [lia|]. intros (<- & Hs & H%IH). pose proof (end_gt e Hs). lia. Qed.

Lemma chain_app a es1 es2 b : chain a (es1 ++ es2) b ↔ ∃ c, chain a es1 c ∧ chain c es2 b.
Proof.
  revert a. induction es1 as [|e es1 IH]; intros a; cbn.
  - split; [intros H; by exists a|]. intros (c & -> & H). done.
  - rewrite IH. naive_solver.
Qed.

Lemma chain_in a es b e : chain a es b → e ∈ es → a ≤ fst e ∧ 0 ≤ snd e ∧ end_ fs e ≤ b.
Proof.
  revert a. induction es as [|x es IH]; intros a H He; [by apply not_elem_of_nil in He|].
  destruct H as (<- & Hs & H). apply elem_of_cons in He as [->|He].
  - apply chain_le in H. lia.
  - destruct (IH _ H He) as (? & ? & ?). pose proof (end_gt x Hs). lia.
Qed.

Lemma chain_push a es b s : chain a es b → 0 ≤ s → chain a (es ++ [(b, s)]) (b + fs + s).
Proof. intros H Hs. apply chain_app. exists b. split; [done|]. cbn. done. Qed.

Lemma chain_last a es b x : chain a es b → last es = Some x → end_ fs x = b.
Proof. intros H Hx. apply last_Some in Hx as (l & ->). apply chain_app in H as (c & _ & H). cbn in H. by destruct H as (_ & _ & H). Qed.

(** The entries in the order of the queue and the two ends. *)
Lemma placed_ends n es1 es2 : placed n es1 es2 → es1 ++ es2 ≠ [] →
  ∃ f l b, es1 ++ es2 = f :: l ∧ last (es1 ++ es2) = Some b ∧ 0 ≤ fst f ∧
    ((es2 = [] ∧ chain (fst f) es1 (end_ fs b) ∧ fst f < end_ fs b ≤ n) ∨
     (es2 ≠ [] ∧ chain 0 es2 (end_ fs b) ∧ end_ fs b ≤ fst f ∧ ∃ e1, chain (fst f) es1 e1 ∧ e1 ≤ n)).
Proof.
  intros (h & e1 & e2 & H1 & Hh & He1 & H2 & Hw) Hne.
  destruct es1 as [|f es1]; [destruct es2; [done|]; destruct (Hw ltac:(done)); done|].
  destruct H1 as (<- & Hs & H1). exists f, (es1 ++ es2). destruct es2 as [|x es2].
  - destruct (last (f :: es1)) as [b|] eqn:E; [|by apply last_None in E]. exists b.
    split; [done|]. rewrite app_nil_r. split; [done|]. split; [done|]. left. split; [done|].
    assert (chain (fst f) (f :: es1) e1) as Hc by done. rewrite (chain_last _ _ _ _ Hc E). split; [done|].
    pose proof (chain_le _ _ _ H1). pose proof (end_gt f Hs). lia.
  - destruct (last (x :: es2)) as [b|] eqn:E; [|by apply last_None in E]. exists b.
    split; [done|]. split; [by rewrite last_app, E|]. split; [done|]. right. split; [done|].
    rewrite (chain_last _ _ _ _ H2 E). split; [done|]. split; [by apply Hw|]. exists e1. done.
Qed.

(** What the pointers to the ends are. *)
Lemma rep_ends r es f l b : VecRing.rep (index r) es → es = f :: l → last es = Some b →
  empty r = false ∧ front (index r) = Some f ∧ back (index r) = Some b.
Proof.
  intros Hr -> Hb. unfold empty. rewrite (rep_empty _ _ Hr), bool_decide_false by done.
  split; [done|]. split; [by eapply rep_front|]. apply last_Some in Hb as (l' & E). rewrite E in Hr. by eapply rep_back.
Qed.

Lemma rep_nil r q : rep r q → empty r = bool_decide (q = []).
Proof.
  intros (es1 & es2 & Hi & _ & Hq). unfold empty. rewrite (rep_empty _ _ Hi). apply Forall2_length in Hq.
  apply bool_decide_ext. destruct (es1 ++ es2), q; done.
Qed.

Lemma data_rep_pop r m q : rep r (m :: q) → rep (pop_front r) q.
Proof.
  intros (es1 & es2 & Hi & (h & e1 & e2 & H1 & Hh & He1 & H2 & Hw) & Hq).
  apply Forall2_cons_inv_r in Hq as (e & es & He & Hq & E). destruct es1 as [|x es1].
  - cbn in E. subst es2. by destruct (Hw ltac:(done)).
  - injection E as -> E. destruct H1 as (<- & Hs & H1). pose proof (end_gt e Hs). pose proof (chain_le _ _ _ H1).
    cbn in Hi. apply VecRing.vec_rep_pop in Hi. unfold rep, pop_front. cbn [index bytes]. destruct es1 as [|y es1].
    + exists es2, []. rewrite app_nil_r. cbn in E, H1. subst es e1. split; [done|]. split; [|done].
      exists 0, e2, 0. split; [done|]. split; [lia|]. split; [|done]. destruct es2; [cbn in H2; lia|]. destruct (Hw ltac:(done)). lia.
    + exists (y :: es1), es2. subst es. split; [done|]. split; [|done].
      exists (end_ fs e), e1, e2. split; [done|]. split; [lia|]. split; [done|]. split; [done|].
      intros Hne. destruct (Hw Hne). split; [done|lia].
Qed.

Lemma rep_peek r m q : rep r (m :: q) → peek fs r = Some m.
Proof.
  intros (es1 & es2 & Hi & _ & Hq). apply Forall2_cons_inv_r in Hq as (e & es & (H1 & H2 & _) & _ & E).
  rewrite E in Hi. unfold peek. rewrite (rep_front _ _ _ Hi). cbn [mbind option_bind]. rewrite H1. cbn [mbind option_bind].
  rewrite H2. by destruct m.
Qed.

(** Entries that the bytes from [lo] to [hi] are not part of. *)
Definition apart (lo hi : Z) (e : framed) : Prop := end_ fs e ≤ lo ∨ hi ≤ fst e.

Lemma chain_apart a es b lo hi : chain a es b → b ≤ lo ∨ hi ≤ a → Forall (apart lo hi) es.
Proof. intros H Hd. apply Forall_forall. intros e He. destruct (chain_in _ _ _ _ H He) as (? & ? & ?). unfold apart. lia. Qed.

Lemma store_entry d tl frame dt d1 d2 :
  zlen frame = fs → mem_store d (tl + fs) dt = Some d1 → mem_store d1 tl frame = Some d2 →
  holds_entry d2 (tl, zlen dt) (frame, dt) ∧
  ∀ e m, 0 ≤ snd e → apart tl (tl + fs + zlen dt) e → holds_entry d e m → holds_entry d2 e m.
Proof.
  intros Hf H1 H2. pose proof (zlen_nonneg dt). split.
  - split; [|split]; cbn [fst snd].
    + rewrite <-Hf. by eapply mem_load_store_same.
    + rewrite (mem_load_store_disj _ _ _ _ _ _ H2) by lia. by eapply mem_load_store_same.
    + done.
  - intros e m Hs Hap (Ha & Hb & Hc). unfold apart, end_ in Hap.
    split; [|split; [|done]].
    + rewrite (mem_load_store_disj _ _ _ _ _ _ H2), (mem_load_store_disj _ _ _ _ _ _ H1) by lia. done.
    + rewrite (mem_load_store_disj _ _ _ _ _ _ H2), (mem_load_store_disj _ _ _ _ _ _ H1) by lia. done.
Qed.

(** Where an entry is put, when there is a place. *)
Lemma place_spec r q full : rep r q → fs ≤ full ≤ zlen (bytes r) →
  ∃ p, place fs r full = Some p ∧ (q = [] → p = Some 0) ∧
  match p with
  | None => True
  | Some tl => 0 ≤ tl ∧ tl + full ≤ zlen (bytes r) ∧
      ∃ es1 es2 es1' es2', VecRing.rep (index r) (es1 ++ es2) ∧ Forall2 (holds_entry (bytes r)) (es1 ++ es2) q ∧
        es1' ++ es2' = (es1 ++ es2) ++ [(tl, full - fs)] ∧ placed (zlen (bytes r)) es1' es2' ∧
        Forall (λ e, 0 ≤ snd e ∧ apart tl (tl + full) e) (es1 ++ es2)
  end.
Proof.
  intros Hr Hfull. pose proof (rep_nil _ _ Hr) as Hnil. destruct Hr as (es1 & es2 & Hi & Hp & Hq). unfold place, data_tail, data_head. rewrite Hnil.
  destruct q as [|m q]; [|rewrite bool_decide_false by done].
  - rewrite bool_decide_true by done. cbn [mbind option_bind]. tests. exists (Some 0). split; [done|]. split; [done|].
    apply Forall2_nil_inv_r in Hq as E. rewrite E in *. split; [lia|]. split; [lia|]. exists [], [], [(0, full - fs)], [].
    split; [done|]. split; [done|]. split; [done|]. split; [|constructor].
    exists 0, full, 0. split; [cbn; unfold end_; cbn; lia|]. split; [lia|]. split; [lia|]. done.
  - assert (es1 ++ es2 ≠ []) as Hne by (intros E; rewrite E in Hq; by apply Forall2_nil_inv_l in Hq).
    destruct (placed_ends _ _ _ Hp Hne) as (f & l & b & El & Eb & Hf0 & Hc).
    destruct (rep_ends r _ _ _ _ Hi El Eb) as (_ & Ef & Ebk). rewrite Ef, Ebk. cbn [mbind option_bind].
    assert (∀ tl hi, Forall (apart tl hi) es1 → Forall (apart tl hi) es2 → Forall (λ e, 0 ≤ snd e ∧ apart tl hi e) (es1 ++ es2)) as Hall.
    { intros tl hi H1 H2. destruct Hp as (h & e1 & e2 & C1 & _ & _ & C2 & _). rewrite Forall_forall in *. intros e He.
      apply elem_of_app in He as [He|He]; [destruct (chain_in _ _ _ _ C1 He) as (_ & ? & _)|destruct (chain_in _ _ _ _ C2 He) as (_ & ? & _)]; auto. }
    destruct Hc as [(-> & C1 & Hb)|(Hne2 & C2 & Hb & e1 & C1 & He1)].
    + tests. pose proof (chain_le _ _ _ C1). destruct (Z.ltb_spec (zlen (bytes r) - end_ fs b) full).
      * destruct (Z.ltb_spec (fst f) full); [by exists None|]. exists (Some 0). split; [done|]. split; [done|].
        split; [lia|]. split; [lia|]. exists es1, [], es1, [(0, full - fs)]. rewrite app_nil_r in *.
        split; [done|]. split; [done|]. split; [done|]. split.
        -- exists (fst f), (end_ fs b), full. split; [done|]. split; [lia|]. split; [lia|]. split; [cbn; unfold end_; cbn; lia|].
           intros _. split; [done|lia].
        -- rewrite ?app_nil_r; apply Hall; [|constructor]; apply (chain_apart _ _ _ _ _ C1). lia.
      * exists (Some (end_ fs b)). split; [done|]. split; [done|]. split; [lia|]. split; [lia|].
        exists es1, [], (es1 ++ [(end_ fs b, full - fs)]), []. rewrite !app_nil_r in *. split; [done|]. split; [done|]. split; [done|]. split.
        -- exists (fst f), (end_ fs b + fs + (full - fs)), 0. split; [apply chain_push; [done|lia]|]. split; [lia|]. split; [lia|]. done.
        -- rewrite ?app_nil_r; apply Hall; [|constructor]; apply (chain_apart _ _ _ _ _ C1). lia.
    + tests. pose proof (chain_le _ _ _ C2). pose proof (chain_le _ _ _ C1).
      destruct (Z.ltb_spec (fst f - end_ fs b) full); [by exists None|]. exists (Some (end_ fs b)). split; [done|]. split; [done|].
      split; [lia|]. split; [lia|]. exists es1, es2, es1, (es2 ++ [(end_ fs b, full - fs)]).
      split; [done|]. split; [done|]. split; [by rewrite app_assoc|]. split.
      * exists (fst f), e1, (end_ fs b + fs + (full - fs)). split; [done|]. split; [lia|]. split; [lia|].
        split; [apply chain_push; [done|lia]|]. intros _. split; [|lia]. intros ->. destruct Hp as (? & ? & ? & ? & ? & ? & ? & Hw).
        by destruct (Hw Hne2).
      * apply Hall; [apply (chain_apart _ _ _ _ _ C1); lia|apply (chain_apart _ _ _ _ _ C2); lia].
Qed.

(** [push_back] appends the entry or leaves the ring as it is, and there is always
    room for one entry when the ring is empty. *)
Lemma data_rep_push r q frame dt : rep r q → zlen frame = fs →
  ∃ o, push_back fs r frame dt = Some o ∧
    match o with
    | Some r' => rep r' (q ++ [(frame, dt)]) ∧ zlen (bytes r') = zlen (bytes r) ∧ capacity (index r') = capacity (index r)
    | None => q = [] → capacity (index r) ≤ 0 ∨ zlen (bytes r) < fs + zlen dt
    end.
Proof.
  intros Hr Hf. pose proof (zlen_nonneg dt) as Hdt.
  assert (∃ es, VecRing.rep (index r) es ∧ length es = length q) as (es & Hes & Hlen).
  { destruct Hr as (es1 & es2 & Hi & _ & Hq). exists (es1 ++ es2). split; [done|]. by eapply Forall2_length. }
  destruct (rep_capacity _ _ Hes) as [Ecap Hcap]. unfold push_back. rewrite (rep_size _ _ Hes).
  destruct (Z.eqb_spec (zlen es) (capacity (index r))) as [E|E].
  { exists None. split; [done|]. intros ->. left. unfold zlen in E. rewrite Hlen in E. cbn in E. lia. }
  cbv zeta. destruct (Z.ltb_spec (zlen (bytes r)) (fs + zlen dt)) as [|Hfit]; [exists None; split; [done|]; auto|].
  destruct (place_spec r q (fs + zlen dt) Hr ltac:(lia)) as (p & -> & Hp0 & Hp). cbn [mbind option_bind].
  destruct p as [tl|]; [|exists None; split; [done|]; intros ->; by specialize (Hp0 eq_refl)].
  destruct Hp as (Htl & Hend & es1 & es2 & es1' & es2' & Hi & Hq & Ees & Hpl & Hap).
  destruct (mem_store_total (bytes r) (tl + fs) dt) as (d1 & H1); [lia|lia|]. rewrite H1. cbn [mbind option_bind].
  assert (length (es1 ++ es2) = length q) as Hlen' by (by eapply Forall2_length).
  destruct (VecRing.vec_rep_push (index r) (es1 ++ es2) (tl, zlen dt) Hi) as (i' & -> & Hi' & Hzi).
  { unfold zlen in *. lia. }
  cbn [mbind option_bind]. pose proof (mem_store_zlen _ _ _ _ H1) as Hz1.
  destruct (mem_store_total d1 tl frame) as (d2 & H2); [lia|lia|]. rewrite H2. cbn [mbind option_bind].
  eexists. split; [reflexivity|]. pose proof (mem_store_zlen _ _ _ _ H2) as Hz2.
  destruct (store_entry _ _ _ _ _ _ Hf H1 H2) as [Hnew Hold]. replace (fs + zlen dt - fs) with (zlen dt) in Ees by lia.
  split; [|split; [cbn [bytes]; congruence|cbn [index]; unfold capacity; by rewrite Hzi]]. exists es1', es2'. cbn [index bytes]. rewrite Ees.
  split; [done|]. split; [by rewrite Hz2, Hz1|]. apply Forall2_app; [|by constructor].
  apply Forall2_same_length_lookup in Hq as [Hl Hq]. apply Forall2_same_length_lookup. split; [done|].
  intros i e m He Hm. rewrite Forall_forall in Hap. destruct (Hap e ltac:(by eapply list_elem_of_lookup_2)) as [Hs Ha].
  apply Hold; [done| |by apply (Hq i)]. unfold apart in *. lia.
Qed.

Lemma rep_make (n size : nat) : 1 ≤ Z.of_nat n < 2 ^ 32 → rep (make n size) [].
Proof.
  intros Hn. exists [], []. split; [|split; [|constructor]].
  - assert (index (make n size) = VecRing.clear (index (make n size))) as -> by done. apply rep_clear. cbn.
    unfold zlen. by rewrite length_replicate.
  - exists 0, 0, 0. split; [done|]. split; [lia|]. split; [apply zlen_nonneg|]. done.
Qed.

Lemma rep_data_clear r q : rep r q → rep (clear r) [].
Proof.
  intros (es1 & es2 & Hi & _). exists [], []. split; [apply rep_clear, Hi|]. split; [|constructor].
  exists 0, 0, 0. split; [done|]. split; [lia|]. split; [apply zlen_nonneg|]. done.
Qed.

(** ** The ring as a queue of frames with their data *)
Definition split_msg (m : Fifo.msg) : list Z * list Z := (take (Z.to_nat fs) m, drop (Z.to_nat fs) m).
Definition join_msg (p : list Z * list Z) : Fifo.msg := p.1 ++ p.2.

Lemma join_split m : join_msg (split_msg m) = m.
Proof. apply take_drop. Qed.

#[program] Definition data_fifo : Fifo data_ring := {|
  fifo_push r m :=
    let! o := push_back fs r (split_msg m).1 (split_msg m).2 in
    Some (match o with Some r => Ok r | None => Err EAGAIN end);
  fifo_read r := if empty r then Some (Err EAGAIN) else let! p := peek fs r in Some (Ok (join_msg p));
  fifo_shift r := Some (if empty r then Err EAGAIN else Ok (pop_front r));
  fifo_rep r q := ∃ q', rep r q' ∧ q = join_msg <$> q';
  fifo_msg_ok m := fs ≤ zlen m;
|}.
Next Obligation.
  cbn. intros r q m (q' & Hr & ->) Hm. assert (zlen (split_msg m).1 = fs) as Hf.
  { cbn. unfold zlen in *. rewrite length_take. lia. }
  destruct (data_rep_push r q' (split_msg m).1 (split_msg m).2 Hr Hf) as (o & Eo & H). cbn in Eo. rewrite Eo. cbn. destruct o as [r'|]; [|eauto].
  destruct H as [H _]. left. exists r'. split; [done|]. eexists. split; [exact H|]. rewrite fmap_app. cbn. f_equal.
  f_equal. symmetry. exact (join_split m).
Qed.
Next Obligation.
  cbn. intros r q (q' & Hr & ->). rewrite (rep_nil _ _ Hr). destruct q' as [|p q']; cbn; [done|]. by rewrite (rep_peek _ _ _ Hr).
Qed.
Next Obligation.
  cbn. intros r q (q' & Hr & ->). rewrite (rep_nil _ _ Hr). destruct q' as [|p q']; cbn; [done|].
  eexists. split; [done|]. exists q'. split; [|done]. by eapply data_rep_pop.
Qed.
End Rep.

(** C37: a ring of frames is a queue: any interleaving of writes and reads on a new ring
    stays inside the vector and the buffer, what was received followed by what is stored
    is what was accepted, and a ring with two or more entries that is empty takes any message
    that fits in its buffer. *)
Theorem data_ring_queue fs (Hfs : 0 < fs) (n size : nat) ops :
  1 ≤ Z.of_nat n < 2 ^ 32 → Forall (@op_ok data_ring (data_fifo fs Hfs)) ops →
  ∃ r q l, @fifo_run data_ring (data_fifo fs Hfs) (make n size) {| accepted := []; received := [] |} ops = Some (r, l) ∧
    @fifo_rep data_ring (data_fifo fs Hfs) r q ∧ accepted l = received l ++ q ∧
    (q = [] → 0 < capacity (index r) → ∀ m, fs ≤ zlen m ≤ zlen (bytes r) →
      ∃ r', @fifo_push data_ring (data_fifo fs Hfs) r m = Some (Ok r')).
Proof.
  intros Hn Hok. destruct (@fifo_run_inv data_ring (data_fifo fs Hfs) ops (make n size) []
    {| accepted := []; received := [] |}) as (r & q & l & Hrun & Hrep & Hl); [|done..|].
  { exists []. split; [by apply rep_make|done]. }
  exists r, q, l. split; [done|]. split; [done|]. split; [done|]. intros -> Hcap m Hm.
  destruct Hrep as (q' & Hr & E). symmetry in E. apply fmap_nil_inv in E as ->. cbn.
  destruct (data_rep_push fs Hfs r [] (split_msg fs m).1 (split_msg fs m).2 Hr) as (o & Eo & H).
  { cbn. unfold zlen in *. rewrite length_take. lia. }
  cbn in Eo. rewrite Eo. destruct o as [r'|]; [by exists r'|]. cbn in H. specialize (H eq_refl).
  unfold zlen in *. rewrite length_drop in H. lia.
Qed.

Lemma frame_pos : 0 < 2.
Proof. done. Qed.

Lemma data_ring_queue_witness :
  ∃ r q l, @fifo_run data_ring (data_fifo 2 frame_pos) (make 3 10) {| accepted := []; received := [] |}
      [Push [1; 2; 3; 4; 5]; Push [6; 7; 8]; Pop; Push [9; 10; 11]; Pop; Pop; Pop] = Some (r, l) ∧
    @fifo_rep data_ring (data_fifo 2 frame_pos) r q ∧ accepted l = received l ++ q ∧
    (q = [] → 0 < capacity (index r) → ∀ m, 2 ≤ zlen m ≤ zlen (bytes r) →
      ∃ r', @fifo_push data_ring (data_fifo 2 frame_pos) r m = Some (Ok r')).
Proof. apply (data_ring_queue 2); [done|]. repeat constructor; vm_compute; congruence. Defined.
End DataRing.
