(* ===== verification/StreamScheme.v ===== *)
(** * Messages of the stream protocol

    Requests, replies, errors and the report that a client is done, as the client and the
    server write and read them through the binders of src/channel/stream-scheme.h:
    fields at fixed offsets, strings behind pointers, a union of the kinds of
    requests. *)
From S2P Require Import Prelude Mem Binder.
Import Binder.

Module StreamScheme.

Definition Version_Current : Z := 1.
Definition RequestOld_meta_id : Z := 11.
Definition RequestOld_meta_size : Z := 34.
Definition Request_meta_id : Z := 12.
Definition Request_meta_size : Z := 35.
Definition Reply_meta_id : Z := 20.
Definition Reply_meta_size : Z := 32.
Definition Error_meta_id : Z := 30.
Definition Error_meta_size : Z := 16.
Definition ClientDone_meta_id : Z := 40.
Definition ClientDone_meta_size : Z := 8.

(** Scalars of a signed type. *)
Definition get_signed (n : nat) (buf : list Z) (off : Z) : option Z :=
  let! v := _get_scalar n buf off in Some (wraps (8 * Z.of_nat n) v).

(** [Request::Data]: the index of the union and its value. *)
Inductive request_data :=
| DataSeq (seq : Z)
| DataBlock (block : list Z) (index : Z)
| DataInitial
| DataLast.

#[export] Instance request_data_eq_dec : EqDecision request_data.
Proof. solve_decision. Defined.

Definition set_data (buf : list Z) (d : request_data) : option (list Z) :=
  match d with
  | DataSeq s => let! b := _set_scalar 1 buf 18 0 in _set_scalar 8 b 19 s
  | DataBlock block index =>
      let! b := _set_scalar 1 buf 18 1 in
      let! b := _set_scalar 8 b 27 index in
      _set_string b 19 block
  | DataInitial => let! b := _set_scalar 1 buf 18 2 in _set_scalar 1 b 19 0
  | DataLast => let! b := _set_scalar 1 buf 18 3 in _set_scalar 1 b 19 0
  end.

(** A value that no field of the union has; the index is returned. *)
Definition get_data (buf : list Z) : option (result Z request_data) :=
  let! t := get_signed 1 buf 18 in
  if t =? 0 then let! s := _get_scalar 8 buf 19 in Some (Ok (DataSeq s))
  else if t =? 1 then
    let! b := _get_string buf 19 in
    let! i := get_signed 8 buf 27 in
    Some (Ok (DataBlock b i))
  else if t =? 2 then Some (Ok DataInitial)
  else if t =? 3 then Some (Ok DataLast)
  else Some (Err t).

(** ** Requests *)

(** The buffer with the version and the name of the client. *)
Definition request_begin (old : bool) (peer : list Z) : option (list Z) :=
  let! b := _set_scalar 2 (zeros Request_meta_size) 0 Version_Current in
  match peer with
  | [] => Some b
  | _ => if old then _set_string b 10 peer else _set_string b 2 peer
  end.

Definition request_new (peer : list Z) (d : request_data) : option (list Z) :=
  let! b := request_begin false peer in set_data b d.

(** The old message: a number, or a number of a block and its type. *)
Definition request_old (peer : list Z) (seq : Z) (block : option (list Z)) : option (list Z) :=
  let! b := request_begin true peer in
  let! b := _set_scalar 8 b 2 seq in
  match block with None => Some b | Some t => _set_string b 18 t end.

(** What is wrong with a request. *)
Inductive request_error := ShortMessage | InvalidVersion (v : Z) | InvalidUnion (t : Z) | NegativeSeq (s : Z) | UnknownMessage (id : Z).

(** The part of the server that reads a request: the name of the client and the request. *)
Definition parse_request (msgid : Z) (buf : list Z) : option (result request_error (list Z * request_data)) :=
  if msgid =? Request_meta_id then
    if zlen buf <? Request_meta_size then Some (Err ShortMessage) else
    let! v := get_signed 2 buf 0 in
    if negb (v =? Version_Current) then Some (Err (InvalidVersion v)) else
    let! client := _get_string buf 2 in
    let! d := get_data buf in
    Some (match d with Ok d => Ok (client, d) | Err t => Err (InvalidUnion t) end)
  else if msgid =? RequestOld_meta_id then
    if zlen buf <? RequestOld_meta_size then Some (Err ShortMessage) else
    let! v := get_signed 2 buf 0 in
    if negb (v =? Version_Current) then Some (Err (InvalidVersion v)) else
    let! client := _get_string buf 10 in
    let! block := _get_string buf 18 in
    let! seq := get_signed 8 buf 2 in
    Some (match block with
          | _ :: _ => Ok (client, DataBlock block seq)
          | [] => if 0 <=? seq then Ok (client, DataSeq seq) else Err (NegativeSeq seq)
          end)
  else Some (Err (UnknownMessage msgid)).

(** ** Answers *)
Record reply := Reply { last_seq : Z; requested_seq : Z; block_seq : Z }.

Definition make_reply (r : reply) : option (list Z) :=
  let! b := _set_scalar 8 (zeros Reply_meta_size) 0 (last_seq r) in
  let! b := _set_scalar 8 b 16 (block_seq r) in
  _set_scalar 8 b 8 (requested_seq r).

Definition get_reply (buf : list Z) : option reply :=
  let! l := get_signed 8 buf 0 in
  let! q := get_signed 8 buf 8 in
  let! b := get_signed 8 buf 16 in
  Some (Reply l q b).

Definition make_error (text : list Z) : option (list Z) := _set_string (zeros Error_meta_size) 0 text.
Definition get_error (buf : list Z) : option (list Z) := _get_string buf 0.

Definition make_done (seq : Z) : option (list Z) := _set_scalar 8 (zeros ClientDone_meta_size) 0 seq.
Definition get_done (buf : list Z) : option Z := get_signed 8 buf 0.

(** ** Fields *)
Definition i64_ok (z : Z) : Prop := - 2 ^ 63 ≤ z < 2 ^ 63.

Lemma wraps_mod w z : 0 < w → - 2 ^ (w - 1) ≤ z < 2 ^ (w - 1) → wraps w (z mod 2 ^ w) = z.
Proof. intros Hw Hz. unfold wraps. rewrite Zplus_mod_idemp_l. by apply wraps_id. Qed.

Lemma get_signed_same n buf off v buf' : _set_scalar n buf off v = Some buf' → (0 < n)%nat →
  - 2 ^ (8 * Z.of_nat n - 1) ≤ v < 2 ^ (8 * Z.of_nat n - 1) → get_signed n buf' off = Some v.
Proof.
  intros H Hn Hv. unfold get_signed. rewrite (get_set_same _ _ _ _ _ H). cbn [mbind option_bind].
  replace (256 ^ Z.of_nat n) with (2 ^ (8 * Z.of_nat n)) by (rewrite Z.pow_mul_r by lia; done).
  by rewrite wraps_mod by lia.
Qed.

Lemma get_signed_disj n n' buf off off' v buf' : _set_scalar n buf off v = Some buf' →
  off' + Z.of_nat n' ≤ off ∨ off + Z.of_nat n ≤ off' → get_signed n' buf' off' = get_signed n' buf off'.
Proof. intros H Hd. unfold get_signed. by rewrite (get_set_disj _ _ _ _ _ _ _ H Hd). Qed.

Lemma done_roundtrip seq : i64_ok seq → ∃ b, make_done seq = Some b ∧ zlen b = 8 ∧ get_done b = Some seq.
Proof.
  intros Hs. destruct (set_scalar_total 8 (zeros 8) 0 seq) as [b Hb]; [done|done|]. exists b. split; [exact Hb|].
  split; [by rewrite (set_scalar_zlen _ _ _ _ _ Hb)|]. eapply get_signed_same; [exact Hb|lia|exact Hs].
Qed.

Lemma reply_roundtrip r : i64_ok (last_seq r) → i64_ok (requested_seq r) → i64_ok (block_seq r) →
  ∃ b, make_reply r = Some b ∧ zlen b = 32 ∧ get_reply b = Some r.
Proof.
  intros H1 H2 H3. unfold make_reply.
  destruct (set_scalar_total 8 (zeros 32) 0 (last_seq r)) as [b1 E1]; [done|done|]. pose proof (set_scalar_zlen _ _ _ _ _ E1) as Z1.
  change (zlen (zeros 32)) with 32 in Z1. change Reply_meta_size with 32. rewrite E1. cbn [mbind option_bind].
  destruct (set_scalar_total 8 b1 16 (block_seq r)) as [b2 E2]; [lia|lia|]. pose proof (set_scalar_zlen _ _ _ _ _ E2) as Z2.
  rewrite E2. cbn [mbind option_bind].
  destruct (set_scalar_total 8 b2 8 (requested_seq r)) as [b3 E3]; [lia|lia|]. pose proof (set_scalar_zlen _ _ _ _ _ E3) as Z3.
  exists b3. split; [done|]. split; [lia|]. unfold get_reply.
  rewrite (get_signed_disj _ 8 _ _ 0 _ _ E3), (get_signed_disj _ 8 _ _ 0 _ _ E2), (get_signed_same _ _ _ _ _ E1) by (lia || exact H1).
  rewrite (get_signed_same _ _ _ _ _ E3) by (lia || exact H2).
  rewrite (get_signed_disj _ 8 _ _ 16 _ _ E3), (get_signed_same _ _ _ _ _ E2) by (lia || exact H3).
  by destruct r.
Qed.

(** ** Strings *)

(** A pointer that leads nowhere. *)
Definition fresh (buf : list Z) (p : Z) : Prop := 0 ≤ p ∧ p + 8 ≤ zlen buf ∧ load_ptr buf p = Some (OffsetPtr 0 0 0).

Lemma fresh_ptr buf p : fresh buf p → string_ptr buf p.
Proof. intros (H1 & H2 & H3). split; [done|]. split; [done|]. eexists. split; [exact H3|]. by left. Qed.

Lemma fresh_owns buf p i : fresh buf p → owns buf p i → p ≤ i < p + 8.
Proof. intros (_ & _ & H) [Hi|(q & Hq & Hi)]; [done|]. rewrite H in Hq. injection Hq as <-. cbn in Hi. lia. Qed.

Lemma scheme_get_agree n buf buf' off v : _get_scalar n buf off = Some v → zlen buf ≤ zlen buf' →
  (∀ i : nat, off ≤ Z.of_nat i < off + Z.of_nat n → buf' !! i = buf !! i) → _get_scalar n buf' off = Some v.
Proof.
  unfold _get_scalar. intros (bs & Hb & [= <-])%bind_Some Hz Hi. pose proof Hb as (? & ? & ? & _)%mem_load_Some.
  rewrite (mem_load_agree buf buf' _ _ _ Hb); [done|lia|done].
Qed.

Lemma load_ptr_agree buf buf' p q : load_ptr buf p = Some q → zlen buf ≤ zlen buf' →
  (∀ i : nat, p ≤ Z.of_nat i < p + 8 → buf' !! i = buf !! i) → load_ptr buf' p = Some q.
Proof.
  unfold load_ptr. intros (o & Ho & (s & Hs & (e & He & [= <-])%bind_Some)%bind_Some)%bind_Some Hz Hi.
  rewrite (scheme_get_agree _ _ buf' _ _ Ho), (scheme_get_agree _ _ buf' _ _ Hs), (scheme_get_agree _ _ buf' _ _ He); auto;
    intros; apply Hi; lia.
Qed.

Lemma fresh_agree buf buf' p : fresh buf p → zlen buf ≤ zlen buf' →
  (∀ i : nat, p ≤ Z.of_nat i < p + 8 → buf' !! i = buf !! i) → fresh buf' p.
Proof. intros (H1 & H2 & H3) Hz Hi. split; [done|]. split; [lia|]. by eapply load_ptr_agree. Qed.

(** A string is read as before when nothing of what it owns has changed. *)
Lemma get_string_agree buf buf' p : string_ptr buf p → zlen buf ≤ zlen buf' →
  (∀ i : nat, owns buf p (Z.of_nat i) → buf' !! i = buf !! i) → _get_string buf' p = _get_string buf p.
Proof.
  intros (Hp & Hl & q & Hq & Hptr) Hz Hi. assert (load_ptr buf' p = Some q) as Hq'.
  { apply (load_ptr_agree _ _ _ _ Hq Hz). intros i Hin. apply Hi. by left. }
  unfold _get_string. rewrite Hq, Hq'. cbn [mbind option_bind]. destruct (Z.eqb_spec (p_size q) 0); [done|].
  destruct Hptr as [|(Hs & He & Ho & Hin)]; [done|]. rewrite (data_offset_one _ _ _ Hq He), (data_offset_one _ _ _ Hq' He).
  cbn [mbind option_bind]. destruct (mem_load_total buf (p + p_offset q) (p_size q - 1)) as [l Hll]; [lia..|]. rewrite Hll.
  apply (mem_load_agree _ _ _ _ _ Hll); [lia|]. intros i Hr. apply Hi. right. exists q. split; [done|]. lia.
Qed.

(** Setting a string behind a fresh pointer. *)
Definition string_len_ok (v : list Z) : Prop := zlen v < 2 ^ 24 - 1.

Lemma set_string_fresh buf p v : fresh buf p → string_len_ok v → zlen buf - p < 2 ^ 32 →
  ∃ buf', _set_string buf p v = Some buf' ∧ _get_string buf' p = Some v ∧ zlen buf ≤ zlen buf' ∧ string_ptr buf' p ∧
    (∀ i : nat, Z.of_nat i < zlen buf → ¬ p ≤ Z.of_nat i < p + 8 → buf' !! i = buf !! i) ∧
    (∀ i, owns buf' p i → p ≤ i < p + 8 ∨ zlen buf ≤ i) ∧ zlen buf' ≤ zlen buf + zlen v + 1.
Proof.
  intros Hf Hv Hz. destruct (binder_string_aux buf p v (fresh_ptr _ _ Hf) Hv Hz) as (b & E & Hg & Hs & Hsame & Hlen & Hown).
  exists b. split; [done|]. split; [done|]. split; [apply Hlen, Hf|]. split; [done|]. split; [|split].
  - intros i Hi Hno. apply Hsame; [done|]. intros Ho. by apply (fresh_owns _ _ _ Hf) in Ho.
  - intros i Ho. destruct (decide (i < zlen buf)) as [Hlt|]; [left|right; lia]. by apply (fresh_owns _ _ _ Hf), Hown.
  - destruct Hf as (Hp & Hl & Hq). unfold _set_string in E. unfold list_resize in E. rewrite Hq in E. cbn [mbind option_bind p_size p_offset] in E.
    pose proof (zlen_nonneg v). revert E. tests. change (255 <=? 1) with false. cbn [negb andb].
    change (negb (0 =? 0)) with false. cbn [andb]. unfold view_size, view_resize. rewrite (Z.max_l (zlen buf - p)) by lia.
    intros (b1 & E1 & E)%bind_Some. apply bind_Some in E1 as (x1 & X1 & E1). apply bind_Some in E1 as (x2 & X2 & X3).
    apply bind_Some in E as (o & _ & E). apply bind_Some in E as (b2 & E2 & E). apply bind_Some in E as (n & _ & E3).
    rewrite (mem_store_zlen _ _ _ _ E3), (mem_store_zlen _ _ _ _ E2), (set_scalar_zlen _ _ _ _ _ X3), (set_scalar_zlen _ _ _ _ _ X2), (set_scalar_zlen _ _ _ _ _ X1).
    rewrite zlen_buf_resize by lia. lia.
Qed.

(** ** Requests are read as they were written *)

(** Bytes from [lo] to [hi] may differ, and there may be more at the end. *)
Definition outside (lo hi : Z) (b b' : list Z) : Prop :=
  zlen b ≤ zlen b' ∧ ∀ i : nat, Z.of_nat i < zlen b → ¬ lo ≤ Z.of_nat i < hi → b' !! i = b !! i.

Lemma outside_scalar n b off v b' lo hi : _set_scalar n b off v = Some b' → lo ≤ off → off + Z.of_nat n ≤ hi → outside lo hi b b'.
Proof.
  intros H Hl Hh. split; [by rewrite (set_scalar_zlen _ _ _ _ _ H)|]. intros i _ Hi. apply (set_scalar_lookup _ _ _ _ _ i H). lia.
Qed.

Lemma outside_trans lo hi a b c : outside lo hi a b → outside lo hi b c → outside lo hi a c.
Proof. intros [H1 H2] [H3 H4]. split; [lia|]. intros i Hi Hr. rewrite H4 by (lia || done). by apply H2. Qed.

Lemma outside_scalar_get n b b' lo hi off v : outside lo hi b b' → get_signed n b off = Some v → 0 ≤ off → off + Z.of_nat n ≤ zlen b →
  off + Z.of_nat n ≤ lo ∨ hi ≤ off → get_signed n b' off = Some v.
Proof.
  intros [Hz Hi] H Ho Hl Hd. unfold get_signed in *. apply bind_Some in H as (x & Hx & [= <-]).
  rewrite (scheme_get_agree _ _ b' _ _ Hx); [done|done|]. intros i Hr. apply Hi; lia.
Qed.

Definition data_ok (d : request_data) : Prop :=
  match d with
  | DataSeq s => 0 ≤ s < 2 ^ 64
  | DataBlock block index => string_len_ok block ∧ i64_ok index
  | _ => True
  end.

Lemma set_data_spec b d : 35 ≤ zlen b → zlen b < 2 ^ 32 → fresh b 19 → data_ok d →
  ∃ b', set_data b d = Some b' ∧ outside 18 35 b b' ∧ get_data b' = Some (Ok d).
Proof.
  intros Hl Hmax Hf Hd.
  assert (∀ t, ∃ b1, _set_scalar 1 b 18 t = Some b1 ∧ zlen b1 = zlen b ∧ outside 18 19 b b1) as Ht.
  { intros t. destruct (set_scalar_total 1 b 18 t) as [b1 H1]; [lia|lia|]. exists b1. split; [done|].
    split; [by eapply set_scalar_zlen|]. eapply outside_scalar; [done|lia|lia]. }
  assert (∀ x y z, outside 18 19 x y → outside 19 35 y z → outside 18 35 x z) as Hout.
  { intros x y z [A1 A2] [B1 B2]. split; [lia|]. intros i Hi Hr. rewrite B2 by lia. apply A2; lia. }
  destruct d as [s|block index| |]; cbn [set_data data_ok] in *.
  - destruct (Ht 0) as (b1 & H1 & Z1 & O1). rewrite H1. cbn [mbind option_bind].
    destruct (set_scalar_total 8 b1 19 s) as [b2 H2]; [lia|lia|]. exists b2. split; [done|].
    split; [eapply Hout; [done|]; eapply outside_scalar; [done|lia|lia]|].
    unfold get_data. rewrite (get_signed_disj _ 1 _ _ 18 _ _ H2), (get_signed_same _ _ _ _ _ H1) by lia. cbn [mbind option_bind].
    rewrite (get_set_same _ _ _ _ _ H2). cbn. by rewrite Z.mod_small by lia.
  - destruct Hd as [Hb Hi]. destruct (Ht 1) as (b1 & H1 & Z1 & O1). rewrite H1. cbn [mbind option_bind].
    destruct (set_scalar_total 8 b1 27 index) as [b2 H2]; [lia|lia|]. pose proof (set_scalar_zlen _ _ _ _ _ H2) as Z2.
    rewrite H2. cbn [mbind option_bind]. assert (fresh b2 19) as Hf2.
    { eapply (fresh_agree b); [done|lia|]. intros i Hi2. rewrite (set_scalar_lookup _ _ _ _ _ i H2) by lia. apply O1; lia. }
    destruct (set_string_fresh b2 19 block Hf2 Hb ltac:(lia)) as (b3 & H3 & Hg & Z3 & _ & Hsame & _ & _). exists b3. split; [done|].
    assert (outside 19 35 b1 b3) as O3.
    { split; [lia|]. intros i Hlt Hr. rewrite Hsame by lia. apply (set_scalar_lookup _ _ _ _ _ i H2). lia. }
    split; [by eapply Hout|]. unfold get_data.
    rewrite (outside_scalar_get 1 b1 b3 19 35 18 1) by (done || lia || by eapply get_signed_same; [exact H1|lia|]).
    cbn [mbind option_bind]. change (1 =? 0) with false. change (1 =? 1) with true. cbv iota. rewrite Hg. cbn [mbind option_bind].
    rewrite (outside_scalar_get 8 b2 b3 19 27 27 index); [done| | |lia..].
    + split; [lia|]. intros i Hlt Hr. apply Hsame; lia.
    + eapply get_signed_same; [exact H2|lia|exact Hi].
  - destruct (Ht 2) as (b1 & H1 & Z1 & O1). rewrite H1. cbn [mbind option_bind].
    destruct (set_scalar_total 1 b1 19 0) as [b2 H2]; [lia|lia|]. exists b2. split; [done|].
    split; [eapply Hout; [done|]; eapply outside_scalar; [done|lia|lia]|].
    unfold get_data. by rewrite (get_signed_disj _ 1 _ _ 18 _ _ H2), (get_signed_same _ _ _ _ _ H1) by lia.
  - destruct (Ht 3) as (b1 & H1 & Z1 & O1). rewrite H1. cbn [mbind option_bind].
    destruct (set_scalar_total 1 b1 19 0) as [b2 H2]; [lia|lia|]. exists b2. split; [done|].
    split; [eapply Hout; [done|]; eapply outside_scalar; [done|lia|lia]|].
    unfold get_data. by rewrite (get_signed_disj _ 1 _ _ 18 _ _ H2), (get_signed_same _ _ _ _ _ H1) by lia.
Qed.

(** The buffer after the version and the name of the client are set: the name at [p], and other bytes zero. *)
Record begun (b : list Z) (p : Z) (peer : list Z) : Prop := {
  bg_zlen : 35 ≤ zlen b < 2 ^ 25;
  bg_version : get_signed 2 b 0 = Some Version_Current;
  bg_string : string_ptr b p;
  bg_client : _get_string b p = Some peer;
  bg_owns : ∀ i, owns b p i → p ≤ i < p + 8 ∨ 35 ≤ i;
  bg_zeros : ∀ i : nat, 2 ≤ Z.of_nat i < 35 → ¬ p ≤ Z.of_nat i < p + 8 → b !! i = Some 0;
}.

Lemma fresh_zeros b p : 0 ≤ p → p + 8 ≤ zlen b → (∀ i : nat, p ≤ Z.of_nat i < p + 8 → b !! i = Some 0) → fresh b p.
Proof.
  intros Hp Hl Hi. split; [done|]. split; [done|].
  assert (∀ n off, 0 < Z.of_nat n → p ≤ off → off + Z.of_nat n ≤ p + 8 → _get_scalar n b off = Some 0) as Hz.
  { intros n off Hn Ho Hb. unfold _get_scalar. destruct (mem_load_total b off (Z.of_nat n)) as [l Hll]; [lia..|]. rewrite Hll.
    cbn [mbind option_bind]. f_equal. assert (l = zeros (Z.of_nat n)) as ->.
    { pose proof (mem_load_length _ _ _ _ Hll) as Hlen. unfold zeros. apply list_eq. intros i. unfold zlen in *.
      destruct (decide (Z.of_nat i < Z.of_nat n)).
      - rewrite (mem_load_lookup _ _ _ _ i Hll), Hi by lia. symmetry. apply lookup_replicate_2. lia.
      - rewrite !lookup_ge_None_2; [done|rewrite length_replicate; lia|lia]. }
    unfold zeros. generalize (Z.to_nat (Z.of_nat n)). intros k. induction k as [|k IH]; [done|]. cbn [replicate le_value]. rewrite IH. done. }
  unfold load_ptr. rewrite !Hz by lia. done.
Qed.

Lemma request_begin_spec old peer : string_len_ok peer →
  ∃ b, request_begin old peer = Some b ∧ begun b (if old then 10 else 2) peer.
Proof.
  intros Hp. unfold request_begin. destruct (set_scalar_total 2 (zeros 35) 0 Version_Current) as [b1 H1]; [done|done|].
  change Request_meta_size with 35. rewrite H1. cbn [mbind option_bind]. pose proof (set_scalar_zlen _ _ _ _ _ H1) as Z1.
  change (zlen (zeros 35)) with 35 in Z1.
  assert (∀ i : nat, 2 ≤ Z.of_nat i < 35 → b1 !! i = Some 0) as Hzero.
  { intros i Hi. rewrite (set_scalar_lookup _ _ _ _ _ i H1) by lia. apply lookup_replicate_2. lia. }
  assert (get_signed 2 b1 0 = Some Version_Current) as Hv by (eapply get_signed_same; [exact H1|lia|done]).
  set (p := if old then 10 else 2). assert (2 ≤ p ∧ p + 8 ≤ 35) as Hpr by (unfold p; destruct old; lia).
  assert (fresh b1 p) as Hf by (apply fresh_zeros; [lia|lia|intros; apply Hzero; lia]).
  destruct peer as [|x peer].
  - exists b1. split; [done|]. split; [lia|done|by apply fresh_ptr| | |].
    + unfold _get_string. destruct Hf as (_ & _ & ->). done.
    + intros i Ho. left. by apply (fresh_owns _ _ _ Hf).
    + intros i Hi _. by apply Hzero.
  - destruct (set_string_fresh b1 p (x :: peer) Hf Hp ltac:(lia)) as (b2 & H2 & Hg & Z2 & Hs & Hsame & Hown & Hmax).
    exists b2. split; [by destruct old|]. unfold string_len_ok in Hp. split; [lia| |done|done| |].
    + apply (outside_scalar_get 2 b1 b2 p (p + 8)); [|done|lia|lia|lia]. split; [done|]. intros i Hi Hr. by apply Hsame.
    + intros i Ho. destruct (Hown i Ho); [by left|right; lia].
    + intros i Hi Hr. rewrite Hsame by (lia || done). by apply Hzero.
Qed.

Lemma request_parse peer d : string_len_ok peer → data_ok d →
  ∃ b, request_new peer d = Some b ∧ parse_request Request_meta_id b = Some (Ok (peer, d)).
Proof.
  intros Hp Hd. destruct (request_begin_spec false peer Hp) as (b & Hb & [Hz Hv Hs Hc Ho H0]). unfold request_new. rewrite Hb. cbn [mbind option_bind].
  destruct (set_data_spec b d) as (b' & Hb' & Hout & Hg); [lia|lia| |done|].
  { apply fresh_zeros; [lia|lia|]. intros i Hi. apply H0; lia. }
  exists b'. split; [done|]. destruct Hout as [Hz' Hi]. unfold parse_request. change (Request_meta_id =? Request_meta_id) with true. cbv iota.
  change Request_meta_size with 35. tests. rewrite (outside_scalar_get 2 b b' 18 35 0 Version_Current) by (done || lia). cbn [mbind option_bind].
  change (negb (Version_Current =? Version_Current)) with false. cbv iota.
  rewrite (get_string_agree b b' 2), Hc; [|done|done|].
  - cbn [mbind option_bind]. rewrite Hg. done.
  - intros i Hi'. apply Hi; destruct (Ho _ Hi'); [lia| |lia|lia].
    destruct Hs as (_ & _ & q & Hq & Hptr). destruct Hi' as [Hi'|(q' & Hq' & Hi')]; [lia|]. rewrite Hq in Hq'. injection Hq' as <-. lia.
Qed.

(** C34: a request is read by the server as the client has written it: the
    name of the client and the kind of the request with its numbers and
    block type, for names and types shorter than 2^24 - 1 bytes and numbers
    in the range of their fields. *)
Theorem request_roundtrip peer d : string_len_ok peer → data_ok d →
  ∃ b, request_new peer d = Some b ∧ parse_request Request_meta_id b = Some (Ok (peer, d)).
Proof. apply request_parse. Qed.

Lemma request_roundtrip_witness :
  ∃ b, request_new [97; 98] (DataBlock [104; 111; 117; 114] 3) = Some b ∧
    parse_request Request_meta_id b = Some (Ok ([97; 98], DataBlock [104; 111; 117; 114] 3)).
Proof. apply (request_roundtrip [97; 98]); [done|]. split; done. Defined.

(** The old message carries a number, or a block with a type that is not empty. *)
Definition old_data (seq : Z) (block : option (list Z)) : request_data :=
  match block with None => DataSeq seq | Some t => DataBlock t seq end.

Lemma request_old_roundtrip peer seq block : string_len_ok peer → 0 ≤ seq < 2 ^ 63 →
  from_option (λ t, string_len_ok t ∧ t ≠ []) True block →
  ∃ b, request_old peer seq block = Some b ∧ parse_request RequestOld_meta_id b = Some (Ok (peer, old_data seq block)).
Proof.
  intros Hp Hs Hblk. destruct (request_begin_spec true peer Hp) as (b & Hb & [Hz Hv Hstr Hc Ho H0]). unfold request_old. rewrite Hb. cbn [mbind option_bind].
  destruct (set_scalar_total 8 b 2 seq) as [b1 H1]; [lia|lia|]. rewrite H1. cbn [mbind option_bind].
  pose proof (set_scalar_zlen _ _ _ _ _ H1) as Z1.
  assert (∀ i : nat, ¬ 2 ≤ Z.of_nat i < 10 → b1 !! i = b !! i) as Hi1 by (intros i Hi; apply (set_scalar_lookup _ _ _ _ _ i H1); lia).
  assert (fresh b1 18) as Hf by (apply fresh_zeros; [lia|lia|]; intros i Hi; rewrite Hi1 by lia; apply H0; lia).
  assert (∃ b2, match block with None => Some b1 | Some t => _set_string b1 18 t end = Some b2 ∧ outside 18 26 b1 b2 ∧
    _get_string b2 18 = Some (default [] block)) as (b2 & E2 & [Z2 Hi2] & Hg2).
  { destruct block as [t|].
    - destruct Hblk as [Ht _]. destruct (set_string_fresh b1 18 t Hf Ht ltac:(lia)) as (b2 & H2 & Hg & Z2 & _ & Hsame & _ & _).
      exists b2. split; [done|]. split; [|done]. split; [done|]. intros i Hi Hr. apply Hsame; [done|]. intros Hr'. apply Hr. exact Hr'.
    - exists b1. split; [done|]. split; [by split|]. unfold _get_string. destruct Hf as (_ & _ & ->). done. }
  exists b2. split; [exact E2|]. unfold parse_request. change (RequestOld_meta_id =? Request_meta_id) with false.
  change (RequestOld_meta_id =? RequestOld_meta_id) with true. cbv iota. change RequestOld_meta_size with 34. tests.
  assert (outside 2 35 b b2) as Hall.
  { split; [lia|]. intros i Hi Hr. rewrite Hi2 by lia. apply Hi1. lia. }
  rewrite (outside_scalar_get 2 b b2 2 35 0 Version_Current) by (done || lia). cbn [mbind option_bind].
  change (negb (Version_Current =? Version_Current)) with false. cbv iota.
  rewrite (get_string_agree b b2 10), Hc; [|done|lia|].
  - cbn [mbind option_bind]. rewrite Hg2. cbn [mbind option_bind].
    rewrite (outside_scalar_get 8 b1 b2 18 26 2 seq); [|by split| |lia..].
    + cbn [mbind option_bind]. destruct block as [[|y t]|]; [by destruct Hblk|done|]. cbn. tests. done.
    + eapply get_signed_same; [exact H1|lia|]. cbn. lia.
  - intros i Hi'. assert (Z.of_nat i < zlen b) as Hlt.
    { destruct Hstr as (_ & _ & q & Hq & Hptr). destruct Hi' as [Hi'|(q' & Hq' & Hi')]; [lia|]. rewrite Hq in Hq'. injection Hq' as <-. lia. }
    rewrite Hi2, Hi1; [done| |lia|]; destruct (Ho _ Hi'); lia.
Qed.

End StreamScheme.
