(* ===== verification/StreamClient.v ===== *)
(** * The client of a stream

    src/channel/stream-client.cc and src/channel/stream-client.h over
    src/tll/channel/prefix.h: old messages come from the request channel, new
    ones from the online channel, which is the child of the prefix, and a ring holds what
    comes online until the two meet.

    The client is a record, a handler a function on it.  Calls of the two other
    channels and of the callbacks of the user are recorded in [out]; the results
    of the calls, and whether the user closes the channel inside of a callback, are a parameter,
    the [env].  What the other channels answer comes in later calls of the
    handlers. *)
From S2P Require Import Prelude Mem Callback Channel Queue Binder StreamScheme.
Import Cb Chan Binder StreamScheme.

Module StreamClient.

(** [StreamClient::State] *)
Inductive State := SClosed | SOpening | SConnected | SOverlapped | SDrain | SWaitOnline | SOnline.

#[export] Instance State_eq_dec : EqDecision State.
Proof. solve_decision. Defined.

(** Control messages of the stream. *)
Definition Online_meta_id : Z := 10.
Definition EndOfBlock_meta_id : Z := 11.
Definition BeginOfBlock_meta_id : Z := 12.

(** Return codes. *)
Definition EINTR : Z := 4.
Definition EAGAIN : Z := 11.
Definition EINVAL : Z := 22.
Definition EMSGSIZE : Z := 90.

Inductive event :=
| Deliver (m : msg)                           (* _callback_data *)
| Control (msgid seq : Z) (body : list Z)     (* _callback of a control message *)
| Changed (s : state)                         (* state() *)
| ChildOpen | ChildClose (force : bool)
| ReqOpen | ReqPost (m : msg) | ReqClose (force : bool).

(** The parameters of [_init]. *)
Record conf := Conf { peer : list Z; report_block_begin : bool; report_block_end : bool; protocol_old : bool }.

(** [info.reopen]: the parameters to open the channel with again; the number is computed
    when it is asked for until it is fixed by a close. *)
Inductive reopen :=
| NoReopen | ReopenOnline | ReopenInitial | ReopenLast
| ReopenSeq (fixed : option Z)
| ReopenBlock (block : Z) (type : list Z).

Record client := Client {
  cf : conf;
  chan : state;           (* internal.state *)
  count : Z;              (* internal.state_count *)
  pending : bool;         (* dcaps::Process | dcaps::Pending *)
  st : State;             (* _state *)
  seq : Z; server_seq : Z; block_end : Z;
  open_seq : option Z;
  initial_open : bool;
  request_buf : list Z;
  reopen_cfg : reopen;
  ring : DataRing.data_ring;
  child_st : state; request_st : state;   (* of the two channels, as they were reported last *)
  info_seq : option Z;                    (* info.seq of the child; None when it is not a number *)
  out : list event;
}.

Definition with_chan s n (c : client) := Client (cf c) s n (pending c) (st c) (seq c) (server_seq c) (block_end c) (open_seq c)
  (initial_open c) (request_buf c) (reopen_cfg c) (ring c) (child_st c) (request_st c) (info_seq c) (out c).
Definition with_pending p (c : client) := Client (cf c) (chan c) (count c) p (st c) (seq c) (server_seq c) (block_end c) (open_seq c)
  (initial_open c) (request_buf c) (reopen_cfg c) (ring c) (child_st c) (request_st c) (info_seq c) (out c).
Definition with_st s (c : client) := Client (cf c) (chan c) (count c) (pending c) s (seq c) (server_seq c) (block_end c) (open_seq c)
  (initial_open c) (request_buf c) (reopen_cfg c) (ring c) (child_st c) (request_st c) (info_seq c) (out c).
Definition with_seq s (c : client) := Client (cf c) (chan c) (count c) (pending c) (st c) s (server_seq c) (block_end c) (open_seq c)
  (initial_open c) (request_buf c) (reopen_cfg c) (ring c) (child_st c) (request_st c) (info_seq c) (out c).
Definition with_server s b (c : client) := Client (cf c) (chan c) (count c) (pending c) (st c) (seq c) s b (open_seq c)
  (initial_open c) (request_buf c) (reopen_cfg c) (ring c) (child_st c) (request_st c) (info_seq c) (out c).
Definition with_open o i (c : client) := Client (cf c) (chan c) (count c) (pending c) (st c) (seq c) (server_seq c) (block_end c) o
  i (request_buf c) (reopen_cfg c) (ring c) (child_st c) (request_st c) (info_seq c) (out c).
Definition with_buf b (c : client) := Client (cf c) (chan c) (count c) (pending c) (st c) (seq c) (server_seq c) (block_end c) (open_seq c)
  (initial_open c) b (reopen_cfg c) (ring c) (child_st c) (request_st c) (info_seq c) (out c).
Definition with_reopen r (c : client) := Client (cf c) (chan c) (count c) (pending c) (st c) (seq c) (server_seq c) (block_end c) (open_seq c)
  (initial_open c) (request_buf c) r (ring c) (child_st c) (request_st c) (info_seq c) (out c).
Definition with_ring r (c : client) := Client (cf c) (chan c) (count c) (pending c) (st c) (seq c) (server_seq c) (block_end c) (open_seq c)
  (initial_open c) (request_buf c) (reopen_cfg c) r (child_st c) (request_st c) (info_seq c) (out c).
Definition with_subs s q (c : client) := Client (cf c) (chan c) (count c) (pending c) (st c) (seq c) (server_seq c) (block_end c) (open_seq c)
  (initial_open c) (request_buf c) (reopen_cfg c) (ring c) s q (info_seq c) (out c).
Definition with_info i (c : client) := Client (cf c) (chan c) (count c) (pending c) (st c) (seq c) (server_seq c) (block_end c) (open_seq c)
  (initial_open c) (request_buf c) (reopen_cfg c) (ring c) (child_st c) (request_st c) i (out c).
Definition with_out o (c : client) := Client (cf c) (chan c) (count c) (pending c) (st c) (seq c) (server_seq c) (block_end c) (open_seq c)
  (initial_open c) (request_buf c) (reopen_cfg c) (ring c) (child_st c) (request_st c) (info_seq c) o.

(** What is outside: whether the user closes the channel in a callback, whether a
    post to the request channel fails, what opening the child and the request channel return. *)
Record env := Env {
  closes : event → bool;
  post_fails : client → bool;
  child_open : client → Z;
  request_open : client → Z;
}.

Section Handlers.
Context (E : env).

Definition log (e : event) (c : client) : client := with_out (out c ++ [e]) c.

(** ** Closing *)

(** [tll_channel_close] of the request channel. *)
Definition request_close (force : bool) (c : client) : client :=
  match request_st c with
  | Closed | Destroy => c
  | Closing => if force then log (ReqClose force) c else c
  | _ => log (ReqClose force) (with_subs (child_st c) Closing c)
  end.

Definition child_close (force : bool) (c : client) : client :=
  match child_st c with
  | Closed | Destroy => c
  | Closing => if force then log (ChildClose force) c else c
  | _ => log (ChildClose force) (with_subs Closing (request_st c) c)
  end.

(** [_config_seq] *)
Definition _config_seq (c : client) : Z := if seq c =? -1 then default (seq c) (open_seq c) else seq c.

(** [_reset_config_cb] for reopen.seq *)
Definition _reset_config_cb (c : client) : client :=
  match reopen_cfg c with ReopenSeq None => with_reopen (ReopenSeq (Some (_config_seq c))) c | _ => c end.

Definition _close (force : bool) (c : client) : client :=
  let c := with_st SClosed c in
  let c := _reset_config_cb c in
  let force := force || bool_decide (chan c = Error) in
  child_close force (request_close force c).

(** [tll_channel_close] without force by the user. *)
Definition user_close (c : client) : client :=
  match chan c with
  | Closed | Closing | Destroy => c
  | _ => _close false (log (Changed Closing) (with_chan Closing (u32 (count c + 1)) c))
  end.

(** A callback of the user, who may close the channel. *)
Definition emit (e : event) (c : client) : client :=
  let c := log e c in if closes E e then user_close c else c.

Definition set_state (s : state) (c : client) : client :=
  if bool_decide (s = chan c) then c else emit (Changed s) (with_chan s (u32 (count c + 1)) c).

Definition state_fail (r : Z) (c : client) : client * Z := (set_state Error c, r).

(** [StateGuard::changed] *)
Definition changed (n diff : Z) (c : client) : bool := negb (u32 (n + diff) =? count c).

(** ** Reports *)
Definition _report_online (c : client) : client :=
  let c := with_st (match st c with SOverlapped | SWaitOnline => SOnline | _ => SDrain end) c in
  emit (Control Online_meta_id (seq c) []) c.

Definition _report_block (c : client) : client * Z :=
  let c := with_reopen (ReopenSeq None) c in
  if block_end c =? -1 then (c, 0) else
  let last := block_end c - 1 in
  let c := with_server (server_seq c) (-1) c in
  let n := count c in
  let c := if report_block_end (cf c) then emit (Control EndOfBlock_meta_id last []) c else c in
  (c, if changed n 0 c then EINTR else 0).

Definition request_post (id : Z) (data : list Z) (c : client) : client :=
  log (ReqPost (Msg DATA 0 id 0 data (zlen data) 0 0)) c.

Definition _post_done (s : Z) (c : client) : option (client * Z) :=
  let! data := make_done s in
  let c := with_buf data c in
  let fails := post_fails E c in
  let c := request_post ClientDone_meta_id data c in
  Some (if fails then state_fail EINVAL c else (c, 0)).

(** ** Opening *)
Inductive open_mode :=
| Undefined
| Online
| Seq (seq : option Z)
| SeqData (seq : option Z)
| Block (block : Z) (type : list Z)
| Init
| Last.

(** The bodies of the modes: the request, the number that is asked for, how to reopen. *)
Definition open_request (b : list Z) (m : open_mode) (old : bool) : option (result errno (list Z * option Z * reopen)) :=
  match m with
  | Undefined => Some (Err Prelude.EINVAL)
  | Online => Some (Ok ([], None, ReopenOnline))
  | Init => if old then Some (Err Prelude.EINVAL) else let! b := set_data b DataInitial in Some (Ok (b, None, ReopenInitial))
  | Last => if old then Some (Err Prelude.EINVAL) else let! b := set_data b DataLast in Some (Ok (b, None, ReopenLast))
  | Seq None | SeqData None => Some (Err Prelude.EINVAL)
  | Seq (Some s) | SeqData (Some s) =>
      if s <? 0 then Some (Err Prelude.EINVAL) else
      let s := match m with SeqData _ => s + 1 | _ => s end in
      let! b := (if old then _set_scalar 8 b 2 s else set_data b (DataSeq s)) in
      Some (Ok (b, Some s, ReopenSeq None))
  | Block block type =>
      let! b := (if old then let! b := _set_scalar 8 b 2 block in _set_string b 18 type
                 else set_data b (DataBlock type block)) in
      Some (Ok (b, None, ReopenBlock block type))
  end.

Definition _open (m : open_mode) (c : client) : option (client * Z) :=
  let c := with_st SClosed c in
  let c := with_ring (DataRing.clear (ring c)) c in
  let c := with_open None (match m with Init => true | _ => false end) c in
  let c := with_seq (-1) (with_server (-1) (-1) c) in
  let c := with_reopen NoReopen c in
  let! b := request_begin (protocol_old (cf c)) (peer (cf c)) in
  let! r := open_request b m (protocol_old (cf c)) in
  match r with
  | Err _ => Some (c, EINVAL)
  | Ok (b, s, r) =>
      let c := with_reopen r (with_open s (initial_open c) (with_buf b c)) in
      let rc := child_open E c in
      Some (log ChildOpen (with_subs Opening (request_st c) c), rc)
  end.

(** [tll_channel_open] *)
Definition open (m : open_mode) (c : client) : option (client * Z) :=
  if negb (bool_decide (chan c = Closed)) then Some (c, EINVAL) else
  let c := set_state Opening c in
  let! (c, r) := _open m c in
  Some (if r =? 0 then (c, 0) else (set_state Error c, r)).

(** ** The online channel *)
Definition _on_active (c : client) : client * Z :=
  match request_buf c with
  | [] => (set_state Active (with_st SOnline c), 0)
  | _ =>
      let c := match info_seq c with
               | Some s => if 0 <=? s then with_server s (block_end c) c else c
               | None => c
               end in
      let r := request_open E c in
      (log ReqOpen (with_subs (child_st c) Opening c), r)
  end.

(** [tll_frame_t] *)
Definition frame_size : Z := 16.
Definition frame_bytes (size msgid s : Z) : list Z := le_bytes 4 size ++ le_bytes 4 msgid ++ le_bytes 8 s.

Definition frame_load (f : list Z) : option (Z * Z * Z) :=
  let! size := _get_scalar 4 f 0 in
  let! msgid := get_signed 4 f 4 in
  let! s := get_signed 8 f 8 in
  Some (size, msgid, s).

(** Push, with the oldest messages dropped until there is room. *)
Fixpoint ring_push (fuel : nat) (frame data : list Z) (r : DataRing.data_ring) : option DataRing.data_ring :=
  match fuel with
  | O => None
  | S fuel =>
      let! o := DataRing.push_back frame_size r frame data in
      match o with Some r => Some r | None => ring_push fuel frame data (DataRing.pop_front r) end
  end.

Definition ring_fuel (r : DataRing.data_ring) : nat := 2 + length (VecRing.data (DataRing.index r)).

(** The message in front of the ring. *)
Definition ring_front (r : DataRing.data_ring) : option msg :=
  let! (f, d) := DataRing.peek frame_size r in
  let! (size, msgid, s) := frame_load f in
  Some (Msg DATA 0 msgid s d size 0 0).

Definition _on_data (m : msg) (c : client) : option (client * Z) :=
  match st c with
  | SOnline =>
      if m_seq m <=? seq c then Some (c, EINVAL) else
      Some (emit (Deliver m) (with_seq (m_seq m) c), 0)
  | SWaitOnline =>
      let c := with_reopen (ReopenSeq None) (with_seq (m_seq m) c) in
      Some (_report_online (emit (Deliver m) c), 0)
  | SDrain =>
      if m_seq m <=? seq c then Some (c, 0) else
      Some (emit (Deliver m) (with_st SOnline c), 0)
  | _ =>
      let size := zlen (m_data m) in
      if DataRing.data_capacity (ring c) / 2 <? frame_size + size then Some (c, EMSGSIZE) else
      let! r := ring_push (ring_fuel (ring c)) (frame_bytes (u32 size) (m_msgid m) (m_seq m)) (m_data m) (ring c) in
      Some (with_ring r c, 0)
  end.

(** [Prefix::callback] for data messages. *)
Definition on_data (m : msg) (c : client) : option client :=
  let! (c, r) := _on_data m c in
  Some (if r =? 0 then c else set_state Error c).

(** [_on_closing] of the client and of the prefix. *)
Definition _on_closing (c : client) : client :=
  let c := match request_st c with Opening | Active | Error => request_close false c | _ => c end in
  match chan c with Opening | Active => set_state Closing c | _ => c end.

(** [Base::_close]: the end of a long close. *)
Definition base__close (c : client) : client :=
  let c := with_pending false c in
  let c := if bool_decide (request_st c = Closed) then c else request_close true c in
  set_state Closed c.

Definition _on_closed (c : client) : client := if bool_decide (chan c = Closing) then base__close c else c.

(** [Prefix::callback] for state messages. *)
Definition on_child_state (s : state) (c : client) : client :=
  let c := with_subs s (request_st c) c in
  match s with
  | Active => let '(c, r) := _on_active c in if r =? 0 then c else set_state Error c
  | Error => set_state Error c
  | Closing => _on_closing c
  | Closed => _on_closed c
  | _ => c
  end.

(** ** The request channel *)
Definition _on_request_active (c : client) : client * Z :=
  let fails := post_fails E c in
  let c := request_post (if protocol_old (cf c) then RequestOld_meta_id else Request_meta_id) (request_buf c) c in
  if fails then state_fail EINVAL c else (with_st SOpening c, 0).

Definition _on_request_error (c : client) : client :=
  match st c with SClosed => c | _ => set_state Error c end.

Definition _on_request_closed (c : client) : client :=
  match st c with SOpening | SConnected => set_state Error c | _ => c end.

(** [_on_request_state] *)
Definition on_request_state (s : state) (c : client) : client :=
  let c := with_subs (child_st c) s c in
  match s with
  | Active => fst (_on_request_active c)
  | Error => _on_request_error c
  | Closed => _on_request_closed c
  | _ => c
  end.

(** The loop that drops what has been processed. *)
Fixpoint ring_drop (fuel : nat) (s : Z) (r : DataRing.data_ring) : option DataRing.data_ring :=
  if DataRing.empty r then Some r else
  let! m := ring_front r in
  if m_seq m <=? s then
    match fuel with O => None | S fuel => ring_drop fuel s (DataRing.pop_front r) end
  else Some r.

(** [_on_request_data] in Connected, after the message is delivered. *)
Definition connected_next (m : msg) (c : client) : option client :=
  if (seq c =? server_seq c) && DataRing.empty (ring c) then
    let! (c, _) := _post_done (m_seq m) c in
    let '(c, r) := _report_block c in
    Some (if r =? 0 then _report_online c else c)
  else if DataRing.empty (ring c) then Some c else
  let! f := ring_front (ring c) in
  if m_seq m + 1 <? m_seq f then Some c else
  let! r := ring_drop (ring_fuel (ring c)) (m_seq m) (ring c) in
  let c := with_ring r c in
  let! free := DataRing.data_free frame_size r in
  let! used := DataRing.data_size frame_size r in
  if used / 2 <? free then
    let! (c, _) := _post_done (m_seq m) c in
    Some (with_st SOverlapped (with_pending true c))
  else Some c.

Definition connected_data (m : msg) (c : client) : option client :=
  let '(c, r) := if (seq c <? block_end c) && (block_end c <=? m_seq m) then _report_block (with_seq (m_seq m) c) else (c, 0) in
  if negb (r =? 0) then Some c else
  let c := with_seq (m_seq m) c in
  let n := count c in
  let c := emit (Deliver m) c in
  if changed n 0 c then Some c else connected_next m c.

(** [_on_request_data] with the reply, once the channel is Active. *)
Definition reply_begin (r : reply) (c : client) : client :=
  match open_seq c with
  | Some _ => c
  | None =>
      let c := with_open (Some (requested_seq r)) (initial_open c) c in
      if 0 <? block_end c then
        let body := block_end c - 1 in
        if report_block_begin (cf c)
        then emit (Control BeginOfBlock_meta_id (Z.min body (requested_seq r)) (le_bytes 8 body)) c else c
      else c
  end.

Definition reply_done (c : client) : client :=
  let o := default 0 (open_seq c) in
  if server_seq c =? -1 then
    if negb (initial_open c) then set_state Error c
    else request_close false (with_st SWaitOnline c)
  else if server_seq c + 1 =? o then
    let c := with_seq (server_seq c) c in
    let '(c, r) := _report_block c in
    if r =? 0 then request_close false (_report_online c) else c
  else if server_seq c <? o then set_state Error c
  else c.

Definition opening_data (m : msg) (c : client) : option client :=
  if m_msgid m =? Error_meta_id then Some (set_state Error c)
  else if negb (m_msgid m =? Reply_meta_id) then Some (set_state Error c)
  else if zlen (m_data m) <? Reply_meta_size then Some (set_state Error c) else
  let! r := get_reply (m_data m) in
  let c := with_server (Z.max (server_seq c) (last_seq r)) (block_seq r) c in
  let c := with_st SConnected c in
  let n := count c in
  let c := set_state Active c in
  if changed n 1 c then Some c else Some (reply_done (reply_begin r c)).

Definition _on_request_data (m : msg) (c : client) : option client :=
  match st c with
  | SConnected => connected_data m c
  | SOpening => opening_data m c
  | SOverlapped =>
      if m_seq m <=? seq c then Some c else Some (emit (Deliver m) (with_seq (m_seq m) c))
  | _ => Some c
  end.

(** ** Processing of the ring *)
Definition _process (c : client) : option (client * Z) :=
  if negb (bool_decide (st c = SOverlapped)) || DataRing.empty (ring c) then
    let c := _report_online c in
    Some (with_pending false c, EAGAIN)
  else
  let! m := ring_front (ring c) in
  let c := with_ring (DataRing.pop_front (ring c)) c in
  if m_seq m <=? seq c then Some (c, 0) else
  Some (emit (Deliver m) (with_seq (m_seq m) c), 0).

(** [tll_channel_process] *)
Definition process (c : client) : option (client * Z) :=
  if negb (pending c) then Some (c, EAGAIN) else
  match chan c with Error | Closed => Some (c, 0) | _ => _process c end.

(** [_init]: the ring for the size parameter; a new channel. *)
Definition init (f : conf) (size : nat) : client :=
  Client f Closed 0 false SClosed (-1) (-1) (-1) None false [] NoReopen
    (DataRing.make (size / 64) size) Closed Closed (Some (-1)) [].

End Handlers.
End StreamClient.
