(* ===== verification/StreamServer.v ===== *)
(** * The server of a stream

    src/channel/stream-server.cc: posts go to the storage, to the blocks and to
    the online channel, which is the child of the prefix; a client that asks for old data gets a reader of the
    storage of its own, and what the reader gives is posted to it on the
    request channel.

    The storage is any instance of [Storage]; the channel with the blocks is a parameter
    with its operations.  Results of posts to the two other channels are arguments of the
    handlers, what is posted is recorded. *)
From S2P Require Import Prelude Mem Callback Channel Storage Reopen Binder StreamScheme.
Import Cb Chan Binder StreamScheme.

Module StreamServer.

Definition EINVAL : Z := 22.
Definition EMSGSIZE : Z := 90.
(** Stands for the code of a channel that has failed. *)
Definition EIO : Z := 5.

(** [Client::State] *)
Inductive CState := CClosed | COpening | CActive | CError | CDone.

#[export] Instance CState_eq_dec : EqDecision CState.
Proof. solve_decision. Defined.

(** A channel with blocks: the messages of its control scheme, posts with their code, the number of its
    last message, and opening of a block, which gives the
    numbers of its first and last message and a reader; a reader gives messages until it closes. *)
Record blocks_ops (BW BR : Type) := BlocksOps {
  b_control : Z → bool;
  b_post : msg → BW → Z * BW;
  b_seq : BW → Z;
  b_open : BW → list Z → Z → option (Z * Z * BR);
  b_next : BR → option msg * BR;
}.
Arguments b_control {BW BR} _.
Arguments b_post {BW BR} _.
Arguments b_seq {BW BR} _.
Arguments b_open {BW BR} _.
Arguments b_next {BW BR} _.

(** Why a request is refused. *)
Inductive init_error :=
| NoData | NoBlocks | BlockOpenFailed | BlockInvalid | BlockInFuture | StorageOpenFailed | ReplyFailed.

(** Parameters of [_init]: the largest message, what is given for an initial request, whether to
    wait for an activation, the control messages of the request channel, the text of errors. *)
Record conf := Conf {
  max_size : Z;
  initial_reply : option (list Z * Z);
  delayed_open : bool;
  control_msgid_full : Z; control_msgid_ready : Z; control_msgid_disconnect : Z;
  error_text : init_error → list Z;
}.

Section Server.
Context {W R G BW BR : Type} `{Storage.Storage W R G} (B : blocks_ops BW BR).

Inductive reader := RStorage (r : R) | RBlocks (b : BR).

(** [StreamServer::Client]; a closed storage channel is [None]. *)
Record sclient := SClient {
  c_seq : Z; c_block_end : Z;
  c_addr : Z;
  c_storage : option reader; c_next : option reader;
  c_suspended : bool;
  c_name : list Z;
  c_state : CState;
}.

Definition client_new : sclient := SClient (-1) (-1) 0 None None false [] CClosed.

Record server := Server {
  cf : conf;
  storage : W;
  blocks : option BW;
  s_seq : Z;                              (* _seq *)
  autoseq : AutoSeq.autoseq;
  block_feed : bool; wait_control : bool;
  clients : gmap Z sclient;
  clients_drop : list Z;
  pending : bool;                         (* dcaps::Process | dcaps::Pending *)
  sent : list (Z * msg);                  (* posted to the request channel *)
  online : list msg;                      (* posted to the child *)
}.

Definition with_store w b s (x : server) := Server (cf x) w b s (autoseq x) (block_feed x) (wait_control x) (clients x) (clients_drop x) (pending x) (sent x) (online x).
Definition with_autoseq a (x : server) := Server (cf x) (storage x) (blocks x) (s_seq x) a (block_feed x) (wait_control x) (clients x) (clients_drop x) (pending x) (sent x) (online x).
Definition with_feed f v (x : server) := Server (cf x) (storage x) (blocks x) (s_seq x) (autoseq x) f v (clients x) (clients_drop x) (pending x) (sent x) (online x).
Definition with_clients cs (x : server) := Server (cf x) (storage x) (blocks x) (s_seq x) (autoseq x) (block_feed x) (wait_control x) cs (clients_drop x) (pending x) (sent x) (online x).
Definition with_drop d p (x : server) := Server (cf x) (storage x) (blocks x) (s_seq x) (autoseq x) (block_feed x) (wait_control x) (clients x) d p (sent x) (online x).
Definition with_sent s (x : server) := Server (cf x) (storage x) (blocks x) (s_seq x) (autoseq x) (block_feed x) (wait_control x) (clients x) (clients_drop x) (pending x) s (online x).
Definition with_online o (x : server) := Server (cf x) (storage x) (blocks x) (s_seq x) (autoseq x) (block_feed x) (wait_control x) (clients x) (clients_drop x) (pending x) (sent x) o.

Definition set_client (a : Z) (c : sclient) (x : server) : server := with_clients (<[a := c]> (clients x)) x.
Definition del_client (a : Z) (x : server) : server := with_clients (delete a (clients x)) x.

(** A message to a client on the request channel. *)
Definition request_post (a : Z) (m : msg) (x : server) : server := with_sent (sent x ++ [(a, m)]) x.

(** ** Posts *)

(** [_post] for data; [ok] is whether the child takes the message. *)
Definition _post (ok : bool) (m : msg) (x : server) : option (server * Z) :=
  if max_size (cf x) <? zlen (m_data m) then Some (x, EMSGSIZE) else
  let '(a, m) := AutoSeq.update (autoseq x) m in
  let x := with_autoseq a x in
  if m_seq m <=? s_seq x then Some (x, EINVAL) else
  let '(r, b) := match blocks x with
                 | Some b => if block_feed x then (0, Some b) else let '(r, b) := b_post B m b in (r, Some b)
                 | None => (0, None)
                 end in
  let x := with_store (storage x) b (s_seq x) x in
  if negb (r =? 0) then Some (x, r) else
  let! (r, w) := Storage.st_post m (storage x) in
  match r with
  | Err _ => Some (with_store w (blocks x) (s_seq x) x, EIO)
  | Ok _ =>
      let x := with_store w (blocks x) (m_seq m) x in
      if wait_control x then Some (x, 0)
      else if ok then Some (with_online (online x ++ [m]) x, 0) else Some (x, EIO)
  end.

(** [_post] for a control message: what the control scheme of the blocks knows goes to them ([_control_blocks],
    null without blocks), anything else does nothing here.  No rotation is tied to blocks, and the control schemes of storage
    and child do not know the message. *)
Definition _post_block (m : msg) (x : server) : server * Z :=
  if m_msgid m =? 0 then (x, 0) else
  match blocks x with
  | None => (x, 0)
  | Some b =>
      if negb (b_control B (m_msgid m)) then (x, 0) else
      if block_feed x then (x, EINVAL) else
      let '(r, b) := b_post B m b in
      (with_store (storage x) (Some b) (s_seq x) x, r)
  end.

(** ** Clients *)

(** [Client::reset] *)
Definition client_reset (c : sclient) : sclient :=
  SClient (c_seq c) (c_block_end c) (c_addr c) None None (c_suspended c) (c_name c) CClosed.

Definition with_cstate s (c : sclient) := SClient (c_seq c) (c_block_end c) (c_addr c) (c_storage c) (c_next c) (c_suspended c) (c_name c) s.
Definition with_readers r n (c : sclient) := SClient (c_seq c) (c_block_end c) (c_addr c) r n (c_suspended c) (c_name c) (c_state c).
Definition with_suspended s (c : sclient) := SClient (c_seq c) (c_block_end c) (c_addr c) (c_storage c) (c_next c) s (c_name c) (c_state c).
Definition with_cseq s e (c : sclient) := SClient s e (c_addr c) (c_storage c) (c_next c) (c_suspended c) (c_name c) (c_state c).

(** The part of [Client::init] that looks at the request: the block that is asked for, or the number. *)
Definition init_request (x : server) (d : request_data) (c : sclient) : result init_error (option (list Z * Z) * sclient) :=
  match d with
  | DataBlock t i => Ok (match t with [] => None | _ => Some (t, i) end, c)
  | DataLast => if s_seq x =? -1 then Err NoData else Ok (None, with_cseq (s_seq x - 1) (-1) c)
  | DataInitial =>
      if s_seq x =? -1 then Ok (None, with_cseq (-1) (-1) c) else
      match initial_reply (cf x) with
      | Some (t, i) => Ok (match t with [] => None | _ => Some (t, i) end, c)
      | None => Ok (None, with_cseq (Storage.st_seq_begin (storage x)) (-1) c)
      end
  | DataSeq s => Ok (None, with_cseq (i64 s) (-1) c)
  end.

(** The part that opens a block. *)
Definition init_block (x : server) (b : option (list Z * Z)) (c : sclient) : result init_error sclient :=
  match b with
  | None => Ok c
  | Some (t, i) =>
      match blocks x with
      | None => Err NoBlocks
      | Some bw =>
          match b_open B bw t i with
          | None => Err BlockOpenFailed
          | Some (first, last, rd) =>
              let e := last + 1 in
              if first =? -1 then
                if e =? 0 then Err BlockInvalid else Ok (with_cseq e e c)
              else Ok (with_readers (c_storage c) (Some (RBlocks rd)) (with_cseq first e c))
          end
      end
  end.

(** [Client::init]; [ok] is whether the reply is taken. *)
Definition client_init (ok : bool) (x : server) (name : list Z) (d : request_data) (c : sclient)
  : option (server * sclient * result init_error unit) :=
  let c := SClient (c_seq c) (-1) (c_addr c) (c_storage c) (c_next c) (c_suspended c) name COpening in
  match init_request x d c with
  | Err e => Some (x, c, Err e)
  | Ok (b, c) =>
      match init_block x b c with
      | Err e => Some (x, c, Err e)
      | Ok c =>
          if negb (c_block_end c =? -1) && (s_seq x + 1 <? c_block_end c) then Some (x, c, Err BlockInFuture) else
          let! r := Storage.st_open (storage x) (if c_block_end c =? -1 then c_seq c else c_block_end c) in
          match r with
          | Err _ => Some (x, with_readers None (c_next c) c, Err StorageOpenFailed)
          | Ok rd =>
              let c := match c_next c with
                       | Some n => with_readers (Some n) (Some (RStorage rd)) c
                       | None => with_readers (Some (RStorage rd)) None c
                       end in
              let! data := make_reply (Reply (s_seq x) (c_seq c) (c_block_end c)) in
              if negb ok then Some (x, c, Err ReplyFailed) else
              let x := request_post (c_addr c) (Msg DATA 0 Reply_meta_id 0 data (zlen data) (c_addr c) 0) x in
              Some (x, with_suspended false (with_cstate CActive c), Ok tt)
          end
      end
  end.

(** [_request_disconnect] *)
Definition _request_disconnect (a : Z) (x : server) : server :=
  if control_msgid_disconnect (cf x) =? 0 then x
  else request_post a (Msg CONTROL 0 (control_msgid_disconnect (cf x)) 0 [] 0 a 0) x.

(** [_on_request_data]; [ok] is whether the request channel takes what is posted. *)
Definition _on_request_data (ok : bool) (m : msg) (x : server) : option server :=
  let a := m_addr m in
  if m_msgid m =? ClientDone_meta_id then
    match clients x !! a with
    | None => Some x
    | Some _ => Some (_request_disconnect a (del_client a x))
    end
  else
    let! r := parse_request (m_msgid m) (m_data m) in
    match r with
    | Err _ => Some x
    | Ok (name, d) =>
        let c := default client_new (clients x !! a) in
        let c := SClient (c_seq c) (c_block_end c) a (c_storage c) (c_next c) (c_suspended c) (c_name c) (c_state c) in
        let! (y, r) := client_init ok x name d c in
        let '(x, c) := y in
        match r with
        | Ok _ => Some (set_client a c x)
        | Err e =>
            let! text := make_error (error_text (cf x) e) in
            let x := if ok then request_post a (Msg DATA 0 Error_meta_id 0 text (zlen text) a 0) x else x in
            Some (_request_disconnect a (del_client a x))
        end
    end.

(** [Client::on_storage_state] for Closed. *)
Definition client_closed (a : Z) (c : sclient) (x : server) : server :=
  if negb (bool_decide (c_state c = CActive)) then set_client a (with_readers None (c_next c) c) x else
  match c_next c with
  | Some n => set_client a (with_readers (Some n) None c) x
  | None => with_drop (clients_drop x ++ [a]) true (set_client a (with_cstate CClosed (with_readers None None c)) x)
  end.

(** [Client::on_storage] for data: the message goes to the client. *)
Definition on_storage (ok : bool) (a : Z) (c : sclient) (m : msg) (x : server) : server :=
  if ok then set_client a c (request_post a (Msg DATA (m_flags m) (m_msgid m) (m_seq m) (m_data m) (m_size m) a 0) x)
  else set_client a (with_readers None (c_next c) (with_cstate CError c)) x.

(** The storage channel of a client is processed. *)
Definition client_process (ok : bool) (a : Z) (x : server) : option server :=
  match clients x !! a with
  | None => Some x
  | Some c =>
      if c_suspended c then Some x else
      match c_storage c with
      | None => Some x
      | Some (RStorage r) =>
          let! (m, r) := Storage.st_next (storage x) r in
          let c := with_readers (Some (RStorage r)) (c_next c) c in
          Some (match m with Some m => on_storage ok a c m x | None => set_client a c x end)
      | Some (RBlocks b) =>
          let '(m, b) := b_next B b in
          let c := with_readers (Some (RBlocks b)) (c_next c) c in
          Some (match m with Some m => on_storage ok a c m x | None => client_closed a c x end)
      end
  end.

(** [_on_request_control] *)
Definition _on_request_control (m : msg) (x : server) : server :=
  let a := m_addr m in
  match clients x !! a with
  | None => x
  | Some c =>
      if m_msgid m =? control_msgid_disconnect (cf x) then del_client a x
      else if m_msgid m =? control_msgid_full (cf x) then set_client a (with_suspended true c) x
      else if m_msgid m =? control_msgid_ready (cf x) then set_client a (with_suspended false c) x
      else x
  end.

(** [_process]: clients whose storage has ended are dropped. *)
Fixpoint drop_clients (l : list Z) (x : server) : server :=
  match l with
  | [] => x
  | a :: l =>
      match clients x !! a with
      | None => drop_clients l x
      | Some c =>
          match c_state c with
          | CClosed | CError => drop_clients l (_request_disconnect a (del_client a x))
          | _ => drop_clients l x
          end
      end
  end.

Definition _process (x : server) : server := with_drop [] false (drop_clients (clients_drop x) x).

(** ** Opening *)

(** [_open] over storage and blocks that have been opened: the message an empty storage starts
    with, and whether the blocks lag behind the storage and have to be fed from it first.
    [init] is the initial message with its number and [iblock] the control message that makes the initial block. *)
Definition _open (f : conf) (init iblock : option msg) (auto : bool) (w : W) (b : option BW) : option (result errno server) :=
  let s := Storage.st_seq w in
  let! r := (match init with
             | Some m => if s =? -1 then
                           let! (r, w) := Storage.st_post m w in
                           Some (match r with Ok _ => Ok (w, m_seq m, Some m) | Err e => Err e end)
                         else Some (Ok (w, s, None))
             | None => Some (Ok (w, s, None))
             end) in
  match r with
  | Err _ => Some (Err Prelude.EINVAL)
  | Ok (w, s, posted) =>
      let x := Server f w b s (AutoSeq.AutoSeqT s auto) false (delayed_open f) ∅ [] false [] [] in
      match b with
      | None => Some (Ok x)
      | Some bw =>
          let '(r, bw) := match posted, iblock with
                          | Some m, Some i => let '(r, bw) := b_post B m bw in if r =? 0 then b_post B i bw else (r, bw)
                          | _, _ => (0, bw)
                          end in
          if negb (r =? 0) then Some (Err Prelude.EINVAL)
          else if s <? b_seq B bw then Some (Err Prelude.EINVAL)
          else Some (Ok (with_feed (b_seq B bw <? s) (delayed_open f) (with_store w (Some bw) s x)))
      end
  end.

(** [_on_storage_load]: one message from the storage to the blocks, until the end. *)
Definition storage_load (r : R) (x : server) : option (result errno (R * server)) :=
  let! (m, r) := Storage.st_next (storage x) r in
  match m, blocks x with
  | Some m, Some b =>
      let '(code, b) := b_post B m b in
      Some (if code =? 0 then Ok (r, with_store (storage x) (Some b) (s_seq x) x) else Err Prelude.EINVAL)
  | _, _ => Some (Ok (r, with_feed false (wait_control x) x))
  end.

(** The Activate control message. *)
Definition activate (x : server) : server * Z :=
  if negb (wait_control x) then (x, EINVAL) else (with_feed (block_feed x) false x, 0).

End Server.
End StreamServer.
