(* ===== verification/StreamServerSpec.v ===== *)
(** * What the server of a stream sends to its clients

    The session of a client: from the reply to its request on it is sent, in
    their order, the messages of the block it asked for and the log behind it, whatever
    posts, other clients and control messages come in between. *)
From S2P Require Import Prelude Mem Callback Channel Storage Reopen Binder StreamScheme StreamServer.
Import Cb Chan Binder StreamScheme StreamServer.

Module StreamServerSpec.

(** Calls of the handlers, with the results of posts to other channels. *)
Inductive op :=
| OPost (ok : bool) (m : msg)
| ORequest (ok : bool) (m : msg)
| OControl (m : msg)
| ORead (ok : bool) (a : Z)
| OProcess.

Section Spec.
Context {W R G BW BR : Type} `{Storage.Storage W R G} (B : blocks_ops BW BR).
(** A reader of a block gives its messages and closes. *)
Context (b_reads : BR → list msg → Prop)
  (b_next_spec : ∀ rd rest, b_reads rd rest → ∃ rd', b_next B rd = (head rest, rd') ∧ b_reads rd' (tail rest))
  (b_open_spec : ∀ bw t i first last rd, b_open B bw t i = Some (first, last, rd) → ∃ ms, b_reads rd ms).

Abbreviation server := (@server W R BW BR).
Abbreviation sclient := (@sclient R BR).

Definition step (o : op) (x : server) : option server :=
  match o with
  | OPost ok m => let! (x, _) := _post B ok m x in Some x
  | ORequest ok m => _on_request_data B ok m x
  | OControl m => Some (_on_request_control m x)
  | ORead ok a => client_process B ok a x
  | OProcess => Some (_process x)
  end.

Fixpoint steps (os : list op) (x : server) : option server :=
  match os with [] => Some x | o :: os => let! x := step o x in steps os x end.

(** The storage of the server holds [l], and the server knows its last number. *)
Definition serves (x : server) (g : G) (l : list msg) : Prop :=
  Storage.st_log (storage x) g l ∧ s_seq x = Storage.last_seq l ∧ ∀ e, string_len_ok (error_text (cf x) e).

(** What the readers of a client have in front of them. *)
Definition in_front (w : W) (g : G) (c : sclient) (rest : list msg) : Prop :=
  match c_storage c, c_next c with
  | Some (RStorage r), None => Storage.st_read w g r rest
  | Some (RBlocks b), Some (RStorage r) => ∃ bs rs, b_reads b bs ∧ Storage.st_read w g r rs ∧ rest = bs ++ rs
  | _, _ => False
  end.

Definition reads (x : server) (g : G) (a : Z) (rest : list msg) : Prop :=
  ∃ c, clients x !! a = Some c ∧ c_state c = CActive ∧ in_front (storage x) g c rest.

(** The data that has been posted to an address. *)
Definition sent_to (a : Z) (l : list (Z * msg)) : list msg :=
  (Storage.kept ∘ snd) <$> filter (λ p, p.1 = a ∧ m_type p.2 = DATA) l.

Lemma sent_to_app a l k : sent_to a (l ++ k) = sent_to a l ++ sent_to a k.
Proof. unfold sent_to. by rewrite filter_app, fmap_app. Qed.

Lemma sent_to_other a b m : b ≠ a → sent_to a [(b, m)] = [].
Proof. intros Hb. unfold sent_to. by rewrite filter_cons_False by (cbn; tauto). Qed.

Lemma sent_to_control a b m : m_type m ≠ DATA → sent_to a [(b, m)] = [].
Proof. intros Hb. unfold sent_to. by rewrite filter_cons_False by (cbn; tauto). Qed.

Lemma sent_to_data a m : m_type m = DATA → sent_to a [(a, m)] = [Storage.kept m].
Proof. intros Hb. unfold sent_to. by rewrite filter_cons_True by done. Qed.

(** Operations that leave the session of [a] alone. *)
Definition op_ok (a : Z) (x : server) (o : op) : Prop :=
  match o with
  | OPost _ m => Storage.st_ok (storage x) (snd (AutoSeq.update (autoseq x) m)) ∧ AutoSeq.enable (autoseq x) = false
  | ORequest _ m => m_addr m ≠ a ∧ (m_msgid m ≠ ClientDone_meta_id → parse_request (m_msgid m) (m_data m) ≠ None)
  | OControl m => m_addr m ≠ a ∨ m_msgid m ≠ control_msgid_disconnect (cf x)
  | ORead ok b => b = a → ok = true
  | OProcess => True
  end.

(** Readers of the storage that can go on. *)
Definition readable (w : W) (g : G) (o : option (@reader R BR)) : Prop :=
  match o with Some (RStorage r) => ∃ rest, Storage.st_read w g r rest | _ => True end.
Definition reader_ok (w : W) (g : G) (c : sclient) : Prop := readable w g (c_storage c) ∧ readable w g (c_next c).

Definition good (x : server) (g : G) (l : list msg) : Prop :=
  serves x g l ∧ map_Forall (λ _, reader_ok (storage x) g) (clients x).

(** What one operation does to the session. *)
Definition continues (a : Z) (x : server) (l : list msg) (rest : list msg) (x' : server) : Prop :=
  ∃ g new got rest', good x' g (l ++ new) ∧ reads x' g a rest' ∧ sent_to a (sent x') = sent_to a (sent x) ++ (Storage.kept <$> got) ∧
    got ++ rest' = rest ++ new ∧ cf x' = cf x ∧ AutoSeq.enable (autoseq x') = AutoSeq.enable (autoseq x) ∧
    ∀ m, Storage.st_ok (storage x) m → Storage.st_ok (storage x') m.

(** The storage and the session are the same. *)
Definition aside (a : Z) (x x' : server) : Prop :=
  storage x' = storage x ∧ s_seq x' = s_seq x ∧ cf x' = cf x ∧ autoseq x' = autoseq x ∧
  clients x' !! a = clients x !! a ∧ sent_to a (sent x') = sent_to a (sent x) ∧ wait_control x' = wait_control x.

Lemma aside_refl a x : aside a x x.
Proof. done. Qed.
Lemma aside_trans a x y z : aside a x y → aside a y z → aside a x z.
Proof. intros (?&?&?&?&?&?&?) (?&?&?&?&?&?&?). split_and!; congruence. Qed.

Lemma aside_continues a x g l rest x' : good x g l → reads x g a rest → aside a x x' →
  map_Forall (λ _, reader_ok (storage x) g) (clients x') → continues a x l rest x'.
Proof.
  intros [(Hl & Hs & Ht) _] (c & Hc & Hst & Hf) (E1 & E2 & E3 & E4 & E5 & E6 & _) Hg. exists g, [], [], rest.
  rewrite !app_nil_r. unfold good, serves, reads. rewrite E1, E2, E3, E4, E5, E6. split_and!; try done. by exists c.
Qed.

Lemma aside_set a b c (x : server) : b ≠ a → aside a x (set_client b c x).
Proof. intros Hb. split_and!; try done. unfold set_client. cbn [clients with_clients]. by rewrite lookup_insert_ne. Qed.

Lemma aside_del a b (x : server) : b ≠ a → aside a x (del_client b x).
Proof. intros Hb. split_and!; try done. unfold del_client. cbn [clients with_clients]. by rewrite lookup_delete_ne. Qed.

Lemma aside_post a b m (x : server) : b ≠ a → aside a x (request_post b m x).
Proof.
  intros Hb. split_and!; try done. unfold request_post. cbn [sent with_sent]. by rewrite sent_to_app, sent_to_other, app_nil_r.
Qed.

Lemma aside_disconnect a b (x : server) : b ≠ a → aside a x (_request_disconnect b (del_client b x)).
Proof.
  intros Hb. unfold _request_disconnect. destruct (_ =? 0); [by apply aside_del|].
  eapply aside_trans; [by apply (aside_del a b)|by apply aside_post].
Qed.

Lemma drop_clients_aside a l : ∀ x : server,
  (∀ c, clients x !! a = Some c → c_state c = CActive) → aside a x (drop_clients l x).
Proof.
  induction l as [|b l IH]; intros x Ha; [by apply aside_refl|]. cbn [drop_clients].
  destruct (clients x !! b) as [c|] eqn:Hb; [|by apply IH].
  destruct (decide (b = a)) as [->|Hne]; [rewrite (Ha c Hb); by apply IH|].
  assert (aside a x (_request_disconnect b (del_client b x))) as Hd by by apply aside_disconnect.
  assert (∀ y : server, aside a x y → ∀ c, clients y !! a = Some c → c_state c = CActive) as Hy.
  { intros y (_ & _ & _ & _ & -> & _). exact Ha. }
  destruct (c_state c); try (by apply IH); (eapply aside_trans; [exact Hd|]; apply IH; by apply Hy).
Qed.

(** ** Opening of a client *)
Lemma reply_data r : i64_ok (last_seq r) → i64_ok (requested_seq r) → i64_ok (block_seq r) →
  ∃ b, make_reply r = Some b ∧ get_reply b = Some r.
Proof. intros H1 H2 H3. destruct (reply_roundtrip r H1 H2 H3) as (b & ? & _ & ?). by exists b. Qed.

Lemma make_reply_total r : ∃ b, make_reply r = Some b.
Proof.
  unfold make_reply. destruct (set_scalar_total 8 (zeros 32) 0 (last_seq r)) as [b1 E1]; [done|done|].
  change Reply_meta_size with 32. rewrite E1. cbn [mbind option_bind]. pose proof (set_scalar_zlen _ _ _ _ _ E1) as Z1. change (zlen (zeros 32)) with 32 in Z1.
  destruct (set_scalar_total 8 b1 16 (block_seq r)) as [b2 E2]; [lia|lia|]. rewrite E2. cbn [mbind option_bind]. pose proof (set_scalar_zlen _ _ _ _ _ E2).
  destruct (set_scalar_total 8 b2 8 (requested_seq r)) as [b3 E3]; [lia|lia|]. by exists b3.
Qed.

Lemma make_error_total t : string_len_ok t → ∃ b, make_error t = Some b.
Proof.
  intros Ht. destruct (set_string_fresh (zeros Error_meta_size) 0 t) as (b & Hb & _); [split; [done|]; split; done|done|done|]. by exists b.
Qed.

(** The block that a request asks for: the one it names, or the one that initial requests stand for. *)
Definition named (t : list Z) (i : Z) : option (list Z * Z) := match t with [] => None | _ => Some (t, i) end.

Definition asked (x : server) (l : list msg) (d : request_data) : option (list Z * Z) :=
  match d with
  | DataBlock t i => named t i
  | DataInitial => match initial_reply (cf x), l with Some (t, i), _ :: _ => named t i | _, _ => None end
  | DataSeq _ | DataLast => None
  end.

(** The answer to a request for a block: the channel of blocks opens it and its last message is not after
    the last one of the server.  [bs] are the messages of the block ([first] is -1 when it has none of its own). *)
Definition block_answer (x : server) (t : list Z) (i : Z) (rp : reply) (bs : list msg) : Prop :=
  ∃ bw first lst rd, blocks x = Some bw ∧ b_open B bw t i = Some (first, lst, rd) ∧ lst ≤ s_seq x ∧ block_seq rp = lst + 1 ∧
    if first =? -1 then requested_seq rp = lst + 1 ∧ bs = [] else requested_seq rp = first ∧ b_reads rd bs.

Definition block_refused (x : server) (t : list Z) (i : Z) : Prop :=
  ∀ bw first lst rd, blocks x = Some bw → b_open B bw t i = Some (first, lst, rd) → first = -1 ∧ lst = -1 ∨ s_seq x < lst.

Definition answered (x : server) (l : list msg) (d : request_data) (rp : reply) (bs : list msg) : Prop :=
  match asked x l d with
  | Some (t, i) => block_answer x t i rp bs
  | None => block_seq rp = -1 ∧ bs = [] ∧
      match d with
      | DataSeq s => requested_seq rp = i64 s
      | DataInitial => initial_reply (cf x) = None ∨ l = [] → requested_seq rp = Storage.first_seq l
      | DataLast => l ≠ [] ∧ requested_seq rp = Storage.last_seq l - 1
      | DataBlock _ _ => True
      end
  end.

Definition refused (x : server) (l : list msg) (d : request_data) : Prop :=
  match asked x l d with Some (t, i) => block_refused x t i | None => d = DataLast ∧ l = [] end.

(** The part of [client_init] up to the readers. *)
Lemma init_request_spec (x : server) l d (c : sclient) : s_seq x = Storage.last_seq l → (Storage.last_seq l = -1 ↔ l = []) →
  Storage.st_seq_begin (storage x) = Storage.first_seq l → c_next c = None → c_block_end c = -1 →
  match init_request x d c with
  | Ok (b, c') => b = asked x l d ∧ c_next c' = None ∧ c_block_end c' = -1 ∧ c_addr c' = c_addr c ∧
      match d with
      | DataSeq s => c_seq c' = i64 s
      | DataInitial => initial_reply (cf x) = None ∨ l = [] → c_seq c' = Storage.first_seq l
      | DataLast => l ≠ [] ∧ c_seq c' = Storage.last_seq l - 1
      | DataBlock _ _ => True
      end
  | Err _ => d = DataLast ∧ l = []
  end.
Proof.
  intros Hseq Hempty Hfirst Hn He. unfold init_request, asked. rewrite Hseq, Hfirst. destruct d as [s|t i| |]; try done.
  - destruct (Z.eqb_spec (Storage.last_seq l) (-1)) as [E|E].
    + apply Hempty in E as ->. split_and!; try done. by destruct (initial_reply (cf x)) as [[??]|].
    + assert (l ≠ []) as Hl by (intros Hl; by apply Hempty in Hl).
      destruct l as [|m l]; [done|]. destruct (initial_reply (cf x)) as [[t i]|]; split_and!; try done. by intros [|].
  - destruct (Z.eqb_spec (Storage.last_seq l) (-1)) as [E|E]; [split; [done|by apply Hempty]|].
    split_and!; try done. intros Hl. by apply Hempty in Hl.
Qed.

Lemma init_block_spec (x : server) b (c : sclient) : c_next c = None → c_block_end c = -1 →
  match init_block B x b c with
  | Ok c' => c_addr c' = c_addr c ∧
      match b with
      | None => c' = c
      | Some (t, i) => ∃ bw first lst rd, blocks x = Some bw ∧ b_open B bw t i = Some (first, lst, rd) ∧ c_block_end c' = lst + 1 ∧
          if first =? -1 then c_seq c' = lst + 1 ∧ c_next c' = None else c_seq c' = first ∧ c_next c' = Some (RBlocks rd)
      end
  | Err _ => ∃ t i, b = Some (t, i) ∧ block_refused x t i
  end.
Proof.
  intros Hn He. unfold init_block. destruct b as [[t i]|]; [|done].
  destruct (blocks x) as [bw|] eqn:Eb; [|exists t, i; split; [done|]; intros ????; congruence].
  destruct (b_open B bw t i) as [[[first lst] rd]|] eqn:Eo.
  - destruct (Z.eqb_spec first (-1)) as [->|Hf].
    + destruct (Z.eqb_spec (lst + 1) 0) as [El|El].
      * exists t, i. split; [done|]. intros ???? E1 E2. simplify_eq. left. split; [done|lia].
      * split; [done|]. by exists bw, (-1), lst, rd.
    + split; [done|]. exists bw, first, lst, rd. rewrite (proj2 (Z.eqb_neq _ _) Hf). done.
  - exists t, i. split; [done|]. intros ???? E1 E2. congruence.
Qed.

(** The result of [client_init]: a client in Active with its readers at the
    start of what it asked for and the reply that says where that is, or an error. *)
Lemma client_init_spec ok (x : server) g l name d c : serves x g l → c_next c = None →
  ∃ x' c' r, client_init B ok x name d c = Some (x', c', r) ∧ cf x' = cf x ∧
    match r with
    | Ok _ => ∃ rp data bs, make_reply rp = Some data ∧
        x' = request_post (c_addr c) (Msg DATA 0 Reply_meta_id 0 data (zlen data) (c_addr c) 0) x ∧
        c_state c' = CActive ∧ c_suspended c' = false ∧ last_seq rp = Storage.last_seq l ∧
        in_front (storage x) g c' (bs ++ Storage.from (if block_seq rp =? -1 then requested_seq rp else block_seq rp) l) ∧
        answered x l d rp bs ∧ (asked x l d = None → c_next c' = None)
    | Err _ => x' = x ∧ (ok = true → refused x l d)
    end.
Proof.
  intros (Hlog & Hseq & _) Hn. pose proof (Storage.st_log_spec _ _ _ Hlog) as (Hinc & _ & Hfirst).
  assert (Storage.last_seq l = -1 ↔ l = []) as Hempty.
  { split; [|by intros ->]. unfold Storage.last_seq. destruct (last l) as [m|] eqn:E; [|by apply last_None in E].
    cbn. intros Em. destruct Hinc as [_ Hp]. rewrite Forall_forall in Hp. specialize (Hp m (last_Some_elem_of _ _ E)). cbn in Hp. lia. }
  unfold client_init. set (c0 := SClient (c_seq c) (-1) (c_addr c) (c_storage c) (c_next c) (c_suspended c) name COpening).
  pose proof (init_request_spec x l d c0 Hseq Hempty Hfirst Hn eq_refl) as Hreq.
  destruct (init_request x d c0) as [[b c1]|e];
    [|eexists x, _, (Err e); split; [done|]; split; [done|]; split; [done|]; intros _; destruct Hreq as [-> ->]; done].
  destruct Hreq as (Eb & Hn1 & He1 & Ha1 & Hd). pose proof (init_block_spec x b c1 Hn1 He1) as Hblk.
  destruct (init_block B x b c1) as [c2|e].
  2:{ eexists x, _, (Err e). split; [done|]. split; [done|]. split; [done|]. intros _. destruct Hblk as (t & i & E1 & Hr).
      unfold refused. by rewrite <-Eb, E1. }
  destruct Hblk as [Ha2 Hblk].
  destruct (negb (c_block_end c2 =? -1) && (s_seq x + 1 <? c_block_end c2)) eqn:Ef.
  { eexists x, _, (Err _). split; [done|]. split; [done|]. split; [done|]. intros _.
    apply andb_true_iff in Ef as [Ef1 Ef2%Z.ltb_lt]. unfold refused. rewrite <-Eb. destruct b as [[t i]|].
    - intros bw first lst rd E1 E2. destruct Hblk as (bw' & first' & lst' & rd' & E1' & E2' & E3 & _). simplify_eq. right. lia.
    - rewrite Hblk, He1 in Ef1. done. }
  set (from_ := if c_block_end c2 =? -1 then c_seq c2 else c_block_end c2).
  destruct (Storage.st_open_spec _ _ _ from_ Hlog) as (rd & Hrd & Hr). rewrite Hrd. cbn [mbind option_bind].
  set (c3 := match c_next c2 with Some n => _ | None => _ end).
  assert (c_seq c3 = c_seq c2 ∧ c_block_end c3 = c_block_end c2 ∧ c_addr c3 = c_addr c) as (E1 & E2 & E3) by (unfold c3; destruct (c_next c2); cbn; by rewrite Ha2).
  rewrite E1, E2, E3. destruct (make_reply_total (Reply (s_seq x) (c_seq c2) (c_block_end c2))) as [data Hdata]. rewrite Hdata. cbn [mbind option_bind].
  destruct ok; cbn [negb]; [|by eexists x, _, (Err _)]. eexists _, _, (Ok tt). split; [reflexivity|]. split; [done|].
  assert (∀ bs, in_front (storage x) g c3 (bs ++ Storage.from from_ l) →
    answered x l d (Reply (s_seq x) (c_seq c2) (c_block_end c2)) bs → (asked x l d = None → c_next c3 = None) →
    ∃ rp data0 bs, make_reply rp = Some data0 ∧
    request_post (c_addr c) (Msg DATA 0 Reply_meta_id 0 data (zlen data) (c_addr c) 0) x =
    request_post (c_addr c) (Msg DATA 0 Reply_meta_id 0 data0 (zlen data0) (c_addr c) 0) x ∧
    c_state (with_suspended false (with_cstate CActive c3)) = CActive ∧ c_suspended (with_suspended false (with_cstate CActive c3)) = false ∧ last_seq rp = Storage.last_seq l ∧
    in_front (storage x) g (with_suspended false (with_cstate CActive c3)) (bs ++ Storage.from (if block_seq rp =? -1 then requested_seq rp else block_seq rp) l) ∧
    answered x l d rp bs ∧ (asked x l d = None → c_next (with_suspended false (with_cstate CActive c3)) = None)) as Hgo.
  { intros bs H1 H2 H3. eexists _, data, bs. split; [exact Hdata|]. by rewrite Hseq in *. }
  pose proof (Storage.last_seq_low l Hinc) as Hlow.
  destruct b as [[t i]|].
  - destruct Hblk as (bw & first & lst & rb & E4 & E5 & E6 & Hc2).
    assert (lst ≤ s_seq x) as Hle.
    { apply andb_false_iff in Ef as [Ef%negb_false_iff%Z.eqb_eq|Ef%Z.ltb_ge]; lia. }
    destruct (b_open_spec _ _ _ _ _ _ E5) as [ms Hms].
    destruct (first =? -1) eqn:Efirst; destruct Hc2 as [E7 E8].
    + apply (Hgo []); [unfold c3, in_front; rewrite E8; exact Hr| |by rewrite <-Eb].
      unfold answered. rewrite <-Eb. exists bw, first, lst, rb. rewrite Efirst. cbn. by rewrite E6, E7.
    + apply (Hgo ms); [unfold c3, in_front; rewrite E8; by exists ms, (Storage.from from_ l)| |by rewrite <-Eb].
      unfold answered. rewrite <-Eb. exists bw, first, lst, rb. rewrite Efirst. cbn. by rewrite E6, E7.
  - subst c2. apply (Hgo []); [unfold c3, in_front; rewrite Hn1; exact Hr| |intros _; unfold c3; by rewrite Hn1].
    unfold answered. rewrite <-Eb. cbn. rewrite He1. split; [done|]. split; [done|]. exact Hd.
Qed.


(** ** Posts *)
Lemma update_off (x : server) m : AutoSeq.enable (autoseq x) = false → AutoSeq.update (autoseq x) m = (autoseq x, m).
Proof. intros E. unfold AutoSeq.update. by rewrite E. Qed.

(** A post adds a message to the log, which all readers will see, or nothing. *)
Lemma server_post_spec ok m (x : server) g l : serves x g l → Storage.st_ok (storage x) m → AutoSeq.enable (autoseq x) = false →
  ∃ x' r g' new, _post B ok m x = Some (x', r) ∧ serves x' g' (l ++ new) ∧
    (∀ rd rest, Storage.st_read (storage x) g rd rest → Storage.st_read (storage x') g' rd (rest ++ new)) ∧
    clients x' = clients x ∧ sent x' = sent x ∧ cf x' = cf x ∧ AutoSeq.enable (autoseq x') = AutoSeq.enable (autoseq x) ∧
    wait_control x' = wait_control x ∧ (∀ m, Storage.st_ok (storage x) m → Storage.st_ok (storage x') m) ∧
    (new = [] ∧ online x' = online x ∨
     new = [Storage.kept m] ∧ s_seq x < m_seq m ∧ online x' = online x ++ (if negb (wait_control x) && ok then [m] else [])).
Proof.
  intros (Hlog & Hseq & Ht) Hok Ha. unfold _post.
  assert (∀ x' r, storage x' = storage x → s_seq x' = s_seq x → cf x' = cf x → clients x' = clients x → sent x' = sent x →
    online x' = online x → AutoSeq.enable (autoseq x') = AutoSeq.enable (autoseq x) → wait_control x' = wait_control x →
    ∃ x'' (r' : Z) g' new, Some (x', r) = Some (x'', r') ∧ serves x'' g' (l ++ new) ∧
    (∀ rd rest, Storage.st_read (storage x) g rd rest → Storage.st_read (storage x'') g' rd (rest ++ new)) ∧
    clients x'' = clients x ∧ sent x'' = sent x ∧ cf x'' = cf x ∧ AutoSeq.enable (autoseq x'') = AutoSeq.enable (autoseq x) ∧
    wait_control x'' = wait_control x ∧ (∀ m, Storage.st_ok (storage x) m → Storage.st_ok (storage x'') m) ∧
    (new = [] ∧ online x'' = online x ∨
     new = [Storage.kept m] ∧ s_seq x < m_seq m ∧ online x'' = online x ++ (if negb (wait_control x) && ok then [m] else []))) as Hsame.
  { intros x' r E1 E2 E3 E4 E5 E6 E7 E8. exists x', r, g, []. rewrite app_nil_r. split; [done|]. unfold serves. rewrite E1, E2, E3.
    split; [done|]. split; [intros rd rest Hr; by rewrite app_nil_r|]. do 4 (split; [done|]). split; [done|]. split; [done|]. by left. }
  destruct (Z.ltb_spec (max_size (cf x)) (zlen (m_data m))); [by apply Hsame|]. rewrite (update_off x m Ha).
  change (with_autoseq (autoseq x) x) with x || (assert (with_autoseq (autoseq x) x = x) as -> by by destruct x).
  destruct (Z.leb_spec (m_seq m) (s_seq x)); [by apply Hsame|].
  set (p := match blocks x with Some b => _ | None => _ end). destruct p as [code b]. cbv zeta.
  destruct (code =? 0); cbn [negb]; [|by apply Hsame]. cbn [storage with_store blocks s_seq].
  destruct (Storage.st_post_spec _ _ _ m Hlog Hok) as (r & w' & g' & Hp & Hok' & Hr). rewrite Hp. cbn [mbind option_bind].
  destruct r as [[]|e]; destruct Hr as [Hlog' Hrd'].
  - cbn [wait_control with_store]. destruct (wait_control x) eqn:Ew; [|destruct ok]; cbn [negb andb];
      (eexists _, _, g', [Storage.kept m]; split; [reflexivity|]; split;
       [split; [exact Hlog'|]; split; [by rewrite Storage.last_seq_app|exact Ht]|]; split; [exact Hrd'|];
       do 4 (split; [done|]); split; [exact Ew|]; split; [exact Hok'|]; right; split; [done|]; split; [lia|]; by rewrite ?app_nil_r).
  - eexists _, _, g', []. rewrite app_nil_r. split; [reflexivity|]. split; [split; [exact Hlog'|]; split; [exact Hseq|exact Ht]|].
    split; [intros rd rest Hr; rewrite app_nil_r; by apply Hrd'|]. do 5 (split; [done|]). split; [exact Hok'|]. by left.
Qed.

Lemma in_front_post w w' g g' c rest new :
  (∀ rd rest, Storage.st_read w g rd rest → Storage.st_read w' g' rd (rest ++ new)) →
  in_front w g c rest → in_front w' g' c (rest ++ new).
Proof.
  intros Hr. unfold in_front. destruct (c_storage c) as [[r|b]|]; destruct (c_next c) as [[r'|b']|]; try done; [apply Hr|].
  intros (bs & rs & Hb & Hrs & ->). exists bs, (rs ++ new). split; [done|]. split; [by apply Hr|]. by rewrite app_assoc.
Qed.

(** ** The session goes on *)
Definition to_client (a : Z) (m : msg) : Z * msg := (a, Msg DATA (m_flags m) (m_msgid m) (m_seq m) (m_data m) (m_size m) a 0).

Lemma sent_to_client a m : sent_to a [to_client a m] = [Storage.kept m].
Proof. unfold to_client. by rewrite sent_to_data. Qed.

(** A call of process for the storage of a client: the next message is sent or there is none,
    and then either nothing is left or the client is suspended, or its block has ended. *)
Lemma client_process_spec (x : server) g l a rest : serves x g l → reads x g a rest →
  ∃ c x' got rest', clients x !! a = Some c ∧ client_process B true a x = Some x' ∧ reads x' g a rest' ∧
    storage x' = storage x ∧ s_seq x' = s_seq x ∧ cf x' = cf x ∧ autoseq x' = autoseq x ∧ wait_control x' = wait_control x ∧
    online x' = online x ∧ (∀ b, b ≠ a → clients x' !! b = clients x !! b) ∧
    sent x' = sent x ++ (to_client a <$> got) ∧ rest = got ++ rest' ∧
    (got = [] → rest = [] ∨ c_suspended c = true ∨ c_next c ≠ None).
Proof.
  intros (Hlog & _) (c & Hc & Hst & Hf). unfold client_process. rewrite Hc. exists c.
  assert (∀ c', c_state c' = CActive → in_front (storage x) g c' rest → (rest = [] ∨ c_suspended c = true ∨ c_next c ≠ None) →
    ∃ x' got rest', Some c = Some c ∧ Some (set_client a c' x) = Some x' ∧ reads x' g a rest' ∧
    storage x' = storage x ∧ s_seq x' = s_seq x ∧ cf x' = cf x ∧ autoseq x' = autoseq x ∧ wait_control x' = wait_control x ∧
    online x' = online x ∧ (∀ b, b ≠ a → clients x' !! b = clients x !! b) ∧
    sent x' = sent x ++ (to_client a <$> got) ∧ rest = got ++ rest' ∧ (got = [] → rest = [] ∨ c_suspended c = true ∨ c_next c ≠ None)) as Hnone.
  { intros c' H1 H2 H3. exists (set_client a c' x), [], rest. cbn [fmap list_fmap]. rewrite app_nil_r.
    split; [done|]. split; [done|]. split; [exists c'; split; [apply lookup_insert_eq|done]|]. do 6 (split; [done|]).
    split; [intros b Hb; unfold set_client; cbn; by rewrite lookup_insert_ne|]. done. }
  assert (∀ c' m rest', c_state c' = CActive → in_front (storage x) g c' rest' → rest = m :: rest' →
    ∃ x' got rest', Some c = Some c ∧ Some (on_storage true a c' m x) = Some x' ∧ reads x' g a rest' ∧
    storage x' = storage x ∧ s_seq x' = s_seq x ∧ cf x' = cf x ∧ autoseq x' = autoseq x ∧ wait_control x' = wait_control x ∧
    online x' = online x ∧ (∀ b, b ≠ a → clients x' !! b = clients x !! b) ∧
    sent x' = sent x ++ (to_client a <$> got) ∧ rest = got ++ rest' ∧ (got = [] → rest = [] ∨ c_suspended c = true ∨ c_next c ≠ None)) as Hone.
  { intros c' m rest' H1 H2 ->. exists (on_storage true a c' m x), [m], rest'. split; [done|]. split; [done|].
    split; [exists c'; split; [apply lookup_insert_eq|done]|]. do 6 (split; [done|]).
    split; [intros b Hb; unfold on_storage, set_client; cbn; by rewrite lookup_insert_ne|]. done. }
  destruct (c_suspended c) eqn:Esus.
  { specialize (Hnone c Hst Hf ltac:(by right; left)). unfold set_client in Hnone. rewrite insert_id in Hnone by done.
    assert (with_clients (clients x) x = x) as E by by destruct x. rewrite E in Hnone. exact Hnone. }
  unfold in_front in Hf. destruct (c_storage c) as [[r|b]|] eqn:Ec; [|destruct (c_next c) as [[r'|b']|] eqn:En; try done|done].
  - destruct (c_next c) as [n|] eqn:En; [done|]. destruct (Storage.st_next_spec _ _ _ _ _ Hlog Hf) as (r' & Hn & Hr').
    rewrite Hn. cbn [mbind option_bind]. destruct rest as [|m rest]; cbn [head] in *.
    + apply (Hnone (with_readers (Some (RStorage r')) None c)); [done|exact Hr'|by left].
    + by apply (Hone (with_readers (Some (RStorage r')) None c) m rest).
  - destruct Hf as (bs & rs & Hb & Hrs & ->). destruct (b_next_spec _ _ Hb) as (b' & Hn & Hb'). rewrite Hn.
    destruct bs as [|m bs]; cbn [head] in *.
    + unfold client_closed. cbn [c_state c_next with_readers]. rewrite Hst, bool_decide_true by done. cbn [negb].
      apply (Hnone (with_readers (Some (RStorage r')) None (with_readers (Some (RBlocks b')) (Some (RStorage r')) c))); [done|exact Hrs|].
      right. by right.
    + apply (Hone (with_readers (Some (RBlocks b')) (Some (RStorage r')) c) m (bs ++ rs)); [done| |done]. by exists bs, rs.
Qed.

Lemma sent_to_clients a l : sent_to a (to_client a <$> l) = Storage.kept <$> l.
Proof. induction l as [|m l IH]; [done|]. cbn [fmap list_fmap]. change (?x :: ?k) with ([x] ++ k). rewrite sent_to_app, sent_to_client. by rewrite IH. Qed.

(** Another client. *)
Lemma client_process_aside ok b (x : server) g l a : serves x g l → b ≠ a →
  (∀ c, clients x !! b = Some c → match c_storage c with
     | Some (RStorage r) => ∃ rest, Storage.st_read (storage x) g r rest | Some (RBlocks _) | None => True end) →
  ∃ x', client_process B ok b x = Some x' ∧ aside a x x'.
Proof.
  intros (Hlog & _) Hb Hall. unfold client_process. destruct (clients x !! b) as [c|] eqn:Hc; [|exists x; split; [done|apply aside_refl]].
  specialize (Hall c eq_refl). destruct (c_suspended c); [exists x; split; [done|apply aside_refl]|].
  assert (∀ c m, aside a x (on_storage ok b c m x)) as Hon.
  { intros c' m. unfold on_storage. destruct ok; [|by apply aside_set]. eapply aside_trans; [by apply (aside_post a b)|by apply aside_set]. }
  destruct (c_storage c) as [[r|br]|]; [|..|exists x; split; [done|apply aside_refl]].
  - destruct Hall as [rest Hr]. destruct (Storage.st_next_spec _ _ _ _ _ Hlog Hr) as (r' & Hn & _). rewrite Hn. cbn [mbind option_bind].
    eexists. split; [reflexivity|]. destruct (head rest); [apply Hon|by apply aside_set].
  - destruct (b_next B br) as [m br']. eexists. split; [reflexivity|]. destruct m; [apply Hon|]. unfold client_closed.
    destruct (negb _); [by apply aside_set|]. destruct (c_next _); [by apply aside_set|].
    eapply aside_trans; [by apply (aside_set a b)|]. done.
Qed.

(** ** Readers stay readable *)
Lemma reader_ok_post w w' g g' c new :
  (∀ rd rest, Storage.st_read w g rd rest → Storage.st_read w' g' rd (rest ++ new)) → reader_ok w g c → reader_ok w' g' c.
Proof.
  intros Hr [H1 H2]. assert (∀ o, readable w g o → readable w' g' o) as Ho.
  { intros [[r|b]|]; [|done|done]. intros [rest Hrest]. eexists. by apply Hr. }
  split; by apply Ho.
Qed.

Lemma clients_disconnect a (x : server) : clients (_request_disconnect a x) = clients x.
Proof. unfold _request_disconnect. by destruct (_ =? 0). Qed.

Lemma good_drop w g l : ∀ x : server, map_Forall (λ _, reader_ok w g) (clients x) → map_Forall (λ _, reader_ok w g) (clients (drop_clients l x)).
Proof.
  induction l as [|a l IH]; intros x Hx; [done|]. cbn [drop_clients]. destruct (clients x !! a) as [c|]; [|by apply IH].
  assert (map_Forall (λ _, reader_ok w g) (clients (_request_disconnect a (del_client a x)))) as Hd
    by (rewrite clients_disconnect; by apply map_Forall_delete).
  destruct (c_state c); by apply IH.
Qed.

Lemma client_process_good ok b (x : server) g l x' : good x g l → client_process B ok b x = Some x' →
  map_Forall (λ _, reader_ok (storage x) g) (clients x').
Proof.
  intros [(Hlog & _) Hall]. unfold client_process. destruct (clients x !! b) as [c|] eqn:Hc; [|by intros [= <-]].
  destruct (Hall b c Hc) as [H1 H2]. destruct (c_suspended c); [by intros [= <-]|].
  assert (∀ c', reader_ok (storage x) g c' → map_Forall (λ _, reader_ok (storage x) g) (<[b := c']> (clients x))) as Hins
    by (intros c' Hc'; by apply map_Forall_insert_2).
  assert (∀ c' m, reader_ok (storage x) g c' → map_Forall (λ _, reader_ok (storage x) g) (clients (on_storage ok b c' m x))) as Hon.
  { intros c' m [Ha Hb]. unfold on_storage. destruct ok; apply Hins; [done|]. by split. }
  destruct (c_storage c) as [[r|br]|]; [|..|by intros [= <-]].
  - destruct H1 as [rest Hr]. destruct (Storage.st_next_spec _ _ _ _ _ Hlog Hr) as (r' & Hn & Hr'). rewrite Hn. cbn [mbind option_bind].
    assert (reader_ok (storage x) g (with_readers (Some (RStorage r')) (c_next c) c)) as Hc' by (split; [by exists (tail rest)|done]).
    destruct (head rest); intros [= <-]; [by apply Hon|by apply Hins].
  - destruct (b_next B br) as [m br']. assert (reader_ok (storage x) g (with_readers (Some (RBlocks br')) (c_next c) c)) as Hc' by by split.
    destruct m; intros [= <-]; [by apply Hon|]. unfold client_closed. cbn [c_state c_next with_readers].
    destruct (negb _); [apply Hins; by split|]. destruct (c_next c); apply Hins; by split.
Qed.

(** ** Requests *)
Lemma client_init_total ok (x : server) g l name d c : good x g l → readable (storage x) g (c_next c) →
  ∃ x' c' r, client_init B ok x name d c = Some (x', c', r) ∧
    (x' = x ∨ ∃ m, m_type m = DATA ∧ x' = request_post (c_addr c) m x) ∧ (r = Ok tt → reader_ok (storage x) g c').
Proof.
  intros [(Hlog & _) _] Hnx. unfold client_init. set (c0 := SClient (c_seq c) (-1) (c_addr c) (c_storage c) (c_next c) (c_suspended c) name COpening).
  assert (∀ b c1, init_request x d c0 = Ok (b, c1) → c_next c1 = c_next c ∧ c_addr c1 = c_addr c) as Hreq.
  { intros b c1. unfold init_request. destruct d; repeat case_match; intros [= <- <-]; done. }
  destruct (init_request x d c0) as [[b c1]|e]; [|eexists x, _, (Err e); split; [done|]; split; [by left|done]].
  destruct (Hreq _ _ eq_refl) as [Hn1 Ha1]. clear Hreq.
  assert (∀ c2, init_block B x b c1 = Ok c2 → readable (storage x) g (c_next c2) ∧ c_addr c2 = c_addr c) as Hblk.
  { intros c2. unfold init_block. destruct b as [[t i]|]; [|intros [= <-]; by rewrite Hn1].
    destruct (blocks x) as [bw|]; [|done]. destruct (b_open B bw t i) as [[[first lst] rd]|]; [|done].
    destruct (first =? -1); [destruct (lst + 1 =? 0); [done|]; intros [= <-]; cbn; by rewrite Hn1|]. by intros [= <-]. }
  destruct (init_block B x b c1) as [c2|e]; [|eexists x, _, (Err e); split; [done|]; split; [by left|done]].
  destruct (Hblk _ eq_refl) as [Hn2 Ha2]. clear Hblk.
  destruct (negb _ && _); [eexists x, _, (Err _); split; [done|]; split; [by left|done]|].
  destruct (Storage.st_open_spec _ _ _ (if c_block_end c2 =? -1 then c_seq c2 else c_block_end c2) Hlog) as (rd & Hrd & Hr). rewrite Hrd. cbn [mbind option_bind].
  set (c3 := match c_next c2 with Some n => _ | None => _ end).
  destruct (make_reply_total (Reply (s_seq x) (c_seq c3) (c_block_end c3))) as [data Hdata]. rewrite Hdata. cbn [mbind option_bind].
  destruct ok; cbn [negb]; [|eexists x, _, (Err _); split; [done|]; split; [by left|done]].
  eexists _, _, (Ok tt). split; [reflexivity|]. split.
  - right. eexists. assert (c_addr c3 = c_addr c) as -> by (unfold c3; by destruct (c_next c2)). split; [|reflexivity]. done.
  - intros _. unfold c3, reader_ok. destruct (c_next c2); split; cbn; try done; by eexists.
Qed.

Lemma request_aside ok m (x : server) g l a : good x g l → m_addr m ≠ a →
  (m_msgid m ≠ ClientDone_meta_id → parse_request (m_msgid m) (m_data m) ≠ None) →
  ∃ x', _on_request_data B ok m x = Some x' ∧ aside a x x' ∧ map_Forall (λ _, reader_ok (storage x) g) (clients x').
Proof.
  intros Hgood Hm Hp. pose proof Hgood as [Hs Hall]. unfold _on_request_data.
  destruct (Z.eqb_spec (m_msgid m) ClientDone_meta_id) as [Ei|Ei].
  { destruct (clients x !! m_addr m); eexists; (split; [reflexivity|]); (split; [|]).
    - by apply aside_disconnect.
    - rewrite clients_disconnect. by apply map_Forall_delete.
    - apply aside_refl.
    - done. }
  specialize (Hp Ei). destruct (parse_request (m_msgid m) (m_data m)) as [r|]; [|done]. cbn [mbind option_bind].
  destruct r as [[name d]|e]; [|exists x; split; [done|]; split; [apply aside_refl|done]].
  set (c := default client_new (clients x !! m_addr m)). set (c' := SClient _ _ _ _ _ _ _ _).
  assert (readable (storage x) g (c_next c')) as Hr.
  { cbn. unfold c. destruct (clients x !! m_addr m) as [c1|] eqn:E; [|done]. apply (Hall _ _ E). }
  destruct (client_init_total ok x g l name d c' Hgood Hr) as (x' & c1 & r & Hi & Hx' & Hok). rewrite Hi. cbn [mbind option_bind].
  assert (aside a x x' ∧ clients x' = clients x ∧ storage x' = storage x ∧ cf x' = cf x) as (Hx & Ecl & Est & Ecf).
  { destruct Hx' as [->|(m' & _ & ->)]; [split; [apply aside_refl|done]|]. split; [by apply aside_post|done]. }
  destruct r as [[]|e].
  - eexists. split; [reflexivity|]. split; [eapply aside_trans; [exact Hx|by apply aside_set]|].
    unfold set_client. cbn. rewrite Ecl. by apply map_Forall_insert_2; [apply Hok|].
  - destruct (make_error_total (error_text (cf x') e)) as [t Ht]; [rewrite Ecf; apply Hs|]. rewrite Ht. cbn [mbind option_bind].
    eexists. split; [reflexivity|]. split.
    + eapply aside_trans; [exact Hx|]. eapply aside_trans; [|by apply aside_disconnect]. destruct ok; [by apply aside_post|apply aside_refl].
    + rewrite clients_disconnect. unfold del_client. cbn. apply map_Forall_delete. by destruct ok; cbn; rewrite Ecl.
Qed.

(** ** One operation *)
Lemma session_step a o (x : server) g l rest : good x g l → reads x g a rest → op_ok a x o →
  ∃ x', step o x = Some x' ∧ continues a x l rest x'.
Proof.
  intros Hgood Hr Ho. pose proof Hgood as [Hs Hall]. destruct o as [ok m|ok m|m|ok b|]; cbn [step op_ok] in *.
  - destruct Ho as [Hok Ha]. rewrite (update_off _ _ Ha) in Hok.
    destruct (server_post_spec ok m x g l Hs Hok Ha) as (x' & r & g' & new & Hp & Hs' & Hrd & Ecl & Esent & Ecf & Eau & _ & Hst & _).
    rewrite Hp. cbn [mbind option_bind]. exists x'. split; [done|]. exists g', new, [], (rest ++ new).
    split; [split; [done|]; rewrite Ecl; intros b c Hc; by eapply reader_ok_post, Hall|].
    split; [|by rewrite Esent, app_nil_r]. destruct Hr as (c & Hc & Hcs & Hf). exists c. rewrite Ecl. split; [done|]. split; [done|].
    by eapply in_front_post.
  - destruct Ho as [Hm Hp]. destruct (request_aside ok m x g l a Hgood Hm Hp) as (x' & Hx & Has & Hg').
    exists x'. split; [done|]. by eapply aside_continues.
  - eexists. split; [reflexivity|]. unfold _on_request_control. destruct (clients x !! m_addr m) as [c|] eqn:Hc; [|by eapply aside_continues].
    destruct Hr as (ca & Hca & Hcs & Hf).
    assert (∀ b, continues a x l rest (set_client (m_addr m) (with_suspended b c) x)) as Hsus.
    { intros b. destruct (decide (m_addr m = a)) as [Em|Em].
      - rewrite Em in *. rewrite Hc in Hca. injection Hca as <-. exists g, [], [], rest. rewrite !app_nil_r.
        split; [split; [done|]; apply map_Forall_insert_2; [apply (Hall _ _ Hc)|done]|].
        split; [eexists; split; [apply lookup_insert_eq|done]|]. done.
      - eapply (aside_continues _ _ g); [done|by exists ca|by apply aside_set|]. apply map_Forall_insert_2; [apply (Hall _ _ Hc)|done]. }
    destruct (Z.eqb_spec (m_msgid m) (control_msgid_disconnect (cf x))).
    + destruct Ho as [Hne|]; [|done]. eapply (aside_continues _ _ g); [done|by exists ca|by apply aside_del|]. by apply map_Forall_delete.
    + repeat case_match; [apply Hsus|apply Hsus|]. eapply (aside_continues _ _ g); [done|by exists ca|apply aside_refl|done].
  - destruct (decide (b = a)) as [->|Hb].
    + rewrite (Ho eq_refl). destruct (client_process_spec x g l a rest Hs Hr) as
        (c & x' & got & rest' & Hc & Hp & Hr' & E1 & E2 & E3 & E4 & _ & _ & Eo & Esent & -> & _).
      exists x'. split; [done|]. exists g, [], got, rest'. rewrite !app_nil_r. split.
      { split; [unfold serves; rewrite E1, E2, E3; exact Hs|]. rewrite E1. by eapply client_process_good. }
      split; [done|]. rewrite Esent, sent_to_app, sent_to_clients, E1, E4. done.
    + destruct (client_process_aside ok b x g l a Hs Hb) as (x' & Hp & Has).
      { intros c Hc. destruct (Hall b c Hc) as [H1 _]. destruct (c_storage c) as [[r|br]|]; done. }
      exists x'. split; [done|]. eapply aside_continues; [done|done|done|]. by eapply client_process_good.
  - eexists. split; [reflexivity|]. destruct Hr as (c & Hc & Hcs & Hf).
    assert (aside a x (_process x)) as Has.
    { unfold _process. eapply aside_trans; [apply (drop_clients_aside a (clients_drop x))|done]. intros c' Hc'. rewrite Hc in Hc'. by injection Hc' as <-. }
    eapply (aside_continues _ _ g); [done|by exists c|done|]. unfold _process. cbn. by apply good_drop.
Qed.

Lemma op_ok_storage a (x x' : server) o :
  cf x' = cf x → AutoSeq.enable (autoseq x') = AutoSeq.enable (autoseq x) →
  (∀ m, Storage.st_ok (storage x) m → Storage.st_ok (storage x') m) → op_ok a x o → op_ok a x' o.
Proof.
  intros Ec Ea Hst Ho. destruct o as [ok m|ok m|m|ok b|]; cbn in *; [|done|by rewrite Ec|done|done].
  destruct Ho as [Hok Ha]. rewrite (update_off _ _ Ha) in Hok. rewrite (update_off x') by congruence. cbn in *. split; [by apply Hst|congruence].
Qed.

Lemma session_steps a os : ∀ (x : server) g l rest, good x g l → reads x g a rest → Forall (op_ok a x) os →
  ∃ x', steps os x = Some x' ∧ continues a x l rest x'.
Proof.
  induction os as [|o os IH]; intros x g l rest Hg Hr Hos; cbn [steps].
  - exists x. split; [done|]. by eapply aside_continues; [done|done|apply aside_refl|apply Hg].
  - apply Forall_cons in Hos as [Ho Hos].
    destruct (session_step a o x g l rest Hg Hr Ho) as (x1 & H1 & g1 & new1 & got1 & rest1 & Hg1 & Hr1 & Es1 & E1 & Ec1 & Ea1 & Hst1).
    rewrite H1. cbn [mbind option_bind].
    destruct (IH x1 g1 _ rest1 Hg1 Hr1) as (x2 & H2 & g2 & new2 & got2 & rest2 & Hg2 & Hr2 & Es2 & E2 & Ec2 & Ea2 & Hst2).
    { eapply Forall_impl; [exact Hos|]. intros o'. by apply op_ok_storage. }
    exists x2. split; [done|]. exists g2, (new1 ++ new2), (got1 ++ got2), rest2. rewrite (app_assoc l). split; [done|]. split; [done|].
    rewrite Es2, Es1, fmap_app, !app_assoc. split; [done|]. rewrite <-(app_assoc got1), E2, app_assoc, E1.
    rewrite Ec2, Ec1, Ea2, Ea1. split; [done|]. split; [done|]. split; [done|]. auto.
Qed.

(** The request of a client that the server does not know yet. *)
Lemma request_session m (x : server) g l name d : good x g l → clients x !! m_addr m = None → m_msgid m ≠ ClientDone_meta_id →
  parse_request (m_msgid m) (m_data m) = Some (Ok (name, d)) →
  ∃ x', _on_request_data B true m x = Some x' ∧ cf x' = cf x ∧ autoseq x' = autoseq x ∧ storage x' = storage x ∧
    s_seq x' = s_seq x ∧ online x' = online x ∧ wait_control x' = wait_control x ∧
    ((∃ rp data bs c, make_reply rp = Some data ∧ good x' g l ∧
        sent x' = sent x ++ [(m_addr m, Msg DATA 0 Reply_meta_id 0 data (zlen data) (m_addr m) 0)] ∧
        clients x' = <[m_addr m := c]> (clients x) ∧ c_suspended c = false ∧
        reads x' g (m_addr m) (bs ++ Storage.from (if block_seq rp =? -1 then requested_seq rp else block_seq rp) l) ∧
        last_seq rp = Storage.last_seq l ∧
        answered x l d rp bs ∧ (asked x l d = None → c_next c = None)) ∨
     (clients x' = delete (m_addr m) (clients x) ∧ good x' g l ∧
        (∃ text dm, sent x' = sent x ++ (m_addr m, Msg DATA 0 Error_meta_id 0 text (zlen text) (m_addr m) 0) :: dm ∧ Forall (λ p, m_type p.2 ≠ DATA) dm) ∧
        refused x l d)).
Proof.
  intros Hgood Hnew Hid Hp. pose proof Hgood as [Hs Hall]. unfold _on_request_data. rewrite (proj2 (Z.eqb_neq _ _) Hid), Hp, Hnew. cbn [mbind option_bind].
  set (c0 := SClient _ _ _ _ _ _ _ _). destruct (client_init_spec true x g l name d c0 Hs eq_refl) as (x1 & c1 & r & Hi & Ecf & Hr).
  destruct (client_init_total true x g l name d c0 Hgood I) as (x2 & c2 & r2 & Hi2 & _ & Hro). rewrite Hi in Hi2. injection Hi2 as <- <- <-.
  rewrite Hi. cbn [mbind option_bind]. destruct r as [[]|e].
  - destruct Hr as (rp & data & bs & Hdata & -> & Hcs & Hsus & Hlast & Hf & Hd). eexists. split; [reflexivity|].
    do 6 (split; [done|]). left. exists rp, data, bs, c1. split; [done|].
    split; [split; [done|]; apply map_Forall_insert_2; [by apply Hro|done]|]. split; [done|].
    split; [done|]. split; [done|]. split; [exists c1; split; [apply lookup_insert_eq|done]|]. done.
  - destruct Hr as [-> Hd]. destruct (make_error_total (error_text (cf x) e)) as [t Ht]; [apply Hs|]. rewrite Ht. cbn [mbind option_bind].
    eexists. split; [reflexivity|]. unfold _request_disconnect.
    match goal with |- context [if ?b then _ else _] => destruct b end.
    + do 6 (split; [done|]). right. split; [done|]. split; [split; [done|]; by apply map_Forall_delete|]. split; [by exists t, []|]. by apply Hd.
    + do 6 (split; [done|]). right. split; [done|]. split; [split; [done|]; by apply map_Forall_delete|].
      split; [|by apply Hd]. exists t. eexists [_]. split; [unfold request_post; cbn; by rewrite <-app_assoc|]. by constructor.
Qed.

(** The session of a client that the server does not know, for any request. *)
Lemma session_any m (x : server) g l name d os :
  good x g l → clients x !! m_addr m = None → m_msgid m ≠ ClientDone_meta_id →
  parse_request (m_msgid m) (m_data m) = Some (Ok (name, d)) → Forall (op_ok (m_addr m) x) os →
  ∃ x1, _on_request_data B true m x = Some x1 ∧
    ((∃ rp data bs x2 g' new got rest, steps os x1 = Some x2 ∧ make_reply rp = Some data ∧
        sent_to (m_addr m) (sent x2) = sent_to (m_addr m) (sent x) ++
          Storage.kept (Msg DATA 0 Reply_meta_id 0 data (zlen data) (m_addr m) 0) :: (Storage.kept <$> got) ∧
        got ++ rest = bs ++ Storage.from (if block_seq rp =? -1 then requested_seq rp else block_seq rp) l ++ new ∧
        Storage.st_log (storage x2) g' (l ++ new) ∧ reads x2 g' (m_addr m) rest ∧ last_seq rp = Storage.last_seq l ∧
        answered x l d rp bs) ∨
     (∃ text, clients x1 !! m_addr m = None ∧
        sent_to (m_addr m) (sent x1) = sent_to (m_addr m) (sent x) ++
          [Storage.kept (Msg DATA 0 Error_meta_id 0 text (zlen text) (m_addr m) 0)] ∧
        refused x l d)).
Proof.
  intros Hg Hn Hid Hp Hos. destruct (request_session m x g l name d Hg Hn Hid Hp) as (x1 & H1 & Ec & Ea & Est & _ & _ & _ & Hcase).
  exists x1. split; [done|]. destruct Hcase as [(rp & data & bs & c & Hd & Hg1 & Es & _ & _ & Hr & Hlast & Harm & _)|(Ecl & _ & (t & dm & Es & Hdm) & Harm)].
  - left. destruct (session_steps (m_addr m) os x1 g l _ Hg1 Hr) as (x2 & H2 & g' & new & got & rest & Hg2 & Hr2 & Es2 & E2 & _).
    { eapply Forall_impl; [exact Hos|]. intros o. apply op_ok_storage; [done|by rewrite Ea|by rewrite Est]. }
    exists rp, data, bs, x2, g', new, got, rest. split; [done|]. split; [done|]. rewrite Es2, Es, sent_to_app, sent_to_data by done.
    split; [by rewrite <-app_assoc|]. rewrite app_assoc. split; [done|]. split; [apply Hg2|]. done.
  - right. exists t. rewrite Ecl, lookup_delete_eq. split; [done|]. split; [|done]. rewrite Es, sent_to_app. f_equal.
    change (?a :: dm) with ([a] ++ dm). rewrite sent_to_app, sent_to_data by done.
    assert (sent_to (m_addr m) dm = []) as ->; [|done]. unfold sent_to. clear -Hdm. induction Hdm as [|p dm Hp' _ IH]; [done|].
    rewrite filter_cons_False by tauto. exact IH.
Qed.

(** C15: the session of a client. A request from a new address for a number,
    for initial data or for a block (not for the last message, mode=last) is
    answered with a reply, and then the messages sent to this address are
    those of the block that was opened for it (if any) followed by the log
    from the number in the reply on, in order, without gap or repetition,
    later posts included, whatever other clients, posts and control messages
    of the request channel come in between. A request for a number starts
    there, one for initial data (without blocks) at the first message; one for
    a block gets what the channel opened for the block gives, and then the
    log behind its last number. A request is refused,
    with an error message, only if its block cannot be opened, is reported as
    invalid or ends after the last message. Conditions: posts that the storage
    can hold, with numbers of their own; requests that parse; the request
    channel takes what is posted for this client, who stays connected. *)
Theorem stream_session m (x : server) g l name d os :
  good x g l → clients x !! m_addr m = None → m_msgid m ≠ ClientDone_meta_id →
  parse_request (m_msgid m) (m_data m) = Some (Ok (name, d)) → d ≠ DataLast → Forall (op_ok (m_addr m) x) os →
  ∃ x1, _on_request_data B true m x = Some x1 ∧
    ((∃ rp data bs x2 g' new got rest, steps os x1 = Some x2 ∧ make_reply rp = Some data ∧
        sent_to (m_addr m) (sent x2) = sent_to (m_addr m) (sent x) ++
          Storage.kept (Msg DATA 0 Reply_meta_id 0 data (zlen data) (m_addr m) 0) :: (Storage.kept <$> got) ∧
        got ++ rest = bs ++ Storage.from (if block_seq rp =? -1 then requested_seq rp else block_seq rp) l ++ new ∧
        Storage.st_log (storage x2) g' (l ++ new) ∧ reads x2 g' (m_addr m) rest ∧ last_seq rp = Storage.last_seq l ∧
        match asked x l d with
        | Some (t, i) => block_answer x t i rp bs
        | None => block_seq rp = -1 ∧ bs = [] ∧
            match d with
            | DataSeq s => requested_seq rp = i64 s
            | DataInitial => initial_reply (cf x) = None ∨ l = [] → requested_seq rp = Storage.first_seq l
            | _ => True
            end
        end) ∨
     (∃ text, clients x1 !! m_addr m = None ∧
        sent_to (m_addr m) (sent x1) = sent_to (m_addr m) (sent x) ++
          [Storage.kept (Msg DATA 0 Error_meta_id 0 text (zlen text) (m_addr m) 0)] ∧
        ∃ t i, asked x l d = Some (t, i) ∧ block_refused x t i)).
Proof.
  intros Hg Hn Hid Hp Hd Hos. destruct (session_any m x g l name d os Hg Hn Hid Hp Hos) as (x1 & H1 & Hcase).
  exists x1. split; [done|]. destruct Hcase as [Hl|(t & ? & ? & Hr)]; [left|right].
  - unfold answered in Hl. destruct (asked x l d) as [[??]|]; [done|]. by destruct d.
  - exists t. split; [done|]. split; [done|]. unfold refused in Hr. destruct (asked x l d) as [[t' i]|]; [by exists t', i|by destruct Hr].
Qed.

(** A request for the last message starts one number before it; it is refused when there is none. *)
Lemma session_last m (x : server) g l name :
  good x g l → clients x !! m_addr m = None → m_msgid m ≠ ClientDone_meta_id →
  parse_request (m_msgid m) (m_data m) = Some (Ok (name, DataLast)) →
  ∃ x1, _on_request_data B true m x = Some x1 ∧
    ((∃ rp data, make_reply rp = Some data ∧
        sent_to (m_addr m) (sent x1) = sent_to (m_addr m) (sent x) ++ [Storage.kept (Msg DATA 0 Reply_meta_id 0 data (zlen data) (m_addr m) 0)] ∧
        reads x1 g (m_addr m) (Storage.from (Storage.last_seq l - 1) l)) ∨ l = []).
Proof.
  intros Hg Hn Hid Hp. destruct (request_session m x g l name _ Hg Hn Hid Hp) as (x1 & H1 & _ & _ & _ & _ & _ & _ & Hcase).
  exists x1. split; [done|]. destruct Hcase as [(rp & data & bs & c & Hd & _ & Es & _ & _ & Hr & _ & (E1 & -> & _ & E2) & _)|(_ & _ & _ & [_ ?])];
    [left|by right].
  exists rp, data. split; [done|]. split; [by rewrite Es, sent_to_app, sent_to_data|]. rewrite E1 in Hr. cbn in Hr. by rewrite E2 in Hr.
Qed.
End Spec.

#[local] Existing Instance Storage.mem_storage.

(** A server over a storage in memory, without blocks, that holds two messages. *)
Definition no_blocks : blocks_ops unit (list msg) :=
  BlocksOps _ _ (λ _, false) (λ _ b, (0, b)) (λ _, -1) (λ _ _ _, None) (λ r, (head r, tail r)).

Definition sample_msg (s : Z) : msg := Msg DATA 0 7 s [1; 2; 3] 3 0 0.

Definition sample_server : @StreamServer.server (list msg) nat unit (list msg) :=
  Server (Conf 100 None false 0 0 0 (λ _, [])) [sample_msg 10; sample_msg 20] None 20
    (AutoSeq.AutoSeqT 20 false) false false ∅ [] false [] [].

Definition sample_request : msg :=
  match request_new [97] (DataSeq 15) with Some b => Msg DATA 0 Request_meta_id 0 b (zlen b) 5 0 | None => sample_msg 0 end.

Lemma sample_good : good sample_server tt [sample_msg 10; sample_msg 20].
Proof.
  split; [|apply map_Forall_empty]. split; [|split; [done|intros e; done]].
  split; [done|]. split; [repeat constructor|by repeat constructor].
Qed.

Lemma stream_session_witness :
  parse_request (m_msgid sample_request) (m_data sample_request) = Some (Ok ([97], DataSeq 15)) ∧
  ∃ x1, _on_request_data no_blocks true sample_request sample_server = Some x1 ∧
    ((∃ rp data bs x2 g' new got rest,
        steps no_blocks [ORead true 5; OPost true (sample_msg 30); OControl (sample_msg 1); ORead true 5; OProcess] x1 = Some x2 ∧ make_reply rp = Some data ∧
        sent_to 5 (sent x2) = sent_to 5 (sent sample_server) ++
          Storage.kept (Msg DATA 0 Reply_meta_id 0 data (zlen data) 5 0) :: (Storage.kept <$> got) ∧
        got ++ rest = bs ++ Storage.from (if block_seq rp =? -1 then requested_seq rp else block_seq rp) [sample_msg 10; sample_msg 20] ++ new ∧
        Storage.st_log (storage x2) g' ([sample_msg 10; sample_msg 20] ++ new) ∧ reads (λ r l, r = l) x2 g' 5 rest ∧ last_seq rp = 20 ∧
        block_seq rp = -1 ∧ bs = [] ∧ requested_seq rp = i64 15) ∨
     (∃ text, clients x1 !! 5 = None ∧
        sent_to 5 (sent x1) = sent_to 5 (sent sample_server) ++
          [Storage.kept (Msg DATA 0 Error_meta_id 0 text (zlen text) 5 0)] ∧
        ∃ t i, @None (list Z * Z) = Some (t, i) ∧ block_refused no_blocks sample_server t i)).
Proof.
  split; [vm_compute; done|].
  apply (stream_session no_blocks (λ r l, r = l)) with (g := tt) (l := [sample_msg 10; sample_msg 20]) (name := [97]) (d := DataSeq 15) (m := sample_request).
  - intros rd rest ->. by exists (tail rest).
  - done.
  - apply sample_good.
  - reflexivity.
  - done.
  - vm_compute. done.
  - done.
  - repeat constructor; done.
Defined.
End StreamServerSpec.
