(* ===== verification/Blocks.v ===== *)
(** * Blocks of a stream

    src/channel/blocks.cc: a channel that remembers, for each type of block, the numbers of the messages
    where blocks were made, in memory and as lines of a YAML file; a reader translates the
    index of a block, counted from the last one, into a number.

    The file is its bytes.  [libyaml] gives the events of a text (see [Yaml]) and
    [wr] how much of a line a write stores ([None]: the file does not open). *)
From stdpp Require Import sorting.
From S2P Require Import Prelude Conv Text Config Yaml Callback Channel StreamServer.

Module Blocks.
Import Conv Config Cb Chan.

(** The message [Block] of src/channel/blocks.scheme.h. *)
Definition Block_meta_id : Z := 100.
Definition Block_meta_size : Z := 64.

(** [_get_bytestring<n>] *)
Fixpoint get_bytestring (n : nat) (s : bytes) : bytes :=
  match n, s with
  | S n, c :: s => if c =? 0 then [] else c :: get_bytestring n s
  | _, _ => []
  end.

Record channel := Channel {
  _seq : Z;
  _blocks : gmap bytes (list Z);
  _default_type : bytes;
  file : option bytes;
}.

Definition with_seq s x := Channel s (_blocks x) (_default_type x) (file x).
Definition with_blocks b x := Channel (_seq x) b (_default_type x) (file x).
Definition with_file d x := Channel (_seq x) (_blocks x) (_default_type x) d.

(** The line of the file. *)
Definition line (seq : Z) (block : bytes) : option bytes :=
  let! s := to_string_buf_int 64 false seq in
  Some (str "- {seq: " ++ s ++ str ", type: '" ++ block ++ str "'}" ++ [10]).

(** [_init]: [caps] are those of the url, [master] whether there is one and it is a channel with blocks, [props] the
    parameters.  The result has the capabilities and the default type. *)
Definition _init (caps : Z) (master : option bool) (props : bytes → option bytes) (host : bytes) : result errno (Z * bytes) :=
  let inout := Z.lor CAPS_INPUT CAPS_OUTPUT in
  let caps := if Z.land caps inout =? 0 then Z.lor caps CAPS_INPUT else caps in
  match master with
  | Some b =>
      if negb b then Err EINVAL
      else if negb (Z.land caps inout =? CAPS_INPUT) then Err EINVAL
      else Ok (caps, [])
  | None =>
      if Z.land caps inout =? inout then Err EINVAL else
      let '(r, type) := Getter.reader_getT [] props None Ok (str "default-type") (Some (str "default")) in
      match r with
      | Some _ => Err EINVAL
      | None => if bool_decide (host = []) then Err EINVAL else Ok (caps, type)
      end
  end.

Section channel.
Context {host : Config.Host} (libyaml : bytes → list (option Yaml.event)) (wr : bytes → option nat).

(** [_create_block] *)
Definition _create_block (block : bytes) (seq : Z) (store : bool) (x : channel) : option (channel * rc) :=
  let x := with_blocks (<[block := default [] (_blocks x !! block) ++ [seq]]> (_blocks x)) x in
  if negb store then Some (x, ok) else
  let! s := line seq block in
  match wr s with
  | None => Some (x, Err EINVAL)
  | Some n =>
      Some (with_file (Some (default [] (file x) ++ take n s)) x, if bool_decide (n = length s) then ok else Err EINVAL)
  end.

(** [_post] *)
Definition _post (m : msg) (x : channel) : option (channel * rc) :=
  match m_type m with
  | DATA => Some (with_seq (m_seq m) x, ok)
  | CONTROL =>
      if negb (m_msgid m =? Block_meta_id) then Some (x, Err EINVAL)
      else if _seq x <? 0 then Some (x, Err EINVAL)
      else if zlen (m_data m) <? Block_meta_size then Some (x, Err EMSGSIZE)
      else
        let block := get_bytestring 64 (m_data m) in
        match block, _default_type x with
        | [], [] => Some (x, Err EINVAL)
        | [], d => _create_block d (_seq x) true x
        | _, _ => _create_block block (_seq x) true x
        end
  | _ => Some (x, ok)
  end.

(** The loop over the nodes of the file. *)
Fixpoint load_points (f : nat) (h : heap) (l : list (bytes * Z)) (x : channel) : option (channel * rc) :=
  match l with
  | [] => Some (x, ok)
  | (_, c) :: l =>
      let! seq_text := get_key (λ _, None) f h c (str "seq") in
      let! type_text := get_key (λ _, None) f h c (str "type") in
      match Getter.getT (to_any_int 64 false) (λ _, seq_text) (str "seq"), Getter.getT_def Ok (λ _, type_text) (str "type") (str "default") with
      | Ok s, Ok ((_ :: _) as t) =>
          let! (x, _) := _create_block t s false x in
          load_points f h l x
      | _, _ => Some (x, Err EINVAL)
      end
  end.

(** [browse(mask, true)] of src/tll/config.h: the nodes in a map. *)
Definition browse_map (f : nat) (h : heap) (c : Z) (mask : bytes) : option (list (bytes * Z)) :=
  let! b := browse (λ _ _, 0) h f c mask in
  Some (match b with Ok (l, _) => merge_sort kid_le l | Err _ => [] end).

(** Loading of the file in [_open]. *)
Definition load_file (f : nat) (x : channel) : option (channel * rc) :=
  match file x with
  | None => Some (x, ok)
  | Some _ =>
      let! (h, c) := Yaml.yaml_load libyaml (λ _, file x) f (Heap ∅ 1) [] in
      match c with
      | Err _ => Some (x, Err EINVAL)
      | Ok c => let! l := browse_map f h c (str "*") in load_points f h l x
      end
  end.

(** The largest number. *)
Definition last_seq (s : Z) (b : gmap bytes (list Z)) : Z := map_fold (λ _ v s, foldl Z.max s v) s b.

(** [_open_input]: [i] steps back from the last number. *)
Fixpoint step_back (l : list Z) (block : Z) : option Z :=
  match l with
  | [] => None
  | s :: l => if block =? 0 then Some s else step_back l (block - 1)
  end.

Definition _open_input (master : option channel) (params : bytes → option bytes) (x : channel) : option (channel * rc) :=
  let '(r, block) := Getter.reader_getT 0 params None (to_any_int 32 true) (str "block") None in
  let '(r, type) := Getter.reader_getT [] params r Ok (str "block-type") (Some (_default_type x)) in
  match r with
  | Some _ => Some (x, Err EINVAL)
  | None =>
      match _blocks (default x master) !! type with
      | None => Some (x, Err EINVAL)
      | Some l =>
          let size := zlen l in
          if size =? 0 then Some (x, Err EINVAL)
          else if size <=? block then Some (x, Err EINVAL)
          else let! s := step_back (rev l) block in Some (with_seq s x, ok)
      end
  end.

(** [_open]; an input that was opened closes itself. *)
Definition _open (f : nat) (master : option channel) (input : bool) (params : bytes → option bytes) (x : channel) : option (channel * rc) :=
  let x := with_seq (-1) x in
  let! (x, r) := match master with None => load_file f x | Some _ => Some (x, ok) end in
  match r with
  | Err e => Some (x, Err e)
  | Ok _ =>
      let x := with_seq (last_seq (_seq x) (_blocks x)) x in
      if input then _open_input master params x else Some (x, ok)
  end.

(** ** As the blocks of a stream server

    The server makes a reader for each request, with the writer as its master; such a reader
    has no default type. *)
Definition block_reader : channel := Channel (-1) ∅ [] None.

Definition request_params (t : bytes) (i : Z) (k : bytes) : option bytes :=
  if bool_decide (k = str "block") then to_string_buf_int 64 false i
  else if bool_decide (k = str "block-type") then Some t else None.

Definition blocks_ops : StreamServer.blocks_ops channel unit := {|
  StreamServer.b_control id := id =? Block_meta_id;
  StreamServer.b_post m x :=
    match _post m x with Some (x, Ok _) => (0, x) | Some (x, Err e) => (errno_code e, x) | None => (errno_code EINVAL, x) end;
  StreamServer.b_seq := _seq;
  StreamServer.b_open x t i :=
    match _open 1 (Some x) true (request_params t i) block_reader with
    | Some (r, Ok _) => Some (-1, _seq r, tt)
    | _ => None
    end;
  StreamServer.b_next _ := (None, tt);
|}.
End channel.
End Blocks.
