(* ===== verification/BlocksSpec.v ===== *)
(** * What blocks are for

    A client of a stream that asks for a block gets the log from the message
    behind the place where the block was made; the places survive in the file. *)
From Stdlib Require Import Sorted.
From stdpp Require Import sorting.
From S2P Require Import Prelude Conv Text Config ConfigSpec Yaml YamlSpec Callback Channel Storage Reopen StreamScheme StreamServer StreamServerSpec Blocks.

Module BlocksSpec.
Import Conv Config ConfigSpec Yaml YamlSpec Cb Chan StreamScheme Blocks.

(** ** Look-up of a block *)

(** The number of block [i] of a type, counted from the last one. *)
Definition nth_block (x : channel) (t : bytes) (i : Z) : option Z := rev (default [] (_blocks x !! t)) !! Z.to_nat i.

Lemma step_back_nth l : ∀ i, 0 ≤ i → step_back l i = l !! Z.to_nat i.
Proof.
  induction l as [|s l IH]; intros i Hi; [done|]. cbn. destruct (Z.eqb_spec i 0) as [->|]; [done|].
  rewrite IH by lia. replace (Z.to_nat i) with (S (Z.to_nat (i - 1))) by lia. done.
Qed.

(** The text of an index is read back as an unsigned number. *)
Lemma index_text i : 0 ≤ i < 2 ^ 32 → ∃ s, to_string_buf_int 64 false i = Some s ∧ s ≠ [] ∧ to_any_int 32 true s = Ok i.
Proof.
  intros Hi. destruct (to_string_uint10_spec 64 i ltac:(lia)) as (s & Hs & Hv & Hd & Hn & _); [lia|].
  exists s. unfold to_string_buf_int. rewrite Z.geb_leb. tests. rewrite wrapu_id by lia. split; [done|]. split; [done|].
  apply to_any_uint_digits; try done; lia.
Qed.

Section ops.
Context {host : Config.Host} (libyaml : bytes → list (option Yaml.event)) (wr : bytes → option nat).

Lemma open_block x t i : t ≠ [] → 0 ≤ i < 2 ^ 32 →
  StreamServer.b_open (blocks_ops libyaml wr) x t i = (λ s, (-1, s, tt)) <$> nth_block x t i.
Proof.
  intros Ht Hi. destruct (index_text i Hi) as (s & Hs & Hn & Hp). cbn [StreamServer.b_open blocks_ops]. unfold _open. cbn [mbind option_bind].
  unfold _open_input, Getter.reader_getT, Getter._getT, request_params. rewrite bool_decide_true by done. rewrite Hs.
  destruct s as [|c s]; [done|]. rewrite Hp. rewrite bool_decide_false by done. rewrite bool_decide_true by done.
  destruct t as [|c' t]; [done|]. cbn [default id]. unfold nth_block. destruct (_blocks x !! (c' :: t)) as [l|]; [|done].
  cbn [default id]. destruct (Z.eqb_spec (zlen l) 0) as [E|E].
  - destruct l; [done|]. by rewrite zlen_cons in E; pose proof (zlen_nonneg l); lia.
  - rewrite step_back_nth by lia. unfold zlen in *. destruct (Z.leb_spec (Z.of_nat (length l)) i) as [Hle|Hlt].
    + rewrite (lookup_ge_None_2 (rev l)); [done|]. rewrite length_rev. lia.
    + destruct (lookup_lt_is_Some_2 (rev l) (Z.to_nat i)) as [r ->]; [rewrite length_rev; lia|]. done.
Qed.

(** A reader below a master has no default type: without a type in its parameters it finds nothing. *)
Lemma reader_no_default caps master params f : _blocks master !! [] = None → params (str "block-type") = None →
  (∀ c r, _init caps (Some true) params [] = Ok (c, r) → r = []) ∧
  ∃ y, _open libyaml wr f (Some master) true params block_reader = Some (y, Err EINVAL).
Proof.
  intros Hm Hp. split; [unfold _init; intros c r; cbn [negb]; destruct (negb _); [done|by intros [= _ <-]]|].
  unfold _open. cbn [mbind option_bind ok]. unfold _open_input, Getter.reader_getT, Getter._getT. rewrite Hp.
  destruct (params (str "block")) as [[|c v]|]; [by eexists| |by eexists].
  destruct (to_any_int 32 true (c :: v)); [|by eexists]. cbn [default id block_reader _default_type with_seq]. rewrite Hm. by eexists.
Qed.

Lemma blocks_next_spec (rd : unit) (rest : list msg) : rest = [] → ∃ rd', StreamServer.b_next (blocks_ops libyaml wr) rd = (head rest, rd') ∧ tail rest = [].
Proof. intros ->. by exists tt. Qed.
End ops.

(** ** Requests *)
Section request.
Context {host : Config.Host} {W R G : Type} `{Storage.Storage W R G} (libyaml : bytes → list (option Yaml.event)) (wr : bytes → option nat).

Abbreviation B := (blocks_ops libyaml wr).
Abbreviation server := (@StreamServer.server W R channel unit).

Lemma block_request (x : server) (g : G) L bw t i name c :
  StreamServerSpec.serves x g L → StreamServer.blocks x = Some bw → t ≠ [] → 0 ≤ i < 2 ^ 32 → StreamServer.c_next c = None →
  (∀ s, nth_block bw t i = Some s → 0 ≤ s) →
  ∃ x' c' r, StreamServer.client_init B true x name (DataBlock t i) c = Some (x', c', r) ∧
    match nth_block bw t i with
    | None => x' = x ∧ r = Err StreamServer.BlockOpenFailed
    | Some s => if Storage.last_seq L <? s then x' = x ∧ r = Err StreamServer.BlockInFuture else
        r = Ok tt ∧ StreamServer.c_state c' = StreamServer.CActive ∧ StreamServer.c_suspended c' = false ∧
        StreamServerSpec.in_front (λ _ l, l = []) (StreamServer.storage x') g c' (Storage.from (s + 1) L) ∧
        ∃ data, make_reply (Reply (Storage.last_seq L) (s + 1) (s + 1)) = Some data ∧
          x' = StreamServer.request_post (StreamServer.c_addr c) (Msg DATA 0 Reply_meta_id 0 data (zlen data) (StreamServer.c_addr c) 0) x
    end.
Proof.
  intros (Hlog & Hseq & _) Hb Ht Hi Hn Hp. unfold StreamServer.client_init, StreamServer.init_request, StreamServer.init_block.
  destruct t as [|c0 t]; [done|]. rewrite Hb, (open_block libyaml wr bw (c0 :: t) i) by done.
  destruct (nth_block bw (c0 :: t) i) as [s|]; cbn [fmap option_fmap option_map]; [|by eexists _, _, _].
  specialize (Hp s eq_refl). tests. cbn [StreamServer.c_block_end StreamServer.with_cseq StreamServer.c_seq]. rewrite Hseq. tests. cbn [negb andb].
  destruct (Z.ltb_spec (Storage.last_seq L) s) as [Hf|Hf]; tests; [by eexists _, _, _|].
  destruct (Storage.st_open_spec _ _ _ (s + 1) Hlog) as (rd & Hrd & Hr). rewrite Hrd. cbn [mbind option_bind StreamServer.c_next StreamServer.with_cseq].
  rewrite Hn. cbn [StreamServer.c_seq StreamServer.c_block_end StreamServer.with_readers StreamServer.with_cseq].
  destruct (StreamServerSpec.make_reply_total (Reply (Storage.last_seq L) (s + 1) (s + 1))) as [data Hd]. rewrite Hd. cbn [mbind option_bind negb].
  eexists _, _, _. split; [reflexivity|]. split; [done|]. split; [done|]. split; [done|]. split; [exact Hr|]. by exists data.
Qed.

(** ** Posts and blocks *)

(** A message that the storage refuses is known to the blocks already, which are then ahead of the log. *)
Lemma refused_ahead (x : server) bw m w' e : StreamServer.blocks x = Some bw → StreamServer.block_feed x = false →
  AutoSeq.enable (StreamServer.autoseq x) = false → m_type m = DATA → zlen (m_data m) ≤ StreamServer.max_size (StreamServer.cf x) →
  StreamServer.s_seq x < m_seq m → Storage.st_post m (StreamServer.storage x) = Some (Err e, w') →
  ∃ x' bw', StreamServer._post B true m x = Some (x', StreamServer.EIO) ∧ StreamServer.s_seq x' = StreamServer.s_seq x ∧
    StreamServer.blocks x' = Some bw' ∧ StreamServer.s_seq x' < _seq bw'.
Proof.
  intros Hb Hf Ha Ht Hz Hs Hp. unfold StreamServer._post. tests. unfold AutoSeq.update. rewrite Ha. cbn [negb].
  cbn [StreamServer.s_seq StreamServer.with_autoseq StreamServer.blocks StreamServer.block_feed]. tests. rewrite Hb, Hf.
  cbn [StreamServer.b_post blocks_ops]. unfold _post. rewrite Ht. cbn [negb ok StreamServer.storage StreamServer.with_store StreamServer.with_autoseq].
  rewrite Hp. cbn [mbind option_bind]. eexists _, _. split; [reflexivity|]. cbn. done.
Qed.

(** The type of a block that is made by a message. *)
Definition block_type (d : bytes) (m : msg) : bytes := match get_bytestring 64 (m_data m) with [] => d | t => t end.

(** A run of posts: data and control messages of the blocks, with their results. *)
Fixpoint posts (ms : list msg) (x : server) : option (server * list Z) :=
  match ms with
  | [] => Some (x, [])
  | m :: ms =>
      let! (x, r) := match m_type m with
                     | DATA => StreamServer._post B true m x
                     | _ => Some (StreamServer._post_block B m x)
                     end in
      let! (x, rs) := posts ms x in Some (x, r :: rs)
  end.

(** What the accepted ones mean: the log, and the blocks with the log at the time they were made.  Control messages
    that are not for the blocks mean nothing. *)
Fixpoint meaning (d : bytes) (l : list (msg * Z)) (L : list msg) (marks : list (bytes * list msg)) : list msg * list (bytes * list msg) :=
  match l with
  | [] => (L, marks)
  | (m, r) :: l =>
      if negb (r =? 0) then meaning d l L marks else
      match m_type m with
      | DATA => meaning d l (L ++ [Storage.kept m]) marks
      | _ => if m_msgid m =? Block_meta_id then meaning d l L (marks ++ [(block_type d m, L)]) else meaning d l L marks
      end
  end.

(** The logs at the blocks of one type. *)
Definition marks_of (t : bytes) (marks : list (bytes * list msg)) : list (list msg) := snd <$> filter (λ p, p.1 = t) marks.

(** The channel with blocks knows the places and the last number. *)
Record marked (d : bytes) (L : list msg) (marks : list (bytes * list msg)) (bw : channel) : Prop := {
  mk_default : _default_type bw = d;
  mk_seq : _seq bw = Storage.last_seq L;
  mk_points : ∀ t, default [] (_blocks bw !! t) = Storage.last_seq <$> marks_of t marks;
  mk_prefix : Forall (λ p, p.2 ≠ [] ∧ p.2 `prefix_of` L) marks;
}.

Definition op_ok (w : W) (m : msg) : Prop :=
  match m_type m with
  | DATA => Storage.st_ok w m ∧ i64_ok (m_seq m)
  | CONTROL => True
  | _ => False
  end.

(** A run in which the storage takes the data it is given. *)
Definition calm (ms : list msg) (rs : list Z) : Prop := Forall (λ p, m_type p.1 = DATA → p.2 ≠ StreamServer.EIO) (zip ms rs).

Context (Hwr : ∀ s, wr s = Some (length s)).

Lemma post_data (x : server) bw m : StreamServer.blocks x = Some bw → StreamServer.block_feed x = false →
  AutoSeq.enable (StreamServer.autoseq x) = false → m_type m = DATA → ∀ g L, Storage.st_log (StreamServer.storage x) g L →
  Storage.st_ok (StreamServer.storage x) m → ∀ x' r, StreamServer._post B true m x = Some (x', r) →
  StreamServer.block_feed x' = false ∧ AutoSeq.enable (StreamServer.autoseq x') = false ∧
  (r = StreamServer.EIO ∨
   r = 0 ∧ StreamServer.blocks x' = Some (with_seq (m_seq m) bw) ∧ StreamServer.s_seq x < m_seq m ∧ StreamServer.s_seq x' = m_seq m ∨
   r ≠ 0 ∧ StreamServer.blocks x' = Some bw ∧ StreamServer.s_seq x' = StreamServer.s_seq x).
Proof.
  intros Hb Hf Ha Ht g L Hlog Hok x' r. unfold StreamServer._post.
  destruct (_ <? _); [intros [= <- <-]; by auto 10|]. unfold AutoSeq.update. rewrite Ha. cbn [negb].
  destruct (Z.leb_spec (m_seq m) (StreamServer.s_seq (StreamServer.with_autoseq (StreamServer.autoseq x) x))) as [|Hs];
    [intros [= <- <-]; cbn; by auto 10|].
  cbn [StreamServer.blocks StreamServer.with_autoseq StreamServer.block_feed]. rewrite Hb, Hf. cbn [StreamServer.b_post blocks_ops]. unfold _post. rewrite Ht.
  cbn [negb ok StreamServer.storage StreamServer.with_store StreamServer.with_autoseq].
  destruct (Storage.st_post_spec _ _ _ m Hlog Hok) as (r' & w' & g' & Hp & _ & _). rewrite Hp. cbn [mbind option_bind].
  destruct r' as [[]|e]; [|intros [= <- <-]; cbn; by auto 10].
  cbn in Hs. cbn. destruct (StreamServer.wait_control x); intros [= <- <-]; cbn; by auto 10.
Qed.

Lemma marks_of_app t marks u P : marks_of t (marks ++ [(u, P)]) = marks_of t marks ++ (if decide (u = t) then [P] else []).
Proof. unfold marks_of. rewrite filter_app, fmap_app. f_equal. case_decide; [by rewrite filter_cons_True|by rewrite filter_cons_False]. Qed.

Lemma marked_data d L marks bw m : marked d L marks bw → marked d (L ++ [Storage.kept m]) marks (with_seq (m_seq m) bw).
Proof.
  intros [H1 H2 H3 H4]. split; [done|by rewrite Storage.last_seq_app|done|].
  eapply Forall_impl; [exact H4|]. intros p [? ?]. split; [done|]. by apply prefix_app_r.
Qed.

(** A block is made at the last message, or the message is refused. *)
Lemma post_mark (x : server) d L marks bw m : StreamServer.blocks x = Some bw → StreamServer.block_feed x = false → m_type m = CONTROL →
  marked d L marks bw → (L = [] → Storage.last_seq L < 0) → (L ≠ [] → 0 ≤ Storage.last_seq L < 2 ^ 63) →
  ∃ bw' r, StreamServer._post_block B m x = (StreamServer.with_store (StreamServer.storage x) (Some bw') (StreamServer.s_seq x) x, r) ∧
    marked d L (if (r =? 0) && (m_msgid m =? Block_meta_id) then marks ++ [(block_type d m, L)] else marks) bw'.
Proof.
  intros Hb Hf Ht Hm Hnil Hlast. unfold StreamServer._post_block. rewrite Hb, Hf. cbn [StreamServer.b_post StreamServer.b_control blocks_ops].
  assert (x = StreamServer.with_store (StreamServer.storage x) (Some bw) (StreamServer.s_seq x) x) as Ex by (rewrite <-Hb; by destruct x).
  destruct (Z.eqb_spec (m_msgid m) 0) as [->|_]; [exists bw, 0; by rewrite <-Ex|].
  destruct (Z.eqb_spec (m_msgid m) Block_meta_id) as [Hid|Hid]; cbn [negb]; [|exists bw, 0; by rewrite <-Ex].
  unfold _post. rewrite Ht, Hid.
  change (Block_meta_id =? Block_meta_id) with true. cbn [negb]. rewrite (mk_seq _ _ _ _ Hm).
  destruct (Z.ltb_spec (Storage.last_seq L) 0) as [Hneg|Hpos]; [by eexists bw, _|].
  destruct (zlen (m_data m) <? Block_meta_size); [by eexists bw, _|].
  assert (L ≠ []) as HL by (intros E; specialize (Hnil E); lia).
  assert (∀ t, t = block_type d m → t ≠ [] → ∃ bw', _create_block wr t (Storage.last_seq L) true bw = Some (bw', ok) ∧
    marked d L (marks ++ [(block_type d m, L)]) bw') as Hcreate.
  { intros t -> Hne. unfold _create_block. cbn [negb]. unfold line.
    destruct (to_string_uint10_spec 64 (Storage.last_seq L) ltac:(lia)) as (s & Hs & _); [specialize (Hlast HL); lia|].
    unfold to_string_buf_int. rewrite Z.geb_leb. tests. rewrite wrapu_id by (specialize (Hlast HL); lia). rewrite Hs. cbn [mbind option_bind].
    rewrite Hwr, bool_decide_true by done. eexists. split; [reflexivity|]. destruct Hm as [H1 H2 H3 H4]. split; [done|done| |].
    - intros t. cbn [_blocks with_file with_blocks]. rewrite marks_of_app, fmap_app.
      destruct (decide (block_type d m = t)) as [<-|Hn]; [by rewrite lookup_insert_eq; cbn; rewrite H3|].
      by rewrite lookup_insert_ne, H3, app_nil_r by done.
    - apply Forall_app. split; [done|]. by repeat constructor. }
  assert (_default_type bw = d) as Ed by apply Hm. rewrite Ed.
  destruct (get_bytestring 64 (m_data m)) as [|c t] eqn:Et; [destruct d as [|c d]; [by eexists bw, _|]|].
  - destruct (Hcreate (c :: d)) as (bw' & -> & Hm'); [unfold block_type; by rewrite Et|done|]. by eexists bw', _.
  - destruct (Hcreate (c :: t)) as (bw' & E & Hm'); [unfold block_type; by rewrite Et|done|]. destruct d; rewrite E; by eexists bw', _.
Qed.

(** A run keeps the log and the places of the blocks. *)
Lemma posts_kept d ms : ∀ (x : server) g L marks bw x' rs,
  StreamServerSpec.serves x g L → StreamServer.blocks x = Some bw → StreamServer.block_feed x = false →
  AutoSeq.enable (StreamServer.autoseq x) = false → Forall (λ m, i64_ok (m_seq m)) L → marked d L marks bw →
  Forall (op_ok (StreamServer.storage x)) ms → posts ms x = Some (x', rs) → calm ms rs →
  ∃ g' bw', StreamServerSpec.serves x' g' (meaning d (zip ms rs) L marks).1 ∧ StreamServer.blocks x' = Some bw' ∧
    marked d (meaning d (zip ms rs) L marks).1 (meaning d (zip ms rs) L marks).2 bw' ∧ length rs = length ms.
Proof.
  induction ms as [|m ms IH]; intros x g L marks bw x' rs Hs Hb Hf Ha HL Hm Hok Hrun Hcalm.
  { cbn in Hrun. injection Hrun as <- <-. exists g, bw. done. }
  apply Forall_cons in Hok as [Hokm Hok]. cbn [posts] in Hrun. unfold op_ok in Hokm.
  destruct (m_type m) eqn:Et; try done; apply bind_Some in Hrun as ([x1 r] & H1 & Hrun); apply bind_Some in Hrun as ([x2 rs'] & Hrun & [= -> <-]);
    apply Forall_cons in Hcalm as [Hr Hcalm]; cbn [zip_with meaning fst snd] in *; rewrite Et.
  - destruct Hokm as [Hst Hi]. pose proof Hs as (Hlog & Hseq & _).
    destruct (post_data x bw m Hb Hf Ha Et g L Hlog Hst x1 r H1) as (Hf1 & Ha1 & Hcase).
    destruct (StreamServerSpec.server_post_spec B true m x g L Hs Hst Ha) as (x1' & r' & g' & new & H1' & Hs1 & _ & _ & _ & _ & _ & _ & Hok1 & Hnew).
    rewrite H1 in H1'. injection H1' as <- <-. pose proof Hs1 as (_ & Hseq1 & _).
    assert (Forall (op_ok (StreamServer.storage x1)) ms) as Hok'.
    { eapply Forall_impl; [exact Hok|]. intros m'. unfold op_ok. destruct (m_type m'); try done. intros [? ?]. split; [by apply Hok1|done]. }
    destruct Hcase as [->|[(-> & Hb1 & Hlt & Hsq)|(Hr0 & Hb1 & Hsq)]]; [by destruct (Hr Et)|..].
    + destruct Hnew as [[-> _]|(-> & _)]; [rewrite app_nil_r in Hseq1; lia|]. cbn [Z.eqb negb].
      destruct (IH x1 g' (L ++ [Storage.kept m]) marks _ x' rs' Hs1 Hb1 Hf1 Ha1) as (g2 & bw2 & ? & ? & ? & Hlen); try done.
      * apply Forall_app. split; [done|]. apply Forall_singleton. exact Hi.
      * by apply marked_data.
      * exists g2, bw2. cbn [length]. by rewrite Hlen.
    + destruct Hnew as [[-> _]|(-> & Hlt & _)]; [|rewrite Storage.last_seq_app in Hseq1; cbn in Hseq1; lia]. rewrite app_nil_r in Hs1.
      destruct (Z.eqb_spec r 0); [done|]. cbn [negb].
      destruct (IH x1 g' L marks bw x' rs' Hs1 Hb1 Hf1 Ha1) as (g2 & bw2 & ? & ? & ? & Hlen); try done.
      exists g2, bw2. cbn [length]. by rewrite Hlen.
  - pose proof Hs as (Hlog & Hseq & Htext). pose proof (Storage.st_log_spec _ _ _ Hlog) as (Hinc & _ & _).
    destruct (post_mark x d L marks bw m Hb Hf Et Hm) as (bw' & r' & E & Hm'); [by intros ->| |].
    { intros Hne. destruct (last L) as [y|] eqn:Ey; [|by apply last_None in Ey]. unfold Storage.last_seq. rewrite Ey. cbn.
      apply last_Some_elem_of in Ey. destruct Hinc as [_ Hpos]. rewrite Forall_forall in Hpos. rewrite Forall_forall in HL.
      specialize (Hpos y Ey). specialize (HL y Ey). cbn in *. unfold i64_ok in HL. lia. }
    rewrite E in H1. injection H1 as <- <-.
    destruct (IH (StreamServer.with_store (StreamServer.storage x) (Some bw') (StreamServer.s_seq x) x) g L
      (if (r' =? 0) && (m_msgid m =? Block_meta_id) then marks ++ [(block_type d m, L)] else marks) bw' x' rs') as (g2 & bw2 & H1 & H2 & H3 & Hlen); try done.
    exists g2, bw2. cbn [length]. rewrite Hlen. by destruct (r' =? 0), (m_msgid m =? Block_meta_id).
Qed.

(** The log behind a place is what comes after it. *)
Lemma from_prefix P L : Storage.increasing L → P `prefix_of` L → P ≠ [] → Storage.from (Storage.last_seq P + 1) L = drop (length P) L.
Proof.
  intros [Hs _] [t ->] Hne. rewrite drop_app_length. destruct (last P) as [m|] eqn:E; [|by apply last_None in E].
  unfold Storage.last_seq. rewrite E. cbn [fmap option_fmap option_map default id].
  apply last_Some in E as (l & ->). pose proof (Storage.sorted_app _ _ Hs) as [Ht Hlt].
  rewrite Storage.from_below.
  - destruct t as [|y t]; [done|]. apply Storage.from_all; [done|]. specialize (Hlt m y). rewrite elem_of_app in Hlt.
    assert (m_seq m < m_seq y) by (apply Hlt; [right; by left|by left]). lia.
  - apply Forall_app in Hs || idtac. apply Forall_forall. intros y [Hy|Hy%list_elem_of_singleton]%elem_of_app; [|subst; lia].
    rewrite <-app_assoc in Hs. apply Storage.sorted_app in Hs as [_ Hl]. specialize (Hl y m Hy). assert (m_seq y < m_seq m) by (apply Hl; by left). lia.
Qed.

Lemma place_before P L : Storage.increasing L → P `prefix_of` L → P ≠ [] → 0 ≤ Storage.last_seq P ≤ Storage.last_seq L.
Proof.
  intros [Hs Hp] [t ->] Hne. destruct (last P) as [m|] eqn:E; [|by apply last_None in E]. apply last_Some in E as (l & ->).
  rewrite Storage.last_seq_app. split.
  - rewrite !Forall_app in Hp. destruct Hp as [[_ Hm] _]. by apply Forall_cons in Hm as [? _].
  - destruct t as [|y t _] using rev_ind; [rewrite app_nil_r, Storage.last_seq_app; lia|].
    rewrite app_assoc, Storage.last_seq_app. rewrite app_assoc in Hs. apply Storage.sorted_app in Hs as [_ Hlt].
    assert (m_seq m < m_seq y); [|lia]. apply Hlt; [|by left]. rewrite !elem_of_app. left. right. by left.
Qed.
End request.

(** C16: a block is a place in the log. On a server whose storage takes the
    data it is given and whose writes to the file of the blocks are
    complete, after any sequence of posts and of messages that make blocks,
    each of them accepted or refused, a client that asks for block [i] of a
    type, counted from the last one, has in front of it exactly the messages
    that came into the log after that block was made, and the reply names
    the place; it is refused if there is no such block. *)
Theorem block_session {host : Config.Host} {W R G : Type} `{Storage.Storage W R G} (libyaml : bytes → list (option Yaml.event)) (wr : bytes → option nat)
  (x : @StreamServer.server W R channel unit) (g : G) L bw ms x' rs t i name c :
  (∀ s, wr s = Some (length s)) → StreamServerSpec.serves x g L → Forall (λ m, i64_ok (m_seq m)) L →
  StreamServer.blocks x = Some bw → _blocks bw = ∅ → _seq bw = Storage.last_seq L → StreamServer.block_feed x = false →
  AutoSeq.enable (StreamServer.autoseq x) = false →
  Forall (op_ok (StreamServer.storage x)) ms → posts libyaml wr ms x = Some (x', rs) → calm ms rs →
  t ≠ [] → 0 ≤ i < 2 ^ 32 → StreamServer.c_next c = None →
  let '(L', marks) := meaning (_default_type bw) (zip ms rs) L [] in
  ∃ g' x2 c' r, StreamServerSpec.serves x' g' L' ∧
    StreamServer.client_init (blocks_ops libyaml wr) true x' name (DataBlock t i) c = Some (x2, c', r) ∧
    match rev (marks_of t marks) !! Z.to_nat i with
    | None => x2 = x' ∧ r = Err StreamServer.BlockOpenFailed
    | Some P => r = Ok tt ∧ StreamServer.c_state c' = StreamServer.CActive ∧ P `prefix_of` L' ∧
        StreamServerSpec.in_front (λ _ l, l = []) (StreamServer.storage x2) g' c' (drop (length P) L') ∧
        ∃ data, make_reply (Reply (Storage.last_seq L') (Storage.last_seq P + 1) (Storage.last_seq P + 1)) = Some data ∧
          x2 = StreamServer.request_post (StreamServer.c_addr c) (Msg DATA 0 Reply_meta_id 0 data (zlen data) (StreamServer.c_addr c) 0) x'
    end.
Proof.
  intros Hwr Hs HL Hb He Hq Hf Ha Hok Hrun Hcalm Ht Hi Hn.
  assert (marked (_default_type bw) L [] bw) as Hm0 by (split; [done|done|intros u; by rewrite He, lookup_empty|constructor]).
  destruct (posts_kept libyaml wr Hwr (_default_type bw) ms x g L [] bw x' rs Hs Hb Hf Ha HL Hm0 Hok Hrun Hcalm) as (g' & bw' & Hs' & Hb' & Hm' & _).
  destruct (meaning _ _ _ _) as [L' marks] eqn:Em. cbn [fst snd] in *. destruct Hm' as [_ _ Hpoints Hprefix].
  assert (nth_block bw' t i = Storage.last_seq <$> (rev (marks_of t marks) !! Z.to_nat i)) as Hnth.
  { unfold nth_block. rewrite Hpoints, <-list_lookup_fmap. f_equal. by rewrite map_rev. }
  assert (∀ P, rev (marks_of t marks) !! Z.to_nat i = Some P → P ≠ [] ∧ P `prefix_of` L') as HP.
  { intros P HP. apply list_elem_of_lookup_2 in HP. rewrite list_elem_of_In, <-in_rev, <-list_elem_of_In in HP. unfold marks_of in HP.
    apply list_elem_of_fmap in HP as ([u Q] & -> & HP%list_elem_of_filter). rewrite Forall_forall in Hprefix. apply (Hprefix (u, Q)), HP. }
  pose proof Hs' as (Hlog & _). pose proof (Storage.st_log_spec _ _ _ Hlog) as (Hinc & _ & _).
  destruct (block_request libyaml wr x' g' L' bw' t i name c Hs' Hb' Ht Hi Hn) as (x2 & c' & r & Hci & Hres).
  { intros s. rewrite Hnth. destruct (_ !! _) as [P|] eqn:EP; [|done]. cbn. intros [= <-]. destruct (HP P eq_refl). by apply (place_before P L'). }
  exists g', x2, c', r. split; [done|]. split; [done|]. rewrite Hnth in Hres. destruct (_ !! _) as [P|] eqn:EP; cbn in Hres; [|done].
  destruct (HP P eq_refl) as [Hne Hpre]. pose proof (place_before P L' Hinc Hpre Hne) as Hle. revert Hres. tests.
  rewrite (from_prefix P L' Hinc Hpre Hne). intros (-> & Hst & _ & Hfr & Hd). done.
Qed.

(** ** The file *)

(** The points of a file, in the order they were made, and its text. *)
Definition num (s : Z) : bytes := default [] (to_string_buf_int 64 false s).
Definition row (p : Z * bytes) : doc := DMap [(str "seq", DScalar (num p.1)); (str "type", DScalar p.2)].
Definition text (ps : list (Z * bytes)) : bytes := concat (map (λ p, default [] (line p.1 p.2)) ps).

(** Types that can be written between quotes as they are. *)
Definition plain_type (t : bytes) : Prop := t ≠ [] ∧ Forall (λ c, 32 ≤ c < 127 ∧ c ≠ 39) t.
Definition point_ok (p : Z * bytes) : Prop := 0 ≤ p.1 < 2 ^ 63 ∧ plain_type p.2.

Definition add_point (b : gmap bytes (list Z)) (p : Z * bytes) : gmap bytes (list Z) := <[p.2 := default [] (b !! p.2) ++ [p.1]]> b.

(** *** Orders of names *)
#[local] Instance key_trans : Transitive (λ a b, Props.key_leb a b = true).
Proof.
  intros a. induction a as [|x a IH]; intros b c; [done|]. destruct b as [|y b]; [done|]. destruct c as [|z c]; [done|]. cbn.
  intros [H1|[H1 H1']%andb_true_iff]%orb_true_iff [H2|[H2 H2']%andb_true_iff]%orb_true_iff; apply orb_true_iff.
  - left. lia.
  - left. lia.
  - left. lia.
  - right. apply andb_true_iff. split; [lia|]. by eapply IH.
Qed.

#[local] Instance key_antisymm : AntiSymm (=) (λ a b, Props.key_leb a b = true).
Proof.
  intros a. induction a as [|x a IH]; intros [|y b]; try done. cbn.
  intros [H1|[H1 H1']%andb_true_iff]%orb_true_iff [H2|[H2 H2']%andb_true_iff]%orb_true_iff; try lia.
  f_equal; [lia|by apply IH].
Qed.

Lemma key_total a b : Props.key_leb a b = true ∨ Props.key_leb b a = true.
Proof.
  revert b. induction a as [|x a IH]; intros b; [by left|]. destruct b as [|y b]; [by right|]. cbn.
  destruct (Z.lt_trichotomy x y) as [H|[->|H]]; [left; apply orb_true_iff; left; lia| |right; apply orb_true_iff; left; lia].
  rewrite Z.eqb_refl. destruct (IH b) as [H|H]; [left|right]; rewrite H; by rewrite orb_true_r.
Qed.

#[local] Instance kid_total : Total kid_le.
Proof. intros a b. apply key_total. Qed.
#[local] Instance kid_trans : Transitive kid_le.
Proof. intros a b c. apply key_trans. Qed.

Definition numbers (n : nat) : list bytes := map number (seq 0 n).

Lemma numbers_sorted n : Z.of_nat n ≤ 10000 → StronglySorted (λ a b, Props.key_leb a b = true) (numbers n) ∧ NoDup (numbers n).
Proof.
  intros Hn. unfold numbers. assert (∀ k j, (k + j = n)%nat →
    StronglySorted (λ a b, Props.key_leb a b = true) (map number (seq k j)) ∧ NoDup (map number (seq k j))) as H; [|by apply (H 0%nat n)].
  intros k j. revert k. induction j as [|j IH]; intros k Hk; [split; constructor|]. cbn. destruct (IH (S k)) as [H1 H2]; [lia|].
  assert (∀ x, x ∈ map number (seq (S k) j) → Props.key_leb (number k) x = true ∧ number k ≠ x) as Hall.
  { intros x (m & -> & Hm)%list_elem_of_fmap. apply elem_of_seq in Hm. apply number_order; lia. }
  split; constructor; try done.
  - apply Forall_forall. intros x Hx. by apply Hall.
  - intros Hx. by apply Hall in Hx as [_ ?].
Qed.

Lemma fst_sorted (l : list (bytes * Z)) : StronglySorted kid_le l → StronglySorted (λ a b, Props.key_leb a b = true) l.*1.
Proof. induction 1 as [|x l Hl IH Hx]; [constructor|]. cbn. constructor; [done|by apply Forall_fmap]. Qed.

(** The children of a list by name are in the order of the list. *)
Lemma kids_in_order (m : gmap bytes Z) n : Z.of_nat n ≤ 10000 → (∀ k, is_Some (m !! k) ↔ k ∈ numbers n) →
  (merge_sort kid_le (sorted_kids m)).*1 = numbers n ∧ ∀ k c, (k, c) ∈ merge_sort kid_le (sorted_kids m) → m !! k = Some c.
Proof.
  intros Hn Hdom. set (l := merge_sort kid_le (sorted_kids m)).
  assert (l ≡ₚ map_to_list m) as Hperm by (unfold l, sorted_kids; by rewrite !merge_sort_Permutation).
  split; [|intros k c; rewrite Hperm; by intros ?%elem_of_map_to_list]. destruct (numbers_sorted n Hn) as [Hs Hnd].
  apply (StronglySorted_unique (λ a b, Props.key_leb a b = true)).
  - apply fst_sorted, (StronglySorted_merge_sort kid_le).
  - done.
  - apply NoDup_Permutation; [rewrite Hperm; apply NoDup_fst_map_to_list|done|].
    intros k. rewrite <-Hdom, Hperm, list_elem_of_fmap. split.
    + intros ([k' c] & -> & Hin%elem_of_map_to_list). by eexists.
    + intros [c Hc]. exists (k, c). split; [done|]. by apply elem_of_map_to_list.
Qed.

(** *** Loading *)

(** Browsing of the children. *)
Lemma browse_star f h c x : good h c → nodes h !! c = Some x → (3 < f)%nat →
  browse (λ _ _, 0) h f c (str "*") = Some (Ok (sorted_kids (Config.kids x), 0)).
Proof.
  intros Hg Hx Hf. unfold browse. change (split_path (str "*")) with [str "*"]. change (dstars [str "*"]) with 0%nat. cbn [Nat.ltb Nat.leb browse_plain].
  destruct f as [|[|[|f]]]; try lia. rewrite (lookup_link_plain _ h c (g_plain _ _ Hg)) by (by eexists). cbn [mbind option_bind].
  change (bool_decide (str "*" = Browse.star) || bool_decide (str "*" = Browse.dstar)) with true. cbn iota. cbn [browse_at]. rewrite Hx. cbn [mbind option_bind].
  change (bool_decide (str "*" = Browse.star) || bool_decide (str "*" = Browse.dstar)) with true. cbn iota.
  change (bool_decide (str "*" = Browse.dstar)) with false. cbn iota.
  assert (∀ k m, (k, m) ∈ sorted_kids (Config.kids x) → is_Some (nodes h !! m)) as Hkids.
  { intros k m Hin. unfold sorted_kids in Hin. rewrite merge_sort_Permutation in Hin. apply elem_of_map_to_list in Hin.
    destruct (wf_kid _ (g_wf _ _ Hg) _ _ _ _ Hx Hin) as (y & Hy & _). by eexists. }
  generalize (sorted_kids (Config.kids x)), Hkids. clear Hkids. intros l Hkids.
  induction l as [|[k m] l IH]; [done|]. destruct (Hkids k m ltac:(by left)) as [y Hy]. cbn [browse_kids].
  rewrite (lookup_link_plain _ h m (g_plain _ _ Hg)) by (by eexists). cbn [mbind option_bind]. rewrite Hy. cbn [mbind option_bind].
  unfold then_ at 2 3. cbn [fst snd emit app]. unfold then_. cbn [fst snd]. change (0 =? 0) with true. cbn iota. cbn [mbind option_bind fst snd app].
  assert (∀ k m, (k, m) ∈ l → is_Some (nodes h !! m)) as Hl by (intros k' m' ?; by eapply (Hkids k' m'); right).
  specialize (IH Hl). unfold then_ in IH. cbn [fst snd] in IH. change (0 =? 0) with true in IH. cbn iota in IH.
  destruct (browse_kids _ l) as [r|]; cbn in IH |- *; [|done]. by injection IH as ->.
Qed.

Lemma num_spec s : 0 ≤ s < 2 ^ 63 → num s ≠ [] ∧ to_any_int 64 false (num s) = Ok s.
Proof.
  intros Hs. unfold num. destruct (int_conv 64 false s) as (t & Ht & Hp & _); [by right; right; right|change (2 ^ (64 - 1)) with (2 ^ 63); lia|].
  rewrite Ht. cbn. split; [|done]. intros ->. done.
Qed.

(** The loop over the nodes. *)
Lemma load_points_spec f h l ps : Forall2 (λ n p, get_key (λ _, None) f h n.2 (str "seq") = Some (Some (num p.1)) ∧
    get_key (λ _, None) f h n.2 (str "type") = Some (Some p.2)) l ps → Forall point_ok ps → ∀ wr x,
  load_points wr f h l x = Some (with_blocks (foldl add_point (_blocks x) ps) x, ok).
Proof.
  induction 1 as [|[k m] p l ps [Hs Ht] Hl IH]; intros Hok wr x; [by destruct x|]. apply Forall_cons in Hok as [[Hp1 [Hp2 _]] Hok].
  cbn [load_points snd] in *. rewrite Hs, Ht. cbn [mbind option_bind]. destruct (num_spec p.1 Hp1) as [Hn Hc].
  unfold Getter.getT, Getter.getT_def, Getter._getT. destruct (num p.1) as [|c n]; [done|]. rewrite Hc. cbn [result_bind].
  destruct p.2 as [|c' t] eqn:Et; [done|]. cbn [default id result_bind].
  unfold _create_block. cbn [negb mbind option_bind]. rewrite IH by done. cbn [_blocks with_blocks foldl]. unfold add_point at 3. by rewrite Et.
Qed.

(** The assignments of the rows from an index on. *)
Fixpoint row_assigns (k : nat) (ps : list (Z * bytes)) : list (list bytes * option bytes) :=
  match ps with
  | [] => []
  | p :: ps => [([number k], None); ([number k; str "seq"], Some (num p.1)); ([number k; str "type"], Some p.2)] ++ row_assigns (S k) ps
  end.

Lemma split_number k : Z.of_nat k < 10000 → split_path (number k) = [number k].
Proof. intros Hk. unfold number. destruct (index_digits (Z.of_nat k)) as (s & -> & Hs); [lia|]. exact Hs. Qed.

Lemma rows_assigned ps : ∀ k, Z.of_nat k + Z.of_nat (length ps) ≤ 10000 →
  concat (imap (λ i a, a ([] ++ split_path (number (k + i)))) (map assigns (row <$> ps))) = row_assigns k ps.
Proof.
  induction ps as [|p ps IH]; intros k Hk; [done|]. cbn [length] in Hk. cbn [fmap list_fmap map imap concat row_assigns].
  rewrite Nat.add_0_r, split_number by lia. cbn [app]. rewrite <-(IH (S k)) by lia. cbn [row assigns map concat app].
  do 3 f_equal. f_equal. apply imap_ext. intros i a _. cbn. by rewrite Nat.add_succ_r.
Qed.

Lemma row_paths q ps : ∀ k, q ∈ (values (row_assigns k ps)).*1 → ∃ i t, (k ≤ i < k + length ps)%nat ∧ q = [number i; t].
Proof.
  induction ps as [|p ps IH]; intros k Hq; [by apply not_elem_of_nil in Hq|]. cbn in Hq. cbn [length].
  rewrite !elem_of_cons in Hq. destruct Hq as [->|[->|Hq]].
  - exists k, (str "seq"). split; [lia|done].
  - exists k, (str "type"). split; [lia|done].
  - destruct (IH (S k) Hq) as (i & t & ? & ->). exists i, t. split; [lia|done].
Qed.

Lemma row_values ps : ∀ k, Z.of_nat k + Z.of_nat (length ps) ≤ 10000 →
  NoDup (values (row_assigns k ps)).*1 ∧
  ∀ i p, ps !! i = Some p → ([number (k + i); str "seq"], num p.1) ∈ values (row_assigns k ps) ∧
    ([number (k + i); str "type"], p.2) ∈ values (row_assigns k ps).
Proof.
  induction ps as [|p ps IH]; intros k Hk; [split; [constructor|done]|]. cbn [length] in Hk. destruct (IH (S k)) as [Hnd Hin]; [lia|].
  cbn [row_assigns app values omap list_omap fmap option_fmap option_map snd fst]. split.
  - assert (∀ t, [number k; t] ∉ (values (row_assigns (S k) ps)).*1) as Hno.
    { intros t (i & t' & Hi & [= E _])%row_paths. destruct (number_order k i) as [_ Hne]; [lia|lia|by apply Hne]. }
    cbn [fmap list_fmap fst]. apply NoDup_cons. split; [|apply NoDup_cons; split; [apply Hno|done]].
    intros [[=]|Hq]%elem_of_cons. by apply (Hno (str "seq")).
  - intros [|i] q Hq; cbn in Hq.
    + injection Hq as ->. rewrite Nat.add_0_r. split; [by left|right; by left].
    + destruct (Hin i q Hq) as [H1 H2]. rewrite Nat.add_succ_r. split; right; right; done.
Qed.

Lemma row_domain ps : ∀ k a, a ∈ row_assigns k ps → ∃ i t, (k ≤ i < k + length ps)%nat ∧ a.1 = number i :: t.
Proof.
  induction ps as [|p ps IH]; intros k a Ha; [by apply not_elem_of_nil in Ha|]. cbn in Ha. cbn [length].
  rewrite !elem_of_cons in Ha. destruct Ha as [->|[->|[->|Ha]]]; [exists k; eexists; split; [lia|done]..|].
  destruct (IH (S k) a Ha) as (i & t & ? & ?). exists i, t. split; [lia|done].
Qed.

Lemma rows_ok f ps : (1 < f)%nat → Z.of_nat (length ps) ≤ 10000 → doc_ok f (DSeq (row <$> ps)).
Proof.
  intros Hf Hn. cbn [doc_ok]. rewrite length_fmap. split; [lia|]. induction ps as [|p ps IH]; [done|]. cbn [fmap list_fmap map fold_right].
  cbn [length] in Hn. split; [|apply IH; lia]. cbn [row doc_ok map fold_right].
  change (split_path (str "seq")) with [str "seq"]. change (split_path (str "type")) with [str "type"]. cbn [length]. done.
Qed.

Section reload.
Context {host : Config.Host} (libyaml : bytes → list (option Yaml.event)) (yaml_lines : ∀ ps, ps ≠ [] → Forall point_ok ps → libyaml (text ps) = stream (DSeq (row <$> ps))).

(** Loading of a file adds its points to those that are there. *)
Lemma load_file_spec f x ps wr : ps ≠ [] → Forall point_ok ps → Z.of_nat (length ps) ≤ 10000 → (3 < f)%nat → file x = Some (text ps) →
  load_file libyaml wr f x = Some (with_blocks (foldl add_point (_blocks x) ps) x, ok).
Proof.
  intros Hne Hps Hlen Hf Hfile. unfold load_file, Yaml.yaml_load. rewrite Hfile, yaml_lines by done.
  destruct wf_empty as [Hwf Hpl].
  pose proof (document_loaded f empty_heap (DSeq (row <$> ps)) Hwf Hpl ltac:(lia) ltac:(apply rows_ok; [lia|done]) ltac:(done)) as Hdoc.
  cbn [assigns] in Hdoc. pose proof (rows_assigned ps 0 ltac:(lia)) as Hra. cbn [Nat.add] in Hra. rewrite Hra in Hdoc. clear Hra.
  destruct (row_values ps 0 ltac:(lia)) as [Hnd Hin].
  destruct (assign_all_values (([], None) :: row_assigns 0 ps) empty_tree Hnd) as (T & HT & HT').
  { intros q v _. unfold empty_tree. case_decide; auto. }
  rewrite HT in Hdoc. destruct Hdoc as (h & c & Hy & Hg & Hv). change (Heap ∅ 1) with empty_heap. rewrite Hy. cbn [mbind option_bind].
  destruct (g_root _ _ Hg) as (x0 & Hx0 & _). unfold browse_map. rewrite (browse_star f h c x0 Hg Hx0 Hf). cbn [mbind option_bind].
  assert (∀ i p k v, ps !! i = Some p → (k, v) ∈ [(str "seq", num p.1); (str "type", p.2)] → view h c [number i; k] = Some (VStr v)) as Hval.
  { intros i p k v Hp Hk. rewrite Hv. destruct (Hin i p Hp) as [H1 H2]. apply (HT' [number i; k]).
    rewrite !elem_of_cons in Hk. destruct Hk as [[= -> ->]|[[= -> ->]|Hk]]; [done|done|by apply not_elem_of_nil in Hk]. }
  assert (∀ k, is_Some (Config.kids x0 !! k) ↔ k ∈ numbers (length ps)) as Hdom.
  { intros k. assert (Config.kids x0 !! k = walk h c [k]) as ->.
    { cbn [walk]. unfold ConfigSpec.step. rewrite Hx0. cbn. by destruct (Config.kids x0 !! k). }
    split.
    - intros [m Hm]. destruct (view_Some h c [k] m Hg Hm) as (y & _ & Hvk). rewrite Hv in Hvk.
      destruct (assign_all_domain _ _ _ [k] HT) as [He|(a & Ha & Hp)]; [by rewrite Hvk|done|].
      apply elem_of_cons in Ha as [->|Ha]; [by apply prefix_nil_inv in Hp|]. destruct (row_domain ps 0 a Ha) as (i & t & Hi & E).
      rewrite E in Hp. apply prefix_cons_inv_1 in Hp as ->. apply list_elem_of_fmap. exists i. split; [done|]. apply elem_of_seq. lia.
    - intros (i & -> & Hi)%list_elem_of_fmap. apply elem_of_seq in Hi. destruct (lookup_lt_is_Some_2 ps i ltac:(lia)) as [p Hp].
      pose proof (Hval i p (str "seq") (num p.1) Hp ltac:(by left)) as Hvi. unfold view in Hvi.
      change [number i; str "seq"] with ([number i] ++ [str "seq"]) in Hvi. rewrite walk_app in Hvi. destruct (walk h c [number i]); [by eexists|done]. }
  destruct (kids_in_order (Config.kids x0) (length ps) Hlen Hdom) as [Hnames Hkids].
  apply load_points_spec; [|done]. apply Forall2_same_length_lookup_2.
  { rewrite <-(length_fmap fst), Hnames. unfold numbers. by rewrite length_map, length_seq. }
  intros i [k m] p Hl Hp. assert (k = number i) as ->.
  { assert ((merge_sort kid_le (sorted_kids (Config.kids x0))).*1 !! i = Some k) as Hk by (by rewrite list_lookup_fmap, Hl).
    rewrite Hnames in Hk. unfold numbers in Hk. apply lookup_lt_Some in Hp. rewrite list_lookup_fmap, lookup_seq_lt in Hk by done. by injection Hk as <-. }
  assert (walk h c [number i] = Some m) as Hm.
  { cbn [walk]. unfold ConfigSpec.step. rewrite Hx0. cbn. rewrite (Hkids (number i) m); [done|]. by eapply list_elem_of_lookup_2. }
  assert (∀ k v, (k, v) ∈ [(str "seq", num p.1); (str "type", p.2)] → split_path k = [k] → get_key (λ _, None) f h m k = Some (Some v)) as Hget.
  { intros k v Hk Hsp. pose proof (Hval i p k v Hp Hk) as Hvk. unfold view in Hvk. change [number i; k] with ([number i] ++ [k]) in Hvk.
    rewrite walk_app, Hm in Hvk. cbn [mbind option_bind] in Hvk. unfold get_key. rewrite Hsp.
    destruct (good_walk h c [number i] m Hg Hm) as [ym Hym].
    rewrite (find_plain f h m [k] (g_wf _ _ Hg) (g_plain _ _ Hg)) by first [done|by eexists|cbn; lia]. cbn [mbind option_bind].
    destruct (walk h m [k]) as [n|] eqn:Ew; [|done]. cbn [mbind option_bind] in Hvk.
    destruct (nodes h !! n) as [yn|] eqn:En; [|done]. cbn in Hvk. injection Hvk as Hd.
    rewrite (get_plain _ f h n (g_plain _ _ Hg)) by first [by eexists|lia]. rewrite En. cbn. by rewrite Hd. }
  cbn [snd]. split; apply Hget; [by left|done|right; by left|done].
Qed.

(** *** Posts *)
Context (wr : bytes → option nat) (Hwr : ∀ s, wr s = Some (length s)).

Fixpoint write (ms : list msg) (x : channel) : option (channel * list rc) :=
  match ms with
  | [] => Some (x, [])
  | m :: ms =>
      let! (x, r) := _post wr m x in
      let! (x, rs) := write ms x in Some (x, r :: rs)
  end.

(** Data has a number of its own width, and the types of blocks can be written as they are. *)
Definition message_ok (d : bytes) (m : msg) : Prop :=
  match m_type m with
  | DATA => i64_ok (m_seq m)
  | CONTROL => plain_type (block_type d m)
  | _ => True
  end.

(** The points of a channel are those of its file. *)
Definition stored (d : bytes) (x : channel) (ps : list (Z * bytes)) : Prop :=
  _default_type x = d ∧ file x = match ps with [] => None | _ => Some (text ps) end ∧ _blocks x = foldl add_point ∅ ps ∧ Forall point_ok ps ∧ i64_ok (_seq x).

Lemma post_stored d m x ps : message_ok d m → stored d x ps →
  ∃ x' r ps', _post wr m x = Some (x', r) ∧ stored d x' ps' ∧ (length ps' ≤ length ps + 1)%nat.
Proof.
  intros Hm Hs. pose proof Hs as (Hd & Hf & Hb & Hp & Hq). unfold _post.
  assert (∃ x' r ps', Some (x, r) = Some (x', r) ∧ stored d x' ps' ∧ (length ps' ≤ length ps + 1)%nat) as Hsame by (exists x, ok, ps; split; [done|split; [done|lia]]).
  assert (∀ r : rc, ∃ x' r' ps', Some (x, r) = Some (x', r') ∧ stored d x' ps' ∧ (length ps' ≤ length ps + 1)%nat) as Hkeep
    by (intros r; exists x, r, ps; split; [done|split; [done|lia]]).
  clear Hsame. unfold message_ok in Hm. destruct (m_type m) eqn:Et; try apply Hkeep.
  - eexists _, _, ps. split; [reflexivity|]. split; [|lia]. done.
  - destruct (negb _); [apply Hkeep|]. destruct (Z.ltb_spec (_seq x) 0); [apply Hkeep|]. destruct (_ <? _); [apply Hkeep|].
    assert (∀ t, t = block_type d m → ∃ x' r ps', _create_block wr t (_seq x) true x = Some (x', r) ∧ stored d x' ps' ∧ (length ps' ≤ length ps + 1)%nat) as Hcreate.
    { intros t ->. set (p := (_seq x, block_type d m)).
      assert (point_ok p) as Hpt by (split; [unfold i64_ok in Hq; cbn; lia|done]).
      unfold _create_block. cbn [negb]. destruct (line (_seq x) (block_type d m)) as [s|] eqn:El.
      2: { unfold line in El. destruct (int_conv 64 false (_seq x)) as (u & Hu & _); [by right; right; right|unfold i64_ok in Hq; change (2 ^ (64 - 1)) with (2 ^ 63); lia|].
           rewrite Hu in El. done. }
      cbn [mbind option_bind]. rewrite Hwr, bool_decide_true by done. eexists _, _, (ps ++ [p]). split; [reflexivity|]. split; [|rewrite length_app; cbn; lia].
      split; [done|]. split; [|split; [|split; [|done]]].
      - cbn [file with_file with_blocks]. rewrite Hf, firstn_all. destruct ps as [|p0 ps'].
        + unfold text, p. cbn [default app map concat fst snd]. rewrite El. cbn [default id]. by rewrite app_nil_r.
        + cbn [app default id]. f_equal. unfold text. rewrite (app_comm_cons ps' [p] p0), map_app, concat_app. unfold p. cbn [map concat fst snd]. rewrite El. cbn [default id]. by rewrite app_nil_r.
      - cbn [_blocks with_file with_blocks]. rewrite foldl_app, <-Hb. done.
      - apply Forall_app. split; [done|]. by apply Forall_singleton. }
    unfold block_type in Hcreate. rewrite Hd. destruct (get_bytestring 64 (m_data m)) as [|c t]; [destruct d as [|c d]; [apply Hkeep|]|].
    + by apply Hcreate.
    + destruct d; by apply Hcreate.
Qed.

Lemma write_stored d ms : ∀ x ps, Forall (message_ok d) ms → stored d x ps →
  ∃ x' rs ps', write ms x = Some (x', rs) ∧ stored d x' ps' ∧ (length ps' ≤ length ps + length ms)%nat.
Proof.
  induction ms as [|m ms IH]; intros x ps Hok Hs; [exists x, [], ps; split; [done|split; [done|cbn; lia]]|].
  apply Forall_cons in Hok as [Hm Hok]. destruct (post_stored d m x ps Hm Hs) as (x1 & r & ps1 & E1 & Hs1 & Hl1).
  destruct (IH x1 ps1 Hok Hs1) as (x2 & rs & ps2 & E2 & Hs2 & Hl2). cbn [write]. rewrite E1. cbn [mbind option_bind]. rewrite E2.
  eexists _, _, ps2. split; [reflexivity|]. split; [done|]. cbn [length]. lia.
Qed.

(** The points of one type after more have been added. *)
Lemma points_lookup ps t : ∀ b, default [] (foldl add_point b ps !! t) = default [] (b !! t) ++ (fst <$> filter (λ p, p.2 = t) ps).
Proof.
  induction ps as [|p ps IH]; intros b; [by rewrite app_nil_r|]. cbn [foldl]. rewrite IH. unfold add_point. destruct (decide (p.2 = t)) as [<-|Hn].
  - rewrite lookup_insert_eq, filter_cons_True by done. cbn. by rewrite <-app_assoc.
  - by rewrite lookup_insert_ne, filter_cons_False by done.
Qed.

(** Opening the channel that wrote the file once more gives each point twice. *)
Lemma reopen_doubles d ms f params x rs : Forall (message_ok d) ms → Z.of_nat (length ms) ≤ 10000 → (3 < f)%nat →
  write ms (Channel (-1) ∅ d None) = Some (x, rs) →
  ∃ y, _open libyaml wr f None false params x = Some (y, ok) ∧ ∀ t, default [] (_blocks y !! t) = default [] (_blocks x !! t) ++ default [] (_blocks x !! t).
Proof.
  intros Hok Hlen Hf Hw. destruct (write_stored d ms (Channel (-1) ∅ d None) [] Hok) as (x' & rs' & ps & E & Hs & Hl); [done|].
  rewrite Hw in E. injection E as <- <-. cbn [length Nat.add] in Hl. destruct Hs as (_ & Hfile & Hb & Hp & _). unfold _open.
  destruct ps as [|p ps].
  - unfold load_file. cbn [file with_seq]. rewrite Hfile. cbn [mbind option_bind]. eexists. split; [reflexivity|]. intros t. cbn. rewrite Hb. cbn. by rewrite lookup_empty.
  - rewrite (load_file_spec f (with_seq (-1) x) (p :: ps) wr) by (done || lia). cbn [mbind option_bind ok]. eexists. split; [reflexivity|].
    intros t. cbn [_blocks with_seq with_blocks]. rewrite points_lookup. f_equal. rewrite Hb, points_lookup, lookup_empty. done.
Qed.

End reload.

(** ** Concrete runs *)

#[local] Existing Instance Config.empty_host.

(** A parser for such files. *)
Fixpoint take_until (c : Z) (s : bytes) : bytes :=
  match s with [] => [] | d :: s => if d =? c then [] else d :: take_until c s end.

Definition row_of (l : bytes) : doc :=
  let n := take_until 44 (drop 8 l) in
  DMap [(str "seq", DScalar n); (str "type", DScalar (take_until 39 (drop (17 + length n) l)))].

Definition sample_yaml (s : bytes) : list (option Yaml.event) :=
  stream (DSeq (map row_of (removelast (Str.fields (Str.eqc 10) s)))).



Definition sample_data (s : Z) : msg := Msg DATA 0 7 s [1; 2; 3] 3 0 0.
Definition sample_block (t : bytes) : msg := Msg CONTROL 0 Block_meta_id 0 (t ++ replicate (64 - length t) 0) 64 0 0.
Definition whole (s : bytes) : option nat := Some (length s).
Definition sample_posts : list msg :=
  [sample_data 10; sample_block []; sample_data 20; sample_block (str "day"); sample_data 15; sample_block []; sample_data 30].


#[local] Existing Instance Storage.mem_storage.

Definition sample_server : @StreamServer.server (list msg) nat channel unit :=
  StreamServer.Server (StreamServer.Conf 100 None false 0 0 0 (λ _, [])) [] (Some (Channel (-1) ∅ (str "default") None)) (-1)
    (AutoSeq.AutoSeqT (-1) false) false false ∅ [] false [] [].

(** The server and the results after the posts; the message with a number that is not new is refused. *)
Definition sample_after : @StreamServer.server (list msg) nat channel unit * list Z :=
  default (sample_server, []) (posts sample_yaml whole sample_posts sample_server).

Lemma block_session_witness : sample_after.2 = [0; 0; 0; 0; 22; 0; 0] ∧
  let '(L', marks) := meaning (str "default") (zip sample_posts sample_after.2) [] [] in
  ∃ g' x2 c' r, StreamServerSpec.serves sample_after.1 g' L' ∧
    StreamServer.client_init (blocks_ops sample_yaml whole) true sample_after.1 [97] (DataBlock (str "default") 1) StreamServer.client_new = Some (x2, c', r) ∧
    match rev (marks_of (str "default") marks) !! Z.to_nat 1 with
    | None => x2 = sample_after.1 ∧ r = Err StreamServer.BlockOpenFailed
    | Some P => r = Ok tt ∧ StreamServer.c_state c' = StreamServer.CActive ∧ P `prefix_of` L' ∧
        StreamServerSpec.in_front (λ _ l, l = []) (StreamServer.storage x2) g' c' (drop (length P) L') ∧
        ∃ data, make_reply (Reply (Storage.last_seq L') (Storage.last_seq P + 1) (Storage.last_seq P + 1)) = Some data ∧
          x2 = StreamServer.request_post 0
                 (Msg DATA 0 Reply_meta_id 0 data (zlen data) 0 0) sample_after.1
    end.
Proof.
  split; [vm_compute; reflexivity|].
  apply (block_session sample_yaml whole sample_server tt [] (Channel (-1) ∅ (str "default") None) sample_posts sample_after.1 sample_after.2
    (str "default") 1 [97] StreamServer.client_new).
  - done.
  - split; [|split; [done|intros e; done]]. split; [done|]. split; constructor.
  - constructor.
  - done.
  - done.
  - done.
  - done.
  - done.
  - by repeat constructor.
  - vm_compute. reflexivity.
  - apply (bool_decide_unpack _). vm_compute. exact I.
  - done.
  - lia.
  - done.
Defined.
End BlocksSpec.
