(* ===== verification/StreamRing.v ===== *)
(** * The ring of the stream client

    The buffer of online messages as a list of messages: what is in front, what a
    push keeps and what is dropped. *)
From S2P Require Import Prelude Mem Callback Channel Storage Queue Binder StreamScheme StreamClient.
Import Cb Chan Binder StreamScheme StreamClient.

Module StreamRing.

(** Values that fit into a frame. *)
Definition frame_ok (m : msg) : Prop :=
  zlen (m_data m) < 2 ^ 32 ∧ - 2 ^ 31 ≤ m_msgid m < 2 ^ 31 ∧ i64_ok (m_seq m).

Definition entry (m : msg) : list Z * list Z := (frame_bytes (zlen (m_data m)) (m_msgid m) (m_seq m), m_data m).

(** The ring holds the messages. *)
Definition holds (r : DataRing.data_ring) (ms : list msg) : Prop :=
  DataRing.rep frame_size r (entry <$> ms) ∧ Forall frame_ok ms.

Lemma ring_frame_pos : 0 < frame_size.
Proof. done. Qed.

Lemma zlen_frame a b c : zlen (frame_bytes a b c) = frame_size.
Proof. unfold frame_bytes. by rewrite !zlen_app, !zlen_le_bytes. Qed.

Lemma le_value_get n z : le_value (le_bytes n z) = z mod 2 ^ (8 * Z.of_nat n).
Proof. rewrite le_value_bytes. f_equal. rewrite Z.pow_mul_r by lia. done. Qed.

Lemma mem_load_mid (a b c : list Z) : mem_load (a ++ b ++ c) (zlen a) (zlen b) = Some b.
Proof.
  pose proof (zlen_nonneg a). pose proof (zlen_nonneg b). pose proof (zlen_nonneg c).
  apply mem_load_Some. rewrite !zlen_app. split; [lia|]. split; [lia|]. split; [lia|].
  unfold zlen. rewrite !Nat2Z.id, drop_app_length. by rewrite take_app_length.
Qed.

Lemma frame_roundtrip size msgid s : 0 ≤ size < 2 ^ 32 → - 2 ^ 31 ≤ msgid < 2 ^ 31 → i64_ok s →
  frame_load (frame_bytes size msgid s) = Some (size, msgid, s).
Proof.
  intros H1 H2 H3. unfold frame_load, get_signed, _get_scalar. set (a := le_bytes 4 size). set (b := le_bytes 4 msgid). set (c := le_bytes 8 s).
  assert (zlen a = 4 ∧ zlen b = 4 ∧ zlen c = 8) as (Ha & Hb & Hc) by (unfold a, b, c; by rewrite !zlen_le_bytes).
  unfold frame_bytes. fold a b c.
  pose proof (mem_load_mid [] a (b ++ c)) as E1. rewrite Ha in E1. rewrite zlen_nil in E1. cbn [app] in E1. change (Z.of_nat 4) with 4. rewrite E1. cbn [mbind option_bind].
  pose proof (mem_load_mid a b c) as E2. rewrite Ha, Hb in E2. rewrite E2. cbn [mbind option_bind].
  pose proof (mem_load_mid (a ++ b) c []) as E3. rewrite app_nil_r, <-app_assoc, zlen_app, Ha, Hb, Hc in E3. change (Z.of_nat 8) with 8. change (4 + 4) with 8 in E3. rewrite E3. cbn [mbind option_bind].
  unfold a, b, c. rewrite !le_value_get, !wraps_mod, Z.mod_small by (cbn; unfold i64_ok in *; lia). done.
Qed.

Lemma peek_front r m ms : holds r (m :: ms) → ring_front r = Some (Storage.kept m).
Proof.
  intros [Hr Hok]. apply Forall_cons in Hok as [(H1 & H2 & H3) _]. pose proof (zlen_nonneg (m_data m)). unfold ring_front.
  rewrite (DataRing.rep_peek _ _ _ _ Hr). cbn [mbind option_bind entry]. rewrite frame_roundtrip by (done || lia). done.
Qed.

Lemma holds_nil r ms : holds r ms → DataRing.empty r = bool_decide (ms = []).
Proof. intros [Hr _]. rewrite (DataRing.rep_nil _ _ _ Hr). apply bool_decide_ext. by destruct ms. Qed.

Lemma holds_pop r m ms : holds r (m :: ms) → holds (DataRing.pop_front r) ms.
Proof. intros [Hr Hok]. apply Forall_cons in Hok as [_ Hok]. split; [|done]. by apply (DataRing.data_rep_pop _ ring_frame_pos _ (entry m)). Qed.

Lemma holds_clear r ms : holds r ms → holds (DataRing.clear r) [].
Proof. intros [Hr _]. split; [by eapply DataRing.rep_data_clear|constructor]. Qed.

(** What stays the same for a ring: its sizes. *)
Definition same_size (r r' : DataRing.data_ring) : Prop :=
  zlen (DataRing.bytes r') = zlen (DataRing.bytes r) ∧
  zlen (VecRing.data (DataRing.index r')) = zlen (VecRing.data (DataRing.index r)).

Lemma pop_size r : same_size r (DataRing.pop_front r).
Proof. split; [done|]. unfold DataRing.pop_front, VecRing.pop_front. cbn. by destruct (_ =? _). Qed.

Lemma push_size r fr d r' : DataRing.push_back frame_size r fr d = Some (Some r') → same_size r r'.
Proof.
  unfold DataRing.push_back. destruct (_ =? _); [done|]. cbv zeta. destruct (_ <? _); [done|].
  intros (p & _ & Hp)%bind_Some. destruct p as [tl|]; [|done].
  apply bind_Some in Hp as (b & Hb & Hp). apply bind_Some in Hp as (i & Hi & Hp). destruct i as [i|]; [|done].
  apply bind_Some in Hp as (b' & Hb' & Hp). injection Hp as <-. split; cbn.
  - by rewrite (mem_store_zlen _ _ _ _ Hb'), (mem_store_zlen _ _ _ _ Hb).
  - unfold VecRing.push_back in Hi. destruct (_ =? _) in Hi; [done|]. destruct (_ <? _) in Hi; [|done]. injection Hi as <-. cbn. unfold zlen. by rewrite length_insert.
Qed.

(** A ring that can take a message of [n] bytes when it is empty. *)
Definition roomy (r : DataRing.data_ring) (n : Z) : Prop :=
  1 < zlen (VecRing.data (DataRing.index r)) ∧ frame_size + n ≤ zlen (DataRing.bytes r).

Lemma roomy_size r r' n : same_size r r' → roomy r n → roomy r' n.
Proof. intros [E1 E2] [H1 H2]. split; lia. Qed.

(** A push drops a number of the oldest messages. *)
Lemma ring_push_spec m : ∀ ms fuel r, holds r ms → frame_ok m → roomy r (zlen (m_data m)) → (length ms < fuel)%nat →
  ∃ k r', ring_push fuel (frame_bytes (u32 (zlen (m_data m))) (m_msgid m) (m_seq m)) (m_data m) r = Some r' ∧
    holds r' (drop k ms ++ [m]) ∧ same_size r r' ∧
    ((∃ r1, DataRing.push_back frame_size r (frame_bytes (u32 (zlen (m_data m))) (m_msgid m) (m_seq m)) (m_data m) = Some (Some r1)) → k = 0%nat).
Proof.
  intros ms. induction ms as [|x ms IH]; intros [|fuel] r Hr Hm Hroom Hf; [cbn in Hf; lia| |cbn in Hf; lia|];
    cbn [ring_push]; (pose proof Hr as [Hrep Hok]); pose proof Hm as (Hm1 & _); pose proof (zlen_nonneg (m_data m));
    rewrite !(wrapu_id 32) by lia;
    destruct (DataRing.data_rep_push _ ring_frame_pos _ _ (frame_bytes (zlen (m_data m)) (m_msgid m) (m_seq m)) (m_data m) Hrep (zlen_frame _ _ _)) as (o & Eo & Ho);
    rewrite Eo; cbn [mbind option_bind]; destruct o as [r'|].
  - destruct Ho as (Ho & _). exists 0%nat, r'. split; [done|]. split; [split; [by rewrite fmap_app|]; by apply Forall_app; split; [|constructor]|].
    split; [by eapply push_size|done].
  - exfalso. destruct Hrep as (es1 & es2 & Hi & _). destruct (VecRing.rep_capacity _ _ Hi) as [Ec _]. destruct Hroom as [R1 R2].
    destruct (Ho eq_refl) as [Hc|Hc]; [rewrite Ec in Hc; lia|lia].
  - destruct Ho as (Ho & _). exists 0%nat, r'. split; [done|]. split; [split; [by rewrite fmap_app|]; by apply Forall_app; split; [|constructor]|].
    split; [by eapply push_size|done].
  - destruct (IH fuel (DataRing.pop_front r)) as (k & r' & E & Hr' & Hsz & _); [by apply (holds_pop _ x)|done|by eapply roomy_size; [apply pop_size|]|cbn in Hf; lia|].
    rewrite (wrapu_id 32) in E by lia. exists (S k), r'. split; [exact E|]. split; [exact Hr'|]. split.
    + destruct (pop_size r) as [P1 P2], Hsz as [Q1 Q2]. split; congruence.
    + intros (r1 & Er1). congruence.
Qed.

Lemma holds_fuel r ms : holds r ms → (length ms < ring_fuel r)%nat.
Proof.
  intros [(es1 & es2 & Hi & _ & Hq) _]. destruct (VecRing.rep_capacity _ _ Hi) as [_ Hc]. apply Forall2_length in Hq.
  rewrite length_fmap in Hq. unfold ring_fuel. unfold zlen in Hc. lia.
Qed.

(** Messages up to a number are dropped from the front. *)
Fixpoint drop_seq (s : Z) (ms : list msg) : list msg :=
  match ms with
  | [] => []
  | m :: l => if m_seq m <=? s then drop_seq s l else ms
  end.

Lemma ring_drop_spec s : ∀ ms fuel r, holds r ms → (length ms ≤ fuel)%nat →
  ∃ r', ring_drop fuel s r = Some r' ∧ holds r' (drop_seq s ms) ∧ same_size r r'.
Proof.
  intros ms. induction ms as [|x ms IH]; intros fuel r Hr Hf; destruct fuel as [|fuel]; cbn [ring_drop]; rewrite (holds_nil _ _ Hr).
  - by exists r.
  - by exists r.
  - cbn in Hf. lia.
  - rewrite bool_decide_false by done. rewrite (peek_front _ _ _ Hr). cbn [mbind option_bind drop_seq].
    change (m_seq (Storage.kept x)) with (m_seq x). destruct (m_seq x <=? s); [|by exists r].
    destruct (IH fuel _ (holds_pop _ _ _ Hr)) as (r' & E & H1 & H2); [cbn in Hf; lia|]. exists r'. split; [done|]. split; [done|].
    destruct (pop_size r) as [P1 P2], H2 as [Q1 Q2]. split; congruence.
Qed.

Lemma drop_seq_from s ms : Storage.sorted ms → drop_seq s ms = Storage.from (s + 1) ms.
Proof.
  induction ms as [|m ms IH]; intros Hs; [done|]. cbn [drop_seq]. destruct (Z.leb_spec (m_seq m) s).
  - rewrite Storage.from_skip by lia. apply IH. by apply (Storage.sorted_app [m]) in Hs as [? _].
  - symmetry. apply Storage.from_all; [done|lia].
Qed.

(** The space of the ring is defined, and all of it is free when it is empty. *)
Lemma free_spec r ms : holds r ms → ∃ a b, DataRing.data_free frame_size r = Some a ∧ DataRing.data_size frame_size r = Some b ∧
  (ms = [] → a = zlen (DataRing.bytes r) ∧ b = 0).
Proof.
  intros Hr. unfold DataRing.data_free, DataRing.data_size. rewrite (holds_nil _ _ Hr). case_bool_decide as E; [by eexists _, _|].
  destruct Hr as [(es1 & es2 & Hi & Hp & Hq) _]. destruct (DataRing.placed_ends _ ring_frame_pos _ _ _ Hp) as (f & l & b & El & Eb & _).
  { intros E'. rewrite E' in Hq. apply Forall2_nil_inv_l in Hq. by apply fmap_nil_inv in Hq. }
  destruct (DataRing.rep_ends _ _ _ _ _ Hi El Eb) as (_ & -> & ->). cbn [mbind option_bind]. by eexists _, _.
Qed.

End StreamRing.
