(* ===== verification/Stream.v ===== *)
(** * A stream: the server, a client and the channels between them

    The server of [StreamServer] over any [Storage], the client of [StreamClient], and
    the two connections, which are reliable queues: the online channel and the request
    channel in both directions.  A run is any sequence of steps: posts, calls of the handlers with the
    next message of a queue, changes of state of the channels. *)
From S2P Require Import Prelude Mem Callback Channel Storage Queue Reopen Binder StreamScheme StreamClient StreamServer.
Import Cb Chan Binder StreamScheme.

Module Stream.
Import StreamClient.

(** The address of the client on the server. *)
Definition addr : Z := 1.

(** Calls of the other channels succeed; the user may close the client in any callback. *)
Definition reliable (closes : event → bool) : env := Env closes (λ _, false) (λ _, 0) (λ _, 0).

Inductive op :=
| Post (m : msg)            (* the user of the server posts *)
| Connect (report : bool)   (* the online channel of the client becomes Active; it may report the last number *)
| ChildState (s : state)    (* another state of the online channel *)
| ReqState (s : state)      (* a state of the request channel of the client *)
| ServeRequest              (* the server gets the next message of the client *)
| ServeRead                 (* the server processes the storage of the client *)
| ServeProcess              (* the server is processed *)
| TakeOnline                (* the client gets the next online message *)
| TakeReply                 (* the client gets the next message of the request channel *)
| Process.                  (* the client is processed *)

Section System.
Context {W R G BW BR : Type} `{Storage.Storage W R G} (B : StreamServer.blocks_ops BW BR) (closes : event → bool).

Abbreviation E := (reliable closes).

Record sys := Sys {
  srv : @StreamServer.server W R BW BR;
  cl : client;
  conn : bool;          (* the client is connected to the online channel *)
  onq : list msg;       (* online messages on their way *)
  repq : list msg;      (* messages to the client on the request channel *)
  reqq : list msg;      (* and from it *)
}.

(** A handler of the server; what it posts is on its way. *)
Definition to_addr (l : list (Z * msg)) : list msg := snd <$> filter (λ p, p.1 = addr ∧ m_type p.2 = DATA) l.

Definition serve (f : @StreamServer.server W R BW BR → option (@StreamServer.server W R BW BR)) (x : sys) : option sys :=
  let! s := f (srv x) in
  Some (Sys s (cl x) (conn x)
          (onq x ++ if conn x then drop (length (StreamServer.online (srv x))) (StreamServer.online s) else [])
          (repq x ++ to_addr (drop (length (StreamServer.sent (srv x))) (StreamServer.sent s)))
          (reqq x)).

(** A handler of the client, until it has failed or is closed. *)
Definition posts (l : list event) : list msg := omap (λ e, match e with ReqPost m => Some m | _ => None end) l.

Definition stopped (c : client) : bool := match chan c with Error | Closing | Closed => true | _ => false end.

Definition drive (f : client → option client) (x : sys) : option sys :=
  if stopped (cl x) then Some x else
  let! c := f (cl x) in
  Some (Sys (srv x) c (conn x) (onq x) (repq x) (reqq x ++ posts (drop (length (out (cl x))) (out c)))).

Definition with_addr (a : Z) (m : msg) : msg := Msg (m_type m) (m_flags m) (m_msgid m) (m_seq m) (m_data m) (m_size m) a (m_time m).

Definition step (o : op) (x : sys) : option sys :=
  match o with
  | Post m => serve (λ s, let! (s, _) := StreamServer._post B true m s in Some s) x
  | Connect report =>
      if bool_decide (child_st (cl x) = Opening) then
        drive (λ c, Some (on_child_state E Active (with_info (Some (if report then StreamServer.s_seq (srv x) else -1)) c)))
          (Sys (srv x) (cl x) true [] (repq x) (reqq x))
      else Some x
  | ChildState s =>
      match s with
      | Error | Closing | Closed => drive (λ c, Some (on_child_state E s c)) x
      | _ => Some x
      end
  | ReqState s =>
      match s with
      | Error | Closing | Closed => drive (λ c, Some (on_request_state E s c)) x
      | Active => if bool_decide (request_st (cl x) = Opening) then drive (λ c, Some (on_request_state E s c)) x else Some x
      | _ => Some x
      end
  | ServeRequest =>
      match reqq x with
      | [] => Some x
      | m :: l => serve (StreamServer._on_request_data B true (with_addr addr m)) (Sys (srv x) (cl x) (conn x) (onq x) (repq x) l)
      end
  | ServeRead => serve (StreamServer.client_process B true addr) x
  | ServeProcess => serve (λ s, Some (StreamServer._process s)) x
  | TakeOnline =>
      match onq x with
      | [] => Some x
      | m :: l => drive (on_data E m) (Sys (srv x) (cl x) (conn x) l (repq x) (reqq x))
      end
  | TakeReply =>
      match repq x with
      | [] => Some x
      | m :: l => drive (_on_request_data E m) (Sys (srv x) (cl x) (conn x) (onq x) l (reqq x))
      end
  | Process => drive (λ c, let! (c, _) := process E c in Some c) x
  end.

Fixpoint run (os : list op) (x : sys) : option sys :=
  match os with [] => Some x | o :: os => let! x := step o x in run os x end.

(** What the user of the client has got. *)
Definition delivered (l : list event) : list msg :=
  omap (λ e, match e with Deliver m => Some (Storage.kept m) | _ => None end) l.

(** ** Steps at which the protocol keeps its promise

    A reply that says there is nothing old to send finds no online message
    in the ring, and while the ring is played back nothing has to be dropped from it. *)
Definition calm (o : op) (x : sys) : bool :=
  match o with
  | TakeReply =>
      match st (cl x), repq x with
      | SOpening, m :: _ =>
          match get_reply (m_data m) with
          | Some r => DataRing.empty (ring (cl x)) ||
              negb ((last_seq r =? -1) || (last_seq r + 1 =? default (requested_seq r) (open_seq (cl x))))
          | None => true
          end
      | _, _ => true
      end
  | TakeOnline =>
      match st (cl x), onq x with
      | SOverlapped, m :: _ =>
          match DataRing.push_back frame_size (ring (cl x)) (frame_bytes (u32 (zlen (m_data m))) (m_msgid m) (m_seq m)) (m_data m) with
          | Some (Some _) => true
          | _ => false
          end
      | _, _ => true
      end
  | _ => true
  end.

Fixpoint calm_run (os : list op) (x : sys) : bool :=
  match os with
  | [] => true
  | o :: os => calm o x && match step o x with Some x => calm_run os x | None => true end
  end.

(** Nothing is on its way and nobody has anything to do. *)
Definition quiet (x : sys) : Prop :=
  onq x = [] ∧ repq x = [] ∧ reqq x = [] ∧ pending (cl x) = false ∧
  ∀ s, StreamServer.client_process B true addr (srv x) = Some s → StreamServer.sent s = StreamServer.sent (srv x).

End System.
End Stream.
