(* ===== verification/StreamClientSpec.v ===== *)
(** * Effects of the handlers of the stream client

    Callbacks may end in the user closing the client; otherwise a handler changes the
    fields it names.  [core] are the fields of the protocol, the other ones
    are the state of the three channels and the record of what was called. *)
From S2P Require Import Prelude Mem Callback Channel Storage Queue Binder StreamScheme StreamClient Stream.
Import Cb Chan Binder StreamScheme.

Module StreamClientSpec.
Import StreamClient Stream.

Definition core (c : client) :=
  (cf c, pending c, st c, seq c, server_seq c, block_end c, open_seq c, initial_open c, request_buf c, ring c).

Definition count_ok (c : client) : Prop := 0 ≤ count c < 2 ^ 32.
Definition dl (c : client) : list msg := delivered (out c).

(** Closed, or on the way to it. *)
Definition gone (c : client) : bool := match chan c with Closing | Closed => true | _ => false end.

(** Events that deliver and post nothing. *)
Definition silent (l : list event) : Prop := delivered l = [] ∧ posts l = [].

Lemma silent_nil : silent [].
Proof. done. Qed.
Lemma delivered_app a b : delivered (a ++ b) = delivered a ++ delivered b.
Proof. apply omap_app. Qed.
Lemma posts_app a b : posts (a ++ b) = posts a ++ posts b.
Proof. apply omap_app. Qed.
Lemma silent_app a b : silent a → silent b → silent (a ++ b).
Proof. intros [H1 H2] [H3 H4]. split; rewrite ?delivered_app, ?posts_app; by rewrite ?H1, ?H2, ?H3, ?H4. Qed.

Section Spec.
Context (closes : event → bool).
Abbreviation E := (reliable closes).

(** ** Closing by the user *)
Lemma request_close_spec f c : ∃ evs r, request_close f c = with_out (out c ++ evs) (with_subs (child_st c) r c) ∧ silent evs ∧
  (request_st c ≠ Opening → r ≠ Opening).
Proof.
  unfold request_close. destruct (request_st c) eqn:Er; try (exists [ReqClose f]; eexists; split; [reflexivity|done]).
  - exists [], Closed. rewrite app_nil_r. split; [|done]. destruct c; cbn in *; by subst.
  - destruct f; [exists [ReqClose true], Closing; split; [|done]|exists [], Closing; rewrite app_nil_r; split; [|done]]; destruct c; cbn in *; by subst.
  - exists [], Destroy. rewrite app_nil_r. split; [|done]. destruct c; cbn in *; by subst.
Qed.

Lemma child_close_spec f c : ∃ evs r, child_close f c = with_out (out c ++ evs) (with_subs r (request_st c) c) ∧ silent evs.
Proof.
  unfold child_close. destruct (child_st c) eqn:Er; try (exists [ChildClose f]; eexists; split; [reflexivity|done]).
  - exists [], Closed. rewrite app_nil_r. split; [|done]. destruct c; cbn in *; by subst.
  - destruct f; [exists [ChildClose true], Closing; split; [|done]|exists [], Closing; rewrite app_nil_r; split; [|done]]; destruct c; cbn in *; by subst.
  - exists [], Destroy. rewrite app_nil_r. split; [|done]. destruct c; cbn in *; by subst.
Qed.

Lemma gone_chan c : gone c = true ↔ chan c = Closing ∨ chan c = Closed.
Proof. unfold gone. destruct (chan c); naive_solver. Qed.

Lemma user_close_spec c : gone c = false → chan c ≠ Destroy → count_ok c →
  ∃ evs, out (user_close c) = out c ++ evs ∧ silent evs ∧ gone (user_close c) = true ∧ count (user_close c) = u32 (count c + 1).
Proof.
  intros Hc Hd Hn. unfold user_close, _close.
  assert (chan c = Opening ∨ chan c = Active ∨ chan c = Error) as Hch by (unfold gone in Hc; destruct (chan c); naive_solver).
  set (c1 := log (Changed Closing) (with_chan Closing (u32 (count c + 1)) c)).
  set (c2 := _reset_config_cb (with_st SClosed c1)).
  assert (out c2 = out c ++ [Changed Closing] ∧ chan c2 = Closing ∧ count c2 = u32 (count c + 1)) as (Ho & Hch2 & Hn2).
  { unfold c2, _reset_config_cb. by destruct (reopen_cfg _) as [| | | |[]|]. }
  set (f := false || bool_decide (chan c2 = Error)).
  destruct (request_close_spec f c2) as (e1 & r1 & E1 & S1 & _). destruct (child_close_spec f (request_close f c2)) as (e2 & r2 & E2 & S2).
  destruct Hch as [E0|[E0|E0]]; rewrite E0; fold c1; fold c2; fold f; rewrite E2, E1; cbn;
    (exists ([Changed Closing] ++ e1 ++ e2); rewrite Ho, <-!app_assoc; split; [done|]; split; [by repeat apply silent_app|]; split; [|done]);
    apply gone_chan; by left.
Qed.

(** A callback: the event is recorded, and the client is as before or closed by the user. *)
Lemma emit_spec e c : gone c = false → chan c ≠ Destroy → count_ok c →
  emit E e c = log e c ∨
  ∃ evs, out (emit E e c) = out c ++ e :: evs ∧ silent evs ∧ gone (emit E e c) = true ∧ count (emit E e c) = u32 (count c + 1).
Proof.
  intros Hc Hd Hn. unfold emit. destruct (StreamClient.closes E e); [right|by left].
  destruct (user_close_spec (log e c)) as (evs & Ho & Hs & Hcl & Hcnt); [done..|]. exists evs. cbn in Ho. rewrite <-app_assoc in Ho. done.
Qed.

(** Nothing more happens in a callback of a closed client. *)
Lemma emit_gone e c : gone c = true → emit E e c = log e c.
Proof. intros Hc. unfold emit. destruct (StreamClient.closes E e); [|done]. unfold user_close. apply gone_chan in Hc as [Hc|Hc]; cbn; by rewrite Hc. Qed.

Lemma report_online_gone c : gone c = true → gone (_report_online E c) = true ∧ ∃ evs, out (_report_online E c) = out c ++ evs ∧ silent evs.
Proof.
  intros Hc. unfold _report_online. rewrite emit_gone by (destruct (st c); exact Hc). split; [by destruct (st c)|].
  eexists [_]. split; [by destruct (st c)|done].
Qed.

Lemma changed_same n c : count c = n → 0 ≤ n < 2 ^ 32 → changed n 0 c = false.
Proof. intros <- Hn. unfold changed. rewrite Z.add_0_r, wrapu_id by lia. by rewrite Z.eqb_refl. Qed.

Lemma u32_next n : 0 ≤ n < 2 ^ 32 → u32 (n + 1) ≠ n ∧ 0 ≤ u32 (n + 1) < 2 ^ 32.
Proof.
  intros Hn. destruct (decide (n + 1 = 2 ^ 32)) as [En|]; [rewrite En; change (u32 (2 ^ 32)) with 0; lia|].
  rewrite wrapu_id by lia. lia.
Qed.

Lemma changed_next n c : count c = u32 (n + 1) → 0 ≤ n < 2 ^ 32 → changed n 0 c = true.
Proof.
  intros Hc Hn. unfold changed. rewrite Z.add_0_r, (wrapu_id 32 n), Hc by lia. destruct (u32_next n Hn) as [H1 _].
  by rewrite (proj2 (Z.eqb_neq _ _)) by done.
Qed.

(** Another state of the channel. *)
Lemma client_state_spec s c : gone c = false → chan c ≠ Destroy → count_ok c → s = Error ∨ s = Active ∨ s = Opening →
  ∃ evs, out (set_state E s c) = out c ++ evs ∧ silent evs ∧
    (gone (set_state E s c) = true ∧ (count (set_state E s c) = u32 (u32 (count c + 1) + 1)) ∨
     core (set_state E s c) = core c ∧ chan (set_state E s c) = s ∧ count_ok (set_state E s c) ∧
       child_st (set_state E s c) = child_st c ∧ request_st (set_state E s c) = request_st c ∧
       (s ≠ chan c → count (set_state E s c) = u32 (count c + 1))).
Proof.
  intros Hc Hd Hn Hs. unfold set_state. case_bool_decide as Es; [exists []; rewrite app_nil_r; split; [done|]; split; [done|]; right; by subst|].
  destruct (u32_next _ Hn) as [_ Hr]. set (c1 := with_chan s _ c).
  assert (gone c1 = false ∧ chan c1 ≠ Destroy ∧ count_ok c1) as (H1 & H2 & H3) by (destruct Hs as [->|[->| ->]]; done).
  destruct (emit_spec (Changed s) c1 H1 H2 H3) as [->|(evs & Ho & Hsil & Hcl & Hcnt)].
  - exists [Changed s]. split; [done|]. split; [done|]. by right.
  - exists (Changed s :: evs). split; [exact Ho|]. split; [by apply (silent_app [_])|]. by left.
Qed.
End Spec.
End StreamClientSpec.
