(* ===== verification/StreamPhase.v ===== *)
(** * Phases of a run of a stream

    Parts of a log, where the history of a client starts, and how what the client
    has got, what its ring holds and what is on its way make up the log, for every
    phase of the protocol; the phases stay when the log grows and when the server reads on. *)
From Stdlib Require Import Sorted.
From S2P Require Import Prelude Mem Callback Channel Storage Queue Binder StreamScheme StreamClient StreamRing Stream StreamClientSpec.
Import Cb Chan Binder StreamScheme.

Module StreamPhase.
Import StreamClient Stream StreamRing StreamClientSpec.

(** ** Parts of a log *)
Definition keep : list msg → list msg := fmap Storage.kept.

Lemma kept_kept m : Storage.kept (Storage.kept m) = Storage.kept m.
Proof. done. Qed.

Lemma keep_app a b : keep (a ++ b) = keep a ++ keep b.
Proof. apply fmap_app. Qed.

Lemma from_keep s l : Storage.from s (keep l) = keep (Storage.from s l).
Proof.
  unfold Storage.from, keep. induction l as [|m l IH]; [done|]. cbn [fmap list_fmap]. rewrite !filter_cons.
  change (m_seq (Storage.kept m)) with (m_seq m). destruct (decide (s ≤ m_seq m)); [|done]. cbn [fmap list_fmap]. f_equal. exact IH.
Qed.

Lemma last_seq_keep l : Storage.last_seq (keep l) = Storage.last_seq l.
Proof. unfold Storage.last_seq, keep. rewrite fmap_last. by destruct (last l). Qed.
Lemma first_seq_keep l : Storage.first_seq (keep l) = Storage.first_seq l.
Proof. by destruct l. Qed.

Lemma increasing_keep l : Storage.increasing l → Storage.increasing (keep l).
Proof.
  intros [Hs Hp]. split.
  - induction Hs as [|m l Hs IH Hm]; [constructor|]. apply Forall_cons in Hp as [_ Hp]. cbn. constructor; [by apply IH|]. by apply Forall_fmap.
  - by apply Forall_fmap.
Qed.

Lemma from_elem s l m : m ∈ Storage.from s l ↔ s ≤ m_seq m ∧ m ∈ l.
Proof. unfold Storage.from. by rewrite list_elem_of_filter. Qed.

Lemma sorted_last l m : Storage.sorted l → m ∈ l → m_seq m ≤ Storage.last_seq l.
Proof.
  intros Hs Hm. destruct (last l) as [y|] eqn:E; [|apply last_None in E as ->; by apply not_elem_of_nil in Hm].
  unfold Storage.last_seq. rewrite E. cbn. apply last_Some in E as (k & ->). apply elem_of_app in Hm as [Hm|Hm].
  - apply Storage.sorted_app in Hs as [_ Hs]. specialize (Hs m y Hm ltac:(by left)). lia.
  - apply list_elem_of_singleton in Hm as ->. done.
Qed.

Lemma from_nil_above l s : Storage.sorted l → Storage.last_seq l < s → Storage.from s l = [].
Proof.
  intros Hs Hl. apply elem_of_nil_inv. intros m. rewrite from_elem. intros [Hm Hin]. pose proof (sorted_last _ _ Hs Hin). lia.
Qed.

(** What follows the first message from a number on. *)
Lemma from_cons_tail s l m r : Storage.sorted l → Storage.from s l = m :: r → r = Storage.from (m_seq m + 1) l.
Proof.
  induction l as [|x l IH]; intros Hs; [done|]. pose proof Hs as [Hs' Hx]%StronglySorted_inv. unfold Storage.from. rewrite !filter_cons.
  destruct (decide (s ≤ m_seq x)) as [Hle|Hgt].
  - intros [= -> Hr]. rewrite decide_False by lia. rewrite <-Hr. clear -Hx Hle. induction Hx as [|y l Hy Hx IH]; [done|].
    rewrite !filter_cons_True by lia. f_equal. exact IH.
  - intros Hr. pose proof (IH Hs' Hr) as E. rewrite decide_False; [exact E|]. intros Hm.
    assert (m ∈ l) as Hin by (apply (from_elem s); unfold Storage.from; rewrite Hr; left).
    rewrite Forall_forall in Hx. specialize (Hx m Hin). cbn in Hx. lia.
Qed.

Lemma from_mid l d : ∀ s m r, Storage.sorted l → Storage.from s l = d ++ m :: r → r = Storage.from (m_seq m + 1) l.
Proof.
  induction d as [|x d IH]; intros s m r Hs E; [by eapply from_cons_tail|].
  eapply IH; [done|]. symmetry. exact (from_cons_tail _ _ _ _ Hs E).
Qed.

(** The same first message from a later number on. *)
Lemma from_cons_mid s j l m r : Storage.sorted l → Storage.from s l = m :: r → s ≤ j ≤ m_seq m → Storage.from j l = m :: r.
Proof.
  induction l as [|x l IH]; intros Hs; [done|]. pose proof Hs as [Hs' Hx]%StronglySorted_inv. unfold Storage.from. rewrite !filter_cons.
  destruct (decide (s ≤ m_seq x)) as [Hle|Hgt].
  - intros [= -> Hr] Hj. rewrite decide_True by lia. f_equal. rewrite <-Hr. clear -Hx Hle Hj. induction Hx as [|y l Hy Hx IH]; [done|].
    rewrite !filter_cons_True by lia. f_equal. exact IH.
  - intros Hr Hj. rewrite decide_False by lia. by apply IH.
Qed.

Lemma from_split s l m r : Storage.sorted l → Storage.from s l = m :: r → Storage.from s l = [m] ++ Storage.from (m_seq m + 1) l.
Proof. intros Hs E. rewrite E. cbn. f_equal. by eapply from_cons_tail. Qed.

Lemma increasing_from s l : Storage.increasing l → Storage.increasing (Storage.from s l).
Proof.
  intros [Hs Hp]. induction Hs as [|x l Hs IH Hx]; [by split; constructor|]. apply Forall_cons in Hp as [Hx0 Hp]. specialize (IH Hp).
  unfold Storage.from in *. rewrite filter_cons. destruct (decide (s ≤ m_seq x)); [|done]. destruct IH as [I1 I2]. split; [|by constructor].
  constructor; [done|]. apply Forall_forall. intros y Hy. apply list_elem_of_filter in Hy as [_ Hy]. rewrite Forall_forall in Hx. by apply Hx.
Qed.

Lemma sorted_tail a b : Storage.sorted (a ++ b) → Storage.sorted b.
Proof. intros H. by apply Storage.sorted_app in H as [H _]. Qed.

Lemma sorted_keep R l : Storage.sorted (keep R ++ l) → Storage.sorted R.
Proof.
  induction R as [|x R IH]; intros Hs; [constructor|]. apply StronglySorted_inv in Hs as [Hs Hx]. constructor; [by apply IH|].
  apply Forall_app in Hx as [Hx _]. rewrite Forall_forall in Hx. apply Forall_forall. intros y Hy. apply (Hx (Storage.kept y)). by apply list_elem_of_fmap_2.
Qed.

Lemma from_low s l : Storage.increasing l → s ≤ 0 → Storage.from s l = l.
Proof.
  intros [_ Hp] Hs. unfold Storage.from. induction Hp as [|m l Hm Hp IH]; [done|]. rewrite filter_cons_True by lia. by f_equal.
Qed.

Lemma from_first l : Storage.increasing l → Storage.from (Storage.first_seq l) l = l.
Proof. intros Hi. destruct l as [|m l]; [done|]. apply Storage.from_all; [by apply Storage.sorted_increasing|done]. Qed.

Lemma below_mono s s' l : Storage.below s l → s ≤ s' → Storage.below s' l.
Proof. intros H Hs. eapply Forall_impl; [exact H|]. cbn. lia. Qed.

Lemma below_last l s : Storage.sorted l → Storage.last_seq l < s → Storage.below s l.
Proof. intros Hs Hl. apply Forall_forall. intros m Hm. pose proof (sorted_last _ _ Hs Hm). lia. Qed.

Lemma prefix_increasing k l : Storage.increasing l → k `prefix_of` l → Storage.increasing k.
Proof.
  intros [Hs Hp] [t ->]. split; [|by apply Forall_app in Hp as [? _]]. clear Hp. induction k as [|x k IH]; [constructor|].
  apply StronglySorted_inv in Hs as [Hs Hx]. apply Forall_app in Hx as [Hx _]. constructor; [by apply IH|done].
Qed.

Lemma last_seq_prefix k l : Storage.increasing l → k `prefix_of` l → Storage.last_seq k ≤ Storage.last_seq l.
Proof.
  intros Hi [t ->]. destruct (last k) as [m|] eqn:E; [|apply last_None in E as ->; by apply Storage.last_seq_low].
  unfold Storage.last_seq at 1. rewrite E. apply sorted_last; [by apply Storage.sorted_increasing|].
  apply elem_of_app. left. by apply last_Some_elem_of.
Qed.

(** ** Where a history starts *)
Inductive kind := KSeq (s : Z) | KInit | KLast.

Definition start (k : kind) (a : Z) (K : list msg) : Prop :=
  match k with
  | KSeq s => a = s
  | KInit => a = -1
  | KLast => ∃ K1, K1 `prefix_of` K ∧ K1 ≠ [] ∧ a = Storage.last_seq K1 - 1
  end.

Lemma start_grow k a K new : start k a K → start k a (K ++ new).
Proof. destruct k; try done. intros (K1 & Hp & ?). exists K1. split; [by apply prefix_app_r|done]. Qed.

(** What the user has is the beginning of the history. *)
Definition promise (k : kind) (K D : list msg) : Prop := D = [] ∨ ∃ a, start k a K ∧ D `prefix_of` Storage.from a K.

Lemma promise_grow k K new D : promise k K D → promise k (K ++ new) D.
Proof.
  intros [->|(a & Ha & Hd)]; [by left|]. right. exists a. split; [by apply start_grow|]. rewrite Storage.from_app. by apply prefix_app_r.
Qed.


(** ** Phases of a run

    [K] is the log, [R] what the ring holds, [o] what the reader of the client
    has in front of it on the server, when the client has one. *)
Definition data_of (k : kind) : request_data := match k with KSeq s => DataSeq s | KInit => DataInitial | KLast => DataLast end.

(** Only reports that the client is done. *)
Definition dones (l : list msg) : Prop := Forall (λ m, m_msgid m = ClientDone_meta_id) l.

(** The client has been opened. *)
Record opened (k : kind) (c : client) : Prop := {
  op_buf : request_buf c ≠ [];
  op_req : ∃ name, parse_request Request_meta_id (request_buf c) = Some (Ok (name, data_of k));
  op_open : open_seq c = match k with KSeq s => Some s | _ => None end;
  op_init : initial_open c = match k with KInit => true | _ => false end;
  op_block : block_end c = -1;
  op_seq : seq c = -1;
  op_old : protocol_old (cf c) = false;
  op_range : match k with KSeq s => 0 ≤ s < 2 ^ 63 | _ => True end;
}.

(** The log ends with what is in the ring and on its way; when the ring is empty the
    part in front is not above [b]. *)
Definition linked (K R onq : list msg) (b : Z) : Prop :=
  ∃ P, K = P ++ keep R ++ keep onq ∧ (R = [] → Storage.below (b + 1) P).

(** What the reply says: [q] is the number it makes the client ask for. *)
Record replied (k : kind) (K : list msg) (a q ls : Z) : Prop := {
  rp_start : start k a K;
  rp_last : ∃ K1, K1 `prefix_of` K ∧ ls = Storage.last_seq K1;
  rp_here : ls + 1 = q → a = q;
  rp_ge : q ≤ ls → a ≤ ls;
  rp_init : ls = -1 → k = KInit → a = -1;
}.

Inductive phase (k : kind) (c : client) (conn : bool) (onq repq reqq K R : list msg) (o : option (list msg)) : Prop :=
| ph_idle :
    st c = SClosed → dl c = [] → repq = [] → reqq = [] → o = None → opened k c → chan c ≠ Active →
    (if conn then child_st c ≠ Opening ∧ ∃ b, linked K R onq b ∧ server_seq c ≤ b ≤ Storage.last_seq K
     else R = [] ∧ onq = [] ∧ request_st c ≠ Opening ∧ server_seq c = -1) →
    phase k c conn onq repq reqq K R o
| ph_request rq name b :
    st c = SOpening → dl c = [] → repq = [] → reqq = [rq] → o = None → opened k c → chan c ≠ Active →
    conn = true → child_st c ≠ Opening → request_st c ≠ Opening →
    m_msgid rq = Request_meta_id → parse_request Request_meta_id (m_data rq) = Some (Ok (name, data_of k)) →
    linked K R onq b → server_seq c ≤ b ≤ Storage.last_seq K →
    phase k c conn onq repq reqq K R o
| ph_reply rm q r S a b :
    st c = SOpening → dl c = [] → repq = rm :: q → reqq = [] → o = Some S → opened k c → chan c ≠ Active →
    conn = true → child_st c ≠ Opening → request_st c ≠ Opening →
    m_msgid rm = Reply_meta_id → 32 ≤ zlen (m_data rm) → get_reply (m_data rm) = Some r → block_seq r = -1 →
    replied k K a (default (requested_seq r) (open_seq c)) (last_seq r) →
    (default (requested_seq r) (open_seq c) ≤ last_seq r + 1 → a ≤ last_seq r + 1 ∧ keep q ++ S = Storage.from a K) →
    linked K R onq b → server_seq c ≤ b ≤ last_seq r →
    phase k c conn onq repq reqq K R o
| ph_refused em :
    st c = SOpening → dl c = [] → reqq = [] → o = None → chan c ≠ Active →
    conn = true → child_st c ≠ Opening → request_st c ≠ Opening →
    repq = [em] → m_msgid em = Error_meta_id →
    phase k c conn onq repq reqq K R o
| ph_connected S a :
    st c = SConnected → reqq = [] → o = Some S → block_end c = -1 → start k a K →
    conn = true → child_st c ≠ Opening → request_st c ≠ Opening →
    dl c ++ keep repq ++ S = Storage.from a K → seq c = Storage.last_seq (dl c) →
    linked K R onq (server_seq c) → keep repq ++ S ≠ [] → (R = [] → seq c < server_seq c) →
    a ≤ server_seq c → (∃ m, m ∈ K ∧ m_seq m = server_seq c) →
    phase k c conn onq repq reqq K R o
| ph_overlapped a j :
    st c = SOverlapped → dones reqq → pending c = true → start k a K →
    conn = true → child_st c ≠ Opening → request_st c ≠ Opening →
    a ≤ Storage.last_seq K + 1 → seq c ≤ Storage.last_seq K →
    dl c ++ Storage.from (seq c + 1) K = Storage.from a K →
    (∃ P, K = P ++ keep R ++ keep onq ∧ Storage.below (seq c + 1) P) → j ≤ seq c + 1 →
    match o with
    | Some T => keep repq ++ T = Storage.from j K
    | None => keep repq `prefix_of` Storage.from j K
    end →
    phase k c conn onq repq reqq K R o
| ph_online a z :
    (st c = SDrain ∧ seq c = z ∨ st c = SOnline) → dones reqq → start k a K →
    conn = true → child_st c ≠ Opening → request_st c ≠ Opening →
    a ≤ Storage.last_seq K + 1 → seq c ≤ z ≤ Storage.last_seq K → dl c ++ Storage.from (z + 1) K = Storage.from a K →
    (∃ P, K = P ++ keep onq ∧ Storage.below (z + 1) P) →
    Forall (λ m, seq c < m_seq m → z < m_seq m) onq →
    phase k c conn onq repq reqq K R o
| ph_wait :
    st c = SWaitOnline → dones reqq → k = KInit → dl c = [] → seq c = -1 → K = keep onq →
    conn = true → child_st c ≠ Opening → request_st c ≠ Opening →
    phase k c conn onq repq reqq K R o.

Lemma linked_grow K R onq b m : linked K R onq b → linked (K ++ keep [m]) R (onq ++ [m]) b.
Proof. intros (P & -> & HP). exists P. split; [|done]. by rewrite keep_app, <-!app_assoc. Qed.

Lemma replied_grow k K a q ls new : replied k K a q ls → replied k (K ++ new) a q ls.
Proof.
  intros [H1 (K1 & Hp & Hl) H3 H4 H5]. split; try done; [by apply start_grow|]. exists K1. split; [by apply prefix_app_r|done].
Qed.

Lemma from_snoc s K m : s ≤ m_seq m → Storage.from s (K ++ keep [m]) = Storage.from s K ++ keep [m].
Proof. intros Hm. rewrite Storage.from_app. f_equal. change (keep [m]) with [Storage.kept m]. unfold Storage.from. by rewrite filter_cons_True by exact Hm. Qed.

(** The phase stays when the server stores a message. *)
Lemma phase_post k c conn onq repq reqq K R o m : Storage.increasing K → Storage.last_seq K < m_seq m →
  phase k c conn onq repq reqq K R o →
  phase k c conn (onq ++ if conn then [m] else []) repq reqq (K ++ keep [m]) R ((λ T, T ++ keep [m]) <$> o).
Proof.
  intros HK Hm Hph. assert (Storage.last_seq (K ++ keep [m]) = m_seq m) as Hl by (change (keep [m]) with [Storage.kept m]; by rewrite Storage.last_seq_app).
  destruct Hph as [H1 H2 H3 H4 -> H6 H7 H8|rq name b H1 H2 H3 H4 -> H6 H7 -> H9 H10 H11 H12 H13 H14
    |rm q r S a b H1 H2 H3 H4 -> H6 H7 -> H9 H10 H11 H12 H13 H14 H15 H16 H17 H18|em H1 H2 H3 -> H5 -> H7 H8 H9 H10
    |S a H1 H2 -> H4 H5 -> H7 H8 H9 H10 H11 H12 H13 H14 H15|a j H1 Hq H2 H3 -> H5 H6 H7 H8 H9 H10 H11 H12
    |a z H1 Hq H2 -> H4 H5 H6 H7 H8 H9 H10|H1 Hq H2 H3 H4 H5 -> H7 H8].
  - apply ph_idle; try done. destruct conn.
    + destruct H8 as (Hc & b & Hb & Hr). split; [done|]. exists b. split; [by apply linked_grow|]. lia.
    + rewrite app_nil_r. done.
  - apply (ph_request _ _ _ _ _ _ _ _ _ rq name b); try done; [by apply linked_grow|lia].
  - apply (ph_reply _ _ _ _ _ _ _ _ _ rm q r (S ++ keep [m]) a b); try done; [by apply replied_grow| |by apply linked_grow].
    intros Hq. destruct (H16 Hq) as [Ha E]. split; [done|].
    assert (last_seq r ≤ Storage.last_seq K) by (destruct (rp_last _ _ _ _ _ H15) as (K1 & Hp & ->); by apply last_seq_prefix).
    rewrite from_snoc by lia. by rewrite app_assoc, E.
  - by apply (ph_refused _ _ _ _ _ _ _ _ _ em).
  - destruct H15 as (x & Hx & Ex). pose proof (sorted_last K x (Storage.sorted_increasing _ HK) Hx).
    apply (ph_connected _ _ _ _ _ _ _ _ _ (S ++ keep [m]) a); try done; [by apply start_grow| |by apply linked_grow| |].
    + rewrite from_snoc by lia. by rewrite <-H9, <-!app_assoc.
    + by destruct (keep repq), S.
    + exists x. split; [apply elem_of_app; by left|done].
  - apply (ph_overlapped _ _ _ _ _ _ _ _ _ a j); try done; [by apply start_grow|lia|lia| | |].
    + rewrite !from_snoc by lia. by rewrite app_assoc, H9.
    + destruct H10 as (P & -> & HP). exists P. split; [by rewrite keep_app, <-!app_assoc|done].
    + destruct o as [T|]; cbn [fmap option_fmap option_map]; rewrite from_snoc by lia.
      * by rewrite app_assoc, H12.
      * by apply prefix_app_r.
  - apply (ph_online _ _ _ _ _ _ _ _ _ a z); try done; [by apply start_grow|lia|lia| | |].
    + rewrite !from_snoc by lia. by rewrite app_assoc, H8.
    + destruct H9 as (P & -> & HP). exists P. split; [by rewrite keep_app, <-!app_assoc|done].
    + apply Forall_app. split; [done|]. constructor; [lia|done].
  - apply ph_wait; try done. by rewrite H5, keep_app.
Qed.

(** ** Messages on their way *)
(** What the server can take from the client. *)
Definition req_ok (m : msg) : Prop :=
  m_type m = DATA ∧ (m_msgid m = ClientDone_meta_id ∨ parse_request (m_msgid m) (m_data m) ≠ None).

(** A message that the ring of the client can hold. *)
Definition fits (cap : Z) (m : msg) : Prop := frame_ok m ∧ frame_size + zlen (m_data m) ≤ cap / 2.

(** ** Reading *)
(** A message moves from the reader to the queue. *)
Lemma phase_read k c conn onq repq reqq K R got T T' : T = keep got ++ T' →
  phase k c conn onq repq reqq K R (Some T) → phase k c conn onq (repq ++ got) reqq K R (Some T').
Proof.
  intros -> Hph.
  destruct Hph as [H1 H2 H3 H4 H5 H6 H7 H8|rq name b H1 H2 H3 H4 H5 H6 H7 -> H9 H10 H11 H12 H13 H14
    |rm q r S a b H1 H2 -> H4 H5 H6 H7 -> H9 H10 H11 H12 H13 H14 H15 H16 H17 H18|em H1 H2 H3 H4 H5 -> H7 H8 H9 H10
    |S a H1 H2 H3 H4 H5 -> H7 H8 H9 H10 H11 H12 H13 H14 H15|a j H1 Hq H2 H3 -> H5 H6 H7 H8 H9 H10 H11 H12
    |a z H1 Hq H2 -> H4 H5 H6 H7 H8 H9 H10|H1 Hq H2 H3 H4 H5 -> H7 H8]; try done.
  - injection H5 as <-. apply (ph_reply _ _ _ _ _ _ _ _ _ rm (q ++ got) r T' a b); try done.
    intros Hl. destruct (H16 Hl) as [Ha E]. split; [done|]. by rewrite keep_app, <-app_assoc.
  - injection H3 as <-. apply (ph_connected _ _ _ _ _ _ _ _ _ T' a); try done; by rewrite keep_app, <-app_assoc.
  - apply (ph_overlapped _ _ _ _ _ _ _ _ _ a j); try done. by rewrite keep_app, <-app_assoc.
  - by apply (ph_online _ _ _ _ _ _ _ _ _ a z).
  - by apply ph_wait.
Qed.

(** ** Requests *)
Lemma phase_done k c conn onq repq m l K R o : m_msgid m = ClientDone_meta_id →
  phase k c conn onq repq (m :: l) K R o → phase k c conn onq repq l K R None.
Proof.
  intros Hm Hph.
  destruct Hph as [H1 H2 H3 H4 H5 H6 H7 H8|rq name b H1 H2 H3 H4 H5 H6 H7 H8 H9 H10 H11 H12 H13 H14
    |rm q r S a b H1 H2 H3 H4 H5 H6 H7 H8 H9 H10 H11 H12 H13 H14 H15 H16 H17 H18|em H1 H2 H3 H4 H5 H6 H7 H8 H9 H10
    |S a H1 H2 H3 H4 H5 H6 H7 H8 H9 H10 H11 H12 H13 H14 H15|a j H1 Hq H2 H3 H4 H5 H6 H7 H8 H9 H10 H11 H12
    |a z H1 Hq H2 H3 H4 H5 H6 H7 H8 H9 H10|H1 Hq H2 H3 H4 H5 H6 H7 H8]; try done.
  - injection H4 as -> ->. by rewrite Hm in H11.
  - apply Forall_cons in Hq as [_ Hq]. apply (ph_overlapped _ _ _ _ _ _ _ _ _ a j); try done. destruct o as [T|]; [|done]. by eexists.
  - apply Forall_cons in Hq as [_ Hq]. by apply (ph_online _ _ _ _ _ _ _ _ _ a z).
  - apply Forall_cons in Hq as [_ Hq]. by apply ph_wait.
Qed.

Lemma phase_request_only k c conn onq repq m l K R o : phase k c conn onq repq (m :: l) K R o → m_msgid m ≠ ClientDone_meta_id →
  l = [] ∧ repq = [] ∧ o = None ∧ ∃ name b, st c = SOpening ∧ dl c = [] ∧ opened k c ∧ chan c ≠ Active ∧ conn = true ∧
    child_st c ≠ Opening ∧ request_st c ≠ Opening ∧ m_msgid m = Request_meta_id ∧
    parse_request Request_meta_id (m_data m) = Some (Ok (name, data_of k)) ∧ linked K R onq b ∧ server_seq c ≤ b ≤ Storage.last_seq K.
Proof.
  intros Hph Hm.
  destruct Hph as [H1 H2 H3 H4 H5 H6 H7 H8|rq name b H1 H2 H3 H4 H5 H6 H7 H8 H9 H10 H11 H12 H13 H14
    |rm q r S a b H1 H2 H3 H4 H5 H6 H7 H8 H9 H10 H11 H12 H13 H14 H15 H16 H17 H18|em H1 H2 H3 H4 H5 H6 H7 H8 H9 H10
    |S a H1 H2 H3 H4 H5 H6 H7 H8 H9 H10 H11 H12 H13 H14 H15|a j H1 Hq H2 H3 H4 H5 H6 H7 H8 H9 H10 H11 H12
    |a z H1 Hq H2 H3 H4 H5 H6 H7 H8 H9 H10|H1 Hq H2 H3 H4 H5 H6 H7 H8]; try done; try (apply Forall_cons in Hq as [Hq _]; done).
  injection H4 as -> ->. split; [done|]. split; [done|]. split; [done|]. exists name, b. destruct H14. by split_and!.
Qed.

Lemma last_ok K : Forall (λ m, i64_ok (m_seq m)) K → i64_ok (Storage.last_seq K).
Proof.
  intros HK. unfold Storage.last_seq. destruct (last K) as [m|] eqn:E; [|done]. rewrite Forall_forall in HK. by apply HK, last_Some_elem_of.
Qed.
Lemma first_ok K : Forall (λ m, i64_ok (m_seq m)) K → i64_ok (Storage.first_seq K).
Proof. intros HK. destruct K as [|m K]; [done|]. by apply Forall_cons in HK as [? _]. Qed.

Lemma first_last K : Storage.increasing K → K ≠ [] → 0 ≤ Storage.first_seq K ≤ Storage.last_seq K.
Proof.
  intros Hi Hne. destruct K as [|m K]; [done|]. split; [destruct Hi as [_ Hp]; by apply Forall_cons in Hp as [? _]|].
  apply (sorted_last (m :: K) m); [by apply Storage.sorted_increasing|left].
Qed.

(** The reply to the request of the client. *)
Lemma replied_new k K rp c s : Storage.increasing K → opened k c → Forall (λ m, i64_ok (m_seq m)) K →
  last_seq rp = Storage.last_seq K →
  match k with
  | KSeq s => requested_seq rp = i64 s
  | KInit => requested_seq rp = Storage.first_seq K
  | KLast => K ≠ [] ∧ requested_seq rp = Storage.last_seq K - 1
  end → s = Storage.from (requested_seq rp) K →
  ∃ a, replied k K a (default (requested_seq rp) (open_seq c)) (last_seq rp) ∧ i64_ok (requested_seq rp) ∧
    (default (requested_seq rp) (open_seq c) ≤ last_seq rp + 1 → a ≤ last_seq rp + 1 ∧ s = Storage.from a K).
Proof.
  intros HK [_ _ Ho _ _ _ _ Hrange] Hok Hl Hk ->. rewrite Ho, Hl. pose proof (Storage.last_seq_low K HK). destruct k as [s0| |].
  - assert (i64 s0 = s0) as Es by (apply wraps_id; cbn; lia). rewrite Es in Hk. cbn [default]. exists s0. split; [split; try done|].
    + by exists K.
    + rewrite Hk. split; [unfold i64_ok; lia|]. done.
  - cbn [default]. exists (-1). split; [split; try done|].
    + by exists K.
    + rewrite Hk. destruct K as [|m K]; [cbn; lia|]. pose proof (first_last (m :: K) HK ltac:(done)). lia.
    + rewrite Hk. split; [by apply first_ok|]. intros _. split; [lia|]. rewrite from_first, from_low by (done || lia). done.
  - destruct Hk as [Hne Hk]. cbn [default]. exists (Storage.last_seq K - 1). split; [split; try done|].
    + by exists K.
    + by exists K.
    + rewrite Hk. done.
    + rewrite Hk. pose proof (last_ok K Hok) as Hlok. destruct K as [|m K]; [done|]. pose proof (first_last (m :: K) HK Hne).
      split; [unfold i64_ok in *; lia|]. intros _. split; [lia|done].
Qed.

Lemma linked_mono K R onq b b' : linked K R onq b → b ≤ b' → linked K R onq b'.
Proof. intros (P & E & HP) Hb. exists P. split; [done|]. intros ER. eapply below_mono; [by apply HP|lia]. Qed.

Lemma last_elem l : Storage.last_seq l ≠ -1 → ∃ m, m ∈ l ∧ m_seq m = Storage.last_seq l.
Proof.
  unfold Storage.last_seq. destruct (last l) as [m|] eqn:E; [|done]. intros _. exists m. split; [by apply last_Some_elem_of|done].
Qed.
End StreamPhase.
