(* ===== verification/StreamSteps.v ===== *)
(** * Steps of the client of a stream

    What each handler of the client does to the phase of a run: the phase that
    follows, or the end of the client. *)
From Stdlib Require Import Sorted.
From S2P Require Import Prelude Mem Callback Channel Storage Queue Reopen Binder StreamScheme StreamClient StreamRing Stream StreamClientSpec StreamPhase.
Import Cb Chan Binder StreamScheme.

Module StreamSteps.
Import StreamClient Stream StreamRing StreamClientSpec StreamPhase.

(** The parts of a live client that do not depend on the phase. *)
Record client_ok (cap : Z) (c : client) (R : list msg) : Prop := {
  ok_chan : chan c ≠ Destroy;
  ok_count : count_ok c;
  ok_ring : holds (ring c) R;
  ok_cap : zlen (DataRing.bytes (ring c)) = cap ∧ 1 < zlen (VecRing.data (DataRing.index (ring c))) ∧ 0 < cap;
  ok_pending : st c ≠ SOverlapped → pending c = false;
}.

Lemma client_ok_same cap c c' R : chan c' = chan c → count c' = count c → ring c' = ring c → (st c' ≠ SOverlapped → pending c' = false) →
  client_ok cap c R → client_ok cap c' R.
Proof. intros E1 E2 E3 Hp [? ? ? ? ?]. split; unfold count_ok; rewrite ?E1, ?E2, ?E3; done. Qed.

Lemma client_ok_ring cap c r R R' : same_size (ring c) r → holds r R' → client_ok cap c R → client_ok cap (with_ring r c) R'.
Proof. intros [E1 E2] Hr [? ? ? ? ?]. split; try done. cbn. by rewrite E1, E2. Qed.

Lemma stopped_gone c : gone c = true → stopped c = true.
Proof. unfold gone, stopped. by destruct (chan c). Qed.
Lemma not_stopped c : stopped c = false → gone c = false.
Proof. unfold gone, stopped. by destruct (chan c). Qed.

Lemma dl_out c c' evs : out c' = out c ++ evs → dl c' = dl c ++ delivered evs.
Proof. unfold dl. intros ->. apply delivered_app. Qed.
Lemma dl_silent c c' evs : out c' = out c ++ evs → silent evs → dl c' = dl c.
Proof. intros Ho [Hd _]. by rewrite (dl_out _ _ _ Ho), Hd, app_nil_r. Qed.
Lemma dl_deliver m c : dl (log (Deliver m) c) = dl c ++ [Storage.kept m].
Proof. apply (dl_out _ _ [Deliver m]). done. Qed.

(** What the user has got is always the beginning of the history. *)
Lemma phase_promise k c conn onq repq reqq K R o : phase k c conn onq repq reqq K R o → promise k K (dl c).
Proof.
  intros Hph. destruct Hph as [H1 H2|rq name b H1 H2|rm q r S a b H1 H2|em H1 H2
    |S a H1 H2 H3 H4 H5 H6 H7 H8 H9|a j H1 Hq H2 H3 H4 H5 H6 H7 H8 H9|a z H1 Hq H2 H3 H4 H5 H6 H7 H8|H1 Hq H2 H3]; try by left.
  - right. exists a. split; [done|]. rewrite <-H9. by apply prefix_app_r.
  - right. exists a. split; [done|]. rewrite <-H9. by apply prefix_app_r.
  - right. exists a. split; [done|]. rewrite <-H8. by apply prefix_app_r.
Qed.

(** The phase depends on the fields of the protocol only. *)
Lemma phase_core k c c' conn onq repq reqq K R o : core c' = core c → dl c' = dl c → chan c' = chan c →
  (child_st c ≠ Opening → child_st c' ≠ Opening) → (request_st c ≠ Opening → request_st c' ≠ Opening) →
  phase k c conn onq repq reqq K R o → phase k c' conn onq repq reqq K R o.
Proof.
  intros [= E1 E2 E3 E4 E5 E6 E7 E8 E9 E10] Ed Ec Hs Hr Hph.
  assert (opened k c → opened k c') as Hop by (intros [? ? ? ? ? ? ? ?]; split; rewrite ?E1, ?E4, ?E6, ?E7, ?E8, ?E9; done).
  destruct Hph as [H1 H2 H3 H4 H5 H6 H7 H8|rq name b H1 H2 H3 H4 H5 H6 H7 H8 H9 H10 H11 H12 H13 H14
    |rm q r S a b H1 H2 H3 H4 H5 H6 H7 H8 H9 H10 H11 H12 H13 H14 H15 H16 H17 H18|em H1 H2 H3 H4 H5 H6 H7 H8 H9 H10
    |S a H1 H2 H3 H4 H5 H6 H7 H8 H9 H10 H11 H12 H13 H14 H15|a j H1 Hq H2 H3 H4 H5 H6 H7 H8 H9 H10 H11 H12
    |a z H1 Hq H2 H3 H4 H5 H6 H7 H8 H9 H10|H1 Hq H2 H3 H4 H5 H6 H7 H8].
  - apply ph_idle; rewrite ?E3, ?Ed, ?Ec, ?E5; auto. destruct conn; [destruct H8 as [? ?]|destruct H8 as (? & ? & ? & ?)]; auto.
  - apply (ph_request _ _ _ _ _ _ _ _ _ rq name b); rewrite ?E3, ?Ed, ?Ec, ?E5; auto.
  - apply (ph_reply _ _ _ _ _ _ _ _ _ rm q r S a b); rewrite ?E3, ?Ed, ?Ec, ?E5, ?E7; auto.
  - apply (ph_refused _ _ _ _ _ _ _ _ _ em); rewrite ?E3, ?Ed, ?Ec; auto.
  - apply (ph_connected _ _ _ _ _ _ _ _ _ S a); rewrite ?E3, ?E4, ?E5, ?E6, ?Ed; auto.
  - apply (ph_overlapped _ _ _ _ _ _ _ _ _ a j); rewrite ?E2, ?E3, ?E4, ?Ed; auto.
  - apply (ph_online _ _ _ _ _ _ _ _ _ a z); rewrite ?E3, ?E4, ?Ed; auto.
  - apply ph_wait; rewrite ?E3, ?E4, ?Ed; auto.
Qed.

(** ** Outcomes of a handler *)
Definition outcome (k : kind) (cap : Z) (K : list msg) (conn : bool) (onq repq reqq : list msg) (o : option (list msg)) (c c' : client) : Prop :=
  ∃ evs, out c' = out c ++ evs ∧ Forall req_ok (posts evs) ∧ promise k K (dl c') ∧
    (stopped c' = false → ∃ R, client_ok cap c' R ∧ phase k c' conn onq repq (reqq ++ posts evs) K R o).

Section Steps.
Context (closes : event → bool).
Abbreviation E := (reliable closes).
Context (k : kind) (cap : Z) (K : list msg) (conn : bool) (onq repq reqq : list msg) (o : option (list msg)).
Abbreviation outcome_of := (outcome k cap K conn onq repq reqq o).

Lemma outcome_phase c c' evs R : out c' = out c ++ evs → Forall req_ok (posts evs) → client_ok cap c' R →
  phase k c' conn onq repq (reqq ++ posts evs) K R o → outcome_of c c'.
Proof. intros Ho Hq Hok Hph. exists evs. split; [done|]. split; [done|]. split; [by eapply phase_promise|]. intros _. by exists R. Qed.

(** Nothing but silent events. *)
Lemma outcome_silent c c' evs R : out c' = out c ++ evs → silent evs → client_ok cap c' R →
  phase k c' conn onq repq reqq K R o → outcome_of c c'.
Proof. intros Ho [Hd Hp] Hok Hph. eapply outcome_phase; [done|by rewrite Hp|done|]. by rewrite Hp, app_nil_r. Qed.

Lemma outcome_stopped c c' evs : out c' = out c ++ evs → Forall req_ok (posts evs) → promise k K (dl c') → stopped c' = true → outcome_of c c'.
Proof. intros Ho Hq Hp Hs. exists evs. split; [done|]. split; [done|]. split; [done|]. by rewrite Hs. Qed.

(** The client fails. *)
Lemma outcome_error c c1 evs : out c1 = out c ++ evs → Forall req_ok (posts evs) → promise k K (dl c1) →
  gone c1 = false → chan c1 ≠ Destroy → count_ok c1 → outcome_of c (set_state E Error c1).
Proof.
  intros Ho Hq Hp Hg Hd Hn. destruct (client_state_spec closes Error c1 Hg Hd Hn) as (e & He & Hs & Hr); [by left|].
  eapply (outcome_stopped _ _ (evs ++ e)).
  - by rewrite He, Ho, app_assoc.
  - rewrite posts_app, (proj2 Hs), app_nil_r. done.
  - by rewrite (dl_silent _ _ _ He Hs).
  - destruct Hr as [[Hr _]|(_ & Hr & _)]; [by apply stopped_gone|]. unfold stopped. by rewrite Hr.
Qed.

(** A callback at the end of a handler. *)
Lemma outcome_emit e c c1 evs R : out c1 = out c ++ evs → Forall req_ok (posts (evs ++ [e])) → gone c1 = false →
  client_ok cap (log e c1) R → phase k (log e c1) conn onq repq (reqq ++ posts (evs ++ [e])) K R o →
  outcome_of c (emit E e c1).
Proof.
  intros Ho Hq Hg Hok Hph. destruct (emit_spec closes e c1 Hg) as [->|(e' & He & Hs & Hg' & _)]; [apply Hok|apply Hok| |].
  - eapply (outcome_phase _ _ (evs ++ [e])); [cbn; by rewrite Ho, app_assoc|done..].
  - eapply (outcome_stopped _ _ ((evs ++ [e]) ++ e')).
    + by rewrite He, Ho, <-!app_assoc.
    + by rewrite posts_app, (proj2 Hs), app_nil_r.
    + assert (dl (emit E e c1) = dl (log e c1)) as ->; [|by eapply phase_promise].
      apply (dl_silent _ _ e'); [|done]. rewrite He. cbn. by rewrite <-app_assoc.
    + by apply stopped_gone.
Qed.
(** A callback and what the handler does after it. *)
Lemma outcome_emit_then f e c c1 evs : out c1 = out c ++ evs → Forall req_ok (posts (evs ++ [e])) → gone c1 = false → chan c1 ≠ Destroy →
  count_ok c1 → promise k K (dl (log e c1)) →
  (∀ c2, gone c2 = true → gone (f c2) = true ∧ ∃ e', out (f c2) = out c2 ++ e' ∧ silent e') →
  outcome_of c (f (log e c1)) → outcome_of c (f (emit E e c1)).
Proof.
  intros Ho Hq Hg Hd Hn Hp Hf Hlog. destruct (emit_spec closes e c1 Hg Hd Hn) as [->|(e1 & He & Hs & Hg' & _)]; [done|].
  destruct (Hf _ Hg') as (Hg2 & e2 & He2 & Hs2). apply (outcome_stopped _ _ ((evs ++ [e]) ++ e1 ++ e2)).
  - rewrite He2, He, Ho, <-!app_assoc. done.
  - by rewrite !posts_app, (proj2 Hs), (proj2 Hs2), !app_nil_r, <-posts_app.
  - assert (dl (f (emit E e c1)) = dl (log e c1)) as ->; [|done]. apply (dl_silent _ _ (e1 ++ e2)); [|by apply silent_app].
    rewrite He2, He. cbn. by rewrite <-!app_assoc.
  - by apply stopped_gone.
Qed.

Lemma client_ok_core c c' R : core c' = core c → chan c' ≠ Destroy → count_ok c' → client_ok cap c R → client_ok cap c' R.
Proof. intros [= E1 E2 E3 E4 E5 E6 E7 E8 E9 E10] Hc Hn [? ? ? ? ?]. split; rewrite ?E2, ?E3, ?E10; done. Qed.

Lemma running c R : stopped c = false → client_ok cap c R → chan c = Opening ∨ chan c = Active.
Proof. intros Hs [Hd _ _ _ _]. unfold stopped in Hs. destruct (chan c); auto; done. Qed.

End Steps.

#[local] Arguments outcome_phase {_ _ _ _ _ _ _ _} _ _ _ {_}.
#[local] Arguments outcome_silent {_ _ _ _ _ _ _ _} _ _ _ {_}.
#[local] Arguments outcome_stopped {_ _ _ _ _ _ _ _} _ _ _.
#[local] Arguments outcome_error {_ _ _ _ _ _ _ _ _} _ _ _.
#[local] Arguments outcome_emit_then {_ _ _ _ _ _ _ _ _} _ _ _ _.
#[local] Arguments outcome_emit {_ _ _ _ _ _ _ _ _} _ _ _ _ {_}.

Section Handlers.
Context (closes : event → bool) (k : kind) (cap : Z).
Abbreviation E := (reliable closes).

(** ** States of the two channels *)
Lemma child_state_step K conn onq repq reqq o s c R : stopped c = false → client_ok cap c R → phase k c conn onq repq reqq K R o →
  s = Error ∨ s = Closing ∨ s = Closed → outcome k cap K conn onq repq reqq o c (on_child_state E s c).
Proof.
  intros Hs Hok Hph Hst. pose proof (phase_promise _ _ _ _ _ _ _ _ _ Hph) as Hp. pose proof (not_stopped c Hs) as Hg.
  destruct Hst as [->|[->| ->]]; cbn [on_child_state].
  - apply (outcome_error _ _ []); try done; [by rewrite app_nil_r|apply Hok|apply Hok].
  - unfold _on_closing. set (c1 := with_subs Closing (request_st c) c).
    assert (∃ evs r, (match request_st c1 with Opening | Active | Error => request_close false c1 | _ => c1 end) = with_out (out c ++ evs) (with_subs Closing r c) ∧ silent evs)
      as (evs & r & -> & Hsil).
    { destruct (request_close_spec false c1) as (evs & r & Hr & Hsil & _). rewrite Hr.
      destruct (request_st c1) eqn:Er; try (exists evs, r; split; [done|done]);
        (exists [], (request_st c); rewrite app_nil_r; split; [unfold c1; by destruct c|done]). }
    assert (∃ c', (match chan (with_out (out c ++ evs) (with_subs Closing r c)) with
      | Opening | Active => set_state E Closing (with_out (out c ++ evs) (with_subs Closing r c)) | _ => with_out (out c ++ evs) (with_subs Closing r c) end) = log (Changed Closing) c' ∧
      out c' = out c ++ evs ∧ chan c' = Closing) as (c' & -> & Ho & Hc').
    { cbn [chan with_out with_subs]. unfold set_state. destruct (running cap c R Hs Hok) as [Hc|Hc]; rewrite Hc; cbn [chan with_out with_subs]; rewrite Hc;
        (rewrite bool_decide_false by done); (rewrite emit_gone by done); by eexists. }
    eapply (outcome_stopped _ _ (evs ++ [Changed Closing])).
    + cbn. by rewrite Ho, app_assoc.
    + by rewrite posts_app, (proj2 Hsil).
    + assert (dl (log (Changed Closing) c') = dl c) as ->; [|done]. eapply dl_silent; [cbn; by rewrite Ho, <-app_assoc|by apply silent_app].
    + unfold stopped. cbn. by rewrite Hc'.
  - unfold _on_closed. rewrite bool_decide_false; [|destruct (running cap c R Hs Hok) as [Hc|Hc]; cbn; by rewrite Hc].
    eapply (outcome_silent _ _ []); [by rewrite app_nil_r|done|eapply client_ok_core; [..|exact Hok]; try done; apply Hok|].
    by eapply phase_core; [..|exact Hph].
Qed.

(** The request channel fails or is closed. *)
Lemma req_state_step K conn onq repq reqq o s c R : stopped c = false → client_ok cap c R → phase k c conn onq repq reqq K R o →
  s = Error ∨ s = Closing ∨ s = Closed → outcome k cap K conn onq repq reqq o c (on_request_state E s c).
Proof.
  intros Hs Hok Hph Hst. pose proof (phase_promise _ _ _ _ _ _ _ _ _ Hph) as Hp. pose proof (not_stopped c Hs) as Hg.
  assert (outcome k cap K conn onq repq reqq o c (set_state E Error (with_subs (child_st c) s c))) as Herr.
  { apply (outcome_error _ _ []); try done; [by rewrite app_nil_r|apply Hok|apply Hok]. }
  assert (outcome k cap K conn onq repq reqq o c (with_subs (child_st c) s c)) as Hsame.
  { eapply (outcome_silent _ _ []); [by rewrite app_nil_r|done|eapply client_ok_core; [..|exact Hok]; try done; apply Hok|].
    eapply phase_core; [..|exact Hph]; try done. by destruct Hst as [->|[->| ->]]. }
  destruct Hst as [->|[->| ->]]; cbn [on_request_state]; unfold _on_request_error, _on_request_closed; cbn [st with_subs]; [| |]; by destruct (st c).
Qed.

(** The request is sent. *)
Lemma req_active_step K conn onq repq reqq o c R : stopped c = false → client_ok cap c R → phase k c conn onq repq reqq K R o → request_st c = Opening →
  outcome k cap K conn onq repq reqq o c (on_request_state E Active c).
Proof.
  intros Hs Hok Hph Hr. destruct Hph as [H1 H2 -> -> -> H6 H7 H8|?|?|?|?|?|?|?]; try done.
  destruct conn; [|by destruct H8 as (_ & _ & ? & _)]. destruct H8 as (Hc & b & Hb & Hv). destruct (op_req _ _ H6) as [name Hreq].
  cbn [on_request_state _on_request_active]. unfold _on_request_active. cbn [post_fails reliable fst cf with_subs]. rewrite (op_old _ _ H6).
  eapply (outcome_phase _ _ [ReqPost _]); [reflexivity| |..].
  - constructor; [|constructor]. split; [done|]. right. cbn [m_msgid m_data request_buf with_subs]. by rewrite Hreq.
  - destruct Hok as [? ? ? ? Hp]. split; try done. intros _. apply Hp. by rewrite H1.
  - eapply (ph_request _ _ _ _ _ _ _ _ _ _ name b); try done.
    + erewrite (dl_out c); [|reflexivity]. by rewrite H2.
    + by destruct H6.
Qed.
(** The client is connected; the number it is told, if any, is the last one of the log. *)
Lemma connect_step K conn onq repq reqq o v c R : stopped c = false → client_ok cap c R → phase k c conn onq repq reqq K R o →
  Storage.increasing K → child_st c = Opening → v = -1 ∨ v = Storage.last_seq K →
  outcome k cap K true [] repq reqq o c (on_child_state E Active (with_info (Some v) c)).
Proof.
  intros Hs Hok Hph HK Hch Hv. pose proof (Storage.last_seq_low K HK) as Hlow.
  destruct Hph as [H1 H2 -> -> -> H6 H7 H8|?|?|?|?|?|?|?]; try done. destruct conn; [by destruct H8|]. destruct H8 as (-> & -> & Hr & Hsv).
  cbn [on_child_state]. unfold _on_active. cbn [request_buf with_info with_subs info_seq]. pose proof (op_buf _ _ H6) as Hbuf.
  destruct (request_buf c) as [|x l] eqn:Eb; [done|]. cbn [request_open reliable]. rewrite Z.eqb_refl.
  set (c1 := if 0 <=? v then _ else _).
  assert (core c1 = core (with_server (server_seq c1) (block_end c) c) ∧ chan c1 = chan c ∧ count c1 = count c ∧ out c1 = out c ∧ child_st c1 = Active ∧
    server_seq c1 ≤ Storage.last_seq K) as (Hc1 & Hch1 & Hn1 & Ho1 & Hcs & Hsv1) by (unfold c1; destruct (0 <=? v); cbn; split_and!; try done; lia).
  injection Hc1 as E1 E2 E3 E4 E6 E7 E8 E9 E10. clearbody c1.
  apply outcome_silent with (evs := [ReqOpen]) (R := []); [cbn; by rewrite Ho1|done|..].
  - destruct Hok as [O1 O2 O3 O4 O5]. split; unfold count_ok; cbn; rewrite ?Hch1, ?Hn1, ?E2, ?E3, ?E10; done.
  - apply ph_idle; cbn; rewrite ?Hch1, ?E3; try done.
    + transitivity (dl c); [|done]. apply (dl_silent c (log ReqOpen (with_subs (child_st c1) Opening c1)) [ReqOpen]); [cbn; by rewrite Ho1|done].
    + destruct H6. split; cbn; rewrite ?E1, ?E4, ?E6, ?E7, ?E8, ?E9; done.
    + rewrite Hcs. split; [done|]. exists (Storage.last_seq K). split; [|lia]. exists K. split; [by rewrite app_nil_r|].
      intros _. apply below_last; [by apply Storage.sorted_increasing|lia].
Qed.

(** ** Online messages *)
Lemma fits_roomy c R m : client_ok cap c R → fits cap m → roomy (ring c) (zlen (m_data m)) ∧
  (DataRing.data_capacity (ring c) / 2 <? frame_size + zlen (m_data m)) = false.
Proof.
  intros [_ _ _ (Hc & Hi & Hp) _] [_ Hf]. unfold roomy, DataRing.data_capacity. rewrite Hc.
  pose proof (Z.div_le_upper_bound cap 2 cap ltac:(lia) ltac:(lia)). split; [split; [done|lia]|apply Z.ltb_ge; lia].
Qed.

Lemma linked_push K R onq b m n : linked K R (m :: onq) b → linked K (drop n R ++ [m]) onq b.
Proof.
  intros (P & -> & _). exists (P ++ keep (take n R)). split; [|by intros [_ ?]%app_nil].
  change (keep (m :: onq)) with (keep [m] ++ keep onq). rewrite <-(take_drop n R) at 1. by rewrite !keep_app, <-!app_assoc.
Qed.

(** The phase when a message goes to the ring. *)
Lemma phase_push K conn onq repq reqq o c R m n r : phase k c conn (m :: onq) repq reqq K R o →
  st c = SClosed ∨ st c = SOpening ∨ st c = SConnected ∨ st c = SOverlapped →
  (st c = SOverlapped → n = 0%nat) →
  phase k (with_ring r c) conn onq repq reqq K (drop n R ++ [m]) o.
Proof.
  intros Hph Hst Hcalm.
  destruct Hph as [H1 H2 H3 H4 H5 H6 H7 H8|rq name b H1 H2 H3 H4 H5 H6 H7 H8 H9 H10 H11 H12 H13 H14
    |rm q rp S a b H1 H2 H3 H4 H5 H6 H7 H8 H9 H10 H11 H12 H13 H14 H15 H16 H17 H18|em H1 H2 H3 H4 H5 H6 H7 H8 H9 H10
    |S a H1 H2 H3 H4 H5 H6 H7 H8 H9 H10 H11 H12 H13 H14 H15|a j H1 Hq H2 H3 H4 H5 H6 H7 H8 H9 H10 H11 H12
    |a z H1 Hq H2 H3 H4 H5 H6 H7 H8 H9 H10|H1 Hq H2 H3 H4 H5 H6 H7 H8].
  - apply ph_idle; try done; [by destruct H6|]. destruct conn; [|by destruct H8 as (_ & ? & _)].
    destruct H8 as (Hc & b & Hb & Hr). split; [done|]. exists b. split; [by apply linked_push|done].
  - apply (ph_request _ _ _ _ _ _ _ _ _ rq name b); try done; [by destruct H6|by apply linked_push].
  - apply (ph_reply _ _ _ _ _ _ _ _ _ rm q rp S a b); try done; [by destruct H6|by apply linked_push].
  - by apply (ph_refused _ _ _ _ _ _ _ _ _ em).
  - apply (ph_connected _ _ _ _ _ _ _ _ _ S a); try done; [by apply linked_push|by intros [_ ?]%app_nil].
  - rewrite (Hcalm H1). apply (ph_overlapped _ _ _ _ _ _ _ _ _ a j); try done. destruct H10 as (P & -> & HP). exists P.
    split; [|done]. rewrite drop_0, keep_app, <-!app_assoc. done.
  - exfalso. destruct H1 as [[H1 _]|H1]; rewrite H1 in Hst; naive_solver.
  - exfalso. rewrite H1 in Hst; naive_solver.
Qed.
(** The next message of the log. *)
Lemma log_next K P l z m : Storage.sorted K → K = P ++ keep (m :: l) → Storage.below (z + 1) P → z < m_seq m →
  Storage.from (z + 1) K = Storage.kept m :: Storage.from (m_seq m + 1) K ∧ Storage.below (m_seq m + 1) (P ++ [Storage.kept m]) ∧
  m_seq m ≤ Storage.last_seq K.
Proof.
  intros HK E0 HP Hm.
  assert (Storage.from (z + 1) K = Storage.kept m :: keep l) as E1.
  { rewrite E0, Storage.from_below by done. apply Storage.from_all; [|cbn; lia]. rewrite E0 in HK. by eapply sorted_tail. }
  split; [rewrite E1; f_equal; exact (from_cons_tail _ _ _ _ HK E1)|]. split.
  - apply Forall_app. split; [eapply below_mono; [exact HP|lia]|]. constructor; [cbn; lia|constructor].
  - apply (sorted_last K (Storage.kept m) HK). rewrite E0. apply elem_of_app. right. left.
Qed.

Lemma below_snoc z P m : Storage.below (z + 1) P → m_seq m ≤ z → Storage.below (z + 1) (P ++ [Storage.kept m]).
Proof. intros HP Hm. apply Forall_app. split; [done|]. constructor; [cbn; lia|constructor]. Qed.

Lemma keep_cons m l : keep (m :: l) = [Storage.kept m] ++ keep l.
Proof. done. Qed.

(** A message that is delivered on the online channel. *)
Lemma phase_deliver K conn onq repq reqq o c c' R m : Storage.increasing K → phase k c conn (m :: onq) repq reqq K R o →
  st c = SDrain ∨ st c = SOnline → seq c < m_seq m → st c' = SOnline → dl c' = dl c ++ [Storage.kept m] →
  seq c ≤ seq c' ≤ m_seq m → child_st c' = child_st c → request_st c' = request_st c →
  phase k c' conn onq repq reqq K R o.
Proof.
  intros HK Hph Hst Hm Hst' Hd Hseq Ech Erq. pose proof (Storage.sorted_increasing _ HK) as Hs.
  destruct Hph as [H1|rq name b H1|rm q rp S a b H1|em H1|S a H1|a j H1|a z H1 Hq H2 H3 H4 H5 H6 H7 H8 (P & E0 & HP) H10|H1];
    try (exfalso; rewrite H1 in Hst; naive_solver).
  apply Forall_cons in H10 as [Hz H10]. specialize (Hz Hm). destruct (log_next K P onq z m Hs E0 HP Hz) as (En & Hb & Hl).
  rewrite <-Ech in H4. rewrite <-Erq in H5.
  apply (ph_online _ _ _ _ _ _ _ _ _ a (m_seq m)); try done; [by right|lia| |..].
  - rewrite Hd, <-app_assoc, <-H8, En. done.
  - exists (P ++ [Storage.kept m]). split; [|done]. by rewrite E0, keep_cons, <-app_assoc.
  - apply Forall_forall. intros x Hx _. rewrite E0, keep_cons, app_assoc in Hs. apply Storage.sorted_app in Hs as [_ Hs].
    apply (Hs (Storage.kept m) (Storage.kept x)); [apply elem_of_app; right; by left|]. by apply list_elem_of_fmap_2.
Qed.

Lemma online_step K conn onq repq reqq o c R m : stopped c = false → client_ok cap c R → phase k c conn (m :: onq) repq reqq K R o →
  Storage.increasing K → fits cap m →
  (st c = SOverlapped → ∃ r, DataRing.push_back frame_size (ring c) (frame_bytes (u32 (zlen (m_data m))) (m_msgid m) (m_seq m)) (m_data m) = Some (Some r)) →
  ∃ c', on_data E m c = Some c' ∧ outcome k cap K conn onq repq reqq o c c'.
Proof.
  intros Hs Hok Hph HK Hfit Hcalm. pose proof (not_stopped c Hs) as Hg. pose proof (phase_promise _ _ _ _ _ _ _ _ _ Hph) as Hp.
  destruct (fits_roomy c R m Hok Hfit) as [Hroom Hcap].
  assert (st c = SClosed ∨ st c = SOpening ∨ st c = SConnected ∨ st c = SOverlapped →
    ∃ c', on_data E m c = Some c' ∧ outcome k cap K conn onq repq reqq o c c') as Hring.
  { intros Hst. destruct (ring_push_spec m R (ring_fuel (ring c)) (ring c)) as (n & r & Er & Hr & Hsz & Hn);
      [apply Hok|apply Hfit|done|eapply holds_fuel, Hok|].
    exists (with_ring r c). split.
    - unfold on_data, _on_data. destruct Hst as [->|[->|[->| ->]]]; rewrite Hcap, Er; done.
    - apply outcome_silent with (evs := []) (R := drop n R ++ [m]); [by rewrite app_nil_r|done| |].
      + by eapply client_ok_ring.
      + apply phase_push; [done|done|]. intros Ho. by apply Hn, Hcalm. }
  assert (∀ c1, gone c1 = false → client_ok cap (log (Deliver m) c1) R → out c1 = out c → phase k (log (Deliver m) c1) conn onq repq reqq K R o →
    outcome k cap K conn onq repq reqq o c (emit E (Deliver m) c1)) as Hdel.
  { intros c1 Hg1 Hok1 Ho1 Hph1. apply outcome_emit with (evs := []) (R := R); [by rewrite Ho1, app_nil_r|constructor|done|done|].
    change (posts ([] ++ [Deliver m])) with (@nil msg). by rewrite app_nil_r. }
  destruct (st c) eqn:Est; try (apply Hring; by auto); unfold on_data, _on_data; rewrite Est.
  - (* Drain *)
    destruct (Z.leb_spec (m_seq m) (seq c)) as [Hle|Hlt]; cbn [mbind option_bind]; rewrite Z.eqb_refl; (eexists; split; [reflexivity|]).
    + apply outcome_silent with (evs := []) (R := R); [by rewrite app_nil_r|done|done|].
      destruct Hph as [H1|rq name b H1|rm q rp S a b H1|em H1|S a H1|a j H1|a z H1 Hq H2 H3 H4 H5 H6 H7 H8 (P & E0 & HP) H10|H1]; try congruence.
      apply Forall_cons in H10 as [_ H10]. apply (ph_online _ _ _ _ _ _ _ _ _ a z); try done.
      exists (P ++ [Storage.kept m]). split; [by rewrite E0, keep_cons, <-app_assoc|]. apply below_snoc; [done|lia].
    + apply Hdel; try done.
      * destruct Hok as [O1 O2 O3 O4 O5]. split; try done. intros _. apply O5. congruence.
      * eapply phase_deliver; [done|exact Hph|by left|done|done| |cbn; lia|done|done]. apply (dl_deliver m (with_st SOnline c)).
  - (* WaitOnline *)
    eexists. split; [reflexivity|].
    destruct Hph as [H1|rq name b H1|rm q rp S a b H1|em H1|S a H1|a j H1|a z [[H1 _]|H1]|H1 Hq -> H3 H4 E0 -> H7 H8]; try congruence.
    pose proof (Storage.sorted_increasing _ HK) as Hsort.
    destruct (log_next K [] onq (-1) m Hsort E0) as (En & Hb & Hl); [constructor| |].
    { destruct HK as [_ HK]. rewrite E0, keep_cons in HK. apply Forall_app in HK as [HK _]. apply Forall_cons in HK as [HK _]. cbn in HK. lia. }
    rewrite (from_low (-1 + 1)) in En by (done || lia).
    set (c1 := with_reopen _ _). assert (dl (log (Deliver m) c1) = [Storage.kept m]) as Ed.
    { rewrite dl_deliver. change (dl c1) with (dl c). by rewrite H3. }
    apply outcome_emit_then with (evs := []); [by rewrite app_nil_r|constructor|done|apply Hok|apply Hok| | |].
    + right. exists (-1). split; [done|]. rewrite Ed, from_low by (done || lia). rewrite E0. by exists (keep onq).
    + intros c2 Hc2. by apply report_online_gone.
    + unfold _report_online. cbn [st log with_out c1 with_reopen with_seq]. rewrite Est.
      apply outcome_emit with (evs := [Deliver m]) (R := R); [done|constructor|done| |].
      * destruct Hok as [O1 O2 O3 O4 O5]. split; try done. intros _. apply O5. congruence.
      * rewrite app_nil_r. apply (ph_online _ _ _ _ _ _ _ _ _ (-1) (m_seq m)); try done; [by right|pose proof (Storage.last_seq_low K HK); lia| |by exists ([] ++ [Storage.kept m])|].
        -- rewrite (from_low (-1)) by (done || lia).
           transitivity (dl (log (Deliver m) c1) ++ Storage.from (m_seq m + 1) K); [|by rewrite Ed].
           f_equal. apply (dl_silent _ _ [Control Online_meta_id (m_seq m) []]); done.
        -- apply Forall_forall. intros x _. cbn. lia.
  - (* Online *)
    destruct (Z.leb_spec (m_seq m) (seq c)) as [Hle|Hlt]; cbn [mbind option_bind].
    + change (EINVAL =? 0) with false. eexists. split; [reflexivity|]. apply outcome_error with (evs := []); [by rewrite app_nil_r|constructor|done|done|apply Hok|apply Hok].
    + rewrite Z.eqb_refl. eexists. split; [reflexivity|]. apply Hdel; try done.
      * destruct Hok as [O1 O2 O3 O4 O5]. split; try done.
      * eapply phase_deliver; [done|exact Hph|by right|done|done| |cbn; lia|done|done]. apply (dl_deliver m (with_seq (m_seq m) c)).
Qed.
(** ** The ring is played back *)
Lemma outcome_same K onq repq c R : client_ok cap c R → ∀ conn reqq o, phase k c conn onq repq reqq K R o → outcome k cap K conn onq repq reqq o c c.
Proof. intros Hok conn reqq o Hph. apply outcome_silent with (evs := []) (R := R); [by rewrite app_nil_r|done..]. Qed.

Lemma process_step K conn onq repq reqq o c R : stopped c = false → client_ok cap c R → phase k c conn onq repq reqq K R o →
  Storage.increasing K → ∃ c' r, process E c = Some (c', r) ∧ outcome k cap K conn onq repq reqq o c c'.
Proof.
  intros Hs Hok Hph HK. pose proof (not_stopped c Hs) as Hg. unfold process. destruct (pending c) eqn:Ep; cbn [negb]; [|eexists _, _; split; [reflexivity|by eapply outcome_same]].
  assert (st c = SOverlapped) as Est by (destruct (decide (st c = SOverlapped)) as [|Hn]; [done|]; rewrite (ok_pending _ _ _ Hok Hn) in Ep; done).
  assert ((match chan c with Error | Closed => Some (c, 0) | _ => _process E c end) = _process E c) as ->.
  { destruct (running cap c R Hs Hok) as [Hc|Hc]; by rewrite Hc. }
  unfold _process. rewrite (bool_decide_true _ Est). cbn [negb orb]. rewrite (holds_nil _ _ (ok_ring _ _ _ Hok)).
  pose proof (Storage.sorted_increasing _ HK) as Hsort. pose proof Hok as [O1 O2 O3 O4 O5].
  destruct Hph as [H1|rq name b H1|rm q rp S a b H1|em H1|S a H1|a j H1 Hq H2 H3 -> H5 H6 H7 H8 H9 (P & E0 & HP) H11 H12|a z [[H1 _]|H1]|H1]; try congruence.
  destruct R as [|m R].
  - rewrite bool_decide_true by done. eexists _, _. split; [reflexivity|]. unfold _report_online. rewrite Est.
    assert (dl (log (Control Online_meta_id (seq c) []) (with_st SOnline c)) = dl c) as Ed.
    { by apply (dl_silent _ _ [Control Online_meta_id (seq c) []]). }
    apply outcome_emit_then with (f := with_pending false) (evs := []); [by rewrite app_nil_r|constructor|done..| | |].
    + cbn [seq with_st]. rewrite Ed. right. exists a. split; [done|]. rewrite <-H9. by apply prefix_app_r.
    + intros c2 Hc2. split; [done|]. exists []. by rewrite app_nil_r.
    + apply outcome_silent with (evs := [Control Online_meta_id (seq c) []]) (R := []); [done|done|by split|].
      apply (ph_online _ _ _ _ _ _ _ _ _ a (seq c)); try done; [by right| |by exists P|].
      * rewrite <-H9, <-Ed. done.
      * apply Forall_forall. by intros x _.
  - rewrite bool_decide_false by done. rewrite (peek_front _ _ _ O3). cbn [mbind option_bind seq with_ring]. change (m_seq (Storage.kept m)) with (m_seq m).
    pose proof (client_ok_ring cap c _ _ _ (pop_size (ring c)) (holds_pop _ _ _ O3) Hok) as Hok'.
    assert (K = (P ++ [Storage.kept m]) ++ keep R ++ keep onq) as HP1 by (rewrite E0, keep_cons; by rewrite <-!app_assoc).
    destruct (Z.leb_spec (m_seq m) (seq c)) as [Hle|Hlt]; (eexists _, _; split; [reflexivity|]).
    + apply outcome_silent with (evs := []) (R := R); [by rewrite app_nil_r|done|done|].
      apply (ph_overlapped _ _ _ _ _ _ _ _ _ a j); try done. exists (P ++ [Storage.kept m]). split; [done|]. by apply below_snoc.
    + set (c1 := with_seq _ _). assert (K = P ++ keep (m :: R ++ onq)) as E1 by (change (m :: R ++ onq) with ((m :: R) ++ onq); by rewrite keep_app).
      destruct (log_next K P _ (seq c) m Hsort E1 HP Hlt) as (En & Hb & Hl).
      apply outcome_emit with (evs := []) (R := R); [by rewrite app_nil_r|constructor|done|by eapply client_ok_same; [..|exact Hok']|].
      change (posts ([] ++ [Deliver (Storage.kept m)])) with (@nil msg). rewrite app_nil_r.
      apply (ph_overlapped _ _ _ _ _ _ _ _ _ a j); try done; [|by exists (P ++ [Storage.kept m])|cbn; lia].
      rewrite dl_deliver, kept_kept. change (dl c1) with (dl c). change (seq _) with (m_seq m). by rewrite <-H9, En, <-app_assoc.
Qed.
(** ** The request channel *)
Lemma set_active c c0 evs0 : gone c = false → chan c = Opening → count_ok c → out c = out c0 ++ evs0 → silent evs0 →
  ∃ evs, out (set_state E Active c) = out c0 ++ evs ∧ silent evs ∧
    (gone (set_state E Active c) = true ∧ changed (count c) 1 (set_state E Active c) = true ∨
     core (set_state E Active c) = core c ∧ chan (set_state E Active c) = Active ∧ count_ok (set_state E Active c) ∧
     child_st (set_state E Active c) = child_st c ∧ request_st (set_state E Active c) = request_st c ∧
     changed (count c) 1 (set_state E Active c) = false).
Proof.
  intros Hg Hc Hn Ho Hs0. destruct (client_state_spec closes Active c Hg) as (evs & He & Hs & Hr); [by rewrite Hc|done|by auto|].
  exists (evs0 ++ evs). split; [by rewrite He, Ho, app_assoc|]. split; [by apply silent_app|]. unfold changed.
  destruct (u32_next _ Hn) as [_ Hu]. destruct (u32_next _ Hu) as [Hu1 _].
  destruct Hr as [[H1 H2]|(H1 & H2 & H3 & H4 & H5 & H6)]; [left|right].
  - split; [done|]. rewrite H2. by rewrite (proj2 (Z.eqb_neq _ _)) by done.
  - rewrite H6 by (by rewrite Hc). rewrite Z.eqb_refl. by split_and!.
Qed.

(** A handler after which the request channel is closed. *)
Lemma outcome_close K conn onq repq reqq o c c1 : outcome k cap K conn onq repq reqq o c c1 →
  outcome k cap K conn onq repq reqq o c (request_close false c1).
Proof.
  intros (evs & Ho & Hq & Hp & Hal). destruct (request_close_spec false c1) as (e & r & -> & Hs & Hr).
  assert (dl (with_out (out c1 ++ e) (with_subs (child_st c1) r c1)) = dl c1) as Ed by (by eapply dl_silent).
  exists (evs ++ e). split; [cbn; by rewrite Ho, app_assoc|]. rewrite posts_app, (proj2 Hs), app_nil_r. split; [done|].
  split; [by rewrite Ed|]. intros Hst. destruct (Hal Hst) as (R & Hok & Hph). exists R. split; [by eapply client_ok_same; [..|exact Hok]; try done; apply Hok|].
  by eapply phase_core; [..|exact Hph].
Qed.

Lemma gone_close c : gone c = true → gone (request_close false c) = true ∧ ∃ e, out (request_close false c) = out c ++ e ∧ silent e.
Proof. intros Hg. destruct (request_close_spec false c) as (e & r & -> & Hs & _). split; [done|by exists e]. Qed.

(** What the client does with the numbers of the reply. *)
Lemma reply_done_step K onq repq c c3 R S a ls q evs : Storage.increasing K →
  out c3 = out c ++ evs → silent evs → dl c = [] → chan c3 = Active → client_ok cap c3 R → st c3 = SConnected → seq c3 = -1 →
  server_seq c3 = ls → block_end c3 = -1 → open_seq c3 = Some q → initial_open c3 = match k with KInit => true | _ => false end →
  child_st c3 ≠ Opening → request_st c3 ≠ Opening → replied k K a q ls →
  (q ≤ ls + 1 → a ≤ ls + 1 ∧ keep repq ++ S = Storage.from a K) → linked K R onq ls → (ls = -1 ∨ ls + 1 = q → R = []) →
  outcome k cap K true onq repq [] (Some S) c (reply_done E c3).
Proof.
  intros HK Ho Hsil Hd Hch Hok Hst Hseq Hsv Hbe Hos Hini Hcs Hrs [R1 (K1 & Hpre & Hls) R3 R4 R5] Hfrom Hlink Hcalm.
  assert (gone c3 = false) as Hg by (unfold gone; by rewrite Hch). pose proof Hok as [O1 O2 O3 O4 O5].
  assert (pending c3 = false) as Hpend by (apply O5; by rewrite Hst).
  assert (dl c3 = []) as Hd3 by (by rewrite (dl_silent _ _ _ Ho Hsil)).
  assert (ls ≤ Storage.last_seq K) as HlsK by (rewrite Hls; by apply last_seq_prefix).
  assert (-1 ≤ ls) as Hls1 by (rewrite Hls; by eapply Storage.last_seq_low, prefix_increasing).
  assert (outcome k cap K true onq repq [] (Some S) c (set_state E Error c3)) as Herr.
  { apply outcome_error with (evs := evs); [done|rewrite (proj2 Hsil); constructor|rewrite Hd3; by left|done..]. }
  unfold reply_done. rewrite Hsv, Hos. cbn [default id].
  destruct (Z.eqb_spec ls (-1)) as [Els|Els].
  - (* nothing on the server *)
    destruct (initial_open c3) eqn:Ei; cbn [negb]; [|exact Herr]. assert (k = KInit) as Hk by (by destruct k). apply outcome_close.
    apply outcome_silent with (evs := evs) (R := R); [done|done|by eapply client_ok_same; [..|exact Hok]; try done; intros _|].
    apply ph_wait; try done; [constructor|].
    destruct Hlink as (P & E0 & HP). rewrite Hcalm in E0, HP by auto. specialize (HP eq_refl). rewrite E0. destruct P as [|x P]; [done|].
    exfalso. apply Forall_cons in HP as [HP _]. destruct HK as [_ HK]. rewrite E0 in HK. apply Forall_cons in HK as [HK _]. cbn in *. lia.
  - destruct (Z.eqb_spec (ls + 1) q) as [Eq|Nq].
    + (* everything is online *)
      unfold _report_block. cbn [block_end with_reopen with_seq]. rewrite Hbe. change (-1 =? -1) with true. cbv iota. cbn [Z.eqb]. unfold _report_online.
      cbn [st with_reopen with_seq]. rewrite Hst.
      set (c4 := with_st SDrain (with_reopen _ _)). change (seq c4) with ls.
      assert (dl (log (Control Online_meta_id ls []) c4) = []) as Ed by (rewrite (dl_silent c3 _ [Control Online_meta_id ls []]); done).
      apply outcome_emit_then with (evs := evs) (f := request_close false); [done|rewrite posts_app, (proj2 Hsil); constructor|done|done|done| |apply gone_close|].
      { rewrite Ed. by left. }
      apply outcome_close. apply outcome_silent with (evs := evs ++ [Control Online_meta_id ls []]) (R := R);
        [cbn; by rewrite Ho, app_assoc|by apply silent_app|by eapply client_ok_same; [..|exact Hok]|].
      destruct (Hfrom ltac:(lia)) as [Ha _].
      apply (ph_online _ _ _ _ _ _ _ _ _ a ls); try done; [by left|constructor|lia| | |].
      * rewrite Ed, Eq, (R3 Eq). done.
      * destruct Hlink as (P & E0 & HP). rewrite Hcalm in E0, HP by auto. exists P. split; [done|]. by apply HP.
      * apply Forall_forall. by intros x _.
    + destruct (Z.ltb_spec ls q) as [Hlt|Hge]; [exact Herr|].
      destruct (Hfrom ltac:(lia)) as [Ha HS].
      destruct (last_elem K1) as (x & Hx & Ex); [congruence|]. assert (x ∈ K) as HxK by (destruct Hpre as [t ->]; apply elem_of_app; by left).
      apply outcome_silent with (evs := evs) (R := R); [done|done|done|].
      apply (ph_connected _ _ _ _ _ _ _ _ _ S a); try done.
      * by rewrite Hd3.
      * by rewrite Hseq, Hd3.
      * by rewrite Hsv.
      * rewrite HS. intros Hn. assert (x ∈ Storage.from a K) as Hin by (apply from_elem; split; [specialize (R4 ltac:(lia)); lia|done]).
        rewrite Hn in Hin. by apply not_elem_of_nil in Hin.
      * intros _. rewrite Hseq, Hsv. lia.
      * rewrite Hsv. specialize (R4 ltac:(lia)). lia.
      * exists x. rewrite Hsv, Hls. done.
Qed.

(** The reply to the request. *)
Lemma opening_step K conn onq repq reqq o c R m : stopped c = false → client_ok cap c R → phase k c conn onq (m :: repq) reqq K R o →
  Storage.increasing K → st c = SOpening →
  (∀ r, get_reply (m_data m) = Some r → last_seq r = -1 ∨ last_seq r + 1 = default (requested_seq r) (open_seq c) → R = []) →
  ∃ c', opening_data E m c = Some c' ∧ outcome k cap K conn onq repq reqq o c c'.
Proof.
  intros Hs Hok Hph HK Est Hcalm. pose proof (not_stopped c Hs) as Hg. pose proof Hok as [O1 O2 O3 O4 O5].
  assert (outcome k cap K conn onq repq reqq o c (set_state E Error c)) as Herr.
  { apply outcome_error with (evs := []); [by rewrite app_nil_r|constructor|by eapply phase_promise|done..]. }
  unfold opening_data.
  destruct Hph as [H1|rq name b H1 H2 H3|rm q rp S a b H1 H2 H3 H4 H5 H6 H7 H8 H9 H10 H11 H12 H13 H14 H15 H16 H17 H18|em H1 H2 H3 H4 H5 H6 H7 H8 H9 H10
    |S a H1|a j H1|a z [[H1 _]|H1]|H1]; try congruence.
  2: { injection H9 as -> ->. rewrite H10. eexists. split; [reflexivity|done]. }
  injection H3 as -> ->. rewrite H11. change (Reply_meta_id =? Error_meta_id) with false. rewrite Z.eqb_refl. cbn [negb].
  change Reply_meta_size with 32. tests. rewrite H13. cbn [mbind option_bind]. rewrite H14.
  set (c1 := with_st SConnected _). assert (chan c = Opening) as Hch by (destruct (running cap c R Hs Hok) as [Hc|Hc]; [done|by rewrite Hc in H7]).
  destruct (set_active c1 c [] Hg Hch O2) as (evs & Ho & Hsil & [[Hg2 ->]|(Hcore & Hch2 & Hn2 & Ecs & Ers & ->)]); [cbn; by rewrite app_nil_r|done|..].
  - eexists. split; [reflexivity|]. apply outcome_stopped with (evs := evs); [done|rewrite (proj2 Hsil); constructor| |by apply stopped_gone].
    rewrite (dl_silent _ _ _ Ho Hsil), H2. by left.
  - eexists. split; [reflexivity|]. rewrite H4, H5, H8. set (c2 := set_state E Active c1) in *. injection Hcore as E1 E2 E3 E4 E5 E6 E7 E8 E9 E10.
    set (q' := default (requested_seq rp) (open_seq c)) in *.
    assert (∃ c3, reply_begin E rp c2 = c3 ∧ out c3 = out c2 ∧ chan c3 = Active ∧ count c3 = count c2 ∧ pending c3 = pending c ∧ st c3 = SConnected ∧
      seq c3 = seq c ∧ server_seq c3 = last_seq rp ∧ block_end c3 = -1 ∧ open_seq c3 = Some q' ∧ initial_open c3 = initial_open c ∧
      child_st c3 = child_st c ∧ request_st c3 = request_st c ∧ ring c3 = ring c) as
      (c3 & -> & F1 & F2 & F3 & F4 & F5 & F6 & F7 & F8 & F9 & F10 & F11 & F12 & F13).
    { eexists. split; [reflexivity|]. unfold reply_begin. rewrite E7. change (open_seq c1) with (open_seq c).
      destruct (open_seq c) as [v|] eqn:Eo; cbn [block_end with_open]; rewrite ?E6; change (0 <? block_end c1) with false; cbv iota;
        cbn [out chan count pending st seq server_seq block_end open_seq initial_open child_st request_st ring with_open];
        rewrite ?E2, ?E3, ?E4, ?E5, ?E6, ?E7, ?E8, ?E10, ?Ecs, ?Ers, ?Hch2; split_and!; try done; cbn; lia. }
    eapply (reply_done_step _ _ _ _ _ R S a (last_seq rp) q' evs); try done; rewrite ?F1, ?F6, ?F10, ?F11, ?F12; try done.
    + split; unfold count_ok; rewrite ?F2, ?F3, ?F13, ?F4; try done. intros _. apply O5. congruence.
    + apply H6.
    + apply H6.
    + eapply linked_mono; [exact H17|lia].
    + intros Hq'. by eapply Hcalm.
Qed.
(** ** Old messages *)
Lemma post_done s c : i64_ok s → ∃ data, _post_done E s c = Some (request_post ClientDone_meta_id data (with_buf data c), 0).
Proof. intros Hs. destruct (done_roundtrip s Hs) as (data & Hd & _). exists data. unfold _post_done. rewrite Hd. done. Qed.

Lemma from_nonempty s l x : x ∈ l → s ≤ m_seq x → Storage.from s l ≠ [].
Proof. intros Hx Hs Hn. assert (x ∈ Storage.from s l) as Hin by by apply from_elem. rewrite Hn in Hin. by apply not_elem_of_nil in Hin. Qed.

(** What is dropped from the ring has been delivered. *)
Lemma linked_drop K R onq b s f R' : Storage.sorted K → linked K R onq b → R = f :: R' → m_seq f ≤ s + 1 →
  ∃ P, K = P ++ keep (drop_seq s R) ++ keep onq ∧ Storage.below (s + 1) P.
Proof.
  intros HK (P & E0 & _) -> Hf.
  assert (Storage.below (s + 1) P) as HP.
  { apply Forall_forall. intros x Hx. rewrite E0, keep_cons in HK. apply Storage.sorted_app in HK as [_ HK].
    specialize (HK x (Storage.kept f) Hx ltac:(by left)). cbn in HK. lia. }
  clear Hf HK. revert P E0 HP. generalize (f :: R'). intros R. induction R as [|x R IH]; intros P E0 HP; [by exists P|].
  cbn [drop_seq]. destruct (Z.leb_spec (m_seq x) s); [|by exists P].
  apply (IH (P ++ [Storage.kept x])); [by rewrite E0, keep_cons, <-!app_assoc|]. by apply below_snoc.
Qed.

Lemma drop_seq_elem s R x : x ∈ drop_seq s R → Storage.sorted R → s < m_seq x.
Proof. intros Hx HR. rewrite drop_seq_from in Hx by done. apply from_elem in Hx as [Hx _]. lia. Qed.

Lemma connected_next_step K onq repq c c1 R S a m : Storage.increasing K → i64_ok (m_seq m) →
  client_ok cap c1 R → gone c1 = false → st c1 = SConnected → start k a K → child_st c1 ≠ Opening → request_st c1 ≠ Opening →
  out c1 = out c ++ [Deliver m] → seq c1 = m_seq m → block_end c1 = -1 → Storage.last_seq (dl c1) = m_seq m →
  dl c1 ++ keep repq ++ S = Storage.from a K → keep repq ++ S = Storage.from (m_seq m + 1) K → a ≤ m_seq m →
  linked K R onq (server_seq c1) → a ≤ server_seq c1 → (∃ x, x ∈ K ∧ m_seq x = server_seq c1) → (R = [] → m_seq m ≤ server_seq c1) →
  ∃ c', connected_next E m c1 = Some c' ∧ outcome k cap K true onq repq [] (Some S) c c'.
Proof.
  intros HK Hi Hok Hg Hst Hstart Hcs Hrs Ho Hseq Hbe Hlast Hd Hrest Ha Hlink Hav (x & Hx & Ex) Hcalm.
  pose proof Hok as [O1 O2 O3 O4 O5]. pose proof (Storage.sorted_increasing _ HK) as Hsort.
  assert (server_seq c1 ≤ Storage.last_seq K) as Hvl by (rewrite <-Ex; by apply sorted_last).
  destruct (post_done (m_seq m) c1 Hi) as [data Hdone].
  set (c2 := request_post ClientDone_meta_id data (with_buf data c1)) in *.
  set (done := Msg DATA 0 ClientDone_meta_id 0 data (zlen data) 0 0).
  assert (dl c2 = dl c1) as Ed2 by (rewrite (dl_out c1 c2 [ReqPost done]); [apply app_nil_r|done]).
  assert (Forall req_ok [done]) as Hreq by (repeat constructor; by left).
  assert (dones [done]) as Hdones by by repeat constructor.
  assert (R ≠ [] → (∃ f, f ∈ K ∧ m_seq m < m_seq f) → outcome k cap K true onq repq [] (Some S) c c1) as Hstay.
  { intros HR (f & Hf & Hfm). apply outcome_phase with (evs := [Deliver m]) (R := R); [done|constructor|done|].
    apply (ph_connected _ _ _ _ _ _ _ _ _ S a); try done; [by rewrite Hseq| |by exists x]. rewrite Hrest. by apply (from_nonempty _ _ f); [|lia]. }
  unfold connected_next. rewrite Hseq. rewrite (holds_nil _ _ O3). destruct R as [|f R].
  - rewrite (bool_decide_true ([] = [])) by done. rewrite andb_true_r. destruct (Z.eqb_spec (m_seq m) (server_seq c1)) as [Eq|Nq].
    + (* the last old message *)
      rewrite Hdone. cbn [mbind option_bind]. unfold _report_block. cbn [block_end with_reopen]. change (block_end c2) with (block_end c1). rewrite Hbe.
      change (-1 =? -1) with true. cbv iota. cbn [Z.eqb]. eexists. split; [reflexivity|]. unfold _report_online. cbn [st with_reopen].
      change (st c2) with (st c1). rewrite Hst. set (c4 := with_st SDrain _). change (seq c4) with (seq c1). rewrite Hseq.
      apply outcome_emit with (evs := [Deliver m; ReqPost done]) (R := []); [cbn; by rewrite Ho, <-app_assoc|exact Hreq|done| |].
      * eapply client_ok_same; [..|exact Hok]; try done. intros _. apply O5. by rewrite Hst.
      * apply (ph_online _ _ _ _ _ _ _ _ _ a (m_seq m)); try done; [by left|lia|cbn; rewrite Hseq; lia| | |].
        -- rewrite <-Hrest, <-Hd. f_equal. rewrite <-Ed2. by apply (dl_silent c2 _ [Control Online_meta_id (m_seq m) []]).
        -- destruct Hlink as (P & E0 & HP). exists P. split; [done|]. rewrite Eq. by apply HP.
        -- apply Forall_forall. intros y _. cbn. by rewrite Hseq.
    + eexists. split; [reflexivity|].
      specialize (Hcalm eq_refl).
      apply outcome_phase with (evs := [Deliver m]) (R := []); [done|constructor|done|].
      apply (ph_connected _ _ _ _ _ _ _ _ _ S a); try done; [by rewrite Hseq| |intros _; lia|by exists x].
      rewrite Hrest. apply (from_nonempty _ _ x); [done|lia].
  - rewrite !(bool_decide_false (f :: R = [])) by done. rewrite andb_false_r. rewrite (peek_front _ _ _ O3). cbn [mbind option_bind].
    change (m_seq (Storage.kept f)) with (m_seq f).
    assert (∀ y, y ∈ f :: R → Storage.kept y ∈ K) as HRK.
    { intros y Hy. destruct Hlink as (P & -> & _). apply elem_of_app. right. apply elem_of_app. left. by apply list_elem_of_fmap_2. }
    destruct (Z.ltb_spec (m_seq m + 1) (m_seq f)) as [Hlt|Hge].
    + eexists. split; [reflexivity|]. apply Hstay; [done|]. exists (Storage.kept f). split; [apply HRK; by left|cbn; lia].
    + destruct (ring_drop_spec (m_seq m) (f :: R) (ring_fuel (ring c1)) (ring c1) O3) as (r & Hr & Hr1 & Hr2); [apply holds_fuel in O3; lia|].
      rewrite Hr. cbn [mbind option_bind]. destruct (free_spec r _ Hr1) as (fr & us & -> & -> & Hempty). cbn [mbind option_bind].
      destruct (linked_drop K (f :: R) onq _ (m_seq m) f R Hsort Hlink eq_refl ltac:(lia)) as (P & E0 & HP).
      destruct (Z.ltb_spec (us / 2) fr) as [Hfree|Hfull].
      * (* Overlapped *)
        destruct (post_done (m_seq m) (with_ring r c1) Hi) as [data' Hdone']. rewrite Hdone'. cbn [mbind option_bind]. eexists. split; [reflexivity|].
        set (done' := Msg DATA 0 ClientDone_meta_id 0 data' (zlen data') 0 0).
        apply outcome_phase with (evs := [Deliver m; ReqPost done']) (R := drop_seq (m_seq m) (f :: R)); [cbn; by rewrite Ho, <-app_assoc|repeat constructor; by left| |].
        -- pose proof (client_ok_ring cap c1 r _ _ Hr2 Hr1 Hok) as Hok'. by eapply client_ok_same; [..|exact Hok'].
        -- apply (ph_overlapped _ _ _ _ _ _ _ _ _ a (m_seq m + 1)); try done; cbn [seq with_st with_pending request_post log with_out with_buf with_ring]; rewrite ?Hseq; try lia.
           ++ by repeat constructor.
           ++ assert (m_seq m ≤ Storage.last_seq K); [|lia]. destruct (last (dl c1)) as [y|] eqn:Ey; [|by rewrite last_None in Ey; rewrite Ey in Hlast; cbn in Hlast; rewrite <-Hlast; apply Storage.last_seq_low].
              assert (y ∈ K) as Hy. { apply (from_elem a). rewrite <-Hd. apply elem_of_app. left. by apply last_Some_elem_of. }
              unfold Storage.last_seq in Hlast. rewrite Ey in Hlast. cbn in Hlast. rewrite <-Hlast. by apply sorted_last.
           ++ rewrite <-Hrest, <-Hd. f_equal. rewrite (dl_out c1 _ [ReqPost done']); [apply app_nil_r|done].
           ++ by exists P.
      * (* the ring is too full to stop *)
        eexists. split; [reflexivity|]. destruct (drop_seq (m_seq m) (f :: R)) as [|g R2] eqn:ER2.
        { exfalso. destruct (Hempty eq_refl) as [Ef Eu]. destruct Hr2 as [Hz _]. destruct O4 as (Hc & _ & Hp). rewrite Eu in Hfull. change (0 / 2) with 0 in Hfull. lia. }
        assert (∃ y, y ∈ K ∧ m_seq m < m_seq y) as (y & Hy & Hym).
        { exists (Storage.kept g). assert (g ∈ drop_seq (m_seq m) (f :: R)) as Hg2 by (rewrite ER2; by left).
          assert (Storage.sorted (f :: R)) as HsR.
          { destruct Hlink as (P0 & E1 & _). rewrite E1 in Hsort. apply Storage.sorted_app in Hsort as [Hsort _]. by eapply sorted_keep. }
          pose proof (drop_seq_elem _ _ _ Hg2 HsR) as Hgm. split; [|exact Hgm]. apply HRK. rewrite drop_seq_from in Hg2 by done. by apply from_elem in Hg2 as [_ Hg2]. }
        apply outcome_phase with (evs := [Deliver m]) (R := g :: R2); [done|constructor|by eapply client_ok_ring|].
        apply (ph_connected _ _ _ _ _ _ _ _ _ S a); try done; [by transitivity (m_seq m)|by exists P|rewrite Hrest; apply (from_nonempty _ _ y); [done|lia]|by exists x].
Qed.
Lemma connected_step K conn onq repq reqq o c R m : stopped c = false → client_ok cap c R → phase k c conn onq (m :: repq) reqq K R o →
  Storage.increasing K → Forall (λ m, i64_ok (m_seq m)) K → st c = SConnected →
  ∃ c', connected_data E m c = Some c' ∧ outcome k cap K conn onq repq reqq o c c'.
Proof.
  intros Hs Hok Hph HK Hi Est. pose proof (not_stopped c Hs) as Hg. pose proof Hok as [O1 O2 O3 O4 O5].
  pose proof (Storage.sorted_increasing _ HK) as Hsort.
  destruct Hph as [H1|rq name b H1|rm q rp S a b H1|em H1|S a H1 -> -> H4 H5 -> H7 H8 H9 H10 H11 H12 H13 H14 H15|a j H1|a z [[H1 _]|H1]|H1]; try congruence.
  rewrite keep_cons in H9. cbn [app] in H9.
  assert (Storage.kept m ∈ Storage.from a K) as Hm by (rewrite <-H9; apply elem_of_app; right; left).
  apply from_elem in Hm as [Ham HmK]. cbn in Ham.
  pose proof (from_mid K (dl c) a (Storage.kept m) _ Hsort (eq_sym H9)) as Hrest. cbn in Hrest.
  assert (-1 ≤ seq c) as Hlow.
  { rewrite H10. unfold Storage.last_seq. destruct (last (dl c)) as [y|] eqn:Ey; [|done]. cbn.
    assert (y ∈ K) as Hy by (apply (from_elem a); rewrite <-H9; apply elem_of_app; left; by apply last_Some_elem_of).
    destruct HK as [_ HK]. rewrite Forall_forall in HK. specialize (HK y Hy). cbn in HK. lia. }
  unfold connected_data. rewrite H4, (proj2 (Z.ltb_ge _ _)) by lia. cbn [andb negb Z.eqb].
  set (c1 := with_seq (m_seq m) c). assert (dl (log (Deliver m) c1) = dl c ++ [Storage.kept m]) as Ed by (rewrite dl_deliver; done).
  destruct (emit_spec closes (Deliver m) c1 Hg O1 O2) as [->|(evs & He & Hsil & Hg' & Hn)].
  - rewrite changed_same by done. apply (connected_next_step K onq repq c (log (Deliver m) c1) R S a m); try done.
    + rewrite Forall_forall in Hi. exact (Hi _ HmK).
    + rewrite Ed. exact (Storage.last_seq_app (dl c) (Storage.kept m)).
    + rewrite Ed, <-app_assoc. exact H9.
    + intros HR. specialize (H13 HR). destruct H15 as (x & Hx & Ex).
      assert (x ∈ Storage.from a K) as Hxin by (apply from_elem; split; [lia|done]).
      rewrite <-H9 in Hxin. change (server_seq (log _ _)) with (server_seq c). apply elem_of_app in Hxin as [Hxin|[->|Hxin]%elem_of_cons].
      * exfalso. assert (Storage.sorted (dl c)) as Hsd.
        { apply Storage.sorted_increasing. eapply (prefix_increasing _ (Storage.from a K)); [by apply increasing_from|rewrite <-H9; by apply prefix_app_r]. }
        pose proof (sorted_last _ _ Hsd Hxin). lia.
      * rewrite <-Ex. cbn. lia.
      * rewrite Hrest in Hxin. apply from_elem in Hxin as [Hxin _]. lia.
  - rewrite (changed_next (count c1)) by done. eexists. split; [reflexivity|].
    apply outcome_stopped with (evs := [Deliver m] ++ evs); [done|by rewrite posts_app, (proj2 Hsil)| |by apply stopped_gone].
    rewrite (dl_out c _ ([Deliver m] ++ evs)) by done. rewrite delivered_app, (proj1 Hsil), app_nil_r.
    right. exists a. split; [done|]. rewrite <-H9. exists (keep repq ++ S). by rewrite <-app_assoc.
Qed.

(** Any message of the request channel. *)
Lemma reply_step K conn onq repq reqq o c R m : stopped c = false → client_ok cap c R → phase k c conn onq (m :: repq) reqq K R o →
  Storage.increasing K → Forall (λ m, i64_ok (m_seq m)) K →
  (∀ r, st c = SOpening → get_reply (m_data m) = Some r → last_seq r = -1 ∨ last_seq r + 1 = default (requested_seq r) (open_seq c) → R = []) →
  ∃ c', _on_request_data E m c = Some c' ∧ outcome k cap K conn onq repq reqq o c c'.
Proof.
  intros Hs Hok Hph HK Hi Hcalm. pose proof (not_stopped c Hs) as Hg. pose proof Hok as [O1 O2 O3 O4 O5]. unfold _on_request_data.
  destruct (st c) eqn:Est.
  - exfalso. by destruct Hph as [H1 H2 H3|rq name b H1|rm q rp S a b H1|em H1|S a H1|a j H1|a z [[H1 _]|H1]|H1]; try congruence.
  - eapply opening_step; eauto.
  - by eapply connected_step.
  - pose proof (Storage.sorted_increasing _ HK) as Hsort.
    destruct Hph as [H1|rq name b H1|rm q rp S a b H1|em H1|S a H1|a j H1 Hq H2 H3 -> H5 H6 H7 H8 H9 (P & E0 & HP) H11 H12|a z [[H1 _]|H1]|H1]; try congruence.
    assert (∃ r, Storage.from j K = Storage.kept m :: r ∧
      match o with Some T => keep repq ++ T = r | None => keep repq `prefix_of` r end) as (r & Ej & Hr).
    { destruct o as [T|]; [exists (keep repq ++ T); by rewrite <-H12|]. destruct H12 as [t H12]. exists (keep repq ++ t). split; [done|by eexists]. }
    rewrite (from_cons_tail _ _ _ _ Hsort Ej) in Hr. cbn in Hr.
    destruct (Z.leb_spec (m_seq m) (seq c)) as [Hle|Hlt]; (eexists; split; [reflexivity|]).
    + apply outcome_silent with (evs := []) (R := R); [by rewrite app_nil_r|done|done|].
      apply (ph_overlapped _ _ _ _ _ _ _ _ _ a (m_seq m + 1)); try done; [by exists P|lia].
    + pose proof (from_cons_mid j (seq c + 1) K _ _ Hsort Ej ltac:(cbn; lia)) as En.
      pose proof (from_cons_tail _ _ _ _ Hsort En) as Et. rewrite Et in En. cbn in En.
      assert (m_seq m ≤ Storage.last_seq K) as Hl.
      { apply (sorted_last K (Storage.kept m) Hsort). apply (from_elem j). rewrite Ej. left. }
      set (c1 := with_seq (m_seq m) c).
      apply outcome_emit with (evs := []) (R := R); [by rewrite app_nil_r|constructor|done|by eapply client_ok_same; [..|exact Hok]|].
      change (posts ([] ++ [Deliver m])) with (@nil msg). rewrite app_nil_r.
      apply (ph_overlapped _ _ _ _ _ _ _ _ _ a (m_seq m + 1)); try done.
      * rewrite dl_deliver. change (dl c1) with (dl c). change (seq _) with (m_seq m). by rewrite <-H9, En, <-app_assoc.
      * exists P. split; [done|]. eapply below_mono; [exact HP|]. cbn. lia.
  - eexists. split; [reflexivity|]. apply outcome_silent with (evs := []) (R := R); [by rewrite app_nil_r|done|done|].
    destruct Hph as [H1|rq name b H1|rm q rp S a b H1|em H1|S a H1|a j H1|a z H1 Hq H2 H3 H4 H5 H6 H7 H8 H9 H10|H1]; try congruence.
    by apply (ph_online _ _ _ _ _ _ _ _ _ a z).
  - eexists. split; [reflexivity|]. apply outcome_silent with (evs := []) (R := R); [by rewrite app_nil_r|done|done|].
    destruct Hph as [H1|rq name b H1|rm q rp S a b H1|em H1|S a H1|a j H1|a z [[H1 _]|H1]|H1 Hq H2 H3 H4 H5 H6 H7 H8]; try congruence.
    by apply ph_wait.
  - eexists. split; [reflexivity|]. apply outcome_silent with (evs := []) (R := R); [by rewrite app_nil_r|done|done|].
    destruct Hph as [H1|rq name b H1|rm q rp S a b H1|em H1|S a H1|a j H1|a z H1 Hq H2 H3 H4 H5 H6 H7 H8 H9 H10|H1]; try congruence.
    by apply (ph_online _ _ _ _ _ _ _ _ _ a z).
Qed.
End Handlers.
End StreamSteps.
