(* ===== verification/StreamSpec.v ===== *)
(** * The promise of a stream

    The client gets the log of the server from the number it asked for, in order,
    without a gap and without a repetition, under any interleaving of the steps of
    [Stream]; and when everything has come to rest it has got all of it. *)
From Stdlib Require Import Sorted.
From S2P Require Import Prelude Mem Callback Channel Storage Queue Reopen Binder StreamScheme StreamClient StreamServer StreamServerSpec StreamRing Stream StreamClientSpec StreamPhase StreamSteps.
Import Cb Chan Binder StreamScheme.

Module StreamSpec.
Import StreamClient Stream StreamRing StreamClientSpec StreamPhase StreamSteps.

(** The server of a run. *)
Section Inv.
Context {W R_ G BW BR : Type} `{Storage.Storage W R_ G} (B : StreamServer.blocks_ops BW BR) (b_reads : BR → list msg → Prop)
  (b_next_spec : ∀ rd rest, b_reads rd rest → ∃ rd', StreamServer.b_next B rd = (head rest, rd') ∧ b_reads rd' (tail rest))
  (b_open_spec : ∀ bw t i first last rd, StreamServer.b_open B bw t i = Some (first, last, rd) → ∃ ms, b_reads rd ms)
  (closes : event → bool).
Abbreviation sys := (@Stream.sys W R_ BW BR).
Abbreviation server := (@StreamServer.server W R_ BW BR).

Definition session (x : sys) (K : list msg) (o : option (list msg)) : Prop :=
  ∃ (g : G) L, StreamServerSpec.good (srv x) g L ∧ K = keep L ∧
    match o with
    | None => StreamServer.clients (srv x) !! addr = None
    | Some T => ∃ c rest, StreamServer.clients (srv x) !! addr = Some c ∧ StreamServer.c_state c = StreamServer.CActive ∧
        StreamServer.c_suspended c = false ∧ StreamServer.c_next c = None ∧
        StreamServerSpec.in_front b_reads (StreamServer.storage (srv x)) g c rest ∧ T = keep rest
    end.

(** What holds until the client has failed or is closed. *)
Record alive (k : kind) (cap : Z) (x : sys) (K R : list msg) (o : option (list msg)) : Prop := {
  a_session : session x K o;
  a_onq : Forall (fits cap) (onq x);
  a_chan : chan (cl x) ≠ Destroy;
  a_count : count_ok (cl x);
  a_ring : holds (ring (cl x)) R;
  a_cap : zlen (DataRing.bytes (ring (cl x))) = cap ∧ 1 < zlen (VecRing.data (DataRing.index (ring (cl x)))) ∧ 0 < cap;
  a_pending : st (cl x) ≠ SOverlapped → pending (cl x) = false;
  a_phase : phase k (cl x) (conn x) (onq x) (repq x) (reqq x) K R o;
}.

Record inv (k : kind) (cap : Z) (x : sys) (K : list msg) : Prop := {
  i_good : ∃ (g : G) L, StreamServerSpec.good (srv x) g L ∧ K = keep L;
  i_server : AutoSeq.enable (StreamServer.autoseq (srv x)) = false ∧ StreamServer.wait_control (srv x) = false ∧
             StreamServer.initial_reply (StreamServer.cf (srv x)) = None;
  i_seq : Forall (λ m, i64_ok (m_seq m)) K;
  i_reqq : Forall req_ok (reqq x);
  i_promise : promise k K (dl (cl x));
  i_alive : stopped (cl x) = false → ∃ R o, alive k cap x K R o;
}.

(** ** Steps of the server *)
Lemma serve_step (f : server → option server) (x : sys) s ds os :
  f (srv x) = Some s → StreamServer.sent s = StreamServer.sent (srv x) ++ ds → StreamServer.online s = StreamServer.online (srv x) ++ os →
  serve f x = Some (Sys s (cl x) (conn x) (onq x ++ if conn x then os else []) (repq x ++ to_addr ds) (reqq x)).
Proof.
  intros Hf Hs Ho. unfold serve. rewrite Hf. cbn [mbind option_bind]. rewrite Hs, Ho, !drop_app_length. done.
Qed.

Lemma good_log (s : server) (g : G) L : StreamServerSpec.good s g L → Storage.increasing L.
Proof. intros [(Hl & _) _]. by apply Storage.st_log_spec in Hl as [? _]. Qed.

Lemma keep_increasing (s : server) (g : G) L : StreamServerSpec.good s g L → Storage.increasing (keep L).
Proof. intros Hg. by eapply increasing_keep, good_log. Qed.

Lemma session_good x K o : session x K o → ∃ (g : G) L, StreamServerSpec.good (srv x) g L ∧ K = keep L.
Proof. intros (g & L & Hg & HK & _). by exists g, L. Qed.

(** A post, for the log, for the reader of the client and for the online channel. *)
Lemma post_session (x : sys) m (g : G) L : StreamServerSpec.good (srv x) g L →
  AutoSeq.enable (StreamServer.autoseq (srv x)) = false → StreamServer.wait_control (srv x) = false →
  Storage.st_ok (StreamServer.storage (srv x)) m →
  ∃ s r g' new, StreamServer._post B true m (srv x) = Some (s, r) ∧
    StreamServerSpec.good s g' (L ++ (Storage.kept <$> new)) ∧
    StreamServer.sent s = StreamServer.sent (srv x) ++ [] ∧ StreamServer.online s = StreamServer.online (srv x) ++ new ∧
    (new = [] ∨ new = [m] ∧ Storage.last_seq L < m_seq m) ∧
    AutoSeq.enable (StreamServer.autoseq s) = false ∧ StreamServer.wait_control s = false ∧ StreamServer.cf s = StreamServer.cf (srv x) ∧
    (∀ m, Storage.st_ok (StreamServer.storage (srv x)) m → Storage.st_ok (StreamServer.storage s) m) ∧
    StreamServer.clients s = StreamServer.clients (srv x) ∧
    (∀ c rest, StreamServerSpec.in_front b_reads (StreamServer.storage (srv x)) g c rest →
       StreamServerSpec.in_front b_reads (StreamServer.storage s) g' c (rest ++ (Storage.kept <$> new))).
Proof.
  intros [Hs Hall] Ha Hw Hok.
  destruct (StreamServerSpec.server_post_spec B true m (srv x) g L Hs Hok Ha) as
    (s & r & g' & new & Hp & Hs' & Hrd & Ecl & Esent & Ecf & Eau & Ewait & Hst & Hnew).
  rewrite Hw in Hnew. cbn [negb andb] in Hnew.
  assert (∃ new', new = Storage.kept <$> new' ∧ StreamServer.online s = StreamServer.online (srv x) ++ new' ∧
    (new' = [] ∨ new' = [m] ∧ Storage.last_seq L < m_seq m)) as (new' & -> & Eon & Hn').
  { destruct Hnew as [[-> E]|(-> & Hlt & E)]; [exists []; rewrite app_nil_r; by split_and!; [..|left]|].
    exists [m]. split; [done|]. split; [done|]. right. split; [done|]. by rewrite (proj1 (proj2 Hs)) in Hlt. }
  exists s, r, g', new'. split; [done|]. split.
  { split; [done|]. rewrite Ecl. intros b c Hc. eapply StreamServerSpec.reader_ok_post; [exact Hrd|by eapply Hall]. }
  rewrite app_nil_r. split; [done|]. split; [done|]. split; [done|]. split; [by rewrite Eau|]. split; [by rewrite Ewait|].
  split; [done|]. split; [done|]. split; [done|]. intros c rest. by apply StreamServerSpec.in_front_post.
Qed.

(** ** A post *)
Definition st_mono (x x' : sys) : Prop :=
  ∀ m, Storage.st_ok (StreamServer.storage (srv x)) m → Storage.st_ok (StreamServer.storage (srv x')) m.

Lemma step_post k cap x K m : inv k cap x K → Storage.st_ok (StreamServer.storage (srv x)) m → fits cap m →
  ∃ x' K', step B closes (Post m) x = Some x' ∧ inv k cap x' K' ∧ K `prefix_of` K' ∧ st_mono x x'.
Proof.
  intros [(g0 & L0 & Hg0 & E0) (Ha & Hw & Hi) Hseq Hrq Hp Hal] Hok Hfit. cbn [step].
  assert (∃ (g : G) L, StreamServerSpec.good (srv x) g L ∧ K = keep L ∧
    (stopped (cl x) = false → ∃ R o, alive k cap x K R o ∧ match o with
      | None => StreamServer.clients (srv x) !! addr = None
      | Some T => ∃ c rest, StreamServer.clients (srv x) !! addr = Some c ∧ StreamServer.c_state c = StreamServer.CActive ∧
        StreamServer.c_suspended c = false ∧ StreamServer.c_next c = None ∧
        StreamServerSpec.in_front b_reads (StreamServer.storage (srv x)) g c rest ∧ T = keep rest
      end)) as (g & L & Hg & -> & Hal').
  { destruct (stopped (cl x)) eqn:Es; [by exists g0, L0|]. destruct (Hal eq_refl) as (R & o & Hl). pose proof (a_session _ _ _ _ _ _ Hl) as (g & L & Hg & EK & Ho).
    exists g, L. split; [done|]. split; [done|]. intros _. by exists R, o. }
  clear Hal g0 L0 Hg0 E0.
  destruct (post_session x m g L Hg Ha Hw Hok) as (s & r & g' & new & Hpost & Hg' & Es & Eo & Hnew & Ha' & Hw' & Ecf & Hst & Ecl & Hfr).
  rewrite (serve_step _ x s [] new) by (rewrite ?Hpost; done). eexists _, (keep L ++ keep new). split; [reflexivity|].
  assert (keep (Storage.kept <$> new) = keep new) as Ekk by (unfold keep; rewrite <-list_fmap_compose; done).
  split; [|split; [by apply prefix_app_r|exact Hst]].
  split; cbn [srv cl conn onq repq reqq to_addr].
  - exists g', (L ++ (Storage.kept <$> new)). split; [done|]. by rewrite keep_app, Ekk.
  - by rewrite Ecf.
  - apply Forall_app. split; [done|]. destruct Hnew as [->|[-> _]]; [constructor|]. constructor; [|constructor]. apply Hfit.
  - done.
  - by apply promise_grow.
  - intros Hs. destruct (Hal' Hs) as (R & o & [_ Hon Hc Hcnt Hr Hcap Hpend Hph] & Ho). exists R, ((λ T, T ++ keep new) <$> o).
    split; cbn [srv cl conn onq repq reqq].
    + exists g', (L ++ (Storage.kept <$> new)). split; [done|]. split; [by rewrite keep_app, Ekk|].
      cbn [srv]. rewrite Ecl. destruct o as [T|]; [|done]. destruct Ho as (c & rest & Hc1 & Hc2 & Hc3 & Hc4 & Hc5 & ->). cbn.
      exists c, (rest ++ (Storage.kept <$> new)). split; [done|]. split; [done|]. split; [done|]. split; [done|]. split; [by apply Hfr|].
      by rewrite keep_app, Ekk.
    + apply Forall_app. split; [done|]. destruct (conn x); [|constructor]. destruct Hnew as [->|[-> _]]; repeat constructor; apply Hfit.
    + done.
    + done.
    + done.
    + done.
    + done.
    + unfold to_addr. cbn. rewrite app_nil_r. destruct Hnew as [->|[-> Hlt]].
      * change (keep []) with (@nil msg). rewrite app_nil_r. destruct (conn x) eqn:Ec; rewrite app_nil_r;
          (replace ((λ T : list msg, T ++ []) <$> o) with o by (destruct o; cbn; by rewrite ?app_nil_r)); done.
      * apply phase_post; [by eapply keep_increasing|by rewrite last_seq_keep|done].
Qed.

(** ** Reading for the client *)

Lemma to_addr_clients l : to_addr (StreamServerSpec.to_client addr <$> l) =
  (λ m, Msg DATA (m_flags m) (m_msgid m) (m_seq m) (m_data m) (m_size m) addr 0) <$> l.
Proof. unfold to_addr. induction l as [|m l IH]; [done|]. cbn [fmap list_fmap]. rewrite filter_cons_True by done. cbn. f_equal. exact IH. Qed.

(** The server but for its clients. *)
Definition steady (s s' : server) : Prop :=
  StreamServer.storage s' = StreamServer.storage s ∧ StreamServer.s_seq s' = StreamServer.s_seq s ∧ StreamServer.cf s' = StreamServer.cf s ∧
  StreamServer.autoseq s' = StreamServer.autoseq s ∧ StreamServer.wait_control s' = StreamServer.wait_control s.

Lemma aside_steady a s s' : StreamServerSpec.aside a s s' → steady s s'.
Proof. intros (? & ? & ? & ? & _ & _ & ?). done. Qed.

Lemma drop_steady l : ∀ s : server, steady s (StreamServer.drop_clients l s).
Proof.
  induction l as [|a l IH]; intros s; [done|]. cbn [StreamServer.drop_clients].
  destruct (StreamServer.clients s !! a) as [c|]; [|apply IH].
  assert (steady s (StreamServer.drop_clients l (StreamServer._request_disconnect a (StreamServer.del_client a s)))) as Hd.
  { destruct (IH (StreamServer._request_disconnect a (StreamServer.del_client a s))) as (E1 & E2 & E3 & E4 & E5).
    unfold steady. rewrite E1, E2, E3, E4, E5. unfold StreamServer._request_disconnect. by destruct (_ =? 0). }
  destruct (StreamServer.c_state c); try apply IH; exact Hd.
Qed.

(** Any handler of the server once the client does not count any more. *)
Lemma step_stopped (f : server → option server) k cap x K (g : G) L s : inv k cap x K → stopped (cl x) = true → K = keep L →
  f (srv x) = Some s → steady (srv x) s →
  StreamServerSpec.good (srv x) g L →
  map_Forall (λ _, StreamServerSpec.reader_ok (StreamServer.storage (srv x)) g) (StreamServer.clients s) →
  ∃ x', serve f x = Some x' ∧ inv k cap x' K ∧ st_mono x x' ∧ reqq x' = reqq x.
Proof.
  intros [_ (Ha & Hw & Hi) Hseq Hrq Hp _] Hs -> Hf (E1 & E2 & E3 & E4 & E7) [(H1 & H2 & H3) _] Hall. unfold serve. rewrite Hf. cbn [mbind option_bind].
  eexists. split; [reflexivity|]. split; [|split; [intros m; cbn [srv]; by rewrite E1|done]]. split; cbn [srv cl reqq].
  - exists g, L. cbn [srv]. split; [|done]. split; [|by rewrite E1]. by unfold StreamServerSpec.serves; rewrite E1, E2, E3.
  - by rewrite E4, E7, E3.
  - done.
  - done.
  - done.
  - by rewrite Hs.
Qed.

Lemma step_read k cap x K : inv k cap x K →
  ∃ x', step B closes ServeRead x = Some x' ∧ inv k cap x' K ∧ st_mono x x'.
Proof.
  intros Hinv. pose proof Hinv as [(g0 & L0 & Hg0 & E0) Hsrv Hseq Hrq Hp Hal]. cbn [step]. destruct (stopped (cl x)) eqn:Es.
  - destruct (StreamServerSpec.client_process_aside B true addr (srv x) g0 L0 (addr + 1) (proj1 Hg0)) as (s & Hcp & Has); [done| |].
    { intros c Hc. destruct (proj2 Hg0 addr c Hc) as [H1 _]. destruct (StreamServer.c_storage c) as [[r|b]|]; done. }
    destruct (step_stopped (StreamServer.client_process B true addr) k cap x K g0 L0 s) as (x' & Hx & Hi & Hm & _); try done; [by eapply aside_steady|by eapply StreamServerSpec.client_process_good|by exists x'].
  - destruct (Hal eq_refl) as (R & o & [(g & L & Hg & -> & Ho) Hon Hc Hcnt Hr Hcap Hpend Hph]). destruct o as [T|].
    + destruct Ho as (c & rest & Hc1 & Hc2 & Hc3 & Hc4 & Hc5 & ->).
      destruct (StreamServerSpec.client_process_spec B b_reads b_next_spec (srv x) g L addr rest (proj1 Hg)) as
        (c' & s & got & rest' & Hc' & Hcp & (c2 & Hr1 & Hr2 & Hr3) & E1 & E2 & E3 & E4 & E5 & E6 & E7 & E8 & -> & _); [by exists c|].
      pose proof (StreamServerSpec.client_process_good B true addr (srv x) g L s Hg Hcp) as Hgood.
      assert (StreamServerSpec.good s g L) as Hgs.
      { split; [|by rewrite E1]. unfold StreamServerSpec.serves. rewrite E1, E2, E3. apply Hg. }
      assert (StreamServer.c_suspended c2 = false ∧ StreamServer.c_next c2 = None) as [Hs2 Hn2].
      { clear -Hcp Hc1 Hc3 Hc4 Hc5 Hr1. unfold StreamServer.client_process in Hcp. rewrite Hc1, Hc3 in Hcp.
        unfold StreamServerSpec.in_front in Hc5. rewrite Hc4 in Hc5. destruct (StreamServer.c_storage c) as [[rd|b]|]; [|done|done].
        apply bind_Some in Hcp as ([m rd'] & _ & Hcp). injection Hcp as <-. destruct m; cbn in Hr1; rewrite lookup_insert_eq in Hr1; injection Hr1 as <-; cbn; by rewrite Hc4. }
      rewrite (serve_step _ x s _ [] Hcp E8) by (by rewrite app_nil_r). eexists. split; [reflexivity|].
      split; [|intros m; cbn [srv]; by rewrite E1]. split; cbn [srv cl conn onq repq reqq].
      * by exists g, L.
      * by rewrite E4, E5, E3.
      * done.
      * done.
      * done.
      * intros _. exists R, (Some (keep rest')). rewrite to_addr_clients. split; cbn [srv cl conn onq repq reqq]; try done.
        -- exists g, L. split; [done|]. split; [done|]. exists c2, rest'. cbn [srv]. by split_and!.
        -- destruct (conn x); by rewrite app_nil_r.
        -- destruct (conn x) eqn:Ec; rewrite app_nil_r; (eapply phase_read; [|exact Hph]); rewrite keep_app; f_equal; unfold keep; by rewrite <-list_fmap_compose.
    + assert (StreamServer.client_process B true addr (srv x) = Some (srv x)) as Hcp by (unfold StreamServer.client_process; by rewrite Ho).
      rewrite (serve_step _ x (srv x) [] [] Hcp) by (by rewrite app_nil_r). eexists. split; [reflexivity|]. split; [|by intros m].
      change (to_addr []) with (@nil msg). rewrite app_nil_r.
      replace (onq x ++ (if conn x then [] else [])) with (onq x) by (destruct (conn x); by rewrite app_nil_r). by destruct x.
Qed.

(** ** The server drops clients *)
Lemma to_addr_control a m l : m_type m ≠ DATA → to_addr ((a, m) :: l) = to_addr l.
Proof. intros Hm. unfold to_addr. rewrite filter_cons_False; [done|]. cbn. by intros [_ ?]. Qed.

Lemma drop_sent l : ∀ s : server, ∃ ds, StreamServer.sent (StreamServer.drop_clients l s) = StreamServer.sent s ++ ds ∧ to_addr ds = [] ∧
  StreamServer.online (StreamServer.drop_clients l s) = StreamServer.online s.
Proof.
  induction l as [|a l IH]; intros s; [exists []; by rewrite app_nil_r|]. cbn [StreamServer.drop_clients].
  destruct (StreamServer.clients s !! a) as [c|]; [|apply IH].
  assert (∃ ds, StreamServer.sent (StreamServer.drop_clients l (StreamServer._request_disconnect a (StreamServer.del_client a s))) = StreamServer.sent s ++ ds ∧
    to_addr ds = [] ∧ StreamServer.online (StreamServer.drop_clients l (StreamServer._request_disconnect a (StreamServer.del_client a s))) = StreamServer.online s) as Hd.
  { destruct (IH (StreamServer._request_disconnect a (StreamServer.del_client a s))) as (ds & E1 & E2 & E3).
    unfold StreamServer._request_disconnect in *. destruct (_ =? 0).
    - by exists ds.
    - unfold StreamServer.request_post in E1 at 2. cbn [StreamServer.sent StreamServer.with_sent StreamServer.del_client StreamServer.with_clients] in E1.
      rewrite <-app_assoc in E1. eexists. split; [exact E1|]. split; [|done]. cbn [app]. rewrite to_addr_control; [exact E2|done]. }
  destruct (StreamServer.c_state c); try apply IH; exact Hd.
Qed.

Lemma step_serve_process k cap x K : inv k cap x K →
  ∃ x', step B closes ServeProcess x = Some x' ∧ inv k cap x' K ∧ st_mono x x'.
Proof.
  intros Hinv. pose proof Hinv as [(g0 & L0 & Hg0 & E0) Hsrv Hseq Hrq Hp Hal]. cbn [step].
  assert (∀ a (s : server), (∀ c, StreamServer.clients s !! a = Some c → StreamServer.c_state c = StreamServer.CActive) →
    StreamServerSpec.aside a s (StreamServer._process s)) as Has.
  { intros a s Ha. unfold StreamServer._process. eapply StreamServerSpec.aside_trans; [by apply (StreamServerSpec.drop_clients_aside a (StreamServer.clients_drop s))|done]. }
  destruct (stopped (cl x)) eqn:Es.
  - destruct (step_stopped (λ s, Some (StreamServer._process s)) k cap x K g0 L0 (StreamServer._process (srv x))) as (x' & Hx & Hi & Hm & _); try done; [| |by exists x'].
    + apply drop_steady.
    + unfold StreamServer._process. cbn. by apply StreamServerSpec.good_drop, Hg0.
  - destruct (Hal eq_refl) as (R & o & [(g & L & Hg & -> & Ho) Hon Hc Hcnt Hr Hcap Hpend Hph]).
    destruct (Has addr (srv x)) as (E1 & E2 & E3 & E4 & E5 & _ & E7).
    { intros c Hcl. destruct o as [T|]; [|congruence]. destruct Ho as (c' & rest & Hc1 & Hc2 & _). congruence. }
    destruct (drop_sent (StreamServer.clients_drop (srv x)) (srv x)) as (ds & F1 & F2 & F3).
    rewrite (serve_step _ x (StreamServer._process (srv x)) ds []) by (done || exact F1 || (rewrite app_nil_r; exact F3)).
    eexists. split; [reflexivity|]. split; [|intros m; cbn [srv]; by rewrite E1].
    assert (StreamServerSpec.good (StreamServer._process (srv x)) g L) as Hgs.
    { split; [unfold StreamServerSpec.serves; rewrite E1, E2, E3; apply Hg|]. rewrite E1. unfold StreamServer._process. cbn. apply StreamServerSpec.good_drop, Hg. }
    rewrite F2, app_nil_r. replace (onq x ++ (if conn x then [] else [])) with (onq x) by (destruct (conn x); by rewrite app_nil_r).
    split; cbn [srv cl conn onq repq reqq]; try done; [by exists g, L|by rewrite E4, E7, E3|]. intros _. exists R, o.
    split; cbn [srv cl conn onq repq reqq]; try done. exists g, L. split; [done|]. split; [done|]. cbn [srv]. by rewrite E5, E1.
Qed.

(** ** Requests *)
Lemma make_get_reply rp data : make_reply rp = Some data → i64_ok (last_seq rp) → i64_ok (requested_seq rp) → i64_ok (block_seq rp) →
  get_reply data = Some rp ∧ zlen data = 32.
Proof. intros Hm H1 H2 H3. destruct (reply_roundtrip rp H1 H2 H3) as (b & Hb & Hz & Hg). rewrite Hm in Hb. by injection Hb as ->. Qed.

Lemma step_request k cap x K : inv k cap x K →
  ∃ x', step B closes ServeRequest x = Some x' ∧ inv k cap x' K ∧ st_mono x x'.
Proof.
  intros Hinv. pose proof Hinv as [(g0 & L0 & Hg0 & E0) Hsrv Hseq Hrq Hp Hal]. cbn [step].
  destruct (reqq x) as [|m l] eqn:Eq; [exists x; split; [done|]; split; [done|by intros m]|]. apply Forall_cons in Hrq as [[Hty Hm] Hrq].
  set (x1 := Sys (srv x) (cl x) (conn x) (onq x) (repq x) l). set (m' := with_addr addr m).
  assert (inv k cap x1 K ∨ stopped (cl x) = false) as Hx1.
  { destruct (stopped (cl x)) eqn:Es; [left|by right]. split; try done; [by exists g0, L0|]. cbn [x1 cl]. by rewrite Es. }
  destruct (stopped (cl x)) eqn:Es.
  - destruct Hx1 as [Hx1|]; [|done].
    destruct (StreamServerSpec.request_aside B true m' (srv x) g0 L0 (addr + 1) Hg0) as (s & Hs & Has & Hall); [done| |].
    { cbn. intros Hne. by destruct Hm. }
    destruct (step_stopped (StreamServer._on_request_data B true m') k cap x1 K g0 L0 s) as (x' & Hx & Hi & Hmo & _); try done; [by eapply aside_steady|by exists x'].
  - clear Hx1. destruct (Hal eq_refl) as (R & o & [(g & L & Hg & -> & Ho) Hon Hc Hcnt Hr Hcap Hpend Hph]). rewrite Eq in Hph.
    destruct (decide (m_msgid m = ClientDone_meta_id)) as [Hd|Hd].
    + (* the client is done *)
      pose proof (phase_done _ _ _ _ _ _ _ _ _ _ Hd Hph) as Hph'.
      assert (∃ s ds, StreamServer._on_request_data B true m' (srv x) = Some s ∧ steady (srv x) s ∧ StreamServer.clients s = delete addr (StreamServer.clients (srv x)) ∧
        StreamServer.sent s = StreamServer.sent (srv x) ++ ds ∧ to_addr ds = [] ∧ StreamServer.online s = StreamServer.online (srv x)) as
        (s & ds & Hs & (E1 & E2 & E3 & E4 & E5) & Ecl & Esent & Eds & Eon).
      { unfold StreamServer._on_request_data. change (m_msgid m') with (m_msgid m). rewrite Hd, Z.eqb_refl. change (m_addr m') with addr.
        destruct (StreamServer.clients (srv x) !! addr) as [c|] eqn:Ec.
        - unfold StreamServer._request_disconnect. destruct (_ =? 0).
          + eexists _, []. rewrite app_nil_r. by split_and!.
          + eexists _, [_]. split; [reflexivity|]. split_and!; try done.
        - exists (srv x), []. rewrite app_nil_r. split_and!; try done. by rewrite delete_id. }
      rewrite (serve_step _ x1 s ds [] Hs Esent) by (by rewrite app_nil_r). eexists. split; [reflexivity|].
      split; [|intros m0; cbn [srv]; by rewrite E1]. rewrite Eds. cbn [x1 cl conn onq repq reqq]. rewrite app_nil_r.
      replace (onq x ++ (if conn x then [] else [])) with (onq x) by (destruct (conn x); by rewrite app_nil_r).
      assert (StreamServerSpec.good s g L) as Hgs.
      { split; [unfold StreamServerSpec.serves; rewrite E1, E2, E3; apply Hg|]. rewrite E1, Ecl. apply map_Forall_delete, Hg. }
      split; cbn [srv cl conn onq repq reqq]; try done; [by exists g, L|by rewrite E3, E4, E5|]. intros _. exists R, None.
      split; cbn [srv cl conn onq repq reqq]; try done. exists g, L. split; [done|]. split; [done|]. cbn [srv]. by rewrite Ecl, lookup_delete_eq.
    + (* the request *)
      destruct (phase_request_only _ _ _ _ _ _ _ _ _ _ Hph Hd) as (-> & Erep & -> & name & b & P1 & P2 & P3 & P4 & P5 & P6 & P7 & P8 & P9 & P10 & P11).
      destruct (StreamServerSpec.request_session B b_reads b_open_spec m' (srv x) g L name (data_of k) Hg Ho) as
        (s & Hs & E3 & E4 & E1 & E2 & Eon & E5 & Hcase); [done|cbn [m' m_msgid with_addr]; rewrite P8; exact P9|].
      pose proof (keep_increasing _ _ _ Hg) as HK.
      assert (∀ ds, StreamServer.sent s = StreamServer.sent (srv x) ++ ds → StreamServerSpec.good s g L →
        (∃ o, (match o with
          | None => StreamServer.clients s !! addr = None
          | Some T => ∃ c rest, StreamServer.clients s !! addr = Some c ∧ StreamServer.c_state c = StreamServer.CActive ∧
            StreamServer.c_suspended c = false ∧ StreamServer.c_next c = None ∧
            StreamServerSpec.in_front b_reads (StreamServer.storage s) g c rest ∧ T = keep rest end) ∧
          phase k (cl x) true (onq x) (to_addr ds) [] (keep L) R o) →
        ∃ x', serve (StreamServer._on_request_data B true m') x1 = Some x' ∧ inv k cap x' (keep L) ∧ st_mono x x') as Hgo.
      { intros ds Esent Hgs (o & Ho' & Hph'). rewrite (serve_step _ x1 s ds [] Hs Esent) by (by rewrite app_nil_r). eexists. split; [reflexivity|].
        split; [|intros m0; cbn [srv]; by rewrite E1]. cbn [x1 cl conn onq repq reqq]. rewrite P5, Erep, app_nil_r. cbn [app].
        split; cbn [srv cl conn onq repq reqq]; try done; [by exists g, L|by rewrite E3, E4, E5|]. intros _. exists R, o.
        split; cbn [srv cl conn onq repq reqq]; try done. by exists g, L. }
      destruct Hcase as [(rp & data & bs & c & Hdata & Hgs & Esent & Ecl & Hsus & (c' & Hc' & Hst' & Hf) & Hlast & Harm)|(Ecl & Hgs & (text & dm & Esent & Hdm) & _)].
      * rewrite Ecl in Hc'. change (m_addr m') with addr in *. rewrite lookup_insert_eq in Hc'. injection Hc' as <-.
        apply (Hgo _ Esent Hgs). rewrite <-last_seq_keep in Hlast.
        assert (block_seq rp = -1 ∧ bs = [] ∧ StreamServer.c_next c = None ∧
          match k with KSeq s => requested_seq rp = i64 s | KInit => requested_seq rp = Storage.first_seq (keep L)
          | KLast => keep L ≠ [] ∧ requested_seq rp = Storage.last_seq (keep L) - 1 end) as (Hbl & -> & Hn & Hk).
        { destruct Harm as [Harm Hnext]. assert (StreamServer.initial_reply (StreamServer.cf (srv x)) = None) as Hini by apply Hsrv.
          assert (StreamServerSpec.asked (srv x) L (data_of k) = None) as Hask by (destruct k; cbn; by rewrite ?Hini).
          unfold StreamServerSpec.answered in Harm. rewrite Hask in Harm. destruct Harm as (? & ? & Harm).
          rewrite first_seq_keep, last_seq_keep. split_and!; [done|done|by apply Hnext|]. destruct k; cbn [data_of] in Harm; [done|auto|].
          destruct Harm. split; [|done]. by intros Hn%fmap_nil_inv. }
        rewrite Hbl in Hf. change (-1 =? -1) with true in Hf. cbv iota in Hf. cbn [app] in Hf.
        destruct (replied_new k (keep L) rp (cl x) (keep (Storage.from (requested_seq rp) L)) HK P3 Hseq Hlast Hk) as (a & Hrep & Hrok & Hfrom);
          [by rewrite from_keep|].
        destruct (make_get_reply rp data Hdata) as [Hget Hz]; [rewrite Hlast; by apply last_ok|done|by rewrite Hbl|].
        exists (Some (keep (Storage.from (requested_seq rp) L))). split.
        -- exists c, (Storage.from (requested_seq rp) L). rewrite Ecl. by rewrite lookup_insert_eq.
        -- eapply (ph_reply _ _ _ _ _ _ _ _ _ _ [] rp _ a b); try done; [cbn; lia|by rewrite Hlast].
      * apply (Hgo _ Esent Hgs). exists None. split; [by rewrite Ecl, lookup_delete_eq|].
        eapply (ph_refused _ _ _ _ _ _ _ _ _ (Msg DATA 0 Error_meta_id 0 text (zlen text) addr 0)); try done.
        unfold to_addr. rewrite filter_cons_True by done. cbn [fmap list_fmap]. f_equal.
        clear -Hdm. induction Hdm as [|p dm Hp' _ IH]; [done|]. rewrite filter_cons_False; [exact IH|]. by intros [_ ?].
Qed.
(** ** Steps of the client *)
Lemma alive_ok k cap x K R o : alive k cap x K R o → client_ok cap (cl x) R.
Proof. intros [H1 H2 H3 H4 H5 H6 H7 H8]. by split. Qed.

Lemma drive_inv f k cap (x x1 : sys) K : inv k cap x K → srv x1 = srv x → cl x1 = cl x → reqq x1 = reqq x →
  (stopped (cl x) = false → ∀ R o, alive k cap x K R o →
     ∃ c', f (cl x) = Some c' ∧ Forall (fits cap) (onq x1) ∧ outcome k cap K (conn x1) (onq x1) (repq x1) (reqq x) o (cl x) c') →
  ∃ x', drive f x1 = Some x' ∧ inv k cap x' K ∧ st_mono x x'.
Proof.
  intros [Hg Hsrv Hseq Hrq Hp Hal] E1 E2 E3 Hf. unfold drive. rewrite E2. destruct (stopped (cl x)) eqn:Es.
  - exists x1. split; [done|]. split; [|intros m; by rewrite E1]. split; rewrite ?E1, ?E2, ?E3; try done. by rewrite Es.
  - destruct (Hal eq_refl) as (R & o & Hl). destruct (Hf eq_refl R o Hl) as (c' & -> & Hon & evs & Ho & Hq & Hp' & Hst). cbn [mbind option_bind].
    rewrite Ho, drop_app_length. eexists. split; [reflexivity|]. split; [|intros m; cbn [srv]; by rewrite E1].
    split; cbn [srv cl conn onq repq reqq]; rewrite ?E1, ?E3; try done; [apply Forall_app; by split|].
    intros Hns. destruct (Hst Hns) as (R' & [O1 O2 O3 O4 O5] & Hph). exists R', o.
    split; cbn [srv cl conn onq repq reqq]; rewrite ?E1, ?E3; try done. destruct Hl as [Hses _ _ _ _ _ _ _]. exact Hses.
Qed.

(** Nothing happens. *)
Lemma stay k cap (x : sys) K : inv k cap x K → ∃ x', Some x = Some x' ∧ inv k cap x' K ∧ st_mono x x'.
Proof. intros Hi. exists x. split; [done|]. split; [done|]. by intros m. Qed.

Lemma alive_log k cap x K R o : alive k cap x K R o → Storage.increasing K ∧ StreamServer.s_seq (srv x) = Storage.last_seq K.
Proof.
  intros [(g & L & Hg & -> & _) _ _ _ _ _ _ _]. split; [by eapply keep_increasing|]. rewrite last_seq_keep. apply Hg.
Qed.

Lemma step_connect k cap x K report : inv k cap x K →
  ∃ x', step B closes (Connect report) x = Some x' ∧ inv k cap x' K ∧ st_mono x x'.
Proof.
  intros Hinv. cbn [step]. case_bool_decide as Hch; [|by apply stay]. eapply drive_inv; [exact Hinv|done..|]. intros Hs R o Hl.
  destruct (alive_log _ _ _ _ _ _ Hl) as [HK Hsv]. eexists. split; [reflexivity|]. split; [constructor|].
  eapply (connect_step closes); [done|by eapply alive_ok|exact (a_phase _ _ _ _ _ _ Hl)|done|done|]. destruct report; [right|by left]. done.
Qed.

Lemma step_child k cap x K s : inv k cap x K →
  ∃ x', step B closes (ChildState s) x = Some x' ∧ inv k cap x' K ∧ st_mono x x'.
Proof.
  intros Hinv. cbn [step].
  assert (s = Error ∨ s = Closing ∨ s = Closed → ∃ x', drive (λ c, Some (on_child_state (reliable closes) s c)) x = Some x' ∧ inv k cap x' K ∧ st_mono x x') as Hd.
  { intros Hs. eapply drive_inv; [exact Hinv|done..|]. intros Hst R o Hl. eexists. split; [reflexivity|]. split; [apply Hl|].
    eapply (child_state_step closes); [done|by eapply alive_ok|exact (a_phase _ _ _ _ _ _ Hl)|done]. }
  destruct s; try (by apply stay); apply Hd; auto.
Qed.

Lemma step_reqstate k cap x K s : inv k cap x K →
  ∃ x', step B closes (ReqState s) x = Some x' ∧ inv k cap x' K ∧ st_mono x x'.
Proof.
  intros Hinv. cbn [step].
  assert (s = Error ∨ s = Closing ∨ s = Closed → ∃ x', drive (λ c, Some (on_request_state (reliable closes) s c)) x = Some x' ∧ inv k cap x' K ∧ st_mono x x') as Hd.
  { intros Hs. eapply drive_inv; [exact Hinv|done..|]. intros Hst R o Hl. eexists. split; [reflexivity|]. split; [apply Hl|].
    eapply (req_state_step closes); [done|by eapply alive_ok|exact (a_phase _ _ _ _ _ _ Hl)|done]. }
  destruct s; try (by apply stay); try (apply Hd; by auto).
  case_bool_decide as Hr; [|by apply stay]. eapply drive_inv; [exact Hinv|done..|]. intros Hst R o Hl. eexists. split; [reflexivity|]. split; [apply Hl|].
  eapply (req_active_step closes); [done|by eapply alive_ok|exact (a_phase _ _ _ _ _ _ Hl)|done].
Qed.

Lemma step_process k cap x K : inv k cap x K →
  ∃ x', step B closes Process x = Some x' ∧ inv k cap x' K ∧ st_mono x x'.
Proof.
  intros Hinv. cbn [step]. eapply drive_inv; [exact Hinv|done..|]. intros Hs R o Hl. destruct (alive_log _ _ _ _ _ _ Hl) as [HK _].
  destruct (process_step closes k cap K _ _ _ _ o (cl x) R Hs (alive_ok _ _ _ _ _ _ Hl) (a_phase _ _ _ _ _ _ Hl) HK) as (c' & r & -> & Ho).
  exists c'. split; [done|]. split; [apply Hl|done].
Qed.

Lemma step_online k cap x K : inv k cap x K → calm TakeOnline x = true →
  ∃ x', step B closes TakeOnline x = Some x' ∧ inv k cap x' K ∧ st_mono x x'.
Proof.
  intros Hinv Hcalm. cbn [step calm] in *. destruct (onq x) as [|m l] eqn:Eq; [by apply stay|].
  eapply drive_inv; [exact Hinv|done..|]. intros Hs R o Hl. destruct (alive_log _ _ _ _ _ _ Hl) as [HK _]. cbn [onq conn repq].
  pose proof (a_onq _ _ _ _ _ _ Hl) as Hf. pose proof (a_phase _ _ _ _ _ _ Hl) as Hph. rewrite Eq in Hf, Hph. apply Forall_cons in Hf as [Hm Hf].
  destruct (online_step closes k cap K _ _ _ _ o (cl x) R m Hs (alive_ok _ _ _ _ _ _ Hl) Hph HK Hm) as (c' & -> & Ho); [|by exists c'].
  intros Hov. rewrite Hov in Hcalm. destruct (DataRing.push_back _ _ _ _) as [[r|]|]; try done. by exists r.
Qed.

Lemma step_reply k cap x K : inv k cap x K → calm TakeReply x = true →
  ∃ x', step B closes TakeReply x = Some x' ∧ inv k cap x' K ∧ st_mono x x'.
Proof.
  intros Hinv Hcalm. pose proof (i_seq _ _ _ _ Hinv) as Hi. cbn [step calm] in *. destruct (repq x) as [|m l] eqn:Eq; [by apply stay|].
  eapply drive_inv; [exact Hinv|done..|]. intros Hs R o Hl. destruct (alive_log _ _ _ _ _ _ Hl) as [HK _]. cbn [onq conn repq].
  pose proof (a_phase _ _ _ _ _ _ Hl) as Hph. rewrite Eq in Hph.
  destruct (reply_step closes k cap K _ _ _ _ o (cl x) R m Hs (alive_ok _ _ _ _ _ _ Hl) Hph HK Hi) as (c' & -> & Ho).
  - intros r Hop Hr Hor. rewrite Hop, Hr in Hcalm. rewrite (holds_nil _ _ (a_ring _ _ _ _ _ _ Hl)) in Hcalm.
    apply orb_true_iff in Hcalm as [Hc|Hc]; [by apply bool_decide_eq_true in Hc|].
    apply negb_true_iff, orb_false_iff in Hc as [Hc1%Z.eqb_neq Hc2%Z.eqb_neq]. naive_solver.
  - exists c'. split; [done|]. split; [apply Hl|done].
Qed.

(** ** Runs *)
Definition op_ok (cap : Z) (x : sys) (o : op) : Prop :=
  match o with Post m => Storage.st_ok (StreamServer.storage (srv x)) m ∧ fits cap m | _ => True end.

Lemma stream_step_inv k cap x K o : inv k cap x K → op_ok cap x o → calm o x = true →
  ∃ x' K', step B closes o x = Some x' ∧ inv k cap x' K' ∧ K `prefix_of` K' ∧ st_mono x x'.
Proof.
  intros Hinv Hok Hcalm. destruct o as [m|report|s|s| | | | | |]; [by apply step_post; [|apply Hok..]|..];
    [apply (step_connect _ _ _ _ report) in Hinv|apply (step_child _ _ _ _ s) in Hinv|apply (step_reqstate _ _ _ _ s) in Hinv|apply step_request in Hinv
    |apply step_read in Hinv|apply step_serve_process in Hinv|apply step_online in Hinv; [|done]|apply step_reply in Hinv; [|done]|apply step_process in Hinv];
    destruct Hinv as (x' & H1 & H2 & H3); by exists x', K.
Qed.

Lemma stream_run_inv k cap os : ∀ x K, inv k cap x K → Forall (op_ok cap x) os → calm_run B closes os x = true →
  ∃ x' K', run B closes os x = Some x' ∧ inv k cap x' K' ∧ K `prefix_of` K'.
Proof.
  induction os as [|o os IH]; intros x K Hinv Hok Hcalm; [by exists x, K|]. apply Forall_cons in Hok as [Ho Hok].
  cbn [calm_run] in Hcalm. apply andb_true_iff in Hcalm as [Hc Hcalm].
  destruct (stream_step_inv k cap x K o Hinv Ho Hc) as (x1 & K1 & Hs & Hinv1 & Hp1 & Hmono). rewrite Hs in Hcalm. cbn [run]. rewrite Hs. cbn [mbind option_bind].
  destruct (IH x1 K1 Hinv1) as (x2 & K2 & H1 & H2 & H3); [|done|exists x2, K2; split; [done|]; split; [done|by etrans]].
  eapply Forall_impl; [exact Hok|]. intros o' Ho'. destruct o'; try done. destruct Ho' as [Ha Hb]. split; [by apply Hmono|done].
Qed.

(** When everything has come to rest the client has got all of it. *)
Lemma quiet_all k cap x K : inv k cap x K → quiet B x → chan (cl x) = Active →
  ∃ a, start k a K ∧ dl (cl x) = Storage.from a K ∧ (st (cl x) = SDrain ∨ st (cl x) = SOnline ∨ K = []).
Proof.
  intros Hinv (Q1 & Q2 & Q3 & Q4 & Q5) Hch. destruct (i_alive _ _ _ _ Hinv) as (R & o & Hl); [unfold stopped; by rewrite Hch|].
  pose proof (a_phase _ _ _ _ _ _ Hl) as Hph. rewrite Q1, Q2, Q3 in Hph.
  destruct Hph as [H1 H2 H3 H4 H5 H6 H7|rq name b H1 H2 H3 H4|rm q rp S a b H1 H2 H3 H4|em H1 H2 H3 H4 H5
    |S a H1 H2 H3 H4 H5 H6 H7 H8 H9 H10 H11 H12|a j H1 Hq H2|a z H1 Hq H2 H3 H4 H5 H6 H7 H8 (P & E0 & HP) H10|H1 Hq H2 H3 H4 E0]; try done.
  - exfalso. destruct (a_session _ _ _ _ _ _ Hl) as (g & L & Hg & EK & Ho). subst o. destruct Ho as (c & rest & Hc1 & Hc2 & Hc3 & Hc4 & Hc5 & ->).
    destruct (StreamServerSpec.client_process_spec B b_reads b_next_spec (srv x) g L addr rest (proj1 Hg)) as
      (c' & s & got & rest' & Hc' & Hcp & _ & _ & _ & _ & _ & _ & _ & _ & Es & -> & Hgot); [by exists c|].
    rewrite Hc1 in Hc'. injection Hc' as <-. specialize (Q5 s Hcp). rewrite Q5 in Es.
    assert (got = []) as ->.
    { destruct got as [|y got]; [done|]. exfalso. apply (f_equal length) in Es. rewrite length_app in Es. cbn in Es. lia. }
    destruct (Hgot eq_refl) as [Hr|[Hr|Hr]]; [|congruence|done]. cbn in Hr. subst rest'. done.
  - congruence.
  - exists a. split; [done|]. cbn in E0. rewrite app_nil_r in E0. subst P. split; [|naive_solver].
    assert (Storage.from (z + 1) K = []) as E1 by (pose proof (Storage.from_below (z + 1) K [] HP) as E1; by rewrite app_nil_r in E1).
    by rewrite <-H8, E1, app_nil_r.
  - cbn in E0. subst K. exists (-1). split; [by rewrite H2|]. split; [done|]. auto.
Qed.
(** ** Opening the client *)
Definition mode_kind (m : open_mode) : option kind :=
  match m with
  | Seq (Some s) => if 0 <=? s then Some (KSeq s) else None
  | SeqData (Some s) => if 0 <=? s then Some (KSeq (s + 1)) else None
  | Init => Some KInit
  | Last => Some KLast
  | _ => None
  end.

Definition kind_ok (k : kind) : Prop := match k with KSeq s => s < 2 ^ 63 | _ => True end.

(** The system before the first step. *)
Definition before (s : server) (c : client) : sys := Sys s c false [] [] [].

Lemma mode_request m k f : mode_kind m = Some k → kind_ok k → protocol_old f = false → string_len_ok (peer f) →
  ∃ b0 b r, request_begin (protocol_old f) (peer f) = Some b0 ∧
    open_request b0 m (protocol_old f) = Some (Ok (b, match k with KSeq s => Some s | _ => None end, r)) ∧
    parse_request Request_meta_id b = Some (Ok (peer f, data_of k)) ∧ b ≠ [] ∧
    (match m with Init => true | _ => false end = match k with KInit => true | _ => false end) ∧
    match k with KSeq s => 0 ≤ s < 2 ^ 63 | _ => True end.
Proof.
  intros Hm Hk -> Hp.
  assert (data_ok (data_of k) ∧ match k with KSeq s => 0 ≤ s < 2 ^ 63 | _ => True end) as [Hd Hrange].
  { destruct m as [| |[s|]|[s|]| | |]; cbn in Hm; try done; try (injection Hm as <-; done);
      (destruct (Z.leb_spec 0 s); [injection Hm as <-|done]); cbn in *; lia. }
  destruct (request_parse (peer f) (data_of k) Hp Hd) as (b & Hb & Hpar). unfold request_new in Hb. apply bind_Some in Hb as (b0 & Hb0 & Hb).
  assert (b ≠ []) as Hne by (intros ->; done). exists b0, b.
  destruct m as [| |[s|]|[s|]| | |]; cbn in Hm; try done.
  - destruct (Z.leb_spec 0 s); [injection Hm as <-|done]. exists (ReopenSeq None). unfold open_request. tests. cbn [data_of] in Hb. by rewrite Hb.
  - destruct (Z.leb_spec 0 s); [injection Hm as <-|done]. exists (ReopenSeq None). unfold open_request. tests. cbn [data_of] in Hb. by rewrite Hb.
  - injection Hm as <-. exists ReopenInitial. unfold open_request. cbn [data_of] in Hb. by rewrite Hb.
  - injection Hm as <-. exists ReopenLast. unfold open_request. cbn [data_of] in Hb. by rewrite Hb.
Qed.

Lemma open_inv m k f size (s : server) (g : G) L : mode_kind m = Some k → kind_ok k → protocol_old f = false → string_len_ok (peer f) →
  128 ≤ Z.of_nat size < 2 ^ 32 → StreamServerSpec.good s g L → Forall (λ m, i64_ok (m_seq m)) L → StreamServer.clients s !! addr = None →
  AutoSeq.enable (StreamServer.autoseq s) = false → StreamServer.wait_control s = false → StreamServer.initial_reply (StreamServer.cf s) = None →
  ∃ c, open (reliable closes) m (init f size) = Some (c, 0) ∧ inv k (Z.of_nat size) (before s c) (keep L).
Proof.
  intros Hm Hk Hold Hpeer Hsize Hg Hseq Hcl Ha Hw Hi.
  destruct (mode_request m k f Hm Hk Hold Hpeer) as (b0 & b & r & Hb0 & Hreq & Hpar & Hne & Hini & Hrange).
  unfold open. rewrite bool_decide_true by done. cbn [negb]. unfold set_state. rewrite bool_decide_false by done.
  assert (∃ c1, emit (reliable closes) (Changed Opening) (with_chan Opening (u32 (count (init f size) + 1)) (init f size)) = c1 ∧ cf c1 = f ∧
    silent (out c1) ∧ ring c1 = DataRing.make (size / 64) size ∧ pending c1 = false ∧ count_ok c1 ∧
    (chan c1 = Closing ∨ chan c1 = Opening ∧ request_st c1 = Closed)) as (c1 & -> & E1 & E2 & E3 & E4 & E5 & E6).
  { eexists. split; [reflexivity|]. unfold emit. destruct (StreamClient.closes _ _); cbn; split_and!; try done; [by left|by right]. }
  unfold _open. cbn [cf with_reopen with_seq with_server with_open with_ring with_st]. rewrite E1, Hb0. cbn [mbind option_bind]. rewrite Hreq.
  cbn [mbind option_bind child_open reliable]. rewrite Z.eqb_refl. eexists. split; [reflexivity|].
  set (c := log ChildOpen _). assert (dl c = []) as Hd.
  { rewrite (dl_silent c1 c [ChildOpen]) by done. apply E2. }
  assert (Forall (λ m, i64_ok (m_seq m)) (keep L)) as Hseq' by (by apply Forall_fmap).
  split; cbn [before srv cl conn onq repq reqq]; try done; [by exists g, L|by left|]. intros Hs.
  destruct E6 as [E6|[E6 E7]]; [by unfold stopped in Hs; cbn in Hs; rewrite E6 in Hs|]. exists [], None.
  assert (2 ≤ Z.of_nat (size / 64) < 2 ^ 32) as Hent.
  { rewrite Nat2Z.inj_div. split; [apply Z.div_le_lower_bound; lia|apply Z.div_lt_upper_bound; lia]. }
  assert (ring c = DataRing.clear (DataRing.make (size / 64) size)) as Er by (rewrite <-E3; done).
  split; cbn [before srv cl conn onq repq reqq]; try done.
  - by exists g, L.
  - cbn. by rewrite E6.
  - rewrite Er. eapply holds_clear. split; [|constructor]. apply (DataRing.rep_make frame_size). lia.
  - rewrite Er. unfold DataRing.clear, DataRing.make, VecRing.clear, VecRing.make, zlen. cbn [DataRing.bytes DataRing.index VecRing.data].
    rewrite !length_replicate. lia.
  - apply ph_idle; try done.
    + split; try done; [by exists (peer f)|cbn; by rewrite E1].
    + cbn. by rewrite E6.
    + cbn. by rewrite E7.
Qed.
End Inv.

(** For every mode of opening.  [mode=last] starts one number before the last
    message of the log at the time of the request ([start KLast]). *)
Lemma stream_any {W R G BW BR : Type} `{Storage.Storage W R G} (B : StreamServer.blocks_ops BW BR) (b_reads : BR → list msg → Prop)
  (b_next_spec : ∀ rd rest, b_reads rd rest → ∃ rd', StreamServer.b_next B rd = (head rest, rd') ∧ b_reads rd' (tail rest))
  (b_open_spec : ∀ bw t i first last rd, StreamServer.b_open B bw t i = Some (first, last, rd) → ∃ ms, b_reads rd ms)
  (closes : event → bool) m k f size (s : @StreamServer.server W R BW BR) (g : G) L c r os :
  mode_kind m = Some k → kind_ok k → protocol_old f = false → string_len_ok (peer f) → 128 ≤ Z.of_nat size < 2 ^ 32 →
  StreamServerSpec.good s g L → Forall (λ m, i64_ok (m_seq m)) L → StreamServer.clients s !! addr = None →
  AutoSeq.enable (StreamServer.autoseq s) = false → StreamServer.wait_control s = false → StreamServer.initial_reply (StreamServer.cf s) = None →
  open (reliable closes) m (init f size) = Some (c, r) →
  Forall (op_ok (Z.of_nat size) (before s c)) os → calm_run B closes os (before s c) = true →
  r = 0 ∧ ∃ x g' L', run B closes os (before s c) = Some x ∧ StreamServerSpec.good (srv x) g' L' ∧ keep L `prefix_of` keep L' ∧
    promise k (keep L') (dl (cl x)) ∧
    (quiet B x → chan (cl x) = Active →
       ∃ a, start k a (keep L') ∧ dl (cl x) = Storage.from a (keep L') ∧ (st (cl x) = SDrain ∨ st (cl x) = SOnline ∨ L' = [])).
Proof.
  intros Hm Hk Hold Hpeer Hsize Hg Hseq Hcl Ha Hw Hi Hopen Hos Hcalm.
  destruct (open_inv b_reads closes m k f size s g L Hm Hk Hold Hpeer Hsize Hg Hseq Hcl Ha Hw Hi) as (c' & Hc & Hinv).
  rewrite Hopen in Hc. injection Hc as <- ->. split; [done|].
  destruct (stream_run_inv B b_reads b_next_spec b_open_spec closes k (Z.of_nat size) os _ _ Hinv Hos Hcalm) as (x & K' & Hrun & Hinv' & Hpre).
  destruct (i_good _ _ _ _ _ Hinv') as (g' & L' & Hg' & ->). exists x, g', L'. split; [done|]. split; [done|]. split; [done|].
  split; [apply (i_promise _ _ _ _ _ Hinv')|]. intros Hq Hch.
  destruct (quiet_all B b_reads b_next_spec k (Z.of_nat size) x (keep L') Hinv' Hq Hch) as (a & H1 & H2 & H3).
  exists a. split; [done|]. split; [done|]. destruct H3 as [?|[?|H3]]; auto. right; right. by apply fmap_nil_inv in H3.
Qed.

(** C3: a client of a stream gets the log of the server. The client is opened
    from a number or from the first message (not with mode=last: [last_two]),
    with the new form of requests and without blocks, on a server that has accepted [L]; then posts, deliveries,
    reads, reports of the channels and closes in callbacks come in any order,
    in which the calls that lose messages do not come up ([calm]: what is
    published before the reply is taken, and messages that the ring drops
    while it is played back). All handlers are defined, the log of the server
    only grows, and what the user of the client has got is at every moment the
    beginning of the log from the number asked for (all of it from the first
    message), without a gap, a repetition or a change of order, also when the
    user closes the client in a callback; and when nothing is on its way and
    nobody has anything to do, an Active client has got all of it. *)
Theorem stream_linear {W R G BW BR : Type} `{Storage.Storage W R G} (B : StreamServer.blocks_ops BW BR) (b_reads : BR → list msg → Prop)
  (b_next_spec : ∀ rd rest, b_reads rd rest → ∃ rd', StreamServer.b_next B rd = (head rest, rd') ∧ b_reads rd' (tail rest))
  (b_open_spec : ∀ bw t i first last rd, StreamServer.b_open B bw t i = Some (first, last, rd) → ∃ ms, b_reads rd ms)
  (closes : event → bool) m k f size (s : @StreamServer.server W R BW BR) (g : G) L c r os :
  mode_kind m = Some k → k ≠ KLast → kind_ok k → protocol_old f = false → string_len_ok (peer f) → 128 ≤ Z.of_nat size < 2 ^ 32 →
  StreamServerSpec.good s g L → Forall (λ m, i64_ok (m_seq m)) L → StreamServer.clients s !! addr = None →
  AutoSeq.enable (StreamServer.autoseq s) = false → StreamServer.wait_control s = false → StreamServer.initial_reply (StreamServer.cf s) = None →
  open (reliable closes) m (init f size) = Some (c, r) →
  Forall (op_ok (Z.of_nat size) (before s c)) os → calm_run B closes os (before s c) = true →
  r = 0 ∧ ∃ x g' L', run B closes os (before s c) = Some x ∧ StreamServerSpec.good (srv x) g' L' ∧ keep L `prefix_of` keep L' ∧
    promise k (keep L') (dl (cl x)) ∧
    (quiet B x → chan (cl x) = Active →
       ∃ a, start k a (keep L') ∧ dl (cl x) = Storage.from a (keep L') ∧ (st (cl x) = SDrain ∨ st (cl x) = SOnline ∨ L' = [])).
Proof. intros ? _. by apply (stream_any B b_reads b_next_spec b_open_spec). Qed.

(** ** Concrete runs *)
#[local] Existing Instance Storage.mem_storage.

Definition client_of (m : open_mode) (size : nat) : client :=
  match open (reliable (λ _, false)) m (init (Conf [97] true true false) size) with
  | Some (c, _) => c
  | None => init (Conf [97] true true false) size
  end.

Definition sample_client : client := client_of (Seq (Some 10)) 1024.

Definition empty_server : @StreamServer.server (list msg) nat unit (list msg) :=
  StreamServer.Server (StreamServer.Conf 100 None false 0 0 0 (λ _, [])) [] None (-1) (AutoSeq.AutoSeqT (-1) false) false false ∅ [] false [] [].

(** A client that asks for everything from 10 on while the server goes on posting. *)
Definition sample_run : list op :=
  [Connect true; ReqState Active; ServeRequest; TakeReply; ServeRead; TakeReply; Post (StreamServerSpec.sample_msg 30); TakeOnline;
   ServeRead; TakeReply; ServeRead; TakeReply; Process; ServeRequest; Process; Post (StreamServerSpec.sample_msg 40); TakeOnline].

(** The state of the client and the numbers the user has got after a run. *)
Definition got (s : @StreamServer.server (list msg) nat unit (list msg)) (c : client) (os : list op) : option (state * State * list Z) :=
  let! x := run StreamServerSpec.no_blocks (λ _, false) os (before s c) in
  Some (chan (cl x), st (cl x), m_seq <$> dl (cl x)).

(** *** Runs that are not calm *)

(** The first online message is faster than the reply that says there is nothing old: it stays in the ring for ever. *)
Lemma lost_before_reply : got StreamServerSpec.sample_server (client_of (Seq (Some 21)) 1024)
  [Connect true; ReqState Active; ServeRequest; Post (StreamServerSpec.sample_msg 30); TakeOnline; TakeReply; ServeRead; TakeReply; Process;
   Post (StreamServerSpec.sample_msg 40); TakeOnline] = Some (Active, SOnline, [40]).
Proof. vm_compute. reflexivity. Qed.

(** The same when the server has nothing at all. *)
Lemma lost_before_initial : got empty_server (client_of Init 1024)
  [Connect true; ReqState Active; ServeRequest; Post (StreamServerSpec.sample_msg 30); TakeOnline; TakeReply; Process;
   Post (StreamServerSpec.sample_msg 40); TakeOnline] = Some (Active, SOnline, [40]).
Proof. vm_compute. reflexivity. Qed.

(** The ring drops messages while it is played back. *)
Lemma lost_in_overlap : got StreamServerSpec.sample_server (client_of (Seq (Some 10)) 192)
  [Connect true; ReqState Active; ServeRequest; TakeReply; Post (StreamServerSpec.sample_msg 21); TakeOnline; ServeRead; ServeRead;
   TakeReply; TakeReply; ServeRequest; Post (StreamServerSpec.sample_msg 22); TakeOnline; Post (StreamServerSpec.sample_msg 23); TakeOnline;
   Post (StreamServerSpec.sample_msg 24); TakeOnline; Process; Process; Process] = Some (Active, SOnline, [10; 20; 23; 24]).
Proof. vm_compute. reflexivity. Qed.

(** A calm run that ends in Error: an online message that has been read from the storage already. *)
Lemma late_online : got StreamServerSpec.sample_server sample_client
  [Connect true; ReqState Active; ServeRequest; TakeReply; ServeRead; TakeReply; Post (StreamServerSpec.sample_msg 30); TakeOnline;
   Post (StreamServerSpec.sample_msg 40); ServeRead; ServeRead; ServeRead; TakeReply; TakeReply; TakeReply; Process; TakeOnline] =
  Some (Error, SOnline, [10; 20; 30; 40]).
Proof. vm_compute. reflexivity. Qed.

(** [mode=last]: the client gets the last two messages when their numbers are consecutive. *)
Lemma last_two : got StreamServerSpec.sample_server (client_of Last 1024)
  [Post (StreamServerSpec.sample_msg 21); Connect true; ReqState Active; ServeRequest; TakeReply; ServeRead; TakeReply; ServeRead; TakeReply;
   Process; Process] = Some (Active, SDrain, [20; 21]).
Proof. vm_compute. reflexivity. Qed.

Lemma stream_linear_witness :
  0 = 0 ∧ ∃ x g' L', run StreamServerSpec.no_blocks (λ _, false) sample_run (before StreamServerSpec.sample_server sample_client) = Some x ∧
    StreamServerSpec.good (srv x) g' L' ∧ keep [StreamServerSpec.sample_msg 10; StreamServerSpec.sample_msg 20] `prefix_of` keep L' ∧
    promise (KSeq 10) (keep L') (dl (cl x)) ∧
    (quiet StreamServerSpec.no_blocks x → chan (cl x) = Active →
       ∃ a, start (KSeq 10) a (keep L') ∧ dl (cl x) = Storage.from a (keep L') ∧ (st (cl x) = SDrain ∨ st (cl x) = SOnline ∨ L' = [])).
Proof.
  apply (stream_linear StreamServerSpec.no_blocks (λ r l, r = l)) with
    (m := Seq (Some 10)) (f := Conf [97] true true false) (size := 1024%nat) (g := tt).
  - intros rd rest ->. by exists (tail rest).
  - done.
  - done.
  - done.
  - done.
  - done.
  - done.
  - lia.
  - apply StreamServerSpec.sample_good.
  - by repeat constructor.
  - done.
  - done.
  - done.
  - done.
  - vm_compute. reflexivity.
  - unfold sample_run. by repeat constructor.
  - vm_compute. reflexivity.
Defined.
End StreamSpec.
