(* ===== verification/MemChannel.v ===== *)
(** * Memory channels

    src/channel/mem.cc with src/channel/mem.h and src/tll/channel/event.h,
    src/tll/channel/event.hpp: a pair of channels in one process, each of which may belong to
    its own thread.  A message goes through a ring (any instance of [Fifo]) behind a
    frame; an event descriptor wakes the reader.

    A call is a sequence of steps, one for every access to what the threads share (a ring, an event, the
    state and the rings of the master), so that the calls of the two threads may interleave: [_open], [_close], [_post] and
    [_process] start a call, [next] is its next step, and a channel whose [pc] is [Ret] has none in progress. *)
From S2P Require Import Prelude Mem Fifo Callback Channel Binder StreamScheme.
Import Cb Binder StreamScheme.

(** ** Frames of messages *)
Module MemFrame.
Import Chan.

(** The template parameter of the channel. *)
Inductive frame := Short | Full.

#[export] Instance frame_eq_dec : EqDecision frame.
Proof. solve_decision. Defined.

Definition sizeof_frame (k : frame) : Z := match k with Short => 16 | Full => 32 end.

(** [*data = *msg]: the frame that is made of a message. *)
Definition put_frame (k : frame) (m : msg) : list Z :=
  match k with
  | Short => le_bytes 8 (m_seq m) ++ le_bytes 4 (m_msgid m) ++ le_bytes 4 0
  | Full =>
      le_bytes 8 (m_seq m) ++ le_bytes 4 (m_msgid m) ++ le_bytes 2 (type_bit (m_type m)) ++ le_bytes 2 (m_flags m) ++
      le_bytes 8 (m_addr m) ++ le_bytes 8 (m_time m)
  end.

Definition encode (k : frame) (m : msg) : list Z := put_frame k m ++ m_data m.

Definition type_of (z : Z) : option msg_type :=
  if z =? 0 then Some DATA else if z =? 1 then Some CONTROL else if z =? 2 then Some STATE else if z =? 3 then Some CHANNEL else None.

(** [fill] of a message that is all zeros, then its size and body. *)
Definition decode (k : frame) (b : list Z) : option msg :=
  let body := drop (Z.to_nat (sizeof_frame k)) b in
  let! seq := get_signed 8 b 0 in
  let! msgid := get_signed 4 b 8 in
  match k with
  | Short => Some (Msg DATA 0 msgid seq body (zlen b - sizeof_frame k) 0 0)
  | Full =>
      let! t := get_signed 2 b 12 in
      let! t := type_of t in
      let! flags := get_signed 2 b 14 in
      let! addr := _get_scalar 8 b 16 in
      let! time := get_signed 8 b 24 in
      Some (Msg t flags msgid seq body (zlen b - sizeof_frame k) addr time)
  end.

(** What is left of a message on the other side. *)
Definition view (k : frame) (m : msg) : msg :=
  match k with
  | Short => Msg DATA 0 (m_msgid m) (m_seq m) (m_data m) (m_size m) 0 0
  | Full => m
  end.

(** The ranges of the fields of [tll_msg_t]. *)
Record msg_wf (m : msg) : Prop := {
  mw_flags : - 2 ^ 15 ≤ m_flags m < 2 ^ 15;
  mw_msgid : - 2 ^ 31 ≤ m_msgid m < 2 ^ 31;
  mw_seq : - 2 ^ 63 ≤ m_seq m < 2 ^ 63;
  mw_addr : 0 ≤ m_addr m < 2 ^ 64;
  mw_time : - 2 ^ 63 ≤ m_time m < 2 ^ 63;
  mw_size : m_size m = zlen (m_data m);
}.

Lemma zlen_put_frame k m : zlen (put_frame k m) = sizeof_frame k.
Proof. destruct k; unfold put_frame; by rewrite !zlen_app, !zlen_le_bytes. Qed.

Lemma zlen_encode k m : zlen (encode k m) = sizeof_frame k + zlen (m_data m).
Proof. unfold encode. by rewrite zlen_app, zlen_put_frame. Qed.

Lemma load_field (a b c : list Z) : mem_load (a ++ b ++ c) (zlen a) (zlen b) = Some b.
Proof.
  pose proof (zlen_nonneg a). pose proof (zlen_nonneg b). pose proof (zlen_nonneg c).
  apply mem_load_Some. rewrite !zlen_app. do 3 (split; [lia|]).
  unfold zlen. rewrite !Nat2Z.id, drop_app_length. by rewrite take_app_length.
Qed.

Lemma scalar_field n (a c : list Z) v off : zlen a = off →
  _get_scalar n (a ++ le_bytes n v ++ c) off = Some (v mod 256 ^ Z.of_nat n).
Proof.
  intros <-. unfold _get_scalar. pose proof (load_field a (le_bytes n v) c) as L. rewrite zlen_le_bytes in L.
  rewrite L. cbn. by rewrite le_value_bytes.
Qed.

Lemma signed_field n (a c : list Z) v off : zlen a = off → (0 < n)%nat →
  - 2 ^ (8 * Z.of_nat n - 1) ≤ v < 2 ^ (8 * Z.of_nat n - 1) →
  get_signed n (a ++ le_bytes n v ++ c) off = Some v.
Proof.
  intros Ha Hn Hv. unfold get_signed. rewrite (scalar_field n a c v off Ha). cbn [mbind option_bind].
  replace (256 ^ Z.of_nat n) with (2 ^ (8 * Z.of_nat n)) by (rewrite Z.pow_mul_r by lia; done).
  by rewrite wraps_mod by lia.
Qed.

Lemma signed_first n (c : list Z) v : (0 < n)%nat →
  - 2 ^ (8 * Z.of_nat n - 1) ≤ v < 2 ^ (8 * Z.of_nat n - 1) → get_signed n (le_bytes n v ++ c) 0 = Some v.
Proof. apply (signed_field n [] c v 0). done. Qed.

Lemma body_of_frame k m : drop (Z.to_nat (sizeof_frame k)) (encode k m) = m_data m.
Proof.
  unfold encode. rewrite <-(zlen_put_frame k m). unfold zlen. by rewrite Nat2Z.id, drop_app_length.
Qed.

Lemma type_of_bit t : type_of (type_bit t) = Some t.
Proof. by destruct t. Qed.

Lemma type_bit_range t : - 2 ^ (8 * Z.of_nat 2 - 1) ≤ type_bit t < 2 ^ (8 * Z.of_nat 2 - 1).
Proof. by destruct t. Qed.

(** The other side reads what the frame keeps. *)
Lemma frame_decode_encode k m : msg_wf m → decode k (encode k m) = Some (view k m).
Proof.
  intros [Hf Hi Hs Ha Ht Hz]. unfold decode. rewrite body_of_frame, zlen_encode, Z.add_simpl_l, <-Hz.
  unfold encode, put_frame. destruct k; rewrite <-!app_assoc.
  - rewrite signed_first by (done || lia). cbn [mbind option_bind].
    by rewrite (signed_field 4 (le_bytes 8 (m_seq m)) _ (m_msgid m)) by (rewrite ?zlen_le_bytes; done || lia).
  - rewrite signed_first by (done || lia). cbn [mbind option_bind].
    rewrite (signed_field 4 (le_bytes 8 (m_seq m)) _ (m_msgid m)) by (rewrite ?zlen_le_bytes; done || lia).
    cbn [mbind option_bind]. rewrite (app_assoc (le_bytes 8 _) (le_bytes 4 _)).
    rewrite (signed_field 2 _ _ _ 12) by (rewrite ?zlen_app, ?zlen_le_bytes; done || lia || apply type_bit_range).
    cbn [mbind option_bind]. rewrite type_of_bit. cbn [mbind option_bind]. rewrite (app_assoc (_ ++ _)).
    rewrite (signed_field 2 _ _ _ 14) by (rewrite ?zlen_app, ?zlen_le_bytes; done || lia).
    cbn [mbind option_bind]. rewrite (app_assoc (_ ++ _)).
    rewrite scalar_field by (rewrite ?zlen_app, ?zlen_le_bytes; done).
    cbn [mbind option_bind]. rewrite (app_assoc (_ ++ _)).
    rewrite (signed_field 8 _ _ _ 24) by (rewrite ?zlen_app, ?zlen_le_bytes; done || lia).
    cbn [mbind option_bind]. rewrite Z.mod_small by (cbn; lia). by destruct m.
Qed.
End MemFrame.

(** ** Event descriptors *)

(** What Linux documents of [eventfd(0, EFD_NONBLOCK)]: a counter; a write adds one unless that would reach
    its maximum, a read takes all of it and fails with EAGAIN when there is nothing. *)
Class EventFd (E : Type) := {
  efd_new : E;
  efd_write : E → result errno E;
  efd_read : E → result errno E;
  efd_count : E → Z;
  efd_count_new : efd_count efd_new = 0;
  efd_count_pos e : 0 ≤ efd_count e;
  efd_write_ok e : efd_count e < 2 ^ 64 - 2 → ∃ e', efd_write e = Ok e' ∧ efd_count e' = efd_count e + 1;
  efd_read_zero e : efd_count e = 0 → efd_read e = Err EAGAIN;
  efd_read_ok e : 0 < efd_count e → ∃ e', efd_read e = Ok e' ∧ efd_count e' = 0;
}.

Module MemChannel.
Import Chan MemFrame.

(** The master of the pair, which makes the rings, and the channel that has it as its master. *)
Inductive side := Master | Child.

#[export] Instance side_eq_dec : EqDecision side.
Proof. solve_decision. Defined.

Definition other (s : side) : side := match s with Master => Child | Child => Master end.

(** Where a call stands: it has returned, or what it is going to do next. *)
Inductive pc :=
| Ret (r : result errno unit)
| Notify                 (* _post: _rout->notify.notify() *)
| CopyRings              (* _open of a child: the rings of the master, under its lock *)
| SetNotify              (* _open of a child: _rin->notify = event_detached() *)
| Arm                    (* _open: _empty() *)
| ArmNotify              (* _open: event_notify() *)
| Shift                  (* _process: ring_shift *)
| Empty                  (* _process: _empty() *)
| Rearm1                 (* event_clear_race: rearm() *)
| Clear                  (* event_clear_race: _event_clear_nocheck() *)
| Rearm2                 (* event_clear_race: rearm() after it *)
| Rearm.                 (* event_clear_race: _event_notify_nocheck() *)

#[export] Instance pc_eq_dec : EqDecision pc.
Proof. solve_decision. Defined.

(** A channel: its descriptor and its rings, [None] for -1 and for null. *)
Record chan := Chan {
  st : state;
  fd : option nat;
  _rin : option nat;
  _rout : option nat;
  pending : bool;      (* TLL_DCAPS_PENDING *)
  _sibling : bool;     (* the other channel exists *)
  at_ : pc;
}.

Definition set_st (s : state) (c : chan) : chan := Chan s (fd c) (_rin c) (_rout c) (pending c) (_sibling c) (at_ c).
Definition set_fd (d : option nat) (c : chan) : chan := Chan (st c) d (_rin c) (_rout c) (pending c) (_sibling c) (at_ c).
Definition set_rings (i o : option nat) (c : chan) : chan := Chan (st c) (fd c) i o (pending c) (_sibling c) (at_ c).
Definition _dcaps_pending (p : bool) (c : chan) : chan := Chan (st c) (fd c) (_rin c) (_rout c) p (_sibling c) (at_ c).
Definition set_sibling (b : bool) (c : chan) : chan := Chan (st c) (fd c) (_rin c) (_rout c) (pending c) b (at_ c).
Definition goto (p : pc) (c : chan) : chan := Chan (st c) (fd c) (_rin c) (_rout c) (pending c) (_sibling c) p.
Definition ret (r : result errno unit) : chan → chan := goto (Ret r).
(** A call that fails leaves the channel in the state Error. *)
Definition fail (e : errno) (c : chan) : chan := ret (Err e) (set_st Error c).

Section Channels.
Context {Q E : Type} `{Fifo Q} `{EventFd E}.
Variable kind : frame.
(** [ring_init] with the size of the channel; [None] when there is no memory. *)
Variable ring_new : option Q.
(** [_with_fd], which the child takes from its master. *)
Variable with_fd : bool.

(** [Ring]: the buffer and the detached descriptor of its reader.  [sent] and [got] record
    the messages whose post has stored them and those given to the user of the reader. *)
Record ring := MkRing { queue : Q; notify : option nat; sent : list msg; got : list msg }.

Record sys := Sys { rings : list ring; events : list E; master : chan; child : chan }.

Definition get (s : side) (x : sys) : chan := match s with Master => master x | Child => child x end.
Definition set (s : side) (c : chan) (x : sys) : sys :=
  match s with
  | Master => Sys (rings x) (events x) c (child x)
  | Child => Sys (rings x) (events x) (master x) c
  end.
Definition upd (s : side) (f : chan → chan) (x : sys) : sys := set s (f (get s x)) x.
Definition set_ring (r : nat) (g : ring) (x : sys) : sys := Sys (<[r := g]> (rings x)) (events x) (master x) (child x).
Definition set_event (e : nat) (v : E) (x : sys) : sys := Sys (rings x) (<[e := v]> (events x)) (master x) (child x).

Definition closed_chan : chan := Chan Closed None None None false true (Ret (Ok tt)).

(** After [_init] of both channels: each knows the other. *)
Definition init : sys := Sys [] [] closed_chan closed_chan.

(** [_free]: the other channel forgets this one. *)
Definition _free (s : side) (x : sys) : sys :=
  if _sibling (get s x) then upd (other s) (set_sibling false) x else x.

(** *** Events *)

(** [EventNotify::notify] and [event_notify]. *)
Definition notify_fd (d : option nat) (x : sys) : option (result errno sys) :=
  match d with
  | None => Some (Ok x)
  | Some e =>
      let! v := events x !! e in
      Some (match efd_write v with Ok v => Ok (set_event e v x) | Err r => Err r end)
  end.

(** [_event_clear_nocheck] with the policy Strict. *)
Definition clear_fd (d : option nat) (x : sys) : option (result errno sys) :=
  let! e := d in
  let! v := events x !! e in
  Some (match efd_read v with Ok v => Ok (set_event e v x) | Err _ => Err EINVAL end).

(** *** Rings *)
Definition _empty (s : side) (x : sys) : option bool :=
  let! r := _rin (get s x) in
  let! g := rings x !! r in
  let! q := fifo_read (queue g) in
  Some (bool_decide (q = Err EAGAIN)).

Definition with_notify (d : option nat) (g : ring) : ring := MkRing (queue g) d (sent g) (got g).

(** *** Opening and closing *)
Definition event_open (s : side) (x : sys) : sys :=
  if with_fd then
    upd s (set_fd (Some (length (events x)))) (Sys (rings x) (events x ++ [efd_new]) (master x) (child x))
  else x.

Definition open_master (x : sys) : sys :=
  match ring_new, ring_new with
  | Some i, Some o =>
      let n := length (rings x) in
      upd Master (λ c, goto Arm (set_rings (Some n) (Some (S n)) c))
        (Sys (rings x ++ [MkRing i (fd (master x)) [] []; MkRing o None [] []]) (events x) (master x) (child x))
  | _, _ => upd Master (fail EINVAL) x
  end.

(** The checks of a child; the master may be closed by its thread after them. *)
Definition open_child (x : sys) : sys :=
  if negb (_sibling (child x)) then upd Child (fail EINVAL) x else
  if negb (bool_decide (st (master x) = Active)) then upd Child (fail EINVAL) x else
  upd Child (goto CopyRings) x.

(** [_rin = _sibling->_rout; _rout = _sibling->_rin] under the lock that [_close] of the master takes. *)
Definition copy_rings (x : sys) : sys :=
  upd Child (λ c, goto SetNotify (set_rings (_rout (master x)) (_rin (master x)) c)) x.

(** [None] when there is no ring to point to. *)
Definition set_notify (x : sys) : option sys :=
  let! r := _rin (child x) in
  let! g := rings x !! r in
  Some (upd Child (goto Arm) (set_ring r (with_notify (fd (child x)) g) x)).

Definition _open (s : side) (x : sys) : sys :=
  let x := event_open s (upd s (set_st Opening) x) in
  match s with Master => open_master x | Child => open_child x end.

Definition _close (s : side) (x : sys) : sys :=
  upd s (λ c, ret (Ok tt) (set_st Closed (_dcaps_pending false (set_rings None None (set_fd None c))))) x.

(** *** Posting *)
Definition posted (m : msg) : bool :=
  match m_type m with
  | DATA => true
  | CONTROL => bool_decide (kind = Full)
  | STATE | CHANNEL => false
  end.

Definition _post (s : side) (m : msg) (x : sys) : option sys :=
  if negb (posted m) then Some (upd s (ret (Ok tt)) x) else
  let! r := _rout (get s x) in
  let! g := rings x !! r in
  let! q := fifo_push (queue g) (encode kind m) in
  Some (match q with
        | Ok q => upd s (goto Notify) (set_ring r (MkRing q (notify g) (sent g ++ [m]) (got g)) x)
        | Err e => upd s (ret (Err e)) x
        end).

(** *** Processing *)
Definition _process (s : side) (x : sys) : option sys :=
  let! r := _rin (get s x) in
  let! g := rings x !! r in
  let! b := fifo_read (queue g) in
  match b with
  | Err _ => Some (upd s (ret (Err EAGAIN)) x)
  | Ok b =>
      if zlen b <? sizeof_frame kind then Some (upd s (fail EMSGSIZE) x) else
      let! m := decode kind b in
      Some (upd s (goto Shift) (set_ring r (MkRing (queue g) (notify g) (sent g) (got g ++ [m])) x))
  end.

(** [event_clear_race] with the test of [_process]: that the ring is not empty. *)
Definition event_clear_race (s : side) (x : sys) : option sys :=
  match at_ (get s x) with
  | Rearm1 =>
      let! e := _empty s x in
      Some (if (e : bool) then upd s (goto Clear) x else upd s (ret (Ok tt)) x)
  | Clear =>
      let! n := clear_fd (fd (get s x)) x in
      Some (match n with Ok x => upd s (goto Rearm2) x | Err _ => upd s (fail EINVAL) x end)
  | Rearm2 =>
      let! e := _empty s x in
      Some (if (e : bool) then upd s (ret (Ok tt)) x else upd s (goto Rearm) x)
  | Rearm =>
      let! n := notify_fd (fd (get s x)) x in
      Some (match n with Ok x => upd s (ret (Ok tt)) x | Err _ => upd s (fail EINVAL) x end)
  | _ => Some x
  end.

(** The next step of a call. *)
Definition next (s : side) (x : sys) : option sys :=
  match at_ (get s x) with
  | Ret _ => Some x
  | Notify =>
      let! r := _rout (get s x) in
      let! g := rings x !! r in
      let! n := notify_fd (notify g) x in
      Some (match n with Ok x => upd s (ret (Ok tt)) x | Err _ => upd s (ret (Err EINVAL)) x end)
  | CopyRings => Some (copy_rings x)
  | SetNotify => set_notify x
  | Arm =>
      let! e := _empty s x in
      Some (if (e : bool) then upd s (λ c, ret (Ok tt) (set_st Active c)) x else upd s (goto ArmNotify) x)
  | ArmNotify =>
      (* the result of event_notify is not looked at *)
      let! n := notify_fd (fd (get s x)) x in
      let x := match n with Ok x => x | Err _ => x end in
      Some (upd s (λ c, ret (Ok tt) (set_st Active c)) x)
  | Shift =>
      let! r := _rin (get s x) in
      let! g := rings x !! r in
      let! q := fifo_shift (queue g) in
      let q := match q with Ok q => q | Err _ => queue g end in
      Some (upd s (goto Empty) (set_ring r (MkRing q (notify g) (sent g) (got g)) x))
  | Empty =>
      let! e := _empty s x in
      let x := upd s (_dcaps_pending (negb e)) x in
      Some (if negb e || bool_decide (fd (get s x) = None) then upd s (ret (Ok tt)) x else upd s (goto Rearm1) x)
  | Rearm1 | Clear | Rearm2 | Rearm => event_clear_race s x
  end.

(** A call without interruption. *)
Fixpoint finish (n : nat) (s : side) (x : sys) : option sys :=
  match n with O => Some x | S n => let! x := next s x in finish n s x end.

(** The longest call is [_process] with eight accesses. *)
Definition calls (s : side) (f : sys → option sys) (x : sys) : option sys := let! x := f x in finish 8 s x.
End Channels.

Arguments ring : clear implicits.
Arguments sys : clear implicits.
End MemChannel.
