(* ===== verification/MemChannelSpec.v ===== *)
(** * Memory channels under any interleaving

    The two threads of [MemChannel] take steps in any order; channels are opened, closed
    and opened again.  The invariant says of every ring what is in it and what its reader has got, and of every
    reader that it is going to be woken when there is something in its ring. *)
From stdpp Require Import functions.
From S2P Require Import Prelude Mem Fifo Ring Callback Channel MemChannel.

Module MemChannelSpec.
Import Cb Chan MemFrame MemChannel.

Section Spec.
Context {Q E : Type} `{Fifo Q} `{EventFd E}.
Variables (kind : frame) (ring_new : option Q) (with_fd : bool).
(** Whether the master is closed only when the child is not between the check of its state and the copy of its rings. *)
Variable calm : bool.

Abbreviation sys := (sys Q E).
Abbreviation ring := (ring Q).

(** ** Runs *)

(** The descriptor is readable. *)
Definition counted (evs : list E) (e : nat) : Prop := ∃ v, evs !! e = Some v ∧ 0 < efd_count v.

(** The event loop calls [_process]: without a descriptor always, otherwise when the channel is
    pending or its descriptor is readable. *)
Definition wake (s : side) (x : sys) : Prop :=
  match fd (get s x) with
  | None => True
  | Some e => pending (get s x) = true ∨ counted (events x) e
  end.

Definition at_rest (c : chan) : bool := match at_ c with Ret _ => true | _ => false end.

(** A thread starts a call where the code of [Base] lets it, or makes the next step of its call. *)
Inductive move : sys → option sys → Prop :=
| move_open s x : at_rest (get s x) = true → st (get s x) = Closed → move x (Some (_open ring_new with_fd s x))
| move_close s x : at_rest (get s x) = true → st (get s x) ≠ Closed →
    (calm = true → s = Master → at_ (child x) ≠ CopyRings) → move x (Some (_close s x))
| move_post s m x : at_rest (get s x) = true → st (get s x) = Active → msg_wf m → fifo_msg_ok (encode kind m) →
    move x (_post kind s m x)
| move_process s x : at_rest (get s x) = true → st (get s x) = Active → wake s x → move x (_process kind s x)
| move_next s x : at_rest (get s x) = false → move x (next s x).

Inductive reach : nat → sys → Prop :=
| reach_init : reach 0 init
| reach_move n x x' : reach n x → move x (Some x') → reach (S n) x'.

#[local] Instance counted_dec evs e : Decision (counted evs e).
Proof.
  destruct (evs !! e) as [v|] eqn:Hv.
  - destruct (decide (0 < efd_count v)) as [Hp|Hp]; [left; by exists v|right]. intros (w & Hw & ?). congruence.
  - right. intros (w & Hw & ?). congruence.
Defined.

#[local] Instance wake_dec s x : Decision (wake s x).
Proof. unfold wake. destruct (fd (get s x)); apply _. Defined.

(** The event loop, for at most [n] turns: [_process] while it is woken. *)
Fixpoint drain (n : nat) (s : side) (x : sys) : option sys :=
  match n with
  | O => Some x
  | S n => if decide (wake s x) then let! x := calls s (_process kind s) x in drain n s x else Some x
  end.

(** Runs as lists; a call that may not start is skipped. *)
Inductive op := Open | Close | Post (m : msg) | Process | Next.

Definition op_ok (o : side * op) : Prop :=
  match o.2 with Post m => msg_wf m ∧ fifo_msg_ok (encode kind m) | _ => True end.

Definition act (o : side * op) (x : sys) : option sys :=
  let s := o.1 in
  let c := get s x in
  match o.2 with
  | Open => if at_rest c && bool_decide (st c = Closed) then Some (_open ring_new with_fd s x) else Some x
  | Close => if at_rest c && negb (bool_decide (st c = Closed)) && negb (calm && bool_decide (s = Master ∧ at_ (child x) = CopyRings))
      then Some (_close s x) else Some x
  | Post m => if at_rest c && bool_decide (st c = Active) then _post kind s m x else Some x
  | Process => if at_rest c && bool_decide (st c = Active) && bool_decide (wake s x) then _process kind s x else Some x
  | Next => next s x
  end.

Fixpoint run (os : list (side * op)) (x : sys) : option sys :=
  match os with [] => Some x | o :: os => let! x := act o x in run os x end.

(** ** Invariant *)

(** Rings are made in pairs, the first one for the master to read. *)
Definition owner (r : nat) : side := if Nat.even r then Master else Child.

Definition taken (c : chan) (r : nat) : nat := if bool_decide (at_ c = Shift ∧ _rin c = Some r) then 1 else 0.

Definition idle (p : pc) : bool := match p with Ret _ | Notify => true | _ => false end.
Definition busy (p : pc) : bool := match p with Shift | Empty | Rearm1 | Clear => true | _ => false end.
Definition opening (p : pc) : bool := match p with CopyRings | SetNotify => true | _ => false end.
Definition live (p : pc) : bool := match p with Ret _ | CopyRings | SetNotify => false | _ => true end.
Definition racing (p : pc) : bool := match p with Rearm1 | Clear | Rearm2 | Rearm => true | _ => false end.

Record ring_inv (t : nat) (evs : list E) (g : ring) (q : list msg) : Prop := {
  ri_rep : fifo_rep (queue g) (encode kind <$> q);
  ri_wf : Forall msg_wf q;
  ri_log : ∃ gone, sent g = gone ++ q ∧ got g = view kind <$> (gone ++ take t q);
  ri_taken : (t ≤ length q)%nat;
  ri_notify : ∀ e, notify g = Some e → is_Some (evs !! e);
}.

(** A channel [c] with the descriptor [e] that reads the ring [r] with the content [q]; [w] is the other channel. *)
Record reader_ok (c w : chan) (r : nat) (g : ring) (q : list msg) (evs : list E) (e : nat) : Prop := {
  ro_notify : notify g = Some e;
  ro_awake : idle (at_ c) = true → q ≠ [] → counted evs e ∨ (at_ w = Notify ∧ _rout w = Some r);
  ro_pending : pending c = true → counted evs e;
  ro_busy : busy (at_ c) = true → counted evs e;
}.

Record side_ok (s : side) (c : chan) (rs : list ring) (evs : list E) : Prop := {
  so_in : ∀ r, _rin c = Some r → owner r = s ∧ is_Some (rs !! r);
  so_out : ∀ r, _rout c = Some r → owner r = other s ∧ is_Some (rs !! r);
  so_fd : ∀ e, fd c = Some e → is_Some (evs !! e);
  so_open : st c = Active ∨ live (at_ c) = true → is_Some (_rin c) ∧ is_Some (_rout c);
  so_closed : st c = Closed → _rin c = None ∧ pending c = false;
  so_race : racing (at_ c) = true → fd c ≠ None ∧ pending c = false;
  so_ret : ∀ e, is_Some (_rin c) → at_ c = Ret (Err e) → e = EAGAIN ∨ e = ERANGE;
  so_pair : _rin c = None ↔ _rout c = None;
  so_opening : opening (at_ c) = true → s = Child ∧ st c = Opening ∧ pending c = false;
}.

(** What a calm run keeps: the child that has checked the state of the master finds its rings. *)
Definition found (m c : chan) : Prop :=
  (at_ c = CopyRings → is_Some (_rin m)) ∧ (at_ c = SetNotify → is_Some (_rin c)).

Record inv (n : nat) (x : sys) (qs : nat → list msg) : Prop := {
  i_side : ∀ s, side_ok s (get s x) (rings x) (events x);
  i_fd : ∀ s e, fd (get s x) = Some e → fd (get (other s) x) ≠ Some e;
  i_count : ∀ e v, events x !! e = Some v → efd_count v ≤ Z.of_nat n;
  i_even : Nat.even (length (rings x)) = true;
  i_ring : ∀ r g, rings x !! r = Some g → ring_inv (taken (get (owner r) x) r) (events x) g (qs r);
  i_reader : ∀ s r g e, _rin (get s x) = Some r → rings x !! r = Some g → fd (get s x) = Some e →
    at_ (get s x) ≠ SetNotify → reader_ok (get s x) (get (other s) x) r g (qs r) (events x) e;
  i_found : calm = true → found (master x) (child x);
}.

(** ** The state *)
Lemma get_set s c (x : sys) : get s (set s c x) = c.
Proof. by destruct s. Qed.
Lemma get_set_other s c (x : sys) : get (other s) (set s c x) = get (other s) x.
Proof. by destruct s. Qed.
Lemma other_other s : other (other s) = s.
Proof. by destruct s. Qed.
Lemma other_ne s : other s ≠ s.
Proof. by destruct s. Qed.
Lemma side_cases s s' : s' = s ∨ s' = other s.
Proof. destruct s, s'; auto. Qed.
Lemma rings_set s c (x : sys) : rings (set s c x) = rings x.
Proof. by destruct s. Qed.
Lemma events_set s c (x : sys) : events (set s c x) = events x.
Proof. by destruct s. Qed.
Lemma get_set_ring s r g (x : sys) : get s (set_ring r g x) = get s x.
Proof. by destruct s. Qed.
Lemma get_set_event s e v (x : sys) : get s (set_event e v x) = get s x.
Proof. by destruct s. Qed.
Lemma set_set_ring s c r g (x : sys) : set s c (set_ring r g x) = set_ring r g (set s c x).
Proof. by destruct s. Qed.

Lemma taken_not c r : at_ c ≠ Shift → taken c r = 0%nat.
Proof. intros ?. unfold taken. rewrite bool_decide_false; [done|]. naive_solver. Qed.

Lemma taken_same c c' r : _rin c' = _rin c → (at_ c' = Shift ↔ at_ c = Shift) → taken c' r = taken c r.
Proof. intros E1 E2. unfold taken. rewrite E1. erewrite bool_decide_ext; [done|]. by rewrite E2. Qed.

(** ** Changes that keep the invariant *)
Lemma reader_frame c w w' r g g' q evs evs' e :
  reader_ok c w r g q evs e → notify g' = notify g → (counted evs e → counted evs' e) →
  (at_ w = Notify → _rout w = Some r → counted evs' e ∨ (at_ w' = Notify ∧ _rout w' = Some r)) →
  reader_ok c w' r g' q evs' e.
Proof. intros [Hn Ha Hp Hb] Hg He Hw. split; [by rewrite Hg|naive_solver..]. Qed.

(** A step of a channel that is not on its way to new rings. *)
Lemma found_set s c' (x : sys) : found (master x) (child x) → (is_Some (_rin (get s x)) → is_Some (_rin c')) →
  opening (at_ c') = false → found (master (set s c' x)) (child (set s c' x)).
Proof. intros [F1 F2] Hr Ho. destruct s; cbn in *; split; auto; intros E1; by rewrite E1 in Ho. Qed.

Lemma opening_not p : opening p = false → p ≠ SetNotify.
Proof. by destruct p. Qed.

(** A channel goes on with its call, or starts one. *)
Lemma inv_local n x qs s c' :
  inv n x qs → opening (at_ (get s x)) = false → opening (at_ c') = false →
  fd c' = fd (get s x) → _rin c' = _rin (get s x) → _rout c' = _rout (get s x) →
  (at_ c' = Shift ↔ at_ (get s x) = Shift) →
  side_ok s c' (rings x) (events x) →
  (∀ r g e, _rin c' = Some r → rings x !! r = Some g → fd c' = Some e →
     reader_ok (get s x) (get (other s) x) r g (qs r) (events x) e →
     reader_ok c' (get (other s) x) r g (qs r) (events x) e) →
  (at_ (get s x) = Notify → at_ c' ≠ Notify → ∀ r g e, _rout c' = Some r → rings x !! r = Some g →
     _rin (get (other s) x) = Some r → fd (get (other s) x) = Some e → at_ (get (other s) x) ≠ SetNotify → counted (events x) e) →
  inv n (set s c' x) qs.
Proof.
  intros [Is If Ic Ie Ir Id Iq] Hop Hop' Hfd Hin Hout Hsh Hs Hr Hw. apply opening_not in Hop.
  split; rewrite ?rings_set, ?events_set.
  - intros s'. destruct (side_cases s s') as [-> | ->]; [by rewrite get_set|rewrite get_set_other; apply Is].
  - intros s' e. destruct (side_cases s s') as [-> | ->].
    + rewrite get_set, get_set_other, Hfd. apply If.
    + rewrite get_set_other, other_other, get_set, Hfd. intros He He'. by apply (If s e He').
  - done.
  - done.
  - intros r g Hg. specialize (Ir r g Hg). destruct (side_cases s (owner r)) as [E1 |E1]; rewrite E1 in *.
    + rewrite get_set. by rewrite (taken_same (get s x)).
    + by rewrite get_set_other.
  - intros s' r g e. destruct (side_cases s s') as [-> | ->].
    + rewrite get_set, get_set_other. intros H1 H2 H3 _. apply Hr; [done..|]. apply Id; congruence.
    + rewrite get_set_other, other_other, get_set. intros H1 H2 H3 Hne.
      pose proof (Id (other s) r g e H1 H2 H3 Hne) as Hd. rewrite other_other in Hd.
      eapply reader_frame; [exact Hd|done|done|]. intros H4 H5.
      destruct (decide (at_ c' = Notify)); [right; split; congruence|left]. eapply Hw; eauto. congruence.
  - intros Hcalm. apply found_set; [auto|by rewrite Hin|done].
Qed.

Lemma inv_later n x qs : inv n x qs → inv (S n) x qs.
Proof. intros [Is If Ic Ie Ir Id Iq]. split; try done. intros e v Hv. specialize (Ic e v Hv). lia. Qed.

Lemma insert_some {A} (l : list A) i v k : is_Some (l !! k) → is_Some (<[i := v]> l !! k).
Proof. rewrite !lookup_lt_is_Some. by rewrite length_insert. Qed.

Lemma side_ok_mono s c (rs rs' : list ring) (evs evs' : list E) :
  (∀ r, is_Some (rs !! r) → is_Some (rs' !! r)) → (∀ e, is_Some (evs !! e) → is_Some (evs' !! e)) →
  side_ok s c rs evs → side_ok s c rs' evs'.
Proof. intros H1 H2 []. split; naive_solver. Qed.

Lemma ring_inv_mono t (evs evs' : list E) g q :
  (∀ e, is_Some (evs !! e) → is_Some (evs' !! e)) → ring_inv t evs g q → ring_inv t evs' g q.
Proof. intros H1 []. split; naive_solver. Qed.

(** An event gets another value; only a reader that looks at its ring again may lose a notification. *)
Lemma inv_event n x qs e v v' :
  inv n x qs → events x !! e = Some v → efd_count v' ≤ Z.of_nat n →
  (∀ s, fd (get s x) = Some e → 0 < efd_count v' ∨ at_ (get s x) = Rearm2) →
  inv n (set_event e v' x) qs.
Proof.
  intros [Is If Ic Ie Ir Id Iq] Hv Hc Hs.
  assert (∀ k, is_Some (events x !! k) → is_Some (<[e := v']> (events x) !! k)) as Hk by (intros; by apply insert_some).
  split; cbn [rings events set_event].
  - intros s. rewrite get_set_event. by eapply side_ok_mono, Is.
  - intros s e'. rewrite !get_set_event. apply If.
  - intros k w Hw. apply list_lookup_insert_Some in Hw as [(-> & -> & _)|[_ Hw]]; eauto.
  - done.
  - intros r g Hg. rewrite get_set_event. eapply ring_inv_mono; eauto.
  - intros s r g e'. rewrite !get_set_event. intros H1 H2 H3 Hne. pose proof (Id s r g e' H1 H2 H3 Hne) as Hd.
    destruct (decide (e' = e)) as [->|He].
    + assert (0 < efd_count v' → counted (<[e := v']> (events x)) e) as Hn.
      { intros ?. exists v'. split; [|done]. apply list_lookup_insert_eq. by eapply lookup_lt_Some. }
      destruct (Hs s H3) as [?|Hr]; [eapply reader_frame; [exact Hd|done|auto|auto]|].
      destruct (so_race _ _ _ _ (Is s)) as [_ Hp]; [by rewrite Hr|]. destruct Hd. split; [done|by rewrite Hr|by rewrite Hp|by rewrite Hr].
    + eapply reader_frame; [exact Hd|done| |by right].
      intros (w & Hw & ?). exists w. by rewrite list_lookup_insert_ne.
  - done.
Qed.

(** A writer stores in a ring that it is going to notify. *)
Lemma inv_push n x qs r g q m :
  inv n x qs → rings x !! r = Some g → msg_wf m → fifo_rep q (encode kind <$> (qs r ++ [m])) →
  at_ (get (other (owner r)) x) = Notify → _rout (get (other (owner r)) x) = Some r →
  inv n (set_ring r (MkRing q (notify g) (sent g ++ [m]) (got g)) x) (<[r := qs r ++ [m]]> qs).
Proof.
  intros [Is If Ic Ie Ir Id Iq] Hg Hm Hq Hat Hout.
  assert (∀ k, is_Some (rings x !! k) → is_Some (<[r := MkRing q (notify g) (sent g ++ [m]) (got g)]> (rings x) !! k)) as Hk
    by (intros; by apply insert_some).
  split; cbn [rings events set_ring].
  - intros s. rewrite get_set_ring. by eapply side_ok_mono, Is.
  - intros s e. rewrite !get_set_ring. apply If.
  - done.
  - by rewrite length_insert.
  - intros k g'. rewrite get_set_ring, list_lookup_insert_Some. intros [(<- & <- & _)|[Hne Hg']].
    + rewrite fn_lookup_insert. destruct (Ir r g Hg) as [_ Hwf (gone & E1 & E2) Ht Hn].
      split; cbn [queue notify sent got]; [done|apply Forall_app; by rewrite Forall_singleton| |rewrite length_app; lia|done].
      exists gone. rewrite E1, E2, app_assoc. split; [done|]. by rewrite take_app_le.
    + rewrite fn_lookup_insert_ne by done. by apply Ir.
  - intros s k g' e. rewrite !get_set_ring. intros H1 H2 H3 Hnot. apply list_lookup_insert_Some in H2 as [(<- & <- & _)|[Hne Hg']].
    + rewrite fn_lookup_insert. destruct (so_in _ _ _ _ (Is s) r H1) as [<- _].
      destruct (Id _ r g e H1 Hg H3 Hnot). split; try done. intros _ _. right. split; [done|]. done.
    + rewrite fn_lookup_insert_ne by done. by apply Id.
  - done.
Qed.

(** A reader takes a step on its ring. *)
Lemma inv_read n x qs s r g g' q' c' :
  inv n x qs → rings x !! r = Some g → _rin (get s x) = Some r →
  fd c' = fd (get s x) → _rin c' = _rin (get s x) → _rout c' = _rout (get s x) →
  at_ (get s x) ≠ Notify → opening (at_ (get s x)) = false → opening (at_ c') = false → side_ok s c' (rings x) (events x) →
  notify g' = notify g → ring_inv (taken c' r) (events x) g' q' →
  (∀ e, fd c' = Some e → reader_ok (get s x) (get (other s) x) r g (qs r) (events x) e →
     reader_ok c' (get (other s) x) r g' q' (events x) e) →
  inv n (set s c' (set_ring r g' x)) (<[r := q']> qs).
Proof.
  intros [Is If Ic Ie Ir Id Iq] Hg Hin Hfd Hin' Hout' Hat Hop Hop' Hs Hn Hri Hr. apply opening_not in Hop.
  assert (∀ k, is_Some (rings x !! k) → is_Some (<[r := g']> (rings x) !! k)) as Hk by (intros; by apply insert_some).
  destruct (so_in _ _ _ _ (Is s) r Hin) as [Ho _].
  assert (∀ k, k ≠ r → taken c' k = taken (get s x) k) as Ht.
  { intros k Hne. unfold taken. rewrite !bool_decide_false; [done| |]; rewrite ?Hin', Hin; by intros [_ [= ->]]. }
  split; rewrite ?rings_set, ?events_set; cbn [rings events set_ring].
  - intros s'. destruct (side_cases s s') as [-> | ->]; rewrite ?get_set, ?get_set_other, ?get_set_ring.
    + by eapply side_ok_mono.
    + by eapply side_ok_mono, Is.
  - intros s' e. destruct (side_cases s s') as [-> | ->]; rewrite ?get_set, ?get_set_other, ?get_set_ring, ?other_other, ?get_set, ?Hfd.
    + apply If.
    + intros He He'. by apply (If s e He').
  - done.
  - by rewrite length_insert.
  - intros k gk Hgk. apply list_lookup_insert_Some in Hgk as [(<- & <- & _)|[Hne Hgk]].
    + by rewrite Ho, get_set, fn_lookup_insert.
    + rewrite fn_lookup_insert_ne by done. specialize (Ir k gk Hgk).
      destruct (side_cases s (owner k)) as [E1|E1]; rewrite E1 in *; rewrite ?get_set, ?get_set_other, ?get_set_ring; [|done].
      by rewrite Ht.
  - intros s' k gk e. destruct (side_cases s s') as [-> | ->]; rewrite ?get_set, ?get_set_other, ?get_set_ring, ?other_other, ?get_set.
    + intros H1 H2 H3 _. assert (k = r) as -> by congruence. rewrite fn_lookup_insert.
      apply list_lookup_insert_Some in H2 as [(_ & <- & _)|[? _]]; [|done]. apply Hr; [done|]. apply Id; congruence.
    + intros H1 H2 H3 Hnot. destruct (so_in _ _ _ _ (Is (other s)) k H1) as [Hk' _].
      assert (k ≠ r). { intros ->. rewrite Ho in Hk'. by destruct (other_ne s). }
      rewrite list_lookup_insert_ne in H2 by done. rewrite fn_lookup_insert_ne by done.
      pose proof (Id _ k gk e H1 H2 H3 Hnot) as Hd. rewrite other_other in Hd.
      eapply reader_frame; [exact Hd|done|done|]. done.
  - intros Hcalm. apply (found_set s c' (set_ring r g' x)); [by apply Iq|by rewrite get_set_ring, Hin'|done].
Qed.

Lemma rest_not c : at_rest c = true → at_ c ≠ Notify ∧ at_ c ≠ Shift ∧ idle (at_ c) = true ∧ racing (at_ c) = false.
Proof. unfold at_rest. by destruct (at_ c). Qed.

Lemma rest_opening c : at_rest c = true → opening (at_ c) = false.
Proof. unfold at_rest. by destruct (at_ c). Qed.

(** A channel without rings takes a descriptor or gives it away, or is about to take the rings of its master. *)
Lemma inv_no_rings n x qs s c' :
  inv n x qs → at_rest (get s x) = true → live (at_ c') = false → _rin c' = None → _rout c' = None →
  st c' ≠ Active → (st c' = Closed → pending c' = false) → (∀ e, fd c' = Some e → is_Some (events x !! e) ∧ fd (get (other s) x) ≠ Some e) →
  (opening (at_ c') = true → s = Child ∧ st c' = Opening ∧ pending c' = false ∧ at_ c' = CopyRings ∧ is_Some (_rin (master x))) →
  (calm = true → s = Master → _rin (get s x) = None ∨ at_ (child x) ≠ CopyRings) →
  inv n (set s c' x) qs.
Proof.
  intros [Is If Ic Ie Ir Id Iq] Hc Hl Hin Hout Hst Hpend Hfd Hop Hcl.
  destruct (rest_not _ Hc) as (C1 & C2 & C3 & C4).
  assert (at_ c' ≠ Shift ∧ racing (at_ c') = false) as [D2 D4] by by destruct (at_ c').
  split; rewrite ?rings_set, ?events_set; [| |done|done| | |].
  - intros s'. destruct (side_cases s s') as [-> | ->]; rewrite ?get_set, ?get_set_other; [|done].
    split; rewrite ?Hin, ?Hout, ?D4; try done.
    + intros e He. by apply Hfd.
    + intros [?|?]; congruence.
    + auto.
    + intros (-> & ? & ? & _)%Hop. done.
  - intros s' e. destruct (side_cases s s') as [-> | ->]; rewrite ?get_set, ?get_set_other, ?other_other, ?get_set.
    + intros He. by apply Hfd.
    + intros He He'. by apply (Hfd e He').
  - intros r g Hg. specialize (Ir r g Hg). destruct (side_cases s (owner r)) as [E1|E1]; rewrite E1 in *; rewrite ?get_set, ?get_set_other; [|done].
    by rewrite taken_not in Ir |- *.
  - intros s' r g e. destruct (side_cases s s') as [-> | ->]; rewrite ?get_set, ?get_set_other, ?other_other, ?get_set; [congruence|].
    intros H1 H2 H3 Hne. pose proof (Id _ r g e H1 H2 H3 Hne) as Hd. rewrite other_other in Hd.
    eapply reader_frame; [exact Hd|done|done|]. done.
  - intros Hcalm. destruct (Iq Hcalm) as [F1 F2]. destruct s; cbn in *; split; intros E1.
    + destruct (Hcl Hcalm eq_refl) as [H1|[]]; [|done]. specialize (F1 E1). rewrite H1 in F1. by destruct F1.
    + auto.
    + by destruct Hop as (_ & _ & _ & _ & ?); [by rewrite E1|].
    + by destruct Hop as (_ & _ & _ & E2 & _); [by rewrite E1|congruence].
Qed.

(** It takes its rings, with the descriptor where the writer finds it. *)
Lemma inv_attach n x qs s c' r r' g :
  inv n x qs → at_ (get s x) ≠ Notify → at_ (get s x) ≠ Shift → fd c' = fd (get s x) → at_ c' = Arm → pending c' = false →
  st c' = Opening → _rin c' = Some r → _rout c' = Some r' → owner r = s → owner r' = other s → rings x !! r = Some g →
  is_Some (rings x !! r') → notify g = fd c' → inv n (set s c' x) qs.
Proof.
  intros [Is If Ic Ie Ir Id Iq] C1 C2 Hfd Hat Hp Hst Hin Hout Ho Ho' Hg Hg' Hn.
  split; rewrite ?rings_set, ?events_set; [| |done|done| | |].
  - intros s'. destruct (side_cases s s') as [-> | ->]; rewrite ?get_set, ?get_set_other; [|done].
    destruct (Is s) as [_ _ Sf _ _ _ _ _ _]. split; rewrite ?Hin, ?Hout, ?Hat; try done; try congruence.
    + intros ? [= <-]. eauto.
    + intros ? [= <-]. eauto.
    + rewrite Hfd. apply Sf.
  - intros s' e. destruct (side_cases s s') as [-> | ->]; rewrite ?get_set, ?get_set_other, ?other_other, ?get_set, ?Hfd.
    + apply If.
    + intros He He'. by apply (If s e He').
  - intros k gk Hgk. specialize (Ir k gk Hgk). destruct (side_cases s (owner k)) as [E1|E1]; rewrite E1 in *; rewrite ?get_set, ?get_set_other; [|done].
    rewrite taken_not in Ir by done. by rewrite taken_not by congruence.
  - intros s' k gk e. destruct (side_cases s s') as [-> | ->]; rewrite ?get_set, ?get_set_other, ?other_other, ?get_set.
    + rewrite Hin. intros [= <-] Hgk He _. assert (gk = g) as -> by congruence. split; rewrite ?Hat, ?Hp; [congruence|done..].
    + intros H1 H2 H3 Hne. pose proof (Id _ k gk e H1 H2 H3 Hne) as Hd. rewrite other_other in Hd.
      eapply reader_frame; [exact Hd|done|done|]. done.
  - intros Hcalm. apply found_set; [auto|by rewrite Hin|by rewrite Hat].
Qed.

(** The child takes the rings of its master, if there are any. *)
Lemma inv_copy n x qs : inv n x qs → at_ (child x) = CopyRings → inv n (copy_rings x) qs.
Proof.
  intros [Is If Ic Ie Ir Id Iq] Hat. destruct (so_opening _ _ _ _ (Is Child)) as (_ & Hst & Hp); [cbn; by rewrite Hat|].
  pose proof (Is Master) as [M1 M2 _ _ _ _ _ Mp _]. cbn [get other] in *.
  unfold copy_rings, upd. cbn [get]. set (c' := goto SetNotify _).
  split; rewrite ?rings_set, ?events_set; [| |done|done| | |].
  - intros [|]; [apply (Is Master)|]. destruct (Is Child). split; cbn [get set c' child goto set_rings]; try done.
    + cbn. intros [?|?]; congruence.
    + cbn. intros ?. congruence.
  - intros [|] e; cbn; [apply (If Master)|apply (If Child)].
  - intros k gk Hgk. specialize (Ir k gk Hgk). destruct (owner k); cbn [get set] in *; [done|].
    rewrite (taken_not (child x)) in Ir by (by rewrite Hat). by rewrite taken_not.
  - intros [|] k gk e; cbn; [|done]. intros H1 H2 H3 Hne. pose proof (Id Master k gk e H1 H2 H3 Hne) as Hd.
    eapply reader_frame; [exact Hd|done|done|]. cbn. by rewrite Hat.
  - intros Hcalm. destruct (Iq Hcalm) as [F1 _]. split; cbn; [done|]. intros _. specialize (F1 Hat).
    destruct (_rout (master x)); [done|]. rewrite (proj2 Mp eq_refl) in F1. by destruct F1.
Qed.

(** The descriptor of a ring that nobody reads is replaced. *)
Lemma inv_renotify n x qs r g d :
  inv n x qs → rings x !! r = Some g → _rin (get (owner r) x) = None ∨ at_ (get (owner r) x) = SetNotify → (∀ e, d = Some e → is_Some (events x !! e)) →
  inv n (set_ring r (with_notify d g) x) qs.
Proof.
  intros [Is If Ic Ie Ir Id Iq] Hg Hin Hd.
  assert (∀ k, is_Some (rings x !! k) → is_Some (<[r := with_notify d g]> (rings x) !! k)) as Hk by (intros; by apply insert_some).
  split; cbn [rings events set_ring]; [| |done|by rewrite length_insert| | |done].
  - intros s. rewrite get_set_ring. by eapply side_ok_mono, Is.
  - intros s e. rewrite !get_set_ring. apply If.
  - intros k gk. rewrite get_set_ring, list_lookup_insert_Some. intros [(<- & <- & _)|[Hne Hgk]]; [|by apply Ir].
    destruct (Ir r g Hg). by split.
  - intros s k gk e. rewrite !get_set_ring. intros H1 H2 H3 Hne.
    destruct (so_in _ _ _ _ (Is s) k H1) as [<- _].
    rewrite list_lookup_insert_ne in H2 by (intros ->; destruct Hin; congruence). by apply Id.
Qed.

Lemma owner_even n : Nat.even n = true → owner n = Master ∧ owner (S n) = Child.
Proof. intros Hn. unfold owner. by rewrite Hn, Nat.even_succ, <-Nat.negb_even, Hn. Qed.

(** Two new rings. *)
Lemma inv_new_rings n x qs i o d :
  inv n x qs → fifo_rep i [] → fifo_rep o [] → (∀ e, d = Some e → is_Some (events x !! e)) →
  ∃ qs', inv n (Sys (rings x ++ [MkRing i d [] []; MkRing o None [] []]) (events x) (master x) (child x)) qs'.
Proof.
  intros [Is If Ic Ie Ir Id Iq] Hi Ho Hd. exists (<[length (rings x) := []]> (<[S (length (rings x)) := []]> qs)).
  assert (∀ k, is_Some (rings x !! k) → is_Some ((rings x ++ [MkRing i d [] []; MkRing o None [] []]) !! k)) as Hk.
  { intros k. rewrite !lookup_lt_is_Some, length_app. lia. }
  assert (∀ k g, (rings x ++ [MkRing i d [] []; MkRing o None [] []]) !! k = Some g →
    (k < length (rings x))%nat ∧ rings x !! k = Some g ∨
    k = length (rings x) ∧ g = MkRing i d [] [] ∨ k = S (length (rings x)) ∧ g = MkRing o None [] []) as Hl.
  { intros k g [?|[? Hg]]%lookup_app_Some; [left; split; [by eapply lookup_lt_Some|done]|right].
    destruct (k - length (rings x))%nat as [|[|j]] eqn:Ek; cbn in Hg; [left|right|by destruct j];
      injection Hg as <-; (split; [lia|done]). }
  assert (∀ s, get s (Sys (rings x ++ [MkRing i d [] []; MkRing o None [] []]) (events x) (master x) (child x)) = get s x) as Hget by by intros [].
  split; cbn [rings events].
  - intros s. rewrite Hget. by eapply side_ok_mono, Is.
  - intros s e. rewrite !Hget. apply If.
  - done.
  - rewrite length_app. cbn [length]. rewrite Nat.even_add, Ie. done.
  - intros k g Hg. rewrite Hget.
    assert (∀ q t, fifo_rep q [] → taken (get (owner k) x) k = t → t = 0%nat →
      ring_inv t (events x) (MkRing q None [] []) []) as Hnew.
    { intros q t Hq _ ->. split; [done|done|by exists []|done|done]. }
    assert (rings x !! k = None → taken (get (owner k) x) k = 0%nat) as Ht.
    { intros Hno. unfold taken. rewrite bool_decide_false; [done|]. intros [_ Hr].
      destruct (so_in _ _ _ _ (Is _) k Hr) as [_ [? ?]]. congruence. }
    destruct (Hl k g Hg) as [[Hlt Hold]|[[-> ->]|[-> ->]]].
    + rewrite !fn_lookup_insert_ne by lia. by apply Ir.
    + rewrite fn_lookup_insert, Ht by (apply lookup_ge_None; lia). split; [done|done|by exists []|done|done].
    + rewrite fn_lookup_insert_ne, fn_lookup_insert by lia. rewrite Ht by (apply lookup_ge_None; lia). split; [done|done|by exists []|done|done].
  - intros s k g e. rewrite !Hget. intros H1 H2 H3. destruct (so_in _ _ _ _ (Is s) k H1) as [_ [g' Hg']].
    assert (g = g') as -> by (rewrite lookup_app_l in H2 by (by eapply lookup_lt_Some); congruence).
    rewrite !fn_lookup_insert_ne by (apply lookup_lt_Some in Hg'; lia). by apply Id.
  - done.
Qed.

Lemma inv_new_event n x qs :
  inv n x qs → inv n (Sys (rings x) (events x ++ [efd_new]) (master x) (child x)) qs.
Proof.
  intros [Is If Ic Ie Ir Id Iq].
  assert (∀ k, is_Some (events x !! k) → is_Some ((events x ++ [efd_new]) !! k)) as Hk.
  { intros k. rewrite !lookup_lt_is_Some, length_app. lia. }
  assert (∀ s, get s (Sys (rings x) (events x ++ [efd_new]) (master x) (child x)) = get s x) as Hget by by intros [].
  split; cbn [rings events]; [| | |done| | |done].
  - intros s. rewrite Hget. by eapply side_ok_mono, Is.
  - intros s e. rewrite !Hget. apply If.
  - intros e v [Hv|[_ Hv]]%lookup_app_Some; [by apply (Ic e)|].
    destruct (e - length (events x))%nat as [|j]; cbn in Hv; [|by destruct j]. injection Hv as <-. rewrite efd_count_new. lia.
  - intros r g Hg. rewrite Hget. by eapply ring_inv_mono, Ir.
  - intros s r g e. rewrite !Hget. intros H1 H2 H3 H4. eapply reader_frame; [by apply Id|done| |by right].
    intros (v & Hv & ?). exists v. split; [|done]. by apply lookup_app_l_Some.
Qed.

(** ** Steps *)
Lemma ring_of n x qs s r : inv n x qs → _rin (get s x) = Some r →
  ∃ g, rings x !! r = Some g ∧ owner r = s ∧ ring_inv (taken (get s x) r) (events x) g (qs r).
Proof.
  intros Hi Hr. destruct (so_in _ _ _ _ (i_side _ _ _ Hi s) r Hr) as [Ho [g Hg]]. exists g. split_and!; [done..|].
  rewrite <-Ho at 1. by apply (i_ring _ _ _ Hi).
Qed.

Lemma empty_spec n x qs s r : inv n x qs → _rin (get s x) = Some r →
  _empty s x = Some (bool_decide (qs r = [])).
Proof.
  intros Hi Hr. destruct (ring_of _ _ _ _ _ Hi Hr) as (g & Hg & _ & Hri). unfold _empty.
  rewrite Hr. cbn [mbind option_bind]. rewrite Hg. cbn [mbind option_bind].
  rewrite (fifo_read_spec _ _ (ri_rep _ _ _ _ Hri)). cbn [mbind option_bind]. by destruct (qs r).
Qed.

Lemma side_ok_goto s c p rs evs :
  side_ok s c rs evs → is_Some (_rin c) → is_Some (_rout c) → st c ≠ Closed → opening p = false →
  (racing p = true → fd c ≠ None ∧ pending c = false) → (∀ e, p = Ret (Err e) → e = EAGAIN ∨ e = ERANGE) →
  side_ok s (goto p c) rs evs.
Proof. intros [] ? ? ? Ho ? ?. split; cbn; rewrite ?Ho; try done; eauto. Qed.

Definition running (c : chan) : Prop := is_Some (_rin c) ∧ is_Some (_rout c) ∧ st c ≠ Closed.

Lemma side_running s c (rs : list ring) (evs : list E) : side_ok s c rs evs → st c = Active ∨ live (at_ c) = true → running c.
Proof.
  intros [_ _ _ So Sc _ _ _ _] Hc. destruct (So Hc) as [Hi Ho]. split_and!; [done|done|]. intros Hst. rewrite (proj1 (Sc Hst)) in Hi. by destruct Hi.
Qed.

(** The channel goes to [p], which changes nothing that is shared. *)
Lemma inv_goto n x qs s p :
  inv n x qs → running (get s x) → opening (at_ (get s x)) = false → opening p = false → p ≠ Shift → at_ (get s x) ≠ Shift →
  (racing p = true → fd (get s x) ≠ None ∧ pending (get s x) = false) →
  (∀ e, p = Ret (Err e) → e = EAGAIN ∨ e = ERANGE) →
  (∀ r e, _rin (get s x) = Some r → fd (get s x) = Some e →
     (idle p = true → idle (at_ (get s x)) = false → qs r ≠ [] →
        counted (events x) e ∨ (at_ (get (other s) x) = Notify ∧ _rout (get (other s) x) = Some r)) ∧
     (busy p = true → counted (events x) e)) →
  (at_ (get s x) = Notify → p ≠ Notify → ∀ r e, _rout (get s x) = Some r →
     _rin (get (other s) x) = Some r → fd (get (other s) x) = Some e → at_ (get (other s) x) ≠ SetNotify → counted (events x) e) →
  inv n (upd s (goto p) x) qs.
Proof.
  intros Hi (R1 & R2 & R3) Hop Hop' Hp Hs Hrace Hret Hown Hn.
  apply inv_local; [done..| | | |].
  - by split.
  - apply side_ok_goto; [apply (i_side _ _ _ Hi)|done..].
  - intros r g e Hr Hg He [D1 D2 D3 D4]. destruct (Hown r e Hr He) as [O1 O2]. split; [done| |done|done].
    intros Hpi Hq. destruct (idle (at_ (get s x))) eqn:Ei; auto.
  - intros H1 H2 r g e H3 _ H4 H5 H6. by apply (Hn H1 H2 r e).
Qed.

(** A notification of [e]. *)
Lemma inv_notify n x qs e v : inv n x qs → Z.of_nat n < 2 ^ 64 - 2 → events x !! e = Some v →
  ∃ v', efd_write v = Ok v' ∧ inv (S n) (set_event e v' x) qs ∧ counted (events (set_event e v' x)) e.
Proof.
  intros Hi Hn Hv. pose proof (i_count _ _ _ Hi e v Hv). pose proof (efd_count_pos v).
  destruct (efd_write_ok v) as (v' & Hw & Hc); [lia|]. exists v'. split_and!; [done| |].
  - apply (inv_event _ _ _ _ v); [by apply inv_later|done|lia|]. intros. left. lia.
  - exists v'. cbn. split; [|lia]. apply list_lookup_insert_eq. by eapply lookup_lt_Some.
Qed.

(** With or without a descriptor. *)
Lemma inv_notify_fd n x qs d : inv n x qs → Z.of_nat n < 2 ^ 64 - 2 → (∀ e, d = Some e → is_Some (events x !! e)) →
  ∃ x', notify_fd d x = Some (Ok x') ∧ inv (S n) x' qs ∧ (∀ s, get s x' = get s x) ∧ rings x' = rings x ∧
    (∀ e, d = Some e → counted (events x') e).
Proof.
  intros Hi Hn Hd. destruct d as [e|].
  - destruct (Hd e eq_refl) as [v Hv]. destruct (inv_notify n x qs e v Hi Hn Hv) as (v' & Hw & Hi' & Hc).
    exists (set_event e v' x). cbn. rewrite Hv. cbn. rewrite Hw. split_and!; [done|done| |done|by intros ? [= <-]].
    intros s. apply get_set_event.
  - exists x. split_and!; [done|by apply inv_later|done|done|done].
Qed.

Abbreviation goes o n := (∃ x' qs', o = Some x' ∧ inv (S n) x' qs').

Lemma next_running n x qs s : inv n x qs → live (at_ (get s x)) = true → running (get s x).
Proof. intros Hi Hr. eapply side_running; [by apply (i_side _ _ _ Hi s)|by right]. Qed.

Lemma next_notify n x qs s : inv n x qs → Z.of_nat n < 2 ^ 64 - 2 → at_ (get s x) = Notify → goes (next s x) n.
Proof.
  intros Hi Hn Hat. assert (running (get s x)) as Hrun by (eapply next_running; [done|by rewrite Hat]).
  destruct Hrun as (R1 & [r Hr] & R3). destruct (so_out _ _ _ _ (i_side _ _ _ Hi s) r Hr) as [Ho [g Hg]].
  destruct (inv_notify_fd n x qs (notify g) Hi Hn) as (x' & E1 & Hi' & Hget & Hrings & Hc).
  { apply (ri_notify _ _ _ _ (i_ring _ _ _ Hi r g Hg)). }
  unfold next. rewrite Hat, Hr. cbn [mbind option_bind]. rewrite Hg. cbn [mbind option_bind]. rewrite E1. cbn [mbind option_bind].
  exists (upd s (ret (Ok tt)) x'), qs. split; [done|]. apply inv_goto; rewrite ?Hget, ?Hat; try done.
  intros _ _ r' e Hr' Hin He Hne. assert (r' = r) as -> by congruence. apply Hc.
  by apply (ro_notify _ _ _ _ _ _ _ (i_reader _ _ _ Hi (other s) r g e Hin Hg He Hne)).
Qed.

(** The end of [_open]. *)
Lemma inv_active n x qs s : inv n x qs → at_ (get s x) = Arm ∨ at_ (get s x) = ArmNotify →
  (∀ r e, _rin (get s x) = Some r → fd (get s x) = Some e → qs r ≠ [] → counted (events x) e) →
  inv n (upd s (λ c, ret (Ok tt) (set_st Active c)) x) qs.
Proof.
  intros Hi Hat Hc. assert (at_ (get s x) ≠ Shift ∧ at_ (get s x) ≠ Notify ∧ live (at_ (get s x)) = true ∧ opening (at_ (get s x)) = false) as (N1 & N2 & N3 & N4).
  { by destruct Hat as [-> | ->]. }
  destruct (next_running _ _ _ _ Hi N3) as (R1 & R2 & R3).
  apply inv_local; [done..| | | |done].
  - by split.
  - destruct (i_side _ _ _ Hi s). by split; cbn.
  - intros r g e Hr Hg He [D1 D2 D3 D4]. split; [done| |done|done]. intros _ Hq. left. by apply (Hc r e).
Qed.

Lemma next_arm n x qs s : inv n x qs → at_ (get s x) = Arm → goes (next s x) n.
Proof.
  intros Hi Hat. assert (running (get s x)) as Hrun by (eapply next_running; [done|by rewrite Hat]).
  destruct Hrun as ([r Hr] & R2 & R3). unfold next. rewrite Hat, (empty_spec _ _ _ _ _ Hi Hr). cbn [mbind option_bind].
  case_bool_decide as Hq; eexists _, qs; (split; [done|]); apply inv_later.
  - apply inv_active; [done|by left|]. intros r' e Hr' _. congruence.
  - apply inv_goto; by rewrite ?Hat.
Qed.

Lemma next_arm_notify n x qs s : inv n x qs → Z.of_nat n < 2 ^ 64 - 2 → at_ (get s x) = ArmNotify → goes (next s x) n.
Proof.
  intros Hi Hn Hat. destruct (inv_notify_fd n x qs (fd (get s x)) Hi Hn) as (x' & E1 & Hi' & Hget & Hrings & Hc).
  { apply (i_side _ _ _ Hi s). }
  unfold next. rewrite Hat, E1. cbn [mbind option_bind]. eexists _, qs. split; [done|].
  apply inv_active; [done|rewrite Hget; by right|]. intros r e _ He _. apply Hc. by rewrite <-Hget.
Qed.

Lemma next_shift n x qs s : inv n x qs → at_ (get s x) = Shift → goes (next s x) n.
Proof.
  intros Hi Hat. assert (running (get s x)) as Hrun by (eapply next_running; [done|by rewrite Hat]).
  pose proof Hrun as ([r Hr] & R2 & R3). destruct (ring_of _ _ _ _ _ Hi Hr) as (g & Hg & Ho & [I1 I2 I3 I4 I5]).
  unfold next. rewrite Hat, Hr. cbn [mbind option_bind]. rewrite Hg. cbn [mbind option_bind].
  assert (taken (get s x) r = 1%nat) as Ht by (unfold taken; by rewrite bool_decide_true). rewrite Ht in *.
  destruct (qs r) as [|m q] eqn:Eq; [cbn in I4; lia|]. pose proof (fifo_shift_spec _ _ I1) as Hsh. cbn in Hsh.
  destruct Hsh as (q' & -> & Hq'). cbn [mbind option_bind]. eexists _, (<[r := q]> qs). split; [done|]. apply inv_later.
  unfold upd. rewrite get_set_ring. apply (inv_read n x qs _ r g _ q); try done; try by rewrite Hat.
  - apply side_ok_goto; try done. apply (i_side _ _ _ Hi).
  - rewrite taken_not by done. destruct I3 as (gone & L1 & L2). split; cbn; [done|by apply Forall_cons in I2 as [_ ?]| |lia|done].
    exists (gone ++ [m]). rewrite app_nil_r, L1, L2, <-app_assoc. cbn. by rewrite take_0.
  - intros e He [D1 D2 D3 D4]. rewrite Hat in D4. by split.
Qed.

Lemma next_empty n x qs s : inv n x qs → at_ (get s x) = Empty → goes (next s x) n.
Proof.
  intros Hi Hat. assert (running (get s x)) as Hrun by (eapply next_running; [done|by rewrite Hat]).
  pose proof Hrun as ([r Hr] & R2 & R3). destruct (ring_of _ _ _ _ _ Hi Hr) as (g & Hg & Ho & _).
  assert (∀ e, fd (get s x) = Some e → counted (events x) e) as Hc.
  { intros e He. apply (ro_busy _ _ _ _ _ _ _ (i_reader _ _ _ Hi s r g e Hr Hg He ltac:(by rewrite Hat))). by rewrite Hat. }
  unfold next. rewrite Hat, (empty_spec _ _ _ _ _ Hi Hr). cbn [mbind option_bind]. set (b := negb (bool_decide (qs r = []))).
  assert (inv n (upd s (_dcaps_pending b) x) qs) as Hi'.
  { apply inv_local; try done; try by (cbn; rewrite Hat).
    - destruct (i_side _ _ _ Hi s). split; try done; cbn; by rewrite Hat.
    - intros r' g' e Hr' Hg' He [D1 D2 D3 D4]. split; try done. intros _. by apply Hc. }
  eexists _, qs. split; [done|]. apply inv_later.
  assert (get s (upd s (_dcaps_pending b) x) = _dcaps_pending b (get s x)) as Hget by apply get_set.
  assert (events (upd s (_dcaps_pending b) x) = events x) as Hev by apply events_set.
  destruct (b || _) eqn:Eb.
  - apply inv_goto; rewrite ?Hget, ?Hev; cbn; rewrite ?Hat; try done. intros ? e ? He. split; [|done]. intros. left. by apply Hc.
  - apply orb_false_iff in Eb as [Eb Efd]. rewrite bool_decide_eq_false in Efd. rewrite Hget in Efd.
    apply inv_goto; rewrite ?Hget, ?Hev; cbn; rewrite ?Hat; try done. intros ? e ? He. split; [done|]. intros. by apply Hc.
Qed.

Lemma next_rearm1 n x qs s : inv n x qs → at_ (get s x) = Rearm1 → goes (next s x) n.
Proof.
  intros Hi Hat. assert (running (get s x)) as Hrun by (eapply next_running; [done|by rewrite Hat]).
  pose proof Hrun as ([r Hr] & R2 & R3). destruct (ring_of _ _ _ _ _ Hi Hr) as (g & Hg & Ho & _).
  assert (∀ e, fd (get s x) = Some e → counted (events x) e) as Hc.
  { intros e He. apply (ro_busy _ _ _ _ _ _ _ (i_reader _ _ _ Hi s r g e Hr Hg He ltac:(by rewrite Hat))). by rewrite Hat. }
  destruct (so_race _ _ _ _ (i_side _ _ _ Hi s)) as [Hfd Hp]; [by rewrite Hat|].
  unfold next, event_clear_race. rewrite Hat, (empty_spec _ _ _ _ _ Hi Hr). cbn [mbind option_bind].
  case_bool_decide as Hq; eexists _, qs; (split; [done|]); apply inv_later, inv_goto; rewrite ?Hat; try done;
    intros ? e ? He; split; try done; intros; try left; by apply Hc.
Qed.

Lemma next_clear n x qs s : inv n x qs → at_ (get s x) = Clear → goes (next s x) n.
Proof.
  intros Hi Hat. assert (running (get s x)) as Hrun by (eapply next_running; [done|by rewrite Hat]).
  pose proof Hrun as ([r Hr] & R2 & R3). destruct (ring_of _ _ _ _ _ Hi Hr) as (g & Hg & Ho & _).
  destruct (so_race _ _ _ _ (i_side _ _ _ Hi s)) as [Hfd Hp]; [by rewrite Hat|]. destruct (fd (get s x)) as [e|] eqn:He; [|done].
  destruct (ro_busy _ _ _ _ _ _ _ (i_reader _ _ _ Hi s r g e Hr Hg He ltac:(by rewrite Hat))) as (v & Hv & Hpos); [by rewrite Hat|].
  destruct (efd_read_ok v Hpos) as (v' & Hread & Hz).
  unfold next, event_clear_race. rewrite Hat, He. unfold clear_fd. cbn [mbind option_bind]. rewrite Hv. cbn [mbind option_bind]. rewrite Hread. cbn [mbind option_bind].
  eexists _, qs. split; [done|]. apply inv_later.
  assert (upd s (goto Rearm2) (set_event e v' x) = set_event e v' (upd s (goto Rearm2) x)) as -> by by destruct s.
  assert (inv n (upd s (goto Rearm2) x) qs) as Hi'.
  { apply inv_goto; rewrite ?Hat, ?He; try done. }
  apply (inv_event _ _ _ _ v); [done| |lia|].
  - unfold upd. by rewrite events_set.
  - intros s'. destruct (side_cases s s') as [-> | ->]; unfold upd; rewrite ?get_set, ?get_set_other; [by right|].
    intros He'. by destruct (i_fd _ _ _ Hi s e He).
Qed.

Lemma next_rearm2 n x qs s : inv n x qs → at_ (get s x) = Rearm2 → goes (next s x) n.
Proof.
  intros Hi Hat. assert (running (get s x)) as Hrun by (eapply next_running; [done|by rewrite Hat]).
  pose proof Hrun as ([r Hr] & R2 & R3). destruct (so_race _ _ _ _ (i_side _ _ _ Hi s)) as [Hfd Hp]; [by rewrite Hat|].
  unfold next, event_clear_race. rewrite Hat, (empty_spec _ _ _ _ _ Hi Hr). cbn [mbind option_bind].
  case_bool_decide as Hq; eexists _, qs; (split; [done|]); apply inv_later, inv_goto; rewrite ?Hat; try done.
  intros r' e Hr' He. split; [|done]. intros _ _ Hne. congruence.
Qed.

Lemma next_rearm n x qs s : inv n x qs → Z.of_nat n < 2 ^ 64 - 2 → at_ (get s x) = Rearm → goes (next s x) n.
Proof.
  intros Hi Hn Hat. assert (running (get s x)) as Hrun by (eapply next_running; [done|by rewrite Hat]).
  destruct (inv_notify_fd n x qs (fd (get s x)) Hi Hn) as (x' & E1 & Hi' & Hget & Hrings & Hc).
  { apply (i_side _ _ _ Hi s). }
  unfold next, event_clear_race. rewrite Hat, E1. cbn [mbind option_bind]. eexists _, qs. split; [done|].
  apply inv_goto; rewrite ?Hget, ?Hat; try done. intros r e _ He. split; [|done]. intros. left. by apply Hc.
Qed.

Lemma move_post_inv n x qs s m : inv n x qs → at_rest (get s x) = true → st (get s x) = Active →
  msg_wf m → fifo_msg_ok (encode kind m) → goes (_post kind s m x) n.
Proof.
  intros Hi Hrest Hst Hm Hok. destruct (rest_not _ Hrest) as (C1 & C2 & C3 & C4). pose proof (rest_opening _ Hrest) as C5.
  assert (running (get s x)) as Hrun by (eapply side_running; [apply (i_side _ _ _ Hi s)|by left]).
  pose proof Hrun as (R1 & [r Hr] & R3). destruct (so_out _ _ _ _ (i_side _ _ _ Hi s) r Hr) as [Ho [g Hg]].
  assert (∀ p, idle p = true → (∀ e, p = Ret (Err e) → e = EAGAIN ∨ e = ERANGE) → inv n (upd s (goto p) x) qs) as Hgo.
  { intros p Hp He. apply inv_goto; try done; [by destruct p|by intros ->|by intros Hrc; destruct p|].
    intros ? e ? ?. split; [congruence|]. intros Hb. by destruct p. }
  unfold _post. destruct (posted kind m); cbn [negb].
  2:{ eexists _, qs. split; [done|]. by apply inv_later, Hgo. }
  rewrite Hr. cbn [mbind option_bind]. rewrite Hg. cbn [mbind option_bind].
  destruct (i_ring _ _ _ Hi r g Hg) as [I1 I2 I3 I4 I5].
  destruct (fifo_push_spec _ _ (encode kind m) I1 Hok) as [(q' & -> & Hq')|[-> | ->]]; cbn [mbind option_bind].
  - eexists _, _. split; [done|]. apply inv_later. unfold upd. rewrite set_set_ring, get_set_ring.
    apply (inv_push n (set s (goto Notify (get s x)) x) qs).
    + by apply Hgo.
    + by rewrite rings_set.
    + done.
    + by rewrite fmap_app.
    + by rewrite Ho, other_other, get_set.
    + by rewrite Ho, other_other, get_set.
  - eexists _, qs. split; [done|]. apply inv_later, Hgo; [done|]. intros ? [= <-]. by left.
  - eexists _, qs. split; [done|]. apply inv_later, Hgo; [done|]. intros ? [= <-]. by right.
Qed.

Lemma wake_counted n x qs s r e : inv n x qs → at_rest (get s x) = true → wake s x → _rin (get s x) = Some r → fd (get s x) = Some e → counted (events x) e.
Proof.
  intros Hi Hrest%rest_opening%opening_not Hw Hr He. destruct (ring_of _ _ _ _ _ Hi Hr) as (g & Hg & _). unfold wake in Hw. rewrite He in Hw.
  destruct Hw as [Hp|?]; [|done]. by apply (ro_pending _ _ _ _ _ _ _ (i_reader _ _ _ Hi s r g e Hr Hg He Hrest)).
Qed.

(** What a call of [_process] begins with. *)
Lemma process_start n x qs s r g : inv n x qs → at_rest (get s x) = true → st (get s x) = Active → wake s x →
  _rin (get s x) = Some r → rings x !! r = Some g →
  match qs r with
  | [] => _process kind s x = Some (upd s (ret (Err EAGAIN)) x) ∧ inv n (upd s (ret (Err EAGAIN)) x) qs
  | m :: _ =>
      let x' := upd s (goto Shift) (set_ring r (MkRing (queue g) (notify g) (sent g) (got g ++ [view kind m])) x) in
      _process kind s x = Some x' ∧ inv n x' (<[r := qs r]> qs)
  end.
Proof.
  intros Hi Hrest Hst Hw Hr Hg. destruct (rest_not _ Hrest) as (C1 & C2 & C3 & C4). pose proof (rest_opening _ Hrest) as C5.
  assert (running (get s x)) as Hrun by (eapply side_running; [apply (i_side _ _ _ Hi s)|by left]).
  destruct (ring_of _ _ _ _ _ Hi Hr) as (g' & Hg' & Ho & Hri). assert (g' = g) as -> by congruence.
  rewrite taken_not in Hri by done. destruct Hri as [I1 I2 (gone & L1 & L2) I4 I5].
  unfold _process. rewrite Hr. cbn [mbind option_bind]. rewrite Hg. cbn [mbind option_bind].
  rewrite (fifo_read_spec _ _ I1). cbn [mbind option_bind]. destruct (qs r) as [|m q] eqn:Eq; cbn [fmap list_fmap].
  - split; [done|]. apply inv_goto; try done; [intros ? [= <-]; by left|]. intros ? e ? ?. split; [congruence|done].
  - apply Forall_cons in I2 as [Hm I2]. rewrite zlen_encode. pose proof (zlen_nonneg (m_data m)).
    rewrite (proj2 (Z.ltb_ge _ _)) by lia. rewrite frame_decode_encode by done. cbn [mbind option_bind]. split; [done|].
    unfold upd. rewrite get_set_ring, <-Eq. apply (inv_read n x qs s r g); try done.
    + apply side_ok_goto; try done; [apply (i_side _ _ _ Hi)|apply Hrun..].
    + unfold taken. rewrite bool_decide_true by done. rewrite Eq. split; cbn; [done|by apply Forall_cons| |lia|done].
      exists gone. split; [done|]. rewrite L2, take_0, app_nil_r, fmap_app. done.
    + intros e He [D1 D2 D3 D4]. split; try done. intros _. by eapply wake_counted.
Qed.

Lemma move_process_inv n x qs s : inv n x qs → at_rest (get s x) = true → st (get s x) = Active → wake s x →
  goes (_process kind s x) n.
Proof.
  intros Hi Hrest Hst Hw.
  assert (running (get s x)) as ([r Hr] & _) by (eapply side_running; [apply (i_side _ _ _ Hi s)|by left]).
  destruct (ring_of _ _ _ _ _ Hi Hr) as (g & Hg & _). pose proof (process_start _ _ _ _ _ _ Hi Hrest Hst Hw Hr Hg) as Hp.
  destruct (qs r) as [|m q]; destruct Hp as [-> Hp]; eexists _, _; (split; [done|]); by apply inv_later.
Qed.

Lemma move_close_inv n x qs s : inv n x qs → at_rest (get s x) = true →
  (calm = true → s = Master → at_ (child x) ≠ CopyRings) → inv n (_close s x) qs.
Proof. intros Hi Hrest Hc. apply inv_no_rings; try done. intros H1 H2. right. by apply Hc. Qed.

Lemma closed_rings n x qs s : inv n x qs → st (get s x) = Closed → _rin (get s x) = None ∧ _rout (get s x) = None ∧ pending (get s x) = false.
Proof.
  intros Hi Hst. destruct (so_closed _ _ _ _ (i_side _ _ _ Hi s) Hst) as [Hin Hp]. split_and!; [done| |done].
  by apply (so_pair _ _ _ _ (i_side _ _ _ Hi s)).
Qed.

(** The descriptor of a channel that opens. *)
Lemma open_event n x qs s : inv n x qs → at_rest (get s x) = true → st (get s x) = Closed →
  let x1 := event_open with_fd s (upd s (set_st Opening) x) in
  ∃ d, inv n x1 qs ∧ get s x1 = Chan Opening d None None false (_sibling (get s x)) (at_ (get s x)) ∧
    get (other s) x1 = get (other s) x ∧ rings x1 = rings x ∧ (∀ e, d = Some e → is_Some (events x1 !! e)).
Proof.
  intros Hi Hrest Hst x1. destruct (closed_rings _ _ _ _ Hi Hst) as (Hin & Hout & Hp).
  assert (live (at_ (get s x)) = false ∧ opening (at_ (get s x)) = false) as [Hl Hop] by (revert Hrest; unfold at_rest; by destruct (at_ (get s x))).
  assert (∀ d, set_fd d (set_st Opening (get s x)) = Chan Opening d None None false (_sibling (get s x)) (at_ (get s x))) as Hc.
  { intros d. unfold set_fd, set_st. cbn. by rewrite Hin, Hout, Hp. }
  unfold x1, event_open. destruct with_fd.
  - exists (Some (length (events x))).
    assert (upd s (set_fd (Some (length (events (upd s (set_st Opening) x)))))
      (Sys (rings (upd s (set_st Opening) x)) (events (upd s (set_st Opening) x) ++ [efd_new]) (master (upd s (set_st Opening) x)) (child (upd s (set_st Opening) x)))
      = set s (Chan Opening (Some (length (events x))) None None false (_sibling (get s x)) (at_ (get s x)))
          (Sys (rings x) (events x ++ [efd_new]) (master x) (child x))) as ->.
    { rewrite <-Hc. by destruct s. }
    rewrite get_set, get_set_other, rings_set, events_set. cbn [rings events].
    assert (∀ s, get s (Sys (rings x) (events x ++ [efd_new]) (master x) (child x)) = get s x) as Hget by by intros [].
    assert (is_Some ((events x ++ [efd_new]) !! length (events x))) as Hlen by (rewrite lookup_lt_is_Some, length_app; cbn; lia).
    split_and!; [|done|apply Hget|done|by intros ? [= <-]].
    apply inv_no_rings; [by apply inv_new_event|by rewrite Hget|done|done|done|done|done| | |].
    + intros ? [= <-]. split; [done|]. rewrite Hget. intros He.
      apply (so_fd _ _ _ _ (i_side _ _ _ Hi (other s))) in He. apply lookup_lt_is_Some in He. lia.
    + cbn. by rewrite Hop.
    + left. by rewrite Hget.
  - exists (fd (get s x)).
    assert (upd s (set_st Opening) x = set s (Chan Opening (fd (get s x)) None None false (_sibling (get s x)) (at_ (get s x))) x) as ->.
    { unfold upd. rewrite <-Hc. by destruct s. }
    rewrite get_set, get_set_other, rings_set, events_set. split_and!; [|done..|apply (i_side _ _ _ Hi s)].
    apply inv_no_rings; try done; [|cbn; by rewrite Hop|by left].
    intros e He. split; [by apply (i_side _ _ _ Hi s)|by apply (i_fd _ _ _ Hi s)].
Qed.

Hypothesis ring_new_rep : ∀ q, ring_new = Some q → fifo_rep q [].

(** An open that fails, or that goes on to the rings of the master. *)
Lemma open_local n x qs s st' p : inv n x qs → at_rest (get s x) = true → st (get s x) = Opening →
  _rin (get s x) = None → _rout (get s x) = None → pending (get s x) = false →
  st' = Error ∧ p = Ret (Err EINVAL) ∨ st' = Opening ∧ s = Child ∧ p = CopyRings ∧ is_Some (_rin (master x)) →
  inv n (upd s (λ c, goto p (set_st st' c)) x) qs.
Proof.
  intros Hi Hr Hst Hin Hout Hpe Hp. apply inv_no_rings; try done.
  - by destruct Hp as [[_ ->]|(_ & _ & -> & _)].
  - by destruct Hp as [[-> _]|(-> & _ & _)].
  - intros e He. split; [by apply (i_side _ _ _ Hi s)|by apply (i_fd _ _ _ Hi s)].
  - destruct Hp as [[-> ->]|(-> & -> & -> & ?)]; [done|]. done.
  - by left.
Qed.

Lemma move_open_inv n x qs s : inv n x qs → at_rest (get s x) = true → st (get s x) = Closed →
  goes (Some (_open ring_new with_fd s x)) n.
Proof.
  intros Hi Hrest Hst. destruct (open_event n x qs s Hi Hrest Hst) as (d & Hi1 & Hc & Ho & Hr & Hd).
  unfold _open. set (x1 := event_open with_fd s (upd s (set_st Opening) x)) in *. clearbody x1.
  assert (at_rest (get s x1) = true) as Hrest1 by (by rewrite Hc). destruct (rest_not _ Hrest1) as (C1 & C2 & _).
  assert (inv (S n) (upd s (fail EINVAL) x1) qs) as Hfail.
  { apply inv_later, (open_local n x1 qs s Error (Ret (Err EINVAL))); try done; rewrite ?Hc; try done. by left. }
  destruct s; cbn [get other] in *.
  - unfold open_master. destruct ring_new as [q|] eqn:En; [|by eexists _, qs].
    destruct (inv_new_rings n x1 qs q q (fd (master x1)) Hi1) as [qs' Hi2]; [by apply ring_new_rep..|by rewrite Hc|].
    eexists _, qs'. split; [done|]. apply inv_later. pose proof (i_even _ _ _ Hi1) as He.
    destruct (owner_even _ He) as [E1 E2].
    eapply (inv_attach _ _ _ Master _ (length (rings x1)) (S (length (rings x1)))); try done; cbn; rewrite ?Hc; try done.
    + by rewrite lookup_app_r, Nat.sub_diag by lia.
    + rewrite lookup_app_r, <-Nat.add_1_r, Nat.add_comm, Nat.add_sub by lia. done.
    + done.
  - unfold open_child. destruct (_sibling (child x1)); cbn [negb]; [|by eexists _, qs].
    case_bool_decide as Hm; cbn [negb]; [|by eexists _, qs].
    eexists _, qs. split; [done|]. apply inv_later.
    destruct (so_open _ _ _ _ (i_side _ _ _ Hi1 Master)) as [Hr' _]; [by left|].
    assert (upd Child (goto CopyRings) x1 = upd Child (λ c, goto CopyRings (set_st Opening c)) x1) as ->.
    { unfold upd. cbn [get]. by rewrite Hc. }
    apply open_local; cbn [get]; rewrite ?Hc; try done. by right.
Qed.

(** The last part of [_open] of a child. *)
Lemma next_set_notify n x qs r : inv n x qs → at_ (child x) = SetNotify → _rin (child x) = Some r → goes (next Child x) n.
Proof.
  intros Hi Hat Hr. pose proof (i_side _ _ _ Hi Child) as Hc. cbn [get] in Hc.
  destruct (so_opening _ _ _ _ Hc) as (_ & Hst & Hp); [by rewrite Hat|].
  destruct (so_in _ _ _ _ Hc r Hr) as [Ho [g Hg]].
  destruct (_rout (child x)) as [r'|] eqn:Hr'; [|apply (so_pair _ _ _ _ Hc) in Hr'; congruence].
  destruct (so_out _ _ _ _ Hc r' Hr') as [Ho' Hg'].
  unfold next, set_notify. cbn [get]. rewrite Hat, Hr. cbn [mbind option_bind]. rewrite Hg. cbn [mbind option_bind].
  eexists _, qs. split; [done|]. apply inv_later.
  assert (inv n (set_ring r (with_notify (fd (child x)) g) x) qs) as Hi2.
  { apply inv_renotify; [done|done|right; by rewrite Ho|apply (so_fd _ _ _ _ Hc)]. }
  eapply (inv_attach _ (set_ring r (with_notify (fd (child x)) g) x) _ Child _ r r' (with_notify (fd (child x)) g)); try done; cbn; rewrite ?Hat; try done.
  - apply list_lookup_insert_eq. by eapply lookup_lt_Some.
  - by apply insert_some.
Qed.

(** ** Runs keep the invariant *)

(** The master was closed between the check of its state and the copy of its rings: the child has none. *)
Definition null_ring (x : sys) : Prop := calm = false ∧ at_ (child x) = SetNotify ∧ _rin (child x) = None.

Lemma next_opening n x qs s : inv n x qs → opening (at_ (get s x)) = true →
  goes (next s x) n ∨ s = Child ∧ next Child x = None ∧ null_ring x.
Proof.
  intros Hi Hop. destruct (so_opening _ _ _ _ (i_side _ _ _ Hi s) Hop) as (-> & _). cbn [get] in *.
  destruct (at_ (child x)) eqn:Hat; try done.
  - left. unfold next. cbn [get]. rewrite Hat. eexists _, qs. split; [done|]. by apply inv_later, inv_copy.
  - destruct (_rin (child x)) as [r|] eqn:Hr; [left; by eapply next_set_notify|right].
    split; [done|]. split; [unfold next, set_notify; cbn [get]; by rewrite Hat, Hr|]. split; [|done].
    destruct calm eqn:Hc; [|done]. destruct (i_found _ _ _ Hi Hc) as [_ F]. specialize (F Hat). rewrite Hr in F. by destruct F.
Qed.

Lemma next_inv n x qs s : inv n x qs → Z.of_nat n < 2 ^ 64 - 2 → opening (at_ (get s x)) = false → goes (next s x) n.
Proof.
  intros Hi Hn Hop. destruct (at_ (get s x)) eqn:Hat; try done.
  - exists x, qs. unfold next. rewrite Hat. split; [done|by apply inv_later].
  - by eapply next_notify.
  - by eapply next_arm.
  - by eapply next_arm_notify.
  - by eapply next_shift.
  - by eapply next_empty.
  - by eapply next_rearm1.
  - by eapply next_clear.
  - by eapply next_rearm2.
  - by eapply next_rearm.
Qed.

Lemma move_inv n x qs o : inv n x qs → Z.of_nat n < 2 ^ 64 - 2 → move x o → goes o n ∨ o = None ∧ null_ring x.
Proof.
  intros Hi Hn Hm. destruct Hm as [s x ? ?|s x ? ? ?|s m x ? ? ? ?|s x ? ? ?|s x ?].
  - left. by eapply move_open_inv.
  - left. eexists _, qs. split; [done|]. by apply inv_later, move_close_inv.
  - left. by eapply move_post_inv.
  - left. by eapply move_process_inv.
  - destruct (opening (at_ (get s x))) eqn:Hop; [|left; by eapply next_inv].
    destruct (next_opening n x qs s Hi Hop) as [?|(-> & ? & ?)]; [by left|by right].
Qed.

Lemma sys_inv_init : inv 0 init (λ _, []).
Proof.
  assert (∀ s, get s (@init Q E) = closed_chan) as Hget by by intros [].
  split; [|by intros s e; rewrite Hget|done|done|done|by intros s r g e; rewrite Hget|done].
  intros s. rewrite Hget. split; try done. by intros [|].
Qed.

Lemma reach_inv n x : reach n x → Z.of_nat n ≤ 2 ^ 64 - 2 → ∃ qs, inv n x qs.
Proof.
  induction 1 as [|n x x' Hr IH Hm]; intros Hn; [eexists; apply sys_inv_init|].
  destruct IH as [qs Hi]; [lia|].
  destruct (move_inv n x qs (Some x') Hi) as [(y & qs' & [= <-] & Hi')|[? _]]; [lia|done| |done]. by exists qs'.
Qed.

(** ** A call comes to its end *)
Definition rank (p : pc) : nat :=
  match p with
  | Ret _ => 0 | Notify => 1 | CopyRings => 4 | SetNotify => 3 | Arm => 2 | ArmNotify => 1
  | Shift => 6 | Empty => 5 | Rearm1 => 4 | Clear => 3 | Rearm2 => 2 | Rearm => 1
  end.

Definition same_logs (x x' : sys) : Prop :=
  ∀ r g, rings x !! r = Some g → ∃ g', rings x' !! r = Some g' ∧ sent g' = sent g ∧ got g' = got g.

Lemma same_logs_refl x : same_logs x x.
Proof. intros r g Hg. by exists g. Qed.

Lemma same_logs_set_ring x r g g' :
  rings x !! r = Some g → sent g' = sent g → got g' = got g → same_logs x (set_ring r g' x).
Proof.
  intros Hg E1 E2 k gk Hk. cbn. destruct (decide (k = r)) as [->|].
  - exists g'. rewrite list_lookup_insert_eq by (by eapply lookup_lt_Some). naive_solver congruence.
  - exists gk. by rewrite list_lookup_insert_ne.
Qed.

Record later_of (s : side) (x x' : sys) : Prop := {
  lo_other : get (other s) x' = get (other s) x;
  lo_rin : _rin (get s x') = _rin (get s x);
  lo_logs : same_logs x x';
}.

Lemma later_upd s f x : (∀ c, _rin (f c) = _rin c) → later_of s x (upd s f x).
Proof.
  intros Hf. unfold upd. split; [apply get_set_other|by rewrite get_set|]. intros r g Hg. exists g. by rewrite rings_set.
Qed.

Lemma later_trans s x y z : later_of s x y → later_of s y z → later_of s x z.
Proof.
  intros [O1 R1 L1] [O2 R2 L2]. split; [congruence|congruence|]. intros r g Hg.
  destruct (L1 r g Hg) as (g1 & Hg1 & <- & <-). apply (L2 r g1 Hg1).
Qed.

Lemma later_event s e v x : later_of s x (set_event e v x).
Proof. split; [by rewrite get_set_event..|]. intros r g Hg. by exists g. Qed.

Lemma notify_later s d x x' : notify_fd d x = Some (Ok x') → later_of s x x' ∧ get s x' = get s x.
Proof.
  destruct d as [e|]; cbn; [|intros [= <-]; split; [|done]; by split; [..|apply same_logs_refl]].
  intros (v & Hv & [= E1])%bind_Some. destruct (efd_write v) as [v'|]; [|done]. injection E1 as <-.
  split; [apply later_event|apply get_set_event].
Qed.

Lemma active_not_opening n x qs s : inv n x qs → st (get s x) = Active → opening (at_ (get s x)) = false.
Proof.
  intros Hi Hst. destruct (opening _) eqn:Hop; [|done].
  apply (so_opening _ _ _ _ (i_side _ _ _ Hi s)) in Hop as (_ & ? & _). congruence.
Qed.

(** A step of a call that has no error. *)
Lemma next_later n x qs s x' : inv n x qs → st (get s x) = Active → next s x = Some x' →
  at_ (get s x') ≠ Ret (Err EINVAL) →
  later_of s x x' ∧ st (get s x') = Active ∧ (rank (at_ (get s x')) ≤ pred (rank (at_ (get s x))))%nat.
Proof.
  intros Hi Hst. pose proof (active_not_opening _ _ _ _ Hi Hst) as Hop.
  unfold next, event_clear_race.
  assert (∀ y p, later_of s x y → get s y = get s x → (rank p ≤ pred (rank (at_ (get s x))))%nat →
    later_of s x (upd s (goto p) y) ∧ st (get s (upd s (goto p) y)) = Active ∧
    (rank (at_ (get s (upd s (goto p) y))) ≤ pred (rank (at_ (get s x))))%nat) as Hgo.
  { intros y p Hy Hget Hrank. split; [eapply later_trans; [exact Hy|by apply later_upd]|].
    unfold upd. rewrite get_set, Hget. done. }
  assert (later_of s x x) as Hrefl by (split; [done..|apply same_logs_refl]).
  destruct (at_ (get s x)) eqn:Hat.
  - intros [= <-] _. by rewrite Hat.
  - intros (r & _ & (g & _ & (nr & Hn & E1)%bind_Some)%bind_Some)%bind_Some. injection E1 as <-.
    destruct nr as [y|e]; [|unfold upd; by rewrite get_set]. destruct (notify_later s _ _ _ Hn). intros _. by apply Hgo.
  - done.
  - done.
  - intros (e & _ & E1)%bind_Some _. injection E1 as <-. destruct e; [|apply Hgo; cbn; done || lia].
    unfold upd at 2 3. rewrite get_set. split; [by apply later_upd|]. split; [done|cbn; lia].
  - intros (nr & Hn & E1)%bind_Some _. injection E1 as <-.
    assert (later_of s x (match nr with Ok y => y | Err _ => x end)) as Hl.
    { destruct nr as [y|]; [|done]. by destruct (notify_later s _ _ _ Hn). }
    unfold upd at 2 3. rewrite get_set. split; [|done]. eapply later_trans; [exact Hl|by apply later_upd].
  - intros (r & Hr & (g & Hg & (q & Hq & E1)%bind_Some)%bind_Some)%bind_Some _. injection E1 as <-.
    apply Hgo; [|by rewrite get_set_ring|cbn; lia].
    split; [by rewrite get_set_ring..|]. by eapply same_logs_set_ring.
  - intros (e & _ & E1)%bind_Some _. injection E1 as <-.
    assert (∀ p, (rank p ≤ 4)%nat → later_of s x (upd s (goto p) (upd s (_dcaps_pending (negb e)) x)) ∧
      st (get s (upd s (goto p) (upd s (_dcaps_pending (negb e)) x))) = Active ∧
      (rank (at_ (get s (upd s (goto p) (upd s (_dcaps_pending (negb e)) x)))) ≤ 4)%nat) as Hp.
    { intros p Hrank. split; [eapply later_trans; by apply later_upd|]. unfold upd. by rewrite !get_set. }
    destruct (negb e || _); apply Hp; cbn; lia.
  - intros (e & _ & E1)%bind_Some _. injection E1 as <-. destruct e; apply Hgo; cbn; done || lia.
  - intros (nr & Hn & E1)%bind_Some. injection E1 as <-. destruct nr as [y|e]; [|unfold upd; by rewrite get_set]. intros _.
    unfold clear_fd in Hn. apply bind_Some in Hn as (e & _ & Hn). apply bind_Some in Hn as (v & _ & Hn).
    destruct (efd_read v) as [v'|]; [|done]. injection Hn as <-. apply Hgo; [apply later_event|apply get_set_event|cbn; lia].
  - intros (e & _ & E1)%bind_Some _. injection E1 as <-. destruct e; apply Hgo; cbn; done || lia.
  - intros (nr & Hn & E1)%bind_Some. injection E1 as <-.
    destruct nr as [y|e]; [|unfold upd; by rewrite get_set]. destruct (notify_later s _ _ _ Hn). intros _. by apply Hgo.
Qed.

Lemma next_rin s x x' : opening (at_ (get s x)) = false → next s x = Some x' → _rin (get s x') = _rin (get s x).
Proof.
  assert (∀ f (y : sys), (∀ c, _rin (f c) = _rin c) → get s y = get s x → _rin (get s (upd s f y)) = _rin (get s x)) as Hu.
  { intros f y Hf Hy. unfold upd. by rewrite get_set, Hf, Hy. }
  assert (∀ d nr y, notify_fd d x = Some nr → nr = Ok y → get s y = get s x) as Hn.
  { intros d nr y Hd ->. by destruct (notify_later s d x y Hd). }
  unfold next, event_clear_race. intros Hop. destruct (at_ (get s x)); try done.
  - by intros [= <-].
  - intros (r & _ & (g & _ & (nr & Hd & [= <-])%bind_Some)%bind_Some)%bind_Some. destruct nr; apply Hu; eauto.
  - intros (e & _ & [= <-])%bind_Some. destruct e; by apply Hu.
  - intros (nr & Hd & [= <-])%bind_Some. apply Hu; [done|]. destruct nr; eauto.
  - intros (r & _ & (g & _ & (q & _ & [= <-])%bind_Some)%bind_Some)%bind_Some. apply Hu; [done|apply get_set_ring].
  - intros (e & _ & [= <-])%bind_Some. destruct (negb e || _); unfold upd; by rewrite !get_set.
  - intros (e & _ & [= <-])%bind_Some. destruct e; by apply Hu.
  - intros (nr & Hd & [= <-])%bind_Some. apply bind_Some in Hd as (e & _ & Hd). apply bind_Some in Hd as (v & _ & Hd).
    destruct (efd_read v); injection Hd as <-; apply Hu; try done.
  - intros (e & _ & [= <-])%bind_Some. destruct e; by apply Hu.
  - intros (nr & Hd & [= <-])%bind_Some. destruct nr; apply Hu; eauto.
Qed.

Lemma finish_spec k : ∀ n x qs s, inv n x qs → Z.of_nat (n + k) < 2 ^ 64 - 2 → st (get s x) = Active →
  (rank (at_ (get s x)) ≤ k)%nat →
  ∃ x' qs', finish k s x = Some x' ∧ inv (n + k) x' qs' ∧ later_of s x x' ∧ st (get s x') = Active ∧ at_rest (get s x') = true.
Proof.
  induction k as [|k IH]; intros n x qs s Hi Hn Hst Hrank.
  - exists x, qs. rewrite Nat.add_0_r. split_and!; [done|done|by split; [..|apply same_logs_refl]|done|].
    unfold at_rest. destruct (at_ (get s x)); cbn in Hrank; done || lia.
  - destruct (next_inv n x qs s Hi) as (x1 & qs1 & E1 & Hi1); [lia|by eapply active_not_opening|]. cbn [finish]. rewrite E1. cbn [mbind option_bind].
    assert (at_ (get s x1) ≠ Ret (Err EINVAL)) as He.
    { intros He. assert (is_Some (_rin (get s x1))) as Hr.
      { rewrite (next_rin _ _ _ (active_not_opening _ _ _ _ Hi Hst) E1). apply (side_running _ _ _ _ (i_side _ _ _ Hi s)). by left. }
      by destruct (so_ret _ _ _ _ (i_side _ _ _ Hi1 s) EINVAL Hr He). }
    destruct (next_later _ _ _ _ _ Hi Hst E1 He) as (L1 & S1 & R1).
    destruct (IH (S n) x1 qs1 s Hi1) as (x2 & qs2 & E2 & Hi2 & L2 & S2 & R2); [lia|done|lia|].
    exists x2, qs2. rewrite E2, Nat.add_succ_r. split_and!; try done. by eapply later_trans.
Qed.

(** One turn of the loop takes the oldest message. *)
Lemma process_turn n x qs s r g : inv n x qs → Z.of_nat (n + 8) < 2 ^ 64 - 2 → at_rest (get s x) = true →
  st (get s x) = Active → wake s x → _rin (get s x) = Some r → rings x !! r = Some g →
  ∃ x' qs' g', calls s (_process kind s) x = Some x' ∧ inv (n + 8) x' qs' ∧ get (other s) x' = get (other s) x ∧
    _rin (get s x') = Some r ∧ st (get s x') = Active ∧ at_rest (get s x') = true ∧
    rings x' !! r = Some g' ∧ sent g' = sent g ∧ got g' = got g ++ (view kind <$> take 1 (qs r)).
Proof.
  intros Hi Hn Hrest Hst Hw Hr Hg. pose proof (process_start _ _ _ _ _ _ Hi Hrest Hst Hw Hr Hg) as Hp. unfold calls.
  destruct (qs r) as [|m q].
  - destruct Hp as [-> Hi1]. cbn [mbind option_bind].
    destruct (finish_spec 8 n _ _ s Hi1 Hn) as (x' & qs' & E2 & Hi2 & [L1 L2 L3] & S2 & R2); [by unfold upd; rewrite get_set|by unfold upd; rewrite get_set; cbn; lia|].
    unfold upd in *. rewrite get_set in *. rewrite get_set_other in L1.
    destruct (L3 r g) as (g' & Hg' & Es & Eg); [by rewrite rings_set|].
    exists x', qs', g'. split_and!; try done; [by rewrite L2|]. by rewrite Eg, app_nil_r.
  - destruct Hp as [-> Hi1]. cbn [mbind option_bind].
    set (g1 := MkRing (queue g) (notify g) (sent g) (got g ++ [view kind m])) in *.
    destruct (finish_spec 8 n _ _ s Hi1 Hn) as (x' & qs' & E2 & Hi2 & [L1 L2 L3] & S2 & R2);
      [by unfold upd; rewrite get_set, get_set_ring|by unfold upd; rewrite get_set; cbn; lia|].
    unfold upd in *. rewrite get_set, get_set_ring in *. rewrite get_set_other, get_set_ring in L1.
    destruct (L3 r g1) as (g' & Hg' & Es & Eg); [rewrite rings_set; apply list_lookup_insert_eq; by eapply lookup_lt_Some|].
    exists x', qs', g'. split_and!; try done. by rewrite L2.
Qed.

(** A reader that is not woken has nothing to read. *)
Lemma asleep_empty n x qs s r : inv n x qs → at_rest (get s x) = true → at_rest (get (other s) x) = true →
  _rin (get s x) = Some r → ¬ wake s x → qs r = [].
Proof.
  intros Hi Hrest Ho Hr Hw. pose proof (opening_not _ (rest_opening _ Hrest)) as Hset.
  destruct (rest_not _ Hrest) as (_ & _ & Hid & _). destruct (rest_not _ Ho) as (Hno & _).
  unfold wake in Hw. destruct (fd (get s x)) as [e|] eqn:He; [|by destruct Hw].
  destruct (ring_of _ _ _ _ _ Hi Hr) as (g & Hg & _ & _).
  destruct (decide (qs r = [])) as [|Hq]; [done|]. exfalso. apply Hw. right.
  by destruct (ro_awake _ _ _ _ _ _ _ (i_reader _ _ _ Hi s r g e Hr Hg He Hset) Hid Hq) as [?|[? _]].
Qed.

Lemma log_of n x qs s r g : inv n x qs → at_rest (get s x) = true → _rin (get s x) = Some r → rings x !! r = Some g →
  ∃ gone, sent g = gone ++ qs r ∧ got g = view kind <$> gone.
Proof.
  intros Hi Hrest Hr Hg. destruct (rest_not _ Hrest) as (_ & Hs & _). destruct (ring_of _ _ _ _ _ Hi Hr) as (g' & Hg' & _ & Hri).
  assert (g' = g) as -> by congruence. rewrite taken_not in Hri by done. destruct Hri as [_ _ (gone & L1 & L2) _ _].
  exists gone. split; [done|]. by rewrite L2, take_0, app_nil_r.
Qed.

Lemma drain_all k : ∀ n x qs s r g, inv n x qs → Z.of_nat (n + 8 * k) < 2 ^ 64 - 2 →
  at_rest (get s x) = true → at_rest (get (other s) x) = true → st (get s x) = Active →
  _rin (get s x) = Some r → rings x !! r = Some g → (length (qs r) ≤ k)%nat →
  ∃ x' g', drain k s x = Some x' ∧ rings x' !! r = Some g' ∧ sent g' = sent g ∧ got g' = view kind <$> sent g.
Proof.
  assert (∀ n x qs s r g, inv n x qs → at_rest (get s x) = true → _rin (get s x) = Some r → rings x !! r = Some g →
    qs r = [] → got g = view kind <$> sent g) as Hdone.
  { intros n x qs s r g Hi H1 H2 H3 Hq. destruct (log_of _ _ _ _ _ _ Hi H1 H2 H3) as (gone & L1 & L2).
    by rewrite L1, L2, Hq, app_nil_r. }
  induction k as [|k IH]; intros n x qs s r g Hi Hn H1 H2 H3 H4 H5 Hlen; cbn [drain].
  - exists x, g. split_and!; try done. apply (Hdone n x qs s r g); try done. by apply length_zero_iff_nil, Nat.le_0_r.
  - destruct (decide (wake s x)) as [Hw|Hw].
    2:{ exists x, g. split_and!; try done. apply (Hdone n x qs s r g); try done. by apply (asleep_empty n x qs s r). }
    destruct (process_turn n x qs s r g Hi) as (x1 & qs1 & g1 & E1 & Hi1 & O1 & R1 & S1 & A1 & G1 & L1 & L2); try done; [lia|].
    rewrite E1. cbn [mbind option_bind]. destruct (log_of _ _ _ _ _ _ Hi H1 H4 H5) as (gone & M1 & M2).
    destruct (log_of _ _ _ _ _ _ Hi1 A1 R1 G1) as (gone1 & N1 & N2).
    destruct (IH (n + 8)%nat x1 qs1 s r g1) as (x2 & g2 & E2 & G2 & F1 & F2); try done; [lia|by rewrite O1| |].
    + assert (length gone1 = length gone + length (take 1 (qs r)))%nat as Hl.
      { rewrite <-(length_fmap (view kind) gone1), <-N2, L2, length_app, !length_fmap, M2, length_fmap. done. }
      assert (length gone1 + length (qs1 r) = length gone + length (qs r))%nat by (rewrite <-!length_app; congruence).
      rewrite length_take in Hl. lia.
    + exists x2, g2. split_and!; [done..|congruence|]. by rewrite F2, L1.
Qed.

(** ** Runs as lists *)
Lemma act_reach n x o x' : reach n x → op_ok o → act o x = Some x' → ∃ n', (n' ≤ S n)%nat ∧ reach n' x'.
Proof.
  intros Hr Hok Ha. assert (move x (act o x) ∨ act o x = Some x) as [Hm|Hm].
  { destruct o as [s o]. unfold act; cbn [fst snd]. destruct o as [| |m| |].
    - destruct (at_rest _) eqn:E1; [|by right]. cbn [andb]. case_bool_decide; [left; by constructor|by right].
    - destruct (at_rest _) eqn:E1; [|by right]. cbn [andb]. case_bool_decide; [by right|]. cbn [negb andb].
      destruct (calm && bool_decide _) eqn:E2; cbn [negb]; [by right|left]. constructor; try done.
      intros -> Hs Hat. rewrite bool_decide_true in E2; done.
    - destruct (at_rest _) eqn:E1; [|by right]. cbn [andb]. destruct Hok. case_bool_decide; [left; by constructor|by right].
    - destruct (at_rest _) eqn:E1; [|by right]. cbn [andb]. case_bool_decide; [|by right]. cbn [andb].
      case_bool_decide; [left; by constructor|by right].
    - destruct (at_rest (get s x)) eqn:E1; [|left; by constructor]. right. unfold next. unfold at_rest in E1. by destruct (at_ (get s x)). }
  - rewrite Ha in Hm. exists (S n). split; [lia|by econstructor].
  - assert (x' = x) as -> by congruence. exists n. split; [lia|done].
Qed.

Lemma run_reach os : ∀ n x x', reach n x → Forall op_ok os → run os x = Some x' → ∃ n', (n' ≤ length os + n)%nat ∧ reach n' x'.
Proof.
  induction os as [|o os IH]; intros n x x' Hr Hok; cbn [run length]; [intros [= <-]; by exists n|].
  apply Forall_cons in Hok as [Ho Hok]. intros (y & Hy & Hrun)%bind_Some.
  destruct (act_reach _ _ _ _ Hr Ho Hy) as (n1 & Hn1 & Hr1). destruct (IH _ _ _ Hr1 Hok Hrun) as (n2 & Hn2 & Hr2).
  exists n2. split; [lia|done].
Qed.

(** ** Properties *)

(** C7: Two threads make the accesses of their calls on a pair of memory
    channels in any order; the channels are closed and opened again at any
    time, [_process] is called by the event loop (when the channel is woken:
    [early_process] shows another call) and callbacks do not close their
    channel ([close_in_callback]). Then no call reaches a null pointer or
    leaves a ring, but for one case: a master that is closed after a child has
    checked its state and before it has copied the rings leaves the child that
    opens without a ring, which it dereferences; in runs without this close
    ([calm]) no call faults. An open channel never fails (clearing the event
    included; a post may be refused for lack of room), and what the reader of
    a ring has got is, frame by frame, what was stored in it, in order and
    without gaps, with the rest still in the ring. *)
Theorem mem_channel_order n x : reach n x → Z.of_nat n < 2 ^ 64 - 2 →
  (calm = true → ∀ o, move x o → is_Some o) ∧
  (move x None → at_ (child x) = SetNotify ∧ _rin (child x) = None) ∧
  (∀ s e, is_Some (_rin (get s x)) → at_ (get s x) = Ret (Err e) → e = EAGAIN ∨ e = ERANGE) ∧
  (∀ r g, rings x !! r = Some g → ∃ gone q, sent g = gone ++ q ∧ fifo_rep (queue g) (encode kind <$> q) ∧
     got g = view kind <$> gone ++ take (taken (get (owner r) x) r) q).
Proof.
  intros Hr Hn. destruct (reach_inv n x Hr) as [qs Hi]; [lia|]. split_and!.
  - intros Hc o Hm. destruct (move_inv n x qs o Hi Hn Hm) as [(x' & qs' & -> & _)|(_ & ? & _)]; [by eexists|congruence].
  - intros Hm. by destruct (move_inv n x qs None Hi Hn Hm) as [(x' & qs' & ? & _)|(_ & _ & ?)].
  - intros s e H1 H2. by apply (so_ret _ _ _ _ (i_side _ _ _ Hi s)).
  - intros r g Hg. destruct (i_ring _ _ _ Hi r g Hg) as [I1 _ (gone & L1 & L2) _ _]. by exists gone, (qs r).
Qed.

(** C6: no wake-up is lost: whenever no call is in progress, an open reader that has not yet got everything stored in its ring
    is woken by the event loop, and the loop, in as many turns as there are messages, gives it all of it. *)
Theorem mem_channel_wakes n x s r g : reach n x → Z.of_nat (n + 8 * length (sent g)) < 2 ^ 64 - 2 →
  at_rest (get s x) = true → at_rest (get (other s) x) = true → st (get s x) = Active →
  _rin (get s x) = Some r → rings x !! r = Some g →
  (got g = view kind <$> sent g ∨ wake s x) ∧
  ∃ x' g', drain (length (sent g)) s x = Some x' ∧ rings x' !! r = Some g' ∧ sent g' = sent g ∧ got g' = view kind <$> sent g.
Proof.
  intros Hr Hn H1 H2 H3 H4 H5. destruct (reach_inv n x Hr) as [qs Hi]; [lia|].
  destruct (log_of _ _ _ _ _ _ Hi H1 H4 H5) as (gone & L1 & L2). split.
  - destruct (decide (wake s x)) as [|Hw]; [by right|left].
    pose proof (asleep_empty _ _ _ _ _ Hi H1 H2 H4 Hw) as Hq. by rewrite L2, L1, Hq, app_nil_r.
  - apply (drain_all _ n x qs s r g); try done. rewrite L1, length_app. lia.
Qed.

(** The reader finds no ring when its user has closed it in the callback of a message. *)
Lemma close_in_callback s (x : sys) : next s (upd s (goto Shift) (_close s x)) = None.
Proof. unfold next, _close, upd. rewrite !get_set. done. Qed.

(** A channel without messages leaves its event as it is: the loop wakes it again at once. *)
Lemma process_empty n x qs s r : inv n x qs → _rin (get s x) = Some r → qs r = [] →
  _process kind s x = Some (upd s (ret (Err EAGAIN)) x).
Proof.
  intros Hi Hr Hq. destruct (ring_of _ _ _ _ _ Hi Hr) as (g & Hg & _ & Hri). unfold _process. rewrite Hr. cbn [mbind option_bind].
  rewrite Hg. cbn [mbind option_bind]. rewrite (fifo_read_spec _ _ (ri_rep _ _ _ _ Hri)), Hq. done.
Qed.
End Spec.

(** ** Runs over the C ring *)

(** A counter that keeps the contract of [EventFd]. *)
#[local] Instance efd_N : EventFd N.
Proof.
  refine {|
    efd_new := 0%N;
    efd_write e := if Z.of_N e <? 2 ^ 64 - 2 then Ok (N.succ e) else Err EAGAIN;
    efd_read e := if N.eqb e 0 then Err EAGAIN else Ok 0%N;
    efd_count := Z.of_N;
  |}.
  - done.
  - intros e. lia.
  - intros e He. rewrite (proj2 (Z.ltb_lt _ _)) by done. eexists. split; [done|lia].
  - intros e He. by destruct e.
  - intros e He. destruct e; [done|]. by exists 0%N.
Defined.

#[local] Existing Instances RingC.ring_fifo wake_dec.

Definition small_ring : option RingC.ring_header := Some RingC.sample.

Lemma small_ring_rep q : small_ring = Some q → fifo_rep q [].
Proof. intros [= <-]. exists []. apply RingC.sample_rep. Qed.

Definition text (s : Z) (b : list Z) : msg := Msg DATA 0 7 s b (zlen b) 0 0.

Lemma text_ok s k b : 0 ≤ k < 100 → zlen b < 100 → @op_ok RingC.ring_header _ Short (s, Post (text k b)).
Proof.
  intros Hk Hb. split.
  - split; cbn; lia.
  - change (zlen (encode Short (text k b)) ≤ 2147483632). rewrite zlen_encode. cbn [sizeof_frame m_data text]. lia.
Qed.

(** Both channels are opened, the master posts two messages, the second one while the child processes the first. *)
Definition session : list (side * op) :=
  [(Master, Open); (Master, Next); (Child, Open); (Child, Next); (Child, Next); (Child, Next);
   (Master, Post (text 1 [10])); (Master, Next);
   (Child, Process); (Child, Next); (Child, Next); (Child, Next);
   (Master, Post (text 2 [20])); (Child, Next); (Child, Next); (Child, Next); (Master, Next)].

Definition session_end : option (sys RingC.ring_header N) := run Short small_ring true true session init.

Lemma session_ok : Forall (@op_ok RingC.ring_header _ Short) session.
Proof. unfold session. repeat first [apply List.Forall_nil|apply Forall_cons; split]; try done; apply (text_ok Master); done || lia. Qed.

Definition final : sys RingC.ring_header N := default init session_end.

Lemma final_reach : ∃ n, (n ≤ 17)%nat ∧ @reach RingC.ring_header N _ _ Short small_ring true true n final.
Proof.
  destruct (run_reach Short small_ring true true session 0 init final) as (n & Hn & Hr).
  - constructor.
  - apply session_ok.
  - vm_compute. reflexivity.
  - exists n. split; [|done]. cbn in Hn. lia.
Qed.
Lemma mem_channel_order_witness :
  (∀ o, @move RingC.ring_header N _ _ Short small_ring true true final o → is_Some o) ∧
  ∃ g gone q, rings final !! 1%nat = Some g ∧ sent g = gone ++ q ∧ @fifo_rep RingC.ring_header _ (queue g) (encode Short <$> q) ∧
    got g = view Short <$> gone.
Proof.
  destruct final_reach as (n & Hn & Hr).
  destruct (mem_channel_order Short small_ring true true small_ring_rep n final Hr) as (H1 & _ & _ & H3); [lia|]. split; [exact (H1 eq_refl)|].
  destruct (rings final !! 1%nat) as [g|] eqn:Hg; [|vm_compute in Hg; discriminate Hg].
  destruct (H3 1%nat g Hg) as (gone & q & L1 & L2 & L3). exists g, gone, q. split_and!; try assumption; [reflexivity|].
  rewrite L3. replace (taken (get (owner 1) final) 1) with 0%nat by (vm_compute; reflexivity). by rewrite take_0, app_nil_r.
Defined.

Lemma mem_channel_wakes_witness :
  ∃ x' g', drain Short 2 Child final = Some x' ∧ rings x' !! 1%nat = Some g' ∧ got g' = [text 1 [10]; text 2 [20]].
Proof.
  destruct final_reach as (n & Hn & Hr).
  destruct (rings final !! 1%nat) as [g|] eqn:Hg; [|vm_compute in Hg; discriminate Hg].
  assert (sent g = [text 1 [10]; text 2 [20]]) as Hs by (vm_compute in Hg; injection Hg as <-; vm_compute; reflexivity).
  destruct (mem_channel_wakes Short small_ring true true small_ring_rep n final Child 1 g Hr) as (_ & x' & g' & E1 & E2 & _ & E4).
  - rewrite Hs. cbn [length]. lia.
  - vm_compute. reflexivity.
  - vm_compute. reflexivity.
  - vm_compute. reflexivity.
  - vm_compute. reflexivity.
  - exact Hg.
  - exists x', g'. rewrite Hs in E1, E4. split_and!; [exact E1|exact E2|]. rewrite E4. vm_compute. reflexivity.
Defined.

(** ** What can go wrong *)
Definition both_open : list (side * op) :=
  [(Master, Open); (Master, Next); (Child, Open); (Child, Next); (Child, Next); (Child, Next)].
Definition turn (s : side) : list (side * op) := (s, Process) :: replicate 6 (s, Next).

(** A message is read before its writer comes to the notification.  The event is then readable with an empty ring,
    [_process] returns EAGAIN and does not clear it: the loop calls it again and again. *)
Definition late : list (side * op) :=
  both_open ++ [(Master, Post (text 1 [10])); (Master, Next); (Master, Post (text 2 [20]))] ++ turn Child ++ turn Child ++ [(Master, Next)].

Definition spins (x : sys RingC.ring_header N) : option bool :=
  let! x' := calls Child (_process Short Child) x in
  Some (bool_decide (wake Child x) && bool_decide (wake Child x') && bool_decide (events x' = events x) &&
        bool_decide (at_ (child x') = Ret (Err EAGAIN)) && bool_decide (length ∘ got <$> rings x' = length ∘ got <$> rings x)).

Lemma late_notify : (let! x := run Short small_ring true true late init in spins x) = Some true.
Proof. vm_compute. reflexivity. Qed.

(** A user that calls [_process] on its own, without having been woken, may come before the first notification:
    clearing the event fails, and so does the channel. *)
Lemma early_process :
  (let! x := run Short small_ring true true (both_open ++ [(Master, Post (text 1 [10]))]) init in
   let! x := calls Child (_process Short Child) x in Some (st (child x), at_ (child x))) = Some (Error, Ret (Err EINVAL)).
Proof. vm_compute. reflexivity. Qed.

(** The master is closed by its thread after the child has checked its state: the child copies null pointers
    and takes the next step of [_open] on one of them. *)
Definition closed_early : list (side * op) :=
  [(Master, Open); (Master, Next); (Child, Open); (Master, Close); (Child, Next)].

Lemma close_while_opening :
  (let! x := run Short small_ring true false closed_early init in
   Some (st (child x), at_ (child x), _rin (child x), bool_decide (next Child x = None))) = Some (Opening, SetNotify, None, true).
Proof. vm_compute. reflexivity. Qed.

(** What was posted while the child was closed is there when it is opened again. *)
Lemma reopened :
  (let! x := run Short small_ring true true
     (both_open ++ [(Child, Close); (Master, Post (text 1 [10])); (Master, Next); (Child, Open); (Child, Next); (Child, Next); (Child, Next); (Child, Next)] ++ turn Child) init in
   let! g := rings x !! 1%nat in Some (got g)) = Some [text 1 [10]].
Proof. vm_compute. reflexivity. Qed.
End MemChannelSpec.
